(* ===== verification/_CoqProject ===== *)
-Q . S2P
Prelude.v
GoStrings.v
GoStrconv.v
GoEncoding.v
GoURL.v
GoNet.v
Netguard.v
GoPath.v
AclPolicy.v
AclEvaluator.v
OAuthTokens.v
OAuthConsent.v
OAuthServer.v
OAuthJwt.v
OAuthClients.v
Forwarding.v
AuthMiddleware.v
Ring.v
History.v
ExecManager.v
SortedLists.v
Restarts.v
SortByIndex.v
CacheState.v
CacheStacks.v
CacheIndex.v
CacheOps.v
Cache.v
CacheProps.v
CacheStore.v
CacheList.v
CacheResolver.v
Versions.v
Resolve.v
HostAccess.v
ClusterWrites.v
Placement.v
ServiceState.v
Topology.v
Ipam.v
Watcher.v
WatcherBatch.v
WatcherConverge.v
WatcherLoop.v
Conditional.v
ConditionalWrites.v
Negotiate.v
Patch.v
Pagination.v
Logs.v
LogFrames.v
SseEvents.v
SseBroadcaster.v
SseStream.v
SseProps.v
Attributions.v
Recovery.v
TimelineStore.v
Annotations.v
AnnotationWrites.v
McpNotifications.v
SecretEntries.v
McpConfirm.v
McpTasks.v
ApiRoutes.v
ApiWrites.v
