(* ===== verification/Prelude.v ===== *)
(** * Cetacean, verified

    Cetacean is a dashboard for a Docker Swarm: it keeps a copy of the cluster's
    state in memory, serves it over HTTP as pages, JSON and event streams and to
    assistants over MCP, lets those with the right write to it, and hands out
    tokens and shells. This library models the parts of that program whose
    correctness is its own, from the Go source under src/internal, and proves
    what makes each correct. A definition carries the name of the function it
    translates.

    ** The program's parts and how they interact

    The watcher (docker/watcher.go) reads the engine's events and lists and
    writes the cache (cache/). A write of the cache is a critical section that
    leaves events; they are appended to the history (cache/history.go) and given
    to the broadcaster (api/sse) and to the MCP server's subscriptions
    (mcp/notifications.go), which hand each reader those it may see. What a
    reader may see or do is the ACL evaluator's answer (acl/), which asks the
    cache for the stack a resource belongs to.

    A request first loses what an untrusted peer wrote of its own address
    (api/realip.go), is authenticated (auth/), reaches a route (api/router.go)
    behind the gates of its level and grant (api/allow.go), and is answered in
    the representation it asks for (api/negotiate.go). A write ends in the use
    cases of cluster/, which resolve the record it names, judge it against the
    caller's grants and tier and ask Docker for the change; it may be conditional
    on what its client saw (api/etag.go, precondition.go) and is then pinned to
    that version of the engine's record (docker/version.go). The MCP server's
    writes go through the same use cases after a person confirmed them
    (mcp/confirm.go). Around the cache, cluster/ derives states, graphs, version
    groups and address figures. The OAuth server (oauth/) has endpoints over
    stores of its own and signs the tokens the middleware accepts; shell sessions
    (exec/) keep a state machine beside an audit log.

    ** Files

    Foundations.
    - Prelude: this file; machine integers, times, the order of a map's range,
      lists.
    - GoStrings, GoStrconv, GoURL, GoPath, GoNet: the parts of Go's strings,
      strconv, net/url, path and net/netip the program uses, as executable
      definitions with their round trips. [Unicode] is a class: case folding
      and white space are tables.
    - GoEncoding: unpadded base64 and big-endian numbers, executable, and what
      encoding/json promises of its texts ([JSON], [JSONLaws]).
    - SortedLists, Ring: sorted slices as the slices package keeps them, ring
      buffers.
    - Netguard: netguard.go, the addresses an outgoing connection is refused.

    Access control, internal/acl.
    - AclPolicy: policy.go, match.go, source.go and the provider sources: grants,
      their validation, what an expression covers.
    - AclEvaluator: evaluator.go, with the token source, memoization and reload.
      An [Evaluator] is the policy, the source and the resolver; [Can],
      [Filter], [TypeGrants] are its methods. The resolver is a class, [Resolver],
      which CacheResolver discharges for the cache.

    Tokens, internal/oauth.
    - OAuthTokens: store.go, the authorization codes and the refresh store with
      its families and its persistence.
    - OAuthConsent: consent_store.go and resource.go, remembered approvals and
      what is hashed to name them.
    - OAuthServer: server.go and consent.go, the authorize, token and revoke
      endpoints as steps over those stores; a run is any list of requests.
    - OAuthJwt: jwt.go and identity.go, the header, the payload's JSON and the
      signature's encoding included. OAuthClients: dcr.go and cimd.go, the
      registry of clients and the cache of client metadata documents.

    Who a request is from, internal/auth and internal/api.
    - Forwarding: forwarded.go, realip.go and peer.go, the client's address
      behind trusted proxies.
    - AuthMiddleware: middleware.go, token.go, headers.go and session.go.

    The cache, internal/cache.
    - CacheState: the resources, the events and the [Cache] record.
    - SortByIndex: sortByIndex of resourcemap.go, the in-place permutation.
    - CacheStacks: stacks.go. CacheIndex: service_refs.go and the task indexes.
    - CacheOps: the operations, each a function from a cache to a cache and the
      events it announces. CacheList: its reads.
    - Cache: the invariant every operation preserves. CacheProps: what follows
      in every reachable cache. CacheStore: the abstract store and the
      refinement. CacheResolver: resolver.go.
    - History: history.go, the ring of entries and the ring per resource.
    - Restarts: restarts.go, counts in time buckets.
    - Attributions: attribution.go and docker/attribution.go, whom a change is
      credited to, as writers, the engine and the watcher interleave.
    - Annotations: annotations.go, the index of notes, its writes, and the
      timeline merged from ring and notes.

    The timeline on disk, internal/timeline.
    - TimelineStore: sqlite.go, writer.go and what main.go restores, the tables
      and the writer that follows the ring.
    - Recovery: docker/recover.go, what a restart recovers of the gap.

    The cluster's use cases, internal/cluster and what they stand on.
    - Resolve: an ID or a name to a resource. HostAccess: what a change to a
      service may do to its host. ClusterWrites: every write, from what it
      judges to the call it asks Docker for.
    - Placement (placement, quorum), ServiceState (state.go, converge.go),
      Topology (topology.go, drainimpact.go): where tasks may run, what state
      things are in, what a drain moves.
    - Versions (versions, cluster/versions.go): the versions rotation leaves
      behind and the index of them. Ipam (ipam, addresses.go): address figures.
    - SecretEntries (secretentry.go): secrets a person types in the dashboard
      for a caller of MCP.
    - AnnotationWrites: cluster/annotations.go, who may write which note, with
      the tags of api/annotation_handlers.go.

    The watcher, internal/docker.
    - Watcher: watcher.go's operations over the cache, and its state machine, a
      relation-free one: [perform_watcher] executes an action, a run is a list
      of actions. WatcherBatch: a batch of events, a re-list, an inspection.
      WatcherConverge: the cache converges. WatcherLoop: timers, flags and
      backoffs.

    The HTTP API, internal/api.
    - ApiRoutes: the table of router.go with the chains of allow.go, and which
      route the mux answers with. ApiWrites: the gates of write_middleware.go
      and allow.go, the readiness gate, the catch-all and the Allow header.
    - Negotiate: negotiate.go, encoding.go's choice, prefer.go, dispatch.go, and
      RFC 9110's reading of an Accept header as relations.
    - Conditional: etag.go, validators, If-Match, If-None-Match, If-Range.
    - ConditionalWrites: precondition.go and the versioned writers, as a machine
      of writes racing each other, the engine and the cache.
    - Patch: jsonpatch.go, label patches and mergePatch.
    - Pagination: pagination.go and list.go's page.
    - Logs, LogFrames: internal/logs/logs.go and the loop of a log stream.
    - SseEvents, SseBroadcaster: broadcaster.go, events, frames and the four
      kinds of goroutine. SseStream: the invariant. SseProps: what follows.

    Shells, internal/exec.
    - ExecManager: manager.go, sessions and their audit records.

    Assistants, internal/mcp.
    - McpNotifications: subscriptions.go and notifications.go, the index of who
      hears what.
    - McpConfirm: confirm.go, choose.go and secretentry.go, what a person is
      asked before a tool acts, with the state signed through the client.
    - McpTasks: tasks.go and watch.go, bounds and owners of what runs on.

    ** How the code is rendered

    A Go value is a record or an inductive type with the source's fields that
    the code reads; a map is a [gmap], its range an order the proofs do not
    know ([MapRange]); a slice is a list; a string is its bytes. An int is a Z
    with its wrap-around written where it can be reached ([wrap_int64]); a time
    is a Z of nanoseconds and a difference of times saturates as the language's
    does. An error is a value of a sum or an option. A function that takes a
    mutex is one step; one that releases it midway, or that shares state with
    another goroutine, is several, and the theorems quantify over every
    interleaving: ExecManager's activities, SseBroadcaster's actions,
    ConditionalWrites' actions, and those of Versions, Watcher,
    AnnotationWrites, TimelineStore and Attributions. Where what is shared is
    pointed at from several places, as the subscriptions of McpNotifications
    are, the model keeps a heap.

    What is not the program's own is an argument: the Docker engine's answers
    ([ServiceEngine], [RestEdits]), SHA-256, HMAC and ECDSA ([ES256]), JSON and
    the encodings of the session cookie, the confirmation's state and hashes
    ([JSON], [Encodings], [SessionCodec], [StateCodec]; the encoder of
    SseEvents), Unicode tables, HTTP dates ([HTTPDates]), media types ([Mime]),
    URL parsing beyond GoURL ([URLs]), the decoding of documents ([Documents]),
    compressors ([Coders]), package time's parsing of log timestamps
    ([LogTimes]), random tokens and the clock. What a theorem asks of one is a
    class of laws or a hypothesis, with an instance in the witnesses. Signatures
    enter as a hypothesis on a run: a CSRF token, or a round-trip state, that
    verifies is one the server handed out (the run is unforged). Of one
    method and path there is one route, where the mux would panic at a second.

    ** What is shown

    - Refinement: the cache's operations implement a store told resource by
      resource; the history answers from its index what a scan would; the cache
      is a resolver; the history is the last entries recorded.
    - Access: the evaluator's decision equals an unpruned reading of what the
      grants cover; exec needs a grant that names it; the type-level listing
      covers every call under a policy; memoization changes nothing.
    - Requests: no writing request reaches its handler past its level and grant,
      and the catch-all's Allow lists what the chains let the caller use (HEAD
      wherever a route answers it); the client's address is the trusted proxies'
      word; a request is served as what vouched for it; sessions read back;
      negotiation picks the representation RFC 9110 reads a header to prefer.
    - Writes: what reaches Docker was judged against the record's own ID; below
      the impactful tier no sequence of writes, judged where it matters on the
      spec the engine holds, gives a service a way to the host; a refused write
      to a hidden record is answered as a missing one; an identifier resolves to
      its one resource or is ambiguous.
    - Tokens: every token goes back to an approval that stood when its grant was
      issued, given on a page shown for that very request; withdrawing it
      prompts again; replaying a token burns its family; a token reads back as
      its claims, at its resource and in its time, through the issuer's own
      encoding; redirects go where a client registered; documents are cached as
      their headers allow.
    - Convergence: a settled cluster's image is reached and kept; batches come
      out the same in every order of the workers; inspections end; the loop's
      timers and backoffs stay as relied on; versions never go back.
    - Derived views: a service is movable off a drained node exactly when its
      tasks fit elsewhere (within 64 bits); a wait ends on the first settled look; a listing
      accounts for every version it hides, from an index never stale; address
      figures count what they say; the network guard refuses what it means to.
    - Streams: no reader's position passes a history entry its filter admitted
      and it was not given, in any interleaving; a lagging stream catches up
      whatever runs beside it; a resync itself can be missed (SseProps'
      [resync_skipped]); ids read back; the caps
      on connections hold; a log stream that resumes skips nothing it owes; a
      subscription hears exactly what names it.
    - Assistants: a confirmed write was confirmed by a person asked about that
      write, a choice was chosen, a secret was entered by its owner, a task is
      its creator's alone; the caps on open entries hold.
    - Shells: every start is audited before its shell runs and paired with an
      end, in every interleaving and at shutdown.
    - The API: conditional answers are exact, a conditional write never
      overwrites what its client did not see, patches do what their kind says
      or nothing, following next links reads a list once and whole, item ranges
      are exact, what the daemon frames is read back.
    - History: the timeline is exactly the newest of ring and notes; a note is
      written as its caller's grants on the old and the new resources allow;
      a restart keeps what landed, all of it unless the ring was overrun, and
      reissues no ID it could reserve; a change is credited to a
      write that made it; a gap's recovery is complete from where it says.

    ** Bounds and fuel

    Recursion that is not structural carries fuel: path matching takes the
    length of the pattern and the name and is shown never to run out
    (GoPath); a frame takes eight bytes or more, so the length of what is read
    is enough (Logs.read_frames, whose round trip has no fuel in its statement);
    sortByIndex's cycles are followed within the length of the slice, which
    its theorem shows suffices; an inspection's retries are counted by the
    elapsed time, within ten seconds; formatting an integer takes twenty digits,
    enough for 64 bits; a pool's first free address is sought three times, for
    at most the network and the broadcast address stand in its way (Ipam). The
    version index compares 64-bit generations, so its theorem is of runs of
    fewer than 2^64 steps, as is the one of attributions, whose numbers are 64
    bits wide. A timeline reads its notes in batches, at most as many as there
    are notes and one (Annotations.batches).

    ** Not modelled
    The handlers' rendering and the MCP server's tools and resources (thousands
    of lines that shape JSON from what the cache lists), the OAuth server's
    pages and cookies, building of URLs, the files state is persisted to and
    what opens and migrates the timeline's database, Prometheus and image registries (I/O), parsing
    of configuration, Compose and integrations (conversion of third-party data),
    recommendations (thresholds on floating-point metrics), and the Docker
    client beyond its full sync and its versioned writers (SDK calls one by
    one). Metrics and logging are left out everywhere. Of the modelled files,
    each file's opening comment says what is left out. *)
From Stdlib Require Export Ascii ZArith Lia.
From stdpp Require Export base tactics option list gmap strings sorting fin_maps fin_sets.

Declare Scope go_scope.
Delimit Scope go_scope with go.
#[global] Open Scope go_scope.

(** m[k] of a map to strings: the zero value where the map has no entry. *)
Notation "m .[ k ]" := (default ""%string (m !! k)) (at level 2, left associativity, format "m .[ k ]") : go_scope.

Create HintDb go discriminated.

(** * Generic list lemmas *)

Lemma existsb_False {A} (f : A → bool) (l : list A) :
  existsb f l = false ↔ ∀ x, x ∈ l → f x = false.
Proof.
  induction l as [|y l IH]; simpl; [set_solver|].
  rewrite orb_false_iff, IH. set_solver.
Qed.

Lemma existsb_True {A} (f : A → bool) (l : list A) :
  existsb f l = true ↔ ∃ x, x ∈ l ∧ f x = true.
Proof.
  rewrite existsb_exists. setoid_rewrite <- list_elem_of_In. done.
Qed.

Lemma existsb_ext {A} (f g : A → bool) (l : list A) :
  (∀ x, x ∈ l → f x = g x) → existsb f l = existsb g l.
Proof.
  induction l as [|y l IH]; intros H; simpl; [done|].
  rewrite H by set_solver. f_equal. apply IH. set_solver.
Qed.

Lemma existsb_filter {A} (f g : A → bool) (l : list A) :
  existsb f (List.filter g l) = existsb (λ x, g x && f x) l.
Proof. induction l as [|y l IH]; simpl; [done|]. destruct (g y); simpl; by rewrite IH. Qed.

(** The first error a loop with early returns reports. *)
Fixpoint first_error {A E} (f : A → option E) (l : list A) : option E :=
  match l with
  | [] => None
  | x :: l => match f x with Some e => Some e | None => first_error f l end
  end.

Lemma first_error_None {A E} (f : A → option E) l :
  first_error f l = None ↔ ∀ x, x ∈ l → f x = None.
Proof.
  induction l as [|y l IH]; simpl; [set_solver|].
  destruct (f y) eqn:E'.
  - split; [done|]. intros H. rewrite H in E' by set_solver. done.
  - rewrite IH. set_solver.
Qed.

(** ** Machine integers *)

(** A value stored in an unsigned w-bit variable. *)
Definition wrap (w : Z) (x : Z) : Z := (x mod 2 ^ w)%Z.

(** A value stored in an int64. *)
Definition wrap_int64 (x : Z) : Z := ((x + 2 ^ 63) mod 2 ^ 64 - 2 ^ 63)%Z.

(** A duration or time difference that saturates, as time.Time.Sub does. *)
Definition max_int64 : Z := (2 ^ 63 - 1)%Z.
Definition min_int64 : Z := (- 2 ^ 63)%Z.
Definition saturate64 (x : Z) : Z := (Z.max min_int64 (Z.min max_int64 x))%Z.

(** Times are nanoseconds since Go's zero time, so [IsZero] is equality with
    zero; a time has no width, and a difference of two is an int64. *)
Definition time_sub (t u : Z) : Z := saturate64 (t - u).
Definition time_after (t u : Z) : bool := (u <? t)%Z.
Definition time_before (t u : Z) : bool := (t <? u)%Z.
Definition time_zero : Z := 0%Z.
(** Time.Unix, counted from the zero time as well. *)
Definition unix (t : Z) : Z := (t / 1000000000)%Z.
Definition is_zero_time (t : Z) : bool := (t =? 0)%Z.

(** The order Go ranges over a map in, which the language leaves open: what a
    definition computes from it holds for every order. *)
Class MapRange := {
  range : ∀ {K} `{Countable K} {A}, gmap K A → list (K * A);
  range_perm : ∀ {K} `{Countable K} {A} (m : gmap K A), range m ≡ₚ map_to_list m;
}.

(** One such order, for the closed examples. *)
Definition map_range_std : MapRange :=
  {| range := λ K _ _ A m, map_to_list m; range_perm := λ K _ _ A m, Permutation_refl _ |}.

Lemma elem_of_range `{MapRange} `{Countable K} {A} (m : gmap K A) k x :
  (k, x) ∈ range m ↔ m !! k = Some x.
Proof. by rewrite range_perm, elem_of_map_to_list. Qed.

Lemma NoDup_range `{MapRange} `{Countable K} {A} (m : gmap K A) : NoDup (range m).*1.
Proof. rewrite range_perm. apply NoDup_fst_map_to_list. Qed.

(** ** Lists *)

Lemma last_snoc_inv {A} (l : list A) x : last l = Some x → ∃ k, l = k ++ [x].
Proof. apply last_Some. Qed.

Lemma filter_none {A} (P : A → Prop) `{!∀ x, Decision (P x)} (l : list A) :
  (∀ x, x ∈ l → ¬ P x) → filter P l = [].
Proof.
  induction l as [|x l IH]; intros Hl; [done|].
  rewrite filter_cons_False by (apply Hl; set_solver). apply IH. set_solver.
Qed.

Lemma filter_all {A} (P : A → Prop) `{!∀ x, Decision (P x)} (l : list A) :
  (∀ x, x ∈ l → P x) → filter P l = l.
Proof.
  induction l as [|x l IH]; intros Hl; [done|].
  rewrite filter_cons_True by (apply Hl; set_solver). f_equal. apply IH. set_solver.
Qed.

Lemma StronglySorted_weaken {A} (R S : A → A → Prop) (l : list A) :
  (∀ x y, R x y → S x y) → StronglySorted R l → StronglySorted S l.
Proof.
  intros HRS. induction 1 as [|x l Hs IH Hall]; [constructor|]. constructor; [done|].
  eapply Forall_impl; [exact Hall|]. auto.
Qed.

Lemma StronglySorted_weaken_in {A} (R S : A → A → Prop) (l : list A) :
  (∀ x y, x ∈ l → y ∈ l → R x y → S x y) → StronglySorted R l → StronglySorted S l.
Proof.
  intros HRS. induction 1 as [|x l Hs IH Hall]; [constructor|].
  constructor; [apply IH; intros; apply HRS; set_solver|].
  rewrite Forall_forall in *. intros y Hy. apply HRS; [set_solver..|]. by apply Hall.
Qed.

Lemma StronglySorted_rev {A} (R : A → A → Prop) (l : list A) :
  StronglySorted R l → StronglySorted (flip R) (reverse l).
Proof.
  induction 1 as [|x l Hs IH Hall]; [constructor|]. rewrite reverse_cons.
  apply StronglySorted_app. split_and!; [|done|repeat constructor].
  intros y z Hy ->%list_elem_of_singleton. rewrite elem_of_reverse in Hy.
  rewrite Forall_forall in Hall. by apply Hall.
Qed.

Lemma StronglySorted_sublist {A} (R : A → A → Prop) (k l : list A) :
  k `sublist_of` l → StronglySorted R l → StronglySorted R k.
Proof.
  induction 1 as [|x k l Hsub IH|x k l Hsub IH]; intros Hs; [done|inversion_clear Hs as [|? ? Hl Hx]..];
    [|by apply IH].
  constructor; [by apply IH|]. apply Forall_forall. intros y Hy.
  rewrite Forall_forall in Hx. apply Hx. by eapply elem_of_sublist.
Qed.

(** Bits put above others, as a sum. *)
Lemma lor_shift a n b : (0 ≤ n → 0 ≤ b < 2 ^ n → Z.lor (Z.shiftl a n) b = a * 2 ^ n + b)%Z.
Proof.
  intros Hn Hb. rewrite <-Z.shiftl_mul_pow2 by done. rewrite <-Z.lxor_lor, <-Z.add_nocarry_lxor; [done|..];
    (apply Z.bits_inj'; intros i Hi; rewrite Z.land_spec, Z.bits_0;
     destruct (Z.lt_ge_cases i n); [by rewrite Z.shiftl_spec_low|];
     rewrite (Z.testbit_eqb b) by lia; rewrite Z.div_small; [by rewrite andb_false_r|];
     split; [lia|]; apply (Z.lt_le_trans _ (2 ^ n)); [lia|]; apply Z.pow_le_mono_r; lia).
Qed.
