(* ===== verification/GoStrings.v ===== *)
(** The operations of Go's package [strings] that the program uses, on byte
    strings: a Go string is a sequence of bytes, here a [string] of [ascii].
    The functions that need Unicode tables (case folding, white space) are in
    the class [Unicode], whose methods are arguments of the definitions that
    use them. *)
From S2P Require Import Prelude.
#[local] Open Scope string_scope.
#[local] Open Scope nat_scope.
#[global] Arguments String.append : simpl nomatch.

(** s[n:] *)
Fixpoint str_drop (n : nat) (s : string) : string :=
  match n, s with
  | S n', String _ s' => str_drop n' s'
  | _, _ => s
  end.

(** s[:n] *)
Fixpoint str_take (n : nat) (s : string) : string :=
  match n, s with
  | S n', String c s' => String c (str_take n' s')
  | _, _ => ""
  end.

(** What follows a leading byte [c]. *)
Definition eat (c : ascii) (s : string) : option string :=
  match s with
  | String d s' => if Ascii.eqb d c then Some s' else None
  | "" => None
  end.

Fixpoint HasPrefix (s p : string) {struct p} : bool :=
  match p, s with
  | "", _ => true
  | String c p', String d s' => Ascii.eqb c d && HasPrefix s' p'
  | String _ _, "" => false
  end.

Definition HasSuffix (s p : string) : bool :=
  (String.length p <=? String.length s)%nat &&
  String.eqb (str_drop (String.length s - String.length p) s) p.

Definition TrimPrefix (s p : string) : string :=
  if HasPrefix s p then str_drop (String.length p) s else s.

Definition TrimSuffix (s p : string) : string :=
  if HasSuffix s p then str_take (String.length s - String.length p) s else s.

(** The first occurrence of [sep], as what precedes and what follows it. *)
Fixpoint cut_at (sep s : string) : option (string * string) :=
  if HasPrefix s sep then Some ("", str_drop (String.length sep) s) else
  match s with
  | "" => None
  | String c s' =>
      '(before, after) ← cut_at sep s';
      Some (String c before, after)
  end.

(** strings.Cut: (before, after, found). *)
Definition Cut (s sep : string) : string * string * bool :=
  match cut_at sep s with
  | Some (before, after) => (before, after, true)
  | None => (s, "", false)
  end.

Definition Contains (s sub : string) : bool := bool_decide (is_Some (cut_at sub s)).

(** The index of the first byte [c]. *)
Fixpoint IndexByte (s : string) (c : ascii) : option nat :=
  match s with
  | "" => None
  | String d s' => if Ascii.eqb d c then Some 0 else S <$> IndexByte s' c
  end.

(** strings.Split on a one-byte separator: never empty. *)
Fixpoint split_byte (c : ascii) (s : string) : list string :=
  match s with
  | "" => [""]
  | String d s' =>
      if Ascii.eqb d c then "" :: split_byte c s'
      else match split_byte c s' with
           | w :: ws => String d w :: ws
           | [] => [String d ""]
           end
  end.

(** strings.Trim with a one-byte cutset. *)
Fixpoint trim_left_byte (c : ascii) (s : string) : string :=
  match s with
  | "" => ""
  | String d s' => if Ascii.eqb d c then trim_left_byte c s' else s
  end.

Fixpoint trim_right_byte (c : ascii) (s : string) : string :=
  match s with
  | "" => ""
  | String d s' =>
      match trim_right_byte c s' with
      | "" => if Ascii.eqb d c then "" else String d ""
      | t => String d t
      end
  end.

Definition trim_byte (c : ascii) (s : string) : string :=
  trim_right_byte c (trim_left_byte c s).

(** Go's [a == ""]. *)
Definition is_empty (s : string) : bool :=
  match s with "" => true | _ => false end.

Lemma is_empty_spec s : is_empty s = true ↔ s = "".
Proof. by destruct s. Qed.

Lemma is_empty_false s : s ≠ "" → is_empty s = false.
Proof. by destruct s. Qed.

(** strings.Compare and cmp.Compare on strings: bytewise lexicographic. *)
Definition str_compare : string → string → comparison := String.compare.

(** slices.Sort on strings. Equal strings are identical, so a sorted
    permutation is unique and the algorithm does not matter. *)
Definition SortStrings : list string → list string := merge_sort String.le.

(** The functions of packages strings and unicode that are defined by Unicode
    tables. The definitions that use them hold for every implementation. *)
Class Unicode := {
  ToLower : string → string;
  TrimSpace : string → string;
  EqualFold : string → string → bool;
  Fields : string → list string;
}.

(** The ASCII reading of the class, which the tables agree with on ASCII
    strings: the instance the closed examples compute with. *)
Definition ascii_lower (c : ascii) : ascii :=
  let n := nat_of_ascii c in
  if (65 <=? n) && (n <=? 90) then ascii_of_nat (n + 32) else c.

Fixpoint str_map (f : ascii → ascii) (s : string) : string :=
  match s with "" => "" | String c s' => String (f c) (str_map f s') end.

Definition ascii_space (c : ascii) : bool :=
  let n := nat_of_ascii c in (n =? 32) || ((9 <=? n) && (n <=? 13)).

Fixpoint drop_spaces (s : string) : string :=
  match s with
  | "" => ""
  | String c s' => if ascii_space c then drop_spaces s' else s
  end.

Fixpoint fields_of (word s : string) : list string :=
  match s with
  | "" => if is_empty word then [] else [word]
  | String c s' =>
      if ascii_space c then
        (if is_empty word then [] else [word]) ++ fields_of "" s'
      else fields_of (word +:+ String c "") s'
  end.

Definition ascii_unicode : Unicode := {|
  ToLower := str_map ascii_lower;
  TrimSpace s := String.rev (drop_spaces (String.rev (drop_spaces s)));
  EqualFold a b := String.eqb (str_map ascii_lower a) (str_map ascii_lower b);
  Fields := fields_of "";
|}.

(** strings.ReplaceAll with a non-empty [old]; [skip] bytes of an occurrence are
    still to be passed over. *)
Fixpoint replace_from (skip : nat) (s old new : string) : string :=
  match s with
  | "" => ""
  | String c rest =>
      match skip with
      | S skip => replace_from skip rest old new
      | O =>
          if HasPrefix s old then new +:+ replace_from (String.length old - 1) rest old new
          else String c (replace_from 0 rest old new)
      end
  end.

Definition ReplaceAll (s old new : string) : string := replace_from 0 s old new.

(** strings.Join. *)
Fixpoint Join (l : list string) (sep : string) : string :=
  match l with
  | [] => ""
  | [s] => s
  | s :: l => s +:+ sep +:+ Join l sep
  end.

(** * Facts *)

Lemma HasPrefix_app p s : HasPrefix (p +:+ s) p = true.
Proof. induction p as [|c p IH]; simpl; [done|]. by rewrite Ascii.eqb_refl. Qed.

Lemma str_drop_app p s : str_drop (String.length p) (p +:+ s) = s.
Proof. induction p as [|c p IH]; simpl; [by destruct s|done]. Qed.

Lemma eat_length c s s' : eat c s = Some s' → String.length s = S (String.length s').
Proof. destruct s as [|d s]; simpl; [done|]. destruct (Ascii.eqb d c); naive_solver. Qed.

Lemma length_str_drop n s : String.length (str_drop n s) = String.length s - n.
Proof. revert s. induction n as [|n IH]; intros [|c s]; simpl; [done..|]. by rewrite IH. Qed.

Lemma str_app_nil s : s +:+ "" = s.
Proof. induction s as [|c s IH]; simpl; congruence. Qed.

Lemma str_app_inv_nil s t : s = s +:+ t → t = "".
Proof. induction s as [|c s IH]; simpl; [done|]. intros [=]. auto. Qed.

Lemma HasPrefix_refl s : HasPrefix s s = true.
Proof. rewrite <- (str_app_nil s) at 1. apply HasPrefix_app. Qed.

Lemma HasPrefix_true s p : HasPrefix s p = true → s = p +:+ str_drop (String.length p) s.
Proof.
  revert s. induction p as [|c p IH]; intros s; simpl; [by destruct s|].
  destruct s as [|d s]; simpl; [done|]. intros [->%Ascii.eqb_eq H]%andb_true_iff.
  f_equal. by apply IH.
Qed.

(** What [Cut] reports is where the separator first is. *)
Lemma cut_at_Some sep s before after :
  cut_at sep s = Some (before, after) → s = before +:+ sep +:+ after.
Proof.
  revert before. induction s as [|c s IH]; intros before; cbn [cut_at].
  - destruct (HasPrefix "" sep) eqn:E; simpl; [|done]. intros [= <- <-].
    simpl. by apply HasPrefix_true in E.
  - destruct (HasPrefix (String c s) sep) eqn:E.
    + intros [= <- <-]. simpl. by apply HasPrefix_true in E.
    + destruct (cut_at sep s) as [[b a]|]; [|done]. intros [= <- <-]. simpl.
      f_equal. by apply IH.
Qed.

Lemma Cut_found s sep before after :
  Cut s sep = (before, after, true) → s = before +:+ sep +:+ after.
Proof.
  unfold Cut. destruct (cut_at sep s) as [[b a]|] eqn:E; [|done].
  intros [= <- <-]. by apply cut_at_Some.
Qed.

(** Cutting [a:b] at the colon when [a] holds none gives the halves back. *)
Lemma cut_at_byte c a b :
  IndexByte a c = None → cut_at (String c "") (a +:+ String c b) = Some (a, b).
Proof.
  induction a as [|d a IH]; simpl.
  - intros _. rewrite Ascii.eqb_refl. by destruct b.
  - rewrite (Ascii.eqb_sym c d). destruct (Ascii.eqb d c); simpl; [done|].
    destruct (IndexByte a c); [done|]. intros _. by rewrite IH.
Qed.

Lemma Cut_byte c a b :
  IndexByte a c = None → Cut (a +:+ String c b) (String c "") = (a, b, true).
Proof. intros H. unfold Cut. by rewrite cut_at_byte. Qed.

Lemma SortStrings_perm l : SortStrings l ≡ₚ l.
Proof. apply merge_sort_Permutation. Qed.

Lemma SortStrings_sorted l : StronglySorted String.le (SortStrings l).
Proof. apply Sorted_StronglySorted; [apply _|]. apply Sorted_merge_sort, _. Qed.

(** A sorted list is determined by its contents. *)
Lemma sorted_unique (l k : list string) :
  StronglySorted String.le l → StronglySorted String.le k → l ≡ₚ k → l = k.
Proof. apply (StronglySorted_unique String.le). Qed.

Global Instance SortStrings_Proper : Proper ((≡ₚ) ==> (=)) SortStrings.
Proof.
  intros l k Hlk. apply sorted_unique; [apply SortStrings_sorted..|].
  by rewrite !SortStrings_perm.
Qed.

Lemma SortStrings_id l : StronglySorted String.le l → SortStrings l = l.
Proof. intros H. apply sorted_unique; [apply SortStrings_sorted|done|apply SortStrings_perm]. Qed.

#[export] Hint Resolve SortStrings_sorted SortStrings_perm : go.

(** * Comparison functions *)

(** cmp.Or over two comparisons, and the order a comparison sorts by. *)
Definition cmp_or (c d : comparison) : comparison := match c with Eq => d | _ => c end.

Lemma cmp_or_eq c d : cmp_or c d = Eq ↔ c = Eq ∧ d = Eq.
Proof. unfold cmp_or. destruct c; naive_solver. Qed.

Definition cmp_le {A} (cmp : A → A → comparison) (a b : A) : Prop := cmp a b ≠ Gt.

#[global] Instance cmp_le_dec {A} (cmp : A → A → comparison) : RelDecision (cmp_le cmp) :=
  λ a b, _.

(** slices.SortFunc. Go leaves the order of ties open; elements that compare
    equal keep their order here. *)
Definition SortFunc {A} (cmp : A → A → comparison) : list A → list A := merge_sort (cmp_le cmp).

(** What SortFunc asks of a comparison: a total preorder. *)
Class Compare {A} (cmp : A → A → comparison) : Prop := {
  cmp_antisym a b : cmp a b = CompOpp (cmp b a);
  cmp_trans : Transitive (cmp_le cmp);
}.

#[global] Instance cmp_le_trans {A} (cmp : A → A → comparison) `{!Compare cmp} :
  Transitive (cmp_le cmp).
Proof. apply cmp_trans. Qed.

Lemma cmp_refl {A} (cmp : A → A → comparison) `{!Compare cmp} a : cmp a a = Eq.
Proof. pose proof (cmp_antisym (cmp := cmp) a a). by destruct (cmp a a). Qed.

Lemma cmp_lt_le {A} (cmp : A → A → comparison) `{!Compare cmp} a b c : cmp a b = Lt → cmp b c ≠ Gt → cmp a c = Lt.
Proof.
  intros Hab Hbc. assert (cmp a c ≠ Gt) as Hac by (apply (cmp_trans (cmp := cmp) a b c); unfold cmp_le; [by rewrite Hab|done]).
  destruct (cmp a c) eqn:E; [exfalso|done|done].
  assert (cmp b a ≠ Gt) as Hba.
  { apply (cmp_trans (cmp := cmp) b c a); unfold cmp_le; [done|]. by rewrite (cmp_antisym (cmp := cmp)), E. }
  by rewrite (cmp_antisym (cmp := cmp)), Hab in Hba.
Qed.

#[global] Instance cmp_le_total {A} (cmp : A → A → comparison) `{!Compare cmp} :
  Total (cmp_le cmp).
Proof.
  intros a b. unfold cmp_le. rewrite (cmp_antisym (cmp := cmp) b a).
  destruct (cmp a b); simpl; auto.
Qed.

Lemma str_compare_le a b : cmp_le str_compare a b ↔ String.le a b.
Proof.
  unfold cmp_le, str_compare, String.le, String.leb.
  destruct (String.compare a b); simpl; naive_solver.
Qed.

#[global] Instance str_compare_laws : Compare str_compare.
Proof.
  split; [apply String.compare_antisym|].
  intros a b c. rewrite !str_compare_le. apply transitivity.
Qed.

Lemma str_compare_eq a b : str_compare a b = Eq ↔ a = b.
Proof.
  split; [apply String.compare_eq_iff|]. intros ->.
  pose proof (cmp_antisym (cmp := str_compare) b b) as H. by destruct (str_compare b b).
Qed.

#[global] Instance Z_compare_laws : Compare Z.compare.
Proof.
  split; [intros a b; apply Z.compare_antisym|]. intros a b c. unfold cmp_le. rewrite !Z.compare_le_iff. lia.
Qed.

#[global] Instance nat_compare_laws : Compare Nat.compare.
Proof.
  split; [intros a b; apply Nat.compare_antisym|]. unfold cmp_le. intros a b c.
  rewrite !Nat.compare_ngt_iff. lia.
Qed.

Lemma flip_compare {A} (cmp : A → A → comparison) `{!Compare cmp} : Compare (λ a b, cmp b a).
Proof. split; [intros a b; apply (cmp_antisym (cmp := cmp))|]. intros a b c H1 H2. by apply (cmp_trans (cmp := cmp) c b a). Qed.

#[global] Instance compare_proj {A B} (f : A → B) (cmp : B → B → comparison) `{!Compare cmp} :
  Compare (λ a b, cmp (f a) (f b)).
Proof.
  split; [intros a b; apply (cmp_antisym (cmp := cmp))|].
  intros a b c H1 H2. unfold cmp_le in *. by apply (cmp_trans (cmp := cmp) (f a) (f b) (f c)).
Qed.

(** Comparing by one key, then by another. *)
#[global] Instance compare_or {A} (c d : A → A → comparison) `{!Compare c, !Compare d} :
  Compare (λ x y, cmp_or (c x y) (d x y)).
Proof.
  split.
  - intros x y. unfold cmp_or. rewrite (cmp_antisym (cmp := c) x y), (cmp_antisym (cmp := d) x y).
    by destruct (c y x).
  - intros x y z. unfold cmp_le, cmp_or. intros H1 H2.
    assert (c x y ≠ Gt) as L1 by (by destruct (c x y)).
    assert (c y z ≠ Gt) as L2 by (by destruct (c y z)).
    assert (c x z ≠ Gt) as L3 by (by apply (cmp_trans (cmp := c) x y z)).
    destruct (c x z) eqn:Exz; try done.
    assert (c z x ≠ Gt) as L4 by (rewrite (cmp_antisym (cmp := c)), Exz; done).
    assert (c y x ≠ Gt) as L5 by (by apply (cmp_trans (cmp := c) y z x)).
    assert (c z y ≠ Gt) as L6 by (by apply (cmp_trans (cmp := c) z x y)).
    rewrite (cmp_antisym (cmp := c)) in L5. rewrite (cmp_antisym (cmp := c)) in L6.
    destruct (c x y), (c y z); try done. by apply (cmp_trans (cmp := d) x y z).
Qed.

Lemma SortFunc_perm {A} (cmp : A → A → comparison) l : SortFunc cmp l ≡ₚ l.
Proof. apply merge_sort_Permutation. Qed.

Lemma SortFunc_sorted {A} (cmp : A → A → comparison) `{!Compare cmp} l :
  StronglySorted (cmp_le cmp) (SortFunc cmp l).
Proof. apply Sorted_StronglySorted; [apply _|]. apply Sorted_merge_sort, _. Qed.

(** Sorting is determined when elements that compare equal are equal: then
    neither the algorithm nor the order of the input matters. *)
Lemma SortFunc_det {A} (cmp : A → A → comparison) `{!Compare cmp} l k :
  (∀ x y, x ∈ l → y ∈ l → cmp x y = Eq → x = y) → l ≡ₚ k → SortFunc cmp l = SortFunc cmp k.
Proof.
  intros Heq Hp. apply (StronglySorted_unique_strong (cmp_le cmp)).
  - intros x y. rewrite !SortFunc_perm, <- Hp. intros Hx Hy H1 H2. apply Heq; [done..|].
    unfold cmp_le in *. rewrite (cmp_antisym (cmp := cmp) y x) in H2. by destruct (cmp x y).
  - apply SortFunc_sorted, _.
  - apply SortFunc_sorted, _.
  - by rewrite !SortFunc_perm.
Qed.

(** * Lengths and concatenation *)

Lemma str_length_app s t : String.length (s +:+ t) = String.length s + String.length t.
Proof. induction s as [|c s IH]; simpl; congruence. Qed.

Lemma str_app_assoc a b c : (a +:+ b) +:+ c = a +:+ (b +:+ c).
Proof. induction a as [|x a IH]; simpl; congruence. Qed.

Lemma str_drop_take_app s t : str_drop (String.length s) (s +:+ t) = t ∧ str_take (String.length s) (s +:+ t) = s.
Proof. induction s as [|c s [IH1 IH2]]; simpl; [by destruct t|]. by rewrite IH2. Qed.

Lemma HasSuffix_app s t : HasSuffix (s +:+ t) t = true.
Proof.
  unfold HasSuffix. rewrite str_length_app. rewrite (proj2 (Nat.leb_le _ _)) by lia.
  replace (_ + _ - _)%nat with (String.length s) by lia. by rewrite (proj1 (str_drop_take_app s t)), String.eqb_refl.
Qed.

Lemma TrimSuffix_app s t : TrimSuffix (s +:+ t) t = s.
Proof.
  unfold TrimSuffix. rewrite HasSuffix_app, str_length_app.
  replace (_ + _ - _)%nat with (String.length s) by lia. apply str_drop_take_app.
Qed.

(** Strings that agree and whose heads are of one length split alike. *)
Lemma str_app_inj a b c d :
  String.length a = String.length b → a +:+ c = b +:+ d → a = b ∧ c = d.
Proof.
  revert b. induction a as [|x a IH]; intros [|y b]; simpl; try done.
  intros [= Hl] [= -> H]. by destruct (IH b Hl H) as [-> ->].
Qed.

(** * Text without dots

    An encoding to compute with: dots escaped. *)

Fixpoint escape (s : string) : string :=
  match s with
  | "" => ""
  | String c s' =>
      if Ascii.eqb c "." then String "~" (String "a" (escape s'))
      else if Ascii.eqb c "~" then String "~" (String "b" (escape s'))
      else String c (escape s')
  end.

Fixpoint unescape (s : string) : string :=
  match s with
  | "" => ""
  | String c s' =>
      if Ascii.eqb c "~" then
        match s' with
        | String d s'' => String (if Ascii.eqb d "a" then "." else "~")%char (unescape s'')
        | "" => ""
        end
      else String c (unescape s')
  end.

Lemma unescape_escape s : unescape (escape s) = s.
Proof.
  induction s as [|c s IH]; [done|]. cbn [escape]. destruct (Ascii.eqb_spec c ".") as [->|?].
  - cbn. by rewrite IH.
  - destruct (Ascii.eqb_spec c "~") as [->|N]; [cbn; by rewrite IH|].
    cbn [unescape]. apply Ascii.eqb_neq in N. by rewrite N, IH.
Qed.

Lemma escape_no_dot s : IndexByte (escape s) "." = None.
Proof.
  induction s as [|c s IH]; [done|]. cbn [escape]. destruct (Ascii.eqb c ".") eqn:E.
  - cbn. by rewrite IH.
  - destruct (Ascii.eqb c "~"); cbn; [by rewrite IH|]. by rewrite E, IH.
Qed.
