(* ===== verification/GoStrconv.v ===== *)
(** The parts of strconv the program uses, in base ten and for 64 bits
    (FormatUint, ParseUint, Itoa, Atoi), with strings.CutPrefix and the hex
    encoding. *)
From S2P Require Import Prelude GoStrings.
#[local] Open Scope string_scope.
#[local] Open Scope Z_scope.

(** * Writing *)

Definition digit (d : Z) : ascii := ascii_of_nat (48 + Z.to_nat d).

(** The digits of [n] before [acc]; a digit a turn. *)
Fixpoint format_digits (fuel : nat) (n : Z) (acc : string) : string :=
  match fuel with
  | O => acc
  | S fuel =>
      if n <? 10 then String (digit n) acc
      else format_digits fuel (n / 10) (String (digit (n mod 10)) acc)
  end.

(** A uint64 has at most twenty digits. *)
Definition FormatUint (n : Z) : string := format_digits 20 n "".

(** * Reading *)

Definition digit_value (c : ascii) : option Z :=
  let n := Z.of_nat (nat_of_ascii c) - 48 in
  if (0 <=? n) && (n <=? 9) then Some n else None.

Fixpoint parse_digits (n : Z) (s : string) : option Z :=
  match s with
  | "" => Some n
  | String c s =>
      match digit_value c with
      | Some d => if 10 * n + d <? 2 ^ 64 then parse_digits (10 * n + d) s else None
      | None => None
      end
  end.

(** strconv.ParseUint(s, 10, 64), [None] for either of its errors. *)
Definition ParseUint (s : string) : option Z :=
  if is_empty s then None else parse_digits 0 s.

(** strings.CutPrefix, [None] when the prefix is not there. *)
Definition CutPrefix (s p : string) : option string :=
  if HasPrefix s p then Some (str_drop (String.length p) s) else None.

(** strconv.Atoi: an optional sign and decimal digits, within 64 signed bits. *)
Definition Atoi (s : string) : option Z :=
  let in_range n := if bool_decide (min_int64 ≤ n ≤ max_int64) then Some n else None in
  match s with
  | String "+" rest => n ← ParseUint rest; in_range n
  | String "-" rest => n ← ParseUint rest; in_range (- n)
  | _ => n ← ParseUint s; in_range n
  end.

(** strconv.Itoa. *)
Definition Itoa (n : Z) : string := if n <? 0 then String "-" (FormatUint (- n)) else FormatUint n.

(** encoding/hex: two lower-case digits a byte. *)
Definition hex_digit (d : nat) : ascii := ascii_of_nat (if (d <? 10)%nat then 48 + d else 87 + d).

Fixpoint hex_EncodeToString (s : string) : string :=
  match s with
  | "" => ""
  | String c s => String (hex_digit (nat_of_ascii c / 16)) (String (hex_digit (nat_of_ascii c mod 16))
                    (hex_EncodeToString s))
  end.

(** * A number reads back *)

Lemma nat_digit d : 0 ≤ d < 10 → nat_of_ascii (digit d) = (48 + Z.to_nat d)%nat.
Proof. intros Hd. unfold digit. rewrite nat_ascii_embedding; [done|]. lia. Qed.

Lemma digit_value_digit d : 0 ≤ d < 10 → digit_value (digit d) = Some d.
Proof.
  intros Hd. unfold digit_value. rewrite nat_digit by done.
  replace (Z.of_nat (48 + Z.to_nat d) - 48) with d by lia.
  destruct (Z.leb_spec 0 d), (Z.leb_spec d 9); [done|lia..].
Qed.

Lemma parse_format fuel n acc :
  0 ≤ n < 10 ^ Z.of_nat fuel → n < 2 ^ 64 → fuel ≠ O →
  parse_digits 0 (format_digits fuel n acc) = parse_digits n acc.
Proof.
  revert n acc. induction fuel as [|fuel IH]; intros n acc Hn Hw Hf; [done|]. cbn [format_digits].
  destruct (Z.ltb_spec n 10) as [Hs|Hs].
  - cbn [parse_digits]. rewrite digit_value_digit by lia.
    replace (10 * 0 + n) with n by lia. destruct (Z.ltb_spec n (2 ^ 64)); [done|lia].
  - pose proof (Z.div_mod n 10). pose proof (Z.mod_pos_bound n 10).
    rewrite Nat2Z.inj_succ, Z.pow_succ_r in Hn by lia. rewrite IH.
    + cbn [parse_digits]. rewrite digit_value_digit by lia.
      destruct (Z.ltb_spec (10 * (n / 10) + n mod 10) (2 ^ 64)); [f_equal; lia|lia].
    + split; [apply Z.div_pos; lia|apply Z.div_lt_upper_bound; lia].
    + apply Z.div_lt_upper_bound; lia.
    + intros ->. simpl in Hn. lia.
Qed.

Lemma format_digits_head fuel n acc : fuel ≠ O → is_empty (format_digits fuel n acc) = false.
Proof.
  revert n acc. induction fuel as [|fuel IH]; intros n acc Hf; [done|]. cbn [format_digits].
  destruct (n <? 10); [done|]. destruct fuel; [done|]. by apply IH.
Qed.

Lemma ParseUint_FormatUint n : 0 ≤ n < 2 ^ 64 → ParseUint (FormatUint n) = Some n.
Proof.
  intros Hn. unfold ParseUint, FormatUint. rewrite format_digits_head by done.
  by rewrite parse_format by lia.
Qed.

(** No digit is a separator. *)
Lemma IndexByte_format c fuel n acc :
  0 ≤ n → digit_value c = None → IndexByte acc c = None →
  IndexByte (format_digits fuel n acc) c = None.
Proof.
  intros Hn Hc. revert n acc Hn. induction fuel as [|fuel IH]; intros n acc Hn Ha; [done|].
  assert (∀ d, 0 ≤ d < 10 → IndexByte (String (digit d) acc) c = None) as Hd.
  { intros d Hd. cbn [IndexByte]. destruct (Ascii.eqb_spec (digit d) c) as [<-|_]; [|by rewrite Ha].
    by rewrite digit_value_digit in Hc. }
  cbn [format_digits]. destruct (Z.ltb_spec n 10); [apply Hd; lia|].
  apply IH; [apply Z.div_pos; lia|]. apply Hd, Z.mod_pos_bound. lia.
Qed.

Lemma IndexByte_FormatUint c n :
  0 ≤ n → digit_value c = None → IndexByte (FormatUint n) c = None.
Proof. intros Hn Hc. by apply IndexByte_format. Qed.

Lemma CutPrefix_app p s : CutPrefix (p +:+ s) p = Some s.
Proof. unfold CutPrefix. by rewrite HasPrefix_app, str_drop_app. Qed.

(** Another prefix of the same length is not there. *)
Lemma CutPrefix_other p q s :
  String.length p = String.length q → p ≠ q → CutPrefix (p +:+ s) q = None.
Proof.
  intros Hl Hne. unfold CutPrefix. destruct (HasPrefix (p +:+ s) q) eqn:E; [|done].
  apply HasPrefix_true in E. destruct Hne. by apply str_app_inj in E as [-> _].
Qed.

Lemma cut_at_none c s : IndexByte s c = None → cut_at (String c "") s = None.
Proof.
  induction s as [|d s IH]; [done|]. cbn [IndexByte].
  destruct (Ascii.eqb_spec d c) as [->|Hne]; [done|]. destruct (IndexByte s c); [done|]. intros _.
  cbn [cut_at HasPrefix]. rewrite (proj2 (Ascii.eqb_neq c d)) by congruence. simpl. by rewrite IH.
Qed.

Lemma Cut_none c s : IndexByte s c = None → Cut s (String c "") = (s, "", false).
Proof. intros H. unfold Cut. by rewrite cut_at_none. Qed.

Lemma digit_value_nonneg c d : digit_value c = Some d → 0 ≤ d.
Proof. unfold digit_value. destruct (Z.leb_spec 0 (Z.of_nat (nat_of_ascii c) - 48)); simpl; [|done].
  destruct (_ <=? 9); [|done]. by intros [= <-]. Qed.

Lemma parse_digits_bounds n s m :
  0 ≤ n < 2 ^ 64 → parse_digits n s = Some m → 0 ≤ m < 2 ^ 64.
Proof.
  revert n. induction s as [|c s IH]; intros n Hn; cbn [parse_digits]; [by intros [= <-]|].
  destruct (digit_value c) as [d|] eqn:Ed; [|done]. apply digit_value_nonneg in Ed.
  destruct (Z.ltb_spec (10 * n + d) (2 ^ 64)); [|done]. apply IH. lia.
Qed.

Lemma ParseUint_bounds s n : ParseUint s = Some n → 0 ≤ n < 2 ^ 64.
Proof. unfold ParseUint. destruct (is_empty s); [done|]. by apply parse_digits_bounds. Qed.

Lemma format_digits_first fuel n acc :
  fuel ≠ O → 0 ≤ n → ∃ d s, 0 ≤ d < 10 ∧ format_digits fuel n acc = String (digit d) s.
Proof.
  revert n acc. induction fuel as [|fuel IH]; intros n acc Hf Hn; [done|]. simpl.
  destruct (Z.ltb_spec n 10); [by exists n, acc|].
  destruct fuel as [|fuel].
  - exists (n mod 10), acc. split; [apply Z.mod_pos_bound; lia|done].
  - apply IH; [done|]. apply Z.div_pos; lia.
Qed.

Lemma digit_not_sign d : 0 ≤ d < 10 → digit d ≠ "+"%char ∧ digit d ≠ "-"%char.
Proof.
  intros Hd. split; intros H; apply (f_equal nat_of_ascii) in H; rewrite nat_digit in H by done;
    vm_compute in H; lia.
Qed.

(** What Itoa writes Atoi reads. *)
Lemma Atoi_Itoa n : min_int64 ≤ n ≤ max_int64 → Atoi (Itoa n) = Some n.
Proof.
  intros Hn. unfold Itoa. destruct (Z.ltb_spec n 0).
  - simpl. rewrite ParseUint_FormatUint by (unfold min_int64 in Hn; lia). simpl.
    rewrite Z.opp_involutive. by rewrite bool_decide_true.
  - destruct (format_digits_first 20 n "") as (d & s & Hd & He); [done..|].
    assert (Hp : ParseUint (FormatUint n) = Some n) by (apply ParseUint_FormatUint; unfold max_int64 in Hn; lia).
    unfold FormatUint in *. rewrite He in *. destruct (digit_not_sign d Hd) as [H1 H2].
    unfold Atoi. destruct (digit d) as [[] [] [] [] [] [] [] []]; try done; rewrite Hp; simpl;
      by rewrite bool_decide_true.
Qed.

Lemma Atoi_bounds s n : Atoi s = Some n → min_int64 ≤ n ≤ max_int64.
Proof.
  unfold Atoi. intros H.
  assert (∀ m : option Z, ∀ f : Z → Z, (x ← m; if bool_decide (min_int64 ≤ f x ≤ max_int64) then Some (f x) else None)
    = Some n → min_int64 ≤ n ≤ max_int64) as Hg.
  { intros [x|] f; simpl; [|done]. case_bool_decide; [by intros [= <-]|done]. }
  destruct s as [|c s]; [by apply (Hg _ id) in H|].
  destruct c as [[] [] [] [] [] [] [] []]; first [by apply (Hg _ id) in H | by apply (Hg _ Z.opp) in H].
Qed.
