(* ===== verification/GoEncoding.v ===== *)
(** encoding/base64's RawURLEncoding, math/big's FillBytes and SetBytes, and
    what encoding/json promises of the texts it writes and reads ([JSON],
    [JSONLaws]), with an instance of the latter to compute with. *)
From S2P Require Import Prelude GoStrings GoStrconv.
#[local] Open Scope string_scope.
#[local] Open Scope Z_scope.

Fixpoint str_forall (p : ascii → bool) (s : string) : bool :=
  match s with "" => true | String c s' => p c && str_forall p s' end.

Lemma str_forall_app p a b : str_forall p (a +:+ b) = str_forall p a && str_forall p b.
Proof. induction a as [|c a IH]; [done|]. cbn. by rewrite IH, andb_assoc. Qed.

Lemma str_forall_impl (p q : ascii → bool) s :
  (∀ c, p c = true → q c = true) → str_forall p s = true → str_forall q s = true.
Proof.
  intros Hpq. induction s as [|c s IH]; [done|]. cbn. rewrite !andb_true_iff. intros [Hc Hs]. auto.
Qed.

Lemma str_forall_absent p c s : p c = false → str_forall p s = true → IndexByte s c = None.
Proof.
  intros Hc. induction s as [|d s IH]; [done|]. cbn. rewrite andb_true_iff. intros [Hd Hs].
  destruct (Ascii.eqb_spec d c) as [->|]; [congruence|]. by rewrite IH.
Qed.

(** * Base64

    RawURLEncoding: six bits a character, most significant first, no padding. *)

Definition url_alphabet : string := "ABCDEFGHIJKLMNOPQRSTUVWXYZabcdefghijklmnopqrstuvwxyz0123456789-_".
Definition url_char (c : ascii) : bool := bool_decide (is_Some (IndexByte url_alphabet c)).

Record sextet := mkSextet { x5 : bool; x4 : bool; x3 : bool; x2 : bool; x1 : bool; x0 : bool }.

Definition sextet_value (x : sextet) : nat :=
  fold_left (λ n (b : bool), 2 * n + (if b then 1 else 0))%nat [x5 x; x4 x; x3 x; x2 x; x1 x; x0 x] 0%nat.

Definition sextet_char (x : sextet) : ascii := default "A"%char (String.get (sextet_value x) url_alphabet).

Definition sextet_of (c : ascii) : option sextet :=
  n ← IndexByte url_alphabet c;
  let bit k := Nat.testbit n k in Some (mkSextet (bit 5) (bit 4) (bit 3) (bit 2) (bit 1) (bit 0))%nat.

Fixpoint EncodeToString (s : string) : string :=
  match s with
  | "" => ""
  | String (Ascii a0 a1 a2 a3 a4 a5 a6 a7) "" =>
      String (sextet_char (mkSextet a7 a6 a5 a4 a3 a2))
        (String (sextet_char (mkSextet a1 a0 false false false false)) "")
  | String (Ascii a0 a1 a2 a3 a4 a5 a6 a7) (String (Ascii b0 b1 b2 b3 b4 b5 b6 b7) "") =>
      String (sextet_char (mkSextet a7 a6 a5 a4 a3 a2))
        (String (sextet_char (mkSextet a1 a0 b7 b6 b5 b4))
          (String (sextet_char (mkSextet b3 b2 b1 b0 false false)) ""))
  | String (Ascii a0 a1 a2 a3 a4 a5 a6 a7)
      (String (Ascii b0 b1 b2 b3 b4 b5 b6 b7) (String (Ascii c0 c1 c2 c3 c4 c5 c6 c7) rest)) =>
      String (sextet_char (mkSextet a7 a6 a5 a4 a3 a2))
        (String (sextet_char (mkSextet a1 a0 b7 b6 b5 b4))
          (String (sextet_char (mkSextet b3 b2 b1 b0 c7 c6))
            (String (sextet_char (mkSextet c5 c4 c3 c2 c1 c0)) (EncodeToString rest))))
  end.

(** The decoder passes over line breaks and refuses any other character. *)
Fixpoint sextets (s : string) : option (list sextet) :=
  match s with
  | "" => Some []
  | String c s' =>
      if Ascii.eqb c "010" || Ascii.eqb c "013" then sextets s'
      else x ← sextet_of c; xs ← sextets s'; Some (x :: xs)
  end.

(** The bits a last group has over are not looked at; a group of one is refused. *)
Fixpoint bytes_of (xs : list sextet) : option string :=
  match xs with
  | [] => Some ""
  | [mkSextet a7 a6 a5 a4 a3 a2; mkSextet a1 a0 _ _ _ _] => Some (String (Ascii a0 a1 a2 a3 a4 a5 a6 a7) "")
  | [mkSextet a7 a6 a5 a4 a3 a2; mkSextet a1 a0 b7 b6 b5 b4; mkSextet b3 b2 b1 b0 _ _] =>
      Some (String (Ascii a0 a1 a2 a3 a4 a5 a6 a7) (String (Ascii b0 b1 b2 b3 b4 b5 b6 b7) ""))
  | mkSextet a7 a6 a5 a4 a3 a2 :: mkSextet a1 a0 b7 b6 b5 b4 :: mkSextet b3 b2 b1 b0 c7 c6
      :: mkSextet c5 c4 c3 c2 c1 c0 :: rest =>
      t ← bytes_of rest;
      Some (String (Ascii a0 a1 a2 a3 a4 a5 a6 a7)
             (String (Ascii b0 b1 b2 b3 b4 b5 b6 b7) (String (Ascii c0 c1 c2 c3 c4 c5 c6 c7) t)))
  | _ => None
  end.

Definition DecodeString (s : string) : option string := sextets s ≫= bytes_of.

Lemma sextets_char x s : sextets (String (sextet_char x) s) = xs ← sextets s; Some (x :: xs).
Proof. by destruct x as [[] [] [] [] [] []]. Qed.

Lemma sextet_char_url x : url_char (sextet_char x) = true.
Proof. by destruct x as [[] [] [] [] [] []]. Qed.

(** Induction by the groups of three the encoder works in. *)
Lemma string_ind3 (P : string → Prop) :
  P "" → (∀ a, P (String a "")) → (∀ a b, P (String a (String b ""))) →
  (∀ a b c s, P s → P (String a (String b (String c s)))) → ∀ s, P s.
Proof.
  intros H0 H1 H2 H3. fix IH 1. intros [|a [|b [|c s]]]; [exact H0|apply H1|apply H2|]. apply H3, IH.
Qed.

Lemma decode_encode s : DecodeString (EncodeToString s) = Some s.
Proof.
  unfold DecodeString. induction s as [|a|a b|a b c s IH] using string_ind3; [done| | |].
  - destruct a. cbn [EncodeToString]. by rewrite !sextets_char.
  - destruct a, b. cbn [EncodeToString]. by rewrite !sextets_char.
  - destruct a, b, c. cbn [EncodeToString]. rewrite !sextets_char.
    destruct (sextets (EncodeToString s)) as [xs|]; [|done]. cbn in IH |- *. by rewrite IH.
Qed.

Lemma encode_url s : str_forall url_char (EncodeToString s) = true.
Proof.
  induction s as [|a|a b|a b c s IH] using string_ind3; [done| | |].
  1-2: destruct a; try destruct b; cbn [EncodeToString str_forall]; by rewrite !sextet_char_url.
  destruct a, b, c. cbn [EncodeToString str_forall]. by rewrite !sextet_char_url, IH.
Qed.

Lemma encode_no_dot s : IndexByte (EncodeToString s) "." = None.
Proof. by eapply str_forall_absent, encode_url. Qed.

(** * Big-endian integers *)

Definition byte_of (n : Z) : ascii := ascii_of_N (Z.to_N n).
Definition byte_value (c : ascii) : Z := Z.of_N (N_of_ascii c).

Fixpoint big_endian (width : nat) (x : Z) : string :=
  match width with
  | O => ""
  | S w => big_endian w (x / 256) +:+ String (byte_of (x mod 256)) ""
  end.

(** big.Int.FillBytes, [None] where it panics: the number does not fit. *)
Definition FillBytes (width : nat) (x : Z) : option string :=
  if bool_decide (0 ≤ x < 256 ^ Z.of_nat width) then Some (big_endian width x) else None.

Fixpoint set_bytes (acc : Z) (s : string) : Z :=
  match s with "" => acc | String c s' => set_bytes (256 * acc + byte_value c) s' end.

Definition SetBytes (s : string) : Z := set_bytes 0 s.

Lemma byte_value_of n : 0 ≤ n < 256 → byte_value (byte_of n) = n.
Proof. intros. unfold byte_value, byte_of. rewrite N_ascii_embedding by lia. lia. Qed.

Lemma set_bytes_app acc a b : set_bytes acc (a +:+ b) = set_bytes (set_bytes acc a) b.
Proof. revert acc. by induction a; intros; cbn. Qed.

Lemma set_bytes_big_endian w acc x :
  0 ≤ x < 256 ^ Z.of_nat w → set_bytes acc (big_endian w x) = 256 ^ Z.of_nat w * acc + x.
Proof.
  revert x. induction w as [|w IH]; intros x Hx; [cbn in *; lia|].
  rewrite Nat2Z.inj_succ, Z.pow_succ_r in * by lia. cbn [big_endian].
  assert (0 < 256 ^ Z.of_nat w) by (apply Z.pow_pos_nonneg; lia).
  pose proof (Z.div_mod x 256). pose proof (Z.mod_pos_bound x 256).
  rewrite set_bytes_app, IH by nia. cbn [set_bytes]. rewrite byte_value_of; lia.
Qed.

Lemma length_big_endian w x : String.length (big_endian w x) = w.
Proof. revert x. induction w as [|w IH]; intros x; [done|]. cbn. rewrite str_length_app, IH. cbn. lia. Qed.

Lemma SetBytes_FillBytes w x s : FillBytes w x = Some s → String.length s = w ∧ SetBytes s = x.
Proof.
  unfold FillBytes. case_bool_decide; [|done]. intros [= <-]. split; [apply length_big_endian|].
  unfold SetBytes. rewrite set_bytes_big_endian; lia.
Qed.

(** * JSON

    The texts encoding/json writes are one value to a piece: an array and an
    object are put together from the texts of what they hold. Reading is into a
    variable; [null] leaves a string or a number as it is. *)

Definition quoted (s : string) : string := String "034" (s +:+ String "034" "").

Definition json_array (values : list string) : string := "[" +:+ Join values "," +:+ "]".

Class JSON := {
  (** json.Marshal of a string. *)
  json_quote : string → string;
  (** json.Unmarshal into a string, a slice of strings or an int64 holding the
      first argument: what it holds afterwards, [None] for an error. *)
  json_string : string → string → option string;
  json_strings : list string → string → option (list string);
  json_int : Z → string → option Z;
  (** The members of an object as Unmarshal finds them: key and the text of the value. *)
  json_members : string → option (list (string * string));
  (** json.Compact with the escapes of Marshal: what it makes of the text a
      json.RawMessage or a MarshalJSON method gives, [None] when that is no JSON. *)
  json_compact : string → option string;
}.

Definition json_object `{JSON} (members : list (string * string)) : string :=
  "{" +:+ Join ((λ m, json_quote m.1 +:+ ":" +:+ m.2) <$> members) "," +:+ "}".

(** A character a string literal carries as it is. *)
Definition plain_char (c : ascii) : bool :=
  let n := Z.of_N (N_of_ascii c) in
  (32 <=? n) && (n <=? 126) && negb (existsb (Ascii.eqb c) ["034"; "\"; "<"; ">"; "&"]%char).

(** [text] is valid UTF-8: other bytes are replaced in writing. *)
Class JSONLaws `{JSON} (text : string → Prop) : Prop := {
  plain_text s : str_forall plain_char s = true → text s;
  quote_plain s : str_forall plain_char s = true → json_quote s = quoted s;
  string_null cur : json_string cur "null" = Some cur;
  string_quote cur s : text s → json_string cur (json_quote s) = Some s;
  string_array cur values : json_string cur (json_array values) = None;
  strings_array cur l : Forall text l → json_strings cur (json_array (json_quote <$> l)) = Some l;
  int_Itoa cur n : min_int64 ≤ n ≤ max_int64 → json_int cur (Itoa n) = Some n;
  compact_quote s : text s → json_compact (json_quote s) = Some (json_quote s);
  compact_array l : Forall text l → json_compact (json_array (json_quote <$> l)) = Some (json_array (json_quote <$> l));
  compact_Itoa n : min_int64 ≤ n ≤ max_int64 → json_compact (Itoa n) = Some (Itoa n);
  compact_idem raw v : json_compact raw = Some v → json_compact v = Some v;
  members_object members : Forall (λ m, text m.1 ∧ json_compact m.2 = Some m.2) members →
    json_members (json_object members) = Some members;
}.

(** The field a key sets: the one of that name, or else the first that differs
    from it in case only. *)
Definition json_field `{Unicode} (names : list string) (key : string) : option string :=
  if bool_decide (key ∈ names) then Some key else List.find (EqualFold key) names.

(** Case folding on ASCII text is of the letters A to Z. *)
Definition ascii_char (c : ascii) : bool := (N_of_ascii c <? 128)%N.

Class FoldsASCII `{Unicode} : Prop :=
  equal_fold_ascii s t : str_forall ascii_char s = true → str_forall ascii_char t = true →
    EqualFold s t = String.eqb (str_map ascii_lower s) (str_map ascii_lower t).

#[export] Instance ascii_unicode_folds : @FoldsASCII ascii_unicode.
Proof. by intros s t _ _. Qed.

(** Members one after another, up to the first that cannot be set. *)
Fixpoint fold_option {A B} (f : A → B → option A) (a : A) (l : list B) : option A :=
  match l with [] => Some a | b :: l => a' ← f a b; fold_option f a' l end.

Lemma url_char_plain c : url_char c = true → plain_char c = true.
Proof. destruct c as [[] [] [] [] [] [] [] []]; vm_compute; congruence. Qed.

(** * An instance to compute with

    Texts without an escape: a scanner that knows brackets and strings. *)

Definition scan_step (st : nat * bool) (c : ascii) : option (nat * bool) :=
  let '(depth, inside) := st in
  if Ascii.eqb c "034" then Some (depth, negb inside)
  else if inside then Some st
  else if Ascii.eqb c "[" || Ascii.eqb c "{" then Some (S depth, false)
  else if Ascii.eqb c "]" || Ascii.eqb c "}" then match depth with O => None | S d => Some (d, false) end
  else if Ascii.eqb c "," then match depth with O => None | _ => Some st end
  else Some st.

Fixpoint scan (st : nat * bool) (s : string) : option (nat * bool) :=
  match s with "" => Some st | String c s' => st' ← scan_step st c; scan st' s' end.

Fixpoint split_top (st : nat * bool) (s : string) : list string :=
  match s with
  | "" => [""]
  | String c s' =>
      match scan_step st c with
      | Some st' => match split_top st' s' with w :: ws => String c w :: ws | [] => [] end
      | None => "" :: split_top st s'
      end
  end.

Definition balanced (s : string) : bool := bool_decide (scan (0%nat, false) s = Some (0%nat, false)).

(** What stands between two characters. *)
Definition between (a b : ascii) (s : string) : option string :=
  match s with
  | String c s' =>
      if Ascii.eqb c a && HasSuffix s' (String b "") then Some (TrimSuffix s' (String b "")) else None
  | "" => None
  end.

Definition pieces (s : string) : list string := if is_empty s then [] else split_top (0%nat, false) s.

Definition read_string (cur raw : string) : option string :=
  if String.eqb raw "null" then Some cur
  else s ← between "034" "034" raw; if str_forall plain_char s then Some s else None.

Definition read_member (s : string) : option (string * string) :=
  match s with
  | String "034" s' => '(k, rest) ← cut_at (String "034" "") s'; v ← eat ":" rest; Some (k, v)
  | _ => None
  end.

Definition demo_json : JSON := {|
  json_quote := quoted;
  json_string := read_string;
  json_strings cur raw :=
    if String.eqb raw "null" then Some [] else b ← between "[" "]" raw; mapM (read_string "") (pieces b);
  json_int cur raw := if String.eqb raw "null" then Some cur else Atoi raw;
  json_members raw := b ← between "{" "}" raw; mapM read_member (pieces b);
  json_compact raw := if balanced raw then Some raw else None;
|}.

Definition demo_text (s : string) : Prop := str_forall plain_char s = true.

Lemma scan_app st a b : scan st (a +:+ b) = st' ← scan st a; scan st' b.
Proof. revert st. induction a as [|c a IH]; intros st; [done|]. cbn. destruct (scan_step st c); [apply IH|done]. Qed.

Lemma split_top_one st a st' : scan st a = Some st' → split_top st a = [a].
Proof.
  revert st. induction a as [|c a IH]; intros st; [done|]. cbn. destruct (scan_step st c) as [st1|]; [|done].
  cbn. intros H. by rewrite (IH st1 H).
Qed.

Lemma split_top_comma st a b :
  scan st a = Some (0%nat, false) → split_top st (a +:+ String "," b) = a :: split_top (0%nat, false) b.
Proof.
  revert st. induction a as [|c a IH]; intros st; cbn; [by intros [= ->]|].
  destruct (scan_step st c) as [st1|]; [|done]. cbn. intros H. by rewrite (IH st1 H).
Qed.

Lemma scan_plain d s : str_forall plain_char s = true → scan (d, true) s = Some (d, true).
Proof.
  induction s as [|c s IH]; [done|]. cbn [str_forall]. rewrite andb_true_iff. intros [Hc Hs]. cbn.
  destruct (Ascii.eqb_spec c "034") as [->|]; [done|]. cbn. auto.
Qed.

Lemma scan_quoted d s : str_forall plain_char s = true → scan (d, false) (quoted s) = Some (d, false).
Proof. intros Hs. cbn. by rewrite scan_app, scan_plain. Qed.

Definition numeral_char (c : ascii) : bool := Ascii.eqb c "-" || bool_decide (is_Some (digit_value c)).

Lemma scan_numeral d s : str_forall numeral_char s = true → scan (d, false) s = Some (d, false).
Proof.
  induction s as [|c s IH]; [done|]. cbn [str_forall]. rewrite andb_true_iff. intros [Hc Hs].
  cbn [scan]. assert (scan_step (d, false) c = Some (d, false)) as ->; [|by cbn; auto].
  destruct c as [[] [] [] [] [] [] [] []]; try (by vm_compute in Hc); reflexivity.
Qed.

Lemma format_numeral fuel n acc :
  0 ≤ n → str_forall numeral_char acc = true → str_forall numeral_char (format_digits fuel n acc) = true.
Proof.
  revert n acc. induction fuel as [|fuel IH]; intros n acc Hn Ha; [done|]. cbn [format_digits].
  assert (∀ d, 0 ≤ d < 10 → numeral_char (digit d) = true) as Hd.
  { intros d Hd. unfold numeral_char. rewrite digit_value_digit by done. by rewrite orb_true_r. }
  destruct (Z.ltb_spec n 10); [cbn; by rewrite Hd by lia|].
  apply IH; [apply Z.div_pos; lia|]. cbn. rewrite Hd; [done|]. apply Z.mod_pos_bound. lia.
Qed.

Lemma Itoa_numeral n : str_forall numeral_char (Itoa n) = true.
Proof.
  unfold Itoa, FormatUint. destruct (Z.ltb_spec n 0); cbn [str_forall andb]; [|by apply format_numeral].
  change (numeral_char "-") with true. cbn [andb]. apply format_numeral; [lia|done].
Qed.

(** A text a list of texts may hold. *)
Definition item (s : string) : Prop := s ≠ "" ∧ ∀ d, scan (d, false) s = Some (d, false).

Lemma scan_Join d l : Forall item l → scan (S d, false) (Join l ",") = Some (S d, false).
Proof.
  induction 1 as [|s l [_ Hs] _ IH]; [done|]. destruct l as [|t l]; [apply Hs|]. cbn [Join].
  rewrite scan_app, Hs. cbn. exact IH.
Qed.

Lemma split_top_Join s l : item s → Forall item l → split_top (0%nat, false) (Join (s :: l) ",") = s :: l.
Proof.
  intros Hs Hl. revert s Hs. induction Hl as [|t l Ht _ IH]; intros s [_ Hs]; [by eapply split_top_one|].
  cbn [Join]. change ("," +:+ ?x) with (String "," x). rewrite split_top_comma by done. f_equal. by apply IH.
Qed.

Lemma scan_deeper d s st :
  scan st s = Some (0%nat, false) → scan ((st.1 + d)%nat, st.2) s = Some (d, false).
Proof.
  revert st. induction s as [|c s IH]; intros [n q]; cbn [scan fst snd]; [by intros [= -> ->]|].
  destruct (scan_step (n, q) c) as [st'|] eqn:E; [|done]. cbn [mbind option_bind]. intros H%IH.
  enough (scan_step ((n + d)%nat, q) c = Some ((st'.1 + d)%nat, st'.2)) as -> by exact H.
  revert E. unfold scan_step. destruct n; cbn; repeat case_match; try discriminate; by intros [= <-].
Qed.

Lemma pieces_Join l : Forall item l → pieces (Join l ",") = l.
Proof.
  destruct l as [|s l]; [done|]. intros [Hs Hl]%Forall_cons. unfold pieces.
  rewrite is_empty_false; [by apply split_top_Join|]. destruct Hs as [Hs _], l; cbn; [done|]. by destruct s.
Qed.

Lemma between_app a b s : between a b (String a (s +:+ String b "")) = Some s.
Proof. unfold between. by rewrite Ascii.eqb_refl, HasSuffix_app, TrimSuffix_app. Qed.

Lemma quoted_item s : demo_text s → item (quoted s).
Proof. intros Hs. split; [done|]. intros d. by apply scan_quoted. Qed.

Lemma quoted_items l : Forall demo_text l → Forall item (quoted <$> l).
Proof. intros Hl. apply Forall_fmap. eapply Forall_impl; [exact Hl|]. exact quoted_item. Qed.

Lemma array_balanced l : Forall demo_text l → balanced (json_array (quoted <$> l)) = true.
Proof.
  intros Hl. apply bool_decide_eq_true. change (json_array ?x) with (String "[" (Join x "," +:+ "]")).
  cbn [scan]. change (scan_step (0%nat, false) "[") with (Some (1%nat, false)). cbn [mbind option_bind].
  by rewrite scan_app, scan_Join by (by apply quoted_items).
Qed.

Lemma read_quoted cur s : demo_text s → read_string cur (quoted s) = Some s.
Proof.
  intros Hs. unfold read_string. assert (String.eqb (quoted s) "null" = false) as -> by done.
  unfold quoted. rewrite between_app. cbn. by rewrite Hs.
Qed.

Lemma read_quoted_all cur l : Forall demo_text l → mapM (read_string cur) (quoted <$> l) = Some l.
Proof.
  intros Hl. apply mapM_Some. induction Hl; cbn; constructor; [by apply read_quoted|done].
Qed.

#[local] Existing Instance demo_json.

Definition member_text (m : string * string) : string := quoted m.1 +:+ ":" +:+ m.2.

Lemma read_member_text k v : demo_text k → read_member (member_text (k, v)) = Some (k, v).
Proof.
  intros Hk. assert (member_text (k, v) = String "034" (k +:+ String "034" (String ":" v))) as ->.
  { unfold member_text, quoted. cbn. by rewrite str_app_assoc. }
  unfold read_member. cbv iota. rewrite cut_at_byte by (by eapply str_forall_absent, Hk). done.
Qed.

Lemma member_item m : demo_text m.1 → balanced m.2 = true → item (member_text m).
Proof.
  intros Hk Hv%bool_decide_eq_true. split; [done|]. intros d. unfold member_text.
  rewrite scan_app, scan_quoted by done. cbn [mbind option_bind]. exact (scan_deeper d _ (0%nat, false) Hv).
Qed.

Lemma demo_json_laws : JSONLaws demo_text.
Proof.
  split; cbn [json_quote json_string json_strings json_int json_members json_compact demo_json]; try done.
  - exact read_quoted.
  - intros cur l Hl. assert (String.eqb (json_array (quoted <$> l)) "null" = false) as -> by done.
    unfold json_array. cbn [String.append]. rewrite between_app. cbn [mbind option_bind].
    rewrite pieces_Join by (by apply quoted_items). by apply read_quoted_all.
  - intros cur n Hn. destruct (String.eqb_spec (Itoa n) "null") as [E|_]; [|by apply Atoi_Itoa].
    pose proof (Atoi_Itoa n Hn) as H. by rewrite E in H.
  - intros s Hs. unfold balanced. by rewrite scan_quoted.
  - intros l Hl. by rewrite array_balanced.
  - intros n _. unfold balanced. by rewrite scan_numeral by apply Itoa_numeral.
  - intros raw v. destruct (balanced raw) eqn:E; [|done]. intros [= <-]. by rewrite E.
  - intros ms Hms. unfold json_object. cbn [String.append]. rewrite between_app. cbn [mbind option_bind].
    rewrite (pieces_Join (member_text <$> ms)).
    + induction Hms as [|[k v] ms [Hk _] _ IH]; [done|]. cbn [fmap list_fmap mapM].
      rewrite read_member_text by exact Hk. cbn [mbind option_bind]. by rewrite IH.
    + apply Forall_fmap. eapply Forall_impl; [exact Hms|]. intros [k v] [Hk Hv]. apply member_item; [exact Hk|].
      cbn in Hv |- *. by destruct (balanced v).
Qed.
