(* ===== verification/GoURL.v ===== *)
(** Query strings as Go's net/url reads and writes them: QueryEscape,
    QueryUnescape, ParseQuery and Values.Encode, and that what Encode writes
    ParseQuery reads; and the class of net/http's dates. *)
From S2P Require Import Prelude GoStrings.
#[local] Open Scope string_scope.
#[local] Open Scope nat_scope.

(** * Escaping *)

Definition unreserved (c : ascii) : bool :=
  let n := nat_of_ascii c in
  (48 <=? n) && (n <=? 57) || (65 <=? n) && (n <=? 90) || (97 <=? n) && (n <=? 122) ||
  existsb (Ascii.eqb c) ["-"; "_"; "."; "~"]%char.

Definition upper_hex (d : nat) : ascii := ascii_of_nat (if d <? 10 then 48 + d else 55 + d).

Definition unhex (c : ascii) : option nat :=
  let n := nat_of_ascii c in
  if (48 <=? n) && (n <=? 57) then Some (n - 48)
  else if (97 <=? n) && (n <=? 102) then Some (n - 87)
  else if (65 <=? n) && (n <=? 70) then Some (n - 55) else None.

Definition escape_byte (c : ascii) : string :=
  if Ascii.eqb c " " then "+"
  else if unreserved c then String c ""
  else String "%" (String (upper_hex (nat_of_ascii c / 16)) (String (upper_hex (nat_of_ascii c mod 16)) "")).

Fixpoint QueryEscape (s : string) : string :=
  match s with "" => "" | String c s => escape_byte c +:+ QueryEscape s end.

(** [None] for a % without two hex digits. *)
Fixpoint QueryUnescape (s : string) : option string :=
  match s with
  | "" => Some ""
  | String "%" (String a (String b s)) =>
      x ← unhex a; y ← unhex b; rest ← QueryUnescape s;
      Some (String (ascii_of_nat (16 * x + y)) rest)
  | String "%" _ => None
  | String "+" s => String " " <$> QueryUnescape s
  | String c s => String c <$> QueryUnescape s
  end.

(** * Query strings *)

(** url.Values *)
Abbreviation Values := (gmap string (list string)).

Definition QGet (k : string) (q : Values) : string :=
  match q !! k with Some (v :: _) => v | _ => "" end.
Definition QSet (k v : string) (q : Values) : Values := <[k := [v]]> q.
Definition QAdd (q : Values) (kv : string * string) : Values :=
  <[kv.1 := (default [] (q !! kv.1) ++ [kv.2])%list]> q.

(** One setting of the query, [None] when it is skipped. *)
Definition query_setting (s : string) : option (string * string) :=
  if Contains s ";" || is_empty s then None else
  let '(key, value, _) := Cut s "=" in
  key ← QueryUnescape key; value ← QueryUnescape value; Some (key, value).

(** The settings between the ampersands, the malformed ones left out. *)
Definition ParseQuery (s : string) : Values :=
  foldl QAdd ∅ (omap query_setting (split_byte "&" s)).

Definition query_pairs (q : Values) : list (string * string) :=
  flat_map (λ k, map (k,.) (default [] (q !! k))) (SortStrings (map_to_list q).*1).

Definition Encode (q : Values) : string :=
  Join (map (λ '(k, v), QueryEscape k +:+ "=" +:+ QueryEscape v) (query_pairs q)) "&".

(** * net/http *)

(** http.Header, by canonical name. *)
Abbreviation Header := (gmap string (list string)).

Definition token_byte (c : ascii) : bool :=
  let n := nat_of_ascii c in
  (48 <=? n) && (n <=? 57) || (65 <=? n) && (n <=? 90) || (97 <=? n) && (n <=? 122) ||
  existsb (Ascii.eqb c) ["!"; "#"; "$"; "%"; "&"; "'"; "*"; "+"; "-"; "."; "^"; "_"; "`"; "|"; "~"]%char.

Fixpoint all_bytes (f : ascii → bool) (s : string) : bool :=
  match s with "" => true | String c s => f c && all_bytes f s end.

Fixpoint capitals (upper : bool) (s : string) : string :=
  match s with
  | "" => ""
  | String c s =>
      let n := nat_of_ascii c in
      let c' := if upper && (97 <=? n) && (n <=? 122) then ascii_of_nat (n - 32)
                else if negb upper && (65 <=? n) && (n <=? 90) then ascii_of_nat (n + 32) else c in
      String c' (capitals (Ascii.eqb c "-") s)
  end.

Definition CanonicalHeaderKey (s : string) : string := if all_bytes token_byte s then capitals true s else s.

Definition h_Values (k : string) (h : Header) : list string := default [] (h !! CanonicalHeaderKey k).
Definition h_Get (k : string) (h : Header) : string := default "" (head (h_Values k h)).

(** A parsed URL, as far as the program reads one: [u_User] says that it has
    credentials, [u_Hostname] is its host without the port. *)
Record URL := mkURL {
  u_Scheme : string;
  u_User : bool;
  u_Host : string;
  u_Hostname : string;
  u_Path : string;
  u_Fragment : string;
}.

(** net/url's Parse. *)
Class URLs := { url_Parse : string → option URL }.

(** net/http's ParseTime, and the format it reads back. *)
Class HTTPDates := {
  ParseTime : string → option Z;
  FormatTime : Z → string;
}.

(** * Round trips *)

Lemma unhex_upper d : d < 16 → unhex (upper_hex d) = Some d.
Proof. intros Hd. do 16 (destruct d as [|d]; [done|]). lia. Qed.

Lemma unescape_plain c s : c ≠ "%"%char → c ≠ "+"%char → QueryUnescape (String c s) = String c <$> QueryUnescape s.
Proof. intros H1 H2. destruct c as [[] [] [] [] [] [] [] []]; first [reflexivity|done]. Qed.

Lemma unescape_hex a b s x y : unhex a = Some x → unhex b = Some y →
  QueryUnescape (String "%" (String a (String b s))) = String (ascii_of_nat (16 * x + y)) <$> QueryUnescape s.
Proof. intros Ha Hb. cbn [QueryUnescape]. rewrite Ha, Hb. simpl. by destruct (QueryUnescape s). Qed.

Lemma escape_byte_inv c s : QueryUnescape (escape_byte c +:+ s) = String c <$> QueryUnescape s.
Proof.
  unfold escape_byte. destruct (Ascii.eqb_spec c " ") as [->|_]; [done|].
  destruct (unreserved c) eqn:Eu; [apply unescape_plain; by intros ->|].
  pose proof (nat_ascii_bounded c). change (String "%" (String ?a (String ?b "")) +:+ s) with (String "%" (String a (String b s))).
  rewrite (unescape_hex _ _ _ (nat_of_ascii c / 16) (nat_of_ascii c mod 16)).
  - by rewrite <-(Nat.div_mod_eq (nat_of_ascii c) 16), ascii_nat_embedding.
  - apply unhex_upper, Nat.Div0.div_lt_upper_bound. lia.
  - apply unhex_upper, Nat.mod_upper_bound. lia.
Qed.

Lemma QueryUnescape_Escape s : QueryUnescape (QueryEscape s) = Some s.
Proof. induction s as [|c s IH]; [done|]. cbn [QueryEscape]. by rewrite escape_byte_inv, IH. Qed.

(** The bytes with a meaning in a query are always escaped. *)
Lemma escape_no_byte d s : existsb (Ascii.eqb d) ["&"; ";"; "="; ","; " "; "010"]%char = true → IndexByte (QueryEscape s) d = None.
Proof.
  intros Hd. induction s as [|c s IH]; [done|]. cbn [QueryEscape].
  assert (∀ t u, IndexByte t d = None → IndexByte u d = None → IndexByte (t +:+ u) d = None) as Happ.
  { clear. intros t u Ht Hu. induction t as [|x t IHt]; [done|]. simpl in *.
    destruct (Ascii.eqb x d); [done|]. destruct (IndexByte t d); [done|]. by rewrite IHt. }
  apply Happ; [|done]. clear -Hd. unfold existsb in Hd.
  assert (d = "&" ∨ d = ";" ∨ d = "=" ∨ d = "," ∨ d = " " ∨ d = "010")%char as [-> |[-> |[-> |[-> |[-> | ->]]]]]
    by (rewrite !orb_true_iff, !Ascii.eqb_eq in Hd; naive_solver);
    destruct c as [[] [] [] [] [] [] [] []]; vm_compute; reflexivity.
Qed.

Lemma split_byte_app c a b : IndexByte a c = None → split_byte c (a +:+ String c b) = a :: split_byte c b.
Proof.
  induction a as [|x a IH]; simpl; [by rewrite Ascii.eqb_refl|].
  destruct (Ascii.eqb x c); [done|]. destruct (IndexByte a c); [done|]. intros _. by rewrite IH.
Qed.

Lemma split_byte_none c a : IndexByte a c = None → split_byte c a = [a].
Proof.
  induction a as [|x a IH]; simpl; [done|]. destruct (Ascii.eqb x c); [done|].
  destruct (IndexByte a c); [done|]. intros _. by rewrite IH.
Qed.

Lemma split_Join c l : l ≠ [] → Forall (λ s, IndexByte s c = None) l → split_byte c (Join l (String c "")) = l.
Proof.
  induction l as [|s l IH]; [done|]. intros _ [Hs Hl]%Forall_cons. destruct l as [|s' l].
  - by apply split_byte_none.
  - change (Join (s :: s' :: l) (String c "")) with (s +:+ String c (Join (s' :: l) (String c ""))).
    rewrite split_byte_app by done. by rewrite IH.
Qed.

Lemma IndexByte_app d s t : IndexByte s d = None → IndexByte t d = None → IndexByte (s +:+ t) d = None.
Proof.
  induction s as [|x s IH]; [done|]. simpl. intros Hs Ht.
  destruct (Ascii.eqb x d); [done|]. destruct (IndexByte s d); [done|]. by rewrite IH.
Qed.

Lemma setting_escape k v : query_setting (QueryEscape k +:+ "=" +:+ QueryEscape v) = Some (k, v).
Proof.
  unfold query_setting.
  assert (Contains (QueryEscape k +:+ "=" +:+ QueryEscape v) ";" = false) as ->.
  { unfold Contains. rewrite bool_decide_false; [done|]. apply eq_None_not_Some.
    assert (IndexByte (QueryEscape k +:+ "=" +:+ QueryEscape v) ";" = None) as Hn.
    { apply IndexByte_app; [by apply escape_no_byte|]. apply IndexByte_app; [done|by apply escape_no_byte]. }
    revert Hn. generalize (QueryEscape k +:+ "=" +:+ QueryEscape v). intros s. induction s as [|x s IH]; [done|].
    cbn [IndexByte cut_at HasPrefix]. destruct (Ascii.eqb_spec x ";") as [|Hx]; [done|].
    rewrite (proj2 (Ascii.eqb_neq ";" x)) by congruence. simpl. destruct (IndexByte s ";"); [done|]. by rewrite IH. }
  assert (is_empty (QueryEscape k +:+ "=" +:+ QueryEscape v) = false) as -> by by destruct (QueryEscape k).
  simpl. rewrite Cut_byte by by apply escape_no_byte. by rewrite !QueryUnescape_Escape.
Qed.

Lemma foldl_QAdd_key k vs q : foldl QAdd q (map (k,.) vs) = match vs with [] => q | _ => <[k := (default [] (q !! k) ++ vs)%list]> q end.
Proof.
  revert q. induction vs as [|v vs IH]; intros q; [done|]. simpl. rewrite IH. destruct vs as [|v' vs]; [done|].
  unfold QAdd. simpl. rewrite lookup_insert_eq. simpl. rewrite insert_insert_eq, <-app_assoc. done.
Qed.

Lemma foldl_flat_map ks q0 (q : Values) :
  NoDup ks → (∀ k, k ∈ ks → q0 !! k = None) → (∀ k, k ∈ ks → ∃ v vs, q !! k = Some (v :: vs)) →
  ∀ k, foldl QAdd q0 (flat_map (λ k, map (k,.) (default [] (q !! k))) ks) !! k =
       if bool_decide (k ∈ ks) then q !! k else q0 !! k.
Proof.
  revert q0. induction ks as [|k0 ks IH]; intros q0 Hd Hq0 Hq k.
  { rewrite bool_decide_false; [done|by intros ?%elem_of_nil]. }
  apply NoDup_cons in Hd as [Hk0 Hd]. simpl. rewrite foldl_app, foldl_QAdd_key.
  destruct (Hq k0) as (v & vs & Hv); [by left|]. rewrite Hv. simpl. rewrite (Hq0 k0) by by left. simpl.
  rewrite IH; [|done| |intros k' Hk'; apply Hq; by right].
  - destruct (decide (k = k0)) as [->|Hne].
    + rewrite bool_decide_false by done. rewrite (bool_decide_true (k0 ∈ k0 :: ks)) by by left.
      by rewrite lookup_insert_eq.
    + rewrite lookup_insert_ne by done. rewrite (bool_decide_ext (k ∈ k0 :: ks) (k ∈ ks)); [done|].
      rewrite elem_of_cons. tauto.
  - intros k' Hk'. rewrite lookup_insert_ne by (intros ->; done). apply Hq0. by right.
Qed.

(** A query each of whose keys has a value reads back as it was written. *)
Lemma ParseQuery_Encode (q : Values) : map_Forall (λ _ vs, vs ≠ []) q → ParseQuery (Encode q) = q.
Proof.
  intros Hne. unfold ParseQuery, Encode.
  assert (omap query_setting (split_byte "&"
    (Join (map (λ '(k, v), QueryEscape k +:+ "=" +:+ QueryEscape v) (query_pairs q)) "&")) = query_pairs q) as ->.
  { destruct (query_pairs q) as [|p ps] eqn:E; [done|]. rewrite <-E. rewrite split_Join.
    - clear. induction (query_pairs q) as [|[k v] l IH]; [done|].
      cbn [map omap list_omap]. rewrite setting_escape. by rewrite IH.
    - by rewrite E.
    - apply Forall_forall. intros s Hs. apply list_elem_of_In, in_map_iff in Hs as ([k v] & <- & _).
      apply IndexByte_app; [by apply escape_no_byte|]. apply IndexByte_app; [done|by apply escape_no_byte]. }
  apply map_eq. intros k. unfold query_pairs. rewrite foldl_flat_map.
  - case_bool_decide as Hk; [done|]. rewrite lookup_empty. symmetry. apply eq_None_not_Some. intros [vs Hvs].
    apply Hk. rewrite SortStrings_perm. apply list_elem_of_fmap. exists (k, vs). split; [done|by apply elem_of_map_to_list].
  - rewrite SortStrings_perm. apply NoDup_fst_map_to_list.
  - intros k' _. apply lookup_empty.
  - intros k' Hk'. rewrite SortStrings_perm in Hk'. apply list_elem_of_fmap in Hk' as ([k2 vs] & -> & Hin).
    apply elem_of_map_to_list in Hin. specialize (Hne k2 vs Hin). destruct vs as [|v vs]; [done|]. by exists v, vs.
Qed.

Lemma ParseQuery_values s : map_Forall (λ _ vs, vs ≠ []) (ParseQuery s).
Proof.
  unfold ParseQuery. assert (map_Forall (λ (_ : string) (vs : list string), vs ≠ []) (∅ : Values)) as H by apply map_Forall_empty.
  revert H. generalize (∅ : Values) as q. induction (omap _ _) as [|[k v] l IH]; intros q Hq; [done|].
  simpl. apply IH. apply map_Forall_insert_2; [|done]. simpl. by destruct (default [] _).
Qed.
