(* ===== verification/GoNet.v ===== *)
(** IP addresses as Go's net/netip and net have them: parsing of addresses,
    prefixes and CIDR blocks, membership and the categories of an address, how
    one is written, and the host and port of an address to connect to.

    A netip address is 32 or 128 bits and a zone. A net.IP is 16 bytes, one of
    four bytes being its IPv4-mapped form, which is how every method of net.IP
    reads it; so here it is a number of 128 bits. *)
From S2P Require Import Prelude GoStrings GoStrconv.
#[local] Open Scope string_scope.
#[local] Open Scope Z_scope.

Record Addr := mkAddr { is4 : bool; bits_ : Z; zone : string }.

Definition BitLen (a : Addr) : Z := if is4 a then 32 else 128.

(** * Parsing *)

(** A decimal field of an IPv4 address: no leading zero, at most 255. *)
Definition octet (s : string) : option Z :=
  match s with
  | "" => None
  | "0" => Some 0
  | String c _ =>
      if Ascii.eqb c "0" then None else
      match parse_digits 0 s with
      | Some n => if n <=? 255 then Some n else None
      | None => None
      end
  end.

Definition parseIPv4 (s : string) : option Z :=
  match split_byte "." s with
  | [a; b; c; d] =>
      a ← octet a; b ← octet b; c ← octet c; d ← octet d;
      Some (Z.lor (Z.lor (Z.shiftl a 24) (Z.shiftl b 16)) (Z.lor (Z.shiftl c 8) d))
  | _ => None
  end.

Definition hex_value (c : ascii) : option Z :=
  let n := Z.of_nat (nat_of_ascii c) in
  if (48 <=? n) && (n <=? 57) then Some (n - 48)
  else if (97 <=? n) && (n <=? 102) then Some (n - 87)
  else if (65 <=? n) && (n <=? 70) then Some (n - 55)
  else None.

(** The hex digits at the start, with what follows and how many they are. *)
Fixpoint hex_run (acc : Z) (n : nat) (s : string) : Z * nat * string :=
  match s with
  | String c s' =>
      match hex_value c with
      | Some d => hex_run (16 * acc + d) (S n) s'
      | None => (acc, n, s)
      end
  | "" => (acc, n, "")
  end.

(** The groups of an IPv6 address: the 16-bit fields so far and where, if
    anywhere, the run of zeros goes. An address has eight fields at most. *)
Fixpoint groups (fuel : nat) (fields : list Z) (ellipsis : option nat) (s : string)
    : option (list Z * option nat) :=
  match fuel with
  | O => None
  | S fuel =>
      if (8 <=? length fields)%nat then None else           (* trailing garbage *)
      let '(v, n, rest) := hex_run 0 0 s in
      if (n =? 0)%nat || (4 <? n)%nat then None else
      match rest with
      | String "." _ =>
          if match ellipsis with None => negb (length fields =? 6)%nat | Some _ => false end then None else
          if (6 <? length fields)%nat then None else
          match parseIPv4 s with
          | Some v4 => Some ((fields ++ [Z.shiftr v4 16; Z.land v4 65535])%list, ellipsis)
          | None => None
          end
      | "" => Some ((fields ++ [v])%list, ellipsis)
      | String ":" (String ":" rest) =>
          match ellipsis with
          | Some _ => None
          | None =>
              let fields := (fields ++ [v])%list in
              if is_empty rest then Some (fields, Some (length fields))
              else groups fuel fields (Some (length fields)) rest
          end
      | String ":" "" => None
      | String ":" rest => groups fuel (fields ++ [v])%list ellipsis rest
      | _ => None
      end
  end.

Definition of_fields (l : list Z) : Z := foldl (λ acc f, Z.lor (Z.shiftl acc 16) f) 0 l.

Definition expand (fields : list Z) (ellipsis : option nat) : option Z :=
  match ellipsis with
  | None => if (length fields =? 8)%nat then Some (of_fields fields) else None
  | Some i =>
      if (length fields <? 8)%nat then
        Some (of_fields (take i fields ++ replicate (8 - length fields) 0 ++ drop i fields)%list)
      else None
  end.

Definition parseIPv6 (s : string) : option Addr :=
  let '(s, zone, ok) :=
    match Cut s "%" with
    | (s, zone, true) => (s, zone, negb (is_empty zone))
    | (s, _, false) => (s, "", true)
    end in
  if negb ok then None else
  match s with
  | String ":" (String ":" rest) =>
      if is_empty rest then Some (mkAddr false 0 zone) else
      '(fields, ellipsis) ← groups 9 [] (Some O) rest; n ← expand fields ellipsis; Some (mkAddr false n zone)
  | _ => '(fields, ellipsis) ← groups 9 [] None s; n ← expand fields ellipsis; Some (mkAddr false n zone)
  end.

(** What the first of a dot, a colon and a percent sign says of an address. *)
Fixpoint address_kind (s : string) : option bool :=
  match s with
  | "" => None
  | String "." _ => Some true
  | String ":" _ => Some false
  | String "%" _ => None
  | String _ s => address_kind s
  end.

Definition ParseAddr (s : string) : option Addr :=
  match address_kind s with
  | Some true => (λ n, mkAddr true n "") <$> parseIPv4 s
  | Some false => parseIPv6 s
  | None => None
  end.

Record Prefix := mkPrefix { p_addr : Addr; p_bits : Z }.

(** The cut at the last slash. *)
Fixpoint cut_last (c : ascii) (s : string) : option (string * string) :=
  match s with
  | "" => None
  | String d s' =>
      match cut_last c s' with
      | Some (before, after) => Some (String d before, after)
      | None => if Ascii.eqb d c then Some ("", s') else None
      end
  end.

Definition ParsePrefix (s : string) : option Prefix :=
  '(addr, len) ← cut_last "/" s;
  ip ← ParseAddr addr;
  if negb (is_empty (zone ip)) then None else
  if match len with
     | String c (String _ _) => negb ((49 <=? nat_of_ascii c)%nat && (nat_of_ascii c <=? 57)%nat)
     | _ => false
     end then None else
  n ← Atoi len;
  if (n <? 0) || (BitLen ip <? n) then None else Some (mkPrefix ip n).

(** The low bits past a prefix, cleared. *)
Definition mask (w n x : Z) : Z := Z.shiftl (Z.shiftr x (w - n)) (w - n).

Definition Masked (p : Prefix) : Prefix :=
  mkPrefix (mkAddr (is4 (p_addr p)) (mask (BitLen (p_addr p)) (p_bits p) (bits_ (p_addr p))) "") (p_bits p).

(** * net.IP *)

Definition v4_in_v6 (n : Z) : Z := Z.lor (Z.shiftl 65535 32) n.

Definition As16 (a : Addr) : Z := if is4 a then v4_in_v6 (bits_ a) else bits_ a.

(** To4: the four bytes of an IPv4-mapped address. *)
Definition To4 (ip : Z) : option Z := if Z.shiftr ip 32 =? 65535 then Some (Z.land ip (Z.ones 32)) else None.

Definition ParseIP (s : string) : option Z :=
  a ← ParseAddr s; if is_empty (zone a) then Some (As16 a) else None.

(** A network as Contains reads one: of which family, its number and length. *)
Record IPNet := mkIPNet { net4 : bool; net_number : Z; net_len : Z }.

Definition ParseCIDR (s : string) : option IPNet :=
  match Cut s "/" with
  | (_, _, false) => None
  | (addr, len, true) =>
      a ← ParseAddr addr;
      if negb (is_empty (zone a)) then None else
      n ← ParseUint len;
      if BitLen a <? n then None else
      let masked := mask (BitLen a) n (bits_ a) in
      if is4 a then Some (mkIPNet true masked n) else
      match To4 masked with
      | Some v4 => Some (mkIPNet true v4 (n - 96))
      | None => Some (mkIPNet false masked n)
      end
  end.

Definition Contains_ (n : IPNet) (ip : Z) : bool :=
  match To4 ip with
  | Some v4 => net4 n && (Z.shiftr v4 (32 - net_len n) =? Z.shiftr (net_number n) (32 - net_len n))
  | None => negb (net4 n) && (Z.shiftr ip (128 - net_len n) =? Z.shiftr (net_number n) (128 - net_len n))
  end.

(** The byte of index i of four, or of sixteen. *)
Definition byte4 (v4 i : Z) : Z := Z.land (Z.shiftr v4 (8 * (3 - i))) 255.
Definition byte16 (ip i : Z) : Z := Z.land (Z.shiftr ip (8 * (15 - i))) 255.

Definition IsLoopback (ip : Z) : bool :=
  match To4 ip with Some v4 => byte4 v4 0 =? 127 | None => ip =? 1 end.

Definition IsPrivate (ip : Z) : bool :=
  match To4 ip with
  | Some v4 =>
      (byte4 v4 0 =? 10) || ((byte4 v4 0 =? 172) && (Z.land (byte4 v4 1) 240 =? 16)) ||
      ((byte4 v4 0 =? 192) && (byte4 v4 1 =? 168))
  | None => Z.land (byte16 ip 0) 254 =? 252
  end.

Definition IsLinkLocalUnicast (ip : Z) : bool :=
  match To4 ip with
  | Some v4 => (byte4 v4 0 =? 169) && (byte4 v4 1 =? 254)
  | None => (byte16 ip 0 =? 254) && (Z.land (byte16 ip 1) 192 =? 128)
  end.

Definition IsLinkLocalMulticast (ip : Z) : bool :=
  match To4 ip with
  | Some v4 => (byte4 v4 0 =? 224) && (byte4 v4 1 =? 0) && (byte4 v4 2 =? 0)
  | None => (byte16 ip 0 =? 255) && (Z.land (byte16 ip 1) 15 =? 2)
  end.

Definition IsUnspecified (ip : Z) : bool := (ip =? v4_in_v6 0) || (ip =? 0).

Definition IsMulticast (ip : Z) : bool :=
  match To4 ip with Some v4 => Z.land (byte4 v4 0) 240 =? 224 | None => byte16 ip 0 =? 255 end.

(** * netip, written and compared *)

(** The lower-case hex digits of a 16-bit field, no leading zeros. *)
Definition hex16 (n : Z) : string :=
  let d k := String (hex_digit (Z.to_nat (Z.land (Z.shiftr n (4 * k)) 15))) "" in
  if 4095 <? n then d 3 +:+ d 2 +:+ d 1 +:+ d 0
  else if 255 <? n then d 2 +:+ d 1 +:+ d 0
  else if 15 <? n then d 1 +:+ d 0
  else d 0.

Definition string4 (v4 : Z) : string :=
  FormatUint (byte4 v4 0) +:+ "." +:+ FormatUint (byte4 v4 1) +:+ "." +:+ FormatUint (byte4 v4 2) +:+ "." +:+ FormatUint (byte4 v4 3).

Definition fields6 (ip : Z) : list Z := (λ i, Z.land (Z.shiftr ip (16 * (7 - i))) 65535) <$> seqZ 0 8.

Fixpoint zero_run (l : list Z) : nat := match l with 0 :: l => S (zero_run l) | _ => O end.

(** Where the longest run of two or more zero fields starts, and its length:
    the first of equals. *)
Fixpoint longest_run (i : nat) (l : list Z) (best : nat * nat) : nat * nat :=
  match l with
  | [] => best
  | _ :: l' => longest_run (S i) l' (if (2 <=? zero_run l)%nat && (best.2 <? zero_run l)%nat then (i, zero_run l) else best)
  end.

Definition string6 (ip : Z) : string :=
  let l := fields6 ip in
  match longest_run 0 l (O, O) with
  | (_, O) => Join (hex16 <$> l) ":"
  | (i, n) => Join (hex16 <$> take i l) ":" +:+ "::" +:+ Join (hex16 <$> drop (i + n) l) ":"
  end.

Definition Addr_String (a : Addr) : string :=
  let z := if is_empty (zone a) then "" else "%" +:+ zone a in
  if is4 a then string4 (bits_ a)
  else match To4 (bits_ a) with
       | Some v4 => "::ffff:" +:+ string4 v4 +:+ z
       | None => string6 (bits_ a) +:+ z
       end.

Definition Unmap (a : Addr) : Addr :=
  if is4 a then a else match To4 (bits_ a) with Some v4 => mkAddr true v4 "" | None => a end.

Definition Prefix_Contains (p : Prefix) (a : Addr) : bool :=
  is_empty (zone a) && Bool.eqb (is4 (p_addr p)) (is4 a) &&
  (Z.shiftr (bits_ a) (BitLen a - p_bits p) =? Z.shiftr (bits_ (p_addr p)) (BitLen a - p_bits p)).

(** * Hosts and ports *)

Definition has_byte (c : ascii) (s : string) : bool := bool_decide (is_Some (IndexByte s c)).

(** net.SplitHostPort, [None] for any of its errors. *)
Definition SplitHostPort (hostport : string) : option (string * string) :=
  '(before, port) ← cut_last ":" hostport;
  match hostport with
  | String "[" rest =>
      match IndexByte rest "]" with
      | None => None
      | Some end_ =>
          (* the first bracket is closed just before the last colon *)
          if negb (bool_decide (S (S end_) = String.length before)) then None else
          if has_byte "[" rest || has_byte "]" (str_drop (S end_) rest) then None else
          Some (str_take end_ rest, port)
      end
  | _ =>
      if has_byte ":" before then None else
      if has_byte "[" hostport || has_byte "]" hostport then None else Some (before, port)
  end.

Definition JoinHostPort (host port : string) : string :=
  if has_byte ":" host then "[" +:+ host +:+ "]:" +:+ port else host +:+ ":" +:+ port.

Example string_v6 : Addr_String <$> ParseAddr "2001:0DB8:0:0:1:0:0:0" = Some "2001:db8:0:0:1::".
Proof. vm_compute. reflexivity. Qed.
Example string_mapped : Addr_String <$> ParseAddr "::ffff:1.2.3.4" = Some "::ffff:1.2.3.4" ∧ Addr_String <$> ParseAddr "::" = Some "::".
Proof. vm_compute. done. Qed.
Example split_ports :
  SplitHostPort "a:80" = Some ("a", "80") ∧ SplitHostPort "[::1]:80" = Some ("::1", "80") ∧ SplitHostPort "::1:80" = None ∧
  SplitHostPort "[::1]" = None ∧ SplitHostPort "a" = None ∧ SplitHostPort "[a]b:80" = None ∧ SplitHostPort "a]:80" = None ∧
  SplitHostPort ":80" = Some ("", "80").
Proof. vm_compute. done. Qed.

Example parse_v4 : ParseAddr "10.0.0.5" = Some (mkAddr true 167772165 "").
Proof. reflexivity. Qed.
Example parse_v6 : ParseIP "2001:db8::2" = Some (Z.lor (Z.shiftl 536939960 96) 2).
Proof. reflexivity. Qed.
Example parse_mapped : ParseIP "::ffff:1.2.3.4" = ParseIP "1.2.3.4".
Proof. reflexivity. Qed.
Example parse_bad : ParseIP "1.2.3.04" = None ∧ ParseIP "1::2::3" = None ∧ ParseIP "12345::" = None ∧ ParseIP "1:2:3:4:5:6:7:8:9" = None.
Proof. vm_compute. done. Qed.
Example cidr_mapped : ParseCIDR "::ffff:10.1.2.3/104" = Some (mkIPNet true 167772160 8).
Proof. reflexivity. Qed.
Example contains_v4 : (λ n, Contains_ n (v4_in_v6 167772165)) <$> ParseCIDR "10.0.0.0/24" = Some true.
Proof. reflexivity. Qed.
