(* ===== verification/Netguard.v ===== *)
(** The addresses an outbound fetch may reach: internal/netguard/netguard.go.
    An address is the 128 bits net.IP's methods read (GoNet). *)
From S2P Require Import Prelude GoStrings GoStrconv GoNet.
#[local] Open Scope string_scope.
#[local] Open Scope Z_scope.
#[local] Open Scope list_scope.

(** What MustParse would give of a block written in the source. *)
Definition block (cidr : string) : IPNet := default (mkIPNet true 0 32) (ParseCIDR cidr).

Definition cgnatBlock : IPNet := block "100.64.0.0/10".

Definition specialUseBlocks : list IPNet :=
  block <$> ["0.0.0.0/8"; "192.0.0.0/24"; "192.0.2.0/24"; "198.18.0.0/15";
             "198.51.100.0/24"; "203.0.113.0/24"; "240.0.0.0/4";
             "100::/64"; "2001::/23"; "2001:db8::/32"].

Record Policy := mkPolicy { AllowLoopback : bool; AllowPrivate : bool }.

Definition localNAT64Block : IPNet := block "64:ff9b:1::/48".

(** The NAT64 prefix's twelve bytes. *)
Definition nat64 : Z := Z.shiftl 6619035 64.

(** net.IPv4 of four bytes. *)
Definition IPv4 (a b c d : Z) : Z :=
  v4_in_v6 (Z.lor (Z.lor (Z.shiftl a 24) (Z.shiftl b 16)) (Z.lor (Z.shiftl c 8) d)).

Definition embeddedIPv4 (ip : Z) : option Z :=
  match To4 ip with
  | Some _ => None
  | None =>
      if Z.shiftr ip 32 =? nat64 then
        Some (IPv4 (byte16 ip 12) (byte16 ip 13) (byte16 ip 14) (byte16 ip 15))
      else if (byte16 ip 0 =? 32) && (byte16 ip 1 =? 2) then
        Some (IPv4 (byte16 ip 2) (byte16 ip 3) (byte16 ip 4) (byte16 ip 5))
      else if (Z.shiftr ip 32 =? 0) && negb (IsUnspecified ip) && negb (IsLoopback ip) then
        Some (IPv4 (byte16 ip 12) (byte16 ip 13) (byte16 ip 14) (byte16 ip 15))
      else None
  end.

(** Why an address is refused. *)
Inductive category :=
| LocalNAT64 | Loopback | Private_ | CGNAT | LinkLocal | Unspecified | Multicast | SpecialUse
| Embedded (inner : category).

(** The checks of an address's own category. *)
Definition check_own (p : Policy) (ip : Z) : option category :=
  if IsLoopback ip && negb (AllowLoopback p) then Some Loopback
  else if IsPrivate ip && negb (AllowPrivate p) then Some Private_
  else if Contains_ cgnatBlock ip && negb (AllowPrivate p) then Some CGNAT
  else if IsLinkLocalUnicast ip || IsLinkLocalMulticast ip then Some LinkLocal
  else if IsUnspecified ip then Some Unspecified
  else if IsMulticast ip then Some Multicast
  else if existsb (λ n, Contains_ n ip) specialUseBlocks then Some SpecialUse
  else None.

(** Check calls itself on an embedded address, which embeds none. *)
Fixpoint check (fuel : nat) (p : Policy) (ip : Z) : option category :=
  if Contains_ localNAT64Block ip then Some LocalNAT64 else
  match embeddedIPv4 ip, fuel with
  | Some v4, S fuel =>
      match check fuel p v4 with
      | Some c => Some (Embedded c)
      | None => check_own p ip
      end
  | _, _ => check_own p ip
  end.

Definition Check_ (p : Policy) (ip : Z) : option category := check 1 p ip.

Definition Private (ip : Z) : bool := IsPrivate ip || Contains_ cgnatBlock ip.

(** * Blocks as ranges *)

(** A range of addresses: a prefix of [len] of [w] bits. *)
Definition in_block (w base len x : Z) : Prop := base <= x < base + 2 ^ (w - len).

(** The blocks an address is refused in, RFC 6890 and those a policy may admit. *)
Definition refused4 (p : Policy) (x : Z) : Prop :=
  AllowLoopback p = false ∧ in_block 32 (127 * 2 ^ 24) 8 x ∨
  AllowPrivate p = false ∧
    (in_block 32 (10 * 2 ^ 24) 8 x ∨ in_block 32 (172 * 2 ^ 24 + 16 * 2 ^ 16) 12 x ∨
     in_block 32 (192 * 2 ^ 24 + 168 * 2 ^ 16) 16 x ∨ in_block 32 (100 * 2 ^ 24 + 64 * 2 ^ 16) 10 x) ∨
  in_block 32 (169 * 2 ^ 24 + 254 * 2 ^ 16) 16 x ∨        (* link-local *)
  in_block 32 (224 * 2 ^ 24) 4 x ∨                         (* multicast *)
  in_block 32 0 8 x ∨ in_block 32 (192 * 2 ^ 24) 24 x ∨ in_block 32 (192 * 2 ^ 24 + 2 * 2 ^ 8) 24 x ∨
  in_block 32 (198 * 2 ^ 24 + 18 * 2 ^ 16) 15 x ∨ in_block 32 (198 * 2 ^ 24 + 51 * 2 ^ 16 + 100 * 2 ^ 8) 24 x ∨
  in_block 32 (203 * 2 ^ 24 + 113 * 2 ^ 8) 24 x ∨ in_block 32 (240 * 2 ^ 24) 4 x.

Definition refused6 (p : Policy) (x : Z) : Prop :=
  AllowLoopback p = false ∧ x = 1 ∨
  AllowPrivate p = false ∧ in_block 128 (252 * 2 ^ 120) 7 x ∨
  in_block 128 (254 * 2 ^ 120 + 128 * 2 ^ 112) 10 x ∨      (* link-local *)
  in_block 128 (255 * 2 ^ 120) 8 x ∨                        (* multicast *)
  x = 0 ∨
  in_block 128 (1 * 2 ^ 120) 64 x ∨                         (* 100::/64 *)
  in_block 128 (8193 * 2 ^ 112) 23 x ∨ in_block 128 (8193 * 2 ^ 112 + 3512 * 2 ^ 96) 32 x ∨
  in_block 128 (100 * 2 ^ 112 + 65435 * 2 ^ 96 + 1 * 2 ^ 80) 48 x.   (* 64:ff9b:1::/48 *)

(** The IPv4 address an IPv6 one leads to. *)
Definition leads_to (x : Z) : option Z :=
  if decide (in_block 128 (100 * 2 ^ 112 + 65435 * 2 ^ 96) 96 x) then Some (x mod 2 ^ 32)
  else if decide (in_block 128 (8194 * 2 ^ 112) 16 x) then Some (x / 2 ^ 80 mod 2 ^ 32)
  else if decide (1 < x < 2 ^ 32) then Some x
  else None.

(** The IPv4 addresses, mapped. *)
Definition mapped (x : Z) : Prop := in_block 128 (65535 * 2 ^ 32) 96 x.

Definition refused (p : Policy) (x : Z) : Prop :=
  if decide (mapped x) then refused4 p (x - 65535 * 2 ^ 32)
  else refused6 p x ∨ ∃ v4, leads_to x = Some v4 ∧ refused4 p v4.

(** * Categories as ranges *)

Lemma shiftr_div x k : 0 <= k → Z.shiftr x k = x / 2 ^ k.
Proof. apply Z.shiftr_div_pow2. Qed.

Lemma in_block_div w base len c x : 0 <= w - len → base = c * 2 ^ (w - len) →
  in_block w base len x ↔ x / 2 ^ (w - len) = c.
Proof.
  intros Hk ->. unfold in_block. set (m := 2 ^ (w - len)).
  assert (0 < m) by (apply Z.pow_pos_nonneg; lia). split.
  - intros Hx. symmetry. apply Z.div_unique with (x - c * m); lia.
  - intros <-. pose proof (Z.div_mod x m ltac:(lia)). pose proof (Z.mod_pos_bound x m ltac:(lia)). lia.
Qed.

Lemma div_range x k n : 0 <= k → 0 <= x < 2 ^ k * n → 0 <= x / 2 ^ k < n.
Proof.
  intros Hk Hx. assert (0 < 2 ^ k) by (apply Z.pow_pos_nonneg; lia).
  split; [apply Z.div_pos; lia|apply Z.div_lt_upper_bound; lia].
Qed.

Lemma div_pow x j k : 0 <= j → 0 <= k → x / 2 ^ (j + k) = x / 2 ^ j / 2 ^ k.
Proof.
  intros Hj Hk. pose proof (Z.pow_pos_nonneg 2 j ltac:(lia) Hj). pose proof (Z.pow_pos_nonneg 2 k ltac:(lia) Hk).
  rewrite Z.pow_add_r by lia. symmetry. apply Z.div_div; lia.
Qed.

Lemma land_255 x : Z.land x 255 = x mod 256.
Proof. apply (Z.land_ones x 8). lia. Qed.

(** What a mask of a byte asks, checked byte by byte. *)
Lemma byte_mask m c lo hi b :
  forallb (λ n, Bool.eqb (Z.land (Z.of_nat n) m =? c) ((lo <=? Z.of_nat n) && (Z.of_nat n <? hi))) (seq 0 256) = true →
  0 <= b < 256 → Z.land b m = c ↔ lo <= b < hi.
Proof.
  intros Hall Hb. rewrite forallb_forall in Hall. specialize (Hall (Z.to_nat b)).
  rewrite Z2Nat.id, eqb_true_iff in Hall by lia.
  assert (In (Z.to_nat b) (seq 0 256)) as Hin by (apply in_seq; lia). specialize (Hall Hin).
  rewrite <-Z.eqb_eq, Hall, andb_true_iff, Z.leb_le, Z.ltb_lt. done.
Qed.

Lemma mapped_iff x : mapped x ↔ x / 2 ^ 32 = 65535.
Proof. apply (in_block_div 128 _ 96 65535); [lia|reflexivity]. Qed.

Lemma To4_mapped x : match To4 x with Some v => mapped x ∧ v = x - 65535 * 2 ^ 32 ∧ 0 <= v < 2 ^ 32 | None => ¬ mapped x end.
Proof.
  unfold To4. rewrite shiftr_div by lia. pose proof (mapped_iff x) as E.
  destruct (Z.eqb_spec (x / 2 ^ 32) 65535) as [Ex|Ex]; [|tauto]. split; [tauto|].
  rewrite Z.land_ones by lia. pose proof (Z.div_mod x (2 ^ 32) ltac:(lia)). pose proof (Z.mod_pos_bound x (2 ^ 32) ltac:(lia)). lia.
Qed.

(** The upper bits of a number, from the bits above a lower place. *)
Lemma upper x j k : 0 <= j <= k → x / 2 ^ k = x / 2 ^ j / 2 ^ (k - j).
Proof. intros H. rewrite <-div_pow by lia. f_equal; f_equal; lia. Qed.

Ltac zdiv := Z.to_euclidean_division_equations; lia.

Section own4.
Context (p : Policy) (x v : Z) (Hx : To4 x = Some v) (Hv : 0 <= v < 2 ^ 32).

Lemma byte4_0 : byte4 v 0 = v / 2 ^ 24.
Proof using Hv.
  unfold byte4. rewrite shiftr_div, land_255 by lia. apply Z.mod_small. by apply (div_range v 24 256).
Qed.

Lemma byte4_1 : byte4 v 1 = v / 2 ^ 16 mod 256.
Proof using Type. unfold byte4. rewrite shiftr_div, land_255 by lia. done. Qed.

Lemma byte4_2 : byte4 v 2 = v / 2 ^ 8 mod 256.
Proof using Type. unfold byte4. rewrite shiftr_div, land_255 by lia. done. Qed.

(** Sixteen bits say most of what the bytes do. *)
Lemma top_16 : 0 <= v / 2 ^ 16 < 65536.
Proof using Hv. by apply (div_range v 16 65536). Qed.

Lemma loopback4 : IsLoopback x = true ↔ v / 2 ^ 24 = 127.
Proof using Hx Hv. unfold IsLoopback. rewrite Hx, byte4_0. apply Z.eqb_eq. Qed.

Lemma private4 : IsPrivate x = true ↔ v / 2 ^ 24 = 10 ∨ v / 2 ^ 20 = 2753 ∨ v / 2 ^ 16 = 49320.
Proof using Hx Hv.
  unfold IsPrivate. rewrite Hx, byte4_0, byte4_1, !orb_true_iff, !andb_true_iff, !Z.eqb_eq.
  rewrite (byte_mask 240 16 16 32) by (first [reflexivity | apply Z.mod_pos_bound; lia]).
  rewrite (upper v 16 24), (upper v 16 20) by lia. pose proof top_16 as Ha. revert Ha.
  generalize (v / 2 ^ 16). intros a Ha. change (2 ^ (24 - 16)) with 256. change (2 ^ (20 - 16)) with 16. zdiv.
Qed.

Lemma link_local4 : IsLinkLocalUnicast x || IsLinkLocalMulticast x = true ↔ v / 2 ^ 16 = 43518 ∨ v / 2 ^ 8 = 14680064.
Proof using Hx Hv.
  unfold IsLinkLocalUnicast, IsLinkLocalMulticast. rewrite Hx, byte4_0, byte4_1, byte4_2, orb_true_iff, !andb_true_iff, !Z.eqb_eq.
  pose proof top_16 as Ha. rewrite (upper v 16 24) by lia. rewrite (upper v 8 16) in * by lia. revert Ha.
  generalize (v / 2 ^ 8). intros a Ha. change (2 ^ (24 - 16)) with 256. change (2 ^ (16 - 8)) with 256 in *. zdiv.
Qed.

Lemma multicast4 : IsMulticast x = true ↔ v / 2 ^ 28 = 14.
Proof using Hx Hv.
  unfold IsMulticast. rewrite Hx, byte4_0, Z.eqb_eq.
  rewrite (byte_mask 240 224 224 240) by (first [reflexivity | by apply (div_range v 24 256)]).
  rewrite (upper v 16 24), (upper v 16 28) by lia. pose proof top_16 as Ha. revert Ha.
  generalize (v / 2 ^ 16). intros a Ha. change (2 ^ (24 - 16)) with 256. change (2 ^ (28 - 16)) with 4096. zdiv.
Qed.
End own4.

Lemma check_own_iff p ip : check_own p ip ≠ None ↔
  IsLoopback ip = true ∧ AllowLoopback p = false ∨
  AllowPrivate p = false ∧ (IsPrivate ip = true ∨ Contains_ cgnatBlock ip = true) ∨
  IsLinkLocalUnicast ip || IsLinkLocalMulticast ip = true ∨ IsUnspecified ip = true ∨ IsMulticast ip = true ∨
  existsb (λ n, Contains_ n ip) specialUseBlocks = true.
Proof.
  unfold check_own.
  destruct (IsLoopback ip), (AllowLoopback p), (IsPrivate ip), (AllowPrivate p), (Contains_ cgnatBlock ip); cbn [andb negb];
    try (split; [tauto|discriminate]);
    destruct (IsLinkLocalUnicast ip || IsLinkLocalMulticast ip), (IsUnspecified ip), (IsMulticast ip),
      (existsb (λ n, Contains_ n ip) specialUseBlocks); cbv iota;
    first [split; [tauto|discriminate] | split; [congruence|intuition discriminate]].
Qed.

Lemma special_list : specialUseBlocks =
  [mkIPNet true 0 8; mkIPNet true 3221225472 24; mkIPNet true 3221225984 24; mkIPNet true 3323068416 15;
   mkIPNet true 3325256704 24; mkIPNet true 3405803776 24; mkIPNet true 4026531840 4;
   mkIPNet false (2 ^ 120) 64; mkIPNet false (8193 * 2 ^ 112) 23; mkIPNet false (536939960 * 2 ^ 96) 32].
Proof. vm_compute. reflexivity. Qed.

Lemma cgnat_is : cgnatBlock = mkIPNet true 1681915904 10.
Proof. vm_compute. reflexivity. Qed.

Lemma local_nat64_is : localNAT64Block = mkIPNet false (433785077761 * 2 ^ 80) 48.
Proof. vm_compute. reflexivity. Qed.

Lemma contains4 x v n k c : To4 x = Some v → 0 <= k <= 32 → c = n / 2 ^ k →
  Contains_ (mkIPNet true n (32 - k)) x = true ↔ v / 2 ^ k = c.
Proof.
  intros Hx Hk ->. unfold Contains_. rewrite Hx. cbn [net4 net_len net_number andb].
  replace (32 - (32 - k)) with k by lia. rewrite !shiftr_div by lia. apply Z.eqb_eq.
Qed.

Lemma contains6 x n k c : To4 x = None → 0 <= k <= 128 → c = n / 2 ^ k →
  Contains_ (mkIPNet false n (128 - k)) x = true ↔ x / 2 ^ k = c.
Proof.
  intros Hx Hk ->. unfold Contains_. rewrite Hx. cbn [net4 net_len net_number andb negb].
  replace (128 - (128 - k)) with k by lia. rewrite !shiftr_div by lia. apply Z.eqb_eq.
Qed.

Lemma contains_other x b n k : match To4 x with Some _ => b = false | None => b = true end → Contains_ (mkIPNet b n k) x = false.
Proof. unfold Contains_. by destruct (To4 x); intros ->. Qed.

Lemma unspecified4 x v : To4 x = Some v → IsUnspecified x = true → v / 2 ^ 24 = 0.
Proof.
  intros Hx. unfold IsUnspecified. rewrite orb_true_iff, !Z.eqb_eq. intros [->| ->]; vm_compute in Hx; simplify_eq; done.
Qed.

Lemma block4 c k len x : 0 <= k → 32 - len = k → in_block 32 (c * 2 ^ k) len x ↔ x / 2 ^ k = c.
Proof. intros Hk <-. by apply in_block_div. Qed.

Lemma block6 c k len x : 0 <= k → 128 - len = k → in_block 128 (c * 2 ^ k) len x ↔ x / 2 ^ k = c.
Proof. intros Hk <-. by apply in_block_div. Qed.

Lemma false_true : false = true ↔ False.
Proof. split; [discriminate|done]. Qed.

(** An IPv4 address is refused in its blocks. *)
Lemma own_v4 p x v : To4 x = Some v → 0 <= v < 2 ^ 32 → check_own p x ≠ None ↔ refused4 p v.
Proof.
  intros Hx Hv. rewrite check_own_iff, cgnat_is, special_list. cbn [existsb].
  rewrite !(contains_other x false) by (by rewrite Hx).
  rewrite (loopback4 x v Hx Hv), (private4 x v Hx Hv), (link_local4 x v Hx Hv), (multicast4 x v Hx Hv).
  rewrite !orb_true_iff, !false_true.
  rewrite (contains4 x v 1681915904 22 401 Hx), (contains4 x v 0 24 0 Hx), (contains4 x v 3221225472 8 12582912 Hx),
    (contains4 x v 3221225984 8 12582914 Hx), (contains4 x v 3323068416 17 25353 Hx), (contains4 x v 3325256704 8 12989284 Hx),
    (contains4 x v 3405803776 8 13303921 Hx), (contains4 x v 4026531840 28 15 Hx) by (done || reflexivity).
  unfold refused4. rewrite (block4 127 24), (block4 10 24), (block4 2753 20), (block4 49320 16), (block4 401 22),
    (block4 43518 16), (block4 14 28), (block4 0 24), (block4 12582912 8), (block4 12582914 8), (block4 25353 17),
    (block4 12989284 8), (block4 13303921 8), (block4 15 28) by (done || reflexivity).
  pose proof (unspecified4 x v Hx).
  assert (v / 2 ^ 8 = 14680064 → v / 2 ^ 28 = 14) by (rewrite (upper v 8 28) by lia; by intros ->).
  tauto.
Qed.

(** * IPv6 *)

Section own6.
Context (x : Z) (Hx : To4 x = None) (Hv : 0 <= x < 2 ^ 128).

Lemma byte16_0 : byte16 x 0 = x / 2 ^ 120.
Proof using Hv.
  unfold byte16. rewrite shiftr_div, land_255 by lia. apply Z.mod_small. by apply (div_range x 120 256).
Qed.

Lemma byte16_at i : 0 <= i <= 15 → byte16 x i = x / 2 ^ (8 * (15 - i)) mod 256.
Proof using Type. intros Hi. unfold byte16. rewrite shiftr_div, land_255 by lia. done. Qed.

Lemma top_112 : 0 <= x / 2 ^ 112 < 65536.
Proof using Hv. by apply (div_range x 112 65536). Qed.

Lemma loopback6 : IsLoopback x = true ↔ x = 1.
Proof using Hx. unfold IsLoopback. rewrite Hx. apply Z.eqb_eq. Qed.

Lemma unspecified6 : IsUnspecified x = true ↔ x = 0.
Proof using Hx Hv.
  unfold IsUnspecified. rewrite orb_true_iff, !Z.eqb_eq. split; [|by right]. intros [->|]; [|done]. by vm_compute in Hx.
Qed.

Lemma private6 : IsPrivate x = true ↔ x / 2 ^ 121 = 126.
Proof using Hx Hv.
  unfold IsPrivate. rewrite Hx, Z.eqb_eq, byte16_0.
  rewrite (byte_mask 254 252 252 254) by (first [reflexivity | by apply (div_range x 120 256)]).
  rewrite (upper x 120 121) by lia. change (2 ^ (121 - 120)) with 2. zdiv.
Qed.

Lemma link_local6 : IsLinkLocalUnicast x || IsLinkLocalMulticast x = true →
  x / 2 ^ 118 = 1018 ∨ x / 2 ^ 120 = 255.
Proof using Hx Hv.
  unfold IsLinkLocalUnicast, IsLinkLocalMulticast. rewrite Hx, orb_true_iff, !andb_true_iff, !Z.eqb_eq, byte16_0.
  rewrite (byte16_at 1) by lia. rewrite (byte_mask 192 128 128 192) by (first [reflexivity | apply Z.mod_pos_bound; lia]).
  change (8 * (15 - 1)) with 112. pose proof top_112 as Ha. revert Ha.
  rewrite (upper x 112 120), (upper x 112 118) by lia. generalize (x / 2 ^ 112). intros a Ha.
  change (2 ^ (120 - 112)) with 256. change (2 ^ (118 - 112)) with 64. intros [H|H]; [left|right]; zdiv.
Qed.

Lemma link_local6_in : x / 2 ^ 118 = 1018 → IsLinkLocalUnicast x || IsLinkLocalMulticast x = true.
Proof using Hx Hv.
  unfold IsLinkLocalUnicast. rewrite Hx, orb_true_iff, !andb_true_iff, !Z.eqb_eq, byte16_0.
  rewrite (byte16_at 1) by lia. rewrite (byte_mask 192 128 128 192) by (first [reflexivity | apply Z.mod_pos_bound; lia]).
  change (8 * (15 - 1)) with 112. pose proof top_112 as Ha. revert Ha.
  rewrite (upper x 112 120), (upper x 112 118) by lia. generalize (x / 2 ^ 112). intros a Ha.
  change (2 ^ (120 - 112)) with 256. change (2 ^ (118 - 112)) with 64. intros H. left. zdiv.
Qed.

Lemma multicast6 : IsMulticast x = true ↔ x / 2 ^ 120 = 255.
Proof using Hx Hv. unfold IsMulticast. rewrite Hx, Z.eqb_eq, byte16_0. done. Qed.
End own6.

(** An IPv6 address is refused on its own in the local NAT64 block and in its blocks. *)
Lemma own_v6 p x : To4 x = None → 0 <= x < 2 ^ 128 →
  Contains_ localNAT64Block x = true ∨ check_own p x ≠ None ↔ refused6 p x.
Proof.
  intros Hx Hv. rewrite check_own_iff, cgnat_is, special_list, local_nat64_is. cbn [existsb].
  rewrite !(contains_other x true) by (by rewrite Hx).
  rewrite (loopback6 x Hx), (private6 x Hx Hv), (unspecified6 x Hx Hv), (multicast6 x Hx Hv).
  pose proof (link_local6 x Hx Hv) as L1. pose proof (link_local6_in x Hx Hv) as L2.
  set (ll := IsLinkLocalUnicast x || IsLinkLocalMulticast x) in *.
  rewrite !orb_true_iff, !false_true.
  rewrite (contains6 x (433785077761 * 2 ^ 80) 80 433785077761 Hx), (contains6 x (2 ^ 120) 64 (2 ^ 56) Hx),
    (contains6 x (8193 * 2 ^ 112) 105 (8193 * 2 ^ 7) Hx), (contains6 x (536939960 * 2 ^ 96) 96 536939960 Hx) by (done || reflexivity).
  unfold refused6. rewrite (block6 126 121), (block6 1018 118), (block6 255 120), (block6 (2 ^ 56) 64),
    (block6 (8193 * 2 ^ 7) 105), (block6 536939960 96), (block6 433785077761 80) by (done || reflexivity).
  tauto.
Qed.


(** The bytes a prefix leaves are the address it leads to. *)
Lemma IPv4_mapped n : 0 <= n < 2 ^ 32 →
  To4 (IPv4 (n / 2 ^ 24) (n / 2 ^ 16 mod 256) (n / 2 ^ 8 mod 256) (n mod 256)) = Some n.
Proof.
  intros Hn. unfold IPv4. set (d := n mod 256). set (c := n / 2 ^ 8 mod 256). set (b := n / 2 ^ 16 mod 256).
  assert (0 <= b < 256 ∧ 0 <= c < 256 ∧ 0 <= d < 256) as (Hb & Hc & Hd) by (split_and!; try apply Z.mod_pos_bound; lia).
  rewrite (Z.shiftl_mul_pow2 b), !lor_shift by lia.
  replace (n / 2 ^ 24 * 2 ^ 24 + b * 2 ^ 16) with (Z.shiftl (n / 2 ^ 24 * 2 ^ 8 + b) 16) by (rewrite Z.shiftl_mul_pow2; lia).
  rewrite lor_shift by lia. replace ((n / 2 ^ 24 * 2 ^ 8 + b) * 2 ^ 16 + (c * 2 ^ 8 + d)) with n.
  - unfold To4, v4_in_v6. rewrite lor_shift by lia.
    rewrite shiftr_div by lia. replace ((65535 * 2 ^ 32 + n) / 2 ^ 32) with 65535 by (apply (Z.div_unique _ _ _ n); lia).
    rewrite Z.eqb_refl, Z.land_ones by lia. f_equal. symmetry. apply (Z.mod_unique _ _ 65535); lia.
  - subst b c d. change (2 ^ 24) with 16777216. change (2 ^ 16) with 65536. change (2 ^ 8) with 256. zdiv.
Qed.

Lemma bytes16 x k : 0 <= k <= 12 →
  To4 (IPv4 (byte16 x k) (byte16 x (k + 1)) (byte16 x (k + 2)) (byte16 x (k + 3))) =
  Some (x / 2 ^ (8 * (12 - k)) mod 2 ^ 32).
Proof.
  intros Hk. rewrite !byte16_at by lia. set (y := x / 2 ^ (8 * (12 - k))).
  rewrite (upper x (8 * (12 - k)) (8 * (15 - k))), (upper x (8 * (12 - k)) (8 * (15 - (k + 1)))),
    (upper x (8 * (12 - k)) (8 * (15 - (k + 2)))) by lia. fold y.
  replace (8 * (15 - (k + 3))) with (8 * (12 - k)) by lia. fold y.
  replace (8 * (15 - k) - 8 * (12 - k)) with 24 by lia. replace (8 * (15 - (k + 1)) - 8 * (12 - k)) with 16 by lia.
  replace (8 * (15 - (k + 2)) - 8 * (12 - k)) with 8 by lia.
  pose proof (Z.mod_pos_bound y (2 ^ 32) ltac:(lia)) as Hy. rewrite <-(IPv4_mapped _ Hy). do 2 f_equal; clear;
    change (2 ^ 24) with 16777216; change (2 ^ 16) with 65536; change (2 ^ 8) with 256; change (2 ^ 32) with 4294967296; zdiv.
Qed.

Lemma nat64_iff x : (Z.shiftr x 32 =? nat64) = true ↔ in_block 128 (100 * 2 ^ 112 + 65435 * 2 ^ 96) 96 x.
Proof. rewrite (block6 (6619035 * 2 ^ 64) 32), Z.eqb_eq, shiftr_div by (done || lia). done. Qed.

Lemma sixtofour_iff x : 0 <= x < 2 ^ 128 →
  (byte16 x 0 =? 32) && (byte16 x 1 =? 2) = true ↔ in_block 128 (8194 * 2 ^ 112) 16 x.
Proof.
  intros Hx. rewrite (block6 8194 112), andb_true_iff, !Z.eqb_eq, (byte16_0 x Hx), (byte16_at x 1) by (done || lia).
  change (8 * (15 - 1)) with 112. rewrite (upper x 112 120) by lia. change (2 ^ (120 - 112)) with 256.
  pose proof (top_112 x Hx) as Ha. revert Ha. generalize (x / 2 ^ 112). intros a Ha. zdiv.
Qed.

Lemma compatible_iff x : To4 x = None → 0 <= x < 2 ^ 128 →
  (Z.shiftr x 32 =? 0) && negb (IsUnspecified x) && negb (IsLoopback x) = true ↔ 1 < x < 2 ^ 32.
Proof.
  intros H4 Hx. rewrite !andb_true_iff, !negb_true_iff, <-!not_true_iff_false, (unspecified6 x H4 Hx), (loopback6 x H4), Z.eqb_eq.
  rewrite shiftr_div by lia. rewrite Z.div_small_iff by lia. lia.
Qed.

Lemma cond_iff (b : bool) (P : Prop) : (b = true ↔ P) → b = true ∧ P ∨ b = false ∧ ¬ P.
Proof. destruct b; [left; tauto|right; split; [done|]; intros HP; by apply H in HP]. Qed.

Lemma embedded_v6 x : To4 x = None → 0 <= x < 2 ^ 128 →
  match embeddedIPv4 x with
  | Some w => ∃ v, leads_to x = Some v ∧ To4 w = Some v ∧ 0 <= v < 2 ^ 32
  | None => leads_to x = None
  end.
Proof.
  intros H4 Hx. unfold embeddedIPv4, leads_to. rewrite H4.
  pose proof (nat64_iff x) as N. pose proof (sixtofour_iff x Hx) as T. pose proof (compatible_iff x H4 Hx) as P.
  pose proof (bytes16 x 12 ltac:(lia)) as B12. pose proof (bytes16 x 2 ltac:(lia)) as B2.
  change (2 ^ (8 * (12 - 12))) with 1 in B12. rewrite Z.div_1_r in B12.
  change (8 * (12 - 2)) with 80 in B2.
  change (12 + 1) with 13 in B12. change (12 + 2) with 14 in B12. change (12 + 3) with 15 in B12.
  change (2 + 1) with 3 in B2. change (2 + 2) with 4 in B2. change (2 + 3) with 5 in B2.
  assert (∀ y, 0 <= y mod 2 ^ 32 < 2 ^ 32) as Hm by (intros; by apply Z.mod_pos_bound).
  destruct (cond_iff _ _ N) as [[-> HN]|[-> HN]]; [rewrite decide_True by done; eauto|rewrite decide_False by done].
  destruct (cond_iff _ _ T) as [[-> HT]|[-> HT]]; [rewrite decide_True by done; eauto|rewrite decide_False by done].
  destruct (cond_iff _ _ P) as [[-> HP]|[-> HP]]; [rewrite decide_True by done|by rewrite decide_False].
  eexists. split; [done|]. rewrite B12. rewrite Z.mod_small by lia. split; [done|lia].
Qed.

(** The guard refuses exactly the addresses it means to: of the IPv4
    ones (mapped ones included) those of the loopback, private, carrier-grade
    NAT, link-local, multicast and special-use blocks the policy does not
    admit; of the IPv6 ones those of its own blocks, the local NAT64 prefix
    among them, and those that lead — by NAT64, 6to4 or an IPv4-compatible
    address — to a refused IPv4 address. *)
Theorem check_refuses p x : 0 <= x < 2 ^ 128 → Check_ p x ≠ None ↔ refused p x.
Proof.
  intros Hx. unfold Check_, refused, check. pose proof (To4_mapped x) as M.
  destruct (To4 x) as [v|] eqn:H4.
  - destruct M as (M & -> & Hv). rewrite decide_True by done.
    rewrite local_nat64_is, (contains_other x) by (by rewrite H4). cbv iota.
    assert (embeddedIPv4 x = None) as -> by (unfold embeddedIPv4; by rewrite H4). by apply own_v4.
  - rewrite decide_False by done. rewrite <-(own_v6 p x H4 Hx). pose proof (embedded_v6 x H4 Hx) as E.
    destruct (Contains_ localNAT64Block x); [split; [tauto|discriminate]|].
    destruct (embeddedIPv4 x) as [w|].
    + destruct E as (v & -> & Hw & Hv). pose proof (own_v4 p w v Hw Hv) as O.
      rewrite local_nat64_is, (contains_other w) by (by rewrite Hw). cbv iota.
      assert (embeddedIPv4 w = None) as -> by (unfold embeddedIPv4; by rewrite Hw).
      destruct (check_own p w); split.
      * intros _. right. exists v. split; [done|]. by apply O.
      * discriminate.
      * tauto.
      * intros [[?|?]|(v' & [= ->] & Hr)]; [discriminate|done|]. by apply O in Hr.
    + rewrite E. split; [tauto|]. intros [[?|?]|(v' & ? & _)]; [discriminate|done|discriminate].
Qed.

(** The metadata address by NAT64 and by 6to4, and a name server. *)
Lemma check_refuses_witness :
  Check_ (mkPolicy true true) (6619035 * 2 ^ 96 + 2852039166) ≠ None ∧ ¬ refused (mkPolicy false false) (65535 * 2 ^ 32 + 134744072).
Proof.
  split.
  - apply (check_refuses (mkPolicy true true)); [lia|]. unfold refused. rewrite decide_False by (unfold mapped, in_block; lia).
    right. exists 2852039166. split; [vm_compute; reflexivity|]. right. right. left. unfold in_block. lia.
  - intros H. apply (check_refuses (mkPolicy false false)) in H; [|lia]. apply H. vm_compute. reflexivity.
Defined.
