(* ===== verification/GoPath.v ===== *)
(** [path.Match] and [utf8.DecodeRuneInString] of Go's standard library, which
    decide what an ACL pattern matches. A pattern is scanned into chunks; a
    chunk is parsed into tokens, which fails exactly when the chunk is
    malformed, and the tokens are matched against the name. *)
From S2P Require Import Prelude GoStrings.
#[local] Open Scope string_scope.
#[local] Open Scope nat_scope.

Definition byte_at (s : string) (i : nat) : option Z :=
  (λ c, Z.of_N (N_of_ascii c)) <$> String.get i s.

Definition RuneError : Z := 65533.

(** A continuation byte in [lo, hi] at [i]. *)
Definition cont (s : string) (i : nat) (lo hi : Z) : option Z :=
  b ← byte_at s i; if (lo <=? b)%Z && (b <=? hi)%Z then Some b else None.

(** The first rune of [s] and its width; (RuneError, 1) for an invalid byte
    and (RuneError, 0) for the empty string. *)
Definition DecodeRune (s : string) : Z * nat :=
  match byte_at s 0 with
  | None => (RuneError, 0)
  | Some b =>
      let low (x : Z) := (x mod 64)%Z in
      let two :=
        b1 ← cont s 1 128 191;
        Some ((b mod 32) * 64 + low b1, 2)%Z in
      let three lo hi :=
        b1 ← cont s 1 lo hi; b2 ← cont s 2 128 191;
        Some (((b mod 16) * 64 + low b1) * 64 + low b2, 3)%Z in
      let four lo hi :=
        b1 ← cont s 1 lo hi; b2 ← cont s 2 128 191; b3 ← cont s 3 128 191;
        Some ((((b mod 8) * 64 + low b1) * 64 + low b2) * 64 + low b3, 4)%Z in
      let multi : option (Z * Z) :=
        if (b <? 194)%Z then None
        else if (b <? 224)%Z then two
        else if (b =? 224)%Z then three 160%Z 191%Z
        else if (b =? 237)%Z then three 128%Z 159%Z
        else if (b <? 240)%Z then three 128%Z 191%Z
        else if (b =? 240)%Z then four 144%Z 191%Z
        else if (b <? 244)%Z then four 128%Z 191%Z
        else if (b =? 244)%Z then four 128%Z 143%Z
        else None in
      if (b <? 128)%Z then (b, 1) else
      match multi with
      | Some (r, n) => (r, Z.to_nat n)
      | None => (RuneError, 1)
      end
  end.

(** What one pattern element matches: a literal byte, any byte but a slash, or
    a class of rune ranges. *)
Inductive token :=
| TLit (c : ascii)
| TAny
| TClass (negated : bool) (ranges : list (Z * Z)).

(** path.getEsc: one class member and what follows it, which is never empty;
    [None] is ErrBadPattern. *)
Definition getEsc (chunk : string) : option (Z * string) :=
  match chunk with
  | "" => None
  | String c rest =>
      if Ascii.eqb c "-" || Ascii.eqb c "]" then None else
      let body := if Ascii.eqb c "\" then rest else chunk in
      match body with
      | "" => None
      | _ =>
          let '(r, n) := DecodeRune body in
          if (r =? RuneError)%Z && (n =? 1)%nat then None else
          match str_drop n body with
          | "" => None
          | nchunk => Some (r, nchunk)
          end
      end
  end.

(** The ranges of a class, after its opening bracket and negation. *)
Fixpoint class_ranges (fuel : nat) (acc : list (Z * Z)) (chunk : string)
    : option (list (Z * Z) * string) :=
  match fuel with
  | O => None
  | S fuel =>
      match (match acc with [] => None | _ => eat "]" chunk end) with
      | Some rest => Some (acc, rest)
      | None =>
          '(lo, after) ← getEsc chunk;
          match eat "-" after with
          | Some upper =>
              '(hi, after') ← getEsc upper;
              class_ranges fuel (acc ++ [(lo, hi)]) after'
          | None => class_ranges fuel (acc ++ [(lo, lo)]) after
          end
      end
  end.

(** The tokens of a chunk; [None] is ErrBadPattern. Each round consumes at
    least one byte, so the length of the chunk is fuel enough. *)
Fixpoint tokens (fuel : nat) (chunk : string) : option (list token) :=
  match fuel, chunk with
  | _, "" => Some []
  | O, _ => None
  | S fuel, String c rest =>
      if Ascii.eqb c "[" then
        let '(neg, rest) :=
          match eat "^" rest with Some rest' => (true, rest') | None => (false, rest) end in
        '(ranges, after) ← class_ranges (String.length rest) [] rest;
        ts ← tokens fuel after; Some (TClass neg ranges :: ts)
      else if Ascii.eqb c "?" then
        ts ← tokens fuel rest; Some (TAny :: ts)
      else if Ascii.eqb c "\" then
        match rest with
        | "" => None
        | String c rest' => ts ← tokens fuel rest'; Some (TLit c :: ts)
        end
      else
        ts ← tokens fuel rest; Some (TLit c :: ts)
  end.

Definition parseChunk (chunk : string) : option (list token) :=
  tokens (String.length chunk) chunk.

(** What is left of [s] after the tokens, when they match a prefix of it. *)
Fixpoint matchTokens (ts : list token) (s : string) : option string :=
  match ts with
  | [] => Some s
  | t :: ts =>
      match s with
      | "" => None
      | String b s' =>
          let '(r, n) := DecodeRune s in
          match t with
          | TLit c => if Ascii.eqb c b then matchTokens ts s' else None
          | TAny => if Ascii.eqb b "/" then None else matchTokens ts (str_drop n s)
          | TClass neg ranges =>
              let inside := existsb (λ '(lo, hi), (lo <=? r)%Z && (r <=? hi)%Z) ranges in
              if Bool.eqb inside neg then None else matchTokens ts (str_drop n s)
          end
      end
  end.

(** path.scanChunk: whether stars lead, the chunk up to the next star outside
    a class, and the rest of the pattern. *)
Fixpoint chunk_end (inrange : bool) (p : string) : string * string :=
  match p with
  | "" => ("", "")
  | String c p' =>
      let plain :=
        let '(a, b) :=
          chunk_end (if Ascii.eqb c "[" then true
                     else if Ascii.eqb c "]" then false else inrange) p' in
        (String c a, b) in
      if Ascii.eqb c "\" then
        match p' with
        | "" => plain
        | String d p'' =>
            let '(a, b) := chunk_end inrange p'' in (String c (String d a), b)
        end
      else if Ascii.eqb c "*" && negb inrange then ("", p) else plain
  end.

Definition scanChunk (p : string) : bool * string * string :=
  let p' := trim_left_byte "*" p in
  let '(chunk, rest) := chunk_end false p' in
  (HasPrefix p "*", chunk, rest).

(** The pattern as its sequence of starred chunks. *)
Fixpoint chunks (fuel : nat) (p : string) : list (bool * string) :=
  match fuel, p with
  | O, _ | _, "" => []
  | S fuel, _ =>
      let '(star, chunk, rest) := scanChunk p in (star, chunk) :: chunks fuel rest
  end.

(** The first place from the current one on, sliding over no slash when a star
    leads, where the chunk matches; [last] also wants the name exhausted. *)
Fixpoint slide (last : bool) (ts : list token) (name : string) : option string :=
  let here := t ← matchTokens ts name; if last && negb (is_empty t) then None else Some t in
  match here with
  | Some t => Some t
  | None =>
      match name with
      | "" => None
      | String c name' => if Ascii.eqb c "/" then None else slide last ts name'
      end
  end.

Inductive glob_result := GMatch | GNoMatch | ErrBadPattern.
Global Instance glob_result_eq_dec : EqDecision glob_result.
Proof. solve_decision. Defined.

(** The chunks left over after a mismatch are parsed too, so that a malformed
    pattern is an error whatever the name. *)
Fixpoint check_rest (cs : list (bool * string)) : glob_result :=
  match cs with
  | [] => GNoMatch
  | (_, chunk) :: cs =>
      match parseChunk chunk with Some _ => check_rest cs | None => ErrBadPattern end
  end.

Fixpoint match_chunks (cs : list (bool * string)) (name : string) : glob_result :=
  match cs with
  | [] => if is_empty name then GMatch else GNoMatch
  | (star, chunk) :: cs =>
      if star && is_empty chunk then
        if decide (IndexByte name "/" = None) then GMatch else GNoMatch
      else
      match parseChunk chunk with
      | None => ErrBadPattern
      | Some ts =>
          let last := match cs with [] => true | _ => false end in
          let here :=
            if star then slide last ts name
            else t ← matchTokens ts name;
                 if last && negb (is_empty t) then None else Some t in
          match here with
          | Some t => match_chunks cs t
          | None => check_rest cs
          end
      end
  end.

(** path.Match *)
Definition Match (pattern name : string) : glob_result :=
  match_chunks (chunks (String.length pattern) pattern) name.

(** A star with nothing after it ends the pattern. *)
Definition star_last (cs : list (bool * string)) : Prop :=
  ∀ i c, cs !! i = Some c → c = (true, "") → S i = length cs.

(** A pattern without metacharacters, and the single star. *)
Definition literal_byte (c : ascii) : bool :=
  negb (existsb (Ascii.eqb c) ["*"%char; "?"%char; "["%char; "]"%char; "\"%char]).

Fixpoint literal (p : string) : bool :=
  match p with "" => true | String c p => literal_byte c && literal p end.

(** * Facts *)


Lemma check_rest_error cs :
  check_rest cs = ErrBadPattern ↔
  ¬ Forall (λ c : bool * string, is_Some (parseChunk c.2)) cs.
Proof.
  induction cs as [|[star chunk] cs IH]; simpl.
  { split; [done|]. intros []. constructor. }
  rewrite Forall_cons; simpl. destruct (parseChunk chunk); [naive_solver|].
  split; [|done]. intros _ [[? ?] _]. done.
Qed.

Lemma star_last_tail c cs : star_last (c :: cs) → star_last cs.
Proof. intros H i d Hi Hd. specialize (H (S i) d Hi Hd). simpl in H. lia. Qed.

Lemma parseChunk_empty : parseChunk "" = Some [].
Proof. done. Qed.

Lemma match_chunks_error cs name :
  star_last cs →
  match_chunks cs name = ErrBadPattern ↔
  ¬ Forall (λ c : bool * string, is_Some (parseChunk c.2)) cs.
Proof.
  revert name. induction cs as [|[star chunk] cs IH]; intros name Hlast.
  { simpl. destruct (is_empty name); (split; [done|]); intros []; constructor. }
  cbn [match_chunks]. rewrite Forall_cons; cbn [snd].
  destruct (star && is_empty chunk) eqn:E.
  - apply andb_true_iff in E as [-> ?]. destruct chunk; [|done].
    specialize (Hlast 0 _ eq_refl eq_refl). destruct cs; [|done].
    split; [by case_decide|]. intros []. split; [by rewrite parseChunk_empty|constructor].
  - apply star_last_tail in Hlast.
    destruct (parseChunk chunk) as [ts|].
    + match goal with |- context [match ?h with Some t => match_chunks cs t | None => _ end] =>
        destruct h as [t|] end.
      * rewrite IH by done. naive_solver.
      * rewrite check_rest_error. naive_solver.
    + split; [|done]. intros _ [[? ?] _]. done.
Qed.

Lemma trim_left_byte_head c s d s' : trim_left_byte c s = String d s' → d ≠ c.
Proof.
  induction s as [|e s IH]; simpl; [done|].
  destruct (Ascii.eqb e c) eqn:E; [done|]. intros [= <- _] ->.
  by rewrite Ascii.eqb_refl in E.
Qed.

Lemma chunk_end_empty p r :
  chunk_end false p = ("", r) → p = "" ∨ ∃ p', p = String "*" p'.
Proof.
  destruct p as [|c p]; [by left|]. cbn [chunk_end]. intros H. right. exists p. f_equal.
  destruct (Ascii.eqb c "*") eqn:Estar; [by apply Ascii.eqb_eq in Estar|]. exfalso.
  revert H. simpl. destruct (Ascii.eqb c "\"), p;
    repeat match goal with |- context [chunk_end ?b ?q] => destruct (chunk_end b q) end;
    congruence.
Qed.

Lemma scanChunk_empty p star rest : scanChunk p = (star, "", rest) → rest = "".
Proof.
  unfold scanChunk. destruct (chunk_end false _) as [a b] eqn:E. intros [= <- -> ->].
  destruct (chunk_end_empty _ _ E) as [Hp|[p' Hp]].
  - rewrite Hp in E. by injection E as ->.
  - by apply trim_left_byte_head in Hp.
Qed.

Lemma chunks_star_last n p : star_last (chunks n p).
Proof.
  revert p. induction n as [|n IH]; intros p i c; simpl; [done|].
  destruct p as [|d p]; [done|].
  destruct (scanChunk (String d p)) as [[star chunk] rest] eqn:E. intros Hi ->.
  destruct i as [|i]; simpl in *.
  - injection Hi as -> ->. apply scanChunk_empty in E as ->. by destruct n.
  - f_equal. by eapply IH.
Qed.

(** path.Match reports a malformed pattern whatever it is matched against: the
    check the validation makes against the empty name settles every name. *)
Lemma Match_error_any pattern name name' :
  Match pattern name = ErrBadPattern → Match pattern name' = ErrBadPattern.
Proof. unfold Match. rewrite !match_chunks_error by apply chunks_star_last. done. Qed.

Lemma Match_star name : Match "*" name = GMatch ↔ IndexByte name "/" = None.
Proof. unfold Match. simpl. by case_decide. Qed.

Lemma literal_byte_eqb c :
  literal_byte c = true →
  Ascii.eqb c "*" = false ∧ Ascii.eqb c "?" = false ∧ Ascii.eqb c "[" = false ∧
  Ascii.eqb c "]" = false ∧ Ascii.eqb c "\" = false.
Proof. unfold literal_byte. simpl. rewrite negb_true_iff, !orb_false_iff. naive_solver. Qed.

Lemma chunk_end_literal p : literal p = true → chunk_end false p = (p, "").
Proof.
  induction p as [|c p IH]; [done|]. cbn [literal]. intros [Hc Hp]%andb_true_iff.
  apply literal_byte_eqb in Hc as (H1 & H2 & H3 & H4 & H5).
  cbn [chunk_end]. rewrite H1, H3, H4, H5. simpl. by rewrite IH.
Qed.

Lemma tokens_literal p :
  literal p = true → parseChunk p = Some (TLit <$> String.list_ascii_of_string p).
Proof.
  unfold parseChunk. induction p as [|c p IH]; [done|].
  cbn [literal String.length tokens String.list_ascii_of_string fmap list_fmap].
  intros [Hc Hp]%andb_true_iff. apply literal_byte_eqb in Hc as (H1 & H2 & H3 & H4 & H5).
  rewrite H2, H3, H5. by rewrite IH.
Qed.

Lemma matchTokens_literal p s :
  matchTokens (TLit <$> String.list_ascii_of_string p) s =
  if HasPrefix s p then Some (str_drop (String.length p) s) else None.
Proof.
  revert s. induction p as [|c p IH]; intros s; simpl; [by destruct s|].
  destruct s as [|d s]; [done|]. destruct (DecodeRune (String d s)).
  simpl. by destruct (Ascii.eqb c d).
Qed.

(** A pattern without metacharacters matches exactly itself. *)
Lemma Match_literal p name :
  literal p = true → Match p name = GMatch ↔ name = p.
Proof.
  intros Hp. destruct p as [|c p].
  { unfold Match. simpl. by destruct name. }
  unfold Match. cbn [String.length chunks]. unfold scanChunk.
  assert (trim_left_byte "*" (String c p) = String c p) as ->.
  { cbn [literal] in Hp. apply andb_true_iff in Hp as [Hc _].
    simpl. apply literal_byte_eqb in Hc as (-> & _). done. }
  rewrite chunk_end_literal by done.
  assert (HasPrefix (String c p) "*" = false) as ->.
  { cbn [literal] in Hp. apply andb_true_iff in Hp as [Hc _]. cbn [HasPrefix].
    apply literal_byte_eqb in Hc as (Hc & _). by rewrite Ascii.eqb_sym, Hc. }
  assert (chunks (String.length p) "" = []) as -> by by destruct p.
  cbn [match_chunks andb]. rewrite tokens_literal, matchTokens_literal by done.
  destruct (HasPrefix name (String c p)) eqn:E.
  - apply HasPrefix_true in E. destruct (str_drop _ name) as [|d t]; simpl.
    + by rewrite str_app_nil in E.
    + split; [done|]. intros ->. by apply str_app_inv_nil in E.
  - split; [done|]. intros ->. by rewrite HasPrefix_refl in E.
Qed.

(** ** The fuel is enough *)

Lemma DecodeRune_width s : s ≠ "" → 1 ≤ (DecodeRune s).2.
Proof.
  destruct s as [|c s]; [done|]. intros _. unfold DecodeRune.
  destruct (byte_at (String c s) 0) as [b|] eqn:E; [|by destruct c].
  destruct (b <? 128)%Z; simpl; [lia|].
  match goal with |- context [match ?m with Some _ => _ | None => _ end] =>
    destruct m as [[r n]|] eqn:Em; simpl; [|lia] end.
  enough (2 ≤ n)%Z by lia.
  revert Em. unfold cont.
  repeat match goal with
  | |- context [if ?b then _ else _] => destruct b
  | |- context [byte_at ?s ?i ≫= _] => destruct (byte_at s i); simpl
  end; try done; intros [= _ <-]; lia.
Qed.

Lemma getEsc_shorter chunk r after :
  getEsc chunk = Some (r, after) → String.length after < String.length chunk.
Proof.
  unfold getEsc. destruct chunk as [|c rest]; [done|].
  destruct (_ || _); [done|].
  set (body := if Ascii.eqb c "\" then rest else String c rest).
  assert (String.length body ≤ String.length (String c rest)) as Hlen.
  { subst body. destruct (Ascii.eqb c "\"); simpl; lia. }
  clearbody body. destruct body as [|d body]; [done|].
  pose proof (DecodeRune_width (String d body) ltac:(done)) as Hw.
  destruct (DecodeRune _) as [r' n]. destruct (_ && _); [done|].
  pose proof (length_str_drop n (String d body)) as Hd.
  destruct (str_drop n _); [done|]. intros [= _ <-]. simpl in *. lia.
Qed.

Lemma class_ranges_shorter n acc chunk ranges after :
  class_ranges n acc chunk = Some (ranges, after) → String.length after < String.length chunk.
Proof.
  revert acc chunk. induction n as [|n IH]; intros acc chunk; cbn [class_ranges]; [done|].
  destruct (match acc with [] => None | _ => _ end) as [rest|] eqn:E.
  { intros [= _ <-]. destruct acc; [done|]. apply eat_length in E. lia. }
  destruct (getEsc chunk) as [[lo rest]|] eqn:Elo; simpl; [|done].
  apply getEsc_shorter in Elo.
  destruct (eat "-" rest) as [upper|] eqn:Edash; [|intros ?%IH; lia].
  apply eat_length in Edash.
  destruct (getEsc upper) as [[hi rest']|] eqn:Ehi; simpl; [|done].
  apply getEsc_shorter in Ehi. intros ?%IH. lia.
Qed.

Lemma class_ranges_fuel n m acc chunk :
  String.length chunk ≤ n → n ≤ m → class_ranges m acc chunk = class_ranges n acc chunk.
Proof.
  revert m acc chunk. induction n as [|n IH]; intros m acc chunk Hn Hm.
  { destruct chunk; simpl in Hn; [|lia]. by destruct m, acc. }
  destruct m as [|m]; [lia|]. cbn [class_ranges].
  destruct (match acc with [] => None | _ => _ end); [done|].
  destruct (getEsc chunk) as [[lo rest]|] eqn:Elo; simpl; [|done].
  apply getEsc_shorter in Elo.
  destruct (eat "-" rest) as [upper|] eqn:Edash; [|apply IH; lia].
  apply eat_length in Edash.
  destruct (getEsc upper) as [[hi rest']|] eqn:Ehi; simpl; [|done].
  apply getEsc_shorter in Ehi. apply IH; lia.
Qed.

(** More fuel than the length of the chunk changes nothing, so [parseChunk]
    answers [None] for malformed chunks only. *)
Lemma tokens_fuel n m chunk :
  String.length chunk ≤ n → n ≤ m → tokens m chunk = tokens n chunk.
Proof.
  revert m chunk. induction n as [|n IH]; intros m chunk Hn Hm.
  { destruct chunk; simpl in Hn; [by destruct m|lia]. }
  destruct m as [|m]; [lia|]. destruct chunk as [|c rest]; [done|]. cbn [tokens].
  simpl in Hn.
  destruct (Ascii.eqb c "["); [|destruct (Ascii.eqb c "?"); [|destruct (Ascii.eqb c "\")]].
  - destruct (match eat "^" rest with Some _ => _ | None => _ end) as [neg rest'] eqn:E.
    assert (String.length rest' ≤ String.length rest) as Hr.
    { destruct (eat "^" rest) eqn:E'; simplify_eq; [apply eat_length in E'|]; lia. }
    destruct (class_ranges _ _ _) as [[ranges after]|] eqn:Ec; simpl; [|done].
    apply class_ranges_shorter in Ec. rewrite (IH m after) by lia. done.
  - by rewrite (IH m rest) by lia.
  - destruct rest as [|d rest]; [done|]. simpl in Hn. by rewrite (IH m rest) by lia.
  - by rewrite (IH m rest) by lia.
Qed.

Lemma length_trim_left c s : String.length (trim_left_byte c s) ≤ String.length s.
Proof. induction s as [|d s IH]; simpl; [lia|]. destruct (Ascii.eqb d c); simpl; lia. Qed.

Lemma chunk_end_length b p a r :
  chunk_end b p = (a, r) → String.length p = String.length a + String.length r.
Proof.
  revert b p a r.
  enough (∀ n b p a r, String.length p ≤ n → chunk_end b p = (a, r) →
    String.length p = String.length a + String.length r) by eauto.
  intros n. induction n as [|n IH]; intros b p a r Hn.
  { destruct p; simpl in *; [by intros [= <- <-]|lia]. }
  destruct p as [|c p]; cbn [chunk_end]; [by intros [= <- <-]|]. simpl in Hn.
  set (b' := if Ascii.eqb c "[" then true else _).
  destruct (chunk_end b' p) as [a1 r1] eqn:E1. apply IH in E1; [|lia].
  destruct (Ascii.eqb c "\").
  - destruct p as [|d p]; [intros [= <- <-]; simpl in *; lia|]. simpl in Hn.
    destruct (chunk_end b p) as [a2 r2] eqn:E2. apply IH in E2; [|lia].
    intros [= <- <-]. simpl. lia.
  - destruct (_ && _); intros [= <- <-]; simpl in *; lia.
Qed.

(** Every chunk of the pattern is reached. *)
Lemma chunks_fuel n m p :
  String.length p ≤ n → n ≤ m → chunks m p = chunks n p.
Proof.
  revert m p. induction n as [|n IH]; intros m p Hn Hm.
  { destruct p; simpl in Hn; [by destruct m|lia]. }
  destruct m as [|m]; [lia|]. destruct p as [|c p]; [done|]. cbn [chunks].
  unfold scanChunk. destruct (chunk_end false _) as [chunk rest] eqn:E. f_equal.
  apply IH; [|lia]. pose proof (chunk_end_length _ _ _ _ E) as Hl.
  cbn [trim_left_byte] in Hl. destruct (Ascii.eqb c "*") eqn:Ec.
  - pose proof (length_trim_left "*" p). simpl in Hn. lia.
  - destruct chunk as [|d chunk]; [|simpl in *; lia].
    apply chunk_end_empty in E. cbn [trim_left_byte] in E. rewrite Ec in E.
    destruct E as [|[? [= ->]]]; [done|]. by rewrite Ascii.eqb_refl in Ec.
Qed.
