(* ===== verification/AclPolicy.v ===== *)
(** Grants, their validation and how an expression of a grant matches:
    internal/acl/policy.go, match.go, source.go and the provider sources
    (source_headers.go, source_oidc.go, source_tailscale.go), over the identity
    of internal/auth/identity.go. *)
From S2P Require Import Prelude GoStrings GoPath.
#[local] Open Scope string_scope.
#[local] Open Scope nat_scope.

(** * The identity *)

(** A decoded JSON value, Go's [any]. Numbers, booleans and null are only ever
    rejected by a type assertion, so they are one constructor. *)
Inductive any :=
| AStr (s : string)
| AArr (l : list any)
| AObj (m : gmap string any)
| AOther.

(** auth.Identity, without the memo of derived values, which is explicit state
    of the evaluator's model. A nil map is [None]. *)
Record Identity := mkIdentity {
  Subject : string;
  DisplayName : string;
  Email : string;
  Groups : list string;
  Provider : string;
  Raw : option (gmap string any);
  ExpiresAt : Z;
  ClientID : string;
}.

Definition ProviderToken : string := "oauth".
Definition RawTokenGrants : string := "tokenGrants".

(** A nil identity is [None]. *)
Definition FromToken (i : option Identity) : bool :=
  match i with
  | None => false
  | Some i => bool_decide (Provider i = ProviderToken)
  end.

(** * Grants *)

Record Grant := mkGrant {
  Resources : list string;
  Audience : list string;
  Permissions : list string;
}.

Record Policy := mkPolicy { Grants : list Grant }.

Definition PermissionExec : string := "exec".

Definition validResourceTypes : list string :=
  ["service"; "stack"; "node"; "task"; "config"; "secret"; "network"; "volume";
   "plugin"; "swarm"].

Definition validAudienceKinds : list string := ["user"; "group"].

Definition validPermissions : list string := ["read"; "write"; "exec"].

(** The errors of validateGrant, one constructor per message. *)
Inductive grant_error :=
| ErrNoResources
| ErrResourceExpression (r : string)
| ErrResourceType (t : string)
| ErrResourcePattern (r : string)
| ErrAudienceExpression (a : string)
| ErrAudienceKind (k : string)
| ErrAudiencePattern (a : string)
| ErrNoPermissions
| ErrPermission (p : string).

(** One turn of the loop over the resource expressions. SplitN at two has two
    parts exactly when Cut finds the separator. *)
Definition validateResource (r : string) : option grant_error :=
  if decide (r = "*") then None else
  let '(typ, pattern, found) := Cut r ":" in
  if negb found || is_empty pattern then Some (ErrResourceExpression r) else
  if negb (bool_decide (typ ∈ validResourceTypes)) then Some (ErrResourceType typ) else
  if decide (Match pattern "" = ErrBadPattern) then Some (ErrResourcePattern r) else None.

Definition validateAudience (a : string) : option grant_error :=
  if decide (a = "*") then None else
  let '(kind, pattern, found) := Cut a ":" in
  if negb found || is_empty pattern then Some (ErrAudienceExpression a) else
  if negb (bool_decide (kind ∈ validAudienceKinds)) then Some (ErrAudienceKind kind) else
  if decide (Match pattern "" = ErrBadPattern) then Some (ErrAudiencePattern a) else None.

Definition validatePermission (p : string) : option grant_error :=
  if bool_decide (p ∈ validPermissions) then None else Some (ErrPermission p).

(** [None] is a nil error. *)
Definition validateGrant (g : Grant) : option grant_error :=
  match Resources g with
  | [] => Some ErrNoResources
  | _ =>
      match first_error validateResource (Resources g) with
      | Some e => Some e
      | None =>
          match first_error validateAudience (Audience g) with
          | Some e => Some e
          | None =>
              match Permissions g with
              | [] => Some ErrNoPermissions
              | _ => first_error validatePermission (Permissions g)
              end
          end
      end
  end.

(** The index of the first invalid grant, with its error. *)
Fixpoint validate_from (i : nat) (gs : list Grant) : option (nat * grant_error) :=
  match gs with
  | [] => None
  | g :: gs =>
      match validateGrant g with
      | Some e => Some (i, e)
      | None => validate_from (S i) gs
      end
  end.

Definition Validate (p : Policy) : option (nat * grant_error) := validate_from 0 (Grants p).

(** * Matching *)

Definition splitResource (resource : string) : string * string * bool := Cut resource ":".

(** A malformed pattern is logged and denies. *)
Definition glob (pattern name : string) : bool :=
  bool_decide (Match pattern name = GMatch).

Definition matchResourceParts (expression resType resName : string) : bool :=
  if decide (expression = "*") then true else
  let '(exprType, exprPattern, ok) := Cut expression ":" in
  if negb ok then false else
  if bool_decide (exprType ≠ "*") && bool_decide (exprType ≠ resType) then false else
  if is_empty resName then false else
  glob exprPattern resName.

Definition matchResource (expression resource : string) : bool :=
  if decide (expression = "*") then true else
  let '(resType, resName, ok) := splitResource resource in
  if negb ok then false else matchResourceParts expression resType resName.

Record userClaims := mkUserClaims { skipSubject : bool; skipEmail : bool }.

Definition matchAudience (expression : string) (id : Identity) (claims : userClaims) : bool :=
  if decide (expression = "*") then true else
  let '(kind, pattern, ok) := Cut expression ":" in
  if negb ok then false else
  if decide (kind = "user") then
    (negb (skipSubject claims) && negb (is_empty (Subject id)) && glob pattern (Subject id)) ||
    (negb (skipEmail claims) && negb (is_empty (Email id)) && glob pattern (Email id))
  else if decide (kind = "group") then existsb (glob pattern) (Groups id)
  else false.

Definition audienceMatches (g : Grant) (id : option Identity) (claims : userClaims) : bool :=
  match Audience g with
  | [] => true
  | auds =>
      match id with
      | None => false
      | Some id => existsb (λ expr, matchAudience expr id claims) auds
      end
  end.

(** write and exec both imply read; nothing implies exec. *)
Definition hasPermission (g : Grant) (permission : string) : bool :=
  existsb (λ p,
    bool_decide (p = permission) ||
    (bool_decide (permission = "read") &&
     (bool_decide (p = "write") || bool_decide (p = PermissionExec))))
    (Permissions g).

Definition grantCovers (g : Grant) (resType resName : string) : bool :=
  existsb (λ expr, matchResourceParts expr resType resName) (Resources g).

Definition anyCovers (grants : list Grant) (resType resName : string) : bool :=
  existsb (λ g, grantCovers g resType resName) grants.

(** * Provider grants *)

(** The strings of a decoded array, other items dropped. *)
Definition strings_of (v : option any) : list string :=
  match v with
  | Some (AArr l) => omap (λ x, match x with AStr s => Some s | _ => None end) l
  | _ => []
  end.

Definition extractGrantsFromRaw (raw : list any) : list Grant :=
  omap (λ item,
    match item with
    | AObj m =>
        let g := mkGrant (strings_of (m !! "resources")) [] (strings_of (m !! "permissions")) in
        if (0 <? length (Resources g)) && (0 <? length (Permissions g)) &&
           bool_decide (validateGrant g = None)
        then Some g else None
    | _ => None
    end) raw.

(** The type assertion [v.([]any)], whose failure is an empty result. *)
Definition as_array (v : option any) : option (list any) :=
  match v with Some (AArr l) => Some l | _ => None end.

Definition TailscaleGrantsFor (capability : string) (id : option Identity) : list Grant :=
  match id with
  | None => []
  | Some id =>
      match Raw id with
      | None => []
      | Some raw =>
          if is_empty capability then [] else
          match raw !! "caps" with
          | Some (AObj caps) =>
              match as_array (caps !! capability) with
              | Some capData => extractGrantsFromRaw capData
              | None => []
              end
          | _ => []
          end
      end
  end.

Definition OIDCGrantsFor (claim : string) (id : option Identity) : list Grant :=
  match id with
  | None => []
  | Some id =>
      match Raw id with
      | None => []
      | Some raw =>
          if is_empty claim then [] else
          match as_array (raw !! claim) with
          | Some claimData => extractGrantsFromRaw claimData
          | None => []
          end
      end
  end.

Section Headers.
(** The JSON decoder, a library outside the program: decoding into a
    [map[string]any] and into a [[]any]. A JSON null decodes into nil. *)
Context (unmarshalObject : string → option (gmap string any)).
Context (unmarshalArray : string → option (list any)).

Definition HeadersGrantsFor (header capability : string) (id : option Identity)
    : list Grant :=
  match id with
  | None => []
  | Some id =>
      match Raw id with
      | None => []
      | Some raw =>
          if is_empty header then [] else
          match raw !! header with
          | Some (AStr headerVal) =>
              if is_empty headerVal then [] else
              if negb (is_empty capability) then
                match unmarshalObject headerVal with
                | None => []
                | Some caps => extractGrantsFromRaw (default [] (as_array (caps !! capability)))
                end
              else
                match unmarshalArray headerVal with
                | None => []
                | Some raw => extractGrantsFromRaw raw
                end
          | _ => []
          end
      end
  end.
End Headers.

(** * Facts *)

(** A wildcard expression covers everything, a typed one only its own type. *)
Lemma matchResourceParts_star resType resName : matchResourceParts "*" resType resName = true.
Proof. done. Qed.

(** What a matching expression is: the bare wildcard, or a type and a pattern. *)
Lemma matchResourceParts_inv expression resType resName :
  matchResourceParts expression resType resName = true →
  expression = "*" ∨
  ∃ exprType pattern, Cut expression ":" = (exprType, pattern, true) ∧
    (exprType = "*" ∨ exprType = resType) ∧ resName ≠ "" ∧
    Match pattern resName = GMatch.
Proof.
  unfold matchResourceParts, glob. case_decide; [by left|].
  destruct (Cut expression ":") as [[exprType pattern] [|]]; simpl; [|done].
  destruct (bool_decide (exprType ≠ "*") && bool_decide (exprType ≠ resType)) eqn:E; [done|].
  destruct (is_empty resName) eqn:En; [done|]. intros Hm%bool_decide_eq_true.
  right. exists exprType, pattern. split_and!; [done| |by intros ->|done].
  apply andb_false_iff in E as [E|E]; apply bool_decide_eq_false in E;
    [left|right]; by destruct (decide (exprType = _)) as [|[]%E] || apply dec_stable.
Qed.

Lemma matchResourceParts_literal t p resType resName :
  IndexByte t ":" = None → t ≠ "*" → literal p = true →
  matchResourceParts (t +:+ String ":" p) resType resName = true ↔
  resType = t ∧ resName = p ∧ p ≠ "".
Proof.
  intros Ht Hstar Hp. unfold matchResourceParts, glob.
  assert (t +:+ String ":" p ≠ "*") as Hne.
  { destruct t as [|c t]; [done|]. destruct t; [|by intros [=]]. simpl. by intros [=]. }
  rewrite decide_False, Cut_byte by done. cbn [negb].
  rewrite (bool_decide_eq_true_2 (t ≠ "*")) by done. cbn [andb].
  case_bool_decide as Hty; [naive_solver|]. rewrite <- Hty.
  destruct (is_empty resName) eqn:En.
  - apply is_empty_spec in En as ->. naive_solver.
  - rewrite bool_decide_eq_true, Match_literal by done.
    split; [|naive_solver]. intros ->. split_and!; [done..|]. by intros ->.
Qed.

(** A validated expression never reaches the logged error of a malformed
    pattern: the validation's match against the empty name settles them all. *)
Lemma validateResource_pattern r :
  validateResource r = None → r ≠ "*" →
  ∃ typ pattern, Cut r ":" = (typ, pattern, true) ∧ typ ∈ validResourceTypes ∧
    pattern ≠ "" ∧ ∀ name, Match pattern name ≠ ErrBadPattern.
Proof.
  unfold validateResource. intros H Hr. rewrite decide_False in H by done.
  destruct (Cut r ":") as [[typ pattern] [|]]; simpl in *; [|done].
  destruct (is_empty pattern) eqn:Ep; [done|].
  case_bool_decide; simpl in *; [|done]. case_decide as Hm; [done|].
  exists typ, pattern. split_and!; [done..|by intros ->|].
  intros name Hn. by apply Hm, (Match_error_any pattern name).
Qed.

Lemma validateAudience_pattern a :
  validateAudience a = None → a ≠ "*" →
  ∃ kind pattern, Cut a ":" = (kind, pattern, true) ∧ kind ∈ validAudienceKinds ∧
    pattern ≠ "" ∧ ∀ name, Match pattern name ≠ ErrBadPattern.
Proof.
  unfold validateAudience. intros H Hr. rewrite decide_False in H by done.
  destruct (Cut a ":") as [[kind pattern] [|]]; simpl in *; [|done].
  destruct (is_empty pattern) eqn:Ep; [done|].
  case_bool_decide; simpl in *; [|done]. case_decide as Hm; [done|].
  exists kind, pattern. split_and!; [done..|by intros ->|].
  intros name Hn. by apply Hm, (Match_error_any pattern name).
Qed.

(** What a valid grant is, part by part. *)
Lemma validateGrant_None g :
  validateGrant g = None ↔
  Resources g ≠ [] ∧ Permissions g ≠ [] ∧
  (∀ r, r ∈ Resources g → validateResource r = None) ∧
  (∀ a, a ∈ Audience g → validateAudience a = None) ∧
  (∀ p, p ∈ Permissions g → p ∈ validPermissions).
Proof.
  rewrite <- (first_error_None validateResource), <- (first_error_None validateAudience).
  assert ((∀ p, p ∈ Permissions g → p ∈ validPermissions) ↔
          first_error validatePermission (Permissions g) = None) as ->.
  { rewrite first_error_None. unfold validatePermission.
    split; intros H p Hp; specialize (H p Hp); case_bool_decide; naive_solver. }
  unfold validateGrant. destruct (Resources g); [naive_solver|].
  destruct (first_error validateResource _); [naive_solver|].
  destruct (first_error validateAudience _); [naive_solver|].
  destruct (Permissions g); naive_solver.
Qed.

Lemma validate_from_None i gs :
  validate_from i gs = None ↔ ∀ g, g ∈ gs → validateGrant g = None.
Proof.
  revert i. induction gs as [|g gs IH]; intros i; simpl; [set_solver|].
  destruct (validateGrant g) eqn:E.
  - split; [done|]. intros H. rewrite H in E by set_solver. done.
  - rewrite IH. set_solver.
Qed.

(** Provider grants are validated as file grants are. *)
Lemma extractGrantsFromRaw_valid raw g :
  g ∈ extractGrantsFromRaw raw → validateGrant g = None ∧ Audience g = [].
Proof.
  unfold extractGrantsFromRaw. intros (item & _ & H)%list_elem_of_omap.
  destruct item; try done. case_match eqn:E; [|done]. simplify_eq.
  apply andb_true_iff in E as [_ E]. by apply bool_decide_eq_true in E.
Qed.

Lemma hasPermission_spec g permission :
  hasPermission g permission = true ↔
  permission ∈ Permissions g ∨
  permission = "read" ∧ ("write" ∈ Permissions g ∨ PermissionExec ∈ Permissions g).
Proof.
  unfold hasPermission. rewrite existsb_True.
  setoid_rewrite orb_true_iff. setoid_rewrite andb_true_iff. setoid_rewrite orb_true_iff.
  setoid_rewrite bool_decide_eq_true. naive_solver.
Qed.

Lemma anyCovers_spec grants resType resName :
  anyCovers grants resType resName = true ↔
  ∃ g expr, g ∈ grants ∧ expr ∈ Resources g ∧ matchResourceParts expr resType resName = true.
Proof.
  unfold anyCovers. rewrite existsb_True. unfold grantCovers.
  setoid_rewrite existsb_True. naive_solver.
Qed.
