(* ===== verification/AclEvaluator.v ===== *)
(** The ACL evaluator: internal/acl/evaluator.go, source_token.go,
    fingerprint.go, and its construction and hot reload (fromconfig.go,
    reload.go). *)
From S2P Require Import Prelude GoStrings GoPath AclPolicy.
#[local] Open Scope string_scope.
#[local] Open Scope nat_scope.

(** * Interfaces *)

(** acl.ResourceResolver, which the cache implements. *)
Record ResourceResolver := mkResolver {
  StackOf : string → string → string;
  ServiceOfTask : string → string;
}.

(** acl.GrantSource *)
Definition GrantSource : Type := Identity → list Grant.

(** * The evaluator *)

(** A policy is held by pointer, and the pointer is what derived values are
    keyed by: an address beside the value. *)
Definition policyPtr : Type := nat * Policy.

Record Evaluator := mkEvaluator {
  policy : option policyPtr;
  source : option GrantSource;
  resolver : option ResourceResolver;
  user_claims : userClaims;
  policyGeneration : Z;
}.

(** A nil *Evaluator is [None]. *)
Definition PolicyGeneration (e : option Evaluator) : Z :=
  match e with None => 0%Z | Some e => policyGeneration e end.

Definition NewEvaluator : Evaluator :=
  mkEvaluator None None None (mkUserClaims false false) 0.

Definition SetPolicy (e : Evaluator) (p : option policyPtr) : Evaluator :=
  mkEvaluator p (source e) (resolver e) (user_claims e) (wrap 64 (policyGeneration e + 1)).

Definition SetResolver (e : Evaluator) (r : ResourceResolver) : Evaluator :=
  mkEvaluator (policy e) (source e) (Some r) (user_claims e) (policyGeneration e).

Definition SetSource (e : Evaluator) (s : GrantSource) : Evaluator :=
  mkEvaluator (policy e) (Some s) (resolver e) (user_claims e) (policyGeneration e).

Inductive claims_error := ErrNoUserClaims | ErrUserClaim (claim : string).

Fixpoint named_claims (uc : userClaims) (claims : list string) : claims_error + userClaims :=
  match claims with
  | [] => inr uc
  | claim :: claims =>
      if decide (claim = "sub") then named_claims (mkUserClaims false (skipEmail uc)) claims
      else if decide (claim = "email") then
        named_claims (mkUserClaims (skipSubject uc) false) claims
      else inl (ErrUserClaim claim)
  end.

Definition SetOIDCUserClaims (e : Evaluator) (claims : list string)
    : claims_error + Evaluator :=
  match claims with
  | [] => inl ErrNoUserClaims
  | _ =>
      match named_claims (mkUserClaims true true) claims with
      | inl err => inl err
      | inr uc => inr (mkEvaluator (policy e) (source e) (resolver e) uc (policyGeneration e))
      end
  end.

(** * Collecting grants *)

(** Shared by address, so that what is derived under it stays memoized. *)
Definition noFileGrants : policyPtr := (0, mkPolicy []).

Definition effectivePolicy (e : Evaluator) (permission : string) : option policyPtr :=
  match policy e with
  | None => if decide (permission = PermissionExec) then Some noFileGrants else None
  | Some p => Some p
  end.

(** A token this deployment issued answers with the grants it carries. *)
Definition deriveSourceGrants (src : GrantSource) (id : Identity) : list Grant :=
  if negb (FromToken (Some id)) then src id else
  extractGrantsFromRaw (default [] (as_array (Raw id ≫= lookup RawTokenGrants))).

Definition collectGrants (e : Evaluator) (id : option Identity) (p : Policy) : list Grant :=
  List.filter (λ g, audienceMatches g id (user_claims e)) (Grants p) ++
  match source e, id with
  | Some src, Some id => deriveSourceGrants src id
  | _, _ => []
  end.

Record grantSet := mkGrantSet {
  gs_grants : list Grant;
  gs_services : bool;
  gs_stacks : bool;
}.

(** Whether an expression of the grants can name a resource of type [t]. *)
Definition names_type (t : string) (grants : list Grant) : bool :=
  existsb (λ g,
    existsb (λ expr,
      let '(exprType, _, _) := Cut expr ":" in
      bool_decide (exprType = t) || bool_decide (exprType = "*")) (Resources g)) grants.

Definition grant_set (grants : list Grant) : grantSet :=
  mkGrantSet grants (names_type "service" grants) (names_type "stack" grants).

Definition grantSetOf (e : Evaluator) (id : option Identity) (p : Policy) (permission : string)
    : grantSet :=
  grant_set (List.filter (λ g, hasPermission g permission) (collectGrants e id p)).

(** The grants that carry the permission, or whether everything is allowed. *)
Definition grantsWith (e : option Evaluator) (id : option Identity) (permission : string)
    : grantSet * bool :=
  match e with
  | None => (mkGrantSet [] false false, bool_decide (permission ≠ PermissionExec))
  | Some e =>
      match effectivePolicy e permission with
      | None => (mkGrantSet [] false false, true)
      | Some (_, p) => (grantSetOf e id p permission, false)
      end
  end.

(** * Matching a resource *)

Definition matchesParts (e : option Evaluator) (gs : grantSet) (resType resID : string) : bool :=
  if anyCovers (gs_grants gs) resType resID then true else
  match e ≫= resolver with
  | None => false
  | Some r =>
      if decide (resType = "task") then
        if negb (gs_services gs) && negb (gs_stacks gs) then false else
        let svcName := ServiceOfTask r resID in
        if is_empty svcName then false else
        if gs_services gs && anyCovers (gs_grants gs) "service" svcName then true else
        if negb (gs_stacks gs) then false else
        let stackName := StackOf r "service" svcName in
        negb (is_empty stackName) && anyCovers (gs_grants gs) "stack" stackName
      else
        if negb (gs_stacks gs) then false else
        let stackName := StackOf r resType resID in
        negb (is_empty stackName) && anyCovers (gs_grants gs) "stack" stackName
  end.

Definition bare_wildcard (g : Grant) : bool := existsb (λ r, bool_decide (r = "*")) (Resources g).

Definition matches (e : option Evaluator) (gs : grantSet) (resource : string) : bool :=
  let '(resType, resID, ok) := splitResource resource in
  if negb ok then existsb bare_wildcard (gs_grants gs)
  else matchesParts e gs resType resID.

Definition Can (e : option Evaluator) (id : option Identity) (permission resource : string)
    : bool :=
  let '(grants, allowAll) := grantsWith e id permission in
  allowAll || matches e grants resource.

(** Can with the grants collected once. *)
Definition Checker (e : option Evaluator) (id : option Identity) (permission : string)
    : string → bool :=
  let '(grants, allowAll) := grantsWith e id permission in
  if allowAll then λ _, true else λ resource, matches e grants resource.

Definition Filter {T} (e : option Evaluator) (id : option Identity) (permission : string)
    (items : list T) (resourceFunc : T → string) : list T :=
  let '(grants, allowAll) := grantsWith e id permission in
  if allowAll then items else List.filter (λ item, matches e grants (resourceFunc item)) items.

Definition FilterInPlaceNamed {T} (e : option Evaluator) (id : option Identity)
    (permission : string) (items : list T) (resourceType : string) (nameFunc : T → string)
    : list T :=
  let '(grants, allowAll) := grantsWith e id permission in
  if allowAll then items else
  List.filter (λ item, matchesParts e grants resourceType (nameFunc item)) items.

(** * Whole-cluster questions *)

Definition HasAnyGrant (e : option Evaluator) (id : option Identity) : bool :=
  match e with
  | None => true
  | Some e =>
      match policy e with
      | None => true
      | Some (_, p) => 0 <? length (collectGrants e id p)
      end
  end.

Definition canEverything (e : option Evaluator) (id : option Identity) (permission : string)
    : bool :=
  match e with
  | None => true
  | Some e =>
      match policy e with
      | None => true
      | Some (_, p) =>
          existsb (λ g, hasPermission g permission && bare_wildcard g) (collectGrants e id p)
      end
  end.

Definition CanReadEverything e id := canEverything e id "read".

Definition CanWriteEverything e id := canEverything e id "write".

(** append, unless already there *)
Definition add_permission (existing : list string) (perm : string) : list string :=
  if decide (perm ∈ existing) then existing else existing ++ [perm].

(** [None] is the nil map. *)
Definition PermissionsFor (e : option Evaluator) (id : option Identity)
    : option (gmap string (list string)) :=
  match e with
  | None => None
  | Some e =>
      match policy e with
      | None => None
      | Some (_, p) =>
          match collectGrants e id p with
          | [] => None
          | grants =>
              Some (foldl (λ result g,
                foldl (λ result r,
                  <[r := foldl add_permission (default [] (result !! r)) (Permissions g)]> result)
                  result (Resources g)) ∅ grants)
          end
      end
  end.

(** * The type-level projection *)

Definition impliedTypes (resType : string) : list string :=
  if decide (resType = "stack") then
    ["service"; "task"; "config"; "secret"; "network"; "volume"]
  else if decide (resType = "service") then ["task"]
  else [].

(** The map's true entries, keyed by permission and resource type. *)
Record TypeAccess := mkTypeAccess {
  granted : gset (string * string);
  allowAll : bool;
}.

Definition TypeAccess_Can (t : TypeAccess) (permission resourceType : string) : bool :=
  if allowAll t then bool_decide (permission ≠ PermissionExec) else
  bool_decide ((permission, resourceType) ∈ granted t) ||
  bool_decide ((permission, "*") ∈ granted t).

Definition grantResourceType (expr : string) : option string :=
  if decide (expr = "*") then Some "*" else
  let '(resType, _, ok) := splitResource expr in
  if ok then Some resType else None.

Definition grant_types (g : Grant) (expr : string) : list (string * string) :=
  match grantResourceType expr with
  | None => []
  | Some resType =>
      permission ← List.filter (hasPermission g) validPermissions;
      (λ t, (permission, t)) <$> resType :: impliedTypes resType
  end.

Definition TypeGrants (e : option Evaluator) (id : option Identity) : TypeAccess :=
  match e with
  | None => mkTypeAccess ∅ true
  | Some e =>
      match policy e with
      | None => mkTypeAccess ∅ true
      | Some (_, p) =>
          mkTypeAccess
            (list_to_set (g ← collectGrants e id p; expr ← Resources g; grant_types g expr)) false
      end
  end.

(** * Memoized grants *)

(** What an identity has derived so far under one evaluator: the grant set per
    policy address and permission, and the provider's grants. *)
Record memo := mkMemo {
  memo_grants : gmap (nat * string) grantSet;
  memo_source : option (list Grant);
}.

Definition no_memo : memo := mkMemo ∅ None.

(** Evaluator.sourceGrants through Identity.Derived. *)
Definition sourceGrants (src : GrantSource) (id : Identity) (m : memo) : list Grant * memo :=
  match memo_source m with
  | Some grants => (grants, m)
  | None =>
      let grants := deriveSourceGrants src id in
      (grants, mkMemo (memo_grants m) (Some grants))
  end.

Definition collectGrants_memo (e : Evaluator) (id : Identity) (p : Policy) (m : memo)
    : list Grant * memo :=
  let file := List.filter (λ g, audienceMatches g (Some id) (user_claims e)) (Grants p) in
  match source e with
  | None => (file, m)
  | Some src => let '(grants, m) := sourceGrants src id m in ((file ++ grants)%list, m)
  end.

Definition grantsWith_memo (e : Evaluator) (id : Identity) (permission : string) (m : memo)
    : grantSet * bool * memo :=
  match effectivePolicy e permission with
  | None => (mkGrantSet [] false false, true, m)
  | Some (addr, p) =>
      match memo_grants m !! (addr, permission) with
      | Some gs => (gs, false, m)
      | None =>
          let '(all, m) := collectGrants_memo e id p m in
          let gs := grant_set (List.filter (λ g, hasPermission g permission) all) in
          (gs, false, mkMemo (<[(addr, permission) := gs]> (memo_grants m)) (memo_source m))
      end
  end.

Definition Can_memo (e : Evaluator) (id : Identity) (permission resource : string) (m : memo)
    : bool * memo :=
  let '(grants, allowAll, m) := grantsWith_memo e id permission m in
  (allowAll || matches (Some e) grants resource, m).

(** A serving evaluator: checks of one identity between reloads. Each policy a
    reload stores is a new allocation. *)
Inductive acl_op :=
| OpCan (permission resource : string)
| OpSetPolicy (p : option Policy).

Fixpoint run_memo (next : nat) (e : Evaluator) (id : Identity) (m : memo) (ops : list acl_op)
    : list bool :=
  match ops with
  | [] => []
  | OpCan permission resource :: ops =>
      let '(answer, m) := Can_memo e id permission resource m in
      answer :: run_memo next e id m ops
  | OpSetPolicy p :: ops =>
      run_memo (S next) (SetPolicy e ((λ p, (next, p)) <$> p)) id m ops
  end.

Fixpoint run_plain (next : nat) (e : Evaluator) (id : Identity) (ops : list acl_op) : list bool :=
  match ops with
  | [] => []
  | OpCan permission resource :: ops =>
      Can (Some e) (Some id) permission resource :: run_plain next e id ops
  | OpSetPolicy p :: ops =>
      run_plain (S next) (SetPolicy e ((λ p, (next, p)) <$> p)) id ops
  end.

(** * Fingerprints *)

Section Fingerprint.
(** hash/maphash under the process's seed. *)
Context (hash_string : string → Z) (hash_bytes : list Z → Z).

(** The eight bytes of a uint64, least significant first. *)
Definition le64 (x : Z) : list Z :=
  (λ i : nat, Z.land (Z.shiftr x (8 * Z.of_nat i)) 255) <$> seq 0 8.

Definition mixHash (a b : Z) : Z := hash_bytes (le64 a ++ le64 b).

(** A uint64 accumulator. *)
Definition sum64 (l : list Z) : Z := foldl (λ acc x, wrap 64 (acc + x)) 0%Z l.

Definition grantHash (g : Grant) : Z :=
  mixHash (sum64 (hash_string <$> Resources g)) (sum64 (hash_string <$> Permissions g)).

Definition Fingerprint (e : option Evaluator) (id : option Identity) : Z :=
  match e with
  | None => 0%Z
  | Some e =>
      match policy e with
      | None => 0%Z
      | Some (_, p) =>
          mixHash (sum64 (grantHash <$> collectGrants e id p)) (policyGeneration e)
      end
  end.
End Fingerprint.

(** * Construction and reload *)

Record ACLConfig := mkACLConfig {
  cfg_Policy : string;
  cfg_PolicyFile : string;
  cfg_TailscaleCapability : string;
  cfg_OIDCClaim : string;
  cfg_OIDCUserClaims : list string;
  cfg_HeadersACL : string;
  cfg_HeadersCapability : string;
}.

Inductive acl_error :=
| ErrUnparsable
| ErrReadPolicy
| ErrInvalidPolicy (grant : nat) (err : grant_error)
| ErrInvalidClaims (err : claims_error).

Section Config.
Context `{Unicode}.
(** The decoders of the three formats, libraries outside the program: the
    decoded grants list, nil or not, or a decoding error. *)
Context (decodeJSON decodeTOML decodeYAML : string → option (option (list Grant))).
Context (unmarshalObject : string → option (gmap string any)).
Context (unmarshalArray : string → option (list any)).
(** os.ReadFile *)
Context (readFile : string → option string).

(** The first format that decodes to a grants list which is not nil. *)
Definition ParsePolicy (data : string) : acl_error + Policy :=
  match decodeJSON data with
  | Some (Some gs) => inr (mkPolicy gs)
  | _ =>
      match decodeTOML data with
      | Some (Some gs) => inr (mkPolicy gs)
      | _ =>
          match decodeYAML data with
          | Some (Some gs) => inr (mkPolicy gs)
          | _ => inl ErrUnparsable
          end
      end
  end.

(** filepath.Ext: from the last dot of the last path element. *)
Fixpoint Ext (path : string) : string :=
  match path with
  | "" => ""
  | String c rest =>
      let later := Ext rest in
      if negb (is_empty later) then later else
      if Ascii.eqb c "." && bool_decide (IndexByte rest "/" = None) then path else ""
  end.

Definition decoded (d : option (option (list Grant))) : acl_error + Policy :=
  match d with
  | None => inl ErrUnparsable
  | Some gs => inr (mkPolicy (default [] gs))
  end.

Definition ParsePolicyFile (path : string) : acl_error + Policy :=
  match readFile path with
  | None => inl ErrReadPolicy
  | Some data =>
      let ext := ToLower (Ext path) in
      if decide (ext = ".json") then decoded (decodeJSON data)
      else if decide (ext = ".toml") then decoded (decodeTOML data)
      else if decide (ext = ".yaml") then decoded (decodeYAML data)
      else if decide (ext = ".yml") then decoded (decodeYAML data)
      else ParsePolicy data
  end.

Definition validated (p : acl_error + Policy) : acl_error + Policy :=
  match p with
  | inl err => inl err
  | inr p =>
      match Validate p with
      | Some (i, err) => inl (ErrInvalidPolicy i err)
      | None => inr p
      end
  end.

(** The inline policy, else the policy file, else none; at address 1. *)
Definition loadPolicy (cfg : ACLConfig) (e : Evaluator) : acl_error + Evaluator :=
  if negb (is_empty (cfg_Policy cfg)) then
    match validated (ParsePolicy (cfg_Policy cfg)) with
    | inl err => inl err
    | inr p => inr (SetPolicy e (Some (1, p)))
    end
  else if negb (is_empty (cfg_PolicyFile cfg)) then
    match validated (ParsePolicyFile (cfg_PolicyFile cfg)) with
    | inl err => inl err
    | inr p => inr (SetPolicy e (Some (1, p)))
    end
  else inr e.

(** The provider source an auth mode reads, without the watch it starts on
    the file. *)
Definition FromConfig (authMode : string) (cfg : ACLConfig) (r : ResourceResolver)
    : acl_error + option Evaluator :=
  if decide (authMode = "none") then inr None else
  match loadPolicy cfg (SetResolver NewEvaluator r) with
  | inl err => inl err
  | inr e =>
      if decide (authMode = "tailscale") then
        inr (Some (if is_empty (cfg_TailscaleCapability cfg) then e else
          SetSource e (λ id, TailscaleGrantsFor (cfg_TailscaleCapability cfg) (Some id))))
      else if decide (authMode = "oidc") then
        let e := if is_empty (cfg_OIDCClaim cfg) then e else
          SetSource e (λ id, OIDCGrantsFor (cfg_OIDCClaim cfg) (Some id)) in
        match SetOIDCUserClaims e (cfg_OIDCUserClaims cfg) with
        | inl err => inl (ErrInvalidClaims err)
        | inr e => inr (Some e)
        end
      else if decide (authMode = "headers") then
        inr (Some (if is_empty (cfg_HeadersACL cfg) then e else
          SetSource e (λ id, HeadersGrantsFor unmarshalObject unmarshalArray
            (cfg_HeadersACL cfg) (cfg_HeadersCapability cfg) (Some id))))
      else inr (Some e)
  end.

(** A file that does not parse or validate keeps the previous policy. *)
Definition reloadPolicy (next : nat) (e : Evaluator) (path : string) : Evaluator :=
  match validated (ParsePolicyFile path) with
  | inl _ => e
  | inr p => SetPolicy e (Some (next, p))
  end.
End Config.

(** * The reference answer *)

(** What a grant list covers, without the pruning flags of a grant set: a
    resource directly, a task through its service or its service's stack, and
    anything else through the stack it is in. *)
Definition covers (r : option ResourceResolver) (grants : list Grant) (resType resID : string)
    : bool :=
  anyCovers grants resType resID ||
  match r with
  | None => false
  | Some r =>
      if decide (resType = "task") then
        let svc := ServiceOfTask r resID in
        negb (is_empty svc) &&
        (anyCovers grants "service" svc ||
         (negb (is_empty (StackOf r "service" svc)) &&
          anyCovers grants "stack" (StackOf r "service" svc)))
      else
        negb (is_empty (StackOf r resType resID)) && anyCovers grants "stack" (StackOf r resType resID)
  end.

Definition covers_resource (r : option ResourceResolver) (grants : list Grant) (resource : string)
    : bool :=
  let '(resType, resID, ok) := splitResource resource in
  if ok then covers r grants resType resID else existsb bare_wildcard grants.

(** The grants in force for a permission. *)
Definition grantsFor (e : Evaluator) (id : option Identity) (p : Policy) (permission : string)
    : list Grant :=
  List.filter (λ g, hasPermission g permission) (collectGrants e id p).

(** What the evaluator relies on of a resolver: only these types have a stack.
    The cache's [StackOf] is proved to be one. *)
Class StackTypes (r : ResourceResolver) : Prop :=
  stack_types t n : StackOf r t n ≠ "" →
    t ∈ ["service"; "config"; "secret"; "network"; "volume"].

(** The evaluator's policy passed validation. *)
Definition policy_valid (e : Evaluator) : Prop :=
  ∀ addr p, policy e = Some (addr, p) → Validate p = None.

(** * Facts *)

(** A grant set with no expression of a type covers nothing of that type. *)
Lemma names_type_false t grants name :
  names_type t grants = false → anyCovers grants t name = false.
Proof.
  unfold names_type, anyCovers, grantCovers. rewrite !existsb_False.
  intros H g Hg. specialize (H g Hg). rewrite existsb_False in H.
  apply existsb_False. intros expr He. specialize (H expr He). cbv beta in H.
  apply not_true_iff_false. intros [->|(t' & pat & Hc & Ht & _)]%matchResourceParts_inv.
  - apply orb_false_iff in H as [_ H]. by vm_compute in H.
  - rewrite Hc in H. apply orb_false_iff in H as [H1 H2].
    apply bool_decide_eq_false in H1, H2. naive_solver.
Qed.

Lemma matchesParts_covers e grants resType resID :
  matchesParts e (grant_set grants) resType resID = covers (e ≫= resolver) grants resType resID.
Proof.
  unfold matchesParts, covers. cbn [gs_grants gs_services gs_stacks grant_set].
  destruct (anyCovers grants resType resID); [done|]. simpl orb.
  destruct (e ≫= resolver) as [r|]; [|done].
  assert (∀ n, negb (names_type "stack" grants) = true → anyCovers grants "stack" n = false) as Hst.
  { intros n H%negb_true_iff. by apply names_type_false. }
  assert (∀ n, names_type "service" grants = false → anyCovers grants "service" n = false) as Hsv.
  { intros n H. by apply names_type_false. }
  case_decide.
  - destruct (is_empty (ServiceOfTask r resID)); [by repeat case_match|]. simpl negb.
    destruct (names_type "service" grants); [|rewrite Hsv by done];
      destruct (names_type "stack" grants); simpl; rewrite ?Hst by done; simpl;
      rewrite ?andb_false_r, ?orb_false_r; try done; by case_match.
  - destruct (names_type "stack" grants); simpl; [done|]. by rewrite Hst, andb_false_r.
Qed.

Lemma matches_covers e grants resource :
  matches e (grant_set grants) resource = covers_resource (e ≫= resolver) grants resource.
Proof.
  unfold matches, covers_resource. destruct (splitResource resource) as [[t n] []]; simpl; [|done].
  apply matchesParts_covers.
Qed.

Lemma Checker_Can e id permission resource :
  Checker e id permission resource = Can e id permission resource.
Proof.
  unfold Checker, Can. by destruct (grantsWith e id permission) as [gs []].
Qed.

Lemma filter_true_id {A} (l : list A) : List.filter (λ _, true) l = l.
Proof. induction l; simpl; congruence. Qed.

(** A type name without a colon, spelled before one, splits back. *)
Lemma splitResource_named t name :
  IndexByte t ":" = None → splitResource (t +:+ String ":" name) = (t, name, true).
Proof. apply Cut_byte. Qed.

Lemma anyCovers_resourceType grants t n :
  anyCovers grants t n = true →
  ∃ g expr rt, g ∈ grants ∧ expr ∈ Resources g ∧
    grantResourceType expr = Some rt ∧ (rt = "*" ∨ rt = t).
Proof.
  intros (g & expr & Hg & He & [->|(t' & pat & Hc & Ht & _)]%matchResourceParts_inv)%anyCovers_spec.
  - exists g, "*", "*". naive_solver.
  - exists g, expr. unfold grantResourceType. case_decide; [exists "*"; naive_solver|].
    exists t'. unfold splitResource. rewrite Hc. naive_solver.
Qed.

(** A grant that carries a permission over an expression projects onto the
    expression's type and onto every type it implies. *)
Lemma TypeGrants_granted e id addr p g expr rt permission t :
  policy e = Some (addr, p) →
  g ∈ collectGrants e id p → hasPermission g permission = true →
  permission ∈ validPermissions →
  expr ∈ Resources g → grantResourceType expr = Some rt →
  (rt = "*" ∨ t = rt ∨ t ∈ impliedTypes rt) →
  TypeAccess_Can (TypeGrants (Some e) id) permission t = true.
Proof.
  intros Hp Hg Hperm Hv He Hrt Ht.
  unfold TypeAccess_Can, TypeGrants. rewrite Hp. cbn [allowAll granted].
  assert (∀ t', t' ∈ rt :: impliedTypes rt → (permission, t') ∈
    (list_to_set (g ← collectGrants e id p; expr ← Resources g; grant_types g expr)
      : gset (string * string))) as Hin.
  { intros t' Ht'. apply elem_of_list_to_set, list_elem_of_bind. exists g. split; [|done].
    apply list_elem_of_bind. exists expr. split; [|done]. unfold grant_types. rewrite Hrt.
    apply list_elem_of_bind. exists permission. split.
    - by apply list_elem_of_fmap_2.
    - by apply list_elem_of_In, filter_In; split; [apply list_elem_of_In|]. }
  apply orb_true_iff. rewrite !bool_decide_eq_true.
  destruct Ht as [->|[->|Ht]]; [right|left|left]; apply Hin; set_solver.
Qed.

(** ** The memo *)

(** What a memo holds is what deriving again would give: for every policy that
    could still be asked about under its address. *)
Record memo_ok (next : nat) (e : Evaluator) (id : Identity) (m : memo) : Prop := {
  mo_source grants src : memo_source m = Some grants → source e = Some src →
    grants = deriveSourceGrants src id;
  mo_current addr p permission gs : effectivePolicy e permission = Some (addr, p) →
    memo_grants m !! (addr, permission) = Some gs → gs = grantSetOf e (Some id) p permission;
  mo_no_file permission gs : memo_grants m !! (0, permission) = Some gs →
    gs = grantSetOf e (Some id) (mkPolicy []) permission;
  mo_fresh addr permission : next ≤ addr → memo_grants m !! (addr, permission) = None;
  mo_policy addr p : policy e = Some (addr, p) → 0 < addr < next;
  mo_next : 0 < next;
}.

Lemma collectGrants_memo_spec next e id p m :
  memo_ok next e id m →
  ∃ m', collectGrants_memo e id p m = (collectGrants e (Some id) p, m') ∧
    memo_ok next e id m' ∧ memo_grants m' = memo_grants m.
Proof.
  intros Hok. pose proof Hok as [Hs Hc Hn Hf Hp H0]. unfold collectGrants_memo, collectGrants, sourceGrants.
  destruct (source e) as [src|] eqn:Esrc; [|rewrite app_nil_r; by exists m].
  destruct (memo_source m) as [grants|] eqn:Em.
  - exists m. split_and!; [|done..]. by rewrite (Hs grants src).
  - eexists. split_and!; [done| |done]. constructor; simpl; [naive_solver|done..].
Qed.

Lemma effectivePolicy_addr next e permission addr p :
  (∀ addr p, policy e = Some (addr, p) → 0 < addr < next) → 0 < next →
  effectivePolicy e permission = Some (addr, p) → addr < next.
Proof.
  unfold effectivePolicy. intros Hp ? Ep. destruct (policy e) as [[a q]|]; simplify_eq.
  - by destruct (Hp addr p).
  - case_decide; naive_solver.
Qed.

Lemma effectivePolicy_zero next e permission p :
  (∀ addr p, policy e = Some (addr, p) → 0 < addr < next) →
  effectivePolicy e permission = Some (0, p) → p = mkPolicy [].
Proof.
  unfold effectivePolicy. intros Hp Ep. destruct (policy e) as [[a q]|]; simplify_eq.
  - destruct (Hp 0 p); [done|lia].
  - case_decide; naive_solver.
Qed.

Lemma grantsWith_memo_spec next e id permission m :
  memo_ok next e id m →
  ∃ m', grantsWith_memo e id permission m = (grantsWith (Some e) (Some id) permission, m') ∧
    memo_ok next e id m'.
Proof.
  intros Hok. unfold grantsWith_memo, grantsWith.
  destruct (effectivePolicy e permission) as [[addr p]|] eqn:Ep; [|by exists m].
  destruct (memo_grants m !! (addr, permission)) as [gs|] eqn:Em.
  - exists m. split; [|done]. by rewrite (mo_current _ _ _ _ Hok _ _ _ _ Ep Em).
  - destruct (collectGrants_memo_spec next e id p m Hok) as (m1 & -> & [Hs Hc Hn Hf Hp H0] & Hm1).
    eexists. split; [reflexivity|]. fold (grantSetOf e (Some id) p permission).
    rewrite <- Hm1 in Em. constructor; simpl; [done| | | |done..].
    + intros addr' p' permission' gs' Ep' [[[= <- <-] <-]|[_ ?]]%lookup_insert_Some;
        [|by apply (Hc addr' p' permission' gs')]. rewrite Ep in Ep'. by injection Ep' as <-.
    + intros permission' gs' [[[= -> <-] <-]|[_ ?]]%lookup_insert_Some; [|by apply Hn].
      by rewrite (effectivePolicy_zero next e permission p).
    + intros addr' permission' Hle. rewrite lookup_insert_ne; [by apply Hf|].
      intros [= -> ->]. apply (effectivePolicy_addr next) in Ep; [lia|done..].
Qed.

(** A reload drops nothing that is still asked for: the new policy is a new
    address. *)
Lemma memo_ok_SetPolicy next e id m p :
  memo_ok next e id m → memo_ok (S next) (SetPolicy e ((λ p, (next, p)) <$> p)) id m.
Proof.
  intros [Hs Hc Hn Hf Hp H0]. constructor; simpl; [done| |done| | |lia].
  - intros addr q permission gs Ep Hm. destruct p as [p|]; simpl in Ep.
    + injection Ep as <- <-. by rewrite Hf in Hm.
    + unfold effectivePolicy in Ep. simpl in Ep. case_decide; [|done].
      injection Ep as <- <-. by apply Hn.
  - intros addr permission ?. apply Hf. lia.
  - intros addr q. destruct p; simpl; [|done]. intros [= <- <-]. lia.
Qed.

(** ** Fingerprints *)

Lemma sum64_acc l acc : foldl (λ acc x, wrap 64 (acc + x)) (wrap 64 acc) l =
  wrap 64 (acc + foldr Z.add 0%Z l).
Proof.
  revert acc. induction l as [|x l IH]; intros acc; simpl; [by rewrite Z.add_0_r|].
  rewrite IH. unfold wrap.
  by rewrite <- Z.add_assoc, Z.add_mod_idemp_l.
Qed.

#[global] Instance sum64_proper : Proper ((≡ₚ) ==> (=)) sum64.
Proof.
  intros l k H. transitivity (wrap 64 (0 + foldr Z.add 0%Z l)); [exact (sum64_acc l 0)|].
  transitivity (wrap 64 (0 + foldr Z.add 0%Z k)); [|symmetry; exact (sum64_acc k 0)].
  do 2 f_equal. induction H; simpl; lia.
Qed.

Definition same_grant (g h : Grant) : Prop :=
  Resources g ≡ₚ Resources h ∧ Permissions g ≡ₚ Permissions h.

#[global] Instance grantHash_proper hs hb : Proper (same_grant ==> (=)) (grantHash hs hb).
Proof.
  intros g h [Hr Hp]. unfold grantHash. f_equal; apply sum64_proper; by apply fmap_Permutation.
Qed.

Lemma fmap_same_grant hs hb l k :
  Forall2 same_grant l k → grantHash hs hb <$> l = grantHash hs hb <$> k.
Proof. induction 1 as [|g h l k Hg ? IH]; [done|]. rewrite !fmap_cons. f_equal; [|done].
  by rewrite Hg.
Qed.

(** ** Validity through loading and reloading *)

Lemma validated_valid r p : validated r = inr p → Validate p = None.
Proof.
  unfold validated. destruct r as [|q]; [done|]. destruct (Validate q) as [[]|] eqn:E; naive_solver.
Qed.

(** The grants a provider derives are valid, whichever provider it is. *)
Definition source_valid (s : option GrantSource) : Prop :=
  ∀ src id g, s = Some src → g ∈ src id → validateGrant g = None.

Lemma TailscaleGrantsFor_valid c id g : g ∈ TailscaleGrantsFor c id → validateGrant g = None.
Proof.
  unfold TailscaleGrantsFor. repeat case_match; try set_solver.
  intros []%extractGrantsFromRaw_valid. done.
Qed.

Lemma OIDCGrantsFor_valid c id g : g ∈ OIDCGrantsFor c id → validateGrant g = None.
Proof.
  unfold OIDCGrantsFor. repeat case_match; try set_solver.
  intros []%extractGrantsFromRaw_valid. done.
Qed.

Lemma HeadersGrantsFor_valid uo ua h c id g :
  g ∈ HeadersGrantsFor uo ua h c id → validateGrant g = None.
Proof.
  unfold HeadersGrantsFor. repeat case_match; try set_solver;
    intros []%extractGrantsFromRaw_valid; done.
Qed.

Lemma collectGrants_valid e id addr p g :
  policy_valid e → source_valid (source e) →
  (policy e = Some (addr, p) ∨ p = mkPolicy []) → g ∈ collectGrants e id p →
  validateGrant g = None.
Proof.
  intros Hp Hs Hpol. unfold collectGrants. intros [H|H]%elem_of_app.
  - apply list_elem_of_In, filter_In in H as [H _].
    apply list_elem_of_In in H. destruct Hpol as [Hpol| ->]; [|set_solver].
    apply Hp in Hpol. unfold Validate in Hpol. rewrite validate_from_None in Hpol. auto.
  - destruct (source e) as [src|] eqn:E; [|set_solver]. destruct id as [id|]; [|set_solver].
    unfold deriveSourceGrants in H. case_match; [by eapply Hs|].
    by destruct (extractGrantsFromRaw_valid _ _ H).
Qed.

(** Evaluators a configuration builds, and what hot reloads make of them. *)
Section Serving.
Context `{Unicode}.
Context (decodeJSON decodeTOML decodeYAML : string → option (option (list Grant))).
Context (unmarshalObject : string → option (gmap string any)).
Context (unmarshalArray : string → option (list any)).

Inductive serving : nat → Evaluator → Prop :=
| serving_new readFile authMode cfg r e :
    FromConfig decodeJSON decodeTOML decodeYAML unmarshalObject unmarshalArray
      readFile authMode cfg r = inr (Some e) →
    serving 2 e
| serving_reload readFile next e path :
    serving next e →
    serving (S next) (reloadPolicy decodeJSON decodeTOML decodeYAML readFile next e path).

Lemma SetOIDCUserClaims_keeps e claims e' :
  SetOIDCUserClaims e claims = inr e' → policy e' = policy e ∧ source e' = source e.
Proof. unfold SetOIDCUserClaims. intros Hc. repeat case_match; naive_solver. Qed.

Lemma FromConfig_valid readFile authMode cfg r e :
  FromConfig decodeJSON decodeTOML decodeYAML unmarshalObject unmarshalArray
    readFile authMode cfg r = inr (Some e) →
  policy_valid e ∧ source_valid (source e).
Proof.
  unfold FromConfig. case_decide; [done|].
  destruct (loadPolicy _ _ _ _ _ _) as [|e0] eqn:Hl; [done|].
  assert (policy_valid e0 ∧ source e0 = None) as [Hp Hs].
  { unfold loadPolicy in Hl. repeat case_match; simplify_eq; split; try done;
      intros addr q [= <- <-]; by eapply validated_valid. }
  repeat case_decide.
  - case_match; intros [= <-]; split; try done; intros src id g; simpl; [naive_solver|].
    intros [= <-]. exact (TailscaleGrantsFor_valid _ (Some id) g).
  - case_match eqn:Ec; [done|]. intros [= <-].
    apply SetOIDCUserClaims_keeps in Ec as [Ep Es]. unfold policy_valid, source_valid.
    rewrite Ep, Es. case_match; (split; [done|]); intros src id g; simpl; [naive_solver|].
    intros [= <-]. exact (OIDCGrantsFor_valid _ (Some id) g).
  - case_match; intros [= <-]; split; try done; intros src id g; simpl; [naive_solver|].
    intros [= <-]. exact (HeadersGrantsFor_valid _ _ _ _ (Some id) g).
  - intros [= <-]. split; [done|]. intros src id g. naive_solver.
Qed.

Lemma serving_valid next e : serving next e → policy_valid e ∧ source_valid (source e).
Proof.
  induction 1 as [|rf next e path Hs [IHp IHs]]; [by eapply FromConfig_valid|].
  unfold reloadPolicy. destruct (validated _) as [|p] eqn:E; [done|]. split; [|done].
  intros addr q [= <- <-]. by eapply validated_valid.
Qed.
End Serving.

(** A covered resource is covered by an expression of its own type, of a type
    that implies it, or of every type. *)
Lemma covers_type r grants t name :
  (∀ r', r = Some r' → StackTypes r') → covers r grants t name = true →
  ∃ g expr rt, g ∈ grants ∧ expr ∈ Resources g ∧ grantResourceType expr = Some rt ∧
    (rt = "*" ∨ t = rt ∨ t ∈ impliedTypes rt).
Proof.
  intros Hr H.
  assert (∀ t' n', anyCovers grants t' n' = true → t = t' ∨ t ∈ impliedTypes t' →
    ∃ g expr rt, g ∈ grants ∧ expr ∈ Resources g ∧ grantResourceType expr = Some rt ∧
      (rt = "*" ∨ t = rt ∨ t ∈ impliedTypes rt)) as Hany.
  { intros t' n' (g & expr & rt & ? & ? & ? & Hrt)%anyCovers_resourceType Ht'.
    exists g, expr, rt. destruct Hrt as [->| ->]; tauto. }
  unfold covers in H. apply orb_true_iff in H as [H|H]; [by eapply Hany; [|left]|].
  destruct r as [r|]; [|done]. case_decide as Ht; apply andb_true_iff in H as [Hn H].
  - subst t. apply orb_true_iff in H as [H|[_ H]%andb_true_iff];
      (eapply Hany; [exact H|right; set_solver]).
  - assert (StackOf r t name ≠ "") as Hst%(Hr r eq_refl) by (by destruct (StackOf r t name)).
    eapply Hany; [exact H|right; set_solver].
Qed.

Lemma covers_true r grants t n :
  covers r grants t n = true → ∃ t' n', anyCovers grants t' n' = true.
Proof.
  unfold covers. intros [H|H]%orb_true_iff; [by exists t, n|].
  destruct r as [r|]; [|done]. case_decide; apply andb_true_iff in H as [_ H]; [|by eauto].
  apply orb_true_iff in H as [H|[_ H]%andb_true_iff]; eauto.
Qed.

(** Whatever the grants of a permission cover, one of them names something. *)
Lemma covers_resource_grant r grants resource :
  covers_resource r grants resource = true → ∃ g, g ∈ grants ∧ Resources g ≠ [].
Proof.
  unfold covers_resource. destruct (splitResource resource) as [[t n] []].
  - intros (t' & n' & (g & expr & Hg & He & _)%anyCovers_spec)%covers_true.
    exists g. split; [done|]. intros E. rewrite E in He. set_solver.
  - intros (g & Hg & Hw)%existsb_True. exists g. split; [done|].
    unfold bare_wildcard in Hw. intros E. by rewrite E in Hw.
Qed.

Lemma covers_resource_exec r e id p resource :
  covers_resource r (grantsFor e id p "exec") resource = true →
  ∃ g, g ∈ collectGrants e id p ∧ "exec" ∈ Permissions g ∧ Resources g ≠ [].
Proof.
  intros (g & Hg & Hr)%covers_resource_grant. exists g.
  unfold grantsFor in Hg. apply list_elem_of_In, filter_In in Hg as [Hin Hp].
  apply list_elem_of_In in Hin. apply hasPermission_spec in Hp as [Hp|[]]; done.
Qed.

Lemma Can_unfold e id permission resource :
  Can e id permission resource =
  match e with
  | None => bool_decide (permission ≠ "exec")
  | Some ev =>
      match policy ev with
      | Some (_, p) => covers_resource (resolver ev) (grantsFor ev id p permission) resource
      | None =>
          bool_decide (permission ≠ "exec") ||
          covers_resource (resolver ev) (grantsFor ev id (mkPolicy []) permission) resource
      end
  end.
Proof.
  unfold Can, grantsWith. destruct e as [ev|].
  2:{ unfold matches, matchesParts, anyCovers. destruct (bool_decide _); [done|].
    by destruct (splitResource resource) as [[t n] []]. }
  unfold effectivePolicy. destruct (policy ev) as [[a p]|]; [apply matches_covers|].
  case_decide; case_bool_decide; try done. simpl. apply matches_covers.
Qed.

(** * Properties *)

(** C3: The whole decision of the evaluator, on every branch: no evaluator
    allows everything but exec; no policy allows everything but exec, which
    then needs a provider's or a token's grant; and with a policy the answer
    is whether the grants in force for the permission cover the resource, as
    the reference reading says. So the precomputed service and stack flags,
    which let the matcher skip the resolver, never change an answer. *)
Theorem Can_reference e id permission resource :
  Can e id permission resource =
  match e with
  | None => bool_decide (permission ≠ "exec")
  | Some ev =>
      match policy ev with
      | Some (_, p) => covers_resource (resolver ev) (grantsFor ev id p permission) resource
      | None =>
          bool_decide (permission ≠ "exec") ||
          covers_resource (resolver ev) (grantsFor ev id (mkPolicy []) permission) resource
      end
  end.
Proof. apply Can_unfold. Qed.

(** The list paths decide as the single check does: filtering a list keeps
    exactly the items Can allows, in order, whether the resource is spelled
    out or named by type, and the prepared checker answers as Can. *)
Theorem filters_agree {T} e id permission (items : list T) (f : T → string) t
    (Ht : IndexByte t ":" = None) :
  Filter e id permission items f =
    List.filter (λ x, Can e id permission (f x)) items ∧
  FilterInPlaceNamed e id permission items t f =
    List.filter (λ x, Can e id permission (t +:+ String ":" (f x))) items ∧
  ∀ resource, Checker e id permission resource = Can e id permission resource.
Proof.
  split_and!; [| |apply Checker_Can].
  - unfold Filter, Can. destruct (grantsWith e id permission) as [gs []]; simpl; [|done].
    by rewrite filter_true_id.
  - unfold FilterInPlaceNamed, Can, matches. destruct (grantsWith e id permission) as [gs []]; simpl.
    + by rewrite filter_true_id.
    + apply filter_ext. intros x. by rewrite splitResource_named.
Qed.

(** Exec is never implicit: whoever may exec on a resource holds a grant
    that names exec itself, among the grants collected for that identity. *)
Theorem exec_needs_grant e id resource (Hc : Can e id "exec" resource = true) :
  ∃ ev p g, e = Some ev ∧ effectivePolicy ev "exec" = Some p ∧
    g ∈ collectGrants ev id p.2 ∧ "exec" ∈ Permissions g ∧ Resources g ≠ [].
Proof.
  rewrite Can_unfold in Hc. destruct e as [ev|]; [|done].
  unfold effectivePolicy. destruct (policy ev) as [[a p]|] eqn:Ep.
  - destruct (covers_resource_exec _ _ _ _ _ Hc) as (g & ? & ? & ?). exists ev, (a, p), g. by rewrite Ep.
  - destruct (covers_resource_exec _ _ _ _ _ Hc) as (g & ? & ? & ?). exists ev, noFileGrants, g. by rewrite Ep.
Qed.

(** The type-level projection is never narrower than a call under a
    policy: a resource the identity may act on has a type the projection
    lists for that permission, stack and service inheritance included. *)
Theorem TypeGrants_covers_calls ev id a p permission t name
    (Hpol : policy ev = Some (a, p)) (Hperm : permission ∈ validPermissions)
    (Ht : IndexByte t ":" = None) (Hr : ∀ r, resolver ev = Some r → StackTypes r)
    (Hc : Can (Some ev) id permission (t +:+ String ":" name) = true) :
  TypeAccess_Can (TypeGrants (Some ev) id) permission t = true.
Proof.
  rewrite Can_unfold, Hpol in Hc. unfold covers_resource in Hc.
  rewrite splitResource_named in Hc by done.
  destruct (covers_type _ _ _ _ Hr Hc) as (g & expr & rt & Hg & He & Hrt & Hty).
  unfold grantsFor in Hg. apply list_elem_of_In, filter_In in Hg as [Hg Hp].
  apply list_elem_of_In in Hg. by eapply TypeGrants_granted.
Qed.

(** Memoizing what an identity derives changes no answer: for every
    sequence of checks and hot reloads, from a fresh identity and an evaluator
    whose policy, if it has one, was allocated before, the memoized checks
    answer exactly what collecting the grants again each time answers. *)
Theorem memo_coherent next e id ops
    (Hnext : 0 < next) (Hpol : ∀ a p, policy e = Some (a, p) → 0 < a < next) :
  run_memo next e id no_memo ops = run_plain next e id ops.
Proof.
  assert (memo_ok next e id no_memo) as Hok by (by constructor).
  clear Hnext Hpol. revert next e Hok. generalize no_memo as m.
  induction ops as [|[permission resource|p] ops IH]; intros m next e Hok; simpl; [done| |].
  - unfold Can_memo, Can. destruct (grantsWith_memo_spec next e id permission m Hok) as (m' & -> & Hok').
    destruct (grantsWith (Some e) (Some id) permission) as [gs b]. f_equal. by apply IH.
  - apply IH. by apply memo_ok_SetPolicy.
Qed.

(** A configured evaluator, after any number of hot reloads, never meets a
    malformed pattern: an invalid file keeps the previous policy, provider and
    token grants are validated too, and whether a pattern is malformed does
    not depend on the name it is matched against. So the branch of the matcher
    that logs and denies is dead, for every identity and every name. *)
Theorem serving_patterns_wellformed `{Unicode} dj dt dy uo ua next e id a p g expr t pattern name
    (Hs : serving dj dt dy uo ua next e)
    (Hp : effectivePolicy e "exec" = Some (a, p)) (Hg : g ∈ collectGrants e id p)
    (He : expr ∈ Resources g) (Hstar : expr ≠ "*")
    (Hc : Cut expr ":" = (t, pattern, true)) :
  t ∈ validResourceTypes ∧ Match pattern name ≠ ErrBadPattern.
Proof.
  destruct (serving_valid _ _ _ _ _ _ _ Hs) as [Hpv Hsv].
  assert (validateGrant g = None) as (_ & _ & Hr & _)%validateGrant_None.
  { apply (collectGrants_valid e id a p g Hpv Hsv); [|done].
    unfold effectivePolicy in Hp. destruct (policy e) as [[]|]; [left; congruence|right].
    simpl in Hp. by injection Hp as <- <-. }
  destruct (validateResource_pattern expr (Hr expr He) Hstar) as (t' & pat & Hc' & ? & ? & Hm).
  rewrite Hc in Hc'. injection Hc' as <- <-. auto.
Qed.

(** A fingerprint does not depend on order: two policies whose grants in
    force for the identity are the same up to the order of grants, and of the
    resources and permissions within each, hash alike at one generation. *)
Theorem Fingerprint_order hs hb e1 e2 id a1 p1 a2 p2 l
    (H1 : policy e1 = Some (a1, p1)) (H2 : policy e2 = Some (a2, p2))
    (Hgen : policyGeneration e1 = policyGeneration e2)
    (Hp : collectGrants e1 id p1 ≡ₚ l) (Hl : Forall2 same_grant l (collectGrants e2 id p2)) :
  Fingerprint hs hb (Some e1) id = Fingerprint hs hb (Some e2) id.
Proof.
  unfold Fingerprint. rewrite H1, H2, Hgen. f_equal. apply sum64_proper.
  rewrite Hp. by rewrite (fmap_same_grant hs hb _ _ Hl).
Qed.

(** * Witnesses *)

(** A policy over a two-level cluster: the service "web" is in the stack
    "shop", the task "t1" is one of its tasks. *)
Definition w_resolver : ResourceResolver := {|
  StackOf t n := if bool_decide (t = "service") && bool_decide (n = "web") then "shop" else "";
  ServiceOfTask t := if bool_decide (t = "t1") then "web" else "";
|}.

Definition w_policy : Policy :=
  mkPolicy [mkGrant ["stack:sh*"] ["user:a*"] ["write"]; mkGrant ["task:t2"] [] ["exec"; "read"]].

Definition w_id : Identity := mkIdentity "alice" "" "" [] "oidc" None 0 "".

Definition w_eval : Evaluator :=
  mkEvaluator (Some (1, w_policy)) None (Some w_resolver) (mkUserClaims false false) 1.

Lemma filters_agree_witness :
  IndexByte "task" ":" = None ∧
  FilterInPlaceNamed (Some w_eval) (Some w_id) "write" ["t1"; "t2"] "task" (λ x, x) = ["t1"] ∧
  Filter (Some w_eval) (Some w_id) "write" ["t1"; "t2"] (λ x, "task:" +:+ x) =
    List.filter (λ x, Can (Some w_eval) (Some w_id) "write" ("task:" +:+ x)) ["t1"; "t2"].
Proof.
  split; [reflexivity|]. split; [vm_compute; reflexivity|].
  apply (filters_agree (Some w_eval) (Some w_id) "write" ["t1"; "t2"] (λ x, "task:" +:+ x) "task").
  reflexivity.
Defined.

Lemma exec_needs_grant_witness :
  ∃ ev p g, Some w_eval = Some ev ∧ effectivePolicy ev "exec" = Some p ∧
    g ∈ collectGrants ev None p.2 ∧ "exec" ∈ Permissions g ∧ Resources g ≠ [].
Proof. apply (exec_needs_grant (Some w_eval) None "task:t2"). vm_compute. reflexivity. Defined.

Lemma TypeGrants_covers_calls_witness :
  TypeAccess_Can (TypeGrants (Some w_eval) (Some w_id)) "read" "task" = true.
Proof.
  apply (TypeGrants_covers_calls w_eval (Some w_id) 1 w_policy "read" "task" "t1");
    [reflexivity|apply list_elem_of_here|reflexivity| |vm_compute; reflexivity].
  intros r [= <-] t n Hne. destruct (decide (t = "service")) as [->|Ht];
    [apply list_elem_of_here|].
  destruct Hne. cbn. by rewrite bool_decide_eq_false_2.
Defined.

Lemma memo_coherent_witness :
  run_memo 2 w_eval w_id no_memo
    [OpCan "write" "task:t1"; OpSetPolicy None; OpCan "exec" "task:t2";
     OpSetPolicy (Some (mkPolicy [])); OpCan "write" "task:t1"] = [true; false; false].
Proof.
  rewrite (memo_coherent 2 w_eval w_id);
    [vm_compute; reflexivity|lia|intros a p [= <- <-]; lia].
Defined.

Definition w_serving : Evaluator :=
  mkEvaluator (Some (1, mkPolicy [mkGrant ["service:web-*"] [] ["exec"]])) None (Some w_resolver)
    (mkUserClaims false false) 1.

Lemma serving_patterns_wellformed_witness :
  "service" ∈ validResourceTypes ∧ Match "web-*" "x/y" ≠ ErrBadPattern.
Proof.
  apply (@serving_patterns_wellformed ascii_unicode
    (λ _, Some (Some [mkGrant ["service:web-*"] [] ["exec"]])) (λ _, None) (λ _, None)
    (λ _, None) (λ _, None) 2 w_serving None 1
    (mkPolicy [mkGrant ["service:web-*"] [] ["exec"]])
    (mkGrant ["service:web-*"] [] ["exec"]) "service:web-*" "service" "web-*" "x/y").
  - apply (@serving_new ascii_unicode _ _ _ _ _ (λ _, None) "cert"
      (mkACLConfig "{}" "" "" "" [] "" "") w_resolver). vm_compute. reflexivity.
  - reflexivity.
  - apply list_elem_of_here.
  - apply list_elem_of_here.
  - discriminate.
  - vm_compute. reflexivity.
Defined.

Lemma Fingerprint_order_witness :
  Fingerprint (λ s, Z.of_nat (String.length s)) (foldr Z.add 0%Z)
    (Some w_eval) (Some w_id) =
  Fingerprint (λ s, Z.of_nat (String.length s)) (foldr Z.add 0%Z)
    (Some (mkEvaluator (Some (7, mkPolicy
      [mkGrant ["task:t2"] [] ["read"; "exec"]; mkGrant ["stack:sh*"] ["user:a*"] ["write"]]))
      None None (mkUserClaims false false) 1)) (Some w_id).
Proof.
  eapply (Fingerprint_order _ _ w_eval _ (Some w_id) 1 w_policy 7 _
    [mkGrant ["task:t2"] [] ["exec"; "read"]; mkGrant ["stack:sh*"] ["user:a*"] ["write"]]);
    [reflexivity|reflexivity|reflexivity|vm_compute; apply Permutation_swap|].
  vm_compute. repeat constructor; try apply Permutation_swap; apply Permutation_refl.
Defined.

(** * Exec without a policy *)

Definition w_exec_source : Evaluator :=
  mkEvaluator None (Some (λ _, [mkGrant ["task:t1"] [] ["exec"]])) None (mkUserClaims false false) 0.

(** With no policy loaded, an identity whose provider source grants exec on
    a resource may exec on it, while the type-level projection lists no type
    for exec: there the listing is narrower than the call. *)
Theorem source_exec_not_listed :
  policy w_exec_source = None ∧
  Can (Some w_exec_source) (Some w_id) "exec" "task:t1" = true ∧
  ∀ t, TypeAccess_Can (TypeGrants (Some w_exec_source) (Some w_id)) "exec" t = false.
Proof.
  split; [reflexivity|]. split; [vm_compute; reflexivity|]. reflexivity.
Qed.
