(* ===== verification/OAuthTokens.v ===== *)
(** The OAuth server's token stores: internal/oauth/store.go, with the refresh
    store's persistence from persist.go.

    Tokens are opaque: the hash is an argument, and a token an operation mints
    is one of its arguments, drawn by the caller's random source. The store's
    mutex makes each operation one step, and the clock it reads is an argument. *)
From S2P Require Import Prelude GoStrings.
#[local] Open Scope string_scope.
#[local] Open Scope nat_scope.

(** * Authorization codes *)

Record AuthCodeData := mkAuthCodeData {
  ac_ClientID : string;
  ac_RedirectURI : string;
  ac_CodeChallenge : string;
  ac_Resource : string;
  ac_Subject : string;
  ac_Email : string;
  ac_DisplayName : string;
  ac_Groups : list string;
  ac_Grants : string;
}.

Record authCodeEntry := mkAuthCodeEntry { ac_data : AuthCodeData; ac_expiresAt : Z }.

(** hash → entry *)
Abbreviation AuthCodeStore := (gmap string authCodeEntry).

Definition NewAuthCodeStore : AuthCodeStore := ∅.

(** * Refresh tokens *)

Record RefreshTokenData := mkRefreshTokenData {
  rt_Subject : string;
  rt_Email : string;
  rt_DisplayName : string;
  rt_Groups : list string;
  rt_Grants : string;
  rt_ClientID : string;
  rt_Resource : string;
  grantID : string;
}.

Definition no_data : RefreshTokenData := mkRefreshTokenData "" "" "" [] "" "" "" "".

(** A copy of [data] under another grant. *)
Definition stamp (data : RefreshTokenData) (id : string) : RefreshTokenData :=
  mkRefreshTokenData (rt_Subject data) (rt_Email data) (rt_DisplayName data) (rt_Groups data)
    (rt_Grants data) (rt_ClientID data) (rt_Resource data) id.

Record RotateResult := mkRotateResult {
  NewToken : string;
  rr_Data : RefreshTokenData;
  OK : bool;
  Theft : bool;
}.

Definition no_result : RotateResult := mkRotateResult "" no_data false false.

Record refreshTokenEntry := mkEntry {
  data : RefreshTokenData;
  expiresAt : Z;
  grantExpiresAt : Z;
}.

Definition maxGrantHistorySize : nat := 32.

Record RefreshTokenStore := mkStore {
  tokens : gmap string refreshTokenEntry;
  consumed : gmap string string;
  grants : gmap string (list string);
}.

Definition NewRefreshTokenStore : RefreshTokenStore := mkStore ∅ ∅ ∅.

(** * Snapshots *)

Record RefreshTokenSnapEntry := mkSnapEntry {
  se_Subject : string;
  se_Email : string;
  se_DisplayName : string;
  se_Groups : list string;
  se_Grants : string;
  se_ClientID : string;
  se_Resource : string;
  se_GrantID : string;
  se_ExpiresAt : Z;
  se_GrantExpiresAt : Z;
  se_EmailChecked : bool;
}.

Record RefreshTokenSnapshot := mkSnapshot {
  Tokens : gmap string RefreshTokenSnapEntry;
  Consumed : gmap string string;
  snap_Grants : gmap string (list string);
}.

Definition snap_entry (e : refreshTokenEntry) : RefreshTokenSnapEntry :=
  mkSnapEntry (rt_Subject (data e)) (rt_Email (data e)) (rt_DisplayName (data e))
    (rt_Groups (data e)) (rt_Grants (data e)) (rt_ClientID (data e)) (rt_Resource (data e))
    (grantID (data e)) (expiresAt e) (grantExpiresAt e) true.

Definition Snapshot (s : RefreshTokenStore) : RefreshTokenSnapshot :=
  mkSnapshot (snap_entry <$> tokens s) (consumed s) (grants s).

(** An email saved by a build that did not check it is dropped. *)
Definition restore_entry (now : Z) (e : RefreshTokenSnapEntry) : option refreshTokenEntry :=
  if time_after now (se_ExpiresAt e) || time_after now (se_GrantExpiresAt e) then None else
  Some (mkEntry
    (mkRefreshTokenData (se_Subject e) (if se_EmailChecked e then se_Email e else "")
       (se_DisplayName e) (se_Groups e) (se_Grants e) (se_ClientID e) (se_Resource e)
       (se_GrantID e))
    (se_ExpiresAt e) (se_GrantExpiresAt e)).

(** The families of the kept tokens. *)
Definition live_grants (m : gmap string refreshTokenEntry) : gset string :=
  list_to_set ((λ '(_, e), grantID (data e)) <$> map_to_list m).

Definition Restore (now : Z) (snap : RefreshTokenSnapshot) : RefreshTokenStore :=
  let tokens := omap (restore_entry now) (Tokens snap) in
  let live := live_grants tokens in
  mkStore tokens
    (filter (λ '(_, id), id ∈ live) (Consumed snap))
    (filter (λ '(id, _), id ∈ live) (snap_Grants snap)).

Section Stores.
Context (hashToken : string → string).

(** ** Codes *)

(** Expired entries are pruned first. *)
Definition AuthCode_Issue (raw : string) (now : Z) (d : AuthCodeData) (ttl : Z)
    (s : AuthCodeStore) : AuthCodeStore :=
  <[hashToken raw := mkAuthCodeEntry d (now + ttl)%Z]>
    (filter (λ '(_, e), time_after now (ac_expiresAt e) = false) s).

Definition Redeem (code : string) (now : Z) (s : AuthCodeStore)
    : option AuthCodeData * AuthCodeStore :=
  let h := hashToken code in
  (match s !! h with
   | None => None
   | Some e => if time_after now (ac_expiresAt e) then None else Some (ac_data e)
   end, delete h s).

(** ** Refresh tokens *)

Definition Issue (raw id : string) (now : Z) (d : RefreshTokenData) (ttl : Z)
    (s : RefreshTokenStore) : RefreshTokenStore :=
  let h := hashToken raw in
  let expires := (now + ttl)%Z in
  mkStore (<[h := mkEntry (stamp d id) expires expires]> (tokens s)) (consumed s)
    (<[id := [h]]> (grants s)).

Definition Validate (token : string) (now : Z) (s : RefreshTokenStore)
    : option RefreshTokenData :=
  match tokens s !! hashToken token with
  | None => None
  | Some e => if time_after now (expiresAt e) then None else Some (data e)
  end.

(** One turn of the loop over the family's hashes. *)
Definition revoke_hash (acc : RefreshTokenData * RefreshTokenStore) (h : string)
    : RefreshTokenData * RefreshTokenStore :=
  let '(owner, s) := acc in
  (match tokens s !! h with Some e => data e | None => owner end,
   mkStore (delete h (tokens s)) (delete h (consumed s)) (grants s)).

Definition revokeGrantLocked (id : string) (s : RefreshTokenStore)
    : RefreshTokenData * RefreshTokenStore :=
  let '(owner, s) := foldl revoke_hash (no_data, s) (default [] (grants s !! id)) in
  (owner, mkStore (tokens s) (consumed s) (delete id (grants s))).

(** append(l, h), cut to the last [maxGrantHistorySize]; with what is cut. *)
Definition push_history (l : list string) (h : string) : list string * list string :=
  let l := (l ++ [h])%list in
  let overflow := length l - maxGrantHistorySize in
  (take overflow l, drop overflow l).

(** The result, and whether the durable state changed. *)
Definition rotate (newRaw oldToken : string) (now ttl : Z) (s : RefreshTokenStore)
    : RotateResult * bool * RefreshTokenStore :=
  let oldHash := hashToken oldToken in
  let newHash := hashToken newRaw in
  match consumed s !! oldHash with
  | Some id =>
      let '(owner, s') := revokeGrantLocked id s in
      (mkRotateResult "" owner false true, true, s')
  | None =>
      match tokens s !! oldHash with
      | None => (no_result, false, s)
      | Some entry =>
          if time_after now (expiresAt entry) then
            let '(_, s') := revokeGrantLocked (grantID (data entry)) s in
            (no_result, true, s')
          else
            let id := grantID (data entry) in
            let newExpiry := (now + ttl)%Z in
            let newExpiry :=
              if time_before (grantExpiresAt entry) newExpiry then grantExpiresAt entry
              else newExpiry in
            let '(evicted, kept) := push_history (default [] (grants s !! id)) newHash in
            (mkRotateResult newRaw (data entry) true false, true,
             mkStore
               (<[newHash := mkEntry (data entry) newExpiry (grantExpiresAt entry)]>
                  (delete oldHash (tokens s)))
               (foldl (λ m h, delete h m) (<[oldHash := id]> (consumed s)) evicted)
               (<[id := kept]> (grants s)))
      end
  end.

Definition revokeGrant (token : string) (s : RefreshTokenStore)
    : option RefreshTokenData * RefreshTokenStore :=
  let h := hashToken token in
  let id :=
    match tokens s !! h with
    | Some e => grantID (data e)
    | None => (consumed s).[h]
    end in
  if is_empty id then (None, s) else
  let '(owner, s') := revokeGrantLocked id s in (Some owner, s').

Definition RevokeSubject `{MapRange} (subject : string) (s : RefreshTokenStore)
    : nat * RefreshTokenStore :=
  let families :=
    (λ '(_, e), grantID (data e)) <$>
      filter (λ '(_, e), rt_Subject (data e) = subject) (range (tokens s)) in
  (length families, foldl (λ s id, (revokeGrantLocked id s).2) s families).
End Stores.

(** The operations on the code store, and what each redemption gave. *)
Inductive code_op :=
| OpIssue (raw : string) (now : Z) (d : AuthCodeData) (ttl : Z)
| OpRedeem (code : string) (now : Z).

Fixpoint run_codes (hashToken : string → string) (s : AuthCodeStore) (ops : list code_op)
    : list (string * option AuthCodeData) :=
  match ops with
  | [] => []
  | OpIssue raw now d ttl :: ops => run_codes hashToken (AuthCode_Issue hashToken raw now d ttl s) ops
  | OpRedeem code now :: ops =>
      let '(d, s) := Redeem hashToken code now s in (code, d) :: run_codes hashToken s ops
  end.

(** What was handed out for one code. *)
Definition successes (code : string) (log : list (string * option AuthCodeData))
    : list AuthCodeData :=
  omap (λ '(c, d), if decide (c = code) then d else None) log.

(** No issue of the trace mints the code again. *)
Definition not_reissued (hashToken : string → string) (code : string) (ops : list code_op) : Prop :=
  Forall (λ op, match op with
                | OpIssue raw _ _ _ => hashToken raw ≠ hashToken code
                | OpRedeem _ _ => True
                end) ops.

(** * The invariant *)

(** Every family is the history of one live token, which ends it; what is
    before it was consumed by that family and is live nowhere; and no token
    outlives its family. *)
Record store_ok (s : RefreshTokenStore) : Prop := {
  ok_family id hs : grants s !! id = Some hs →
    NoDup hs ∧ length hs ≤ maxGrantHistorySize ∧
    ∃ pre h e, hs = (pre ++ [h])%list ∧ tokens s !! h = Some e ∧ grantID (data e) = id ∧
      ∀ x, x ∈ pre → consumed s !! x = Some id;
  ok_token h e : tokens s !! h = Some e →
    (expiresAt e ≤ grantExpiresAt e)%Z ∧
    ∃ pre, grants s !! grantID (data e) = Some (pre ++ [h])%list;
  ok_consumed h id : consumed s !! h = Some id →
    tokens s !! h = None ∧ ∃ hs, grants s !! id = Some hs ∧ h ∈ hs;
  ok_no_id : grants s !! "" = None;
}.

(** What the store relies on of its random source: a minted token hashes to a
    hash it does not hold, and a minted family is one it does not hold. *)
Definition fresh_hash (s : RefreshTokenStore) (h : string) : Prop :=
  tokens s !! h = None ∧ consumed s !! h = None.

Definition fresh_grant (s : RefreshTokenStore) (id : string) : Prop :=
  id ≠ "" ∧ grants s !! id = None.

(** * Facts *)

Lemma not_ok_empty : store_ok NewRefreshTokenStore.
Proof. constructor; simpl; [intros ??|intros ??|intros ??|]; by rewrite ?lookup_empty. Qed.

(** ** Codes *)

Lemma run_codes_gone hashToken code ops s :
  not_reissued hashToken code ops → s !! hashToken code = None →
  successes code (run_codes hashToken s ops) = [].
Proof.
  intros Hops. revert s. induction Hops as [|op ops Hop Hops IH]; intros s Hs; [done|].
  destruct op as [raw now d ttl|c now]; simpl.
  - apply IH. unfold AuthCode_Issue. rewrite lookup_insert_ne by done.
    apply map_lookup_filter_None. by left.
  - case_decide as Hc; [subst; rewrite Hs|]; simpl; apply IH; apply lookup_delete_None; auto.
Qed.

(** ** Revoking a family *)

Lemma revoke_hashes_grants hs o s : grants (foldl revoke_hash (o, s) hs).2 = grants s.
Proof. revert o s. induction hs as [|h hs IH]; intros o s; [done|]. simpl. by rewrite IH. Qed.

Lemma revoke_hashes_tokens hs o s x :
  tokens (foldl revoke_hash (o, s) hs).2 !! x = if decide (x ∈ hs) then None else tokens s !! x.
Proof.
  revert o s. induction hs as [|h hs IH]; intros o s; [done|]. simpl. rewrite IH. simpl.
  destruct (decide (x ∈ hs)); [by rewrite decide_True by set_solver|].
  destruct (decide (x = h)) as [->|]; [by rewrite lookup_delete_eq, decide_True by set_solver|].
  by rewrite lookup_delete_ne, decide_False by set_solver.
Qed.

Lemma revoke_hashes_consumed hs o s x :
  consumed (foldl revoke_hash (o, s) hs).2 !! x =
  if decide (x ∈ hs) then None else consumed s !! x.
Proof.
  revert o s. induction hs as [|h hs IH]; intros o s; [done|]. simpl. rewrite IH. simpl.
  destruct (decide (x ∈ hs)); [by rewrite decide_True by set_solver|].
  destruct (decide (x = h)) as [->|]; [by rewrite lookup_delete_eq, decide_True by set_solver|].
  by rewrite lookup_delete_ne, decide_False by set_solver.
Qed.

Lemma revoke_hashes_owner hs o s :
  (∀ x, x ∈ hs → tokens s !! x = None) → (foldl revoke_hash (o, s) hs).1 = o.
Proof.
  revert o s. induction hs as [|h hs IH]; intros o s H; [done|]. simpl.
  rewrite (H h) by set_solver. apply IH. intros x Hx. simpl.
  rewrite lookup_delete_None. right. apply H. set_solver.
Qed.

(** Revoking a family of a store that is sound removes its live token, all it
    consumed and the family, names the owner, and touches nothing else. *)
Lemma revokeGrantLocked_spec s id hs :
  store_ok s → grants s !! id = Some hs →
  ∃ pre h e s', hs = (pre ++ [h])%list ∧ tokens s !! h = Some e ∧ grantID (data e) = id ∧
    revokeGrantLocked id s = (data e, s') ∧
    (∀ x, tokens s' !! x = if decide (x = h) then None else tokens s !! x) ∧
    (∀ x, consumed s' !! x = if decide (consumed s !! x = Some id) then None else consumed s !! x) ∧
    grants s' = delete id (grants s).
Proof.
  intros Hok Hg. destruct (ok_family s Hok id hs Hg) as (Hnd & _ & pre & h & e & -> & Ht & He & Hpre).
  exists pre, h, e. eexists. split_and!; [done..| | | |].
  - unfold revokeGrantLocked. rewrite Hg. simpl.
    destruct (foldl revoke_hash (no_data, s) (pre ++ [h])) as [o s'] eqn:E. f_equal.
    + rewrite foldl_app in E. simpl in E.
      pose proof (revoke_hashes_tokens pre no_data s h) as Hh.
      destruct (foldl revoke_hash (no_data, s) pre) as [o1 s1]. simpl in *.
      apply NoDup_app in Hnd as (_ & Hnd & _).
      rewrite decide_False in Hh by set_solver. rewrite Hh, Ht in E. by injection E as <- _.
    + by replace s' with (foldl revoke_hash (no_data, s) (pre ++ [h])).2 by (by rewrite E).
  - intros x. simpl. rewrite revoke_hashes_tokens. repeat case_decide; try done; [|set_solver].
    assert (x ∈ pre) as Hx by set_solver. by apply Hpre, (ok_consumed s Hok) in Hx as [? _].
  - intros x. simpl. rewrite revoke_hashes_consumed.
    repeat case_decide; try done.
    + assert (x ∈ pre ∨ x = h) as [Hx| ->] by set_solver; [by apply Hpre in Hx|].
      destruct (consumed s !! h) eqn:Eh; [|done].
      apply (ok_consumed s Hok) in Eh as [Eh _]. congruence.
    + match goal with H : consumed s !! x = _ |- _ =>
        apply (ok_consumed s Hok) in H as [_ (hs & Hhs & ?)] end.
      rewrite Hg in Hhs. by injection Hhs as <-.
  - simpl. by rewrite revoke_hashes_grants.
Qed.

Lemma revokeGrantLocked_none s id :
  grants s !! id = None → revokeGrantLocked id s = (no_data, s).
Proof.
  intros Hg. unfold revokeGrantLocked. rewrite Hg. simpl. f_equal. destruct s as [t c g].
  simpl in *. f_equal. by apply delete_id.
Qed.

(** A token's family is where its hash is, and only there. *)
Lemma family_last s id pre h e :
  store_ok s → tokens s !! h = Some e → grants s !! id = Some (pre ++ [h])%list →
  grantID (data e) = id.
Proof.
  intros Hok Ht Hg. destruct (ok_family s Hok id _ Hg) as (_ & _ & pre' & h' & e' & Heq & Ht' & He & _).
  apply app_inj_tail in Heq as [_ <-]. congruence.
Qed.

Lemma revokeGrantLocked_ok s id : store_ok s → store_ok (revokeGrantLocked id s).2.
Proof.
  intros Hok. destruct (grants s !! id) as [hs|] eqn:Hg;
    [|by rewrite revokeGrantLocked_none].
  destruct (revokeGrantLocked_spec s id hs Hok Hg)
    as (pre & h & e & s' & -> & Ht & He & -> & Htok & Hcons & Hgr). simpl. constructor.
  - intros id' hs'. rewrite Hgr. intros [Hne Hg']%lookup_delete_Some.
    destruct (ok_family s Hok id' hs' Hg') as (? & ? & pre' & h' & e' & -> & Ht' & He' & Hpre').
    split_and!; [done..|]. exists pre', h', e'. rewrite Htok, decide_False by congruence.
    split_and!; [done..|]. intros x Hx. rewrite Hcons, (Hpre' x Hx).
    by rewrite decide_False by congruence.
  - intros x e'. rewrite Htok. case_decide as Hx; [done|]. intros Hx'.
    destruct (ok_token s Hok x e' Hx') as (? & pre' & Hg'). split; [done|]. exists pre'.
    rewrite Hgr, lookup_delete_ne; [done|]. intros ->.
    rewrite Hg in Hg'. injection Hg' as [_ ?]%app_inj_tail. congruence.
  - intros x id'. rewrite Hcons. case_decide as Hx; [done|]. intros Hx'.
    destruct (ok_consumed s Hok x id' Hx') as (Hn & hs & Hhs & ?). rewrite Htok, Hn. split.
    + by case_decide.
    + exists hs. rewrite Hgr, lookup_delete_ne by congruence. done.
  - rewrite Hgr. apply lookup_delete_None. right. apply Hok.
Qed.

(** ** The history *)

Lemma push_history_app l h :
  ((push_history l h).1 ++ (push_history l h).2 = l ++ [h])%list.
Proof. unfold push_history. apply take_drop. Qed.

Lemma push_history_length l h : length (push_history l h).2 ≤ maxGrantHistorySize.
Proof. unfold push_history. simpl. rewrite length_drop. lia. Qed.

(** The newest hash is never cut. *)
Lemma push_history_last l h : ∃ pre, (push_history l h).2 = (pre ++ [h])%list ∧
  ((push_history l h).1 ++ pre = l)%list.
Proof.
  pose proof (push_history_app l h) as Happ. pose proof (push_history_length l h) as Hlen.
  destruct (push_history l h) as [cut kept] eqn:E. simpl in *.
  destruct kept as [|x kept _] using rev_ind.
  - exfalso. injection E as E1 E2. apply (f_equal length) in E2. rewrite length_drop, length_app in E2.
    simpl in E2. unfold maxGrantHistorySize in *. lia.
  - exists kept. rewrite app_assoc in Happ. apply app_inj_tail in Happ as [-> ->]. done.
Qed.

Lemma push_history_short l h : length l < maxGrantHistorySize → push_history l h = ([], l ++ [h])%list.
Proof.
  intros Hl. unfold push_history. rewrite length_app. simpl.
  replace (length l + 1 - maxGrantHistorySize) with 0 by lia. done.
Qed.

Lemma delete_hashes_lookup (hs : list string) (m : gmap string string) x :
  foldl (λ m h, delete h m) m hs !! x = if decide (x ∈ hs) then None else m !! x.
Proof.
  revert m. induction hs as [|h hs IH]; intros m; [done|]. simpl. rewrite IH.
  destruct (decide (x ∈ hs)); [by rewrite decide_True by set_solver|].
  destruct (decide (x = h)) as [->|]; [by rewrite lookup_delete_eq, decide_True by set_solver|].
  by rewrite lookup_delete_ne, decide_False by set_solver.
Qed.

Section Operations.
Context (hashToken : string → string).
#[local] Abbreviation rotate := (rotate hashToken).

Lemma Issue_ok raw id now d ttl s :
  store_ok s → fresh_hash s (hashToken raw) → fresh_grant s id →
  store_ok (Issue hashToken raw id now d ttl s).
Proof.
  intros Hok [Hft Hfc] [Hne Hfg]. constructor; simpl.
  - intros id' hs [[<- <-]|[? Hg]]%lookup_insert_Some.
    + split_and!; [apply NoDup_singleton|unfold maxGrantHistorySize; simpl; lia|].
      eexists [], _, _. rewrite lookup_insert_eq. split_and!; [done..|]. set_solver.
    + destruct (ok_family s Hok id' hs Hg) as (? & ? & pre & h & e & -> & Ht & He & Hpre).
      split_and!; [done..|]. exists pre, h, e. rewrite lookup_insert_ne by congruence. done.
  - intros h e [[<- <-]|[? Ht]]%lookup_insert_Some; simpl.
    + split; [done|]. exists []. by rewrite lookup_insert_eq.
    + destruct (ok_token s Hok h e Ht) as (? & pre & Hg). split; [done|]. exists pre.
      rewrite lookup_insert_ne; [done|congruence].
  - intros h id' Hc. destruct (ok_consumed s Hok h id' Hc) as (? & hs & Hg & ?).
    rewrite lookup_insert_ne by congruence. split; [done|]. exists hs.
    by rewrite lookup_insert_ne by congruence.
  - rewrite lookup_insert_ne by done. apply Hok.
Qed.

(** The store a rotation leaves, field by field. *)
Lemma rotate_live newRaw old now ttl s e :
  store_ok s → tokens s !! hashToken old = Some e → time_after now (expiresAt e) = false →
  ∃ pre cut kept s',
    grants s !! grantID (data e) = Some (pre ++ [hashToken old])%list ∧
    (cut ++ kept = pre ++ [hashToken old])%list ∧
    push_history (pre ++ [hashToken old]) (hashToken newRaw) =
      (cut, kept ++ [hashToken newRaw])%list ∧
    rotate newRaw old now ttl s = (mkRotateResult newRaw (data e) true false, true, s') ∧
    tokens s' = <[hashToken newRaw :=
      mkEntry (data e) (Z.min (grantExpiresAt e) (now + ttl)) (grantExpiresAt e)]>
      (delete (hashToken old) (tokens s)) ∧
    (∀ x, consumed s' !! x = if decide (x ∈ cut) then None else
      <[hashToken old := grantID (data e)]> (consumed s) !! x) ∧
    grants s' = <[grantID (data e) := (kept ++ [hashToken newRaw])%list]> (grants s).
Proof.
  intros Hok Ht Hexp. destruct (ok_token s Hok _ _ Ht) as (_ & pre & Hg).
  destruct (push_history_last (pre ++ [hashToken old]) (hashToken newRaw)) as (kept & Hk & Happ).
  destruct (push_history (pre ++ [hashToken old]) (hashToken newRaw)) as [cut kept'] eqn:Ep.
  simpl in *. subst kept'. exists pre, cut, kept. eexists.
  do 3 (split; [done|]). split; [|split; [|split]]; last first.
  - instantiate (1 := mkStore _ _ _). simpl. reflexivity.
  - intros x. simpl. apply delete_hashes_lookup.
  - simpl. reflexivity.
  - unfold OAuthTokens.rotate. destruct (consumed s !! hashToken old) eqn:Ec.
    { apply (ok_consumed s Hok) in Ec as [Ec _]. congruence. }
    rewrite Ht, Hexp, Hg. cbn -[push_history]. rewrite Ep. do 5 f_equal. unfold time_before.
    destruct (Z.ltb_spec (grantExpiresAt e) (now + ttl)); f_equal; lia.
Qed.

(** A rotation under way: what [rotate_live] gives. *)
Section Rotation.
Context (s s' : RefreshTokenStore) (old new : string) (e : refreshTokenEntry) (exp : Z).
Context (pre cut kept : list string).
Context (Hok : store_ok s) (Ht : tokens s !! old = Some e) (Hfresh : fresh_hash s new).
Context (Hexp : (exp ≤ grantExpiresAt e)%Z).
Context (Hg : grants s !! grantID (data e) = Some (pre ++ [old])%list).
Context (Happ : (cut ++ kept = pre ++ [old])%list).
Context (Hlen : length (kept ++ [new])%list ≤ maxGrantHistorySize).
Context (Htok : tokens s' =
  <[new := mkEntry (data e) exp (grantExpiresAt e)]> (delete old (tokens s))).
Context (Hcons : ∀ x, consumed s' !! x =
  if decide (x ∈ cut) then None else <[old := grantID (data e)]> (consumed s) !! x).
Context (Hgr : grants s' = <[grantID (data e) := (kept ++ [new])%list]> (grants s)).

Lemma rotation_pre x : x ∈ pre → consumed s !! x = Some (grantID (data e)).
Proof.
  destruct (ok_family s Hok _ _ Hg) as (_ & _ & pre' & h' & e' & Heq & _ & _ & Hpre).
  apply app_inj_tail in Heq as [<- <-]. apply Hpre.
Qed.

Lemma rotation_members x :
  x ∈ cut ∨ x ∈ kept ↔ x ∈ pre ∨ x = old.
Proof. rewrite <- elem_of_app, Happ. set_solver. Qed.

Lemma rotation_nodup : NoDup (kept ++ [new])%list ∧ ∀ x, x ∈ cut → x ∉ kept.
Proof.
  destruct (ok_family s Hok _ _ Hg) as [Hnd _]. rewrite <- Happ in Hnd.
  apply NoDup_app in Hnd as (_ & Hdis & Hndk). split; [|done].
  apply NoDup_app. split_and!; [done| |apply NoDup_singleton].
  intros x Hx [=->]%list_elem_of_singleton. destruct Hfresh as [Hft Hfc].
  assert (new ∈ pre ∨ new = old) as [Hp| ->] by (by apply rotation_members; right).
  - apply rotation_pre in Hp. congruence.
  - congruence.
Qed.

Lemma rotation_kept x : x ∈ kept → consumed s' !! x = Some (grantID (data e)).
Proof.
  intros Hx. rewrite Hcons, decide_False by (intros Hc; by apply rotation_nodup in Hc).
  destruct (decide (x = old)) as [->|]; [by rewrite lookup_insert_eq|].
  rewrite lookup_insert_ne by done. apply rotation_pre.
  assert (x ∈ pre ∨ x = old) as [|] by (by apply rotation_members; right); done.
Qed.

(** What other families consumed stays consumed. *)
Lemma rotation_other x id :
  id ≠ grantID (data e) → consumed s !! x = Some id → consumed s' !! x = Some id.
Proof.
  intros Hne Hx. rewrite Hcons, decide_False, lookup_insert_ne; [done| |].
  - intros <-. apply (ok_consumed s Hok) in Hx as [? _]. congruence.
  - intros Hc. assert (x ∈ pre ∨ x = old) as [Hp| ->] by (by apply rotation_members; left).
    + apply rotation_pre in Hp. congruence.
    + apply (ok_consumed s Hok) in Hx as [? _]. congruence.
Qed.

Lemma rotation_family id hs : grants s' !! id = Some hs →
  NoDup hs ∧ length hs ≤ maxGrantHistorySize ∧
  ∃ pre h e, hs = (pre ++ [h])%list ∧ tokens s' !! h = Some e ∧ grantID (data e) = id ∧
    ∀ x, x ∈ pre → consumed s' !! x = Some id.
Proof.
  rewrite Hgr. intros [[<- <-]|[Hne Hg']]%lookup_insert_Some.
  - split_and!; [apply rotation_nodup|done|].
    eexists kept, _, _. rewrite Htok, lookup_insert_eq.
    split_and!; [done..|apply rotation_kept].
  - destruct (ok_family s Hok id hs Hg') as (? & ? & pre2 & h2 & e2 & -> & Ht2 & He2 & Hpre2).
    split_and!; [done..|]. exists pre2, h2, e2. destruct Hfresh.
    assert (h2 ≠ old) by congruence.
    rewrite Htok, lookup_insert_ne, lookup_delete_ne by congruence. split_and!; [done..|].
    intros x Hx. apply rotation_other; [done|]. by apply Hpre2.
Qed.

Lemma rotation_ok : store_ok s'.
Proof.
  constructor; [apply rotation_family| | |].
  - intros h e2. rewrite Htok.
    intros [[<- <-]|[Hne [Hne' Ht2]%lookup_delete_Some]]%lookup_insert_Some.
    + simpl. split; [done|]. exists kept. by rewrite Hgr, lookup_insert_eq.
    + destruct (ok_token s Hok h e2 Ht2) as (? & pre2 & Hg2). split; [done|]. exists pre2.
      rewrite Hgr, lookup_insert_ne; [done|]. intros Heq. rewrite <- Heq, Hg in Hg2.
      injection Hg2 as [_ ?]%app_inj_tail. congruence.
  - intros x id. rewrite Hcons, Htok. case_decide as Hc; [done|]. destruct Hfresh.
    intros [[<- <-]|[Hne Hx]]%lookup_insert_Some; rewrite Hgr.
    + rewrite lookup_insert_ne, lookup_delete_eq by congruence. split; [done|].
      eexists. rewrite lookup_insert_eq. split; [done|].
      destruct (proj2 (rotation_members old)); [by right|done|set_solver].
    + destruct (ok_consumed s Hok x id Hx) as (Hn & hs & Hhs & Hin).
      rewrite lookup_insert_ne, lookup_delete_ne by congruence. split; [done|].
      destruct (decide (id = grantID (data e))) as [->|];
        [|exists hs; by rewrite lookup_insert_ne].
      rewrite Hg in Hhs. injection Hhs as <-. eexists. rewrite lookup_insert_eq.
      split; [done|]. rewrite <- Happ in Hin. set_solver.
  - rewrite Hgr, lookup_insert_ne; [apply Hok|]. intros Heq.
    rewrite Heq, (ok_no_id s Hok) in Hg. done.
Qed.
End Rotation.

Lemma rotate_ok newRaw old now ttl s :
  store_ok s → fresh_hash s (hashToken newRaw) → store_ok (rotate newRaw old now ttl s).2.
Proof.
  intros Hok Hfresh. destruct (tokens s !! hashToken old) as [e|] eqn:Ht.
  - destruct (time_after now (expiresAt e)) eqn:Hexp.
    + unfold OAuthTokens.rotate. rewrite Ht, Hexp. destruct (consumed s !! hashToken old) as [id|].
      * pose proof (revokeGrantLocked_ok s id Hok). by destruct (revokeGrantLocked id s).
      * pose proof (revokeGrantLocked_ok s (grantID (data e)) Hok).
        by destruct (revokeGrantLocked _ s).
    + destruct (rotate_live newRaw old now ttl s e Hok Ht Hexp)
        as (pre & cut & kept & s' & Hg & Happ & Hpush & -> & Htok & Hcons & Hgr). simpl.
      pose proof (push_history_length (pre ++ [hashToken old]) (hashToken newRaw)) as Hl.
      rewrite Hpush in Hl. refine (rotation_ok s s' _ _ e _ pre cut kept Hok Ht Hfresh _ Hg Happ Hl Htok Hcons Hgr).
      lia.
  - unfold OAuthTokens.rotate. rewrite Ht. destruct (consumed s !! hashToken old) as [id|]; [|done].
    pose proof (revokeGrantLocked_ok s id Hok). by destruct (revokeGrantLocked id s).
Qed.

Lemma revokeGrant_ok token s : store_ok s → store_ok (revokeGrant hashToken token s).2.
Proof.
  intros Hok. unfold revokeGrant. case_match; [done|].
  match goal with |- context [revokeGrantLocked ?id s] =>
    pose proof (revokeGrantLocked_ok s id Hok); by destruct (revokeGrantLocked id s) end.
Qed.

Lemma revoke_all_ok ids s :
  store_ok s → store_ok (foldl (λ s id, (revokeGrantLocked id s).2) s ids).
Proof.
  revert s. induction ids as [|id ids IH]; intros s Hok; simpl; [done|].
  by apply IH, revokeGrantLocked_ok.
Qed.

(** ** Persistence *)

Lemma live_grants_spec m id :
  id ∈ live_grants m ↔ ∃ h e, m !! h = Some e ∧ grantID (data e) = id.
Proof.
  unfold live_grants. rewrite elem_of_list_to_set, list_elem_of_fmap. split.
  - intros ([h e] & -> & Hin). exists h, e. by rewrite elem_of_map_to_list in Hin.
  - intros (h & e & Hm & <-). exists (h, e). by rewrite elem_of_map_to_list.
Qed.

Lemma restore_snap_entry now e :
  restore_entry now (snap_entry e) =
  if time_after now (expiresAt e) || time_after now (grantExpiresAt e) then None else Some e.
Proof. unfold restore_entry. simpl. case_match; [done|]. by destruct e as [[]]. Qed.

Lemma restored_tokens now s :
  store_ok s →
  tokens (Restore now (Snapshot s)) =
    filter (λ '(_, e), time_after now (expiresAt e) = false) (tokens s).
Proof using.
  clear hashToken. intros Hok. apply map_eq. intros h. simpl. rewrite lookup_omap, lookup_fmap.
  apply option_eq. intros e. rewrite map_lookup_filter_Some.
  destruct (tokens s !! h) as [e'|] eqn:Ht; simpl; [|naive_solver].
  rewrite restore_snap_entry. apply (ok_token s Hok) in Ht as [Hexp _].
  unfold time_after. destruct (Z.ltb_spec (expiresAt e') now), (Z.ltb_spec (grantExpiresAt e') now);
    simpl; naive_solver lia.
Qed.
Lemma restored_live now s id :
  store_ok s →
  id ∈ live_grants (tokens (Restore now (Snapshot s))) ↔
  ∃ h e, tokens s !! h = Some e ∧ grantID (data e) = id ∧ time_after now (expiresAt e) = false.
Proof using.
  clear hashToken. intros Hok. rewrite live_grants_spec, restored_tokens by done.
  setoid_rewrite map_lookup_filter_Some. naive_solver.
Qed.

(** A restart keeps the store sound. *)
Lemma Restore_sound now s : store_ok s → store_ok (Restore now (Snapshot s)).
Proof.
  intros Hok. pose proof (restored_tokens now s Hok) as Htok.
  pose proof (restored_live now s) as Hlive. set (s' := Restore now (Snapshot s)) in *.
  assert (consumed s' = filter (λ '(_, id), id ∈ live_grants (tokens s')) (consumed s)) as Hcons
    by done.
  assert (grants s' = filter (λ '(id, _), id ∈ live_grants (tokens s')) (grants s)) as Hgr by done.
  clearbody s'. constructor.
  - intros id hs. rewrite Hgr. intros [Hg Hl]%map_lookup_filter_Some.
    destruct (ok_family s Hok id hs Hg) as (? & ? & pre & h & e & -> & Ht & He & Hpre).
    split_and!; [done..|]. exists pre, h, e.
    assert (tokens s' !! h = Some e) as Ht'.
    { rewrite Htok. apply map_lookup_filter_Some. split; [done|].
      apply Hlive in Hl as (h' & e' & Ht' & He' & Hx); [|done].
      destruct (ok_token s Hok h' e' Ht') as (_ & pre' & Hg'). rewrite He', Hg in Hg'.
      injection Hg' as [_ <-]%app_inj_tail. congruence. }
    split_and!; [done..|]. intros x Hx. rewrite Hcons. apply map_lookup_filter_Some. auto.
  - intros h e. rewrite Htok. intros [Ht Hx]%map_lookup_filter_Some.
    destruct (ok_token s Hok h e Ht) as (? & pre & Hg). split; [done|]. exists pre.
    rewrite Hgr. apply map_lookup_filter_Some. split; [done|].
    apply Hlive; [done|]. by exists h, e.
  - intros h id. rewrite Hcons. intros [Hc Hl]%map_lookup_filter_Some.
    destruct (ok_consumed s Hok h id Hc) as (Hn & hs & Hg & ?). split.
    + rewrite Htok. apply map_lookup_filter_None. by left.
    + exists hs. split; [|done]. rewrite Hgr. by apply map_lookup_filter_Some.
  - rewrite Hgr. apply map_lookup_filter_None. left. apply Hok.
Qed.

(** * Behaviour over time *)

(** What the handlers and a restart do to the store. *)
Inductive rt_step : RefreshTokenStore → RefreshTokenStore → Prop :=
| step_issue s raw id now d ttl :
    fresh_hash s (hashToken raw) → fresh_grant s id →
    rt_step s (Issue hashToken raw id now d ttl s)
| step_rotate s raw old now ttl :
    fresh_hash s (hashToken raw) → rt_step s (rotate raw old now ttl s).2
| step_revoke s token : rt_step s (revokeGrant hashToken token s).2
| step_revoke_subject `{MapRange} s subject : rt_step s (RevokeSubject subject s).2
| step_restart s now : rt_step s (Restore now (Snapshot s)).

Lemma rt_step_ok s s' : rt_step s s' → store_ok s → store_ok s'.
Proof.
  destruct 1; intros Hok; [by apply Issue_ok|by apply rotate_ok|by apply revokeGrant_ok
    |by apply revoke_all_ok|by apply Restore_sound].
Qed.

Lemma one_live s h1 h2 e1 e2 :
  store_ok s → tokens s !! h1 = Some e1 → tokens s !! h2 = Some e2 →
  grantID (data e1) = grantID (data e2) → h1 = h2.
Proof.
  intros Hok H1 H2 Heq. destruct (ok_token s Hok h1 e1 H1) as (_ & p1 & Hg1).
  destruct (ok_token s Hok h2 e2 H2) as (_ & p2 & Hg2).
  rewrite Heq, Hg2 in Hg1. by injection Hg1 as [_ <-]%app_inj_tail.
Qed.

(** ** The branches of a rotation *)

Lemma rotate_theft newRaw old now ttl s id :
  store_ok s → consumed s !! hashToken old = Some id →
  ∃ h e s', rotate newRaw old now ttl s = (mkRotateResult "" (data e) false true, true, s') ∧
    tokens s !! h = Some e ∧ grantID (data e) = id ∧
    (∀ x, tokens s' !! x = if decide (x = h) then None else tokens s !! x) ∧
    (∀ x, consumed s' !! x = if decide (consumed s !! x = Some id) then None else consumed s !! x) ∧
    grants s' = delete id (grants s).
Proof.
  intros Hok Hc. destruct (ok_consumed s Hok _ _ Hc) as (_ & hs & Hg & _).
  destruct (revokeGrantLocked_spec s id hs Hok Hg)
    as (pre & h & e & s' & -> & Ht & He & Hr & Htok & Hcons & Hgr).
  exists h, e, s'. unfold OAuthTokens.rotate. rewrite Hc, Hr. done.
Qed.

Lemma rotate_expired newRaw old now ttl s e :
  store_ok s → tokens s !! hashToken old = Some e → time_after now (expiresAt e) = true →
  ∃ s', rotate newRaw old now ttl s = (no_result, true, s') ∧
    ∀ h e', tokens s' !! h = Some e' → grantID (data e') ≠ grantID (data e).
Proof.
  intros Hok Ht Hexp. destruct (ok_token s Hok _ _ Ht) as (_ & pre0 & Hg).
  destruct (revokeGrantLocked_spec s _ _ Hok Hg)
    as (pre & h & e1 & s' & _ & Ht1 & He1 & Hr & Htok & _ & _).
  exists s'. unfold OAuthTokens.rotate. destruct (consumed s !! hashToken old) eqn:Ec.
  { apply (ok_consumed s Hok) in Ec as [Ec _]. congruence. }
  rewrite Ht, Hexp, Hr. split; [done|]. intros x e'. rewrite Htok.
  case_decide as Hx; [done|]. intros Hx' Heq. apply Hx.
  apply (one_live s x h e' e1); congruence.
Qed.

(** Successive rotations, each of the token the one before it minted. *)
Inductive rotations (ttl : Z) :
    RefreshTokenStore → string → list string → RefreshTokenStore → string → Prop :=
| rotations_nil s t : rotations ttl s t [] s t
| rotations_cons s t raw now res s1 raws s2 t2 :
    fresh_hash s (hashToken raw) → rotate raw t now ttl s = (res, true, s1) → OK res = true →
    rotations ttl s1 raw raws s2 t2 → rotations ttl s t (raw :: raws) s2 t2.

(** A successful rotation was of a live, unexpired token. *)
Lemma rotate_OK raw t now ttl s res w s1 :
  store_ok s → rotate raw t now ttl s = (res, w, s1) → OK res = true →
  ∃ e, tokens s !! hashToken t = Some e ∧ time_after now (expiresAt e) = false.
Proof.
  intros Hok. unfold OAuthTokens.rotate. repeat case_match; intros [= <- <- <-]; simpl; try done.
  all: intros _; by eexists.
Qed.

Lemma push_history_keeps pre tail h :
  length tail < maxGrantHistorySize →
  ∃ pre', (push_history (pre ++ tail) h).2 = (pre' ++ tail ++ [h])%list.
Proof.
  intros Hl. unfold push_history. simpl.
  set (n := length ((pre ++ tail) ++ [h]) - maxGrantHistorySize).
  exists (drop n pre). rewrite <- app_assoc, drop_app_le; [done|].
  unfold n. rewrite !length_app. simpl. lia.
Qed.

(** While the window holds, the family's history still ends with the first
    token and all that were minted after it. *)
Lemma rotations_history ttl s t raws s' t' e pre tail :
  store_ok s → rotations ttl s t raws s' t' →
  tokens s !! hashToken t = Some e →
  grants s !! grantID (data e) = Some (pre ++ tail)%list →
  length tail + length raws ≤ maxGrantHistorySize →
  store_ok s' ∧ ∃ pre' e', tokens s' !! hashToken t' = Some e' ∧ data e' = data e ∧
    grants s' !! grantID (data e) = Some (pre' ++ tail ++ (hashToken <$> raws))%list.
Proof.
  intros Hok Hrot. revert e pre tail Hok.
  induction Hrot as [s t|s t raw now res s1 raws s2 t2 Hf Hr HOK Hrot IH];
    intros e pre tail Hok Ht Hg Hlen.
  - split; [done|]. exists pre, e. by rewrite app_nil_r.
  - destruct (rotate_OK _ _ _ _ _ _ _ _ Hok Hr HOK) as (e0 & Ht0 & Hexp).
    rewrite Ht in Ht0. injection Ht0 as <-.
    assert (store_ok s1) as Hok1.
    { pose proof (rotate_ok raw t now ttl s Hok Hf) as H. by rewrite Hr in H. }
    destruct (rotate_live raw t now ttl s e Hok Ht Hexp)
      as (pre0 & cut & kept & s1' & Hg0 & _ & Hpush & Hr' & Htok & _ & Hgr).
    rewrite Hr in Hr'. injection Hr' as _ <-. rewrite Hg in Hg0. injection Hg0 as Hpt.
    simpl in Hlen. destruct (push_history_keeps pre tail (hashToken raw)) as [pre' Hp]; [lia|].
    rewrite Hpt, Hpush in Hp. simpl in Hp.
    destruct (IH (mkEntry (data e) (Z.min (grantExpiresAt e) (now + ttl)) (grantExpiresAt e))
      pre' (tail ++ [hashToken raw])%list Hok1) as [Hok2 (pre2 & e2 & Ht2 & Hd2 & Hg2)].
    + by rewrite Htok, lookup_insert_eq.
    + simpl. by rewrite Hgr, lookup_insert_eq, Hp.
    + rewrite length_app. simpl. lia.
    + split; [done|]. exists pre2, e2. split_and!; [done..|]. simpl in Hg2.
      by rewrite <- app_assoc in Hg2.
Qed.
End Operations.

(** * Properties *)

(** C39: In every state the handlers and restarts can reach from an empty store,
    given a random source that mints no hash or family twice, each grant
    family has exactly one live token, which ends a history of at most 32
    hashes, everything before it was consumed by that family, a consumed hash
    is never live, and no token outlives its family. *)
Theorem refresh_store_sound hashToken s
    (Hr : rtc (rt_step hashToken) NewRefreshTokenStore s) :
  store_ok s ∧
  (∀ h1 h2 e1 e2, tokens s !! h1 = Some e1 → tokens s !! h2 = Some e2 →
     grantID (data e1) = grantID (data e2) → h1 = h2).
Proof.
  assert (store_ok s) as Hok.
  { revert Hr. generalize not_ok_empty. induction 2 as [|s0 s1 s2 Hstep _ IH]; [done|].
    apply IH. by eapply rt_step_ok. }
  split; [done|]. intros. by eapply one_live.
Qed.

(** What presenting a refresh token does, on every branch. An unknown token
    changes nothing and asks for no write. A consumed one is theft: the result
    names the family's owner, and no token of the family is left, live or
    consumed. An expired one tears its family down without naming it. A live
    one rotates: it stops being valid, the minted one is valid until the given
    lifetime or the family's end, whichever is first, for the same identity
    and the same family. Every other family is untouched throughout. *)
Theorem rotate_outcomes hashToken newRaw old now ttl s
    (Hok : store_ok s) (Hf : fresh_hash s (hashToken newRaw)) :
  let '(res, wrote, s') := rotate hashToken newRaw old now ttl s in
  store_ok s' ∧
  match consumed s !! hashToken old, tokens s !! hashToken old with
  | None, None => res = no_result ∧ wrote = false ∧ s' = s
  | Some id, _ =>
      OK res = false ∧ Theft res = true ∧ wrote = true ∧ grantID (rr_Data res) = id ∧
      (∃ h e, tokens s !! h = Some e ∧ data e = rr_Data res) ∧
      (∀ h, tokens s' !! h = tokens s !! h ∧ consumed s' !! h = consumed s !! h ∨
        (∃ e, tokens s !! h = Some e ∧ grantID (data e) = id) ∨ consumed s !! h = Some id) ∧
      (∀ h e, tokens s' !! h = Some e → grantID (data e) ≠ id) ∧
      (∀ h, consumed s' !! h ≠ Some id) ∧ grants s' !! id = None
  | None, Some e =>
      wrote = true ∧
      if time_after now (expiresAt e) then
        res = no_result ∧ (∀ h e', tokens s' !! h = Some e' → grantID (data e') ≠ grantID (data e))
      else
        OK res = true ∧ Theft res = false ∧ NewToken res = newRaw ∧ rr_Data res = data e ∧
        Validate hashToken old now s' = None ∧
        tokens s' !! hashToken newRaw =
          Some (mkEntry (data e) (Z.min (grantExpiresAt e) (now + ttl)) (grantExpiresAt e)) ∧
        (∀ h e', tokens s !! h = Some e' → grantID (data e') ≠ grantID (data e) →
           tokens s' !! h = Some e')
  end.
Proof.
  pose proof (rotate_ok hashToken newRaw old now ttl s Hok Hf) as Hok'.
  destruct (consumed s !! hashToken old) as [id|] eqn:Hc.
  - destruct (rotate_theft hashToken newRaw old now ttl s id Hok Hc)
      as (h & e & s' & Hr & Ht & He & Htok & Hcons & Hgr).
    rewrite Hr in Hok' |- *. split; [done|]. simpl. split_and!; try done.
    + by exists h, e.
    + intros x. rewrite Htok, Hcons. repeat case_decide; subst; eauto 7.
    + intros x e'. rewrite Htok. case_decide as Hx; [done|]. intros Hx' Heq.
      apply Hx. apply (one_live s x h e' e); congruence.
    + intros x. rewrite Hcons. by case_decide.
    + rewrite Hgr. apply lookup_delete_eq.
  - destruct (tokens s !! hashToken old) as [e|] eqn:Ht.
    2:{ by replace (rotate hashToken newRaw old now ttl s) with (no_result, false, s)
          by (unfold rotate; by rewrite Hc, Ht). }
    destruct (time_after now (expiresAt e)) eqn:Hexp.
    + destruct (rotate_expired hashToken newRaw old now ttl s e Hok Ht Hexp) as (s' & Hr & Htok).
      rewrite Hr in Hok' |- *. split_and!; done.
    + destruct (rotate_live hashToken newRaw old now ttl s e Hok Ht Hexp)
        as (pre & cut & kept & s' & _ & _ & _ & Hr & Htok & _ & _).
      rewrite Hr in Hok' |- *. destruct Hf as [Hf _]. split_and!; try done; simpl.
      * unfold Validate. by rewrite Htok, lookup_insert_ne, lookup_delete_eq by congruence.
      * by rewrite Htok, lookup_insert_eq.
      * intros x e' Hx Hne. rewrite Htok, lookup_insert_ne, lookup_delete_ne by congruence. done.
Qed.

(** C20: A stolen token is caught: after a token was rotated, and the family
    rotated up to 31 times in all, presenting the first token again is
    theft. It names the owner, mints nothing, and the newest token of the
    family stops being valid with the rest. *)
Theorem replay_burns_family hashToken ttl s t raws s' t' e newRaw now
    (Hok : store_ok s) (Ht : tokens s !! hashToken t = Some e)
    (Hrot : rotations hashToken ttl s t raws s' t')
    (Hn : 1 ≤ length raws < maxGrantHistorySize) :
  let '(res, wrote, s'') := rotate hashToken newRaw t now ttl s' in
  Theft res = true ∧ OK res = false ∧ rr_Data res = data e ∧ wrote = true ∧
  Validate hashToken t' now s'' = None.
Proof.
  destruct (ok_token s Hok _ _ Ht) as (_ & pre & Hg).
  destruct (rotations_history hashToken ttl s t raws s' t' e pre [hashToken t] Hok Hrot Ht Hg)
    as [Hok' (pre' & e' & Ht' & Hd' & Hg')]; [simpl; lia|].
  destruct (ok_family s' Hok' _ _ Hg') as (_ & _ & pre2 & h2 & e2 & Heq & Ht2 & He2 & Hpre2).
  assert (consumed s' !! hashToken t = Some (grantID (data e))) as Hc.
  { apply Hpre2. destruct raws as [|raw raws _] using rev_ind; [simpl in Hn; lia|].
    rewrite fmap_app, !app_assoc in Heq. apply app_inj_tail in Heq as [<- _]. set_solver. }
  destruct (rotate_theft hashToken newRaw t now ttl s' _ Hok' Hc)
    as (h & e3 & s3 & -> & Ht3 & He3 & Htok & _ & _). simpl.
  assert (h = hashToken t') as ->.
  { apply (one_live s' _ _ e3 e' Hok' Ht3 Ht'). by rewrite Hd'. }
  split_and!; try done; [congruence|].
  unfold Validate. by rewrite Htok, decide_True by done.
Qed.

(** A restart loses nothing that could still be used: when no live token
    has expired, restoring the snapshot of a sound store gives the very store
    back, consumed hashes and histories included. *)
Theorem snapshot_restore now s (Hok : store_ok s)
    (Hlive : ∀ h e, tokens s !! h = Some e → (now ≤ expiresAt e)%Z) :
  Restore now (Snapshot s) = s.
Proof.
  assert (∀ h e, tokens s !! h = Some e → time_after now (expiresAt e) = false) as Hexp.
  { intros h e Ht. apply Z.ltb_ge. by eapply Hlive. }
  assert (∀ id hs, grants s !! id = Some hs →
    id ∈ live_grants (tokens (Restore now (Snapshot s)))) as Hl.
  { intros id hs Hg. destruct (ok_family s Hok id hs Hg) as (_ & _ & pre & h & e & _ & Ht & He & _).
    apply restored_live; [done|]. exists h, e. eauto. }
  pose proof (restored_tokens now s Hok) as Htok.
  set (live := live_grants (tokens (Restore now (Snapshot s)))) in Hl.
  transitivity (mkStore (tokens s) (consumed s) (grants s)); [|by destruct s].
  transitivity (mkStore (tokens (Restore now (Snapshot s)))
    (filter (λ '(_, id), id ∈ live) (consumed s)) (filter (λ '(id, _), id ∈ live) (grants s)));
    [done|]. f_equal.
  - rewrite Htok. apply map_filter_id. intros h e Ht. by apply (Hexp h).
  - apply map_filter_id. intros h id Hc.
    destruct (ok_consumed s Hok h id Hc) as (_ & hs & Hg & _). by apply (Hl id hs).
  - apply map_filter_id. intros id hs Hg. by apply (Hl id hs).
Qed.


(** An authorization code is redeemed at most once: in every sequence of
    issues and redemptions that does not mint it again, what is handed out for
    it over the whole sequence is nothing, or once the data it was issued
    with. *)
Theorem code_single_use hashToken code ops s (Hops : not_reissued hashToken code ops) :
  successes code (run_codes hashToken s ops) = [] ∨
  ∃ e, s !! hashToken code = Some e ∧
    successes code (run_codes hashToken s ops) = [ac_data e].
Proof.
  revert s. induction Hops as [|op ops Hop Hops IH]; intros s; [by left|].
  destruct op as [raw now d ttl|c now]; simpl.
  - destruct (IH (AuthCode_Issue hashToken raw now d ttl s)) as [?|(e & He & ?)]; [by left|].
    right. exists e. split; [|done]. unfold AuthCode_Issue in He.
    rewrite lookup_insert_ne in He by done. by apply map_lookup_filter_Some in He as [? _].
  - case_decide as Hc; simpl.
    + subst c. rewrite run_codes_gone by (done || apply lookup_delete_eq).
      destruct (s !! hashToken code) as [e|] eqn:He; [|by left].
      destruct (time_after now (ac_expiresAt e)); [by left|]. right. by exists e.
    + destruct (IH (delete (hashToken c) s)) as [?|(e & He & ?)]; [by left|].
      right. exists e. apply lookup_delete_Some in He as [_ He]. done.
Qed.

(** * Witnesses *)

(** Hashing as the identity, tokens minted by hand. *)
Definition w_data : RefreshTokenData := mkRefreshTokenData "alice" "" "" [] "" "cli" "res" "".

Definition w_store : RefreshTokenStore :=
  Issue id "t0" "g0" 100 w_data 50 NewRefreshTokenStore.

Lemma w_reach : rtc (rt_step id) NewRefreshTokenStore w_store.
Proof. apply rtc_once. by constructor. Qed.

Lemma w_ok : store_ok w_store.
Proof. apply (Issue_ok id); [apply not_ok_empty|done|done]. Qed.

Lemma refresh_store_sound_witness :
  store_ok (rotate id "t1" "t0" 120 50 w_store).2 ∧
  tokens (rotate id "t1" "t0" 120 50 w_store).2 !! "t1" ≠ None.
Proof.
  split; [|vm_compute; discriminate].
  apply (refresh_store_sound id). apply rtc_r with w_store; [apply w_reach|].
  apply (step_rotate id w_store "t1" "t0" 120 50). by split.
Defined.

Lemma rotate_outcomes_witness :
  fresh_hash w_store "t1" ∧
  tokens (rotate id "t1" "t0" 120 50 w_store).2 !! "t1" =
    Some (mkEntry (stamp w_data "g0") 150 150).
Proof.
  split; [by split|].
  pose proof (rotate_outcomes id "t1" "t0" 120 50 w_store w_ok ltac:(by split)) as H.
  destruct (rotate id "t1" "t0" 120 50 w_store) as [[res wrote] s'].
  destruct H as (_ & _ & _ & _ & _ & _ & _ & H & _). exact H.
Defined.

Lemma replay_burns_family_witness :
  let s1 := (rotate id "t1" "t0" 120 50 w_store).2 in
  let s2 := (rotate id "t2" "t1" 130 50 s1).2 in
  let '(res, wrote, s3) := rotate id "t3" "t0" 140 50 s2 in
  Theft res = true ∧ OK res = false ∧ rr_Data res = stamp w_data "g0" ∧ wrote = true ∧
  Validate id "t2" 140 s3 = None.
Proof.
  apply (replay_burns_family id 50 w_store "t0" ["t1"; "t2"] _ "t2"
    (mkEntry (stamp w_data "g0") 150 150) "t3" 140 w_ok); [reflexivity| |simpl; unfold maxGrantHistorySize; lia].
  eapply rotations_cons with (now := 120%Z); [by split|vm_compute; reflexivity|reflexivity|].
  eapply rotations_cons with (now := 130%Z); [by split|vm_compute; reflexivity|reflexivity|].
  apply rotations_nil.
Defined.

Lemma snapshot_restore_witness : Restore 120 (Snapshot w_store) = w_store.
Proof.
  apply snapshot_restore; [apply w_ok|]. intros h e Ht.
  unfold w_store, Issue in Ht. simpl in Ht. apply lookup_insert_Some in Ht as [[_ <-]|[_ Ht]]; [simpl; lia|done].
Defined.

Lemma code_single_use_witness :
  let ops := [OpIssue "c" 0 (mkAuthCodeData "cli" "" "" "" "alice" "" "" [] "") 60;
              OpRedeem "c" 10; OpRedeem "c" 11] in
  successes "d" (run_codes id ∅ ops) = [] ∨
  ∃ e : authCodeEntry, (∅ : AuthCodeStore) !! "d" = Some e ∧
    successes "d" (run_codes id ∅ ops) = [ac_data e].
Proof. apply (code_single_use id "d"). by repeat constructor. Defined.
