(* ===== verification/OAuthConsent.v ===== *)
(** The OAuth server's remembered approvals and the resources it issues tokens
    for: internal/oauth/consent_store.go and resource.go.

    SHA-256 with its base64 text is an argument, a function of the bytes
    written into it; what is hashed is modelled byte by byte. *)
From S2P Require Import Prelude GoStrings.
#[local] Open Scope string_scope.
#[local] Open Scope nat_scope.

(** * What is hashed *)

Definition consentFingerprintDomain : string := "cetacean-consent-v1".
Definition consentKeyDomain : string := "cetacean-consent-key-v1".

(** The low [k] bytes of a number, most significant first. *)
Fixpoint be_bytes (k : nat) (n : N) : string :=
  match k with
  | O => ""
  | S k => be_bytes k (n / 256) +:+ String (ascii_of_N (n mod 256)) ""
  end.

(** The bytes a length-prefixed field adds: its length as a big-endian uint64,
    then itself. *)
Definition hashField (field : string) : string :=
  be_bytes 8 (N.of_nat (String.length field)) +:+ field.

Fixpoint field_bytes (fields : list string) : string :=
  match fields with
  | [] => ""
  | f :: fields => hashField f +:+ field_bytes fields
  end.

(** * The store *)

(** oauth.ClientMetadata, of which the consent page shows these. *)
Record ClientMetadata := mkClientMetadata { ClientName : string; RedirectURIs : list string }.

Record ConsentKey := mkConsentKey {
  ck_Subject : string;
  ck_ClientID : string;
  ck_Resource : string;
}.

Record ConsentRecord := mkConsentRecord {
  key : ConsentKey;
  Fingerprint : string;
  GrantedAt : Z;
}.

#[global] Instance ConsentKey_eq_dec : EqDecision ConsentKey.
Proof. solve_decision. Defined.

#[global] Instance ConsentRecord_eq_dec : EqDecision ConsentRecord.
Proof. solve_decision. Defined.

Record ConsentStore := mkConsentStore { ttl : Z; records : gmap string ConsentRecord }.

Definition NewConsentStore (ttl : Z) : ConsentStore := mkConsentStore ttl ∅.

Definition Enabled (s : ConsentStore) : bool := (0 <? ttl s)%Z.

Definition expired (s : ConsentStore) (grantedAt now : Z) : bool :=
  (ttl s <=? time_sub now grantedAt)%Z.

(** The comparison Snapshot sorts by: subject, then client, then resource. *)
Definition record_compare (a b : ConsentRecord) : comparison :=
  cmp_or (str_compare (ck_Subject (key a)) (ck_Subject (key b)))
    (cmp_or (str_compare (ck_ClientID (key a)) (ck_ClientID (key b)))
       (str_compare (ck_Resource (key a)) (ck_Resource (key b)))).

Definition Consent_Snapshot `{MapRange} (s : ConsentStore) : list ConsentRecord :=
  SortFunc record_compare (range (records s)).*2.

Section Consent.
Context (sha256 : string → string).

Definition hashFields (domain : string) (fields : list string) : string :=
  sha256 (field_bytes (domain :: fields)).

Definition consentFingerprint (meta : ClientMetadata) : string :=
  hashFields consentFingerprintDomain (ClientName meta :: SortStrings (RedirectURIs meta)).

Definition key_hash (k : ConsentKey) : string :=
  hashFields consentKeyDomain [ck_Subject k; ck_ClientID k; ck_Resource k].

Definition Allows (k : ConsentKey) (fingerprint : string) (now : Z) (s : ConsentStore) : bool :=
  if negb (Enabled s) then false else
  match records s !! key_hash k with
  | None => false
  | Some r => bool_decide (Fingerprint r = fingerprint) && negb (expired s (GrantedAt r) now)
  end.

(** The store, and whether it wrote through. *)
Definition Remember (k : ConsentKey) (fingerprint : string) (now : Z) (s : ConsentStore)
    : ConsentStore * bool :=
  if negb (Enabled s) then (s, false) else
  let h := key_hash k in
  let current :=
    match records s !! h with
    | None => false
    | Some r => bool_decide (Fingerprint r = fingerprint) && negb (expired s (GrantedAt r) now)
    end in
  if current then (s, false) else
  (mkConsentStore (ttl s) (<[h := mkConsentRecord k fingerprint now]> (records s)), true).

Definition Forget (k : ConsentKey) (s : ConsentStore) : ConsentStore * bool :=
  let h := key_hash k in
  (mkConsentStore (ttl s) (delete h (records s)), bool_decide (is_Some (records s !! h))).

Definition ForgetSubject (subject : string) (s : ConsentStore) : ConsentStore * bool :=
  let kept := filter (λ '(_, r), ck_Subject (key r) ≠ subject) (records s) in
  (mkConsentStore (ttl s) kept, bool_decide (size kept < size (records s))).

Definition Consent_Restore (now : Z) (rs : list ConsentRecord) (s : ConsentStore) : ConsentStore :=
  if negb (Enabled s) then mkConsentStore (ttl s) ∅ else
  mkConsentStore (ttl s)
    (foldl (λ m r, if expired s (GrantedAt r) now then m else <[key_hash (key r) := r]> m) ∅ rs).
End Consent.

(** * Resources *)

Record Resource := mkResource { Path : string; Realm : string; Name : string }.

(** oauth.ServerConfig, the fields a resource's identifier comes from. *)
Record ServerConfig := mkServerConfig {
  Issuer : string;
  BasePath : string;
  cfg_Resources : list Resource;
}.

Definition issuerID (c : ServerConfig) : string := Issuer c +:+ BasePath c.

Definition wellKnownPRM : string := "/.well-known/oauth-protected-resource".

Definition metadataPath (r : Resource) (basePath : string) : string :=
  wellKnownPRM +:+ basePath +:+ Path r.

Definition mountedMetadataPath (r : Resource) (basePath : string) : string :=
  basePath +:+ wellKnownPRM +:+ Path r.

Definition identifierOf (c : ServerConfig) (r : Resource) : string := issuerID c +:+ Path r.

Definition metadataURL (c : ServerConfig) (r : Resource) : string :=
  Issuer c +:+ mountedMetadataPath r (BasePath c).

Record resourceSet := mkResourceSet {
  identifiers : list string;
  byID : gmap string Resource;
  canonical : gmap string string;
  def : Resource;
  fallback : string;
}.

(** One turn of the loop over the configured resources. *)
Definition index_resource (c : ServerConfig) (s : resourceSet) (r : Resource) : resourceSet :=
  let id := identifierOf c r in
  let s := mkResourceSet (identifiers s ++ [id])%list (<[id := r]> (byID s))
    (<[id := id]> (canonical s)) (def s) (fallback s) in
  if is_empty (Path r) then
    mkResourceSet (identifiers s) (<[id +:+ "/" := r]> (byID s))
      (<[id +:+ "/" := id]> (canonical s)) (def s) (fallback s)
  else s.

(** [None] is the panic of indexing an empty list. *)
Definition newResourceSet (c : ServerConfig) : option resourceSet :=
  match cfg_Resources c with
  | [] => None
  | first :: _ =>
      let s := foldl (index_resource c) (mkResourceSet [] ∅ ∅ first "") (cfg_Resources c) in
      Some (mkResourceSet (identifiers s) (byID s) (canonical s) first (identifierOf c first))
  end.

Definition resourceFor (s : resourceSet) (identifier : string) : Resource :=
  default (def s) (byID s !! identifier).

Inductive resource_error := ErrRepeatedResource | ErrResourceRequired | ErrUnknownResource.

Definition effectiveResource (s : resourceSet) (raw : list string) (required : bool)
    : resource_error + string :=
  match raw with
  | _ :: _ :: _ => inl ErrRepeatedResource
  | [] | [""] => if required then inl ErrResourceRequired else inr (fallback s)
  | [id] =>
      match canonical s !! id with
      | None => inl ErrUnknownResource
      | Some id => inr id
      end
  end.

Definition canonicalSpelling (s : resourceSet) (identifier : string) : string :=
  default identifier (canonical s !! identifier).

(** * Traces *)

(** What the server does to the consent store. *)
Inductive consent_op :=
| OpRemember (k : ConsentKey) (fingerprint : string) (now : Z)
| OpForget (k : ConsentKey)
| OpForgetSubject (subject : string)
| OpRestart (now : Z).

Definition consent_step `{MapRange} (sha256 : string → string) (s : ConsentStore)
    (op : consent_op) : ConsentStore :=
  match op with
  | OpRemember k fingerprint now => (Remember sha256 k fingerprint now s).1
  | OpForget k => (Forget sha256 k s).1
  | OpForgetSubject subject => (ForgetSubject subject s).1
  | OpRestart now => Consent_Restore sha256 now (Consent_Snapshot s) (NewConsentStore (ttl s))
  end.

Definition run_consent `{MapRange} (sha256 : string → string) (s : ConsentStore)
    (ops : list consent_op) : ConsentStore := foldl (consent_step sha256) s ops.

(** Withdraws the approval of [k]. *)
Definition withdraws (k : ConsentKey) (op : consent_op) : Prop :=
  op = OpForget k ∨ op = OpForgetSubject (ck_Subject k).

(** Go strings are shorter than 2^63 bytes. *)
Definition go_length (s : string) : Prop := (N.of_nat (String.length s) < 2 ^ 63)%N.

Definition go_key (k : ConsentKey) : Prop :=
  go_length (ck_Subject k) ∧ go_length (ck_ClientID k) ∧ go_length (ck_Resource k).

Definition op_ok (op : consent_op) : Prop :=
  match op with OpRemember k _ _ | OpForget k => go_key k | _ => True end.

(** * Facts *)

(** ** The hashed bytes *)

Lemma be_bytes_length k n : String.length (be_bytes k n) = k.
Proof.
  revert n. induction k as [|k IH]; intros n; simpl; [done|].
  rewrite str_length_app, IH. simpl. lia.
Qed.

Lemma be_bytes_inj k n m :
  (n < 2 ^ (8 * N.of_nat k))%N → (m < 2 ^ (8 * N.of_nat k))%N → be_bytes k n = be_bytes k m → n = m.
Proof.
  revert n m. induction k as [|k IH]; intros n m Hn Hm; simpl be_bytes.
  - simpl in *. lia.
  - intros H. apply str_app_inj in H as [H1 H2]; [|by rewrite !be_bytes_length].
    injection H2 as H2. apply (f_equal N_of_ascii) in H2.
    rewrite !N_ascii_embedding in H2 by (apply N.mod_lt; lia).
    replace (8 * N.of_nat (S k))%N with (8 * N.of_nat k + 8)%N in * by lia.
    rewrite N.pow_add_r in Hn, Hm. change (2 ^ 8)%N with 256%N in *.
    apply IH in H1; try (apply N.Div0.div_lt_upper_bound; lia).
    rewrite (N.div_mod n 256), (N.div_mod m 256) by lia. congruence.
Qed.

(** A field is read back from the bytes that start with it. *)
Lemma hashField_inj a b x y :
  go_length a → go_length b → hashField a +:+ x = hashField b +:+ y → a = b ∧ x = y.
Proof.
  unfold hashField, go_length. intros Ha Hb. rewrite !str_app_assoc.
  intros H. apply str_app_inj in H as [H1 H2]; [|by rewrite !be_bytes_length].
  apply be_bytes_inj in H1; [|simpl; lia..]. apply str_app_inj in H2; [done|lia].
Qed.

Lemma hashField_nonempty a : hashField a ≠ "".
Proof.
  intros H. apply (f_equal String.length) in H. unfold hashField in H.
  rewrite str_length_app, be_bytes_length in H. simpl in H. lia.
Qed.

Lemma field_bytes_inj l k :
  Forall go_length l → Forall go_length k → field_bytes l = field_bytes k → l = k.
Proof.
  intros Hl. revert k. induction Hl as [|a l Ha Hl IH]; intros [|b k] Hk; simpl; [done|..].
  - intros H. destruct (hashField b) eqn:E; [by apply hashField_nonempty in E|done].
  - intros H. destruct (hashField a) eqn:E; [by apply hashField_nonempty in E|done].
  - apply Forall_cons in Hk as [Hb Hk]. intros [-> H]%hashField_inj; [|done..].
    f_equal. by apply IH.
Qed.

(** ** The store *)

Lemma expired_ttl s s' g n : ttl s = ttl s' → expired s g n = expired s' g n.
Proof. unfold expired. by intros ->. Qed.

Section Store.
Context (sha256 : string → string) `{!Inj (=) (=) sha256}.

Lemma key_hash_inj k1 k2 : go_key k1 → go_key k2 → key_hash sha256 k1 = key_hash sha256 k2 → k1 = k2.
Proof.
  destruct k1 as [a b c], k2 as [a' b' c']. intros (? & ? & ?) (? & ? & ?).
  unfold key_hash, hashFields. intros Heq%(inj sha256).
  apply field_bytes_inj in Heq; [naive_solver|..]; repeat constructor; done.
Qed.

(** Records are filed under their own key. *)
Definition consent_ok (s : ConsentStore) : Prop :=
  ∀ h r, records s !! h = Some r → h = key_hash sha256 (key r).

Lemma Snapshot_perm `{MapRange} s : Consent_Snapshot s ≡ₚ (map_to_list (records s)).*2.
Proof. unfold Consent_Snapshot. by rewrite SortFunc_perm, range_perm. Qed.

Lemma elem_of_Snapshot `{MapRange} s r :
  r ∈ Consent_Snapshot s ↔ ∃ h, records s !! h = Some r.
Proof.
  rewrite Snapshot_perm, list_elem_of_fmap. split.
  - intros ([h r'] & -> & Hin). exists h. by apply elem_of_map_to_list in Hin.
  - intros (h & Hh). exists (h, r). by rewrite elem_of_map_to_list.
Qed.

Definition restore_one (s : ConsentStore) (now : Z) (m : gmap string ConsentRecord)
    (r : ConsentRecord) : gmap string ConsentRecord :=
  if expired s (GrantedAt r) now then m else <[key_hash sha256 (key r) := r]> m.

Lemma restore_sound s now rs m h r :
  foldl (restore_one s now) m rs !! h = Some r →
  m !! h = Some r ∨ r ∈ rs ∧ expired s (GrantedAt r) now = false ∧ h = key_hash sha256 (key r).
Proof.
  revert m. induction rs as [|r' rs IH]; intros m; simpl; [by left|].
  intros [H|(? & ? & ?)]%IH; [|set_solver]. unfold restore_one in H.
  destruct (expired s (GrantedAt r') now) eqn:E; [by left|].
  apply lookup_insert_Some in H as [[<- <-]|[_ H]]; [right; set_solver|by left].
Qed.

Lemma restore_other s now rs m h :
  (∀ r, r ∈ rs → key_hash sha256 (key r) ≠ h) → foldl (restore_one s now) m rs !! h = m !! h.
Proof.
  revert m. induction rs as [|r rs IH]; intros m Hrs; simpl; [done|].
  rewrite IH by set_solver. unfold restore_one. case_match; [done|].
  rewrite lookup_insert_ne; [done|]. apply Hrs. set_solver.
Qed.

Lemma restore_complete s now rs m r :
  (∀ r', r' ∈ rs → key_hash sha256 (key r') = key_hash sha256 (key r) → r' = r) →
  r ∈ rs → expired s (GrantedAt r) now = false →
  foldl (restore_one s now) m rs !! key_hash sha256 (key r) = Some r.
Proof.
  revert m. induction rs as [|r' rs IH]; intros m Hu Hin Hexp; [set_solver|]. simpl.
  destruct (decide (r ∈ rs)) as [Hr|Hr]; [apply IH; set_solver|].
  assert (r' = r) as -> by set_solver. rewrite restore_other.
  - unfold restore_one. by rewrite Hexp, lookup_insert_eq.
  - intros r' Hr' Heq. apply Hr. rewrite <- (Hu r'); set_solver.
Qed.

(** A restart keeps exactly the approvals that have not lapsed. *)
Lemma Restore_lookup `{MapRange} s now h r :
  consent_ok s → Enabled s = true →
  records (Consent_Restore sha256 now (Consent_Snapshot s) s) !! h = Some r ↔
  records s !! h = Some r ∧ expired s (GrantedAt r) now = false.
Proof.
  intros Hok He. unfold Consent_Restore. rewrite He. simpl.
  fold (restore_one s now). split.
  - intros [H'|(Hin & Hexp & ->)]%restore_sound; [done|].
    apply elem_of_Snapshot in Hin as [h Hh]. by rewrite <- (Hok h r Hh).
  - intros [Hh Hexp]. rewrite (Hok h r Hh). apply restore_complete; [|by apply elem_of_Snapshot; eauto|done].
    intros r' [h' Hh']%elem_of_Snapshot Heq.
    rewrite <- (Hok h r Hh), <- (Hok h' r' Hh') in Heq. congruence.
Qed.

Lemma Remember_cases k fp now s :
  (Remember sha256 k fp now s).1 = s ∨
  (Remember sha256 k fp now s).1 = mkConsentStore (ttl s)
    (<[key_hash sha256 k := mkConsentRecord k fp now]> (records s)).
Proof.
  unfold Remember. destruct (Enabled s); [|by left]. simpl.
  match goal with |- context [if ?b then _ else _] => destruct b end; auto.
Qed.

(** ** What a trace keeps *)

(** The approval a record is of: given by the trace at its time, with nothing
    after it that withdraws it. *)
Definition approved (ops : list consent_op) (r : ConsentRecord) : Prop :=
  ∃ pre post, ops = (pre ++ OpRemember (key r) (Fingerprint r) (GrantedAt r) :: post)%list ∧
    Forall (λ op, ¬ withdraws (key r) op) post.

Definition trace_ok (ops : list consent_op) (s : ConsentStore) : Prop :=
  ∀ h r, records s !! h = Some r → h = key_hash sha256 (key r) ∧ go_key (key r) ∧ approved ops r.

Lemma approved_snoc ops r op : approved ops r → ¬ withdraws (key r) op → approved (ops ++ [op]) r.
Proof.
  intros (pre & post & -> & Hpost) Hop. exists pre, (post ++ [op])%list. split.
  - by rewrite <- app_assoc.
  - apply Forall_app. by repeat constructor.
Qed.

Lemma trace_ok_step `{MapRange} ops s op :
  op_ok op → trace_ok ops s → trace_ok (ops ++ [op]) (consent_step sha256 s op).
Proof.
  intros Hop Hok. destruct op as [k fp now|k|subject|now]; simpl.
  - assert (trace_ok (ops ++ [OpRemember k fp now]) s) as Hs.
    { intros h r Hh. destruct (Hok h r Hh) as (? & ? & ?). split_and!; [done..|].
      apply approved_snoc; [done|]. by intros [|]. }
    destruct (Remember_cases k fp now s) as [->| ->]; [done|]. intros h r. simpl.
    intros [[<- <-]|[_ Hh]]%lookup_insert_Some; [|by apply Hs].
    split_and!; [done..|]. by exists ops, [].
  - intros h r. simpl. intros [Hne Hh]%lookup_delete_Some. destruct (Hok h r Hh) as (-> & Hk & ?).
    split_and!; [done..|]. apply approved_snoc; [done|]. intros [Hw|]; [|done].
    injection Hw as ->. done.
  - intros h r. simpl. intros [Hh Hne]%map_lookup_filter_Some. destruct (Hok h r Hh) as (? & ? & ?).
    split_and!; [done..|]. apply approved_snoc; [done|]. intros [|Hw]; [done|].
    injection Hw as ->. done.
  - intros h r. unfold Consent_Restore. case_match; simpl; [done|].
    fold (restore_one (NewConsentStore (ttl s)) now).
    intros [?|(Hin & _ & ->)]%restore_sound; [done|].
    apply elem_of_Snapshot in Hin as [h Hh]. destruct (Hok h r Hh) as (? & ? & ?).
    split_and!; [done..|]. apply approved_snoc; [done|]. by intros [|].
Qed.

Lemma trace_ok_run `{MapRange} ttl ops :
  Forall op_ok ops → trace_ok ops (run_consent sha256 (NewConsentStore ttl) ops).
Proof.
  unfold run_consent. induction ops as [|op ops IH] using rev_ind; [by intros _ h r|].
  intros [Hops [Hop _]%Forall_cons]%Forall_app. rewrite foldl_app. simpl.
  by apply trace_ok_step; [|apply IH].
Qed.

Lemma run_ttl `{MapRange} s ops : ttl (run_consent sha256 s ops) = ttl s.
Proof.
  unfold run_consent. revert s. induction ops as [|op ops IH]; intros s; simpl; [done|].
  rewrite IH. destruct op; simpl; try done.
  - unfold Remember. by repeat case_match.
  - unfold Consent_Restore. by case_match.
Qed.
End Store.

Lemma Snapshot_det (r1 r2 : MapRange) sha256 `{!Inj (=) (=) sha256} s :
  consent_ok sha256 s → @Consent_Snapshot r1 s = @Consent_Snapshot r2 s.
Proof.
  intros Hok. unfold Consent_Snapshot. apply SortFunc_det.
  - apply _.
  - intros x y. rewrite !(range_perm (MapRange := r1)), !list_elem_of_fmap.
    intros ([h x'] & -> & Hx%elem_of_map_to_list) ([h' y'] & -> & Hy%elem_of_map_to_list). simpl.
    unfold record_compare, cmp_or. intros Hc.
    assert (key x' = key y') as Hk.
    { destruct (key x') as [a b c], (key y') as [a' b' c']. simpl in Hc.
      destruct (str_compare a a') eqn:E1; try done. destruct (str_compare b b') eqn:E2; try done.
      apply str_compare_eq in E1, E2, Hc. congruence. }
    rewrite (Hok h x' Hx), Hk, <- (Hok h' y' Hy) in Hx. congruence.
  - by rewrite !range_perm.
Qed.

(** ** Resources *)

(** The index a list of resources builds: every identifier is its own spelling,
    and only the root's has another, with a slash after it. *)
Record resources_ok (c : ServerConfig) (rs : list Resource) (s : resourceSet) : Prop := {
  ro_identifiers : identifiers s = identifierOf c <$> rs;
  ro_canonical id id' : canonical s !! id = Some id' →
    ∃ r, r ∈ rs ∧ id' = identifierOf c r ∧ (id = id' ∨ Path r = "" ∧ id = id' +:+ "/");
  ro_identifier r : r ∈ rs → canonical s !! identifierOf c r = Some (identifierOf c r);
  ro_root r : r ∈ rs → Path r = "" →
    canonical s !! (identifierOf c r +:+ "/") = Some (identifierOf c r);
}.

(** No resource is mounted at the path "/", which is another spelling of the
    root: config.NormalizeBasePath strips a trailing slash. *)
Definition paths_ok (rs : list Resource) : Prop := Forall (λ r, Path r ≠ "/") rs.

Lemma str_app_inj_l a b c : a +:+ b = a +:+ c → b = c.
Proof. intros Heq. by apply str_app_inj in Heq as [_ ?]. Qed.

Lemma identifier_slash c r r' :
  Path r = "" → Path r' ≠ "/" → identifierOf c r' ≠ identifierOf c r +:+ "/".
Proof.
  intros E Hr' Heq. unfold identifierOf in Heq. rewrite E, str_app_nil in Heq.
  by apply str_app_inj_l in Heq.
Qed.

Lemma index_resource_ok c rs s r :
  paths_ok (rs ++ [r]) → resources_ok c rs s →
  resources_ok c (rs ++ [r]) (index_resource c s r).
Proof.
  intros Hp [Hid Hc Hi Hroot]. unfold paths_ok in Hp. rewrite Forall_forall in Hp.
  set (s1 := mkResourceSet (identifiers s ++ [identifierOf c r])%list
    (<[identifierOf c r := r]> (byID s)) (<[identifierOf c r := identifierOf c r]> (canonical s))
    (def s) (fallback s)).
  assert (identifiers s1 = identifierOf c <$> (rs ++ [r])%list) as Hid1
    by (simpl; by rewrite Hid, fmap_app).
  assert (∀ id id', canonical s1 !! id = Some id' → ∃ r', r' ∈ (rs ++ [r])%list ∧
    id' = identifierOf c r' ∧ (id = id' ∨ Path r' = "" ∧ id = id' +:+ "/")) as Hc1.
  { intros id id'. simpl. intros [[<- <-]|[_ H]]%lookup_insert_Some; [exists r; set_solver|].
    destruct (Hc id id' H) as (r' & ? & ?). exists r'. set_solver. }
  assert (∀ r', r' ∈ (rs ++ [r])%list → canonical s1 !! identifierOf c r' = Some (identifierOf c r')) as Hi1.
  { intros r' Hr'. simpl. destruct (decide (identifierOf c r' = identifierOf c r)) as [->|];
      [by rewrite lookup_insert_eq|]. rewrite lookup_insert_ne by done. apply Hi. set_solver. }
  unfold index_resource. fold s1. destruct (is_empty (Path r)) eqn:E; constructor; simpl.
  - exact Hid1.
  - intros id id' [[<- <-]|[_ H]]%lookup_insert_Some; [|by apply Hc1].
    exists r. apply is_empty_spec in E. set_solver.
  - intros r' Hr'. rewrite lookup_insert_ne; [by apply Hi1|]. intros Heq.
    apply is_empty_spec in E. by apply (identifier_slash c r r'); [|apply Hp|].
  - intros r' Hr' E'. destruct (decide (identifierOf c r' = identifierOf c r)) as [->|Hne];
      [by rewrite lookup_insert_eq|]. apply is_empty_spec in E.
    destruct Hne. unfold identifierOf. by rewrite E, E'.
  - exact Hid1.
  - exact Hc1.
  - exact Hi1.
  - intros r' Hr' E'. rewrite lookup_insert_ne.
    + apply Hroot; [|done]. assert (r' ≠ r) by (intros ->; by rewrite E' in E). set_solver.
    + intros Heq. apply (identifier_slash c r' r); [done|apply Hp; set_solver|done].
Qed.

Lemma index_resources_ok c rs d :
  paths_ok rs → resources_ok c rs (foldl (index_resource c) (mkResourceSet [] ∅ ∅ d "") rs).
Proof.
  induction rs as [|r rs IH] using rev_ind; intros Hp.
  - constructor; simpl; [done|intros ??; by rewrite lookup_empty|set_solver..].
  - rewrite foldl_app. simpl. apply index_resource_ok; [done|]. apply IH.
    by apply Forall_app in Hp as [? _].
Qed.

Lemma newResourceSet_ok c s :
  paths_ok (cfg_Resources c) → newResourceSet c = Some s →
  resources_ok c (cfg_Resources c) s ∧
  ∃ first rest, cfg_Resources c = first :: rest ∧ fallback s = identifierOf c first.
Proof.
  unfold newResourceSet. destruct (cfg_Resources c) as [|first rest]; [done|]. intros Hp [= <-].
  split; [|by exists first, rest]. destruct (index_resources_ok c (first :: rest) first Hp).
  by constructor.
Qed.

(** Every accepted spelling resolves. *)
Lemma canonical_of c rs s r x :
  resources_ok c rs s → r ∈ rs →
  x = identifierOf c r ∨ Path r = "" ∧ x = identifierOf c r +:+ "/" →
  canonical s !! x = Some (identifierOf c r).
Proof.
  intros Hok Hr [->|[E ->]]; [by apply (ro_identifier c rs)|by apply (ro_root c rs)].
Qed.

(** * Properties *)

(** No silent authorization without an approval: whatever the server did to
    the store since it was created, if it allows a client through for a key
    and a fingerprint, then this very user approved this very client, looking
    the same, for this resource, within the lease, and nothing after that
    withdrew it. Restarts and expiry neither create nor widen one. *)
Theorem allows_was_approved `{MapRange} (sha256 : string → string) `{!Inj (=) (=) sha256} lease ops k fp now
    (Hops : Forall op_ok ops) (Hk : go_key k)
    (Ha : Allows sha256 k fp now (run_consent sha256 (NewConsentStore lease) ops) = true) :
  ∃ pre post t, ops = (pre ++ OpRemember k fp t :: post)%list ∧
    Forall (λ op, ¬ withdraws k op) post ∧ (0 < lease)%Z ∧ (time_sub now t < lease)%Z.
Proof.
  unfold Allows in Ha. destruct (Enabled _) eqn:He; [|done]. simpl in Ha.
  destruct (records _ !! _) as [r|] eqn:Hr; [|done].
  apply andb_true_iff in Ha as [Hfp%bool_decide_eq_true Hexp%negb_true_iff].
  destruct (trace_ok_run sha256 lease ops Hops _ _ Hr) as (Hh & Hgk & pre & post & Hpre & Hpost).
  apply key_hash_inj in Hh; [|done..]. subst k fp. exists pre, post, (GrantedAt r).
  split_and!; [done..| |].
  - unfold Enabled in He. rewrite run_ttl in He. simpl in He. by apply Z.ltb_lt in He.
  - unfold expired in Hexp. rewrite run_ttl in Hexp. simpl in Hexp. by apply Z.leb_gt in Hexp.
Qed.

(** The bytes that are hashed say what they were made of: two consent keys
    that hash the same bytes are the same user, client and resource, two
    fingerprints that do are of the same name and the same redirect URIs, in
    any order, and no key's bytes are a fingerprint's. So no client-chosen
    byte can make one approval pass for another. *)
Theorem hashed_bytes_unambiguous k1 k2 m1 m2
    (Hk1 : go_key k1) (Hk2 : go_key k2)
    (Hm1 : Forall go_length (ClientName m1 :: RedirectURIs m1))
    (Hm2 : Forall go_length (ClientName m2 :: RedirectURIs m2)) :
  (key_hash id k1 = key_hash id k2 → k1 = k2) ∧
  (consentFingerprint id m1 = consentFingerprint id m2 →
     ClientName m1 = ClientName m2 ∧ RedirectURIs m1 ≡ₚ RedirectURIs m2) ∧
  key_hash id k1 ≠ consentFingerprint id m1.
Proof.
  apply Forall_cons in Hm1 as [Hn1 Hu1], Hm2 as [Hn2 Hu2].
  rewrite <- (SortStrings_perm (RedirectURIs m1)) in Hu1.
  rewrite <- (SortStrings_perm (RedirectURIs m2)) in Hu2.
  destruct Hk1 as (? & ? & ?). split_and!.
  - apply key_hash_inj; try done. apply _.
  - unfold consentFingerprint, hashFields, id. intros Heq.
    apply field_bytes_inj in Heq; [|by repeat constructor..].
    injection Heq as -> Hs. split; [done|].
    by rewrite <- (SortStrings_perm (RedirectURIs m1)), Hs, SortStrings_perm.
  - unfold key_hash, consentFingerprint, hashFields, id. intros Heq.
    apply field_bytes_inj in Heq; [done|by repeat constructor..].
Qed.

(** A restart keeps exactly the approvals that have not lapsed, unchanged,
    and the snapshot written in between does not depend on the order the map
    was ranged over, so an unchanged store rewrites an unchanged file. *)
Theorem consent_restart (r1 r2 : MapRange) (sha256 : string → string) `{!Inj (=) (=) sha256} s now h r
    (Hok : consent_ok sha256 s) (He : Enabled s = true) :
  @Consent_Snapshot r1 s = @Consent_Snapshot r2 s ∧
  (records (Consent_Restore sha256 now (@Consent_Snapshot r1 s) s) !! h = Some r ↔
   records s !! h = Some r ∧ expired s (GrantedAt r) now = false).
Proof. split; [by eapply Snapshot_det|]. by apply Restore_lookup. Qed.

(** The resource a token request binds to, on every branch: a repeat is
    refused; an absent or empty indicator is the first configured resource
    unless one is required; and a single one is accepted exactly when it is
    the identifier of a configured resource, or the root's with a slash after
    it, and then binds to that resource's identifier byte for byte. *)
Theorem effectiveResource_spec c s raw required
    (Hp : paths_ok (cfg_Resources c)) (Hs : newResourceSet c = Some s) :
  match raw with
  | _ :: _ :: _ => effectiveResource s raw required = inl ErrRepeatedResource
  | [] | [""] => ∃ first rest, cfg_Resources c = first :: rest ∧
      effectiveResource s raw required =
        if required then inl ErrResourceRequired else inr (identifierOf c first)
  | [x] => ∀ id, effectiveResource s raw required = inr id ↔
      ∃ r, r ∈ cfg_Resources c ∧ id = identifierOf c r ∧
        (x = identifierOf c r ∨ Path r = "" ∧ x = identifierOf c r +:+ "/")
  end.
Proof.
  destruct (newResourceSet_ok c s Hp Hs) as [Hok (first & rest & Hc & Hf)].
  destruct raw as [|x [|y raw]].
  - exists first, rest. split; [done|]. simpl. by rewrite Hf.
  - destruct x as [|a x]; [exists first, rest; split; [done|]; simpl; by rewrite Hf|].
    intros id. simpl. set (X := String a x). split.
    + intros H. destruct (canonical s !! X) as [id'|] eqn:E; [|done]. injection H as <-.
      destruct (ro_canonical _ _ _ Hok X id' E) as (r & Hr & -> & Hx). by exists r.
    + intros (r & Hr & -> & Hx). by rewrite (canonical_of c _ s r X Hok Hr Hx).
  - by destruct x.
Qed.

(** * Witnesses *)

Definition w_key : ConsentKey := mkConsentKey "alice" "https://cli" "https://c/mcp".

Lemma allows_was_approved_witness :
  ∃ pre post t,
    [OpRemember w_key "fp" 10; OpForgetSubject "bob"; OpRestart 20] =
      (pre ++ OpRemember w_key "fp" t :: post)%list ∧
    Forall (λ op, ¬ withdraws w_key op) post ∧ (0 < 100)%Z ∧ (time_sub 30 t < 100)%Z.
Proof.
  apply (@allows_was_approved map_range_std id _ 100 _ w_key "fp" 30);
    [repeat constructor; vm_compute; reflexivity|by vm_compute|vm_compute; reflexivity].
Defined.

Lemma hashed_bytes_unambiguous_witness :
  key_hash id w_key ≠ consentFingerprint id (mkClientMetadata "cli" ["b"; "a"]).
Proof.
  apply (hashed_bytes_unambiguous w_key w_key (mkClientMetadata "cli" ["b"; "a"])
    (mkClientMetadata "cli" ["a"; "b"])); repeat constructor.
Defined.

Definition w_consent : ConsentStore :=
  mkConsentStore 100 {[ key_hash id w_key := mkConsentRecord w_key "fp" 10 ]}.

Lemma consent_restart_witness :
  records (Consent_Restore id 30 (@Consent_Snapshot map_range_std w_consent) w_consent)
    !! key_hash id w_key = Some (mkConsentRecord w_key "fp" 10).
Proof.
  apply (consent_restart map_range_std map_range_std id w_consent 30); [|reflexivity|].
  - intros h r Hr. change (records w_consent) with
      ({[ key_hash id w_key := mkConsentRecord w_key "fp" 10 ]} : gmap string ConsentRecord) in Hr.
    apply lookup_singleton_Some in Hr as [<- <-]. reflexivity.
  - split; [|reflexivity]. apply lookup_singleton_eq.
Defined.

Definition w_config : ServerConfig :=
  mkServerConfig "https://c" "" [mkResource "" "api" "API"; mkResource "/mcp" "mcp" "MCP"].

Lemma effectiveResource_spec_witness :
  ∃ s, newResourceSet w_config = Some s ∧
    effectiveResource s ["https://c/"] false = inr "https://c".
Proof.
  eexists. split; [reflexivity|].
  apply (effectiveResource_spec w_config _ ["https://c/"] false);
    [by repeat constructor|reflexivity|].
  exists (mkResource "" "api" "API"). split; [apply list_elem_of_here|].
  split; [reflexivity|]. right. split; reflexivity.
Defined.
