(* ===== verification/OAuthServer.v ===== *)
(** The authorization server's endpoints: the authorize, token and revoke
    handlers of internal/oauth/server.go with the CSRF token of consent.go,
    over the stores of OAuthTokens.v and OAuthConsent.v.

    A request comes with what the handler finds when it runs: the clock, the
    identity its session established, what each client's metadata is, and what
    the random source draws. [H] is SHA-256 with its base64 text and [mac] the
    CSRF token's HMAC of a byte string, also as text. An access token is the
    claims and the resource it is minted for; OAuthJwt.v says what a resource
    server makes of one. *)
From S2P Require Import Prelude GoStrings GoStrconv OAuthTokens OAuthConsent.
#[local] Open Scope string_scope.
#[local] Open Scope Z_scope.
#[local] Open Scope list_scope.

(** * What a handler is given *)

(** auth.Identity, as far as these handlers read it. *)
Record Identity := mkIdentity {
  id_Subject : string;
  id_Email : string;
  id_DisplayName : string;
  id_Groups : list string;
  id_Provider : string;
}.

(** An identity derived from a token this server issued. *)
Definition ProviderName : string := "oauth".

(** The settings the handlers read. Without a registry, there is no DCR. *)
Record Settings := mkSettings {
  RequireResourceIndicator : bool;
  CIMDEnabled : bool;
  DCREnabled : bool;
  AccessTokenTTL : Z;
  RefreshTokenTTL : Z;
  HasSigner : bool;
  csrfKey : string;
  resources : resourceSet;
}.

(** [cimd] is what fetching a client's document gives, [registry] what DCR
    holds of it, [snapshot] the provider grants of an identity. *)
Record Env := mkEnv {
  now : Z;
  identity : option Identity;
  cimd : string → option ClientMetadata;
  registry : string → option ClientMetadata;
  snapshot : Identity → string;
  drawn : string;       (* a code, a refresh token or a nonce *)
  drawnGrant : string;  (* a new family's id *)
}.

(** The parameters of an authorization request. [in_body] and [in_query] are
    the values of resource in a form's body and in the URL. *)
Record AuthParams := mkAuthParams {
  response_type : string;
  client_id : string;
  redirect_uri : string;
  code_challenge : string;
  code_challenge_method : string;
  state : string;
  in_query : list string;
  in_body : list string;
}.

Definition first (l : list string) : string := default "" (head l).

(** r.FormValue and r.PostFormValue of resource. *)
Definition resource_any (p : AuthParams) : string := first (in_body p ++ in_query p).
Definition resource_post (p : AuthParams) : string := first (in_body p).

Record ConsentForm := mkConsentForm {
  params : AuthParams;
  decision : string;
  consent_fingerprint : string;
  csrf_token : string;
}.

Record TokenForm := mkTokenForm {
  grant_type : string;
  tf_code : string;
  tf_redirect_uri : string;
  tf_client_id : string;
  code_verifier : string;
  refresh_token : string;
  tf_resource : list string;
}.

(** [None] is a body that does not parse. *)
Inductive request :=
| AuthorizeGET (q : AuthParams)
| AuthorizePOST (cookie : option string) (form : option ConsentForm)
| Token (form : option TokenForm)
| Revoke (token : option string)
| RevokeSubject_ (subject : string).

(** * What it answers *)

Record AccessTokenClaims := mkClaims {
  cl_Subject : string;
  cl_Email : string;
  cl_DisplayName : string;
  cl_Groups : list string;
  cl_Grants : string;
  cl_ClientID : string;
}.

(** What the CSRF token covers. *)
Record consentBinding := mkBinding {
  b_State : string;
  b_Fingerprint : string;
  b_ClientID : string;
  b_RedirectURI : string;
  b_CodeChallenge : string;
  b_CodeChallengeMethod : string;
  b_ResponseType : string;
  b_Resource : string;
}.

(** The consent page, with the nonce its cookie carries. *)
Record consentPage := mkPage {
  pg_Binding : consentBinding;
  pg_Nonce : string;
  pg_CSRFToken : string;
  pg_Verified : bool;
  pg_Subject : string;
  pg_ResourceID : string;
  pg_Meta : ClientMetadata;
}.

Inductive response :=
| ErrorPage (status : Z) (message : string)
| RedirectError (uri state code desc : string)
| ConsentRefusal (status : Z) (message : string)
| Page (page : consentPage)
| RedirectCode (uri state code : string)
| TokenError (status : Z) (code desc : string)
| Tokens (claims : AccessTokenClaims) (aud : string) (refresh : string) (expiresIn : Z)
| Empty (status : Z).

Record Server := mkServer {
  authCodes : AuthCodeStore;
  refreshTokens : RefreshTokenStore;
  consent : ConsentStore;
}.

Definition with_codes (s : Server) (c : AuthCodeStore) : Server := mkServer c (refreshTokens s) (consent s).
Definition with_refresh (s : Server) (r : RefreshTokenStore) : Server := mkServer (authCodes s) r (consent s).
Definition with_consent (s : Server) (c : ConsentStore) : Server := mkServer (authCodes s) (refreshTokens s) c.

Definition NewServer (consentTTL : Z) : Server :=
  mkServer NewAuthCodeStore NewRefreshTokenStore (NewConsentStore consentTTL).

(** * Checks *)

Definition HasRedirectURI (m : ClientMetadata) (uri : string) : bool := bool_decide (uri ∈ RedirectURIs m).

(** The status and message for an identity that may not found a grant. *)
Definition consentRefusal (id : option Identity) : option (Z * string) :=
  match id with
  | None => Some (401, "authentication required")
  | Some id =>
      if bool_decide (id_Provider id = ProviderName)
      then Some (403, "an access token cannot authorize a client; sign in first")
      else None
  end.

Definition cimdDisabledMessage : string := "client ID metadata documents are not enabled".

(** The metadata and whether it is verified, or a message. *)
Definition resolveClientMeta (cfg : Settings) (env : Env) (clientID : string) : ClientMetadata * bool + string :=
  if HasPrefix clientID "https://" then
    if negb (CIMDEnabled cfg) then inr cimdDisabledMessage else
    match cimd env clientID with
    | None => inr "client metadata could not be retrieved"
    | Some m => inl (m, true)
    end
  else if negb (DCREnabled cfg) then inr "dynamic client registration is not enabled" else
  match registry env clientID with
  | None => inr "client not found"
  | Some m => inl (m, false)
  end.

Definition verifier_byte (c : ascii) : bool :=
  let n := nat_of_ascii c in
  ((65 <=? n) && (n <=? 90) || (97 <=? n) && (n <=? 122) || (48 <=? n) && (n <=? 57) ||
   (n =? 45) || (n =? 46) || (n =? 95) || (n =? 126))%nat.

Fixpoint illegal_byte (i : nat) (s : string) : option nat :=
  match s with
  | "" => None
  | String c s => if verifier_byte c then illegal_byte (S i) s else Some i
  end.

(** Its message when it refuses. *)
Definition validateCodeVerifier (v : string) : option string :=
  let n := String.length v in
  if ((n <? 43) || (128 <? n))%nat then
    Some ("code_verifier length " +:+ Itoa (Z.of_nat n) +:+ " outside RFC 7636 range [43,128]")
  else
    match illegal_byte 0 v with
    | Some i => Some ("code_verifier contains illegal character at byte " +:+ Itoa (Z.of_nat i))
    | None => None
    end.

Definition resource_error_text (e : resource_error) : string :=
  match e with
  | ErrRepeatedResource => "only one resource parameter is supported: a token is bound to one resource"
  | ErrResourceRequired => "resource parameter is required"
  | ErrUnknownResource => "resource is not one this server issues tokens for"
  end.

Definition authCodeTTL : Z := 60 * 1000000000.

Definition ConsentKeyOf (d : RefreshTokenData) : ConsentKey :=
  mkConsentKey (rt_Subject d) (rt_ClientID d) (rt_Resource d).

Section handlers.
Context (H : string → string) (mac : string → string → string) (cfg : Settings).

Definition verifySHA256Challenge (verifier challenge : string) : bool :=
  if is_empty verifier || is_empty challenge then false else bool_decide (H verifier = challenge).

Definition binding_fields (b : consentBinding) : list string :=
  [b_State b; b_Fingerprint b; b_ClientID b; b_RedirectURI b; b_CodeChallenge b;
   b_CodeChallengeMethod b; b_ResponseType b; b_Resource b].

Definition csrfMAC (nonce : string) (b : consentBinding) : string :=
  mac (csrfKey cfg) (field_bytes (nonce :: binding_fields b)).

Definition form_binding (f : ConsentForm) : consentBinding :=
  let p := params f in
  mkBinding (state p) (consent_fingerprint f) (client_id p) (redirect_uri p) (code_challenge p)
    (code_challenge_method p) (response_type p) (resource_any p).

Definition verifyCSRFToken (cookie : option string) (f : ConsentForm) : bool :=
  match cookie with
  | None => false
  | Some nonce => bool_decide (csrf_token f = csrfMAC nonce (form_binding f))
  end.

(** * Authorizing *)

Definition issueCodeAndRedirect (env : Env) (meta : ClientMetadata) (code : AuthCodeData) (st : string) (s : Server)
    : response * Server :=
  if negb (HasRedirectURI meta (ac_RedirectURI code)) then
    (ErrorPage 400 "redirect_uri is not registered for this client", s) else
  (RedirectCode (ac_RedirectURI code) st (drawn env),
   with_codes s (AuthCode_Issue H (drawn env) (now env) code authCodeTTL (authCodes s))).

Definition renderConsentPage (env : Env) (id : Identity) (meta : ClientMetadata) (verified : bool) (p : AuthParams)
    (rawResource effective fingerprint : string) : response :=
  let b := mkBinding (state p) fingerprint (client_id p) (redirect_uri p) (code_challenge p)
             (code_challenge_method p) (response_type p) rawResource in
  Page (mkPage b (drawn env) (csrfMAC (drawn env) b) verified (id_Subject id) effective meta).

(** What an approval binds to. *)
Definition code_data (env : Env) (id : Identity) (p : AuthParams) (effective : string) : AuthCodeData :=
  mkAuthCodeData (client_id p) (redirect_uri p) (code_challenge p) effective (id_Subject id) (id_Email id)
    (id_DisplayName id) (id_Groups id) (snapshot env id).

(** The request's own checks, after its client's: an error that redirects, or
    the resource the grant binds to. *)
Definition check_params (p : AuthParams) (resourceAll : list string) : string * string + string :=
  if negb (bool_decide (response_type p = "code")) then
    inl ("unsupported_response_type", "response_type must be code")
  else if is_empty (code_challenge p) then inl ("invalid_request", "code_challenge is required")
  else if negb (bool_decide (code_challenge_method p = "S256")) then
    inl ("invalid_request", "code_challenge_method must be S256")
  else
    match effectiveResource (resources cfg) resourceAll (RequireResourceIndicator cfg) with
    | inl e => inl ("invalid_target", resource_error_text e)
    | inr r => inr r
    end.

Definition handleAuthorizeGET (env : Env) (p : AuthParams) (s : Server) : response * Server :=
  match resolveClientMeta cfg env (client_id p) with
  | inr msg => (ErrorPage 400 msg, s)
  | inl (meta, verified) =>
      if negb (HasRedirectURI meta (redirect_uri p)) then
        (ErrorPage 400 "redirect_uri is not registered for this client", s) else
      match check_params p (in_query p) with
      | inl (code, desc) => (RedirectError (redirect_uri p) (state p) code desc, s)
      | inr effective =>
          match consentRefusal (identity env), identity env with
          | Some (status, refusal), _ => (ConsentRefusal status refusal, s)
          | None, None => (ConsentRefusal 401 "authentication required", s)   (* not reached *)
          | None, Some id =>
              let fingerprint := consentFingerprint H meta in
              let consentKey := mkConsentKey (id_Subject id) (client_id p) effective in
              if verified && Allows H consentKey fingerprint (now env) (consent s) then
                issueCodeAndRedirect env meta (code_data env id p effective) (state p) s
              else
                (renderConsentPage env id meta verified p (first (in_query p)) effective fingerprint, s)
          end
      end
  end.

Definition handleAuthorizePOST (env : Env) (cookie : option string) (form : option ConsentForm) (s : Server)
    : response * Server :=
  match form with
  | None => (ErrorPage 400 "invalid form submission", s)
  | Some f =>
      let p := params f in
      match resolveClientMeta cfg env (client_id p) with
      | inr msg => (ErrorPage 400 msg, s)
      | inl (meta, verified) =>
          if negb (HasRedirectURI meta (redirect_uri p)) then
            (ErrorPage 400 "redirect_uri is not registered for this client", s) else
          if negb (verifyCSRFToken cookie f) then (ErrorPage 400 "invalid or missing CSRF token", s) else
          if bool_decide (decision f = "deny") then
            (RedirectError (redirect_uri p) (state p) "access_denied" "user denied the authorization request", s) else
          match consentRefusal (identity env), identity env with
          | Some (status, refusal), _ => (ConsentRefusal status refusal, s)
          | None, None => (ConsentRefusal 401 "authentication required", s)   (* not reached *)
          | None, Some id =>
              match check_params p (in_body p) with
              | inl (code, desc) => (RedirectError (redirect_uri p) (state p) code desc, s)
              | inr effective =>
                  let fingerprint := consentFingerprint H meta in
                  if negb (bool_decide (fingerprint = consent_fingerprint f)) then
                    (renderConsentPage env id meta verified p (resource_post p) effective fingerprint, s)
                  else
                    let consentKey := mkConsentKey (id_Subject id) (client_id p) effective in
                    let s :=
                      if verified
                      then with_consent s (Remember H consentKey (consent_fingerprint f) (now env) (consent s)).1
                      else s in
                    issueCodeAndRedirect env meta (code_data env id p effective) (state p) s
              end
          end
      end
  end.

(** * Tokens *)

(** What IssueAccessToken asks of its claims and its audience. *)
Definition issuable (claims : AccessTokenClaims) (aud : string) : bool :=
  HasSigner cfg && negb (is_empty (cl_Subject claims)) && negb (is_empty (cl_ClientID claims)) && negb (is_empty aud).

(** The refresh token is produced once the access token exists. *)
Definition respondWithTokens (claims : AccessTokenClaims) (aud : string) (refresh : Server → string * Server) (s : Server)
    : response * Server :=
  if negb (issuable claims aud) then (TokenError 500 "server_error" "failed to issue access token", s) else
  let '(token, s) := refresh s in (Tokens claims aud token (Z.quot (AccessTokenTTL cfg) 1000000000), s).

Definition claims_of_code (d : AuthCodeData) : AccessTokenClaims :=
  mkClaims (ac_Subject d) (ac_Email d) (ac_DisplayName d) (ac_Groups d) (ac_Grants d) (ac_ClientID d).

Definition claims_of_refresh (d : RefreshTokenData) : AccessTokenClaims :=
  mkClaims (rt_Subject d) (rt_Email d) (rt_DisplayName d) (rt_Groups d) (rt_Grants d) (rt_ClientID d).

Definition refresh_of_code (d : AuthCodeData) : RefreshTokenData :=
  mkRefreshTokenData (ac_Subject d) (ac_Email d) (ac_DisplayName d) (ac_Groups d) (ac_Grants d) (ac_ClientID d)
    (ac_Resource d) "".

Definition invalid_grant (desc : string) : response := TokenError 400 "invalid_grant" desc.

(** A resource sent is not the one bound to. *)
Definition other_resource (sent bound : string) : bool :=
  negb (is_empty sent) &&
  negb (bool_decide (canonicalSpelling (resources cfg) sent = canonicalSpelling (resources cfg) bound)).

Definition handleAuthorizationCodeGrant (env : Env) (f : TokenForm) (s : Server) : response * Server :=
  match effectiveResource (resources cfg) (tf_resource f) (RequireResourceIndicator cfg) with
  | inl e => (TokenError 400 "invalid_target" (resource_error_text e), s)
  | inr _ =>
      if is_empty (tf_code f) then (TokenError 400 "invalid_request" "code is required", s) else
      let '(redeemed, codes) := Redeem H (tf_code f) (now env) (authCodes s) in
      let s := with_codes s codes in
      match redeemed with
      | None => (invalid_grant "authorization code is invalid or expired", s)
      | Some d =>
          if negb (bool_decide (tf_client_id f = ac_ClientID d)) then (invalid_grant "client_id mismatch", s) else
          if negb (bool_decide (tf_redirect_uri f = ac_RedirectURI d)) then (invalid_grant "redirect_uri mismatch", s) else
          if other_resource (first (tf_resource f)) (ac_Resource d) then
            (TokenError 400 "invalid_target" "resource does not match authorization code", s) else
          match validateCodeVerifier (code_verifier f) with
          | Some msg => (invalid_grant msg, s)
          | None =>
              if negb (verifySHA256Challenge (code_verifier f) (ac_CodeChallenge d)) then
                (invalid_grant "code_verifier does not match code_challenge", s) else
              respondWithTokens (claims_of_code d) (ac_Resource d)
                (λ s, (drawn env, with_refresh s
                  (Issue H (drawn env) (drawnGrant env) (now env) (refresh_of_code d) (RefreshTokenTTL cfg) (refreshTokens s)))) s
          end
      end
  end.

(** What a live token's grant says against the request, before it is consumed. *)
Definition check_bound (f : TokenForm) (bound : option RefreshTokenData) : option response :=
  match bound with
  | None => None
  | Some d =>
      if other_resource (first (tf_resource f)) (rt_Resource d) then
        Some (TokenError 400 "invalid_target" "resource does not match this grant")
      else if negb (bool_decide (tf_client_id f = rt_ClientID d)) then
        Some (invalid_grant "client_id does not match this grant")
      else None
  end.

Definition handleRefreshTokenGrant (env : Env) (f : TokenForm) (s : Server) : response * Server :=
  if is_empty (tf_client_id f) then (TokenError 400 "invalid_request" "client_id is required", s) else
  match effectiveResource (resources cfg) (tf_resource f) (RequireResourceIndicator cfg) with
  | inl e => (TokenError 400 "invalid_target" (resource_error_text e), s)
  | inr _ =>
      if is_empty (refresh_token f) then (TokenError 400 "invalid_request" "refresh_token is required", s) else
      match check_bound f (Validate H (refresh_token f) (now env) (refreshTokens s)) with
      | Some refusal => (refusal, s)
      | None =>
          let '(result, _, store) := rotate H (drawn env) (refresh_token f) (now env) (RefreshTokenTTL cfg) (refreshTokens s) in
          let s := with_refresh s store in
          if Theft result then
            (invalid_grant "refresh token is invalid",
             with_consent s (Forget H (ConsentKeyOf (rr_Data result)) (consent s)).1)
          else if negb (OK result) then (invalid_grant "refresh token is invalid or expired", s) else
          respondWithTokens (claims_of_refresh (rr_Data result)) (rt_Resource (rr_Data result))
            (λ s, (NewToken result, s)) s
      end
  end.

Definition HandleToken (env : Env) (form : option TokenForm) (s : Server) : response * Server :=
  match form with
  | None => (TokenError 400 "invalid_request" "cannot parse form body", s)
  | Some f =>
      if bool_decide (grant_type f = "authorization_code") then handleAuthorizationCodeGrant env f s
      else if bool_decide (grant_type f = "refresh_token") then handleRefreshTokenGrant env f s
      else if is_empty (grant_type f) then (TokenError 400 "invalid_request" "grant_type is required", s)
      else (TokenError 400 "unsupported_grant_type" "grant_type must be authorization_code or refresh_token", s)
  end.

Definition HandleRevoke (token : option string) (s : Server) : response * Server :=
  match token with
  | None | Some "" => (Empty 200, s)
  | Some token =>
      match revokeGrant H token (refreshTokens s) with
      | (Some d, store) => (Empty 200, with_consent (with_refresh s store) (Forget H (ConsentKeyOf d) (consent s)).1)
      | (None, store) => (Empty 200, with_refresh s store)
      end
  end.

Context `{MapRange}.

Definition RevokeSubject (subject : string) (s : Server) : response * Server :=
  (Empty 200, with_consent (with_refresh s (OAuthTokens.RevokeSubject subject (refreshTokens s)).2)
                (ForgetSubject subject (consent s)).1).

Definition serve (env : Env) (req : request) (s : Server) : response * Server :=
  match req with
  | AuthorizeGET p => handleAuthorizeGET env p s
  | AuthorizePOST cookie form => handleAuthorizePOST env cookie form s
  | Token form => HandleToken env form s
  | Revoke token => HandleRevoke token s
  | RevokeSubject_ subject => RevokeSubject subject s
  end.
End handlers.

(** * Runs *)

Record Step := mkStep { st_env : Env; st_req : request; st_pre : Server; st_resp : response; st_post : Server }.

Lemma around {A} (l1 l2 k1 k2 : list A) x y : l1 ++ x :: l2 = k1 ++ y :: k2 → y ∈ l2 ∨ y = x ∨ x ∈ k2.
Proof.
  revert k1. induction l1 as [|z l1 IH]; intros [|w k1] E; cbn in E; injection E; intros; subst; [by right; left| |right; right; set_solver|eauto].
  left. set_solver.
Qed.

Section runs.
Context (H : string → string) (mac : string → string → string) (cfg : Settings) `{MapRange}.

Definition step_of (env : Env) (req : request) (s : Server) : Step :=
  let '(resp, s') := serve H mac cfg env req s in mkStep env req s resp s'.

(** A server's history, oldest first. *)
Inductive history (s0 : Server) : list Step → Server → Prop :=
| history_nil : history s0 [] s0
| history_snoc tr s env req :
    history s0 tr s → history s0 (tr ++ [step_of env req s]) (st_post (step_of env req s)).

(** An authorization request, with the resources its handler reads. *)
Definition asked (req : request) (p : AuthParams) (all : list string) : Prop :=
  match req with
  | AuthorizeGET q => p = q ∧ all = in_query q
  | AuthorizePOST _ (Some f) => p = params f ∧ all = in_body (params f)
  | _ => False
  end.

(** A request founds the grant [d] for a client that looks like [fp]: it is
    made in a session that is not itself a token's, for a client the server
    knows and one of its redirect URIs, with a PKCE challenge. *)
Definition authorizes (env : Env) (req : request) (d : AuthCodeData) (fp : string) : Prop :=
  ∃ id p all meta verified effective,
    asked req p all ∧ identity env = Some id ∧ id_Provider id ≠ ProviderName ∧
    resolveClientMeta cfg env (client_id p) = inl (meta, verified) ∧ redirect_uri p ∈ RedirectURIs meta ∧
    code_challenge p ≠ "" ∧ code_challenge_method p = "S256" ∧ response_type p = "code" ∧
    effectiveResource (resources cfg) all (RequireResourceIndicator cfg) = inr effective ∧
    fp = consentFingerprint H meta ∧ d = code_data env id p effective.

Definition key_of (d : AuthCodeData) : ConsentKey := mkConsentKey (ac_Subject d) (ac_ClientID d) (ac_Resource d).

(** The user's own approval: the consent form, verified, not denied, of a page
    that showed the client as it looks. *)
Definition approves (env : Env) (req : request) (k : ConsentKey) (fp : string) : Prop :=
  ∃ cookie f d, req = AuthorizePOST cookie (Some f) ∧ authorizes env req d fp ∧ k = key_of d ∧
    verifyCSRFToken mac cfg cookie f = true ∧ decision f ≠ "deny" ∧ consent_fingerprint f = fp.

(** A grant founded at a step, after [pre]: on an approval at that very step,
    or on one remembered from a step before it, within the lease, in the
    store ever since. *)
Definition granted (lease : Z) (pre : list Step) (env : Env) (req : request) (d : AuthCodeData) : Prop :=
  ∃ fp, authorizes env req d fp ∧
  (approves env req (key_of d) fp ∨
   ∃ before b after r, pre = before ++ b :: after ∧ approves (st_env b) (st_req b) (key_of d) fp ∧
     time_sub (now env) (now (st_env b)) < lease ∧ key r = key_of d ∧
     Forall (λ st, records (consent (st_post st)) !! key_hash H (key_of d) = Some r) after).

(** The grant comes from a step of the history. *)
Definition founded (lease : Z) (tr : list Step) (d : AuthCodeData) : Prop :=
  ∃ pre a post, tr = pre ++ a :: post ∧ granted lease pre (st_env a) (st_req a) d.

Definition remembered (tr : list Step) (h : string) (r : ConsentRecord) : Prop :=
  h = key_hash H (key r) ∧
  ∃ before b after, tr = before ++ b :: after ∧ approves (st_env b) (st_req b) (key r) (Fingerprint r) ∧
    GrantedAt r = now (st_env b) ∧ Forall (λ st, records (consent (st_post st)) !! h = Some r) after.

(** What the stores hold, all of it founded. *)
Record sound (lease : Z) (tr : list Step) (s : Server) : Prop := {
  sound_ttl : ttl (consent s) = lease;
  sound_codes h e : authCodes s !! h = Some e → founded lease tr (ac_data e);
  sound_refresh h e : tokens (refreshTokens s) !! h = Some e →
    ∃ d, founded lease tr d ∧ stamp (data e) "" = refresh_of_code d;
  sound_consent h r : records (consent s) !! h = Some r → remembered tr h r;
}.

(** ** What each handler adds *)

Lemma check_params_inr p all eff : check_params cfg p all = inr eff →
  response_type p = "code" ∧ code_challenge p ≠ "" ∧ code_challenge_method p = "S256" ∧
  effectiveResource (resources cfg) all (RequireResourceIndicator cfg) = inr eff.
Proof.
  unfold check_params. case_bool_decide as E1; [|done]. cbn [negb].
  destruct (is_empty (code_challenge p)) eqn:E2; [done|]. case_bool_decide as E3; [|done]. cbn [negb].
  destruct (effectiveResource _ _ _); [done|]. intros [= ->]. split_and!; [done| |done..].
  intros E. by rewrite E in E2.
Qed.

Lemma consentRefusal_None id : consentRefusal id = None → ∃ i, id = Some i ∧ id_Provider i ≠ ProviderName.
Proof. destruct id as [i|]; [|done]. cbn. case_bool_decide; [done|]. eauto. Qed.

Lemma issue_codes raw t (d : AuthCodeData) tt (c : AuthCodeStore) h e :
  AuthCode_Issue H raw t d tt c !! h = Some e → c !! h = Some e ∨ ac_data e = d.
Proof.
  unfold AuthCode_Issue. intros [[_ <-]|[_ E]]%lookup_insert_Some; [by right|]. left.
  by apply map_lookup_filter_Some in E as [E _].
Qed.

(** A GET adds a code to nothing, or one on a remembered approval. *)
Lemma GET_adds env p s resp s' : handleAuthorizeGET H mac cfg env p s = (resp, s') →
  refreshTokens s' = refreshTokens s ∧ consent s' = consent s ∧
  ∀ h e, authCodes s' !! h = Some e → authCodes s !! h = Some e ∨
    ∃ fp, authorizes env (AuthorizeGET p) (ac_data e) fp ∧ Allows H (key_of (ac_data e)) fp (now env) (consent s) = true.
Proof.
  unfold handleAuthorizeGET. destruct (resolveClientMeta cfg env (client_id p)) as [[meta verified]|msg] eqn:Em; [|intros [= _ <-]; auto].
  destruct (HasRedirectURI meta (redirect_uri p)) eqn:Eu; cbn [negb]; [|intros [= _ <-]; auto].
  destruct (check_params cfg p (in_query p)) as [[code desc]|eff] eqn:Ec; [intros [= _ <-]; auto|].
  destruct (consentRefusal (identity env)) as [[? ?]|] eqn:Er; [intros [= _ <-]; auto|].
  apply consentRefusal_None in Er as (id & Ei & Hp). rewrite Ei.
  destruct (verified && Allows H (mkConsentKey (id_Subject id) (client_id p) eff) (consentFingerprint H meta) (now env) (consent s)) eqn:Ea;
    [|intros [= _ <-]; auto].
  apply andb_true_iff in Ea as [_ Ea]. unfold issueCodeAndRedirect. cbn [ac_RedirectURI code_data]. rewrite Eu. cbn [negb].
  intros [= _ <-]. cbn. split_and!; [done..|]. intros h e [?|Hd]%issue_codes; [by left|]. right.
  exists (consentFingerprint H meta). rewrite Hd. split; [|exact Ea].
  apply check_params_inr in Ec as (? & ? & ? & ?). apply bool_decide_eq_true in Eu.
  exists id, p, (in_query p), meta, verified, eff. by split_and!.
Qed.

Lemma Remember_adds k fp t (c : ConsentStore) h r :
  records (Remember H k fp t c).1 !! h = Some r → records c !! h = Some r ∨ r = mkConsentRecord k fp t ∧ h = key_hash H k.
Proof.
  unfold Remember. destruct (Enabled c); cbn [negb]; [|by left].
  case_match; [by left|]. cbn. intros [[<- <-]|[_ E]]%lookup_insert_Some; [by right|by left].
Qed.

Lemma Remember_ttl k fp t (c : ConsentStore) : ttl (Remember H k fp t c).1 = ttl c.
Proof. unfold Remember. destruct (Enabled c); cbn [negb]; [|done]. by case_match. Qed.

(** A POST adds a code, and an approval to the store, on an approval. *)
Lemma POST_adds env cookie form s resp s' : handleAuthorizePOST H mac cfg env cookie form s = (resp, s') →
  refreshTokens s' = refreshTokens s ∧ ttl (consent s') = ttl (consent s) ∧
  (∀ h e, authCodes s' !! h = Some e → authCodes s !! h = Some e ∨
    ∃ fp, authorizes env (AuthorizePOST cookie form) (ac_data e) fp ∧
          approves env (AuthorizePOST cookie form) (key_of (ac_data e)) fp) ∧
  (∀ h r, records (consent s') !! h = Some r → records (consent s) !! h = Some r ∨
    h = key_hash H (key r) ∧ GrantedAt r = now env ∧ approves env (AuthorizePOST cookie form) (key r) (Fingerprint r)).
Proof.
  unfold handleAuthorizePOST. destruct form as [f|]; [|intros [= _ <-]; auto].
  destruct (resolveClientMeta cfg env (client_id (params f))) as [[meta verified]|msg] eqn:Em; [|intros [= _ <-]; auto].
  destruct (HasRedirectURI meta (redirect_uri (params f))) eqn:Eu; cbn [negb]; [|intros [= _ <-]; auto].
  destruct (verifyCSRFToken mac cfg cookie f) eqn:Ev; cbn [negb]; [|intros [= _ <-]; auto].
  case_bool_decide as Ed; [intros [= _ <-]; auto|].
  destruct (consentRefusal (identity env)) as [[? ?]|] eqn:Er; [intros [= _ <-]; auto|].
  apply consentRefusal_None in Er as (id & Ei & Hp). rewrite Ei.
  destruct (check_params cfg (params f) (in_body (params f))) as [[code desc]|eff] eqn:Ec; [intros [= _ <-]; auto|].
  case_bool_decide as Ef; cbn [negb]; [|intros [= _ <-]; auto].
  set (d := code_data env id (params f) eff). set (req := AuthorizePOST cookie (Some f)).
  assert (authorizes env req d (consentFingerprint H meta)) as Ha.
  { apply check_params_inr in Ec as (? & ? & ? & ?). apply bool_decide_eq_true in Eu.
    exists id, (params f), (in_body (params f)), meta, verified, eff. by split_and!. }
  assert (approves env req (key_of d) (consentFingerprint H meta)) as Hap by (exists cookie, f, d; by split_and!).
  unfold issueCodeAndRedirect. change (ac_RedirectURI d) with (redirect_uri (params f)). rewrite Eu. cbn [negb].
  intros [= _ <-]. cbn [refreshTokens consent authCodes with_codes]. split_and!.
  - by destruct verified.
  - destruct verified; [apply Remember_ttl|done].
  - intros h e Hc. assert (authCodes s !! h = Some e ∨ ac_data e = d) as [?|Hd]; [|by left|].
    { destruct verified; by apply issue_codes in Hc. }
    right. exists (consentFingerprint H meta). by rewrite Hd.
  - intros h r Hr. destruct verified; [|by left]. cbn in Hr. rewrite <-Ef in Hr.
    apply Remember_adds in Hr as [?|[-> ->]]; [by left|]. right. by split_and!.
Qed.

(** ** The token stores *)

Lemma revokeGrantLocked_sub id (st : RefreshTokenStore) h e :
  tokens (revokeGrantLocked id st).2 !! h = Some e → tokens st !! h = Some e.
Proof.
  unfold revokeGrantLocked. destruct (foldl revoke_hash (no_data, st) (default [] (grants st !! id))) as [o st'] eqn:E.
  cbn. replace st' with (foldl revoke_hash (no_data, st) (default [] (grants st !! id))).2 by (by rewrite E).
  rewrite revoke_hashes_tokens. by case_decide.
Qed.

(** Rotating carries a grant's data over, and hands out that of a live token. *)
Lemma rotate_data raw old t ttl0 (st : RefreshTokenStore) :
  let '(res, _, st') := rotate H raw old t ttl0 st in
  (∀ h e, tokens st' !! h = Some e → ∃ h0 e0, tokens st !! h0 = Some e0 ∧ data e = data e0) ∧
  (OK res = true → ∃ h0 e0, tokens st !! h0 = Some e0 ∧ rr_Data res = data e0).
Proof.
  unfold rotate. destruct (consumed st !! H old) as [id|].
  { destruct (revokeGrantLocked id st) as [o st'] eqn:E. split; [|done]. intros h e He. exists h, e. split; [|done].
    apply (revokeGrantLocked_sub id). by rewrite E. }
  destruct (tokens st !! H old) as [entry|] eqn:Eo; [|split; [eauto|done]].
  destruct (time_after t (expiresAt entry)).
  { destruct (revokeGrantLocked (grantID (data entry)) st) as [o st'] eqn:E. split; [|done]. intros h e He. exists h, e.
    split; [|done]. apply (revokeGrantLocked_sub (grantID (data entry))). by rewrite E. }
  destruct (push_history _ _) as [evicted kept]. cbn. split; [|eauto].
  intros h e [[_ <-]|[_ He]]%lookup_insert_Some; [by eauto|]. apply lookup_delete_Some in He as [_ He]. eauto.
Qed.

Lemma RevokeSubject_sub subject (st : RefreshTokenStore) h e :
  tokens (OAuthTokens.RevokeSubject subject st).2 !! h = Some e → tokens st !! h = Some e.
Proof.
  unfold OAuthTokens.RevokeSubject. cbn. generalize ((λ '(_, e), grantID (data e)) <$> filter (λ '(_, e), rt_Subject (data e) = subject) (range (tokens st))).
  intros ids. revert st. induction ids as [|id ids IH]; intros st; [done|]. cbn. intros E%IH. by apply revokeGrantLocked_sub in E.
Qed.

Lemma Issue_adds raw id t d ttl0 (st : RefreshTokenStore) h e :
  tokens (Issue H raw id t d ttl0 st) !! h = Some e → tokens st !! h = Some e ∨ data e = stamp d id.
Proof. unfold Issue. cbn. intros [[_ <-]|[_ E]]%lookup_insert_Some; [by right|by left]. Qed.

Lemma Forget_sub k (c : ConsentStore) h r : records (Forget H k c).1 !! h = Some r → records c !! h = Some r.
Proof. cbn. by intros [_ E]%lookup_delete_Some. Qed.

(** What a request to the other endpoints leaves: no more codes or approvals;
    a refresh token of a code's grant or of one it had; and what it answers is
    of such a grant. *)
Definition derived (s : Server) (d : RefreshTokenData) : Prop :=
  (∃ h e, authCodes s !! h = Some e ∧ stamp d "" = refresh_of_code (ac_data e)) ∨
  (∃ h e, tokens (refreshTokens s) !! h = Some e ∧ stamp d "" = stamp (data e) "").

Definition carries_over (s s' : Server) : Prop :=
  ttl (consent s') = ttl (consent s) ∧
  (∀ h e, authCodes s' !! h = Some e → authCodes s !! h = Some e) ∧
  (∀ h r, records (consent s') !! h = Some r → records (consent s) !! h = Some r) ∧
  (∀ h e, tokens (refreshTokens s') !! h = Some e → derived s (data e)).

Definition answers_of (s : Server) (resp : response) : Prop :=
  match resp with
  | Tokens claims aud _ _ => ∃ d, derived s d ∧ claims = claims_of_refresh d ∧ aud = rt_Resource d
  | _ => True
  end.

Lemma carries_refl s : carries_over s s.
Proof. split_and!; [done..|]. intros h e He. right. by eauto. Qed.

Lemma codes_sub (c c' : AuthCodeStore) code t r : Redeem H code t c = (r, c') →
  (∀ h e, c' !! h = Some e → c !! h = Some e) ∧ ∀ d, r = Some d → ∃ h e, c !! h = Some e ∧ ac_data e = d.
Proof.
  unfold Redeem. intros [= <- <-]. split; [by intros h e [_ E]%lookup_delete_Some|].
  intros d. destruct (c !! H code) as [e|] eqn:E; [|done]. case_match; [done|]. intros [= <-]. eauto.
Qed.

Lemma code_grant_carries env f s resp s' : handleAuthorizationCodeGrant H cfg env f s = (resp, s') →
  carries_over s s' ∧ answers_of s resp.
Proof.
  unfold handleAuthorizationCodeGrant. pose proof (carries_refl s) as R.
  destruct (effectiveResource _ _ _); [by intros [= <- <-]|]. destruct (is_empty (tf_code f)); [by intros [= <- <-]|].
  destruct (Redeem H (tf_code f) (now env) (authCodes s)) as [redeemed codes] eqn:E.
  apply codes_sub in E as [Hsub Hd].
  assert (carries_over s (with_codes s codes)) as Rc.
  { destruct R as (R1 & R2 & R3 & R4). by split_and!. }
  destruct redeemed as [d|]; [|by intros [= <- <-]]. destruct (Hd d eq_refl) as (h0 & e0 & He0 & <-).
  case_bool_decide; cbn [negb]; [|by intros [= <- <-]]. case_bool_decide; cbn [negb]; [|by intros [= <- <-]].
  destruct (other_resource _ _ _); [by intros [= <- <-]|]. destruct (validateCodeVerifier _); [by intros [= <- <-]|].
  destruct (verifySHA256Challenge _ _ _); cbn [negb]; [|by intros [= <- <-]].
  unfold respondWithTokens. destruct (issuable _ _ _); cbn [negb]; [|by intros [= <- <-]].
  assert (∀ id, derived s (stamp (refresh_of_code (ac_data e0)) id)) as Dv by (intros id; left; by exists h0, e0).
  intros [= <- <-]. split.
  - destruct Rc as (R1 & R2 & R3 & R4). split_and!; [done..|]. intros h e [Ht|Hn]%Issue_adds; [by apply (R4 h e)|].
    rewrite Hn. apply Dv.
  - exists (refresh_of_code (ac_data e0)). split; [apply (Dv "")|done].
Qed.

Lemma refresh_grant_carries env f s resp s' : handleRefreshTokenGrant H cfg env f s = (resp, s') →
  carries_over s s' ∧ answers_of s resp.
Proof.
  unfold handleRefreshTokenGrant. pose proof (carries_refl s) as R. destruct R as (R1 & R2 & R3 & R4).
  destruct (is_empty (tf_client_id f)); [by intros [= <- <-]|]. destruct (effectiveResource _ _ _); [by intros [= <- <-]|].
  destruct (is_empty (refresh_token f)); [by intros [= <- <-]|].
  destruct (check_bound cfg f _) as [refusal|] eqn:Eb.
  { intros [= <- <-]. split; [done|]. revert Eb. unfold check_bound. destruct (Validate _ _ _ _); [|done].
    destruct (other_resource _ _ _); [by intros [= <-]|]. case_bool_decide; [done|]. by intros [= <-]. }
  pose proof (rotate_data (drawn env) (refresh_token f) (now env) (RefreshTokenTTL cfg) (refreshTokens s)) as Hr.
  destruct (rotate _ _ _ _ _ _) as [[result w] store]. destruct Hr as [Htok Hdata].
  assert (∀ h e, tokens store !! h = Some e → derived s (data e)) as Hst.
  { intros h e (h0 & e0 & He0 & Ed)%Htok. right. exists h0, e0. by rewrite Ed. }
  destruct (Theft result).
  { intros [= <- <-]. split; [|done]. split_and!; [done..| |done]. intros h r Hr%Forget_sub. done. }
  destruct (OK result) eqn:Eok; cbn [negb]; [|by intros [= <- <-]].
  unfold respondWithTokens. destruct (issuable _ _ _); cbn [negb]; intros [= <- <-]; [|by split].
  split; [by split_and!|]. destruct (Hdata eq_refl) as (h0 & e0 & He0 & Ed). exists (rr_Data result).
  split; [|done]. right. exists h0, e0. by rewrite Ed.
Qed.

Lemma token_carries env form s resp s' : HandleToken H cfg env form s = (resp, s') →
  carries_over s s' ∧ answers_of s resp.
Proof.
  pose proof (carries_refl s) as R. unfold HandleToken. destruct form as [f|]; [|by intros [= <- <-]].
  case_bool_decide; [apply code_grant_carries|]. case_bool_decide; [apply refresh_grant_carries|].
  destruct (is_empty _); by intros [= <- <-].
Qed.

Lemma revoke_carries token s resp s' : HandleRevoke H token s = (resp, s') → carries_over s s' ∧ answers_of s resp.
Proof.
  pose proof (carries_refl s) as R. unfold HandleRevoke. destruct token as [[|c t]|]; [by intros [= <- <-]| |by intros [= <- <-]].
  set (token := String c t). destruct R as (R1 & R2 & R3 & R4). destruct (revokeGrant H token (refreshTokens s)) as [o store] eqn:E.
  assert (∀ h e, tokens store !! h = Some e → derived s (data e)) as Hst.
  { revert E. unfold revokeGrant. case_match; [intros [= _ <-]; apply R4|].
    match goal with |- context [revokeGrantLocked ?i ?st] => pose proof (revokeGrantLocked_sub i st) as Hs; destruct (revokeGrantLocked i st) end.
    intros [= _ <-] h e He%Hs. by apply (R4 h e). }
  destruct o as [d|]; intros [= <- <-]; (split; [|done]); split_and!; try done.
  intros h r Hr%Forget_sub. done.
Qed.

Lemma revokeSubject_carries subject s resp s' : RevokeSubject subject s = (resp, s') → carries_over s s' ∧ answers_of s resp.
Proof.
  intros [= <- <-]. split; [|done]. destruct (carries_refl s) as (R1 & R2 & R3 & R4). split_and!; [done..| |].
  - intros h r. cbn. by intros [E _]%map_lookup_filter_Some.
  - intros h e E. cbn in E. apply RevokeSubject_sub in E. by apply (R4 h e).
Qed.

(** ** The history's invariant *)

Lemma founded_snoc lease tr st d : founded lease tr d → founded lease (tr ++ [st]) d.
Proof. intros (pre & a & post & -> & Hg). exists pre, a, (post ++ [st]). by rewrite <-app_assoc. Qed.

Lemma founded_last lease tr st d : granted lease tr (st_env st) (st_req st) d → founded lease (tr ++ [st]) d.
Proof. intros Hg. exists tr, st, []. done. Qed.

Lemma remembered_snoc tr st h r :
  remembered tr h r → records (consent (st_post st)) !! h = Some r → remembered (tr ++ [st]) h r.
Proof.
  intros (-> & before & b & after & -> & Ha & Hg & Hk) Hst. split; [done|]. exists before, b, (after ++ [st]).
  rewrite <-app_assoc. split_and!; [done..|]. by apply Forall_app_2; [|constructor].
Qed.

(** The keys of a step's approvals and authorizations are of Go strings. *)
Definition step_keys_ok (st : Step) : Prop :=
  ∀ d fp, authorizes (st_env st) (st_req st) d fp → go_key (key_of d).

Lemma approves_authorizes env req k fp : approves env req k fp → ∃ d, authorizes env req d fp ∧ k = key_of d.
Proof. intros (cookie & f & d & _ & ? & ? & _). eauto. Qed.

Section provenance.
Context `{!Inj (=) (=) H} (lease : Z).

(** What Allows lets through was approved. *)
Lemma allowed_granted tr s env req d fp : sound lease tr s → Forall step_keys_ok tr → go_key (key_of d) →
  authorizes env req d fp → Allows H (key_of d) fp (now env) (consent s) = true → granted lease tr env req d.
Proof using Inj0.
  intros Hs Hgo Hk Ha Hal. exists fp. split; [done|]. right. unfold Allows in Hal.
  destruct (Enabled (consent s)); [|done]. cbn [negb] in Hal.
  destruct (records (consent s) !! key_hash H (key_of d)) as [r|] eqn:Er; [|done].
  apply andb_true_iff in Hal as [Hfp%bool_decide_eq_true Hexp%negb_true_iff].
  destruct (sound_consent _ _ _ Hs _ _ Er) as (Hh & before & b & after & -> & Hap & Hg & Hkept).
  assert (key_of d = key r) as E.
  { apply (key_hash_inj H); [done| |done]. apply approves_authorizes in Hap as (d' & Hd' & ->).
    apply Forall_app in Hgo as [_ Hgo]. apply Forall_cons in Hgo as [Hb _]. by apply (Hb d' (Fingerprint r)). }
  exists before, b, after, r. rewrite E, <-Hfp. split_and!; [done..| |done|by rewrite <-Hh, E in Hkept || (rewrite <-E; done)].
  unfold expired in Hexp. rewrite (sound_ttl _ _ _ Hs), Hg in Hexp. by apply Z.leb_gt in Hexp.
Qed.

Lemma serve_adds env req s :
  let '(resp, s') := serve H mac cfg env req s in
  (carries_over s s' ∧ answers_of s resp) ∨
  (refreshTokens s' = refreshTokens s ∧ ttl (consent s') = ttl (consent s) ∧ answers_of s resp ∧
   (∀ h e, authCodes s' !! h = Some e → authCodes s !! h = Some e ∨
     ∃ fp, authorizes env req (ac_data e) fp ∧
       (approves env req (key_of (ac_data e)) fp ∨ Allows H (key_of (ac_data e)) fp (now env) (consent s) = true)) ∧
   (∀ h r, records (consent s') !! h = Some r → records (consent s) !! h = Some r ∨
     h = key_hash H (key r) ∧ GrantedAt r = now env ∧ approves env req (key r) (Fingerprint r))).
Proof using Type.
  destruct (serve H mac cfg env req s) as [resp s'] eqn:E. destruct req as [p|cookie form|form|token|subject]; cbn [serve] in E.
  - right. assert (answers_of s resp) as Hans.
    { revert E. unfold handleAuthorizeGET, issueCodeAndRedirect, renderConsentPage. repeat case_match; by intros [= <- <-]. }
    apply GET_adds in E as (-> & -> & Hc). split_and!; [done..| |by left].
    intros h e He. destruct (Hc h e He) as [?|(fp & ? & ?)]; [by left|]. right. exists fp. split; [done|by right].
  - right. assert (answers_of s resp) as Hans.
    { revert E. unfold handleAuthorizePOST, issueCodeAndRedirect, renderConsentPage. repeat case_match; by intros [= <- <-]. }
    apply POST_adds in E as (-> & -> & Hc & Hr). split_and!; [done..| |exact Hr].
    intros h e He. destruct (Hc h e He) as [?|(fp & ? & ?)]; [by left|]. right. exists fp. split; [done|by left].
  - left. by apply token_carries in E.
  - left. by apply revoke_carries in E.
  - left. by apply revokeSubject_carries in E.
Qed.

(** A record an approval puts in the store is remembered from there. *)
Lemma remembered_last tr st h r : h = key_hash H (key r) → approves (st_env st) (st_req st) (key r) (Fingerprint r) →
  GrantedAt r = now (st_env st) → remembered (tr ++ [st]) h r.
Proof using Type. intros -> ? ?. split; [done|]. exists tr, st, []. by split_and!. Qed.

Lemma derived_founded tr s d : sound lease tr s → derived s d → ∃ c, founded lease tr c ∧ stamp d "" = refresh_of_code c.
Proof using Type.
  intros Hs [(h & e & He & E)|(h & e & He & E)].
  - exists (ac_data e). split; [by eapply sound_codes|done].
  - destruct (sound_refresh _ _ _ Hs h e He) as (c & Hc & Ec). exists c. by rewrite E.
Qed.

Lemma step_sound tr s env req : sound lease tr s → Forall step_keys_ok (tr ++ [step_of env req s]) →
  sound lease (tr ++ [step_of env req s]) (st_post (step_of env req s)).
Proof using Inj0.
  intros Hs [Hgo Hst]%Forall_app. apply Forall_cons in Hst as [Hst _]. pose proof (serve_adds env req s) as A. revert Hst.
  unfold step_of. destruct (serve H mac cfg env req s) as [resp s'].
  set (st := mkStep env req s resp s'). cbn [st_post]. intros Hst.
  destruct A as [[(Ht & Hc & Hr & Hf) _]|(Hf & Ht & _ & Hc & Hr)].
  - constructor.
    + cbn [st_post st]. rewrite Ht. by eapply sound_ttl.
    + intros h e He. apply founded_snoc. by eapply (sound_codes _ _ _ Hs), Hc.
    + intros h e He%Hf. destruct (derived_founded tr s _ Hs He) as (c & Hcf & E). exists c. split; [by apply founded_snoc|done].
    + intros h r Hrec. apply remembered_snoc; [by eapply (sound_consent _ _ _ Hs), Hr|done].
  - constructor.
    + cbn [st_post st]. rewrite Ht. by eapply sound_ttl.
    + intros h e He. destruct (Hc h e He) as [?|(fp & Ha & Hap)]; [by eapply founded_snoc, (sound_codes _ _ _ Hs)|].
      apply founded_last. cbn [st_env st_req]. destruct Hap as [Hap|Hal]; [exists fp; split; [done|by left]|].
      eapply allowed_granted; [done..|by apply (Hst _ fp)|done|done].
    + cbn [st_post st]. rewrite Hf. intros h e He. destruct (sound_refresh _ _ _ Hs h e He) as (c & Hcf & E). exists c. split; [by apply founded_snoc|done].
    + intros h r Hrec. destruct (Hr h r Hrec) as [?|(Hh & Hg & Hap)].
      * apply remembered_snoc; [by eapply (sound_consent _ _ _ Hs)|done].
      * by apply remembered_last.
Qed.

Lemma history_sound tr s : history (NewServer lease) tr s → Forall step_keys_ok tr → sound lease tr s.
Proof using Inj0.
  induction 1 as [|tr s env req Hh IH].
  - intros _. constructor; [done|..]; intros h x E;
      change ((∅ : gmap string _) !! h = Some x) in E; by rewrite lookup_empty in E.
  - intros Hgo. apply step_sound; [|done]. apply IH. by apply Forall_app in Hgo as [? _].
Qed.

(** Any step of a history is served in the state its prefix leaves. *)
Lemma history_split s0 pre st post s : history s0 (pre ++ st :: post) s →
  ∃ s1, history s0 pre s1 ∧ st = step_of (st_env st) (st_req st) s1.
Proof using Type.
  remember (pre ++ st :: post) as tr eqn:E. intros Hh. revert post E. induction Hh as [|tr s env req Hh IH]; intros post E.
  - by apply app_cons_not_nil in E.
  - destruct post as [|x post _] using rev_ind.
    + apply app_inj_tail in E as [-> <-]. exists s. split; [done|].
      assert (st_env (step_of env req s) = env ∧ st_req (step_of env req s) = req) as [-> ->]; [|done].
      unfold step_of. by destruct (serve H mac cfg env req s).
    + rewrite app_comm_cons, app_assoc in E. apply app_inj_tail in E as [-> _]. by apply (IH post).
Qed.

(** A code is redeemed by the client it was issued to, at the redirect URI it
    was sent to, with the verifier its challenge was made from. *)
Lemma code_grant_pkce env f s claims aud refresh exp s' :
  handleAuthorizationCodeGrant H cfg env f s = (Tokens claims aud refresh exp, s') →
  ∃ h e, authCodes s !! h = Some e ∧ claims = claims_of_code (ac_data e) ∧ aud = ac_Resource (ac_data e) ∧
    tf_client_id f = ac_ClientID (ac_data e) ∧ tf_redirect_uri f = ac_RedirectURI (ac_data e) ∧
    H (code_verifier f) = ac_CodeChallenge (ac_data e) ∧ (43 <= String.length (code_verifier f))%nat.
Proof using Type.
  unfold handleAuthorizationCodeGrant. destruct (effectiveResource _ _ _); [done|]. destruct (is_empty (tf_code f)); [done|].
  destruct (Redeem H (tf_code f) (now env) (authCodes s)) as [redeemed codes] eqn:E. apply codes_sub in E as [_ Hd].
  destruct redeemed as [d|]; [|done]. destruct (Hd d eq_refl) as (h & e & He & <-).
  case_bool_decide as E1; cbn [negb]; [|done]. case_bool_decide as E2; cbn [negb]; [|done].
  destruct (other_resource _ _ _); [done|]. destruct (validateCodeVerifier (code_verifier f)) eqn:Ev; [done|].
  destruct (verifySHA256Challenge H (code_verifier f) _) eqn:Es; cbn [negb]; [|done].
  unfold respondWithTokens. destruct (issuable _ _ _); cbn [negb]; [|done]. intros [= <- <- _ _ _]. exists h, e.
  unfold verifySHA256Challenge in Es. destruct (_ || _); [done|]. apply bool_decide_eq_true in Es.
  unfold validateCodeVerifier in Ev. destruct (Nat.ltb_spec (String.length (code_verifier f)) 43); [done|].
  by split_and!.
Qed.

Lemma code_request req : (∃ f, req = Token (Some f) ∧ grant_type f = "authorization_code") ∨
  ∀ f, req = Token (Some f) → grant_type f ≠ "authorization_code".
Proof using Type.
  destruct req as [p|cookie form|[f|]|token|subject]; try by right.
  destruct (decide (grant_type f = "authorization_code")); [left; eauto|right]. by intros ? [= <-].
Qed.

(** C2: every access token goes back to a user's own approval. Whatever was
    asked of the server since it started — authorizations, redemptions,
    refreshes, revocations, in any order — a token it issues carries the
    identity of a session that is not itself a token's, in which the client
    was authorized for the resource the token names, to a redirect URI of its,
    with a PKCE challenge: on a consent form verified and not denied, for the
    client as it looked, at that step or remembered, unwithdrawn, from one
    within the lease. That is of the approval when the code was issued: one withdrawn
    later leaves a code that is out to be redeemed, and another grant's tokens to
    be refreshed. A token for a code went to the client and the redirect
    URI of the code, for the challenge's verifier. *)
Theorem tokens_were_approved tr s pre st post claims aud refresh exp :
  history (NewServer lease) tr s → Forall step_keys_ok tr →
  tr = pre ++ st :: post → st_resp st = Tokens claims aud refresh exp →
  ∃ d, founded lease pre d ∧ claims = claims_of_code d ∧ aud = ac_Resource d ∧
    ∀ f, st_req st = Token (Some f) → grant_type f = "authorization_code" →
      tf_client_id f = ac_ClientID d ∧ tf_redirect_uri f = ac_RedirectURI d ∧
      H (code_verifier f) = ac_CodeChallenge d ∧ (43 <= String.length (code_verifier f))%nat.
Proof using Inj0.
  intros Hh Hgo -> Hresp. apply history_split in Hh as (s1 & Hpre & Hst).
  apply Forall_app in Hgo as [Hgo _]. pose proof (history_sound pre s1 Hpre Hgo) as Hs.
  pose proof (serve_adds (st_env st) (st_req st) s1) as A. rewrite Hst in Hresp. unfold step_of in Hresp.
  destruct (serve H mac cfg (st_env st) (st_req st) s1) as [resp s'] eqn:Es. cbn [st_resp] in Hresp. subst resp.
  destruct (code_request (st_req st)) as [(f & Hf & Hg)|Hn].
  - rewrite Hf in Es. cbn [serve] in Es. unfold HandleToken in Es. rewrite bool_decide_true in Es by done.
    apply code_grant_pkce in Es as (h & e & He & -> & -> & Hpkce). exists (ac_data e).
    split_and!; [by eapply sound_codes|done..|]. intros f' Hf' _. rewrite Hf in Hf'. by injection Hf' as <-.
  - assert (answers_of s1 (Tokens claims aud refresh exp)) as (d & Hd & -> & ->) by (by destruct A as [[_ A]|(_ & _ & A & _)]).
    destruct (derived_founded pre s1 d Hs Hd) as (c & Hc & E). exists c.
    split_and!; [done|by destruct d, c; injection E; intros; subst|by destruct d, c; injection E; intros; subst|].
    intros f Hf Hg. by apply Hn in Hf.
Qed.

(** ** Withdrawing an approval *)

(** A revoked token, a rotated one presented again, or a subject withdrawn. *)
Inductive withdraws_step (st : Step) (k : ConsentKey) : Prop :=
| withdraws_revoked token d store :
    st_req st = Revoke (Some token) → token ≠ "" →
    revokeGrant H token (refreshTokens (st_pre st)) = (Some d, store) → k = ConsentKeyOf d → withdraws_step st k
| withdraws_stolen f id :
    st_req st = Token (Some f) → grant_type f = "refresh_token" → tf_client_id f ≠ "" → refresh_token f ≠ "" →
    (∀ e, effectiveResource (resources cfg) (tf_resource f) (RequireResourceIndicator cfg) ≠ inl e) →
    tokens (refreshTokens (st_pre st)) !! H (refresh_token f) = None →
    consumed (refreshTokens (st_pre st)) !! H (refresh_token f) = Some id →
    k = ConsentKeyOf (revokeGrantLocked id (refreshTokens (st_pre st))).1 → withdraws_step st k
| withdraws_subject : st_req st = RevokeSubject_ (ck_Subject k) → withdraws_step st k.

Lemma is_empty_nonempty t : t ≠ "" → is_empty t = false.
Proof using Type. by destruct t. Qed.

(** After it, the store holds no approval of that key. *)
Lemma withdrawn_gone st s k : st = step_of (st_env st) (st_req st) s →
  withdraws_step st k → ∀ r, records (consent (st_post st)) !! key_hash H k = Some r → key r ≠ k.
Proof using Type.
  intros Hst Hw r. assert (st_pre st = s) as Hpre by (rewrite Hst; unfold step_of; by destruct (serve _ _ _ _ _ _)).
  assert (st_post st = (serve H mac cfg (st_env st) (st_req st) s).2) as ->.
  { rewrite Hst at 1. unfold step_of. by destruct (serve _ _ _ _ _ _). }
  destruct Hw as [token d store E Ht Er ->|f id E Hg Hc Hr He Ht Hcon ->|E]; rewrite E; cbn [serve]; rewrite ?Hpre in *.
  - unfold HandleRevoke. destruct token as [|c token]; [done|]. rewrite Er. cbn. by rewrite lookup_delete_eq.
  - unfold HandleToken. rewrite Hg. cbn [bool_decide]. rewrite bool_decide_false, bool_decide_true by done.
    unfold handleRefreshTokenGrant. rewrite !is_empty_nonempty by done.
    destruct (effectiveResource _ _ _) as [e|]; [by destruct (He e)|]. unfold Validate. rewrite Ht. cbn [check_bound].
    unfold rotate. rewrite Hcon. destruct (revokeGrantLocked id (refreshTokens s)) as [o st']. cbn. by rewrite lookup_delete_eq.
  - cbn. intros [_ Hne]%map_lookup_filter_Some. cbn in Hne. by intros <-.
Qed.

Lemma withdraws_not_approves st k k' fp : withdraws_step st k → ¬ approves (st_env st) (st_req st) k' fp.
Proof using Type. intros Hw (c & f & d & E & _). destruct Hw as [? ? ? E'|? ? E'|E']; by rewrite E in E'. Qed.

(** A code is sent on an authorization that is approved or was remembered. *)
Lemma code_sent env req s u v c : (serve H mac cfg env req s).1 = RedirectCode u v c →
  ∃ d fp, authorizes env req d fp ∧ (approves env req (key_of d) fp ∨ Allows H (key_of d) fp (now env) (consent s) = true).
Proof using Type.
  pose proof (serve_adds env req s) as A. destruct req as [p|cookie form|form|token|subject]; cbn [serve] in *.
  - clear A. unfold handleAuthorizeGET. destruct (resolveClientMeta cfg env (client_id p)) as [[meta verified]|msg] eqn:Em; [|done].
    destruct (HasRedirectURI meta (redirect_uri p)) eqn:Eu; cbn [negb]; [|done].
    destruct (check_params cfg p (in_query p)) as [[? ?]|eff] eqn:Ec; [done|].
    destruct (consentRefusal (identity env)) as [[? ?]|] eqn:Er; [done|].
    apply consentRefusal_None in Er as (id & Ei & Hp). rewrite Ei.
    destruct (verified && _) eqn:Ea; [|done]. apply andb_true_iff in Ea as [_ Ea]. intros _.
    apply check_params_inr in Ec as (? & ? & ? & ?). apply bool_decide_eq_true in Eu.
    exists (code_data env id p eff), (consentFingerprint H meta). split; [|by right].
    exists id, p, (in_query p), meta, verified, eff. by split_and!.
  - clear A. unfold handleAuthorizePOST. destruct form as [f|]; [|done].
    destruct (resolveClientMeta cfg env (client_id (params f))) as [[meta verified]|msg] eqn:Em; [|done].
    destruct (HasRedirectURI meta (redirect_uri (params f))) eqn:Eu; cbn [negb]; [|done].
    destruct (verifyCSRFToken mac cfg cookie f) eqn:Ev; cbn [negb]; [|done]. case_bool_decide as Ed; [done|].
    destruct (consentRefusal (identity env)) as [[? ?]|] eqn:Er; [done|].
    apply consentRefusal_None in Er as (id & Ei & Hp). rewrite Ei.
    destruct (check_params cfg (params f) (in_body (params f))) as [[? ?]|eff] eqn:Ec; [done|].
    case_bool_decide as Ef; cbn [negb]; [|done]. intros _.
    apply check_params_inr in Ec as (? & ? & ? & ?). apply bool_decide_eq_true in Eu.
    assert (authorizes env (AuthorizePOST cookie (Some f)) (code_data env id (params f) eff) (consentFingerprint H meta)) as Ha.
    { exists id, (params f), (in_body (params f)), meta, verified, eff. by split_and!. }
    exists (code_data env id (params f) eff), (consentFingerprint H meta). split; [done|left].
    exists cookie, f, (code_data env id (params f) eff). by split_and!.
  - destruct (HandleToken H cfg env form s) as [resp s'] eqn:E. cbn [fst]. intros ->. exfalso. revert E.
    unfold HandleToken, handleAuthorizationCodeGrant, handleRefreshTokenGrant, check_bound, respondWithTokens, invalid_grant.
    repeat (case_match; simplify_eq/=); done.
  - unfold HandleRevoke. repeat case_match; done.
  - done.
Qed.

Lemma allowed_go tr d : Forall step_keys_ok tr → ∀ st fp, st ∈ tr → authorizes (st_env st) (st_req st) d fp → go_key (key_of d).
Proof using Type. rewrite Forall_forall. intros Hgo st fp Hst Ha. by apply (Hgo st Hst d fp). Qed.

(** C14: once an approval is withdrawn, the next code needs a new one: after a
    refresh token is revoked, or a rotated one is presented again, or the
    subject is withdrawn, no code is sent for that user, client and resource
    until the user approves the client for it again. *)
Theorem withdrawal_reprompts tr s pre st mid a post u v c :
  history (NewServer lease) tr s → Forall step_keys_ok tr → tr = pre ++ st :: mid ++ a :: post →
  st_resp a = RedirectCode u v c →
  ∃ d, (∃ fp, authorizes (st_env a) (st_req a) d fp) ∧
    (withdraws_step st (key_of d) → ∃ b fp, b ∈ mid ++ [a] ∧ approves (st_env b) (st_req b) (key_of d) fp).
Proof using Inj0.
  intros Hh Hgo -> Hresp. rewrite app_comm_cons, app_assoc in Hh, Hgo.
  apply history_split in Hh as (s1 & Hpre & Ha).
  assert (Forall step_keys_ok (pre ++ st :: mid)) as Hgo1 by (by apply Forall_app in Hgo as [? _]).
  pose proof (history_sound _ s1 Hpre Hgo1) as Hs.
  assert ((serve H mac cfg (st_env a) (st_req a) s1).1 = RedirectCode u v c) as Hserve.
  { rewrite <-Hresp. rewrite Ha at 3. unfold step_of. by destruct (serve _ _ _ _ _ _). }
  apply code_sent in Hserve as (d & fp & Hd & Hap). exists d. split; [eauto|]. intros Hw.
  destruct Hap as [Hap|Hal]; [exists a, fp; split; [set_solver|done]|].
  assert (granted lease (pre ++ st :: mid) (st_env a) (st_req a) d) as (fp' & _ & Hg).
  { eapply allowed_granted; [done..| |done|done]. eapply (allowed_go _ _ Hgo a fp); [set_solver|done]. }
  destruct Hg as [Hap|(before & b & after & r & E & Hb & _ & Hk & Hkept)]; [exists a, fp'; split; [set_solver|done]|].
  destruct (around _ _ _ _ _ _ E) as [Hin|[->|Hin]].
  - exists b, fp'. split; [set_solver|done].
  - by apply withdraws_not_approves with (k' := key_of d) (fp := fp') in Hw.
  - exfalso. rewrite Forall_forall in Hkept. specialize (Hkept st Hin).
    apply history_split in Hpre as (s2 & _ & Hst). by apply (withdrawn_gone st s2 (key_of d) Hst Hw r).
Qed.

(** ** What the page showed *)

Lemma page_of env req s pg : (serve H mac cfg env req s).1 = Page pg →
  pg_CSRFToken pg = csrfMAC mac cfg (pg_Nonce pg) (pg_Binding pg) ∧
  consentFingerprint H (pg_Meta pg) = b_Fingerprint (pg_Binding pg) ∧
  ∃ all, first all = b_Resource (pg_Binding pg) ∧
    effectiveResource (resources cfg) all (RequireResourceIndicator cfg) = inr (pg_ResourceID pg).
Proof using Type.
  destruct req as [p|cookie form|form|token|subject]; cbn [serve].
  - unfold handleAuthorizeGET. destruct (resolveClientMeta cfg env (client_id p)) as [[meta verified]|msg]; [|done].
    destruct (HasRedirectURI _ _); cbn [negb]; [|done].
    destruct (check_params cfg p (in_query p)) as [[? ?]|eff] eqn:Ec; [done|].
    destruct (consentRefusal (identity env)) as [[? ?]|]; [done|]. destruct (identity env) as [id|]; [|done].
    destruct (_ && _); [unfold issueCodeAndRedirect; by case_match|]. intros [= <-]. split_and!; [done..|].
    exists (in_query p). split; [done|]. by apply check_params_inr in Ec as (_ & _ & _ & ?).
  - unfold handleAuthorizePOST. destruct form as [f|]; [|done].
    destruct (resolveClientMeta cfg env (client_id (params f))) as [[meta verified]|msg]; [|done].
    destruct (HasRedirectURI _ _); cbn [negb]; [|done]. destruct (verifyCSRFToken _ _ _ _); cbn [negb]; [|done].
    case_bool_decide; [done|].
    destruct (consentRefusal (identity env)) as [[? ?]|]; [done|]. destruct (identity env) as [id|]; [|done].
    destruct (check_params cfg (params f) (in_body (params f))) as [[? ?]|eff] eqn:Ec; [done|].
    case_bool_decide; cbn [negb]; [unfold issueCodeAndRedirect; by case_match|]. intros [= <-]. split_and!; [done..|].
    exists (in_body (params f)). split; [done|]. by apply check_params_inr in Ec as (_ & _ & _ & ?).
  - destruct (HandleToken H cfg env form s) as [resp s'] eqn:E. cbn [fst]. intros ->. exfalso. revert E.
    unfold HandleToken, handleAuthorizationCodeGrant, handleRefreshTokenGrant, check_bound, respondWithTokens, invalid_grant.
    repeat (case_match; simplify_eq/=); done.
  - unfold HandleRevoke. repeat case_match; done.
  - done.
Qed.

(** The resource a request binds to is its first value's. *)
Lemma effective_of_first all r : effectiveResource (resources cfg) all (RequireResourceIndicator cfg) = inr r →
  effectiveResource (resources cfg) [first all] (RequireResourceIndicator cfg) = inr r.
Proof using Type. destruct all as [|x [|y l]]; [exact (λ E, E)|exact (λ E, E)|]. cbn. by destruct x. Qed.

Lemma effective_first all all' r r' : first all = first all' →
  effectiveResource (resources cfg) all (RequireResourceIndicator cfg) = inr r →
  effectiveResource (resources cfg) all' (RequireResourceIndicator cfg) = inr r' → r = r'.
Proof using Type. intros E Hr%effective_of_first Hr'%effective_of_first. rewrite E in Hr. congruence. Qed.

(** No CSRF token verifies that the server did not put in a page before. *)
Definition unforged (tr : list Step) : Prop :=
  ∀ pre st post cookie f, tr = pre ++ st :: post → st_req st = AuthorizePOST cookie (Some f) →
    verifyCSRFToken mac cfg cookie f = true → ∃ p pg, p ∈ pre ∧ st_resp p = Page pg ∧ pg_CSRFToken pg = csrf_token f.

(** Go strings, in what the token covers. *)
Definition binding_ok (nonce : string) (b : consentBinding) : Prop := Forall go_length (nonce :: binding_fields b).

Definition forms_ok (tr : list Step) : Prop :=
  (∀ st nonce f, st ∈ tr → st_req st = AuthorizePOST (Some nonce) (Some f) → binding_ok nonce (form_binding f)) ∧
  (∀ st pg, st ∈ tr → st_resp st = Page pg → binding_ok (pg_Nonce pg) (pg_Binding pg)).

(** An approval is of what the page showed. Unless a CSRF token is forged,
    the form that approves a client is the one of a page the server rendered
    before: for this client and redirect URI, challenge and state, and the
    client's name and redirect URIs as they are at the approval; and the grant
    is for the resource the page named, when the form's URL names none. *)
Theorem approval_was_shown `{!Inj (=) (=) (mac (csrfKey cfg))} tr s pre st post k fp :
  history (NewServer lease) tr s → unforged tr → forms_ok tr → tr = pre ++ st :: post →
  approves (st_env st) (st_req st) k fp →
  ∃ cookie f p pg, st_req st = AuthorizePOST cookie (Some f) ∧ p ∈ pre ∧ st_resp p = Page pg ∧
    pg_Binding pg = form_binding f ∧ cookie = Some (pg_Nonce pg) ∧ consentFingerprint H (pg_Meta pg) = fp ∧
    (in_query (params f) = [] → pg_ResourceID pg = ck_Resource k).
Proof using Type.
  intros Hh Hun [Hf1 Hf2] -> (cookie & f & d & Ereq & Ha & -> & Hv & Hdeny & Hfp).
  destruct (Hun pre st post cookie f eq_refl Ereq Hv) as (p & pg & Hp & Epg & Etok).
  exists cookie, f, p, pg. apply list_elem_of_split in Hp as Hp'. destruct Hp' as (l1 & l2 & El).
  assert (∃ s1, history (NewServer lease) l1 s1 ∧ p = step_of (st_env p) (st_req p) s1) as (s1 & _ & Est).
  { rewrite El, <-app_assoc in Hh. cbn [app] in Hh. by eapply history_split. }
  assert ((serve H mac cfg (st_env p) (st_req p) s1).1 = Page pg) as Hs.
  { rewrite <-Epg. rewrite Est at 3. unfold step_of. by destruct (serve _ _ _ _ _ _). }
  apply page_of in Hs as (Emac & Efp & all & Efirst & Eeff).
  unfold verifyCSRFToken in Hv. destruct cookie as [nonce|]; [|done]. apply bool_decide_eq_true in Hv.
  rewrite Etok, Hv in Emac. unfold csrfMAC in Emac. apply (inj (mac (csrfKey cfg))) in Emac.
  assert (st ∈ pre ++ st :: post) as Hst by (apply elem_of_app; right; apply list_elem_of_here).
  assert (p ∈ pre ++ st :: post) as Hpin by (apply elem_of_app; by left).
  pose proof (field_bytes_inj _ _ (Hf1 st nonce f Hst Ereq) (Hf2 p pg Hpin Epg) Emac) as Ef.
  assert (nonce = pg_Nonce pg ∧ pg_Binding pg = form_binding f) as [-> Eb].
  { destruct (pg_Binding pg), (form_binding f). cbn in Ef. injection Ef. intros; subst. by split. }
  split_and!; try done.
  - by rewrite Efp, Eb.
  - intros Hq. rewrite Eb in Efirst. destruct Ha as (id & q & all' & meta & verified & eff & Hasked & _ & _ & _ & _ & _ & _ & _ & Eeff' & _ & ->).
    rewrite Ereq in Hasked. destruct Hasked as [-> ->]. cbn. eapply effective_first; [|exact Eeff|exact Eeff'].
    rewrite Efirst. cbn. unfold resource_any. by rewrite Hq, app_nil_r.
Qed.

(** ** Once, and what a refusal costs *)

Lemma token_codes env form s h e : authCodes (HandleToken H cfg env form s).2 !! h = Some e → authCodes s !! h = Some e.
Proof using Type. destruct (HandleToken H cfg env form s) as [resp s'] eqn:E. by apply token_carries in E as [(_ & Hc & _) _]; apply Hc. Qed.

Lemma codes_grow env req s h e : authCodes (serve H mac cfg env req s).2 !! h = Some e →
  authCodes s !! h = Some e ∨ h = H (drawn env).
Proof using Type.
  assert (∀ meta d st s0, authCodes s0 = authCodes s → authCodes (issueCodeAndRedirect H env meta d st s0).2 !! h = Some e →
    authCodes s !! h = Some e ∨ h = H (drawn env)) as I.
  { intros meta d st s0 E. unfold issueCodeAndRedirect. case_match; cbn; rewrite E; [by left|].
    unfold AuthCode_Issue. intros [[? _]|[_ E2]]%lookup_insert_Some; [by right|]. left. by apply map_lookup_filter_Some in E2 as [? _]. }
  destruct req as [p|cookie form|form|token|subject]; cbn [serve].
  - unfold handleAuthorizeGET. repeat case_match; try (by left). by apply I.
  - unfold handleAuthorizePOST. repeat case_match; try (by left); by apply I.
  - intros ?%token_codes. by left.
  - destruct (HandleRevoke H token s) as [resp s'] eqn:E. intros Hs. left.
    by apply revoke_carries in E as [(_ & Hc & _) _]; apply Hc.
  - by left.
Qed.

(** A grant on a code leaves no such code. *)
Lemma redeemed_gone env f s claims aud refresh exp : grant_type f = "authorization_code" →
  (HandleToken H cfg env (Some f) s).1 = Tokens claims aud refresh exp →
  is_Some (authCodes s !! H (tf_code f)) ∧ authCodes (HandleToken H cfg env (Some f) s).2 !! H (tf_code f) = None.
Proof using Type.
  intros Hg. unfold HandleToken. rewrite bool_decide_true by done. unfold handleAuthorizationCodeGrant.
  destruct (effectiveResource _ _ _); [done|]. destruct (is_empty (tf_code f)); [done|]. unfold Redeem.
  destruct (authCodes s !! H (tf_code f)) as [e|] eqn:E; [|done]. destruct (time_after (now env) (ac_expiresAt e)); [done|].
  do 2 (case_bool_decide; cbn [negb]; [|done]). destruct (other_resource _ _ _); [done|].
  destruct (validateCodeVerifier _); [done|]. destruct (verifySHA256Challenge _ _ _); cbn [negb]; [|done].
  unfold respondWithTokens. destruct (issuable _ _ _); cbn [negb]; [|done]. intros _. split; [eauto|].
  cbn. by rewrite lookup_delete_eq.
Qed.

Definition code_request_of (st : Step) (code : string) : Prop :=
  ∃ f, st_req st = Token (Some f) ∧ grant_type f = "authorization_code" ∧ tf_code f = code.

Definition answered_tokens (st : Step) : Prop := ∃ claims aud refresh exp, st_resp st = Tokens claims aud refresh exp.

Lemma step_of_step st s : st = step_of (st_env st) (st_req st) s →
  st_resp st = (serve H mac cfg (st_env st) (st_req st) s).1 ∧ st_post st = (serve H mac cfg (st_env st) (st_req st) s).2.
Proof using Type. intros Hst. rewrite Hst at 1 4. unfold step_of. by destruct (serve _ _ _ _ _ _). Qed.

(** The state after a prefix is its last step's. *)
Lemma history_last s0 pre st s : history s0 (pre ++ [st]) s → s = st_post st.
Proof using Type.
  remember (pre ++ [st]) as tr eqn:E. destruct 1 as [|tr s env req Hh]; [by destruct pre|].
  by apply app_inj_tail in E as [_ <-].
Qed.

(** A code is worth one grant: two requests that redeem the same code are
    both answered with tokens only if that code was drawn again in between. *)
Theorem code_redeemed_once tr s pre a mid b post code :
  history (NewServer lease) tr s → tr = pre ++ a :: mid ++ b :: post →
  code_request_of a code → code_request_of b code → answered_tokens a → answered_tokens b →
  ∃ m, m ∈ mid ∧ drawn (st_env m) = code.
Proof using Inj0.
  intros Hh -> (fa & Ea & Ga & Ca) (fb & Eb & Gb & Cb) (c1 & r1 & t1 & x1 & Ra) (c2 & r2 & t2 & x2 & Rb).
  rewrite app_comm_cons, app_assoc in Hh. apply history_split in Hh as (s2 & Hh & Hb).
  apply step_of_step in Hb as [Hb _]. rewrite Rb, Eb in Hb. cbn [serve] in Hb. symmetry in Hb.
  apply redeemed_gone in Hb as [Hsome _]; [|done]. rewrite Cb in Hsome. clear Rb.
  destruct (decide (Exists (λ m, drawn (st_env m) = code) mid)) as [He|Hne]; [by apply Exists_exists in He|exfalso].
  assert (∀ k s3, history (NewServer lease) (pre ++ a :: k) s3 → Forall (λ m, drawn (st_env m) ≠ code) k →
    authCodes s3 !! H code = None) as G.
  { induction k as [|m k IH] using rev_ind; intros s3 Hs Hk.
    - pose proof (history_last _ _ _ _ Hs) as ->. apply history_split in Hs as (s4 & _ & Hst).
      apply step_of_step in Hst as [Hr ->]. rewrite Ra, Ea in Hr. rewrite Ea. cbn [serve] in *. symmetry in Hr.
      apply redeemed_gone in Hr as [_ Hn]; [|done]. by rewrite Ca in Hn.
    - apply Forall_app in Hk as [Hk Hm]. apply Forall_cons in Hm as [Hm _].
      rewrite app_comm_cons, app_assoc in Hs. pose proof (history_last _ _ _ _ Hs) as ->.
      apply history_split in Hs as (s4 & Hs & Hst). apply step_of_step in Hst as [_ ->].
      destruct (authCodes (serve H mac cfg (st_env m) (st_req m) s4).2 !! H code) as [e|] eqn:E; [|done].
      apply codes_grow in E as [E|E]; [by rewrite (IH s4) in E|]. apply (inj H) in E. by rewrite E in Hm. }
  rewrite (G mid s2 Hh) in Hsome; [by destruct Hsome|].
  apply Forall_forall. intros m Hm Hd. apply Hne, Exists_exists. eauto.
Qed.
End provenance.
End runs.

(** A refused request costs what it should: a code that reaches its
    redemption is gone whatever the answer, while the family of a live refresh
    token survives every refusal but the server's own failure to sign. *)
Theorem refusals_burn_codes_only H cfg env f s :
  let '(resp, s') := HandleToken H cfg env (Some f) s in
  (grant_type f = "authorization_code" → tf_code f ≠ "" →
   (∃ r, effectiveResource (resources cfg) (tf_resource f) (RequireResourceIndicator cfg) = inr r) →
   authCodes s' !! H (tf_code f) = None) ∧
  (grant_type f = "refresh_token" → ∀ d code desc,
   store_ok (refreshTokens s) → Validate H (refresh_token f) (now env) (refreshTokens s) = Some d →
   resp = TokenError 400 code desc → s' = s).
Proof.
  destruct (HandleToken H cfg env (Some f) s) as [resp s'] eqn:E. unfold HandleToken in E. split.
  - intros Hg Hc [r Hr]. rewrite bool_decide_true in E by done. unfold handleAuthorizationCodeGrant in E.
    rewrite Hr in E. destruct (tf_code f) as [|c code] eqn:Ec; [done|]. cbn [is_empty] in E.
    unfold Redeem, respondWithTokens in E. repeat case_match; simplify_eq; cbn; apply lookup_delete_eq.
  - intros Hg d code desc Hok Hv ->. rewrite bool_decide_false, bool_decide_true in E by (by rewrite Hg).
    unfold handleRefreshTokenGrant in E. rewrite Hv in E. destruct (is_empty (tf_client_id f)); [by injection E|].
    destruct (effectiveResource _ _ _); [by injection E|]. destruct (is_empty (refresh_token f)); [by injection E|].
    destruct (check_bound cfg f (Some d)); [by injection E|].
    unfold Validate in Hv. destruct (tokens (refreshTokens s) !! H (refresh_token f)) as [e|] eqn:Et; [|done].
    destruct (time_after (now env) (expiresAt e)) eqn:Ex; [done|].
    assert (consumed (refreshTokens s) !! H (refresh_token f) = None) as Hn.
    { destruct (consumed (refreshTokens s) !! H (refresh_token f)) as [id|] eqn:Hcon; [|done].
      apply (ok_consumed _ Hok) in Hcon as [Hcon _]. by rewrite Et in Hcon. }
    unfold rotate in E. rewrite Hn, Et, Ex in E. destruct (push_history _ _). cbn in E.
    unfold respondWithTokens in E. by destruct (issuable _ _ _).
Qed.

(** * A client's life *)

Definition demo_settings : Settings :=
  mkSettings false true false 3600000000000 86400000000000 true "key"
    (mkResourceSet ["https://c"; "https://c/mcp"] ∅ {["https://c" := "https://c"; "https://c/mcp" := "https://c/mcp"]}
       (mkResource "" "cetacean" "Cetacean") "https://c").

Definition demo_mac (k s : string) : string := k +:+ s.

Definition demo_verifier : string := "0123456789012345678901234567890123456789012".

Definition demo_env (t : Z) (drawn_ : string) : Env :=
  mkEnv t (Some (mkIdentity "alice" "a@c" "Alice" ["ops"] "oidc"))
    (λ c, if String.eqb c "https://cli" then Some (mkClientMetadata "CLI" ["http://localhost/cb"]) else None)
    (λ _, None) (λ _, "{}") drawn_ (drawn_ +:+ "-grant").

Definition demo_params (st : string) : AuthParams :=
  mkAuthParams "code" "https://cli" "http://localhost/cb" demo_verifier "S256" st ["https://c/mcp"] [].

Definition demo_post (p : AuthParams) : AuthParams :=
  mkAuthParams (response_type p) (client_id p) (redirect_uri p) (code_challenge p) (code_challenge_method p) (state p)
    [] (in_query p).

Definition demo_form (nonce st : string) : ConsentForm :=
  let p := demo_post (demo_params st) in
  let fp := consentFingerprint id (mkClientMetadata "CLI" ["http://localhost/cb"]) in
  let f := mkConsentForm p "approve" fp "" in
  mkConsentForm p "approve" fp (csrfMAC demo_mac demo_settings nonce (form_binding f)).

Definition demo_redeem (code : string) : TokenForm :=
  mkTokenForm "authorization_code" code "http://localhost/cb" "https://cli" demo_verifier "" ["https://c/mcp"].

Definition demo_refresh (token : string) : TokenForm :=
  mkTokenForm "refresh_token" "" "" "https://cli" "" token [].

(** Shown, approved, redeemed, refreshed, authorized silently, revoked, shown again. *)
Definition demo_requests : list (Env * request) :=
  [(demo_env 1 "n1", AuthorizeGET (demo_params "s1"));
   (demo_env 2 "c1", AuthorizePOST (Some "n1") (Some (demo_form "n1" "s1")));
   (demo_env 3 "r1", Token (Some (demo_redeem "c1")));
   (demo_env 4 "r2", Token (Some (demo_refresh "r1")));
   (demo_env 5 "c2", AuthorizeGET (demo_params "s2"));
   (demo_env 6 "x", Revoke (Some "r2"));
   (demo_env 7 "n2", AuthorizeGET (demo_params "s3"));
   (demo_env 8 "c3", AuthorizePOST (Some "n2") (Some (demo_form "n2" "s3")))].

Definition demo_history (reqs : list (Env * request)) : list Step * Server :=
  foldl (λ '(tr, s) '(env, req),
    let st := step_of (H0 := map_range_std) id demo_mac demo_settings env req s in (tr ++ [st], st_post st))
    ([], NewServer 3600) reqs.

Lemma demo_history_history reqs :
  history (H0 := map_range_std) id demo_mac demo_settings (NewServer 3600) (demo_history reqs).1 (demo_history reqs).2.
Proof.
  unfold demo_history. induction reqs as [|[env req] reqs IH] using rev_ind; [constructor|].
  rewrite foldl_app. destruct (foldl _ _ reqs) as [tr s]. cbn [foldl fst snd] in *. by constructor.
Qed.

Definition brief (r : response) : string :=
  match r with
  | ErrorPage _ m => m | RedirectError _ _ c _ => c | ConsentRefusal _ m => m | Page _ => "page"
  | RedirectCode _ _ c => "code " +:+ c | TokenError _ c _ => c | Tokens c aud r _ => "tokens " +:+ cl_Subject c +:+ " " +:+ aud +:+ " " +:+ r
  | Empty _ => "empty"
  end.

Example demo_run : brief ∘ st_resp <$> (demo_history demo_requests).1 =
  ["page"; "code c1"; "tokens alice https://c/mcp r1"; "tokens alice https://c/mcp r2"; "code c2"; "empty"; "page"; "code c3"].
Proof. vm_compute. reflexivity. Qed.

Definition demo_tr : list Step := (demo_history demo_requests).1.
Definition demo_at (n : nat) : Step :=
  default (step_of (H0 := map_range_std) id demo_mac demo_settings (demo_env 0 "") (Revoke None) (NewServer 0)) (demo_tr !! n).

Lemma demo_split n : (n < 8)%nat → demo_tr = take n demo_tr ++ demo_at n :: drop (S n) demo_tr.
Proof.
  intros Hn. symmetry. apply take_drop_middle. unfold demo_at.
  assert (is_Some (demo_tr !! n)) as [st ->]; [|done]. apply lookup_lt_is_Some. exact Hn.
Qed.

Lemma demo_history_keys reqs :
  Forall (λ er, ∀ d fp, authorizes id demo_settings er.1 er.2 d fp → go_key (key_of d)) reqs →
  Forall (step_keys_ok id demo_settings) (demo_history reqs).1.
Proof.
  unfold demo_history. induction reqs as [|[env req] reqs IH] using rev_ind; intros Hr; [constructor|].
  apply Forall_app in Hr as [Hr He]. apply Forall_cons in He as [He _]. rewrite foldl_app.
  destruct (foldl _ _ reqs) as [tr s]. cbn [foldl fst snd] in *. apply Forall_app; split; [by apply IH|].
  apply Forall_cons; split; [|done]. unfold step_keys_ok, step_of. by destruct (serve _ _ _ _ _ _).
Qed.

Lemma demo_keys : Forall (step_keys_ok id demo_settings) demo_tr.
Proof.
  apply demo_history_keys. unfold demo_requests. repeat (apply Forall_cons; split); [..|by apply Forall_nil].
  all: intros d fp (i & p & all & meta & ver & eff & Hask & Hid & _ & _ & _ & _ & _ & _ & He & _ & ->).
  all: try done; destruct Hask as [-> ->]; injection Hid as <-; vm_compute in He; injection He as <-; repeat split; vm_compute; done.
Qed.

Lemma demo_is_history : history (H0 := map_range_std) id demo_mac demo_settings (NewServer 3600) demo_tr (demo_history demo_requests).2.
Proof. apply demo_history_history. Qed.

(** The refreshed token is still of alice's approval, two steps before. *)
Lemma tokens_were_approved_witness : ∃ d, founded id demo_mac demo_settings 3600 (take 3 demo_tr) d ∧
  mkClaims "alice" "a@c" "Alice" ["ops"] "{}" "https://cli" = claims_of_code d ∧ "https://c/mcp" = ac_Resource d ∧
  ∀ f, st_req (demo_at 3) = Token (Some f) → grant_type f = "authorization_code" →
    tf_client_id f = ac_ClientID d ∧ tf_redirect_uri f = ac_RedirectURI d ∧
    code_verifier f = ac_CodeChallenge d ∧ (43 <= String.length (code_verifier f))%nat.
Proof.
  apply (tokens_were_approved (H0 := map_range_std) id demo_mac demo_settings 3600 demo_tr (demo_history demo_requests).2
    (take 3 demo_tr) (demo_at 3) (drop 4 demo_tr) _ _ "r2" 3600);
    [exact demo_is_history|exact demo_keys|apply demo_split; lia|vm_compute; reflexivity].
Defined.

(** The last code was approved after the revocation. *)
Lemma withdrawal_reprompts_witness : ∃ d, (∃ fp, authorizes id demo_settings (st_env (demo_at 7)) (st_req (demo_at 7)) d fp) ∧
  (withdraws_step id demo_settings (demo_at 5) (key_of d) →
   ∃ b fp, b ∈ [demo_at 6] ++ [demo_at 7] ∧ approves id demo_mac demo_settings (st_env b) (st_req b) (key_of d) fp).
Proof.
  apply (withdrawal_reprompts (H0 := map_range_std) id demo_mac demo_settings 3600 demo_tr (demo_history demo_requests).2
    (take 5 demo_tr) (demo_at 5) [demo_at 6] (demo_at 7) [] "http://localhost/cb" "s3" "c3");
    [exact demo_is_history|exact demo_keys|exact (demo_split 5 ltac:(lia))|vm_compute; reflexivity].
Defined.

Lemma code_request_b st code :
  match st_req st with Token (Some f) => String.eqb (grant_type f) "authorization_code" && String.eqb (tf_code f) code | _ => false end = true →
  code_request_of st code.
Proof.
  unfold code_request_of. destruct (st_req st) as [p|cookie form|[f|]|token|subject]; try done.
  intros [?%String.eqb_eq ?%String.eqb_eq]%andb_true_iff. eauto.
Qed.

Lemma answered_tokens_b st : match st_resp st with Tokens _ _ _ _ => true | _ => false end = true → answered_tokens st.
Proof. unfold answered_tokens. destruct (st_resp st); try done. eauto. Qed.

Lemma code_redeemed_once_witness :
  let reqs := demo_requests ++ [(demo_env 9 "r3", Token (Some (demo_redeem "c3")));
    (demo_env 10 "c3", AuthorizeGET (demo_params "s4")); (demo_env 11 "r4", Token (Some (demo_redeem "c3")))] in
  ∃ m, m ∈ take 1 (drop 9 (demo_history reqs).1) ∧ drawn (st_env m) = "c3".
Proof.
  set (reqs := demo_requests ++ _). set (tr := (demo_history reqs).1).
  apply (code_redeemed_once (H0 := map_range_std) id demo_mac demo_settings 3600 tr (demo_history reqs).2
    (take 8 tr) (default (demo_at 0) (tr !! 8%nat)) (take 1 (drop 9 tr)) (default (demo_at 0) (tr !! 10%nat)) [] "c3").
  - apply demo_history_history.
  - reflexivity.
  - apply code_request_b. vm_compute. reflexivity.
  - apply code_request_b. vm_compute. reflexivity.
  - apply answered_tokens_b. vm_compute. reflexivity.
  - apply answered_tokens_b. vm_compute. reflexivity.
Defined.

Definition demo_short : list (Env * request) := take 2 demo_requests.

Lemma go_lengths l : forallb (λ s, N.of_nat (String.length s) <? 2 ^ 63)%N l = true → Forall go_length l.
Proof.
  induction l as [|s l IH]; [constructor|]. cbn [forallb]. intros [Hs%N.ltb_lt Hl]%andb_true_iff. constructor; [exact Hs|by apply IH].
Qed.

Lemma short_split pre (st : Step) post s0 s1 : [s0; s1] = pre ++ st :: post → pre = [] ∧ st = s0 ∨ pre = [s0] ∧ st = s1.
Proof. destruct pre as [|x [|y [|z pre]]]; cbn; intros [=]; subst; auto; by destruct pre. Qed.

(** The first form of the demonstration approves what its page showed. *)
Lemma approval_was_shown_witness :
  let s0 := demo_at 0 in let s1 := demo_at 1 in ∃ cookie f p pg,
    st_req s1 = AuthorizePOST cookie (Some f) ∧ p ∈ [s0] ∧ st_resp p = Page pg ∧
    pg_Binding pg = form_binding f ∧ cookie = Some (pg_Nonce pg) ∧
    consentFingerprint id (pg_Meta pg) = consent_fingerprint f ∧
    (in_query (params f) = [] → pg_ResourceID pg = "https://c/mcp").
Proof.
  intros s0 s1. set (f := demo_form "n1" "s1"). set (d := code_data (demo_env 2 "c1") (mkIdentity "alice" "a@c" "Alice" ["ops"] "oidc") (params f) "https://c/mcp").
  assert (st_req s1 = AuthorizePOST (Some "n1") (Some f)) as Er by (vm_compute; reflexivity).
  assert (st_env s1 = demo_env 2 "c1") as Ee by (vm_compute; reflexivity).
  assert (st_req s0 = AuthorizeGET (demo_params "s1")) as Er0 by (vm_compute; reflexivity).
  destruct (approval_was_shown (H0 := map_range_std) id demo_mac demo_settings 3600 (demo_history demo_short).1 (demo_history demo_short).2
    [s0] s1 [] (key_of d) (consent_fingerprint f)) as (cookie & f' & p & pg & E1 & Hp & Hpg & Hb & Hc & Hm & Hr).
  - apply demo_history_history.
  - intros pre st post cookie g E Ereq Hv. apply (short_split pre st post s0 s1) in E as [[-> ->]|[-> ->]].
    + rewrite Er0 in Ereq. discriminate.
    + assert (csrf_token g = csrf_token f) as -> by (rewrite Er in Ereq; by injection Ereq as _ <-).
      exists s0. eexists. split_and!; [apply list_elem_of_here|vm_compute; reflexivity|vm_compute; reflexivity].
  - split.
    + intros st nonce g Hin Ereq. change (st ∈ [s0; s1]) in Hin. apply elem_of_cons in Hin as [->|Hin%list_elem_of_singleton].
      * change (st_req s0 = AuthorizePOST (Some nonce) (Some g)) in Ereq. rewrite Er0 in Ereq. discriminate.
      * assert (nonce = "n1" ∧ g = f) as [-> ->].
        { subst st. change (st_req s1 = AuthorizePOST (Some nonce) (Some g)) in Ereq. rewrite Er in Ereq. by injection Ereq as <- <-. }
        apply go_lengths. vm_compute. reflexivity.
    + intros st pg Hin Epg. change (st ∈ [s0; s1]) in Hin. apply elem_of_cons in Hin as [->|Hin%list_elem_of_singleton]; [|subst st]; vm_compute in Epg; [|discriminate].
      injection Epg as <-. apply go_lengths. vm_compute. reflexivity.
  - reflexivity.
  - exists (Some "n1"), f, d. rewrite Er, Ee.
    split_and!; [reflexivity| |reflexivity|vm_compute; reflexivity|discriminate|reflexivity].
    exists (mkIdentity "alice" "a@c" "Alice" ["ops"] "oidc"), (params f), (in_body (params f)), (mkClientMetadata "CLI" ["http://localhost/cb"]), true, "https://c/mcp".
    split_and!; try reflexivity; try discriminate; [by split|apply list_elem_of_here].
  - exists cookie, f', p, pg. rewrite Er in E1. injection E1 as <- <-. rewrite Er. split_and!; done.
Defined.

(** A form whose resource is in its URL alone has the CSRF token of the page
    that showed that resource, and is granted the default one. *)
Example resource_in_url :
  let f := demo_form "n1" "s1" in
  let f' := mkConsentForm (demo_params "s1") "approve" (consent_fingerprint f) (csrf_token f) in
  let reqs := [(demo_env 1 "n1", AuthorizeGET (demo_params "s1")); (demo_env 2 "c1", AuthorizePOST (Some "n1") (Some f'))] in
  brief ∘ st_resp <$> (demo_history reqs).1 = ["page"; "code c1"] ∧
  (match (st_resp <$> (demo_history reqs).1) with Page pg :: _ => pg_ResourceID pg | _ => "" end) = "https://c/mcp" ∧
  (λ e, ac_Resource (ac_data e)) <$> authCodes (demo_history reqs).2 !! "c1" = Some "https://c".
Proof. vm_compute. done. Qed.
