(* ===== verification/OAuthJwt.v ===== *)
(** Access tokens: internal/oauth/jwt.go, and the identity identity.go makes of
    one. The encodings are GoEncoding.v's; SHA-256 and ECDSA are what the standard
    library's packages promise of them ([ES256], [ES256Laws]). The grants an
    identity carries on as raw claims are left out. *)
From S2P Require Import Prelude GoStrings GoStrconv GoEncoding OAuthConsent OAuthServer.
#[local] Open Scope string_scope.
#[local] Open Scope Z_scope.
#[local] Open Scope list_scope.

Record jwtPayload := mkPayload {
  p_Issuer : string;
  p_Audience : list string;
  p_ExpiresAt : Z;
  p_IssuedAt : Z;
  p_JTIID : string;
  p_NotBefore : Z;
  p_Subject : string;
  p_Email : string;
  p_Name : string;
  p_Groups : list string;
  p_Grants : string;
  p_ClientID : string;
}.

Record jwtHeaderClaims := mkHeader { Alg : string; Typ : string }.

Inductive jwt_error :=
| ErrMalformedToken | ErrInvalidSig | ErrTokenExpired | ErrIssuerMismatch | ErrAudienceMismatch | ErrMissingKey
| ErrIncompleteClaims
| MarshalError | SignError | Panicked.

Definition accessTokenType : string := "at+jwt".
Definition accessTokenTypeFull : string := "application/at+jwt".

(** header is the JOSE header as it is sent, encoded. *)
Record TokenIssuer := mkIssuer { has_signer : bool; header : string; IssuerOf : string }.

(** crypto/sha256, and crypto/ecdsa over P-256 with the issuer's key: the
    signature of a digest with what the random source gives. *)
Class ES256 := {
  Sum256 : string → string;
  ecdsa_Sign : Z → string → option (Z * Z);
  ecdsa_Verify : string → Z → Z → bool;
}.

(** A signature is two numbers below the order of the curve, and verifies. *)
Class ES256Laws `{ES256} : Prop := {
  sign_range rnd digest r s : ecdsa_Sign rnd digest = Some (r, s) → 0 ≤ r < 2 ^ 256 ∧ 0 ≤ s < 2 ^ 256;
  sign_verifies rnd digest r s : ecdsa_Sign rnd digest = Some (r, s) → ecdsa_Verify digest r s = true;
}.

(** * The payload's JSON *)

Section payload.
Context `{JSON, Unicode}.

Definition UnmarshalJSON (raw : string) : option (list string) :=
  match json_string "" raw with
  | Some one => Some [one]
  | None => json_strings [] raw
  end.

(** A nil slice is written null. *)
Definition MarshalJSON (a : list string) : string :=
  match a with
  | [one] => json_quote one
  | [] => "null"
  | _ => json_array (json_quote <$> a)
  end.

(** A member left out when its field is empty. *)
Definition omitempty (absent : bool) (tag value : string) : list (string * string) :=
  if absent then [] else [(tag, value)].

(** A json.RawMessage is written in its compact form. *)
Definition raw_text (raw : string) : option string := if is_empty raw then Some "" else json_compact raw.

Definition payload_members (p : jwtPayload) : option (list (string * string)) :=
  aud ← json_compact (MarshalJSON (p_Audience p));
  grants ← raw_text (p_Grants p);
  Some ([("iss", json_quote (p_Issuer p)); ("aud", aud); ("exp", Itoa (p_ExpiresAt p));
         ("iat", Itoa (p_IssuedAt p)); ("jti", json_quote (p_JTIID p))]
        ++ omitempty (p_NotBefore p =? 0) "nbf" (Itoa (p_NotBefore p))
        ++ [("sub", json_quote (p_Subject p))]
        ++ omitempty (is_empty (p_Email p)) "email" (json_quote (p_Email p))
        ++ omitempty (is_empty (p_Name p)) "name" (json_quote (p_Name p))
        ++ omitempty (bool_decide (p_Groups p = [])) "groups" (json_array (json_quote <$> p_Groups p))
        ++ omitempty (is_empty (p_Grants p)) "grants" grants
        ++ [("client_id", json_quote (p_ClientID p))]).

Definition marshal_payload (p : jwtPayload) : option string := json_object <$> payload_members p.

Definition payload_tags : list string :=
  ["iss"; "aud"; "exp"; "iat"; "jti"; "nbf"; "sub"; "email"; "name"; "groups"; "grants"; "client_id"].

Definition zero_payload : jwtPayload := mkPayload "" [] 0 0 "" 0 "" "" "" [] "" "".

(** A member sets the field its key names; others are ignored. *)
Definition set_payload (p : jwtPayload) (m : string * string) : option jwtPayload :=
  let '(mkPayload iss aud exp iat jti nbf sub email name groups grants client) := p in
  let raw := m.2 in
  match json_field payload_tags m.1 with
  | Some "iss" => x ← json_string iss raw; Some (mkPayload x aud exp iat jti nbf sub email name groups grants client)
  | Some "aud" => x ← UnmarshalJSON raw; Some (mkPayload iss x exp iat jti nbf sub email name groups grants client)
  | Some "exp" => x ← json_int exp raw; Some (mkPayload iss aud x iat jti nbf sub email name groups grants client)
  | Some "iat" => x ← json_int iat raw; Some (mkPayload iss aud exp x jti nbf sub email name groups grants client)
  | Some "jti" => x ← json_string jti raw; Some (mkPayload iss aud exp iat x nbf sub email name groups grants client)
  | Some "nbf" => x ← json_int nbf raw; Some (mkPayload iss aud exp iat jti x sub email name groups grants client)
  | Some "sub" => x ← json_string sub raw; Some (mkPayload iss aud exp iat jti nbf x email name groups grants client)
  | Some "email" => x ← json_string email raw; Some (mkPayload iss aud exp iat jti nbf sub x name groups grants client)
  | Some "name" => x ← json_string name raw; Some (mkPayload iss aud exp iat jti nbf sub email x groups grants client)
  | Some "groups" => x ← json_strings groups raw; Some (mkPayload iss aud exp iat jti nbf sub email name x grants client)
  | Some "grants" => Some (mkPayload iss aud exp iat jti nbf sub email name groups raw client)
  | Some "client_id" => x ← json_string client raw; Some (mkPayload iss aud exp iat jti nbf sub email name groups grants x)
  | _ => Some p
  end.

Definition unmarshal_payload (text : string) : option jwtPayload :=
  json_members text ≫= fold_option set_payload zero_payload.

Definition set_header (h : jwtHeaderClaims) (m : string * string) : option jwtHeaderClaims :=
  match json_field ["alg"; "typ"] m.1 with
  | Some "alg" => x ← json_string (Alg h) m.2; Some (mkHeader x (Typ h))
  | Some "typ" => x ← json_string (Typ h) m.2; Some (mkHeader (Alg h) x)
  | _ => Some h
  end.

Definition unmarshal_header (text : string) : option jwtHeaderClaims :=
  json_members text ≫= fold_option set_header (mkHeader "" "").
End payload.

(** * Signatures *)

Section es256.
Context `{ES256}.

Definition es256SigBytes : nat := 64.

Definition signES256 (rnd : Z) (input : string) : jwt_error + string :=
  match ecdsa_Sign rnd (Sum256 input) with
  | None => inl SignError
  | Some (r, s) =>
      match FillBytes (es256SigBytes / 2) r, FillBytes (es256SigBytes / 2) s with
      | Some first, Some second => inr (EncodeToString (first +:+ second))
      | _, _ => inl Panicked
      end
  end.

Definition verifyES256 (input sig : string) : bool :=
  match DecodeString sig with
  | None => false
  | Some raw =>
      if negb (String.length raw =? es256SigBytes)%nat then false
      else ecdsa_Verify (Sum256 input) (SetBytes (str_take (es256SigBytes / 2) raw))
             (SetBytes (str_drop (es256SigBytes / 2) raw))
  end.
End es256.

(** * The issuer *)

(** [sum] is the hash jose makes of the public key. *)
Definition thumbprint (sum : string) : string := EncodeToString sum.

Definition newTokenIssuer (kid issuer : string) : TokenIssuer :=
  mkIssuer true
    (EncodeToString ("{" +:+ quoted "alg" +:+ ":" +:+ quoted "ES256" +:+ "," +:+ quoted "kid" +:+ ":" +:+ quoted kid
                     +:+ "," +:+ quoted "typ" +:+ ":" +:+ quoted accessTokenType +:+ "}"))
    issuer.

Section jwt.
Context `{JSON, Unicode, ES256} (t : TokenIssuer).

Definition payload_of (claims : AccessTokenClaims) (aud : string) (ttl now : Z) (jti : string) : jwtPayload :=
  mkPayload (IssuerOf t) [aud] (unix (now + ttl)) (unix now) jti 0 (cl_Subject claims) (cl_Email claims)
    (cl_DisplayName claims) (cl_Groups claims) (cl_Grants claims) (cl_ClientID claims).

(** jti and rnd are what the random source gives. *)
Definition IssueAccessToken (claims : AccessTokenClaims) (aud : string) (ttl now : Z) (jti : string) (rnd : Z) :
    jwt_error + string :=
  if negb (has_signer t) then inl ErrMissingKey
  else if is_empty (cl_Subject claims) then inl ErrIncompleteClaims
  else if is_empty (cl_ClientID claims) then inl ErrIncompleteClaims
  else if is_empty aud then inl ErrIncompleteClaims
  else
    match marshal_payload (payload_of claims aud ttl now jti) with
    | None => inl MarshalError
    | Some payloadJSON =>
        let signingInput := header t +:+ "." +:+ EncodeToString payloadJSON in
        match signES256 rnd signingInput with
        | inl e => inl e
        | inr sig => inr (signingInput +:+ "." +:+ sig)
        end
    end.

(** The claims and the expiry a verified token gives. *)
Definition VerifyAccessToken (token aud : string) (now : Z) : jwt_error + AccessTokenClaims * Z :=
  if negb (has_signer t) then inl ErrMissingKey else
  match split_byte "." token with
  | [part0; part1; part2] =>
      match DecodeString part0 ≫= unmarshal_header with
      | None => inl ErrMalformedToken
      | Some hdr =>
          if negb (bool_decide (Alg hdr = "ES256")) then inl ErrMalformedToken
          else if negb (EqualFold (Typ hdr) accessTokenType) && negb (EqualFold (Typ hdr) accessTokenTypeFull) then
            inl ErrMalformedToken
          else
          match DecodeString part1 ≫= unmarshal_payload with
          | None => inl ErrMalformedToken
          | Some p =>
              if negb (bool_decide (p_Issuer p = IssuerOf t)) then inl ErrIssuerMismatch
              else if negb (verifyES256 (part0 +:+ "." +:+ part1) part2) then inl ErrInvalidSig
              else if negb (bool_decide (aud ∈ p_Audience p)) then inl ErrAudienceMismatch
              else if negb (p_NotBefore p =? 0) && time_before now (p_NotBefore p * 1000000000) then inl ErrTokenExpired
              else if is_empty (p_Subject p) || is_empty (p_ClientID p) then inl ErrIncompleteClaims
              else if time_before (p_ExpiresAt p * 1000000000) now then inl ErrTokenExpired
              else inr (mkClaims (p_Subject p) (p_Email p) (p_Name p) (p_Groups p) (p_Grants p) (p_ClientID p),
                        p_ExpiresAt p * 1000000000)
          end
      end
  | _ => inl ErrMalformedToken
  end.

(** What the middleware makes of a bearer token: a token of another issuer, or
    none, is for someone else to judge. *)
Inductive identified :=
| Identified (id : Identity) (clientID : string) (expires : Z)
| ErrForeignToken
| Refused (e : jwt_error).

Definition Identify (token resource : string) (now : Z) : identified :=
  match VerifyAccessToken token resource now with
  | inl ErrIssuerMismatch | inl ErrMalformedToken => ErrForeignToken
  | inl e => Refused e
  | inr (claims, expires) =>
      Identified (mkIdentity (cl_Subject claims) (cl_Email claims) (cl_DisplayName claims) (cl_Groups claims) ProviderName)
        (cl_ClientID claims) expires
  end.

(** * What a token says, and to whom *)

Lemma split_one c a b : IndexByte a c = None → split_byte c (a +:+ String c b) = a :: split_byte c b.
Proof.
  induction a as [|d a IH]; cbn.
  - intros _. by rewrite Ascii.eqb_refl.
  - destruct (Ascii.eqb d c); [done|]. destruct (IndexByte a c); [done|]. intros _. by rewrite IH.
Qed.

Lemma split_last c a : IndexByte a c = None → split_byte c a = [a].
Proof.
  induction a as [|d a IH]; [done|]. cbn. destruct (Ascii.eqb d c); [done|]. destruct (IndexByte a c); [done|].
  intros _. by rewrite IH.
Qed.

Lemma token_parts a b c : IndexByte a "." = None → IndexByte b "." = None → IndexByte c "." = None →
  split_byte "." ((a +:+ String "." b) +:+ String "." c) = [a; b; c].
Proof.
  intros Ha Hb Hc. rewrite str_app_assoc. cbn [String.append]. rewrite (split_one "." a) by done. rewrite (split_one "." b) by done.
  by rewrite (split_last "." c).
Qed.
End jwt.

(** What is read back of what was written. *)
Section laws.
Context `{JSON, Unicode, ES256} {text : string → Prop} `{!JSONLaws text, !FoldsASCII, !ES256Laws}.

(** Either spelling of an audience is read, and the one this server mints is
    the bare string. *)
Lemma audience_roundtrip a : a ≠ [] → Forall text a → UnmarshalJSON (MarshalJSON a) = Some a.
Proof.
  intros Ha Hl. unfold UnmarshalJSON, MarshalJSON. destruct a as [|x [|y a]]; [done| |].
  - apply Forall_cons in Hl as [Hx _]. by rewrite (string_quote (text := text)).
  - by rewrite (string_array (text := text)), (strings_array (text := text)).
Qed.

Lemma audience_compact a : a ≠ [] → Forall text a → json_compact (MarshalJSON a) = Some (MarshalJSON a).
Proof.
  intros Ha Hl. unfold MarshalJSON. destruct a as [|x [|y a]]; [done| |by apply compact_array].
  apply Forall_cons in Hl as [Hx _]. by apply compact_quote.
Qed.

(** What encodes as it is: its strings are UTF-8, its times 64-bit. *)
Definition carried (p : jwtPayload) : Prop :=
  Forall text ([p_Issuer p; p_JTIID p; p_Subject p; p_Email p; p_Name p; p_ClientID p] ++ p_Audience p ++ p_Groups p) ∧
  Forall (λ n, min_int64 ≤ n ≤ max_int64) [p_ExpiresAt p; p_IssuedAt p; p_NotBefore p].

Definition with_grants (p : jwtPayload) (g : string) : jwtPayload :=
  mkPayload (p_Issuer p) (p_Audience p) (p_ExpiresAt p) (p_IssuedAt p) (p_JTIID p) (p_NotBefore p) (p_Subject p)
    (p_Email p) (p_Name p) (p_Groups p) g (p_ClientID p).

Lemma tag_text tag : tag ∈ payload_tags → text tag.
Proof.
  intros Ht. apply plain_text. revert Ht. apply (proj1 (Forall_forall (λ s, str_forall plain_char s = true) _)).
  repeat constructor.
Qed.

Lemma omitempty_all (P : string * string → Prop) b tag v : (b = false → P (tag, v)) → Forall P (omitempty b tag v).
Proof. destruct b; cbn; auto. Qed.

Lemma members_carried p members : carried p → p_Audience p ≠ [] → payload_members p = Some members →
  Forall (λ m, text m.1 ∧ json_compact m.2 = Some m.2) members.
Proof.
  intros [Ht Hn] Ha. unfold payload_members. apply Forall_app in Ht as [Ht [Haud Hg]%Forall_app].
  rewrite audience_compact by done. cbn [mbind option_bind].
  destruct (raw_text (p_Grants p)) as [g|] eqn:Eg; [|done]. cbn [mbind option_bind]. intros [= <-].
  decompose_Forall_hyps.
  repeat (apply Forall_app_2 || apply Forall_cons_2 || apply Forall_nil_2 || apply omitempty_all); intros;
    (split; [apply tag_text; by apply (proj1 (bool_decide_eq_true _))|]); cbn [fst snd];
    eauto using compact_quote, compact_Itoa, audience_compact, compact_array.
  revert Eg. unfold raw_text. case_match; [done|]. apply compact_idem.
Qed.

Lemma fold_option_app {A B} (f : A → B → option A) a l k :
  fold_option f a (l ++ k) = a' ← fold_option f a l; fold_option f a' k.
Proof. revert a. induction l as [|b l IH]; intros a; [done|]. cbn. destruct (f a b); [apply IH|done]. Qed.

Lemma field_known key : bool_decide (key ∈ payload_tags) = true → json_field payload_tags key = Some key.
Proof. intros Hk. unfold json_field. by rewrite Hk. Qed.

Lemma set_members p members g : carried p → p_Audience p ≠ [] → payload_members p = Some members →
  raw_text (p_Grants p) = Some g → fold_option set_payload zero_payload members = Some (with_grants p g).
Proof.
  intros [Ht Hn] Ha. unfold payload_members. apply Forall_app in Ht as [Ht [Haud Hg]%Forall_app].
  rewrite audience_compact by done. cbn [mbind option_bind]. intros Hm Eg. rewrite Eg in Hm. injection Hm as <-.
  destruct p as [iss aud exp iat jti nbf sub email name groups grants client].
  cbn -[json_array min_int64 max_int64] in *. decompose_Forall_hyps. unfold omitempty.
  assert (grants = "" → g = "") as Hempty by (intros ->; by injection Eg). clear Eg.
  destruct (Z.eqb_spec nbf 0) as [->|_], (is_empty email) eqn:E1, (is_empty name) eqn:E2, (decide (groups = [])) as [->|Hgs],
    (is_empty grants) eqn:E3; try rewrite !is_empty_spec in *; subst;
    rewrite ?(bool_decide_false _ Hgs), ?(bool_decide_true (@nil string = [])) by done;
    repeat (cbn -[json_array json_field]; rewrite ?field_known by done; rewrite ?(string_quote (text := text)), ?(int_Itoa (text := text)),
      ?(audience_roundtrip aud), ?(strings_array (text := text)) by done);
    by rewrite ?Hempty by done.
Qed.

Lemma unmarshal_marshal p json : carried p → p_Audience p ≠ [] → marshal_payload p = Some json →
  ∃ g, raw_text (p_Grants p) = Some g ∧ unmarshal_payload json = Some (with_grants p g).
Proof.
  intros Hc Ha. unfold marshal_payload. destruct (payload_members p) as [members|] eqn:Em; [|done].
  intros [= <-]. destruct (raw_text (p_Grants p)) as [g|] eqn:Eg.
  - exists g. split; [done|]. unfold unmarshal_payload.
    rewrite (members_object (text := text)) by (by eapply members_carried). by eapply set_members.
  - unfold payload_members in Em. rewrite Eg in Em. by destruct (json_compact _).
Qed.

Lemma verify_sign rnd input sig : signES256 rnd input = inr sig →
  IndexByte sig "." = None ∧ verifyES256 input sig = true.
Proof.
  unfold signES256. destruct (ecdsa_Sign rnd (Sum256 input)) as [[r s]|] eqn:Es; [|done].
  destruct (FillBytes _ r) as [a|] eqn:Ea; [|done]. destruct (FillBytes _ s) as [b|] eqn:Eb; [|done].
  intros [= <-]. split; [apply encode_no_dot|]. apply SetBytes_FillBytes in Ea as [La Ra], Eb as [Lb Rb].
  unfold verifyES256. rewrite decode_encode, str_length_app, La, Lb. cbn [Nat.eqb negb Nat.add].
  change (es256SigBytes / 2 + es256SigBytes / 2 =? es256SigBytes)%nat with true. cbn [negb].
  rewrite <-La. destruct (str_drop_take_app a b) as [-> ->]. rewrite Ra, Rb. by eapply sign_verifies.
Qed.

(** A signature of the documented range is never refused for its width. *)
Lemma sign_total rnd input : is_Some (ecdsa_Sign rnd (Sum256 input)) → ∃ sig, signES256 rnd input = inr sig.
Proof.
  intros [[r s] Es]. destruct (sign_range _ _ _ _ Es). unfold signES256. rewrite Es. unfold FillBytes.
  rewrite !bool_decide_true by (change (256 ^ Z.of_nat (es256SigBytes / 2)) with (2 ^ 256); lia). by eexists.
Qed.

Lemma set_alg h s : text s → set_header h ("alg", json_quote s) = Some (mkHeader s (Typ h)).
Proof. intros Hs. unfold set_header. cbn. by rewrite (string_quote (text := text)). Qed.

Lemma set_typ h s : text s → set_header h ("typ", json_quote s) = Some (mkHeader (Alg h) s).
Proof.
  intros Hs. unfold set_header. cbn [fst snd]. change (json_field ["alg"; "typ"] "typ") with (Some "typ"). cbv iota beta.
  by rewrite (string_quote (text := text)).
Qed.

Lemma set_kid h raw : set_header h ("kid", raw) = Some h.
Proof.
  unfold set_header, json_field. cbn [fst snd List.find]. by rewrite !equal_fold_ascii by done.
Qed.

(** The literal header is the JSON it looks like. *)
Lemma header_read sum issuer :
  let t := newTokenIssuer (thumbprint sum) issuer in
  DecodeString (header t) ≫= unmarshal_header = Some (mkHeader "ES256" accessTokenType) ∧
  IndexByte (header t) "." = None.
Proof.
  cbn zeta. unfold newTokenIssuer. cbn [header]. split; [|apply encode_no_dot].
  rewrite decode_encode. cbn [mbind option_bind]. unfold unmarshal_header.
  assert (str_forall plain_char (thumbprint sum) = true) as Hk.
  { eapply str_forall_impl, encode_url. exact url_char_plain. }
  match goal with |- json_members ?s ≫= _ = _ =>
    replace s with (json_object [("alg", json_quote "ES256"); ("kid", json_quote (thumbprint sum));
                                 ("typ", json_quote accessTokenType)]) end.
  - rewrite (members_object (text := text)).
    + cbn [mbind option_bind fold_option]. rewrite set_alg by (by apply plain_text). cbn [mbind option_bind].
      rewrite set_kid. cbn [mbind option_bind]. by rewrite set_typ by (by apply plain_text).
    + repeat constructor; cbn [fst snd]; apply plain_text || (apply (compact_quote (text := text)), plain_text); done.
  - unfold json_object. cbn [fmap list_fmap Join fst snd]. rewrite !(quote_plain (text := text)) by done.
    by rewrite !str_app_assoc.
Qed.

Lemma marshal_total p : carried p → p_Audience p ≠ [] → is_Some (raw_text (p_Grants p)) → is_Some (marshal_payload p).
Proof.
  intros [Ht _] Ha [g Eg]. apply Forall_app in Ht as [_ [Haud _]%Forall_app].
  unfold marshal_payload, payload_members. rewrite audience_compact by done. rewrite Eg. by eexists.
Qed.

(** The claims as they travel: the grants in their compact form. *)
Definition claims_with (claims : AccessTokenClaims) (g : string) : AccessTokenClaims :=
  mkClaims (cl_Subject claims) (cl_Email claims) (cl_DisplayName claims) (cl_Groups claims) g (cl_ClientID claims).

Lemma verify_issued t claims aud ttl issued jti rnd resource now token :
  let expires := unix (issued + ttl) * 1000000000 in
  DecodeString (header t) ≫= unmarshal_header = Some (mkHeader "ES256" accessTokenType) ∧ IndexByte (header t) "." = None →
  carried (payload_of t claims aud ttl issued jti) → IssueAccessToken t claims aud ttl issued jti rnd = inr token →
  ∃ g, raw_text (cl_Grants claims) = Some g ∧
    VerifyAccessToken t token resource now =
      (if negb (bool_decide (resource = aud)) then inl ErrAudienceMismatch
       else if time_before expires now then inl ErrTokenExpired
       else inr (claims_with claims g, expires)).
Proof.
  intros expires [Hh Hhd] Hc. unfold IssueAccessToken. destruct (has_signer t) eqn:E0; [|done]. cbn [negb].
  destruct (is_empty (cl_Subject claims)) eqn:E1; [done|]. destruct (is_empty (cl_ClientID claims)) eqn:E2; [done|].
  destruct (is_empty aud); [done|]. destruct (marshal_payload _) as [json|] eqn:Em; [|done].
  destruct (signES256 _ _) as [|sig] eqn:Es; [done|]. intros [= <-].
  apply verify_sign in Es as [Hdot Hv]. apply unmarshal_marshal in Em as (g & Hg & Hp); [|done..].
  exists g. split; [done|]. unfold VerifyAccessToken. rewrite E0. cbn [negb].
  rewrite token_parts by (exact Hhd || apply encode_no_dot || exact Hdot). rewrite Hh. cbn [Alg Typ].
  rewrite bool_decide_true, equal_fold_ascii by done. change (String.eqb _ _) with true. cbn [negb andb].
  rewrite decode_encode. cbn [mbind option_bind]. rewrite Hp.
  cbn [p_Issuer p_Audience p_NotBefore p_Subject p_ClientID p_ExpiresAt p_Email p_Name p_Groups p_Grants payload_of with_grants].
  rewrite bool_decide_true by done. cbn [negb String.append]. cbn [String.append] in Hv. rewrite Hv. cbn [negb].
  rewrite (bool_decide_ext (resource ∈ [aud]) (resource = aud)) by (by rewrite list_elem_of_singleton).
  destruct (bool_decide (resource = aud)); [|done]. cbn [negb]. rewrite Z.eqb_refl. cbn [negb andb]. by rewrite E1, E2.
Qed.

(** C36: an access token says what it was issued with, to the resource it was
    issued for and no other, and until it expires. One is issued for every set
    of complete claims whose grants are JSON, as long as the signer signs. What
    the issuer's own header, JSON and signature encoding made of it, its
    verification reads back: at a resource it gives the claims (the grants
    compacted) when the resource is the audience and the second it expires in
    has not passed, and otherwise names why not. The identity made of it is of
    the token's subject and is not one that could authorize a client. *)
Theorem token_identity sum issuer claims aud ttl issued jti rnd resource now :
  let t := newTokenIssuer (thumbprint sum) issuer in
  let expires := unix (issued + ttl) * 1000000000 in
  carried (payload_of t claims aud ttl issued jti) →
  (cl_Subject claims ≠ "" → cl_ClientID claims ≠ "" → aud ≠ "" → is_Some (raw_text (cl_Grants claims)) →
   (∀ digest, is_Some (ecdsa_Sign rnd digest)) → ∃ token, IssueAccessToken t claims aud ttl issued jti rnd = inr token) ∧
  ∀ token, IssueAccessToken t claims aud ttl issued jti rnd = inr token →
    ∃ g, raw_text (cl_Grants claims) = Some g ∧
      VerifyAccessToken t token resource now =
        (if negb (bool_decide (resource = aud)) then inl ErrAudienceMismatch
         else if time_before expires now then inl ErrTokenExpired
         else inr (claims_with claims g, expires)) ∧
      ∀ id client e, Identify t token resource now = Identified id client e →
        id_Subject id = cl_Subject claims ∧ client = cl_ClientID claims ∧
        consentRefusal (Some id) = Some (403, "an access token cannot authorize a client; sign in first").
Proof.
  intros t expires Hc. split.
  - intros H1' H2' H3' Hg Hsig. unfold IssueAccessToken. cbn [has_signer t newTokenIssuer negb].
    rewrite !is_empty_false by done.
    destruct (marshal_total (payload_of t claims aud ttl issued jti) Hc) as [json Ej]; [done|exact Hg|]. fold t. rewrite Ej.
    edestruct (sign_total rnd) as [sig ->]; [apply Hsig|]. by eexists.
  - intros token Hi. destruct (verify_issued t _ _ _ _ _ _ resource now _ (header_read sum issuer) Hc Hi) as (g & Hg & V).
    exists g. split_and!; [done|exact V|]. intros id client e. unfold Identify. fold t in V. rewrite V. case_match; [done|].
    fold expires. destruct (time_before expires now); [done|]. intros Hid. injection Hid as <- <- _. split_and!; reflexivity.
Qed.
End laws.

(** A signer to compute with: it signs with the digest's first bytes. *)
Definition demo_es256 : ES256 := {|
  Sum256 input := str_take 8 input;
  ecdsa_Sign rnd digest := Some (SetBytes (str_take 8 digest) mod 2 ^ 256, rnd mod 2 ^ 256);
  ecdsa_Verify digest r _ := r =? SetBytes (str_take 8 digest) mod 2 ^ 256 |}.

Lemma demo_es256_laws : @ES256Laws demo_es256.
Proof.
  split; cbn [ecdsa_Sign ecdsa_Verify demo_es256]; intros rnd digest r s [= <- <-].
  - split; apply Z.mod_pos_bound; lia.
  - by rewrite Z.eqb_refl.
Qed.

Definition demo_claims : AccessTokenClaims :=
  mkClaims "alice" "a@c" "Alice" ["ops"; "dev"] "{}" "https://cli".

Definition demo_token : string :=
  match @IssueAccessToken demo_json demo_es256 (newTokenIssuer (thumbprint "key") "https://c") demo_claims
          "https://c/mcp" 3600000000000 1000000000 "j" 7 with
  | inr token => token
  | inl _ => ""
  end.

Lemma token_identity_witness :
  @VerifyAccessToken demo_json ascii_unicode demo_es256 (newTokenIssuer (thumbprint "key") "https://c") demo_token
    "https://c/mcp" 2000000000 = inr (demo_claims, 3601000000000).
Proof.
  pose proof (@token_identity demo_json ascii_unicode demo_es256 demo_text demo_json_laws ascii_unicode_folds demo_es256_laws
    "key" "https://c" demo_claims "https://c/mcp" 3600000000000 1000000000 "j" 7 "https://c/mcp" 2000000000) as H.
  cbn zeta in H. destruct H as [_ H].
  - split; repeat constructor; by vm_compute.
  - destruct (H demo_token) as (g & Hg & V & _); [by vm_compute|]. vm_compute in Hg. injection Hg as <-. exact V.
Defined.
