(* ===== verification/OAuthClients.v ===== *)
(** The clients of the authorization server: dynamic registration
    (internal/oauth/dcr.go) and client ID metadata documents (cimd.go), with
    the registry, its rate limit and the cache of documents. [URLs] is package
    net/url's Parse, [HTTPDates] net/http's ParseTime and [Documents] the JSON
    decoder; what the network answers is an argument. *)
From S2P Require Import Prelude GoStrings GoStrconv GoURL GoNet OAuthTokens OAuthConsent OAuthServer.
#[local] Open Scope string_scope.
#[local] Open Scope Z_scope.
#[local] Open Scope list_scope.

(** * Redirect URIs *)

Section uris.
Context `{URLs}.

Definition isLoopbackURI (rawURI : string) : bool :=
  match url_Parse rawURI with
  | None => false
  | Some u =>
      if negb (bool_decide (u_Scheme u = "http")) then false
      else if bool_decide (u_Hostname u = "localhost") then true
      else match ParseIP (u_Hostname u) with Some ip => IsLoopback ip | None => false end
  end.

Definition isValidRedirectURI (rawURI : string) : bool :=
  match url_Parse rawURI with
  | None => false
  | Some u =>
      if Contains rawURI "#" then false
      else if bool_decide (u_Scheme u = "https") then true
      else isLoopbackURI rawURI
  end.
End uris.

(** * Dynamic client registration *)

Definition dcrMaxClientNameLen : nat := 256.
Definition dcrMaxRedirectURIs : nat := 10.
Definition dcrMaxRedirectURILen : nat := 2048.

Record ClientRegistration := mkRegistration {
  cr_ClientID : string;
  cr_ClientName : string;
  cr_RedirectURIs : list string;
  cr_GrantTypes : list string;
  cr_ResponseTypes : list string;
  cr_AuthMethod : string;
  cr_IssuedAt : Z;
  cr_ApplicationType : string;
}.

Record dcrRequest := mkDcrRequest {
  rq_ClientName : string;
  rq_RedirectURIs : list string;
  rq_GrantTypes : list string;
  rq_ResponseTypes : list string;
  rq_AuthMethod : string;
  rq_ApplicationType : string;
}.

Record ipBucket := mkBucket { tokens : Z; resetAt : Z }.

Record ClientRegistry := mkRegistry {
  clients : gmap string ClientRegistration;
  order : list string;
  maxClients : Z;
  buckets : gmap string ipBucket;
  rateLimit : Z;
}.

Definition newClientRegistry (maxClients rateLimit : Z) : ClientRegistry := mkRegistry ∅ [] maxClients ∅ rateLimit.

Definition Get (clientID : string) (r : ClientRegistry) : option ClientRegistration := clients r !! clientID.

(** What follows the oldest when one is evicted. *)
Definition evict_oldest (r : ClientRegistry) : gmap string ClientRegistration * list string :=
  if (maxClients r <=? Z.of_nat (size (clients r))) && (0 <? maxClients r) then
    match order r with
    | oldest :: rest => (delete oldest (clients r), rest)
    | [] => (clients r, [])
    end
  else (clients r, order r).

Definition register (reg : ClientRegistration) (r : ClientRegistry) : ClientRegistry :=
  let '(kept, ids) := evict_oldest r in
  mkRegistry (<[cr_ClientID reg := reg]> kept) (ids ++ [cr_ClientID reg]) (maxClients r) (buckets r) (rateLimit r).

Definition Registry_Snapshot (r : ClientRegistry) : list ClientRegistration :=
  omap (λ id, clients r !! id) (order r).

Fixpoint restore_all (regs : list ClientRegistration) (held : gmap string ClientRegistration) (ids : list string)
    : gmap string ClientRegistration * list string :=
  match regs with
  | [] => (held, ids)
  | reg :: regs =>
      match held !! cr_ClientID reg with
      | Some _ => restore_all regs held ids
      | None => restore_all regs (<[cr_ClientID reg := reg]> held) (ids ++ [cr_ClientID reg])
      end
  end.

(** The newest registrations the cap allows. *)
Definition newest (cap : Z) (regs : list ClientRegistration) : list ClientRegistration :=
  if (0 <? cap) && (cap <? Z.of_nat (length regs)) then drop (length regs - Z.to_nat cap) regs else regs.

Definition Registry_Restore (regs : list ClientRegistration) (r : ClientRegistry) : ClientRegistry :=
  let '(held, ids) := restore_all (newest (maxClients r) regs) ∅ [] in
  mkRegistry held ids (maxClients r) (buckets r) (rateLimit r).

Definition hour : Z := 3600 * 1000000000.

Definition with_buckets (r : ClientRegistry) (b : gmap string ipBucket) : ClientRegistry :=
  mkRegistry (clients r) (order r) (maxClients r) b (rateLimit r).

Definition checkRateLimit (ip : string) (now : Z) (r : ClientRegistry) : bool * ClientRegistry :=
  let live := filter (λ kb, time_after now (resetAt kb.2) = false) (buckets r) in
  match live !! ip with
  | None => (true, with_buckets r (<[ip := mkBucket (rateLimit r - 1) (now + hour)]> live))
  | Some b =>
      if tokens b <=? 0 then (false, with_buckets r live)
      else (true, with_buckets r (<[ip := mkBucket (tokens b - 1) (resetAt b)]> live))
  end.

Inductive dcr_response :=
| DCRNotEnabled
| DCRError (status : Z) (code desc : string)
| Registered (reg : ClientRegistration).

Definition invalid_metadata (desc : string) : dcr_response := DCRError 400 "invalid_client_metadata" desc.

(** Whether a list of values is free of repeats and of unknown ones. *)
Fixpoint known_once (known : string → bool) (before values : list string) : bool :=
  match values with
  | [] => true
  | v :: values => known v && negb (bool_decide (v ∈ before)) && known_once known (before ++ [v]) values
  end.

Definition in_quotes (s : string) : string := String "034" (s +:+ String "034" "").

Definition known_grant (g : string) : bool :=
  bool_decide (g = "authorization_code") || bool_decide (g = "refresh_token").

Section registration.
Context `{URLs}.

Definition check_uri (uri : string) : option dcr_response :=
  if (dcrMaxRedirectURILen <? String.length uri)%nat then
    Some (DCRError 400 "invalid_redirect_uri" "redirect_uri must be at most 2048 bytes")
  else if negb (isValidRedirectURI uri) then
    Some (invalid_metadata ("redirect_uri must be https:// or loopback http://: " +:+ uri))
  else None.

(** What HandleRegister makes of a request's metadata: a refusal, or the
    registration it would keep. *)
Definition registration_of (req : dcrRequest) (clientID : string) (issued : Z) : dcr_response :=
  if (dcrMaxClientNameLen <? String.length (rq_ClientName req))%nat then
    invalid_metadata "client_name must be at most 256 bytes"
  else if bool_decide (rq_RedirectURIs req = []) then invalid_metadata "redirect_uris is required"
  else if (dcrMaxRedirectURIs <? length (rq_RedirectURIs req))%nat then
    invalid_metadata "redirect_uris must hold at most 10 entries"
  else
  match first_error check_uri (rq_RedirectURIs req) with
  | Some refusal => refusal
  | None =>
      let authMethod := if is_empty (rq_AuthMethod req) then "none" else rq_AuthMethod req in
      if negb (bool_decide (authMethod = "none")) then
        invalid_metadata "token_endpoint_auth_method must be 'none' (public clients only)"
      else
      let applicationType := if is_empty (rq_ApplicationType req) then "native" else rq_ApplicationType req in
      if negb (bool_decide (applicationType = "native")) && negb (bool_decide (applicationType = "web")) then
        invalid_metadata ("application_type must be " +:+ in_quotes "native" +:+ " or " +:+ in_quotes "web")
      else if bool_decide (applicationType = "web") && existsb isLoopbackURI (rq_RedirectURIs req) then
        DCRError 400 "invalid_redirect_uri" "a web client may not register a loopback redirect URI"
      else
      let grantTypes := match rq_GrantTypes req with [] => ["authorization_code"; "refresh_token"] | l => l end in
      if negb (known_once known_grant [] grantTypes) then
        invalid_metadata "grant_types must be a subset of [authorization_code, refresh_token]"
      else
      let responseTypes := match rq_ResponseTypes req with [] => ["code"] | l => l end in
      if negb (known_once (λ t, bool_decide (t = "code")) [] responseTypes) then
        invalid_metadata "response_types must be a subset of [code]"
      else
        Registered (mkRegistration clientID (rq_ClientName req) (rq_RedirectURIs req) grantTypes responseTypes authMethod
          issued applicationType)
  end.

(** [decoded] is what the body's JSON holds, or the decoder's error; [drawn]
    the random token of a new client's ID. *)
Definition HandleRegister (r : option ClientRegistry) (ip : string) (now : Z) (decoded : string + dcrRequest)
    (drawn : string) : dcr_response * option ClientRegistry :=
  match r with
  | None => (DCRNotEnabled, None)
  | Some r =>
      let '(ok, r) := checkRateLimit ip now r in
      if negb ok then (DCRError 429 "too_many_requests" "registration rate limit exceeded", Some r) else
      match decoded with
      | inl err => (invalid_metadata ("invalid JSON: " +:+ err), Some r)
      | inr req =>
          match registration_of req ("cetacean-" +:+ drawn) (now / 1000000000) with
          | Registered reg => (Registered reg, Some (register reg r))
          | refusal => (refusal, Some r)
          end
      end
  end.
End registration.

(** * Client ID metadata documents *)

Definition second : Z := 1000000000.
Definition cimdCacheTTL : Z := hour.
Definition cimdMaxCacheTTL : Z := 24 * hour.
Definition cimdCacheMaxEntries : nat := 512.
Definition cimdMaxBodyBytes : nat := 5 * 1024.

Inductive cimd_error :=
| ErrCIMDInvalidURL | ErrCIMDOversize | ErrCIMDClientIDMismatch | ErrCIMDSymmetricAuth | ErrCIMDUnsupportedAuth
| ErrFetch (text : string).

(** The whole document. [doc_Meta] is what the server goes on with. *)
Record Document := mkDocument {
  doc_ClientID : string;
  doc_Meta : ClientMetadata;
  doc_LogoURI : string;
  doc_AuthMethod : string;
}.

Class Documents := { decode_document : string → option Document }.

(** What the network answers; a body that fails to read is [None]. A redirect,
    a refused address and a timeout are all [Unreachable]. *)
Inductive answer :=
| Unreachable
| Answered (status : Z) (h : Header) (body : option string).

Record cachedEntry := mkCached { ce_meta : ClientMetadata; ce_expires : Z }.

Definition lapsed (now : Z) (e : cachedEntry) : bool := negb (time_before now (ce_expires e)).

Abbreviation DocumentCache := (gmap string cachedEntry).

Definition isDotSegment (segment : string) : bool := bool_decide (segment = ".") || bool_decide (segment = "..").

Definition isSymmetricAuthMethod (method : string) : bool :=
  bool_decide (method ∈ ["client_secret_post"; "client_secret_basic"; "client_secret_jwt"]).

(** strconv.ParseUint(s, 10, 31): which error comes first is seen from the left. *)
Inductive parsed31 := Seconds (n : Z) | OutOfRange | NotANumber.

Fixpoint parse31 (n : Z) (s : string) : parsed31 :=
  match s with
  | "" => Seconds n
  | String c s =>
      match digit_value c with
      | None => NotANumber
      | Some d => if 2 ^ 31 - 1 <? n * 10 + d then OutOfRange else parse31 (n * 10 + d) s
      end
  end.

Definition deltaSeconds (value : string) : Z :=
  match (if is_empty value then NotANumber else parse31 0 value) with
  | Seconds n => n * second
  | OutOfRange => 2 ^ 31 * second
  | NotANumber => 0
  end.

Section documents.
Context `{URLs, Documents, HTTPDates, Unicode, MapRange}.

Definition directive (held : gmap string string) (text : string) : gmap string string :=
  let '(name, value, _) := Cut (TrimSpace text) "=" in
  let name := ToLower (TrimSpace name) in
  if is_empty name || bool_decide (is_Some (held !! name)) then held
  else <[name := trim_byte "034" (TrimSpace value)]> held.

Definition cacheControl (h : Header) : gmap string string :=
  foldl directive ∅ (h_Values "Cache-Control" h ≫= split_byte ",").

Definition cacheLifetime (h : Header) (now : Z) : Z :=
  let directives := cacheControl h in
  if existsb (λ name, bool_decide (directives !! name = Some "")) ["no-store"; "no-cache"; "private"] then 0 else
  let lifetime :=
    match directives !! "s-maxage", directives !! "max-age", h_Values "Expires" h with
    | Some value, _, _ => deltaSeconds value
    | None, Some value, _ => deltaSeconds value
    | None, None, first_ :: _ =>
        let date := default now (ParseTime (h_Get "Date" h)) in
        match ParseTime first_ with Some expires => time_sub expires date | None => 0 end
    | None, None, [] => cimdCacheTTL
    end in
  Z.min (Z.max (wrap_int64 (lifetime - deltaSeconds (h_Get "Age" h))) 0) cimdMaxCacheTTL.

Definition soonest (held : DocumentCache) : string * Z :=
  foldl (λ best kv,
    if is_empty best.1 || time_before (ce_expires kv.2) best.2 then (kv.1, ce_expires kv.2) else best)
    ("", 0) (range held).

Definition evictFor (now : Z) (held : DocumentCache) : DocumentCache :=
  if (size held <? cimdCacheMaxEntries)%nat then held else
  let held := filter (λ kv, lapsed now kv.2 = false) held in
  if (size held <? cimdCacheMaxEntries)%nat then held else delete (soonest held).1 held.

Definition cacheGet (clientID : string) (now : Z) (held : DocumentCache) : option ClientMetadata :=
  match held !! clientID with
  | Some e => if lapsed now e then None else Some (ce_meta e)
  | None => None
  end.

Definition cachePut (clientID : string) (meta : ClientMetadata) (lifetime now : Z) (held : DocumentCache) : DocumentCache :=
  if lifetime <=? 0 then delete clientID held else
  let held := if bool_decide (is_Some (held !! clientID)) then held else evictFor now held in
  <[clientID := mkCached meta (now + lifetime)]> held.

Definition validateURL (rawURL : string) : option cimd_error :=
  match url_Parse rawURL with
  | None => Some ErrCIMDInvalidURL
  | Some u =>
      if negb (bool_decide (u_Scheme u = "https")) then Some ErrCIMDInvalidURL
      else if negb (is_empty (u_Fragment u)) then Some ErrCIMDInvalidURL
      else if u_User u then Some ErrCIMDInvalidURL
      else if is_empty (u_Path u) || bool_decide (u_Path u = "/") then Some ErrCIMDInvalidURL
      else if existsb isDotSegment (split_byte "/" (u_Path u)) then Some ErrCIMDInvalidURL
      else None
  end.

(** What a fetch makes of the answer: an error, or the document to keep. *)
Definition read_answer (clientID : string) (a : answer) : cimd_error + ClientMetadata :=
  match a with
  | Unreachable => inl (ErrFetch "HTTP request")
  | Answered status h body =>
      if negb (status =? 200) then inl (ErrFetch ("unexpected HTTP status " +:+ Itoa status)) else
      if HasPrefix (h_Get "Content-Type" h) "text/html" then inl (ErrFetch "unexpected Content-Type") else
      match body with
      | None => inl (ErrFetch "read body")
      | Some text =>
          if (cimdMaxBodyBytes <? String.length text)%nat then inl ErrCIMDOversize else
          match decode_document text with
          | None => inl (ErrFetch "JSON decode")
          | Some doc =>
              if negb (bool_decide (doc_ClientID doc = clientID)) then inl ErrCIMDClientIDMismatch
              else if isSymmetricAuthMethod (doc_AuthMethod doc) then inl ErrCIMDSymmetricAuth
              else if negb (is_empty (doc_AuthMethod doc)) && negb (bool_decide (doc_AuthMethod doc = "none")) then
                inl ErrCIMDUnsupportedAuth
              else if negb (forallb isValidRedirectURI (RedirectURIs (doc_Meta doc))) then inl ErrCIMDInvalidURL
              else if negb (is_empty (doc_LogoURI doc)) &&
                      negb (bool_decide (u_Scheme <$> url_Parse (doc_LogoURI doc) = Some "https")) then
                inl ErrCIMDInvalidURL
              else inr (doc_Meta doc)
          end
      end
  end.

Definition answer_header (a : answer) : Header := match a with Answered _ h _ => h | Unreachable => ∅ end.

(** Fetch takes the cache twice: to look, and, the network having answered, to
    put what it read. [None] of the first is that it goes on to the second. *)
Definition Fetch_look (clientID : string) (now : Z) (held : DocumentCache) : option (cimd_error + ClientMetadata) :=
  match validateURL clientID with
  | Some err => Some (inl err)
  | None => inr <$> cacheGet clientID now held
  end.

Definition Fetch_done (clientID : string) (a : answer) (now now' : Z) (held : DocumentCache)
    : (cimd_error + ClientMetadata) * DocumentCache :=
  match read_answer clientID a with
  | inl err => (inl err, held)
  | inr meta => (inr meta, cachePut clientID meta (cacheLifetime (answer_header a) now) now' held)
  end.
End documents.

(** * The registry *)

Lemma first_error_Some {A E} (f : A → option E) l e : first_error f l = Some e → ∃ x, x ∈ l ∧ f x = Some e.
Proof.
  induction l as [|y l IH]; cbn; [done|]. destruct (f y) eqn:Ey.
  - intros [= ->]. exists y. by split; [left|].
  - intros (x & Hx & Ex)%IH. exists x. by split; [right|].
Qed.

Section registry.
Context `{URLs}.

(** What a registration is held to. *)
Record reg_ok (reg : ClientRegistration) : Prop := {
  name_short : (String.length (cr_ClientName reg) ≤ dcrMaxClientNameLen)%nat;
  some_uris : cr_RedirectURIs reg ≠ [];
  few_uris : (length (cr_RedirectURIs reg) ≤ dcrMaxRedirectURIs)%nat;
  uris_ok uri : uri ∈ cr_RedirectURIs reg →
    (String.length uri ≤ dcrMaxRedirectURILen)%nat ∧ isValidRedirectURI uri = true;
  public_client : cr_AuthMethod reg = "none";
  app_type : cr_ApplicationType reg = "native" ∨ cr_ApplicationType reg = "web";
  web_not_loopback uri : cr_ApplicationType reg = "web" → uri ∈ cr_RedirectURIs reg → isLoopbackURI uri = false;
  grants_known g : g ∈ cr_GrantTypes reg → known_grant g = true;
}.

Lemma known_once_all known before values g : known_once known before values = true → g ∈ values → known g = true.
Proof.
  revert before. induction values as [|v values IH]; intros before; [by intros ? ?%not_elem_of_nil|].
  cbn [known_once]. intros [[Hv _]%andb_true_iff Hl]%andb_true_iff [->|Hg]%elem_of_cons; [done|by eapply IH].
Qed.

Lemma check_uri_None uri : check_uri uri = None →
  (String.length uri ≤ dcrMaxRedirectURILen)%nat ∧ isValidRedirectURI uri = true.
Proof.
  unfold check_uri. destruct (_ <? _)%nat eqn:E; [done|]. apply Nat.ltb_ge in E.
  destruct (isValidRedirectURI uri); [done|]. done.
Qed.

Lemma registration_ok req id issued reg : registration_of req id issued = Registered reg → reg_ok reg ∧ cr_ClientID reg = id.
Proof.
  unfold registration_of. destruct (_ <? _)%nat eqn:E1; [done|]. apply Nat.ltb_ge in E1.
  case_bool_decide as E2; [done|]. destruct (_ <? _)%nat eqn:E3; [done|]. apply Nat.ltb_ge in E3.
  destruct (first_error check_uri (rq_RedirectURIs req)) eqn:E4.
  { intros Ed. subst. apply first_error_Some in E4 as (uri & _ & E). unfold check_uri in E. by repeat case_match. }
  rewrite first_error_None in E4.
  case_bool_decide as E5; cbn [negb]; [|done].
  set (app := if is_empty (rq_ApplicationType req) then _ else _).
  destruct (negb _ && negb _) eqn:E6; [done|]. destruct (_ && existsb _ _) eqn:E7; [done|].
  set (gs := match rq_GrantTypes req with [] => _ | _ => _ end).
  destruct (known_once known_grant [] gs) eqn:E8; cbn [negb]; [|done].
  set (rs := match rq_ResponseTypes req with [] => _ | _ => _ end).
  destruct (known_once _ [] rs); cbn [negb]; [|done].
  intros [= <-]. split; [|done]. split; cbn; try done.
  - intros uri Hu. by apply check_uri_None, E4.
  - apply andb_false_iff in E6 as [E%negb_false_iff%bool_decide_eq_true|E%negb_false_iff%bool_decide_eq_true]; auto.
  - intros uri Hweb Hu. apply andb_false_iff in E7 as [E%bool_decide_eq_false|E]; [done|].
    rewrite existsb_False in E. by apply E.
  - intros g. by apply (known_once_all _ []).
Qed.

(** [order] lists the clients, oldest first. *)
Record registry_ok (r : ClientRegistry) : Prop := {
  listed id : id ∈ order r ↔ is_Some (clients r !! id);
  once : NoDup (order r);
  keyed id reg : clients r !! id = Some reg → cr_ClientID reg = id ∧ reg_ok reg;
  capped : 0 < maxClients r → Z.of_nat (size (clients r)) <= maxClients r;
}.

Lemma size_listed {A} (m : gmap string A) (ids : list string) :
  (∀ id, id ∈ ids ↔ is_Some (m !! id)) → NoDup ids → size m = length ids.
Proof.
  intros Hl Hn. rewrite <-size_dom, <-(size_list_to_set (C := gset string) ids) by done. f_equal.
  apply leibniz_equiv. intros id. by rewrite elem_of_dom, elem_of_list_to_set.
Qed.

Lemma NoDup_listed_cons {A} (m : gmap string A) o rest :
  (∀ id, id ∈ o :: rest ↔ is_Some (m !! id)) → NoDup (o :: rest) → ∀ id, id ∈ rest ↔ is_Some (delete o m !! id).
Proof.
  intros Hl [Ho Hn]%NoDup_cons id. destruct (decide (id = o)) as [->|Hne].
  - rewrite lookup_delete_eq. split; [done|by intros [??]].
  - rewrite lookup_delete_ne by done. rewrite <-Hl, elem_of_cons. naive_solver.
Qed.

Lemma evict_ok r kept ids : registry_ok r → evict_oldest r = (kept, ids) →
  (∀ id, id ∈ ids ↔ is_Some (kept !! id)) ∧ NoDup ids ∧
  (∀ id reg, kept !! id = Some reg → clients r !! id = Some reg) ∧
  (0 < maxClients r → Z.of_nat (length ids) < maxClients r).
Proof.
  intros [Hl Hn Hk Hc] E. pose proof (size_listed _ _ Hl Hn) as Hsize. unfold evict_oldest in E.
  destruct ((_ <=? _) && (0 <? _)) eqn:Ecap.
  - apply andb_true_iff in Ecap as [E1%Z.leb_le E2%Z.ltb_lt]. destruct (order r) as [|o rest] eqn:Eo; injection E as <- <-.
    + cbn in Hsize. rewrite Hsize in E1. cbn in E1. lia.
    + split_and!; [by apply NoDup_listed_cons|by apply NoDup_cons in Hn as [_ ?]| |].
      * intros id reg. rewrite lookup_delete_Some. tauto.
      * intros _. specialize (Hc E2). rewrite Hsize in Hc. cbn [length] in Hc. lia.
  - injection E as <- <-. split_and!; [done|done|done|]. intros Hp. rewrite <-Hsize.
    apply andb_false_iff in Ecap as [E1%Z.leb_gt|E1%Z.ltb_ge]; lia.
Qed.

Lemma register_ok reg r : registry_ok r → reg_ok reg → clients r !! cr_ClientID reg = None → registry_ok (register reg r).
Proof.
  intros Hr Hreg Hnew. unfold register. destruct (evict_oldest r) as [kept ids] eqn:E.
  destruct (evict_ok r kept ids Hr E) as (Hl & Hn & Hk & Hc).
  assert (kept !! cr_ClientID reg = None) as Hfresh.
  { destruct (kept !! cr_ClientID reg) eqn:Ek; [|done]. apply Hk in Ek. congruence. }
  assert (∀ id, id ∈ ids ++ [cr_ClientID reg] ↔ is_Some (<[cr_ClientID reg:=reg]> kept !! id)) as Hl'.
  { intros id. rewrite elem_of_app, list_elem_of_singleton, lookup_insert_is_Some, Hl. destruct (decide (cr_ClientID reg = id)); naive_solver. }
  assert (NoDup (ids ++ [cr_ClientID reg])) as Hn'.
  { apply NoDup_app. split_and!; [done| |by apply NoDup_singleton].
    intros x Hx ->%list_elem_of_singleton. apply Hl in Hx. rewrite Hfresh in Hx. by destruct Hx. }
  split; cbn; [done|done| |].
  - intros id reg'. rewrite lookup_insert_Some. intros [[<- <-]|[_ H']]; [done|]. by apply (keyed r Hr), Hk.
  - intros Hp. rewrite (size_listed _ _ Hl' Hn'), length_app. cbn. specialize (Hc Hp). lia.
Qed.

Lemma restore_ok regs held ids held' ids' : Forall reg_ok regs →
  (∀ id, id ∈ ids ↔ is_Some (held !! id)) → NoDup ids →
  (∀ id reg, held !! id = Some reg → cr_ClientID reg = id ∧ reg_ok reg) →
  restore_all regs held ids = (held', ids') →
  (∀ id, id ∈ ids' ↔ is_Some (held' !! id)) ∧ NoDup ids' ∧
  (∀ id reg, held' !! id = Some reg → cr_ClientID reg = id ∧ reg_ok reg) ∧ (length ids' ≤ length ids + length regs)%nat.
Proof.
  revert held ids. induction regs as [|reg regs IH]; intros held ids Hf Hl Hn Hk; cbn [restore_all].
  { intros [= <- <-]. split_and!; try done. cbn. lia. }
  apply Forall_cons in Hf as [Hreg Hf]. destruct (held !! cr_ClientID reg) eqn:E; intros Er.
  { destruct (IH held ids Hf Hl Hn Hk Er) as (? & ? & ? & ?). cbn. split_and!; try done. lia. }
  eapply IH in Er as (? & ? & ? & Hlen); [|done|..].
  - split_and!; try done. rewrite length_app in Hlen. cbn in *. lia.
  - intros id. rewrite elem_of_app, list_elem_of_singleton, lookup_insert_is_Some, Hl. destruct (decide (cr_ClientID reg = id)); naive_solver.
  - apply NoDup_app. split_and!; [done| |by apply NoDup_singleton].
    intros x Hx ->%list_elem_of_singleton. apply Hl in Hx. rewrite E in Hx. by destruct Hx.
  - intros id reg'. rewrite lookup_insert_Some. intros [[<- <-]|[_ H']]; [done|]. by apply Hk.
Qed.

Lemma newest_sub cap regs reg : reg ∈ newest cap regs → reg ∈ regs.
Proof.
  unfold newest. case_match; [|done]. intros Hin.
  rewrite <-(take_drop (length regs - Z.to_nat cap) regs). apply elem_of_app. by right.
Qed.

Lemma newest_size cap regs : 0 < cap → Z.of_nat (length (newest cap regs)) <= cap.
Proof.
  intros Hc. unfold newest. destruct (0 <? cap) eqn:E1; cbn [andb]; [|lia]. destruct (cap <? _) eqn:E2; [|lia].
  rewrite length_drop. lia.
Qed.

Lemma Registry_Restore_ok regs r : Forall reg_ok regs → registry_ok (Registry_Restore regs r).
Proof.
  intros Hf. unfold Registry_Restore. destruct (restore_all _ _ _) as [held ids] eqn:E.
  assert (Forall reg_ok (newest (maxClients r) regs)) as Hf'.
  { apply Forall_forall. intros x Hx. rewrite Forall_forall in Hf. by eapply Hf, newest_sub. }
  apply restore_ok in E as (Hl & Hn & Hk & Hlen); [|done| |by constructor|].
  - split; cbn; [done..|]. intros Hc. rewrite (size_listed _ _ Hl Hn).
    pose proof (newest_size _ regs Hc). cbn in Hlen. lia.
  - intros id. rewrite lookup_empty. split; [by intros ?%not_elem_of_nil|by intros [??]].
  - intros id reg. by rewrite lookup_empty.
Qed.

Lemma buckets_ok r b : registry_ok r → registry_ok (with_buckets r b).
Proof. by intros [? ? ? ?]. Qed.

Lemma checkRateLimit_same ip now r ok r' : checkRateLimit ip now r = (ok, r') → ∃ b, r' = with_buckets r b.
Proof. unfold checkRateLimit. repeat case_match; intros [= <- <-]; eauto. Qed.

(** A registry's history: requests, each drawing an ID no client has, and
    restores of registrations such as it keeps. [admitted] is when an address's
    requests passed the rate limit. *)
Inductive registry_run (cap rate : Z) : ClientRegistry → Z → (string → list Z) → Prop :=
| run_new : registry_run cap rate (newClientRegistry cap rate) 0 (λ _, [])
| run_request r r' t now ip decoded drawn resp admitted :
    registry_run cap rate r t admitted → t <= now → Get ("cetacean-" +:+ drawn) r = None →
    HandleRegister (Some r) ip now decoded drawn = (resp, Some r') →
    registry_run cap rate r' now
      (λ ip', if decide (ip' = ip ∧ (checkRateLimit ip now r).1 = true) then admitted ip' ++ [now] else admitted ip')
| run_restore r t regs admitted :
    registry_run cap rate r t admitted → Forall reg_ok regs →
    registry_run cap rate (Registry_Restore regs r) t admitted.

Lemma HandleRegister_inv r ip now decoded drawn resp r' : HandleRegister (Some r) ip now decoded drawn = (resp, Some r') →
  let c := checkRateLimit ip now r in
  (r' = c.2 ∧ (∀ reg, resp ≠ Registered reg)) ∨
  ∃ reg, c.1 = true ∧ resp = Registered reg ∧ r' = register reg c.2 ∧ reg_ok reg ∧ cr_ClientID reg = "cetacean-" +:+ drawn.
Proof.
  unfold HandleRegister. destruct (checkRateLimit ip now r) as [ok rl]. cbn. destruct ok; cbn; [|intros [= <- <-]; by left].
  destruct decoded as [err|req]; [intros [= <- <-]; by left|].
  destruct (registration_of req _ _) eqn:E; intros [= <- <-]; try by left.
  right. apply registration_ok in E as [? ?]. eauto 10.
Qed.

(** The registry keeps to its cap and to what a registration may be. After
    any requests and restores it holds at most the configured number of
    clients, each listed once in the order they are evicted in; each is public,
    has between one and ten redirect URIs, every one https or a loopback
    address and none a loopback for a web client; and what a request registers
    is held from then on until it is the oldest of a full registry. *)
Theorem registry_sound cap rate r t admitted : registry_run cap rate r t admitted →
  registry_ok r ∧ maxClients r = cap ∧ rateLimit r = rate ∧
  ∀ ip now decoded drawn reg r', Get ("cetacean-" +:+ drawn) r = None →
    HandleRegister (Some r) ip now decoded drawn = (Registered reg, Some r') →
    Get (cr_ClientID reg) r' = Some reg ∧
    order r' = (if (cap <=? Z.of_nat (size (clients r))) && (0 <? cap) then tail (order r) else order r) ++ [cr_ClientID reg].
Proof.
  intros Hrun.
  assert (registry_ok r ∧ maxClients r = cap ∧ rateLimit r = rate) as (Hr & Hcap & Hrate).
  { induction Hrun as [|r r' t now ip decoded drawn resp adm Hrun (Hr & Hc & Hl) Ht Hnew E|r t regs adm Hrun (Hr & Hc & Hl) Hf].
    - split; [|done]. split; cbn.
      + intros id. rewrite lookup_empty. by split; [intros ?%not_elem_of_nil|intros [??]].
      + apply NoDup_nil_2.
      + intros id reg. by rewrite lookup_empty.
      + rewrite map_size_empty. lia.
    - apply HandleRegister_inv in E. destruct (checkRateLimit ip now r) as [ok rl] eqn:El.
      destruct (checkRateLimit_same _ _ _ _ _ El) as [b ->]. cbn in E.
      destruct E as [[-> _]|(reg & _ & _ & -> & Hreg & Hid)]; [split; [by apply buckets_ok|done]|].
      split; [apply register_ok; [by apply buckets_ok|done|by rewrite Hid]|].
      unfold register. by destruct (evict_oldest _).
    - split; [by apply Registry_Restore_ok|]. unfold Registry_Restore. by destruct (restore_all _ _ _). }
  split_and!; [done..|]. intros ip now decoded drawn reg r' Hnew E. apply HandleRegister_inv in E.
  destruct (checkRateLimit ip now r) as [ok rl] eqn:El. destruct (checkRateLimit_same _ _ _ _ _ El) as [b ->].
  destruct E as [[_ E]|(reg' & _ & [= <-] & -> & _ & Hid)]; [by destruct (E reg)|].
  unfold register, Get, evict_oldest. cbn. rewrite Hcap.
  destruct ((cap <=? _) && (0 <? cap)); [destruct (order r); cbn|cbn]; by rewrite lookup_insert_eq.
Qed.

(** * The rate limit *)

(** An address's admitted requests by the windows they fell in: before the last
    two, in the last but one, and in the last, which started at [start]. *)
Record windows (rate : Z) (bucket : option ipBucket) (t : Z) (adm old prev cur : list Z) (start : Z) : Prop := {
  in_order : adm = old ++ prev ++ cur;
  old_gone x : x ∈ old → x + hour < start;
  prev_before x : x ∈ prev → x < start;
  cur_within x : x ∈ cur → start <= x <= start + hour;
  prev_few : (length prev ≤ Z.to_nat rate)%nat;
  cur_few : (length cur ≤ Z.to_nat rate)%nat;
  started : start <= t;
  bucket_counts : match bucket with
                  | Some b => resetAt b = start + hour ∧ tokens b = rate - Z.of_nat (length cur)
                  | None => start + hour < t
                  end;
}.

(** Any 2·rate + 1 admitted requests in a row span more than an hour. *)
Definition spaced (rate : Z) (adm : list Z) : Prop :=
  ∀ i a b, adm !! i = Some a → adm !! (i + 2 * Z.to_nat rate)%nat = Some b → a + hour < b.

Lemma windows_spaced rate bucket t adm old prev cur start now : 1 <= rate →
  windows rate bucket t (adm ++ [now]) old prev cur start → start <= now → spaced rate adm → spaced rate (adm ++ [now]).
Proof.
  intros Hrate [E Ho Hp Hc Hlp Hlc _ _] Hs Hsp i a b Ha Hb. apply lookup_app_Some in Hb as [Hb|[Hn Hb]].
  - apply (Hsp i); [|done]. apply lookup_lt_Some in Hb. rewrite lookup_app_l in Ha by lia. done.
  - destruct (i + 2 * Z.to_nat rate - length adm)%nat eqn:Ei; cbn in Hb; [|done]. injection Hb as <-.
    apply (f_equal length) in E as El. rewrite !length_app in El. cbn in El.
    assert (i < length old)%nat as Hi by lia. rewrite E, lookup_app_l in Ha by done.
    apply list_elem_of_lookup_2 in Ha. specialize (Ho _ Ha). lia.
Qed.

Lemma windows_later rate bucket t t' adm old prev cur start : t <= t' →
  windows rate bucket t adm old prev cur start → windows rate bucket t' adm old prev cur start.
Proof. intros Ht [? ? ? ? ? ? ? Hb]. split; try done; [lia|]. destruct bucket; [done|lia]. Qed.

(** A bucket that is swept has ended. *)
Lemma windows_swept rate bucket t now adm old prev cur start : t <= now →
  windows rate bucket t adm old prev cur start →
  windows rate (b ← bucket; guard (time_after now (resetAt b) = false);; Some b) now adm old prev cur start.
Proof.
  intros Ht W. apply (windows_later _ _ t now) in W; [|done]. destruct bucket as [b|]; [|done]. cbn.
  case_guard as E; [done|]. destruct W as [? ? ? ? ? ? ? [Hr _]]. split; try done. cbn.
  apply not_false_is_true, Z.ltb_lt in E. lia.
Qed.

Definition spaced_windows (rate : Z) (bucket : option ipBucket) (t : Z) (adm : list Z) : Prop :=
  spaced rate adm ∧ ∃ old prev cur start, windows rate bucket t adm old prev cur start.

Lemma admit_new rate now adm : 1 <= rate → spaced_windows rate None now adm →
  spaced_windows rate (Some (mkBucket (rate - 1) (now + hour))) now (adm ++ [now]).
Proof.
  intros Hrate (Hsp & old & prev & cur & start & [E Ho Hp Hc Hlp Hlc Hs Hb]).
  assert (windows rate (Some (mkBucket (rate - 1) (now + hour))) now (adm ++ [now]) (old ++ prev) cur [now] now) as W.
  { split; try done; cbn.
    - by rewrite E, <-!app_assoc.
    - intros x [Hx|Hx]%elem_of_app; [specialize (Ho _ Hx)|specialize (Hp _ Hx)]; unfold hour in *; lia.
    - intros x Hx. specialize (Hc _ Hx). lia.
    - intros x ->%list_elem_of_singleton. unfold hour. lia.
    - lia. }
  split; [eapply windows_spaced; [done|exact W|done|done]|eauto].
Qed.

Lemma admit_more rate now b adm : 1 <= rate → time_after now (resetAt b) = false → 0 < tokens b →
  spaced_windows rate (Some b) now adm →
  spaced_windows rate (Some (mkBucket (tokens b - 1) (resetAt b))) now (adm ++ [now]).
Proof.
  intros Hrate Hlive Htok (Hsp & old & prev & cur & start & [E Ho Hp Hc Hlp Hlc Hs [Hr Hb]]).
  apply Z.ltb_ge in Hlive.
  assert (windows rate (Some (mkBucket (tokens b - 1) (resetAt b))) now (adm ++ [now]) old prev (cur ++ [now]) start) as W.
  { split; try done; cbn.
    - by rewrite E, <-!app_assoc.
    - intros x [Hx| ->%list_elem_of_singleton]%elem_of_app; [by apply Hc|lia].
    - rewrite length_app. cbn. lia.
    - rewrite length_app. cbn. lia. }
  split; [eapply windows_spaced; [done|exact W|done|done]|eauto].
Qed.

Lemma checkRateLimit_windows rate r ip now t adm : 1 <= rate → rateLimit r = rate → t <= now →
  (∀ ip', spaced_windows rate (buckets r !! ip') t (adm ip')) →
  let c := checkRateLimit ip now r in
  ∀ ip', spaced_windows rate (buckets c.2 !! ip') now
    (if decide (ip' = ip ∧ c.1 = true) then adm ip' ++ [now] else adm ip').
Proof.
  intros Hrate Hrl Ht Hall. unfold checkRateLimit. rewrite Hrl.
  set (live := filter _ (buckets r)).
  assert (∀ ip', spaced_windows rate (live !! ip') now (adm ip')) as Hlive.
  { intros ip'. destruct (Hall ip') as (Hsp & old & prev & cur & start & W). split; [done|].
    exists old, prev, cur, start. apply (windows_swept _ _ t now) in W; [|done].
    replace (live !! ip') with (b ← buckets r !! ip'; guard (time_after now (resetAt b) = false);; Some b); [done|].
    unfold live. rewrite map_lookup_filter. by destruct (buckets r !! ip'). }
  destruct (live !! ip) as [b|] eqn:Eb; cbn.
  - assert (time_after now (resetAt b) = false) as Hb by (by apply map_lookup_filter_Some in Eb as [_ ?]).
    destruct (tokens b <=? 0) eqn:Et; cbn; intros ip'.
    + rewrite decide_False by (by intros [_ ?]). apply Hlive.
    + destruct (decide (ip' = ip)) as [->|Hne]; [rewrite decide_True by done|rewrite decide_False by (by intros [??])].
      * rewrite lookup_insert_eq. apply admit_more; [done|done|by apply Z.leb_gt in Et|]. rewrite <-Eb. apply Hlive.
      * rewrite lookup_insert_ne by done. apply Hlive.
  - intros ip'. destruct (decide (ip' = ip)) as [->|Hne]; [rewrite decide_True by done|rewrite decide_False by (by intros [??])].
    + rewrite lookup_insert_eq. apply admit_new; [done|]. rewrite <-Eb. apply Hlive.
    + rewrite lookup_insert_ne by done. apply Hlive.
Qed.

Lemma register_buckets reg r : buckets (register reg r) = buckets r.
Proof. unfold register. by destruct (evict_oldest r). Qed.

(** An address registers at most 2·rate clients within any hour, however
    its requests and everyone else's fall: of its requests let through, any
    two that are 2·rate apart are more than an hour apart. *)
Theorem registrations_rate_limited cap rate r t admitted : 1 <= rate → registry_run cap rate r t admitted →
  ∀ ip i a b, admitted ip !! i = Some a → admitted ip !! (i + 2 * Z.to_nat rate)%nat = Some b → a + hour < b.
Proof.
  intros Hrate Hrun.
  assert (rateLimit r = rate ∧ ∀ ip, spaced_windows rate (buckets r !! ip) t (admitted ip)) as [_ Hw].
  { induction Hrun as [|r r' t now ip decoded drawn resp adm Hrun [Hl IH] Ht Hnew E|r t regs adm Hrun [Hl IH] Hf].
    - split; [done|]. intros ip. cbn. rewrite lookup_empty. split; [by intros i a b|].
      exists [], [], [], (- hour - 1). split; cbn; try (by intros ? ?%not_elem_of_nil); try done; unfold hour; lia.
    - assert (buckets r' = buckets (checkRateLimit ip now r).2 ∧ rateLimit r' = rate) as [-> Hl'].
      { apply HandleRegister_inv in E. destruct (checkRateLimit ip now r) as [ok rl] eqn:El.
        destruct (checkRateLimit_same _ _ _ _ _ El) as [b ->].
        destruct E as [[-> _]|(reg & _ & _ & -> & _)]; [done|]. rewrite register_buckets. split; [done|].
        unfold register. by destruct (evict_oldest _). }
      split; [done|]. by apply (checkRateLimit_windows rate r ip now t adm).
    - unfold Registry_Restore. by destruct (restore_all _ _ _). }
  intros ip. by destruct (Hw ip).
Qed.
End registry.

(** * The cache of documents *)

Section cache.
Context `{URLs, Documents, HTTPDates, Unicode, MapRange}.

(** What an answer has to hold for its document to be taken. *)
Definition document_ok (clientID : string) (meta : ClientMetadata) : Prop :=
  ∃ text doc, decode_document text = Some doc ∧ (String.length text ≤ cimdMaxBodyBytes)%nat ∧
    doc_ClientID doc = clientID ∧ doc_Meta doc = meta ∧ (doc_AuthMethod doc = "" ∨ doc_AuthMethod doc = "none") ∧
    ∀ uri, uri ∈ RedirectURIs meta → isValidRedirectURI uri = true.

Lemma read_answer_ok clientID a meta : read_answer clientID a = inr meta → document_ok clientID meta.
Proof.
  unfold read_answer. destruct a as [|status h body]; [done|]. case_match; [done|]. case_match; [done|].
  destruct body as [text|]; [|done]. destruct (_ <? _)%nat eqn:Elen; [done|]. apply Nat.ltb_ge in Elen.
  destruct (decode_document text) as [doc|] eqn:Edoc; [|done]. case_bool_decide as Eid; cbn [negb]; [|done].
  case_match; [done|]. destruct (negb _ && negb _) eqn:Eauth; [done|].
  destruct (forallb _ _) eqn:Euris; cbn [negb]; [|done]. case_match; [done|]. intros [= <-].
  exists text, doc. split_and!; try done.
  - apply andb_false_iff in Eauth as [E%negb_false_iff|E%negb_false_iff]; [left; by apply is_empty_spec|].
    right. by apply bool_decide_eq_true in E.
  - intros uri Hu. rewrite forallb_forall in Euris. by apply Euris, list_elem_of_In.
Qed.

Lemma cacheLifetime_range h now : 0 <= cacheLifetime h now <= cimdMaxCacheTTL.
Proof. unfold cacheLifetime, cimdMaxCacheTTL, hour. case_match; lia. Qed.

Lemma soonest_step (l : list (string * cachedEntry)) b : b.1 ≠ "" ∨ l ≠ [] → Forall (λ kv, kv.1 ≠ "") l →
  let r := foldl (λ best kv,
    if is_empty best.1 || time_before (ce_expires kv.2) best.2 then (kv.1, ce_expires kv.2) else best) b l in
  r.1 ≠ "" ∧ (r = b ∨ r.1 ∈ l.*1).
Proof.
  revert b. induction l as [|kv l IH]; intros b Hb Hl; cbn; [destruct Hb; [by split; [|left]|done]|].
  apply Forall_cons in Hl as [Hkv Hl]. case_match eqn:E.
  - destruct (IH (kv.1, ce_expires kv.2)) as [Hr [E'|?]]; cbn; [by left|done|..]; (split; [done|right]); [|by right].
    rewrite E'. by left.
  - apply orb_false_iff in E as [E _]. destruct (IH b) as [Hr [E'|?]].
    + left. intros Hb0. by rewrite Hb0 in E.
    + done.
    + split; [done|by left].
    + split; [done|right; by right].
Qed.

Definition keys_ok (held : DocumentCache) : Prop := ∀ id e, held !! id = Some e → id ≠ "".

Lemma soonest_in held : held ≠ ∅ → keys_ok held → is_Some (held !! (soonest held).1).
Proof.
  intros Hne Hk. unfold soonest. destruct (soonest_step (range held) ("", 0)) as [Hr [E|Hin]].
  - right. intros E. apply map_choose in Hne as (k & x & Hx). apply elem_of_range in Hx. rewrite E in Hx. by apply not_elem_of_nil in Hx.
  - apply Forall_forall. intros [k x] Hx. apply elem_of_range in Hx. by eapply Hk.
  - by rewrite E in Hr.
  - apply list_elem_of_fmap in Hin as ([k x] & -> & Hin). apply elem_of_range in Hin. cbn. eauto.
Qed.

Lemma evictFor_sub now held id e : evictFor now held !! id = Some e → held !! id = Some e.
Proof.
  unfold evictFor. case_match; [done|]. case_match; intros Hx.
  - by apply map_lookup_filter_Some in Hx as [? _].
  - apply lookup_delete_Some in Hx as [_ Hx]. by apply map_lookup_filter_Some in Hx as [? _].
Qed.

Lemma evictFor_size now held : keys_ok held → (size held ≤ cimdCacheMaxEntries)%nat →
  (size (evictFor now held) < cimdCacheMaxEntries)%nat.
Proof.
  intros Hk Hs. unfold evictFor. case_match eqn:E1; [by apply Nat.ltb_lt in E1|].
  set (live := filter _ held). case_match eqn:E2; [by apply Nat.ltb_lt in E2|]. apply Nat.ltb_ge in E2.
  assert (size live ≤ size held)%nat as Hsub by (apply map_size_filter).
  destruct (soonest_in live) as [e He].
  - intros E. rewrite E, map_size_empty in E2. unfold cimdCacheMaxEntries in E2. lia.
  - intros id x Hx. apply map_lookup_filter_Some in Hx as [Hx _]. by eapply Hk.
  - rewrite map_size_delete_Some by eauto. unfold cimdCacheMaxEntries in *. lia.
Qed.

Lemma cachePut_size id meta life now held : keys_ok held → (size held ≤ cimdCacheMaxEntries)%nat →
  (size (cachePut id meta life now held) ≤ cimdCacheMaxEntries)%nat.
Proof.
  intros Hk Hs. unfold cachePut. case_match.
  - transitivity (size held); [|done]. rewrite map_size_delete. destruct (held !! id); cbn; lia.
  - case_bool_decide as E.
    + by rewrite map_size_insert_Some.
    + rewrite map_size_insert_None; [by apply evictFor_size|].
      destruct (evictFor now held !! id) eqn:Ee; [|done]. apply evictFor_sub in Ee. by destruct E.
Qed.

(** The answers fetches got, the latest first: whose, what, and when its
    lifetime was read and its document put. *)
Abbreviation served := (string * answer * Z * Z)%type.

Inductive cache_run : DocumentCache → list served → Prop :=
| cache_nil : cache_run ∅ []
| cache_done held tr id a now now' :
    cache_run held tr → validateURL id = None →
    cache_run (Fetch_done id a now now' held).2 ((id, a, now, now') :: tr).

(** An entry is of the latest answer for its client that could be read. *)
Definition latest (id : string) (meta : ClientMetadata) (a : answer) (now now' : Z) (tr : list served) : Prop :=
  ∃ after before, tr = after ++ (id, a, now, now') :: before ∧ read_answer id a = inr meta ∧
    ∀ a' n n' meta', (id, a', n, n') ∈ after → read_answer id a' ≠ inr meta'.

Lemma latest_cons id meta a now now' tr st : latest id meta a now now' tr →
  (∀ meta', st.1.1.1 = id → read_answer id st.1.1.2 ≠ inr meta') → latest id meta a now now' (st :: tr).
Proof.
  intros (after & before & -> & Hr & Ha) Hst. exists (st :: after), before. split_and!; [done..|].
  intros a' n n' meta' [E|Hin]%elem_of_cons; [|by eapply Ha]. subst st. by apply (Hst meta').
Qed.

Lemma cachePut_lookup id meta life now held id' e : cachePut id meta life now held !! id' = Some e →
  (id' = id ∧ 0 < life ∧ e = mkCached meta (now + life)) ∨ (id' ≠ id ∧ held !! id' = Some e).
Proof.
  unfold cachePut. case_match eqn:El.
  - intros [? ?]%lookup_delete_Some. by right.
  - apply Z.leb_gt in El. intros [[<- <-]|[Hne He]]%lookup_insert_Some; [by left|]. right. split; [done|].
    case_bool_decide; [done|]. by eapply evictFor_sub.
Qed.

Context (Hempty : validateURL "" ≠ None).

(** A cached document is what its client's host last said, for as long as
    it said and never more than a day. The cache holds at most 512 documents;
    a look answers with the document of the latest answer to that client's
    fetches that could be read, before the end of the lifetime its headers
    give; and that answer was a document of at most five kibibytes that names
    the client's URL as its client_id, asks for no authentication, and whose
    redirect URIs are each https or a loopback address. *)
Theorem documents_vouched held tr : cache_run held tr →
  (size held ≤ cimdCacheMaxEntries)%nat ∧
  ∀ id now meta, Fetch_look id now held = Some (inr meta) →
    document_ok id meta ∧
    ∃ a n n', latest id meta a n n' tr ∧ now < n' + cacheLifetime (answer_header a) n ∧ now < n' + cimdMaxCacheTTL.
Proof using Hempty.
  intros Hrun.
  assert (keys_ok held ∧ (size held ≤ cimdCacheMaxEntries)%nat ∧
    ∀ id e, held !! id = Some e → ∃ a n n', latest id (ce_meta e) a n n' tr ∧
      ce_expires e = n' + cacheLifetime (answer_header a) n) as (Hk & Hs & Hheld).
  { induction Hrun as [|held tr id a now now' Hrun (Hk & Hs & Hheld) Hval].
    { split_and!; [by intros ??|by rewrite map_size_empty; apply Nat.le_0_l|by intros ??]. }
    unfold Fetch_done. destruct (read_answer id a) as [err|meta] eqn:Er; cbn.
    - split_and!; [done|done|]. intros id' e He. destruct (Hheld id' e He) as (a' & n & n' & Hl & ?).
      exists a', n, n'. split; [|done]. apply latest_cons; [done|]. cbn. intros m ->. congruence.
    - split_and!; [|by apply cachePut_size|].
      + intros id' e [(-> & _)|[_ He]]%cachePut_lookup; [congruence|by eapply Hk].
      + intros id' e [(-> & _ & ->)|[Hne He]]%cachePut_lookup.
        * exists a, now, now'. split; [|done]. exists [], tr. split_and!; [done..|]. by intros ???? ?%not_elem_of_nil.
        * destruct (Hheld id' e He) as (a' & n & n' & Hl & ?). exists a', n, n'. split; [|done].
          apply latest_cons; [done|]. cbn. by intros m ->. }
  split; [done|]. intros id now meta. unfold Fetch_look. destruct (validateURL id); [done|].
  unfold cacheGet. destruct (held !! id) as [e|] eqn:Ee; [|done]. destruct (lapsed now e) eqn:El; [done|]. intros [= <-].
  destruct (Hheld id e Ee) as (a & n & n' & Hl & Hexp). apply negb_false_iff, Z.ltb_lt in El.
  destruct Hl as (after & before & Htr & Hr & Ha). split; [by eapply read_answer_ok|].
  exists a, n, n'. split; [by exists after, before|]. pose proof (cacheLifetime_range (answer_header a) n). lia.
Qed.
End cache.

(** * Where the server redirects *)

Section redirects.
Context `{URLs, Documents, MapRange} (hash : string → string) (mac : string → string → string) (cfg : Settings).

(** What a handler is told of a client is a document a fetch read, or a
    registration of a sound registry. *)
Record vouched_env (env : Env) : Prop := {
  of_document id m : cimd env id = Some m → ∃ a, read_answer id a = inr m;
  of_registry id m : registry env id = Some m → ∃ r reg, registry_ok r ∧ Get id r = Some reg ∧
    m = mkClientMetadata (cr_ClientName reg) (cr_RedirectURIs reg);
}.

Definition redirected (resp : response) (uri : string) : Prop :=
  match resp with RedirectCode u _ _ => u = uri | RedirectError u _ _ _ => u = uri | _ => False end.

Definition request_client (req : request) : option string :=
  match req with
  | AuthorizeGET p => Some (client_id p)
  | AuthorizePOST _ (Some f) => Some (client_id (params f))
  | _ => None
  end.

Lemma vouched_uris `{HTTPDates, Unicode} env id meta verified uri : vouched_env env →
  resolveClientMeta cfg env id = inl (meta, verified) → uri ∈ RedirectURIs meta → isValidRedirectURI uri = true.
Proof.
  intros [Hc Hr] E Hu. unfold resolveClientMeta in E. case_match.
  - case_match; [done|]. destruct (cimd env id) as [m|] eqn:Em; [|done]. injection E as <- <-.
    destruct (Hc id m Em) as [a Ha]. apply read_answer_ok in Ha as (? & ? & _ & _ & _ & _ & _ & Hv). by apply Hv.
  - case_match; [done|]. destruct (registry env id) as [m|] eqn:Em; [|done]. injection E as <- <-.
    destruct (Hr id m Em) as (r & reg & Hok & Hg & ->). cbn in Hu.
    destruct (keyed r Hok id reg Hg) as [_ Hreg]. by apply (uris_ok reg Hreg).
Qed.

Lemma token_redirects_nowhere env form s uri : ¬ redirected (HandleToken hash cfg env form s).1 uri.
Proof.
  unfold HandleToken. destruct form as [f|]; [|by intros []]. case_bool_decide.
  - unfold handleAuthorizationCodeGrant, respondWithTokens. case_match; [by intros []|]. case_match; [by intros []|].
    destruct (Redeem _ _ _ _) as [[d|] codes]; [|by intros []]. by repeat (case_match; try by intros []).
  - case_bool_decide; [|case_match; by intros []].
    unfold handleRefreshTokenGrant, respondWithTokens. case_match; [by intros []|]. case_match; [by intros []|].
    case_match; [by intros []|]. destruct (check_bound _ _ _) as [refusal|] eqn:Eb.
    { revert Eb. unfold check_bound. by repeat (case_match; try done); intros [= <-] []. }
    destruct (rotate _ _ _ _ _ _) as [[result w] store]. by repeat (case_match; try by intros []).
Qed.

(** C15: the server redirects a browser only where a client was registered to
    be. Whatever is asked, a code or an error is sent to a redirect URI of the
    client the request names, byte for byte, and that URI is https or an
    address of the user's own machine. *)
Theorem redirects_registered `{HTTPDates, Unicode} env req s uri : vouched_env env →
  redirected (serve hash mac cfg env req s).1 uri →
  isValidRedirectURI uri = true ∧
  ∃ id meta verified, request_client req = Some id ∧ resolveClientMeta cfg env id = inl (meta, verified) ∧
    uri ∈ RedirectURIs meta.
Proof.
  intros Henv Hred.
  assert (∃ id meta verified, request_client req = Some id ∧ resolveClientMeta cfg env id = inl (meta, verified) ∧
    uri ∈ RedirectURIs meta) as Hex.
  { destruct req as [p|cookie [f|]|form|token|subject]; cbn [serve] in Hred.
    - unfold handleAuthorizeGET in Hred. destruct (resolveClientMeta cfg env (client_id p)) as [[meta verified]|] eqn:E; [|done].
      unfold HasRedirectURI in Hred. case_bool_decide as Hin; cbn [negb] in Hred; [|done].
      exists (client_id p), meta, verified. split_and!; [done..|].
      destruct (check_params cfg p (in_query p)) as [[code desc]|eff]; [by cbn in Hred; subst|].
      destruct (consentRefusal (identity env)) as [[? ?]|]; [done|]. destruct (identity env); [|done].
      case_match; [|done]. unfold issueCodeAndRedirect in Hred. case_match; [done|]. by cbn in Hred; subst.
    - unfold handleAuthorizePOST in Hred.
      destruct (resolveClientMeta cfg env (client_id (params f))) as [[meta verified]|] eqn:E; [|done].
      unfold HasRedirectURI in Hred. case_bool_decide as Hin; cbn [negb] in Hred; [|done].
      exists (client_id (params f)), meta, verified. split_and!; [done..|]. case_match; [done|].
      case_bool_decide; [by cbn in Hred; subst|].
      destruct (consentRefusal (identity env)) as [[? ?]|]; [done|]. destruct (identity env); [|done].
      destruct (check_params cfg (params f) _) as [[code desc]|eff]; [by cbn in Hred; subst|].
      case_match; [done|]. unfold issueCodeAndRedirect in Hred. case_match; [done|]. by cbn in Hred; subst.
    - done.
    - by apply token_redirects_nowhere in Hred.
    - unfold HandleRevoke in Hred. destruct token as [[|c t]|]; [done| |done].
      by destruct (revokeGrant _ _ _) as [[?|] ?].
    - done. }
  split; [|done]. destruct Hex as (id & meta & verified & _ & E & Hu). by eapply vouched_uris.
Qed.
End redirects.

(** * Closed examples *)

Definition demo_urls : URLs := {| url_Parse s :=
  if HasPrefix s "https://" then Some (mkURL "https" false "c" "c" "/c" "")
  else if HasPrefix s "http://localhost" then Some (mkURL "http" false "localhost" "localhost" "/" "") else None |}.

(** A document's text is its client_id. *)
Definition demo_documents : Documents :=
  {| decode_document text := Some (mkDocument text (mkClientMetadata "App" ["https://app/cb"]) "" "none") |}.

(** Only the first second of the year one parses. *)
Definition year_one : string := "Mon, 01 Jan 0001 00:00:00 GMT".
Definition demo_times : HTTPDates :=
  {| ParseTime s := if bool_decide (s = year_one) then Some (-62135596800 * second) else None; FormatTime _ := "" |}.

Definition demo_dcr (app : string) (uris : list string) : dcrRequest := mkDcrRequest "App" uris [] [] "" app.

Example web_clients_are_remote :
  let _ := demo_urls in
  (HandleRegister (Some (newClientRegistry 2 10)) "ip" 0 (inr (demo_dcr "web" ["http://localhost:1/cb"])) "x").1 =
    DCRError 400 "invalid_redirect_uri" "a web client may not register a loopback redirect URI" ∧
  (HandleRegister (Some (newClientRegistry 2 10)) "ip" 0 (inr (demo_dcr "" ["http://localhost:1/cb"])) "x").1 =
    Registered (mkRegistration "cetacean-x" "App" ["http://localhost:1/cb"] ["authorization_code"; "refresh_token"] ["code"]
      "none" 0 "native").
Proof. vm_compute. done. Qed.

(** The limit is of a window that starts with its first request, so around its
    end twice as many pass as an hour allows: here three in a nanosecond, of a
    limit of two. *)
Example three_in_a_moment :
  let check now st := let '(l, r) := st : list bool * ClientRegistry in
                      let '(ok, r) := checkRateLimit "ip" now r in (l ++ [ok], r) in
  (check (hour + 1) (check (hour + 1) (check hour (check 0 ([], newClientRegistry 2 2))))).1 = [true; true; true; true].
Proof. vm_compute. done. Qed.

(** An Expires so far back that the difference saturates, less an Age, wraps
    around: a document its host calls long stale is kept for a day. *)
Example expires_wraps :
  let _ := demo_times in let _ := ascii_unicode in
  let now := 1750000000 * second in
  cacheLifetime {[ "Expires" := [year_one] ]} now = 0 ∧
  cacheLifetime {[ "Expires" := [year_one]; "Age" := ["1"] ]} now = cimdMaxCacheTTL.
Proof. vm_compute. done. Qed.

Definition demo_register (r : ClientRegistry) (now : Z) (drawn : string) : ClientRegistry :=
  match (@HandleRegister demo_urls (Some r) "ip" now (inr (demo_dcr "" ["https://app/cb"])) drawn).2 with
  | Some r => r
  | None => r
  end.

Lemma demo_registry_run : ∃ r adm, @registry_run demo_urls 2 1 r (7300 * second) adm ∧
  order r = ["cetacean-b"; "cetacean-c"] ∧ adm "ip" = [0; 3601 * second; 7300 * second].
Proof.
  pose (r0 := newClientRegistry 2 1). pose (r1 := demo_register r0 0 "a").
  pose (r2 := demo_register r1 (3601 * second) "b"). pose (r3 := demo_register r2 (7300 * second) "c").
  exists r3. eexists. split.
  - eapply (@run_request demo_urls 2 1 r2 r3 (3601 * second) (7300 * second) "ip" (inr (demo_dcr "" ["https://app/cb"])) "c");
      [|vm_compute; discriminate|vm_compute; reflexivity|vm_compute; reflexivity].
    eapply (@run_request demo_urls 2 1 r1 r2 0 (3601 * second) "ip" (inr (demo_dcr "" ["https://app/cb"])) "b");
      [|vm_compute; discriminate|vm_compute; reflexivity|vm_compute; reflexivity].
    eapply (@run_request demo_urls 2 1 r0 r1 0 0 "ip" (inr (demo_dcr "" ["https://app/cb"])) "a");
      [apply run_new|vm_compute; discriminate|vm_compute; reflexivity|vm_compute; reflexivity].
  - split; vm_compute; reflexivity.
Qed.

Lemma registry_sound_witness : ∃ r, order r = ["cetacean-b"; "cetacean-c"] ∧ @registry_ok demo_urls r.
Proof.
  destruct demo_registry_run as (r & adm & Hrun & Ho & _). exists r. split; [exact Ho|].
  exact (proj1 (@registry_sound demo_urls 2 1 r _ adm Hrun)).
Defined.

Lemma registrations_rate_limited_witness : 0 + hour < 7300 * second.
Proof.
  destruct demo_registry_run as (r & adm & Hrun & _ & Ha).
  apply (@registrations_rate_limited demo_urls 2 1 r _ adm ltac:(lia) Hrun "ip" 0%nat); rewrite Ha; reflexivity.
Defined.

Definition demo_answer : answer := Answered 200 {[ "Cache-Control" := ["private=cookie, max-age=60"] ]} (Some "https://c/c").

Definition demo_cache : DocumentCache :=
  (@Fetch_done demo_urls demo_documents demo_times ascii_unicode map_range_std "https://c/c" demo_answer 0 5 ∅).2.

Lemma documents_vouched_witness :
  @Fetch_look demo_urls "https://c/c" (59 * second) demo_cache = Some (inr (mkClientMetadata "App" ["https://app/cb"])) ∧
  @Fetch_look demo_urls "https://c/c" (61 * second) demo_cache = None ∧
  @document_ok demo_urls demo_documents "https://c/c" (mkClientMetadata "App" ["https://app/cb"]).
Proof.
  split; [vm_compute; reflexivity|]. split; [vm_compute; reflexivity|].
  refine (proj1 (proj2 (@documents_vouched demo_urls demo_documents demo_times ascii_unicode map_range_std _ demo_cache
    [("https://c/c", demo_answer, 0, 5)] _) "https://c/c" (59 * second) _ _)).
  - vm_compute. discriminate.
  - apply cache_done; [apply cache_nil|vm_compute; reflexivity].
  - vm_compute. reflexivity.
Defined.

Lemma redirects_registered_witness :
  let _ := demo_urls in let _ := demo_documents in let _ := map_range_std in
  let env := mkEnv 0 None (λ id, if bool_decide (id = "https://c/c") then Some (mkClientMetadata "App" ["https://app/cb"]) else None)
               (λ _, None) (λ _, "") "code" "" in
  let p := mkAuthParams "token" "https://c/c" "https://app/cb" "x" "S256" "st" [] [] in
  redirected (serve id demo_mac demo_settings env (AuthorizeGET p) (NewServer 3600)).1 "https://app/cb" ∧
  isValidRedirectURI "https://app/cb" = true.
Proof.
  intros ? ? ? env p.
  assert (redirected (serve id demo_mac demo_settings env (AuthorizeGET p) (NewServer 3600)).1 "https://app/cb") as Hr
    by (vm_compute; reflexivity).
  split; [exact Hr|]. refine (proj1 (@redirects_registered demo_urls demo_documents map_range_std id demo_mac demo_settings
    demo_times ascii_unicode env _ _ _ _ Hr)).
  split; [|discriminate]. intros i meta. cbn [cimd env]. destruct (bool_decide (i = "https://c/c")) eqn:E; [|discriminate].
  apply bool_decide_eq_true in E as ->. intros Hm. injection Hm as <-. exists demo_answer. vm_compute. reflexivity.
Defined.
