(* ===== verification/Forwarding.v ===== *)
(** Where a request came from: the forwarding headers of
    internal/api/forwarded.go and the realIP middleware of realip.go, with the
    peer it records (internal/auth/peer.go). *)
From S2P Require Import Prelude GoStrings GoStrconv GoURL GoNet.
#[local] Open Scope string_scope.
#[local] Open Scope list_scope.

Definition dq : ascii := ascii_of_nat 34.
Definition backslash : ascii := ascii_of_nat 92.

(** * Quoted strings *)

(** One byte of a scan: whether the scan is within quotes and whether the byte
    that follows is escaped. *)
Definition scan (st : bool * bool) (c : ascii) : bool * bool :=
  let '(inQuote, escaped) := st in
  if (escaped : bool) then (inQuote, false)
  else if inQuote && Ascii.eqb c backslash then (inQuote, true)
  else if Ascii.eqb c dq then (negb inQuote, false)
  else (inQuote, false).

Fixpoint scan_all (st : bool * bool) (s : string) : bool * bool :=
  match s with "" => st | String c s => scan_all (scan st c) s end.

Definition quotesBalanced (s : string) : bool := negb (scan_all (false, false) s).1.

(** Whether [c] is a separator where the scan stands. *)
Definition splits (st : bool * bool) (sep c : ascii) : bool :=
  negb st.2 && negb (st.1 && Ascii.eqb c backslash) && negb (Ascii.eqb c dq) && Ascii.eqb c sep && negb st.1.

Fixpoint split_from (st : bool * bool) (sep : ascii) (s : string) : list string :=
  match s with
  | "" => [""]
  | String c s =>
      let rest := split_from (scan st c) sep s in
      if splits st sep c then "" :: rest
      else match rest with
           | part :: parts => String c part :: parts
           | [] => [String c ""]
           end
  end.

Definition splitOutsideQuotes (s : string) (sep : ascii) : list string := split_from (false, false) sep s.

Fixpoint unescaped (s : string) : string :=
  match s with
  | "" => ""
  | String c s =>
      if Ascii.eqb c backslash then
        match s with
        | String d s => String d (unescaped s)
        | "" => String c ""
        end
      else String c (unescaped s)
  end.

Definition unquote (s : string) : string :=
  match s with
  | String c rest =>
      if negb (Ascii.eqb c dq) then s else
      match cut_last dq rest with
      | Some (inner, "") => if has_byte backslash inner then unescaped inner else inner
      | _ => s
      end
  | "" => s
  end.

Section forwarding.
Context `{Unicode}.

(** * The nodes of a forwarding chain *)

Definition is_param (name key : string) : bool := EqualFold (TrimSpace key) name.

Definition element_node (element : string) : string :=
  foldl (λ node pair,
    let '(key, param, ok) := Cut pair "=" in
    if ok && is_param "for" key then unquote (TrimSpace param) else node) "" (splitOutsideQuotes element ";").

Definition value_nodes (value : string) : list string :=
  if negb (quotesBalanced value) then [""] else element_node <$> splitOutsideQuotes value ",".

Definition forwardedNodes (values : list string) : list string := values ≫= value_nodes.

Definition forwardedForNodes (values : list string) : list string :=
  values ≫= λ value, filter (λ part, part ≠ "") (TrimSpace <$> split_byte "," value).

(** The proto and the host of the hop that saw the client's connection. *)
Definition forwardedOrigin (values : list string) : string * string :=
  match values with
  | [] => ("", "")
  | value :: _ =>
      match splitOutsideQuotes value "," with
      | [] => ("", "")
      | element :: _ =>
          foldl (λ origin pair,
            let '(key, v, ok) := Cut pair "=" in
            if negb ok then origin
            else if is_param "proto" key then (unquote (TrimSpace v), origin.2)
            else if is_param "host" key then (origin.1, unquote (TrimSpace v))
            else origin) ("", "") (splitOutsideQuotes element ";")
      end
  end.

Fixpoint count_byte (c : ascii) (s : string) : nat :=
  match s with "" => O | String d s => (if Ascii.eqb d c then 1 else 0) + count_byte c s end.

Definition node_host (node : string) : option string :=
  match node with
  | String "[" rest => (λ n, str_take n rest) <$> IndexByte rest "]"
  | _ => Some (if decide (count_byte ":" node = 1%nat) then (Cut node ":").1.1 else node)
  end.

Definition nodeAddr (node : string) : option Addr :=
  host ← node_host node; Unmap <$> ParseAddr host.

(** * The client behind trusted proxies *)

Record Peer := mkPeer { peer_Addr : option Addr; Trusted : bool }.

(** A request as it arrives, with what was recorded of its peer. *)
Record Request := mkRequest {
  RemoteAddr : string;
  rq_Header : Header;
  rq_Path : string;
  rq_Peer : option Peer;
}.

Inductive ForwardedHeaders := XForwardedHeaders | RFC7239Headers.

Definition h_Del (k : string) (h : Header) : Header := delete (CanonicalHeaderKey k) h.

Definition dropUnwrittenForwarding (h : Header) (headers : ForwardedHeaders) : Header :=
  match headers with
  | RFC7239Headers => h_Del "X-Forwarded-Host" (h_Del "X-Forwarded-Proto" (h_Del "X-Forwarded-For" h))
  | XForwardedHeaders => h_Del "Forwarded" h
  end.

Definition isTrusted (addr : Addr) (trusted : list Prefix) : bool := existsb (λ p, Prefix_Contains p addr) trusted.

Definition peerOf (remote : string) (trusted : list Prefix) : Peer * string :=
  match SplitHostPort remote with
  | None => (mkPeer None false, "")
  | Some (host, port) =>
      match ParseAddr host with
      | None => (mkPeer None false, "")
      | Some addr => (mkPeer (Some addr) (isTrusted addr trusted), port)
      end
  end.

(** The rightmost node that is not a trusted proxy: [nodes] is the chain read
    backwards. *)
Fixpoint client_of (nodes : list string) (trusted : list Prefix) : option Addr :=
  match nodes with
  | [] => None
  | node :: nodes =>
      match nodeAddr node with
      | None => None
      | Some addr => if isTrusted addr trusted then client_of nodes trusted else Some addr
      end
  end.

Definition chain_of (h : Header) : list string :=
  match forwardedNodes (h_Values "Forwarded" h) with
  | [] => forwardedForNodes (h_Values "X-Forwarded-For" h)
  | nodes => nodes
  end.

Definition resolveClientIP (h : Header) (peerPort : string) (trusted : list Prefix) : option string :=
  (λ addr, JoinHostPort (Addr_String addr) peerPort) <$> client_of (reverse (chain_of h)) trusted.

Definition realIP (trusted : list Prefix) (headers : ForwardedHeaders) (r : Request) : Request :=
  let h := dropUnwrittenForwarding (rq_Header r) headers in
  let '(peer, peerPort) := peerOf (RemoteAddr r) trusted in
  let remote := if Trusted peer then default (RemoteAddr r) (resolveClientIP h peerPort trusted) else RemoteAddr r in
  mkRequest remote h (rq_Path r) (Some peer).

(** Credentials in headers are believed only of a request that came through a
    trusted proxy. *)
Definition FromTrustedProxy (r : Request) : bool :=
  match rq_Peer r with Some p => Trusted p | None => false end.
End forwarding.

(** * What a client writes decides nothing *)

Lemma split_from_nonempty st sep s : split_from st sep s ≠ [].
Proof. destruct s as [|c s]; cbn; [done|]. destruct (splits st sep c); [done|]. by destruct (split_from _ _ _). Qed.

(** Out of quotes nothing is escaped. *)
Lemma scan_escaped st c : (st.2 = true → st.1 = true) → (scan st c).2 = true → (scan st c).1 = true.
Proof. destruct st as [[] []]; cbn; repeat case_match; naive_solver. Qed.

Lemma scan_all_escaped st s : (st.2 = true → st.1 = true) → (scan_all st s).2 = true → (scan_all st s).1 = true.
Proof. revert st. induction s as [|c s IH]; intros st Hst; cbn; [done|]. apply IH, scan_escaped, Hst. Qed.

Lemma scan_all_app st s t : scan_all st (s +:+ t) = scan_all (scan_all st s) t.
Proof. revert st. by induction s as [|c s IH]; intros st; cbn. Qed.

Lemma scan_all_balanced s : quotesBalanced s = true → scan_all (false, false) s = (false, false).
Proof.
  unfold quotesBalanced. intros E%negb_true_iff. pose proof (scan_all_escaped (false, false) s) as H.
  destruct (scan_all (false, false) s) as [q e]. cbn in *. subst. destruct e; [|done]. by discriminate H.
Qed.

(** Without escapes, opening a quote before a text flips where it ends. *)
Lemma scan_all_flip q s : has_byte backslash s = false → scan_all (q, false) s = (xorb q (scan_all (false, false) s).1, false).
Proof.
  unfold has_byte. intros Hb%bool_decide_eq_false. revert q. induction s as [|c s IH]; intros q; [by destruct q|].
  cbn [IndexByte] in Hb. destruct (Ascii.eqb c backslash) eqn:Ec; [by destruct Hb|].
  assert (¬ is_Some (IndexByte s backslash)) as Hs by (intros [n Hn]; rewrite Hn in Hb; by destruct Hb).
  cbn [scan_all scan]. rewrite Ec, !andb_false_r. cbn [andb]. destruct (Ascii.eqb c dq).
  - rewrite (IH Hs (negb q)), (IH Hs (negb false)). cbn [negb fst]. f_equal. by destruct q, (scan_all (false, false) s).1.
  - rewrite (IH Hs q). by destruct (Ascii.eqb c dq).
Qed.

(** A separator out of quotes splits a text in two. *)
Lemma split_from_app st sep s t : sep ≠ dq → sep ≠ backslash → scan_all st s = (false, false) → (st.2 = true → st.1 = true) →
  split_from st sep (s +:+ String sep t) = split_from st sep s ++ split_from (false, false) sep t.
Proof.
  intros Hq Hb. apply Ascii.eqb_neq in Hq, Hb. revert st. induction s as [|c s IH]; intros st Hs Hst.
  - cbn in Hs. subst. cbn [String.append split_from]. unfold splits, scan. cbn [fst snd negb andb].
    by rewrite Hq, Ascii.eqb_refl.
  - cbn [String.append split_from]. rewrite (IH (scan st c) Hs (scan_escaped st c Hst)).
    destruct (splits st sep c); [done|]. pose proof (split_from_nonempty (scan st c) sep s).
    by destruct (split_from (scan st c) sep s).
Qed.

Lemma split_byte_concat c a b : split_byte c (a +:+ String c b) = split_byte c a ++ split_byte c b.
Proof.
  induction a as [|d a IH]; cbn; [by rewrite Ascii.eqb_refl|]. rewrite IH. destruct (Ascii.eqb d c); [done|].
  assert (split_byte c a ≠ []) as Hne.
  { destruct a as [|e a]; cbn; [done|]. destruct (Ascii.eqb e c); [done|]. by destruct (split_byte c a). }
  by destruct (split_byte c a).
Qed.

Section spoofing.
Context `{Unicode} (trusted : list Prefix).

(** A chain that stops: a node of it names no address, or one that is not a
    trusted proxy's. *)
Definition bounded (nodes : list string) : Prop :=
  ∃ node, node ∈ nodes ∧ match nodeAddr node with Some a => isTrusted a trusted = false | None => True end.

Lemma client_of_bounded l k : bounded l → client_of (l ++ k) trusted = client_of l trusted.
Proof.
  intros (node & Hin & Hn). induction l as [|x l IH]; [by apply not_elem_of_nil in Hin|]. cbn.
  apply elem_of_cons in Hin as [<-|Hin].
  - destruct (nodeAddr node) as [a|]; [|done]. by rewrite Hn.
  - destruct (nodeAddr x) as [a|]; [|done]. destruct (isTrusted a trusted); [by apply IH|done].
Qed.

Lemma client_of_appended evil good : bounded good →
  client_of (reverse (evil ++ good)) trusted = client_of (reverse good) trusted.
Proof.
  intros (node & Hin & Hn). rewrite reverse_app. apply client_of_bounded. exists node. by rewrite elem_of_reverse.
Qed.

Lemma value_nodes_appended evil good : quotesBalanced good = true → has_byte backslash good = false →
  value_nodes (evil +:+ String "," good) = value_nodes evil ++ value_nodes good ∨
  value_nodes (evil +:+ String "," good) = [""].
Proof.
  intros Hg Hb. unfold value_nodes. rewrite Hg. cbn [negb].
  assert (scan_all (false, false) (evil +:+ String "," good) =
    scan_all (scan (scan_all (false, false) evil) ",") good) as E by (by rewrite scan_all_app).
  destruct (quotesBalanced evil) eqn:Ev.
  - left. pose proof (scan_all_balanced _ Ev) as Es. unfold quotesBalanced at 1. rewrite E, Es.
    change (scan (false, false) ",") with (false, false). rewrite (scan_all_balanced _ Hg). cbn [fst negb].
    unfold splitOutsideQuotes. rewrite split_from_app by done. by rewrite fmap_app.
  - right. unfold quotesBalanced in Ev. apply negb_false_iff in Ev. destruct (scan_all (false, false) evil) as [q e].
    cbn in Ev. subst q. unfold quotesBalanced. rewrite E.
    assert (scan (true, e) "," = (true, false)) as -> by (by destruct e).
    rewrite scan_all_flip by done. rewrite (scan_all_balanced _ Hg). done.
Qed.

Definition family_key (f : ForwardedHeaders) : string :=
  match f with XForwardedHeaders => "X-Forwarded-For" | RFC7239Headers => "Forwarded" end.

Definition family_nodes (f : ForwardedHeaders) (values : list string) : list string :=
  match f with XForwardedHeaders => forwardedForNodes values | RFC7239Headers => forwardedNodes values end.

Lemma forwardedNodes_nonempty value values : forwardedNodes (value :: values) ≠ [].
Proof.
  unfold forwardedNodes. cbn. unfold value_nodes at 1. destruct (negb (quotesBalanced value)); [done|].
  pose proof (split_from_nonempty (false, false) "," value) as Hne. unfold splitOutsideQuotes.
  by destruct (split_from _ _ value).
Qed.

Lemma chain_family f values h :
  values ≠ [] → chain_of (dropUnwrittenForwarding (<[family_key f := values]> h) f) = family_nodes f values.
Proof.
  intros Hne. destruct values as [|value values]; [done|]. unfold chain_of, dropUnwrittenForwarding, h_Del, h_Values.
  destruct f; cbn [family_key family_nodes].
  - change (CanonicalHeaderKey "Forwarded") with "Forwarded". change (CanonicalHeaderKey "X-Forwarded-For") with "X-Forwarded-For".
    rewrite lookup_delete_eq. cbn [default forwardedNodes mbind list_bind].
    by rewrite lookup_delete_ne, lookup_insert_eq by done.
  - change (CanonicalHeaderKey "Forwarded") with "Forwarded". change (CanonicalHeaderKey "X-Forwarded-For") with "X-Forwarded-For".
    change (CanonicalHeaderKey "X-Forwarded-Proto") with "X-Forwarded-Proto".
    change (CanonicalHeaderKey "X-Forwarded-Host") with "X-Forwarded-Host".
    rewrite !lookup_delete_ne, lookup_insert_eq by done. cbn [from_option id].
    destruct (forwardedNodes (value :: values)) eqn:E; [by apply forwardedNodes_nonempty in E|done].
Qed.

(** C18: where a request is taken to come from is decided by the trusted proxies
    alone. Whatever a client puts in the forwarding header, on lines of its own
    or before what the proxy appends to its line, and whatever it puts in the
    family that is not read, the request is given the address it would have
    with the proxy's element alone — or, with RFC 7239's quotes left open, keeps
    the proxy's own — as long as the proxy's element names the client it saw. *)
Theorem client_not_spoofed family h lines evil good remote path :
  (family = RFC7239Headers → quotesBalanced good = true ∧ has_byte backslash good = false) →
  bounded (family_nodes family [good]) →
  let seen values := RemoteAddr (realIP trusted family (mkRequest remote (<[family_key family := values]> h) path None)) in
  seen (lines ++ [good]) = seen [good] ∧
  (seen (lines ++ [evil +:+ String "," good]) = seen [good] ∨
   family = RFC7239Headers ∧ seen (lines ++ [evil +:+ String "," good]) = remote).
Proof.
  intros Hgood Hb seen.
  assert (∀ values, values ≠ [] → seen values =
    if Trusted (peerOf remote trusted).1 then
      default remote ((λ a, JoinHostPort (Addr_String a) (peerOf remote trusted).2) <$>
        client_of (reverse (family_nodes family values)) trusted)
    else remote) as S.
  { intros values Hne. unfold seen, realIP, resolveClientIP. cbn [rq_Header RemoteAddr rq_Path].
    rewrite chain_family by done. by destruct (peerOf remote trusted). }
  rewrite !S by (done || by destruct lines). destruct (Trusted _); [|by split; [|left]].
  assert (∀ v, family_nodes family (lines ++ [v]) = family_nodes family lines ++ family_nodes family [v]) as Hv.
  { intros v. destruct family; cbn [family_nodes]; unfold forwardedForNodes, forwardedNodes; by rewrite bind_app. }
  rewrite !Hv, client_of_appended by done. split; [done|].
  assert (∀ nodes, client_of (reverse (family_nodes family lines ++ nodes ++ family_nodes family [good])) trusted =
    client_of (reverse (family_nodes family [good])) trusted) as Happ.
  { intros nodes. by rewrite app_assoc, client_of_appended. }
  destruct family; cbn [family_nodes] in *.
  - left. rewrite <-(Happ (forwardedForNodes [evil])). do 4 f_equal. unfold forwardedForNodes. cbn [mbind list_bind].
    by rewrite split_byte_concat, fmap_app, filter_app, !app_nil_r.
  - destruct (Hgood eq_refl) as [Hq Hbs]. destruct (value_nodes_appended evil good Hq Hbs) as [E|E].
    + left. rewrite <-(Happ (value_nodes evil)). do 4 f_equal. unfold forwardedNodes. cbn [mbind list_bind].
      by rewrite E, !app_nil_r.
    + right. split; [done|].
      assert (forwardedNodes [evil +:+ String "," good] = [""]) as -> by (unfold forwardedNodes; cbn [mbind list_bind]; by rewrite E).
      rewrite reverse_app. reflexivity.
Qed.
End spoofing.

(** * Closed examples *)

Definition demo_proxies : list Prefix := option_list (ParsePrefix "10.0.0.0/8").

Example chain_read :
  let _ := ascii_unicode in
  RemoteAddr (realIP demo_proxies XForwardedHeaders
    (mkRequest "10.0.0.1:4000" {[ "X-Forwarded-For" := ["9.9.9.9, 1.2.3.4, 10.0.0.7"] ]} "/" None)) = "1.2.3.4:4000" ∧
  RemoteAddr (realIP demo_proxies RFC7239Headers
    (mkRequest "10.0.0.1:4000" {[ "Forwarded" := ["for=9.9.9.9;by=x, For=" +:+ String dq ("[2001:db8::1]:80" +:+ String dq "")] ]} "/" None))
    = "[2001:db8::1]:4000" ∧
  RemoteAddr (realIP demo_proxies XForwardedHeaders
    (mkRequest "9.9.9.9:4000" {[ "X-Forwarded-For" := ["1.2.3.4"] ]} "/" None)) = "9.9.9.9:4000".
Proof. vm_compute. done. Qed.

Lemma client_not_spoofed_witness :
  let _ := ascii_unicode in
  let seen values := RemoteAddr (realIP demo_proxies RFC7239Headers (mkRequest "10.0.0.1:4000" {[ "Forwarded" := values ]} "/" None)) in
  seen ["for=1.2.3.4"] = "1.2.3.4:4000" ∧
  seen (["for=8.8.8.8"] ++ [("for=" +:+ String dq "9.9.9.9") +:+ String "," "for=1.2.3.4"]) = "10.0.0.1:4000" ∧
  seen (["for=8.8.8.8"] ++ ["for=1.2.3.4"]) = seen ["for=1.2.3.4"].
Proof.
  intros U seen. split; [vm_compute; reflexivity|]. split; [vm_compute; reflexivity|].
  refine (proj1 (@client_not_spoofed U demo_proxies RFC7239Headers ∅ ["for=8.8.8.8"] "" "for=1.2.3.4" "10.0.0.1:4000" "/" _ _)).
  - intros _. split; vm_compute; reflexivity.
  - exists "1.2.3.4". split; vm_compute; [left|reflexivity].
Defined.
