(* ===== verification/AuthMiddleware.v ===== *)
(** Who a request is from: the authentication middleware of
    internal/auth/middleware.go with the token path of token.go, the trusted
    header provider of headers.go, the session cookies of session.go and the
    hosts of host.go.

    A provider is what Authenticate gives for a request. RFC 2047 decoding, the
    HMAC and the JSON of a session are arguments with their laws. *)
From S2P Require Import Prelude GoStrings GoStrconv GoURL GoNet Forwarding OAuthServer OAuthJwt.
#[local] Open Scope string_scope.
#[local] Open Scope Z_scope.
#[local] Open Scope list_scope.

(** * The middleware *)

Record AuthError := mkAuthError { ae_Msg : string; WWWAuthenticate : string; ae_Code : string }.

(** What Authenticate returns: an identity, with what the provider keeps of
    the request beside it; nothing, having answered the request itself; or an
    error, an [AuthError] or another with its text. *)
Inductive authenticated :=
| Known (id : Identity) (raw : gmap string string)
| HandledItself
| Denied (e : AuthError + string).

Definition isProtectedResource (path : string) : bool := negb (HasPrefix path "/oauth/").

Definition isExempt (path : string) : bool :=
  if bool_decide (path = "/-/resync") then false
  else if HasPrefix path "/-/" then true
  else if bool_decide (path = "/api") || HasPrefix path "/api/" then true
  else if HasPrefix path "/assets/" then true
  else if bool_decide (path = "/auth") || HasPrefix path "/auth/" then true
  else if bool_decide (path = "/mcp") then true
  else if HasPrefix path "/.well-known/" then true
  else bool_decide (path ∈ ["/oauth/token"; "/oauth/revoke"; "/oauth/register"; "/oauth/jwks"]).

(** TokenVerifier and APITokens. *)
Record TokenVerifier := mkVerifier {
  verifier_Identify : string → string → identified;
  UnauthorizedHeader : string → string → string;
}.

Record APITokens := mkTokens { Verifier : option TokenVerifier; Resource : string }.

Section middleware.
Context `{Unicode}.

Definition bearer : string := "bearer ".

Definition ExtractBearerToken (h : Header) : string :=
  let auth := h_Get "Authorization" h in
  if (String.length auth <=? 7)%nat || negb (EqualFold (str_take 7 auth) bearer) then ""
  else trim_left_byte " " (str_drop 7 auth).

Definition Challenge (t : APITokens) (errorCode : string) : string :=
  match Verifier t with Some v => UnauthorizedHeader v (Resource t) errorCode | None => "" end.

(** [None]: the request is the provider's. *)
Definition authenticate (t : APITokens) (h : Header) : option authenticated :=
  match Verifier t with
  | None => None
  | Some v =>
      let token := ExtractBearerToken h in
      if is_empty token then None else
      match verifier_Identify v token (Resource t) with
      | Identified id _ _ => Some (Known id ∅)
      | ErrForeignToken => None
      | Refused _ => Some (Denied (inl (mkAuthError "invalid bearer token" (Challenge t "invalid_token") "")))
      end
  end.

Inductive outcome :=
| Next (id : option Identity) (raw : gmap string string)
| Failed (code detail : string) (challenges : list string)
| ProviderAnswered.

(** The code and the detail of a refusal so far, and whether it named its own. *)
Definition refusal_of (e : AuthError + string) : string * string * bool :=
  match e with
  | inl e =>
      if negb (is_empty (ae_Code e)) then (ae_Code e, ae_Msg e, true)
      else if negb (is_empty (WWWAuthenticate e)) then ("AUT001", "authentication required", false)
      else ("AUT006", "authentication refused", false)
  | inr _ => ("AUT006", "authentication refused", false)
  end.

Definition writeAuthFailure (e : AuthError + string) (extra : string) : outcome :=
  let '(code, detail, named) := refusal_of e in
  let own := match e with inl e => if is_empty (WWWAuthenticate e) then [] else [WWWAuthenticate e] | inr _ => [] end in
  if is_empty extra then Failed code detail own else
  let '(code, detail) :=
    if negb named && bool_decide (code = "AUT006") then ("AUT001", "authentication required") else (code, detail) in
  Failed code detail (own ++ [extra]).

Definition Middleware (provider : Request → authenticated) (tokens : APITokens) (r : Request) : outcome :=
  if isExempt (rq_Path r) then Next None ∅ else
  match default (provider r) (authenticate tokens (rq_Header r)) with
  | Denied e =>
      let resourceChallenge :=
        if is_empty (ExtractBearerToken (rq_Header r)) && isProtectedResource (rq_Path r) then Challenge tokens "" else "" in
      writeAuthFailure e resourceChallenge
  | HandledItself => ProviderAnswered
  | Known id raw => Next (Some id) raw
  end.

(** What /auth/whoami answers with. *)
Definition WhoamiHandler (provider : Request → authenticated) (tokens : APITokens) (r : Request) : outcome :=
  match default (provider r) (authenticate tokens (rq_Header r)) with
  | Denied e => writeAuthFailure e ""
  | HandledItself => ProviderAnswered
  | Known id raw => Next (Some id) raw
  end.

Definition NoneProvider (r : Request) : authenticated := Known (mkIdentity "anonymous" "" "Anonymous" [] "none") ∅.

(** * Trusted headers *)

Record HeadersConfig := mkHeadersConfig {
  hc_Subject : string;
  hc_Name : string;
  hc_Email : string;
  hc_Groups : string;
  SecretHeader : string;
  SecretValue : string;
}.

Context (DecodeHeader : string → option string).

Definition maxSubjectLen : nat := 256.
Definition maxGroups : nat := 256.

(** %q of a configured name, which holds nothing to escape. *)
Definition q (name : string) : string := String dq (name +:+ String dq "").

Definition singleHeader (h : Header) (name : string) : string + string :=
  match h_Values name h with
  | [] => inr ""
  | [v] => inr v
  | _ => inl ("header " +:+ q name +:+ " appears more than once; the proxy must replace any its client sent")
  end.

Definition identityHeader (h : Header) (name : string) : string + string :=
  match singleHeader h name with
  | inl err => inl err
  | inr v =>
      if negb (Contains v "=?") then inr v else
      match DecodeHeader v with
      | Some decoded => inr decoded
      | None => inl ("header " +:+ q name +:+ " is not valid RFC 2047")
      end
  end.

(** A control character of Unicode is a byte below 32, 127, or the byte 194
    followed by one of 128 to 159. *)
Fixpoint has_control (s : string) : bool :=
  match s with
  | "" => false
  | String c s' =>
      let n := nat_of_ascii c in
      (n <? 32)%nat || (n =? 127)%nat ||
      ((n =? 194)%nat && match s' with String d _ => (128 <=? nat_of_ascii d)%nat && (nat_of_ascii d <=? 159)%nat | "" => false end) ||
      has_control s'
  end.

Definition validateSubject (s : string) : option string :=
  if is_empty s then Some "empty value"
  else if (maxSubjectLen <? String.length s)%nat then Some ("exceeds maximum length (" +:+ Itoa (Z.of_nat (String.length s)) +:+ " > 256)")
  else if has_control s then Some "contains a control character"
  else None.

(** A header that need not be configured. *)
Definition configured (h : Header) (name : string) : string + string :=
  if is_empty name then inr "" else identityHeader h name.

Definition group_names (v : string) : list string := filter (λ g, g ≠ "") (TrimSpace <$> split_byte "," v).

Fixpoint extra_values (h : Header) (names : list string) (raw : gmap string string) : string + gmap string string :=
  match names with
  | [] => inr raw
  | name :: names =>
      match identityHeader h name with
      | inl err => inl err
      | inr v => extra_values h names (if is_empty v then raw else <[name := v]> raw)
      end
  end.

Definition bad {A} (r : string + A) (k : A → authenticated) : authenticated :=
  match r with inl err => Denied (inr err) | inr v => k v end.

Definition HeadersProvider (cfg : HeadersConfig) (extraHeaders : list string) (r : Request) : authenticated :=
  let h := rq_Header r in
  if negb (FromTrustedProxy r) then Denied (inr "request did not arrive through a trusted proxy") else
  bad (if is_empty (SecretHeader cfg) then inr "" else singleHeader h (SecretHeader cfg)) (λ secret,
  if negb (is_empty (SecretHeader cfg)) && negb (bool_decide (secret = SecretValue cfg)) then
    Denied (inr "invalid proxy secret") else
  bad (identityHeader h (hc_Subject cfg)) (λ subject,
  match validateSubject subject with
  | Some err => Denied (inr ("invalid subject header " +:+ q (hc_Subject cfg) +:+ ": " +:+ err))
  | None =>
      bad (configured h (hc_Name cfg)) (λ name,
      bad (configured h (hc_Email cfg)) (λ email,
      bad (configured h (hc_Groups cfg)) (λ v,
      let groups := if is_empty (hc_Groups cfg) then [] else group_names v in
      if (maxGroups <? length groups)%nat then Denied (inr ("groups header " +:+ q (hc_Groups cfg) +:+ " names more than 256 groups")) else
      bad (extra_values h extraHeaders {[ "subject_header" := hc_Subject cfg ]}) (λ raw,
      Known (mkIdentity subject email (if is_empty name then subject else name) groups "headers") raw))))
  end)).
End middleware.

(** * Session cookies *)

Record sessionEnvelope := mkEnvelope { se_Identity : option Identity; se_ExpiresAt : Z; IDTokenHint : string }.

(** base64.RawURLEncoding, JSON of an envelope, and HMAC-SHA256 under the
    session key; the identity of an envelope has what the cookie keeps of one. *)
Class SessionCodec := {
  s_b64 : string → string;
  s_unb64 : string → option string;
  s_marshal : sessionEnvelope → string;
  s_unmarshal : string → option sessionEnvelope;
  s_mac : string → string;
}.

Class SessionCodecLaws `{SessionCodec} (json_text : sessionEnvelope → Prop) : Prop := {
  s_unb64_b64 s : s_unb64 (s_b64 s) = Some s;
  s_b64_no_dot s : IndexByte (s_b64 s) "." = None;
  s_unmarshal_marshal e : json_text e → s_unmarshal (s_marshal e) = Some e;
}.

Section sessions.
Context `{SessionCodec}.

Definition maxCookieValueLen : nat := 3800.

Definition signEnvelope (e : sessionEnvelope) : string :=
  let payload := s_marshal e in s_b64 payload +:+ "." +:+ s_b64 (s_mac payload).

(** The value of the cookie Set sends. *)
Definition Session_Set (id : Identity) (ttl : Z) (idTokenHint : string) (now : Z) : string :=
  let env hint := mkEnvelope (Some id) (unix (now + ttl)) hint in
  let value := signEnvelope (env idTokenHint) in
  if (maxCookieValueLen <? String.length value)%nat && negb (is_empty idTokenHint) then signEnvelope (env "") else value.

Definition GetEnvelope (cookie : option string) (now : Z) : string + sessionEnvelope :=
  match cookie with
  | None => inl "http: named cookie not present"
  | Some value =>
      match Cut value "." with
      | (_, _, false) => inl "auth: malformed session cookie"
      | (part0, part1, true) =>
          match s_unb64 part0 with
          | None => inl "auth: malformed session cookie payload"
          | Some payload =>
              match s_unb64 part1 with
              | None => inl "auth: malformed session cookie signature"
              | Some sig =>
                  if negb (bool_decide (sig = s_mac payload)) then inl "auth: invalid session signature" else
                  match s_unmarshal payload with
                  | None => inl "auth: invalid session payload"
                  | Some env => if se_ExpiresAt env <=? unix now then inl "auth: session expired" else inr env
                  end
              end
          end
      end
  end.

Definition Session_Get (cookie : option string) (now : Z) : string + option Identity :=
  match GetEnvelope cookie now with inl err => inl err | inr env => inr (se_Identity env) end.
End sessions.

(** * Hosts *)

Section hosts.
Context `{Unicode, URLs}.

Definition bracket (c : ascii) : bool := Ascii.eqb c "[" || Ascii.eqb c "]".

Fixpoint trim_left_brackets (s : string) : string :=
  match s with String c s' => if bracket c then trim_left_brackets s' else s | "" => "" end.

Fixpoint trim_right_brackets (s : string) : string :=
  match s with
  | "" => ""
  | String c s' =>
      match trim_right_brackets s' with
      | "" => if bracket c then "" else String c ""
      | t => String c t
      end
  end.

Definition HostName (hostport : string) : string :=
  let host := match SplitHostPort hostport with Some (h, _) => h | None => hostport end in
  TrimSuffix (trim_right_brackets (trim_left_brackets host)) ".".

Definition NewHostSet (publicURL : string) (names : list string) : list string :=
  let names := match url_Parse publicURL with
               | Some u => if is_empty publicURL then names else u_Host u :: names
               | None => names
               end in
  filter (λ n, n ≠ "") ((λ name, ToLower (HostName (TrimSpace name))) <$> names).

Definition IsLoopbackHost (host : string) : bool :=
  EqualFold host "localhost" || match ParseAddr host with Some a => IsLoopback (As16 a) | None => false end.

Definition Admits (set : list string) (hostport : string) : bool :=
  let host := HostName hostport in
  if is_empty host then false
  else if bool_decide (is_Some (ParseAddr host)) || IsLoopbackHost host then true
  else bool_decide (ToLower host ∈ set).
End hosts.

(** * Who is served *)

Section served.
Context `{Unicode}.

(** A request whose credential is not one of ours to judge. *)
Definition not_ours (t : APITokens) (h : Header) : Prop :=
  ∀ v, Verifier t = Some v →
    ExtractBearerToken h = "" ∨ verifier_Identify v (ExtractBearerToken h) (Resource t) = ErrForeignToken.

Lemma authenticate_None t h : authenticate t h = None ↔ not_ours t h.
Proof.
  unfold authenticate, not_ours. destruct (Verifier t) as [v|]; [|naive_solver].
  destruct (is_empty (ExtractBearerToken h)) eqn:E.
  - apply is_empty_spec in E. split; [|done]. intros _ v' [= <-]. by left.
  - assert (ExtractBearerToken h ≠ "") as Hne by (intros E'; by rewrite E' in E). split.
    + destruct (verifier_Identify v _ _) eqn:Ei; [done| |done]. intros _ v' [= <-]. by right.
    + intros Hn. destruct (Hn v eq_refl) as [?| ->]; done.
Qed.

Lemma writeAuthFailure_fails e extra : ∃ code detail ch, writeAuthFailure e extra = Failed code detail ch.
Proof. unfold writeAuthFailure. destruct (refusal_of e) as [[? ?] named]. case_match; [eauto|]. case_match; eauto. Qed.

(** C13: every answer of the middleware is owed to somebody. A request is served
    without an identity exactly on the exempt paths, among which are neither
    the consent page nor a resync; with one, the identity is what a token of
    this deployment's carries for its own resource, or else the provider's, and
    then the request brought no token of ours: one that fails is never handed
    on. A refusal with a challenge is never the one that promises none can
    help, and one without a challenge never asks for authentication. *)
Theorem served_as_vouched provider tokens r :
  (Middleware provider tokens r = Next None ∅ ↔ isExempt (rq_Path r) = true) ∧
  isExempt "/oauth/authorize" = false ∧ isExempt "/-/resync" = false ∧
  (∀ id raw, Middleware provider tokens r = Next (Some id) raw →
    (∃ v client e, Verifier tokens = Some v ∧ ExtractBearerToken (rq_Header r) ≠ "" ∧
       verifier_Identify v (ExtractBearerToken (rq_Header r)) (Resource tokens) = Identified id client e) ∨
    (provider r = Known id raw ∧ not_ours tokens (rq_Header r))) ∧
  (∀ code detail challenges, Middleware provider tokens r = Failed code detail challenges →
    (challenges = [] → code = "AUT006" ∨ ∃ e, provider r = Denied (inl e) ∧ code = ae_Code e) ∧
    (challenges ≠ [] → code = "AUT001" ∨ ∃ e, provider r = Denied (inl e) ∧ code = ae_Code e)).
Proof.
  unfold Middleware. destruct (isExempt (rq_Path r)) eqn:Ex.
  { split; [done|]. split; [done|]. split; [done|]. split; by intros. }
  split; [split; [|done]|].
  { destruct (default _ _) as [| |e]; [done|done|]. set (extra := if _ && _ then _ else _).
    by destruct (writeAuthFailure_fails e extra) as (? & ? & ? & ->). }
  split; [done|]. split; [done|]. destruct (authenticate tokens (rq_Header r)) as [a|] eqn:Ea; cbn [from_option id].
  - unfold authenticate in Ea. destruct (Verifier tokens) as [v|] eqn:Ev; [|done].
    destruct (is_empty (ExtractBearerToken _)) eqn:Et; [done|].
    assert (ExtractBearerToken (rq_Header r) ≠ "") as Hne by (intros E'; by rewrite E' in Et).
    destruct (verifier_Identify _ _ _) as [i c e| |e] eqn:Ei; [|done|]; injection Ea as <-.
    + split; [|by intros]. intros id raw [= <- _]. left. exists v, c, e. done.
    + split; [intros id raw; set (extra := if _ && _ then _ else _);
              match goal with |- writeAuthFailure ?e' _ = _ → _ => by destruct (writeAuthFailure_fails e' extra) as (? & ? & ? & ->) end|].
      intros code detail ch. cbn [andb]. unfold writeAuthFailure, refusal_of. cbn [ae_Code ae_Msg WWWAuthenticate is_empty negb].
      unfold Challenge. rewrite Ev. destruct (is_empty (UnauthorizedHeader _ _ _)); cbn; intros [= <- <- <-]; split; intros ?; by auto.
  - apply authenticate_None in Ea. destruct (provider r) as [i raw0| |e] eqn:Ep; [|split; by intros|].
    { split; [|by intros]. intros id raw [= <- <-]. by right. }
    set (extra := if _ && _ then _ else _). clearbody extra.
    split; [intros id raw; by destruct (writeAuthFailure_fails e extra) as (? & ? & ? & ->)|]. intros code detail ch.
    unfold writeAuthFailure, refusal_of. destruct e as [e|text].
    + destruct (is_empty (ae_Code e)) eqn:Ec; cbn [negb].
      * destruct (is_empty (WWWAuthenticate e)) eqn:Ew; cbn; destruct (is_empty extra); cbn; intros [= <- <- <-]; split; intros ?; by auto.
      * destruct (is_empty (WWWAuthenticate e)), (is_empty extra); cbn; intros [= <- <- <-]; split; intros ?; by eauto.
    + destruct (is_empty extra); cbn; intros [= <- <- <-]; split; intros ?; by auto.
Qed.
End served.

(** * Identities in headers *)

Section headers.
Context `{Unicode} (DecodeHeader : string → option string).

(** The value of a header its proxy set once, decoded, or none. *)
Definition header_says (h : Header) (name v : string) : Prop :=
  (h_Values name h = [] ∧ v = "") ∨ ∃ raw, h_Values name h = [raw] ∧ (v = raw ∨ DecodeHeader raw = Some v).

Lemma singleHeader_inr h name v : singleHeader h name = inr v → h_Values name h = [] ∧ v = "" ∨ h_Values name h = [v].
Proof. unfold singleHeader. destruct (h_Values name h) as [|x [|]]; intros [= <-]; auto. Qed.

Lemma identityHeader_inr h name v : identityHeader DecodeHeader h name = inr v → header_says h name v.
Proof.
  unfold identityHeader. destruct (singleHeader h name) as [|x] eqn:E; [done|]. apply singleHeader_inr in E. case_match.
  - intros [= <-]. destruct E as [[? ->]|E]; [by left|right; eauto].
  - destruct (DecodeHeader x) as [d|] eqn:Ed; [|done]. intros [= <-].
    destruct E as [[E ->]|E]; [|right; eauto]. cbn in *. done.
Qed.

Lemma group_names_nonempty v g : g ∈ group_names v → g ≠ "".
Proof. unfold group_names. by intros [? _]%list_elem_of_filter. Qed.

(** An identity in a header is believed of a trusted proxy and no one else.
    When the provider takes one from a request, as it comes out of the realIP
    middleware, the connection came from an address in a trusted prefix,
    whatever the forwarding headers say; the proxy's secret, when one is
    configured, came with it; and the subject, the name and the email are each
    what a header sent at most once says. The subject is not empty, at most 256
    bytes and free of control characters, and there are at most 256 groups, none
    of them empty. *)
Theorem header_identity_vouched trusted family cfg extra r id raw :
  HeadersProvider DecodeHeader cfg extra (realIP trusted family r) = Known id raw →
  let h := dropUnwrittenForwarding (rq_Header r) family in
  (∃ host port addr p, SplitHostPort (RemoteAddr r) = Some (host, port) ∧ ParseAddr host = Some addr ∧
     p ∈ trusted ∧ Prefix_Contains p addr = true) ∧
  (SecretHeader cfg ≠ "" → h_Values (SecretHeader cfg) h = [SecretValue cfg] ∨
     h_Values (SecretHeader cfg) h = [] ∧ SecretValue cfg = "") ∧
  header_says h (hc_Subject cfg) (id_Subject id) ∧
  (hc_Email cfg = "" ∧ id_Email id = "" ∨ header_says h (hc_Email cfg) (id_Email id)) ∧
  (id_DisplayName id = id_Subject id ∨ header_says h (hc_Name cfg) (id_DisplayName id)) ∧
  id_Subject id ≠ "" ∧ (String.length (id_Subject id) ≤ maxSubjectLen)%nat ∧ has_control (id_Subject id) = false ∧
  (length (id_Groups id) ≤ maxGroups)%nat ∧ (∀ g, g ∈ id_Groups id → g ≠ "") ∧ id_Provider id = "headers".
Proof.
  intros E h. unfold HeadersProvider, realIP in E. fold h in E.
  destruct (peerOf (RemoteAddr r) trusted) as [peer port] eqn:Ep. cbn [FromTrustedProxy rq_Peer rq_Header] in E.
  destruct (Trusted peer) eqn:Et; cbn [negb] in E; [|done].
  set (secret := if is_empty (SecretHeader cfg) then _ else _) in E.
  destruct secret as [|sv] eqn:Es; cbn [bad] in E; [done|].
  destruct (negb (is_empty (SecretHeader cfg)) && negb (bool_decide (sv = SecretValue cfg))) eqn:Esec; [done|].
  destruct (identityHeader DecodeHeader h (hc_Subject cfg)) as [|subject] eqn:Esub; cbn [bad] in E; [done|].
  destruct (validateSubject subject) eqn:Evs; [done|].
  destruct (configured DecodeHeader h (hc_Name cfg)) as [|name] eqn:En; cbn [bad] in E; [done|].
  destruct (configured DecodeHeader h (hc_Email cfg)) as [|email] eqn:Ee; cbn [bad] in E; [done|].
  destruct (configured DecodeHeader h (hc_Groups cfg)) as [|gv] eqn:Eg; cbn [bad] in E; [done|].
  set (groups := if is_empty (hc_Groups cfg) then [] else group_names gv) in E.
  destruct (maxGroups <? length groups)%nat eqn:Egl; [done|]. apply Nat.ltb_ge in Egl.
  destruct (extra_values _ _ _ _) as [|raw']; cbn [bad] in E; [done|]. injection E as <- _. cbn.
  unfold validateSubject in Evs. destruct (is_empty subject) eqn:E1; [done|].
  destruct (maxSubjectLen <? String.length subject)%nat eqn:E2; [done|]. apply Nat.ltb_ge in E2.
  destruct (has_control subject) eqn:E3; [done|].
  split_and!; try done.
  - unfold peerOf in Ep. destruct (SplitHostPort (RemoteAddr r)) as [[host port']|]; [|by injection Ep as <- _].
    destruct (ParseAddr host) as [addr|] eqn:Ea; [|by injection Ep as <- _]. injection Ep as <- _. cbn in Et.
    apply existsb_True in Et as (p & Hp & Hc). by exists host, port', addr, p.
  - intros Hne. subst secret. rewrite (is_empty_false _ Hne) in Es, Esec. cbn [negb andb] in Esec.
    apply negb_false_iff, bool_decide_eq_true in Esec as ->. apply singleHeader_inr in Es. naive_solver.
  - by apply identityHeader_inr.
  - unfold configured in Ee. destruct (is_empty (hc_Email cfg)) eqn:E4; [|right; by apply identityHeader_inr].
    left. injection Ee as <-. by apply is_empty_spec in E4.
  - destruct (is_empty name) eqn:E5; [by left|]. right. unfold configured in En.
    destruct (is_empty (hc_Name cfg)); [by injection En as <-|by apply identityHeader_inr].
  - intros ->. done.
  - subst groups. intros g. destruct (is_empty (hc_Groups cfg)); [by intros ?%not_elem_of_nil|apply group_names_nonempty].
Qed.
End headers.

(** * Sessions *)

Section session_laws.
Context (json_text : sessionEnvelope → Prop) `{SessionCodecLaws json_text}.

Lemma GetEnvelope_signed env now : json_text env →
  GetEnvelope (Some (signEnvelope env)) now =
    if se_ExpiresAt env <=? unix now then inl "auth: session expired" else inr env.
Proof.
  intros Hj. unfold GetEnvelope, signEnvelope. cbn zeta.
  change ("." +:+ s_b64 (s_mac (s_marshal env))) with (String "." (s_b64 (s_mac (s_marshal env)))).
  rewrite Cut_byte by apply s_b64_no_dot. rewrite !s_unb64_b64. rewrite bool_decide_true by done. cbn [negb].
  by rewrite s_unmarshal_marshal.
Qed.

(** A session is who signed in, until it ends. The cookie set for an
    identity reads back as that identity, up to the second it expires in, and
    from then on as expired; a cookie too long for a browser gives up the hint
    for signing out, never the identity. And no cookie is read whose signature
    is not the MAC of its payload. *)
Theorem session_roundtrip id ttl hint set_at now :
  (∀ hint, json_text (mkEnvelope (Some id) (unix (set_at + ttl)) hint)) →
  let cookie := Session_Set id ttl hint set_at in
  Session_Get (Some cookie) now =
    (if unix (set_at + ttl) <=? unix now then inl "auth: session expired" else inr (Some id)) ∧
  ((String.length cookie ≤ maxCookieValueLen)%nat ∨ cookie = signEnvelope (mkEnvelope (Some id) (unix (set_at + ttl)) "")) ∧
  ∀ value env, GetEnvelope (Some value) now = inr env →
    ∃ part0 part1 payload, value = part0 +:+ String "." part1 ∧ s_unb64 part0 = Some payload ∧
      s_unb64 part1 = Some (s_mac payload) ∧ s_unmarshal payload = Some env ∧ unix now < se_ExpiresAt env.
Proof.
  intros Hj cookie.
  assert (∃ h', cookie = signEnvelope (mkEnvelope (Some id) (unix (set_at + ttl)) h')) as [h' Hc].
  { subst cookie. unfold Session_Set. case_match; eauto. }
  split_and!.
  - unfold Session_Get. rewrite Hc, GetEnvelope_signed by done. cbn [se_ExpiresAt se_Identity]. by destruct (_ <=? _).
  - subst cookie. unfold Session_Set. destruct (maxCookieValueLen <? _)%nat eqn:El; cbn [andb].
    + destruct (is_empty hint) eqn:Eh; cbn [negb]; [|by right]. apply is_empty_spec in Eh as ->. by right.
    + left. by apply Nat.ltb_ge in El.
  - intros value env. unfold GetEnvelope. destruct (Cut value ".") as [[p0 p1] []] eqn:Ec; [|done].
    destruct (s_unb64 p0) as [payload|] eqn:E0; [|done]. destruct (s_unb64 p1) as [sig|] eqn:E1; [|done].
    case_bool_decide as Esig; cbn [negb]; [|done]. destruct (s_unmarshal payload) as [env'|] eqn:Eu; [|done].
    destruct (se_ExpiresAt env' <=? unix now) eqn:El; [done|]. intros [= <-]. apply Z.leb_gt in El.
    exists p0, p1, payload. subst sig. split_and!; try done. apply Cut_found in Ec as ->. reflexivity.
Qed.
End session_laws.

(** * Closed examples *)

Definition demo_headers : HeadersConfig := mkHeadersConfig "x-user" "" "X-Mail" "X-Groups" "X-Secret" "s3cret".

Definition demo_forwarded : Request :=
  mkRequest "10.0.0.1:4000"
    {[ "X-User" := ["alice"]; "X-Groups" := ["ops, , dev"]; "X-Secret" := ["s3cret"]; "X-Forwarded-For" := ["1.2.3.4"] ]} "/services" None.

Definition demo_alice : Identity := mkIdentity "alice" "" "alice" ["ops"; "dev"] "headers".

Definition demo_provider (r : Request) : authenticated :=
  @HeadersProvider ascii_unicode (λ _, None) demo_headers [] (@realIP ascii_unicode demo_proxies XForwardedHeaders r).

Lemma header_identity_vouched_witness :
  demo_provider demo_forwarded = Known demo_alice {[ "subject_header" := "x-user" ]} ∧
  ∃ p, p ∈ demo_proxies ∧ Prefix_Contains p (mkAddr true 167772161 "") = true.
Proof.
  assert (demo_provider demo_forwarded = Known demo_alice {[ "subject_header" := "x-user" ]}) as E by (vm_compute; reflexivity).
  split; [exact E|].
  destruct (proj1 (@header_identity_vouched ascii_unicode (λ _, None) demo_proxies XForwardedHeaders demo_headers []
    demo_forwarded demo_alice _ E)) as (host & port & addr & p & Hs & Ha & Hp & Hc).
  exists p. split; [exact Hp|].
  assert (Some (host, port) = Some ("10.0.0.1", "4000")) as Eh by (rewrite <-Hs; vm_compute; reflexivity).
  injection Eh as -> ->. assert (Some addr = Some (mkAddr true 167772161 "")) as Ea by (rewrite <-Ha; vm_compute; reflexivity).
  injection Ea as ->. exact Hc.
Defined.

(** A request that came from elsewhere, and one whose proxy appended to its
    client's header, are refused. *)
Example headers_refused :
  demo_provider (mkRequest "9.9.9.9:1" (rq_Header demo_forwarded) "/" None) =
    Denied (inr "request did not arrive through a trusted proxy") ∧
  demo_provider (mkRequest "10.0.0.1:4000" (<["X-User" := ["root"; "alice"]]> (rq_Header demo_forwarded)) "/" None) =
    Denied (inr ("header " +:+ q "x-user" +:+ " appears more than once; the proxy must replace any its client sent")).
Proof. vm_compute. done. Qed.

Definition demo_session : SessionCodec := {|
  s_b64 := escape; s_unb64 s := Some (unescape s);
  s_marshal e := IDTokenHint e; s_unmarshal s := Some (mkEnvelope (Some demo_alice) 60 s); s_mac s := "mac" |}.

Lemma demo_session_laws : @SessionCodecLaws demo_session (λ e, e = mkEnvelope (Some demo_alice) 60 (IDTokenHint e)).
Proof.
  split; cbn [s_b64 s_unb64 s_marshal s_unmarshal s_mac demo_session].
  - intros s. by rewrite unescape_escape.
  - exact escape_no_dot.
  - intros e He. by rewrite <-He.
Qed.

Lemma session_roundtrip_witness :
  @Session_Get demo_session (Some (@Session_Set demo_session demo_alice 59000000000 "tok.en" 1000000000)) 59000000000 = inr (Some demo_alice) ∧
  @Session_Get demo_session (Some (@Session_Set demo_session demo_alice 59000000000 "tok.en" 1000000000)) 60000000000 =
    inl "auth: session expired".
Proof.
  split; [exact (proj1 (@session_roundtrip _ demo_session demo_session_laws demo_alice 59000000000 "tok.en" 1000000000 59000000000
    (λ _, eq_refl)))|].
  exact (proj1 (@session_roundtrip _ demo_session demo_session_laws demo_alice 59000000000 "tok.en" 1000000000 60000000000
    (λ _, eq_refl))).
Defined.

Example hosts_admitted :
  let _ := ascii_unicode in let _ := {| url_Parse _ := Some (mkURL "https" false "Ops.Example.com:8443" "Ops.Example.com" "/" "") |} in
  let set := NewHostSet "https://Ops.Example.com:8443" [" metrics "; "."] in
  set = ["ops.example.com"; "metrics"] ∧ Admits set "OPS.example.com.:9000" = true ∧ Admits set "[2001:db8::1]:80" = true ∧
  Admits set "localhost" = true ∧ Admits set "evil.example.com" = false ∧ Admits set "" = false.
Proof. vm_compute. done. Qed.
