(* ===== verification/Ring.v ===== *)
(** A ring buffer as the program writes one, a fixed slice with the slot to be
    overwritten next and whether it wrapped, and what it stands for: the last
    [n] of everything pushed, in order. *)
From S2P Require Import Prelude.
#[local] Open Scope nat_scope.

(** The slot [i] steps before the cursor. *)
Definition back (cursor n i : nat) : nat :=
  if i <? cursor then cursor - 1 - i else cursor + n - 1 - i.

(** The slots in use, newest first. *)
Definition walk {A} (d : A) (buf : list A) (cursor : nat) (full : bool) : list A :=
  (λ i, default d (buf !! back cursor (length buf) i)) <$>
    seq 0 (if full then length buf else cursor).

(** Where the cursor goes from [cursor], and whether it wrapped. *)
Definition next_cursor (n cursor : nat) : nat := if n <=? S cursor then 0 else S cursor.
Definition next_full (n cursor : nat) (full : bool) : bool := if n <=? S cursor then true else full.

(** The buffer holds the last [n] of [all], which is oldest first: what was
    pushed as number [p] is in slot [p mod n]. *)
Record ring_repr {A} (n : nat) (all : list A) (buf : list A) (cursor : nat) (full : bool)
    : Prop := {
  rr_pos : 0 < n;
  rr_length : length buf = n;
  rr_cursor : cursor = length all mod n;
  rr_full : full = (n <=? length all);
  rr_slot p x : all !! p = Some x → length all ≤ p + n → buf !! (p mod n) = Some x;
}.

(** * Facts *)

Lemma succ_mod N n : 0 < n → S N mod n = next_cursor n (N mod n).
Proof.
  intros Hn. unfold next_cursor. destruct (Nat.leb_spec n (S (N mod n))) as [H|H].
  - assert (N mod n < n) by (apply Nat.mod_upper_bound; lia).
    symmetry. apply (Nat.mod_unique (S N) n (S (N / n))); [lia|].
    pose proof (Nat.div_mod_eq N n). nia.
  - symmetry. apply (Nat.mod_unique (S N) n (N / n)); [lia|].
    pose proof (Nat.div_mod_eq N n). lia.
Qed.

Lemma succ_full N n : 0 < n →
  (n <=? S N) = next_full n (N mod n) (n <=? N).
Proof.
  intros Hn. unfold next_full. pose proof (Nat.div_mod_eq N n).
  assert (N mod n < n) by (apply Nat.mod_upper_bound; lia).
  destruct (Nat.leb_spec n (S (N mod n))).
  - apply Nat.leb_le. nia.
  - destruct (Nat.leb_spec n (S N)), (Nat.leb_spec n N); try done; try lia.
    assert (N / n = 0) by (apply Nat.div_small; lia). nia.
Qed.

(** Slots of positions within one lap of each other are distinct. *)
Lemma mod_inj n p q : 0 < n → p mod n = q mod n → p < q + n → q < p + n → p = q.
Proof.
  intros Hn Heq H1 H2. pose proof (Nat.div_mod_eq p n). pose proof (Nat.div_mod_eq q n).
  assert (p / n = q / n) by nia. nia.
Qed.

Lemma back_mod N n i : 0 < n → i < n → i < N → back (N mod n) n i = (N - 1 - i) mod n.
Proof.
  intros Hn Hi HN. pose proof (Nat.div_mod_eq N n).
  assert (N mod n < n) by (apply Nat.mod_upper_bound; lia).
  unfold back. destruct (Nat.ltb_spec i (N mod n)).
  - apply (Nat.mod_unique _ n (N / n)); lia.
  - assert (0 < N / n) by nia. apply (Nat.mod_unique _ n (N / n - 1)); [lia|]. nia.
Qed.

Section Ring.
Context {A : Type}.
Implicit Types (all buf : list A).

Lemma ring_empty n (d : A) : 0 < n → ring_repr n [] (replicate n d) 0 false.
Proof.
intros Hn. constructor; [done|apply length_replicate|by rewrite Nat.Div0.mod_0_l| |done].
symmetry. apply Nat.leb_gt. simpl. lia.
Qed.

Lemma ring_push n all buf c f x :
ring_repr n all buf c f →
ring_repr n (all ++ [x]) (<[c:=x]> buf) (next_cursor n c) (next_full n c f).
Proof.
intros [Hn Hl -> -> Hs]. constructor; [done|by rewrite length_insert| | |].
- rewrite length_app, Nat.add_comm. simpl. by rewrite succ_mod.
- rewrite length_app, Nat.add_comm. simpl. by rewrite succ_full.
- intros p y Hp Hlive. rewrite length_app in Hlive. simpl in Hlive.
assert (length all mod n < n) by (apply Nat.mod_upper_bound; lia).
destruct (decide (p = length all)) as [->|Hne].
+ rewrite lookup_app_r, Nat.sub_diag in Hp by done. injection Hp as ->.
apply list_lookup_insert_eq. lia.
+ assert (p < length all).
{ apply lookup_lt_Some in Hp. rewrite length_app in Hp. simpl in Hp. lia. }
rewrite lookup_app_l in Hp by done. rewrite list_lookup_insert_ne; [apply Hs; [done|lia]|].
intros Heq. apply Hne. symmetry. apply (mod_inj n); [done..|lia|lia].
Qed.

(** The walk is the last [n], newest first. *)
Lemma ring_walk n all buf c f d :
ring_repr n all buf c f → walk d buf c f = reverse (drop (length all - n) all).
Proof.
intros [Hn Hl -> -> Hs]. unfold walk. rewrite Hl.
assert (length (reverse (drop (length all - n) all)) = Nat.min n (length all)) as Hlen.
{ rewrite length_reverse, length_drop. lia. }
assert ((if n <=? length all then n else length all mod n) = Nat.min n (length all)) as ->.
{ destruct (Nat.leb_spec n (length all)); [lia|]. rewrite Nat.mod_small by lia. lia. }
apply list_eq_same_length with (n := Nat.min n (length all));
[done|by rewrite length_fmap, length_seq|].
intros i x y Hi. rewrite list_lookup_fmap, lookup_seq_lt by done. simpl.
intros [= <-] Hy. rewrite reverse_lookup, length_drop, lookup_drop in Hy
by (rewrite length_drop; lia).
rewrite back_mod by lia.
rewrite (Hs (length all - 1 - i) y); [done| |lia].
rewrite <- Hy. f_equal. lia.
Qed.

(** The slot under the cursor of a full ring holds the oldest. *)
Lemma ring_oldest n all buf c :
ring_repr n all buf c true → buf !! c = all !! (length all - n).
Proof.
intros [Hn Hl -> Hf Hs]. symmetry in Hf. apply Nat.leb_le in Hf.
destruct (lookup_lt_is_Some_2 all (length all - n)) as [x Hx]; [lia|].
rewrite Hx, <- (Hs _ x Hx) by lia. f_equal.
rewrite <- (Nat.Div0.mod_add (length all - n) 1 n) . f_equal. lia.
Qed.

Lemma ring_first n all buf c x :
ring_repr n (x :: all) buf c false → buf !! 0 = Some x.
Proof.
intros [Hn Hl -> Hf Hs]. symmetry in Hf. apply Nat.leb_gt in Hf.
rewrite <- (Nat.Div0.mod_0_l n). apply (Hs 0); [done|]. lia.
Qed.
End Ring.
