(* ===== verification/History.v ===== *)
(** The change history: internal/cache/history.go. A ring of entries numbered as
    they are appended, with a small ring of slots per resource that answers a
    resource's query without a scan.

    An entry carries the fields this code and the event stream read; its summary
    and the fields a list copies out of an annotation are left out. The mutex
    makes each operation one step. *)
From S2P Require Import Prelude GoStrings Ring.
#[local] Open Scope string_scope.
#[local] Open Scope nat_scope.

(** * Data *)

Definition KindChange : string := "change".
Definition KindGap : string := "gap".
Definition KindAnnotation : string := "annotation".

Definition EventService : string := "service".
Definition EventTask : string := "task".

Record Actor := mkActor {
  Actor_Subject : string;
  Actor_Name : string;
  Actor_Provider : string;
  Actor_Client : string;
  Actor_Transport : string;
}.

(** A resource an annotation names. *)
Record AnnotationResource := mkAnnotationResource {
  ar_Type : string;
  ar_ID : string;
  ar_Name : string;
  ar_Service : string;
  ar_Stack : string;
  ar_Removed : bool;
}.

Record Annotation := mkAnnotation {
  a_ID : Z;
  a_Timestamp : Z;
  a_Until : Z;
  a_Text : string;
  a_Tags : list string;
  a_Resources : list AnnotationResource;
  a_Actor : option Actor;
  a_Updated : Z;
  a_Editor : option Actor;
  a_Version : Z;
  a_Created : Z;
}.

Record HistoryEntry := mkHistoryEntry {
  ID : Z;
  Kind : string;
  Timestamp : Z;
  Until : Z;
  Type_ : string;
  Action : string;
  ResourceID : string;
  Name : string;
  Entry_Actor : option Actor;
  Stack : string;
  ServiceID : string;
  Slot : Z;
  NodeID : string;
  ServiceName : string;
  RecoveredFrom : Z;
  Recovered : bool;
  Entry_Service : string;  (* the removed resource's, as Stack is *)
  Entry_Annotation : option Annotation;
  Entry_Previous : option Annotation;
}.

Definition zero_entry : HistoryEntry :=
  mkHistoryEntry 0 "" time_zero time_zero "" "" "" "" None "" "" 0 "" ""
    time_zero false "" None None.

Record HistoryQuery := mkHistoryQuery {
  q_Type : string;
  q_ResourceID : string;
  BeforeID : Z;
  TitleContains : string;
  Search : string;
  Limit : Z;
  TaskName : option (HistoryEntry → string);
  words : list string;
  ready : bool;
  Types : list string;
  q_Kinds : list string;
  Before : Z;
  After : Z;
  Visible : option (HistoryEntry → bool);
  q_Tags : list string;
  MatchAny : bool;
  Authors : list string;
  Members : list string;
  ReadableAnnotation : option (Annotation → bool);
}.

(** A ring of slots of the entries' ring. *)
Record indexRing := mkIndexRing {
  indices : list nat;
  ir_cursor : nat;
  ir_full : bool;
}.

Record History := mkHistory {
  entries : list HistoryEntry;
  size : nat;
  cursor : nat;
  count : Z;
  full : bool;
  instance : string;
  byResource : gmap string indexRing;
}.

Definition indexRingSize : nat := 64.

(** * The rings *)

Definition ir_push (r : indexRing) (idx : nat) : indexRing :=
  let indices' := <[ir_cursor r := idx]> (indices r) in
  if length (indices r) <=? S (ir_cursor r) then mkIndexRing indices' 0 true
  else mkIndexRing indices' (S (ir_cursor r)) (ir_full r).

Definition newest (r : indexRing) : nat :=
  if ir_cursor r =? 0 then default 0 (indices r !! (length (indices r) - 1))
  else default 0 (indices r !! (ir_cursor r - 1)).

Definition NewHistory (size : nat) (instance : string) : History :=
  mkHistory (replicate size zero_entry) size 0 0 false instance ∅.

Definition entry_at (h : History) (slot : nat) : HistoryEntry :=
  default zero_entry (entries h !! slot).

(** The slots in use, newest first: what Since and List iterate over. *)
Definition slots (h : History) : nat := if full h then size h else cursor h.

Definition newest_first (h : History) : list HistoryEntry :=
  (λ i, entry_at h (back (cursor h) (size h) i)) <$> seq 0 (slots h).

Definition ring_slots (r : indexRing) : list nat := walk 0 (indices r) (ir_cursor r) (ir_full r).

Definition oldest_slot (h : History) : nat := if full h then cursor h else 0.

Definition Oldest (h : History) : option Z :=
  if (cursor h =? 0) && negb (full h) then None
  else Some (Timestamp (entry_at h (oldest_slot h))).

(** * Appending *)

(** History.index: the slot under the cursor joins the resource's ring. *)
Definition index (h : History) (id : string) : History :=
  let ring := default (mkIndexRing (replicate indexRingSize 0) 0 false) (byResource h !! id) in
  mkHistory (entries h) (size h) (cursor h) (count h) (full h) (instance h)
    (<[id := ir_push ring (cursor h)]> (byResource h)).

Definition index_entry (h : History) (e : HistoryEntry) : History :=
  let h := index h (ResourceID e) in
  if is_empty (ServiceID e) then h else index h (ServiceID e).

Definition step_cursor (h : History) : History :=
  if size h <=? S (cursor h) then
    mkHistory (entries h) (size h) 0 (count h) true (instance h) (byResource h)
  else
    mkHistory (entries h) (size h) (S (cursor h)) (count h) (full h) (instance h) (byResource h).

Definition put (h : History) (e : HistoryEntry) : History :=
  mkHistory (<[cursor h := e]> (entries h)) (size h) (cursor h) (count h) (full h) (instance h)
    (byResource h).

(** A resource whose newest entry sits in the slot being reused has none left. *)
Definition prune (h : History) (id : string) : History :=
  match byResource h !! id with
  | Some ring =>
      if newest ring =? cursor h then
        mkHistory (entries h) (size h) (cursor h) (count h) (full h) (instance h)
          (delete id (byResource h))
      else h
  | None => h
  end.

Definition evict (h : History) : History :=
  if full h then
    let evicted := entry_at h (cursor h) in
    prune (prune h (ResourceID evicted)) (ServiceID evicted)
  else h.

Definition stamp (now : Z) (id : Z) (e : HistoryEntry) : HistoryEntry :=
  mkHistoryEntry id (if is_empty (Kind e) then KindChange else Kind e)
    (if is_zero_time (Timestamp e) then now else Timestamp e) (Until e) (Type_ e) (Action e)
    (ResourceID e) (Name e) (Entry_Actor e) (Stack e) (ServiceID e) (Slot e) (NodeID e)
    (ServiceName e) (RecoveredFrom e) (Recovered e) (Entry_Service e) (Entry_Annotation e)
    (Entry_Previous e).

Definition set_count (h : History) (c : Z) : History :=
  mkHistory (entries h) (size h) (cursor h) c (full h) (instance h) (byResource h).

Definition Append (now : Z) (e : HistoryEntry) (h : History) : Z * History :=
  let h := set_count h (wrap 64 (count h + 1)) in
  let e := stamp now (count h) e in
  let h := put (evict h) e in
  let h := if decide (Kind e = KindAnnotation) then h else index_entry h e in
  (count h, step_cursor h).

(** * Restoring *)

Definition restore_one (h : History) (e : HistoryEntry) : History :=
  set_count (step_cursor (index_entry (put h e) e)) (ID e).

Definition Restore (es : list HistoryEntry) (last : Z) (inst : string) (h : History) : History :=
  let h := mkHistory (entries h) (size h) (cursor h) (count h) (full h) inst (byResource h) in
  let h := foldl restore_one h (drop (length es - size h) es) in
  set_count h (wrap 64 (Z.max (count h) last + Z.of_nat (size h))).

(** * Reading *)

(** The leading entries a loop takes before it breaks. *)
Fixpoint take_while {A} (f : A → bool) (l : list A) : list A :=
  match l with
  | [] => []
  | x :: l => if f x then x :: take_while f l else []
  end.

Definition Since (afterID : Z) (h : History) : list HistoryEntry * bool :=
  if (count h <? afterID)%Z then ([], false) else
  if (afterID =? count h)%Z then ([], true) else
  (reverse (take_while (λ e, (afterID <? ID e)%Z) (newest_first h)),
   (ID (entry_at h (oldest_slot h)) <=? wrap 64 (afterID + 1))%Z).

Definition about (e : HistoryEntry) (id : string) : bool :=
  bool_decide (ResourceID e = id) || bool_decide (ServiceID e = id).

Definition end_ (e : HistoryEntry) : Z :=
  if is_zero_time (Until e) then Timestamp e else Until e.

Definition removedFromStack (stack : string) (h : History) : list string :=
  ResourceID <$> filter (λ e, Type_ e = EventService ∧ Action e = "remove" ∧ Stack e = stack)
    (entries h).

(** ** Text *)

(** A byte as ContainsLower compares it. *)
Definition lower_byte (c : ascii) : ascii :=
  let n := nat_of_ascii c in
  if (65 <=? n) && (n <=? 90) then ascii_of_nat (n + 32) else c.

Fixpoint lower_prefix (s sub : string) {struct sub} : bool :=
  match sub, s with
  | "", _ => true
  | String d sub', String c s' => Ascii.eqb (lower_byte c) d && lower_prefix s' sub'
  | String _ _, "" => false
  end.

Fixpoint ContainsLower (s sub : string) : bool :=
  lower_prefix s sub || match s with "" => false | String _ s' => ContainsLower s' sub end.

Definition hasPrefixLower (s prefix : string) : bool :=
  (String.length prefix <=? String.length s) &&
  ContainsLower (str_take (String.length prefix) s) prefix.

Definition stackDisplay (name : string) : string :=
  match IndexByte name "_" with
  | Some (S i) => str_take (S i) name +:+ "/" +:+ str_drop (S (S i)) name
  | _ => name
  end.

Definition nameHas (name word : string) : bool :=
  ContainsLower name word || (Contains word "/" && ContainsLower (stackDisplay name) word).

Definition actorHas (a : option Actor) (word : string) : bool :=
  match a with
  | None => false
  | Some a => ContainsLower (Actor_Name a) word || ContainsLower (Actor_Subject a) word
  end.

(** ** Filters *)

Definition wantsKind (q : HistoryQuery) (kind : string) : bool :=
  match q_Kinds q with [] => true | kinds => bool_decide (kind ∈ kinds) end.

Definition matchesTags (q : HistoryQuery) (tags : list string) : bool :=
  match q_Tags q with
  | [] => true
  | wanted =>
      if MatchAny q then existsb (λ t, bool_decide (t ∈ tags)) wanted
      else negb (existsb (λ t, negb (bool_decide (t ∈ tags))) wanted)
  end.

Definition matchesAuthor (q : HistoryQuery) (a : option Actor) : bool :=
  match Authors q with
  | [] => true
  | authors => match a with Some a => bool_decide (Actor_Subject a ∈ authors) | None => false end
  end.

Definition matchesResource (q : HistoryQuery) (e : HistoryEntry) : bool :=
  let member := bool_decide (Type_ e = EventService) && bool_decide (ResourceID e ∈ Members q) in
  if negb (is_empty (q_ResourceID q)) && negb (about e (q_ResourceID q)) && negb member then false
  else if negb (is_empty (q_Type q)) && bool_decide (Type_ e ≠ q_Type q) && negb member then false
  else match Types q with [] => true | types => bool_decide (Type_ e ∈ types) || member end.

Section Query.
Context `{Unicode}.

Definition prepared (q : HistoryQuery) : HistoryQuery :=
  mkHistoryQuery (q_Type q) (q_ResourceID q) (BeforeID q) (ToLower (TitleContains q)) (Search q)
  (Limit q) (TaskName q) (Fields (ToLower (Search q))) true (Types q) (q_Kinds q) (Before q)
  (After q) (Visible q) (q_Tags q) (MatchAny q) (Authors q) (Members q) (ReadableAnnotation q).

Definition matchesText (q : HistoryQuery) (e : HistoryEntry) : bool :=
  if is_empty (TitleContains q) && is_empty (Search q) then true else
  let q := if ready q then q else prepared q in
  let name :=
  match TaskName q with
  | Some f => if decide (Type_ e = EventTask) then f e else Name e
  | None => Name e
  end in
  ContainsLower name (TitleContains q) &&
  negb (existsb (λ word,
  negb (nameHas name word) && negb (hasPrefixLower (ResourceID e) word) &&
  negb (ContainsLower (Type_ e) word) && negb (ContainsLower (Action e) word) &&
  negb (actorHas (Entry_Actor e) word)) (words q)).

(** The filters that skip an entry. *)
Definition matches (q : HistoryQuery) (e : HistoryEntry) : bool :=
  if bool_decide (Kind e = KindAnnotation) || negb (wantsKind q (Kind e)) then false
  else if negb (is_zero_time (Before q)) && time_after (Timestamp e) (Before q) then false
  else if bool_decide (Kind e = KindChange) &&
  ((0 <? length (q_Tags q)) || negb (matchesAuthor q (Entry_Actor e))) then false
  else if bool_decide (Kind e ≠ KindGap) && negb (matchesResource q e) then false
  else match Visible q with None => true | Some f => f e end &&
  (bool_decide (Kind e = KindGap) || matchesText q e).

(** The filters both walks apply before it: an entry the cursor excludes, and
    one that ends the walk. *)
Definition too_new (q : HistoryQuery) (e : HistoryEntry) : bool :=
  negb (BeforeID q =? 0)%Z && (BeforeID q <=? ID e)%Z.

Definition too_old (q : HistoryQuery) (e : HistoryEntry) : bool :=
  negb (is_zero_time (After q)) && negb (time_after (end_ e) (After q)).

(** The scan, newest first; [limit] counts what may still be added. *)
Fixpoint scan (q : HistoryQuery) (limit : nat) (es : list HistoryEntry) : list HistoryEntry :=
  match es with
  | [] => []
  | e :: es =>
      if too_new q e then scan q limit es
      else if too_old q e then []
      else if negb (matches q e) then scan q limit es
      else match limit with
      | O | S O => [e]
      | S limit => e :: scan q limit es
      end
  end.

(** ** The index *)

(** An index cursor: the heads it yields from here on, newest first, and
    whether its index never wrapped. Its [ok] is that there is one. *)
Record indexCursor := mkIndexCursor { heads : list HistoryEntry; whole : bool }.

(** What advance finds, called again and again: the entries the slots hold that
    belong, below the last one found. *)
Fixpoint advance (h : History) (belongs : HistoryEntry → bool) (last : Z) (idxs : list nat)
  : list HistoryEntry :=
  match idxs with
  | [] => []
  | idx :: idxs =>
      let e := entry_at h idx in
      if belongs e && (ID e <? last)%Z then e :: advance h belongs (ID e) idxs
      else advance h belongs last idxs
  end.

Definition max_uint64 : Z := (2 ^ 64 - 1)%Z.

Definition index_cursor (h : History) (id : string) (belongs : HistoryEntry → bool)
  : indexCursor :=
  match byResource h !! id with
  | None => mkIndexCursor [] true
  | Some ring =>
      mkIndexCursor (advance h belongs max_uint64 (ring_slots ring)) (negb (ir_full ring))
  end.

(** One entry of the merge: skipped, ending the answer, or in it; [continue]
    goes on with what may still be added. *)
Definition visit (q : HistoryQuery) (limit : nat) (e : HistoryEntry)
  (continue : nat → list HistoryEntry * bool) : list HistoryEntry * bool :=
  if too_new q e then continue limit
  else if too_old q e then ([], true)
  else if matches q e then
  let '(rest, complete) := continue (limit - 1) in (e :: rest, complete)
  else continue limit.

(** The merge of two cursors. The flag is false where running out of a wrapped
    index means the answer may be incomplete; the result so far is returned
    either way. *)
Fixpoint merge_loop (q : HistoryQuery) (own : list HistoryEntry) (own_whole : bool)
  : nat → list HistoryEntry → bool → list HistoryEntry * bool :=
  fix inner (limit : nat) (gaps : list HistoryEntry) (gaps_whole : bool) {struct gaps}
  : list HistoryEntry * bool :=
  if limit =? 0 then ([], true) else
  match own, gaps with
  | [], [] => ([], own_whole && gaps_whole)
  | o :: own', [] =>
      if negb gaps_whole then ([], false)
      else visit q limit o (λ n, merge_loop q own' own_whole n [] gaps_whole)
  | [], g :: gaps' =>
      if negb own_whole then ([], false) else visit q limit g (λ n, inner n gaps' gaps_whole)
  | o :: own', g :: gaps' =>
      if (ID g <? ID o)%Z then
      visit q limit o (λ n, merge_loop q own' own_whole n gaps gaps_whole)
      else visit q limit g (λ n, inner n gaps' gaps_whole)
  end.

Definition listByResource (q : HistoryQuery) (limit : nat) (h : History)
  : list HistoryEntry * bool :=
  let own := index_cursor h (q_ResourceID q) (λ e, about e (q_ResourceID q)) in
  let gaps :=
  if wantsKind q KindGap then index_cursor h "" (λ e, bool_decide (Kind e = KindGap))
  else mkIndexCursor [] true in
  merge_loop q (heads own) (whole own) limit (heads gaps) (whole gaps).

Definition list_limit (q : HistoryQuery) : nat :=
  if (Limit q <=? 0)%Z then 50 else Z.to_nat (Limit q).

Definition List_ (q : HistoryQuery) (h : History) : list HistoryEntry :=
  let q := prepared q in
  let limit := list_limit q in
  let slow := scan q limit (newest_first h) in
  if negb (is_empty (q_ResourceID q)) && bool_decide (Members q = []) then
  let '(found, complete) := listByResource q limit h in
  if complete then found else slow
  else slow.
  End Query.

(** * What a history stands for *)

(** An entry is under an ID's index when it is about it; an annotation item,
    whose resource is the annotation, is under none. *)
Definition indexed (id : string) (e : HistoryEntry) : bool :=
  bool_decide (Kind e ≠ KindAnnotation) &&
  (bool_decide (ResourceID e = id) || (negb (is_empty (ServiceID e)) && bool_decide (ServiceID e = id))).

(** An ID's index, of the entries below position [bound] of everything stored:
    the slots of positions [ps], oldest first, the newest of them among the last
    [n] of [m], and every one under the ID that is still there among them. No
    index: none is. *)
Definition index_ok (bound m : nat) (all : list HistoryEntry) (n : nat) (id : string)
    (r : option indexRing) : Prop :=
  match r with
  | None => ∀ p e, p < bound → all !! p = Some e → m ≤ p + n → indexed id e = false
  | Some r => ∃ ps,
      ring_repr indexRingSize ((λ p, p mod n) <$> ps) (indices r) (ir_cursor r) (ir_full r) ∧
      StronglySorted le ps ∧
      (∀ p, p ∈ ps → p < length all) ∧
      (∀ p e, p < bound → all !! p = Some e → m ≤ p + n → indexed id e = true → p ∈ ps) ∧
      ∃ p e, last ps = Some p ∧ m ≤ p + n ∧ all !! p = Some e ∧ indexed id e = true
  end.

(** The history holds the last [size] of everything stored in it, [all], whose
    IDs rise and are none of them beyond the count. *)
Record history_ok (all : list HistoryEntry) (h : History) : Prop := {
  ho_ring : ring_repr (size h) all (entries h) (cursor h) (full h);
  ho_ids p q e f : p < q → all !! p = Some e → all !! q = Some f → (ID e < ID f)%Z;
  ho_count e : e ∈ all → (0 < ID e ≤ count h)%Z;
  ho_bound : (0 ≤ count h < max_uint64)%Z;
  ho_index id : index_ok (length all) (length all) all (size h) id (byResource h !! id);
}.

(** * Facts *)

Lemma newest_first_walk h :
  length (entries h) = size h →
  newest_first h = walk zero_entry (entries h) (cursor h) (full h).
Proof. intros Hl. unfold newest_first, slots, walk, entry_at. by rewrite Hl. Qed.

(** ** Storing an entry keeps the history sound *)

Lemma ir_push_spec r idx :
  ir_push r idx = mkIndexRing (<[ir_cursor r := idx]> (indices r))
    (next_cursor (length (indices r)) (ir_cursor r))
    (next_full (length (indices r)) (ir_cursor r) (ir_full r)).
Proof. unfold ir_push, next_cursor, next_full. by case_match. Qed.

Lemma newest_spec ps n r :
  ring_repr indexRingSize ((λ p, p mod n) <$> ps) (indices r) (ir_cursor r) (ir_full r) →
  ∀ p, last ps = Some p → newest r = p mod n.
Proof.
  intros Hr p Hp. apply last_Some in Hp as [ps' ->].
  pose proof (rr_length _ _ _ _ _ Hr) as Hl. pose proof (rr_cursor _ _ _ _ _ Hr) as Hc.
  rewrite fmap_app, length_app, length_fmap in Hc.
  change (length ((λ p : nat, p mod n) <$> [p])) with 1 in Hc. rewrite Nat.add_1_r in Hc.
  assert (indices r !! (length ps' mod indexRingSize) = Some (p mod n)) as Hslot.
  { apply (rr_slot _ _ _ _ _ Hr).
    - rewrite fmap_app, lookup_app_r; rewrite length_fmap; [|done]. by rewrite Nat.sub_diag.
    - rewrite fmap_app, length_app, length_fmap. simpl. unfold indexRingSize. lia. }
  rewrite succ_mod in Hc by (unfold indexRingSize; lia). unfold next_cursor in Hc.
  unfold newest. rewrite Hl.
  assert (length ps' mod indexRingSize < indexRingSize)
    by (apply Nat.mod_upper_bound; unfold indexRingSize; lia).
  destruct (Nat.leb_spec indexRingSize (S (length ps' mod indexRingSize))); rewrite Hc.
  - simpl (0 =? 0). cbv iota. replace (indexRingSize - 1) with (length ps' mod indexRingSize) by lia.
    by rewrite Hslot.
  - simpl (_ =? 0). cbv iota. rewrite Nat.sub_succ, Nat.sub_0_r. by rewrite Hslot.
Qed.

Lemma last_max ps p q : StronglySorted le ps → last ps = Some p → q ∈ ps → q ≤ p.
Proof.
  intros Hs Hp Hq. apply last_Some in Hp as [ps' ->].
  apply elem_of_app in Hq as [Hq|Hq%list_elem_of_singleton]; [|lia].
  apply StronglySorted_app in Hs as (Hall & _ & _). apply Hall; [done|set_solver].
Qed.

Lemma sorted_snoc ps p : StronglySorted le ps → (∀ q, q ∈ ps → q ≤ p) → StronglySorted le (ps ++ [p]).
Proof.
  intros Hs Hle. apply StronglySorted_app. split_and!; [|done|repeat constructor].
  intros q r Hq [=->]%list_elem_of_singleton. by apply Hle.
Qed.

(** Storing an entry under an ID. *)
Lemma index_push bound m all n id r e N :
  0 < n → length all = S N → all !! N = Some e → indexed id e = true → m ≤ N + n → N ≤ bound →
  index_ok bound m all n id r →
  index_ok (S N) m all n id
    (Some (ir_push (default (mkIndexRing (replicate indexRingSize 0) 0 false) r) (N mod n))).
Proof.
  intros Hn Hlen HN He Hm Hb Hr. rewrite ir_push_spec.
  assert (∃ ps, let r' := default (mkIndexRing (replicate indexRingSize 0) 0 false) r in
    ring_repr indexRingSize ((λ p, p mod n) <$> ps) (indices r') (ir_cursor r') (ir_full r') ∧
    StronglySorted le ps ∧ (∀ p, p ∈ ps → p < length all) ∧
    (∀ p e, p < N → all !! p = Some e → m ≤ p + n → indexed id e = true → p ∈ ps)) as (ps & Hps).
  { destruct r as [r|]; simpl in *.
    - destruct Hr as (ps & ? & ? & ? & Hc & _). exists ps. split_and!; [done..|].
      intros p e' ?. apply Hc. lia.
    - exists []. split_and!; [exact (ring_empty indexRingSize 0 ltac:(unfold indexRingSize; lia))|constructor|set_solver|].
      intros p e' Hp Hl Hm' Hi. rewrite (Hr p e') in Hi; [done|lia|done..]. }
  destruct Hps as (Hring & Hs & Hlt & Hc). exists (ps ++ [N])%list. split_and!.
  - rewrite fmap_app. rewrite (rr_length _ _ _ _ _ Hring). by apply ring_push.
  - apply sorted_snoc; [done|]. intros q Hq. apply Hlt in Hq. lia.
  - intros p [Hp|Hp%list_elem_of_singleton]%elem_of_app; [by apply Hlt|lia].
  - intros p e' Hp Hl Hm' Hi. apply elem_of_app. destruct (decide (p = N)) as [->|];
      [right; set_solver|left; apply (Hc p e'); [lia|done..]].
  - exists N, e. by rewrite last_snoc.
Qed.

(** An entry not under the ID changes nothing. *)
Lemma index_skip N m all n id r e :
  all !! N = Some e → indexed id e = false →
  index_ok N m all n id r → index_ok (S N) m all n id r.
Proof.
  intros HN He Hr.
  assert (∀ p e', p < S N → all !! p = Some e' → indexed id e' = true → p < N) as Hlt.
  { intros p e' Hp Hl Hi. destruct (decide (p = N)) as [->|]; [congruence|lia]. }
  destruct r as [r|]; simpl in *.
  - destruct Hr as (ps & ? & ? & ? & Hc & ?). exists ps. split_and!; [done..| |done].
    intros p e' Hp Hl Hm Hi. apply (Hc p e'); eauto.
  - intros p e' Hp Hl Hm. destruct (indexed id e') eqn:Hi; [|done].
    rewrite (Hr p e') in Hi; [done|by eapply Hlt|done..].
Qed.

Lemma index_extend m all e n id r :
  index_ok (length all) m all n id r → index_ok (length all) m (all ++ [e]) n id r.
Proof.
  assert (∀ p e', p < length all → (all ++ [e])%list !! p = Some e' → all !! p = Some e') as Hl.
  { intros p e' Hp. by rewrite lookup_app_l. }
  destruct r as [r|]; simpl.
  - intros (ps & ? & ? & Hlt & Hc & p & e' & ? & ? & ? & ?). exists ps. split_and!; [done..| | |].
    + intros q Hq. rewrite length_app. apply Hlt in Hq. lia.
    + intros q f Hq Hf. apply Hc; auto.
    + exists p, e'. split_and!; [done..| |done]. by apply lookup_app_l_Some.
  - intros Hn p e' Hp Hf. apply Hn; auto.
Qed.

(** ** Eviction *)

Lemma prune_lookup h i id :
  byResource (prune h i) !! id =
  match byResource h !! id with
  | Some ring => if (newest ring =? cursor h) && bool_decide (i = id) then None else Some ring
  | None => None
  end.
Proof.
  unfold prune. destruct (decide (i = id)) as [->|Hne].
  - rewrite bool_decide_eq_true_2, ?andb_true_r by done.
    destruct (byResource h !! id) as [ring|] eqn:E; rewrite ?andb_true_r; [|done].
    destruct (newest ring =? cursor h); simpl; [apply lookup_delete_eq|done].
  - transitivity (byResource h !! id).
    + destruct (byResource h !! i) as [ring|]; [destruct (newest ring =? cursor h)|]; simpl;
        by rewrite ?lookup_delete_ne.
    + destruct (byResource h !! id); [|done]. by rewrite bool_decide_eq_false_2, andb_false_r.
Qed.

Lemma prune_same h i : entries (prune h i) = entries h ∧ size (prune h i) = size h ∧
  cursor (prune h i) = cursor h ∧ count (prune h i) = count h ∧ full (prune h i) = full h.
Proof. unfold prune. by repeat case_match. Qed.

Lemma evict_same h : entries (evict h) = entries h ∧ size (evict h) = size h ∧
  cursor (evict h) = cursor h ∧ count (evict h) = count h ∧ full (evict h) = full h.
Proof.
  unfold evict. destruct (full h) eqn:Ef; [|done]. cbv zeta.
  destruct (prune_same h (ResourceID (entry_at h (cursor h)))) as (? & ? & ? & ? & ?).
  destruct (prune_same (prune h (ResourceID (entry_at h (cursor h))))
    (ServiceID (entry_at h (cursor h)))) as (? & ? & ? & ? & ?).
  split_and!; congruence.
Qed.

Lemma evict_lookup h id :
  byResource (evict h) !! id =
  match byResource h !! id with
  | Some ring =>
      if full h && (newest ring =? cursor h) && about (entry_at h (cursor h)) id then None
      else Some ring
  | None => None
  end.
Proof.
  unfold evict, about. destruct (full h); simpl; [|by case_match].
  set (ev := entry_at h (cursor h)). rewrite !prune_lookup.
  destruct (prune_same h (ResourceID ev)) as (_ & _ & -> & _ & _).
  destruct (byResource h !! id) as [ring|]; [|done].
  destruct (newest ring =? cursor h) eqn:En; simpl; [|by rewrite En].
  destruct (bool_decide (ResourceID ev = id)); simpl; [done|]. by rewrite En.
Qed.

Lemma indexed_about id e : indexed id e = true → about e id = true.
Proof.
  unfold indexed, about. intros [_ H]%andb_true_iff. apply orb_true_iff.
  apply orb_true_iff in H as [H|[_ H]%andb_true_iff]; auto.
Qed.

(** After eviction the indexes speak of the entries that stay. *)
Lemma evict_index all h id :
  history_ok all h →
  index_ok (length all) (S (length all)) all (size h) id (byResource (evict h) !! id).
Proof.
  intros Hok. pose proof (ho_ring _ _ Hok) as Hr. pose proof (rr_pos _ _ _ _ _ Hr) as Hn.
  pose proof (ho_index _ _ Hok id) as Hi. rewrite evict_lookup.
  destruct (byResource h !! id) as [r|]; simpl in Hi.
  2:{ simpl. intros p e ? Hp Hm. apply (Hi p e); [done..|lia]. }
  destruct Hi as (ps & Hring & Hs & Hlt & Hc & p & e & Hp & Hm & Hl & He).
  pose proof (newest_spec ps (size h) r Hring p Hp) as Hnew.
  pose proof (rr_cursor _ _ _ _ _ Hr) as Hcur.
  assert (p < length all) as Hpl by (by eapply lookup_lt_Some).
  destruct (decide (length all = p + size h)) as [Hold|Hyoung].
  - (* the newest entry is the one overwritten *)
    assert (full h = true) as Hf.
    { rewrite (rr_full _ _ _ _ _ Hr). apply Nat.leb_le. lia. }
    assert (newest r = cursor h) as Heq.
    { rewrite Hnew, Hcur, Hold. rewrite <- (Nat.Div0.mod_add p 1 (size h)). f_equal. lia. }
    assert (entry_at h (cursor h) = e) as Hev.
    { unfold entry_at. rewrite <- Heq, Hnew. by rewrite (rr_slot _ _ _ _ _ Hr p e Hl Hm). }
    rewrite Hf, Heq, Nat.eqb_refl, Hev, (indexed_about id e He). simpl.
    intros q f Hq Hlq Hmq. destruct (indexed id f) eqn:Hf'; [|done].
    assert (q ∈ ps) as Hin by (apply (Hc q f); [done..|lia|done]).
    pose proof (last_max ps p q Hs Hp Hin). lia.
  - assert (newest r ≠ cursor h) as Hne.
    { rewrite Hnew, Hcur. intros Heq. apply Hyoung.
      rewrite <- (Nat.Div0.mod_add p 1 (size h)) in Heq.
      apply mod_inj in Heq; lia. }
    apply Nat.eqb_neq in Hne. rewrite Hne, andb_false_r. simpl.
    exists ps. split_and!; [done..| |].
    + intros q f Hq Hlq Hmq. apply (Hc q f); [done..|lia].
    + exists p, e. split_and!; [done|lia|done..].
Qed.

(** ** Storing *)

Lemma index_entry_same h e : entries (index_entry h e) = entries h ∧ size (index_entry h e) = size h ∧
  cursor (index_entry h e) = cursor h ∧ count (index_entry h e) = count h ∧
  full (index_entry h e) = full h.
Proof. unfold index_entry. by case_match. Qed.

Lemma index_lookup h i id :
  byResource (index h i) !! id =
  if decide (id = i) then
    Some (ir_push (default (mkIndexRing (replicate indexRingSize 0) 0 false) (byResource h !! i))
      (cursor h))
  else byResource h !! id.
Proof.
  unfold index. simpl. case_decide; subst; [apply lookup_insert_eq|by rewrite lookup_insert_ne].
Qed.

(** Indexing the entry just stored at the cursor makes every index complete. *)
Lemma index_entry_ok all e h id :
  let N := length all in
  0 < size h → cursor h = N mod size h → Kind e ≠ KindAnnotation →
  (∀ id, index_ok N (S N) all (size h) id (byResource h !! id)) →
  index_ok (S N) (S N) (all ++ [e]) (size h) id (byResource (index_entry h e) !! id).
Proof.
  intros N Hn Hcur Hk Hall.
  assert (Hext := index_extend (S N) all e (size h) id (byResource h !! id) (Hall id)). fold N in Hext.
  assert (length (all ++ [e])%list = S N) as Hlen by (rewrite length_app; simpl; lia).
  assert ((all ++ [e])%list !! N = Some e) as HN by (by rewrite lookup_app_r, Nat.sub_diag).
  assert (∀ b r, indexed id e = true → N ≤ b → index_ok b (S N) (all ++ [e]) (size h) id r →
    index_ok (S N) (S N) (all ++ [e]) (size h) id
      (Some (ir_push (default (mkIndexRing (replicate indexRingSize 0) 0 false) r) (N mod size h)))) as Hpush.
  { intros b r Hi Hb. apply index_push with (e := e); [done..|lia|done]. }
  assert (indexed id e = (bool_decide (ResourceID e = id) ||
    (negb (is_empty (ServiceID e)) && bool_decide (ServiceID e = id)))) as Hidx.
  { unfold indexed. by rewrite (bool_decide_eq_true_2 (Kind e ≠ KindAnnotation)). }
  clear Hk Hall. unfold index_entry. rewrite <- Hcur in Hpush.
  assert (ResourceID e ≠ id → ServiceID e ≠ id →
    index_ok (S N) (S N) (all ++ [e]) (size h) id (byResource h !! id)) as Hskip.
  { intros H1 H2. eapply index_skip; [exact HN| |exact Hext].
    rewrite Hidx, !bool_decide_eq_false_2 by done. by rewrite andb_false_r. }
  assert (ResourceID e = id ∨ is_empty (ServiceID e) = false ∧ ServiceID e = id →
    indexed id e = true) as Hin.
  { intros Hd. rewrite Hidx, orb_true_iff, andb_true_iff, negb_true_iff, !bool_decide_eq_true.
    tauto. }
  assert (ResourceID e ≠ id → is_empty (ServiceID e) = true →
    index_ok (S N) (S N) (all ++ [e]) (size h) id (byResource h !! id)) as Hskip'.
  { intros H1 H2. eapply index_skip; [exact HN| |exact Hext].
    rewrite Hidx, H2, bool_decide_eq_false_2 by done. done. }
  clear Hidx. destruct (is_empty (ServiceID e)) eqn:Hs; rewrite !index_lookup;
    change (cursor (index h (ResourceID e))) with (cursor h).
  - destruct (decide (id = ResourceID e)) as [Hd|Hd]; [|by apply Hskip'].
    rewrite Hd in *. by apply (Hpush N); [apply Hin; left| |].
  - destruct (decide (id = ServiceID e)) as [Hd2|Hd2];
      destruct (decide (id = ResourceID e)) as [Hd|Hd].
    + rewrite decide_True by congruence. rewrite <- Hd.
      apply (Hpush (S N)); [apply Hin; left; congruence|lia|].
      apply (Hpush N); [apply Hin; left; congruence|done|done].
    + rewrite decide_False by congruence. rewrite <- Hd2.
      apply (Hpush N); [apply Hin; right; split; congruence|done|done].
    + rewrite <- Hd. apply (Hpush N); [apply Hin; left; congruence|done|done].
    + apply Hskip; congruence.
Qed.

Lemma step_cursor_spec h : step_cursor h =
  mkHistory (entries h) (size h) (next_cursor (size h) (cursor h)) (count h)
    (next_full (size h) (cursor h) (full h)) (instance h) (byResource h).
Proof. unfold step_cursor, next_cursor, next_full. by case_match. Qed.

(** Storing an entry, whether new or restored: put, index, step. *)
Definition store (h : History) (e : HistoryEntry) : History :=
  let h := put h e in
  step_cursor (if decide (Kind e = KindAnnotation) then h else index_entry h e).

Lemma store_same h e : size (store h e) = size h ∧ count (store h e) = count h.
Proof.
  unfold store. rewrite step_cursor_spec. simpl. case_decide; [done|].
  destruct (index_entry_same (put h e) e) as (_ & -> & _ & -> & _). done.
Qed.

Lemma store_ring all h e :
  ring_repr (size h) all (entries h) (cursor h) (full h) →
  ring_repr (size (store h e)) (all ++ [e]) (entries (store h e)) (cursor (store h e))
    (full (store h e)).
Proof.
  intros Hr. unfold store. rewrite step_cursor_spec. simpl.
  destruct (index_entry_same (put h e) e) as (E1 & E2 & E3 & _ & E5).
  case_decide; rewrite ?E1, ?E2, ?E3, ?E5; by apply ring_push.
Qed.

Lemma store_index all h e id :
  ring_repr (size h) all (entries h) (cursor h) (full h) →
  (∀ id, index_ok (length all) (S (length all)) all (size h) id (byResource h !! id)) →
  index_ok (length (all ++ [e])) (length (all ++ [e])) (all ++ [e]) (size (store h e)) id
    (byResource (store h e) !! id).
Proof.
  intros Hr Hi. destruct (store_same h e) as [-> _]. unfold store. rewrite step_cursor_spec. simpl.
  rewrite length_app, Nat.add_comm. simpl. case_decide as Hk.
  - eapply index_skip; [by rewrite lookup_app_r, Nat.sub_diag| |by apply index_extend].
    unfold indexed. by rewrite bool_decide_eq_false_2 by naive_solver.
  - pose proof (index_entry_ok all e (put h e) id) as H. apply H; [apply (rr_pos _ _ _ _ _ Hr)|apply (rr_cursor _ _ _ _ _ Hr)|done|done].
Qed.

(** The store keeps a history sound when the entry's ID is beyond the count. *)
Lemma store_ids all h e c :
  history_ok all h → (count h < ID e ≤ c)%Z →
  (∀ p q f g, p < q → (all ++ [e])%list !! p = Some f → (all ++ [e])%list !! q = Some g → (ID f < ID g)%Z) ∧
  (∀ f, f ∈ (all ++ [e])%list → (0 < ID f ≤ c)%Z).
Proof.
  intros Hok Hid. split.
  - intros p q f g Hpq Hf Hg. apply lookup_snoc_Some in Hf as [[Hp Hf]|[Hp ->]],
      Hg as [[Hq Hg]|[Hq ->]].
    + by apply (ho_ids _ _ Hok p q).
    + apply list_elem_of_lookup_2, (ho_count _ _ Hok) in Hf. lia.
    + lia.
    + lia.
  - intros f [Hf| ->%list_elem_of_singleton]%elem_of_app.
    + apply (ho_count _ _ Hok) in Hf. lia.
    + pose proof (ho_bound _ _ Hok). lia.
Qed.

Lemma Append_unfold now e h :
  let h1 := set_count h (wrap 64 (count h + 1)) in
  Append now e h = (count h1, store (evict h1) (stamp now (count h1) e)).
Proof.
  unfold Append, store. cbv zeta. f_equal. 
  destruct (evict_same (set_count h (wrap 64 (count h + 1)))) as (_ & _ & _ & Hc & _).
  simpl in *. case_decide; [done|].
  destruct (index_entry_same (put (evict (set_count h (wrap 64 (count h + 1))))
    (stamp now (wrap 64 (count h + 1)) e)) (stamp now (wrap 64 (count h + 1)) e)) as (_ & _ & _ & -> & _).
  done.
Qed.

Lemma Append_ok all now e h :
  history_ok all h → (count h + 1 < max_uint64)%Z →
  history_ok (all ++ [stamp now (count h + 1) e]) (Append now e h).2 ∧
  (Append now e h).1 = (count h + 1)%Z ∧ count (Append now e h).2 = (count h + 1)%Z ∧
  size (Append now e h).2 = size h.
Proof.
  intros Hok Hb. rewrite Append_unfold. cbv zeta.
  assert (wrap 64 (count h + 1) = count h + 1)%Z as ->.
  { unfold wrap. apply Z.mod_small. pose proof (ho_bound _ _ Hok). unfold max_uint64 in *. lia. }
  set (h1 := set_count h (count h + 1)). simpl fst. simpl snd.
  set (e' := stamp now (count h + 1) e).
  destruct (evict_same h1) as (E1 & E2 & E3 & E4 & E5).
  destruct (store_same (evict h1) e') as [S1 S2].
  destruct (store_ids all h e' (count h + 1)) as [Hids Hcnt]; [done|simpl; lia|].
  assert (history_ok all h1) as Hok1.
  { destruct Hok as [? ? Hc ? ?]. constructor; [done..| | |done]; simpl; [|lia].
    intros f Hf. specialize (Hc f Hf). lia. }
  assert (ring_repr (size (evict h1)) all (entries (evict h1)) (cursor (evict h1)) (full (evict h1))) as Hr
    by (rewrite E1, E2, E3, E5; apply (ho_ring _ _ Hok1)).
  split_and!; [|done|rewrite S2, E4; done|rewrite S1, E2; done].
  constructor.
  - by apply store_ring.
  - exact Hids.
  - rewrite S2, E4. exact Hcnt.
  - rewrite S2, E4. simpl. pose proof (ho_bound _ _ Hok). lia.
  - intros id. apply store_index; [done|]. intros i. rewrite E2. by apply evict_index.
Qed.

(** ** Restoring *)

Lemma restore_one_store h e :
  Kind e ≠ KindAnnotation → restore_one h e = set_count (store h e) (ID e).
Proof. intros Hk. unfold restore_one, store. by rewrite decide_False. Qed.

(** Before the ring is full nothing leaves it, so every index still speaks of
    what stays. *)
Lemma index_young all n id r :
  length all < n → index_ok (length all) (length all) all n id r →
  index_ok (length all) (S (length all)) all n id r.
Proof.
  intros Hn. destruct r as [r|]; simpl.
  - intros (ps & ? & ? & ? & Hc & p & e & ? & ? & ? & ?). exists ps. split_and!; [done..| |].
    + intros q f ???. apply Hc; [done..|lia].
    + exists p, e. split_and!; [done|lia|done..].
  - intros H p e ???. apply (H p e); [done..|lia].
Qed.

(** What the database holds: no annotation items, IDs rising from one. *)
Definition restorable (es : list HistoryEntry) : Prop :=
  (∀ e, e ∈ es → Kind e ≠ KindAnnotation ∧ (0 < ID e < max_uint64)%Z) ∧
  (∀ p q e f, p < q → es !! p = Some e → es !! q = Some f → (ID e < ID f)%Z).

Lemma restore_one_ok all h e :
  history_ok all h → length all < size h → Kind e ≠ KindAnnotation → (count h < ID e < max_uint64)%Z →
  history_ok (all ++ [e]) (restore_one h e) ∧ size (restore_one h e) = size h ∧
  count (restore_one h e) = ID e.
Proof.
  intros Hok Hlen Hk Hid. rewrite restore_one_store by done.
  destruct (store_same h e) as [S1 S2].
  destruct (store_ids all h e (ID e)) as [Hids Hcnt]; [done|lia|].
  split_and!; [|done|done]. constructor; simpl.
  - apply (store_ring all h e), (ho_ring _ _ Hok).
  - exact Hids.
  - exact Hcnt.
  - pose proof (ho_bound _ _ Hok). lia.
  - intros id. apply (store_index all h e id (ho_ring _ _ Hok)). intros i.
    apply index_young; [done|]. apply (ho_index _ _ Hok).
Qed.

Lemma restore_all_ok all h es :
  history_ok all h → length all + length es ≤ size h → restorable es →
  (∀ e, e ∈ es → (count h < ID e)%Z) →
  history_ok (all ++ es) (foldl restore_one h es) ∧ size (foldl restore_one h es) = size h.
Proof.
  revert all h. induction es as [|e es IH]; intros all h Hok Hlen [Hes Hasc] Hc; simpl.
  - by rewrite app_nil_r.
  - simpl in Hlen. destruct (Hes e) as [Hk Hb]; [set_solver|].
    destruct (restore_one_ok all h e) as (Hok1 & S1 & C1);
      [done|lia|done|split; [apply Hc; set_solver|lia]|].
    destruct (IH (all ++ [e])%list (restore_one h e)) as [Hok2 S2].
    + done.
    + rewrite length_app, S1. simpl. lia.
    + split; [set_solver|]. intros p q f g Hpq Hf Hg. apply (Hasc (S p) (S q)); [lia|done..].
    + intros f Hf. rewrite C1. apply list_elem_of_lookup_1 in Hf as [q Hq].
      apply (Hasc 0 (S q)); [lia|done..].
    + rewrite <- app_assoc in Hok2. split; [done|congruence].
Qed.

Lemma NewHistory_ok n inst : 0 < n → history_ok [] (NewHistory n inst).
Proof.
  intros Hn. constructor; simpl; [by apply ring_empty|set_solver|set_solver|done|].
  intros id. rewrite lookup_empty. intros p e Hp. lia.
Qed.

Lemma restorable_drop n es : restorable es → restorable (drop n es).
Proof.
  intros [H1 H2]. split.
  - intros e He. apply H1. by eapply subseteq_drop.
  - intros p q e f Hpq. rewrite !lookup_drop. apply H2. lia.
Qed.

Lemma foldl_restore_count h es :
  restorable es → (0 ≤ count h < max_uint64)%Z →
  (0 ≤ count (foldl restore_one h es) < max_uint64)%Z.
Proof.
  intros [Hes _]. revert h Hes. induction es as [|e es IH]; intros h Hes Hc; simpl; [done|].
  apply IH; [set_solver|]. simpl. destruct (Hes e); [set_solver|lia].
Qed.

Lemma Restore_ok n inst0 es last inst :
  0 < n → restorable es → (0 ≤ last)%Z →
  (Z.max (count (foldl restore_one (NewHistory n inst) (drop (length es - n) es))) last +
     Z.of_nat n < max_uint64)%Z →
  let h := Restore es last inst (NewHistory n inst0) in
  history_ok (drop (length es - n) es) h ∧ size h = n ∧
  (last + Z.of_nat n ≤ count h)%Z.
Proof.
  intros Hn Hes Hl Hb. unfold Restore. cbv zeta.
  change (mkHistory _ _ _ _ _ inst _) with (NewHistory n inst).
  change (size (NewHistory n inst)) with n.
  set (kept := drop (length es - n) es) in *.
  destruct (restore_all_ok [] (NewHistory n inst) kept) as [Hok Hs].
  - by apply NewHistory_ok.
  - unfold kept. rewrite length_drop. simpl. lia.
  - by apply restorable_drop.
  - intros e He. simpl. unfold kept in He. destruct Hes as [Hes _].
    destruct (Hes e) as [_ ?]; [by eapply subseteq_drop|lia].
  - set (h := foldl restore_one (NewHistory n inst) kept) in *. rewrite Hs in *. simpl in Hs |- *.
    pose proof (ho_bound _ _ Hok) as Hcb.
    assert (wrap 64 (Z.max (count h) last + Z.of_nat n) = Z.max (count h) last + Z.of_nat n)%Z as ->.
    { unfold wrap. apply Z.mod_small. unfold max_uint64 in *. lia. }
    split_and!; [|done|lia]. destruct Hok as [Hr Hids Hc Hbd Hi]. constructor; simpl; [done|done| |lia|done].
    intros e He. specialize (Hc e He). lia.
Qed.

(** ** The walks *)

Lemma newest_first_spec all h :
  history_ok all h → newest_first h = reverse (drop (length all - size h) all).
Proof.
  intros Hok. pose proof (ho_ring _ _ Hok) as Hr.
  rewrite newest_first_walk by apply (rr_length _ _ _ _ _ Hr). by apply ring_walk.
Qed.

(** Rising IDs: a walk from the newest that stops at an ID has seen exactly the
    entries beyond it. *)
Lemma take_while_rising l a :
  (∀ p q e f, p < q → l !! p = Some e → l !! q = Some f → (ID e < ID f)%Z) →
  reverse (take_while (λ e, (a <? ID e)%Z) (reverse l)) = filter (λ e, (a < ID e)%Z) l.
Proof.
  induction l as [|x l IH] using rev_ind; intros Hasc; [done|].
  rewrite reverse_snoc, filter_app. simpl.
  destruct (Z.ltb_spec a (ID x)).
  - rewrite filter_cons_True by done. rewrite reverse_cons, IH; [done|].
    intros p q e f Hpq He Hf. apply (Hasc p q); [done|by apply lookup_app_l_Some..].
  - rewrite filter_cons_False by lia. rewrite filter_nil, app_nil_r. symmetry.
    apply filter_none. intros e He Hgt. apply list_elem_of_lookup_1 in He as [p Hp].
    assert (ID e < ID x)%Z; [|lia]. apply (Hasc p (length l)).
    + by eapply lookup_lt_Some.
    + by apply lookup_app_l_Some.
    + by rewrite lookup_app_r, Nat.sub_diag.
Qed.

(** The entries at positions [lo] to [b], newest first. *)
Definition below (all : list HistoryEntry) (lo b : nat) : list HistoryEntry :=
  reverse (drop lo (take b all)).

Lemma below_S all lo b e :
  all !! b = Some e → lo ≤ b → below all lo (S b) = e :: below all lo b.
Proof.
  intros He Hlo. unfold below. rewrite (take_S_r _ _ _ He).
  assert (length (take b all) = b) as Hl.
  { rewrite length_take. apply lookup_lt_Some in He. lia. }
  rewrite drop_app_le by lia. by rewrite reverse_snoc.
Qed.

Lemma below_nil all lo b : b ≤ lo → below all lo b = [].
Proof. intros H. unfold below. by rewrite drop_ge by (rewrite length_take; lia). Qed.

Lemma filter_below_none (f : HistoryEntry → bool) all lo b :
  b ≤ length all → (∀ q e, lo ≤ q < b → all !! q = Some e → f e = false) →
  List.filter f (below all lo b) = [].
Proof.
  induction b as [|b IH]; intros Hb Hf; [by rewrite below_nil by lia|].
  destruct (decide (lo ≤ b)); [|by rewrite below_nil by lia].
  destruct (lookup_lt_is_Some_2 all b) as [e He]; [lia|].
  rewrite (below_S _ _ _ e) by done. simpl. rewrite (Hf b e) by (done || lia).
  apply IH; [lia|]. intros q e' Hq. apply Hf. lia.
Qed.

Lemma filter_below_skip (f : HistoryEntry → bool) all lo b p e :
  lo ≤ p < b → b ≤ length all → all !! p = Some e → f e = true →
  (∀ q e, p < q < b → all !! q = Some e → f e = false) →
  List.filter f (below all lo b) = e :: List.filter f (below all lo p).
Proof.
  intros [Hlo Hpb]. induction b as [|b IH]; intros Hb Hp Hfe Hf; [lia|].
  destruct (decide (p = b)) as [->|Hne].
  - rewrite (below_S _ _ _ e) by done. simpl. by rewrite Hfe.
  - destruct (lookup_lt_is_Some_2 all b) as [e' He']; [lia|].
    rewrite (below_S _ _ _ e') by (done || lia). simpl. rewrite (Hf b e') by (done || lia).
    apply IH; [lia|lia|done..|]. intros q f' Hq. apply Hf. lia.
Qed.

(** The slot of any position holds the live entry of that slot. *)
Lemma slot_live all h p :
  history_ok all h → p < length all →
  ∃ p' e, p ≤ p' < length all ∧ length all - size h ≤ p' ∧ all !! p' = Some e ∧
    entry_at h (p mod size h) = e ∧ (length all - size h ≤ p → p' = p).
Proof.
  intros Hok Hp. pose proof (ho_ring _ _ Hok) as Hr. pose proof (rr_pos _ _ _ _ _ Hr) as Hn.
  set (N := length all) in *. set (n := size h) in *. set (d := N - 1 - p).
  assert (d mod n < n) by (apply Nat.mod_upper_bound; lia).
  pose proof (Nat.div_mod_eq d n) as Hd.
  assert (d mod n ≤ d) by (apply Nat.Div0.mod_le).
  set (p' := N - 1 - d mod n).
  destruct (lookup_lt_is_Some_2 all p') as [e He]; [unfold p', N in *; lia|].
  exists p', e. split_and!; [unfold p', d in *; lia..|done| |].
  2:{ intros Hlo. assert (d mod n = d) as E by (apply Nat.mod_small; unfold d, N, n in *; lia).
      unfold p'. rewrite E. unfold d, N in *. lia. }
  unfold entry_at. replace (p mod n) with (p' mod n).
  - by rewrite (rr_slot _ _ _ _ _ Hr p' e He) by (unfold p'; fold N n; lia).
  - replace p' with (p + (d / n) * n) by (unfold p', d in *; nia). apply Nat.Div0.mod_add.
Qed.

(** ** Index cursors *)

Section Cursor.
Context (all : list HistoryEntry) (h : History) (Hok : history_ok all h).
  Context (belongs : HistoryEntry → bool).
  #[local] Abbreviation N := (length all).
  #[local] Abbreviation lo := (length all - size h).

(** Walking the slots of the positions [rest], newest first, with everything at
    [b] or above done: what is found are the next entries that belong, all of
    them when nothing was cut off the index. *)
Lemma advance_prefix rest cut b last :
  StronglySorted ge rest → (∀ p, p ∈ rest → p < N) → b ≤ N →
  (∀ p q, p ∈ rest → q ∈ cut → q ≤ p) →
  (∀ p e, lo ≤ p → all !! p = Some e → belongs e = true → p < b ↔ (ID e < last)%Z) →
  (∀ p e, lo ≤ p < b → all !! p = Some e → belongs e = true → p ∈ rest ∨ p ∈ cut) →
  ∃ k, List.filter belongs (below all lo b) =
  (advance h belongs last ((λ p, p mod size h) <$> rest) ++ k)%list ∧ (cut = [] → k = []).
Proof.
  revert b last. induction rest as [|p rest IH]; intros b last Hs Hlt Hb Hcut Hlast Hin.
  { eexists. split; [reflexivity|]. intros ->. apply filter_below_none; [done|].
    intros q e Hq He. apply not_true_iff_false. intros Hbe. destruct (Hin q e Hq He Hbe); set_solver. }
  apply StronglySorted_inv in Hs as [Hs Hp].
  assert (∀ q, q ∈ p :: rest ∨ q ∈ cut → q ≤ p) as Hmax.
  { intros q [[->|Hq]%elem_of_cons|Hq]; [done| |by apply Hcut; [left|]].
    rewrite Forall_forall in Hp. apply Hp in Hq. lia. }
  destruct (slot_live all h p Hok) as (p' & e & Hp' & Hlive & He & Hslot & Hsame); [apply Hlt; left|].
  rewrite fmap_cons. simpl advance. rewrite Hslot.
  destruct (belongs e && (ID e <? last)%Z) eqn:Htest.
  - apply andb_true_iff in Htest as [Hbe Hid%Z.ltb_lt].
    assert (p' < b) as Hpb by (by apply (Hlast p' e)).
    assert (p' = p) as ->.
    { assert (p' ≤ p); [|lia]. apply Hmax. apply (Hin p' e); [lia|done..]. }
    rewrite (filter_below_skip _ _ _ b p e); [|lia|done..|].
    + destruct (IH p (ID e)) as (k & Hk & Hkc); [done|set_solver|lia|set_solver| | |].
      * intros q f Hq Hf Hbf. split; [intros; by apply (ho_ids _ _ Hok q p)|].
        intros Hidf. destruct (decide (q < p)); [done|].
        destruct (decide (q = p)) as [Hqp|]; [rewrite Hqp, He in Hf; simplify_eq; lia|].
        assert (ID e < ID f)%Z by (apply (ho_ids _ _ Hok p q); [lia|done..]). lia.
      * intros q f Hq Hf Hbf. destruct (Hin q f) as [[Hqp|?]%elem_of_cons|?];
          [lia|done..|lia| |]; auto.
      * exists k. rewrite Hk. done.
    + intros q f Hq Hf. apply not_true_iff_false. intros Hbf.
      assert (q ≤ p); [|lia]. apply Hmax. apply (Hin q f); [lia|done..].
  - apply (IH b last); [done|set_solver|done|set_solver|done|].
    intros q f Hq Hf Hbf. destruct (Hin q f Hq Hf Hbf) as [[Hqp|?]%elem_of_cons|]; auto.
    exfalso. subst q. rewrite (Hsame ltac:(lia)) in He. rewrite Hf in He. injection He as ->.
    rewrite Hbf in Htest. simpl in Htest. apply Z.ltb_ge in Htest.
    assert (ID e < last)%Z by (apply (Hlast p e); [lia|done..|lia]). lia.
Qed.

(** What an index cursor yields is what belongs, newest first, as far as the
    index reaches; all of it when the index never wrapped. *)
Lemma cursor_prefix id :
  (∀ p e, all !! p = Some e → belongs e = true → indexed id e = true) →
  let c := index_cursor h id belongs in
  ∃ k, List.filter belongs (newest_first h) = (heads c ++ k)%list ∧ (whole c = true → k = []).
Proof.
  intros Hb. unfold index_cursor. pose proof (ho_index _ _ Hok id) as Hi.
  rewrite (newest_first_spec all h Hok).
  replace (reverse (drop lo all)) with (below all lo N) by (unfold below; by rewrite firstn_all).
  destruct (byResource h !! id) as [r|]; simpl in Hi |- *.
  - destruct Hi as (ps & Hring & Hs & Hlt & Hc & _). unfold ring_slots.
    rewrite (ring_walk _ _ _ _ _ 0 Hring), length_fmap, <- fmap_drop, <- fmap_reverse.
    set (c := length ps - indexRingSize).
    destruct (advance_prefix (reverse (drop c ps)) (take c ps) N max_uint64) as (k & Hk & Hkc).
    + apply (StronglySorted_rev le). rewrite <- (take_drop c ps) in Hs.
      by apply StronglySorted_app in Hs as (_ & _ & ?).
    + intros p Hp. rewrite elem_of_reverse in Hp. apply Hlt. by eapply subseteq_drop.
    + done.
    + intros p q Hp Hq. rewrite elem_of_reverse in Hp. rewrite <- (take_drop c ps) in Hs.
      apply StronglySorted_app in Hs as (Hall & _ & _). by apply Hall.
    + intros p e Hp He Hbe. split; [|by intros _; eapply lookup_lt_Some].
      intros _. apply list_elem_of_lookup_2, (ho_count _ _ Hok) in He.
      pose proof (ho_bound _ _ Hok). lia.
    + intros p e Hp He Hbe. assert (p ∈ ps) as Hin.
      { apply (Hc p e); [lia|done|lia|by eapply Hb]. }
      rewrite <- (take_drop c ps) in Hin. apply elem_of_app in Hin as [|]; [by right|left].
      by apply elem_of_reverse.
    + exists k. split; [done|]. intros Hw%negb_true_iff. apply Hkc.
      rewrite (rr_full _ _ _ _ _ Hring), length_fmap in Hw. apply Nat.leb_gt in Hw.
      unfold c. by replace (length ps - indexRingSize) with 0 by lia.
  - exists []. split; [|done]. simpl. apply filter_below_none; [done|].
    intros q e Hq He. apply not_true_iff_false. intros Hbe.
    pose proof (Hb q e He Hbe) as Hx. rewrite (Hi q e) in Hx; [done|lia|done|lia].
Qed.
End Cursor.

(** ** Merging *)

Section Merge.
Context `{Unicode} (q : HistoryQuery).

(** Two lists of falling IDs in one. *)
Fixpoint merge_ids (own : list HistoryEntry) : list HistoryEntry → list HistoryEntry :=
  fix inner gaps :=
  match own, gaps with
  | [], _ => gaps
  | _, [] => own
  | o :: own', g :: gaps' =>
      if (ID g <? ID o)%Z then o :: merge_ids own' gaps else g :: inner gaps'
  end.

Lemma merge_ids_nil_l gaps : merge_ids [] gaps = gaps.
Proof. by destruct gaps. Qed.

Lemma merge_ids_nil_r own : merge_ids own [] = own.
Proof. by destruct own. Qed.

(** The scan with nothing left to add. *)
Definition scan0 (limit : nat) (es : list HistoryEntry) : list HistoryEntry :=
  if limit =? 0 then [] else scan q limit es.

Lemma scan_cons limit e es :
  limit ≠ 0 →
  scan q limit (e :: es) =
  if too_new q e then scan q limit es
  else if too_old q e then []
  else if matches q e then e :: scan0 (limit - 1) es else scan q limit es.
Proof.
  intros Hl. simpl. repeat case_match; try done; simpl in *; simplify_eq.
Qed.

(** One turn of the merge is one turn of the scan, whatever continues it. *)
Lemma visit_scan limit e es continue res :
  limit ≠ 0 → (∀ n r, continue n = (r, true) → r = scan0 n es) →
  visit q limit e continue = (res, true) → res = scan0 limit (e :: es).
Proof.
  intros Hl Hc. unfold scan0 at 1. apply Nat.eqb_neq in Hl as Hl'. rewrite Hl', scan_cons by done.
  assert (∀ n es, n ≠ 0 → scan0 n es = scan q n es) as Hs.
  { intros n es' Hn. unfold scan0. apply Nat.eqb_neq in Hn. by rewrite Hn. }
  unfold visit. destruct (too_new q e); [intros Hr%Hc; by rewrite <- Hs|].
  destruct (too_old q e); [by intros [= <-]|].
  destruct (matches q e); [|intros Hr%Hc; by rewrite <- Hs].
  destruct (continue (limit - 1)) as [rest complete] eqn:E. intros [= <- ->].
  f_equal. by apply Hc.
Qed.

Lemma merge_loop_eq own w1 limit gaps w2 :
  merge_loop q own w1 limit gaps w2 =
  if limit =? 0 then ([], true) else
  match own, gaps with
  | [], [] => ([], w1 && w2)
  | o :: own', [] =>
      if negb w2 then ([], false) else visit q limit o (λ n, merge_loop q own' w1 n [] w2)
  | [], g :: gaps' =>
      if negb w1 then ([], false) else visit q limit g (λ n, merge_loop q [] w1 n gaps' w2)
  | o :: own', g :: gaps' =>
      if (ID g <? ID o)%Z then visit q limit o (λ n, merge_loop q own' w1 n (g :: gaps') w2)
      else visit q limit g (λ n, merge_loop q (o :: own') w1 n gaps' w2)
  end.
Proof. by destruct own, gaps. Qed.

(** The merge of what the indexes hold, when it answers at all, answers as the
    scan of everything they stand for. *)
Lemma merge_loop_scan own gaps w1 w2 k1 k2 limit res :
  (w1 = true → k1 = []) → (w2 = true → k2 = []) →
  merge_loop q own w1 limit gaps w2 = (res, true) →
  res = scan0 limit (merge_ids (own ++ k1) (gaps ++ k2)).
Proof.
  intros H1 H2. revert gaps limit res. induction own as [|o own IHo]; intros gaps.
  - induction gaps as [|g gaps IHg]; intros limit res; rewrite merge_loop_eq;
      (destruct (limit =? 0) eqn:El; [intros [= <-]; unfold scan0; by rewrite El|]);
      apply Nat.eqb_neq in El.
    + intros [= <- Hw]. apply andb_true_iff in Hw as [Hw1 Hw2]. rewrite (H1 Hw1), (H2 Hw2).
      unfold scan0. by destruct limit as [|[|]].
    + destruct w1; [|done]. rewrite (H1 eq_refl) in *.
      apply visit_scan; [done|]. intros n r Hr. rewrite (IHg n r Hr). by rewrite !merge_ids_nil_l.
  - induction gaps as [|g gaps IHg]; intros limit res; rewrite merge_loop_eq;
      (destruct (limit =? 0) eqn:El; [intros [= <-]; unfold scan0; by rewrite El|]);
      apply Nat.eqb_neq in El.
    + destruct w2; [|done]. rewrite (H2 eq_refl), app_nil_r, merge_ids_nil_r.
      apply visit_scan; [done|]. intros n r Hr%IHo.
      by rewrite (H2 eq_refl), app_nil_r, merge_ids_nil_r in Hr.
    + simpl merge_ids. destruct (ID g <? ID o)%Z eqn:Eid; (apply visit_scan; [done|]).
      * intros n r Hr. by apply IHo in Hr.
      * intros n r Hr. by apply IHg in Hr.
Qed.

(** Merging two parts of one falling list gives their union. *)
Lemma merge_filter (f g : HistoryEntry → bool) l :
  StronglySorted (λ a b, (ID b < ID a)%Z) l → (∀ e, e ∈ l → f e = true → g e = false) →
  merge_ids (List.filter f l) (List.filter g l) = List.filter (λ e, f e || g e) l.
Proof.
  induction 1 as [|e l Hs IH Hall]; intros Hd; [done|]. rewrite Forall_forall in Hall.
  specialize (IH ltac:(set_solver)). simpl.
  assert (∀ (p : HistoryEntry → bool) x rest, List.filter p l = x :: rest → (ID x < ID e)%Z) as Hlt.
  { intros p x rest Hp. apply Hall. assert (In x (List.filter p l)) as Hin by (rewrite Hp; by left).
    apply filter_In in Hin as [Hin _]. by apply list_elem_of_In. }
  destruct (f e) eqn:Ef; simpl.
  - rewrite (Hd e) by (set_solver || done).
    destruct (List.filter g l) as [|x rest] eqn:Eg.
    + rewrite merge_ids_nil_r in *. by rewrite IH.
    + rewrite <- IH. simpl. apply Hlt in Eg. apply Z.ltb_lt in Eg. by rewrite Eg.
  - destruct (g e) eqn:Eg; simpl; [|done].
    rewrite <- IH. destruct (List.filter f l) as [|x rest] eqn:Efl;
      [by rewrite !merge_ids_nil_l|].
    simpl. apply Hlt in Efl. rewrite (proj2 (Z.ltb_ge _ _)) by lia. done.
Qed.

(** ** What a scan answers *)

(** Once an entry is too old, the ones before it are. *)
Definition ends_fall (l : list HistoryEntry) : Prop :=
  StronglySorted (λ a b, too_old q a = true → too_old q b = true) l.

Lemma scan_old limit l : (∀ e, e ∈ l → too_old q e = true) → scan q limit l = [].
Proof.
  induction l as [|e l IH]; intros Hl; [done|]. simpl. rewrite (Hl e) by set_solver.
  destruct (too_new q e); [|done]. apply IH. set_solver.
Qed.

(** The scan is the newest [limit] entries of the window that match. *)
Lemma scan_filter limit l :
  limit ≠ 0 → ends_fall l →
  scan q limit l =
  take limit (List.filter (λ e, negb (too_new q e) && negb (too_old q e) && matches q e) l).
Proof.
  intros Hl Hs. revert limit Hl. induction Hs as [|e l Hs IH Hall]; intros limit Hl.
  { by destruct limit. }
  rewrite scan_cons by done. rewrite Forall_forall in Hall. simpl.
  destruct (too_new q e); simpl; [by apply IH|].
  destruct (too_old q e) eqn:Eo; simpl.
  - rewrite <- IH, scan_old; auto.
  - destruct (matches q e); simpl; [|by apply IH]. destruct limit as [|limit]; [done|]. simpl.
    f_equal. unfold scan0. rewrite Nat.sub_0_r. destruct limit as [|limit]; [done|].
    by apply IH.
Qed.
End Merge.

(** A history in use: made empty or restored, then appended to; with everything
    stored in it that a restore did not leave behind. The bounds say that the
    64-bit count does not come around. *)
Inductive recorded : list HistoryEntry → History → Prop :=
| recorded_new n inst : 0 < n → recorded [] (NewHistory n inst)
| recorded_restore n inst0 es last inst :
    0 < n → restorable es → (0 ≤ last)%Z →
    (Z.max (count (foldl restore_one (NewHistory n inst) (drop (length es - n) es))) last +
       Z.of_nat n < max_uint64)%Z →
    recorded (drop (length es - n) es) (Restore es last inst (NewHistory n inst0))
| recorded_append all h now e :
    recorded all h → (count h + 1 < max_uint64)%Z →
    recorded (all ++ [stamp now (count h + 1) e]) (Append now e h).2.

Lemma recorded_ok all h : recorded all h → history_ok all h.
Proof.
  induction 1 as [n inst Hn|n inst0 es last inst Hn Hes Hl Hb|all h now e Hr IH Hb].
  - by apply NewHistory_ok.
  - by apply Restore_ok.
  - by apply Append_ok.
Qed.

Lemma oldest_entry all h :
  history_ok all h → all ≠ [] →
  Some (entry_at h (oldest_slot h)) = all !! (length all - size h).
Proof.
  intros Hok Hne. pose proof (ho_ring _ _ Hok) as Hr. unfold entry_at, oldest_slot.
  destruct (full h).
  - rewrite (ring_oldest _ _ _ _ Hr).
    destruct (lookup_lt_is_Some_2 all (length all - size h)) as [x ->]; [|done].
    destruct all; [done|]. simpl. pose proof (rr_pos _ _ _ _ _ Hr). lia.
  - destruct all as [|x all]; [done|]. rewrite (ring_first _ _ _ _ _ Hr). simpl default.
    pose proof (rr_full _ _ _ _ _ Hr) as Hf. symmetry in Hf. apply Nat.leb_gt in Hf.
    by replace (length (x :: all) - size h) with 0 by lia.
Qed.

Lemma falling_ids all h :
  history_ok all h → StronglySorted (λ a b, (ID b < ID a)%Z) (newest_first h).
Proof.
  intros Hok. rewrite (newest_first_spec all h Hok).
  assert (∀ p q e f, p < q → drop (length all - size h) all !! p = Some e →
    drop (length all - size h) all !! q = Some f → (ID e < ID f)%Z) as Hids.
  { intros p q e f Hpq. rewrite !lookup_drop. apply (ho_ids _ _ Hok). lia. }
  revert Hids. generalize (drop (length all - size h) all) as l.
  induction l as [|x l IH] using rev_ind; intros Hids; [constructor|].
  rewrite reverse_snoc. constructor.
  - apply IH. intros p q e f Hpq He Hf. apply (Hids p q); [done|by apply lookup_app_l_Some..].
  - apply Forall_forall. intros e He. rewrite elem_of_reverse in He.
    apply list_elem_of_lookup_1 in He as [p Hp]. apply (Hids p (length l)).
    + by eapply lookup_lt_Some.
    + by apply lookup_app_l_Some.
    + by rewrite lookup_app_r, Nat.sub_diag.
Qed.

(** An entry's end never precedes that of one recorded before it. *)
Definition ends_rise (all : list HistoryEntry) : Prop :=
  StronglySorted (λ e f, (end_ e ≤ end_ f)%Z) all.

(** What the callers record: a gap names no resource, and an annotation item is
    about none that is asked for. *)
Definition well_named (id : string) (all : list HistoryEntry) : Prop :=
  ∀ e, e ∈ all →
    (Kind e = KindGap → ResourceID e = "" ∧ ServiceID e = "") ∧
    (Kind e = KindAnnotation → about e id = false).

Lemma ends_fall_newest all h q :
  history_ok all h → ends_rise all → ends_fall q (newest_first h).
Proof.
  intros Hok Hr. rewrite (newest_first_spec all h Hok). unfold ends_fall.
  rewrite <- (take_drop (length all - size h) all) in Hr.
  apply StronglySorted_app in Hr as (_ & _ & Hr). apply StronglySorted_rev in Hr.
  eapply StronglySorted_weaken; [|exact Hr]. intros a b. unfold flip, too_old, time_after.
  destruct (is_zero_time (After q)); simpl; [done|]. intros Hle.
  rewrite !negb_true_iff, !Z.ltb_ge. lia.
Qed.

(** Leaving out what does not match changes no answer. *)
Lemma scan_sub `{Unicode} q (r : HistoryEntry → bool) limit l :
  limit ≠ 0 → ends_fall q l → (∀ e, e ∈ l → matches q e = true → r e = true) →
  scan q limit (List.filter r l) = scan q limit l.
Proof.
  intros Hl Hs Hr.
  assert (ends_fall q (List.filter r l)) as Hs'.
  { unfold ends_fall in *. clear Hr. induction Hs as [|e l Hs IH Hall]; simpl; [constructor|].
    destruct (r e); [|done]. constructor; [done|]. rewrite Forall_forall in Hall |- *.
    intros x Hx. apply Hall. apply list_elem_of_In, filter_In in Hx as [Hx _].
    by apply list_elem_of_In. }
  rewrite !scan_filter by done. f_equal. clear Hs Hs'.
  induction l as [|e l IH]; simpl; [done|]. specialize (IH ltac:(set_solver)).
  destruct (r e) eqn:Er; simpl; [by rewrite IH|]. rewrite IH.
  destruct (matches q e) eqn:Em; [rewrite (Hr e) in Er by (set_solver || done); done|].
  by rewrite andb_false_r.
Qed.

(** An annotation never belongs to a queried resource, so what is about it is
    indexed under it; a gap is indexed under no resource. *)
Lemma own_indexed id all e :
  well_named id all → id ≠ "" → e ∈ all → about e id = true → indexed id e = true.
Proof.
  intros Hnamed Hid He Ho. destruct (Hnamed e He) as [_ Ha].
  unfold about, indexed in *. destruct (decide (Kind e = KindAnnotation)) as [Hk|Hk].
  - by rewrite Ha in Ho.
  - rewrite bool_decide_eq_true_2 by done. apply orb_true_iff in Ho as [Ho|Ho];
      apply orb_true_iff; [by left|right]. rewrite Ho, andb_true_r.
    apply bool_decide_eq_true in Ho. rewrite Ho. by destruct id.
Qed.

Lemma gap_indexed id all e :
  well_named id all → e ∈ all → Kind e = KindGap → indexed "" e = true.
Proof.
  intros Hnamed He Hk. destruct (Hnamed e He) as [Ha _]. destruct (Ha Hk) as [Hr _].
  unfold indexed. by rewrite Hk, Hr.
Qed.

(** What a resource's query matches is about the resource, or a wanted gap. *)
Lemma matches_own `{Unicode} q e :
  q_ResourceID q ≠ "" → Members q = [] → matches q e = true →
  wantsKind q KindGap && bool_decide (Kind e = KindGap) || about e (q_ResourceID q) = true.
Proof.
  intros Hid Hmem Hm. unfold matches in Hm.
  destruct (bool_decide (Kind e = KindAnnotation)) in Hm; [done|]. simpl in Hm.
  destruct (wantsKind q (Kind e)) eqn:Hw; [|done]. simpl in Hm.
  destruct (decide (Kind e = KindGap)) as [Hk|Hk].
  - rewrite Hk in Hw. by rewrite Hw, bool_decide_eq_true_2 by done.
  - rewrite (bool_decide_eq_true_2 (Kind e ≠ KindGap)) in Hm by done.
    destruct (_ && time_after _ _); [done|]. destruct (bool_decide (Kind e = KindChange) && _); [done|].
    simpl in Hm. destruct (matchesResource q e) eqn:Hmr; [|done].
    unfold matchesResource in Hmr. rewrite Hmem in Hmr.
    rewrite (bool_decide_eq_false_2 (ResourceID e ∈ [])), andb_false_r in Hmr by set_solver.
    assert (is_empty (q_ResourceID q) = false) as E by (by destruct (q_ResourceID q)).
    rewrite E in Hmr. simpl in Hmr. rewrite andb_true_r in Hmr.
    destruct (about e (q_ResourceID q)); [apply orb_true_r|done].
Qed.

(** The fast path, when it claims to be complete, is the scan. *)
Lemma listByResource_scan `{Unicode} all h q limit res :
  history_ok all h → ends_rise all → well_named (q_ResourceID q) all →
  q_ResourceID q ≠ "" → Members q = [] → limit ≠ 0 →
  listByResource q limit h = (res, true) → res = scan q limit (newest_first h).
Proof.
  intros Hok Hends Hnamed Hid Hmem Hl. unfold listByResource.
  set (gap := λ e, bool_decide (Kind e = KindGap)).
  set (own := λ e, about e (q_ResourceID q)).
  assert (∀ p e, all !! p = Some e → own e = true → indexed (q_ResourceID q) e = true) as Hown
    by (intros p e He%list_elem_of_lookup_2; by apply (own_indexed _ all)).
  assert (∀ p e, all !! p = Some e → gap e = true → indexed "" e = true) as Hgap
    by (intros p e He%list_elem_of_lookup_2 Hg%bool_decide_eq_true; by apply (gap_indexed _ all e Hnamed)).
  assert (∀ e, e ∈ newest_first h → e ∈ all) as Hsub.
  { intros e. rewrite (newest_first_spec all h Hok), elem_of_reverse. apply subseteq_drop. }
  destruct (cursor_prefix all h Hok own _ Hown) as (k1 & Hk1 & Hw1).
  set (c1 := index_cursor h (q_ResourceID q) own) in *.
  assert (∃ k2, List.filter (λ e, wantsKind q KindGap && gap e) (newest_first h) =
    (heads (if wantsKind q KindGap then index_cursor h "" gap else mkIndexCursor [] true) ++ k2)%list ∧
    (whole (if wantsKind q KindGap then index_cursor h "" gap else mkIndexCursor [] true) = true →
      k2 = [])) as (k2 & Hk2 & Hw2).
  { destruct (wantsKind q KindGap); [exact (cursor_prefix all h Hok gap "" Hgap)|].
    exists []. split; [|done]. clear. by induction (newest_first h). }
  intros Hr. rewrite (merge_loop_scan q _ _ _ _ k1 k2 _ _ Hw1 Hw2 Hr), <- Hk1, <- Hk2.
  unfold scan0. apply Nat.eqb_neq in Hl as Hl'. rewrite Hl', merge_filter.
  - apply scan_sub; [done|by eapply ends_fall_newest|]. intros e He Hm.
    unfold own, gap. rewrite orb_comm. by apply matches_own.
  - by eapply falling_ids.
  - intros e He Ho. unfold gap. destruct (decide (Kind e = KindGap)) as [Hk|Hk].
    + destruct (Hnamed e (Hsub e He)) as [Hg _]. destruct (Hg Hk) as [Hr1 Hr2].
      unfold own, about in Ho. rewrite Hr1, Hr2 in Ho.
      by rewrite !bool_decide_eq_false_2 in Ho by done.
    + rewrite bool_decide_eq_false_2 by done. apply andb_false_r.
Qed.

(** A complete answer is everything recorded beyond the ID asked for. *)
Lemma Since_all all h afterID :
  history_ok all h → (0 ≤ afterID)%Z → (Since afterID h).2 = true →
  (afterID ≤ count h)%Z ∧ (Since afterID h).1 = filter (λ e, (afterID < ID e)%Z) all.
Proof.
  intros Hok Ha. unfold Since. destruct (Z.ltb_spec (count h) afterID); [done|].
  destruct (Z.eqb_spec afterID (count h)) as [E|Hne]; simpl.
  - intros _. split; [lia|]. rewrite filter_none; [done|]. intros e He.
    pose proof (ho_count _ _ Hok e He). lia.
  - intros Hc%Z.leb_le. split; [lia|]. pose proof (ho_bound _ _ Hok) as Hb.
    rewrite (newest_first_spec all h Hok), take_while_rising.
    2:{ intros p q e f Hpq. rewrite !lookup_drop. apply (ho_ids _ _ Hok). lia. }
    unfold wrap in Hc. rewrite Z.mod_small in Hc by (unfold max_uint64 in *; lia).
    destruct (decide (all = [])) as [->|Hall]; [done|].
    pose proof (oldest_entry all h Hok Hall) as Hold.
    rewrite <- (take_drop (length all - size h) all) at 3. rewrite filter_app.
    rewrite (filter_none _ (take _ _)); [done|].
    intros e (p & Hp)%list_elem_of_lookup_1. apply lookup_take_Some in Hp as [Hp Hlt].
    symmetry in Hold. pose proof (ho_ids _ _ Hok p _ e _ Hlt Hp Hold). lia.
Qed.

(** * Properties *)

(** A history in use, restored or not, holds exactly the last [size] of what
    was recorded in it, in order; their IDs rise, and the oldest of them is
    what Oldest reports. *)
Theorem history_holds_newest all h (Hr : recorded all h) :
  newest_first h = reverse (drop (length all - size h) all) ∧
  StronglySorted (λ a b, (ID b < ID a)%Z) (newest_first h) ∧
  Oldest h = Timestamp <$> all !! (length all - size h).
Proof.
  apply recorded_ok in Hr as Hok.
  split_and!; [by apply newest_first_spec|by eapply falling_ids|].
  pose proof (ho_ring _ _ Hok) as Hring. pose proof (rr_pos _ _ _ _ _ Hring).
  unfold Oldest. destruct (decide (all = [])) as [->|Hne].
  - rewrite (rr_cursor _ _ _ _ _ Hring), (rr_full _ _ _ _ _ Hring). simpl length.
    rewrite Nat.Div0.mod_0_l. destruct (size h); [lia|done].
  - rewrite <- (oldest_entry all h Hok Hne). simpl fmap.
    destruct ((cursor h =? 0) && negb (full h)) eqn:E; [|done]. exfalso.
    apply andb_true_iff in E as [Hc%Nat.eqb_eq Hf%negb_true_iff].
    rewrite (rr_full _ _ _ _ _ Hring) in Hf. apply Nat.leb_gt in Hf.
    rewrite (rr_cursor _ _ _ _ _ Hring), Nat.mod_small in Hc by done. by destruct all.
Qed.

(** A reader resuming after an ID gets, in order, the entries beyond it that
    the ring still holds; and when told the result is complete, every entry
    ever recorded beyond it is in the result. An ID the history has not
    reached is answered with nothing and not complete. *)
Theorem Since_complete all h afterID (Hr : recorded all h) (Ha : (0 ≤ afterID)%Z) :
  let '(res, complete) := Since afterID h in
  ((count h < afterID)%Z → res = [] ∧ complete = false) ∧
  ((afterID ≤ count h)%Z →
    res = filter (λ e, (afterID < ID e)%Z) (drop (length all - size h) all) ∧
    (complete = true → res = filter (λ e, (afterID < ID e)%Z) all)).
Proof.
  apply recorded_ok in Hr as Hok. pose proof (Since_all all h afterID Hok Ha) as Hall. unfold Since in *.
  destruct (Z.ltb_spec (count h) afterID); [split; [done|lia]|].
  destruct (Z.eqb_spec afterID (count h)) as [E|Hne]; (split; [lia|intros _]).
  - split; [|intros _; by apply Hall]. rewrite filter_none; [done|].
    intros e He. pose proof (ho_count _ _ Hok e (subseteq_drop _ _ _ He)). lia.
  - split; [|intros Hc; by apply Hall].
    rewrite (newest_first_spec all h Hok). apply take_while_rising.
    intros p q e f Hpq. rewrite !lookup_drop. apply (ho_ids _ _ Hok). lia.
Qed.

(** A timeline query answers the newest [limit] entries inside the window
    that match its filters, newest first, of everything the ring holds,
    whichever path it takes: when the per-resource index says its answer is
    complete, it is the answer of the scan, however often the index or the
    ring wrapped. *)
Theorem List_answers `{Unicode} all h q
    (Hr : recorded all h) (Hends : ends_rise all)
    (Hnamed : q_ResourceID q ≠ "" → well_named (q_ResourceID q) all) :
  List_ q h =
    take (list_limit q)
      (List.filter (λ e, negb (too_new q e) && negb (too_old q e) && matches (prepared q) e)
         (reverse (drop (length all - size h) all))).
Proof.
  apply recorded_ok in Hr as Hok. rewrite <- (newest_first_spec all h Hok).
  assert (list_limit q ≠ 0) as Hl.
  { unfold list_limit. case_match eqn:E; [done|]. apply Z.leb_gt in E. lia. }
  change (too_new q) with (too_new (prepared q)). change (too_old q) with (too_old (prepared q)).
  rewrite <- scan_filter; [|done|by eapply ends_fall_newest].
  unfold List_. change (list_limit (prepared q)) with (list_limit q).
  destruct (negb _ && _) eqn:Hfast; [|done].
  apply andb_true_iff in Hfast as [Hid%negb_true_iff Hmem%bool_decide_eq_true].
  destruct (listByResource _ _ _) as [found [|]] eqn:Hlr; [|done].
  assert (q_ResourceID q ≠ "") as Hne by (intros E; change (is_empty (q_ResourceID q) = false) in Hid; by rewrite E in Hid).
  eapply listByResource_scan; [exact Hok|done|by apply Hnamed|done|done|done|exact Hlr].
Qed.

(** * Witnesses *)

(** A ring of two that held three entries: a service's, a gap and its task's. *)
Definition w_entry (kind typ rid svc : string) (t : Z) : HistoryEntry :=
  mkHistoryEntry 0 kind t time_zero typ "update" rid rid None "" svc 0 "" ""
    time_zero false "" None None.

Definition w_h1 : History := (Append 0 (w_entry "" "service" "s1" "" 5) (NewHistory 2 "i")).2.
Definition w_h2 : History := (Append 0 (w_entry "gap" "" "" "" 6) w_h1).2.
Definition w_h3 : History := (Append 0 (w_entry "" "task" "t1" "s1" 7) w_h2).2.

Definition w_all : list HistoryEntry :=
  [stamp 0 1 (w_entry "" "service" "s1" "" 5); stamp 0 2 (w_entry "gap" "" "" "" 6);
   stamp 0 3 (w_entry "" "task" "t1" "s1" 7)].

Lemma w_recorded : recorded w_all w_h3.
Proof.
  apply (recorded_append [stamp 0 1 (w_entry "" "service" "s1" "" 5);
    stamp 0 2 (w_entry "gap" "" "" "" 6)] w_h2); [|reflexivity].
  apply (recorded_append [stamp 0 1 (w_entry "" "service" "s1" "" 5)] w_h1); [|reflexivity].
  apply (recorded_append [] (NewHistory 2 "i")); [|reflexivity].
  apply recorded_new. lia.
Qed.

Definition w_query : HistoryQuery :=
  mkHistoryQuery "" "s1" 0 "" "" 10 None [] false [] [] 0 0 None [] false [] [] None.

Lemma history_holds_newest_witness :
  newest_first w_h3 = [stamp 0 3 (w_entry "" "task" "t1" "s1" 7); stamp 0 2 (w_entry "gap" "" "" "" 6)].
Proof.
  destruct (history_holds_newest w_all w_h3 w_recorded) as [H _].
  rewrite H. vm_compute. reflexivity.
Defined.

Lemma Since_complete_witness :
  Since 1 w_h3 =
    ([stamp 0 2 (w_entry "gap" "" "" "" 6); stamp 0 3 (w_entry "" "task" "t1" "s1" 7)], true) ∧
  filter (λ e, (1 < ID e)%Z) w_all =
    [stamp 0 2 (w_entry "gap" "" "" "" 6); stamp 0 3 (w_entry "" "task" "t1" "s1" 7)].
Proof.
  pose proof (Since_complete w_all w_h3 1 w_recorded ltac:(lia)) as H.
  assert (Since 1 w_h3 = ([stamp 0 2 (w_entry "gap" "" "" "" 6);
    stamp 0 3 (w_entry "" "task" "t1" "s1" 7)], true)) as E by (vm_compute; reflexivity).
  rewrite E in H. split; [exact E|]. destruct H as [_ H].
  destruct H as [_ H]; [vm_compute; discriminate|]. symmetry. apply H. reflexivity.
Defined.

Lemma List_answers_witness :
  @List_ ascii_unicode w_query w_h3 =
    [stamp 0 3 (w_entry "" "task" "t1" "s1" 7); stamp 0 2 (w_entry "gap" "" "" "" 6)].
Proof.
  rewrite (@List_answers ascii_unicode w_all w_h3 w_query w_recorded);
    [vm_compute; reflexivity| |].
  - repeat constructor; vm_compute; discriminate.
  - intros _ e He. unfold w_all in He. repeat (apply elem_of_cons in He as [->|He];
      [split; [intros E; first [discriminate E|split; reflexivity]|
               intros E; discriminate E]|]).
    by apply not_elem_of_nil in He.
Defined.
