(* ===== verification/ExecManager.v ===== *)
(** Shell sessions: internal/exec/manager.go, over the identities of
    internal/auth and the records of internal/audit.

    The manager's mutex is released while an audit record is written, so an
    operation is a sequence of critical sections: each is a definition here,
    and what a call still has to do after one is an [activity]. A step of the
    machine is one call's first section or one activity's next, in any order.
    Sessions are pointers: an entry removed from the map may still be held, so
    the entries are a heap and the map is the set of those listed. *)
From S2P Require Import Prelude GoStrings AclPolicy.
#[local] Open Scope string_scope.
#[local] Open Scope nat_scope.

(** * Data *)

Inductive exec_error :=
| ErrCapacity | ErrIdentityCapacity | ErrNotFound | ErrNotOwner | ErrAlreadyAttached
| ErrNotPending | ErrUnavailable.

Inductive State := StatePending | StateConnected | StateEnded.

#[global] Instance State_eq_dec : EqDecision State.
Proof. solve_decision. Defined.

Inductive Outcome := OutcomeExited | OutcomeTerminated | OutcomeDetached.

#[global] Instance Outcome_eq_dec : EqDecision Outcome.
Proof. solve_decision. Defined.

Record Exit := mkExit { Code : Z; exit_Outcome : Outcome }.

Record Target := mkTarget {
  tg_Task : string;
  tg_Service : string;
  tg_ServiceName : string;
  tg_Stack : string;
  tg_Node : string;
  tg_Container : string;
}.

Record Owner := mkOwner {
  ow_Subject : string;
  ow_Provider : string;
  ow_DisplayName : string;
  ow_Groups : list string;
}.

Definition OwnerOf (id : option Identity) : Owner :=
  match id with
  | None => mkOwner "" "" "" []
  | Some id => mkOwner (Subject id) (Provider id) (DisplayName id) (Groups id)
  end.

Definition Owner_Is (o : Owner) (id : option Identity) : bool :=
  match id with
  | None => false
  | Some id => bool_decide (ow_Subject o = Subject id) && bool_decide (ow_Provider o = Provider id)
  end.

(** The session's snapshot and what the manager keeps beside it; [cancel] is
    the attached context's cancellation, and whether it was called. *)
Record entry := mkEntry {
  ID : string;
  e_Owner : Owner;
  e_Target : Target;
  Transport : string;
  Client : string;
  e_State : State;
  CreatedAt : Z;
  ConnectedAt : option Z;
  EndedAt : option Z;
  Reason : string;
  EndedBy : option Owner;
  e_Exit : option Exit;
  BytesIn : Z;
  BytesOut : Z;
  identity : option Identity;
  lastInput : Z;
  attached : bool;
  cancel : option bool;
}.

Record Limits := mkLimits {
  MaxSessions : nat;
  MaxPerIdentity : nat;
  IdleTimeout : Z;
  MaxDuration : Z;
}.

Definition AttachWindow : Z := (60 * 10 ^ 9)%Z.
Definition Retention : Z := (300 * 10 ^ 9)%Z.

Record Manager := mkManager {
  limits : Limits;
  heap : gmap string entry;
  listed : gset string;
  lastGeneration : Z;
  endWrites : Z;
}.

(** The manager's map. *)
Definition sessions (m : Manager) : gmap string entry :=
  filter (λ '(sid, _), sid ∈ listed m) (heap m).

Definition lookup_session (m : Manager) (sid : string) : option entry := sessions m !! sid.

Definition set_entry (m : Manager) (sid : string) (e : entry) : Manager :=
  mkManager (limits m) (<[sid := e]> (heap m)) (listed m) (lastGeneration m) (endWrites m).

Definition set_endWrites (m : Manager) (n : Z) : Manager :=
  mkManager (limits m) (heap m) (listed m) (lastGeneration m) n.

Definition NewManager (limits : Limits) (generation : option Z) : Manager :=
  mkManager limits ∅ ∅ (default 0%Z generation) 0.

(** audit.Identity, audit.Target and audit.Record, with the target by value and
    the duration in nanoseconds. *)
Record audit_identity := mkAuditIdentity {
  a_Subject : string;
  a_Provider : string;
  a_Groups : list string;
}.

Record audit_target := mkAuditTarget {
  a_Task : string;
  a_Service : string;
  a_Stack : string;
  a_Node : string;
  a_Container : string;
}.

Record Rec := mkRec {
  r_Time : Z;
  r_Event : string;
  r_Session : string;
  r_Identity : audit_identity;
  r_Client : string;
  r_Transport : string;
  r_Target : audit_target;
  r_Reason : string;
  r_EndedBy : option audit_identity;
  r_Outcome : option Outcome;
  r_ExitCode : option Z;
  r_Duration : option Z;
  r_BytesIn : Z;
  r_BytesOut : Z;
}.

Definition auditIdentity (o : Owner) : audit_identity :=
  mkAuditIdentity (ow_Subject o) (ow_Provider o) (ow_Groups o).

Definition record (now : Z) (event : string) (e : entry) : Rec :=
  let ended := bool_decide (event = "exec.end") in
  mkRec now event (ID e) (auditIdentity (e_Owner e)) (Client e) (Transport e)
    (mkAuditTarget (tg_Task (e_Target e)) (tg_ServiceName (e_Target e)) (tg_Stack (e_Target e))
       (tg_Node (e_Target e)) (tg_Container (e_Target e)))
    (Reason e) (auditIdentity <$> EndedBy e)
    (if ended then exit_Outcome <$> e_Exit e else None)
    (if ended then Code <$> e_Exit e else None)
    (if ended then
       match ConnectedAt e, EndedAt e with
       | Some c, Some d => Some (time_sub d c)
       | _, _ => None
       end
     else None)
    (if ended then BytesIn e else 0%Z) (if ended then BytesOut e else 0%Z).

(** * Field updates *)

Definition with_reason (e : entry) (reason : string) (by_ : option Owner) : entry :=
  mkEntry (ID e) (e_Owner e) (e_Target e) (Transport e) (Client e) (e_State e) (CreatedAt e)
    (ConnectedAt e) (EndedAt e) reason by_ (e_Exit e) (BytesIn e) (BytesOut e) (identity e)
    (lastInput e) (attached e) (cancel e).

Definition with_cancel (e : entry) (att : bool) (c : option bool) : entry :=
  mkEntry (ID e) (e_Owner e) (e_Target e) (Transport e) (Client e) (e_State e) (CreatedAt e)
    (ConnectedAt e) (EndedAt e) (Reason e) (EndedBy e) (e_Exit e) (BytesIn e) (BytesOut e)
    (identity e) (lastInput e) att c.

Definition with_connected (e : entry) (now : Z) : entry :=
  mkEntry (ID e) (e_Owner e) (e_Target e) (Transport e) (Client e) StateConnected (CreatedAt e)
    (Some now) (EndedAt e) (Reason e) (EndedBy e) (e_Exit e) (BytesIn e) (BytesOut e)
    (identity e) now (attached e) (cancel e).

Definition with_ended (e : entry) (now : Z) (x : Exit) : entry :=
  mkEntry (ID e) (e_Owner e) (e_Target e) (Transport e) (Client e) StateEnded (CreatedAt e)
    (ConnectedAt e) (Some now) (Reason e) (EndedBy e) (Some x) (BytesIn e) (BytesOut e)
    (identity e) (lastInput e) (attached e) (cancel e).

Definition with_bytes (e : entry) (i o : Z) (last : Z) : entry :=
  mkEntry (ID e) (e_Owner e) (e_Target e) (Transport e) (Client e) (e_State e) (CreatedAt e)
    (ConnectedAt e) (EndedAt e) (Reason e) (EndedBy e) (e_Exit e) i o (identity e) last
    (attached e) (cancel e).

(** Calling a cancel function that may be nil. *)
Definition cancelled (e : entry) : entry :=
  with_cancel e (attached e) ((λ _, true) <$> cancel e).

(** * Critical sections *)

Definition is_live (e : entry) : bool := bool_decide (e_State e ≠ StateEnded).

Definition Create (id : option Identity) (client : string) (target : Target) (transport : string)
    (now : Z) (sid : string) (m : Manager) : (exec_error + entry) * Manager :=
  let live := filter (λ '(_, e), is_live e = true) (sessions m) in
  let mine := filter (λ '(_, e), Owner_Is (e_Owner e) id = true) live in
  if MaxPerIdentity (limits m) <=? size mine then (inl ErrIdentityCapacity, m) else
  if MaxSessions (limits m) <=? size live then (inl ErrCapacity, m) else
  let e := mkEntry sid (OwnerOf id) target transport client StatePending now None None "" None
    None 0 0 id time_zero false None in
  (inr e, mkManager (limits m) (<[sid := e]> (heap m)) ({[sid]} ∪ listed m) (lastGeneration m)
     (endWrites m)).

Definition Get (sid : string) (m : Manager) : option entry := lookup_session m sid.

Definition created_later (a b : entry) : comparison := Z.compare (CreatedAt b) (CreatedAt a).

Definition List_ `{MapRange} (m : Manager) : list entry :=
  SortFunc created_later (range (sessions m)).*2.

Definition Attach (sid : string) (id : option Identity) (m : Manager)
    : option exec_error * Manager :=
  match lookup_session m sid with
  | None => (Some ErrNotFound, m)
  | Some e =>
      if negb (Owner_Is (e_Owner e) id) then (Some ErrNotOwner, m)
      else if attached e || bool_decide (e_State e = StateEnded) then (Some ErrAlreadyAttached, m)
      else (None, set_entry m sid (with_cancel e true (Some false)))
  end.

(** Connected, up to where it writes the start record. *)
Definition Connected_start (sid : string) (now : Z) (m : Manager) : exec_error + Rec :=
  match lookup_session m sid with
  | None => inl ErrNotFound
  | Some e =>
      if negb (attached e) || bool_decide (e_State e ≠ StatePending) || negb (is_empty (Reason e))
      then inl ErrNotPending
      else inr (record now "exec.start" e)
  end.

(** What Connected does once its record is written: let the shell run, finish
    the session it may not run in, or write the end record itself. *)
Inductive connected_next := ShellRuns | ThenFinish | ThenWriteEnd (rec : Rec).

(** [now] is when Connected was called, [later] the time of the end record. *)
Definition Connected_written (sid : string) (now later : Z) (m : Manager)
    : connected_next * Manager :=
  match heap m !! sid with
  | None => (ShellRuns, m) (* unreachable: the entry is held *)
  | Some e =>
      if bool_decide (e_State e = StatePending) then
        (if is_empty (Reason e) then ShellRuns else ThenFinish,
         set_entry m sid (with_connected e now))
      else (ThenWriteEnd (record later "exec.end" e), m)
  end.

Definition Input (sid : string) (n now : Z) (m : Manager) : Manager :=
  match lookup_session m sid with
  | None => m
  | Some e => set_entry m sid (with_bytes e (wrap_int64 (BytesIn e + n)) (BytesOut e) now)
  end.

Definition Output (sid : string) (n : Z) (m : Manager) : Manager :=
  match lookup_session m sid with
  | None => m
  | Some e => set_entry m sid (with_bytes e (BytesIn e) (wrap_int64 (BytesOut e + n)) (lastInput e))
  end.

(** End: the flag says the session, unattached, is to be finished next. *)
Definition End_ (sid reason : string) (by_ : option Identity) (m : Manager) : bool * Manager :=
  match lookup_session m sid with
  | None => (false, m)
  | Some e =>
      if bool_decide (e_State e = StateEnded) || negb (is_empty (Reason e)) then (false, m) else
      let e := with_reason e reason (match by_ with None => EndedBy e | Some _ => Some (OwnerOf by_) end) in
      if attached e then (false, set_entry m sid (cancelled e)) else (true, set_entry m sid e)
  end.

Definition Abort_ (sid reason : string) (m : Manager) : Manager :=
  match lookup_session m sid with
  | None => m
  | Some e =>
      if bool_decide (e_State e ≠ StateEnded) && is_empty (Reason e)
      then set_entry m sid (with_reason e reason (EndedBy e)) else m
  end.

Definition detached : Exit := mkExit (-1) OutcomeDetached.

(** Finish: the end record to write, when a start record was written. *)
Definition Finish (sid : string) (x : Exit) (now : Z) (m : Manager) : option Rec * Manager :=
  match lookup_session m sid with
  | None => (None, m)
  | Some e =>
      if bool_decide (e_State e = StateEnded) then (None, m) else
      let wasConnected := bool_decide (e_State e = StateConnected) in
      let e := with_ended e now x in
      let e :=
        if bool_decide (exit_Outcome x = OutcomeExited) then with_reason e "exited" None
        else if is_empty (Reason e) then with_reason e "exited" (EndedBy e) else e in
      let e := cancelled e in
      let m := set_entry m sid e in
      if wasConnected then (Some (record now "exec.end" e), set_endWrites m (endWrites m + 1))
      else (None, m)
  end.

(** write, when the record could not be written: the sessions to end. *)
Definition running `{MapRange} (m : Manager) : list string :=
  (filter (λ '(_, e), e_State e = StateConnected) (range (sessions m))).*1.

(** Sweep's section. What it decides about one session: *)
Inductive verdict := Keep | Delete | EndWith (reason : string) | Check.

Definition sweep_one (lim : Limits) (now : Z) (revoke : bool) (e : entry) : verdict :=
  match e_State e with
  | StateEnded =>
      match EndedAt e with
      | Some ended => if (Retention <? time_sub now ended)%Z then Delete else Keep
      | None => Keep
      end
  | StatePending =>
      if negb (attached e) && (AttachWindow <? time_sub now (CreatedAt e))%Z
      then EndWith "not_attached"
      else if revoke then Check else Keep
  | StateConnected =>
      if (MaxDuration lim <? time_sub now (default 0%Z (ConnectedAt e)))%Z
      then EndWith "max_duration"
      else if (IdleTimeout lim <? time_sub now (lastInput e))%Z then EndWith "idle_timeout"
      else if revoke then Check else Keep
  end.

(** The sessions to end, the deleted ones gone. [generation] is the policy's
    when revocation is configured, with the rule that re-checks a session. *)
Definition Sweep `{MapRange} (now : Z) (generation : option Z)
    (authorize : option (option Identity → Target → bool)) (m : Manager)
    : list (string * string) * Manager :=
  let g := match generation, authorize with Some g, Some _ => g | _, _ => 0%Z end in
  let revoke := bool_decide (is_Some authorize) && bool_decide (g ≠ lastGeneration m) in
  let judged := (λ '(sid, e), (sid, e, sweep_one (limits m) now revoke e)) <$> range (sessions m) in
  let deleted := omap (λ '(sid, _, v), match v with Delete => Some sid | _ => None end) judged in
  let endings := omap (λ '(sid, _, v), match v with EndWith r => Some (sid, r) | _ => None end) judged in
  let revoked := omap (λ '(sid, e, v),
    match v, authorize with
    | Check, Some f => if f (identity e) (e_Target e) then None else Some (sid, "revoked")
    | _, _ => None
    end) judged in
  ((endings ++ revoked)%list,
   mkManager (limits m) (heap m) (listed m ∖ list_to_set deleted)
     (if revoke then g else lastGeneration m) (endWrites m)).

(** The records of a refusal, from an entry nobody else holds (its state is not
    read). *)
Definition Denied (id : option Identity) (client : string) (target : Target) (reason : string)
    (now : Z) : Rec :=
  record now "exec.denied" (mkEntry "" (OwnerOf id) target "" client StatePending time_zero None
    None reason None None 0 0 id time_zero false None).

Definition DeniedAttach (sid : string) (id : option Identity) (client reason : string) (now : Z)
    (m : Manager) : option Rec :=
  match lookup_session m sid with
  | None => None
  | Some e =>
      Some (record now "exec.denied" (mkEntry sid (OwnerOf id) (e_Target e) (Transport e) client
        StatePending time_zero None None reason None None 0 0 None time_zero false None))
  end.

(** Whether Shutdown still waits. *)
Definition settling (m : Manager) : bool :=
  (0 <? endWrites m)%Z ||
  existsb (λ '(_, e), attached e && bool_decide (e_State e ≠ StateEnded)) (map_to_list (sessions m)).

(** * The machine *)

(** What a call still has to do once it released the mutex. *)
Inductive activity :=
| WriteStart (sid : string) (now : Z) (rec : Rec) (* Connected, writing *)
| StartWritten (sid : string) (now : Z)           (* Connected, written *)
| AbortNext (sid reason : string)                 (* an Abort to run *)
| FinishNext (sid : string) (x : Exit)            (* a Finish to run *)
| WriteEnd (sid : string) (rec : Rec)             (* an end record to write, uncounted *)
| WriteEndCounted (sid : string) (rec : Rec)      (* one Finish counted *)
| EndWriteDone                                    (* the count to go down *)
| FailClosed                                      (* write, after an error *)
| EndNext (sid reason : string)                   (* an End to run *)
| WriteDenied (rec : Rec)                         (* a refusal to write *)
| AbortLate (sid : string) (start : Rec)          (* abortLate, its count to take *)
| RecordLate (sid : string) (start : Rec)         (* its end record to make *)
| AwaitLanded (sid : string) (start rec : Rec)    (* its start record may still land *)
| Crashed.                                        (* a nil entry was read: the process is gone *)

(** How the audit log answers a write: written, not, or given up on with its
    fate unknown. *)
Inductive written := Written | NotWritten | Abandoned.

Record machine := mkMachine {
  manager : Manager;
  activities : list (list activity); (* what each call under way still does, in order *)
  audit_log : list Rec;           (* the records written, newest first *)
  end_attempts : list string;     (* the sessions whose end record was given to the log *)
  shells : list string;           (* the sessions whose shell Connected let run *)
}.

Definition with_manager (s : machine) (m : Manager) : machine :=
  mkMachine m (activities s) (audit_log s) (end_attempts s) (shells s).

(** write's outcome on an end record. *)
Definition end_written (sid : string) (rec : Rec) (w : written) (s : machine)
    (after : list activity) : machine * list activity :=
  (mkMachine (manager s) (activities s)
     (match w with Written => rec :: audit_log s | _ => audit_log s end)
     (sid :: end_attempts s) (shells s),
   match w with Written => after | _ => FailClosed :: after end).

(** The next section of a call: the machine, and what it puts before the rest
    of the call. [w] is how a write ends, [now] the clock. *)
Definition run_activity `{MapRange} (a : activity) (w : written) (now : Z) (s : machine)
    : machine * list activity :=
  let m := manager s in
  match a with
  | WriteStart sid at_ rec =>
      match w with
      | Written =>
          (mkMachine m (activities s) (rec :: audit_log s) (end_attempts s) (shells s),
           [StartWritten sid at_])
      | NotWritten => (s, [FailClosed; AbortNext sid "audit_unavailable"])
      | Abandoned => (s, [FailClosed; AbortLate sid rec])
      end
  | StartWritten sid at_ =>
      let '(next, m) := Connected_written sid at_ now m in
      match next with
      | ShellRuns =>
          (mkMachine m (activities s) (audit_log s) (end_attempts s) (sid :: shells s), [])
      | ThenFinish => (with_manager s m, [FinishNext sid detached])
      | ThenWriteEnd rec => (with_manager s m, [WriteEnd sid rec])
      end
  | AbortNext sid reason => (with_manager s (Abort_ sid reason m), [FinishNext sid detached])
  | FinishNext sid x =>
      match Finish sid x now m with
      | (None, m) => (with_manager s m, [])
      | (Some rec, m) => (with_manager s m, [WriteEndCounted sid rec])
      end
  | WriteEnd sid rec => end_written sid rec w s []
  | WriteEndCounted sid rec => end_written sid rec w s [EndWriteDone]
  | EndWriteDone => (with_manager s (set_endWrites m (endWrites m - 1)), [])
  | WriteDenied rec =>
      match w with
      | Written => (mkMachine m (activities s) (rec :: audit_log s) (end_attempts s) (shells s), [])
      | _ => (s, [FailClosed])
      end
  | FailClosed => (s, (λ sid, EndNext sid "audit_unavailable") <$> running m)
  | EndNext sid reason =>
      let '(finish, m) := End_ sid reason None m in
      (with_manager s m, if finish then [FinishNext sid detached] else [])
  | AbortLate sid start =>
      (with_manager s (set_endWrites m (endWrites m + 1)),
       [AbortNext sid "audit_unavailable"; RecordLate sid start])
  | RecordLate sid start =>
      match lookup_session m sid with
      | Some e => (s, [AwaitLanded sid start (record now "exec.end" e)])
      | None => (s, [Crashed])
      end
  | AwaitLanded sid start rec =>
      match w with
      | Written =>
          (mkMachine m (activities s) (start :: audit_log s) (end_attempts s) (shells s),
           [WriteEndCounted sid rec])
      | _ => (s, [EndWriteDone])
      end
  | Crashed => (s, [Crashed])
  end.

(** A call's first section. *)
Inductive call :=
| CallCreate (id : option Identity) (client : string) (target : Target) (transport sid : string)
| CallAttach (sid : string) (id : option Identity)
| CallConnected (sid : string)
| CallInput (sid : string) (n : Z)
| CallOutput (sid : string) (n : Z)
| CallEnd (sid reason : string) (by_ : option Identity)
| CallAbort (sid reason : string)
| CallFinish (sid : string) (x : Exit)
| CallSweep (generation : option Z) (authorize : option (option Identity → Target → bool))
| CallShutdown
| CallDenied (id : option Identity) (client : string) (target : Target) (reason : string)
| CallDeniedAttach (sid : string) (id : option Identity) (client reason : string).

Definition run_call `{MapRange} (c : call) (now : Z) (s : machine) : machine * list activity :=
  let m := manager s in
  match c with
  | CallCreate id client target transport sid =>
      (with_manager s (Create id client target transport now sid m).2, [])
  | CallAttach sid id =>
      match Attach sid id m with
      | (None, m) =>
          (with_manager s m, [])
      | (Some _, _) => (s, [])
      end
  | CallConnected sid =>
      (s,
       match Connected_start sid now m with
       | inl _ => []
       | inr rec => [WriteStart sid now rec]
       end)
  | CallInput sid n => (with_manager s (Input sid n now m), [])
  | CallOutput sid n => (with_manager s (Output sid n m), [])
  | CallEnd sid reason by_ =>
      let '(finish, m) := End_ sid reason by_ m in
      (with_manager s m, if finish then [FinishNext sid detached] else [])
  | CallAbort sid reason => (with_manager s (Abort_ sid reason m), [FinishNext sid detached])
  | CallFinish sid x => (s, [FinishNext sid x])
  | CallSweep generation authorize =>
      let '(endings, m) := Sweep now generation authorize m in
      (with_manager s m, (λ '(sid, reason), EndNext sid reason) <$> endings)
  | CallShutdown => (s, (λ e, EndNext (ID e) "shutdown") <$> List_ m)
  | CallDenied id client target reason => (s, [WriteDenied (Denied id client target reason now)])
  | CallDeniedAttach sid id client reason =>
      (s, match DeniedAttach sid id client reason now m with
          | None => []
          | Some rec => [WriteDenied rec]
          end)
  end.

(** What the callers keep to: an ID is minted once, and a reason is given. *)
Definition call_ok (c : call) (s : machine) : Prop :=
  match c with
  | CallCreate _ _ _ _ sid => heap (manager s) !! sid = None
  | CallEnd _ reason _ | CallAbort _ reason => reason ≠ ""
  | _ => True
  end.

Definition with_activities (s : machine) (l : list (list activity)) : machine :=
  mkMachine (manager s) l (audit_log s) (end_attempts s) (shells s).

(** Any call may come in, and any call under way go on, at any time. *)
Inductive step `{MapRange} : machine → machine → Prop :=
| step_call c now s s' new :
    call_ok c s → run_call c now s = (s', new) →
    step s (with_activities s' (activities s ++ [new]))
| step_activity before a rest after w now s s' new :
    activities s = (before ++ (a :: rest) :: after)%list →
    run_activity a w now s = (s', new) →
    step s (with_activities s' (before ++ (new ++ rest)%list :: after)).

Definition init (lim : Limits) (generation : option Z) : machine :=
  mkMachine (NewManager lim generation) [] [] [] [].

(** * How a session evolves *)

(** What every section keeps of a session: who and what it is; an ended one
    stays as it ended; an attached one stays attached; and the first reason
    given stays, unless the shell exited on its own. *)
Record evolves (e e' : entry) : Prop := {
  ev_id : ID e' = ID e;
  ev_owner : e_Owner e' = e_Owner e;
  ev_target : e_Target e' = e_Target e;
  ev_identity : identity e' = identity e;
  ev_attached : attached e = true → attached e' = true;
  ev_pending : e_State e ≠ StatePending → e_State e' ≠ StatePending;
  ev_ended : e_State e = StateEnded →
    e_State e' = StateEnded ∧ Reason e' = Reason e ∧ EndedBy e' = EndedBy e ∧
    e_Exit e' = e_Exit e ∧ EndedAt e' = EndedAt e ∧ ConnectedAt e' = ConnectedAt e;
  ev_reason : Reason e ≠ "" → Reason e' = Reason e ∨
    e_State e' = StateEnded ∧ Reason e' = "exited" ∧
      ∃ x, e_Exit e' = Some x ∧ exit_Outcome x = OutcomeExited;
}.

(** What a section other than Create does to the manager. *)
Record quiet (m m' : Manager) : Prop := {
  qt_limits : limits m' = limits m;
  qt_listed sid : sid ∈ listed m' → sid ∈ listed m;
  qt_dom sid : heap m !! sid = None → heap m' !! sid = None;
  qt_heap sid e : heap m !! sid = Some e → ∃ e', heap m' !! sid = Some e' ∧ evolves e e';
}.

(** * Facts *)

#[global] Instance evolves_preorder : PreOrder evolves.
Proof.
  split.
  - intros e. constructor; auto 10.
  - intros e1 e2 e3 [] []. constructor; try congruence; auto.
    + intros H. destruct (ev_ended0 H) as (H2 & ? & ? & ? & ? & ?).
      destruct (ev_ended1 H2) as (? & ? & ? & ? & ? & ?). split_and!; congruence.
    + intros H. destruct (ev_reason0 H) as [H1|(H1 & H2 & x & H3 & H4)].
      * rewrite <- H1 in H |- *. auto.
      * right. destruct (ev_ended1 H1) as (? & ? & ? & ? & ? & ?).
        split_and!; [done|congruence|]. exists x. split; congruence.
Qed.

#[global] Instance quiet_preorder : PreOrder quiet.
Proof.
  split.
  - intros m. constructor; auto. intros sid e He. exists e. split; [done|reflexivity].
  - intros m1 m2 m3 [] []. constructor; [congruence|auto|auto|].
    intros sid e He. destruct (qt_heap0 sid e He) as (e2 & He2 & H1).
    destruct (qt_heap1 sid e2 He2) as (e3 & He3 & H2). exists e3. split; [done|by transitivity e2].
Qed.

Lemma lookup_session_Some m sid e :
  lookup_session m sid = Some e ↔ heap m !! sid = Some e ∧ sid ∈ listed m.
Proof. unfold lookup_session, sessions. by rewrite map_lookup_filter_Some. Qed.

Lemma quiet_set_entry m sid e e' :
  heap m !! sid = Some e → evolves e e' → quiet m (set_entry m sid e').
Proof.
  intros He Hev. constructor; simpl; [done|done| |].
  - intros x Hx. rewrite lookup_insert_ne; [done|]. intros <-. congruence.
  - intros x f Hf. destruct (decide (sid = x)) as [<-|].
    + exists e'. rewrite lookup_insert_eq. split; [done|]. congruence.
    + exists f. rewrite lookup_insert_ne by done. split; [done|reflexivity].
Qed.

Lemma quiet_endWrites m n : quiet m (set_endWrites m n).
Proof. constructor; simpl; auto. intros sid e He. exists e. split; [done|reflexivity]. Qed.

Lemma cancelled_evolves e : evolves e (cancelled e).
Proof. constructor; simpl; auto 10. Qed.

Lemma Attach_quiet sid id m : quiet m (Attach sid id m).2.
Proof.
  unfold Attach. destruct (lookup_session m sid) as [e|] eqn:E; [|reflexivity].
  apply lookup_session_Some in E as [E _]. repeat (case_match; try reflexivity). simpl.
  apply (quiet_set_entry _ _ e); [done|]. constructor; simpl; auto 10.
Qed.

Lemma Connected_written_quiet sid now later m : quiet m (Connected_written sid now later m).2.
Proof.
  unfold Connected_written. destruct (heap m !! sid) as [e|] eqn:E; [|reflexivity].
  case_bool_decide as Hp; [|reflexivity]. simpl.
  apply (quiet_set_entry _ _ e); [done|]. constructor; simpl; auto; congruence.
Qed.

Lemma Input_quiet sid n now m : quiet m (Input sid n now m).
Proof.
  unfold Input. destruct (lookup_session m sid) as [e|] eqn:E; [|reflexivity].
  apply lookup_session_Some in E as [E _]. apply (quiet_set_entry _ _ e); [done|].
  constructor; simpl; auto 10.
Qed.

Lemma Output_quiet sid n m : quiet m (Output sid n m).
Proof.
  unfold Output. destruct (lookup_session m sid) as [e|] eqn:E; [|reflexivity].
  apply lookup_session_Some in E as [E _]. apply (quiet_set_entry _ _ e); [done|].
  constructor; simpl; auto 10.
Qed.

Lemma with_reason_evolves e reason o :
  e_State e ≠ StateEnded → Reason e = "" → evolves e (with_reason e reason o).
Proof. intros H1 H2. constructor; simpl; auto; congruence. Qed.

Lemma End_quiet sid reason by_ m : quiet m (End_ sid reason by_ m).2.
Proof.
  unfold End_. destruct (lookup_session m sid) as [e|] eqn:E; [|reflexivity].
  apply lookup_session_Some in E as [E _].
  case_bool_decide as Hs; [reflexivity|]. destruct (is_empty (Reason e)) eqn:Hr; [|reflexivity].
  apply is_empty_spec in Hr. simpl. pose proof (with_reason_evolves e reason) as Hev.
  case_match; simpl; (eapply quiet_set_entry; [done|]); [|by apply Hev].
  etransitivity; [by apply Hev|]. apply cancelled_evolves.
Qed.

Lemma Abort_quiet sid reason m : quiet m (Abort_ sid reason m).
Proof.
  unfold Abort_. destruct (lookup_session m sid) as [e|] eqn:E; [|reflexivity].
  apply lookup_session_Some in E as [E _].
  case_bool_decide as Hs; [|reflexivity]. destruct (is_empty (Reason e)) eqn:Hr; [|reflexivity].
  apply is_empty_spec in Hr. eapply quiet_set_entry; [done|]. by apply with_reason_evolves.
Qed.

(** The entry Finish leaves. *)
Definition finished (e : entry) (x : Exit) (now : Z) : entry :=
  let e := with_ended e now x in
  cancelled
    (if bool_decide (exit_Outcome x = OutcomeExited) then with_reason e "exited" None
     else if is_empty (Reason e) then with_reason e "exited" (EndedBy e) else e).

Lemma finished_fields e x now :
  e_State (finished e x now) = StateEnded ∧ ID (finished e x now) = ID e ∧
  e_Exit (finished e x now) = Some x ∧ attached (finished e x now) = attached e.
Proof. unfold finished. by repeat case_match. Qed.

Lemma finished_evolves e x now : e_State e ≠ StateEnded → evolves e (finished e x now).
Proof.
  intros Hs. destruct (finished_fields e x now) as (F1 & F2 & F3 & F4).
  constructor; try congruence; try (unfold finished; by repeat case_match).
  intros Hr. destruct (decide (exit_Outcome x = OutcomeExited)) as [Hx|Hx].
  - right. split_and!; [done| |by exists x]. unfold finished. by rewrite bool_decide_eq_true_2.
  - left. unfold finished. rewrite bool_decide_eq_false_2 by done. simpl.
    destruct (is_empty (Reason e)) eqn:E; [by apply is_empty_spec in E|done].
Qed.

Lemma Finish_unfold sid x now m e :
  lookup_session m sid = Some e → e_State e ≠ StateEnded →
  Finish sid x now m =
    if bool_decide (e_State e = StateConnected) then
      (Some (record now "exec.end" (finished e x now)),
       set_endWrites (set_entry m sid (finished e x now)) (endWrites m + 1))
    else (None, set_entry m sid (finished e x now)).
Proof. intros H1 H2. unfold Finish. rewrite H1, (bool_decide_eq_false_2 (_ = StateEnded)) by done. done. Qed.

Lemma Finish_quiet sid x now m : quiet m (Finish sid x now m).2.
Proof.
  destruct (lookup_session m sid) as [e|] eqn:E; [|unfold Finish; by rewrite E].
  destruct (decide (e_State e = StateEnded)) as [Hs|Hs].
  { unfold Finish. by rewrite E, bool_decide_eq_true_2. }
  rewrite (Finish_unfold _ _ _ _ _ E Hs). apply lookup_session_Some in E as [E _].
  assert (quiet m (set_entry m sid (finished e x now)))
    by (eapply quiet_set_entry; [done|by apply finished_evolves]).
  case_match; [|done]. etransitivity; [done|]. apply quiet_endWrites.
Qed.

Lemma Sweep_quiet `{MapRange} now g f m : quiet m (Sweep now g f m).2.
Proof.
  constructor; simpl; auto.
  - set_solver.
  - intros sid e He. exists e. split; [done|reflexivity].
Qed.

(** Sweep leaves every session it unlists ended. *)
Lemma Sweep_unlists `{MapRange} now g f m sid e :
  heap m !! sid = Some e → sid ∈ listed m → e_State e ≠ StateEnded →
  sid ∈ listed (Sweep now g f m).2.
Proof.
  intros He Hl Hs. simpl. apply elem_of_difference. split; [done|].
  rewrite elem_of_list_to_set. intros (((sid' & e') & v) & Hin & Hv)%list_elem_of_omap.
  apply list_elem_of_fmap in Hin as ([sid2 e2] & Heq & Hin). apply elem_of_range in Hin.
  simplify_eq. destruct (sweep_one _ _ _ e2) eqn:Ev; simplify_eq.
  apply map_lookup_filter_Some in Hin as [Hin _]. rewrite He in Hin. simplify_eq.
  unfold sweep_one in Ev. destruct (e_State e2); [|by repeat case_match|done].
  by repeat case_match.
Qed.

(** ** Steps *)

Lemma run_activity_quiet `{MapRange} a w now s :
  quiet (manager s) (manager (run_activity a w now s).1).
Proof.
  destruct a; simpl; unfold end_written; try (by destruct w); try reflexivity.
  - pose proof (Connected_written_quiet sid now0 now (manager s)) as Hq.
    destruct (Connected_written _ _ _ _) as [[] m]; exact Hq.
  - apply Abort_quiet.
  - pose proof (Finish_quiet sid x now (manager s)) as Hq.
    destruct (Finish _ _ _ _) as [[] m]; exact Hq.
  - apply quiet_endWrites.
  - pose proof (End_quiet sid reason None (manager s)) as Hq.
    destruct (End_ _ _ _ _) as [b m]. exact Hq.
  - apply quiet_endWrites.
  - destruct (lookup_session (manager s) sid); reflexivity.
Qed.

(** A call leaves the manager quiet, unless it creates a session. *)
Lemma run_call_quiet `{MapRange} c now s :
  (∃ id client target transport sid, c = CallCreate id client target transport sid) ∨
  quiet (manager s) (manager (run_call c now s).1).
Proof.
  destruct c; simpl; [left; eauto 10|right..].
  - pose proof (Attach_quiet sid id (manager s)) as Hq.
    destruct (Attach _ _ _) as [[|] m]; [reflexivity|exact Hq].
  - reflexivity.
  - apply Input_quiet.
  - apply Output_quiet.
  - pose proof (End_quiet sid reason by_ (manager s)) as Hq.
    destruct (End_ _ _ _ _) as [b m]. exact Hq.
  - apply Abort_quiet.
  - reflexivity.
  - exact (Sweep_quiet now generation authorize (manager s)).
  - reflexivity.
  - reflexivity.
  - reflexivity.
Qed.

(** Create adds a pending session under its new ID, or nothing. *)
Lemma Create_cases id client target transport now sid m :
  (Create id client target transport now sid m).2 = m ∨
  ∃ e, Create id client target transport now sid m =
    (inr e, mkManager (limits m) (<[sid := e]> (heap m)) ({[sid]} ∪ listed m)
       (lastGeneration m) (endWrites m)) ∧
    ID e = sid ∧ e_State e = StatePending ∧ attached e = false ∧ Reason e = "" ∧
    e_Owner e = OwnerOf id ∧
    size (filter (λ '(_, e), is_live e = true) (sessions m)) < MaxSessions (limits m) ∧
    size (filter (λ '(_, e), Owner_Is (e_Owner e) id = true)
      (filter (λ '(_, e), is_live e = true) (sessions m))) < MaxPerIdentity (limits m).
Proof.
  unfold Create. cbv zeta. destruct (Nat.leb_spec (MaxPerIdentity (limits m))
    (size (filter (λ '(_, e), Owner_Is (e_Owner e) id = true)
      (filter (λ '(_, e), is_live e = true) (sessions m))))); [by left|].
  destruct (Nat.leb_spec (MaxSessions (limits m))
    (size (filter (λ '(_, e), is_live e = true) (sessions m)))); [by left|].
  right. eexists. split; [reflexivity|]. done.
Qed.

(** A step creates a session under an unused ID, or leaves the manager quiet. *)
Lemma step_quiet `{MapRange} s s' :
  step s s' →
  (∃ id client target transport now sid, heap (manager s) !! sid = None ∧
    manager s' = (Create id client target transport now sid (manager s)).2) ∨
  quiet (manager s) (manager s').
Proof.
  intros [c now s0 s1 new Hok Hrun|before a rest after w now s0 s1 new Ha Hrun]; simpl.
  - destruct (run_call_quiet c now s0) as [(id & client & target & transport & sid & ->)|Hq].
    + left. injection Hrun as <- _. by eexists id, client, target, transport, now, sid.
    + right. by rewrite Hrun in Hq.
  - right. pose proof (run_activity_quiet a w now s0) as Hq. by rewrite Hrun in Hq.
Qed.

(** A session, whatever steps are taken, is still there and has evolved. *)
Lemma step_evolves `{MapRange} s s' sid e :
  step s s' → heap (manager s) !! sid = Some e →
  ∃ e', heap (manager s') !! sid = Some e' ∧ evolves e e'.
Proof.
  intros Hstep He.
  destruct (step_quiet s s' Hstep) as [(id & client & target & tr & now & sid' & Hnew & ->)|Hq];
    [|by apply Hq].
  exists e. split; [|reflexivity].
  destruct (Create_cases id client target tr now sid' (manager s)) as [->|(e' & -> & _)]; [done|].
  simpl. by rewrite lookup_insert_ne by congruence.
Qed.

(** ** Capacity *)

(** The live sessions, and those of one owner. *)
Definition live_ids (m : Manager) : gset string :=
  dom (filter (λ '(_, e), is_live e = true) (sessions m)).

Definition owned_ids (m : Manager) (id : option Identity) : gset string :=
  dom (filter (λ '(_, e), Owner_Is (e_Owner e) id = true)
    (filter (λ '(_, e), is_live e = true) (sessions m))).

Lemma elem_of_live m sid :
  sid ∈ live_ids m ↔ ∃ e, heap m !! sid = Some e ∧ sid ∈ listed m ∧ e_State e ≠ StateEnded.
Proof.
  unfold live_ids, sessions. rewrite elem_of_dom. unfold is_Some.
  setoid_rewrite map_lookup_filter_Some. setoid_rewrite map_lookup_filter_Some.
  unfold is_live. setoid_rewrite bool_decide_eq_true. naive_solver.
Qed.

Lemma elem_of_owned m id sid :
  sid ∈ owned_ids m id ↔ ∃ e, heap m !! sid = Some e ∧ sid ∈ listed m ∧ e_State e ≠ StateEnded ∧
    Owner_Is (e_Owner e) id = true.
Proof.
  unfold owned_ids, sessions. rewrite elem_of_dom. unfold is_Some.
  setoid_rewrite map_lookup_filter_Some. setoid_rewrite map_lookup_filter_Some.
  setoid_rewrite map_lookup_filter_Some.
  unfold is_live. setoid_rewrite bool_decide_eq_true. naive_solver.
Qed.

(** An identity that is someone: Create counts nothing for a nil one, whose
    owner is the empty one. *)
Definition someone (id : Identity) : Prop := Subject id ≠ "" ∨ Provider id ≠ "".

Record capacity_ok (m : Manager) : Prop := {
  cap_sessions : size (live_ids m) ≤ MaxSessions (limits m);
  cap_identity id : someone id → size (owned_ids m (Some id)) ≤ MaxPerIdentity (limits m);
}.

Lemma quiet_live m m' sid : quiet m m' → sid ∈ live_ids m' → sid ∈ live_ids m.
Proof.
  intros Hq. rewrite !elem_of_live. intros (e' & He' & Hl & Hs).
  destruct (heap m !! sid) as [e|] eqn:He.
  - destruct (qt_heap _ _ Hq sid e He) as (e2 & He2 & Hev). simplify_map_eq.
    exists e. split_and!; [done|by apply (qt_listed _ _ Hq)|].
    intros Hend. by destruct (ev_ended _ _ Hev Hend).
  - rewrite (qt_dom _ _ Hq sid He) in He'. done.
Qed.

Lemma quiet_owned m m' id sid : quiet m m' → sid ∈ owned_ids m' id → sid ∈ owned_ids m id.
Proof.
  intros Hq. rewrite !elem_of_owned. intros (e' & He' & Hl & Hs & Ho).
  destruct (heap m !! sid) as [e|] eqn:He.
  - destruct (qt_heap _ _ Hq sid e He) as (e2 & He2 & Hev). simplify_map_eq.
    exists e. split_and!; [done|by apply (qt_listed _ _ Hq)| |].
    + intros Hend. by destruct (ev_ended _ _ Hev Hend).
    + by rewrite <- (ev_owner _ _ Hev).
  - rewrite (qt_dom _ _ Hq sid He) in He'. done.
Qed.

Lemma quiet_capacity m m' : quiet m m' → capacity_ok m → capacity_ok m'.
Proof.
  intros Hq [H1 H2]. constructor; rewrite (qt_limits _ _ Hq).
  - etransitivity; [|exact H1]. apply subseteq_size. intros sid. by apply quiet_live.
  - intros id Hid. etransitivity; [|by apply H2]. apply subseteq_size.
    intros sid. by apply quiet_owned.
Qed.

Lemma add_size (X Y : gset string) sid n : X ⊆ {[sid]} ∪ Y → size Y < n → size X ≤ n.
Proof.
  intros Hsub Hlt. apply subseteq_size in Hsub. rewrite size_union_alt, size_singleton in Hsub.
  assert (size (Y ∖ {[sid]}) ≤ size Y) by (apply subseteq_size; set_solver). lia.
Qed.

Lemma Owner_Is_same o1 (id' : option Identity) id :
  Owner_Is (OwnerOf id') (Some id) = true → someone id →
  Owner_Is o1 (Some id) = Owner_Is o1 id'.
Proof.
  intros H Hs. unfold Owner_Is in *. apply andb_true_iff in H as [H1%bool_decide_eq_true H2%bool_decide_eq_true].
  destruct id' as [id'|]; simpl in *; [by rewrite H1, H2|]. by destruct Hs.
Qed.

Lemma Create_capacity id client target transport now sid m :
  heap m !! sid = None → capacity_ok m →
  capacity_ok (Create id client target transport now sid m).2.
Proof.
  intros Hfresh [H1 H2].
  destruct (Create_cases id client target transport now sid m)
    as [->|(e & -> & Hid & Hst & _ & _ & Ho & Hlive & Hmine)]; [done|]. simpl.
  assert (∀ x f, x ≠ sid → <[sid:=e]> (heap m) !! x = Some f → heap m !! x = Some f) as Hold
    by (intros x f Hx; by rewrite lookup_insert_ne by congruence).
  rewrite <- size_dom in Hlive, Hmine. fold (live_ids m) in Hlive. fold (owned_ids m id) in Hmine.
  constructor; simpl.
  - eapply (add_size _ (live_ids m) sid); [|done]. intros x. rewrite elem_of_union, !elem_of_live.
    simpl. intros (f & Hf & Hl & Hs). destruct (decide (x = sid)) as [->|Hne]; [left; set_solver|right].
    exists f. split_and!; [by apply Hold|set_solver|done].
  - intros id0 Hid0. destruct (Owner_Is (OwnerOf id) (Some id0)) eqn:Eo.
    + eapply (add_size _ (owned_ids m id) sid); [|done]. intros x.
      rewrite elem_of_union, !elem_of_owned. simpl.
      intros (f & Hf & Hl & Hs & Hof). destruct (decide (x = sid)) as [->|Hne]; [left; set_solver|right].
      exists f. split_and!; [by apply Hold|set_solver|done|]. by rewrite <- (Owner_Is_same _ id id0).
    + etransitivity; [|by apply (H2 id0)]. apply subseteq_size. intros x.
      rewrite !elem_of_owned. simpl. intros (f & Hf & Hl & Hs & Hof).
      destruct (decide (x = sid)) as [->|Hne].
      * rewrite lookup_insert_eq in Hf. injection Hf as <-.
        change (Owner_Is (e_Owner e) (Some id0) = true) in Hof. congruence.
      * exists f. split_and!; [by apply Hold|set_solver|done..].
Qed.

Lemma step_capacity `{MapRange} s s' :
  step s s' → capacity_ok (manager s) → capacity_ok (manager s').
Proof.
  intros Hstep Hc.
  destruct (step_quiet s s' Hstep) as [(id & client & target & tr & now & sid & Hnew & ->)|Hq].
  - by apply Create_capacity.
  - by eapply quiet_capacity.
Qed.

(** ** Every start record is paired *)

(** The start record of a session is in the log. *)
Definition started (s : machine) (sid : string) : Prop :=
  ∃ rec, rec ∈ audit_log s ∧ r_Event rec = "exec.start" ∧ r_Session rec = sid.

Definition connected (m : Manager) (sid : string) : Prop :=
  ∃ e, heap m !! sid = Some e ∧ e_State e = StateConnected.

(** A call that will give the log the session's end record, or finish it. *)
Definition owing (sid : string) (a : activity) : Prop :=
  match a with
  | StartWritten x _ | WriteEnd x _ | WriteEndCounted x _ => x = sid
  | _ => False
  end.

(** What Shutdown counts. *)
Definition counted (a : activity) : Z :=
  match a with
  | WriteEndCounted _ _ | EndWriteDone | RecordLate _ _ | AwaitLanded _ _ _ | Crashed => 1
  | _ => 0
  end.

Definition count_writes (l : list activity) : Z := foldr (λ a n, (counted a + n)%Z) 0%Z l.

Definition held (s : machine) (sid : string) : Prop :=
  ∃ e, heap (manager s) !! sid = Some e ∧ attached e = true.

Definition act_ok (s : machine) (a : activity) : Prop :=
  match a with
  | WriteStart sid _ rec => held s sid ∧ r_Event rec = "exec.start" ∧ r_Session rec = sid
  | StartWritten sid _ => held s sid ∧ started s sid
  | WriteEnd _ rec | WriteEndCounted _ rec => r_Event rec = "exec.end"
  | WriteDenied rec => r_Event rec = "exec.denied"
  | AbortLate sid start | RecordLate sid start =>
      r_Event start = "exec.start" ∧ r_Session start = sid
  | AwaitLanded sid start rec =>
      (r_Event start = "exec.start" ∧ r_Session start = sid) ∧ r_Event rec = "exec.end"
  | _ => True
  end.

Definition paired (s : machine) (l : list activity) (sid : string) : Prop :=
  connected (manager s) sid ∨ (∃ a, a ∈ l ∧ owing sid a) ∨ sid ∈ end_attempts s.

(** The machine's invariant, the activities of every call together. *)
Record exec_ok (s : machine) (l : list activity) : Prop := {
  eo_id sid e : heap (manager s) !! sid = Some e → ID e = sid;
  eo_listed sid e : heap (manager s) !! sid = Some e → e_State e ≠ StateEnded →
    sid ∈ listed (manager s);
  eo_connected sid e : heap (manager s) !! sid = Some e → e_State e = StateConnected →
    attached e = true ∧ started s sid;
  eo_acts a : a ∈ l → act_ok s a;
  eo_paired sid : started s sid → paired s l sid;
  eo_shells sid : sid ∈ shells s → started s sid;
  eo_count : endWrites (manager s) = count_writes l;
}.

#[global] Instance exec_ok_proper s : Proper ((≡ₚ) ==> iff) (exec_ok s).
Proof.
  assert (∀ l k, l ≡ₚ k → exec_ok s l → exec_ok s k) as H.
  { intros l k Hp []. constructor; auto.
    - intros a. rewrite <- Hp. auto.
    - intros sid Hs. destruct (eo_paired0 sid Hs) as [|[(a & Ha & ?)|]]; [by left| |by right; right].
      right; left. exists a. by rewrite <- Hp.
    - rewrite eo_count0. clear -Hp. induction Hp; simpl; lia. }
  intros l k Hp. split; apply H; [done|by symmetry].
Qed.

(** What a step must do to keep it: [old] is what the step takes away of the
    activities, [new] what it adds. *)
Record keeps (s s' : machine) (old new : list activity) : Prop := {
  kp_id sid e' : heap (manager s') !! sid = Some e' →
    (∃ e, heap (manager s) !! sid = Some e ∧ evolves e e') ∨
    (heap (manager s) !! sid = None ∧ ID e' = sid ∧ e_State e' = StatePending);
  kp_listed sid e' : heap (manager s') !! sid = Some e' → e_State e' ≠ StateEnded →
    sid ∈ listed (manager s) → sid ∈ listed (manager s');
  kp_new_listed sid : heap (manager s) !! sid = None → is_Some (heap (manager s') !! sid) →
    sid ∈ listed (manager s');
  kp_held sid e : heap (manager s) !! sid = Some e → ∃ e', heap (manager s') !! sid = Some e' ∧
    (attached e = true → attached e' = true);
  kp_connected sid e' : heap (manager s') !! sid = Some e' → e_State e' = StateConnected →
    connected (manager s) sid ∨ attached e' = true ∧ started s' sid;
  kp_log rec : rec ∈ audit_log s → rec ∈ audit_log s';
  kp_acts a : a ∈ new → act_ok s' a;
  kp_started sid : started s' sid → started s sid ∨ ∃ a, a ∈ new ∧ owing sid a;
  kp_paired sid : connected (manager s) sid ∨ (∃ a, a ∈ old ∧ owing sid a) →
    paired s' new sid;
  kp_attempts sid : sid ∈ end_attempts s → sid ∈ end_attempts s';
  kp_shells sid : sid ∈ shells s' → sid ∈ shells s ∨ started s' sid;
  kp_count : (endWrites (manager s') + count_writes old = endWrites (manager s) + count_writes new)%Z;
}.

Lemma count_writes_app l k : count_writes (l ++ k) = (count_writes l + count_writes k)%Z.
Proof. induction l as [|a l IH]; simpl; lia. Qed.

Lemma keeps_started s s' old new sid : keeps s s' old new → started s sid → started s' sid.
Proof. intros Hk (rec & Hr & ?). exists rec. split; [by apply (kp_log _ _ _ _ Hk)|done]. Qed.

Lemma keeps_act_ok s s' old new a : keeps s s' old new → act_ok s a → act_ok s' a.
Proof.
  intros Hk. assert (∀ sid, held s sid → held s' sid) as Hheld.
  { intros sid (e & He & Ha). destruct (kp_held _ _ _ _ Hk sid e He) as (e' & ? & ?).
    exists e'. auto. }
  pose proof (keeps_started s s' old new) as Hst.
  destruct a; simpl; naive_solver.
Qed.

Lemma keeps_ok s s' old new l : keeps s s' old new → exec_ok s (old ++ l) → exec_ok s' (new ++ l).
Proof.
  intros Hk Hok. constructor.
  - intros sid e' He'. destruct (kp_id _ _ _ _ Hk sid e' He') as [(e & He & Hev)|(_ & ? & _)]; [|done].
    rewrite (ev_id _ _ Hev). by apply (eo_id _ _ Hok).
  - intros sid e' He' Hs. destruct (kp_id _ _ _ _ Hk sid e' He') as [(e & He & Hev)|(Hn & _)].
    + apply (kp_listed _ _ _ _ Hk sid e'); [done..|]. apply (eo_listed _ _ Hok sid e); [done|].
      intros Hend. by destruct (ev_ended _ _ Hev Hend).
    + by apply (kp_new_listed _ _ _ _ Hk sid).
  - intros sid e' He' Hs. destruct (kp_connected _ _ _ _ Hk sid e' He' Hs) as [(e & He & Hc)|[??]]; [|done].
    destruct (eo_connected _ _ Hok sid e He Hc) as [Ha Hst].
    destruct (kp_held _ _ _ _ Hk sid e He) as (e2 & He2 & Ha2). simplify_map_eq.
    split; [by apply Ha2|by eapply keeps_started].
  - intros a [Ha|Ha]%elem_of_app; [by apply (kp_acts _ _ _ _ Hk)|].
    eapply keeps_act_ok; [done|]. apply (eo_acts _ _ Hok). apply elem_of_app. by right.
  - intros sid Hst. assert (paired s' new sid → paired s' (new ++ l) sid) as Hw.
    { intros [|[(a & ? & ?)|]]; [by left| |by right; right]. right; left. exists a. set_solver. }
    destruct (kp_started _ _ _ _ Hk sid Hst) as [Hst0|(a & Ha & Ho)]; [|apply Hw; right; left; eauto].
    destruct (eo_paired _ _ Hok sid Hst0) as [Hc|[(a & Ha & Ho)|Ha]].
    + apply Hw, (kp_paired _ _ _ _ Hk). by left.
    + apply elem_of_app in Ha as [Ha|Ha].
      * apply Hw, (kp_paired _ _ _ _ Hk). right. eauto.
      * right; left. exists a. set_solver.
    + right; right. by apply (kp_attempts _ _ _ _ Hk).
  - intros sid Hs. destruct (kp_shells _ _ _ _ Hk sid Hs); [|done].
    eapply keeps_started; [done|]. by apply (eo_shells _ _ Hok).
  - pose proof (eo_count _ _ Hok) as Hc. pose proof (kp_count _ _ _ _ Hk).
    rewrite count_writes_app in *. lia.
Qed.

(** Activities that owe nothing, count nothing and hold nothing. *)
Definition plain (l : list activity) : Prop :=
  Forall (λ a, (∀ sid, ¬ owing sid a) ∧ counted a = 0%Z ∧ ∀ s, act_ok s a) l.

Lemma plain_count l : plain l → count_writes l = 0%Z.
Proof. induction 1 as [|a l (_ & Hc & _) _ IH]; simpl; [done|]. rewrite Hc. lia. Qed.

Lemma plain_ok s l a : plain l → a ∈ l → act_ok s a.
Proof. unfold plain. rewrite Forall_forall. intros H Ha. by apply H. Qed.

Lemma plain_owing l sid a : plain l → a ∈ l → ¬ owing sid a.
Proof. unfold plain. rewrite Forall_forall. intros H Ha. by apply H. Qed.

(** A manager's step that connects nobody and unlists only ended sessions. *)
Lemma keeps_quiet s m' old new :
  quiet (manager s) m' →
  (∀ sid e', heap m' !! sid = Some e' → e_State e' ≠ StateEnded → sid ∈ listed (manager s) →
     sid ∈ listed m') →
  (∀ sid e', heap m' !! sid = Some e' → e_State e' = StateConnected → connected (manager s) sid) →
  (∀ a, a ∈ new → act_ok (with_manager s m') a) →
  (∀ sid, connected (manager s) sid ∨ (∃ a, a ∈ old ∧ owing sid a) →
     paired (with_manager s m') new sid) →
  (endWrites m' + count_writes old = endWrites (manager s) + count_writes new)%Z →
  keeps s (with_manager s m') old new.
Proof.
  intros Hq Hl Hc Hacts Hp Hn. constructor; simpl; auto.
  - intros sid e' He'. left. destruct (heap (manager s) !! sid) as [e|] eqn:He.
    + destruct (qt_heap _ _ Hq sid e He) as (e2 & ? & ?). simplify_map_eq. eauto.
    + by rewrite (qt_dom _ _ Hq sid He) in He'.
  - intros sid Hn' [e' He']. by rewrite (qt_dom _ _ Hq sid Hn') in He'.
  - intros sid e He. destruct (qt_heap _ _ Hq sid e He) as (e' & ? & Hev). exists e'.
    split; [done|apply Hev].
  - intros sid e' He' Hs. left. by eapply Hc.
Qed.

(** Writing one entry whose state stays as it is. *)
Lemma keeps_set_entry s sid e e' old new :
  heap (manager s) !! sid = Some e → evolves e e' → e_State e' = e_State e →
  plain old → plain new → keeps s (with_manager s (set_entry (manager s) sid e')) old new.
Proof.
  intros He Hev Hs Hold Hnew. apply keeps_quiet.
  - by eapply quiet_set_entry.
  - done.
  - simpl. intros x f [[<- <-]|[_ Hf]]%lookup_insert_Some Hc; [exists e; split; congruence|by exists f].
  - intros a Ha. by eapply plain_ok.
  - intros x [(f & Hf & Hc)|(a & Ha & Ho)]; [|destruct (plain_owing _ _ _ Hold Ha Ho)].
    left. simpl. destruct (decide (sid = x)) as [<-|].
    + exists e'. simpl. rewrite lookup_insert_eq. split; congruence.
    + exists f. simpl. by rewrite lookup_insert_ne.
  - rewrite (plain_count old), (plain_count new) by done. simpl. lia.
Qed.

Lemma keeps_same s old new : plain old → plain new → keeps s s old new.
Proof.
  intros Hold Hnew. destruct s as [m l log att sh].
  apply (keeps_quiet (mkMachine m l log att sh) m); auto.
  - reflexivity.
  - intros sid e' He Hc. by exists e'.
  - intros a Ha. by eapply plain_ok.
  - intros x [Hc|(a & Ha & Ho)]; [by left|destruct (plain_owing _ _ _ Hold Ha Ho)].
  - rewrite (plain_count old), (plain_count new) by done. simpl. lia.
Qed.

Lemma plain_nil : plain [].
Proof. constructor. Qed.

Lemma plain_cons a l :
  (∀ sid, ¬ owing sid a) → counted a = 0%Z → (∀ s, act_ok s a) → plain l → plain (a :: l).
Proof. constructor; auto. Qed.

Ltac plain :=
  repeat (apply plain_cons; [intros ? [] | reflexivity | intros ?; exact I |]); apply plain_nil.

Lemma with_manager_same s : with_manager s (manager s) = s.
Proof. by destruct s. Qed.

(** ** Calls *)

Lemma keeps_Attach s sid id : keeps s (with_manager s (Attach sid id (manager s)).2) [] [].
Proof.
  unfold Attach. destruct (lookup_session (manager s) sid) as [e|] eqn:E.
  2:{ simpl. rewrite with_manager_same. apply keeps_same; plain. }
  apply lookup_session_Some in E as [E _].
  repeat (case_match; [simpl; rewrite with_manager_same; apply keeps_same; plain|]). simpl.
  apply (keeps_set_entry _ _ e); [done| |done|plain..]. constructor; simpl; auto 10.
Qed.

Lemma keeps_End s sid reason by_ old :
  plain old →
  keeps s (with_manager s (End_ sid reason by_ (manager s)).2) old
    (if (End_ sid reason by_ (manager s)).1 then [FinishNext sid detached] else []).
Proof.
  intros Hold. unfold End_. destruct (lookup_session (manager s) sid) as [e|] eqn:E.
  2:{ simpl. rewrite with_manager_same. apply keeps_same; [done|plain]. }
  apply lookup_session_Some in E as [E _].
  destruct (bool_decide (e_State e = StateEnded)) eqn:Hs;
    [simpl; rewrite with_manager_same; apply keeps_same; [done|plain]|].
  destruct (is_empty (Reason e)) eqn:Hr; simpl;
    [|rewrite with_manager_same; apply keeps_same; [done|plain]].
  apply bool_decide_eq_false in Hs. apply is_empty_spec in Hr.
  assert (∀ o, evolves e (with_reason e reason o)) as Hev by (intros o; by apply with_reason_evolves).
  destruct (attached e); simpl.
  - apply (keeps_set_entry _ _ e); [done| |done|done|plain].
    etransitivity; [by apply Hev|apply cancelled_evolves].
  - apply (keeps_set_entry _ _ e); [done|by apply Hev|done|done|plain].
Qed.

Lemma keeps_Abort s sid reason old :
  plain old → keeps s (with_manager s (Abort_ sid reason (manager s))) old [FinishNext sid detached].
Proof.
  intros Hold. unfold Abort_. destruct (lookup_session (manager s) sid) as [e|] eqn:E.
  2:{ rewrite with_manager_same. apply keeps_same; [done|plain]. }
  apply lookup_session_Some in E as [E _].
  destruct (bool_decide (e_State e ≠ StateEnded)) eqn:Hs;
    [|rewrite with_manager_same; apply keeps_same; [done|plain]].
  destruct (is_empty (Reason e)) eqn:Hr; simpl;
    [|rewrite with_manager_same; apply keeps_same; [done|plain]].
  apply bool_decide_eq_true in Hs. apply is_empty_spec in Hr.
  apply (keeps_set_entry _ _ e); [done|by apply with_reason_evolves|done|done|plain].
Qed.

Lemma keeps_Create s id client target transport now sid :
  heap (manager s) !! sid = None →
  keeps s (with_manager s (Create id client target transport now sid (manager s)).2) [] [].
Proof.
  intros Hfresh.
  destruct (Create_cases id client target transport now sid (manager s))
    as [->|(e & -> & Hid & Hst & _)]; [rewrite with_manager_same; apply keeps_same; plain|].
  set (m' := (_, _).2). assert (heap m' = <[sid := e]> (heap (manager s))) as Hh by done.
  assert (listed m' = {[sid]} ∪ listed (manager s)) as Hl by done.
  assert (endWrites m' = endWrites (manager s)) as Hn by done. clearbody m'.
  constructor; cbn [manager with_manager audit_log end_attempts shells]; rewrite ?Hh, ?Hl, ?Hn; auto.
  - intros x f [[<- <-]|[_ Hf]]%lookup_insert_Some; [right; done|left].
    exists f. split; [done|reflexivity].
  - intros x f _ _ Hx. by apply elem_of_union_r.
  - intros x Hx [f Hf]. apply lookup_insert_Some in Hf as [[<- _]|[_ Hf]]; [|congruence].
    apply elem_of_union_l, elem_of_singleton. done.
  - intros x f Hf. exists f. rewrite lookup_insert_ne by congruence. done.
  - intros x f [[<- <-]|[_ Hf]]%lookup_insert_Some Hc; [congruence|left; by exists f].
  - intros a Ha. by apply not_elem_of_nil in Ha.
  - intros x [(f & Hf & Hc)|(a & Ha & _)]; [|by apply not_elem_of_nil in Ha]. left. exists f.
    cbn [manager with_manager]. rewrite Hh, lookup_insert_ne by congruence. done.
Qed.

Lemma keeps_Sweep `{MapRange} s now g f old :
  plain old →
  keeps s (with_manager s (Sweep now g f (manager s)).2) old
    ((λ '(sid, reason), EndNext sid reason) <$> (Sweep now g f (manager s)).1).
Proof.
  intros Hold.
  assert (plain ((λ '(sid, reason), EndNext sid reason) <$> (Sweep now g f (manager s)).1)) as Hnew.
  { apply Forall_forall. intros a ([sid reason] & -> & _)%list_elem_of_fmap.
    split_and!; [intros ? []|done|intros ?; exact I]. }
  apply keeps_quiet.
  - apply Sweep_quiet.
  - intros sid e' He' Hs Hl. by apply (Sweep_unlists now g f (manager s) sid e').
  - intros sid e' He' Hc. by exists e'.
  - intros a Ha. by eapply plain_ok.
  - intros x [Hc|(a & Ha & Ho)]; [by left|destruct (plain_owing _ _ _ Hold Ha Ho)].
  - rewrite (plain_count old), (plain_count _ Hnew) by done. simpl. lia.
Qed.

(** ** Activities *)

(** Writing to the log, nothing else moving. *)
Lemma keeps_log s log' att' old new :
  (∀ rec, rec ∈ audit_log s → rec ∈ log') →
  (∀ sid, sid ∈ end_attempts s → sid ∈ att') →
  let s' := mkMachine (manager s) (activities s) log' att' (shells s) in
  (∀ a, a ∈ new → act_ok s' a) →
  (∀ sid, started s' sid → started s sid ∨ ∃ a, a ∈ new ∧ owing sid a) →
  (∀ sid a, a ∈ old → owing sid a → paired s' new sid) →
  count_writes old = count_writes new →
  keeps s s' old new.
Proof.
  intros Hlog Hatt s' Hacts Hst Hp Hn. constructor; simpl; auto.
  - intros sid e' He'. left. exists e'. split; [done|reflexivity].
  - intros sid Hnone [e He]. congruence.
  - intros sid e He. by exists e.
  - intros sid e' He' Hc. left. by exists e'.
  - intros sid [Hc|(a & Ha & Ho)]; [by left|by eapply Hp].
  - lia.
Qed.

Lemma keeps_WriteStart s sid at_ rec w now `{MapRange} :
  act_ok s (WriteStart sid at_ rec) →
  let '(s', new) := run_activity (WriteStart sid at_ rec) w now s in
  keeps s s' [WriteStart sid at_ rec] new.
Proof.
  intros (Hheld & Hev & Hsid).
  assert (started (mkMachine (manager s) (activities s) (rec :: audit_log s) (end_attempts s)
    (shells s)) sid) as Hst by (exists rec; split_and!; [set_solver|done..]).
  destruct s as [m la log att sh]. destruct w; simpl.
  - apply (keeps_log (mkMachine m la log att sh)); simpl; auto.
    + set_solver.
    + intros a ->%list_elem_of_singleton. split; [exact Hheld|exact Hst].
    + intros x (r & [->|Hr]%elem_of_cons & He & Hx).
      * right. exists (StartWritten sid at_). split; [set_solver|]. simpl. congruence.
      * left. exists r. done.
    + intros x a ->%list_elem_of_singleton. intros [].
  - apply (keeps_log (mkMachine m la log att sh) log att); simpl; auto.
    + intros a [->| ->%list_elem_of_singleton]%elem_of_cons; exact I.
    + intros x a ->%list_elem_of_singleton. intros [].
  - apply (keeps_log (mkMachine m la log att sh) log att); simpl; auto.
    + intros a [->| ->%list_elem_of_singleton]%elem_of_cons; done.
    + intros x a ->%list_elem_of_singleton. intros [].
Qed.

Lemma keeps_end_written s sid rec w old after :
  r_Event rec = "exec.end" → count_writes old = count_writes after → plain [FailClosed] →
  (∀ x a, a ∈ old → owing x a → x = sid) →
  (∀ a x, a ∈ after → act_ok s a ∧ ¬ owing x a ∧ ∀ s', act_ok s' a) →
  let '(s', new) := end_written sid rec w s after in keeps s s' old new.
Proof.
  intros Hev Hn Hplain Hold Hafter.
  assert (∀ log' new, (∀ r, r ∈ audit_log s → r ∈ log') →
    (∀ r, r ∈ log' → r ∈ audit_log s ∨ r = rec) → count_writes new = count_writes after →
    (∀ a, a ∈ new → a = FailClosed ∨ a ∈ after) →
    keeps s (mkMachine (manager s) (activities s) log' (sid :: end_attempts s) (shells s)) old new) as Hk.
  { intros log' new H1 H2 H3 H4. apply keeps_log; auto; simpl.
    - set_solver.
    - intros a Ha. destruct (H4 a Ha) as [->|Hin]; [done|]. by apply (Hafter a sid Hin).
    - intros x (r & Hr & He & Hx). destruct (H2 r Hr) as [?| ->]; [|congruence].
      left. by exists r.
    - intros x a Ha Ho. right; right. rewrite (Hold x a Ha Ho). set_solver.
    - congruence. }
  unfold end_written. destruct w; apply Hk; set_solver.
Qed.

Lemma keeps_StartWritten s l sid at_ w now `{MapRange} :
  exec_ok s (StartWritten sid at_ :: l) →
  let '(s', new) := run_activity (StartWritten sid at_) w now s in
  keeps s s' [StartWritten sid at_] new.
Proof.
  intros Hok. destruct (eo_acts _ _ Hok (StartWritten sid at_)) as [(e & He & Ha) Hst]; [left|].
  simpl. unfold Connected_written. rewrite He. case_bool_decide as Hp.
  - (* the session becomes connected *)
    assert (∀ sh new, (∀ x, x ∈ sh → x ∈ shells s ∨ x = sid) → plain new →
      keeps s (mkMachine (set_entry (manager s) sid (with_connected e at_)) (activities s)
        (audit_log s) (end_attempts s) sh) [StartWritten sid at_] new) as Hk.
    { intros sh new Hsh Hnew. constructor; simpl; auto.
      - intros x f [[<- <-]|[_ Hf]]%lookup_insert_Some; left.
        + exists e. split; [done|]. constructor; simpl; auto; congruence.
        + exists f. split; [done|reflexivity].
      - intros x Hx [f Hf]. apply lookup_insert_Some in Hf as [[<- _]|[_ Hf]]; congruence.
      - intros x f Hf. destruct (decide (sid = x)) as [<-|].
        + eexists. rewrite lookup_insert_eq. split; [done|]. simpl. congruence.
        + exists f. by rewrite lookup_insert_ne.
      - intros x f [[<- <-]|[_ Hf]]%lookup_insert_Some Hc; [right|left; by exists f]. done.
      - intros a Hin. by eapply plain_ok.
      - intros x [(f & Hf & Hc)|(a & Hin%list_elem_of_singleton & Ho)]; left.
        + destruct (decide (sid = x)) as [<-|]; [congruence|]. exists f. simpl.
          by rewrite lookup_insert_ne.
        + subst a. simpl in Ho. subst x. eexists. simpl. by rewrite lookup_insert_eq.
      - intros x Hx. destruct (Hsh x Hx) as [| ->]; [by left|by right].
      - rewrite (plain_count new) by done. lia. }
    destruct (is_empty (Reason e)); apply Hk; try plain; set_solver.
  - (* it ended meanwhile: the end record is written here *)
    rewrite with_manager_same. destruct s as [m la log att sh]. simpl in *.
    apply (keeps_log (mkMachine m la log att sh) log att); auto.
    + intros a ->%list_elem_of_singleton. done.
    + intros x a ->%list_elem_of_singleton Ho. simpl in Ho. subst x. right; left.
      eexists. split; [apply list_elem_of_here|done].
Qed.

Lemma keeps_Finish s l sid x w now `{MapRange} :
  exec_ok s (FinishNext sid x :: l) →
  let '(s', new) := run_activity (FinishNext sid x) w now s in
  keeps s s' [FinishNext sid x] new.
Proof.
  intros Hok. simpl. destruct (lookup_session (manager s) sid) as [e|] eqn:E.
  2:{ unfold Finish. rewrite E. simpl. rewrite with_manager_same. apply keeps_same; plain. }
  destruct (decide (e_State e = StateEnded)) as [Hs|Hs].
  { unfold Finish. rewrite E, bool_decide_eq_true_2 by done. simpl. rewrite with_manager_same.
    apply keeps_same; plain. }
  rewrite (Finish_unfold _ _ _ _ _ E Hs). pose proof E as [He Hl]%lookup_session_Some.
  destruct (finished_fields e x now) as (F1 & F2 & F3 & F4).
  assert (∀ y f, <[sid:=finished e x now]> (heap (manager s)) !! y = Some f →
    e_State f = StateConnected → y ≠ sid ∧ heap (manager s) !! y = Some f) as Hother.
  { intros y f [[<- <-]|[? Hf]]%lookup_insert_Some Hc; [congruence|done]. }
  assert (∀ y, y ≠ sid → connected (manager s) y →
    connected (set_entry (manager s) sid (finished e x now)) y) as Hkeep.
  { intros y Hy (f & Hf & Hc). exists f. simpl. by rewrite lookup_insert_ne. }
  assert (quiet (manager s) (set_entry (manager s) sid (finished e x now))) as Hq
    by (eapply quiet_set_entry; [done|by apply finished_evolves]).
  case_bool_decide as Hc.
  - apply keeps_quiet; simpl; auto.
    + etransitivity; [exact Hq|apply quiet_endWrites].
    + intros y f Hf Hcf. exists f. by destruct (Hother y f Hf Hcf).
    + intros a ->%list_elem_of_singleton. done.
    + intros y [Hcy|(a & Ha%list_elem_of_singleton & Ho)]; [|subst a; done].
      destruct (decide (y = sid)) as [->|Hne]; [|left; by apply Hkeep].
      right; left. eexists. split; [apply list_elem_of_here|done].
    + lia.
  - apply keeps_quiet; simpl; auto.
    + intros y f Hf Hcf. exists f. by destruct (Hother y f Hf Hcf).
    + set_solver.
    + intros y [Hcy|(a & Ha%list_elem_of_singleton & Ho)]; [|subst a; done].
      left. apply Hkeep; [|done]. intros ->. destruct Hcy as (f & Hf & ?). congruence.
Qed.

(** Only the count of end writes moves. *)
Lemma keeps_recount s n old new :
  (∀ sid a, a ∈ old → ¬ owing sid a) → (∀ a, a ∈ new → ∀ m, act_ok (with_manager s m) a) →
  (n + count_writes old = endWrites (manager s) + count_writes new)%Z →
  keeps s (with_manager s (set_endWrites (manager s) n)) old new.
Proof.
  intros Hold Hnew Hn. apply keeps_quiet; auto.
  - apply quiet_endWrites.
  - intros sid e He Hc. by exists e.
  - intros sid [Hc|(a & Ha & Ho)]; [by left|by destruct (Hold sid a)].
Qed.

(** A section that leaves the machine as it is. *)
Lemma keeps_idle s old new :
  (∀ sid a, a ∈ old → ¬ owing sid a) → (∀ a, a ∈ new → act_ok s a) →
  count_writes old = count_writes new → keeps s s old new.
Proof.
  intros Hold Hnew Hn. destruct s as [m la log att sh].
  apply (keeps_log (mkMachine m la log att sh) log att); auto.
  intros sid a Ha Ho. by destruct (Hold sid a).
Qed.

Lemma keeps_AwaitLanded s sid start rec w now `{MapRange} :
  act_ok s (AwaitLanded sid start rec) →
  let '(s', new) := run_activity (AwaitLanded sid start rec) w now s in
  keeps s s' [AwaitLanded sid start rec] new.
Proof.
  intros ((Hev & Hsid) & Hend). destruct w; simpl.
  2,3: apply keeps_idle; [intros x a ->%list_elem_of_singleton []|intros a ->%list_elem_of_singleton; done|done].
  apply keeps_log; simpl; auto.
  - set_solver.
  - intros a ->%list_elem_of_singleton. done.
  - intros x (r & [->|Hr]%elem_of_cons & He & Hx); [right|left; by exists r].
    eexists. split; [apply list_elem_of_here|]. simpl. congruence.
  - intros x a ->%list_elem_of_singleton [].
Qed.

Lemma run_activity_keeps `{MapRange} s l a w now :
  exec_ok s (a :: l) → let '(s', new) := run_activity a w now s in keeps s s' [a] new.
Proof.
  intros Hok. assert (act_ok s a) as Hact by (apply (eo_acts _ _ Hok); left).
  destruct a as [sid at_ rec|sid at_|sid reason|sid x|sid rec|sid rec| | |sid reason|rec|sid start
    |sid start|sid start rec|].
  - by apply keeps_WriteStart.
  - by eapply keeps_StartWritten.
  - apply keeps_Abort. plain.
  - by eapply keeps_Finish.
  - apply keeps_end_written; [done|done|plain| |].
    + intros x a ->%list_elem_of_singleton Ho. by symmetry.
    + intros a x Ha. by apply not_elem_of_nil in Ha.
  - apply keeps_end_written; [done|done|plain| |].
    + intros x a ->%list_elem_of_singleton Ho. by symmetry.
    + intros a x ->%list_elem_of_singleton. split_and!; [done|intros []|done].
  - apply keeps_recount; simpl; [intros x a ->%list_elem_of_singleton []| |lia].
    intros a Ha. by apply not_elem_of_nil in Ha.
  - apply keeps_same; [plain|]. apply Forall_forall. intros a (sid & -> & _)%list_elem_of_fmap.
    split_and!; [intros ? []|done|intros ?; exact I].
  - simpl. destruct (End_ sid reason None (manager s)) as [b m] eqn:E.
    pose proof (keeps_End s sid reason None [EndNext sid reason] ltac:(plain)) as Hk.
    by rewrite E in Hk.
  - destruct w; simpl.
    2,3: apply keeps_idle; [intros x a ->%list_elem_of_singleton []|intros a ->%list_elem_of_singleton; done|done].
    apply keeps_log; simpl; auto.
    + set_solver.
    + intros a Ha. by apply not_elem_of_nil in Ha.
    + intros x (r & [->|Hr]%elem_of_cons & He & Hx); [simpl in Hact; congruence|left; by exists r].
    + intros x a ->%list_elem_of_singleton [].
  - apply keeps_recount; simpl; [intros x a ->%list_elem_of_singleton []| |lia].
    intros a [->| ->%list_elem_of_singleton]%elem_of_cons m; done.
  - simpl. destruct (lookup_session (manager s) sid) as [e|];
      (apply keeps_idle; [intros x a ->%list_elem_of_singleton []|intros a ->%list_elem_of_singleton; done|done]).
  - by apply keeps_AwaitLanded.
  - apply keeps_idle; [intros x a ->%list_elem_of_singleton []|intros a ->%list_elem_of_singleton; done|done].
Qed.

Lemma run_call_keeps `{MapRange} s l c now :
  call_ok c s → exec_ok s l → let '(s', new) := run_call c now s in keeps s s' [] new.
Proof.
  intros Hcall Hok. destruct c as [id client target transport sid|sid id|sid|sid n|sid n
    |sid reason by_|sid reason|sid x|generation authorize| |id client target reason|sid id client reason]; simpl.
  - by apply keeps_Create.
  - pose proof (keeps_Attach s sid id) as Hk. destruct (Attach sid id (manager s)) as [[err|] m];
      [apply keeps_same; plain|done].
  - destruct (Connected_start sid now (manager s)) as [err|rec] eqn:E; [apply keeps_same; plain|].
    unfold Connected_start in E. destruct (lookup_session (manager s) sid) as [e|] eqn:El; [|done].
    destruct (negb (attached e) || _ || _) eqn:Hg; [done|]. injection E as <-.
    apply keeps_idle; [intros x a Ha; by apply not_elem_of_nil in Ha| |done].
    intros a ->%list_elem_of_singleton. apply lookup_session_Some in El as [El _].
    apply orb_false_iff in Hg as [Hg _]. apply orb_false_iff in Hg as [Ha%negb_false_iff _].
    split_and!; [by exists e|done|by apply (eo_id _ _ Hok)].
  - unfold Input. destruct (lookup_session (manager s) sid) as [e|] eqn:E.
    2:{ rewrite with_manager_same. apply keeps_same; plain. }
    apply lookup_session_Some in E as [E _].
    apply (keeps_set_entry _ _ e); [done| |done|plain..]. constructor; simpl; auto 10.
  - unfold Output. destruct (lookup_session (manager s) sid) as [e|] eqn:E.
    2:{ rewrite with_manager_same. apply keeps_same; plain. }
    apply lookup_session_Some in E as [E _].
    apply (keeps_set_entry _ _ e); [done| |done|plain..]. constructor; simpl; auto 10.
  - pose proof (keeps_End s sid reason by_ [] plain_nil) as Hk.
    by destruct (End_ sid reason by_ (manager s)) as [b m].
  - apply keeps_Abort. plain.
  - apply keeps_same; plain.
  - exact (keeps_Sweep s now generation authorize [] plain_nil).
  - apply keeps_same; [plain|]. apply Forall_forall. intros a (e & -> & _)%list_elem_of_fmap.
    split_and!; [intros ? []|done|intros ?; exact I].
  - apply keeps_idle; [intros x a Ha; by apply not_elem_of_nil in Ha| |done].
    intros a ->%list_elem_of_singleton. done.
  - unfold DeniedAttach. destruct (lookup_session (manager s) sid); [|apply keeps_same; plain].
    apply keeps_idle; [intros x a Ha; by apply not_elem_of_nil in Ha| |done].
    intros a ->%list_elem_of_singleton. done.
Qed.

Definition all_activities (s : machine) : list activity := concat (activities s).

Lemma exec_ok_ext s s' l :
  manager s = manager s' → audit_log s = audit_log s' → end_attempts s = end_attempts s' →
  shells s = shells s' → exec_ok s l → exec_ok s' l.
Proof.
  destruct s, s'. simpl. intros -> -> -> ->. intros []. constructor; auto.
Qed.

(** The invariant of a machine with the activities it has. *)
Definition machine_ok (s : machine) : Prop := exec_ok s (all_activities s).

Lemma step_ok `{MapRange} s s' : step s s' → machine_ok s → machine_ok s'.
Proof.
  unfold machine_ok, all_activities.
  intros [c now s0 s1 new Hcall Hrun|before a rest after w now s0 s1 new Ha Hrun] Hok.
  - apply (exec_ok_ext s1); [done..|]. simpl. rewrite concat_app. simpl. rewrite app_nil_r.
    rewrite (Permutation_app_comm (concat _)). pose proof (run_call_keeps s0 _ c now Hcall Hok) as Hk.
    rewrite Hrun in Hk. eapply keeps_ok; [exact Hk|exact Hok].
  - apply (exec_ok_ext s1); [done..|]. simpl. rewrite Ha in Hok.
    rewrite concat_app in Hok |- *. simpl in *.
    assert (concat before ++ a :: rest ++ concat after ≡ₚ
      a :: rest ++ concat before ++ concat after)%list as Hp by solve_Permutation.
    rewrite Hp in Hok. pose proof (run_activity_keeps s0 _ a w now Hok) as Hk. rewrite Hrun in Hk.
    apply (keeps_ok _ _ [a] _ _ Hk) in Hok. eapply exec_ok_proper; [|exact Hok].
    rewrite <- app_assoc. solve_Permutation.
Qed.

Lemma init_ok lim g : machine_ok (init lim g).
Proof.
  constructor; simpl; try done.
  - intros a Ha. by apply not_elem_of_nil in Ha.
  - intros sid (rec & Hr & _). by apply not_elem_of_nil in Hr.
  - intros sid Hs. by apply not_elem_of_nil in Hs.
Qed.

(** * What holds of every run *)

Lemma steps_ok `{MapRange} s s' : rtc step s s' → machine_ok s → machine_ok s'.
Proof. induction 1; eauto using step_ok. Qed.

Lemma steps_evolve `{MapRange} s s' sid e :
  rtc step s s' → heap (manager s) !! sid = Some e →
  ∃ e', heap (manager s') !! sid = Some e' ∧ evolves e e'.
Proof.
  intros Hs. revert e. induction Hs as [s|s s1 s2 Hst _ IH]; intros e He.
  - exists e. split; [done|reflexivity].
  - destruct (step_evolves _ _ _ _ Hst He) as (e1 & He1 & Hev1).
    destruct (IH e1 He1) as (e2 & He2 & Hev2). exists e2. split; [done|]. by etransitivity.
Qed.

Lemma step_limits `{MapRange} s s' : step s s' → limits (manager s') = limits (manager s).
Proof.
  intros Hstep.
  destruct (step_quiet s s' Hstep) as [(id & client & target & tr & now & sid & _ & ->)|Hq]; [|apply Hq].
  by destruct (Create_cases id client target tr now sid (manager s)) as [->|(e' & -> & _)].
Qed.

Lemma steps_capacity `{MapRange} s s' :
  rtc step s s' → capacity_ok (manager s) →
  capacity_ok (manager s') ∧ limits (manager s') = limits (manager s).
Proof.
  induction 1 as [|s s1 s2 Hst _ IH]; [done|]. intros Hc.
  destruct (IH (step_capacity _ _ Hst Hc)) as [? ->]. split; [done|by apply step_limits].
Qed.

Lemma init_capacity lim g : capacity_ok (manager (init lim g)).
Proof.
  assert (∀ sid, sid ∉ live_ids (manager (init lim g))) as Hl.
  { intros sid (e & He & _)%elem_of_live. simpl in He. by rewrite lookup_empty in He. }
  assert (∀ id sid, sid ∉ owned_ids (manager (init lim g)) id) as Ho.
  { intros id sid (e & He & _)%elem_of_owned. simpl in He. by rewrite lookup_empty in He. }
  split; [|intros id _]; (replace (size _) with 0; [lia|]); symmetry; apply size_empty_iff; set_solver.
Qed.

Lemma counted_nonneg a : (0 ≤ counted a)%Z.
Proof. destruct a; simpl; lia. Qed.

Lemma count_writes_nonneg l : (0 ≤ count_writes l)%Z.
Proof. induction l as [|a l IH]; simpl; [lia|]. pose proof (counted_nonneg a). lia. Qed.

Lemma count_writes_elem l a : a ∈ l → (counted a ≤ count_writes l)%Z.
Proof.
  induction 1 as [a l|a b l _ IH]; simpl; [pose proof (count_writes_nonneg l)|pose proof (counted_nonneg b)]; lia.
Qed.

(** A call of Connected past its start record. *)
Definition connecting (s : machine) (sid : string) : Prop :=
  ∃ a, a ∈ all_activities s ∧
    ((∃ now, a = StartWritten sid now) ∨ (∃ rec, a = WriteEnd sid rec)).

Lemma not_settling m :
  settling m = false →
  (endWrites m ≤ 0)%Z ∧
  ∀ sid e, heap m !! sid = Some e → sid ∈ listed m → attached e = true → e_State e = StateEnded.
Proof.
  unfold settling. rewrite orb_false_iff. intros [Hn Hex]. split; [lia|].
  intros sid e He Hl Ha. destruct (decide (e_State e = StateEnded)) as [|Hs]; [done|exfalso].
  apply not_true_iff_false in Hex. apply Hex, existsb_exists. exists (sid, e). split.
  - apply list_elem_of_In, elem_of_map_to_list. unfold sessions. by apply map_lookup_filter_Some.
  - by rewrite Ha, bool_decide_eq_true_2.
Qed.

(** The time-based rules, as Sweep's comment lists them. *)
Inductive overdue (lim : Limits) (now : Z) (e : entry) : string → Prop :=
| od_not_attached :
    e_State e = StatePending → attached e = false →
    (AttachWindow < time_sub now (CreatedAt e))%Z → overdue lim now e "not_attached"
| od_max_duration :
    e_State e = StateConnected →
    (MaxDuration lim < time_sub now (default 0 (ConnectedAt e)))%Z → overdue lim now e "max_duration"
| od_idle_timeout :
    e_State e = StateConnected →
    (time_sub now (default 0 (ConnectedAt e)) ≤ MaxDuration lim)%Z →
    (IdleTimeout lim < time_sub now (lastInput e))%Z → overdue lim now e "idle_timeout".

Definition expired (now : Z) (e : entry) : Prop :=
  e_State e = StateEnded ∧ ∃ ended, EndedAt e = Some ended ∧ (Retention < time_sub now ended)%Z.

Lemma overdue_live lim now e r : overdue lim now e r → e_State e ≠ StateEnded.
Proof. intros []; congruence. Qed.

Lemma sweep_one_spec lim now revoke e :
  match sweep_one lim now revoke e with
  | EndWith r => ∀ r', overdue lim now e r' ↔ r' = r
  | Check => revoke = true ∧ e_State e ≠ StateEnded ∧ ∀ r, ¬ overdue lim now e r
  | Delete => expired now e
  | Keep => ¬ expired now e ∧ (∀ r, ¬ overdue lim now e r) ∧ (revoke = true → e_State e = StateEnded)
  end.
Proof.
  unfold sweep_one, expired. destruct (e_State e) eqn:Es.
  - destruct (attached e) eqn:Ea; simpl.
    + destruct revoke; split_and!; try done; intros; first [by intros []|intros []; congruence|naive_solver].
    + destruct (AttachWindow <? _)%Z eqn:Ew.
      * intros r. split; [intros []; congruence|intros ->; constructor; auto; lia].
      * destruct revoke; split_and!; try done; intros; first [by intros []|intros []; try congruence; lia|naive_solver].
  - destruct (MaxDuration lim <? _)%Z eqn:Em; [|destruct (IdleTimeout lim <? _)%Z eqn:Ei].
    + intros r. split; [intros []; try congruence; lia|intros ->; constructor; auto; lia].
    + intros r. split; [intros []; try congruence; lia|intros ->; constructor; auto; lia].
    + destruct revoke; split_and!; try done; intros; first [by intros []|intros []; try congruence; lia|naive_solver].
  - destruct (EndedAt e) as [d|]; [destruct (Retention <? _)%Z eqn:Er|].
    + split; [done|]. exists d. split; [done|lia].
    + split_and!; auto; [intros (_ & x & [=<-] & ?); lia|]. intros r Ho. by apply overdue_live in Ho.
    + split_and!; auto; [by intros (_ & x & ? & _)|]. intros r Ho. by apply overdue_live in Ho.
Qed.

Lemma sweep_one_ends lim now revoke e r :
  sweep_one lim now revoke e = EndWith r ↔ overdue lim now e r.
Proof.
  pose proof (sweep_one_spec lim now revoke e) as Hs.
  destruct (sweep_one _ _ _ _) as [| |r'|]; split; intros Ho; try done.
  - by destruct Hs as (_ & Hn & _); destruct (Hn r).
  - destruct Hs as [Hend _]. by apply overdue_live in Ho.
  - injection Ho as <-. by apply Hs.
  - apply Hs in Ho. by subst.
  - by destruct Hs as (_ & _ & Hn); destruct (Hn r).
Qed.

Lemma sweep_one_checks lim now revoke e :
  sweep_one lim now revoke e = Check ↔
  revoke = true ∧ e_State e ≠ StateEnded ∧ ∀ r, ¬ overdue lim now e r.
Proof.
  pose proof (sweep_one_spec lim now revoke e) as Hs.
  destruct (sweep_one _ _ _ _) as [| |r'|]; split; intros Ho; try done.
  - destruct Hs as (_ & _ & Hn), Ho as (Hr & Hl & _). by destruct Hl; apply Hn.
  - destruct Hs as [Hend _]. by destruct Ho as (_ & Hl & _).
  - destruct Ho as (_ & _ & Hn). by destruct (Hn r'); apply Hs.
Qed.

Lemma sweep_one_deletes lim now revoke e :
  sweep_one lim now revoke e = Delete ↔ expired now e.
Proof.
  pose proof (sweep_one_spec lim now revoke e) as Hs.
  destruct (sweep_one _ _ _ _) as [| |r'|]; split; intros Ho; try done.
  - by destruct Hs.
  - assert (overdue lim now e r') as Hd by (by apply Hs).
    apply overdue_live in Hd. by destruct Ho.
  - destruct Hs as (_ & Hl & _). by destruct Ho.
Qed.

Definition sweep_generation (generation : option Z)
    (authorize : option (option Identity → Target → bool)) : Z :=
  match generation, authorize with Some g, Some _ => g | _, _ => 0%Z end.

(** What a sweep does to a session is what [sweep_one] says of its entry. *)
Lemma Sweep_one `{MapRange} now generation authorize m sid :
  let revoke := bool_decide (is_Some authorize) &&
    bool_decide (sweep_generation generation authorize ≠ lastGeneration m) in
  let judge e v := lookup_session m sid = Some e ∧ sweep_one (limits m) now revoke e = v in
  (∀ reason, (sid, reason) ∈ (Sweep now generation authorize m).1 ↔
    ∃ e, judge e (EndWith reason) ∨ judge e Check ∧ reason = "revoked" ∧
      ∃ f, authorize = Some f ∧ f (identity e) (e_Target e) = false) ∧
  (∀ e, lookup_session (Sweep now generation authorize m).2 sid = Some e ↔
    lookup_session m sid = Some e ∧ sweep_one (limits m) now revoke e ≠ Delete).
Proof.
  intros revoke judge.
  assert (∀ v e, (sid, e, v) ∈ ((λ '(sid, e), (sid, e, sweep_one (limits m) now revoke e)) <$>
    range (sessions m)) ↔ judge e v) as Hin.
  { intros v e. rewrite list_elem_of_fmap. split.
    - intros ([x y] & [= -> -> ->] & Hx%elem_of_range). done.
    - intros [Hx <-]. exists (sid, e). split; [done|]. by apply elem_of_range. }
  split.
  - intros reason. unfold Sweep. fold (sweep_generation generation authorize). fold revoke. simpl.
    rewrite elem_of_app, !list_elem_of_omap. split.
    + intros [(((x & e) & v) & Hv & Hr)|(((x & e) & v) & Hv & Hr)]; destruct v; simplify_eq.
      * exists e. left. by apply Hin.
      * destruct authorize as [f|]; [|done]. destruct (f _ _) eqn:Ea; simplify_eq.
        exists e. right. split; [by apply Hin|]. eauto.
    + intros (e & [He|(He & -> & f & -> & Hf)]); [left|right];
        (eexists (sid, e, _); split; [by apply Hin|]); simpl; [done|by rewrite Hf].
  - intros e. unfold lookup_session at 1, sessions, Sweep.
    fold (sweep_generation generation authorize). fold revoke. simpl.
    rewrite map_lookup_filter_Some, elem_of_difference, elem_of_list_to_set, list_elem_of_omap.
    rewrite lookup_session_Some. split.
    + intros (He & Hl & Hn). split_and!; [done..|]. intros Hd. apply Hn.
      exists (sid, e, Delete). split; [|done]. apply Hin. split; [by apply lookup_session_Some|done].
    + intros ((He & Hl) & Hn). split_and!; [done..|]. intros (((x & f) & v) & Hv & Hr).
      destruct v; simplify_eq. apply Hin in Hv as [[Hf _]%lookup_session_Some Hv]. simplify_eq.
Qed.

(** The re-check a changed policy causes. *)
Definition unauthorised (generation : option Z)
    (authorize : option (option Identity → Target → bool)) (m : Manager) (e : entry) : Prop :=
  ∃ f, authorize = Some f ∧ default 0%Z generation ≠ lastGeneration m ∧
    f (identity e) (e_Target e) = false.

(** ** An executable scheduler, for concrete runs *)

Inductive event :=
| Call (c : call) (now : Z)
| Go (i : nat) (w : written) (now : Z).

Definition call_okb (c : call) (s : machine) : bool :=
  match c with
  | CallCreate _ _ _ _ sid => bool_decide (heap (manager s) !! sid = None)
  | CallEnd _ reason _ | CallAbort _ reason => negb (is_empty reason)
  | _ => true
  end.

Definition perform `{MapRange} (ev : event) (s : machine) : option machine :=
  match ev with
  | Call c now =>
      if call_okb c s then
        let '(s', new) := run_call c now s in
        Some (with_activities s' (activities s ++ [new])%list)
      else None
  | Go i w now =>
      match activities s !! i with
      | Some (a :: rest) =>
          let '(s', new) := run_activity a w now s in
          Some (with_activities s' (<[i := (new ++ rest)%list]> (activities s)))
      | _ => None
      end
  end.

Definition performs `{MapRange} (evs : list event) (s : machine) : option machine :=
  foldl (λ o ev, s ← o; perform ev s) (Some s) evs.

Lemma perform_step `{MapRange} ev s s' : perform ev s = Some s' → step s s'.
Proof.
  destruct ev as [c now|i w now]; simpl.
  - destruct (call_okb c s) eqn:Hc; [|done]. destruct (run_call c now s) as [s1 new] eqn:Hr.
    intros [= <-]. apply (step_call c now); [|done]. destruct c; simpl in *; try done.
    + by apply bool_decide_eq_true in Hc.
    + intros ->. by apply negb_true_iff in Hc.
    + intros ->. by apply negb_true_iff in Hc.
  - destruct (activities s !! i) as [[|a rest]|] eqn:Hi; [done| |done].
    destruct (run_activity a w now s) as [s1 new] eqn:Hr. intros [= <-].
    rewrite insert_take_drop by (by eapply lookup_lt_Some).
    eapply step_activity; [|exact Hr]. symmetry. by apply take_drop_middle.
Qed.

Lemma performs_steps `{MapRange} evs s s' : performs evs s = Some s' → rtc step s s'.
Proof.
  unfold performs. revert s. induction evs as [|ev evs IH]; intros s; simpl.
  - intros [= <-]. constructor.
  - destruct (perform ev s) as [s1|] eqn:Hp; simpl.
    + intros Hs. eapply rtc_l; [by eapply perform_step|by apply IH].
    + intros Hs. exfalso. revert Hs. clear. induction evs as [|e evs IH]; [done|exact IH].
Qed.

Definition performed `{MapRange} (evs : list event) (s : machine) : machine :=
  default s (performs evs s).

Lemma performed_steps `{MapRange} evs s :
  bool_decide (is_Some (performs evs s)) = true → rtc step s (performed evs s).
Proof.
  rewrite bool_decide_eq_true. intros [s' Hs]. unfold performed. rewrite Hs.
  by eapply performs_steps.
Qed.

(** * Properties *)

(** In every state the manager can reach, however calls and the unlocked
    parts of calls interleave, no more sessions are live than the limit allows,
    and no identity owns more live sessions than its own limit. *)
Theorem exec_capacity `{MapRange} lim g s :
  rtc step (init lim g) s →
  size (live_ids (manager s)) ≤ MaxSessions lim ∧
  ∀ id, someone id → size (owned_ids (manager s) (Some id)) ≤ MaxPerIdentity lim.
Proof.
  intros Hs. destruct (steps_capacity _ _ Hs (init_capacity lim g)) as [[H1 H2] Hl].
  rewrite Hl in H1, H2. done.
Qed.

(** C26: Every session whose shell Connected let run has its start record in
    the audit log; and every session with a start record there is connected,
    or a call under way still has its end record to write, or its end record
    was given to the log. *)
Theorem starts_are_paired `{MapRange} lim g s sid :
  rtc step (init lim g) s →
  (sid ∈ shells s → started s sid) ∧
  (started s sid → paired s (all_activities s) sid).
Proof.
  intros Hs. pose proof (steps_ok _ _ Hs (init_ok lim g)) as Hok.
  split; [apply (eo_shells _ _ Hok)|apply (eo_paired _ _ Hok)].
Qed.

(** When Shutdown stops waiting because nothing settles any more, the end
    record of every session with a start record was given to the log, except
    one that a call of Connected itself still finishes. *)
Theorem shutdown_complete `{MapRange} lim g s sid :
  rtc step (init lim g) s → settling (manager s) = false →
  started s sid → ¬ connecting s sid → sid ∈ end_attempts s.
Proof.
  intros Hs Hset Hst Hnc. pose proof (steps_ok _ _ Hs (init_ok lim g)) as Hok.
  destruct (not_settling _ Hset) as [Hn Hend].
  destruct (eo_paired _ _ Hok sid Hst) as [(e & He & Hc)|[(a & Ha & Ho)|]]; [exfalso..|done].
  - destruct (eo_connected _ _ Hok sid e He Hc) as [Hatt _].
    enough (e_State e = StateEnded) by congruence. apply (Hend sid e); [done| |done].
    apply (eo_listed _ _ Hok sid e He). congruence.
  - pose proof (eo_count _ _ Hok) as Hcount. pose proof (count_writes_elem _ _ Ha) as Hle.
    destruct a; simpl in Ho; try done; subst.
    + apply Hnc. eexists. split; [exact Ha|]. left. eauto.
    + apply Hnc. eexists. split; [exact Ha|]. right. eauto.
    + simpl in Hle. lia.
Qed.

(** Whatever happens after a state, a session there keeps who and what it
    is; once attached nobody can attach to it again; once ended its exit,
    reason and times stay as they ended; and the first reason given to end it
    is the recorded one, unless the shell exited on its own. *)
Theorem session_history `{MapRange} s s' sid e :
  rtc step s s' → heap (manager s) !! sid = Some e →
  ∃ e', heap (manager s') !! sid = Some e' ∧
    e_Owner e' = e_Owner e ∧ e_Target e' = e_Target e ∧
    (attached e = true → ∀ id, (Attach sid id (manager s')).1 ≠ None) ∧
    (e_State e = StateEnded → e_State e' = StateEnded ∧ Reason e' = Reason e ∧
       EndedBy e' = EndedBy e ∧ e_Exit e' = e_Exit e ∧ EndedAt e' = EndedAt e ∧
       ConnectedAt e' = ConnectedAt e) ∧
    (Reason e ≠ "" → Reason e' = Reason e ∨
       Reason e' = "exited" ∧ (exit_Outcome <$> e_Exit e') = Some OutcomeExited).
Proof.
  intros Hs He. destruct (steps_evolve _ _ _ _ Hs He) as (e' & He' & Hev). exists e'.
  split; [done|]. split; [apply Hev|]. split; [apply Hev|]. split_and!.
  - intros Ha id. unfold Attach. destruct (lookup_session (manager s') sid) as [f|] eqn:Hf; [|done].
    apply lookup_session_Some in Hf as [Hf _]. simplify_eq.
    rewrite (ev_attached _ _ Hev Ha). by destruct (negb _).
  - apply Hev.
  - intros Hr. destruct (ev_reason _ _ Hev Hr) as [|(_ & Hx & x & -> & Ho)]; [by left|right].
    split; [done|]. simpl. congruence.
Qed.

(** Sweep ends a session exactly when it is overdue (never attached in the
    attach window, connected for longer than the maximum, or without input for
    longer than the idle timeout), with that reason, or when it is live and the
    policy changed since the last sweep and no longer authorises it; and it
    drops from the map exactly the ended sessions past their retention. *)
Theorem Sweep_spec `{MapRange} now generation authorize m sid :
  (∀ reason, (sid, reason) ∈ (Sweep now generation authorize m).1 ↔
    ∃ e, lookup_session m sid = Some e ∧
      (overdue (limits m) now e reason ∨
       reason = "revoked" ∧ e_State e ≠ StateEnded ∧ (∀ r, ¬ overdue (limits m) now e r) ∧
         unauthorised generation authorize m e)) ∧
  (∀ e, lookup_session (Sweep now generation authorize m).2 sid = Some e ↔
    lookup_session m sid = Some e ∧ ¬ expired now e).
Proof.
  destruct (Sweep_one now generation authorize m sid) as [Hends Hkeeps]. split.
  - intros reason. rewrite Hends. f_equiv. intros e.
    rewrite sweep_one_ends, sweep_one_checks, andb_true_iff, !bool_decide_eq_true.
    unfold unauthorised, sweep_generation. split.
    + intros [[He Ho]|((He & (_ & Hg) & Hl & Hn) & -> & f & Hf & Ha)]; [by eauto|].
      split; [done|]. right. split_and!; auto. exists f. split_and!; auto. subst. by destruct generation.
    + intros (He & [Ho|(-> & Hl & Hn & f & Hf & Hg & Ha)]); [by eauto|].
      right. split_and!; eauto. subst. by destruct generation.
  - intros e. by rewrite Hkeeps, sweep_one_deletes.
Qed.

(** * Witnesses *)

Definition demo_limits : Limits := mkLimits 2 1 (600 * 10 ^ 9) (3600 * 10 ^ 9).
Definition demo_alice : Identity := mkIdentity "alice" "Alice" "" [] "oidc" None 0 "".
Definition demo_target : Target := mkTarget "t1" "s1" "web" "shop" "n1" "c1".

(** A session from its creation to its end record, ended by its owner. *)
Definition demo_script : list event := [
  Call (CallCreate (Some demo_alice) "cli" demo_target "ws" "s1") 10;
  Call (CallAttach "s1" (Some demo_alice)) 11;
  Call (CallConnected "s1") 12; Go 2 Written 13; Go 2 Written 14;
  Call (CallEnd "s1" "terminated" (Some demo_alice)) 20;
  Call (CallFinish "s1" detached) 21; Go 4 Written 22; Go 4 Written 23; Go 4 Written 24].

Definition demo_init : machine := init demo_limits None.
Definition demo_at (n : nat) : machine := performed (H := map_range_std) (take n demo_script) demo_init.

Lemma exec_capacity_witness :
  rtc (step (H := map_range_std)) demo_init (demo_at 5) ∧
  size (live_ids (manager (demo_at 5))) ≤ 2 ∧
  size (owned_ids (manager (demo_at 5)) (Some demo_alice)) ≤ 1.
Proof.
  assert (rtc (step (H := map_range_std)) demo_init (demo_at 5)) as Hr
    by (apply performed_steps; vm_compute; reflexivity).
  destruct (exec_capacity (H := map_range_std) demo_limits None (demo_at 5) Hr) as [H1 H2].
  split; [exact Hr|]. split; [exact H1|]. apply H2. left. intros Hn. discriminate Hn.
Defined.

Lemma starts_are_paired_witness :
  rtc (step (H := map_range_std)) demo_init (demo_at 5) ∧
  (started (demo_at 5) "s1" ∧ paired (demo_at 5) (all_activities (demo_at 5)) "s1").
Proof.
  assert (rtc (step (H := map_range_std)) demo_init (demo_at 5)) as Hr
    by (apply performed_steps; vm_compute; reflexivity).
  destruct (starts_are_paired (H := map_range_std) demo_limits None (demo_at 5) "s1" Hr) as [H1 H2].
  assert ("s1" ∈ shells (demo_at 5)) as Hin by (apply (bool_decide_unpack _); vm_compute; reflexivity).
  split; [exact Hr|]. split; [exact (H1 Hin)|exact (H2 (H1 Hin))].
Defined.

Lemma shutdown_complete_witness :
  settling (manager (demo_at 10)) = false ∧ started (demo_at 10) "s1" ∧
  "s1" ∈ end_attempts (demo_at 10).
Proof.
  assert (rtc (step (H := map_range_std)) demo_init (demo_at 10)) as Hr
    by (apply performed_steps; vm_compute; reflexivity).
  assert (settling (manager (demo_at 10)) = false) as Hs by (vm_compute; reflexivity).
  assert (started (demo_at 10) "s1") as Hst.
  { destruct (audit_log (demo_at 10)) as [|x [|y l]] eqn:El; [vm_compute in El; discriminate El..|].
    exists y. split; [rewrite El; right; left|]. vm_compute in El. injection El as <- <- <-.
    split; reflexivity. }
  split; [exact Hs|]. split; [exact Hst|].
  apply (shutdown_complete (H := map_range_std) demo_limits None (demo_at 10) "s1" Hr Hs Hst).
  intros (a & Ha & _). assert (all_activities (demo_at 10) = []) as Hnil by (vm_compute; reflexivity).
  rewrite Hnil in Ha. by apply not_elem_of_nil in Ha.
Defined.

Lemma session_history_witness :
  (Reason <$> heap (manager (demo_at 6)) !! "s1") = Some "terminated" ∧
  ∃ e', heap (manager (demo_at 10)) !! "s1" = Some e' ∧
    (Reason e' = "terminated" ∨
     Reason e' = "exited" ∧ (exit_Outcome <$> e_Exit e') = Some OutcomeExited) ∧
    (∀ id, (Attach "s1" id (manager (demo_at 10))).1 ≠ None).
Proof.
  assert (performs (H := map_range_std) (drop 6 demo_script) (demo_at 6) = Some (demo_at 10)) as Hp
    by (vm_compute; reflexivity).
  apply performs_steps in Hp.
  destruct (heap (manager (demo_at 6)) !! "s1") as [e|] eqn:He; [|vm_compute in He; discriminate He].
  destruct (session_history (H := map_range_std) _ _ "s1" e Hp He)
    as (e' & He' & _ & _ & Ha & _ & Hr).
  vm_compute in He. injection He as <-. split; [reflexivity|]. exists e'. split; [exact He'|].
  split; [|by apply Ha]. apply Hr. discriminate.
Defined.
