(* ===== verification/SortedLists.v ===== *)
(** Sorted slices as the standard library's slices package keeps them: binary
    search, insertion at a position, and a sorted slice of strings as a set. *)
From S2P Require Import Prelude GoStrings.
#[local] Open Scope string_scope.
#[local] Open Scope nat_scope.

(** * slices.BinarySearchFunc *)

(** Its loop over [i, j), which halves the window at every turn: a window's
    length is fuel enough. *)
Fixpoint search_loop {A} (less : A → bool) (x : list A) (fuel i j : nat) : nat :=
  match fuel with
  | 0 => i
  | S fuel =>
      if i <? j then
        let h := (i + j) / 2 in
        match x !! h with
        | Some a => if less a then search_loop less x fuel (h + 1) j else search_loop less x fuel i h
        | None => i (* unreachable: h < j <= len x *)
        end
      else i
  end.

Definition BinarySearchFunc {A T} (cmp : A → T → comparison) (x : list A) (target : T)
    : nat * bool :=
  let i := search_loop (λ a, bool_decide (cmp a target = Lt)) x (length x) 0 (length x) in
  (i, match x !! i with Some a => bool_decide (cmp a target = Eq) | None => false end).

(** slices.Insert of one value; it panics past the end. *)
Definition Insert {A} (x : list A) (i : nat) (v : A) : option (list A) :=
  if i <=? length x then Some (take i x ++ v :: drop i x)%list else None.

(** The point where [less] stops holding. *)
Definition cut_point {A} (less : A → bool) (x : list A) (i : nat) : Prop :=
  i ≤ length x ∧ (∀ k a, x !! k = Some a → (k < i ↔ less a = true)).

(** [less] holds of a prefix and of nothing after it. *)
Definition downward {A} (less : A → bool) (x : list A) : Prop :=
  ∀ h k a b, h ≤ k → x !! h = Some a → x !! k = Some b → less b = true → less a = true.

Lemma search_loop_cut {A} (less : A → bool) (x : list A) fuel i j :
  downward less x → j - i ≤ fuel → i ≤ j → j ≤ length x →
  (∀ k a, x !! k = Some a → k < i → less a = true) →
  (∀ k a, x !! k = Some a → j ≤ k → less a = false) →
  cut_point less x (search_loop less x fuel i j).
Proof.
  intros Hd. revert i j. induction fuel as [|fuel IH]; intros i j Hf Hij Hj Hlo Hhi; cbn [search_loop].
  - assert (i = j) as -> by lia. split; [lia|]. intros k a Hk. split; [by apply Hlo|].
    intros Hl. apply Nat.nle_gt. intros Hjk. rewrite (Hhi k a) in Hl by done. done.
  - destruct (Nat.ltb_spec i j) as [Hlt|Hge].
    + assert (i ≤ (i + j) / 2 ∧ (i + j) / 2 < j) as [Hh1 Hh2].
      { split; [apply Nat.div_le_lower_bound|apply Nat.Div0.div_lt_upper_bound]; lia. }
      destruct (x !! ((i + j) / 2)) as [a|] eqn:Ha; [|apply lookup_ge_None in Ha; lia].
      destruct (less a) eqn:Hla.
      * apply IH; [lia..| |done]. intros k b Hb Hk. eapply (Hd k ((i + j) / 2)); eauto. lia.
      * apply IH; [lia..|done|]. intros k b Hb Hk. apply not_true_iff_false. intros Hlb.
        rewrite (Hd ((i + j) / 2) k a b) in Hla; auto. done.
    + assert (i = j) as -> by lia. split; [lia|]. intros k a Hk. split; [by apply Hlo|].
      intros Hl. apply Nat.nle_gt. intros Hjk. rewrite (Hhi k a) in Hl by done. done.
Qed.

Lemma BinarySearchFunc_cut {A T} (cmp : A → T → comparison) x target :
  downward (λ a, bool_decide (cmp a target = Lt)) x →
  cut_point (λ a, bool_decide (cmp a target = Lt)) x (BinarySearchFunc cmp x target).1.
Proof.
  intros Hd. apply search_loop_cut; [done|lia..| |].
  - intros k a _ Hk. lia.
  - intros k a Hk%lookup_lt_Some Hj. lia.
Qed.

Lemma cut_point_split {A} (less : A → bool) x i :
  cut_point less x i →
  Forall (λ a, less a = true) (take i x) ∧ Forall (λ a, less a = false) (drop i x).
Proof.
  intros [Hi Hc]. split; apply Forall_lookup; intros k a Hk.
  - apply lookup_take_Some in Hk as [Hk Hlt]. by apply (Hc k a).
  - rewrite lookup_drop in Hk. apply not_true_iff_false. intros Hl. apply (Hc _ _ Hk) in Hl. lia.
Qed.

Lemma StronglySorted_lookup_lt {A} (R : A → A → Prop) l i j a b :
  StronglySorted R l → i < j → l !! i = Some a → l !! j = Some b → R a b.
Proof.
  intros Hs. revert i j. induction Hs as [|x l Hs IH Hall]; intros i j Hij; [done|].
  destruct i as [|i], j as [|j]; try lia; simpl.
  - intros [= <-] Hb. rewrite Forall_forall in Hall. by apply Hall, (list_elem_of_lookup_2 _ j).
  - intros Ha Hb. apply (IH i j); [lia|done..].
Qed.

(** In a sorted slice the search finds where the target goes. *)
Lemma sorted_downward {A} (cmp : A → A → comparison) `{!Compare cmp} x target :
  StronglySorted (cmp_le cmp) x → downward (λ a, bool_decide (cmp a target = Lt)) x.
Proof.
  intros Hs h k a b Hhk Ha Hb. rewrite !bool_decide_eq_true. intros Hlt.
  assert (cmp_le cmp a b) as Hab.
  { destruct (decide (h = k)) as [->|Hne].
    - simplify_eq. unfold cmp_le. pose proof (cmp_antisym (cmp := cmp) a a). by destruct (cmp a a).
    - apply (StronglySorted_lookup_lt (cmp_le cmp) x h k); [done|lia|done..]. }
  destruct (cmp a target) eqn:E; [|done|]; exfalso.
  - assert (cmp_le cmp target a) as Hta by (unfold cmp_le; rewrite (cmp_antisym (cmp := cmp)), E; done).
    pose proof (cmp_trans (cmp := cmp) _ _ _ Hta Hab) as Htb. unfold cmp_le in Htb.
    rewrite (cmp_antisym (cmp := cmp)), Hlt in Htb. done.
  - assert (cmp_le cmp target a) as Hta by (unfold cmp_le; rewrite (cmp_antisym (cmp := cmp)), E; done).
    pose proof (cmp_trans (cmp := cmp) _ _ _ Hta Hab) as Htb. unfold cmp_le in Htb.
    rewrite (cmp_antisym (cmp := cmp)), Hlt in Htb. done.
Qed.

(** Inserting where the search says keeps the slice sorted. *)
Lemma insert_sorted {A} (cmp : A → A → comparison) `{!Compare cmp} x v :
  StronglySorted (cmp_le cmp) x →
  let i := (BinarySearchFunc cmp x v).1 in
  i ≤ length x ∧ StronglySorted (cmp_le cmp) (take i x ++ v :: drop i x)%list.
Proof.
  intros Hs i. pose proof (BinarySearchFunc_cut cmp x v (sorted_downward cmp x v Hs)) as Hc.
  destruct (cut_point_split _ _ _ Hc) as [Hlo Hhi]. fold i in Hlo, Hhi. split; [apply Hc|].
  rewrite <- (take_drop i x) in Hs. apply StronglySorted_app in Hs as (Hcross & H1 & H2).
  assert (∀ a, a ∈ take i x → cmp_le cmp a v) as Hav.
  { intros a Ha. rewrite Forall_forall in Hlo. apply Hlo, bool_decide_eq_true in Ha.
    unfold cmp_le. by rewrite Ha. }
  assert (∀ a, a ∈ drop i x → cmp_le cmp v a) as Hva.
  { intros a Ha. rewrite Forall_forall in Hhi. apply Hhi, bool_decide_eq_false in Ha.
    unfold cmp_le. rewrite (cmp_antisym (cmp := cmp)). by destruct (cmp a v). }
  apply StronglySorted_app. split_and!; [|done|].
  - intros a b Ha [->|Hb]%elem_of_cons; auto.
  - constructor; [done|]. by apply Forall_forall.
Qed.

(** * Sorted slices of strings as sets *)

Definition sorted_set (l : list string) : Prop := StronglySorted String.le l ∧ NoDup l.

(** The one sorted slice that holds a set. *)
Definition sorted_elements (X : gset string) : list string := SortStrings (elements X).

Lemma str_sorted l : StronglySorted (cmp_le str_compare) l ↔ StronglySorted String.le l.
Proof. split; apply StronglySorted_weaken; intros x y; apply str_compare_le. Qed.

Lemma sorted_elements_set X : sorted_set (sorted_elements X).
Proof.
  split; [apply SortStrings_sorted|]. unfold sorted_elements. rewrite SortStrings_perm.
  apply NoDup_elements.
Qed.

Lemma elem_of_sorted_elements X v : v ∈ sorted_elements X ↔ v ∈ X.
Proof. unfold sorted_elements. by rewrite SortStrings_perm, elem_of_elements. Qed.

Lemma sorted_set_unique l X : sorted_set l → (∀ v, v ∈ l ↔ v ∈ X) → l = sorted_elements X.
Proof.
  intros [Hs Hn] Hl. apply sorted_unique; [done|apply SortStrings_sorted|].
  apply NoDup_Permutation; [done|apply sorted_elements_set|]. intros v.
  by rewrite elem_of_sorted_elements.
Qed.

Lemma sorted_elements_nil X : sorted_elements X = [] ↔ X = ∅.
Proof.
  split.
  - intros Hnil. apply leibniz_equiv. intros v. rewrite <- elem_of_sorted_elements, Hnil.
    split; [intros Hv; by apply not_elem_of_nil in Hv|set_solver].
  - intros ->. unfold sorted_elements. by rewrite elements_empty.
Qed.

(** internal/cache/stacks.go appendUnique and removeStr *)
Definition appendUnique (sl : list string) (v : string) : list string :=
  let '(i, found) := BinarySearchFunc str_compare sl v in
  if found then sl else default sl (Insert sl i v).

Definition removeStr (sl : list string) (v : string) : list string :=
  filter (λ s, s ≠ v) sl.

(** Whether a sorted slice holds a string, by binary search. *)
Lemma BinarySearch_found l v :
  StronglySorted String.le l → (BinarySearchFunc str_compare l v).2 = true ↔ v ∈ l.
Proof.
  intros Hs. apply str_sorted in Hs.
  pose proof (BinarySearchFunc_cut str_compare l v (sorted_downward str_compare l v Hs)) as [Hi Hc].
  unfold BinarySearchFunc in *. cbn [fst snd] in *.
  set (i := search_loop _ _ _ _ _) in *. split.
  - destruct (l !! i) as [a|] eqn:Ha; [|done]. rewrite bool_decide_eq_true, str_compare_eq.
    intros ->. by eapply list_elem_of_lookup_2.
  - intros [k Hk]%list_elem_of_lookup_1.
    assert (¬ k < i) as Hki.
    { intros Hlt. apply (Hc k v Hk), bool_decide_eq_true in Hlt.
      rewrite (proj2 (str_compare_eq v v)) in Hlt by done. done. }
    destruct (l !! i) as [a|] eqn:Ha; [|apply lookup_ge_None in Ha; apply lookup_lt_Some in Hk; lia].
    rewrite bool_decide_eq_true. destruct (decide (i = k)) as [->|Hne].
    + simplify_eq. by apply str_compare_eq.
    + assert (cmp_le str_compare a v) as Hav
        by (apply (StronglySorted_lookup_lt (cmp_le str_compare) l i k); [done|lia|done..]).
      destruct (str_compare a v) eqn:E; [done| |done].
      assert (i < i) by (apply (Hc i a Ha), bool_decide_eq_true; done). lia.
Qed.

Lemma appendUnique_elements X v : appendUnique (sorted_elements X) v = sorted_elements ({[v]} ∪ X).
Proof.
  destruct (sorted_elements_set X) as [Hs Hn]. unfold appendUnique.
  pose proof (BinarySearch_found _ v Hs) as Hf.
  pose proof (insert_sorted str_compare _ v (proj2 (str_sorted _) Hs)) as [Hi Hins].
  destruct (BinarySearchFunc str_compare (sorted_elements X) v) as [i [|]]; cbn [fst snd] in *.
  - apply sorted_set_unique; [done|]. intros w. rewrite elem_of_sorted_elements.
    apply proj1 in Hf. specialize (Hf eq_refl). rewrite elem_of_sorted_elements in Hf. set_solver.
  - unfold Insert. rewrite (proj2 (Nat.leb_le _ _) Hi). simpl.
    assert (v ∉ sorted_elements X) as Hv by (intros Hv%Hf; done).
    assert (take i (sorted_elements X) ++ v :: drop i (sorted_elements X) ≡ₚ v :: sorted_elements X)%list
      as Hp by (rewrite <- Permutation_middle, take_drop; done).
    apply sorted_set_unique; [split|].
    + by apply str_sorted.
    + rewrite Hp. by constructor.
    + intros w. rewrite Hp, elem_of_cons, elem_of_sorted_elements. set_solver.
Qed.

Lemma removeStr_elements X v : removeStr (sorted_elements X) v = sorted_elements (X ∖ {[v]}).
Proof.
  destruct (sorted_elements_set X) as [Hs Hn]. apply sorted_set_unique; [split|].
  - unfold removeStr. clear Hn. induction Hs as [|a l Hl IH Hall]; [constructor|].
    destruct (decide (a ≠ v)) as [Ha|Ha]; [rewrite filter_cons_True by done|by rewrite filter_cons_False].
    constructor; [done|]. apply Forall_forall. intros w Hw. apply list_elem_of_filter in Hw as [_ Hw].
    rewrite Forall_forall in Hall. by apply Hall.
  - by apply NoDup_filter.
  - intros w. unfold removeStr. rewrite list_elem_of_filter, elem_of_sorted_elements. set_solver.
Qed.

(** Sorting a duplicate-free collection gives the same slice. *)
Lemma SortStrings_set l X : NoDup l → (∀ v, v ∈ l ↔ v ∈ X) → SortStrings l = sorted_elements X.
Proof.
  intros Hn Hl. apply sorted_set_unique.
  - split; [apply SortStrings_sorted|by rewrite SortStrings_perm].
  - intros v. by rewrite SortStrings_perm.
Qed.

(** Sorted by a key no two share, the keys strictly rise. *)
Lemma SortFunc_strict {A} (f : A → Z) l : NoDup (f <$> l) →
  StronglySorted (λ a b, (f a < f b)%Z) (SortFunc (λ a b, Z.compare (f a) (f b)) l).
Proof.
  intros Hn. pose proof (SortFunc_sorted (λ a b, Z.compare (f a) (f b)) l) as Hs.
  assert (NoDup (f <$> SortFunc (λ a b, Z.compare (f a) (f b)) l)) as Hn' by (by rewrite SortFunc_perm).
  revert Hs Hn'. generalize (SortFunc (λ a b, Z.compare (f a) (f b)) l). clear. induction l as [|a l IH]; [constructor|].
  intros [Hl Ha]%StronglySorted_inv. rewrite fmap_cons, NoDup_cons. intros [Hnot Hn]. constructor; [by apply IH|].
  apply Forall_forall. intros b Hb. rewrite Forall_forall in Ha. specialize (Ha b Hb).
  assert (f a ≠ f b) by (intros E; apply Hnot; rewrite E; by apply list_elem_of_fmap_2).
  unfold cmp_le in Ha. rewrite Z.compare_le_iff in Ha. lia.
Qed.
