(* ===== verification/Restarts.v ===== *)
(** The restart tracker: internal/cache/restarts.go. Failure counts per service
    in time buckets, and the newest failures for the flapping check. *)
From S2P Require Import Prelude GoStrings SortedLists.
#[local] Open Scope string_scope.
#[local] Open Scope Z_scope.

(** * Data *)

Record RestartTracker := mkTracker {
  horizon : Z;
  bucket : Z;
  rt_services : gmap string (gmap Z Z);  (* service ID -> bucket start, Unix -> uint32 *)
  rt_recent : gmap string (list Z);
  observing : Z;
}.

Record RestartTrackerSnapshot := mkTrackerSnapshot {
  rs_Horizon : Z;
  rs_Bucket : Z;
  rs_Services : gmap string (gmap Z Z);
}.

Definition time_Hour : Z := 3600 * 10 ^ 9.
Definition flappingRestarts : nat := 3.
Definition flappingWindow : Z := 600 * 10 ^ 9.

(** Seconds from Go's zero time to the Unix epoch. *)
Definition unix_epoch : Z := 62135596800.

Definition Unix (t : Z) : Z := t / 10 ^ 9 - unix_epoch.
Definition from_Unix (s : Z) : Z := (s + unix_epoch) * 10 ^ 9.

(** time.Time.Truncate *)
Definition Truncate (t d : Z) : Z := if d <=? 0 then t else t - t mod d.

(** * Operations *)

Definition NewRestartTracker (horizon bucket now : Z) : RestartTracker :=
  let bucket := if bucket <=? 0 then time_Hour else bucket in
  let horizon := if horizon <? bucket then bucket else horizon in
  mkTracker horizon bucket ∅ ∅ now.

Definition isFlapping (recent : list Z) (cutoff : Z) : bool :=
  bool_decide (length recent = flappingRestarts) &&
  match recent with t :: _ => time_after t cutoff | [] => false end.

Definition Flapping (rt : RestartTracker) (now : Z) : gset string :=
  dom (filter (λ '(_, times), isFlapping times (now - flappingWindow) = true) (rt_recent rt)).

Definition IsFlapping (rt : RestartTracker) (sid : string) (now : Z) : bool :=
  isFlapping (default [] (rt_recent rt !! sid)) (now - flappingWindow).

Definition TrackingSince (rt : RestartTracker) (now : Z) : Z :=
  let cutoff := now - horizon rt in
  if time_after (observing rt) cutoff then observing rt else cutoff.

Definition bucketKey (rt : RestartTracker) (t : Z) : Z := Unix (Truncate t (bucket rt)).

Definition pruneLocked (rt : RestartTracker) (buckets : gmap Z Z) (now : Z) : gmap Z Z :=
  let cutoff := bucketKey rt (now - horizon rt) in
  filter (λ '(k, _), ¬ (k < cutoff)) buckets.

Definition recordRecentLocked (rt : RestartTracker) (sid : string) (when : Z) : RestartTracker :=
  let old := default [] (rt_recent rt !! sid) in
  let at_ := (BinarySearchFunc Z.compare old when).1 in
  let new := default old (Insert old at_ when) in
  let new :=
    if (flappingRestarts <? length new)%nat then drop (length new - flappingRestarts) new else new in
  mkTracker (horizon rt) (bucket rt) (rt_services rt) (<[sid := new]> (rt_recent rt)) (observing rt).

(** [now] stands in for a zero timestamp, [later] is the clock of the prune. *)
Definition Record_ (rt : RestartTracker) (sid : string) (when now later : Z) : RestartTracker :=
  if bool_decide (sid = "") then rt else
  let when := if is_zero_time when then now else when in
  let buckets := default ∅ (rt_services rt !! sid) in
  let key := bucketKey rt when in
  let buckets := <[key := wrap 32 (default 0 (buckets !! key) + 1)]> buckets in
  let rt := mkTracker (horizon rt) (bucket rt)
    (<[sid := pruneLocked rt buckets later]> (rt_services rt)) (rt_recent rt) (observing rt) in
  recordRecentLocked rt sid when.

Definition Backfill (rt : RestartTracker) (sid : string) (when : Z) : RestartTracker :=
  if bool_decide (sid = "") || is_zero_time when then rt else recordRecentLocked rt sid when.

Definition sum_counts (m : gmap Z Z) : Z := map_fold (λ _ v acc, v + acc) 0 m.

Definition Count (rt : RestartTracker) (sid : string) (lookback now : Z) : Z :=
  let lookback := if horizon rt <? lookback then horizon rt else lookback in
  match rt_services rt !! sid with
  | None => 0
  | Some buckets =>
      let cutoff := bucketKey rt (now - lookback) in
      wrap 64 (sum_counts (filter (λ '(k, _), cutoff ≤ k) buckets))
  end.

Definition Forget (rt : RestartTracker) (sid : string) : RestartTracker :=
  mkTracker (horizon rt) (bucket rt) (delete sid (rt_services rt)) (delete sid (rt_recent rt)) (observing rt).

Definition Snapshot (rt : RestartTracker) : RestartTrackerSnapshot :=
  mkTrackerSnapshot (horizon rt) (bucket rt) (rt_services rt).

(** The earliest bucket start of what a restore keeps, if before [t]. *)
Definition earliest (t : Z) (kept : gmap string (gmap Z Z)) : Z :=
  foldl (λ t k, if time_before (from_Unix k) t then from_Unix k else t) t
    ((map_to_list kept).*2 ≫= λ buckets, (map_to_list buckets).*1).

Definition Restore (rt : RestartTracker) (snap : RestartTrackerSnapshot) (now : Z) : RestartTracker :=
  let kept := (λ buckets, pruneLocked rt buckets now) <$> rs_Services snap in
  mkTracker (horizon rt) (bucket rt) kept (rt_recent rt) (earliest (observing rt) kept).

(** * Facts *)

Lemma Zcompare_sorted l : StronglySorted (cmp_le Z.compare) l ↔ StronglySorted Z.le l.
Proof. split; apply StronglySorted_weaken; intros x y; apply Z.compare_le_iff. Qed.

(** ** The newest failures *)

Definition sorted_times (l : list Z) : list Z := SortFunc Z.compare l.

Definition newest (n : nat) (l : list Z) : list Z :=
  drop (length l - n) (sorted_times l).

Lemma sorted_times_perm l : sorted_times l ≡ₚ l.
Proof. apply SortFunc_perm. Qed.

Lemma sorted_times_unique l k : StronglySorted Z.le l → l ≡ₚ k → l = sorted_times k.
Proof.
  intros Hl Hp. apply (StronglySorted_unique Z.le); [done|apply Zcompare_sorted, SortFunc_sorted, _|].
  by rewrite sorted_times_perm.
Qed.

Lemma sorted_times_sorted l : StronglySorted Z.le (sorted_times l).
Proof. apply Zcompare_sorted, SortFunc_sorted, _. Qed.

Lemma sorted_times_app l k :
  (∀ x y, x ∈ l → y ∈ k → x ≤ y) → sorted_times (l ++ k) = (sorted_times l ++ sorted_times k)%list.
Proof.
  intros Hlk. symmetry. apply sorted_times_unique; [|by rewrite !sorted_times_perm].
  apply StronglySorted_app. split_and!; [|apply sorted_times_sorted..].
  intros x y. rewrite !sorted_times_perm. auto.
Qed.

Lemma newest_length n l : length (newest n l) = Nat.min n (length l).
Proof.
  unfold newest. rewrite length_drop. unfold sorted_times.
  rewrite (Permutation_length (SortFunc_perm _ _)). lia.
Qed.

Lemma newest_sorted n l : StronglySorted Z.le (newest n l).
Proof.
  pose proof (sorted_times_sorted l) as Hs. unfold newest.
  rewrite <- (take_drop (length l - n) (sorted_times l)) in Hs.
  by apply StronglySorted_app in Hs as (_ & _ & Hs).
Qed.

#[global] Instance sorted_times_Proper : Proper ((≡ₚ) ==> (=)) sorted_times.
Proof.
  intros l k Hp. apply sorted_times_unique; [apply sorted_times_sorted|].
  by rewrite sorted_times_perm.
Qed.

(** Dropping what is not among the newest does not change what the newest of
    more will be. *)
Lemma newest_cons n v l : newest n (v :: newest n l) = newest n (v :: l).
Proof.
  set (pre := take (length l - n) (sorted_times l)). set (suf := newest n l).
  assert (pre ++ suf = sorted_times l)%list as Hps by apply take_drop.
  assert (length pre = length l - n)%nat as Hpre.
  { subst pre. rewrite length_take. unfold sorted_times.
    rewrite (Permutation_length (SortFunc_perm _ _)). lia. }
  pose proof (newest_length n l) as Hsuf. fold suf in Hsuf.
  pose proof (sorted_times_sorted l) as Hs. rewrite <- Hps in Hs.
  apply StronglySorted_app in Hs as (Hcross & Hs1 & Hs2).
  assert (l ≡ₚ pre ++ suf) as Hl by (by rewrite Hps, sorted_times_perm).
  unfold newest at 1 2. cbn [length]. destruct (decide (Exists (λ x, x < v) suf)) as [Hex|Hno].
  - (* v goes among the newest *)
    apply Exists_exists in Hex as (x & Hx & Hxv).
    assert (sorted_times (v :: l) = pre ++ sorted_times (v :: suf))%list as ->.
    { rewrite (sorted_times_Proper (v :: l) (pre ++ v :: suf)%list)
        by (rewrite Hl; apply Permutation_middle).
      rewrite sorted_times_app.
      - f_equal. symmetry. by apply sorted_times_unique.
      - intros y z Hy [->|Hz]%elem_of_cons; [|by apply Hcross].
        pose proof (Hcross y x Hy Hx). lia. }
    rewrite drop_app_ge by lia. f_equal. lia.
  - apply not_Exists_Forall in Hno; [|apply _]. rewrite Forall_forall in Hno.
    assert (sorted_times (v :: suf) = v :: suf) as ->.
    { symmetry. apply sorted_times_unique; [|done]. constructor; [done|].
      apply Forall_forall. intros x Hx. specialize (Hno x Hx). simpl in Hno. lia. }
    assert (sorted_times (v :: l) = sorted_times (v :: pre) ++ suf)%list as ->.
    { rewrite (sorted_times_Proper (v :: l) ((v :: pre) ++ suf)%list) by (by rewrite Hl).
      rewrite sorted_times_app.
      - f_equal. symmetry. by apply sorted_times_unique.
      - intros y z [->|Hy]%elem_of_cons Hz; [|by apply Hcross].
        specialize (Hno z Hz). simpl in Hno. lia. }
    assert (length (sorted_times (v :: pre)) = S (length pre)) as Hlen
      by (by rewrite (Permutation_length (sorted_times_perm _))).
    destruct (decide (n ≤ length l)%nat) as [Hn|Hn].
    + rewrite drop_app_ge by lia. rewrite Hlen.
      replace (S (length suf) - n)%nat with 1%nat by lia. simpl.
      replace (S (length l) - n - S (length pre))%nat with 0%nat by lia. done.
    + assert (pre = []) as -> by (apply length_zero_iff_nil; lia).
      simpl in *. replace (S (length suf) - n)%nat with 0%nat by lia.
      replace (S (length l) - n)%nat with 0%nat by lia. done.
Qed.

(** ** What a run of the tracker recorded *)

Inductive op :=
| OpRecord (sid : string) (when now later : Z)
| OpBackfill (sid : string) (when : Z)
| OpForget (sid : string).

Definition run_op (rt : RestartTracker) (o : op) : RestartTracker :=
  match o with
  | OpRecord sid when now later => Record_ rt sid when now later
  | OpBackfill sid when => Backfill rt sid when
  | OpForget sid => Forget rt sid
  end.

Definition run (ops : list op) (rt : RestartTracker) : RestartTracker := foldl run_op rt ops.

Definition failed_at (when now : Z) : Z := if is_zero_time when then now else when.

(** The failures of a service since it was last forgotten: those counted, and
    those taken into the flapping window too. *)
Definition note_op (sid : string) (backfilled : bool) (times : list Z) (o : op) : list Z :=
  match o with
  | OpRecord x when now _ => if decide (x = sid) then failed_at when now :: times else times
  | OpBackfill x when =>
      if decide (x = sid) then if backfilled && negb (is_zero_time when) then when :: times else times
      else times
  | OpForget x => if decide (x = sid) then [] else times
  end.

Definition failures (sid : string) (backfilled : bool) (ops : list op) : list Z :=
  foldl (note_op sid backfilled) [] ops.

(** The newest failures kept are the newest of all. *)
Definition recent_ok (rt : RestartTracker) (sid : string) (times : list Z) : Prop :=
  default [] (rt_recent rt !! sid) = newest flappingRestarts times.

Lemma newest_one_more l v :
  StronglySorted Z.le l →
  let i := (BinarySearchFunc Z.compare l v).1 in
  default l (Insert l i v) = sorted_times (v :: l).
Proof.
  intros Hs i. destruct (insert_sorted Z.compare l v) as [Hi Hins]; [by apply Zcompare_sorted|].
  fold i in Hi, Hins. unfold Insert. rewrite (proj2 (Nat.leb_le _ _) Hi). simpl.
  apply sorted_times_unique; [by apply Zcompare_sorted|].
  rewrite <- Permutation_middle. by rewrite take_drop.
Qed.

Lemma recordRecentLocked_recent rt sid t x times :
  recent_ok rt x times →
  recent_ok (recordRecentLocked rt sid t) x (if decide (sid = x) then t :: times else times).
Proof.
  unfold recent_ok, recordRecentLocked. intros Hok. cbn [rt_recent]. destruct (decide (sid = x)) as [->|Hne].
  - rewrite lookup_insert_eq, Hok, newest_one_more by apply newest_sorted.
    rewrite <- newest_cons. generalize (newest flappingRestarts times). intros old.
    unfold newest. rewrite (Permutation_length (sorted_times_perm (t :: old))).
    cbn [default option_rect]. destruct (Nat.ltb_spec flappingRestarts (length (t :: old))); [done|].
    by replace (length (t :: old) - flappingRestarts)%nat with 0%nat by lia.
  - by rewrite lookup_insert_ne.
Qed.

Lemma run_op_recent rt o sid times :
  sid ≠ "" → recent_ok rt sid times → recent_ok (run_op rt o) sid (note_op sid true times o).
Proof.
  intros Hsid Hok. destruct o as [x t now later|x t|x]; simpl.
  - unfold Record_. case_bool_decide as Hx; [subst; by rewrite decide_False by congruence|].
    fold (failed_at t now).
    match goal with |- recent_ok (recordRecentLocked ?rt' _ _) _ _ =>
      apply (recordRecentLocked_recent rt' x (failed_at t now) sid times) end.
    exact Hok.
  - unfold Backfill. case_bool_decide as Hx; simpl; [subst; by rewrite decide_False by congruence|].
    destruct (is_zero_time t); simpl; [by destruct (decide _)|]. by apply recordRecentLocked_recent.
  - unfold recent_ok, Forget. simpl. destruct (decide (x = sid)) as [->|Hne].
    + by rewrite lookup_delete_eq.
    + by rewrite lookup_delete_ne.
Qed.

Lemma run_recent ops rt sid times :
  sid ≠ "" → recent_ok rt sid times →
  recent_ok (run ops rt) sid (foldl (note_op sid true) times ops).
Proof.
  intros Hsid. revert rt times. induction ops as [|o ops IH]; intros rt times Hok; simpl; [done|].
  by apply IH, run_op_recent.
Qed.

Lemma StronglySorted_head_le t l x : StronglySorted Z.le (t :: l) → x ∈ t :: l → t ≤ x.
Proof.
  intros Hs [->|Hx]%elem_of_cons; [done|]. inversion_clear Hs as [|? ? _ Hall].
  rewrite Forall_forall in Hall. by apply Hall.
Qed.

(** The oldest of the newest three is after a time exactly when three are. *)
Lemma isFlapping_newest times cutoff :
  isFlapping (newest flappingRestarts times) cutoff = true ↔
  (flappingRestarts ≤ length (filter (λ t, (cutoff < t)%Z) times))%nat.
Proof.
  set (pre := take (length times - flappingRestarts) (sorted_times times)).
  set (suf := newest flappingRestarts times).
  assert (pre ++ suf = sorted_times times)%list as Hps by apply take_drop.
  assert (times ≡ₚ pre ++ suf) as Hp by (by rewrite Hps, sorted_times_perm).
  pose proof (newest_length flappingRestarts times) as Hlen. fold suf in Hlen.
  pose proof (sorted_times_sorted times) as Hs. rewrite <- Hps in Hs.
  apply StronglySorted_app in Hs as (Hcross & _ & Hs2).
  assert (length (filter (λ t, (cutoff < t)%Z) times) =
    length (filter (λ t, (cutoff < t)%Z) pre) + length (filter (λ t, (cutoff < t)%Z) suf))%nat as Hf
    by (by rewrite Hp, filter_app, length_app).
  pose proof (length_filter (λ t, (cutoff < t)%Z) suf) as Hfs.
  unfold isFlapping. rewrite andb_true_iff, bool_decide_eq_true. rewrite Hf. split.
  - intros [Hl Ht]. destruct suf as [|t rest]; [done|].
    rewrite (filter_all _ (t :: rest)); [lia|].
    intros x Hx. unfold time_after in Ht. pose proof (StronglySorted_head_le _ _ _ Hs2 Hx). lia.
  - intros Hge. pose proof (length_filter (λ t, (cutoff < t)%Z) times).
    split; [unfold flappingRestarts in *; lia|]. destruct suf as [|t rest] eqn:E.
    { cbn [length] in Hlen. unfold flappingRestarts in *. lia. }
    unfold time_after. apply Z.ltb_lt. apply Z.nle_gt. intros Hle.
    rewrite (filter_none _ pre) in Hge.
    + rewrite filter_cons_False in Hge by lia.
      pose proof (length_filter (λ t, (cutoff < t)%Z) rest). cbn [length filter list_filter] in *.
      unfold flappingRestarts in *. lia.
    + intros x Hx. pose proof (Hcross x t Hx ltac:(left)). lia.
Qed.

(** ** The counts *)

(** How often each key comes up. *)
Definition count_map (keys : list Z) : gmap Z Z :=
  foldr (λ k m, <[k := default 0 (m !! k) + 1]> m) ∅ keys.

Lemma count_map_bounds keys k n : count_map keys !! k = Some n → 0 < n ≤ Z.of_nat (length keys).
Proof.
  revert n. induction keys as [|x keys IH]; intros n; simpl; [by rewrite lookup_empty|].
  intros [[<- <-]|[_ Hn]]%lookup_insert_Some.
  - destruct (count_map keys !! x) as [m|]; simpl; [specialize (IH m eq_refl)|]; lia.
  - specialize (IH n Hn). lia.
Qed.

Lemma sum_counts_delete (m : gmap Z Z) k :
  sum_counts m = default 0 (m !! k) + sum_counts (delete k m).
Proof.
  destruct (m !! k) as [v|] eqn:E; simpl; [|by rewrite delete_id].
  unfold sum_counts. rewrite (map_fold_delete_L _ _ k v m); [done|intros; lia|done].
Qed.

Lemma sum_count_map keys : sum_counts (count_map keys) = Z.of_nat (length keys).
Proof.
  induction keys as [|k keys IH]; simpl; [apply map_fold_empty|].
  rewrite (sum_counts_delete _ k), lookup_insert_eq, delete_insert_eq. simpl.
  rewrite (sum_counts_delete _ k) in IH. lia.
Qed.

Lemma filter_count_map c keys :
  filter (λ '(k, _), c ≤ k) (count_map keys) = count_map (filter (λ k, c ≤ k) keys).
Proof.
  induction keys as [|x keys IH]; simpl; [apply map_filter_empty|].
  destruct (decide (c ≤ x)) as [Hx|Hx].
  - rewrite filter_cons_True by done. simpl. rewrite map_filter_insert_True by done. rewrite <- IH.
    f_equal. rewrite map_lookup_filter. destruct (count_map keys !! x) as [n|]; simpl; [|done].
    by rewrite option_guard_True.
  - rewrite filter_cons_False by done. rewrite map_filter_insert_False by done.
    rewrite <- IH. apply map_eq. intros k. rewrite !map_lookup_filter.
    destruct (decide (k = x)) as [->|]; [|by rewrite lookup_delete_ne].
    rewrite lookup_delete_eq. simpl. destruct (count_map keys !! x); simpl; [|done].
    by rewrite option_guard_False.
Qed.

Lemma Unix_mono t u : t ≤ u → Unix t ≤ Unix u.
Proof. intros H. unfold Unix. apply Z.sub_le_mono_r, Z.div_le_mono; lia. Qed.

Lemma bucketKey_mono rt t u : t ≤ u → bucketKey rt t ≤ bucketKey rt u.
Proof.
  intros H. unfold bucketKey. apply Unix_mono. unfold Truncate.
  destruct (Z.leb_spec (bucket rt) 0) as [|Hb]; [done|].
  pose proof (Z.div_mod t (bucket rt) ltac:(lia)) as Ht.
  pose proof (Z.div_mod u (bucket rt) ltac:(lia)) as Hu.
  pose proof (Z.div_le_mono t u (bucket rt) ltac:(lia) H). nia.
Qed.

Definition buckets_of (rt : RestartTracker) (sid : string) : gmap Z Z :=
  default ∅ (rt_services rt !! sid).

(** The buckets a count may still read hold the counts of the failures. *)
Definition counted_ok (rt : RestartTracker) (sid : string) (times : list Z) (clock : Z) : Prop :=
  ∀ k, bucketKey rt (clock - horizon rt) ≤ k →
    buckets_of rt sid !! k = count_map (bucketKey rt <$> times) !! k.

Lemma counted_ok_later rt sid times clock clock' :
  clock ≤ clock' → counted_ok rt sid times clock → counted_ok rt sid times clock'.
Proof.
  intros Hc Hok k Hk. apply Hok. etransitivity; [|exact Hk]. apply bucketKey_mono. lia.
Qed.

Lemma Record_counts rt sid t now later times clock :
  sid ≠ "" → clock ≤ later → Z.of_nat (length times) < 2 ^ 32 - 1 → counted_ok rt sid times clock →
  counted_ok (Record_ rt sid t now later) sid (failed_at t now :: times) later.
Proof.
  intros Hsid Hc Hn Hok k Hk. unfold Record_ in *. rewrite bool_decide_eq_false_2 in * by done.
  fold (failed_at t now) in *. unfold recordRecentLocked, buckets_of in *.
  cbn [rt_services horizon bucket] in *. rewrite lookup_insert_eq. cbn [default option_rect].
  change (bucketKey _ (later - horizon rt) ≤ k) with (bucketKey rt (later - horizon rt) ≤ k) in Hk.
  change (count_map (_ <$> _) !! k) with
    (count_map (bucketKey rt (failed_at t now) :: (bucketKey rt <$> times)) !! k).
  pose proof (counted_ok_later _ _ _ _ _ Hc Hok) as Hok'. unfold counted_ok, buckets_of in Hok'.
  unfold id, pruneLocked. rewrite map_lookup_filter. simpl.
  destruct (decide (bucketKey rt (failed_at t now) = k)) as [->|Hne].
  - rewrite !lookup_insert_eq. simpl. rewrite option_guard_True by lia. rewrite Hok' by done.
    f_equal. unfold wrap. apply Z.mod_small.
    destruct (count_map (bucketKey rt <$> times) !! k) as [n|] eqn:E; simpl; [|lia].
    apply count_map_bounds in E. rewrite length_fmap in E. lia.
  - rewrite !lookup_insert_ne by done. rewrite Hok' by done.
    destruct (count_map (bucketKey rt <$> times) !! k); simpl; [|done].
    by rewrite option_guard_True by lia.
Qed.

Definition clocks (ops : list op) : list Z :=
  omap (λ o, match o with OpRecord _ _ _ later => Some later | _ => None end) ops.

Definition last_clock (c : Z) (ops : list op) : Z := List.last (clocks ops) c.

Lemma run_op_settings rt o : horizon (run_op rt o) = horizon rt ∧ bucket (run_op rt o) = bucket rt.
Proof.
  destruct o; simpl; unfold Record_, Backfill; repeat case_match; done.
Qed.

Lemma run_settings ops rt : horizon (run ops rt) = horizon rt ∧ bucket (run ops rt) = bucket rt.
Proof.
  revert rt. induction ops as [|o ops IH]; intros rt; simpl; [done|].
  destruct (IH (run_op rt o)) as [-> ->]. apply run_op_settings.
Qed.

Lemma counted_ok_ext rt rt' sid times clock :
  horizon rt' = horizon rt → bucket rt' = bucket rt → buckets_of rt' sid = buckets_of rt sid →
  counted_ok rt sid times clock → counted_ok rt' sid times clock.
Proof.
  intros Hh Hb Hs Hok k. unfold bucketKey. rewrite Hh, Hb, Hs. apply Hok.
Qed.

Lemma run_op_counts rt o sid times clock :
  sid ≠ "" → Z.of_nat (length times) < 2 ^ 32 - 1 → counted_ok rt sid times clock →
  let clock' := match o with OpRecord _ _ _ later => later | _ => clock end in
  clock ≤ clock' → counted_ok (run_op rt o) sid (note_op sid false times o) clock'.
Proof.
  intros Hsid Hn Hok clock' Hc. destruct o as [x t now later|x t|x]; subst clock'; simpl.
  - destruct (decide (x = sid)) as [->|Hne]; [by eapply Record_counts|].
    apply (counted_ok_ext rt); try (unfold Record_; by case_match).
    + unfold Record_, buckets_of. case_match; [done|]. cbn [recordRecentLocked rt_services].
      by rewrite lookup_insert_ne.
    + by eapply counted_ok_later.
  - destruct (decide (x = sid)); simpl; (apply (counted_ok_ext rt); [..|done]); unfold Backfill;
      by case_match.
  - destruct (decide (x = sid)) as [->|Hne].
    + intros k _. unfold buckets_of, Forget. simpl. by rewrite lookup_delete_eq.
    + apply (counted_ok_ext rt); [done..| |done]. unfold buckets_of, Forget. simpl.
      by rewrite lookup_delete_ne.
Qed.

Lemma note_op_length sid b times o :
  (length (note_op sid b times o) ≤ S (length times))%nat.
Proof. destruct o; simpl; repeat case_match; simpl; lia. Qed.

Lemma run_counts ops rt sid times clock :
  sid ≠ "" → Z.of_nat (length times + length ops) < 2 ^ 32 →
  StronglySorted Z.le (clock :: clocks ops) → counted_ok rt sid times clock →
  ∀ now, clock ≤ now → Forall (λ c, c ≤ now) (clocks ops) →
  counted_ok (run ops rt) sid (foldl (note_op sid false) times ops) now.
Proof.
  intros Hsid. revert rt times clock.
  induction ops as [|o ops IH]; intros rt times clock Hn Hs Hok now Hnow Hall; simpl.
  - by eapply counted_ok_later.
  - pose proof (note_op_length sid false times o). cbn [length] in Hn.
    pose proof (run_op_counts rt o sid times clock Hsid ltac:(lia) Hok) as Hstep.
    destruct o as [x t n later|x t|x]; cbn [clocks omap list_omap] in Hs, Hall;
      fold (clocks ops) in Hs, Hall.
    + inversion_clear Hs as [|? ? Hs' Hle]. inversion_clear Hle as [|? ? Hcl _].
      inversion_clear Hall as [|? ? Hlater Hall']. apply (IH _ _ later); auto; [lia].
    + apply (IH _ _ clock); auto; [lia|]. by apply Hstep.
    + apply (IH _ _ clock); auto; [lia|]. by apply Hstep.
Qed.

Lemma Count_of_counted rt sid times now lookback :
  counted_ok rt sid times now → 0 < Z.of_nat (length times) + 1 < 2 ^ 32 →
  Count rt sid lookback now =
    Z.of_nat (length (filter
      (λ t, bucketKey rt (now - Z.min lookback (horizon rt)) ≤ bucketKey rt t) times)).
Proof.
  intros Hok Hn. set (c := bucketKey rt (now - Z.min lookback (horizon rt))).
  assert (bucketKey rt (now - horizon rt) ≤ c) as Hc by (apply bucketKey_mono; lia).
  assert (filter (λ '(k, _), c ≤ k) (buckets_of rt sid) =
    count_map (filter (λ k, c ≤ k) (bucketKey rt <$> times))) as Hf.
  { rewrite <- filter_count_map. apply map_eq. intros k. rewrite !map_lookup_filter.
    destruct (decide (c ≤ k)) as [Hk|Hk].
    - by rewrite Hok by lia.
    - destruct (buckets_of rt sid !! k), (count_map _ !! k); simpl; by rewrite ?option_guard_False. }
  assert (length (filter (λ k, c ≤ k) (bucketKey rt <$> times)) =
    length (filter (λ t, c ≤ bucketKey rt t) times)) as Hl.
  { clear. induction times as [|t times IH]; [done|]. cbn [fmap list_fmap].
    rewrite !filter_cons. case_decide; simpl; by rewrite IH. }
  assert (Count rt sid lookback now = wrap 64 (sum_counts (filter (λ '(k, _), c ≤ k) (buckets_of rt sid)))) as ->.
  { unfold Count, buckets_of. subst c. rewrite Z.min_comm. unfold Z.min at 1.
    destruct (rt_services rt !! sid) as [b|]; simpl.
    - f_equal. f_equal. unfold Z.min. destruct (Z.ltb_spec (horizon rt) lookback);
        destruct (Z.compare_spec (horizon rt) lookback); subst; try lia; done.
    - by rewrite map_filter_empty. }
  rewrite Hf, sum_count_map, Hl. unfold wrap. apply Z.mod_small.
  pose proof (length_filter (λ t, c ≤ bucketKey rt t) times). lia.
Qed.

Lemma failures_length sid b ops : (length (failures sid b ops) ≤ length ops)%nat.
Proof.
  unfold failures. enough (∀ times, length (foldl (note_op sid b) times ops) ≤ length times + length ops)%nat
    as H by apply (H []).
  induction ops as [|o ops IH]; intros times; simpl; [lia|].
  pose proof (note_op_length sid b times o). pose proof (IH (note_op sid b times o)). lia.
Qed.

(** The smallest of the clocks, to start from. *)
Lemma below_all (l : list Z) now : ∃ c, c ≤ now ∧ Forall (λ x, c ≤ x) l.
Proof.
  induction l as [|x l (c & Hc & Hall)]; [by exists now|]. exists (Z.min c x).
  split; [lia|]. constructor; [lia|]. eapply Forall_impl; [exact Hall|]. simpl. lia.
Qed.

(** * Properties *)

(** A service is flapping exactly when three failures of it since it was
    last forgotten, recorded or backfilled in any order, lie in the window:
    keeping only the newest three times loses nothing the check needs. *)
Theorem IsFlapping_spec h b start ops sid now (Hsid : sid ≠ "") :
  IsFlapping (run ops (NewRestartTracker h b start)) sid now = true ↔
  (flappingRestarts ≤ length (filter (λ t, (now - flappingWindow < t)%Z) (failures sid true ops)))%nat.
Proof.
  unfold IsFlapping. rewrite (run_recent ops _ sid [] Hsid); [apply isFlapping_newest|].
  unfold recent_ok, NewRestartTracker. cbn [rt_recent]. by rewrite lookup_empty.
Qed.

(** While fewer than 2^32 events happened and the clock did not run
    backwards, a count over a lookback is the number of failures recorded
    since the service was last forgotten whose bucket starts in it, a lookback
    past the horizon counting as the horizon: pruning removes no bucket a
    later count still reads. *)
Theorem Count_exact h b start ops sid lookback now (rt := run ops (NewRestartTracker h b start))
    (Hsid : sid ≠ "") (Hlen : Z.of_nat (length ops) + 1 < 2 ^ 32)
    (Hclock : StronglySorted Z.le (clocks ops)) (Hnow : Forall (λ c, c ≤ now) (clocks ops)) :
  Count rt sid lookback now =
  Z.of_nat (length (filter
    (λ t, bucketKey rt (now - Z.min lookback (horizon rt)) ≤ bucketKey rt t) (failures sid false ops))).
Proof.
  destruct (below_all (clocks ops) now) as (c & Hc & Hall). pose proof (failures_length sid false ops).
  apply Count_of_counted; [|lia]. apply (run_counts ops _ sid [] c); auto.
  - simpl. lia.
  - by constructor.
  - intros k _. unfold buckets_of, NewRestartTracker. cbn [rt_services]. rewrite lookup_empty. done.
Qed.

(** A tracker restored from a snapshot, under the settings it was taken
    with, counts over every lookback what the original does from then on. *)
Theorem Restore_counts rt fresh sid lookback restored now
    (Hh : horizon fresh = horizon rt) (Hb : bucket fresh = bucket rt) (Hn : restored ≤ now) :
  Count (Restore fresh (Snapshot rt) restored) sid lookback now = Count rt sid lookback now.
Proof.
  unfold Count, Restore, Snapshot. cbn [rt_services horizon bucket rs_Services].
  rewrite lookup_fmap, Hh. destruct (rt_services rt !! sid) as [m|]; simpl; [|done].
  set (l := if horizon rt <? lookback then horizon rt else lookback).
  assert (l ≤ horizon rt) as Hl by (subst l; destruct (Z.ltb_spec (horizon rt) lookback); lia).
  unfold bucketKey. cbn [bucket]. rewrite Hb. fold (bucketKey rt (now - l)).
  f_equal. f_equal. unfold pruneLocked. apply map_eq. intros k. rewrite !map_lookup_filter.
  destruct (m !! k) as [v|]; simpl; [|done].
  assert (bucketKey fresh (restored - horizon fresh) ≤ bucketKey rt (now - l)) as Hk.
  { unfold bucketKey. rewrite Hb, Hh. apply (bucketKey_mono rt). lia. }
  destruct (decide (bucketKey rt (now - l) ≤ k)) as [Hd|Hd].
  - by rewrite option_guard_True by lia.
  - repeat (case_guard; simpl); done.
Qed.

Lemma IsFlapping_spec_witness :
  "web" ≠ "" ∧
  IsFlapping (run [OpRecord "web" 1000 1000 1000; OpBackfill "web" 900; OpRecord "web" 0 1100 1100]
    (NewRestartTracker 100 0 0)) "web" 2000 = true.
Proof.
  split; [discriminate|]. apply (IsFlapping_spec 100 0 0 _ "web" 2000); [discriminate|].
  vm_compute. lia.
Defined.

Lemma Count_exact_witness :
  Count (run [OpRecord "web" (10 ^ 13) (10 ^ 13) (10 ^ 13); OpForget "db";
      OpRecord "web" (2 * 10 ^ 13) (2 * 10 ^ 13) (2 * 10 ^ 13)]
    (NewRestartTracker (7 * 24 * time_Hour) time_Hour 0)) "web" time_Hour (2 * 10 ^ 13) = 1.
Proof.
  rewrite (Count_exact _ _ _ _ "web" time_Hour (2 * 10 ^ 13)).
  - vm_compute. reflexivity.
  - discriminate.
  - vm_compute. reflexivity.
  - apply (bool_decide_unpack _). vm_compute. reflexivity.
  - apply (bool_decide_unpack _). vm_compute. reflexivity.
Defined.

Lemma Restore_counts_witness :
  let rt := run [OpRecord "web" (10 ^ 13) (10 ^ 13) (10 ^ 13)] (NewRestartTracker 0 0 0) in
  Count (Restore (NewRestartTracker 0 0 5) (Snapshot rt) (10 ^ 13)) "web" time_Hour (10 ^ 13) = 1.
Proof.
  intros rt. etransitivity.
  - apply (Restore_counts rt (NewRestartTracker 0 0 5) "web" time_Hour (10 ^ 13) (10 ^ 13)).
    + vm_compute. reflexivity.
    + vm_compute. reflexivity.
    + lia.
  - vm_compute. reflexivity.
Defined.
