(* ===== verification/SortByIndex.v ===== *)
(** Sorting by position: sortByIndex of internal/cache/resourcemap.go, which
    sorts the positions of a slice and then moves each value to its place by
    following the permutation's cycles, with no second copy of the slice. *)
From S2P Require Import Prelude GoStrings.
#[local] Open Scope nat_scope.

(** Reading a list position by position. *)
Lemma omap_seq_from {T} (k l : list T) : omap (λ j, (k ++ l) !! j) (seq (length k) (length l)) = l.
Proof.
  revert k. induction l as [|x l IH]; intros k; [done|]. simpl.
  rewrite list_lookup_middle by done. f_equal.
  specialize (IH (k ++ [x])). rewrite <- app_assoc, length_app in IH. simpl in IH.
  by rewrite <- Nat.add_1_r.
Qed.

Lemma omap_seq {T} (l : list T) : omap (λ j, l !! j) (seq 0 (length l)) = l.
Proof. apply (omap_seq_from []). Qed.

(** Values carried along with what they are sorted by. *)
Lemma omap_sorted {T} (R : T → T → Prop) (f : nat → T) (l : list T) (order : list nat) :
  (∀ j, j ∈ order → l !! j = Some (f j)) → StronglySorted (λ a b, R (f a) (f b)) order →
  StronglySorted R (omap (λ j, l !! j) order).
Proof.
  intros Hl. induction 1 as [|j order Hs IH Hall]; [constructor|]. simpl.
  rewrite Hl by left. constructor; [apply IH; intros; apply Hl; by right|].
  apply Forall_forall. intros x (i & Hi & Hx)%list_elem_of_omap.
  rewrite Hl in Hx by (by right). simplify_eq. rewrite Forall_forall in Hall. by apply Hall.
Qed.

Section SortByIndex.
Context {T : Type}.

(** The inner loop, from a position whose value was set aside. An index out of
    range panics, which is [None]; so is running out of fuel. *)
Fixpoint follow_cycle (fuel : nat) (start at_ : nat) (held : T) (order : list nat) (vals : list T)
    : option (list nat * list T) :=
  match fuel with
  | 0 => None
  | S fuel =>
      from ← order !! at_;
      let order := <[at_ := at_]> order in
      if from =? start then Some (order, <[at_ := held]> vals)
      else v ← vals !! from; follow_cycle fuel start from held order (<[at_ := v]> vals)
  end.

(** One turn of the outer loop. *)
Definition move_cycle (st : option (list nat * list T)) (start : nat) : option (list nat * list T) :=
  '(order, vals) ← st;
  o ← order !! start;
  if o =? start then Some (order, vals)
  else held ← vals !! start; follow_cycle (length order) start start held order vals.

Definition move_all (order : list nat) (vals : list T) : option (list T) :=
  snd <$> foldl move_cycle (Some (order, vals)) (seq 0 (length order)).

Definition sortByIndex (compare : nat → nat → comparison) (vals : list T) : option (list T) :=
  move_all (SortFunc compare (seq 0 (length vals))) vals.

(** * Following a permutation's cycles *)

Section Permutation.
Context (order : list nat) (vals : list T) (Hperm : order ≡ₚ seq 0 (length vals)).

Lemma order_in i j : order !! i = Some j → j < length vals.
Proof using Hperm.
  intros Hi%list_elem_of_lookup_2. rewrite Hperm in Hi. apply elem_of_seq in Hi. lia.
Qed.

Lemma order_length : length order = length vals.
Proof using Hperm. by rewrite Hperm, length_seq. Qed.

Lemma order_inj i j x : order !! i = Some x → order !! j = Some x → i = j.
Proof using Hperm.
  intros Hi Hj. assert (NoDup order) as Hn by (rewrite Hperm; apply NoDup_seq).
  by eapply NoDup_lookup.
Qed.

(** The positions in [V] are finished, in the order and among the values; the
    rest are as they were, but for the value set aside. *)
Record finished (V : gset nat) (spare : nat → Prop) (o : list nat) (v : list T) : Prop := {
  fi_lengths : length o = length vals ∧ length v = length vals;
  fi_in i : i ∈ V → i < length vals;
  fi_done i : i ∈ V → o !! i = Some i ∧ v !! i = (order !! i ≫= λ j, vals !! j);
  fi_rest i : i ∉ V → o !! i = order !! i ∧ (¬ spare i → v !! i = vals !! i);
}.

Lemma finished_step V o v at_ (spare : nat → Prop) x :
  finished V spare o v → at_ < length vals → at_ ∉ V →
  Some x = (order !! at_ ≫= λ j, vals !! j) →
  finished ({[at_]} ∪ V) spare (<[at_ := at_]> o) (<[at_ := x]> v).
Proof using Hperm.
  intros [[Hlo Hlv] Hin Hd Hr] Hat HV Hx. split.
  - by rewrite !length_insert.
  - set_solver.
  - intros i Hi. destruct (decide (i = at_)) as [->|Hne].
    + rewrite !list_lookup_insert_eq by lia. by rewrite Hx.
    + rewrite !list_lookup_insert_ne by done. apply Hd. set_solver.
  - intros i Hi. rewrite !list_lookup_insert_ne by set_solver. apply Hr. set_solver.
Qed.

Lemma positions_bound (V : gset nat) at_ :
  (∀ i, i ∈ V → i < length vals) → at_ < length vals → at_ ∉ V → size V < length vals.
Proof.
  intros Hin Hat HV.
  assert (size ({[at_]} ∪ V) ≤ size (list_to_set (seq 0 (length vals)) : gset nat)) as Hs.
  { apply subseteq_size. intros i Hi. apply elem_of_list_to_set, elem_of_seq.
    apply elem_of_union in Hi as [->%elem_of_singleton|Hi%Hin]; lia. }
  rewrite size_union, size_singleton in Hs by set_solver.
  rewrite size_list_to_set, length_seq in Hs by apply NoDup_seq. lia.
Qed.

(** Along the cycle of [start]: what is finished closes up when the cycle does. *)
Lemma follow_cycle_finishes fuel start at_ held V o v :
  finished V (λ i, i = start) o v → vals !! start = Some held → at_ < length vals → at_ ∉ V →
  (at_ = start ∧ start ∉ V ∨ start ∈ V ∧ ∃ i, i ∈ V ∧ order !! i = Some at_) →
  (∀ i j, i ∈ V → order !! i = Some j → j ∈ V ∨ j = at_) →
  (∀ i j, order !! i = Some j → j ∈ V → i ∈ V ∨ j = start) →
  length vals ≤ fuel + size V →
  ∃ V' o' v', follow_cycle fuel start at_ held o v = Some (o', v') ∧ V ⊆ V' ∧ start ∈ V' ∧
    finished V' (λ _, False) o' v' ∧ (∀ i j, order !! i = Some j → i ∈ V' ↔ j ∈ V').
Proof using Hperm.
  revert at_ V o v. induction fuel as [|fuel IH]; intros at_ V o v Hf Hh Hat HV Hat' Hsucc Hpred Hfuel.
  { pose proof (positions_bound V at_ (fi_in _ _ _ _ Hf) Hat HV). lia. }
  simpl. pose proof Hf as [[Hlo Hlv] Hin Hd Hr]. destruct (Hr at_ HV) as [Ho _]. rewrite Ho.
  destruct (order !! at_) as [from|] eqn:Efrom.
  2: { apply lookup_ge_None in Efrom. rewrite order_length in Efrom. lia. }
  simpl. pose proof (order_in _ _ Efrom) as Hfrom. destruct (Nat.eqb_spec from start) as [->|Hne].
  - exists ({[at_]} ∪ V). eexists _, _. split; [done|].
    assert (finished ({[at_]} ∪ V) (λ i, i = start) (<[at_ := at_]> o) (<[at_ := held]> v)) as Hf'
      by (apply finished_step; try done; by rewrite Efrom).
    assert (start ∈ {[at_]} ∪ V) as Hst by (destruct Hat' as [[-> _]|[? _]]; set_solver).
    split; [set_solver|]. split; [done|]. split.
    + destruct Hf' as [? ? ? Hr']. split; try done. intros i Hi. destruct (Hr' i Hi) as [-> Hv].
      split; [done|]. intros _. apply Hv. set_solver.
    + intros i j Hj. split; intros [->%elem_of_singleton|Hi]%elem_of_union; [by simplify_eq| | |].
      * destruct (Hsucc i j Hi Hj); set_solver.
      * destruct Hat' as [[-> _]|[_ (i' & Hi' & Hj')]]; [rewrite (order_inj _ _ _ Hj Efrom); set_solver|].
        rewrite (order_inj _ _ _ Hj Hj'). set_solver.
      * destruct (Hpred i j Hj Hi) as [| ->]; [set_solver|]. rewrite (order_inj _ _ _ Hj Efrom). set_solver.
  - assert (from ∉ V) as HfV by (intros Hin'; destruct (Hpred _ _ Efrom Hin'); done).
    assert (from ≠ at_) as Hfa.
    { intros ->. destruct Hat' as [[? _]|[_ (i & Hi & Hj)]]; [done|].
      rewrite (order_inj _ _ _ Hj Efrom) in Hi. done. }
    destruct (Hr from HfV) as [_ Hvf]. rewrite (Hvf Hne).
    destruct (lookup_lt_is_Some_2 vals from Hfrom) as [x Hx]. rewrite Hx. simpl.
    destruct (IH from ({[at_]} ∪ V) (<[at_ := at_]> o) (<[at_ := x]> v))
      as (V' & o' & v' & Hc & Hsub & Hst & Hf' & Hcl).
    + apply finished_step; try done. by rewrite Efrom.
    + done.
    + done.
    + set_solver.
    + right. split; [destruct Hat' as [[-> _]|[? _]]; set_solver|]. exists at_. set_solver.
    + intros i j [->%elem_of_singleton|Hi]%elem_of_union Hj; [simplify_eq; by right|].
      destruct (Hsucc i j Hi Hj); set_solver.
    + intros i j Hj [->%elem_of_singleton|Hi]%elem_of_union.
      * destruct Hat' as [[? _]|[_ (i' & Hi' & Hj')]]; [by right|left].
        rewrite (order_inj _ _ _ Hj Hj'). set_solver.
      * destruct (Hpred i j Hj Hi); set_solver.
    + rewrite size_union, size_singleton by set_solver. lia.
    + exists V', o', v'. split_and!; [done|set_solver|done|done|done].
Qed.

(** The outer loop: what was passed is finished, and closed under the
    permutation. *)
Definition moved (st : nat) (o : list nat) (v : list T) : Prop :=
  ∃ V, finished V (λ _, False) o v ∧ (∀ i, i < st → i ∈ V ∨ order !! i = Some i) ∧
    ∀ i j, order !! i = Some j → i ∈ V ↔ j ∈ V.

Lemma move_cycle_moved st o v :
  st < length vals → moved st o v →
  ∃ o' v', move_cycle (Some (o, v)) st = Some (o', v') ∧ moved (S st) o' v'.
Proof using Hperm.
  intros Hst (V & Hf & Hlt & Hcl). simpl. pose proof Hf as [[Hlo Hlv] Hin Hd Hr].
  destruct (lookup_lt_is_Some_2 o st) as [x Hx]; [lia|]. rewrite Hx. simpl.
  destruct (Nat.eqb_spec x st) as [->|Hne].
  - exists o, v. split; [done|]. exists V. split; [done|]. split; [|done].
    intros i Hi. destruct (decide (i = st)) as [->|]; [|apply Hlt; lia].
    destruct (decide (st ∈ V)) as [|HV]; [by left|right]. by destruct (Hr st HV) as [<- _].
  - assert (st ∉ V) as HV by (intros HV; destruct (Hd st HV) as [Ho _]; congruence).
    destruct (Hr st HV) as [Ho Hv]. rewrite Hv by naive_solver.
    destruct (lookup_lt_is_Some_2 vals st Hst) as [held Hh]. rewrite Hh. simpl.
    destruct (follow_cycle_finishes (length o) st st held V o v) as (V' & o' & v' & -> & Hsub & HstV & Hf' & Hcl');
      try done; [|by left|intros i j Hi Hj; left; by apply (Hcl i j)|intros i j Hj Hi; left; by apply (Hcl i j)|lia|].
    { split; [done|done|done|]. intros i Hi. destruct (Hr i Hi). naive_solver. }
    exists o', v'. split; [done|]. exists V'. split; [done|]. split; [|done].
    intros i Hi. destruct (decide (i = st)) as [->|]; [by left|].
    destruct (Hlt i) as [|]; [lia|left; set_solver|by right].
Qed.

Lemma move_cycles_moved n o v :
  n ≤ length vals → moved 0 o v →
  ∃ o' v', foldl move_cycle (Some (o, v)) (seq 0 n) = Some (o', v') ∧ moved n o' v'.
Proof using Hperm.
  intros Hn Hm. induction n as [|n IH]; [by exists o, v|].
  rewrite seq_S, foldl_app. simpl. destruct IH as (o' & v' & -> & Hm'); [lia|].
  apply move_cycle_moved; [lia|done].
Qed.

Lemma move_all_reads : move_all order vals = Some (omap (λ j, vals !! j) order).
Proof using Hperm.
  unfold move_all. rewrite order_length.
  destruct (move_cycles_moved (length vals) order vals) as (o' & v' & -> & V & Hf & Hlt & _); [done| |].
  { exists ∅. split; [|split; [lia|set_solver]]. split; [split; [apply order_length|done]|set_solver|set_solver|done]. }
  simpl. f_equal. destruct Hf as [[_ Hlv] _ Hd Hr].
  assert (∀ l, Forall (λ j, j < length vals) l →
    ∀ i, omap (λ j, vals !! j) l !! i = (l !! i ≫= λ j, vals !! j)) as Homap.
  { clear. induction 1 as [|j l Hj Hl IH]; intros i; [done|].
    destruct (lookup_lt_is_Some_2 vals j Hj) as [x Hx]. simpl. rewrite Hx.
    destruct i as [|i]; simpl; [by rewrite Hx|apply IH]. }
  apply list_eq. intros i. rewrite Homap.
  2: { apply Forall_forall. intros j [i' Hi']%list_elem_of_lookup. by eapply order_in. }
  destruct (decide (i < length vals)) as [Hi|Hi].
  - destruct (decide (i ∈ V)) as [HV|HV]; [by apply Hd|].
    destruct (Hlt i Hi) as [|Hfix]; [done|]. rewrite Hfix. simpl. apply (Hr i HV). naive_solver.
  - rewrite !lookup_ge_None_2 by (rewrite ?order_length; lia). done.
Qed.
End Permutation.

(** SortByIndex always finishes and never indexes out of range, and leaves
    the value of the i-th position in sorted order at i: the same values, each
    as often, ordered by the comparison of the positions they came from. *)
Theorem sortByIndex_sorts (compare : nat → nat → comparison) `{!Compare compare} (vals : list T) :
  ∃ order, order ≡ₚ seq 0 (length vals) ∧ StronglySorted (cmp_le compare) order ∧
    sortByIndex compare vals = Some (omap (λ j, vals !! j) order) ∧
    omap (λ j, vals !! j) order ≡ₚ vals.
Proof.
  exists (SortFunc compare (seq 0 (length vals))).
  assert (SortFunc compare (seq 0 (length vals)) ≡ₚ seq 0 (length vals)) as Hp by apply SortFunc_perm.
  split; [done|]. split; [by apply SortFunc_sorted|]. split; [by apply move_all_reads|].
  rewrite Hp. apply reflexive_eq. apply omap_seq.
Qed.
End SortByIndex.

(** Sorting three names by position. *)
Lemma sortByIndex_sorts_witness :
  let names := ["c"; "a"; "b"]%string in
  let compare a b := str_compare (default ""%string (names !! a)) (default ""%string (names !! b)) in
  sortByIndex compare names = Some ["a"; "b"; "c"]%string ∧
  ∃ order, order ≡ₚ seq 0 3 ∧ sortByIndex compare names = Some (omap (λ j, names !! j) order).
Proof.
  intros names compare. split; [vm_compute; reflexivity|].
  destruct (sortByIndex_sorts (T := string) compare names) as (order & Hp & _ & Hs & _).
  exists order. split; [exact Hp|exact Hs].
Defined.
