(* ===== verification/CacheState.v ===== *)
(** The cache's data: what internal/cache reads of Docker's resources, the
    events it emits, the derived indexes and the [Cache] record of
    internal/cache/cache.go. Docker's types are its own; of them these records
    hold the fields the cache looks at. *)
From S2P Require Import Prelude GoStrings SortedLists Restarts.
#[local] Open Scope string_scope.
#[local] Open Scope nat_scope.

(** * Docker's resources *)

Abbreviation Labels := (gmap string string).

Record ContainerSpec := mkContainerSpec {
  cs_Configs : list string;           (* the config IDs *)
  cs_Secrets : list string;           (* the secret IDs *)
  cs_Mounts : list (string * string); (* type and source *)
  cs_Labels : Labels;
}.

Record TaskSpec := mkTaskSpec {
  ts_ContainerSpec : option ContainerSpec;
  ts_Networks : list string;          (* the targets *)
}.

Record Node := mkNode {
  n_ID : string;
  n_Version : Z;
  n_Hostname : string;
  n_Availability : string;
  n_State : string;
  n_NanoCPUs : Z;                     (* int64, as MemoryBytes *)
  n_MemoryBytes : Z;
}.

(** Which of its four pointers a service's mode sets; a replicated one may name
    its replicas. *)
Record ServiceMode := mkServiceMode {
  m_Replicated : option (option Z);
  m_Global : bool;
  m_ReplicatedJob : bool;
  m_GlobalJob : bool;
}.

Record Service := mkService {
  s_ID : string;
  s_Version : Z;
  s_Name : string;
  s_Labels : Labels;
  s_TaskTemplate : TaskSpec;
  s_PreviousSpec : option TaskSpec;
  s_Mode : ServiceMode;
  s_JobIteration : option Z;          (* of its JobStatus *)
}.

Record Task := mkTask {
  t_ID : string;
  t_Version : Z;
  t_ServiceID : string;
  t_NodeID : string;
  t_State : string;
  t_DesiredState : string;
  t_Err : string;
  t_Message : string;
  t_Timestamp : Z;
  t_ContainerSpec : option ContainerSpec;
  t_Slot : Z;
  t_JobIteration : option Z;
}.

Record Config := mkConfig { c_ID : string; c_Version : Z; c_Name : string; c_Labels : Labels }.

Record Secret := mkSecret {
  x_ID : string;
  x_Version : Z;
  x_Name : string;
  x_Labels : Labels;
  x_Data : option string;
}.

Record Network := mkNetwork { w_ID : string; w_Name : string; w_Labels : Labels }.
Record Volume := mkVolume { v_Name : string; v_Labels : Labels }.

(** * Events *)

Inductive EventType :=
| EventNode | EventService | EventTask | EventConfig | EventSecret | EventNetwork | EventVolume
| EventSync.

#[global] Instance EventType_eq_dec : EqDecision EventType.
Proof. solve_decision. Defined.

(** What an event's [any] fields hold. *)
Inductive Resource :=
| RNone
| RNode (n : Node)
| RService (s : Service)
| RTask (t : Task)
| RConfig (c : Config)
| RSecret (x : Secret)
| RNetwork (w : Network)
| RVolume (v : Volume).

#[global] Instance ContainerSpec_eq_dec : EqDecision ContainerSpec.
Proof. solve_decision. Defined.
#[global] Instance TaskSpec_eq_dec : EqDecision TaskSpec.
Proof. solve_decision. Defined.
#[global] Instance Node_eq_dec : EqDecision Node.
Proof. solve_decision. Defined.
#[global] Instance ServiceMode_eq_dec : EqDecision ServiceMode.
Proof. solve_decision. Defined.
#[global] Instance Service_eq_dec : EqDecision Service.
Proof. solve_decision. Defined.
#[global] Instance Task_eq_dec : EqDecision Task.
Proof. solve_decision. Defined.
#[global] Instance Config_eq_dec : EqDecision Config.
Proof. solve_decision. Defined.
#[global] Instance Secret_eq_dec : EqDecision Secret.
Proof. solve_decision. Defined.
#[global] Instance Network_eq_dec : EqDecision Network.
Proof. solve_decision. Defined.
#[global] Instance Volume_eq_dec : EqDecision Volume.
Proof. solve_decision. Defined.
#[global] Instance Resource_eq_dec : EqDecision Resource.
Proof. solve_decision. Defined.

Record Event := mkEvent {
  Type_ : EventType;
  Action : string;
  e_ID : string;
  Name : string;
  Resource_ : Resource;
  Previous : Resource;
  e_Service : string;
  e_Stack : string;
}.

Definition setAction (existed : bool) : string := if existed then "update" else "create".

Definition ExtractName (e : Event) : string :=
  match Resource_ e with
  | RNode n => n_Hostname n
  | RService s => s_Name s
  | RTask t => t_ID t
  | RConfig c => c_Name c
  | RSecret x => x_Name x
  | RNetwork w => w_Name w
  | RVolume v => v_Name v
  | RNone => ""
  end.

(** * Derived state *)

Record Stack := mkStack {
  st_Name : string;
  st_Services : list string;
  st_Configs : list string;
  st_Secrets : list string;
  st_Networks : list string;
  st_Volumes : list string;
}.

(** An index from a resource to the services that name it, each with whether
    its current spec does. *)
Abbreviation RefIndex := (gmap string (gmap string bool)).

Record serviceRefIndex := mkRefIndex {
  byName : gmap string string;
  byConfig : RefIndex;
  bySecret : RefIndex;
  byNetwork : RefIndex;
  byVolume : RefIndex;
}.

Definition newServiceRefIndex : serviceRefIndex := mkRefIndex ∅ ∅ ∅ ∅ ∅.

Record refSet := mkRefSet {
  r_configs : gmap string bool;
  r_secrets : gmap string bool;
  r_networks : gmap string bool;
  r_volumes : gmap string bool;
}.

Abbreviation TaskIndex := (gmap string (gset string)).

(** * The cache *)

Record Cache := mkCache {
  nodes : gmap string Node;
  services : gmap string Service;
  tasks : gmap string Task;
  tasksByService : TaskIndex;
  tasksByNode : TaskIndex;
  goneServices : gmap string Service;
  configs : gmap string Config;
  secrets : gmap string Secret;
  networks : gmap string Network;
  volumes : gmap string Volume;
  stacks : gmap string Stack;
  lastSync : Z;
  tasksSynced : bool;
  serviceRef : serviceRefIndex;
  restarts : RestartTracker;
  generation : Z;
  versionGeneration : Z;
}.

Definition New (now : Z) : Cache :=
  mkCache ∅ ∅ ∅ ∅ ∅ ∅ ∅ ∅ ∅ ∅ ∅ time_zero false newServiceRefIndex
    (NewRestartTracker (7 * 24 * time_Hour) time_Hour now) 0 0.

Definition set_nodes (c : Cache) (m : gmap string Node) : Cache :=
  mkCache m (services c) (tasks c) (tasksByService c) (tasksByNode c) (goneServices c) (configs c)
    (secrets c) (networks c) (volumes c) (stacks c) (lastSync c) (tasksSynced c) (serviceRef c)
    (restarts c) (generation c) (versionGeneration c).

Definition set_services (c : Cache) (m : gmap string Service) : Cache :=
  mkCache (nodes c) m (tasks c) (tasksByService c) (tasksByNode c) (goneServices c) (configs c)
    (secrets c) (networks c) (volumes c) (stacks c) (lastSync c) (tasksSynced c) (serviceRef c)
    (restarts c) (generation c) (versionGeneration c).

Definition set_tasks (c : Cache) (m : gmap string Task) (byService byNode : TaskIndex) : Cache :=
  mkCache (nodes c) (services c) m byService byNode (goneServices c) (configs c)
    (secrets c) (networks c) (volumes c) (stacks c) (lastSync c) (tasksSynced c) (serviceRef c)
    (restarts c) (generation c) (versionGeneration c).

Definition set_goneServices (c : Cache) (m : gmap string Service) : Cache :=
  mkCache (nodes c) (services c) (tasks c) (tasksByService c) (tasksByNode c) m (configs c)
    (secrets c) (networks c) (volumes c) (stacks c) (lastSync c) (tasksSynced c) (serviceRef c)
    (restarts c) (generation c) (versionGeneration c).

Definition set_configs (c : Cache) (m : gmap string Config) : Cache :=
  mkCache (nodes c) (services c) (tasks c) (tasksByService c) (tasksByNode c) (goneServices c) m
    (secrets c) (networks c) (volumes c) (stacks c) (lastSync c) (tasksSynced c) (serviceRef c)
    (restarts c) (generation c) (versionGeneration c).

Definition set_secrets (c : Cache) (m : gmap string Secret) : Cache :=
  mkCache (nodes c) (services c) (tasks c) (tasksByService c) (tasksByNode c) (goneServices c)
    (configs c) m (networks c) (volumes c) (stacks c) (lastSync c) (tasksSynced c) (serviceRef c)
    (restarts c) (generation c) (versionGeneration c).

Definition set_networks (c : Cache) (m : gmap string Network) : Cache :=
  mkCache (nodes c) (services c) (tasks c) (tasksByService c) (tasksByNode c) (goneServices c)
    (configs c) (secrets c) m (volumes c) (stacks c) (lastSync c) (tasksSynced c) (serviceRef c)
    (restarts c) (generation c) (versionGeneration c).

Definition set_volumes (c : Cache) (m : gmap string Volume) : Cache :=
  mkCache (nodes c) (services c) (tasks c) (tasksByService c) (tasksByNode c) (goneServices c)
    (configs c) (secrets c) (networks c) m (stacks c) (lastSync c) (tasksSynced c) (serviceRef c)
    (restarts c) (generation c) (versionGeneration c).

Definition set_stacks (c : Cache) (m : gmap string Stack) : Cache :=
  mkCache (nodes c) (services c) (tasks c) (tasksByService c) (tasksByNode c) (goneServices c)
    (configs c) (secrets c) (networks c) (volumes c) m (lastSync c) (tasksSynced c) (serviceRef c)
    (restarts c) (generation c) (versionGeneration c).

Definition set_serviceRef (c : Cache) (r : serviceRefIndex) : Cache :=
  mkCache (nodes c) (services c) (tasks c) (tasksByService c) (tasksByNode c) (goneServices c)
    (configs c) (secrets c) (networks c) (volumes c) (stacks c) (lastSync c) (tasksSynced c) r
    (restarts c) (generation c) (versionGeneration c).

Definition set_restarts (c : Cache) (r : RestartTracker) : Cache :=
  mkCache (nodes c) (services c) (tasks c) (tasksByService c) (tasksByNode c) (goneServices c)
    (configs c) (secrets c) (networks c) (volumes c) (stacks c) (lastSync c) (tasksSynced c)
    (serviceRef c) r (generation c) (versionGeneration c).

Definition set_synced (c : Cache) (at_ : Z) (tasksSynced : bool) : Cache :=
  mkCache (nodes c) (services c) (tasks c) (tasksByService c) (tasksByNode c) (goneServices c)
    (configs c) (secrets c) (networks c) (volumes c) (stacks c) at_ tasksSynced
    (serviceRef c) (restarts c) (generation c) (versionGeneration c).

Definition set_generations (c : Cache) (g v : Z) : Cache :=
  mkCache (nodes c) (services c) (tasks c) (tasksByService c) (tasksByNode c) (goneServices c)
    (configs c) (secrets c) (networks c) (volumes c) (stacks c) (lastSync c) (tasksSynced c)
    (serviceRef c) (restarts c) g v.
