(* ===== verification/CacheStacks.v ===== *)
(** Stack membership: internal/cache/stacks.go, the incremental updates and the
    full rebuild. *)
From S2P Require Import Prelude GoStrings SortedLists Restarts CacheState.
#[local] Open Scope string_scope.
#[local] Open Scope nat_scope.

Definition StackLabel : string := "com.docker.stack.namespace".

(** [labels[StackLabel]], the empty string for one not there. *)
Definition label_of (labels : Labels) : string := labels.[StackLabel].

Definition members (k : EventType) (s : Stack) : list string :=
  match k with
  | EventService => st_Services s
  | EventConfig => st_Configs s
  | EventSecret => st_Secrets s
  | EventNetwork => st_Networks s
  | EventVolume => st_Volumes s
  | _ => []
  end.

(** The switch of addToStack and removeFromStack over the kind. *)
Definition update_members (k : EventType) (f : list string → list string) (s : Stack) : Stack :=
  match s with
  | mkStack n sv cf sc nw vo =>
      match k with
      | EventService => mkStack n (f sv) cf sc nw vo
      | EventConfig => mkStack n sv (f cf) sc nw vo
      | EventSecret => mkStack n sv cf (f sc) nw vo
      | EventNetwork => mkStack n sv cf sc (f nw) vo
      | EventVolume => mkStack n sv cf sc nw (f vo)
      | _ => s
      end
  end.

Definition new_stack (ns : string) : Stack := mkStack ns [] [] [] [] [].

(** Ranging over a map and appending the keys whose value passes. *)
Definition keys_where `{MapRange} {T} (p : T → bool) (items : gmap string T) : list string :=
  omap (λ '(id, v), if p v then Some id else None) (range items).

Definition seedStack `{MapRange} (c : Cache) (ns : string) : Stack :=
  let sorted {T} (labels : T → Labels) (items : gmap string T) :=
    SortStrings (keys_where (λ v, bool_decide (label_of (labels v) = ns)) items) in
  mkStack ns [] (sorted c_Labels (configs c)) (sorted x_Labels (secrets c))
    (sorted w_Labels (networks c)) (sorted v_Labels (volumes c)).

Definition addToStack `{MapRange} (k : EventType) (id : string) (labels : Labels) (c : Cache) : Cache :=
  match labels !! StackLabel with
  | None => c
  | Some ns =>
      match stacks c !! ns with
      | Some s => set_stacks c (<[ns := update_members k (λ l, appendUnique l id) s]> (stacks c))
      | None =>
          if bool_decide (k = EventService) then
            set_stacks c (<[ns := update_members k (λ l, appendUnique l id) (seedStack c ns)]> (stacks c))
          else c
      end
  end.

Definition removeFromStack (k : EventType) (id : string) (labels : Labels) (c : Cache) : Cache :=
  match labels !! StackLabel with
  | None => c
  | Some ns =>
      match stacks c !! ns with
      | None => c
      | Some s =>
          let s := update_members k (λ l, removeStr l id) s in
          if bool_decide (length (st_Services s) = 0) then set_stacks c (delete ns (stacks c))
          else set_stacks c (<[ns := s]> (stacks c))
      end
  end.

Definition StackContains (c : Cache) (name : string) (k : EventType) (id : string) : bool :=
  match stacks c !! name with
  | None => false
  | Some s => (BinarySearchFunc str_compare (members k s) id).2
  end.

(** One of rebuildStacks' loops over a resource map. *)
Definition collect `{MapRange} {T} (k : EventType) (labels : T → Labels) (items : gmap string T)
    (stacks : gmap string Stack) : gmap string Stack :=
  foldl (λ st '(id, v),
    match labels v !! StackLabel with
    | Some ns =>
        <[ns := update_members k (λ l, l ++ [id])%list (default (new_stack ns) (st !! ns))]> st
    | None => st
    end) stacks (range items).

Definition sort_stack (s : Stack) : Stack :=
  mkStack (st_Name s) (SortStrings (st_Services s)) (SortStrings (st_Configs s))
    (SortStrings (st_Secrets s)) (SortStrings (st_Networks s)) (SortStrings (st_Volumes s)).

Definition rebuildStacks `{MapRange} (c : Cache) : Cache :=
  let st := collect EventService s_Labels (services c) ∅ in
  let st := collect EventConfig c_Labels (configs c) st in
  let st := collect EventSecret x_Labels (secrets c) st in
  let st := collect EventNetwork w_Labels (networks c) st in
  let st := collect EventVolume v_Labels (volumes c) st in
  set_stacks c (omap (λ s,
    if bool_decide (length (st_Services s) = 0) then None else Some (sort_stack s)) st).

(** internal/cache/cache.go *)
Definition GetStack (c : Cache) (name : string) : option Stack := stacks c !! name.

Definition ListStacks `{MapRange} (c : Cache) : list Stack :=
  SortFunc (λ a b, str_compare (st_Name a) (st_Name b)) (range (stacks c)).*2.

(** * What a stack is *)

(** The keys of the resources labelled with a stack. *)
Definition labelled {T} (labels : T → Labels) (items : gmap string T) (ns : string) : gset string :=
  dom (filter (λ '(_, v), labels v !! StackLabel = Some ns) items).

Definition members_of (c : Cache) (k : EventType) (ns : string) : gset string :=
  match k with
  | EventService => labelled s_Labels (services c) ns
  | EventConfig => labelled c_Labels (configs c) ns
  | EventSecret => labelled x_Labels (secrets c) ns
  | EventNetwork => labelled w_Labels (networks c) ns
  | EventVolume => labelled v_Labels (volumes c) ns
  | _ => ∅
  end.

(** A stack exists while it has a service, and lists its members sorted. *)
Definition stack_spec (mem : EventType → string → gset string) (ns : string) : option Stack :=
  if decide (mem EventService ns = ∅) then None else
  Some (mkStack ns (sorted_elements (mem EventService ns)) (sorted_elements (mem EventConfig ns))
    (sorted_elements (mem EventSecret ns)) (sorted_elements (mem EventNetwork ns))
    (sorted_elements (mem EventVolume ns))).

Definition stacks_match (mem : EventType → string → gset string) (st : gmap string Stack) : Prop :=
  ∀ ns, st !! ns = stack_spec mem ns.

(** * Facts *)

Lemma elem_of_labelled {T} (labels : T → Labels) (items : gmap string T) ns id :
  id ∈ labelled labels items ns ↔ ∃ v, items !! id = Some v ∧ labels v !! StackLabel = Some ns.
Proof.
  unfold labelled. rewrite elem_of_dom. unfold is_Some. by setoid_rewrite map_lookup_filter_Some.
Qed.

Lemma stack_spec_ext mem mem' ns :
  (∀ k, mem k ns = mem' k ns) → stack_spec mem ns = stack_spec mem' ns.
Proof. intros H. unfold stack_spec. by rewrite !H. Qed.

Lemma stacks_match_ext mem mem' st :
  (∀ k ns, mem k ns = mem' k ns) → stacks_match mem st → stacks_match mem' st.
Proof. intros H Hm ns. rewrite Hm. by apply stack_spec_ext. Qed.

(** Membership with one resource taken out, or put in. *)
Definition mem_remove (k : EventType) (id : string) (labels : Labels)
    (mem : EventType → string → gset string) (k' : EventType) (ns : string) : gset string :=
  if decide (k' = k ∧ labels !! StackLabel = Some ns) then mem k' ns ∖ {[id]} else mem k' ns.

Definition mem_add (k : EventType) (id : string) (labels : Labels)
    (mem : EventType → string → gset string) (k' : EventType) (ns : string) : gset string :=
  if decide (k' = k ∧ labels !! StackLabel = Some ns) then {[id]} ∪ mem k' ns else mem k' ns.

Definition stack_of (mem : EventType → string → gset string) (ns : string) : Stack :=
  mkStack ns (sorted_elements (mem EventService ns)) (sorted_elements (mem EventConfig ns))
    (sorted_elements (mem EventSecret ns)) (sorted_elements (mem EventNetwork ns))
    (sorted_elements (mem EventVolume ns)).

Lemma stack_spec_of mem ns :
  stack_spec mem ns = if decide (mem EventService ns = ∅) then None else Some (stack_of mem ns).
Proof. done. Qed.

Definition stack_kind (k : EventType) : Prop :=
  k ∈ [EventService; EventConfig; EventSecret; EventNetwork; EventVolume].

Lemma update_remove mem k id labels ns :
  labels !! StackLabel = Some ns →
  update_members k (λ l, removeStr l id) (stack_of mem ns) = stack_of (mem_remove k id labels mem) ns.
Proof.
  intros Hl. unfold stack_of, mem_remove. rewrite Hl.
  destruct k; simpl; rewrite ?removeStr_elements; repeat case_decide; try done; naive_solver.
Qed.

Lemma update_add mem k id labels ns :
  labels !! StackLabel = Some ns →
  update_members k (λ l, appendUnique l id) (stack_of mem ns) = stack_of (mem_add k id labels mem) ns.
Proof.
  intros Hl. unfold stack_of, mem_add. rewrite Hl.
  destruct k; simpl; rewrite ?appendUnique_elements; repeat case_decide; try done; naive_solver.
Qed.

Lemma remove_match k id labels c mem :
  stacks_match mem (stacks c) →
  stacks_match (mem_remove k id labels mem) (stacks (removeFromStack k id labels c)).
Proof.
  intros Hm. unfold removeFromStack. destruct (labels !! StackLabel) as [ns|] eqn:Hl.
  2:{ eapply stacks_match_ext; [|exact Hm]. intros k' ns. unfold mem_remove. rewrite Hl.
      by rewrite decide_False by naive_solver. }
  assert (∀ ns', ns' ≠ ns → stack_spec (mem_remove k id labels mem) ns' = stack_spec mem ns') as Hother.
  { intros ns' Hne. apply stack_spec_ext. intros k'. unfold mem_remove. rewrite Hl.
    by rewrite decide_False by naive_solver. }
  pose proof (Hm ns) as Hns. rewrite stack_spec_of in Hns. destruct (stacks c !! ns) as [s|] eqn:Hs.
  - destruct (decide (mem EventService ns = ∅)) as [|Hne]; [done|]. injection Hns as ->.
    rewrite (update_remove mem k id labels ns Hl). case_bool_decide as He; intros ns'; simpl.
    + destruct (decide (ns' = ns)) as [->|Hne']; [|by rewrite lookup_delete_ne, Hm, Hother].
      rewrite lookup_delete_eq, stack_spec_of. apply length_zero_iff_nil, sorted_elements_nil in He.
      by rewrite decide_True.
    + destruct (decide (ns' = ns)) as [->|Hne']; [|by rewrite lookup_insert_ne, Hm, Hother].
      rewrite lookup_insert_eq, stack_spec_of. rewrite decide_False; [done|].
      intros Hnil. apply He. simpl. by rewrite Hnil, (proj2 (sorted_elements_nil ∅)).
  - destruct (decide (mem EventService ns = ∅)) as [He|]; [|done]. intros ns'.
    destruct (decide (ns' = ns)) as [->|Hne']; [|by rewrite Hother].
    rewrite Hs, stack_spec_of. unfold mem_remove. rewrite decide_True; [done|].
    case_decide; set_solver.
Qed.

(** What seedStack must find for a service's first stack entry. *)
Definition seeds `{MapRange} (mem : EventType → string → gset string) (c : Cache) (ns : string) : Prop :=
  ∀ k, k ≠ EventService → members k (seedStack c ns) = members k (stack_of mem ns).

Lemma add_match `{MapRange} k id labels c mem :
  stacks_match mem (stacks c) →
  (∀ ns, k = EventService → labels !! StackLabel = Some ns → seeds mem c ns) →
  stacks_match (mem_add k id labels mem) (stacks (addToStack k id labels c)).
Proof.
  intros Hm Hseed. unfold addToStack. destruct (labels !! StackLabel) as [ns|] eqn:Hl.
  2:{ eapply stacks_match_ext; [|exact Hm]. intros k' ns. unfold mem_add. rewrite Hl.
      by rewrite decide_False by naive_solver. }
  assert (∀ ns', ns' ≠ ns → stack_spec (mem_add k id labels mem) ns' = stack_spec mem ns') as Hother.
  { intros ns' Hne. apply stack_spec_ext. intros k'. unfold mem_add. rewrite Hl.
    by rewrite decide_False by naive_solver. }
  assert (∀ s, s = stack_of mem ns → mem_add k id labels mem EventService ns ≠ ∅ →
    stacks_match (mem_add k id labels mem)
      (<[ns := update_members k (λ l, appendUnique l id) s]> (stacks c))) as Hput.
  { intros s -> Hne ns'. destruct (decide (ns' = ns)) as [->|Hne']; [|by rewrite lookup_insert_ne, Hm, Hother].
    rewrite lookup_insert_eq, stack_spec_of, (update_add _ _ _ labels) by done.
    by rewrite decide_False. }
  pose proof (Hm ns) as Hns. rewrite stack_spec_of in Hns. destruct (stacks c !! ns) as [s|] eqn:Hs.
  - destruct (decide (mem EventService ns = ∅)) as [|Hne]; [done|]. injection Hns as ->.
    apply Hput; [done|]. unfold mem_add. case_decide; set_solver.
  - destruct (decide (mem EventService ns = ∅)) as [He|]; [|done]. case_bool_decide as Hk.
    + apply Hput; [|unfold mem_add; rewrite decide_True by done; set_solver].
      specialize (Hseed ns Hk eq_refl). unfold stack_of. rewrite He.
      rewrite (proj2 (sorted_elements_nil ∅)) by done. unfold seedStack. f_equal.
      * exact (Hseed EventConfig ltac:(done)).
      * exact (Hseed EventSecret ltac:(done)).
      * exact (Hseed EventNetwork ltac:(done)).
      * exact (Hseed EventVolume ltac:(done)).
    + intros ns'. destruct (decide (ns' = ns)) as [->|Hne']; [|by rewrite Hother].
      rewrite Hs, stack_spec_of. rewrite decide_True; [done|].
      unfold mem_add. rewrite decide_False; [done|]. intros [<- _]. done.
Qed.

(** ** The rebuild *)

Lemma elem_of_keys_where `{MapRange} {T} (p : T → bool) (items : gmap string T) id :
  id ∈ keys_where p items ↔ ∃ v, items !! id = Some v ∧ p v = true.
Proof.
  unfold keys_where. rewrite list_elem_of_omap. split.
  - intros ([x v] & Hx%elem_of_range & Hp). destruct (p v) eqn:E; [|done]. injection Hp as ->. eauto.
  - intros (v & Hv & Hp). exists (id, v). rewrite elem_of_range, Hp. done.
Qed.

Lemma NoDup_keys_where `{MapRange} {T} (p : T → bool) (items : gmap string T) :
  NoDup (keys_where p items).
Proof.
  unfold keys_where. pose proof (NoDup_range items) as Hn. induction (range items) as [|[id v] l IH];
    [constructor|]. simpl in *. apply NoDup_cons in Hn as [Hid Hn].
  destruct (p v); [|by apply IH]. constructor; [|by apply IH].
  intros ([x w] & Hx & Hp)%list_elem_of_omap. apply Hid. apply list_elem_of_fmap.
  exists (x, w). split; [|done]. simpl. by destruct (p w); simplify_eq.
Qed.

Lemma sort_keys_where `{MapRange} {T} (p : T → bool) (items : gmap string T) X :
  (∀ id, id ∈ X ↔ ∃ v, items !! id = Some v ∧ p v = true) →
  SortStrings (keys_where p items) = sorted_elements X.
Proof.
  intros HX. apply SortStrings_set; [apply NoDup_keys_where|]. intros id.
  by rewrite elem_of_keys_where, HX.
Qed.

Definition has_label (ns : string) (labels : Labels) : bool :=
  bool_decide (labels !! StackLabel = Some ns).

Lemma sort_labelled `{MapRange} {T} (labels : T → Labels) (items : gmap string T) ns :
  SortStrings (keys_where (λ v, has_label ns (labels v)) items) =
  sorted_elements (labelled labels items ns).
Proof.
  apply sort_keys_where. intros id. rewrite elem_of_labelled. unfold has_label.
  by setoid_rewrite bool_decide_eq_true.
Qed.

Lemma members_update k k' f s :
  stack_kind k → members k' (update_members k f s) = if decide (k' = k) then f (members k' s) else members k' s.
Proof.
  intros Hk. destruct s, k, k'; simpl; try done; unfold stack_kind in Hk; set_solver.
Qed.

Lemma name_update k f s : st_Name (update_members k f s) = st_Name s.
Proof. by destruct s, k. Qed.

Definition entry_of (st : gmap string Stack) (ns : string) : Stack := default (new_stack ns) (st !! ns).

(** What a loop of rebuildStacks appends to a stack. *)
Lemma collect_entry `{MapRange} {T} k (labels : T → Labels) (items : gmap string T) st ns :
  stack_kind k →
  st_Name (entry_of (collect k labels items st) ns) = st_Name (entry_of st ns) ∧
  ∀ k', members k' (entry_of (collect k labels items st) ns) =
    (members k' (entry_of st ns) ++
     if decide (k' = k) then keys_where (λ v, has_label ns (labels v)) items else [])%list.
Proof.
  intros Hk. unfold collect, keys_where. revert st.
  induction (range items) as [|[id v] l IH]; intros st; simpl.
  { split; [done|]. intros k'. destruct (decide _); by rewrite app_nil_r. }
  destruct (labels v !! StackLabel) as [ns'|] eqn:Hl; unfold has_label at 1.
  - destruct (IH (<[ns' := update_members k (λ l, l ++ [id])%list
      (default (new_stack ns') (st !! ns'))]> st)) as [-> IHm].
    unfold has_label at 1. rewrite Hl.
    assert (entry_of (<[ns' := update_members k (λ l, l ++ [id])%list
        (default (new_stack ns') (st !! ns'))]> st) ns =
      if decide (ns' = ns) then update_members k (λ l, l ++ [id])%list (entry_of st ns)
      else entry_of st ns) as He.
    { unfold entry_of. destruct (decide (ns' = ns)) as [->|Hne].
      - by rewrite lookup_insert_eq.
      - by rewrite lookup_insert_ne. }
    split.
    + rewrite He. destruct (decide (ns' = ns)); [by rewrite name_update|done].
    + intros k'. rewrite IHm, He. destruct (decide (ns' = ns)) as [->|Hne].
      * rewrite bool_decide_eq_true_2 by done. rewrite members_update by done.
        destruct (decide (k' = k)); simpl; [by rewrite <- app_assoc|done].
      * by rewrite bool_decide_eq_false_2 by congruence.
  - destruct (IH st) as [-> IHm]. split; [done|]. intros k'. rewrite IHm.
    unfold has_label at 2. by rewrite Hl.
Qed.

Lemma rebuildStacks_match `{MapRange} c :
  stacks_match (members_of c) (stacks (rebuildStacks c)).
Proof.
  intros ns. unfold rebuildStacks. cbn [stacks set_stacks].
  set (st1 := collect EventService s_Labels (services c) ∅).
  set (st2 := collect EventConfig c_Labels (configs c) st1).
  set (st3 := collect EventSecret x_Labels (secrets c) st2).
  set (st4 := collect EventNetwork w_Labels (networks c) st3).
  set (st5 := collect EventVolume v_Labels (volumes c) st4).
  destruct (collect_entry EventService s_Labels (services c) ∅ ns ltac:(unfold stack_kind; set_solver)) as [N1 M1].
  destruct (collect_entry EventConfig c_Labels (configs c) st1 ns ltac:(unfold stack_kind; set_solver)) as [N2 M2].
  destruct (collect_entry EventSecret x_Labels (secrets c) st2 ns ltac:(unfold stack_kind; set_solver)) as [N3 M3].
  destruct (collect_entry EventNetwork w_Labels (networks c) st3 ns ltac:(unfold stack_kind; set_solver)) as [N4 M4].
  destruct (collect_entry EventVolume v_Labels (volumes c) st4 ns ltac:(unfold stack_kind; set_solver)) as [N5 M5].
  fold st1 in N1, M1. fold st2 in N2, M2. fold st3 in N3, M3. fold st4 in N4, M4. fold st5 in N5, M5.
  assert (entry_of ∅ ns = new_stack ns) as E0 by (unfold entry_of; by rewrite lookup_empty).
  rewrite E0 in N1, M1.
  assert (∀ k, members k (entry_of st5 ns) = match k with
    | EventService => keys_where (λ v, has_label ns (s_Labels v)) (services c)
    | EventConfig => keys_where (λ v, has_label ns (c_Labels v)) (configs c)
    | EventSecret => keys_where (λ v, has_label ns (x_Labels v)) (secrets c)
    | EventNetwork => keys_where (λ v, has_label ns (w_Labels v)) (networks c)
    | EventVolume => keys_where (λ v, has_label ns (v_Labels v)) (volumes c)
    | _ => [] end) as HM.
  { intros k. rewrite M5, M4, M3, M2, M1. destruct k; simpl; by rewrite ?app_nil_r. }
  assert (sort_stack (entry_of st5 ns) = stack_of (members_of c) ns) as Hsort.
  { unfold sort_stack, stack_of. rewrite N5, N4, N3, N2, N1.
    pose proof (HM EventService) as H1. pose proof (HM EventConfig) as H2.
    pose proof (HM EventSecret) as H3. pose proof (HM EventNetwork) as H4.
    pose proof (HM EventVolume) as H5. simpl in H1, H2, H3, H4, H5.
    rewrite H1, H2, H3, H4, H5. by rewrite !sort_labelled. }
  assert (length (st_Services (entry_of st5 ns)) = 0 ↔ members_of c EventService ns = ∅) as Hempty.
  { rewrite length_zero_iff_nil, <- sorted_elements_nil. simpl. rewrite <- sort_labelled.
    change (st_Services (entry_of st5 ns)) with (members EventService (entry_of st5 ns)). rewrite HM.
    split; [by intros ->|]. intros Hn. apply Permutation_nil. by rewrite <- Hn, SortStrings_perm. }
  rewrite lookup_omap, stack_spec_of. unfold entry_of in Hsort, Hempty.
  destruct (st5 !! ns) as [s|] eqn:Es; simpl in *.
  - case_bool_decide as Hc; case_decide as Hd; try tauto. by rewrite Hsort.
  - by rewrite decide_True by (by apply Hempty).
Qed.
