(* ===== verification/CacheIndex.v ===== *)
(** The cache's reverse indexes: internal/cache/service_refs.go, serviceRefs and
    the task indexes of internal/cache/cache.go. *)
From S2P Require Import Prelude GoStrings SortedLists Restarts CacheState.
#[local] Open Scope string_scope.
#[local] Open Scope nat_scope.

(** * What a service references *)

(** Marking every key of a list with a flag. *)
Definition mark (b : bool) (ids : list string) (m : gmap string bool) : gmap string bool :=
  foldl (λ m id, <[id := b]> m) m ids.

Definition spec_ids (f : ContainerSpec → list string) (t : option TaskSpec) : list string :=
  match t with
  | Some t => match ts_ContainerSpec t with Some cs => f cs | None => [] end
  | None => []
  end.

(** The volume mounts that name one. *)
Definition mounted (cs : ContainerSpec) : list string :=
  omap (λ '(ty, source), if bool_decide (ty = "volume") && negb (bool_decide (source = ""))
    then Some source else None) (cs_Mounts cs).

Definition serviceRefs (s : Service) : refSet :=
  mkRefSet
    (mark true (spec_ids cs_Configs (Some (s_TaskTemplate s)))
       (mark false (spec_ids cs_Configs (s_PreviousSpec s)) ∅))
    (mark true (spec_ids cs_Secrets (Some (s_TaskTemplate s)))
       (mark false (spec_ids cs_Secrets (s_PreviousSpec s)) ∅))
    (mark true (ts_Networks (s_TaskTemplate s)) ∅)
    (mark true (spec_ids mounted (Some (s_TaskTemplate s))) ∅).

(** * serviceRefIndex *)

Definition setRef (services : gmap string bool) (sid : string) (current : bool) : gmap string bool :=
  <[sid := current]> services.

(** Whether a map of references is empty: a size of 0. *)
Definition no_refs (m : gmap string bool) : bool := bool_decide (size m = 0).

Definition removeRef (idx : RefIndex) (key sid : string) : RefIndex :=
  match idx !! key with
  | None => idx
  | Some m =>
      let m := delete sid m in
      if no_refs m then delete key idx else <[key := m]> idx
  end.

(** The loops over one kind of reference. *)
Definition add_refs `{MapRange} (idx : RefIndex) (sid : string) (refs : gmap string bool) : RefIndex :=
  foldl (λ idx '(id, current), <[id := setRef (default ∅ (idx !! id)) sid current]> idx) idx (range refs).

Definition remove_refs `{MapRange} (idx : RefIndex) (sid : string) (refs : gmap string bool) : RefIndex :=
  foldl (λ idx '(id, _), removeRef idx id sid) idx (range refs).

(** Networks and volumes are marked true whatever the set holds. *)
Definition all_true (refs : gmap string bool) : gmap string bool := (λ _, true) <$> refs.

Definition add `{MapRange} (idx : serviceRefIndex) (s : Service) (refs : refSet) : serviceRefIndex :=
  mkRefIndex (<[s_Name s := s_ID s]> (byName idx))
    (add_refs (byConfig idx) (s_ID s) (r_configs refs))
    (add_refs (bySecret idx) (s_ID s) (r_secrets refs))
    (add_refs (byNetwork idx) (s_ID s) (all_true (r_networks refs)))
    (add_refs (byVolume idx) (s_ID s) (all_true (r_volumes refs))).

Definition remove `{MapRange} (idx : serviceRefIndex) (s : Service) (refs : refSet) : serviceRefIndex :=
  mkRefIndex
    (if bool_decide ((byName idx).[s_Name s] = s_ID s)
     then delete (s_Name s) (byName idx) else byName idx)
    (remove_refs (byConfig idx) (s_ID s) (r_configs refs))
    (remove_refs (bySecret idx) (s_ID s) (r_secrets refs))
    (remove_refs (byNetwork idx) (s_ID s) (r_networks refs))
    (remove_refs (byVolume idx) (s_ID s) (r_volumes refs)).

Definition rebuild `{MapRange} (services : gmap string Service) : serviceRefIndex :=
  foldl (λ idx '(_, s), add idx s (serviceRefs s)) newServiceRefIndex (range services).

Record ServiceRef := mkServiceRef {
  ref_AtID : string;
  ref_ID : string;
  ref_Name : string;
  Rollback : bool;
}.

Definition ref_compare (a b : ServiceRef) : comparison :=
  cmp_or (str_compare (ref_Name a) (ref_Name b)) (str_compare (ref_ID a) (ref_ID b)).

Definition lookup_refs `{MapRange} (index : RefIndex) (key : string)
    (services : gmap string Service) : list ServiceRef :=
  match index !! key with
  | None => []
  | Some svcIDs =>
      if no_refs svcIDs then [] else
      SortFunc ref_compare (omap (λ '(sid, current),
        match services !! sid with
        | Some s => Some (mkServiceRef ("/services/" +:+ s_ID s) (s_ID s) (s_Name s) (negb current))
        | None => None
        end) (range svcIDs))
  end.

(** internal/cache/cache.go *)
Definition ServicesUsingConfig `{MapRange} (c : Cache) (id : string) : list ServiceRef :=
  lookup_refs (byConfig (serviceRef c)) id (services c).
Definition ServicesUsingSecret `{MapRange} (c : Cache) (id : string) : list ServiceRef :=
  lookup_refs (bySecret (serviceRef c)) id (services c).
Definition ServicesUsingNetwork `{MapRange} (c : Cache) (id : string) : list ServiceRef :=
  lookup_refs (byNetwork (serviceRef c)) id (services c).
Definition ServicesUsingVolume `{MapRange} (c : Cache) (name : string) : list ServiceRef :=
  lookup_refs (byVolume (serviceRef c)) name (services c).

(** * The task indexes *)

Definition addIndexed (by_ : TaskIndex) (parent id : string) : TaskIndex :=
  if bool_decide (parent = "") then by_ else <[parent := {[id]} ∪ default ∅ (by_ !! parent)]> by_.

(** Deleting from a nil map does nothing; the second line then deletes the
    parent, there or not. *)
Definition removeIndexed (by_ : TaskIndex) (parent id : string) : TaskIndex :=
  let m := default ∅ (by_ !! parent) ∖ {[id]} in
  if bool_decide (size m = 0) then delete parent by_ else <[parent := m]> by_.

Definition addTaskIndex (t : Task) (c : Cache) : Cache :=
  set_tasks c (tasks c) (addIndexed (tasksByService c) (t_ServiceID t) (t_ID t))
    (addIndexed (tasksByNode c) (t_NodeID t) (t_ID t)).

(** removeTaskIndex's two halves, of one shape. *)
Definition unindex (by_ : TaskIndex) (parent id : string) : TaskIndex :=
  if bool_decide (parent = "") then by_ else
  match by_ !! parent with
  | None => by_
  | Some m =>
      let m := m ∖ {[id]} in
      if bool_decide (size m = 0) then delete parent by_ else <[parent := m]> by_
  end.

Definition removeTaskIndex (t : Task) (c : Cache) : Cache :=
  set_tasks c (tasks c) (unindex (tasksByService c) (t_ServiceID t) (t_ID t))
    (unindex (tasksByNode c) (t_NodeID t) (t_ID t)).

(** * What an index holds *)

(** Who references an ID: the flag each service's references hold for it. *)
Definition refs_match (f : Service → gmap string bool) (idx : RefIndex)
    (services : gmap string Service) : Prop :=
  (∀ id sid, (idx !! id ≫= λ m, m !! sid) = (services !! sid ≫= λ s, f s !! id)) ∧
  (∀ id, idx !! id ≠ Some ∅).

Definition names_match (idx : gmap string string) (services : gmap string Service) : Prop :=
  ∀ n sid, idx !! n = Some sid ↔ ∃ s, services !! sid = Some s ∧ s_Name s = n.

Record index_ok (idx : serviceRefIndex) (services : gmap string Service) : Prop := {
  ix_name : names_match (byName idx) services;
  ix_config : refs_match (λ s, r_configs (serviceRefs s)) (byConfig idx) services;
  ix_secret : refs_match (λ s, r_secrets (serviceRefs s)) (bySecret idx) services;
  ix_network : refs_match (λ s, r_networks (serviceRefs s)) (byNetwork idx) services;
  ix_volume : refs_match (λ s, r_volumes (serviceRefs s)) (byVolume idx) services;
}.

Definition tasks_match (parent : Task → string) (by_ : TaskIndex) (tasks : gmap string Task) : Prop :=
  (∀ p id, id ∈ (default ∅ (by_ !! p) : gset string) ↔
     p ≠ "" ∧ ∃ t, tasks !! id = Some t ∧ parent t = p) ∧
  (∀ p, by_ !! p ≠ Some ∅).

Definition keyed {T} (key : T → string) (items : gmap string T) : Prop :=
  ∀ id v, items !! id = Some v → key v = id.

Definition names_unique (services : gmap string Service) : Prop :=
  ∀ i j s t, services !! i = Some s → services !! j = Some t → s_Name s = s_Name t → i = j.

(** * Facts *)

Lemma list_to_map_range `{MapRange} {A} (m : gmap string A) : list_to_map (range m) = m.
Proof.
  rewrite <- (list_to_map_to_list m) at 2. apply list_to_map_proper; [apply NoDup_range|apply range_perm].
Qed.

Lemma no_refs_spec m : no_refs m = true ↔ m = ∅.
Proof. unfold no_refs. rewrite bool_decide_eq_true. apply map_size_empty_iff. Qed.

Lemma add_refs_lookup `{MapRange} idx sid refs id :
  add_refs idx sid refs !! id =
  match refs !! id with Some b => Some (<[sid := b]> (default ∅ (idx !! id))) | None => idx !! id end.
Proof.
  unfold add_refs. rewrite <- (list_to_map_range refs) at 2. pose proof (NoDup_range refs) as Hn.
  revert idx. induction (range refs) as [|[k b] l IH]; intros idx; simpl; [by rewrite lookup_empty|].
  simpl in Hn. apply NoDup_cons in Hn as [Hk Hn]. rewrite (IH Hn). unfold setRef.
  destruct (decide (k = id)) as [->|Hne].
  - rewrite (not_elem_of_list_to_map_1 l id) by done. by rewrite !lookup_insert_eq.
  - by rewrite !lookup_insert_ne.
Qed.

Lemma removeRef_lookup idx key sid id :
  removeRef idx key sid !! id =
  if decide (key = id) then
    match idx !! id with
    | Some m => if decide (delete sid m = ∅) then None else Some (delete sid m)
    | None => None
    end
  else idx !! id.
Proof.
  unfold removeRef. destruct (decide (key = id)) as [->|Hne].
  - destruct (idx !! id) as [m|] eqn:E; [|done]. destruct (no_refs (delete sid m)) eqn:En.
    + apply no_refs_spec in En. by rewrite decide_True, lookup_delete_eq.
    + rewrite decide_False; [by rewrite lookup_insert_eq|]. intros Hm. by apply no_refs_spec in Hm; congruence.
  - destruct (idx !! key); [|done]. case_match; [by rewrite lookup_delete_ne|by rewrite lookup_insert_ne].
Qed.

Lemma remove_refs_lookup `{MapRange} idx sid refs id :
  remove_refs idx sid refs !! id =
  match refs !! id with
  | Some _ =>
      match idx !! id with
      | Some m => if decide (delete sid m = ∅) then None else Some (delete sid m)
      | None => None
      end
  | None => idx !! id
  end.
Proof.
  unfold remove_refs. rewrite <- (list_to_map_range refs) at 2. pose proof (NoDup_range refs) as Hn.
  revert idx. induction (range refs) as [|[k b] l IH]; intros idx; simpl; [by rewrite lookup_empty|].
  simpl in Hn. apply NoDup_cons in Hn as [Hk Hn]. rewrite (IH Hn), !removeRef_lookup.
  destruct (decide (k = id)) as [->|Hne].
  - rewrite (not_elem_of_list_to_map_1 l id) by done. by rewrite lookup_insert_eq.
  - by rewrite lookup_insert_ne.
Qed.

Lemma add_refs_match `{MapRange} f idx services sid s :
  refs_match f idx services → services !! sid = None →
  refs_match f (add_refs idx sid (f s)) (<[sid := s]> services).
Proof.
  intros [Hl He] Hnew. split.
  - intros id x. rewrite add_refs_lookup. destruct (decide (x = sid)) as [->|Hne].
    + rewrite lookup_insert_eq. simpl. destruct (f s !! id) as [b|] eqn:E; simpl.
      * by rewrite lookup_insert_eq.
      * by rewrite Hl, Hnew.
    + rewrite lookup_insert_ne by done. rewrite <- Hl. destruct (f s !! id) as [b|] eqn:E; [|done].
      simpl. rewrite lookup_insert_ne by done. by destruct (idx !! id).
  - intros id. rewrite add_refs_lookup. destruct (f s !! id); [|done]. intros [=Hm].
    by apply insert_non_empty in Hm.
Qed.

Lemma remove_refs_match `{MapRange} f idx services sid s :
  refs_match f idx services → services !! sid = Some s →
  refs_match f (remove_refs idx sid (f s)) (delete sid services).
Proof.
  intros [Hl He] Hold. split.
  - intros id x. rewrite remove_refs_lookup. destruct (decide (x = sid)) as [->|Hne].
    + rewrite lookup_delete_eq. simpl. destruct (f s !! id) as [b|] eqn:E.
      * destruct (idx !! id) as [m|]; [|done]. case_decide; simpl; [done|]. by rewrite lookup_delete_eq.
      * by rewrite Hl, Hold.
    + rewrite lookup_delete_ne by done. rewrite <- Hl. destruct (f s !! id) as [b|] eqn:E; [|done].
      destruct (idx !! id) as [m|]; [|done]. simpl.
      case_decide as Hd; simpl.
      * rewrite <- (lookup_delete_ne m sid x) by done. by rewrite Hd, lookup_empty.
      * by rewrite lookup_delete_ne.
  - intros id. rewrite remove_refs_lookup. destruct (f s !! id); [|done].
    destruct (idx !! id); [|done]. case_decide; [done|congruence].
Qed.

Lemma mark_true_all ids m :
  (∀ id b, m !! id = Some b → b = true) →
  ∀ id b, mark true ids m !! id = Some b → b = true.
Proof.
  unfold mark. revert m. induction ids as [|x ids IH]; intros m Hm; simpl; [done|].
  apply IH. intros id b [[_ <-]|[_ Hb]]%lookup_insert_Some; [done|by eapply Hm].
Qed.

Lemma all_true_id m : (∀ id b, m !! id = Some b → b = true) → all_true m = m.
Proof.
  intros Hm. apply map_eq. intros id. unfold all_true. rewrite lookup_fmap.
  destruct (m !! id) as [b|] eqn:E; [|done]. simpl. by rewrite (Hm id b E).
Qed.

Lemma networks_true s : all_true (r_networks (serviceRefs s)) = r_networks (serviceRefs s).
Proof. apply all_true_id, mark_true_all. intros id b. by rewrite lookup_empty. Qed.

Lemma volumes_true s : all_true (r_volumes (serviceRefs s)) = r_volumes (serviceRefs s).
Proof. apply all_true_id, mark_true_all. intros id b. by rewrite lookup_empty. Qed.

Lemma names_add idx services sid s :
  names_match idx services → services !! sid = None →
  (∀ id t, services !! id = Some t → s_Name t ≠ s_Name s) →
  names_match (<[s_Name s := sid]> idx) (<[sid := s]> services).
Proof.
  intros Hm Hnew Hfree n x. rewrite lookup_insert_Some, (Hm n x). split.
  - intros [[<- <-]|[Hn (t & Ht & <-)]].
    + exists s. by rewrite lookup_insert_eq.
    + exists t. split; [|done]. rewrite lookup_insert_ne; [done|]. congruence.
  - intros (t & [[<- <-]|[Hx Ht]]%lookup_insert_Some & <-); [by left|right].
    split; [|by exists t]. intros Heq. by destruct (Hfree x t Ht).
Qed.

Lemma names_remove idx services sid s :
  names_match idx services → services !! sid = Some s →
  names_match (if bool_decide (default "" (idx !! s_Name s) = sid) then delete (s_Name s) idx else idx)
    (delete sid services).
Proof.
  intros Hm Hold. assert (idx !! s_Name s = Some sid) as Hi by (apply Hm; eauto).
  rewrite Hi. simpl. rewrite bool_decide_eq_true_2 by done. intros n x.
  rewrite lookup_delete_Some, (Hm n x). split.
  - intros [Hn (t & Ht & <-)]. exists t. split; [|done]. rewrite lookup_delete_ne; [done|congruence].
  - intros (t & [Hx Ht]%lookup_delete_Some & <-). split; [|by exists t]. intros Heq.
    assert (idx !! s_Name t = Some x) as Hj by (apply Hm; eauto). congruence.
Qed.

Lemma add_index_ok `{MapRange} idx services s :
  index_ok idx services → services !! s_ID s = None →
  (∀ id t, services !! id = Some t → s_Name t ≠ s_Name s) →
  index_ok (add idx s (serviceRefs s)) (<[s_ID s := s]> services).
Proof.
  intros [] Hnew Hfree. constructor; cbn [add byName byConfig bySecret byNetwork byVolume].
  - by apply names_add.
  - by apply (add_refs_match (λ s, r_configs (serviceRefs s))).
  - by apply (add_refs_match (λ s, r_secrets (serviceRefs s))).
  - rewrite networks_true. by apply (add_refs_match (λ s, r_networks (serviceRefs s))).
  - rewrite volumes_true. by apply (add_refs_match (λ s, r_volumes (serviceRefs s))).
Qed.

Lemma remove_index_ok `{MapRange} idx services s :
  index_ok idx services → services !! s_ID s = Some s →
  index_ok (remove idx s (serviceRefs s)) (delete (s_ID s) services).
Proof.
  intros [] Hold. constructor; cbn [remove byName byConfig bySecret byNetwork byVolume].
  - by apply names_remove.
  - by apply (remove_refs_match (λ s, r_configs (serviceRefs s))).
  - by apply (remove_refs_match (λ s, r_secrets (serviceRefs s))).
  - by apply (remove_refs_match (λ s, r_networks (serviceRefs s))).
  - by apply (remove_refs_match (λ s, r_volumes (serviceRefs s))).
Qed.

Lemma refs_match_empty f : refs_match f ∅ ∅.
Proof. split; intros; by rewrite lookup_empty. Qed.

Lemma empty_index_ok : index_ok newServiceRefIndex ∅.
Proof.
  constructor; [|apply refs_match_empty..]. intros n sid. cbn [newServiceRefIndex byName].
  rewrite lookup_empty. split; [done|]. intros (s & Hs & _). by rewrite lookup_empty in Hs.
Qed.

Lemma rebuild_ok `{MapRange} services :
  keyed s_ID services → names_unique services → index_ok (rebuild services) services.
Proof.
  intros Hk Hu. unfold rebuild.
  enough (∀ l idx prev, NoDup l.*1 → index_ok idx prev → list_to_map l ∪ prev = services →
    (∀ k s, (k, s) ∈ l → prev !! k = None) →
    index_ok (foldl (λ idx '(_, s), add idx s (serviceRefs s)) idx l) services) as Hgen.
  { apply (Hgen _ _ ∅); [apply NoDup_range|apply empty_index_ok| |by intros; rewrite lookup_empty].
    by rewrite list_to_map_range, map_union_empty. }
  induction l as [|[k s] l IH]; intros idx prev Hn Hok Hl Hnew; simpl in *.
  { rewrite map_empty_union in Hl. by subst. }
  apply NoDup_cons in Hn as [Hkl Hn].
  assert (prev !! k = None) as Hpk by (apply (Hnew k s); left).
  assert (services !! k = Some s) as Hs by (rewrite <- Hl; apply lookup_union_Some_l, lookup_insert_eq).
  pose proof (Hk k s Hs) as Hid. subst k.
  apply (IH _ (<[s_ID s := s]> prev)); [done| | |].
  - apply add_index_ok; [done|done|]. intros id t Ht Heq.
    assert (services !! id = Some t) as Hst.
    { rewrite <- Hl. rewrite lookup_union_r; [done|]. rewrite lookup_insert_ne by congruence.
      apply not_elem_of_list_to_map_1. intros ([x u] & -> & Hin)%list_elem_of_fmap.
      simpl in Ht. rewrite (Hnew x u) in Ht by (by right). done. }
    pose proof (Hu id (s_ID s) t s Hst Hs Heq) as ->. congruence.
  - rewrite <- Hl. rewrite <- insert_union_r by (by apply not_elem_of_list_to_map_1).
    by rewrite insert_union_l.
  - intros x u Hin. rewrite lookup_insert_ne; [by apply (Hnew x u); right|].
    intros <-. apply Hkl. apply list_elem_of_fmap. by exists (s_ID s, u).
Qed.

(** ** The task indexes *)

Lemma unindex_match parent by_ tasks t :
  tasks_match parent by_ tasks → tasks !! t_ID t = Some t →
  tasks_match parent (unindex by_ (parent t) (t_ID t)) (delete (t_ID t) tasks).
Proof.
  intros [Hm He] Ht. unfold unindex.
  assert (∀ p id, p ≠ "" → p ≠ parent t → id ∈ (default ∅ (by_ !! p) : gset string) ↔
    ∃ u, delete (t_ID t) tasks !! id = Some u ∧ parent u = p) as Hother.
  { intros p id Hp Hne. rewrite Hm. split.
    - intros [_ (u & Hu & <-)]. exists u. rewrite lookup_delete_Some. split_and!; auto. congruence.
    - intros (u & [_ Hu]%lookup_delete_Some & <-). eauto. }
  case_bool_decide as Hp0.
  { split; [|done]. intros p id. rewrite Hm. split; intros [Hp (u & Hu & <-)]; (split; [done|]); exists u.
    - rewrite lookup_delete_Some. split_and!; [|done|done]. congruence.
    - apply lookup_delete_Some in Hu as [_ Hu]. done. }
  assert (∀ id, id ∈ default ∅ (by_ !! parent t) ∖ ({[t_ID t]} : gset string) ↔
    ∃ u, delete (t_ID t) tasks !! id = Some u ∧ parent u = parent t) as Hself.
  { intros id. rewrite elem_of_difference, elem_of_singleton, Hm. split.
    - intros [[_ (u & Hu & Heq)] Hne]. exists u. rewrite lookup_delete_Some. split_and!; auto.
    - intros (u & [Hne Hu]%lookup_delete_Some & Heq). split; [|by apply not_eq_sym]. eauto. }
  destruct (by_ !! parent t) as [m|] eqn:Em; simpl in Hself.
  - case_bool_decide as Hz; split.
    + intros p id. destruct (decide (p = parent t)) as [->|Hne].
      * rewrite lookup_delete_eq. simpl. apply size_empty_inv in Hz. specialize (Hself id). set_solver.
      * rewrite lookup_delete_ne by done. destruct (decide (p = "")) as [->|Hp].
        -- rewrite Hm. split; by intros [].
        -- rewrite Hother by done. tauto.
    + intros p. destruct (decide (p = parent t)) as [->|Hne]; [by rewrite lookup_delete_eq|].
      by rewrite lookup_delete_ne.
    + intros p id. destruct (decide (p = parent t)) as [->|Hne].
      * rewrite lookup_insert_eq. simpl. rewrite Hself. tauto.
      * rewrite lookup_insert_ne by done. destruct (decide (p = "")) as [->|Hp].
        -- rewrite Hm. split; by intros [].
        -- rewrite Hother by done. tauto.
    + intros p. destruct (decide (p = parent t)) as [->|Hne].
      * rewrite lookup_insert_eq. intros [= Hm0]. apply Hz. by rewrite Hm0, size_empty.
      * by rewrite lookup_insert_ne.
  - exfalso. assert (t_ID t ∈ default ∅ (by_ !! parent t)) as Hin by (apply Hm; eauto).
    rewrite Em in Hin. set_solver.
Qed.

Lemma addIndexed_match parent by_ tasks t :
  tasks_match parent by_ tasks → tasks !! t_ID t = None →
  tasks_match parent (addIndexed by_ (parent t) (t_ID t)) (<[t_ID t := t]> tasks).
Proof.
  intros [Hm He] Ht. unfold addIndexed.
  assert (∀ p id, p ≠ parent t ∨ p = "" → id ∈ (default ∅ (by_ !! p) : gset string) ↔
    p ≠ "" ∧ ∃ u, <[t_ID t := t]> tasks !! id = Some u ∧ parent u = p) as Hother.
  { intros p id Hne. rewrite Hm. split; intros [Hp (u & Hu & <-)]; (split; [done|]); exists u.
    - rewrite lookup_insert_ne; [done|]. congruence.
    - apply lookup_insert_Some in Hu as [[_ <-]|[_ Hu]]; [|done]. by destruct Hne. }
  case_bool_decide as Hp0.
  - split; [|done]. intros p id. apply Hother. destruct (decide (p = "")); [by right|left; congruence].
  - split.
    + intros p id. destruct (decide (p = parent t)) as [->|Hne].
      * rewrite lookup_insert_eq. simpl. rewrite elem_of_union, elem_of_singleton, Hm. split.
        -- intros [->|[_ (u & Hu & Heq)]]; (split; [done|]).
           ++ exists t. by rewrite lookup_insert_eq.
           ++ exists u. rewrite lookup_insert_ne; [done|]. congruence.
        -- intros [_ (u & [[<- <-]|[_ Hu]]%lookup_insert_Some & Heq)]; [by left|right; eauto].
      * rewrite lookup_insert_ne by done. apply Hother. by left.
    + intros p. destruct (decide (p = parent t)) as [->|Hne]; [|by rewrite lookup_insert_ne].
      rewrite lookup_insert_eq. intros [= Hm0]. set_solver.
Qed.
