(* ===== verification/CacheOps.v ===== *)
(** The cache's operations: internal/cache/resourcemap.go, the writes of
    internal/cache/cache.go, and what resolver.go reads.

    An operation is its critical section: the cache it leaves and the events it
    then hands to [notify], which changes nothing but the counters. *)
From S2P Require Import Prelude GoStrings SortedLists Restarts CacheState CacheStacks CacheIndex.
#[local] Open Scope string_scope.
#[local] Open Scope nat_scope.

(** * ResourceMap *)

(** One resource type's map in the cache, with its hooks. *)
Record ResourceMap (T : Type) := mkResourceMap {
  items : Cache → gmap string T;
  put : Cache → gmap string T → Cache;
  nameFunc : T → string;
  onSet : option (option T → T → Cache → T * Cache);
  onDelete : option (T → Cache → Cache);
  version : option (T → Z);
  boxed : T → Resource;
}.
Arguments mkResourceMap {T}.
Arguments items {T}.
Arguments put {T}.
Arguments nameFunc {T}.
Arguments onSet {T}.
Arguments onDelete {T}.
Arguments version {T}.
Arguments boxed {T}.

Definition rm_set {T} (r : ResourceMap T) (key : string) (v : T) (c : Cache) : T * Cache :=
  let '(v, c) :=
    match onSet r with
    | Some hook => hook (items r c !! key) v c
    | None => (v, c)
    end in
  (v, put r c (<[key := v]> (items r c))).

Definition del {T} (r : ResourceMap T) (key : string) (c : Cache) : string * Cache :=
  let '(name, c) :=
    match items r c !! key with
    | Some old => (nameFunc r old, match onDelete r with Some hook => hook old c | None => c end)
    | None => ("", c)
    end in
  (name, put r c (delete key (items r c))).

Definition Add {T} (r : ResourceMap T) (key : string) (v : T) (ty : EventType) (c : Cache)
    : Cache * list Event :=
  match items r c !! key with
  | Some _ => (c, [])
  | None =>
      let '(v, c) := rm_set r key v c in
      (c, [mkEvent ty (setAction false) key (nameFunc r v) (boxed r v) RNone "" ""])
  end.

Definition older {T} (r : ResourceMap T) (v : T) (old : option T) : bool :=
  match old, version r with
  | Some old, Some version => (version v <? version old)%Z
  | _, _ => false
  end.

Definition Set_ {T} (r : ResourceMap T) (key : string) (v : T) (ty : EventType) (c : Cache)
    : Cache * list Event :=
  let old := items r c !! key in
  if older r v old then (c, []) else
  let '(v, c) := rm_set r key v c in
  let previous :=
    match old with
    | Some old =>
        if bool_decide (ty = EventConfig) || bool_decide (ty = EventSecret) then boxed r old else RNone
    | None => RNone
    end in
  (c, [mkEvent ty (setAction (bool_decide (is_Some old))) key (nameFunc r v) (boxed r v) previous "" ""]).

Definition Get {T} (r : ResourceMap T) (key : string) (c : Cache) : option T := items r c !! key.

Definition Delete_ {T} (r : ResourceMap T) (key : string) (ty : EventType) (c : Cache)
    : Cache * list Event :=
  let old := items r c !! key in
  let '(name, c) := del r key c in
  (c, [mkEvent ty "remove" key name (match old with Some v => boxed r v | None => RNone end) RNone "" ""]).

Definition keepNewer {T} (version : option (T → Z)) (listed cached : gmap string T) : gmap string T :=
  match version with
  | None => listed
  | Some version =>
      map_imap (λ key fresh,
        match cached !! key with
        | Some held => if (version fresh <? version held)%Z then Some held else Some fresh
        | None => Some fresh
        end) listed
  end.

Definition Replace {T} (r : ResourceMap T) (m : gmap string T) (c : Cache) : Cache :=
  put r c (keepNewer (version r) m (items r c)).

(** New's maps, with the hooks that keep the stacks. *)
Definition stack_onSet `{MapRange} {T} (ty : EventType) (id : T → string) (labels : T → Labels)
    (clean : T → T) (old : option T) (v : T) (c : Cache) : T * Cache :=
  let c := match old with Some old => removeFromStack ty (id old) (labels old) c | None => c end in
  let v := clean v in
  (v, addToStack ty (id v) (labels v) c).

Definition stack_onDelete {T} (ty : EventType) (id : T → string) (labels : T → Labels) (old : T)
    (c : Cache) : Cache :=
  removeFromStack ty (id old) (labels old) c.

Definition redacted (x : Secret) : Secret := mkSecret (x_ID x) (x_Version x) (x_Name x) (x_Labels x) None.

Definition nodes_map : ResourceMap Node :=
  mkResourceMap nodes set_nodes n_Hostname None None (Some n_Version) RNode.

Definition configs_map `{MapRange} : ResourceMap Config :=
  mkResourceMap configs set_configs c_Name
    (Some (stack_onSet EventConfig c_ID c_Labels (λ v, v)))
    (Some (stack_onDelete EventConfig c_ID c_Labels)) (Some c_Version) RConfig.

Definition secrets_map `{MapRange} : ResourceMap Secret :=
  mkResourceMap secrets set_secrets x_Name
    (Some (stack_onSet EventSecret x_ID x_Labels redacted))
    (Some (stack_onDelete EventSecret x_ID x_Labels)) (Some x_Version) RSecret.

Definition networks_map `{MapRange} : ResourceMap Network :=
  mkResourceMap networks set_networks w_Name
    (Some (stack_onSet EventNetwork w_ID w_Labels (λ v, v)))
    (Some (stack_onDelete EventNetwork w_ID w_Labels)) None RNetwork.

Definition volumes_map `{MapRange} : ResourceMap Volume :=
  mkResourceMap volumes set_volumes v_Name
    (Some (stack_onSet EventVolume v_Name v_Labels (λ v, v)))
    (Some (stack_onDelete EventVolume v_Name v_Labels)) None RVolume.

(** * resolver.go *)

(** Ranging over a map for the first resource of a name. *)
Definition label_by_name `{MapRange} {T} (name_of : T → string) (labels : T → Labels)
    (items : gmap string T) (name : string) : string :=
  match List.find (λ '(_, v), bool_decide (name_of v = name)) (range items) with
  | Some (_, v) => label_of (labels v)
  | None => ""
  end.

Definition StackOf `{MapRange} (c : Cache) (resourceType name : string) : string :=
  if bool_decide (resourceType = "service") then
    match services c !! (byName (serviceRef c)).[name] with
    | Some s => label_of (s_Labels s)
    | None => ""
    end
  else if bool_decide (resourceType = "config") then label_by_name c_Name c_Labels (configs c) name
  else if bool_decide (resourceType = "secret") then label_by_name x_Name x_Labels (secrets c) name
  else if bool_decide (resourceType = "network") then label_by_name w_Name w_Labels (networks c) name
  else if bool_decide (resourceType = "volume") then label_by_name v_Name v_Labels (volumes c) name
  else "".

Definition ServiceOfTask (c : Cache) (taskID : string) : string :=
  match tasks c !! taskID with
  | Some t => match services c !! t_ServiceID t with Some s => s_Name s | None => "" end
  | None => ""
  end.

Definition removedTaskFromLocked (c : Cache) (t : Task) : string * string :=
  let svc := match services c !! t_ServiceID t with
             | Some s => Some s
             | None => goneServices c !! t_ServiceID t
             end in
  match svc, t_ContainerSpec t with
  | Some s, _ => (s_Name s, label_of (s_Labels s))
  | None, Some cs => ("", label_of (cs_Labels cs))
  | None, None => ("", "")
  end.

Definition removedFrom (c : Cache) (r : Resource) : string * string :=
  match r with
  | RService s => ("", label_of (s_Labels s))
  | RConfig v => ("", label_of (c_Labels v))
  | RSecret v => ("", label_of (x_Labels v))
  | RNetwork v => ("", label_of (w_Labels v))
  | RVolume v => ("", label_of (v_Labels v))
  | RTask t => removedTaskFromLocked c t
  | _ => ("", "")
  end.

Definition ServiceStacks (c : Cache) : gmap string string := (λ s, label_of (s_Labels s)) <$> services c.

(** * notify, up to the history *)

Definition notify (c : Cache) (e : Event) : Cache * Event :=
  let name := if bool_decide (Name e = "") then ExtractName e else Name e in
  let counts :=
    match Type_ e with
    | EventConfig | EventSecret => bool_decide (Action e ≠ "ref_changed")
    | EventSync => true
    | _ => false
    end in
  let '(service, stack) :=
    if bool_decide (Action e = "remove") && bool_decide (e_Service e = "") && bool_decide (e_Stack e = "")
    then removedFrom c (Resource_ e) else (e_Service e, e_Stack e) in
  (set_generations c (wrap 64 (generation c + 1))
     (if counts then wrap 64 (versionGeneration c + 1) else versionGeneration c),
   mkEvent (Type_ e) (Action e) (e_ID e) name (Resource_ e) (Previous e) service stack).

Fixpoint notify_all (c : Cache) (es : list Event) : Cache * list Event :=
  match es with
  | [] => (c, [])
  | e :: es =>
      let '(c, e) := notify c e in
      let '(c, es) := notify_all c es in
      (c, e :: es)
  end.

(** The references that changed, of one kind: those the old set held with
    another flag or that are gone, then those that are new. *)
Definition diffNotify `{MapRange} (ty : EventType) (old new : gmap string bool)
    (name : string → string) : list Event :=
  let event id := mkEvent ty "ref_changed" id (name id) RNone RNone "" "" in
  (omap (λ '(id, was),
     if bool_decide (new !! id = Some was) then None else Some (event id)) (range old) ++
   omap (λ '(id, _), if bool_decide (is_Some (old !! id)) then None else Some (event id)) (range new))%list.

Definition notifyRefChanges `{MapRange} (c : Cache) (old new : refSet) : list Event :=
  (diffNotify EventConfig (r_configs old) (r_configs new)
     (λ id, match configs c !! id with Some v => c_Name v | None => "" end) ++
   diffNotify EventSecret (r_secrets old) (r_secrets new)
     (λ id, match secrets c !! id with Some v => x_Name v | None => "" end) ++
   diffNotify EventNetwork (r_networks old) (r_networks new)
     (λ id, match networks c !! id with Some v => w_Name v | None => "" end) ++
   diffNotify EventVolume (r_volumes old) (r_volumes new) (λ id, id))%list.

Definition no_refSet : refSet := mkRefSet ∅ ∅ ∅ ∅.

(** * Services and tasks *)

Definition SetService `{MapRange} (s : Service) (c : Cache) : Cache * list Event :=
  let newRefs := serviceRefs s in
  let old := services c !! s_ID s in
  if match old with Some old => (s_Version s <? s_Version old)%Z | None => false end then (c, []) else
  let oldRefs := match old with Some old => serviceRefs old | None => no_refSet end in
  let c :=
    match old with
    | Some old =>
        let c := removeFromStack EventService (s_ID old) (s_Labels old) c in
        set_serviceRef c (remove (serviceRef c) old oldRefs)
    | None => c
    end in
  let c := set_services c (<[s_ID s := s]> (services c)) in
  let c := addToStack EventService (s_ID s) (s_Labels s) c in
  let c := set_serviceRef c (add (serviceRef c) s newRefs) in
  (c, mkEvent EventService (setAction (bool_decide (is_Some old))) (s_ID s) "" (RService s) RNone "" ""
      :: notifyRefChanges c oldRefs newRefs).

Definition DeleteService `{MapRange} (id : string) (c : Cache) : Cache * list Event :=
  let old := services c !! id in
  let oldRefs := match old with Some old => serviceRefs old | None => no_refSet end in
  let c :=
    match old with
    | Some old =>
        let c := removeFromStack EventService id (s_Labels old) c in
        let c := set_serviceRef c (remove (serviceRef c) old oldRefs) in
        if bool_decide (size (default ∅ (tasksByService c !! id) : gset string) = 0) then c
        else set_goneServices c (<[id := old]> (goneServices c))
    | None => c
    end in
  let c := set_services c (delete id (services c)) in
  let c := set_restarts c (Forget (restarts c) id) in
  (c, mkEvent EventService "remove" id (match old with Some s => s_Name s | None => "" end)
        (match old with Some s => RService s | None => RNone end) RNone "" ""
      :: notifyRefChanges c oldRefs no_refSet).

(** restarts.go *)
Definition IsFailureState (s : string) : bool :=
  bool_decide (s = "failed") || bool_decide (s = "rejected") || bool_decide (s = "orphaned").

Definition task_changed (old t : Task) : bool :=
  negb (bool_decide (t_State old = t_State t) && bool_decide (t_DesiredState old = t_DesiredState t) &&
        bool_decide (t_Err old = t_Err t) && bool_decide (t_Message old = t_Message t) &&
        bool_decide (t_NodeID old = t_NodeID t) && bool_decide (t_Version old = t_Version t)).

Definition SetTask (t : Task) (now : Z) (c : Cache) : Cache * list Event :=
  let old := tasks c !! t_ID t in
  if match old with Some old => (t_Version t <? t_Version old)%Z | None => false end then (c, []) else
  let changed := match old with Some old => task_changed old t | None => true end in
  let wasFailure := match old with Some old => IsFailureState (t_State old) | None => false end in
  let c := match old with Some old => removeTaskIndex old c | None => c end in
  let c := set_tasks c (<[t_ID t := t]> (tasks c)) (tasksByService c) (tasksByNode c) in
  let c := addTaskIndex t c in
  let c :=
    if IsFailureState (t_State t) && negb wasFailure && negb (bool_decide (t_ServiceID t = ""))
    then set_restarts c (Record_ (restarts c) (t_ServiceID t) (t_Timestamp t) now now) else c in
  (c, if changed
      then [mkEvent EventTask (setAction (bool_decide (is_Some old))) (t_ID t) "" (RTask t) RNone "" ""]
      else []).

Definition DeleteTask (id : string) (c : Cache) : Cache * list Event :=
  let old := tasks c !! id in
  let '(names, c) :=
    match old with
    | Some old =>
        let c := removeTaskIndex old c in
        (removedTaskFromLocked c old,
         if bool_decide (tasksByService c !! t_ServiceID old = None)
         then set_goneServices c (delete (t_ServiceID old) (goneServices c)) else c)
    | None => (("", ""), c)
    end in
  let c := set_tasks c (delete id (tasks c)) (tasksByService c) (tasksByNode c) in
  (c, [mkEvent EventTask "remove" id id (match old with Some t => RTask t | None => RNone end) RNone
         names.1 names.2]).

Definition pruneGoneServices (c : Cache) : Cache :=
  set_goneServices c (filter (λ '(id, _), tasksByService c !! id ≠ None) (goneServices c)).

(** * ReplaceAll *)

(** A list that was fetched, or not: the Has flags. *)
Record FullSyncData := mkSync {
  f_Nodes : option (list Node);
  f_Services : option (list Service);
  f_Tasks : option (list Task);
  f_Configs : option (list Config);
  f_Secrets : option (list Secret);
  f_Networks : option (list Network);
  f_Volumes : option (list Volume);
}.

Definition by_id {T} (id : T → string) (l : list T) : gmap string T :=
  foldl (λ m v, <[id v := v]> m) ∅ l.

Definition index_tasks (parent : Task → string) (l : list Task) : TaskIndex :=
  foldl (λ m t, addIndexed m (parent t) (t_ID t)) ∅ l.

(** The services' part: forget what is gone, keep what still has tasks. *)
Definition sync_services `{MapRange} (listed : gmap string Service) (byService : option TaskIndex)
    (c : Cache) : Cache :=
  let c := foldl (λ c '(id, old),
    if bool_decide (is_Some (listed !! id)) then c else
    let c := set_restarts c (Forget (restarts c) id) in
    let remaining : gset string :=
      default ∅ (match byService with Some b => b !! id | None => tasksByService c !! id end) in
    if bool_decide (size remaining = 0) then c
    else set_goneServices c (<[id := old]> (goneServices c))) c (range (services c)) in
  set_services c (keepNewer (Some s_Version) listed (services c)).

(** The tasks' part: a cached task newer than its listed copy replaces it, in
    the map and in both indexes. *)
Definition hold_newer (cached : gmap string Task) (st : gmap string Task * TaskIndex * TaskIndex)
    (listed : string * Task) : gmap string Task * TaskIndex * TaskIndex :=
  let '(tasks, byService, byNode) := st in
  let '(id, t) := listed in
  match cached !! id with
  | Some held =>
      if (t_Version held <=? t_Version t)%Z then st else
      (<[id := held]> tasks,
       addIndexed (removeIndexed byService (t_ServiceID t) id) (t_ServiceID held) id,
       addIndexed (removeIndexed byNode (t_NodeID t) id) (t_NodeID held) id)
  | None => st
  end.

(** The failures the event stream missed, and those Swarm merely retained. *)
Definition missed (c : Cache) (listed : string * Task) : bool :=
  let '(id, t) := listed in
  IsFailureState (t_State t) &&
  match tasks c !! id with
  | Some old => negb (IsFailureState (t_State old))
  | None => tasksSynced c
  end.

Definition retained (c : Cache) (listed : string * Task) : bool :=
  let '(id, t) := listed in
  IsFailureState (t_State t) &&
  match tasks c !! id with Some _ => false | None => negb (tasksSynced c) end.

(** The tasks' part, with the failures to record and to backfill. *)
Definition sync_tasks `{MapRange} (l : list Task) (c : Cache) : Cache * list Task * list Task :=
  let '(tasks, byService, byNode) :=
    foldl (hold_newer (tasks c)) (by_id t_ID l, index_tasks t_ServiceID l, index_tasks t_NodeID l)
      (range (by_id t_ID l)) in
  (pruneGoneServices (set_tasks (set_synced c (lastSync c) true) tasks byService byNode),
   (List.filter (missed c) (range tasks)).*2, (List.filter (retained c) (range tasks)).*2).

(** The types that are ResourceMaps and are replaced after the tasks. *)
Definition sync_maps `{MapRange} (data : FullSyncData) (c : Cache) : Cache :=
  let c := match f_Configs data with Some l => Replace configs_map (by_id c_ID l) c | None => c end in
  let c := match f_Secrets data with
           | Some l => Replace secrets_map (by_id x_ID (redacted <$> l)) c
           | None => c
           end in
  let c := match f_Networks data with Some l => Replace networks_map (by_id w_ID l) c | None => c end in
  match f_Volumes data with Some l => Replace volumes_map (by_id v_Name l) c | None => c end.

Definition ReplaceAll `{MapRange} (data : FullSyncData) (now : Z) (c : Cache) : Cache * list Event :=
  let c := match f_Nodes data with Some l => Replace nodes_map (by_id n_ID l) c | None => c end in
  let c := match f_Services data with
           | Some l => sync_services (by_id s_ID l) (index_tasks t_ServiceID <$> f_Tasks data) c
           | None => c
           end in
  let '(c, newFailures, backfilled) :=
    match f_Tasks data with Some l => sync_tasks l c | None => (c, [], []) end in
  let c := sync_maps data c in
  let c := rebuildStacks c in
  let c := set_serviceRef c (rebuild (services c)) in
  let c := set_synced c now (tasksSynced c) in
  let rt := foldl (λ rt t, Record_ rt (t_ServiceID t) (t_Timestamp t) now now) (restarts c) newFailures in
  let rt := foldl (λ rt t, Backfill rt (t_ServiceID t) (t_Timestamp t)) rt backfilled in
  (set_restarts c rt, [mkEvent EventSync "full_sync" "" "" RNone RNone "" ""]).
