(* ===== verification/Cache.v ===== *)
(** What holds of the cache: internal/cache/cache.go. One invariant says that
    every index the operations keep incrementally is the one a rebuild would
    give, and that no secret's data is held; every operation preserves it. *)
From S2P Require Import Prelude GoStrings SortedLists Restarts CacheState CacheStacks CacheIndex CacheOps.
#[local] Open Scope string_scope.
#[local] Open Scope nat_scope.

Definition plain_label (labels : Labels) : Prop := labels !! StackLabel ≠ Some "".

Record cache_ok (c : Cache) : Prop := {
  ck_nodes : keyed n_ID (nodes c);
  ck_services : keyed s_ID (services c);
  ck_tasks : keyed t_ID (tasks c);
  ck_configs : keyed c_ID (configs c);
  ck_secrets : keyed x_ID (secrets c);
  ck_networks : keyed w_ID (networks c);
  ck_volumes : keyed v_Name (volumes c);
  ck_labels id s : services c !! id = Some s → plain_label (s_Labels s);
  ck_stacks : stacks_match (members_of c) (stacks c);
  ck_index : index_ok (serviceRef c) (services c);
  ck_byService : tasks_match t_ServiceID (tasksByService c) (tasks c);
  ck_byNode : tasks_match t_NodeID (tasksByNode c) (tasks c);
  ck_redacted id x : secrets c !! id = Some x → x_Data x = None;
}.

(** * The operations *)

Inductive op :=
| OpSetNode (n : Node) | OpDeleteNode (id : string)
| OpSetService (s : Service) | OpDeleteService (id : string)
| OpSetTask (t : Task) (now : Z) | OpDeleteTask (id : string)
| OpSetConfig (v : Config) | OpAddConfig (v : Config) | OpDeleteConfig (id : string)
| OpSetSecret (v : Secret) | OpAddSecret (v : Secret) | OpDeleteSecret (id : string)
| OpSetNetwork (v : Network) | OpDeleteNetwork (id : string)
| OpSetVolume (v : Volume) | OpDeleteVolume (name : string)
| OpReplaceAll (data : FullSyncData) (now : Z).

(** The critical section: what it leaves, and the events to notify. *)
Definition section `{MapRange} (o : op) (c : Cache) : Cache * list Event :=
  match o with
  | OpSetNode n => Set_ nodes_map (n_ID n) n EventNode c
  | OpDeleteNode id => Delete_ nodes_map id EventNode c
  | OpSetService s => SetService s c
  | OpDeleteService id => DeleteService id c
  | OpSetTask t now => SetTask t now c
  | OpDeleteTask id => DeleteTask id c
  | OpSetConfig v => Set_ configs_map (c_ID v) v EventConfig c
  | OpAddConfig v => Add configs_map (c_ID v) v EventConfig c
  | OpDeleteConfig id => Delete_ configs_map id EventConfig c
  | OpSetSecret v => Set_ secrets_map (x_ID v) v EventSecret c
  | OpAddSecret v => Add secrets_map (x_ID v) v EventSecret c
  | OpDeleteSecret id => Delete_ secrets_map id EventSecret c
  | OpSetNetwork v => Set_ networks_map (w_ID v) v EventNetwork c
  | OpDeleteNetwork id => Delete_ networks_map id EventNetwork c
  | OpSetVolume v => Set_ volumes_map (v_Name v) v EventVolume c
  | OpDeleteVolume name => Delete_ volumes_map name EventVolume c
  | OpReplaceAll data now => ReplaceAll data now c
  end.

(** The operation with its notifications: the events as listeners see them. *)
Definition perform `{MapRange} (o : op) (c : Cache) : Cache * list Event :=
  let '(c, es) := section o c in notify_all c es.

(** What Docker guarantees of what it hands out: names of services are unique
    and a list holds a task once; and a stack label is not empty. *)
Definition op_ok `{MapRange} (o : op) (c : Cache) : Prop :=
  match o with
  | OpSetService s =>
      plain_label (s_Labels s) ∧
      ∀ id t, services c !! id = Some t → id ≠ s_ID s → s_Name t ≠ s_Name s
  | OpReplaceAll data now =>
      names_unique (services (ReplaceAll data now c).1) ∧
      (∀ l s, f_Services data = Some l → s ∈ l → plain_label (s_Labels s)) ∧
      (∀ l, f_Tasks data = Some l → NoDup (t_ID <$> l))
  | _ => True
  end.

(** * Stack hooks *)

Lemma addToStack_set `{MapRange} k id labels c :
  addToStack k id labels c = set_stacks c (stacks (addToStack k id labels c)).
Proof. unfold addToStack. destruct c; repeat case_match; done. Qed.

Lemma removeFromStack_set k id labels c :
  removeFromStack k id labels c = set_stacks c (stacks (removeFromStack k id labels c)).
Proof. unfold removeFromStack. destruct c; repeat (case_match; simpl); done. Qed.

Lemma labelled_insert {T} (labels : T → Labels) (m : gmap string T) id v ns :
  labelled labels (<[id := v]> m) ns =
  (if decide (labels v !! StackLabel = Some ns) then {[id]} else ∅) ∪
  (labelled labels m ns ∖ {[id]}).
Proof.
  apply leibniz_equiv. intros x. rewrite elem_of_union, elem_of_difference, elem_of_singleton, !elem_of_labelled.
  split.
  - intros (w & [[<- <-]|[Hx Hw]]%lookup_insert_Some & Hl); [left|right].
    + rewrite decide_True by done. by apply elem_of_singleton.
    + split; [eauto|congruence].
  - intros [Hx|[(w & Hw & Hl) Hx]].
    + case_decide; [|by apply not_elem_of_empty in Hx]. apply elem_of_singleton in Hx as ->.
      exists v. by rewrite lookup_insert_eq.
    + exists w. by rewrite lookup_insert_ne.
Qed.

Lemma labelled_delete {T} (labels : T → Labels) (m : gmap string T) id ns :
  labelled labels (delete id m) ns = labelled labels m ns ∖ {[id]}.
Proof.
  apply leibniz_equiv. intros x. rewrite elem_of_difference, elem_of_singleton, !elem_of_labelled.
  setoid_rewrite lookup_delete_Some. naive_solver.
Qed.

(** Taking a key's resource out of the membership, whatever its label. *)
Lemma labelled_out {T} (labels : T → Labels) (m : gmap string T) id old ns :
  m !! id = old →
  match old with
  | Some old => if decide (labels old !! StackLabel = Some ns)
                then labelled labels m ns ∖ {[id]} else labelled labels m ns
  | None => labelled labels m ns
  end = labelled labels m ns ∖ {[id]}.
Proof.
  intros Ho. assert (id ∈ labelled labels m ns → ∃ v, old = Some v ∧ labels v !! StackLabel = Some ns) as Hin.
  { rewrite elem_of_labelled, Ho. eauto. }
  destruct old as [old|]; [case_decide; [done|]|]; apply leibniz_equiv; intros x;
    rewrite elem_of_difference, elem_of_singleton; (split; [|tauto]); intros Hx; (split; [done|]);
    intros ->; destruct (Hin Hx) as (v & Hv & Hl); simplify_eq.
Qed.

Record stack_map `{MapRange} {T} (r : ResourceMap T) (ty : EventType) (id : T → string)
    (labels : T → Labels) (clean : T → T) : Prop := {
  sm_kind : ty ≠ EventService;
  sm_set : onSet r = Some (stack_onSet ty id labels clean);
  sm_del : onDelete r = Some (stack_onDelete ty id labels);
  sm_clean v : id (clean v) = id v ∧ labels (clean v) = labels v;
  sm_items_put c m : items r (put r c m) = m;
  sm_items_stacks c st : items r (set_stacks c st) = items r c;
  sm_put_stacks c st m : put r (set_stacks c st) m = set_stacks (put r c m) st;
  sm_members c m k ns :
    members_of (put r c m) k ns = if decide (k = ty) then labelled labels m ns else members_of c k ns;
  sm_self c : put r c (items r c) = c;
  sm_version f v : version r = Some f → f (clean v) = f v;
}.

(** What is still held is not older than it was. *)
Definition grows {T} (version : T → Z) (m m' : gmap string T) : Prop :=
  ∀ key old new, m !! key = Some old → m' !! key = Some new → (version old ≤ version new)%Z.

Lemma grows_refl {T} (f : T → Z) m : grows f m m.
Proof. intros key old new Ho Hn. simplify_eq. lia. Qed.

Lemma grows_insert {T} (f : T → Z) m key v :
  (∀ old, m !! key = Some old → (f old ≤ f v)%Z) → grows f m (<[key := v]> m).
Proof.
  intros Hv key' old new Ho [[<- <-]|[_ Hn]]%lookup_insert_Some; [by apply Hv|].
  simplify_eq. lia.
Qed.

Lemma grows_delete {T} (f : T → Z) m key : grows f m (delete key m).
Proof. intros key' old new Ho [_ Hn]%lookup_delete_Some. simplify_eq. lia. Qed.

Section StackMap.
Context `{MapRange} {T : Type} (r : ResourceMap T) (ty : EventType) (id : T → string)
  (labels : T → Labels) (clean : T → T) (Hr : stack_map r ty id labels clean).

Lemma sm_members_self c ns : members_of c ty ns = labelled labels (items r c) ns.
Proof using Hr.
  rewrite <- (sm_self _ _ _ _ _ Hr c) at 1. rewrite (sm_members _ _ _ _ _ Hr). by rewrite decide_True.
Qed.

Lemma sm_remove c key old k ns :
  items r c !! key = old →
  match old with Some old => mem_remove ty key (labels old) (members_of c) k ns | None => members_of c k ns end =
  if decide (k = ty) then labelled labels (items r c) ns ∖ {[key]} else members_of c k ns.
Proof using Hr.
  intros Ho. rewrite <- (labelled_out labels (items r c) key old ns Ho).
  destruct old as [old|]; unfold mem_remove; repeat case_decide; subst;
    rewrite ?sm_members_self; try done; try tauto; naive_solver.
Qed.

Lemma rm_set_spec c key v :
  keyed id (items r c) → id v = key → stacks_match (members_of c) (stacks c) →
  ∃ st, rm_set r key v c = (clean v, set_stacks (put r c (<[key := clean v]> (items r c))) st) ∧
  stacks_match (members_of (put r c (<[key := clean v]> (items r c)))) st.
Proof using Hr.
  intros Hk Hid Hm. unfold rm_set. rewrite (sm_set _ _ _ _ _ Hr). unfold stack_onSet.
  destruct (sm_clean _ _ _ _ _ Hr v) as [Hcid Hcl]. rewrite Hcid, Hid, Hcl.
  set (c1 := match items r c !! key with
    | Some old => removeFromStack ty (id old) (labels old) c | None => c end).
  assert (∃ st1, c1 = set_stacks c st1 ∧ stacks_match (λ k ns,
    if decide (k = ty) then labelled labels (items r c) ns ∖ {[key]} else members_of c k ns) st1)
    as (st1 & Hc1 & Hm1).
  { destruct (items r c !! key) as [old|] eqn:Eo; subst c1.
    - exists (stacks (removeFromStack ty (id old) (labels old) c)).
      split; [apply removeFromStack_set|]. rewrite (Hk _ _ Eo).
      eapply stacks_match_ext; [|by apply remove_match].
      intros k ns. exact (sm_remove c key (Some old) k ns Eo).
    - exists (stacks c). split; [by destruct c|]. eapply stacks_match_ext; [|exact Hm].
      intros k ns. exact (sm_remove c key None k ns Eo). }
  rewrite Hc1. exists (stacks (addToStack ty key (labels v) (set_stacks c st1))). split.
  - rewrite addToStack_set, !(sm_items_stacks _ _ _ _ _ Hr), !(sm_put_stacks _ _ _ _ _ Hr). done.
  - eapply stacks_match_ext; [|apply add_match; [exact Hm1|]].
    + intros k ns. simpl. rewrite (sm_members _ _ _ _ _ Hr), labelled_insert, Hcl. unfold mem_add.
      destruct (decide (k = ty)) as [->|Hne].
      * destruct (decide (labels v !! StackLabel = Some ns)); [by rewrite decide_True|].
        rewrite decide_False by tauto. set_solver.
      * by rewrite decide_False by tauto.
    + intros ns Hs. by destruct (sm_kind _ _ _ _ _ Hr).
Qed.

Lemma del_spec c key :
  keyed id (items r c) → stacks_match (members_of c) (stacks c) →
  ∃ name st, del r key c = (name, set_stacks (put r c (delete key (items r c))) st) ∧
  stacks_match (members_of (put r c (delete key (items r c)))) st.
Proof using Hr.
  intros Hk Hm. unfold del. rewrite (sm_del _ _ _ _ _ Hr). unfold stack_onDelete.
  assert (∀ k ns, (if decide (k = ty) then labelled labels (items r c) ns ∖ {[key]} else members_of c k ns)
    = members_of (put r c (delete key (items r c))) k ns) as Hext.
  { intros k ns. by rewrite (sm_members _ _ _ _ _ Hr), labelled_delete. }
  destruct (items r c !! key) as [old|] eqn:Eo.
  - eexists _, (stacks (removeFromStack ty (id old) (labels old) c)). split.
    + f_equal. rewrite removeFromStack_set at 1.
      rewrite (sm_put_stacks _ _ _ _ _ Hr). do 2 f_equal. rewrite removeFromStack_set.
      by rewrite (sm_items_stacks _ _ _ _ _ Hr).
    + rewrite (Hk _ _ Eo). eapply stacks_match_ext; [exact Hext|].
      eapply stacks_match_ext; [|by apply remove_match].
      intros k ns. exact (sm_remove c key (Some old) k ns Eo).
  - exists "", (stacks c). split.
    + rewrite <- (sm_put_stacks _ _ _ _ _ Hr). by destruct c.
    + eapply stacks_match_ext; [exact Hext|]. eapply stacks_match_ext; [|exact Hm].
      intros k ns. exact (sm_remove c key None k ns Eo).
Qed.

(** Every operation of the map leaves the cache with another map and stacks
    that match it. *)
Definition written (c c' : Cache) : Prop :=
  c' = c ∨ ∃ m st, c' = set_stacks (put r c m) st ∧ stacks_match (members_of (put r c m)) st ∧
  keyed id m ∧ (∀ key v, m !! key = Some v → items r c !! key = Some v ∨ ∃ w, v = clean w) ∧
  ∀ f, version r = Some f → grows f (items r c) m.

Lemma written_insert c key v :
  keyed id (items r c) → id v = key → keyed id (<[key := clean v]> (items r c)) ∧
  ∀ key' w, <[key := clean v]> (items r c) !! key' = Some w → items r c !! key' = Some w ∨ ∃ u, w = clean u.
Proof using Hr.
  intros Hk Hid. destruct (sm_clean _ _ _ _ _ Hr v) as [Hcid _]. split.
  - intros key' w [[<- <-]|[_ Hw]]%lookup_insert_Some; [congruence|by apply Hk].
  - intros key' w [[<- <-]|[_ Hw]]%lookup_insert_Some; [right; eauto|by left].
Qed.

Lemma Set_written c v e :
  keyed id (items r c) → stacks_match (members_of c) (stacks c) → written c (Set_ r (id v) v e c).1.
Proof using Hr.
  intros Hk Hm. unfold Set_. destruct (older _ _ _) eqn:Hold; [by left|].
  destruct (rm_set_spec c (id v) v Hk eq_refl Hm) as (st & -> & Hst). right. simpl. eexists _, st.
  destruct (written_insert c (id v) v Hk eq_refl) as [H1 H2]. split_and!; [done..|].
  intros f Hf. apply grows_insert. intros old Ho. rewrite (sm_version _ _ _ _ _ Hr f v Hf).
  rewrite Ho in Hold. unfold older in Hold. rewrite Hf in Hold. lia.
Qed.

Lemma Add_written c v e :
  keyed id (items r c) → stacks_match (members_of c) (stacks c) → written c (Add r (id v) v e c).1.
Proof using Hr.
  intros Hk Hm. unfold Add. destruct (items r c !! id v) eqn:Hnew; [by left|].
  destruct (rm_set_spec c (id v) v Hk eq_refl Hm) as (st & -> & Hst). right. simpl. eexists _, st.
  destruct (written_insert c (id v) v Hk eq_refl) as [H1 H2]. split_and!; [done..|].
  intros f Hf. apply grows_insert. intros old Ho. congruence.
Qed.

Lemma Delete_written c key e :
  keyed id (items r c) → stacks_match (members_of c) (stacks c) → written c (Delete_ r key e c).1.
Proof using Hr.
  intros Hk Hm. unfold Delete_. destruct (del_spec c key Hk Hm) as (name & st & -> & Hst).
  right. simpl. eexists _, st. split_and!; [done|done| | |].
  - intros key' w [_ Hw]%lookup_delete_Some. by apply Hk.
  - intros key' w [_ Hw]%lookup_delete_Some. by left.
  - intros f _. apply grows_delete.
Qed.
End StackMap.

Lemma configs_stack_map `{MapRange} : stack_map configs_map EventConfig c_ID c_Labels (λ v, v).
Proof. constructor; try done; (by intros c m []) || (by intros []) || (by intros f v [= <-]). Qed.

Lemma secrets_stack_map `{MapRange} : stack_map secrets_map EventSecret x_ID x_Labels redacted.
Proof. constructor; try done; (by intros c m []) || (by intros []) || (by intros f v [= <-]). Qed.

Lemma networks_stack_map `{MapRange} : stack_map networks_map EventNetwork w_ID w_Labels (λ v, v).
Proof. constructor; try done; (by intros c m []) || (by intros []) || (by intros f v [= <-]). Qed.

Lemma volumes_stack_map `{MapRange} : stack_map volumes_map EventVolume v_Name v_Labels (λ v, v).
Proof. constructor; try done; (by intros c m []) || (by intros []) || (by intros f v [= <-]). Qed.

(** * The invariant is preserved *)

Lemma written_configs_ok `{MapRange} c c' :
  cache_ok c → written configs_map c_ID (λ v, v) c c' → cache_ok c'.
Proof. intros [] [->|(m & st & -> & Hst & Hk & _)]; constructor; done. Qed.

Lemma written_secrets_ok `{MapRange} c c' :
  cache_ok c → written secrets_map x_ID redacted c c' → cache_ok c'.
Proof.
  intros [] [->|(m & st & -> & Hst & Hk & Hc & _)]; constructor; try done.
  simpl. intros id x Hx. destruct (Hc id x Hx) as [Ho|(w & ->)]; [by eapply ck_redacted0|done].
Qed.

Lemma written_networks_ok `{MapRange} c c' :
  cache_ok c → written networks_map w_ID (λ v, v) c c' → cache_ok c'.
Proof. intros [] [->|(m & st & -> & Hst & Hk & _)]; constructor; done. Qed.

Lemma written_volumes_ok `{MapRange} c c' :
  cache_ok c → written volumes_map v_Name (λ v, v) c c' → cache_ok c'.
Proof. intros [] [->|(m & st & -> & Hst & Hk & _)]; constructor; done. Qed.

Lemma nodes_ok c m : cache_ok c → keyed n_ID m → cache_ok (set_nodes c m).
Proof. intros [] Hk; constructor; done. Qed.

Lemma SetNode_ok c n : cache_ok c → cache_ok (Set_ nodes_map (n_ID n) n EventNode c).1.
Proof.
  intros Hok. unfold Set_. case_match; [done|]. simpl. apply nodes_ok; [done|].
  intros id v [[<- <-]|[_ Hv]]%lookup_insert_Some; [done|by apply (ck_nodes _ Hok)].
Qed.

Lemma DeleteNode_ok c id : cache_ok c → cache_ok (Delete_ nodes_map id EventNode c).1.
Proof.
  intros Hok. unfold Delete_, del. simpl.
  assert (keyed n_ID (delete id (nodes c))) as Hk
    by (intros key v [_ Hv]%lookup_delete_Some; by apply (ck_nodes _ Hok)).
  destruct (nodes c !! id); by apply nodes_ok.
Qed.

(** ** Services *)

Lemma seedStack_members `{MapRange} c ns k :
  ns ≠ "" → k ≠ EventService → stack_kind k →
  members k (seedStack c ns) = sorted_elements (members_of c k ns).
Proof.
  intros Hns Hk Hkind.
  assert (∀ T (labels : T → Labels) (items : gmap string T),
    SortStrings (keys_where (λ v, bool_decide (label_of (labels v) = ns)) items) =
    sorted_elements (labelled labels items ns)) as Hsort.
  { intros T labels items. apply sort_keys_where. intros id. rewrite elem_of_labelled.
    setoid_rewrite bool_decide_eq_true. unfold label_of.
    split; intros (v & Hv & Hl); exists v; (split; [done|]).
    - by rewrite Hl.
    - destruct (labels v !! StackLabel); simpl in Hl; [by subst|congruence]. }
  destruct k; simpl; try done; unfold stack_kind in Hkind; set_solver.
Qed.

Lemma services_seed `{MapRange} c st ix m mem ns :
  ns ≠ "" → (∀ k, k ≠ EventService → mem k ns = members_of c k ns) →
  seeds mem (set_services (set_serviceRef (set_stacks c st) ix) m) ns.
Proof.
  intros Hns Hmem k Hk.
  destruct (decide (stack_kind k)) as [Hkind|Hkind].
  - rewrite seedStack_members by done. specialize (Hmem k Hk).
    destruct k; simpl in *; rewrite ?Hmem; try done; unfold stack_kind in Hkind; set_solver.
  - destruct k; try done; unfold stack_kind in Hkind; set_solver.
Qed.

Lemma members_services c st ix m k ns :
  members_of (set_services (set_serviceRef (set_stacks c st) ix) m) k ns =
  if decide (k = EventService) then labelled s_Labels m ns else members_of c k ns.
Proof. by destruct k. Qed.

Lemma services_remove c id old k ns :
  services c !! id = old →
  match old with Some old => mem_remove EventService id (s_Labels old) (members_of c) k ns
  | None => members_of c k ns end =
  if decide (k = EventService) then labelled s_Labels (services c) ns ∖ {[id]} else members_of c k ns.
Proof.
  intros Ho. rewrite <- (labelled_out s_Labels (services c) id old ns Ho).
  destruct old as [old|]; unfold mem_remove; repeat case_decide; subst; try done; try tauto; naive_solver.
Qed.

(** The cache a service's removal leaves: its stacks and index are those of
    the other services. *)
Definition without_service `{MapRange} (id : string) (c : Cache) : Cache :=
  match services c !! id with
  | Some old =>
      let c := removeFromStack EventService id (s_Labels old) c in
      set_serviceRef c (remove (serviceRef c) old (serviceRefs old))
  | None => c
  end.

Lemma without_service_spec `{MapRange} id c :
  cache_ok c →
  ∃ st ix, without_service id c = set_serviceRef (set_stacks c st) ix ∧
    index_ok ix (delete id (services c)) ∧
    stacks_match (λ k ns, if decide (k = EventService)
      then labelled s_Labels (services c) ns ∖ {[id]} else members_of c k ns) st.
Proof.
  intros Hok. unfold without_service. destruct (services c !! id) as [old|] eqn:Eo.
  - eexists (stacks (removeFromStack EventService id (s_Labels old) c)), _. split_and!.
    + rewrite removeFromStack_set. simpl. reflexivity.
    + pose proof (ck_services _ Hok id old Eo) as Hid. subst id.
      apply remove_index_ok; [apply (ck_index _ Hok)|done].
    + eapply stacks_match_ext; [|apply remove_match, (ck_stacks _ Hok)].
      intros k ns. exact (services_remove c id (Some old) k ns Eo).
  - exists (stacks c), (serviceRef c). split_and!.
    + by destruct c.
    + rewrite delete_id by done. apply (ck_index _ Hok).
    + eapply stacks_match_ext; [|apply (ck_stacks _ Hok)].
      intros k ns. exact (services_remove c id None k ns Eo).
Qed.

Lemma SetService_unfold `{MapRange} s c :
  let old := services c !! s_ID s in
  (match old with Some old => (s_Version s <? s_Version old)%Z | None => false end) = false →
  keyed s_ID (services c) →
  (SetService s c).1 =
    let c1 := set_services (without_service (s_ID s) c) (<[s_ID s := s]> (services c)) in
    let c2 := addToStack EventService (s_ID s) (s_Labels s) c1 in
    set_serviceRef c2 (add (serviceRef c2) s (serviceRefs s)).
Proof.
  intros old Hv Hk. unfold SetService. fold old. rewrite Hv. unfold without_service. fold old.
  subst old. destruct (services c !! s_ID s) as [old|] eqn:Eo; [|done].
  rewrite (Hk _ _ Eo), (removeFromStack_set EventService). done.
Qed.

Lemma SetService_ok `{MapRange} s c :
  plain_label (s_Labels s) →
  (∀ id t, services c !! id = Some t → id ≠ s_ID s → s_Name t ≠ s_Name s) →
  cache_ok c → cache_ok (SetService s c).1.
Proof.
  intros Hlabel Hname Hok. pose proof (SetService_unfold s c) as Hu. simpl in Hu.
  destruct (match services c !! s_ID s with Some old => (s_Version s <? s_Version old)%Z | None => false end)
    eqn:Ev; [unfold SetService; by rewrite Ev|].
  rewrite Hu by (done || apply (ck_services _ Hok)). clear Hu.
  destruct (without_service_spec (s_ID s) c Hok) as (st & ix & -> & Hix & Hst).
  set (m := <[s_ID s := s]> (services c)).
  set (c1 := set_services (set_serviceRef (set_stacks c st) ix) m).
  rewrite addToStack_set. set (st2 := stacks (addToStack _ _ _ c1)).
  assert (stacks_match (members_of c1) st2) as Hm.
  { subst st2 c1. eapply stacks_match_ext; [|apply add_match; [exact Hst|]].
    - intros k ns. rewrite members_services. unfold mem_add. subst m. rewrite labelled_insert.
      destruct (decide (k = EventService)) as [->|Hne].
      + destruct (decide (s_Labels s !! StackLabel = Some ns)); [by rewrite decide_True|].
        rewrite decide_False by tauto. set_solver.
      + by rewrite decide_False by tauto.
    - intros ns _ Hns. apply services_seed; [congruence|]. intros k Hk. by rewrite decide_False. }
  assert (index_ok (add ix s (serviceRefs s)) m) as Hi.
  { subst m. rewrite <- insert_delete_eq. apply add_index_ok; [done|by rewrite lookup_delete_eq|].
    intros id t [Hne Ht]%lookup_delete_Some. apply (Hname id t); [done|]. by apply not_eq_sym. }
  assert (keyed s_ID m) as Hk.
  { intros id t [[<- <-]|[_ Ht]]%lookup_insert_Some; [done|by apply (ck_services _ Hok)]. }
  assert (∀ id t, m !! id = Some t → plain_label (s_Labels t)) as Hl.
  { intros id t [[<- <-]|[_ Ht]]%lookup_insert_Some; [done|by eapply (ck_labels _ Hok)]. }
  destruct Hok. constructor; done.
Qed.

Lemma gone_ok c m : cache_ok c → cache_ok (set_goneServices c m).
Proof. intros []. constructor; done. Qed.

Lemma restarts_ok c rt : cache_ok c → cache_ok (set_restarts c rt).
Proof. intros []. constructor; done. Qed.

Lemma DeleteService_unfold `{MapRange} id c :
  ∃ gone rt, (DeleteService id c).1 =
    set_restarts (set_goneServices (set_services (without_service id c) (delete id (services c))) gone) rt.
Proof.
  unfold DeleteService, without_service. destruct (services c !! id) as [old|] eqn:Eo; simpl.
  - case_bool_decide; rewrite removeFromStack_set; simpl; eauto.
  - exists (goneServices c). eexists. reflexivity.
Qed.

Lemma DeleteService_ok `{MapRange} id c : cache_ok c → cache_ok (DeleteService id c).1.
Proof.
  intros Hok. destruct (DeleteService_unfold id c) as (gone & rt & ->). apply restarts_ok, gone_ok.
  destruct (without_service_spec id c Hok) as (st & ix & -> & Hix & Hst).
  assert (stacks_match (members_of (set_services (set_serviceRef (set_stacks c st) ix)
    (delete id (services c)))) st) as Hm.
  { eapply stacks_match_ext; [|exact Hst]. intros k ns. rewrite members_services.
    by rewrite labelled_delete. }
  destruct Hok. constructor; try done; simpl.
  - intros x t [_ Ht]%lookup_delete_Some. by apply ck_services0.
  - intros x t [_ Ht]%lookup_delete_Some. by eapply ck_labels0.
Qed.

(** ** Tasks *)

Lemma reindex_match parent by_ tasks t old :
  tasks_match parent by_ tasks → tasks !! t_ID t = Some old → t_ID old = t_ID t →
  tasks_match parent (addIndexed (unindex by_ (parent old) (t_ID old)) (parent t) (t_ID t))
    (<[t_ID t := t]> tasks).
Proof.
  intros Hm Ho Hid. rewrite <- (insert_delete_eq tasks). apply addIndexed_match.
  - rewrite <- Hid. apply unindex_match; [done|]. by rewrite Hid.
  - apply lookup_delete_eq.
Qed.

Lemma reindex_ok c t (old : option Task) :
  cache_ok c → tasks c !! t_ID t = old →
  let c1 := match old with Some old => removeTaskIndex old c | None => c end in
  tasks_match t_ServiceID (addIndexed (tasksByService c1) (t_ServiceID t) (t_ID t)) (<[t_ID t := t]> (tasks c)) ∧
  tasks_match t_NodeID (addIndexed (tasksByNode c1) (t_NodeID t) (t_ID t)) (<[t_ID t := t]> (tasks c)).
Proof.
  intros Hok Ho. destruct old as [old|]; simpl.
  - pose proof (ck_tasks _ Hok _ _ Ho) as Hid.
    split; apply reindex_match; try done; [apply (ck_byService _ Hok)|apply (ck_byNode _ Hok)].
  - split; apply addIndexed_match; try done; [apply (ck_byService _ Hok)|apply (ck_byNode _ Hok)].
Qed.

Lemma SetTask_ok t now c : cache_ok c → cache_ok (SetTask t now c).1.
Proof.
  intros Hok. unfold SetTask. destruct (match tasks c !! t_ID t with Some _ => _ | None => false end) eqn:Ev;
    [done|]. cbn [fst]. match goal with |- cache_ok (if ?b then set_restarts ?x _ else ?x) =>
      enough (cache_ok x) by (destruct b; [by apply restarts_ok|done]) end.
  destruct (reindex_ok c t (tasks c !! t_ID t) Hok eq_refl) as [H1 H2].
  assert (keyed t_ID (<[t_ID t := t]> (tasks c))) as Hk.
  { intros id u [[<- <-]|[_ Hu]]%lookup_insert_Some; [done|by apply (ck_tasks _ Hok)]. }
  destruct Hok. destruct (tasks c !! t_ID t) as [old|]; constructor; done.
Qed.

Lemma DeleteTask_ok id c : cache_ok c → cache_ok (DeleteTask id c).1.
Proof.
  intros Hok. unfold DeleteTask. destruct (tasks c !! id) as [old|] eqn:Eo.
  - pose proof (ck_tasks _ Hok _ _ Eo) as Hid. subst id.
    pose proof (unindex_match t_ServiceID _ _ old (ck_byService _ Hok) Eo) as H1.
    pose proof (unindex_match t_NodeID _ _ old (ck_byNode _ Hok) Eo) as H2.
    assert (keyed t_ID (delete (t_ID old) (tasks c))) as Hk.
    { intros id u [_ Hu]%lookup_delete_Some. by apply (ck_tasks _ Hok). }
    destruct Hok. case_bool_decide; constructor; done.
  - simpl. rewrite delete_id by done. by destruct Hok.
Qed.

(** ** A full sync *)

(** The invariant but for what a sync rebuilds. *)
Record base_ok (c : Cache) : Prop := {
  bk_nodes : keyed n_ID (nodes c);
  bk_services : keyed s_ID (services c);
  bk_tasks : keyed t_ID (tasks c);
  bk_configs : keyed c_ID (configs c);
  bk_secrets : keyed x_ID (secrets c);
  bk_networks : keyed w_ID (networks c);
  bk_volumes : keyed v_Name (volumes c);
  bk_labels id s : services c !! id = Some s → plain_label (s_Labels s);
  bk_byService : tasks_match t_ServiceID (tasksByService c) (tasks c);
  bk_byNode : tasks_match t_NodeID (tasksByNode c) (tasks c);
  bk_redacted id x : secrets c !! id = Some x → x_Data x = None;
}.

Lemma cache_base c : cache_ok c → base_ok c.
Proof. intros []. by constructor. Qed.

Lemma rebuilt_ok `{MapRange} c :
  base_ok c → names_unique (services c) →
  cache_ok (set_serviceRef (rebuildStacks c) (rebuild (services (rebuildStacks c)))).
Proof.
  intros [] Hu. constructor; try done.
  - exact (rebuildStacks_match c).
  - by apply rebuild_ok.
Qed.

Lemma by_id_lookup {T} (id : T → string) l key v :
  by_id id l !! key = Some v → id v = key ∧ v ∈ l.
Proof.
  unfold by_id. enough (∀ m : gmap string T, foldl (λ m v, <[id v := v]> m) m l !! key = Some v →
    m !! key = Some v ∨ id v = key ∧ v ∈ l) as Hgen.
  { intros Hl. destruct (Hgen ∅ Hl) as [He|]; [by rewrite lookup_empty in He|done]. }
  induction l as [|x l IH]; intros m; simpl; [by left|]. intros Hl.
  destruct (IH _ Hl) as [[[<- <-]|[_ Hm]]%lookup_insert_Some|[Hid Hin]].
  - right. split; [done|left].
  - by left.
  - right. split; [done|by right].
Qed.

Lemma by_id_keyed {T} (id : T → string) l : keyed id (by_id id l).
Proof. intros key v Hv. apply (by_id_lookup id l key v Hv). Qed.

Lemma keepNewer_lookup {T} (version : option (T → Z)) listed cached key v :
  keepNewer version listed cached !! key = Some v →
  listed !! key = Some v ∨ cached !! key = Some v.
Proof.
  destruct version as [version|]; simpl; [|by left]. rewrite map_lookup_imap.
  destruct (listed !! key) as [fresh|]; simpl; [|done].
  destruct (cached !! key) as [held|]; [|by left]. case_match; intros [= <-]; [by right|by left].
Qed.

Lemma keepNewer_keyed {T} (id : T → string) (version : option (T → Z)) listed cached :
  keyed id listed → keyed id cached → keyed id (keepNewer version listed cached).
Proof. intros H1 H2 key v [Hv|Hv]%keepNewer_lookup; [by apply H1|by apply H2]. Qed.

Lemma sync_services_fields `{MapRange} listed byService c :
  ∃ gone rt, sync_services listed byService c =
    set_services (set_restarts (set_goneServices c gone) rt) (keepNewer (Some s_Version) listed (services c)).
Proof.
  unfold sync_services. generalize (range (services c)) as l. intros l.
  set (f := λ (c : Cache) '(id, old), _).
  enough (∃ gone rt, foldl f c l = set_restarts (set_goneServices c gone) rt) as (gone & rt & ->);
    [exists gone, rt; done|].
  enough (∀ gone rt, ∃ gone' rt', foldl f (set_restarts (set_goneServices c gone) rt) l =
    set_restarts (set_goneServices c gone') rt') as Hgen.
  { destruct (Hgen (goneServices c) (restarts c)) as (gone' & rt' & Hf). exists gone', rt'.
    rewrite <- Hf. by destruct c. }
  induction l as [|[id old] l IH]; intros gone rt; [by exists gone, rt|].
  cbn [foldl]. subst f. cbn beta iota.
  repeat case_bool_decide.
  - exact (IH gone rt).
  - exact (IH gone (Forget rt id)).
  - pose (gone2 := (<[id := old]> gone) : gmap string Service). exact (IH gone2 (Forget rt id)).
Qed.

Lemma tasks_match_empty parent : tasks_match parent ∅ ∅.
Proof.
  split.
  - intros p id. rewrite lookup_empty. simpl. split; [set_solver|].
    intros [_ (t & Ht & _)]. by rewrite lookup_empty in Ht.
  - intros p. by rewrite lookup_empty.
Qed.

Lemma index_tasks_match parent l :
  NoDup (t_ID <$> l) → tasks_match parent (index_tasks parent l) (by_id t_ID l).
Proof.
  unfold index_tasks, by_id. intros Hn.
  enough (∀ idx (m : gmap string Task), tasks_match parent idx m → (∀ t, t ∈ l → m !! t_ID t = None) →
    tasks_match parent (foldl (λ m t, addIndexed m (parent t) (t_ID t)) idx l)
      (foldl (λ m v, <[t_ID v := v]> m) m l)) as Hgen.
  { apply Hgen; [apply tasks_match_empty|]. intros. apply lookup_empty. }
  induction l as [|t l IH]; intros idx m Hm Hnew; simpl; [done|].
  apply NoDup_cons in Hn as [Ht Hn]. apply IH; [done| |].
  - apply addIndexed_match; [done|]. apply Hnew. left.
  - intros u Hu. rewrite lookup_insert_ne; [apply Hnew; by right|].
    intros Heq. apply Ht. rewrite Heq. by apply list_elem_of_fmap_2.
Qed.

Lemma removeIndexed_unindex parent by_ tasks p id :
  tasks_match parent by_ tasks → removeIndexed by_ p id = unindex by_ p id.
Proof.
  intros [Hm He]. unfold removeIndexed, unindex. destruct (decide (p = "")) as [->|Hp].
  - rewrite (bool_decide_eq_true_2 ("" = "")) by done. assert (by_ !! "" = None) as Hn.
    { destruct (by_ !! "") as [X|] eqn:E; [|done]. destruct (decide (X = ∅)) as [->|Hne];
        [by destruct (He "")|]. apply set_choose_L in Hne as [x Hx].
      assert (x ∈ (default ∅ (by_ !! "") : gset string)) as Hx' by (by rewrite E).
      by apply Hm in Hx' as [? _]. }
    rewrite Hn. cbn [default option_rect]. rewrite bool_decide_eq_true_2; [by rewrite delete_id|].
    change (size (∅ ∖ {[id]} : gset string) = 0); by rewrite empty_difference_L, size_empty.
  - rewrite (bool_decide_eq_false_2 (p = "")) by done.
    destruct (by_ !! p) as [X|] eqn:E; [done|]. cbn [default option_rect].
    rewrite bool_decide_eq_true_2; [by rewrite delete_id|].
    change (size (∅ ∖ {[id]} : gset string) = 0); by rewrite empty_difference_L, size_empty.
Qed.

Definition triple_ok (st : gmap string Task * TaskIndex * TaskIndex) : Prop :=
  keyed t_ID st.1.1 ∧ tasks_match t_ServiceID st.1.2 st.1.1 ∧ tasks_match t_NodeID st.2 st.1.1.

Lemma replace_match parent by_ tasks t held :
  tasks_match parent by_ tasks → tasks !! t_ID t = Some t → t_ID held = t_ID t →
  tasks_match parent (addIndexed (removeIndexed by_ (parent t) (t_ID t)) (parent held) (t_ID t))
    (<[t_ID t := held]> tasks).
Proof.
  intros Hm Ht Hid. rewrite (removeIndexed_unindex parent by_ tasks) by done.
  pose proof (reindex_match parent by_ tasks held t Hm) as Hr. rewrite Hid in Hr. by apply Hr.
Qed.

Lemma hold_newer_ok cached l st :
  keyed t_ID cached → triple_ok st → NoDup l.*1 →
  (∀ id t, (id, t) ∈ l → st.1.1 !! id = Some t) →
  triple_ok (foldl (hold_newer cached) st l).
Proof.
  intros Hc. revert st. induction l as [|[id t] l IH]; intros [[m bs] bn] Hst Hn Hin; [done|].
  cbn [foldl]. simpl in Hn. apply NoDup_cons in Hn as [Hid Hn].
  pose proof (Hin id t ltac:(left)) as Ht. simpl in Ht.
  destruct Hst as (Hk & H1 & H2). simpl in *. pose proof (Hk id t Ht) as Hidt. subst id.
  destruct (cached !! t_ID t) as [held|] eqn:Eh; [destruct (Z.leb_spec (t_Version held) (t_Version t))|].
  - apply IH; [done..|]. intros id u Hu. apply Hin. by right.
  - pose proof (Hc _ _ Eh) as Hh. apply IH; [|done|].
    + split_and!; simpl; [|by apply (replace_match t_ServiceID)|by apply (replace_match t_NodeID)].
      intros id u [[<- <-]|[_ Hu]]%lookup_insert_Some; [done|by apply Hk].
    + intros id u Hu. simpl. rewrite lookup_insert_ne; [apply Hin; by right|].
      intros <-. apply Hid. by apply (list_elem_of_fmap_2 fst l (t_ID t, u)).
  - apply IH; [done..|]. intros id u Hu. apply Hin. by right.
Qed.

Lemma base_nodes c m : base_ok c → keyed n_ID m → base_ok (set_nodes c m).
Proof. intros [] Hk. constructor; done. Qed.

Lemma base_services c gone rt m :
  base_ok c → keyed s_ID m → (∀ id s, m !! id = Some s → plain_label (s_Labels s)) →
  base_ok (set_services (set_restarts (set_goneServices c gone) rt) m).
Proof. intros [] Hk Hl. constructor; done. Qed.

Lemma sync_tasks_base `{MapRange} l c :
  NoDup (t_ID <$> l) → base_ok c →
  base_ok (sync_tasks l c).1.1 ∧ services (sync_tasks l c).1.1 = services c.
Proof.
  intros Hn Hok. unfold sync_tasks.
  pose proof (hold_newer_ok (tasks c) (range (by_id t_ID l))
    (by_id t_ID l, index_tasks t_ServiceID l, index_tasks t_NodeID l)) as Hh.
  destruct (foldl _ _ _) as [[m bs] bn]. destruct Hh as (Hk & H1 & H2).
  - apply (bk_tasks _ Hok).
  - split_and!; [apply by_id_keyed|by apply index_tasks_match..].
  - apply NoDup_range.
  - intros id t Ht. by apply elem_of_range in Ht.
  - split; [|done]. destruct Hok. constructor; done.
Qed.

Lemma base_configs c m : base_ok c → keyed c_ID m → base_ok (set_configs c m).
Proof. intros [] Hk. constructor; done. Qed.

Lemma base_secrets c m :
  base_ok c → keyed x_ID m → (∀ id x, m !! id = Some x → x_Data x = None) → base_ok (set_secrets c m).
Proof. intros [] Hk Hr. constructor; done. Qed.

Lemma base_networks c m : base_ok c → keyed w_ID m → base_ok (set_networks c m).
Proof. intros [] Hk. constructor; done. Qed.

Lemma base_volumes c m : base_ok c → keyed v_Name m → base_ok (set_volumes c m).
Proof. intros [] Hk. constructor; done. Qed.

Lemma sync_maps_base `{MapRange} data c :
  base_ok c → base_ok (sync_maps data c) ∧ services (sync_maps data c) = services c.
Proof.
  intros Hok. unfold sync_maps.
  set (c1 := match f_Configs data with Some _ => _ | None => c end).
  assert (base_ok c1 ∧ services c1 = services c) as [Hok1 Hs1].
  { subst c1. destruct (f_Configs data); [|done]. split; [|done].
    apply base_configs; [done|]. apply keepNewer_keyed; [apply by_id_keyed|apply (bk_configs _ Hok)]. }
  clearbody c1. set (c2 := match f_Secrets data with Some _ => _ | None => c1 end).
  assert (base_ok c2 ∧ services c2 = services c) as [Hok2 Hs2].
  { subst c2. destruct (f_Secrets data) as [l|]; [|done]. split; [|done].
    apply base_secrets; [done| |].
    - apply keepNewer_keyed; [apply by_id_keyed|apply (bk_secrets _ Hok1)].
    - intros id x [Hx|Hx]%keepNewer_lookup.
      + apply by_id_lookup in Hx as [_ (y & -> & _)%list_elem_of_fmap]. done.
      + by eapply (bk_redacted _ Hok1). }
  clearbody c2. set (c3 := match f_Networks data with Some _ => _ | None => c2 end).
  assert (base_ok c3 ∧ services c3 = services c) as [Hok3 Hs3].
  { subst c3. destruct (f_Networks data); [|done]. split; [|done].
    apply base_networks; [done|]. apply keepNewer_keyed; [apply by_id_keyed|apply (bk_networks _ Hok2)]. }
  clearbody c3. destruct (f_Volumes data); [|done]. split; [|done].
  apply base_volumes; [done|]. apply keepNewer_keyed; [apply by_id_keyed|apply (bk_volumes _ Hok3)].
Qed.

Lemma ReplaceAll_ok `{MapRange} data now c :
  names_unique (services (ReplaceAll data now c).1) →
  (∀ l s, f_Services data = Some l → s ∈ l → plain_label (s_Labels s)) →
  (∀ l, f_Tasks data = Some l → NoDup (t_ID <$> l)) →
  base_ok c → cache_ok (ReplaceAll data now c).1.
Proof.
  intros Hnames Hlabels Htasks Hok. unfold ReplaceAll in *.
  set (c1 := match f_Nodes data with Some _ => _ | None => c end) in *.
  assert (base_ok c1) as Hok1.
  { subst c1. destruct (f_Nodes data); [|done]. apply base_nodes; [done|].
    apply keepNewer_keyed; [apply by_id_keyed|apply (bk_nodes _ Hok)]. }
  clearbody c1. set (c2 := match f_Services data with Some _ => _ | None => c1 end) in *.
  assert (base_ok c2) as Hok2.
  { subst c2. destruct (f_Services data) as [l|] eqn:El; [|done].
    destruct (sync_services_fields (by_id s_ID l) (index_tasks t_ServiceID <$> f_Tasks data) c1)
      as (gone & rt & ->). apply base_services; [done| |].
    - apply keepNewer_keyed; [apply by_id_keyed|apply (bk_services _ Hok1)].
    - intros id s [Hs|Hs]%keepNewer_lookup; [|by eapply (bk_labels _ Hok1)].
      apply by_id_lookup in Hs as [_ Hs]. by eapply Hlabels. }
  clearbody c2. set (r := match f_Tasks data with Some _ => _ | None => (c2, [], []) end) in *.
  assert (base_ok r.1.1) as Hok3.
  { subst r. destruct (f_Tasks data) as [l|] eqn:El; [|done].
    apply sync_tasks_base; [by apply Htasks|done]. }
  destruct r as [[c3 nf] bf]. simpl in Hok3. destruct (sync_maps_base data c3 Hok3) as [Hok4 _].
  set (c4 := sync_maps data c3) in *. clearbody c4. apply restarts_ok. simpl in Hnames.
  pose proof (rebuilt_ok c4 Hok4 Hnames) as []. constructor; done.
Qed.

Lemma New_ok now : cache_ok (New now).
Proof.
  constructor; simpl; try (intros id v Hv; by rewrite lookup_empty in Hv).
  - intros ns. rewrite lookup_empty, stack_spec_of. rewrite decide_True; [done|].
    apply leibniz_equiv. intros x. split; [|set_solver].
    intros (v & Hv & _)%elem_of_labelled. simpl in Hv. by rewrite lookup_empty in Hv.
  - apply empty_index_ok.
  - apply tasks_match_empty.
  - apply tasks_match_empty.
Qed.

Lemma section_ok `{MapRange} o c : op_ok o c → cache_ok c → cache_ok (section o c).1.
Proof.
  intros Ho Hok. destruct o; simpl.
  - by apply SetNode_ok.
  - by apply DeleteNode_ok.
  - destruct Ho. by apply SetService_ok.
  - by apply DeleteService_ok.
  - by apply SetTask_ok.
  - by apply DeleteTask_ok.
  - eapply written_configs_ok, (Set_written _ _ _ _ _ configs_stack_map); [done|apply Hok..].
  - eapply written_configs_ok, (Add_written _ _ _ _ _ configs_stack_map); [done|apply Hok..].
  - eapply written_configs_ok, (Delete_written _ _ _ _ _ configs_stack_map); [done|apply Hok..].
  - eapply written_secrets_ok, (Set_written _ _ _ _ _ secrets_stack_map); [done|apply Hok..].
  - eapply written_secrets_ok, (Add_written _ _ _ _ _ secrets_stack_map); [done|apply Hok..].
  - eapply written_secrets_ok, (Delete_written _ _ _ _ _ secrets_stack_map); [done|apply Hok..].
  - eapply written_networks_ok, (Set_written _ _ _ _ _ networks_stack_map); [done|apply Hok..].
  - eapply written_networks_ok, (Delete_written _ _ _ _ _ networks_stack_map); [done|apply Hok..].
  - eapply written_volumes_ok, (Set_written _ _ _ _ _ volumes_stack_map); [done|apply Hok..].
  - eapply written_volumes_ok, (Delete_written _ _ _ _ _ volumes_stack_map); [done|apply Hok..].
  - destruct Ho as (H1 & H2 & H3). apply ReplaceAll_ok; auto. by apply cache_base.
Qed.

(** Notifying moves the counters only. *)
Lemma generations_ok c g v : cache_ok c → cache_ok (set_generations c g v).
Proof. intros []. constructor; done. Qed.

Lemma notify_fields c e : ∃ g v, (notify c e).1 = set_generations c g v.
Proof. unfold notify. repeat case_match; eauto. Qed.

Lemma notify_all_fields c es : ∃ g v, (notify_all c es).1 = set_generations c g v.
Proof.
  revert c. induction es as [|e es IH]; intros c; simpl.
  - exists (generation c), (versionGeneration c). by destruct c.
  - destruct (notify_fields c e) as (g & v & Hn). destruct (notify c e) as [c1 e1]. simpl in Hn. subst c1.
    destruct (IH (set_generations c g v)) as (g2 & v2 & Hi).
    destruct (notify_all (set_generations c g v) es) as [c2 es2]. simpl in *. exists g2, v2. done.
Qed.

Lemma perform_fields `{MapRange} o c : ∃ g v, (perform o c).1 = set_generations (section o c).1 g v.
Proof.
  unfold perform. destruct (section o c) as [c1 es]. apply notify_all_fields.
Qed.

Lemma perform_ok `{MapRange} o c : op_ok o c → cache_ok c → cache_ok (perform o c).1.
Proof.
  intros Ho Hok. destruct (perform_fields o c) as (g & v & ->). by apply generations_ok, section_ok.
Qed.

(** ** Runs *)

Inductive reachable `{MapRange} (start : Z) : Cache → Prop :=
| reach_new : reachable start (New start)
| reach_perform o c : reachable start c → op_ok o c → reachable start (perform o c).1.

Lemma reachable_ok `{MapRange} start c : reachable start c → cache_ok c.
Proof. induction 1; [apply New_ok|by apply perform_ok]. Qed.
