(* ===== verification/CacheProps.v ===== *)
(** The cache's properties: its indexes are those of a rebuild in every
    reachable state, a held resource never goes back a version, no secret's
    data is held or announced, and a removed task still names its service. *)
From S2P Require Import Prelude GoStrings SortedLists Restarts CacheState CacheStacks CacheIndex CacheOps Cache.
#[local] Open Scope string_scope.
#[local] Open Scope nat_scope.

(** * An index is determined by what it must hold *)

Lemma stacks_match_unique mem st st' : stacks_match mem st → stacks_match mem st' → st = st'.
Proof. intros H1 H2. apply map_eq. intros ns. by rewrite H1, H2. Qed.

Lemma refs_match_unique f services idx idx' :
  refs_match f idx services → refs_match f idx' services → idx = idx'.
Proof.
  intros [H1 E1] [H2 E2]. apply map_eq. intros id.
  assert (∀ sid, (idx !! id ≫= λ m, m !! sid) = (idx' !! id ≫= λ m, m !! sid)) as Heq
    by (intros sid; by rewrite H1, H2).
  destruct (idx !! id) as [m|] eqn:Em, (idx' !! id) as [m'|] eqn:Em'; simpl in Heq; [| | |done].
  - f_equal. by apply map_eq.
  - exfalso. apply (E1 id). rewrite Em. f_equal. by apply map_empty.
  - exfalso. apply (E2 id). rewrite Em'. f_equal. apply map_empty. intros sid. by rewrite <- Heq.
Qed.

Lemma index_ok_unique services idx idx' : index_ok idx services → index_ok idx' services → idx = idx'.
Proof.
  intros [N1 C1 S1 W1 V1] [N2 C2 S2 W2 V2]. destruct idx, idx'. unfold names_match in *. simpl in *. f_equal.
  - apply map_eq. intros n. apply option_eq. intros sid. by rewrite N1, N2.
  - by eapply refs_match_unique.
  - by eapply refs_match_unique.
  - by eapply refs_match_unique.
  - by eapply refs_match_unique.
Qed.

Lemma tasks_match_unique parent tasks by_ by' :
  tasks_match parent by_ tasks → tasks_match parent by' tasks → by_ = by'.
Proof.
  intros [H1 E1] [H2 E2]. apply map_eq. intros p.
  assert (∀ id, id ∈ (default ∅ (by_ !! p) : gset string) ↔ id ∈ (default ∅ (by' !! p) : gset string)) as Heq
    by (intros id; by rewrite H1, H2).
  destruct (by_ !! p) as [X|] eqn:EX, (by' !! p) as [Y|] eqn:EY; simpl in Heq; [| | |done].
  - f_equal. by apply leibniz_equiv.
  - exfalso. apply (E1 p). rewrite EX. f_equal. by apply leibniz_equiv.
  - exfalso. apply (E2 p). rewrite EY. f_equal. apply leibniz_equiv. intros id. by rewrite Heq.
Qed.

Lemma names_match_functional idx services : names_match idx services → names_unique services.
Proof.
  intros Hm i j s t Hs Ht Hn.
  assert (idx !! s_Name s = Some i) as H1 by (apply Hm; eauto).
  assert (idx !! s_Name s = Some j) as H2 by (apply Hm; eauto). congruence.
Qed.

Lemma by_id_in {T} (id : T → string) l v :
  NoDup (id <$> l) → v ∈ l → by_id id l !! id v = Some v.
Proof.
  unfold by_id. induction l as [|x l IH] using rev_ind; intros Hn Hv; [by apply not_elem_of_nil in Hv|].
  rewrite foldl_snoc. rewrite fmap_app in Hn. apply NoDup_app in Hn as (Hn & Hx & _).
  apply elem_of_app in Hv as [Hv| ->%list_elem_of_singleton]; [|apply lookup_insert_eq].
  rewrite lookup_insert_ne; [by apply IH|]. intros Heq.
  apply (Hx (id v)); [by apply list_elem_of_fmap_2|]. rewrite <- Heq. left.
Qed.

Lemma by_id_range `{MapRange} (m : gmap string Task) :
  keyed t_ID m → NoDup (t_ID <$> (range m).*2) ∧ by_id t_ID (range m).*2 = m.
Proof.
  intros Hk. assert ((t_ID <$> (range m).*2) = (range m).*1) as Hfst.
  { assert (∀ id t, (id, t) ∈ range m → t_ID t = id) as Hin by (intros id t Hi%elem_of_range; by apply Hk).
    induction (range m) as [|[id t] l IH]; [done|]. simpl. rewrite (Hin id t) by left.
    f_equal. apply IH. intros x u Hx. apply Hin. by right. }
  rewrite Hfst. split; [apply NoDup_range|].
  apply map_eq. intros key. apply option_eq. intros t. split.
  - intros [Hid ([x u] & -> & Hx)%list_elem_of_fmap]%by_id_lookup. apply elem_of_range in Hx.
    simpl in *. by rewrite <- (Hk _ _ Hx), Hid in Hx.
  - intros Ht. rewrite <- (Hk _ _ Ht). apply by_id_in; [rewrite Hfst; apply NoDup_range|].
    apply list_elem_of_fmap. exists (key, t). split; [done|]. by apply elem_of_range.
Qed.

(** * Versions *)

Record grows_all (c c' : Cache) : Prop := {
  gr_nodes : grows n_Version (nodes c) (nodes c');
  gr_services : grows s_Version (services c) (services c');
  gr_tasks : grows t_Version (tasks c) (tasks c');
  gr_configs : grows c_Version (configs c) (configs c');
  gr_secrets : grows x_Version (secrets c) (secrets c');
}.

Lemma grows_all_refl c : grows_all c c.
Proof. constructor; apply grows_refl. Qed.

Lemma keepNewer_grows {T} (f : T → Z) listed cached : grows f cached (keepNewer (Some f) listed cached).
Proof.
  intros key old new Ho. simpl. rewrite map_lookup_imap. destruct (listed !! key) as [fresh|]; [|done].
  simpl. rewrite Ho. destruct (Z.ltb_spec (f fresh) (f old)); intros [= <-]; lia.
Qed.

Lemma written_configs_grows `{MapRange} c c' :
  written configs_map c_ID (λ v, v) c c' → grows_all c c'.
Proof.
  intros [->|(m & st & -> & _ & _ & _ & Hg)]; [apply grows_all_refl|].
  constructor; simpl; try apply grows_refl. by apply Hg.
Qed.

Lemma written_secrets_grows `{MapRange} c c' : written secrets_map x_ID redacted c c' → grows_all c c'.
Proof.
  intros [->|(m & st & -> & _ & _ & _ & Hg)]; [apply grows_all_refl|].
  constructor; simpl; try apply grows_refl. by apply Hg.
Qed.

Lemma written_networks_grows `{MapRange} c c' :
  written networks_map w_ID (λ v, v) c c' → grows_all c c'.
Proof.
  intros [->|(m & st & -> & _ & _ & _ & Hg)]; [apply grows_all_refl|].
  constructor; simpl; apply grows_refl.
Qed.

Lemma written_volumes_grows `{MapRange} c c' :
  written volumes_map v_Name (λ v, v) c c' → grows_all c c'.
Proof.
  intros [->|(m & st & -> & _ & _ & _ & Hg)]; [apply grows_all_refl|].
  constructor; simpl; apply grows_refl.
Qed.

Lemma SetNode_grows c n : grows_all c (Set_ nodes_map (n_ID n) n EventNode c).1.
Proof.
  unfold Set_. destruct (older _ _ _) eqn:Ho; [apply grows_all_refl|].
  constructor; simpl; try apply grows_refl. apply grows_insert. intros old Hold.
  unfold older in Ho. simpl in Ho. rewrite Hold in Ho. lia.
Qed.

Lemma DeleteNode_grows c id : grows_all c (Delete_ nodes_map id EventNode c).1.
Proof.
  unfold Delete_, del. simpl. destruct (nodes c !! id); simpl;
    constructor; simpl; try apply grows_refl; apply grows_delete.
Qed.

Lemma SetService_grows `{MapRange} s c : cache_ok c → grows_all c (SetService s c).1.
Proof.
  intros Hok. pose proof (SetService_unfold s c) as Hu. simpl in Hu.
  destruct (match services c !! s_ID s with Some old => (s_Version s <? s_Version old)%Z | None => false end)
    eqn:Ev; [unfold SetService; rewrite Ev; apply grows_all_refl|].
  rewrite Hu by (done || apply (ck_services _ Hok)).
  destruct (without_service_spec (s_ID s) c Hok) as (st & ix & -> & _).
  rewrite addToStack_set. constructor; simpl; try apply grows_refl.
  apply grows_insert. intros old Ho. rewrite Ho in Ev. lia.
Qed.

Lemma DeleteService_grows `{MapRange} id c : cache_ok c → grows_all c (DeleteService id c).1.
Proof.
  intros Hok. destruct (DeleteService_unfold id c) as (gone & rt & ->).
  destruct (without_service_spec id c Hok) as (st & ix & -> & _).
  constructor; simpl; try apply grows_refl. apply grows_delete.
Qed.

Lemma SetTask_grows t now c : grows_all c (SetTask t now c).1.
Proof.
  unfold SetTask. destruct (tasks c !! t_ID t) as [old|] eqn:Eo.
  - destruct (Z.ltb_spec (t_Version t) (t_Version old)); [apply grows_all_refl|].
    cbn [fst]. case_match; constructor; simpl; try apply grows_refl;
      apply grows_insert; intros o Ho; simplify_eq; lia.
  - cbn [fst]. case_match; constructor; simpl; try apply grows_refl;
      apply grows_insert; intros o Ho; simplify_eq.
Qed.

Lemma DeleteTask_grows id c : grows_all c (DeleteTask id c).1.
Proof.
  unfold DeleteTask. destruct (tasks c !! id); [case_bool_decide|];
    constructor; simpl; try apply grows_refl; apply grows_delete.
Qed.

(** A cached task replaces its older listed copy. *)
Lemma hold_newer_grows cached l st :
  (∀ id new held, st.1.1 !! id = Some new → cached !! id = Some held →
     (id, new) ∈ l ∨ (t_Version held ≤ t_Version new)%Z) →
  NoDup l.*1 → (∀ id t, (id, t) ∈ l → st.1.1 !! id = Some t) →
  grows t_Version cached (foldl (hold_newer cached) st l).1.1.
Proof.
  revert st. induction l as [|[id t] l IH]; intros [[m bs] bn] Hst Hn Hin; simpl in *.
  { intros key old new Ho Hnew. destruct (Hst key new old Hnew Ho) as [Hl|]; [|done].
    by apply not_elem_of_nil in Hl. }
  apply NoDup_cons in Hn as [Hid Hn]. pose proof (Hin id t ltac:(left)) as Ht.
  assert (∀ x u, (x, u) ∈ l → x ≠ id) as Hne.
  { intros x u Hx ->. apply Hid. by apply (list_elem_of_fmap_2 fst l (id, u)). }
  destruct (cached !! id) as [held|] eqn:Eh; [destruct (Z.leb_spec (t_Version held) (t_Version t))|].
  - apply IH; [|done|by intros x u Hx; apply Hin; right].
    intros x new h Hx Hh. destruct (Hst x new h Hx Hh) as [[[= -> ->]|Hl]%elem_of_cons|]; auto.
    right. by simplify_eq.
  - apply IH; [|done|].
    + intros x new h Hnew Hh. simpl in Hnew.
      apply lookup_insert_Some in Hnew as [[<- <-]|[Hx0 Hx]]; [right; simplify_eq; lia|].
      destruct (Hst x new h Hx Hh) as [[[= -> ->]|Hl]%elem_of_cons|]; auto. done.
    + intros x u Hx. simpl. rewrite lookup_insert_ne by (apply not_eq_sym; by eapply Hne). apply Hin. by right.
  - apply IH; [|done|by intros x u Hx; apply Hin; right].
    intros x new h Hx Hh. destruct (Hst x new h Hx Hh) as [[[= -> ->]|Hl]%elem_of_cons|]; auto. congruence.
Qed.

Lemma sync_tasks_grows `{MapRange} l c : grows_all c (sync_tasks l c).1.1.
Proof.
  unfold sync_tasks. pose proof (hold_newer_grows (tasks c) (range (by_id t_ID l))
    (by_id t_ID l, index_tasks t_ServiceID l, index_tasks t_NodeID l)) as Hh.
  destruct (foldl _ _ _) as [[m bs] bn]. constructor; simpl; try apply grows_refl.
  apply Hh.
  - intros id new held Hn _. left. by apply elem_of_range.
  - apply NoDup_range.
  - intros id t Ht. by apply elem_of_range in Ht.
Qed.

Lemma grows_all_trans_maps c1 c2 c3 :
  grows_all c1 c2 → nodes c3 = nodes c2 → services c3 = services c2 → tasks c3 = tasks c2 →
  grows c_Version (configs c1) (configs c3) → grows x_Version (secrets c1) (secrets c3) →
  grows_all c1 c3.
Proof. intros [] Hn Hs Ht Hc Hx. constructor; rewrite ?Hn, ?Hs, ?Ht; done. Qed.

Lemma sync_maps_fields `{MapRange} data c :
  nodes (sync_maps data c) = nodes c ∧ services (sync_maps data c) = services c ∧
  tasks (sync_maps data c) = tasks c ∧
  grows c_Version (configs c) (configs (sync_maps data c)) ∧
  grows x_Version (secrets c) (secrets (sync_maps data c)).
Proof.
  unfold sync_maps. destruct (f_Configs data), (f_Secrets data), (f_Networks data), (f_Volumes data);
    simpl; split_and!; try done; (apply grows_refl || apply keepNewer_grows).
Qed.

Lemma ReplaceAll_grows `{MapRange} data now c : grows_all c (ReplaceAll data now c).1.
Proof.
  unfold ReplaceAll.
  set (c1 := match f_Nodes data with Some _ => _ | None => c end).
  assert (grows n_Version (nodes c) (nodes c1) ∧ services c1 = services c ∧ tasks c1 = tasks c ∧
    configs c1 = configs c ∧ secrets c1 = secrets c) as (G1 & S1 & T1 & C1 & X1).
  { subst c1. destruct (f_Nodes data); (split; [|done]); [apply keepNewer_grows|apply grows_refl]. }
  clearbody c1. set (c2 := match f_Services data with Some _ => _ | None => c1 end).
  assert (nodes c2 = nodes c1 ∧ grows s_Version (services c1) (services c2) ∧ tasks c2 = tasks c1 ∧
    configs c2 = configs c1 ∧ secrets c2 = secrets c1) as (N2 & G2 & T2 & C2 & X2).
  { subst c2. destruct (f_Services data) as [l|].
    - destruct (sync_services_fields (by_id s_ID l) (index_tasks t_ServiceID <$> f_Tasks data) c1)
        as (gone & rt & ->). simpl. split_and!; try done. apply keepNewer_grows.
    - split_and!; try done. apply grows_refl. }
  clearbody c2. set (r := match f_Tasks data with Some _ => _ | None => (c2, [], []) end).
  assert (nodes r.1.1 = nodes c2 ∧ services r.1.1 = services c2 ∧
    grows t_Version (tasks c2) (tasks r.1.1) ∧ configs r.1.1 = configs c2 ∧
    secrets r.1.1 = secrets c2) as (N3 & S3 & G3 & C3 & X3).
  { subst r. destruct (f_Tasks data) as [l|]; [|split_and!; try done; apply grows_refl].
    pose proof (gr_tasks _ _ (sync_tasks_grows l c2)) as Hg. revert Hg.
    unfold sync_tasks. destruct (foldl _ _ _) as [[m bs] bn]. simpl. done. }
  clearbody r. destruct r as [[c3 nf] bf]. simpl in *.
  destruct (sync_maps_fields data c3) as (N4 & S4 & T4 & G4 & G5).
  apply (grows_all_trans_maps c (set_configs (set_secrets c3 (secrets c)) (configs c)));
    [constructor; simpl| | | | |].
  - by rewrite N3, N2.
  - by rewrite S3, <- S1.
  - by rewrite <- T1, <- T2.
  - apply grows_refl.
  - apply grows_refl.
  - exact N4.
  - exact S4.
  - exact T4.
  - change (grows c_Version (configs c) (configs (sync_maps data c3))). by rewrite <- C1, <- C2, <- C3.
  - change (grows x_Version (secrets c) (secrets (sync_maps data c3))). by rewrite <- X1, <- X2, <- X3.
Qed.

Lemma section_grows `{MapRange} o c : cache_ok c → grows_all c (section o c).1.
Proof.
  intros Hok. destruct o; simpl.
  - apply SetNode_grows.
  - apply DeleteNode_grows.
  - by apply SetService_grows.
  - by apply DeleteService_grows.
  - apply SetTask_grows.
  - apply DeleteTask_grows.
  - eapply written_configs_grows, (Set_written _ _ _ _ _ configs_stack_map); apply Hok.
  - eapply written_configs_grows, (Add_written _ _ _ _ _ configs_stack_map); apply Hok.
  - eapply written_configs_grows, (Delete_written _ _ _ _ _ configs_stack_map); apply Hok.
  - eapply written_secrets_grows, (Set_written _ _ _ _ _ secrets_stack_map); apply Hok.
  - eapply written_secrets_grows, (Add_written _ _ _ _ _ secrets_stack_map); apply Hok.
  - eapply written_secrets_grows, (Delete_written _ _ _ _ _ secrets_stack_map); apply Hok.
  - eapply written_networks_grows, (Set_written _ _ _ _ _ networks_stack_map); apply Hok.
  - eapply written_networks_grows, (Delete_written _ _ _ _ _ networks_stack_map); apply Hok.
  - eapply written_volumes_grows, (Set_written _ _ _ _ _ volumes_stack_map); apply Hok.
  - eapply written_volumes_grows, (Delete_written _ _ _ _ _ volumes_stack_map); apply Hok.
  - apply ReplaceAll_grows.
Qed.

(** * Redaction *)

(** What an event carries of secrets holds no data. *)
Definition carries_no_data (r : Resource) : Prop :=
  match r with RSecret x => x_Data x = None | _ => True end.

Definition event_redacted (e : Event) : Prop :=
  carries_no_data (Resource_ e) ∧ carries_no_data (Previous e).

Lemma notify_resources c e :
  Resource_ (notify c e).2 = Resource_ e ∧ Previous (notify c e).2 = Previous e.
Proof. unfold notify. by repeat case_match. Qed.

Lemma notify_all_resources c es e' :
  e' ∈ (notify_all c es).2 → ∃ e, e ∈ es ∧ Resource_ e' = Resource_ e ∧ Previous e' = Previous e.
Proof.
  revert c. induction es as [|e es IH]; intros c; simpl; [intros He; by apply not_elem_of_nil in He|].
  destruct (notify_resources c e) as [H1 H2]. destruct (notify c e) as [c1 e1]. simpl in *.
  specialize (IH c1). destruct (notify_all c1 es) as [c2 es2]. simpl in *.
  intros [->|He]%elem_of_cons; [exists e; split; [left|done]|].
  destruct (IH He) as (e0 & ? & ?). exists e0. split; [by right|done].
Qed.

Lemma ref_events_redacted `{MapRange} c old new e : e ∈ notifyRefChanges c old new → event_redacted e.
Proof.
  unfold notifyRefChanges, diffNotify. rewrite !elem_of_app, !list_elem_of_omap.
  intros Hcase. destruct_or!; destruct Hcase as ([id b] & _ & He); by case_bool_decide; simplify_eq.
Qed.

Lemma secrets_redacted c id x : cache_ok c → secrets c !! id = Some x → x_Data x = None.
Proof. intros Hok. apply (ck_redacted _ Hok). Qed.

Lemma rm_event_redacted `{MapRange} {T} (r : ResourceMap T) ty c key v es :
  (∀ v, carries_no_data (boxed r v)) →
  es = (Set_ r key v ty c).2 ∨ es = (Delete_ r key ty c).2 ∨ es = (Add r key v ty c).2 →
  ∀ e, e ∈ es → event_redacted e.
Proof.
  intros Hb Hes e He.
  destruct Hes as [->|[->| ->]]; revert He; unfold Set_, Delete_, Add.
  - case_match; [intros He; by apply not_elem_of_nil in He|]. destruct (rm_set r key v c) as [v' c'].
    intros ->%list_elem_of_singleton. split; simpl; [apply Hb|]. repeat case_match; done || apply Hb.
  - destruct (del r key c) as [name c']. intros ->%list_elem_of_singleton. split; simpl; [|done].
    case_match; [apply Hb|done].
  - case_match; [intros He; by apply not_elem_of_nil in He|]. destruct (rm_set r key v c) as [v' c'].
    intros ->%list_elem_of_singleton. split; simpl; [apply Hb|done].
Qed.

Lemma secret_event_redacted `{MapRange} c key v es :
  cache_ok c →
  es = (Set_ secrets_map key v EventSecret c).2 ∨ es = (Delete_ secrets_map key EventSecret c).2 ∨
  es = (Add secrets_map key v EventSecret c).2 →
  ∀ e, e ∈ es → event_redacted e.
Proof.
  intros Hok Hes e He.
  destruct Hes as [->|[->| ->]]; revert He; unfold Set_, Delete_, Add; cbn [items boxed secrets_map].
  - case_match; [intros He; by apply not_elem_of_nil in He|]. unfold rm_set. simpl.
    intros ->%list_elem_of_singleton. split; simpl; [done|].
    destruct (secrets c !! key) eqn:E; simpl; [|done]. by eapply secrets_redacted.
  - destruct (del _ key c) as [name c']. intros ->%list_elem_of_singleton. split; simpl; [|done].
    destruct (secrets c !! key) eqn:E; simpl; [|done]. by eapply secrets_redacted.
  - destruct (secrets c !! key) eqn:E; [intros He; by apply not_elem_of_nil in He|].
    unfold rm_set. simpl. intros ->%list_elem_of_singleton. done.
Qed.

Lemma section_redacted `{MapRange} o c e : cache_ok c → e ∈ (section o c).2 → event_redacted e.
Proof.
  intros Hok.
  destruct o as [n|id|s|id|t now|id|v|v|id|v|v|id|v|id|v|name|data now]; cbn [section].
  1: apply (rm_event_redacted nodes_map EventNode c (n_ID n) n); [done|auto].
  1: apply (rm_event_redacted nodes_map EventNode c id (mkNode "" 0 "" "" "" 0 0)); [done|auto].
  1: { unfold SetService. case_match; [intros He; by apply not_elem_of_nil in He|].
       cbn [snd]. intros [->|He]%elem_of_cons; [done|by eapply ref_events_redacted]. }
  1: { unfold DeleteService. cbn [snd]. intros [->|He]%elem_of_cons; [|by eapply ref_events_redacted].
       split; [|done]. simpl. by case_match. }
  1: { unfold SetTask. repeat case_match; cbn [snd]; intros He;
       (by apply not_elem_of_nil in He) || (by apply list_elem_of_singleton in He as ->). }
  1: { unfold DeleteTask. destruct (tasks c !! id); cbn [snd]; intros ->%list_elem_of_singleton; done. }
  1: apply (rm_event_redacted configs_map EventConfig c (c_ID v) v); [done|auto].
  1: apply (rm_event_redacted configs_map EventConfig c (c_ID v) v); [done|auto].
  1: apply (rm_event_redacted configs_map EventConfig c id (mkConfig "" 0 "" ∅)); [done|auto].
  1: apply (secret_event_redacted c (x_ID v) v); [done|auto].
  1: apply (secret_event_redacted c (x_ID v) v); [done|auto].
  1: apply (secret_event_redacted c id (mkSecret "" 0 "" ∅ None)); [done|auto].
  1: apply (rm_event_redacted networks_map EventNetwork c (w_ID v) v); [done|auto].
  1: apply (rm_event_redacted networks_map EventNetwork c id (mkNetwork "" "" ∅)); [done|auto].
  1: apply (rm_event_redacted volumes_map EventVolume c (v_Name v) v); [done|auto].
  1: apply (rm_event_redacted volumes_map EventVolume c name (mkVolume "" ∅)); [done|auto].
  unfold ReplaceAll. repeat case_match; cbn [snd]; intros ->%list_elem_of_singleton; done.
Qed.

Lemma perform_events `{MapRange} o c e' :
  e' ∈ (perform o c).2 →
  ∃ e, e ∈ (section o c).2 ∧ Resource_ e' = Resource_ e ∧ Previous e' = Previous e.
Proof. unfold perform. destruct (section o c) as [c1 es]. apply notify_all_resources. Qed.

(** * Reference changes *)

Definition ref_index (k : EventType) (ix : serviceRefIndex) : RefIndex :=
  match k with
  | EventConfig => byConfig ix
  | EventSecret => bySecret ix
  | EventNetwork => byNetwork ix
  | EventVolume => byVolume ix
  | _ => ∅
  end.

Definition ref_kind (k : EventType) (r : refSet) : gmap string bool :=
  match k with
  | EventConfig => r_configs r
  | EventSecret => r_secrets r
  | EventNetwork => r_networks r
  | EventVolume => r_volumes r
  | _ => ∅
  end.

Lemma index_ok_kind k :
  (∀ ix, ref_index k ix = ∅) ∨
  ∀ ix services, index_ok ix services →
    refs_match (λ s, ref_kind k (serviceRefs s)) (ref_index k ix) services.
Proof. destruct k; simpl; (by left) || (right; by intros ix services []). Qed.

Lemma refs_match_lookup f idx idx' services services' id :
  refs_match f idx services → refs_match f idx' services' →
  (∀ sid, (services !! sid ≫= λ s, f s !! id) = (services' !! sid ≫= λ s, f s !! id)) →
  idx !! id = idx' !! id.
Proof.
  intros [H1 E1] [H2 E2] Heq.
  assert (∀ sid, (idx !! id ≫= λ m, m !! sid) = (idx' !! id ≫= λ m, m !! sid)) as Hl
    by (intros sid; by rewrite H1, H2).
  destruct (idx !! id) as [m|] eqn:Em, (idx' !! id) as [m'|] eqn:Em'; simpl in Hl; [| | |done].
  - f_equal. by apply map_eq.
  - exfalso. apply (E1 id). rewrite Em. f_equal. by apply map_empty.
  - exfalso. apply (E2 id). rewrite Em'. f_equal. apply map_empty. intros sid. by rewrite <- Hl.
Qed.

(** A reference the two sets hold differently has its event. *)
Lemma diffNotify_event `{MapRange} ty old new name id :
  old !! id ≠ new !! id →
  mkEvent ty "ref_changed" id (name id) RNone RNone "" "" ∈ diffNotify ty old new name.
Proof.
  intros Hne. unfold diffNotify. apply elem_of_app. destruct (old !! id) as [was|] eqn:Eo.
  - left. apply list_elem_of_omap. exists (id, was). rewrite elem_of_range.
    split; [done|]. by rewrite bool_decide_eq_false_2.
  - right. destruct (new !! id) as [now|] eqn:En; [|done]. apply list_elem_of_omap. exists (id, now).
    rewrite elem_of_range. split; [done|]. rewrite Eo. by rewrite bool_decide_eq_false_2 by (by intros []).
Qed.

Lemma notifyRefChanges_event `{MapRange} c old new k id :
  ref_kind k old !! id ≠ ref_kind k new !! id →
  ∃ e, e ∈ notifyRefChanges c old new ∧ Type_ e = k ∧ Action e = "ref_changed" ∧ e_ID e = id.
Proof.
  intros Hne. unfold notifyRefChanges. destruct k; simpl in Hne; try (by rewrite lookup_empty in Hne);
    (eexists; split; [rewrite !elem_of_app|]).
  - left. by apply diffNotify_event.
  - done.
  - right; left. by apply diffNotify_event.
  - done.
  - right; right; left. by apply diffNotify_event.
  - done.
  - right; right; right. by apply diffNotify_event.
  - done.
Qed.

Lemma SetService_services `{MapRange} s c :
  keyed s_ID (services c) →
  ((SetService s c).1 = c ∧ (SetService s c).2 = []) ∨
  services (SetService s c).1 = <[s_ID s := s]> (services c) ∧
  ∃ e, (SetService s c).2 = e :: notifyRefChanges (SetService s c).1
    (match services c !! s_ID s with Some old => serviceRefs old | None => no_refSet end) (serviceRefs s).
Proof.
  intros Hk. unfold SetService.
  destruct (match services c !! s_ID s with Some old => (s_Version s <? s_Version old)%Z | None => false end);
    [by left|right]. split; [|by eexists]. cbn [fst services set_serviceRef].
  rewrite addToStack_set. simpl. destruct (services c !! s_ID s); [|done]. by rewrite removeFromStack_set.
Qed.

Lemma DeleteService_services `{MapRange} id c :
  services (DeleteService id c).1 = delete id (services c) ∧
  ∃ e, (DeleteService id c).2 = e :: notifyRefChanges (DeleteService id c).1
    (match services c !! id with Some old => serviceRefs old | None => no_refSet end) no_refSet.
Proof.
  unfold DeleteService. split; [|by eexists]. cbn [fst services set_restarts set_services].
  destruct (services c !! id); [|done]. by case_bool_decide; rewrite removeFromStack_set.
Qed.

Lemma notify_keeps c e :
  Type_ (notify c e).2 = Type_ e ∧ Action (notify c e).2 = Action e ∧ e_ID (notify c e).2 = e_ID e.
Proof. unfold notify. by repeat case_match. Qed.

Lemma notify_all_keeps c es e :
  e ∈ es → ∃ e', e' ∈ (notify_all c es).2 ∧ Type_ e' = Type_ e ∧ Action e' = Action e ∧ e_ID e' = e_ID e.
Proof.
  revert c. induction es as [|x es IH]; intros c; simpl; [intros He; by apply not_elem_of_nil in He|].
  pose proof (notify_keeps c x) as Hx. destruct (notify c x) as [c1 x1]. simpl in Hx.
  specialize (IH c1). destruct (notify_all c1 es) as [c2 es2]. simpl in *.
  intros [->|He]%elem_of_cons; [exists x1; split; [left|done]|].
  destruct (IH He) as (e' & ? & ?). exists e'. split; [by right|done].
Qed.

(** When one service changes, an index entry changes only for a reference the
    service's old and new sets hold differently. *)
Lemma ref_index_change k id c c' sid (r r' : refSet) :
  cache_ok c → cache_ok c' →
  (∀ x, x ≠ sid → services c !! x = services c' !! x) →
  (services c !! sid ≫= λ s, ref_kind k (serviceRefs s) !! id) = ref_kind k r !! id →
  (services c' !! sid ≫= λ s, ref_kind k (serviceRefs s) !! id) = ref_kind k r' !! id →
  ref_index k (serviceRef c) !! id ≠ ref_index k (serviceRef c') !! id →
  ref_kind k r !! id ≠ ref_kind k r' !! id.
Proof.
  intros Hok Hok' Hother Hr Hr' Hne Heq. apply Hne.
  destruct (index_ok_kind k) as [He|Hm]; [by rewrite !He|].
  apply (refs_match_lookup (λ s, ref_kind k (serviceRefs s)) _ _ (services c) (services c'));
    [by apply Hm, ck_index..|].
  intros x. destruct (decide (x = sid)) as [->|Hx]; [congruence|by rewrite Hother].
Qed.

(** * Removed tasks *)

(** The cache can still name what a task belonged to. *)
Record names_task (c : Cache) (t : Task) (s : Service) : Prop := {
  nt_ok : cache_ok c;
  nt_task : tasks c !! t_ID t = Some t;
  nt_service : services c !! t_ServiceID t = Some s ∨
    services c !! t_ServiceID t = None ∧ goneServices c !! t_ServiceID t = Some s;
}.

(** An operation that leaves the task and its service's record alone; the
    service's removal is one, and so is that of its other tasks. *)
Definition spares (t : Task) (o : op) : Prop :=
  match o with
  | OpDeleteTask id => id ≠ t_ID t
  | OpSetTask u _ => t_ID u ≠ t_ID t
  | OpSetService s => s_ID s ≠ t_ServiceID t
  | OpReplaceAll _ _ => False
  | _ => True
  end.

Lemma written_other `{MapRange} {T} (r : ResourceMap T) id clean c c' t s :
  (∀ c m, tasks (put r c m) = tasks c ∧ services (put r c m) = services c ∧
     goneServices (put r c m) = goneServices c) →
  written r id clean c c' → cache_ok c' → names_task c t s → names_task c' t s.
Proof.
  intros Hput Hw Hok [_ Ht Hs]. destruct Hw as [->|(m & st & -> & _)]; [by constructor|].
  destruct (Hput c m) as (H1 & H2 & H3). constructor; simpl; rewrite ?H1, ?H2, ?H3; done.
Qed.

Lemma SetService_others `{MapRange} s c :
  tasks (SetService s c).1 = tasks c ∧ goneServices (SetService s c).1 = goneServices c.
Proof.
  unfold SetService. case_match; [done|]. cbn [fst tasks goneServices set_serviceRef].
  rewrite addToStack_set. simpl. destruct (services c !! s_ID s); [|done]. by rewrite removeFromStack_set.
Qed.

Lemma DeleteService_gone `{MapRange} id c :
  tasks (DeleteService id c).1 = tasks c ∧
  goneServices (DeleteService id c).1 =
    match services c !! id with
    | Some old =>
        if bool_decide (size (default ∅ (tasksByService c !! id) : gset string) = 0) then goneServices c
        else <[id := old]> (goneServices c)
    | None => goneServices c
    end.
Proof.
  unfold DeleteService. cbn [fst]. destruct (services c !! id); [|done].
  rewrite removeFromStack_set. simpl. by case_bool_decide.
Qed.

Lemma has_tasks c t :
  cache_ok c → tasks c !! t_ID t = Some t → t_ServiceID t ≠ "" →
  size (default ∅ (tasksByService c !! t_ServiceID t) : gset string) ≠ 0.
Proof.
  intros Hok Ht Hne Hz. apply size_empty_inv in Hz. destruct (ck_byService _ Hok) as [Hm _].
  assert (t_ID t ∈ (default ∅ (tasksByService c !! t_ServiceID t) : gset string)) as Hin
    by (apply Hm; eauto). set_solver.
Qed.

Lemma DeleteService_names `{MapRange} id c t s :
  t_ServiceID t ≠ "" → cache_ok (DeleteService id c).1 → names_task c t s →
  names_task (DeleteService id c).1 t s.
Proof.
  intros Hne Hok' [Hok Ht Hs]. destruct (DeleteService_gone id c) as [Htasks Hg].
  destruct (DeleteService_services id c) as [Hsv _]. constructor; [done|by rewrite Htasks|].
  rewrite Hsv, Hg. destruct (decide (id = t_ServiceID t)) as [->|Hid].
  - right. rewrite lookup_delete_eq. split; [done|]. destruct Hs as [Hs|[Hs Hgs]]; rewrite Hs; [|done].
    rewrite bool_decide_eq_false_2 by (by apply has_tasks). apply lookup_insert_eq.
  - rewrite lookup_delete_ne by done. destruct (services c !! id); [|done]. case_bool_decide; [done|].
    by rewrite lookup_insert_ne.
Qed.

Lemma SetTask_fields t now c :
  (tasks (SetTask t now c).1 = <[t_ID t := t]> (tasks c) ∨ tasks (SetTask t now c).1 = tasks c) ∧
  services (SetTask t now c).1 = services c ∧ goneServices (SetTask t now c).1 = goneServices c.
Proof.
  unfold SetTask. case_match; [auto|]. cbn [fst]. destruct (tasks c !! t_ID t); case_match; simpl; auto.
Qed.

Lemma DeleteTask_fields id c :
  tasks (DeleteTask id c).1 = delete id (tasks c) ∧ services (DeleteTask id c).1 = services c ∧
  ∀ sid, goneServices (DeleteTask id c).1 !! sid = goneServices c !! sid ∨
    tasksByService (DeleteTask id c).1 !! sid = None.
Proof.
  unfold DeleteTask. destruct (tasks c !! id) as [old|]; [case_bool_decide as Hb|]; simpl;
    (split; [done|]; split; [done|]); intros sid; [|by left|by left].
  destruct (decide (t_ServiceID old = sid)) as [<-|Hne]; [right; exact Hb|left].
  by rewrite lookup_delete_ne.
Qed.

Lemma DeleteTask_names id c t s :
  t_ServiceID t ≠ "" → id ≠ t_ID t → cache_ok (DeleteTask id c).1 → names_task c t s →
  names_task (DeleteTask id c).1 t s.
Proof.
  intros Hne Hid Hok' [Hok Ht Hs]. destruct (DeleteTask_fields id c) as (Htasks & Hsv & Hg).
  assert (tasks (DeleteTask id c).1 !! t_ID t = Some t) as Ht'
    by (by rewrite Htasks, lookup_delete_ne).
  constructor; [done|done|]. rewrite Hsv. destruct Hs as [Hs|[Hs Hgs]]; [by left|right].
  split; [done|]. destruct (Hg (t_ServiceID t)) as [->|Hnone]; [done|].
  pose proof (has_tasks _ _ Hok' Ht' Hne) as Hz. by rewrite Hnone in Hz.
Qed.

Lemma section_names `{MapRange} o c t s :
  t_ServiceID t ≠ "" → op_ok o c → spares t o → names_task c t s → names_task (section o c).1 t s.
Proof.
  intros Hne Hop Hsp Hn. pose proof (section_ok o c Hop (nt_ok _ _ _ Hn)) as Hok'.
  pose proof (nt_ok _ _ _ Hn) as Hok.
  destruct o as [n|id|sv|id|u now|id|v|v|id|v|v|id|v|id|v|name|data now]; cbn [section] in *.
  - destruct Hn as [_ Ht Hs]. constructor; [done|..]; unfold Set_; case_match; done.
  - destruct Hn as [_ Ht Hs]. unfold Delete_, del in *. simpl in *. destruct (nodes c !! id); by constructor.
  - destruct Hn as [_ Ht Hs]. destruct (SetService_others sv c) as [H1 H2].
    constructor; [done|by rewrite H1|]. rewrite H2.
    destruct (SetService_services sv c (ck_services _ Hok)) as [[-> _]|[-> _]]; [done|].
    simpl in Hsp. by rewrite lookup_insert_ne.
  - by apply DeleteService_names.
  - destruct Hn as [_ Ht Hs]. destruct (SetTask_fields u now c) as (Htasks & Hsv & Hg).
    constructor; [done| |by rewrite Hsv, Hg]. simpl in Hsp.
    destruct Htasks as [-> | ->]; [by rewrite lookup_insert_ne|done].
  - by apply DeleteTask_names.
  - apply (written_other configs_map c_ID (λ v, v) c); [done|apply (Set_written _ _ _ _ _ configs_stack_map); apply Hok|done..].
  - apply (written_other configs_map c_ID (λ v, v) c); [done|apply (Add_written _ _ _ _ _ configs_stack_map); apply Hok|done..].
  - apply (written_other configs_map c_ID (λ v, v) c); [done|apply (Delete_written _ _ _ _ _ configs_stack_map); apply Hok|done..].
  - apply (written_other secrets_map x_ID redacted c); [done|apply (Set_written _ _ _ _ _ secrets_stack_map); apply Hok|done..].
  - apply (written_other secrets_map x_ID redacted c); [done|apply (Add_written _ _ _ _ _ secrets_stack_map); apply Hok|done..].
  - apply (written_other secrets_map x_ID redacted c); [done|apply (Delete_written _ _ _ _ _ secrets_stack_map); apply Hok|done..].
  - apply (written_other networks_map w_ID (λ v, v) c); [done|apply (Set_written _ _ _ _ _ networks_stack_map); apply Hok|done..].
  - apply (written_other networks_map w_ID (λ v, v) c); [done|apply (Delete_written _ _ _ _ _ networks_stack_map); apply Hok|done..].
  - apply (written_other volumes_map v_Name (λ v, v) c); [done|apply (Set_written _ _ _ _ _ volumes_stack_map); apply Hok|done..].
  - apply (written_other volumes_map v_Name (λ v, v) c); [done|apply (Delete_written _ _ _ _ _ volumes_stack_map); apply Hok|done..].
  - done.
Qed.

(** A run of operations, each as Docker may bring it. *)
Inductive runs `{MapRange} : list op → Cache → Cache → Prop :=
| runs_nil c : runs [] c c
| runs_cons o os c c' : op_ok o c → runs os (perform o c).1 c' → runs (o :: os) c c'.

Lemma generations_names c g v t s : names_task c t s → names_task (set_generations c g v) t s.
Proof. intros [Hok Ht Hs]. constructor; [by apply generations_ok|done..]. Qed.

Lemma runs_names `{MapRange} os c c' t s :
  t_ServiceID t ≠ "" → runs os c c' → Forall (spares t) os → names_task c t s → names_task c' t s.
Proof.
  intros Hne. induction 1 as [|o os c c' Hop Hr IH]; intros Hall Hn; [done|].
  inversion_clear Hall as [|? ? Hsp Hall']. apply IH; [done|].
  destruct (perform_fields o c) as (g & v & ->). by apply generations_names, section_names.
Qed.

Lemma names_removed c t s :
  names_task c t s → removedTaskFromLocked c t = (s_Name s, label_of (s_Labels s)).
Proof.
  intros [_ _ Hs]. unfold removedTaskFromLocked. by destruct Hs as [->|[-> ->]].
Qed.

Lemma DeleteTask_event c t s :
  names_task c t s →
  (DeleteTask (t_ID t) c).2 = [mkEvent EventTask "remove" (t_ID t) (t_ID t) (RTask t) RNone
    (s_Name s) (label_of (s_Labels s))].
Proof.
  intros Hn. unfold DeleteTask. rewrite (nt_task _ _ _ Hn). cbn [snd].
  assert (removedTaskFromLocked (removeTaskIndex t c) t = removedTaskFromLocked c t) as -> by done.
  by rewrite (names_removed _ _ _ Hn).
Qed.

(** What was resolved while the lock was held is what is announced. *)
Lemma notify_named c e :
  e_Service e ≠ "" → e_Service (notify c e).2 = e_Service e ∧ e_Stack (notify c e).2 = e_Stack e.
Proof.
  intros Hne. unfold notify. rewrite (bool_decide_eq_false_2 (e_Service e = "")) by done.
  by rewrite andb_false_r.
Qed.

(** * The resolver *)

Lemma label_by_name_sound `{MapRange} {T} (name_of : T → string) (labels : T → Labels) items name :
  (∃ id v, items !! id = Some v ∧ name_of v = name ∧ label_by_name name_of labels items name = label_of (labels v)) ∨
  (∀ id v, items !! id = Some v → name_of v ≠ name) ∧ label_by_name name_of labels items name = "".
Proof.
  unfold label_by_name. destruct (List.find _ _) as [[id v]|] eqn:E; [left|right].
  - apply find_some in E as [Hin Hn]. apply list_elem_of_In, elem_of_range in Hin.
    apply bool_decide_eq_true in Hn. eauto.
  - split; [|done]. intros id v Hv Hn.
    assert ((id, v) ∈ range items) as Hin by (by apply elem_of_range).
    apply list_elem_of_In in Hin. pose proof (find_none _ _ E _ Hin) as Hf. simpl in Hf.
    by rewrite bool_decide_eq_true_2 in Hf.
Qed.

(** What a name of a type denotes in the cache: the labels of such a resource. *)
Definition named_labels (c : Cache) (ty name : string) (l : Labels) : Prop :=
  (ty = "service" ∧ ∃ id s, services c !! id = Some s ∧ s_Name s = name ∧ l = s_Labels s) ∨
  (ty = "config" ∧ ∃ id v, configs c !! id = Some v ∧ c_Name v = name ∧ l = c_Labels v) ∨
  (ty = "secret" ∧ ∃ id v, secrets c !! id = Some v ∧ x_Name v = name ∧ l = x_Labels v) ∨
  (ty = "network" ∧ ∃ id v, networks c !! id = Some v ∧ w_Name v = name ∧ l = w_Labels v) ∨
  (ty = "volume" ∧ ∃ id v, volumes c !! id = Some v ∧ v_Name v = name ∧ l = v_Labels v).

Lemma StackOf_service `{MapRange} c name :
  cache_ok c →
  (∃ id s, services c !! id = Some s ∧ s_Name s = name ∧ StackOf c "service" name = label_of (s_Labels s)) ∨
  (∀ id s, services c !! id = Some s → s_Name s ≠ name) ∧
    (StackOf c "service" name = "" ∨ ∃ s, services c !! "" = Some s).
Proof.
  intros Hok. unfold StackOf. rewrite bool_decide_eq_true_2 by done.
  pose proof (ix_name _ _ (ck_index _ Hok)) as Hm. destruct (byName (serviceRef c) !! name) as [id|] eqn:E.
  - left. apply Hm in E as (s & Hs & Hn). exists id, s. simpl. by rewrite Hs.
  - right. split.
    + intros id s Hs Hn. assert (byName (serviceRef c) !! name = Some id) as H' by (apply Hm; eauto).
      congruence.
    + simpl. destruct (services c !! "") as [s|]; [right; eauto|by left].
Qed.

(** * Properties *)


(** No reachable cache holds a secret's data, and no event any operation
    hands to the listeners carries it, as its resource or as the one before. *)
Theorem secrets_never_held `{MapRange} start c o (Hr : reachable start c) :
  (∀ id x, secrets c !! id = Some x → x_Data x = None) ∧
  (∀ e, e ∈ (perform o c).2 → event_redacted e).
Proof.
  pose proof (reachable_ok _ _ Hr) as Hok. split; [apply (ck_redacted _ Hok)|].
  intros e' He'. destruct (perform_events o c e' He') as (e & He & H1 & H2).
  unfold event_redacted. rewrite H1, H2. by apply (section_redacted o c e Hok).
Qed.

(** A node, service, task, config or secret the cache holds before and after
    an operation never goes back a version, a full sync with a list older than
    what events brought included. *)
Theorem versions_never_go_back `{MapRange} start c o (Hr : reachable start c) :
  grows n_Version (nodes c) (nodes (perform o c).1) ∧
  grows s_Version (services c) (services (perform o c).1) ∧
  grows t_Version (tasks c) (tasks (perform o c).1) ∧
  grows c_Version (configs c) (configs (perform o c).1) ∧
  grows x_Version (secrets c) (secrets (perform o c).1).
Proof.
  pose proof (reachable_ok _ _ Hr) as Hok. destruct (perform_fields o c) as (g & v & ->).
  destruct (section_grows o c Hok). done.
Qed.

(** A task whose service the cache knows still names that service and its
    stack when it is removed, whatever happened in between that left the task
    and the service's record alone: its service's removal, and that of the
    service's other tasks, included. *)
Theorem removed_task_named `{MapRange} start c os c' t s
    (Hr : reachable start c) (Ht : tasks c !! t_ID t = Some t) (Hne : t_ServiceID t ≠ "")
    (Hs : services c !! t_ServiceID t = Some s) (Hruns : runs os c c') (Hsp : Forall (spares t) os)
    (Hname : s_Name s ≠ "") :
  ∃ e, (perform (OpDeleteTask (t_ID t)) c').2 = [e] ∧
    e_Service e = s_Name s ∧ e_Stack e = label_of (s_Labels s) ∧ Resource_ e = RTask t.
Proof.
  assert (names_task c t s) as Hn by (constructor; [by eapply reachable_ok|done|by left]).
  pose proof (runs_names _ _ _ _ _ Hne Hruns Hsp Hn) as Hn'. unfold perform. cbn [section].
  pose proof (DeleteTask_event _ _ _ Hn') as He. destruct (DeleteTask (t_ID t) c') as [c1 es].
  simpl in He. subst es. cbn [notify_all].
  match goal with |- context [notify c1 ?ev] =>
    pose proof (notify_named c1 ev Hname) as [H1 H2]; pose proof (notify_resources c1 ev) as [H3 _];
    destruct (notify c1 ev) as [c2 e2] end.
  exists e2. by simpl in *.
Qed.

(** Setting or removing a service announces every config, secret, network
    and volume whose referencing services, or the way they reference it,
    changed: one whose entry in the reverse index differs has its event. *)
Theorem ref_changes_announced `{MapRange} start c o k id
    (Hr : reachable start c) (Hop : op_ok o c)
    (Ho : (∃ s, o = OpSetService s) ∨ (∃ sid, o = OpDeleteService sid))
    (Hne : ref_index k (serviceRef c) !! id ≠ ref_index k (serviceRef (perform o c).1) !! id) :
  ∃ e, e ∈ (perform o c).2 ∧ Type_ e = k ∧ Action e = "ref_changed" ∧ e_ID e = id.
Proof.
  pose proof (reachable_ok _ _ Hr) as Hok. pose proof (section_ok o c Hop Hok) as Hok'.
  destruct (perform_fields o c) as (g & v & Hf). rewrite Hf in Hne. simpl in Hne.
  assert (ref_kind k no_refSet !! id = None) as Hnone by (by destruct k; simpl; rewrite lookup_empty).
  enough (∃ e, e ∈ (section o c).2 ∧ Type_ e = k ∧ Action e = "ref_changed" ∧ e_ID e = id)
    as (e & He & <- & <- & <-).
  { unfold perform. destruct (section o c) as [c1 es]. by apply notify_all_keeps. }
  destruct Ho as [[s ->]|[sid ->]]; cbn [section] in *.
  - destruct (SetService_services s c (ck_services _ Hok)) as [[Heq _]|[Hsv (e & ->)]].
    { by rewrite Heq in Hne. }
    destruct (notifyRefChanges_event (SetService s c).1
      (match services c !! s_ID s with Some old => serviceRefs old | None => no_refSet end)
      (serviceRefs s) k id) as (e' & He' & ?).
    { eapply (ref_index_change k id c _ (s_ID s)); [done|exact Hok'| | | |exact Hne].
      - intros x Hx. by rewrite Hsv, lookup_insert_ne.
      - by destruct (services c !! s_ID s).
      - by rewrite Hsv, lookup_insert_eq. }
    exists e'. split; [by right|done].
  - destruct (DeleteService_services sid c) as [Hsv (e & ->)].
    destruct (notifyRefChanges_event (DeleteService sid c).1
      (match services c !! sid with Some old => serviceRefs old | None => no_refSet end)
      no_refSet k id) as (e' & He' & ?).
    { eapply (ref_index_change k id c _ sid); [done|exact Hok'| | | |exact Hne].
      - intros x Hx. by rewrite Hsv, lookup_delete_ne.
      - by destruct (services c !! sid).
      - by rewrite Hsv, lookup_delete_eq. }
    exists e'. split; [by right|done].
Qed.

(** Asking whether a stack contains a resource is answered by its labels: in
    a reachable cache, a stack with a service contains a resource exactly when
    the resource is cached and labelled with it. *)
Theorem StackContains_labels `{MapRange} start c ns k id (Hr : reachable start c) :
  StackContains c ns k id = true ↔
  members_of c EventService ns ≠ ∅ ∧ id ∈ members_of c k ns.
Proof.
  pose proof (reachable_ok _ _ Hr) as Hok. unfold StackContains. rewrite (ck_stacks _ Hok ns), stack_spec_of.
  destruct (decide (members_of c EventService ns = ∅)) as [He|He].
  - split; [done|]. by intros [].
  - assert (members k (stack_of (members_of c) ns) = sorted_elements (members_of c k ns)) as ->.
    { destruct k; simpl; try done; symmetry; by apply sorted_elements_nil. }
    rewrite BinarySearch_found by apply sorted_elements_set. rewrite elem_of_sorted_elements. tauto.
Qed.

(** * A label the two disagree on *)

Definition bare_config : Config := mkConfig "c1" 1 "settings" ∅.
Definition bare_configs : gmap string Config := {["c1" := bare_config]}.
Definition bare_cache : Cache := set_configs (New 0) bare_configs.
Definition odd_service : Service :=
  mkService "s1" 1 "web" {[StackLabel := ""]} (mkTaskSpec None []) None (mkServiceMode (Some None) false false false) None.

Lemma bare_cache_ok : cache_ok bare_cache.
Proof.
  destruct (New_ok 0). constructor; try done.
  intros id v Hv. change (bare_configs !! id = Some v) in Hv.
  unfold bare_configs in Hv. by apply lookup_singleton_Some in Hv as [<- <-].
Qed.

(** A stack label that is the empty string makes the incremental update
    and the rebuild disagree: the stack a service so labelled seeds takes in
    configs without the label, which a rebuild of the same cache leaves out. *)
Theorem empty_label_diverges `{MapRange} :
  cache_ok bare_cache ∧ c_Labels bare_config !! StackLabel = None ∧
  (∃ st, stacks (SetService odd_service bare_cache).1 !! "" = Some st ∧ "c1" ∈ st_Configs st) ∧
  (∀ st, stacks (rebuildStacks (SetService odd_service bare_cache).1) !! "" = Some st →
     "c1" ∉ st_Configs st).
Proof.
  split; [apply bare_cache_ok|]. split; [done|]. split.
  - exists (update_members EventService (λ l, appendUnique l "s1")
      (seedStack (set_services bare_cache (<["s1" := odd_service]> ∅)) "")).
    split; [reflexivity|]. cbn [seedStack update_members st_Configs].
    rewrite SortStrings_perm. apply elem_of_keys_where.
    exists bare_config. split; [done|]. by apply bool_decide_eq_true.
  - intros st. rewrite rebuildStacks_match, stack_spec_of. case_decide; [done|]. intros [= <-].
    simpl. rewrite elem_of_sorted_elements, elem_of_labelled.
    assert (configs (SetService odd_service bare_cache).1 = bare_configs) as -> by done.
    unfold bare_configs. intros (v & [_ <-]%lookup_singleton_Some & Hl). done.
Qed.

(** * Witnesses *)

Definition demo_labels : Labels := {[StackLabel := "shop"]}.
Definition demo_config : Config := mkConfig "c1" 3 "settings" demo_labels.
Definition demo_service : Service :=
  mkService "s1" 5 "web" demo_labels
    (mkTaskSpec (Some (mkContainerSpec ["c1"] [] [] ∅)) []) None (mkServiceMode (Some (Some 2%Z)) false false false)
    None.
Definition demo_task : Task := mkTask "t1" 2 "s1" "n1" "running" "running" "" "" 7 None 1 None.

Definition demo_ops : list op :=
  [OpSetConfig demo_config; OpSetService demo_service; OpSetTask demo_task 9;
   OpSetSecret (mkSecret "x1" 1 "token" demo_labels (Some "hush"))].

Definition after_ops (os : list op) (c : Cache) : Cache :=
  foldl (λ c o, (perform (H := map_range_std) o c).1) c os.

Definition demo_cache : Cache := after_ops demo_ops (New 0).

Lemma demo_reachable : reachable (H := map_range_std) 0 demo_cache.
Proof.
  assert (op_ok (H := map_range_std) (OpSetService demo_service) (after_ops [OpSetConfig demo_config] (New 0)))
    as Hop.
  { split; [done|]. intros id t Ht. assert (services (after_ops [OpSetConfig demo_config] (New 0)) = ∅) as He
      by (vm_compute; reflexivity). rewrite He, lookup_empty in Ht. done. }
  unfold demo_cache, demo_ops. cbn [after_ops foldl].
  apply (reach_perform (H := map_range_std) 0 (OpSetSecret _)); [|exact I].
  apply (reach_perform (H := map_range_std) 0 (OpSetTask _ _)); [|exact I].
  apply (reach_perform (H := map_range_std) 0 (OpSetService _)); [|exact Hop].
  apply (reach_perform (H := map_range_std) 0 (OpSetConfig _)); [|exact I].
  apply reach_new.
Qed.


Lemma secrets_never_held_witness :
  (x_Data <$> secrets demo_cache !! "x1") = Some None ∧
  ∀ e, e ∈ (perform (H := map_range_std) (OpSetSecret (mkSecret "x2" 1 "key" ∅ (Some "hush"))) demo_cache).2 →
    event_redacted e.
Proof.
  split; [vm_compute; reflexivity|].
  apply (secrets_never_held (H := map_range_std) 0 demo_cache _ demo_reachable).
Defined.

Lemma versions_never_go_back_witness :
  grows s_Version (services demo_cache)
    (services (perform (H := map_range_std)
       (OpReplaceAll (mkSync None (Some [mkService "s1" 4 "web" ∅ (mkTaskSpec None []) None (mkServiceMode (Some None) false false false) None])
          None None None None None) 20) demo_cache).1) ∧
  (s_Version <$> services (perform (H := map_range_std)
       (OpReplaceAll (mkSync None (Some [mkService "s1" 4 "web" ∅ (mkTaskSpec None []) None (mkServiceMode (Some None) false false false) None])
          None None None None None) 20) demo_cache).1 !! "s1") = Some 5%Z.
Proof.
  split; [|vm_compute; reflexivity].
  apply (versions_never_go_back (H := map_range_std) 0 demo_cache _ demo_reachable).
Defined.

Lemma removed_task_named_witness :
  ∃ e, (perform (H := map_range_std) (OpDeleteTask "t1")
    (perform (H := map_range_std) (OpDeleteService "s1") demo_cache).1).2 = [e] ∧
    e_Service e = "web" ∧ e_Stack e = "shop".
Proof.
  destruct (removed_task_named (H := map_range_std) 0 demo_cache [OpDeleteService "s1"]
    (perform (H := map_range_std) (OpDeleteService "s1") demo_cache).1 demo_task demo_service demo_reachable)
    as (e & He & H1 & H2 & _).
  - vm_compute. reflexivity.
  - discriminate.
  - vm_compute. reflexivity.
  - apply (runs_cons (OpDeleteService "s1") [] demo_cache); [exact I|apply runs_nil].
  - repeat constructor.
  - discriminate.
  - exists e. split; [exact He|]. split; [exact H1|]. rewrite H2. vm_compute. reflexivity.
Defined.

Lemma ref_changes_announced_witness :
  ∃ e, e ∈ (perform (H := map_range_std) (OpDeleteService "s1") demo_cache).2 ∧
    Type_ e = EventConfig ∧ Action e = "ref_changed" ∧ e_ID e = "c1".
Proof.
  apply (ref_changes_announced (H := map_range_std) 0 demo_cache (OpDeleteService "s1") EventConfig "c1"
    demo_reachable).
  - exact I.
  - right. exists "s1". reflexivity.
  - vm_compute. discriminate.
Defined.

Lemma StackContains_labels_witness :
  StackContains demo_cache "shop" EventConfig "c1" = true ∧
  members_of demo_cache EventService "shop" ≠ ∅.
Proof.
  assert (StackContains demo_cache "shop" EventConfig "c1" = true) as H by (vm_compute; reflexivity).
  split; [exact H|].
  apply (StackContains_labels (H := map_range_std) 0 demo_cache "shop" EventConfig "c1" demo_reachable) in H.
  apply H.
Defined.
