(* ===== verification/CacheStore.v ===== *)
(** What the cache promises of the resources it holds: a store from a type and
    an ID to a resource, on which every operation has an effect told resource by
    resource. The operations of internal/cache implement it, indexes, stacks,
    names and restart counts notwithstanding. *)
From S2P Require Import Prelude GoStrings SortedLists Restarts CacheState CacheStacks CacheIndex CacheOps Cache CacheProps.
#[local] Open Scope string_scope.
#[local] Open Scope Z_scope.

(** * The store *)

Definition kind_of (r : Resource) : EventType :=
  match r with
  | RNone => EventSync
  | RNode _ => EventNode
  | RService _ => EventService
  | RTask _ => EventTask
  | RConfig _ => EventConfig
  | RSecret _ => EventSecret
  | RNetwork _ => EventNetwork
  | RVolume _ => EventVolume
  end.

Definition key_of (r : Resource) : string :=
  match r with
  | RNone => ""
  | RNode n => n_ID n
  | RService s => s_ID s
  | RTask t => t_ID t
  | RConfig v => c_ID v
  | RSecret v => x_ID v
  | RNetwork v => w_ID v
  | RVolume v => v_Name v
  end.

(** Networks and volumes carry no version. *)
Definition version_of (r : Resource) : option Z :=
  match r with
  | RNode n => Some (n_Version n)
  | RService s => Some (s_Version s)
  | RTask t => Some (t_Version t)
  | RConfig v => Some (c_Version v)
  | RSecret v => Some (x_Version v)
  | RNone | RNetwork _ | RVolume _ => None
  end.

(** What is kept of a resource. *)
Definition stored (r : Resource) : Resource :=
  match r with RSecret x => RSecret (redacted x) | r => r end.

Definition held (c : Cache) (k : EventType) (id : string) : option Resource :=
  match k with
  | EventNode => RNode <$> nodes c !! id
  | EventService => RService <$> services c !! id
  | EventTask => RTask <$> tasks c !! id
  | EventConfig => RConfig <$> configs c !! id
  | EventSecret => RSecret <$> secrets c !! id
  | EventNetwork => RNetwork <$> networks c !! id
  | EventVolume => RVolume <$> volumes c !! id
  | EventSync => None
  end.

(** * The effects *)

Definition stale (old new : Resource) : bool :=
  match version_of old, version_of new with
  | Some v, Some w => w <? v
  | _, _ => false
  end.

(** Of what is held and what is read, the newer; the read one when neither is. *)
Definition newest (old : option Resource) (new : Resource) : option Resource :=
  match old with
  | Some old => if stale old new then Some old else Some new
  | None => Some new
  end.

Definition at_key (k : EventType) (id : string) (r : Resource) : bool :=
  bool_decide (kind_of r = k) && bool_decide (key_of r = id).

Definition set_effect (r : Resource) (k : EventType) (id : string) (old : option Resource) :=
  if at_key k id r then newest old (stored r) else old.

Definition add_effect (r : Resource) (k : EventType) (id : string) (old : option Resource) :=
  if at_key k id r then Some (default (stored r) old) else old.

Definition delete_effect (k' : EventType) (id' : string) (k : EventType) (id : string)
    (old : option Resource) : option Resource :=
  if bool_decide (k' = k) && bool_decide (id' = id) then None else old.

(** The last one a list has under a key. *)
Definition listed_at (l : list Resource) (id : string) : option Resource :=
  last (filter (λ r, key_of r = id) l).

Definition list_effect (l : list Resource) (id : string) (old : option Resource) : option Resource :=
  listed_at l id ≫= λ r, newest old (stored r).

(** What a full sync fetched of a type. *)
Definition fetched (data : FullSyncData) (k : EventType) : option (list Resource) :=
  match k with
  | EventNode => fmap (M:=list) RNode <$> f_Nodes data
  | EventService => fmap (M:=list) RService <$> f_Services data
  | EventTask => fmap (M:=list) RTask <$> f_Tasks data
  | EventConfig => fmap (M:=list) RConfig <$> f_Configs data
  | EventSecret => fmap (M:=list) RSecret <$> f_Secrets data
  | EventNetwork => fmap (M:=list) RNetwork <$> f_Networks data
  | EventVolume => fmap (M:=list) RVolume <$> f_Volumes data
  | EventSync => None
  end.

Definition effect (o : op) (k : EventType) (id : string) (old : option Resource) : option Resource :=
  match o with
  | OpSetNode n => set_effect (RNode n) k id old
  | OpDeleteNode i => delete_effect EventNode i k id old
  | OpSetService s => set_effect (RService s) k id old
  | OpDeleteService i => delete_effect EventService i k id old
  | OpSetTask t _ => set_effect (RTask t) k id old
  | OpDeleteTask i => delete_effect EventTask i k id old
  | OpSetConfig v => set_effect (RConfig v) k id old
  | OpAddConfig v => add_effect (RConfig v) k id old
  | OpDeleteConfig i => delete_effect EventConfig i k id old
  | OpSetSecret v => set_effect (RSecret v) k id old
  | OpAddSecret v => add_effect (RSecret v) k id old
  | OpDeleteSecret i => delete_effect EventSecret i k id old
  | OpSetNetwork v => set_effect (RNetwork v) k id old
  | OpDeleteNetwork i => delete_effect EventNetwork i k id old
  | OpSetVolume v => set_effect (RVolume v) k id old
  | OpDeleteVolume i => delete_effect EventVolume i k id old
  | OpReplaceAll data _ =>
      match fetched data k with Some l => list_effect l id old | None => old end
  end.

(** * One resource map *)

(** A map of the cache that is a part of the store: its boxed items are what is
    held of its type, and putting one there changes nothing else. *)
Record part_of_store {T} (r : ResourceMap T) (ty : EventType) (id : T → string) (clean : T → T)
    : Prop := {
  ps_held c i : held c ty i = boxed r <$> items r c !! i;
  ps_put c m k i :
    held (put r c m) k i = if bool_decide (k = ty) then boxed r <$> m !! i else held c k i;
  ps_kind v : kind_of (boxed r v) = ty;
  ps_key v : key_of (boxed r v) = id v;
  ps_clean v : boxed r (clean v) = stored (boxed r v);
  ps_stale v w : older r v (Some w) = stale (boxed r w) (boxed r v);
  ps_set key v c : ∃ st, rm_set r key v c =
    (clean v, put r (set_stacks c st) (<[key := clean v]> (items r c)));
  ps_del key c : ∃ st, (del r key c).2 = put r (set_stacks c st) (delete key (items r c));
}.

(** The hooks only touch the stacks. *)
Lemma stack_onSet_spec `{MapRange} {T} ty (id : T → string) labels clean old v c :
  ∃ st, stack_onSet ty id labels clean old v c = (clean v, set_stacks c st).
Proof.
  unfold stack_onSet. rewrite addToStack_set. destruct old; [rewrite removeFromStack_set|]; by eexists.
Qed.

Lemma stack_onDelete_spec {T} ty (id : T → string) labels old c :
  ∃ st, stack_onDelete ty id labels old c = set_stacks c st.
Proof. eexists. apply removeFromStack_set. Qed.

Lemma set_stacks_id c : set_stacks c (stacks c) = c.
Proof. by destruct c. Qed.

#[local] Arguments stack_onSet : simpl never.
#[local] Arguments stack_onDelete : simpl never.

Ltac part_of_store :=
  constructor; try done; try (by intros c m []);
    [intros key v c; unfold rm_set; cbn;
     match goal with |- context [stack_onSet ?ty ?i ?l ?f ?o ?v ?c] =>
       destruct (stack_onSet_spec ty i l f o v c) as [st ->]; exists st; by destruct c end
    |intros key c; unfold del; simpl; destruct (_ !! key); simpl;
     [match goal with |- context [stack_onDelete ?ty ?i ?l ?o ?c] =>
        destruct (stack_onDelete_spec ty i l o c) as [st ->]; exists st; by destruct c end
     |exists (stacks c); by destruct c]].

Lemma nodes_part : part_of_store nodes_map EventNode n_ID (λ v, v).
Proof.
  constructor; try done; try (by intros c m []); intros; exists (stacks c).
  - by destruct c.
  - unfold del. simpl. by destruct c, (_ !! key).
Qed.

Lemma configs_part `{MapRange} : part_of_store configs_map EventConfig c_ID (λ v, v).
Proof. part_of_store. Qed.

Lemma secrets_part `{MapRange} : part_of_store secrets_map EventSecret x_ID redacted.
Proof. part_of_store. Qed.

Lemma networks_part `{MapRange} : part_of_store networks_map EventNetwork w_ID (λ v, v).
Proof. part_of_store. Qed.

Lemma volumes_part `{MapRange} : part_of_store volumes_map EventVolume v_Name (λ v, v).
Proof. part_of_store. Qed.

#[export] Hint Resolve nodes_part configs_part secrets_part networks_part volumes_part : go.

Lemma held_stacks c st k i : held (set_stacks c st) k i = held c k i.
Proof. by destruct k. Qed.

Lemma stale_stored a b : stale a (stored b) = stale a b.
Proof. by destruct b. Qed.

Section Part.
Context {T : Type} (r : ResourceMap T) (ty : EventType) (id : T → string) (clean : T → T)
  (Hr : part_of_store r ty id clean).

(** Putting a map that differs at one key. *)
Lemma put_insert_held c st v k i :
  held (put r (set_stacks c st) (<[id v := clean v]> (items r c))) k i =
  if at_key k i (boxed r v) then Some (stored (boxed r v)) else held c k i.
Proof using Hr.
  destruct Hr as [Hh Hp Hk Hkey Hc _ _ _].
  rewrite Hp, held_stacks. unfold at_key. rewrite Hk, Hkey, (bool_decide_ext (ty = k) (k = ty)) by done.
  case_bool_decide as E; [subst k|done]. simpl. rewrite (Hh c i). case_bool_decide as E.
  - subst i. rewrite lookup_insert_eq. simpl. by rewrite Hc.
  - by rewrite lookup_insert_ne.
Qed.

Lemma Set_held c v e k i :
  held (Set_ r (id v) v e c).1 k i = set_effect (boxed r v) k i (held c k i).
Proof using Hr.
  pose proof (put_insert_held c) as Hput. destruct Hr as [Hh Hp Hk Hkey Hc Hst Hset _].
  assert (at_key k i (boxed r v) = true →
    newest (held c k i) (stored (boxed r v)) =
    if older r v (items r c !! id v) then held c k i else Some (stored (boxed r v))) as Hn.
  { unfold at_key. rewrite Hk, Hkey, andb_true_iff, !bool_decide_eq_true. intros [<- <-].
    rewrite Hh. destruct (items r c !! id v) as [w|]; [|done].
    rewrite Hst. simpl. by rewrite stale_stored. }
  unfold Set_, set_effect. destruct (older r v (items r c !! id v)).
  - simpl. destruct (at_key k i (boxed r v)); [by rewrite Hn|done].
  - destruct (Hset (id v) v c) as [st ->]. simpl. rewrite Hput.
    destruct (at_key k i (boxed r v)); [by rewrite Hn|done].
Qed.

Lemma Add_held c v e k i :
  held (Add r (id v) v e c).1 k i = add_effect (boxed r v) k i (held c k i).
Proof using Hr.
  pose proof (put_insert_held c) as Hput. destruct Hr as [Hh Hp Hk Hkey Hc Hst Hset _].
  assert (at_key k i (boxed r v) = true → held c k i = boxed r <$> items r c !! id v) as Hn.
  { unfold at_key. rewrite Hk, Hkey, andb_true_iff, !bool_decide_eq_true. intros [<- <-]. apply Hh. }
  unfold Add, add_effect. destruct (items r c !! id v) as [w|].
  - simpl. destruct (at_key k i (boxed r v)); [by rewrite Hn|done].
  - destruct (Hset (id v) v c) as [st ->]. simpl. rewrite Hput.
    destruct (at_key k i (boxed r v)); [by rewrite Hn|done].
Qed.

Lemma Delete_held c key e k i :
  held (Delete_ r key e c).1 k i = delete_effect ty key k i (held c k i).
Proof using Hr.
  destruct Hr as [Hh Hp _ _ _ _ _ Hdel]. unfold Delete_, delete_effect.
  destruct (Hdel key c) as [st Hd]. destruct (del r key c) as [name c']. simpl in *. subst c'.
  rewrite Hp, held_stacks, (bool_decide_ext (ty = k) (k = ty)) by done.
  case_bool_decide as E; [subst k|done]. simpl. rewrite Hh. case_bool_decide as E.
  - subst i. by rewrite lookup_delete_eq.
  - by rewrite lookup_delete_ne.
Qed.
End Part.

(** * Services and tasks *)

(** Writing one type's map, and nothing else the store shows. *)
Definition only_differs (ty : EventType) (c c' : Cache) (m : string → option Resource) : Prop :=
  ∀ k i, held c' k i = if bool_decide (k = ty) then m i else held c k i.

Lemma services_differ c c' :
  nodes c' = nodes c → tasks c' = tasks c → configs c' = configs c → secrets c' = secrets c →
  networks c' = networks c → volumes c' = volumes c →
  only_differs EventService c c' (λ i, RService <$> services c' !! i).
Proof. intros Hn Ht Hc Hx Hw Hv [] i; simpl; congruence. Qed.

Lemma tasks_differ c c' :
  nodes c' = nodes c → services c' = services c → configs c' = configs c → secrets c' = secrets c →
  networks c' = networks c → volumes c' = volumes c →
  only_differs EventTask c c' (λ i, RTask <$> tasks c' !! i).
Proof. intros Hn Hs Hc Hx Hw Hv [] i; simpl; congruence. Qed.

Lemma without_service_set `{MapRange} id c :
  ∃ st ix, without_service id c = set_serviceRef (set_stacks c st) ix.
Proof.
  unfold without_service. destruct (services c !! id).
  - rewrite removeFromStack_set. by eexists _, _.
  - exists (stacks c), (serviceRef c). by destruct c.
Qed.

Lemma SetService_set `{MapRange} s c :
  (SetService s c).1 = c ∧
    match services c !! s_ID s with Some old => stale (RService old) (RService s) | None => false end = true ∨
  match services c !! s_ID s with Some old => stale (RService old) (RService s) | None => false end = false ∧
  ∃ st ix, (SetService s c).1 = set_serviceRef (set_stacks (set_services c (<[s_ID s := s]> (services c))) st) ix.
Proof.
  unfold SetService, stale. simpl. destruct (services c !! s_ID s) as [old|].
  - destruct (Z.ltb_spec (s_Version s) (s_Version old)); [by left|right]. split; [done|].
    cbn [fst]. rewrite removeFromStack_set, addToStack_set. by eexists _, _.
  - right. split; [done|]. cbn [fst]. rewrite addToStack_set. by eexists _, _.
Qed.

Lemma SetService_held `{MapRange} s c k i :
  held (SetService s c).1 k i = set_effect (RService s) k i (held c k i).
Proof.
  unfold set_effect, at_key. simpl.
  destruct (SetService_set s c) as [[-> Hst]|[Hst (st & ix & ->)]].
  - destruct k; try done. simpl. case_bool_decide as E; [subst i|done].
    destruct (services c !! s_ID s); simpl; [by rewrite Hst|done].
  - destruct k; try done. simpl. case_bool_decide as E; [subst i; rewrite lookup_insert_eq|by rewrite lookup_insert_ne].
    destruct (services c !! s_ID s); simpl; [by rewrite Hst|done].
Qed.

Lemma DeleteService_held `{MapRange} id c k i :
  held (DeleteService id c).1 k i = delete_effect EventService id k i (held c k i).
Proof.
  destruct (DeleteService_unfold id c) as (gone & rt & ->).
  destruct (without_service_set id c) as (st & ix & ->).
  unfold delete_effect. destruct k; try done. simpl.
  case_bool_decide as E; [subst i; by rewrite lookup_delete_eq|by rewrite lookup_delete_ne].
Qed.

Ltac fields_of c :=
  match goal with |- ∃ bs bn rt, ?x = _ =>
    exists (tasksByService x), (tasksByNode x), (restarts x); destruct c; by case_match
  end.

Lemma SetTask_set t now c :
  (SetTask t now c).1 = c ∧
    match tasks c !! t_ID t with Some old => stale (RTask old) (RTask t) | None => false end = true ∨
  match tasks c !! t_ID t with Some old => stale (RTask old) (RTask t) | None => false end = false ∧
  ∃ bs bn rt, (SetTask t now c).1 = set_restarts (set_tasks c (<[t_ID t := t]> (tasks c)) bs bn) rt.
Proof.
  unfold SetTask, stale. simpl. destruct (tasks c !! t_ID t) as [old|].
  - destruct (Z.ltb_spec (t_Version t) (t_Version old)); [by left|right]. split; [done|].
    cbn [fst]. fields_of c.
  - right. split; [done|]. cbn [fst]. fields_of c.
Qed.

Lemma SetTask_held t now c k i :
  held (SetTask t now c).1 k i = set_effect (RTask t) k i (held c k i).
Proof.
  unfold set_effect, at_key. simpl.
  destruct (SetTask_set t now c) as [[-> Hst]|[Hst (bs & bn & rt & ->)]].
  - destruct k; try done. simpl. case_bool_decide as E; [subst i|done].
    destruct (tasks c !! t_ID t); simpl; [by rewrite Hst|done].
  - destruct k; try done. simpl. case_bool_decide as E; [subst i; rewrite lookup_insert_eq|by rewrite lookup_insert_ne].
    destruct (tasks c !! t_ID t); simpl; [by rewrite Hst|done].
Qed.

Lemma DeleteTask_held id c k i :
  held (DeleteTask id c).1 k i = delete_effect EventTask id k i (held c k i).
Proof.
  unfold delete_effect, DeleteTask.
  destruct (tasks c !! id) as [old|]; [case_bool_decide|]; (destruct k; try done); simpl;
    (case_bool_decide as E; [subst i; by rewrite lookup_delete_eq|by rewrite lookup_delete_ne]).
Qed.

(** * Full syncs *)

Lemma last_filter_snoc {A} (P : A → Prop) `{!∀ x, Decision (P x)} (l : list A) x :
  last (filter P (l ++ [x])%list) = if decide (P x) then Some x else last (filter P l).
Proof.
  rewrite filter_app, filter_cons, filter_nil. case_decide; [by rewrite last_snoc|by rewrite app_nil_r].
Qed.

Lemma by_id_listed {T} (box : T → Resource) (id : T → string) (l : list T) i :
  (∀ v, key_of (box v) = id v) → box <$> by_id id l !! i = listed_at (box <$> l) i.
Proof.
  intros Hk. unfold listed_at, by_id. induction l as [|v l IH] using rev_ind; [done|].
  rewrite foldl_snoc, fmap_app. simpl. rewrite last_filter_snoc, Hk. case_decide as E.
  - subst i. by rewrite lookup_insert_eq.
  - by rewrite lookup_insert_ne.
Qed.

(** What a sync leaves of a type with versions, and of one without. *)
Lemma keepNewer_held {T} (box : T → Resource) (id : T → string) (v : option (T → Z)) l (m : gmap string T) i :
  (∀ x, key_of (box x) = id x) → (∀ x, version_of (box x) = (λ f, f x) <$> v) →
  (∀ x, x ∈ l → stored (box x) = box x) →
  box <$> keepNewer v (by_id id l) m !! i = list_effect (box <$> l) i (box <$> m !! i).
Proof.
  intros Hk Hv Hs. unfold list_effect. rewrite <- (by_id_listed box id l i Hk).
  assert (∀ x, by_id id l !! i = Some x → stored (box x) = box x) as Hs'
    by (intros x [_ Hx]%by_id_lookup; by apply Hs).
  unfold newest, stale. destruct v as [f|]; simpl.
  - rewrite map_lookup_imap. destruct (by_id id l !! i) as [x|]; simpl; [|done].
    rewrite (Hs' x eq_refl). destruct (m !! i) as [o|]; simpl; [|done]. rewrite !Hv. simpl. by case_match.
  - destruct (by_id id l !! i) as [x|]; simpl; [|done].
    rewrite (Hs' x eq_refl). destruct (m !! i) as [o|]; simpl; [|done]. by rewrite !Hv.
Qed.

(** The fold over the listed tasks, at one task. *)
Lemma hold_newer_lookup cached l st i :
  NoDup l.*1 →
  (foldl (hold_newer cached) st l).1.1 !! i =
  match cached !! i with
  | Some h => match list_find (λ p, p.1 = i) l with
              | Some (_, (_, t)) => if (t_Version h <=? t_Version t)%Z then st.1.1 !! i else Some h
              | None => st.1.1 !! i
              end
  | None => st.1.1 !! i
  end.
Proof.
  revert st. induction l as [|[x t] l IH]; intros [[m bs] bn] Hn; [by destruct (cached !! i)|].
  apply NoDup_cons in Hn as [Hx Hn]. cbn [foldl]. rewrite IH by done.
  assert ((hold_newer cached (m, bs, bn) (x, t)).1.1 =
    match cached !! x with
    | Some h => if (t_Version h <=? t_Version t)%Z then m else <[x := h]> m
    | None => m
    end) as -> by (unfold hold_newer; repeat case_match; done).
  simpl. case_decide as E.
  - simpl in E. subst x. destruct (list_find (λ p, p.1 = i) l) as [[j [y u]]|] eqn:Ef.
    + apply list_find_Some in Ef as (Hj & Hy & _). simpl in Hy. subst y. exfalso. apply Hx.
      apply (list_elem_of_fmap_2 fst l (i, u)). by eapply list_elem_of_lookup_2.
    + destruct (cached !! i); [|done]. case_match; [done|]. by rewrite lookup_insert_eq.
  - simpl in E. destruct (cached !! i) eqn:Ei.
    + destruct (list_find _ l) as [[j [y u]]|]; simpl; repeat case_match; try done; by rewrite lookup_insert_ne.
    + repeat case_match; try done. by rewrite lookup_insert_ne.
Qed.

Lemma list_find_range `{MapRange} {A} (m : gmap string A) i :
  match list_find (λ p, p.1 = i) (range m) with Some (_, (_, t)) => m !! i = Some t | None => m !! i = None end.
Proof.
  destruct (list_find _ _) as [[j [x t]]|] eqn:Ef.
  - apply list_find_Some in Ef as (Hj & Hx & _). simpl in Hx. subst x.
    apply elem_of_range. by eapply list_elem_of_lookup_2.
  - apply list_find_None in Ef. destruct (m !! i) as [t|] eqn:Em; [|done].
    rewrite Forall_forall in Ef. apply elem_of_range in Em. by destruct (Ef _ Em).
Qed.

Lemma sync_tasks_held `{MapRange} l c :
  only_differs EventTask c (sync_tasks l c).1.1
    (λ i, list_effect (RTask <$> l) i (RTask <$> tasks c !! i)).
Proof.
  intros k i. unfold sync_tasks.
  pose proof (hold_newer_lookup (tasks c) (range (by_id t_ID l))
    (by_id t_ID l, index_tasks t_ServiceID l, index_tasks t_NodeID l) i (NoDup_range _)) as Hl.
  destruct (foldl _ _ _) as [[m bs] bn]. simpl in Hl. destruct k; try done. simpl.
  rewrite Hl. clear Hl. unfold list_effect. rewrite <- (by_id_listed RTask t_ID l i) by done.
  pose proof (list_find_range (by_id t_ID l) i) as Hf.
  destruct (list_find _ _) as [[j [x t]]|].
  - rewrite Hf. simpl. destruct (tasks c !! i) as [h|]; simpl; [|done]. unfold stale. simpl.
    rewrite Z.leb_antisym. by destruct (t_Version t <? t_Version h).
  - rewrite Hf. by destruct (tasks c !! i).
Qed.

(** The stages of a sync, one type at a time. *)
Lemma Replace_held {T} (r : ResourceMap T) ty (id : T → string) clean (l : list T) c k i :
  part_of_store r ty id clean → (∀ x, version_of (boxed r x) = (λ f, f x) <$> version r) →
  (∀ x, x ∈ l → stored (boxed r x) = boxed r x) →
  held (Replace r (by_id id l) c) k i =
  if bool_decide (k = ty) then list_effect (boxed r <$> l) i (held c ty i) else held c k i.
Proof.
  intros Hr Hv Hs. unfold Replace. rewrite (ps_put _ _ _ _ Hr), (ps_held _ _ _ _ Hr).
  by rewrite (keepNewer_held (boxed r) id (version r) l (items r c) i (ps_key _ _ _ _ Hr)).
Qed.

Lemma sync_services_held `{MapRange} l byService c k i :
  held (sync_services (by_id s_ID l) byService c) k i =
  if bool_decide (k = EventService) then list_effect (RService <$> l) i (held c k i) else held c k i.
Proof.
  destruct (sync_services_fields (by_id s_ID l) byService c) as (gone & rt & ->).
  destruct k; try done. cbn [held services set_services]. 
  by rewrite (keepNewer_held RService s_ID (Some s_Version) l (services c) i).
Qed.

(** One stage: a fetched list replaces its type, a failed one leaves it. *)
Lemma stage_held {T} (r : ResourceMap T) ty (id : T → string) clean (fetch : option (list T)) c k i :
  part_of_store r ty id clean → (∀ x, version_of (boxed r x) = (λ f, f x) <$> version r) →
  (∀ l x, fetch = Some l → x ∈ l → stored (boxed r x) = boxed r x) →
  held (match fetch with Some l => Replace r (by_id id l) c | None => c end) k i =
  match (if bool_decide (k = ty) then fetch else None) with
  | Some l => list_effect (boxed r <$> l) i (held c k i)
  | None => held c k i
  end.
Proof.
  intros Hr Hv Hs. destruct fetch as [l|]; [|by case_bool_decide].
  rewrite (Replace_held r ty id clean) by eauto. by case_bool_decide; subst.
Qed.

Lemma list_effect_redacted l i old :
  list_effect (RSecret <$> (redacted <$> l)) i old = list_effect (RSecret <$> l) i old.
Proof.
  unfold list_effect, listed_at. induction l as [|x l IH] using rev_ind; [done|].
  rewrite !fmap_app. simpl. rewrite !last_filter_snoc. simpl. case_decide; [done|exact IH].
Qed.

Lemma sync_maps_held `{MapRange} data c k i :
  held (sync_maps data c) k i =
  match k with
  | EventConfig | EventSecret | EventNetwork | EventVolume =>
      match fetched data k with Some l => list_effect l i (held c k i) | None => held c k i end
  | _ => held c k i
  end.
Proof.
  unfold sync_maps.
  assert (∀ c, match f_Secrets data with Some l => Replace secrets_map (by_id x_ID (redacted <$> l)) c | None => c end =
    match fmap (M:=list) redacted <$> f_Secrets data with
    | Some l => Replace secrets_map (by_id x_ID l) c | None => c end) as Hs by (by destruct (f_Secrets data)).
  rewrite Hs. clear Hs.
  rewrite (stage_held volumes_map EventVolume v_Name (λ v, v)); [|auto with go|done|done].
  rewrite (stage_held networks_map EventNetwork w_ID (λ v, v)); [|auto with go|done|done].
  rewrite (stage_held secrets_map EventSecret x_ID redacted); [|auto with go|done|].
  2: { intros l x. destruct (f_Secrets data) as [l0|]; [|done]. intros [= <-] (y & -> & _)%list_elem_of_fmap. done. }
  rewrite (stage_held configs_map EventConfig c_ID (λ v, v)); [|auto with go|done|done].
  destruct k; simpl; try done.
  - by destruct (f_Configs data).
  - destruct (f_Secrets data) as [l|]; simpl; [apply list_effect_redacted|done].
  - by destruct (f_Networks data).
  - by destruct (f_Volumes data).
Qed.

Lemma ReplaceAll_held `{MapRange} data now c k i :
  held (ReplaceAll data now c).1 k i = effect (OpReplaceAll data now) k i (held c k i).
Proof.
  unfold ReplaceAll. cbn [effect].
  set (c1 := match f_Nodes data with Some _ => _ | None => c end).
  assert (∀ k i, held c1 k i =
    match (if bool_decide (k = EventNode) then f_Nodes data else None) with
    | Some l => list_effect (RNode <$> l) i (held c k i) | None => held c k i end) as H1.
  { intros k' i'. apply (stage_held nodes_map EventNode n_ID (λ v, v)); [auto with go|done|done]. }
  clearbody c1.
  set (c2 := match f_Services data with Some _ => _ | None => c1 end).
  assert (∀ k i, held c2 k i =
    match (if bool_decide (k = EventService) then f_Services data else None) with
    | Some l => list_effect (RService <$> l) i (held c1 k i) | None => held c1 k i end) as H2.
  { intros k' i'. subst c2. destruct (f_Services data); [rewrite sync_services_held|]; by case_bool_decide. }
  clearbody c2.
  set (r := match f_Tasks data with Some _ => _ | None => (c2, [], []) end).
  assert (∀ k i, held r.1.1 k i =
    match (if bool_decide (k = EventTask) then f_Tasks data else None) with
    | Some l => list_effect (RTask <$> l) i (held c2 k i) | None => held c2 k i end) as H3.
  { intros k' i'. subst r. destruct (f_Tasks data); [rewrite (sync_tasks_held _ _)|]; by case_bool_decide; subst. }
  clearbody r. destruct r as [[c3 nf] bf]. cbn [fst snd] in *.
  transitivity (held (sync_maps data c3) k i); [by destruct k|].
  rewrite sync_maps_held, H3, H2, H1. destruct k; cbn -[held list_effect]; try done;
    match goal with |- context [fmap _ <$> ?o] => by destruct o end.
Qed.

Lemma section_held `{MapRange} o c k i : held (section o c).1 k i = effect o k i (held c k i).
Proof.
  destruct o; cbn [section effect].
  - apply (Set_held nodes_map EventNode n_ID (λ v, v)); auto with go.
  - apply (Delete_held nodes_map EventNode n_ID (λ v, v)); auto with go.
  - apply SetService_held.
  - apply DeleteService_held.
  - apply SetTask_held.
  - apply DeleteTask_held.
  - apply (Set_held configs_map EventConfig c_ID (λ v, v)); auto with go.
  - apply (Add_held configs_map EventConfig c_ID (λ v, v)); auto with go.
  - apply (Delete_held configs_map EventConfig c_ID (λ v, v)); auto with go.
  - apply (Set_held secrets_map EventSecret x_ID redacted); auto with go.
  - apply (Add_held secrets_map EventSecret x_ID redacted); auto with go.
  - apply (Delete_held secrets_map EventSecret x_ID redacted); auto with go.
  - apply (Set_held networks_map EventNetwork w_ID (λ v, v)); auto with go.
  - apply (Delete_held networks_map EventNetwork w_ID (λ v, v)); auto with go.
  - apply (Set_held volumes_map EventVolume v_Name (λ v, v)); auto with go.
  - apply (Delete_held volumes_map EventVolume v_Name (λ v, v)); auto with go.
  - apply ReplaceAll_held.
Qed.

Lemma held_generations c g v k i : held (set_generations c g v) k i = held c k i.
Proof. by destruct k. Qed.

Lemma perform_held `{MapRange} o c k i : held (perform o c).1 k i = effect o k i (held c k i).
Proof. destruct (perform_fields o c) as (g & v & ->). by rewrite held_generations, section_held. Qed.

(** * What is announced *)

(** An event tells a resource's change: how, and the resource it is about. *)
Definition tells (k : EventType) (i : string) (old new : option Resource) (e : Event) : Prop :=
  Type_ e = k ∧ e_ID e = i ∧
  match old, new with
  | None, Some r => Action e = "create" ∧ Resource_ e = r
  | Some _, Some r => Action e = "update" ∧ Resource_ e = r
  | Some r, None => Action e = "remove" ∧ Resource_ e = r
  | None, None => False
  end.

Lemma notify_tells c e k i old new : tells k i old new e → tells k i old new (notify c e).2.
Proof.
  destruct (notify_keeps c e) as (Ht & Ha & Hid), (notify_resources c e) as [Hr _].
  unfold tells. by rewrite Ht, Ha, Hid, Hr.
Qed.

Lemma notify_all_tells c es k i old new :
  Exists (tells k i old new) es → Exists (tells k i old new) (notify_all c es).2.
Proof.
  intros He. revert c. induction He as [e es He|e es He IH]; intros c; simpl.
  - pose proof (notify_tells c e _ _ _ _ He). destruct (notify c e), (notify_all _ es). by left.
  - destruct (notify c e) as [c1 e1]. specialize (IH c1). destruct (notify_all c1 es). by right.
Qed.

Section PartEvents.
Context {T : Type} (r : ResourceMap T) (ty : EventType) (id : T → string) (clean : T → T)
  (Hr : part_of_store r ty id clean).

Lemma Set_told c v k i :
  held (Set_ r (id v) v ty c).1 k i ≠ held c k i →
  Exists (tells k i (held c k i) (held (Set_ r (id v) v ty c).1 k i)) (Set_ r (id v) v ty c).2.
Proof using Hr.
  rewrite (Set_held r ty id clean Hr). unfold set_effect. destruct (at_key k i (boxed r v)) eqn:Hat; [|done].
  unfold at_key in Hat. rewrite andb_true_iff, !bool_decide_eq_true in Hat. destruct Hat as [<- <-].
  rewrite (ps_kind _ _ _ _ Hr), (ps_key _ _ _ _ Hr), (ps_held _ _ _ _ Hr).
  unfold Set_. destruct (ps_set _ _ _ _ Hr (id v) v c) as [st ->].
  destruct (items r c !! id v) as [w|] eqn:Ew.
  - rewrite (ps_stale _ _ _ _ Hr). simpl. rewrite stale_stored.
    destruct (stale (boxed r w) (boxed r v)); [done|]. intros _. left.
    unfold tells. simpl. by rewrite (ps_clean _ _ _ _ Hr).
  - intros _. simpl. left. unfold tells. simpl. rewrite (ps_clean _ _ _ _ Hr). done.
Qed.

Lemma Add_told c v k i :
  held (Add r (id v) v ty c).1 k i ≠ held c k i →
  Exists (tells k i (held c k i) (held (Add r (id v) v ty c).1 k i)) (Add r (id v) v ty c).2.
Proof using Hr.
  rewrite (Add_held r ty id clean Hr). unfold add_effect. destruct (at_key k i (boxed r v)) eqn:Hat; [|done].
  unfold at_key in Hat. rewrite andb_true_iff, !bool_decide_eq_true in Hat. destruct Hat as [<- <-].
  rewrite (ps_kind _ _ _ _ Hr), (ps_key _ _ _ _ Hr), (ps_held _ _ _ _ Hr).
  unfold Add. destruct (ps_set _ _ _ _ Hr (id v) v c) as [st ->].
  destruct (items r c !! id v) as [w|] eqn:Ew; [done|].
  intros _. left. unfold tells. simpl. rewrite (ps_clean _ _ _ _ Hr). done.
Qed.

Lemma Delete_told c key k i :
  held (Delete_ r key ty c).1 k i ≠ held c k i →
  Exists (tells k i (held c k i) (held (Delete_ r key ty c).1 k i)) (Delete_ r key ty c).2.
Proof using Hr.
  rewrite (Delete_held r ty id clean Hr). unfold delete_effect.
  destruct (bool_decide (ty = k) && bool_decide (key = i)) eqn:Hat; [|done].
  rewrite andb_true_iff, !bool_decide_eq_true in Hat. destruct Hat as [<- <-].
  rewrite (ps_held _ _ _ _ Hr). unfold Delete_. destruct (del r key c) as [name c'].
  intros Hne. left. destruct (items r c !! key) as [w|]; [done|done].
Qed.
End PartEvents.

Lemma SetService_told `{MapRange} s c k i :
  held (SetService s c).1 k i ≠ held c k i →
  Exists (tells k i (held c k i) (held (SetService s c).1 k i)) (SetService s c).2.
Proof.
  rewrite SetService_held. unfold set_effect. destruct (at_key k i (RService s)) eqn:Hat; [|done].
  unfold at_key in Hat. rewrite andb_true_iff, !bool_decide_eq_true in Hat. destruct Hat as [<- <-].
  unfold SetService. simpl. destruct (services c !! s_ID s) as [old|].
  - simpl. unfold stale. simpl. destruct (s_Version s <? s_Version old); [done|]. intros _. by left.
  - intros _. by left.
Qed.

Lemma DeleteService_told `{MapRange} id c k i :
  held (DeleteService id c).1 k i ≠ held c k i →
  Exists (tells k i (held c k i) (held (DeleteService id c).1 k i)) (DeleteService id c).2.
Proof.
  rewrite DeleteService_held. unfold delete_effect.
  destruct (bool_decide (EventService = k) && bool_decide (id = i)) eqn:Hat; [|done].
  rewrite andb_true_iff, !bool_decide_eq_true in Hat. destruct Hat as [<- <-].
  intros Hne. left. simpl in *. destruct (services c !! id); done.
Qed.

(** A task read anew says something new when one of the fields the task page
    shows differs, or its version. *)
Lemma SetTask_told t now c k i :
  match tasks c !! t_ID t with Some old => task_changed old t = true | None => True end →
  held (SetTask t now c).1 k i ≠ held c k i →
  Exists (tells k i (held c k i) (held (SetTask t now c).1 k i)) (SetTask t now c).2.
Proof.
  intros Hch. rewrite SetTask_held. unfold set_effect. destruct (at_key k i (RTask t)) eqn:Hat; [|done].
  unfold at_key in Hat. rewrite andb_true_iff, !bool_decide_eq_true in Hat. destruct Hat as [<- <-].
  unfold SetTask. simpl. destruct (tasks c !! t_ID t) as [old|].
  - simpl. unfold stale. simpl. destruct (t_Version t <? t_Version old); [done|]. intros _. simpl.
    rewrite Hch. by left.
  - intros _. by left.
Qed.

Lemma DeleteTask_told id c k i :
  held (DeleteTask id c).1 k i ≠ held c k i →
  Exists (tells k i (held c k i) (held (DeleteTask id c).1 k i)) (DeleteTask id c).2.
Proof.
  rewrite DeleteTask_held. unfold delete_effect.
  destruct (bool_decide (EventTask = k) && bool_decide (id = i)) eqn:Hat; [|done].
  rewrite andb_true_iff, !bool_decide_eq_true in Hat. destruct Hat as [<- <-].
  intros Hne. simpl in *. unfold DeleteTask.
  destruct (tasks c !! id) as [old|]; simpl; by left.
Qed.

(** A re-read that repeats what is held, or a full sync, which is announced as
    one. *)
Definition quiet_op (o : op) (c : Cache) : Prop :=
  match o with
  | OpSetTask t _ => match tasks c !! t_ID t with Some old => task_changed old t = false | None => False end
  | OpReplaceAll _ _ => True
  | _ => False
  end.

Lemma section_told `{MapRange} o c k i :
  ¬ quiet_op o c → held (section o c).1 k i ≠ held c k i →
  Exists (tells k i (held c k i) (held (section o c).1 k i)) (section o c).2.
Proof.
  destruct o; cbn [section quiet_op]; intros Hq.
  - apply (Set_told nodes_map EventNode n_ID (λ v, v)); auto with go.
  - apply (Delete_told nodes_map EventNode n_ID (λ v, v)); auto with go.
  - apply SetService_told.
  - apply DeleteService_told.
  - apply SetTask_told. destruct (tasks c !! t_ID t) as [old|]; [|done].
    destruct (task_changed old t); [done|by destruct Hq].
  - apply DeleteTask_told.
  - apply (Set_told configs_map EventConfig c_ID (λ v, v)); auto with go.
  - apply (Add_told configs_map EventConfig c_ID (λ v, v)); auto with go.
  - apply (Delete_told configs_map EventConfig c_ID (λ v, v)); auto with go.
  - apply (Set_told secrets_map EventSecret x_ID redacted); auto with go.
  - apply (Add_told secrets_map EventSecret x_ID redacted); auto with go.
  - apply (Delete_told secrets_map EventSecret x_ID redacted); auto with go.
  - apply (Set_told networks_map EventNetwork w_ID (λ v, v)); auto with go.
  - apply (Delete_told networks_map EventNetwork w_ID (λ v, v)); auto with go.
  - apply (Set_told volumes_map EventVolume v_Name (λ v, v)); auto with go.
  - apply (Delete_told volumes_map EventVolume v_Name (λ v, v)); auto with go.
  - done.
Qed.

(** * Properties *)

(** C1: the cache is a store. Whatever the state of its indexes, an operation
    changes what is held exactly as the abstract operation says: a write keeps
    the newer of what it has and what it is given, without a secret's data; a
    removal drops its resource; a full sync leaves, of every type it fetched,
    the listed resources alone, each at its newer version, and the types it
    could not fetch as they were. *)
Theorem cache_refines_store `{MapRange} o c k i :
  held (perform o c).1 k i = effect o k i (held c k i).
Proof. apply perform_held. Qed.

(** Every change of a held resource is announced as the change it is, a
    creation, an update or a removal, by an event that carries the resource now
    held, or the one removed. Only a full sync, announced as one, and a task
    read again with nothing new in it change what is held without one. *)
Theorem changes_announced `{MapRange} o c k i :
  ¬ quiet_op o c → held (perform o c).1 k i ≠ held c k i →
  Exists (tells k i (held c k i) (held (perform o c).1 k i)) (perform o c).2.
Proof.
  rewrite perform_held, <- section_held. intros Hq Hne. unfold perform.
  pose proof (section_told o c k i Hq Hne) as He. destruct (section o c) as [c' es].
  by apply notify_all_tells.
Qed.

Lemma changes_announced_witness :
  let o := OpSetNode (mkNode "n1" 7 "web-1" "active" "ready" 0 0) in
  let c := New 0 in
  ¬ quiet_op o c ∧
  Exists (tells EventNode "n1" None (Some (RNode (mkNode "n1" 7 "web-1" "active" "ready" 0 0))))
    (perform (H := map_range_std) o c).2.
Proof.
  split; [by intros []|].
  refine (@changes_announced map_range_std (OpSetNode (mkNode "n1" 7 "web-1" "active" "ready" 0 0)) (New 0) EventNode "n1" _ _);
    [by intros []|by vm_compute].
Defined.
