(* ===== verification/CacheList.v ===== *)
(** The cache's reads: the lists, the scans in list order and the task counts of
    internal/cache/resourcemap.go and cache.go. *)
From S2P Require Import Prelude GoStrings SortByIndex SortedLists Restarts CacheState CacheStacks CacheIndex CacheOps Cache CacheProps.
#[local] Open Scope string_scope.
#[local] Open Scope nat_scope.

(** * Ordering *)

Definition compareTasks (a b : Task) : comparison :=
  cmp_or (Z.compare (t_Slot a) (t_Slot b)) (str_compare (t_ID a) (t_ID b)).

#[global] Instance compareTasks_laws : Compare compareTasks.
Proof. unfold compareTasks. apply _. Qed.

Lemma compareTasks_eq a b : compareTasks a b = Eq → t_ID a = t_ID b.
Proof. unfold compareTasks. rewrite cmp_or_eq, str_compare_eq. by intros [_ ?]. Qed.

(** Ranging over a set, which Go has as a map to struct{}. *)
Definition range_set `{MapRange} (X : gset string) : list string := (range (gset_to_gmap () X)).*1.

(** * ResourceMap's lists *)

(** A comparison of positions through a key of each; a position out of range is
    not compared. *)
Definition by_position {K} (cmp : K → K → comparison) (zero : K) (keys : list K) (a b : nat) : comparison :=
  cmp (default zero (keys !! a)) (default zero (keys !! b)).

Definition List {T} `{MapRange} (r : ResourceMap T) (c : Cache) : option (list T) :=
  let entries := range (items r c) in
  sortByIndex (by_position str_compare "" entries.*1) entries.*2.

Definition Len {T} (r : ResourceMap T) (c : Cache) : nat := size (items r c).

(** A scan: yield is given each value with what it kept from the last, and says
    whether to go on. *)
Fixpoint scan {T S} (yield : S → T → S * bool) (s : S) (l : list T) : S :=
  match l with
  | [] => s
  | v :: l => let '(s, more) := yield s v in if more then scan yield s l else s
  end.

Definition Each {T S} `{MapRange} (r : ResourceMap T) (yield : S → T → S * bool) (s : S) (c : Cache) : S :=
  scan yield s (omap (λ k, items r c !! k) (SortStrings (range (items r c)).*1)).

(** * The cache's own lists *)

Definition zero_Task : Task := mkTask "" 0 "" "" "" "" "" "" 0 None 0 None.

Definition ListServices `{MapRange} (c : Cache) : option (list Service) :=
  let out := (range (services c)).*2 in
  sortByIndex (by_position str_compare "" (s_ID <$> out)) out.

Definition ListTasks `{MapRange} (c : Cache) : option (list Task) :=
  let out := (range (tasks c)).*2 in
  sortByIndex (by_position compareTasks zero_Task out) out.

Definition EachService {S} `{MapRange} (yield : S → Service → S * bool) (s : S) (c : Cache) : S :=
  scan yield s (omap (λ k, services c !! k) (SortStrings (range (services c)).*1)).

(** The sort key is the slot and the ID. *)
Definition EachTask {S} `{MapRange} (yield : S → Task → S * bool) (s : S) (c : Cache) : S :=
  scan yield s (omap (λ '(_, k), tasks c !! k)
    (SortFunc (λ a b, cmp_or (Z.compare a.1 b.1) (str_compare a.2 b.2))
      ((λ '(k, t), (t_Slot t, k)) <$> range (tasks c)))).

Definition eachTaskUnordered {S} `{MapRange} (yield : S → Task → S * bool) (s : S) (c : Cache) : S :=
  scan yield s (range (tasks c)).*2.

Definition indexed_tasks `{MapRange} (by_ : TaskIndex) (parent : string) (c : Cache) : list Task :=
  omap (λ id, tasks c !! id) (range_set (default ∅ (by_ !! parent))).

Definition ListTasksByService `{MapRange} (c : Cache) (serviceID : string) : list Task :=
  SortFunc compareTasks (indexed_tasks (tasksByService c) serviceID c).

Definition ListTasksByNode `{MapRange} (c : Cache) (nodeID : string) : list Task :=
  SortFunc compareTasks (indexed_tasks (tasksByNode c) nodeID c).

(** * Counts *)

Definition TaskIsLive (t : Task) : bool :=
  negb (bool_decide (t_DesiredState t = "shutdown")) && negb (bool_decide (t_DesiredState t = "remove")).

Definition CountsAsRunningReplica (t : Task) : bool :=
  bool_decide (t_State t = "running") && TaskIsLive t.

Definition IsJobService (s : Service) : bool := m_ReplicatedJob (s_Mode s) || m_GlobalJob (s_Mode s).

Definition inCurrentJobRun (s : Service) (t : Task) : bool :=
  match s_JobIteration s, t_JobIteration t with
  | Some run, Some i => (i =? run)%Z
  | _, _ => true
  end.

Definition CountsAsJobCompletion (s : Service) (t : Task) : bool :=
  if negb (IsJobService s) || negb (bool_decide (t_State t = "complete")) then false
  else inCurrentJobRun s t.

Definition countsAsJobFailure (s : Service) (t : Task) : bool :=
  IsJobService s && (bool_decide (t_State t = "failed") || bool_decide (t_State t = "rejected")) &&
  inCurrentJobRun s t.

(** Counting under a map's keys. *)
Definition count_at (counts : gmap string nat) (k : string) : gmap string nat :=
  <[k := S (default 0 (counts !! k))]> counts.

Definition RunningTaskCount `{MapRange} (c : Cache) (serviceID : string) : nat :=
  length (filter (λ t, CountsAsRunningReplica t = true) (indexed_tasks (tasksByService c) serviceID c)).

Definition RunningTaskCounts `{MapRange} (c : Cache) : gmap string nat :=
  foldl (λ counts t, if CountsAsRunningReplica t then count_at counts (t_ServiceID t) else counts) ∅
    (range (tasks c)).*2.

Definition CompletedJobTaskCount `{MapRange} (c : Cache) (serviceID : string) : nat :=
  match services c !! serviceID with
  | None => 0
  | Some s => length (filter (λ t, CountsAsJobCompletion s t = true)
                (indexed_tasks (tasksByService c) serviceID c))
  end.

Definition CompletedJobTaskCounts `{MapRange} (c : Cache) : gmap string nat :=
  foldl (λ counts t,
    match services c !! t_ServiceID t with
    | Some s => if CountsAsJobCompletion s t then count_at counts (t_ServiceID t) else counts
    | None => counts
    end) ∅ (range (tasks c)).*2.

Record TaskTally := mkTally { Running : nat; Completed : nat; Failed : nat }.

Definition tally (s : Service) (y : TaskTally) (t : Task) : TaskTally :=
  if CountsAsRunningReplica t then mkTally (S (Running y)) (Completed y) (Failed y)
  else if CountsAsJobCompletion s t then mkTally (Running y) (S (Completed y)) (Failed y)
  else if countsAsJobFailure s t then mkTally (Running y) (Completed y) (S (Failed y))
  else y.

Definition TaskTallies `{MapRange} (c : Cache) (given : list Service) : gmap string TaskTally :=
  foldl (λ tallies g,
    match services c !! s_ID g with
    | None => tallies
    | Some s => <[s_ID s := foldl (tally s) (mkTally 0 0 0) (indexed_tasks (tasksByService c) (s_ID s) c)]> tallies
    end) ∅ given.

(** * Lists are sorted, whatever the order of the map *)

#[global] Instance by_position_laws {K} (cmp : K → K → comparison) `{!Compare cmp} zero keys :
  Compare (by_position cmp zero keys).
Proof. unfold by_position. apply compare_proj, _. Qed.

Lemma sortByIndex_entries {K V} (cmp : K → K → comparison) `{!Compare cmp} (zero : K)
    (entries : list (K * V)) :
  (∀ x y, x ∈ entries → y ∈ entries → cmp x.1 y.1 = Eq → x = y) →
  sortByIndex (by_position cmp zero entries.*1) entries.*2 =
  Some (SortFunc (λ x y, cmp x.1 y.1) entries).*2.
Proof.
  intros Heq. destruct (sortByIndex_sorts (by_position cmp zero entries.*1) entries.*2)
    as (order & Hp & Hs & -> & _).
  f_equal. rewrite length_fmap in Hp.
  assert (∀ j, j ∈ order → is_Some (entries !! j)) as Hin
    by (intros j Hj; rewrite Hp in Hj; apply elem_of_seq in Hj; apply lookup_lt_is_Some; lia).
  set (sorted := omap (λ j, entries !! j) order).
  assert (omap (λ j, entries.*2 !! j) order = sorted.*2) as ->.
  { subst sorted. clear - Hin. induction order as [|j order IH]; [done|]. simpl.
    destruct (Hin j) as [x Hx]; [left|]. rewrite list_lookup_fmap, Hx. simpl. f_equal.
    apply IH. intros i Hi. apply Hin. by right. }
  f_equal. assert (sorted ≡ₚ entries) as Hse by (subst sorted; rewrite Hp; apply reflexive_eq, omap_seq).
  apply (StronglySorted_unique_strong (cmp_le (λ x y, cmp x.1 y.1))).
  - intros x y Hx Hy H1 H2. rewrite SortFunc_perm in Hy. rewrite Hse in Hx. apply Heq; [done..|].
    unfold cmp_le in *. rewrite (cmp_antisym (cmp := cmp) y.1 x.1) in H2. by destruct (cmp x.1 y.1).
  - destruct (head entries) as [[k0 v0]|] eqn:Eh.
    2: { apply head_None in Eh. rewrite Eh in Hse. apply Permutation_nil_r in Hse. rewrite Hse. constructor. }
    apply (omap_sorted _ (λ j, default (k0, v0) (entries !! j))).
    + intros j Hj. by destruct (Hin j Hj) as [x ->].
    + eapply (StronglySorted_weaken_in _ _ order); [|exact Hs]. intros i j Hi Hj.
      unfold cmp_le, by_position. rewrite !list_lookup_fmap.
      destruct (Hin i Hi) as [x ->], (Hin j Hj) as [y ->]. done.
  - apply SortFunc_sorted, _.
  - by rewrite SortFunc_perm.
Qed.

Lemma range_key_eq `{MapRange} {A} (m : gmap string A) x y :
  x ∈ range m → y ∈ range m → str_compare x.1 y.1 = Eq → x = y.
Proof.
  destruct x as [k v], y as [k' v']. simpl. intros Hx%elem_of_range Hy%elem_of_range ->%str_compare_eq.
  congruence.
Qed.

(** A map's values by key, as a map has them in one order. *)
Definition values_by_key {A} (m : gmap string A) : list A :=
  (SortFunc (λ x y, str_compare x.1 y.1) (map_to_list m)).*2.

Lemma List_values {T} `{MapRange} (r : ResourceMap T) c : List r c = Some (values_by_key (items r c)).
Proof.
  unfold List. rewrite (sortByIndex_entries str_compare) by apply range_key_eq.
  unfold values_by_key. do 2 f_equal. apply SortFunc_det; [apply _|apply range_key_eq|apply range_perm].
Qed.

Lemma sorted_keys_values {A} (m : gmap string A) (l : list (string * A)) :
  l ≡ₚ map_to_list m → omap (λ k, m !! k) (SortStrings l.*1) = values_by_key m.
Proof.
  intros Hp. unfold values_by_key. set (s := SortFunc _ _).
  assert (SortStrings l.*1 = s.*1) as ->.
  { apply (StronglySorted_unique String.le).
    - apply SortStrings_sorted.
    - apply str_sorted. subst s. set (R := cmp_le _).
      pose proof (SortFunc_sorted (λ x y : string * A, str_compare x.1 y.1) (map_to_list m)) as Hs.
      induction Hs as [|x k Hs IH Hall]; simpl; constructor; [done|].
      apply Forall_fmap. eapply Forall_impl; [exact Hall|]. done.
    - subst s. by rewrite SortStrings_perm, SortFunc_perm, Hp. }
  assert (∀ k v, (k, v) ∈ s → m !! k = Some v) as Hin.
  { intros k v. subst s. rewrite SortFunc_perm. apply elem_of_map_to_list. }
  clear -Hin. induction s as [|[k v] s IH]; [done|]. simpl. rewrite (Hin k v) by left. f_equal.
  apply IH. intros k' v' Hk. apply Hin. by right.
Qed.

(** A list sorted in place by what each value is. *)
Lemma sortByIndex_self {T} (cmp : T → T → comparison) `{!Compare cmp} zero (l : list T) :
  (∀ x y, x ∈ l → y ∈ l → cmp x y = Eq → x = y) →
  sortByIndex (by_position cmp zero l) l = Some (SortFunc cmp l).
Proof.
  intros Heq. set (entries := (λ x, (x, x)) <$> l).
  assert (entries.*1 = l ∧ entries.*2 = l) as [E1 E2]
    by (subst entries; rewrite <- !list_fmap_compose; split; apply list_fmap_id).
  assert (∀ x, x ∈ entries → x.1 = x.2) as Hdiag by (by intros x (y & -> & _)%list_elem_of_fmap).
  pose proof (sortByIndex_entries cmp zero entries) as Hs. rewrite E1, E2 in Hs. rewrite Hs.
  2: { intros x y Hx Hy E.
       assert (x.1 = y.1) as Exy
         by (apply Heq; [rewrite <- E1; by apply list_elem_of_fmap_2..|done]).
       rewrite (surjective_pairing x), (surjective_pairing y).
       by rewrite <- (Hdiag x Hx), <- (Hdiag y Hy), Exy. }
  f_equal. apply (StronglySorted_unique_strong (cmp_le cmp)).
  - intros x y Hx Hy H1 H2. rewrite SortFunc_perm, E2 in Hx. rewrite SortFunc_perm in Hy. apply Heq; [done..|].
    unfold cmp_le in *. rewrite (cmp_antisym (cmp := cmp) y x) in H2. by destruct (cmp x y).
  - pose proof (SortFunc_sorted (λ x y : T * T, cmp x.1 y.1) entries) as Hsort.
    assert (∀ x, x ∈ SortFunc (λ x y : T * T, cmp x.1 y.1) entries → x.1 = x.2) as Hd
      by (intros x Hx; rewrite SortFunc_perm in Hx; by apply Hdiag).
    clear -Hsort Hd. induction Hsort as [|x k Hs IH Hall]; simpl; constructor; [apply IH; intros; apply Hd; by right|].
    apply Forall_fmap, Forall_forall. intros y Hy. rewrite Forall_forall in Hall. specialize (Hall y Hy).
    unfold cmp_le in *. simpl in *. rewrite <- (Hd x), <- (Hd y) by (by left || by right). done.
  - apply SortFunc_sorted, _.
  - by rewrite !SortFunc_perm, E2.
Qed.

(** The tasks in list order. *)
Definition tasks_in_order (c : Cache) : list Task := SortFunc compareTasks (map_to_list (tasks c)).*2.

Section Keyed.
Context `{MapRange} (c : Cache) (Hk : keyed t_ID (tasks c)).

Lemma elem_of_task_values t : t ∈ (map_to_list (tasks c)).*2 ↔ tasks c !! t_ID t = Some t.
Proof using Hk.
  rewrite list_elem_of_fmap. split.
  - intros ([k u] & -> & Hu%elem_of_map_to_list). simpl. by rewrite (Hk _ _ Hu).
  - intros Ht. exists (t_ID t, t). by rewrite elem_of_map_to_list.
Qed.

Lemma elem_of_tasks_in_order t : t ∈ tasks_in_order c ↔ tasks c !! t_ID t = Some t.
Proof using Hk. unfold tasks_in_order. rewrite SortFunc_perm. apply elem_of_task_values. Qed.

Lemma NoDup_task_values : NoDup (map_to_list (tasks c)).*2.
Proof using Hk.
  apply (NoDup_fmap_1 t_ID). rewrite <- list_fmap_compose.
  assert (t_ID ∘ snd <$> map_to_list (tasks c) = (map_to_list (tasks c)).*1) as ->.
  { apply list_fmap_ext. intros i [k t] Ht. simpl. apply Hk, elem_of_map_to_list. by eapply list_elem_of_lookup_2. }
  apply NoDup_fst_map_to_list.
Qed.

Lemma NoDup_tasks_in_order : NoDup (tasks_in_order c).
Proof using Hk. unfold tasks_in_order. rewrite SortFunc_perm. apply NoDup_task_values. Qed.

Lemma task_values_eq x y :
  x ∈ (map_to_list (tasks c)).*2 → y ∈ (map_to_list (tasks c)).*2 → compareTasks x y = Eq → x = y.
Proof using Hk.
  rewrite !elem_of_task_values. intros Hx Hy E%compareTasks_eq. congruence.
Qed.

Lemma range_values : (range (tasks c)).*2 ≡ₚ (map_to_list (tasks c)).*2.
Proof. apply fmap_Permutation, range_perm. Qed.

Lemma ListTasks_values : ListTasks c = Some (tasks_in_order c).
Proof using Hk.
  unfold ListTasks. rewrite (sortByIndex_self compareTasks).
  - f_equal. apply SortFunc_det; [apply _|intros x y; rewrite range_values; apply task_values_eq|apply range_values].
  - intros x y. rewrite range_values. apply task_values_eq.
Qed.

(** Sorting what stands for the tasks is sorting the tasks. *)
Lemma tasks_in_order_unique (l : list Task) (P : Task → Prop) `{!∀ t, Decision (P t)} :
  NoDup l → (∀ t, t ∈ l ↔ tasks c !! t_ID t = Some t ∧ P t) →
  SortFunc compareTasks l = filter P (tasks_in_order c).
Proof using Hk.
  intros Hn Hl. apply (StronglySorted_unique_strong (cmp_le compareTasks)).
  - intros x y Hx Hy H1 H2. rewrite SortFunc_perm in Hx. apply Hl in Hx as [Hx _].
    apply list_elem_of_filter in Hy as [_ Hy]. apply elem_of_tasks_in_order in Hy.
    assert (compareTasks x y = Eq) as E%compareTasks_eq; [|congruence].
    unfold cmp_le in *. rewrite (cmp_antisym (cmp := compareTasks) y x) in H2. by destruct (compareTasks x y).
  - apply SortFunc_sorted, _.
  - eapply StronglySorted_sublist; [apply sublist_filter|]. apply SortFunc_sorted, _.
  - rewrite SortFunc_perm. apply NoDup_Permutation; [done|apply NoDup_filter, NoDup_tasks_in_order|].
    intros t. rewrite Hl, list_elem_of_filter, elem_of_tasks_in_order. tauto.
Qed.
End Keyed.

Lemma elem_of_range_set `{MapRange} (X : gset string) x : x ∈ range_set X ↔ x ∈ X.
Proof.
  unfold range_set. rewrite list_elem_of_fmap. split.
  - intros ([y []] & -> & Hy%elem_of_range). by apply lookup_gset_to_gmap_Some in Hy as [? _].
  - intros Hx. exists (x, ()). split; [done|]. apply elem_of_range. by apply lookup_gset_to_gmap_Some.
Qed.

Lemma NoDup_range_set `{MapRange} (X : gset string) : NoDup (range_set X).
Proof. apply NoDup_range. Qed.

Section Indexed.
Context `{MapRange} (parent : Task → string) (by_ : TaskIndex) (c : Cache)
  (Hk : keyed t_ID (tasks c)) (Hm : tasks_match parent by_ (tasks c)).

Lemma elem_of_indexed_tasks p t :
  t ∈ indexed_tasks by_ p c ↔ tasks c !! t_ID t = Some t ∧ p ≠ "" ∧ parent t = p.
Proof using Hk Hm.
  unfold indexed_tasks. rewrite list_elem_of_omap. split.
  - intros (id & Hid%elem_of_range_set & Ht). apply (proj1 Hm) in Hid as [Hp (u & Hu & Hpar)].
    assert (u = t) as -> by congruence. by rewrite (Hk _ _ Hu).
  - intros (Ht & Hp & Hpar). exists (t_ID t). split; [|done]. apply elem_of_range_set, Hm. eauto.
Qed.

Lemma NoDup_indexed_tasks p : NoDup (indexed_tasks by_ p c).
Proof using Hk.
  unfold indexed_tasks. pose proof (NoDup_range_set (default ∅ (by_ !! p))) as Hn.
  assert (∀ l, NoDup l → NoDup (omap (λ id, tasks c !! id) l)) as Hgen; [|by apply Hgen].
  clear -Hk. induction 1 as [|id l Hid Hl IH]; simpl; [constructor|].
  destruct (tasks c !! id) as [t|] eqn:Et; [|done]. constructor; [|done].
  intros (x & Hx & Ht)%list_elem_of_omap. apply Hid. by rewrite <- (Hk _ _ Et), (Hk _ _ Ht).
Qed.

Lemma indexed_in_order p :
  p ≠ "" →
  SortFunc compareTasks (indexed_tasks by_ p c) = filter (λ t, parent t = p) (tasks_in_order c).
Proof using Hk Hm.
  intros Hp. apply tasks_in_order_unique; [done|apply NoDup_indexed_tasks|].
  intros t. rewrite elem_of_indexed_tasks. tauto.
Qed.

Lemma indexed_perm p :
  p ≠ "" → indexed_tasks by_ p c ≡ₚ filter (λ t, parent t = p) (map_to_list (tasks c)).*2.
Proof using Hk Hm.
  intros Hp. rewrite <- (SortFunc_perm compareTasks (indexed_tasks by_ p c)), indexed_in_order by done.
  unfold tasks_in_order. by rewrite SortFunc_perm.
Qed.
End Indexed.

(** ** Scans *)

Lemma EachTask_order {S} `{MapRange} (yield : S → Task → S * bool) s c :
  keyed t_ID (tasks c) → EachTask yield s c = scan yield s (tasks_in_order c).
Proof.
  intros Hk. unfold EachTask. f_equal.
  set (cmp := λ a b : Z * string, cmp_or (Z.compare a.1 b.1) (str_compare a.2 b.2)).
  assert (SortFunc cmp ((λ '(k, t), (t_Slot t, k)) <$> range (tasks c)) =
    (λ t, (t_Slot t, t_ID t)) <$> tasks_in_order c) as ->.
  { apply (StronglySorted_unique_strong (cmp_le cmp)).
    - intros [i a] [j b] _ _ H1 H2. unfold cmp_le in *.
      rewrite (cmp_antisym (cmp := cmp) (j, b)) in H2.
      assert (cmp (i, a) (j, b) = Eq) as E by (by destruct (cmp (i, a) (j, b))).
      unfold cmp in E. simpl in E. rewrite cmp_or_eq, str_compare_eq in E. destruct E as [E ->].
      apply Z.compare_eq in E. by subst.
    - apply SortFunc_sorted, _.
    - assert (StronglySorted (cmp_le compareTasks) (tasks_in_order c)) as Hs by apply SortFunc_sorted, _.
      induction Hs as [|x k Hs IH Hall]; simpl; constructor; [done|].
      apply Forall_fmap. eapply Forall_impl; [exact Hall|]. done.
    - rewrite SortFunc_perm. unfold tasks_in_order. rewrite SortFunc_perm, range_perm, <- list_fmap_compose.
      apply reflexive_eq, list_fmap_ext. intros i [k t] Ht. simpl. f_equal. symmetry.
      apply Hk, elem_of_map_to_list. by eapply list_elem_of_lookup_2. }
  assert (∀ t, t ∈ tasks_in_order c → tasks c !! t_ID t = Some t) as Hin by (intros t; by apply elem_of_tasks_in_order).
  induction (tasks_in_order c) as [|t l IH]; [done|]. simpl. rewrite (Hin t) by left. f_equal.
  apply IH. intros u Hu. apply Hin. by right.
Qed.

Lemma Each_order {T S} `{MapRange} (r : ResourceMap T) (yield : S → T → S * bool) s c :
  Each r yield s c = scan yield s (values_by_key (items r c)).
Proof. unfold Each. by rewrite sorted_keys_values by apply range_perm. Qed.

(** ** Counts *)

Lemma count_at_lookup counts k i :
  default 0 (count_at counts k !! i) = (if bool_decide (k = i) then 1 else 0) + default 0 (counts !! i).
Proof.
  unfold count_at. case_bool_decide as E; [subst; by rewrite lookup_insert_eq|by rewrite lookup_insert_ne].
Qed.

(** One pass that counts what holds of a task under its service. *)
Lemma counts_pass (f : Task → bool) l counts sid :
  default 0 (foldl (λ m t, if f t then count_at m (t_ServiceID t) else m) counts l !! sid) =
  default 0 (counts !! sid) + length (filter (λ t, f t = true) (filter (λ t, t_ServiceID t = sid) l)).
Proof.
  revert counts. induction l as [|t l IH]; intros counts; [simpl; lia|]. cbn [foldl].
  rewrite IH, filter_cons. destruct (f t) eqn:Ef; [rewrite count_at_lookup|].
  - case_bool_decide as E; [rewrite decide_True by done|rewrite decide_False by done; lia].
    rewrite filter_cons_True by done. simpl. lia.
  - case_decide; [rewrite filter_cons_False by congruence|]; lia.
Qed.

Lemma foldl_tally s l y :
  foldl (tally s) y l = mkTally
    (Running y + length (filter (λ t, CountsAsRunningReplica t = true) l))
    (Completed y + length (filter (λ t, CountsAsJobCompletion s t = true) l))
    (Failed y + length (filter (λ t, countsAsJobFailure s t = true) l)).
Proof.
  revert y. induction l as [|t l IH]; intros y; simpl.
  - rewrite !Nat.add_0_r. by destruct y.
  - rewrite IH, !filter_cons. unfold tally, CountsAsRunningReplica, CountsAsJobCompletion, countsAsJobFailure.
    destruct (bool_decide_reflect (t_State t = "running")) as [E|_];
      [rewrite E; simpl; rewrite orb_true_r, andb_false_r; destruct (TaskIsLive t); simpl; f_equal; lia|].
    simpl. destruct (bool_decide_reflect (t_State t = "complete")) as [E|_]; simpl.
    + rewrite E. simpl. rewrite orb_false_r, andb_false_r.
      destruct (IsJobService s), (inCurrentJobRun s t); simpl; f_equal; lia.
    + rewrite orb_true_r. destruct (IsJobService s && _ && _); simpl; f_equal; lia.
Qed.

Lemma ListServices_values `{MapRange} c :
  keyed s_ID (services c) → ListServices c = Some (values_by_key (services c)).
Proof.
  intros Hk. unfold ListServices.
  assert ((s_ID <$> (range (services c)).*2) = (range (services c)).*1) as ->.
  { rewrite <- list_fmap_compose. apply list_fmap_ext. intros i [k s] Hs. simpl.
    apply Hk. eapply elem_of_range, list_elem_of_lookup_2, Hs. }
  rewrite (sortByIndex_entries str_compare) by apply range_key_eq.
  unfold values_by_key. do 2 f_equal. apply SortFunc_det; [apply _|apply range_key_eq|apply range_perm].
Qed.

Lemma counts_perm (f : Task → bool) l k :
  l ≡ₚ k → length (filter (λ t, f t = true) l) = length (filter (λ t, f t = true) k).
Proof. by intros ->. Qed.

(** The tasks of a service that count, by one of the indexes or by a scan. *)
Lemma indexed_count `{MapRange} (f : Task → bool) c sid :
  cache_ok c → sid ≠ "" →
  length (filter (λ t, f t = true) (indexed_tasks (tasksByService c) sid c)) =
  length (filter (λ t, f t = true) (filter (λ t, t_ServiceID t = sid) (map_to_list (tasks c)).*2)).
Proof. intros [] Hsid. by apply counts_perm, indexed_perm. Qed.

Lemma scan_count `{MapRange} (f : Task → bool) c sid :
  default 0 (foldl (λ m t, if f t then count_at m (t_ServiceID t) else m) ∅ (range (tasks c)).*2 !! sid) =
  length (filter (λ t, f t = true) (filter (λ t, t_ServiceID t = sid) (map_to_list (tasks c)).*2)).
Proof. rewrite counts_pass, lookup_empty. simpl. apply counts_perm. by rewrite range_values. Qed.

Lemma TaskTallies_lookup `{MapRange} c given sid s :
  keyed s_ID (services c) → services c !! sid = Some s → Exists (λ g, s_ID g = sid) given →
  TaskTallies c given !! sid =
  Some (foldl (tally s) (mkTally 0 0 0) (indexed_tasks (tasksByService c) sid c)).
Proof.
  intros Hk Hs Hg. unfold TaskTallies.
  set (f := λ tallies g, _). set (y := Some _).
  assert (∀ g m, s_ID g = sid → f m g !! sid = y) as Hhit.
  { intros g m Hid. subst f. cbn beta. rewrite Hid, Hs, (Hk _ _ Hs). by rewrite lookup_insert_eq. }
  assert (∀ g m, m !! sid = y → f m g !! sid = y) as Hkeep.
  { intros g m Hm. destruct (decide (s_ID g = sid)); [by apply Hhit|]. subst f. cbn beta.
    destruct (services c !! s_ID g) as [s'|] eqn:Eg; [|done].
    rewrite (Hk _ _ Eg). by rewrite lookup_insert_ne. }
  assert (∀ l m, m !! sid = y → foldl f m l !! sid = y) as Hkeeps
    by (intros l; induction l as [|g l IH]; intros m Hm; [done|]; by apply IH, Hkeep).
  generalize (∅ : gmap string TaskTally) as m. induction Hg as [g l Hid|g l Hg IH]; intros m; simpl; [|apply IH].
  by apply Hkeeps, Hhit.
Qed.

(** * Properties *)

(** Whatever order Go ranges over its maps in, every list is its map's
    values in key order, the task lists in order of slot and ID; the tasks of a
    service or a node are those of the task list; and a scan meets what the list
    holds, in the same order. *)
Theorem lists_in_order `{MapRange} start c (Hr : reachable start c) :
  (∀ T (r : ResourceMap T), List r c = Some (values_by_key (items r c))) ∧
  (∀ T S (r : ResourceMap T) (yield : S → T → S * bool) s,
     Each r yield s c = scan yield s (values_by_key (items r c))) ∧
  ListServices c = Some (values_by_key (services c)) ∧
  (∀ S (yield : S → Service → S * bool) s,
     EachService yield s c = scan yield s (values_by_key (services c))) ∧
  ListTasks c = Some (tasks_in_order c) ∧
  (∀ S (yield : S → Task → S * bool) s, EachTask yield s c = scan yield s (tasks_in_order c)) ∧
  ∀ id, id ≠ "" →
    ListTasksByService c id = filter (λ t, t_ServiceID t = id) (tasks_in_order c) ∧
    ListTasksByNode c id = filter (λ t, t_NodeID t = id) (tasks_in_order c).
Proof.
  pose proof (reachable_ok start c Hr) as [].
  split; [intros T r; apply List_values|]. split; [intros; apply Each_order|].
  split; [by apply ListServices_values|]. split.
  { intros S yield s. unfold EachService. by rewrite sorted_keys_values by apply range_perm. }
  split; [by apply ListTasks_values|]. split; [intros; by apply EachTask_order|].
  intros id Hid. split; by apply indexed_in_order.
Qed.

(** the counts of a service's tasks agree however they are taken: through
    the index, in one pass over all tasks, or in a tally, and each is the number
    of the service's tasks that count. *)
Theorem tallies_agree `{MapRange} start c sid (Hr : reachable start c) (Hsid : sid ≠ "") :
  let of_service f := length (filter (λ t, f t = true) (filter (λ t, t_ServiceID t = sid) (tasks_in_order c))) in
  RunningTaskCount c sid = of_service CountsAsRunningReplica ∧
  default 0 (RunningTaskCounts c !! sid) = of_service CountsAsRunningReplica ∧
  ∀ s, services c !! sid = Some s →
    CompletedJobTaskCount c sid = of_service (CountsAsJobCompletion s) ∧
    default 0 (CompletedJobTaskCounts c !! sid) = of_service (CountsAsJobCompletion s) ∧
    ∀ given, Exists (λ g, s_ID g = sid) given →
      TaskTallies c given !! sid = Some (mkTally (of_service CountsAsRunningReplica)
        (of_service (CountsAsJobCompletion s)) (of_service (countsAsJobFailure s))).
Proof.
  pose proof (reachable_ok start c Hr) as Hok. intros of_service.
  assert (∀ f, of_service f =
    length (filter (λ t, f t = true) (filter (λ t, t_ServiceID t = sid) (map_to_list (tasks c)).*2))) as Hof
    by (intros f; subst of_service; apply counts_perm; unfold tasks_in_order; by rewrite SortFunc_perm).
  rewrite Hof. split; [by apply indexed_count|]. split; [apply scan_count|].
  intros s Hs. rewrite !Hof. split; [unfold CompletedJobTaskCount; rewrite Hs; by apply indexed_count|].
  split.
  - unfold CompletedJobTaskCounts.
    pose (f t := match services c !! t_ServiceID t with Some s => CountsAsJobCompletion s t | None => false end).
    transitivity (default 0 (foldl (λ m t, if f t then count_at m (t_ServiceID t) else m) ∅ (range (tasks c)).*2 !! sid)).
    { do 2 f_equal. generalize (∅ : gmap string nat) as m. induction (range (tasks c)).*2 as [|t l IH]; intros m; [done|].
      simpl. rewrite IH. subst f. simpl. by destruct (services c !! t_ServiceID t). }
    rewrite scan_count. f_equal. rewrite !list_filter_filter. apply list_filter_iff. intros t. subst f. simpl.
    split; intros [Hf <-]; (split; [|done]); rewrite Hs in *; done.
  - intros given Hg. rewrite (TaskTallies_lookup c given sid s) by (done || apply Hok).
    rewrite foldl_tally. simpl. by rewrite !indexed_count.
Qed.

Lemma lists_in_order_witness :
  reachable (H := map_range_std) 0 demo_cache ∧
  ListTasks (H := map_range_std) demo_cache = Some [demo_task] ∧
  ListTasksByService (H := map_range_std) demo_cache "s1" = filter (λ t, t_ServiceID t = "s1") [demo_task].
Proof.
  pose proof (@lists_in_order map_range_std 0 demo_cache demo_reachable) as (_ & _ & _ & _ & Ht & _ & Hby).
  split; [exact demo_reachable|]. split; [exact Ht|]. exact (proj1 (Hby "s1" ltac:(done))).
Defined.

Lemma tallies_agree_witness :
  reachable (H := map_range_std) 0 demo_cache ∧ "s1" ≠ "" ∧
  RunningTaskCount (H := map_range_std) demo_cache "s1" = 1.
Proof.
  split; [exact demo_reachable|]. split; [done|].
  exact (proj1 (@tallies_agree map_range_std 0 demo_cache "s1" demo_reachable ltac:(done))).
Defined.
