(* ===== verification/CacheResolver.v ===== *)
(** The cache as the evaluator's resolver: internal/cache/resolver.go behind
    acl.ResourceResolver. It discharges what the evaluator relies on of one. *)
From S2P Require Import Prelude GoStrings AclPolicy AclEvaluator CacheState CacheStacks CacheIndex CacheOps Cache CacheProps.
#[local] Open Scope string_scope.
#[local] Open Scope nat_scope.

Definition cache_resolver `{MapRange} (c : Cache) : ResourceResolver :=
  mkResolver (CacheOps.StackOf c) (CacheOps.ServiceOfTask c).

Lemma StackOf_sound `{MapRange} c ty name :
  cache_ok c → services c !! "" = None → CacheOps.StackOf c ty name ≠ "" →
  ∃ l, named_labels c ty name l ∧ label_of l = CacheOps.StackOf c ty name.
Proof.
  intros Hok Hempty. destruct (decide (ty = "service")) as [->|Hty].
  - destruct (StackOf_service c name Hok) as [(id & s & Hs & Hn & ->)|[_ [->|[s Hs]]]]; [|done|congruence].
    intros _. exists (s_Labels s). split; [|done]. left. eauto 6.
  - unfold CacheOps.StackOf. rewrite bool_decide_eq_false_2 by done.
    repeat (case_bool_decide; [subst ty|]); [..|by intros []]; clear Hty.
    + destruct (label_by_name_sound c_Name c_Labels (configs c) name) as [(id & v & Hv & Hn & ->)|[_ ->]]; [|done].
      intros _. exists (c_Labels v). split; [|done]. right; left. eauto 6.
    + destruct (label_by_name_sound x_Name x_Labels (secrets c) name) as [(id & v & Hv & Hn & ->)|[_ ->]]; [|done].
      intros _. exists (x_Labels v). split; [|done]. right; right; left. eauto 6.
    + destruct (label_by_name_sound w_Name w_Labels (networks c) name) as [(id & v & Hv & Hn & ->)|[_ ->]]; [|done].
      intros _. exists (w_Labels v). split; [|done]. do 3 right; left. eauto 6.
    + destruct (label_by_name_sound v_Name v_Labels (volumes c) name) as [(id & v & Hv & Hn & ->)|[_ ->]]; [|done].
      intros _. exists (v_Labels v). split; [|done]. do 4 right. eauto 6.
Qed.

#[global] Instance cache_stack_types `{MapRange} c : StackTypes (cache_resolver c).
Proof.
  intros t n. simpl. unfold CacheOps.StackOf.
  repeat (case_bool_decide; [subst t; intros _; set_solver|]). done.
Qed.

(** In a reachable cache a service's name resolves to the stack its label
    names; and whatever name of whatever type resolves to a stack, the cache
    holds a resource of that type and name labelled with it. *)
Theorem cache_resolves_stacks `{MapRange} start c (Hr : reachable start c)
    (Hids : services c !! "" = None) :
  (∀ id s, services c !! id = Some s →
     AclEvaluator.StackOf (cache_resolver c) "service" (s_Name s) = label_of (s_Labels s)) ∧
  (∀ ty name, AclEvaluator.StackOf (cache_resolver c) ty name ≠ "" →
     ∃ l, named_labels c ty name l ∧ label_of l = AclEvaluator.StackOf (cache_resolver c) ty name).
Proof.
  pose proof (reachable_ok _ _ Hr) as Hok. split; simpl.
  - intros id s Hs. destruct (StackOf_service c (s_Name s) Hok) as [(id' & s' & Hs' & Hn & ->)|[Hno _]].
    + pose proof (names_match_functional _ _ (ix_name _ _ (ck_index _ Hok)) id' id s' s Hs' Hs Hn) as ->.
      congruence.
    + by destruct (Hno id s Hs).
  - intros ty name. by apply StackOf_sound.
Qed.

Lemma cache_resolves_stacks_witness :
  AclEvaluator.StackOf (cache_resolver (H := map_range_std) demo_cache) "service" "web" = "shop".
Proof.
  destruct (cache_resolves_stacks (H := map_range_std) 0 demo_cache demo_reachable) as [H1 _].
  - vm_compute. reflexivity.
  - apply (H1 "s1" demo_service). vm_compute. reflexivity.
Defined.
