(* ===== verification/Versions.v ===== *)
(** The versions of a config or a secret that rotation leaves behind:
    internal/versions/versions.go, how a listing shows them and the index of
    them in internal/cluster/versions.go. An item's creation time is an argument
    by its ID, as the cache does not look at it. *)
From S2P Require Import Prelude GoStrings GoStrconv SortedLists CacheState CacheStacks CacheIndex CacheOps CacheList Cache CacheProps CacheStore.
#[local] Open Scope string_scope.
#[local] Open Scope nat_scope.
#[local] Open Scope list_scope.

(** * Names *)

Definition Label : string := "cetacean.version-of".
Definition deploymentActionLabel : string := "com.matchory.deployment.name".

Definition declared (labels : Labels) : string :=
  let own := labels.[Label] in
  if is_empty own then labels.[deploymentActionLabel] else own.

Fixpoint all_bytes (p : ascii → bool) (s : string) : bool :=
  match s with "" => true | String c s' => p c && all_bytes p s' end.

Definition is_digit (c : ascii) : bool := (48 <=? nat_of_ascii c) && (nat_of_ascii c <=? 57).
Definition hex_letter (c : ascii) : bool :=
  let c := ascii_lower c in (97 <=? nat_of_ascii c) && (nat_of_ascii c <=? 102).
Definition is_separator (c : ascii) : bool := Ascii.eqb c "_" || Ascii.eqb c "-".

(** A hash of eight or more hex digits, one a letter. *)
Definition is_hash (s : string) : bool :=
  (8 <=? String.length s) && all_bytes (λ c, is_digit c || hex_letter c) s.

Definition is_v_number (s : string) : bool :=
  match s with
  | String c s' => Ascii.eqb (ascii_lower c) "v" && negb (is_empty s') && all_bytes is_digit s'
  | "" => false
  end.

(** The first match of [suffix]: what precedes it and its hash, if it is one. *)
Fixpoint find_suffix (s : string) : option (string * option string) :=
  match s with
  | "" => None
  | String c s' =>
      if is_separator c && is_hash s' then Some ("", Some s')
      else if is_separator c && is_v_number s' then Some ("", None)
      else '(before, hash) ← find_suffix s'; Some (String c before, hash)
  end.

Definition stripSuffix (name : string) : string :=
  match find_suffix name with
  | None => name
  | Some (before, Some hash) => if all_bytes (λ c, negb (hex_letter c)) hash then name else before
  | Some (before, None) => before
  end.

(** * Groups *)

Record Item := mkItem { it_ID : string; it_Name : string; it_Labels : Labels; it_Created : Z }.

#[global] Instance Item_eq_dec : EqDecision Item.
Proof. solve_decision. Defined.

Record GroupKey := mkGroupKey { gk_Stack : string; gk_Name : string }.

#[global] Instance GroupKey_eq_dec : EqDecision GroupKey.
Proof. solve_decision. Defined.
#[global] Instance GroupKey_countable : Countable GroupKey.
Proof.
  apply (inj_countable' (λ k, (gk_Stack k, gk_Name k)) (λ p, mkGroupKey p.1 p.2)). by intros [].
Defined.

(** The name less the prefix a stack deploy writes, the first that leaves one. *)
Fixpoint strip_stack (name stack : string) (separators : list string) : string :=
  match separators with
  | [] => name
  | separator :: separators =>
      match CutPrefix name (stack +:+ separator) with
      | Some rest => if is_empty rest then strip_stack name stack separators else rest
      | None => strip_stack name stack separators
      end
  end.

Definition Key (it : Item) : GroupKey :=
  let stack := (it_Labels it).[StackLabel] in
  let own := (it_Labels it).[Label] in
  let action := (it_Labels it).[deploymentActionLabel] in
  if is_empty own && negb (is_empty action) then mkGroupKey stack action else
  let name := if is_empty own then stripSuffix (it_Name it) else own in
  mkGroupKey stack (if is_empty stack then name else strip_stack name stack ["_"; "-"]).

Record Membership := mkMembership { Of : string; ms_Stack : string; Inferred : bool; Rank : nat; Count : nat }.

(** The newest first. *)
Definition item_cmp (a b : Item) : comparison :=
  cmp_or (Z.compare (it_Created b) (it_Created a)) (str_compare (it_ID b) (it_ID a)).

Definition group_by {A} (key : A → GroupKey) (l : list A) : gmap GroupKey (list A) :=
  foldl (λ m x, <[key x := default [] (m !! key x) ++ [x]]> m) ∅ l.

Definition members_of (k : GroupKey) (members : list Item) (out : gmap string Membership) : gmap string Membership :=
  if length members <? 2 then out else
  let members := SortFunc item_cmp members in
  let inferred := existsb (λ m, is_empty (declared (it_Labels m))) members in
  foldl (λ out '(rank, m), <[it_ID m := mkMembership (gk_Name k) (gk_Stack k) inferred rank (length members)]> out)
    out (imap pair members).

Definition Group `{MapRange} (items : list Item) : gmap string Membership :=
  foldl (λ out '(k, members), members_of k members out) ∅ (range (group_by Key items)).

Definition SecretItem (created : string → Z) (x : Secret) : Item := mkItem (x_ID x) (x_Name x) (x_Labels x) (created (x_ID x)).
Definition ConfigItem (created : string → Z) (c : Config) : Item := mkItem (c_ID c) (c_Name c) (c_Labels c) (created (c_ID c)).

(** * A caller's view *)

Record Version := mkVersion { vn_Of : string; vn_Inferred : bool; Newest : bool; InUse : bool; OlderVersions : nat }.

Record VersionGroups := mkGroups {
  vg_members : gmap string Membership;
  vg_inUse : gset string;
  vg_hidden : gmap GroupKey nat;
}.

Definition group_of (m : Membership) : GroupKey := mkGroupKey (ms_Stack m) (Of m).

Definition groupVersions `{MapRange} (items : list Item) (inUse : string → bool) : VersionGroups :=
  let members := Group items in
  foldl (λ g '(id, m),
    if Rank m =? 0 then g
    else if inUse id then mkGroups (vg_members g) ({[id]} ∪ vg_inUse g) (vg_hidden g)
    else mkGroups (vg_members g) (vg_inUse g)
           (<[group_of m := S (default 0 (vg_hidden g !! group_of m))]> (vg_hidden g)))
    (mkGroups members ∅ ∅) (range members).

Definition Version_ (g : VersionGroups) (id : string) : Version :=
  match vg_members g !! id with
  | None => mkVersion "" false true false 0
  | Some m =>
      let newest := Rank m =? 0 in
      mkVersion (Of m) (Inferred m) newest (bool_decide (id ∈ vg_inUse g))
        (if newest then default 0 (vg_hidden g !! group_of m) else 0)
  end.

Definition shown (g : VersionGroups) (id : string) : bool :=
  match vg_members g !! id with Some m => Rank m =? 0 | None => true end || bool_decide (id ∈ vg_inUse g).

Record VersionSelection := mkSelection { sel_All : bool; sel_Of : string }.

Record Narrowing := mkNarrowing { nr_Search : string; nr_Filter : string; nr_Label : string }.

Definition findsOlderVersions (n : Narrowing) : bool :=
  negb (is_empty (nr_Search n)) || negb (is_empty (nr_Filter n)) || negb (is_empty (nr_Label n)).

(** [None] is ErrUnknownVersions. *)
Definition ParseVersionSelection (versionsArg among : string) (n : Narrowing) : option VersionSelection :=
  if is_empty versionsArg then Some (mkSelection (findsOlderVersions n) among)
  else if bool_decide (versionsArg = "newest") then Some (mkSelection false among)
  else if bool_decide (versionsArg = "all") then Some (mkSelection true among)
  else None.

Definition rank_of (g : VersionGroups) (id : string) : nat :=
  match vg_members g !! id with Some m => Rank m | None => 0 end.

Definition SelectVersions {T} (items : list T) (id : T → string) (g : VersionGroups) (sel : VersionSelection) : list T :=
  if negb (is_empty (sel_Of sel)) then
    SortFunc (λ a b, Nat.compare (rank_of g (id a)) (rank_of g (id b)))
      (List.filter (λ item, bool_decide (id item = sel_Of sel) ||
         match vg_members g !! sel_Of sel, vg_members g !! id item with
         | Some target, Some m => bool_decide (Of m = Of target) && bool_decide (ms_Stack m = ms_Stack target)
         | _, _ => false
         end) items)
  else List.filter (λ item, sel_All sel || shown g (id item)) items.

Definition ServiceRefACLResource (ref : ServiceRef) : string := "service:" +:+ ref_Name ref.

Definition ReadableUsers (refs : list ServiceRef) (canRead : string → bool) : nat :=
  length (List.filter (λ ref, canRead (ServiceRefACLResource ref)) refs).

Definition inCurrentUse (users : string → list ServiceRef) (canRead : string → bool) (id : string) : bool :=
  existsb (λ ref, negb (Rollback ref) && canRead (ServiceRefACLResource ref)) (users id).

Record VersionFields := mkFields {
  vf_VersionOf : string; vf_Inferred : bool; vf_Newest : bool; vf_InUse : bool; vf_Older : nat; vf_UsedBy : nat;
}.

Definition Fields (v : Version) (usedBy : nat) : VersionFields :=
  mkFields (vn_Of v) (vn_Inferred v) (Newest v) (InUse v) (OlderVersions v) usedBy.

Record VersionView := mkView { vv_Groups : VersionGroups; vv_users : string → list ServiceRef; vv_canRead : string → bool }.

Definition ConfigVersionView `{MapRange} (created : string → Z) (c : Cache) (readable : list Config) (canRead : string → bool) : VersionView :=
  mkView (groupVersions (ConfigItem created <$> readable) (inCurrentUse (ServicesUsingConfig c) canRead))
    (ServicesUsingConfig c) canRead.

Definition SecretVersionView `{MapRange} (created : string → Z) (c : Cache) (readable : list Secret) (canRead : string → bool) : VersionView :=
  mkView (groupVersions (SecretItem created <$> readable) (inCurrentUse (ServicesUsingSecret c) canRead))
    (ServicesUsingSecret c) canRead.

Definition View_Fields (v : VersionView) (id : string) : VersionFields :=
  Fields (Version_ (vv_Groups v) id) (ReadableUsers (vv_users v id) (vv_canRead v)).

Definition VersionedConfigs (v : VersionView) (readable : list Config) (sel : VersionSelection) : list (Config * VersionFields) :=
  (λ cfg, (cfg, View_Fields v (c_ID cfg))) <$> SelectVersions readable c_ID (vv_Groups v) sel.

Definition VersionedSecrets (v : VersionView) (readable : list Secret) (sel : VersionSelection) : list (Secret * VersionFields) :=
  (λ sec, (sec, View_Fields v (x_ID sec))) <$> SelectVersions readable x_ID (vv_Groups v) sel.

(** * The index *)

Record VersionRef := mkVersionRef { vr_ID : string; vr_Name : string }.
Abbreviation RefGroups := (gmap GroupKey (list VersionRef)).

Definition ref_of (it : Item) : VersionRef := mkVersionRef (it_ID it) (it_Name it).

Definition groupsOf (items : list Item) : RefGroups := (λ l : list Item, (ref_of <$> l) : list VersionRef) <$> group_by Key items.

(** The last event's answer: of which event, and what. *)
Record touchedMemo := mkTouched {
  tm_historyID : Z; tm_typ : EventType; tm_id : string; tm_action : string;
  tm_configs : list VersionRef; tm_secrets : list VersionRef;
}.

Record VersionIndex := mkIndex {
  built : bool;
  vi_generation : Z;
  vi_configs : RefGroups;
  vi_secrets : RefGroups;
  vi_touched : option touchedMemo;
}.

Definition NewVersionIndex : VersionIndex := mkIndex false 0 ∅ ∅ None.

Section index.
Context `{MapRange} (created : string → Z).

(** Each, gathered. *)
Definition collect {T} (r : ResourceMap T) (c : Cache) : list T := Each r (λ l x, (l ++ [x], true)) [] c.

Definition config_groups (c : Cache) : RefGroups := groupsOf (ConfigItem created <$> collect configs_map c).
Definition secret_groups (c : Cache) : RefGroups := groupsOf (SecretItem created <$> collect secrets_map c).

(** Whole, as one reader sees it when nothing is written meanwhile. *)
Definition current (c : Cache) (x : VersionIndex) : RefGroups * RefGroups * VersionIndex :=
  if built x && (vi_generation x =? versionGeneration c)%Z then (vi_configs x, vi_secrets x, x) else
  let x := mkIndex true (versionGeneration c) (config_groups c) (secret_groups c) (vi_touched x) in
  (vi_configs x, vi_secrets x, x).

Definition siblings {A} (id : A → string) (get : string → option A) (self : A) (refs : list VersionRef)
    (kind : string) (canRead : string → bool) : list A :=
  self :: omap (λ ref,
    if bool_decide (vr_ID ref = id self) || negb (canRead (kind +:+ ":" +:+ vr_Name ref)) then None
    else get (vr_ID ref)) refs.

Definition ConfigVersion (c : Cache) (x : VersionIndex) (cfg : Config) (canRead : string → bool) : Version :=
  let '(groups, _, _) := current c x in
  let refs := default [] (groups !! Key (ConfigItem created cfg)) in
  let all := siblings c_ID (λ id, configs c !! id) cfg refs "config" canRead in
  Version_ (groupVersions (ConfigItem created <$> all) (inCurrentUse (ServicesUsingConfig c) canRead)) (c_ID cfg).

Definition SecretVersion (c : Cache) (x : VersionIndex) (sec : Secret) (canRead : string → bool) : Version :=
  let '(_, groups, _) := current c x in
  let refs := default [] (groups !! Key (SecretItem created sec)) in
  let all := siblings x_ID (λ id, secrets c !! id) sec refs "secret" canRead in
  Version_ (groupVersions (SecretItem created <$> all) (inCurrentUse (ServicesUsingSecret c) canRead)) (x_ID sec).

(** Each group once, without the one asked about. *)
Fixpoint touched (groups : RefGroups) (id : string) (keys seen : list GroupKey) : list VersionRef :=
  match keys with
  | [] => []
  | key :: keys =>
      (if bool_decide (key ∈ seen) then []
       else List.filter (λ ref, negb (bool_decide (vr_ID ref = id))) (default [] (groups !! key))) ++
      touched groups id keys (key :: seen)
  end.

Definition record_of (c : Cache) (e : Event) : Resource :=
  match Type_ e with
  | EventConfig => match configs c !! e_ID e with Some v => RConfig v | None => RNone end
  | EventSecret => match secrets c !! e_ID e with Some v => RSecret v | None => RNone end
  | _ => RNone
  end.

Definition digestsTouchedBy (c : Cache) (x : VersionIndex) (e : Event) : list VersionRef * list VersionRef * VersionIndex :=
  let resource := if bool_decide (Action e = "ref_changed") then record_of c e else Resource_ e in
  match resource with
  | RConfig v =>
      let '(all, _, x) := current c x in
      let previous := match Previous e with RConfig p => [Key (ConfigItem created p)] | _ => [] end in
      (touched all (c_ID v) (Key (ConfigItem created v) :: previous) [], [], x)
  | RSecret v =>
      let '(_, all, x) := current c x in
      let previous := match Previous e with RSecret p => [Key (SecretItem created p)] | _ => [] end in
      ([], touched all (x_ID v) (Key (SecretItem created v) :: previous) [], x)
  | _ => ([], [], x)
  end.

Definition DigestsTouchedBy (c : Cache) (x : VersionIndex) (e : Event) (historyID : Z)
    : list VersionRef * list VersionRef * VersionIndex :=
  if (historyID =? 0)%Z then digestsTouchedBy c x e else
  match vi_touched x with
  | Some m =>
      if (tm_historyID m =? historyID)%Z && bool_decide (tm_typ m = Type_ e) && bool_decide (tm_id m = e_ID e) &&
         bool_decide (tm_action m = Action e)
      then (tm_configs m, tm_secrets m, x)
      else
        let '(configs, secrets, x) := digestsTouchedBy c x e in
        (configs, secrets, mkIndex (built x) (vi_generation x) (vi_configs x) (vi_secrets x)
           (Some (mkTouched historyID (Type_ e) (e_ID e) (Action e) configs secrets)))
  | None =>
      let '(configs, secrets, x) := digestsTouchedBy c x e in
      (configs, secrets, mkIndex (built x) (vi_generation x) (vi_configs x) (vi_secrets x)
         (Some (mkTouched historyID (Type_ e) (e_ID e) (Action e) configs secrets)))
  end.

Definition TouchesDigest (c : Cache) (x : VersionIndex) (e : Event) (historyID : Z) (typ : EventType) (id : string) : bool :=
  if negb (bool_decide (Type_ e = EventConfig)) && negb (bool_decide (Type_ e = EventSecret)) then false else
  let '(configs, secrets, _) := DigestsTouchedBy c x e historyID in
  existsb (λ ref, bool_decide (vr_ID ref = id)) (if bool_decide (typ = EventSecret) then secrets else configs).
End index.

(** * Facts *)

(** Inserting pairs of which none contradicts another. *)
Lemma insert_all_lookup {A} (kvs : list (string * A)) id v :
  (∀ k x y, (k, x) ∈ kvs → (k, y) ∈ kvs → x = y) →
  foldl (λ m kv, <[kv.1 := kv.2]> m) (∅ : gmap string A) kvs !! id = Some v ↔ (id, v) ∈ kvs.
Proof.
  induction kvs as [|[k x] kvs IH] using rev_ind; intros Hdet.
  { cbn. rewrite lookup_empty. split; [done|by intros ?%not_elem_of_nil]. }
  rewrite foldl_snoc. cbn. rewrite elem_of_app, list_elem_of_singleton. destruct (decide (k = id)) as [->|Hne].
  - rewrite lookup_insert_eq. split; [intros [= ->]; by right|]. intros [Hin|[= ->]]; [|done].
    f_equal. apply (Hdet id); apply elem_of_app; [right; by left|by left].
  - rewrite lookup_insert_ne by done. rewrite IH by (intros k' y z Hy Hz; apply (Hdet k'); apply elem_of_app; by left). naive_solver.
Qed.

Lemma sorted_rank {A} (cmp : A → A → comparison) `{!Compare cmp} l i x :
  StronglySorted (cmp_le cmp) l → (∀ y z, y ∈ l → z ∈ l → cmp y z = Eq → y = z) → NoDup l → l !! i = Some x →
  i = length (filter (λ y, cmp y x = Lt) l).
Proof.
  intros Hs Heq Hnd. revert i. induction l as [|y l IH]; [done|]. intros i Hi.
  apply StronglySorted_inv in Hs as [Hs Hall]. apply NoDup_cons in Hnd as [Hy Hnd]. rewrite Forall_forall in Hall.
  assert (∀ y z, y ∈ l → z ∈ l → cmp y z = Eq → y = z) as Heq' by (intros ????; apply Heq; by right).
  destruct i as [|i]; cbn in Hi.
  - injection Hi as ->. rewrite filter_none; [done|]. intros z [->|Hz]%elem_of_cons; [by rewrite (cmp_refl cmp x)|]. specialize (Hall z Hz). unfold cmp_le in Hall. rewrite (cmp_antisym (cmp := cmp)). by destruct (cmp x z).
  - rewrite filter_cons. assert (x ∈ l) as Hx by (by apply list_elem_of_lookup_2 in Hi).
    pose proof (Hall x Hx) as Hle. destruct (decide (cmp y x = Lt)) as [E|E]; [cbn; f_equal; by apply IH|].
    unfold cmp_le in Hle. assert (cmp y x = Eq) as ->%Heq by (by destruct (cmp y x)); [done|by left|by right].
Qed.

Lemma group_by_lookup {A} (key : A → GroupKey) l k :
  group_by key l !! k = match filter (λ x, key x = k) l with [] => None | members => Some members end.
Proof.
  unfold group_by. induction l as [|x l IH] using rev_ind; [done|]. rewrite foldl_snoc, filter_app, filter_cons, filter_nil.
  destruct (decide (key x = k)) as [->|Hne].
  - rewrite lookup_insert_eq, IH. by destruct (filter _ l).
  - by rewrite lookup_insert_ne, IH, app_nil_r by done.
Qed.

#[global] Instance item_cmp_laws : Compare item_cmp.
Proof. apply compare_or; [apply (flip_compare (λ a b, Z.compare (it_Created a) (it_Created b)))|apply (flip_compare (λ a b, str_compare (it_ID a) (it_ID b)))]; apply _. Qed.

(** The items sharing an item's key, and those of them newer than it. *)
Definition version_group (items : list Item) (it : Item) : list Item := filter (λ x, Key x = Key it) items.
Definition newer (group : list Item) (it : Item) : list Item := filter (λ x, item_cmp x it = Lt) group.

Definition membership (items : list Item) (it : Item) : Membership :=
  let group := version_group items it in
  mkMembership (gk_Name (Key it)) (gk_Stack (Key it)) (existsb (λ m, is_empty (declared (it_Labels m))) group)
    (length (newer group it)) (length group).

Lemma ids_unique items x y : NoDup (it_ID <$> items) → x ∈ items → y ∈ items → it_ID x = it_ID y → x = y.
Proof.
  intros Hnd [i Hi]%list_elem_of_lookup [j Hj]%list_elem_of_lookup E.
  assert (i = j) as -> by (eapply NoDup_lookup; [exact Hnd|rewrite list_lookup_fmap, Hi; done|by rewrite list_lookup_fmap, Hj, E]).
  congruence.
Qed.

Lemma item_cmp_Eq items x y : NoDup (it_ID <$> items) → x ∈ items → y ∈ items → item_cmp x y = Eq → x = y.
Proof. intros Hnd Hx Hy [_ E%str_compare_eq]%cmp_or_eq. by eapply ids_unique. Qed.

(** The pairs [members_of] inserts. *)
Definition placed (kms : GroupKey * list Item) : list (string * Membership) :=
  let '(k, members) := kms in
  if length members <? 2 then [] else
  let members := SortFunc item_cmp members in
  let inferred := existsb (λ m, is_empty (declared (it_Labels m))) members in
  (λ '(rank, m), (it_ID m, mkMembership (gk_Name k) (gk_Stack k) inferred rank (length members))) <$> imap pair members.

Lemma members_of_placed k members out :
  members_of k members out = foldl (λ m kv, <[kv.1 := kv.2]> m) out (placed (k, members)).
Proof.
  unfold members_of, placed. destruct (length members <? 2); [done|].
  generalize (imap pair (SortFunc item_cmp members)). intros l. revert out. induction l as [|[rank m] l IH]; intros out; [done|].
  apply IH.
Qed.

Lemma Group_placed `{MapRange} items :
  Group items = foldl (λ m kv, <[kv.1 := kv.2]> m) ∅ (range (group_by Key items) ≫= placed).
Proof.
  unfold Group. generalize (∅ : gmap string Membership). induction (range _) as [|[k ms] l IH]; [done|]. intros out.
  cbn [foldl]. rewrite bind_cons, foldl_app, <- members_of_placed. apply IH.
Qed.

Lemma elem_of_placed `{MapRange} items id m : NoDup (it_ID <$> items) →
  (id, m) ∈ (range (group_by Key items) ≫= placed) ↔
  ∃ it, it ∈ items ∧ it_ID it = id ∧ 2 ≤ length (version_group items it) ∧ m = membership items it.
Proof.
  intros Hnd. rewrite list_elem_of_bind.
  assert (∀ it members, it ∈ members → members = version_group items it →
    (2 ≤ length members → ∃ rank, SortFunc item_cmp members !! rank = Some it) ∧
    ∀ rank, SortFunc item_cmp members !! rank = Some it → rank = length (newer members it)) as Hsort.
  { intros it members Hin ->. split.
    - intros _. apply list_elem_of_lookup. by rewrite SortFunc_perm.
    - intros rank Hr. unfold newer. rewrite <- (SortFunc_perm item_cmp (version_group items it)).
      apply (sorted_rank item_cmp); [apply SortFunc_sorted, _| | |done].
      + intros y z Hy Hz. rewrite SortFunc_perm in Hy, Hz. apply list_elem_of_filter in Hy as [_ Hy], Hz as [_ Hz].
        by apply (item_cmp_Eq items).
      + rewrite SortFunc_perm. apply NoDup_filter. by apply NoDup_fmap_1 in Hnd. }
  assert (∀ l : list Item, existsb (λ m, is_empty (declared (it_Labels m))) (SortFunc item_cmp l) =
    existsb (λ m, is_empty (declared (it_Labels m))) l) as Hex.
  { intros l. apply eq_true_iff_eq. rewrite !existsb_exists. setoid_rewrite <- list_elem_of_In. by setoid_rewrite SortFunc_perm. }
  split.
  - intros ([k members] & Hin & Hk%elem_of_range). rewrite group_by_lookup in Hk.
    assert (members = filter (λ x, Key x = k) items) as -> by (by destruct (filter _ items); simplify_eq).
    cbn [placed] in Hin. destruct (Nat.ltb_spec (length (filter (λ x, Key x = k) items)) 2); [by apply not_elem_of_nil in Hin|].
    apply list_elem_of_fmap in Hin as ([rank it] & E & Hin). apply elem_of_lookup_imap in Hin as (? & ? & [= <- <-] & Hr). injection E as -> ->.
    assert (it ∈ filter (λ x, Key x = k) items) as Hit by (rewrite <- (SortFunc_perm item_cmp); by eapply list_elem_of_lookup_2).
    pose proof Hit as [Hk' Hi]%list_elem_of_filter. subst k. exists it. split_and!; [done..|].
    unfold membership. rewrite Hex. f_equal; [by apply (proj2 (Hsort _ _ Hit eq_refl))|].
    by rewrite SortFunc_perm.
  - intros (it & Hi & <- & Hlen & ->). exists (Key it, version_group items it).
    assert (it ∈ version_group items it) as Hit by (by apply list_elem_of_filter).
    destruct (Hsort it _ Hit eq_refl) as [Hr Hrank]. destruct (Hr Hlen) as [rank Hlook]. split.
    + cbn [placed]. destruct (Nat.ltb_spec (length (version_group items it)) 2); [lia|]. apply list_elem_of_fmap.
      exists (rank, it). split; [|apply elem_of_lookup_imap; eauto]. unfold membership. rewrite Hex. do 2 f_equal; [|by rewrite SortFunc_perm].
      symmetry. by apply Hrank.
    + apply elem_of_range. rewrite group_by_lookup. fold (version_group items it).
      destruct (version_group items it); [by apply not_elem_of_nil in Hit|done].
Qed.

Lemma Group_exact `{MapRange} items id m : NoDup (it_ID <$> items) →
  Group items !! id = Some m ↔
  ∃ it, it ∈ items ∧ it_ID it = id ∧ 2 ≤ length (version_group items it) ∧ m = membership items it.
Proof.
  intros Hnd. rewrite Group_placed, insert_all_lookup, elem_of_placed by first [done|intros k x y;
    rewrite !elem_of_placed by done; intros (a & Ha & Ea & _ & ->) (b & Hb & Eb & _ & ->);
    f_equal; apply (ids_unique items); congruence || done]. done.
Qed.

(** ** Listings *)

Section listing.
Context `{MapRange} (items : list Item) (inUse : string → bool).
Hypothesis Hnd : NoDup (it_ID <$> items).

Lemma groupVersions_fields :
  let g := groupVersions items inUse in
  vg_members g = Group items ∧
  (∀ id, id ∈ vg_inUse g ↔ ∃ m, Group items !! id = Some m ∧ Rank m ≠ 0 ∧ inUse id = true) ∧
  (∀ k, default 0 (vg_hidden g !! k) =
    length (filter (λ p, Rank p.2 ≠ 0 ∧ inUse p.1 = false ∧ group_of p.2 = k) (range (Group items)))).
Proof using.
  cbn zeta. assert (∀ id m, Group items !! id = Some m ↔ (id, m) ∈ range (Group items)) as Hr by (intros; by rewrite elem_of_range).
  unfold groupVersions. setoid_rewrite Hr. generalize (range (Group items)). intros l. clear Hr.
  induction l as [|[id m] l (IH1 & IH2 & IH3)] using rev_ind.
  { cbn. split_and!; [done|intros id; split; [done|intros (? & ?%not_elem_of_nil & _); done]|intros k; by rewrite lookup_empty]. }
  rewrite foldl_snoc. set (g := foldl _ _ l) in *.
  assert (∀ id', (∃ m', (id', m') ∈ l ++ [(id, m)] ∧ Rank m' ≠ 0 ∧ inUse id' = true) ↔
    (∃ m', (id', m') ∈ l ∧ Rank m' ≠ 0 ∧ inUse id' = true) ∨ id' = id ∧ Rank m ≠ 0 ∧ inUse id = true) as Hin.
  { intros id'. setoid_rewrite elem_of_app. setoid_rewrite list_elem_of_singleton. naive_solver. }
  assert (∀ k, length (filter (λ p, Rank p.2 ≠ 0 ∧ inUse p.1 = false ∧ group_of p.2 = k) (l ++ [(id, m)])) =
    default 0 (vg_hidden g !! k) + if decide (Rank m ≠ 0 ∧ inUse id = false ∧ group_of m = k) then 1 else 0) as Hcount.
  { intros k. rewrite filter_app, length_app, IH3, filter_cons, filter_nil. cbn [fst snd]. by case_decide. }
  destruct (Nat.eqb_spec (Rank m) 0) as [Hz|Hz]; [|destruct (inUse id) eqn:Hu]; cbn [vg_members vg_inUse vg_hidden].
  - split_and!; [done| |].
    + intros id'. rewrite Hin, IH2. naive_solver.
    + intros k. rewrite Hcount, decide_False by naive_solver. lia.
  - split_and!; [done| |].
    + intros id'. rewrite Hin, elem_of_union, elem_of_singleton, IH2. naive_solver.
    + intros k. rewrite Hcount, decide_False by naive_solver. lia.
  - split_and!; [done| |].
    + intros id'. rewrite Hin, IH2. naive_solver.
    + intros k. rewrite Hcount. destruct (decide (group_of m = k)) as [->|Hne].
      * rewrite lookup_insert_eq, decide_True by done. cbn. lia.
      * rewrite lookup_insert_ne, decide_False by naive_solver. lia.
Qed.

Lemma newer_nil it x : it ∈ items → x ∈ version_group items it → length (newer (version_group items it) it) = 0 →
  x = it ∨ item_cmp it x = Lt.
Proof using Hnd.
  intros Hi Hx Hl. apply length_zero_iff_nil in Hl.
  assert (item_cmp x it ≠ Lt) as Hn.
  { intros E. assert (x ∈ newer (version_group items it) it) as Hm by (by apply list_elem_of_filter). rewrite Hl in Hm. by apply not_elem_of_nil in Hm. }
  rewrite (cmp_antisym (cmp := item_cmp)) in Hn. destruct (item_cmp it x) eqn:E; [|by right|done].
  apply list_elem_of_filter in Hx as [_ Hx]. left. symmetry. by eapply (item_cmp_Eq items).
Qed.

Lemma version_group_newest it : it ∈ items →
  ∃ n, n ∈ version_group items it ∧ length (newer (version_group items it) n) = 0.
Proof using Hnd.
  intros Hi. assert (it ∈ version_group items it) as Hit by (by apply list_elem_of_filter).
  destruct (SortFunc item_cmp (version_group items it)) as [|n l] eqn:E.
  { rewrite <- (SortFunc_perm item_cmp) in Hit. rewrite E in Hit. by apply not_elem_of_nil in Hit. }
  exists n. assert (n ∈ version_group items it) as Hn by (rewrite <- (SortFunc_perm item_cmp), E; by left). split; [done|].
  apply length_zero_iff_nil, filter_none. intros x Hx Hlt.
  rewrite <- (SortFunc_perm item_cmp), E in Hx. apply elem_of_cons in Hx as [->|Hx]; [by rewrite (cmp_refl item_cmp) in Hlt|].
  pose proof (SortFunc_sorted item_cmp (version_group items it)) as Hs. rewrite E in Hs.
  apply StronglySorted_inv in Hs as [_ Hall]. rewrite Forall_forall in Hall. specialize (Hall x Hx).
  unfold cmp_le in Hall. rewrite (cmp_antisym (cmp := item_cmp)), Hlt in Hall. done.
Qed.

Lemma version_group_key it x : x ∈ version_group items it → version_group items x = version_group items it.
Proof using. intros [E _]%list_elem_of_filter. unfold version_group. by rewrite E. Qed.

Lemma shown_iff it : it ∈ items →
  shown (groupVersions items inUse) (it_ID it) = true ↔
  length (newer (version_group items it) it) = 0 ∨ inUse (it_ID it) = true.
Proof using Hnd.
  intros Hi. destruct groupVersions_fields as (Hm & Hu & _). unfold shown. rewrite Hm, orb_true_iff, bool_decide_eq_true, Hu.
  destruct (Group items !! it_ID it) as [m|] eqn:E.
  - apply Group_exact in E as (it' & Hi' & Eid & Hlen & ->); [|done].
    assert (it' = it) as -> by (by apply (ids_unique items)). cbn [Rank membership].
    rewrite Nat.eqb_eq. split; [intros [?|(? & _ & _ & ?)]; auto|]. intros [?|?]; [auto|].
    destruct (decide (length (newer (version_group items it) it) = 0)); [auto|]. right. eexists. split_and!; done.
  - split; [intros _|auto]. left.
    assert (length (version_group items it) < 2) as Hlen.
    { apply Nat.nle_gt. intros Hlen. assert (Group items !! it_ID it = Some (membership items it)); [|congruence].
      apply Group_exact; eauto. }
    assert (it ∈ version_group items it) as Hit by (by apply list_elem_of_filter).
    destruct (version_group items it) as [|x [|]] eqn:Ev; cbn in Hlen; [done| |lia].
    apply list_elem_of_singleton in Hit as <-. unfold newer. rewrite filter_cons, (cmp_refl item_cmp). done.
Qed.

Lemma older_count it n : it ∈ items → n ∈ version_group items it → length (newer (version_group items it) n) = 0 →
  OlderVersions (Version_ (groupVersions items inUse) (it_ID n)) =
  length (filter (λ x, shown (groupVersions items inUse) (it_ID x) = false) (version_group items it)).
Proof using Hnd.
  intros Hi Hn Hnew. pose proof Hn as [Ek Hni]%list_elem_of_filter.
  destruct groupVersions_fields as (Hm & _ & Hh). unfold Version_. rewrite Hm.
  destruct (Group items !! it_ID n) as [m|] eqn:E; cbn [OlderVersions].
  - apply Group_exact in E as (n' & Hn' & Eid & Hlen & ->); [|done]. assert (n' = n) as -> by (by apply (ids_unique items)).
    cbn [Rank membership]. rewrite (version_group_key it n Hn), Hnew. cbn [Nat.eqb]. rewrite Hh.
    assert (∀ id m, (id, m) ∈ range (Group items) ↔ Group items !! id = Some m) as Hr by (intros; by rewrite elem_of_range).
    rewrite <- (length_fmap fst), <- (length_fmap it_ID (filter _ (version_group items it))). apply Permutation_length, NoDup_Permutation.
    + apply (NoDup_fmap_fst (filter _ (range (Group items)))).
      * intros id a b [_ Ha%Hr]%list_elem_of_filter [_ Hb%Hr]%list_elem_of_filter. congruence.
      * apply NoDup_filter. rewrite range_perm. apply NoDup_map_to_list.
    + assert (NoDup items) as Hnd' by (by apply NoDup_fmap_1 in Hnd).
      apply (NoDup_fmap_2_strong it_ID); [|by apply NoDup_filter, NoDup_filter].
      intros x y [_ [_ Hx]%list_elem_of_filter]%list_elem_of_filter [_ [_ Hy]%list_elem_of_filter]%list_elem_of_filter. by apply (ids_unique items).
    + intros id. rewrite !list_elem_of_fmap. split.
      * intros ([? m] & -> & [(Hrk & Hus & Eg) Hin%Hr]%list_elem_of_filter). cbn [fst snd] in *.
        apply Group_exact in Hin as (x & Hx & Eid' & Hlx & ->); [|done]. exists x. split; [done|].
        apply list_elem_of_filter. split.
        -- apply not_true_iff_false. rewrite shown_iff, Eid' by done. cbn [Rank membership] in Hrk. rewrite Hus. intros [?|?]; done.
        -- apply list_elem_of_filter. split; [|done]. unfold group_of, membership in Eg. cbn in Eg. rewrite <- Ek.
           destruct (Key x), (Key n); cbn in *. congruence.
      * intros (x & -> & [Hs Hxg]%list_elem_of_filter). pose proof Hxg as [Ex Hx]%list_elem_of_filter.
        apply not_true_iff_false in Hs. rewrite shown_iff in Hs by done.
        exists (it_ID x, membership items x). split; [done|]. apply list_elem_of_filter. cbn [fst snd Rank membership]. split.
        -- split_and!; [tauto|apply not_true_iff_false; tauto|]. unfold group_of, membership. cbn. rewrite Ex, Ek. by destruct (Key it).
        -- apply Hr, Group_exact; [done|]. exists x. split_and!; [done..| |done].
           rewrite (version_group_key it x Hxg), <- (version_group_key it n Hn). done.
  - assert (length (version_group items it) < 2) as Hlen.
    { apply Nat.nle_gt. intros Hlen. assert (Group items !! it_ID n = Some (membership items n)); [|congruence].
      apply Group_exact; [done|]. exists n. rewrite (version_group_key it n Hn). done. }
    destruct (version_group items it) as [|x [|]] eqn:Ev; cbn in Hlen; [by apply not_elem_of_nil in Hn| |lia].
    apply list_elem_of_singleton in Hn as ->. rewrite filter_cons, decide_False; [done|].
    assert (shown (groupVersions items inUse) (it_ID x) = true) as ->; [|done]. apply shown_iff; [done|]. left.
    assert (x ∈ version_group items it) as Hx by (rewrite Ev; by left). rewrite (version_group_key it x Hx), Ev. done.
Qed.
End listing.

Lemma filter_ext_elem {A} (P Q : A → Prop) `{!∀ x, Decision (P x), !∀ x, Decision (Q x)} (l : list A) :
  (∀ x, x ∈ l → P x ↔ Q x) → filter P l = filter Q l.
Proof.
  induction l as [|x l IH]; [done|]. intros Hpq. rewrite !filter_cons, IH by (intros; apply Hpq; by right).
  pose proof (Hpq x ltac:(by left)). repeat case_decide; tauto.
Qed.

(** C25: a default listing of configs or secrets accounts for every version it
    leaves out. Each item's group has one newest version, the last created and
    of the greater ID on a tie; an item is listed exactly when it is that
    version or a readable service's current spec uses it; and the newest is
    listed with the number of its group's versions that are not. *)
Theorem listing_accounts `{MapRange} items inUse it : NoDup (it_ID <$> items) → it ∈ items →
  let g := groupVersions items inUse in
  let listed := SelectVersions items it_ID g (mkSelection false "") in
  ∃ newest, newest ∈ listed ∧ Key newest = Key it ∧
    (∀ x, x ∈ items → Key x = Key it → x = newest ∨ item_cmp newest x = Lt) ∧
    (it ∈ listed ↔ it = newest ∨ inUse (it_ID it) = true) ∧
    OlderVersions (Version_ g (it_ID newest)) = length (filter (λ x, Key x = Key it ∧ x ∉ listed) items).
Proof.
  intros Hnd Hi g listed.
  assert (∀ x, x ∈ listed ↔ x ∈ items ∧ shown g (it_ID x) = true) as Hl.
  { intros x. unfold listed, SelectVersions. cbn [sel_Of sel_All is_empty negb orb].
    rewrite list_elem_of_In, filter_In, <- list_elem_of_In. done. }
  destruct (version_group_newest items Hnd it Hi) as (n & Hn & Hz). pose proof Hn as [Ek Hni]%list_elem_of_filter.
  pose proof (version_group_key items it n Hn) as Eg.
  assert (∀ x, x ∈ items → Key x = Key it → x = n ∨ item_cmp n x = Lt) as Hnew.
  { intros x Hx Ex. apply (newer_nil items Hnd n x Hni); rewrite Eg; [by apply list_elem_of_filter|done]. }
  assert (length (newer (version_group items it) it) = 0 ↔ it = n) as Hit.
  { split; [|by intros ->]. intros H0. destruct (Hnew it Hi eq_refl) as [?|Hlt]; [done|].
    apply length_zero_iff_nil in H0. assert (n ∈ newer (version_group items it) it) as Hin by (by apply list_elem_of_filter).
    rewrite H0 in Hin. by apply not_elem_of_nil in Hin. }
  exists n. split_and!; [|done|done| |].
  - apply Hl. split; [done|]. apply shown_iff; [done..|]. left. by rewrite Eg.
  - rewrite Hl, <- Hit. pose proof (shown_iff items inUse Hnd it Hi). unfold g. tauto.
  - unfold g. rewrite (older_count items inUse Hnd it n Hi Hn Hz). unfold version_group. rewrite list_filter_filter. f_equal.
    apply filter_ext_elem. intros x Hx. rewrite Hl. fold g. rewrite <- not_true_iff_false. tauto.
Qed.

#[local] Existing Instance map_range_std.

Definition demo_items : list Item :=
  [mkItem "a" "web_tls_1a2b3c4d" {[ StackLabel := "web" ]} 10; mkItem "b" "web_tls-v2" {[ StackLabel := "web" ]} 20;
   mkItem "c" "tls_0123abcd" {[ StackLabel := "web" ]} 30; mkItem "d" "worker_1" ∅ 40].

Lemma listing_accounts_witness :
  NoDup (it_ID <$> demo_items) ∧
  let g := groupVersions demo_items (λ id, bool_decide (id = "b")) in
  let listed := SelectVersions demo_items it_ID g (mkSelection false "") in
  it_ID <$> listed = ["b"; "c"; "d"] ∧
  ∃ newest, newest ∈ listed ∧ Key newest = Key (mkItem "a" "web_tls_1a2b3c4d" {[ StackLabel := "web" ]} 10) ∧
    (∀ x, x ∈ demo_items → Key x = Key (mkItem "a" "web_tls_1a2b3c4d" {[ StackLabel := "web" ]} 10) → x = newest ∨ item_cmp newest x = Lt) ∧
    (mkItem "a" "web_tls_1a2b3c4d" {[ StackLabel := "web" ]} 10 ∈ listed ↔
      mkItem "a" "web_tls_1a2b3c4d" {[ StackLabel := "web" ]} 10 = newest ∨ bool_decide ("a" = "b") = true) ∧
    OlderVersions (Version_ g (it_ID newest)) =
      length (filter (λ x, Key x = Key (mkItem "a" "web_tls_1a2b3c4d" {[ StackLabel := "web" ]} 10) ∧ x ∉ listed) demo_items).
Proof.
  assert (NoDup (it_ID <$> demo_items)) as Hnd by (apply (bool_decide_unpack _); vm_compute; exact I).
  split; [exact Hnd|]. split; [vm_compute; reflexivity|].
  apply (listing_accounts demo_items (λ id, bool_decide (id = "b")) (mkItem "a" "web_tls_1a2b3c4d" {[ StackLabel := "web" ]} 10) Hnd).
  left.
Defined.

(** What is a version stamp and what is a name. *)
Example suffixes_stripped :
  stripSuffix <$> ["tls_1a2b3c4d"; "tls-V12"; "backup_20240101"; "worker_1"; "tls_1a2b3c"; "_v1"] =
  ["tls"; "tls"; "backup_20240101"; "worker_1"; "tls_1a2b3c"; ""].
Proof. vm_compute. reflexivity. Qed.

(** ** The index beside the cache's writers *)

(** Whether the notification of an event counts a change of the versions. *)
Definition counts_version (e : Event) : bool :=
  match Type_ e with
  | EventConfig | EventSecret => bool_decide (Action e ≠ "ref_changed")
  | EventSync => true
  | _ => false
  end.

(** How far the reader that rebuilds the index is: it has read the generation,
    and then the configs. *)
Inductive progress := Reading_configs (g : Z) | Reading_secrets (g : Z) (configs : RefGroups).

Record world := mkWorld {
  w_cache : Cache;
  pending : list Event;
  index : VersionIndex;
  rebuilding : option progress;
}.

Section interleaving.
Context `{MapRange} (created : string → Z).

(** A write's critical section, a notification of one, and what [current]
    does under its lock: reads the generation, and when it is not the index's
    the configs and then the secrets. *)
Inductive step : world → world → Prop :=
| step_write o c es x b :
    step (mkWorld c es x b) (mkWorld (section o c).1 (es ++ (section o c).2) x b)
| step_notify c es1 e es2 x b :
    step (mkWorld c (es1 ++ e :: es2) x b) (mkWorld (notify c e).1 (es1 ++ es2) x b)
| step_generation c es x :
    built x && (vi_generation x =? versionGeneration c)%Z = false →
    step (mkWorld c es x None) (mkWorld c es x (Some (Reading_configs (versionGeneration c))))
| step_configs c es x g :
    step (mkWorld c es x (Some (Reading_configs g))) (mkWorld c es x (Some (Reading_secrets g (config_groups created c))))
| step_secrets c es x g configs :
    step (mkWorld c es x (Some (Reading_secrets g configs)))
      (mkWorld c es (mkIndex true g configs (secret_groups created c) (vi_touched x)) None).

(** Runs of [n] steps. *)
Inductive run (start : Z) : nat → world → Prop :=
| run_start : run start 0 (mkWorld (New start) [] NewVersionIndex None)
| run_step n w w' : run start n w → step w w' → run start (S n) w'.

Lemma collect_values {T} (r : ResourceMap T) c : collect r c = values_by_key (items r c).
Proof.
  unfold collect. rewrite Each_order. generalize (values_by_key (items r c)). intros l.
  assert (∀ acc, scan (λ l x, (l ++ [x], true)) acc l = acc ++ l) as Hs; [|by rewrite Hs].
  induction l as [|x l IH]; intros acc; [by rewrite app_nil_r|]. cbn. by rewrite IH, <- app_assoc.
Qed.

Lemma config_groups_same c c' : configs c' = configs c → config_groups created c' = config_groups created c.
Proof. intros E. unfold config_groups. rewrite !collect_values. cbn. by rewrite E. Qed.

Lemma secret_groups_same c c' : secrets c' = secrets c → secret_groups created c' = secret_groups created c.
Proof. intros E. unfold secret_groups. rewrite !collect_values. cbn. by rewrite E. Qed.

(** A write that changes the configs or the secrets leaves an event that
    counts. *)
Lemma section_counts o c : Exists (λ e, counts_version e = true) (section o c).2 ∨
  configs (section o c).1 = configs c ∧ secrets (section o c).1 = secrets c.
Proof.
  destruct (decide (Exists (λ e, counts_version e = true) (section o c).2)) as [He|He]; [by left|right].
  assert (∀ k i, k = EventConfig ∨ k = EventSecret → held (section o c).1 k i = held c k i) as Hh.
  { intros k i Hk. apply dec_stable. intros Hne. apply He.
    assert (¬ quiet_op o c → Exists (λ e, counts_version e = true) (section o c).2) as Htold.
    { intros Hq. eapply Exists_impl; [by apply (section_told o c k i)|]. intros e (Et & _ & Ha). unfold counts_version. rewrite Et.
      destruct Hk as [-> | ->]; destruct (held c _ i), (held _ _ i); destruct Ha as [-> _] || destruct Ha; done. }
    destruct o as [| | | |t now| | | | | | | | | | | |data now]; try (apply Htold; by intros []).
    - destruct Hne. cbn [section]. rewrite SetTask_held. unfold set_effect, at_key. cbn. by destruct Hk as [-> | ->].
    - cbn. unfold ReplaceAll. repeat case_match; by left. }
  split; apply map_eq; intros i.
  - specialize (Hh EventConfig i (or_introl eq_refl)). cbn in Hh. destruct (configs _ !! i), (configs c !! i); cbn in Hh; congruence.
  - specialize (Hh EventSecret i (or_intror eq_refl)). cbn in Hh. destruct (secrets _ !! i), (secrets c !! i); cbn in Hh; congruence.
Qed.

Lemma notify_counts c e :
  configs (notify c e).1 = configs c ∧ secrets (notify c e).1 = secrets c ∧
  versionGeneration (notify c e).1 =
    (if counts_version e then wrap 64 (versionGeneration c + 1) else versionGeneration c)%Z.
Proof. unfold notify, counts_version. by repeat case_match. Qed.

Lemma addToStack_generation k id labels c : versionGeneration (addToStack k id labels c) = versionGeneration c.
Proof. by rewrite addToStack_set. Qed.

Lemma removeFromStack_generation k id labels c : versionGeneration (removeFromStack k id labels c) = versionGeneration c.
Proof. by rewrite removeFromStack_set. Qed.

(** A map of the cache whose hooks leave the counters alone. *)
Record counters_kept {T} (r : ResourceMap T) : Prop := {
  ck_put c m : versionGeneration (put r c m) = versionGeneration c;
  ck_set hook old v c : onSet r = Some hook → versionGeneration (hook old v c).2 = versionGeneration c;
  ck_delete hook v c : onDelete r = Some hook → versionGeneration (hook v c) = versionGeneration c;
}.

Lemma rm_set_generation {T} (r : ResourceMap T) key v c :
  counters_kept r → versionGeneration (rm_set r key v c).2 = versionGeneration c.
Proof.
  intros Hr. unfold rm_set. destruct (onSet r) as [hook|] eqn:E; [|apply (ck_put _ Hr)].
  pose proof (ck_set _ Hr hook (items r c !! key) v c E). destruct (hook _ _ _). cbn in *. by rewrite (ck_put _ Hr).
Qed.

Lemma Set_generation {T} (r : ResourceMap T) key v ty c :
  counters_kept r → versionGeneration (Set_ r key v ty c).1 = versionGeneration c.
Proof.
  intros Hr. unfold Set_. destruct (older _ _ _); [done|]. pose proof (rm_set_generation r key v c Hr). by destruct (rm_set _ _ _ _).
Qed.

Lemma Add_generation {T} (r : ResourceMap T) key v ty c :
  counters_kept r → versionGeneration (Add r key v ty c).1 = versionGeneration c.
Proof.
  intros Hr. unfold Add. destruct (items r c !! key); [done|]. pose proof (rm_set_generation r key v c Hr). by destruct (rm_set _ _ _ _).
Qed.

Lemma Delete_generation {T} (r : ResourceMap T) key ty c :
  counters_kept r → versionGeneration (Delete_ r key ty c).1 = versionGeneration c.
Proof.
  intros Hr. unfold Delete_, del. destruct (items r c !! key) as [old|]; cbn; rewrite (ck_put _ Hr); [|done].
  destruct (onDelete r) as [hook|] eqn:E; [by apply (ck_delete _ Hr)|done].
Qed.

Lemma hooks_kept {T} (r : ResourceMap T) ty (id : T → string) labels clean :
  (∀ c m, versionGeneration (put r c m) = versionGeneration c) →
  onSet r = Some (stack_onSet ty id labels clean) → onDelete r = Some (stack_onDelete ty id labels) → counters_kept r.
Proof.
  intros Hp Hs Hd. split; [done| |].
  - intros hook old v c E. rewrite Hs in E. injection E as <-. unfold stack_onSet. cbn. rewrite addToStack_generation.
    destruct old; [apply removeFromStack_generation|done].
  - intros hook v c E. rewrite Hd in E. injection E as <-. apply removeFromStack_generation.
Qed.

Lemma ReplaceAll_generation data now c : versionGeneration (ReplaceAll data now c).1 = versionGeneration c.
Proof.
  unfold ReplaceAll. set (c1 := match f_Nodes data with Some l => _ | None => c end).
  set (c2 := match f_Services data with Some l => _ | None => c1 end).
  assert (versionGeneration c2 = versionGeneration c) as H2.
  { trans (versionGeneration c1); [|unfold c1; by destruct (f_Nodes data)]. unfold c2. destruct (f_Services data) as [l|]; [|done].
    unfold sync_services. cbn. generalize (range (services c1)). intros kvs. generalize c1. induction kvs as [|[id old] kvs IH]; intros d; [done|].
    cbn. rewrite IH. by repeat case_match. }
  set (r := match f_Tasks data with Some l => _ | None => _ end).
  assert (versionGeneration r.1.1 = versionGeneration c) as H3.
  { rewrite <- H2. unfold r. destruct (f_Tasks data); [|done]. unfold sync_tasks. by destruct (foldl _ _ _) as [[] ?]. }
  destruct r as [[c3 failures] backfilled]. cbn in H3 |- *. rewrite <- H3. unfold sync_maps. by repeat case_match.
Qed.

Lemma section_generation o c : versionGeneration (section o c).1 = versionGeneration c.
Proof.
  assert (counters_kept nodes_map) as Hn by done.
  assert (counters_kept configs_map) as Hc by (by eapply hooks_kept).
  assert (counters_kept secrets_map) as Hs by (by eapply hooks_kept).
  assert (counters_kept networks_map) as Hw by (by eapply hooks_kept).
  assert (counters_kept volumes_map) as Hv by (by eapply hooks_kept).
  destruct o; cbn [section];
    auto using Set_generation, Add_generation, Delete_generation, ReplaceAll_generation.
  - by destruct (SetService_set s c) as [[-> _]|(_ & st & ix & ->)].
  - destruct (DeleteService_unfold id c) as (gone & rt & ->). by destruct (without_service_set id c) as (st & ix & ->).
  - by destruct (SetTask_set t now c) as [[-> _]|(_ & bs & bn & rt & ->)].
  - unfold DeleteTask. destruct (tasks c !! id); [case_bool_decide|]; done.
Qed.

(** What was read at generation [g] is what the cache holds, unless a change
    is still to be counted. *)
Definition read_at (w : world) (g : Z) (fresh : Prop) : Prop :=
  (g ≤ versionGeneration (w_cache w))%Z ∧
  (g = versionGeneration (w_cache w) → fresh ∨ Exists (λ e, counts_version e = true) (pending w)).

Record world_ok (n : nat) (w : world) : Prop := {
  wo_generation : (0 ≤ versionGeneration (w_cache w) ≤ Z.of_nat n)%Z;
  wo_index : built (index w) = true → read_at w (vi_generation (index w))
    (vi_configs (index w) = config_groups created (w_cache w) ∧ vi_secrets (index w) = secret_groups created (w_cache w));
  wo_rebuilding : match rebuilding w with
    | Some (Reading_configs g) => read_at w g True
    | Some (Reading_secrets g configs) => read_at w g (configs = config_groups created (w_cache w))
    | None => True
    end;
}.

Lemma read_at_write o c es x b g fresh fresh' :
  read_at (mkWorld c es x b) g fresh → (fresh → configs (section o c).1 = configs c ∧ secrets (section o c).1 = secrets c → fresh') →
  read_at (mkWorld (section o c).1 (es ++ (section o c).2) x b) g fresh'.
Proof.
  intros [Hle Hat] Hf. unfold read_at in *. cbn [w_cache pending] in *. rewrite section_generation. split; [done|]. intros E.
  rewrite Exists_app. destruct (Hat E) as [Hfr|He]; [|auto]. destruct (section_counts o c) as [He|Hsame]; [auto|]. left. by apply Hf.
Qed.

Lemma read_at_notify c es1 e es2 x b g fresh fresh' n :
  (0 ≤ versionGeneration c ≤ Z.of_nat n)%Z → (Z.of_nat n < 2 ^ 64 - 1)%Z →
  read_at (mkWorld c (es1 ++ e :: es2) x b) g fresh → (fresh → fresh') →
  read_at (mkWorld (notify c e).1 (es1 ++ es2) x b) g fresh'.
Proof.
  intros Hn Hlt [Hle Hat] Hf. unfold read_at in *. cbn [w_cache pending] in *.
  destruct (notify_counts c e) as (_ & _ & ->). destruct (counts_version e) eqn:Ec.
  - unfold wrap. rewrite Z.mod_small by lia. split; [lia|]. intros ->. lia.
  - split; [done|]. intros E. destruct (Hat E) as [?|He]; [auto|]. right.
    rewrite Exists_app, Exists_cons in He. rewrite Exists_app. destruct He as [?|[?|?]]; [auto|congruence|auto].
Qed.

Lemma world_run_ok start n w : (Z.of_nat n < 2 ^ 64)%Z → run start n w → world_ok n w.
Proof.
  intros Hn Hrun. induction Hrun as [|n w w' Hrun IH Hs]; [by split|].
  assert (Z.of_nat n < 2 ^ 64)%Z as Hn' by lia. specialize (IH Hn'). destruct IH as [Hg Hi Hr].
  destruct Hs as [o c es x b|c es1 e es2 x b|c es x Hold|c es x g|c es x g cfgs]; cbn [w_cache pending index rebuilding] in *.
  - split; cbn [w_cache index rebuilding].
    + rewrite section_generation. lia.
    + intros Hb. eapply read_at_write; [by apply Hi|]. intros [-> ->] [Ec Ex].
      by rewrite (config_groups_same _ _ Ec), (secret_groups_same _ _ Ex).
    + destruct b as [[g|g cfgs]|]; [..|done]; (eapply read_at_write; [exact Hr|]); [done|].
      intros -> [Ec _]. by rewrite (config_groups_same _ _ Ec).
  - destruct (notify_counts c e) as (Ec & Ex & Eg). split; cbn [w_cache index rebuilding].
    + rewrite Eg. destruct (counts_version e); [|lia]. unfold wrap. rewrite Z.mod_small; lia.
    + intros Hb. eapply read_at_notify; [done|lia|by apply Hi|].
      by rewrite (config_groups_same _ _ Ec), (secret_groups_same _ _ Ex).
    + destruct b as [[g|g cfgs]|]; [..|done]; (eapply read_at_notify; [done|lia|exact Hr|]); [done|].
      by rewrite (config_groups_same _ _ Ec).
  - split; [cbn; lia|done|]. split; [done|auto].
  - split; [cbn; lia|done|]. destruct Hr as [Hle Hat]. split; [done|]. auto.
  - split; [cbn; lia| |done]. intros _. destruct Hr as [Hle Hat]. split; [done|]. cbn. intros E. destruct (Hat E) as [->|?]; auto.
Qed.

End interleaving.

(** C24: a reader is never given stale versions by the index. In every
    interleaving of the cache's writes, their notifications and the readers
    that rebuild the index, once no change is left to be counted an index of
    the cache's generation holds exactly the groups of its configs and secrets:
    what a reader gets is what regrouping the cache afresh would give. *)
Theorem index_fresh `{MapRange} created start n w : (Z.of_nat n < 2 ^ 64)%Z → run created start n w →
  Forall (λ e, counts_version e = false) (pending w) →
  current created (w_cache w) (index w) =
    (config_groups created (w_cache w), secret_groups created (w_cache w), (current created (w_cache w) (index w)).2).
Proof.
  intros Hn Hrun Hp. destruct (world_run_ok created start n w Hn Hrun) as [_ Hi _]. unfold current.
  destruct (built (index w)) eqn:Eb; [|done]. destruct (Z.eqb_spec (vi_generation (index w)) (versionGeneration (w_cache w))) as [E|]; [|done].
  destruct (proj2 (Hi eq_refl) E) as [[-> ->]|He]; [done|]. exfalso.
  apply Exists_exists in He as (e & Hin & He). rewrite Forall_forall in Hp. by rewrite (Hp e Hin) in He.
Qed.

Definition demo_write : op := OpSetConfig (mkConfig "c1" 1 "tls_v1" ∅).

Definition demo_written : Cache := (section demo_write (New 0)).1.
Definition demo_event : Event := mkEvent EventConfig "create" "c1" "tls_v1" (RConfig (mkConfig "c1" 1 "tls_v1" ∅)) RNone "" "".
Definition demo_notified : Cache := (notify demo_written demo_event).1.

Definition demo_created (id : string) : Z := 0.

Definition demo_indexed : world :=
  mkWorld demo_notified []
    (mkIndex true (versionGeneration demo_notified) (config_groups demo_created demo_notified)
       (secret_groups demo_created demo_notified) None) None.

Lemma demo_world_run : run demo_created 0 5 demo_indexed.
Proof.
  eapply run_step; [eapply run_step; [eapply run_step; [eapply run_step; [eapply run_step; [apply run_start|]|]|]|]|].
  - apply (step_write demo_created demo_write).
  - apply (step_notify demo_created demo_written [] demo_event []).
  - apply step_generation. reflexivity.
  - apply step_configs.
  - apply step_secrets.
Qed.

Lemma index_fresh_witness :
  config_groups demo_created demo_notified ≠ ∅ ∧
  run demo_created 0 5 demo_indexed ∧
  current demo_created (w_cache demo_indexed) (index demo_indexed) =
    (config_groups demo_created (w_cache demo_indexed), secret_groups demo_created (w_cache demo_indexed),
     (current demo_created (w_cache demo_indexed) (index demo_indexed)).2).
Proof.
  split; [intros E; apply (f_equal size) in E; vm_compute in E; discriminate E|]. split; [exact demo_world_run|].
  apply (index_fresh demo_created 0 5 demo_indexed); [vm_compute; reflexivity|exact demo_world_run|constructor].
Defined.
