(* ===== verification/Resolve.v ===== *)
(** Resolving an ID or a name to a resource: internal/cache/resolve.go,
    internal/cluster/resolve.go and lookup.go, with the names enrich.go and
    acl.go give tasks and nodes. A task's creation time, which the cache does
    not look at, is an argument by the task's ID. *)
From S2P Require Import Prelude GoStrings GoStrconv CacheState CacheStacks CacheIndex CacheOps CacheList CacheProps Cache.
#[local] Open Scope string_scope.
#[local] Open Scope list_scope.

(** What resolving answers: AmbiguousNameError is the third. *)
Inductive resolved (A : Type) :=
| Found (x : A)
| Missing
| Ambiguous (name : string) (ids : list string).
Arguments Found {A} _.
Arguments Missing {A}.
Arguments Ambiguous {A} _ _.



(** AmbiguousNameError's Error. [%q] of the name is an argument. *)
Definition AmbiguousNameError_Error (quote : string → string) (name : string) (ids : list string) : string :=
  let ids := SortStrings ids in
  quote name +:+ " is ambiguous: it names " +:+ Itoa (Z.of_nat (length ids)) +:+
    " resources (" +:+ Join ids ", " +:+ "); use an ID instead".

Definition resolveIn `{MapRange} {A} (items : gmap string A) (identifier : string)
    (nameOf : A → string) : resolved A :=
  match items !! identifier with
  | Some found => Found found
  | None =>
      match filter (λ kv, nameOf kv.2 = identifier) (range items) with
      | [] => Missing
      | [(_, x)] => Found x
      | matched => Ambiguous identifier matched.*1
      end
  end.

Definition ResolveService `{MapRange} (c : Cache) (identifier : string) : resolved Service :=
  resolveIn (services c) identifier s_Name.
Definition ResolveNode `{MapRange} (c : Cache) (identifier : string) : resolved Node :=
  resolveIn (nodes c) identifier n_Hostname.
Definition ResolveConfig `{MapRange} (c : Cache) (identifier : string) : resolved Config :=
  resolveIn (configs c) identifier c_Name.
Definition ResolveSecret `{MapRange} (c : Cache) (identifier : string) : resolved Secret :=
  resolveIn (secrets c) identifier x_Name.
Definition ResolveNetwork `{MapRange} (c : Cache) (identifier : string) : resolved Network :=
  resolveIn (networks c) identifier w_Name.

(** * Tasks *)

Definition TaskName (task : Task) (service : option Service) : string :=
  match service with
  | None => t_ID task
  | Some s =>
      if m_Global (s_Mode s) && negb (is_empty (t_NodeID task)) then s_Name s +:+ "." +:+ t_NodeID task
      else if m_Global (s_Mode s) then s_Name s
      else s_Name s +:+ "." +:+ Itoa (t_Slot task)
  end.

(** strings.CutLast at a byte. *)
Fixpoint CutLast (s : string) (c : ascii) : option (string * string) :=
  match s with
  | "" => None
  | String d s' =>
      match CutLast s' c with
      | Some (before, after) => Some (String d before, after)
      | None => if Ascii.eqb d c then Some ("", s') else None
      end
  end.

Section resolve.
Context `{MapRange} (created : string → Z).

(** The newest of a service's live tasks of a name, the first on a tie. *)
Definition newest_named (identifier : string) (service : Service) (tasks : list Task) : option Task :=
  foldl (λ match_ task,
    if TaskIsLive task && bool_decide (TaskName task (Some service) = identifier) &&
       match match_ with None => true | Some m => time_after (created (t_ID task)) (created (t_ID m)) end
    then Some task else match_) None tasks.

Definition ResolveTask (c : Cache) (identifier : string) : resolved Task :=
  match tasks c !! identifier with
  | Some task => Found task
  | None =>
      let serviceName := match CutLast identifier "." with Some (before, _) => before | None => identifier end in
      match ResolveService c serviceName with
      | Ambiguous name ids => Ambiguous name ids
      | Missing => Missing
      | Found service =>
          match newest_named identifier service (ListTasksByService c (s_ID service)) with
          | Some task => Found task
          | None => Missing
          end
      end
  end.

(** [None] of canRead reads all. *)
Definition ResolveTaskAs (c : Cache) (identifier : string) (canRead : option (string → bool)) : resolved Task :=
  match ResolveTask c identifier with
  | Found task =>
      match canRead with
      | None => Found task
      | Some canRead =>
          if bool_decide (t_ID task = identifier) then Found task else
          match services c !! t_ServiceID task with
          | Some svc => if canRead ("service:" +:+ s_Name svc) then Found task else Missing
          | None => Missing
          end
      end
  | r => r
  end.

(** * Records *)

Record record_ := mkRecord {
  rec_Kind : string;
  rec_ID : string;
  rec_Name : string;
  rec_Version : Z;
  rec_write : string;
}.

Definition Resource_of (r : record_) : string := rec_Kind r +:+ ":" +:+ rec_Name r.

Definition WriteResource (r : record_) : string :=
  if is_empty (rec_write r) then Resource_of r else rec_write r.

Definition NodeACLName (n : Node) : string :=
  if is_empty (n_Hostname n) then n_ID n else n_Hostname n.

Definition NodeRecord (n : Node) : record_ := mkRecord "node" (n_ID n) (NodeACLName n) (n_Version n) "".

Definition TaskRecord (c : Cache) (task : Task) : record_ :=
  mkRecord "task" (t_ID task) (t_ID task) (t_Version task)
    match services c !! t_ServiceID task with
    | Some svc => if is_empty (s_Name svc) then "" else "service:" +:+ s_Name svc
    | None => ""
    end.

Definition record_map {A} (f : A → record_) (r : resolved A) : resolved record_ :=
  match r with Found x => Found (f x) | Missing => Missing | Ambiguous name ids => Ambiguous name ids end.

Definition held {A} (x : option A) (r : record_) : resolved record_ :=
  match x with Some _ => Found r | None => Missing end.

Definition LookupAs (c : Cache) (kind ident : string) (canRead : option (string → bool)) : resolved record_ :=
  if bool_decide (kind = "service") then
    record_map (λ s, mkRecord kind (s_ID s) (s_Name s) (s_Version s) "") (ResolveService c ident)
  else if bool_decide (kind = "node") then record_map NodeRecord (ResolveNode c ident)
  else if bool_decide (kind = "task") then record_map (TaskRecord c) (ResolveTaskAs c ident canRead)
  else if bool_decide (kind = "config") then
    record_map (λ x, mkRecord kind (c_ID x) (c_Name x) (c_Version x) "") (ResolveConfig c ident)
  else if bool_decide (kind = "secret") then
    record_map (λ x, mkRecord kind (x_ID x) (x_Name x) (x_Version x) "") (ResolveSecret c ident)
  else if bool_decide (kind = "network") then
    record_map (λ x, mkRecord kind (w_ID x) (w_Name x) 0 "") (ResolveNetwork c ident)
  else if bool_decide (kind = "stack") then held (stacks c !! ident) (mkRecord kind ident ident 0 "")
  else if bool_decide (kind = "volume") then held (volumes c !! ident) (mkRecord kind ident ident 0 "")
  else Missing.

(** * Identifiers *)

Definition identifierKinds : list string :=
  ["service"; "node"; "config"; "secret"; "network"; "task"].

(** The loop of resolveAcrossTypes: [inl] answers the identifier as it is. *)
Fixpoint across (c : Cache) (identifier : string) (canRead : option (string → bool))
    (kinds : list string) (resolved_ : string) : unit + string :=
  match kinds with
  | [] => inr resolved_
  | kind :: kinds =>
      match LookupAs c kind identifier canRead with
      | Ambiguous _ _ => inl tt
      | Missing => across c identifier canRead kinds resolved_
      | Found record =>
          if negb (is_empty resolved_) && negb (bool_decide (resolved_ = rec_ID record)) then inl tt
          else across c identifier canRead kinds (rec_ID record)
      end
  end.

Definition resolveAcrossTypes (c : Cache) (identifier : string) (canRead : option (string → bool)) : string :=
  match across c identifier canRead identifierKinds "" with
  | inl _ => identifier
  | inr id => if is_empty id then identifier else id
  end.

(** The canonical ID, or the error of an ambiguous name. *)
Definition ResolveIdentifier (c : Cache) (resourceType identifier : string)
    (canRead : option (string → bool)) : (string * list string) + string :=
  if is_empty identifier then inr identifier else
  if is_empty resourceType then inr (resolveAcrossTypes c identifier canRead) else
  if negb (bool_decide (resourceType ∈ identifierKinds)) then inr identifier else
  match LookupAs c resourceType identifier canRead with
  | Found record => inr (rec_ID record)
  | Missing => inr identifier
  | Ambiguous name ids => inl (name, ids)
  end.
End resolve.

(** * What resolving answers *)

Lemma elem_of_matches `{MapRange} {A} (items : gmap string A) (P : A → Prop) `{!∀ x, Decision (P x)} id x :
  (id, x) ∈ filter (λ kv, P kv.2) (range items) ↔ items !! id = Some x ∧ P x.
Proof. rewrite list_elem_of_filter, elem_of_range. tauto. Qed.

Lemma NoDup_matches `{MapRange} {A} (items : gmap string A) (P : A → Prop) `{!∀ x, Decision (P x)} :
  NoDup (filter (λ kv, P kv.2) (range items)).*1.
Proof.
  pose proof (NoDup_range items) as Hn. revert Hn. generalize (range items) as l.
  induction l as [|[k x] l IH]; intros Hn; [constructor|].
  cbn in Hn. apply NoDup_cons in Hn as [Hk Hn]. rewrite filter_cons. cbn.
  case_decide; [|by apply IH]. cbn. apply NoDup_cons. split; [|by apply IH].
  intros ([k' y] & -> & [_ Hy]%list_elem_of_filter)%list_elem_of_fmap. apply Hk.
  apply list_elem_of_fmap. by exists (k', y).
Qed.

(** An identifier resolves to the resource it is the ID of, and otherwise
    to the only one it is the name of: it is missing when it is neither, and
    ambiguous, naming exactly the resources it is the name of, when several
    have it. The order the map is ranged in has no say. *)
Theorem resolve_exact `{MapRange} {A} (items : gmap string A) ident (nameOf : A → string) :
  (∀ x, resolveIn items ident nameOf = Found x ↔
     items !! ident = Some x ∨
     items !! ident = None ∧ ∃ id, ∀ id' x', items !! id' = Some x' ∧ nameOf x' = ident ↔ id' = id ∧ x' = x) ∧
  (resolveIn items ident nameOf = Missing ↔
     items !! ident = None ∧ ∀ id x, items !! id = Some x → nameOf x ≠ ident) ∧
  (∀ name ids, resolveIn items ident nameOf = Ambiguous name ids →
     name = ident ∧ items !! ident = None ∧ NoDup ids ∧ (2 ≤ length ids)%nat ∧
     ∀ id, id ∈ ids ↔ ∃ x, items !! id = Some x ∧ nameOf x = ident).
Proof.
  unfold resolveIn.
  pose proof (elem_of_matches items (λ x, nameOf x = ident)) as Hin.
  pose proof (NoDup_matches items (λ x, nameOf x = ident)) as Hnd.
  destruct (items !! ident) as [y|] eqn:E.
  { split_and!; [|split; [done|by intros []]|done]. intros x. split; [intros [= ->]; by left|].
    intros [[= ->]|[[=] _]]. done. }
  destruct (filter _ (range items)) as [|[id x] [|[id2 x2] l]].
  - split_and!; [|split; [intros _; split; [done|]; intros id x Hx Hn; by destruct (proj1 (elem_of_nil _) (proj2 (Hin id x) (conj Hx Hn)))|done]|done].
    intros x. split; [done|]. intros [[=]|[_ [id Hid]]].
    by destruct (proj1 (elem_of_nil _) (proj2 (Hin id x) (proj2 (Hid id x) (conj eq_refl eq_refl)))).
  - split_and!; [| |done].
    + intros y. split.
      * intros [= <-]. right. split; [done|]. exists id. intros id' x'. rewrite <-Hin, list_elem_of_singleton. by split; [intros [= -> ->]|intros [-> ->]].
      * intros [[=]|[_ [i Hi]]]. assert ((i, y) ∈ [(id, x)]) as [= -> ->]%list_elem_of_singleton; [|done].
        apply Hin, Hi. done.
    + split; [done|]. intros [_ Hno]. destruct (proj1 (Hin id x) ltac:(by left)) as [Hx Hn]. by destruct (Hno id x).
  - split_and!.
    + intros y. split; [done|]. intros [[=]|[_ [i Hi]]].
      destruct (proj1 (Hi id x)) as [-> _]; [apply Hin; by left|].
      destruct (proj1 (Hi id2 x2)) as [-> _]; [apply Hin; right; by left|].
      simpl in Hnd. apply NoDup_cons in Hnd as [[]%not_elem_of_cons _]. done.
    + split; [done|]. intros [_ Hno]. destruct (proj1 (Hin id x) ltac:(by left)) as [Hx Hn]. by destruct (Hno id x).
    + intros name ids [= <- <-]. split_and!; [done|done|done|simpl; lia|].
      intros i. change (i ∈ ((id, x) :: (id2, x2) :: l).*1 ↔ ∃ y, items !! i = Some y ∧ nameOf y = ident).
      rewrite list_elem_of_fmap. split.
      * intros ([i' y] & -> & Hy). exists y. by apply Hin.
      * intros (y & Hy). exists (i, y). split; [done|by apply Hin].
Qed.

(** * Task names *)

Lemma CutLast_none s c : IndexByte s c = None → CutLast s c = None.
Proof.
  induction s as [|d s IH]; simpl; [done|]. destruct (Ascii.eqb d c); [done|].
  destruct (IndexByte s c); [done|]. intros _. by rewrite IH.
Qed.

Lemma CutLast_app a b c : IndexByte b c = None → CutLast (a +:+ String c b) c = Some (a, b).
Proof.
  intros Hb. induction a as [|d a IH]; simpl; [by rewrite CutLast_none, Ascii.eqb_refl|]. by rewrite IH.
Qed.

Lemma newest_named_spec created ident s l :
  match newest_named created ident s l with
  | None => ∀ t, t ∈ l → TaskIsLive t = true → TaskName t (Some s) ≠ ident
  | Some m =>
      m ∈ l ∧ TaskIsLive m = true ∧ TaskName m (Some s) = ident ∧
      ∀ t, t ∈ l → TaskIsLive t = true → TaskName t (Some s) = ident → (created (t_ID t) <= created (t_ID m))%Z
  end.
Proof.
  induction l as [|t l IH] using rev_ind; [by intros t ?%elem_of_nil|].
  unfold newest_named in *. rewrite foldl_app. cbn [foldl].
  destruct (foldl _ None l) as [m|]; set (cond := TaskIsLive t && _ && _).
  - destruct IH as (Hm & Hlive & Hname & Hmax). destruct cond eqn:E; unfold cond in E.
    + rewrite !andb_true_iff, bool_decide_eq_true in E. destruct E as [[? ?] Hnew].
      apply Z.ltb_lt in Hnew. split_and!; [set_solver|done|done|].
      intros u [Hu| ->%list_elem_of_singleton]%elem_of_app ? ?; [|lia]. specialize (Hmax u). lia || (pose proof (Hmax Hu ltac:(done) ltac:(done)); lia).
    + split_and!; [set_solver|done|done|].
      intros u [Hu| ->%list_elem_of_singleton]%elem_of_app Hul Hun; [by apply Hmax|].
      rewrite Hul, (bool_decide_true _ Hun) in E. simpl in E. apply Z.ltb_ge in E. done.
  - destruct cond eqn:E; unfold cond in E.
    + rewrite !andb_true_iff, bool_decide_eq_true in E. destruct E as [[? ?] _].
      split_and!; [set_solver|done|done|].
      intros u [Hu| ->%list_elem_of_singleton]%elem_of_app ? Hn; [|lia]. by destruct (IH u).
    + intros u [Hu| ->%list_elem_of_singleton]%elem_of_app Hul Hun; [by apply (IH u)|].
      by rewrite Hul, (bool_decide_true _ Hun) in E.
Qed.

(** A rendered name cuts back to the service's, unless the task is a global
    service's without a node and the service's name holds a dot. *)
Definition name_cuts (t : Task) (s : Service) : Prop :=
  if m_Global (s_Mode s) then
    if is_empty (t_NodeID t) then IndexByte (s_Name s) "." = None else IndexByte (t_NodeID t) "." = None
  else (0 <= t_Slot t)%Z.

Lemma name_cuts_back t s : name_cuts t s →
  match CutLast (TaskName t (Some s)) "." with
  | Some (before, _) => before
  | None => TaskName t (Some s)
  end = s_Name s.
Proof.
  unfold name_cuts, TaskName. destruct (m_Global (s_Mode s)); simpl.
  - destruct (is_empty (t_NodeID t)); simpl; intros Hd; [by rewrite CutLast_none|].
    change (s_Name s +:+ "." +:+ t_NodeID t) with (s_Name s +:+ String "." (t_NodeID t)). by rewrite CutLast_app.
  - intros Hslot. change (s_Name s +:+ "." +:+ Itoa (t_Slot t)) with (s_Name s +:+ String "." (Itoa (t_Slot t))).
    rewrite CutLast_app; [done|]. unfold Itoa. destruct (Z.ltb_spec (t_Slot t) 0); [lia|].
    by apply IndexByte_format.
Qed.

(** The name a live task is shown under finds it again: it resolves to a
    live task of that service and that name, and of several, as a start-first
    update leaves, to the newest. *)
Theorem task_name_roundtrip `{MapRange} created start c (Hr : reachable start c) s t
    (Hs : services c !! s_ID s = Some s) (Hid : s_ID s ≠ "")
    (Ht : tasks c !! t_ID t = Some t) (Hts : t_ServiceID t = s_ID s) (Hlive : TaskIsLive t = true)
    (Hcuts : name_cuts t s)
    (Hno : tasks c !! TaskName t (Some s) = None) (Hsno : services c !! s_Name s = None) :
  ∃ t', ResolveTask created c (TaskName t (Some s)) = Found t' ∧
    tasks c !! t_ID t' = Some t' ∧ t_ServiceID t' = s_ID s ∧ TaskIsLive t' = true ∧
    TaskName t' (Some s) = TaskName t (Some s) ∧
    ∀ u, tasks c !! t_ID u = Some u → t_ServiceID u = s_ID s → TaskIsLive u = true →
      TaskName u (Some s) = TaskName t (Some s) → (created (t_ID u) <= created (t_ID t'))%Z.
Proof.
  pose proof (reachable_ok _ _ Hr) as Hok. unfold ResolveTask. rewrite Hno, name_cuts_back by done.
  assert (ResolveService c (s_Name s) = Found s) as ->.
  { apply resolve_exact. right. split; [done|]. exists (s_ID s). intros id x. split; [|by intros [-> ->]].
    intros [Hx Hn]. pose proof (names_match_functional _ _ (ix_name _ _ (ck_index _ Hok)) id (s_ID s) x s Hx Hs Hn) as ->.
    by simplify_eq. }
  assert (∀ u, u ∈ ListTasksByService c (s_ID s) ↔ tasks c !! t_ID u = Some u ∧ t_ServiceID u = s_ID s) as Hin.
  { intros u. unfold ListTasksByService. rewrite SortFunc_perm.
    rewrite (elem_of_indexed_tasks t_ServiceID) by apply Hok. tauto. }
  pose proof (newest_named_spec created (TaskName t (Some s)) s (ListTasksByService c (s_ID s))) as Hspec.
  destruct (newest_named _ _ _ _) as [m|].
  - destruct Hspec as ([Hm1 Hm2]%Hin & ? & ? & Hmax). exists m. split_and!; try done.
    intros u ? ? ? ?. by apply Hmax; [apply Hin| |].
  - exfalso. by apply (Hspec t); [apply Hin| |].
Qed.

(** The exception: an unassigned task of a global service with a dot in its
    name is shown under the service's name, which is cut as if it held a slot. *)
Example dotted_global_not_found :
  let _ := map_range_std in
  let s := mkService "s1" 1 "a.b" ∅ (mkTaskSpec None []) None (mkServiceMode None true false false) None in
  let t := mkTask "t1" 1 "s1" "" "new" "running" "" "" 0 None 0 None in
  let c := set_tasks (set_services (New 0) {["s1" := s]}) {["t1" := t]} {["s1" := {["t1"]}]} ∅ in
  TaskName t (Some s) = "a.b" ∧ ResolveTask (λ _, 0%Z) c "a.b" = Missing.
Proof. vm_compute. done. Qed.

Lemma task_name_roundtrip_witness :
  ∃ t', ResolveTask (H := map_range_std) (λ _, 0%Z) demo_cache (TaskName demo_task (Some demo_service)) = Found t' ∧
    t_ServiceID t' = "s1".
Proof.
  destruct (task_name_roundtrip (H := map_range_std) (λ _, 0%Z) 0 demo_cache demo_reachable demo_service demo_task)
    as (t' & Ht' & _ & Hs & _).
  all: try (vm_compute; reflexivity).
  - done.
  - vm_compute. discriminate.
  - exists t'. split; [exact Ht'|]. rewrite Hs. reflexivity.
Defined.
