(* ===== verification/HostAccess.v ===== *)
(** What a change to a service may do: internal/cluster/hostaccess.go (mounts
    and capabilities that reach the host), heldchange.go (changes to what runs),
    attach.go, stacklabel.go, sections.go and the check of writes.go that joins
    them.

    Docker's spec is its own type: the records hold the fields this code reads,
    with the others as one opaque value where the code compares them. How
    encoding/json renders a value it compares by its encoding is an argument
    ([Encodings]); a placement, a port and a file target are their encodings. *)
From S2P Require Import Prelude GoStrings GoStrconv CacheState CacheStacks AclPolicy.
#[local] Open Scope string_scope.
#[local] Open Scope list_scope.

(** * Specs *)

Record BindOptions := mkBindOptions {
  Propagation : string;
  NonRecursive : bool;
  CreateMountpoint : bool;
  ReadOnlyNonRecursive : bool;
  ReadOnlyForceRecursive : bool;
}.

Record VolumeOptions := mkVolumeOptions { DriverConfig : option string; vo_rest : string }.

Record Mount := mkMount {
  mt_Type : string;
  mt_Source : string;
  mt_BindOptions : option BindOptions;
  mt_VolumeOptions : option VolumeOptions;
  mt_rest : string;
}.

#[global] Instance BindOptions_eq_dec : EqDecision BindOptions.
Proof. solve_decision. Defined.
#[global] Instance VolumeOptions_eq_dec : EqDecision VolumeOptions.
Proof. solve_decision. Defined.
#[global] Instance Mount_eq_dec : EqDecision Mount.
Proof. solve_decision. Defined.

(** A secret or config reference; the file target is its encoding. *)
Record Reference := mkReference { ref_id : string; ref_name : string; ref_file : option string }.

Record Attachment := mkAttachment { at_Target : string; at_Aliases : list string; at_rest : string }.

Record Container := mkContainer {
  Image : string;
  Command : list string;
  Args_ : list string;
  Dir : string;
  User : string;
  Groups : list string;
  Healthcheck : option (list string);      (* its test *)
  Secrets_ : list Reference;
  Configs_ : list Reference;
  Mounts : list Mount;
  Env : list string;
  CapabilityAdd : list string;
  ct_rest : string;
}.

Record ServiceSpec := mkSpec {
  sp_Labels : Labels;
  sp_Container : option Container;
  sp_Networks : list Attachment;
  sp_Placement : option string;
  sp_Ports : option (list string);         (* [None] for no endpoint spec *)
  sp_rest : string;
}.

Definition no_container : Container := mkContainer "" [] [] "" "" [] None [] [] [] [] [] "".

Definition containerOf (spec : ServiceSpec) : Container := default no_container (sp_Container spec).

Definition endpointPorts (spec : ServiceSpec) : list string := default [] (sp_Ports spec).

(** A stored volume, as far as its driver goes. *)
Record StoredVolume := mkStored { sv_Driver : string; sv_Options : gmap string string }.

Class Encodings := {
  mount_key : Mount → string;
  network_key : Attachment → string;
}.

(** The operations levels; what is compared is only their order. *)
Definition OpsReadOnly : Z := 0.
Definition OpsOperational : Z := 1.
Definition OpsConfiguration : Z := 2.
Definition OpsImpactful : Z := 3.

(** * Host access *)

Definition hostAccess `{Unicode} (m : Mount) (lookup : string → option StoredVolume) : string :=
  let ty := ToLower (mt_Type m) in
  if is_empty ty || bool_decide (ty = "bind") then "a bind mount of " +:+ mt_Source m
  else if bool_decide (ty = "npipe") then "a named pipe mount of " +:+ mt_Source m
  else if bool_decide (ty = "cluster") then "a cluster volume mount of " +:+ mt_Source m
  else if bool_decide (ty = "volume") then
    match mt_VolumeOptions m with
    | Some (mkVolumeOptions (Some _) _) =>
        if is_empty (mt_Source m) then "an anonymous volume mount with driver options"
        else "a volume mount of " +:+ mt_Source m +:+ " with driver options"
    | _ =>
        if is_empty (mt_Source m) then "" else
        match lookup (mt_Source m) with
        | None => "a mount of unknown volume " +:+ mt_Source m
        | Some stored =>
            if negb (bool_decide (sv_Driver stored = "local")) || negb (bool_decide (sv_Options stored = ∅))
            then "a volume mount of " +:+ mt_Source m +:+ " with driver options" else ""
        end
    end
  else "".

Definition withoutEmptyBindOptions (m : Mount) : Mount :=
  if bool_decide (mt_BindOptions m = Some (mkBindOptions "" false false false false)) then
    mkMount (mt_Type m) (mt_Source m) None (mt_VolumeOptions m) (mt_rest m)
  else m.

(** Why a change is refused. *)
Inductive refusal :=
| HostAccessError (what : string)
| AttachDeniedError (resource : string)
| StackLabelDeniedError (stack : string)
| ErrNoContainerSpec
| ChangeFailed (err : string).

Definition CheckMounts `{Unicode} (spec : ServiceSpec) (requested : list Mount)
    (lookup : string → option StoredVolume) (level : Z) : option refusal :=
  if (OpsImpactful <=? level)%Z then None else
  let current := match sp_Container spec with Some cs => Mounts cs | None => [] end in
  first_error (λ m,
    let what := hostAccess m lookup in
    if is_empty what then None else
    if existsb (λ c, bool_decide (withoutEmptyBindOptions c = withoutEmptyBindOptions m)) current then None
    else Some (HostAccessError what)) requested.

Definition CheckCapabilities (spec : ServiceSpec) (requested : list string) (level : Z) : option refusal :=
  if (OpsImpactful <=? level)%Z then None else
  let current := match sp_Container spec with Some cs => CapabilityAdd cs | None => [] end in
  first_error (λ capability,
    if bool_decide (capability ∈ current) then None
    else Some (HostAccessError ("adding the capability " +:+ capability))) requested.

(** The first way a spec's container reaches the host. *)
Definition specHostAccess `{Unicode} (spec : option ServiceSpec) (lookup : string → option StoredVolume) : string :=
  match spec with
  | Some spec =>
      match sp_Container spec with
      | None => ""
      | Some cs =>
          default (match CapabilityAdd cs with c :: _ => "the added capability " +:+ c | [] => "" end)
            (first_error (λ m, let what := hostAccess m lookup in if is_empty what then None else Some what) (Mounts cs))
      end
  | None => ""
  end.

(** A volume the manager does not hold is not presumed to reach the host. *)
Definition presumed_local (lookup : string → option StoredVolume) (name : string) : option StoredVolume :=
  Some (default (mkStored "local" ∅) (lookup name)).

(** A service as the checks read one. *)
Record HeldService := mkHeld { Spec : ServiceSpec; PreviousSpec : option ServiceSpec }.

Definition HeldHostAccess `{Unicode} (svc : HeldService) (rollback : bool)
    (lookup : string → option StoredVolume) : string :=
  let known := presumed_local lookup in
  let what := specHostAccess (Some (Spec svc)) known in
  if negb (is_empty what) then what
  else if rollback then specHostAccess (PreviousSpec svc) known else "".

Definition RollingBack : string := "rolling back".

Definition CheckHostAccessHeld `{Unicode} (svc : HeldService) (change : string)
    (lookup : string → option StoredVolume) (level : Z) : option refusal :=
  if (OpsImpactful <=? level)%Z || is_empty change then None else
  let what := HeldHostAccess svc (bool_decide (change = RollingBack)) lookup in
  if is_empty what then None else Some (HostAccessError (change +:+ " a service with " +:+ what)).

(** * Changes to what runs *)

Definition changed (same : bool) (what : string) : string := if same then "" else what.

(** Two lists as multisets of their keys. *)
Definition sameSet {A} (key : A → string) (before after : list A) : bool :=
  if negb (length before =? length after)%nat then false
  else bool_decide (SortStrings (key <$> before) = SortStrings (key <$> after)).

Definition CommandChange (before after : Container) : string :=
  changed (bool_decide (Command before = Command after) && bool_decide (Args_ before = Args_ after) &&
           bool_decide (Dir before = Dir after) && bool_decide (User before = User after) &&
           bool_decide (Groups before = Groups after)) "changing the command or user of".

Definition HealthcheckChange (before after : option (list string)) : string :=
  changed (bool_decide (default [] before = default [] after)) "changing the healthcheck command of".

Definition nul : string := String "000" "".

Definition fileKey (f : option string) : string :=
  match f with None => nul | Some encoded => nul +:+ encoded end.

Definition SecretsChange (before after : list Reference) : string :=
  changed (sameSet (λ ref, ref_id ref +:+ fileKey (ref_file ref)) before after) "changing the secrets of".

Definition config_key (ref : Reference) : string :=
  match ref_file ref with
  | None => ref_id ref +:+ nul +:+ "runtime"
  | file => ref_id ref +:+ fileKey file
  end.

Definition ConfigsChange (before after : list Reference) : string :=
  changed (sameSet config_key before after) "changing the configs of".

Definition mounts_key `{Unicode, Encodings} (m : Mount) : string :=
  let m := withoutEmptyBindOptions m in
  let ty := ToLower (mt_Type m) in
  mount_key (mkMount (if is_empty ty then "bind" else ty) (mt_Source m) (mt_BindOptions m) (mt_VolumeOptions m) (mt_rest m)).

Definition MountsChange `{Unicode, Encodings} (before after : list Mount) : string :=
  changed (sameSet mounts_key before after) "changing the mounts of".

Definition EnvChange (before after : gmap string string) : string :=
  changed (bool_decide (before = after)) "changing the environment of".

Definition LabelsChange (before after : Labels) : string :=
  changed (bool_decide (before = after)) "changing the labels of".

Definition PortsChange (before after : list string) : string :=
  changed (sameSet id before after) "changing the published ports of".

(** The encoding of nil is null. *)
Definition PlacementChange (before after : option string) : string :=
  changed (bool_decide (default "null" before = default "null" after)) "changing the placement of".

Definition networks_key `{Encodings} (n : Attachment) : string :=
  network_key (mkAttachment (at_Target n) (SortStrings (at_Aliases n)) (at_rest n)).

Definition NetworksChange `{Encodings} (before after : list Attachment) : string :=
  changed (sameSet networks_key before after) "changing the networks of".

Definition envMap (env : list string) (bare : bool) : gmap string string :=
  foldl (λ out entry,
    let '(name, value, ok) := Cut entry "=" in
    if ok || bare then <[name := value]> out else out) ∅ env.

Definition specChange `{Unicode, Encodings} (before after : ServiceSpec) : string :=
  let was := containerOf before in
  let is_ := containerOf after in
  default "" (List.find (negb ∘ is_empty)
    [CommandChange was is_;
     HealthcheckChange (Healthcheck was) (Healthcheck is_);
     SecretsChange (Secrets_ was) (Secrets_ is_);
     ConfigsChange (Configs_ was) (Configs_ is_);
     MountsChange (Mounts was) (Mounts is_);
     EnvChange (envMap (Env was) true) (envMap (Env is_) true);
     LabelsChange (sp_Labels before) (sp_Labels after);
     PortsChange (endpointPorts before) (endpointPorts after);
     NetworksChange (sp_Networks before) (sp_Networks after);
     PlacementChange (sp_Placement before) (sp_Placement after)]).

(** * Attachments *)

Inductive AttachmentKind := AttachSecret | AttachConfig | AttachNetwork | AttachVolume.

Definition kind_name (k : AttachmentKind) : string :=
  match k with
  | AttachSecret => "secret" | AttachConfig => "config" | AttachNetwork => "network" | AttachVolume => "volume"
  end.

Definition isVolumeMount `{Unicode} (m : Mount) : bool :=
  let ty := ToLower (mt_Type m) in bool_decide (ty = "volume") || bool_decide (ty = "cluster").

Definition attached `{Unicode} (spec : ServiceSpec) (kind : AttachmentKind) (id : string) : bool :=
  match kind with
  | AttachSecret =>
      match sp_Container spec with Some cs => existsb (λ r, bool_decide (ref_id r = id)) (Secrets_ cs) | None => false end
  | AttachConfig =>
      match sp_Container spec with Some cs => existsb (λ r, bool_decide (ref_id r = id)) (Configs_ cs) | None => false end
  | AttachNetwork => existsb (λ n, bool_decide (at_Target n = id)) (sp_Networks spec)
  | AttachVolume =>
      match sp_Container spec with
      | Some cs => existsb (λ m, isVolumeMount m && bool_decide (mt_Source m = id)) (Mounts cs)
      | None => false
      end
  end.

Definition CheckAttachable `{Unicode} (spec : ServiceSpec) (canRead : string → bool) (kind : AttachmentKind)
    (id name : string) : option refusal :=
  if attached spec kind id then None else
  let resource := kind_name kind +:+ ":" +:+ name in
  if canRead resource then None else Some (AttachDeniedError resource).

Definition CheckVolumesAttachable `{Unicode} (spec : ServiceSpec) (canRead : string → bool)
    (mounts : list Mount) : option refusal :=
  first_error (λ m,
    if negb (isVolumeMount m) || is_empty (mt_Source m) then None
    else CheckAttachable spec canRead AttachVolume (mt_Source m) (mt_Source m)) mounts.

(** SecretReference and ConfigReference; [file] encodes a target owned by root
    and readable by all. *)
Definition SecretReference (file : string → string) (id name target : string) : Reference :=
  mkReference id name (Some (file (if is_empty target then "/run/secrets/" +:+ name else target))).
Definition ConfigReference (file : string → string) (id name target : string) : Reference :=
  mkReference id name (Some (file (if is_empty target then "/" +:+ name else target))).

(** * Stack labels *)

Definition CheckStackLabel (before after : Labels) (canWrite : string → bool) : option refusal :=
  let target := after.[StackLabel] in
  if is_empty target || bool_decide (target = before.[StackLabel]) then None
  else if canWrite ("stack:" +:+ target) then None else Some (StackLabelDeniedError target).

Definition GuardStackLabel (mutate : Labels → refusal + Labels) (canWrite : string → bool) (current : Labels)
    : refusal + Labels :=
  match mutate current with
  | inl err => inl err
  | inr next =>
      match CheckStackLabel {[StackLabel := current.[StackLabel]]} next canWrite with
      | Some err => inl err
      | None => inr next
      end
  end.

(** * A change, checked *)

Record Caller := mkCaller { CanRead : string → bool; CanWrite : string → bool; Level : Z }.

(** What the cache answers while a change is checked: the names of what is
    attached, and the volumes. *)
Record Names := mkNames {
  secret_name : string → option string;
  config_name : string → option string;
  network_name : string → option string;
  GetVolume : string → option StoredVolume;
}.

Definition or_else {A} (x y : option A) : option A := match x with Some _ => x | None => y end.

Definition checkServiceChange `{Unicode, Encodings} (names : Names) (c : Caller) (live next : ServiceSpec)
    : option refusal :=
  let is_ := containerOf next in
  or_else (first_error (λ ref, CheckAttachable live (CanRead c) AttachSecret (ref_id ref)
                                 (default (ref_name ref) (secret_name names (ref_id ref)))) (Secrets_ is_))
  (or_else (first_error (λ ref, CheckAttachable live (CanRead c) AttachConfig (ref_id ref)
                                  (default (ref_name ref) (config_name names (ref_id ref)))) (Configs_ is_))
  (or_else (first_error (λ n, CheckAttachable live (CanRead c) AttachNetwork (at_Target n)
                                (default (at_Target n) (network_name names (at_Target n)))) (sp_Networks next))
  (or_else (CheckVolumesAttachable live (CanRead c) (Mounts is_))
  (or_else (CheckStackLabel (sp_Labels live) (sp_Labels next) (CanWrite c))
  (or_else (CheckMounts live (Mounts is_) (GetVolume names) (Level c))
  (or_else (CheckCapabilities live (CapabilityAdd is_) (Level c))
           (CheckHostAccessHeld (mkHeld live None) (specChange live next) (GetVolume names) (Level c)))))))).

(** A change edits a spec, or fails. *)
Abbreviation SpecChange := (ServiceSpec → refusal + ServiceSpec).

Definition CheckedChange `{Unicode, Encodings} (names : Names) (c : Caller) (change : SpecChange) : SpecChange :=
  λ spec,
    match change spec with
    | inl err => inl err
    | inr next => match checkServiceChange names c spec next with Some err => inl err | None => inr next end
    end.

(** * The sections of a spec *)

Definition with_container (spec : ServiceSpec) (cs : option Container) : ServiceSpec :=
  mkSpec (sp_Labels spec) cs (sp_Networks spec) (sp_Placement spec) (sp_Ports spec) (sp_rest spec).

Definition EditContainer (edit : Container → refusal + Container) : SpecChange := λ spec,
  match sp_Container spec with
  | None => inl ErrNoContainerSpec
  | Some cs => match edit cs with inl err => inl err | inr cs => inr (with_container spec (Some cs)) end
  end.

Definition ensureContainerSpec (spec : ServiceSpec) : Container := default no_container (sp_Container spec).

(** The environment is written sorted. *)
Definition PatchEnv `{MapRange} (change : gmap string string → refusal + gmap string string) : SpecChange :=
  EditContainer (λ cs,
    match change (envMap (Env cs) false) with
    | inl err => inl err
    | inr updated =>
        let env := SortStrings ((λ '(name, value), name +:+ "=" +:+ value) <$> range updated) in
        inr (mkContainer (Image cs) (Command cs) (Args_ cs) (Dir cs) (User cs) (Groups cs) (Healthcheck cs)
               (Secrets_ cs) (Configs_ cs) (Mounts cs) env (CapabilityAdd cs) (ct_rest cs))
    end).

Definition PatchLabels (change : Labels → refusal + Labels) : SpecChange := λ spec,
  match change (sp_Labels spec) with
  | inl err => inl err
  | inr updated =>
      inr (mkSpec updated (sp_Container spec) (sp_Networks spec) (sp_Placement spec) (sp_Ports spec) (sp_rest spec))
  end.

(** SetResources, SetUpdatePolicy, SetRollbackPolicy and SetLogDriver replace
    what this code only carries. *)
Definition SetRest (rest : string) : SpecChange := λ spec,
  inr (mkSpec (sp_Labels spec) (sp_Container spec) (sp_Networks spec) (sp_Placement spec) (sp_Ports spec) rest).

Definition SetEndpointMode (rest : string) : SpecChange := λ spec,
  inr (mkSpec (sp_Labels spec) (sp_Container spec) (sp_Networks spec) (sp_Placement spec)
         (Some (endpointPorts spec)) rest).

Definition SetPlacement (placement : option string) : SpecChange := λ spec,
  inr (mkSpec (sp_Labels spec) (sp_Container spec) (sp_Networks spec) placement (sp_Ports spec) (sp_rest spec)).

Definition SetPorts (ports : list string) : SpecChange := λ spec,
  inr (mkSpec (sp_Labels spec) (sp_Container spec) (sp_Networks spec) (sp_Placement spec) (Some ports) (sp_rest spec)).

Definition SetHealthcheck (hc : option (list string)) : SpecChange := EditContainer (λ cs,
  inr (mkContainer (Image cs) (Command cs) (Args_ cs) (Dir cs) (User cs) (Groups cs) hc
         (Secrets_ cs) (Configs_ cs) (Mounts cs) (Env cs) (CapabilityAdd cs) (ct_rest cs))).

Definition SetNetworks (networks : list Attachment) : SpecChange := λ spec,
  inr (mkSpec (sp_Labels spec) (sp_Container spec) networks (sp_Placement spec) (sp_Ports spec) (sp_rest spec)).

Definition SetSecrets (secrets : list Reference) : SpecChange := λ spec,
  let cs := ensureContainerSpec spec in
  inr (with_container spec (Some (mkContainer (Image cs) (Command cs) (Args_ cs) (Dir cs) (User cs) (Groups cs)
    (Healthcheck cs) secrets (Configs_ cs) (Mounts cs) (Env cs) (CapabilityAdd cs) (ct_rest cs)))).

Definition SetConfigs (configs : list Reference) : SpecChange := λ spec,
  let cs := ensureContainerSpec spec in
  inr (with_container spec (Some (mkContainer (Image cs) (Command cs) (Args_ cs) (Dir cs) (User cs) (Groups cs)
    (Healthcheck cs) (Secrets_ cs) configs (Mounts cs) (Env cs) (CapabilityAdd cs) (ct_rest cs)))).

Definition SetMounts (mounts : list Mount) : SpecChange := λ spec,
  let cs := ensureContainerSpec spec in
  inr (with_container spec (Some (mkContainer (Image cs) (Command cs) (Args_ cs) (Dir cs) (User cs) (Groups cs)
    (Healthcheck cs) (Secrets_ cs) (Configs_ cs) mounts (Env cs) (CapabilityAdd cs) (ct_rest cs)))).

#[local] Arguments specHostAccess : simpl never.

(** * What the checks establish *)

Lemma or_else_None {A} (x y : option A) : or_else x y = None ↔ x = None ∧ y = None.
Proof. destruct x; simpl; naive_solver. Qed.

Lemma changed_empty same what : what ≠ "" → changed same what = "" ↔ same = true.
Proof. by destruct same. Qed.

Lemma sameSet_spec {A} (key : A → string) l k :
  sameSet key l k = true ↔ SortStrings (key <$> l) = SortStrings (key <$> k).
Proof.
  unfold sameSet. destruct (Nat.eqb_spec (length l) (length k)) as [E|E]; simpl; [apply bool_decide_eq_true|].
  split; [done|]. intros Hs. destruct E.
  rewrite <-(length_fmap key l), <-(length_fmap key k), <-(SortStrings_perm (key <$> l)), Hs, SortStrings_perm. done.
Qed.

Section checks.
Context `{Unicode, Encodings}.

(** What the changes compare: two specs run the same when it is the same. *)
Definition code_key (spec : ServiceSpec) :=
  let cs := containerOf spec in
  ((Command cs, Args_ cs, Dir cs, User cs, Groups cs), default [] (Healthcheck cs),
   SortStrings ((λ ref, ref_id ref +:+ fileKey (ref_file ref)) <$> Secrets_ cs),
   SortStrings (config_key <$> Configs_ cs), SortStrings (mounts_key <$> Mounts cs), envMap (Env cs) true,
   sp_Labels spec, SortStrings (id <$> endpointPorts spec), SortStrings (networks_key <$> sp_Networks spec),
   default "null" (sp_Placement spec)).

Lemma find_nonempty l : default "" (List.find (negb ∘ is_empty) l) = "" ↔ Forall (λ s, s = "") l.
Proof.
  induction l as [|s l IH]; simpl; [by split|]. rewrite Forall_cons. destruct s; simpl; [rewrite IH; tauto|].
  split; [done|]. by intros [[=] _].
Qed.

Lemma specChange_spec before after : specChange before after = "" ↔ code_key before = code_key after.
Proof.
  unfold specChange. rewrite find_nonempty, !Forall_cons.
  unfold CommandChange, HealthcheckChange, SecretsChange, ConfigsChange, MountsChange, EnvChange, LabelsChange,
    PortsChange, NetworksChange, PlacementChange.
  rewrite !changed_empty by done. rewrite !andb_true_iff, !bool_decide_eq_true, !sameSet_spec.
  unfold code_key. split; [|intros E; simplify_eq/=; by split_and!].
  intros ([[[[-> ->] ->] ->] ->] & -> & -> & -> & -> & -> & -> & -> & -> & -> & _). done.
Qed.

Lemma withoutEmptyBindOptions_same m m' lookup :
  withoutEmptyBindOptions m = withoutEmptyBindOptions m' → hostAccess m lookup = hostAccess m' lookup.
Proof.
  assert (∀ m, mt_Type (withoutEmptyBindOptions m) = mt_Type m ∧ mt_Source (withoutEmptyBindOptions m) = mt_Source m ∧
    mt_VolumeOptions (withoutEmptyBindOptions m) = mt_VolumeOptions m) as Hsame.
  { intros n. unfold withoutEmptyBindOptions. by case_bool_decide. }
  intros E. destruct (Hsame m) as (E1 & E2 & E3), (Hsame m') as (F1 & F2 & F3). rewrite E in E1, E2, E3.
  unfold hostAccess. by rewrite <-E1, <-E2, <-E3, F1, F2, F3.
Qed.

Lemma presumed_local_reaches m lookup :
  hostAccess m (presumed_local lookup) ≠ "" → hostAccess m lookup ≠ "".
Proof.
  unfold hostAccess, presumed_local. destruct (_ || _); [done|].
  do 3 (case_bool_decide; [try done|]); [|done].
  destruct (mt_VolumeOptions m) as [[[]]|]; [done|..]; destruct (is_empty (mt_Source m)); try done;
    by destruct (lookup (mt_Source m)).
Qed.

(** Whether a spec reaches the host, as HeldHostAccess reads one. *)
Definition reaches (lookup : string → option StoredVolume) (spec : ServiceSpec) : Prop :=
  specHostAccess (Some spec) (presumed_local lookup) ≠ "".

Lemma specHostAccess_spec spec lookup :
  specHostAccess (Some spec) lookup ≠ "" ↔
  (∃ m, m ∈ Mounts (containerOf spec) ∧ hostAccess m lookup ≠ "") ∨ CapabilityAdd (containerOf spec) ≠ [].
Proof.
  unfold specHostAccess, containerOf. destruct (sp_Container spec) as [cs|]; simpl.
  2:{ split; [done|]. intros [(m & []%elem_of_nil & _)|]; done. }
  destruct (first_error _ (Mounts cs)) as [what|] eqn:E; simpl.
  - split; [intros Hne; left|].
    + induction (Mounts cs) as [|m l IH]; [done|]. simpl in E. destruct (is_empty (hostAccess m lookup)) eqn:Em.
      * destruct (IH E) as (m' & ? & ?). exists m'. split; [by right|done].
      * exists m. split; [by left|]. intros Hm. by rewrite Hm in Em.
    + intros _ ->. clear -E. induction (Mounts cs) as [|m l IH]; [done|]. simpl in E.
      destruct (is_empty (hostAccess m lookup)) eqn:Em; [by apply IH|]. injection E as E. by rewrite E in Em.
  - rewrite first_error_None in E. split.
    + intros Hc. right. by destruct (CapabilityAdd cs).
    + intros [(m & Hm & Hne)|Hc]; [|by destruct (CapabilityAdd cs)]. specialize (E m Hm).
      destruct (hostAccess m lookup); done.
Qed.

(** The caller may read what a check let it attach, or it was attached. *)
Lemma CheckAttachable_None spec canRead kind id name :
  CheckAttachable spec canRead kind id name = None ↔
  attached spec kind id = true ∨ canRead (kind_name kind +:+ ":" +:+ name) = true.
Proof. unfold CheckAttachable. repeat case_match; naive_solver. Qed.

Lemma CheckVolumesAttachable_None spec canRead mounts :
  CheckVolumesAttachable spec canRead mounts = None ↔
  ∀ m, m ∈ mounts → isVolumeMount m = true → mt_Source m ≠ "" →
    attached spec AttachVolume (mt_Source m) = true ∨ canRead ("volume:" +:+ mt_Source m) = true.
Proof.
  unfold CheckVolumesAttachable. rewrite first_error_None. split.
  - intros Hall m Hm Hv Hs. specialize (Hall m Hm). rewrite Hv in Hall. destruct (mt_Source m) eqn:E; [done|].
    simpl in Hall. by apply CheckAttachable_None in Hall.
  - intros Hall m Hm. destruct (isVolumeMount m) eqn:Ev; [|done]. destruct (is_empty (mt_Source m)) eqn:Es; [done|].
    simpl. apply CheckAttachable_None. apply Hall; [done..|]. by intros E; rewrite E in Es.
Qed.

Lemma CheckMounts_None spec mounts lookup level :
  CheckMounts spec mounts lookup level = None ↔
  (OpsImpactful <= level)%Z ∨
  ∀ m, m ∈ mounts → hostAccess m lookup ≠ "" →
    ∃ c, c ∈ Mounts (containerOf spec) ∧ withoutEmptyBindOptions c = withoutEmptyBindOptions m.
Proof.
  unfold CheckMounts, containerOf. destruct (Z.leb_spec OpsImpactful level) as [Hl|Hl]; [naive_solver|].
  rewrite first_error_None. split.
  - intros Hall. right. intros m Hm Hne. specialize (Hall m Hm).
    rewrite is_empty_false in Hall by done.
    destruct (existsb _ _) eqn:E; [|done]. apply existsb_True in E as (c & Hc & E%bool_decide_eq_true).
    exists c. by destruct (sp_Container spec).
  - intros [?|Hall] m Hm; [lia|]. destruct (is_empty (hostAccess m lookup)) eqn:Ee; [done|].
    destruct (Hall m Hm) as (c & Hc & E); [by intros E; rewrite E in Ee|].
    rewrite (proj2 (existsb_True _ _)); [done|]. exists c. split; [by destruct (sp_Container spec)|by apply bool_decide_eq_true].
Qed.

Lemma CheckCapabilities_None spec caps level :
  CheckCapabilities spec caps level = None ↔
  (OpsImpactful <= level)%Z ∨ ∀ x, x ∈ caps → x ∈ CapabilityAdd (containerOf spec).
Proof.
  unfold CheckCapabilities, containerOf. destruct (Z.leb_spec OpsImpactful level) as [Hl|Hl]; [naive_solver|].
  rewrite first_error_None.
  assert (match sp_Container spec with Some cs => CapabilityAdd cs | None => [] end =
          CapabilityAdd (default no_container (sp_Container spec))) as -> by by destruct (sp_Container spec).
  split.
  - intros Hall. right. intros x Hx. specialize (Hall x Hx). by case_bool_decide.
  - intros [?|Hall] x Hx; [lia|]. by rewrite bool_decide_true by by apply Hall.
Qed.

Lemma CheckHostAccessHeld_None svc change lookup level :
  CheckHostAccessHeld svc change lookup level = None ↔
  (OpsImpactful <= level)%Z ∨ change = "" ∨
  ¬ reaches lookup (Spec svc) ∧
  (change = RollingBack → ∀ previous, PreviousSpec svc = Some previous → ¬ reaches lookup previous).
Proof.
  assert (reaches lookup (Spec svc) ↔ is_empty (specHostAccess (Some (Spec svc)) (presumed_local lookup)) = false) as Hcur
    by (unfold reaches; by destruct (specHostAccess _ _)).
  assert ((∀ previous, PreviousSpec svc = Some previous → ¬ reaches lookup previous) ↔
    is_empty (specHostAccess (PreviousSpec svc) (presumed_local lookup)) = true) as Hprev.
  { unfold reaches. destruct (PreviousSpec svc) as [p|]; [|by split].
    destruct (specHostAccess (Some p) _) eqn:E; simpl; (split; [try done|intros Hd p' [= <-] Hne; by rewrite E in Hne]).
    intros Hall. destruct (Hall p eq_refl). by rewrite E. }
  unfold CheckHostAccessHeld, HeldHostAccess. rewrite Hcur.
  destruct (Z.leb_spec OpsImpactful level) as [Hl|Hl]; [simpl; tauto|].
  destruct (is_empty change) eqn:Ec; [apply is_empty_spec in Ec; simpl; tauto|].
  assert (change ≠ "") as Hc by by intros ->. cbn [orb].
  destruct (is_empty (specHostAccess (Some (Spec svc)) _)) eqn:Ea; cbn [negb].
  - case_bool_decide as Hr; [|split; [intros _; right; right; by split|done]].
    destruct (is_empty (specHostAccess (PreviousSpec svc) _)).
    { split; [intros _; right; right; split; [done|]; intros _; by apply Hprev|done]. }
    split; [done|]. intros [?|[?|[_ Hp]]]; [lia|done|]. by specialize (proj1 Hprev (Hp Hr)).
  - rewrite Ea. split; [done|]. intros [?|[?|[Hn _]]]; [lia|done|by destruct Hn].
Qed.

(** A spec that passed the host checks reaches the host no more than before,
    and if it did before, runs what it ran. *)
Lemma host_checks names c live next :
  checkServiceChange names c live next = None → (Level c < OpsImpactful)%Z →
  (∀ m, m ∈ Mounts (containerOf next) → hostAccess m (GetVolume names) ≠ "" →
     ∃ m', m' ∈ Mounts (containerOf live) ∧ withoutEmptyBindOptions m' = withoutEmptyBindOptions m) ∧
  (∀ x, x ∈ CapabilityAdd (containerOf next) → x ∈ CapabilityAdd (containerOf live)) ∧
  (reaches (GetVolume names) live → code_key live = code_key next).
Proof.
  unfold checkServiceChange. rewrite !or_else_None. intros (_ & _ & _ & _ & _ & Hm & Hc & Hh) Hl.
  apply CheckMounts_None in Hm as [?|Hm]; [lia|]. apply CheckCapabilities_None in Hc as [?|Hc]; [lia|].
  split; [exact Hm|split; [exact Hc|]]. intros Hr.
  apply CheckHostAccessHeld_None in Hh as [?|[?|[? _]]]; [lia|by apply specChange_spec|done].
Qed.

Lemma host_checks_reach names c live next :
  checkServiceChange names c live next = None → (Level c < OpsImpactful)%Z →
  reaches (GetVolume names) next → reaches (GetVolume names) live.
Proof.
  intros Hcheck Hl. destruct (host_checks _ _ _ _ Hcheck Hl) as (Hm & Hc & _).
  unfold reaches. rewrite !specHostAccess_spec. intros [(m & Hin & Hne)|Hcap].
  - left. destruct (Hm m Hin (presumed_local_reaches _ _ Hne)) as (m' & Hm' & E).
    exists m'. split; [done|]. by rewrite (withoutEmptyBindOptions_same m' m).
  - right. destruct (CapabilityAdd (containerOf next)) as [|x l] eqn:E; [done|].
    specialize (Hc x ltac:(left)). intros E'. rewrite E' in Hc. by apply elem_of_nil in Hc.
Qed.

(** A change that passes its check attaches nothing its caller may not
    read, joins no stack its caller may not write, and below the impactful tier
    gives the service no way to the host it did not have and changes nothing of
    what runs in one that has some. *)
Theorem checked_change_safe names c live next (Hcheck : checkServiceChange names c live next = None) :
  (∀ ref, ref ∈ Secrets_ (containerOf next) → attached live AttachSecret (ref_id ref) = true ∨
     CanRead c ("secret:" +:+ default (ref_name ref) (secret_name names (ref_id ref))) = true) ∧
  (∀ ref, ref ∈ Configs_ (containerOf next) → attached live AttachConfig (ref_id ref) = true ∨
     CanRead c ("config:" +:+ default (ref_name ref) (config_name names (ref_id ref))) = true) ∧
  (∀ n, n ∈ sp_Networks next → attached live AttachNetwork (at_Target n) = true ∨
     CanRead c ("network:" +:+ default (at_Target n) (network_name names (at_Target n))) = true) ∧
  (∀ m, m ∈ Mounts (containerOf next) → isVolumeMount m = true → mt_Source m ≠ "" →
     attached live AttachVolume (mt_Source m) = true ∨ CanRead c ("volume:" +:+ mt_Source m) = true) ∧
  ((sp_Labels next).[StackLabel] = "" ∨ (sp_Labels next).[StackLabel] = (sp_Labels live).[StackLabel] ∨
     CanWrite c ("stack:" +:+ (sp_Labels next).[StackLabel]) = true) ∧
  ((Level c < OpsImpactful)%Z →
     (∀ m, m ∈ Mounts (containerOf next) → hostAccess m (GetVolume names) ≠ "" →
        ∃ m', m' ∈ Mounts (containerOf live) ∧ withoutEmptyBindOptions m' = withoutEmptyBindOptions m) ∧
     (∀ x, x ∈ CapabilityAdd (containerOf next) → x ∈ CapabilityAdd (containerOf live)) ∧
     (reaches (GetVolume names) live → specChange live next = "")).
Proof.
  pose proof (host_checks names c live next Hcheck) as Hhost. revert Hcheck.
  unfold checkServiceChange. rewrite !or_else_None, !first_error_None.
  intros (Hs & Hc & Hn & Hv & Hl & _). split_and!.
  - intros ref Hin. exact (proj1 (CheckAttachable_None _ _ _ _ _) (Hs ref Hin)).
  - intros ref Hin. exact (proj1 (CheckAttachable_None _ _ _ _ _) (Hc ref Hin)).
  - intros n Hin. exact (proj1 (CheckAttachable_None _ _ _ _ _) (Hn n Hin)).
  - by apply CheckVolumesAttachable_None.
  - unfold CheckStackLabel in Hl. destruct (is_empty _) eqn:E; [left; by apply is_empty_spec|].
    simpl in Hl. case_bool_decide; [by right; left|]. right; right. by destruct (CanWrite c _).
  - intros Hlt. destruct (Hhost Hlt) as (H1' & H2' & H3'). split_and!; [done..|].
    intros Hr. by apply specChange_spec, H3'.
Qed.
End checks.

(** * Instances for the closed examples *)

Definition demo_encodings : Encodings := {|
  mount_key m := mt_Type m +:+ "|" +:+ mt_Source m +:+ "|" +:+ mt_rest m;
  network_key n := at_Target n +:+ "|" +:+ Join (at_Aliases n) ",";
|}.

Definition demo_bind : Mount := mkMount "bind" "/var/run" None None "".

Definition demo_container (image : string) (mounts : list Mount) : Container :=
  mkContainer image ["run"] [] "" "" [] None [mkReference "x1" "token" None] [] mounts ["A=1"] [] "".

Definition demo_spec (image : string) (mounts : list Mount) : ServiceSpec :=
  mkSpec ∅ (Some (demo_container image mounts)) [] None None "".

Definition no_names : Names := mkNames (λ _, None) (λ _, None) (λ _, None) (λ _, None).

Lemma checked_change_safe_witness :
  let U := ascii_unicode in
  let E := demo_encodings in
  checkServiceChange no_names (mkCaller (λ _, false) (λ _, false) 2) (demo_spec "a" [demo_bind]) (demo_spec "b" [demo_bind]) = None ∧
  specChange (demo_spec "a" [demo_bind]) (demo_spec "b" [demo_bind]) = "".
Proof.
  intros U E.
  assert (checkServiceChange no_names (mkCaller (λ _, false) (λ _, false) 2) (demo_spec "a" [demo_bind]) (demo_spec "b" [demo_bind]) = None)
    as Hc by (vm_compute; reflexivity).
  split; [exact Hc|].
  destruct (checked_change_safe no_names _ _ _ Hc) as (_ & _ & _ & _ & _ & Hhost).
  destruct Hhost as (_ & _ & Hsame); [vm_compute; reflexivity|].
  apply Hsame. vm_compute. discriminate.
Defined.
