(* ===== verification/ClusterWrites.v ===== *)
(** Writes to the cluster: internal/cluster/writes.go, writes_resources.go,
    operations.go, writeerror.go and removal.go, over the lookups of Resolve.v
    and the checks of HostAccess.v, down to what internal/docker/client.go makes
    of the service a write names.

    What a write asks of Docker is a value, a [docker_call]; the engine that
    answers it is an argument. What the cache keeps of a resource without
    looking at it (specs, volume drivers, creation times) is beside it in a
    [View]. [quote] is fmt's %q. *)
From S2P Require Import Prelude GoStrings GoStrconv CacheState CacheStacks CacheIndex CacheOps CacheList CacheProps Cache Resolve HostAccess.
#[local] Open Scope string_scope.
#[local] Open Scope list_scope.

(** * Operations and their tiers *)

Abbreviation Operation := string.

Definition operationTiers : gmap Operation Z :=
  list_to_map
    [("service.scale", OpsOperational); ("service.image", OpsOperational);
     ("service.rollback", OpsOperational); ("service.restart", OpsOperational);
     ("service.update", OpsConfiguration); ("service.secrets", OpsConfiguration);
     ("service.configs", OpsConfiguration); ("service.mounts", OpsConfiguration);
     ("service.remove", OpsImpactful); ("node.labels", OpsConfiguration);
     ("node.update", OpsImpactful); ("task.remove", OpsImpactful);
     ("config.create", OpsConfiguration); ("config.remove", OpsImpactful);
     ("secret.create", OpsConfiguration); ("secret.remove", OpsImpactful);
     ("network.remove", OpsImpactful); ("volume.remove", OpsImpactful);
     ("exec.open", OpsImpactful); ("exec.end", OpsImpactful)].

(** One missing from the table requires the highest. *)
Definition Tier (op : Operation) : Z := default OpsImpactful (operationTiers !! op).

Definition Operations `{MapRange} : list Operation := SortStrings (range operationTiers).*1.

(** * Errors *)

Inductive WriteErrorKind := NotFound | Denied | BelowTier | HostAccess_ | Invalid | Conflict | Stale | Unavailable | Engine.

(** The classes containerd's errdefs gives an engine's error. *)
Inductive engine_class :=
| IsUnknown | IsInvalidArgument | IsNotFound | IsAlreadyExists | IsPermissionDenied | IsResourceExhausted
| IsFailedPrecondition | IsConflict | IsNotModified | IsAborted | IsOutOfRange | IsNotImplemented
| IsInternal | IsUnavailable | IsDataLoss | IsUnauthorized.

#[global] Instance WriteErrorKind_eq_dec : EqDecision WriteErrorKind.
Proof. solve_decision. Defined.
#[global] Instance engine_class_eq_dec : EqDecision engine_class.
Proof. solve_decision. Defined.

Record WriteError := mkWriteError { we_Kind : WriteErrorKind; we_Resource : string; we_Detail : string }.

(** An error a write returns: one already classified, a refusal of the domain's,
    or a library's with its text, the classes it answers to and whether it is a
    failure to reach the engine. *)
Inductive error :=
| Classified (e : WriteError)
| Refused (r : refusal)
| FromLibrary (text : string) (classes : list engine_class) (transport : bool).

Definition sequenceConflict : string := "update out of sequence".

Definition IsOutOfSequence (text : string) : bool := Contains text sequenceConflict.

Definition is_class (c : engine_class) (classes : list engine_class) : bool := bool_decide (c ∈ classes).

(** Every class is one of the engine's. *)
Definition fromEngine (classes : list engine_class) (transport : bool) : bool :=
  transport || match classes with [] => false | _ => true end.

Section writes.
Context `{MapRange, Unicode, Encodings} (quote : string → string).

Definition ClassifyWrite (err : error) (resource key : string) : option WriteError :=
  let refused k detail := Some (mkWriteError k resource detail) in
  let stale := refused Stale (resource +:+ " " +:+ quote key +:+ " changed since it was read; nothing was written") in
  match err with
  | Classified e => Some e
  | Refused (HostAccessError what) => refused HostAccess_ (what +:+ " requires operations level 3")
  | Refused (AttachDeniedError r) => refused Denied ("read access denied for " +:+ r)
  | Refused (StackLabelDeniedError stack) => refused Denied ("write access denied for stack:" +:+ stack)
  | Refused ErrNoContainerSpec => Some (mkWriteError Invalid "service" "service has no container spec")
  | Refused (ChangeFailed text) => if IsOutOfSequence text then stale else None
  | FromLibrary text classes transport =>
      if IsOutOfSequence text then stale
      else if negb (fromEngine classes transport) then None
      else if is_class IsNotFound classes then refused NotFound (resource +:+ " " +:+ quote key +:+ " not found")
      else if is_class IsInvalidArgument classes then refused Invalid text
      else if is_class IsUnavailable classes then refused Unavailable text
      else if is_class IsConflict classes then refused Conflict text
      else if is_class IsFailedPrecondition classes then
        refused Conflict (resource +:+ " " +:+ quote key +:+ " cannot be changed in its current state")
      else refused Engine ""
  end.

Definition removalConflictMessages : gmap string (list string) :=
  list_to_map
    [("config", ["is in use by the following"]);
     ("network", ["has active endpoints"; "is in use"; "depends on it"]);
     ("node", ["is not down"; "must be demoted"]);
     ("secret", ["is in use by the following"]);
     ("volume", ["volume is in use"; "volume is still in use"])].

(** The text of an error of ours is its detail. *)
Definition error_text (err : error) : string :=
  match err with
  | Classified e => if is_empty (we_Detail e) then "the " +:+ we_Resource e +:+ " write failed" else we_Detail e
  | Refused (HostAccessError what) => what +:+ " requires operations level 3"
  | Refused (AttachDeniedError r) => "read access denied for " +:+ r
  | Refused (StackLabelDeniedError stack) => "write access denied for stack:" +:+ stack
  | Refused ErrNoContainerSpec => "service has no container spec"
  | Refused (ChangeFailed text) => text
  | FromLibrary text _ _ => text
  end.

Definition IsRemovalConflict (err : error) (resource : string) : bool :=
  match err with
  | FromLibrary _ classes _ => is_class IsConflict classes || is_class IsFailedPrecondition classes
  | _ => false
  end ||
  existsb (Contains (error_text err)) (default [] (removalConflictMessages !! resource)).

Definition RemovalConflictDetail (resource key : string) : string :=
  resource +:+ " " +:+ key +:+ " cannot be removed in its current state".

Definition ClassifyRemoval (err : error) (resource key : string) : option WriteError :=
  if IsRemovalConflict err resource then Some (mkWriteError Conflict resource (RemovalConflictDetail resource key))
  else ClassifyWrite err resource key.

(** An error that is none of the kinds passes as it is. *)
Definition classify (err : error) (resource key : string) : error :=
  match ClassifyWrite err resource key with Some e => Classified e | None => err end.

Definition denied (kind resource : string) : WriteError :=
  mkWriteError Denied kind ("write access denied for " +:+ resource).

Definition not_found (kind key : string) : WriteError :=
  mkWriteError NotFound kind (kind +:+ " " +:+ quote key +:+ " not found").

Definition invalid (resource text : string) : WriteError := mkWriteError Invalid resource text.

(** * Judging a write *)

Record View := mkView {
  v_cache : Cache;
  v_specs : string → HeldService;
  v_created : string → Z;
  v_stored : string → StoredVolume;
}.

Definition volume_of (v : View) (name : string) : option StoredVolume :=
  (λ _, v_stored v name) <$> volumes (v_cache v) !! name.

Definition names_of (v : View) : Names := mkNames
  (λ id, x_Name <$> secrets (v_cache v) !! id)
  (λ id, c_Name <$> configs (v_cache v) !! id)
  (λ id, w_Name <$> networks (v_cache v) !! id)
  (volume_of v).

Definition belowTier (c : Caller) (op : Operation) (kind : string) : option WriteError :=
  if (Tier op <=? Level c)%Z then None
  else Some (mkWriteError BelowTier kind
    ("this operation requires operations level " +:+ Itoa (Tier op) +:+ ", but the caller is at level " +:+
     Itoa (Level c))).

(** The record a write names, judged: one the caller cannot read is not found. *)
Definition record (v : View) (c : Caller) (op : Operation) (kind key : string) : WriteError + record_ :=
  match LookupAs (v_created v) (v_cache v) kind key (Some (CanRead c)) with
  | Ambiguous name ids =>
      if CanRead c (kind +:+ ":" +:+ key) then inl (invalid kind (AmbiguousNameError_Error quote name ids))
      else inl (not_found kind key)
  | Missing => inl (not_found kind key)
  | Found r =>
      if negb (CanRead c (WriteResource r)) then inl (not_found kind key)
      else if negb (CanWrite c (WriteResource r)) then inl (denied kind (WriteResource r))
      else match belowTier c op kind with Some e => inl e | None => inr r end
  end.

Definition service_ (v : View) (c : Caller) (op : Operation) (key : string) : WriteError + Service :=
  match record v c op "service" key with
  | inl e => inl e
  | inr r =>
      match services (v_cache v) !! rec_ID r with
      | Some svc => inr svc
      | None => inl (not_found "service" key)
      end
  end.

(** What a write asks of Docker. *)
Inductive docker_call :=
| CallScale (id : string) (replicas : Z)
| CallImage (id image : string)
| CallRollback (id : string)
| CallRestart (id : string)
| CallUpdate (id : string) (change : SpecChange)
| CallNodeAvailability (id availability : string)
| CallNodeRole (id role : string)
| CallNodeLabels (id : string) (change : Labels → refusal + Labels)
| CallRemove (kind id : string) (force : bool)
| CallCreate (kind name : string) (labels : Labels) (data : string).

Inductive request :=
| ScaleService (key : string) (replicas : Z)
| UpdateServiceImage (key image : string)
| RollbackService (key : string)
| RestartService (key : string)
| UpdateService (op : Operation) (key : string) (change : SpecChange)
| UpdateNodeAvailability (key availability : string)
| UpdateNodeRole (key role : string)
| UpdateNodeLabels (key : string) (change : Labels → refusal + Labels)
| Remove (kind key : string) (force : bool)
| Create (kind name : string) (labels : Labels) (data : string).

(** RemoveService and its siblings, CreateConfig and CreateSecret name their own. *)
Definition request_op (r : request) : Operation :=
  match r with
  | ScaleService _ _ => "service.scale"
  | UpdateServiceImage _ _ => "service.image"
  | RollbackService _ => "service.rollback"
  | RestartService _ => "service.restart"
  | UpdateService op _ _ => op
  | UpdateNodeAvailability _ _ | UpdateNodeRole _ _ => "node.update"
  | UpdateNodeLabels _ _ => "node.labels"
  | Remove kind _ _ => kind +:+ ".remove"
  | Create kind _ _ _ => kind +:+ ".create"
  end.

Definition refused_by (resource key : string) (r : refusal) : error := classify (Refused r) resource key.

Definition creatable (c : Caller) (op : Operation) (kind name : string) (labels : Labels) : option error :=
  let resource := kind +:+ ":" +:+ name in
  if negb (CanWrite c resource) then Some (Classified (denied kind resource)) else
  match belowTier c op kind with
  | Some e => Some (Classified e)
  | None => refused_by kind name <$> CheckStackLabel ∅ labels (CanWrite c)
  end.

(** A write up to its call: why it is refused, or what it asks. *)
Definition judge (v : View) (c : Caller) (req : request) : error + docker_call :=
  let op := request_op req in
  let on_service key (k : Service → error + docker_call) :=
    match service_ v c op key with inl e => inl (Classified e) | inr svc => k svc end in
  let on_record kind key (k : record_ → docker_call) :=
    match record v c op kind key with inl e => inl (Classified e) | inr r => inr (k r) end in
  match req with
  | ScaleService key replicas => on_service key (λ svc,
      match m_Replicated (s_Mode svc) with
      | None => inl (Classified (invalid "service" "cannot scale a global-mode service"))
      | Some _ => inr (CallScale (s_ID svc) replicas)
      end)
  | UpdateServiceImage key image =>
      let image := TrimSpace image in
      if is_empty image then inl (Classified (invalid "service" "image is required")) else
      on_service key (λ svc,
        match CheckHostAccessHeld (v_specs v (s_ID svc)) "changing the image of" (volume_of v) (Level c) with
        | Some r => inl (refused_by "service" key r)
        | None => inr (CallImage (s_ID svc) image)
        end)
  | RollbackService key => on_service key (λ svc,
      match PreviousSpec (v_specs v (s_ID svc)) with
      | None => inl (Classified (invalid "service" "service has no previous spec to roll back to"))
      | Some _ =>
          match CheckHostAccessHeld (v_specs v (s_ID svc)) RollingBack (volume_of v) (Level c) with
          | Some r => inl (refused_by "service" key r)
          | None => inr (CallRollback (s_ID svc))
          end
      end)
  | RestartService key => on_service key (λ svc, inr (CallRestart (s_ID svc)))
  | UpdateService _ key change => on_service key (λ svc,
      inr (CallUpdate (s_ID svc) (CheckedChange (names_of v) c change)))
  | UpdateNodeAvailability key availability =>
      on_record "node" key (λ r, CallNodeAvailability (rec_ID r) availability)
  | UpdateNodeRole key role => on_record "node" key (λ r, CallNodeRole (rec_ID r) role)
  | UpdateNodeLabels key change => on_record "node" key (λ r, CallNodeLabels (rec_ID r) change)
  | Remove kind key force => on_record kind key (λ r, CallRemove kind (rec_ID r) force)
  | Create kind name labels data =>
      match creatable c op kind name labels with
      | Some e => inl e
      | None => inr (CallCreate kind name labels data)
      end
  end.

(** What the caller is told of an error the call returned. *)
Definition answer (req : request) (err : error) : error :=
  match req with
  | ScaleService key _ | UpdateServiceImage key _ | RollbackService key | RestartService key
  | UpdateService _ key _ => classify err "service" key
  | UpdateNodeAvailability key _ | UpdateNodeRole key _ | UpdateNodeLabels key _ => classify err "node" key
  | Remove kind key _ => match ClassifyRemoval err kind key with Some e => Classified e | None => err end
  | Create kind name _ _ => classify err kind name
  end.

(** * What a write that goes through has passed *)

(** The record a request names. *)
Definition request_target (req : request) : option (string * string) :=
  match req with
  | ScaleService key _ | UpdateServiceImage key _ | RollbackService key | RestartService key
  | UpdateService _ key _ => Some ("service", key)
  | UpdateNodeAvailability key _ | UpdateNodeRole key _ | UpdateNodeLabels key _ => Some ("node", key)
  | Remove kind key _ => Some (kind, key)
  | Create _ _ _ _ => None
  end.

Definition call_id (call : docker_call) : string :=
  match call with
  | CallScale id _ | CallImage id _ | CallRollback id | CallRestart id | CallUpdate id _
  | CallNodeAvailability id _ | CallNodeRole id _ | CallNodeLabels id _ | CallRemove _ id _ => id
  | CallCreate _ name _ _ => name
  end.

Lemma belowTier_None c op kind : belowTier c op kind = None ↔ (Tier op <= Level c)%Z.
Proof. unfold belowTier. destruct (Z.leb_spec (Tier op) (Level c)); split; (done || lia). Qed.

Lemma record_inr v c op kind key r :
  record v c op kind key = inr r ↔
  LookupAs (v_created v) (v_cache v) kind key (Some (CanRead c)) = Found r ∧
  CanRead c (WriteResource r) = true ∧ CanWrite c (WriteResource r) = true ∧ (Tier op <= Level c)%Z.
Proof.
  unfold record. rewrite <-(belowTier_None c op kind). split.
  - destruct (LookupAs _ _ _ _ _) as [r'| |]; [|done|by destruct (CanRead c _)].
    destruct (CanRead c (WriteResource r')) eqn:E1; [|done]. destruct (CanWrite c (WriteResource r')) eqn:E2; [|done].
    cbn [negb]. destruct (belowTier c op kind) eqn:E3; [done|]. by intros [= ->].
  - intros (-> & -> & -> & ->). done.
Qed.

Lemma service_inr v c op key svc (Hok : cache_ok (v_cache v)) :
  service_ v c op key = inr svc →
  ∃ r, record v c op "service" key = inr r ∧ services (v_cache v) !! rec_ID r = Some svc ∧ s_ID svc = rec_ID r.
Proof.
  unfold service_. destruct (record v c op "service" key) as [|r] eqn:Er; [done|].
  destruct (services (v_cache v) !! rec_ID r) as [s|] eqn:Es; [|done]. intros [= <-].
  exists r. split_and!; [done..|]. by apply (ck_services _ Hok).
Qed.

(** Below the impactful tier the image of a service that reaches the host is not
    changed, nor one rolled back that does or did. *)
Lemma judged_host v c req call : judge v c req = inr call → (Level c < OpsImpactful)%Z →
  match req with
  | UpdateServiceImage _ _ => ¬ reaches (volume_of v) (Spec (v_specs v (call_id call)))
  | RollbackService _ =>
      ¬ reaches (volume_of v) (Spec (v_specs v (call_id call))) ∧
      ∀ previous, PreviousSpec (v_specs v (call_id call)) = Some previous → ¬ reaches (volume_of v) previous
  | _ => True
  end.
Proof.
  intros Hj Hlt. destruct req as [| key image|key| | | | | | |]; try exact I; unfold judge in Hj; cbn in Hj.
  - destruct (is_empty _); [discriminate|]. destruct (service_ _ _ _ _) as [|svc]; [discriminate|].
    destruct (CheckHostAccessHeld _ _ _ _) eqn:Eh; [discriminate|]. injection Hj as <-.
    by apply CheckHostAccessHeld_None in Eh as [?|[?|[? _]]]; [lia| |].
  - destruct (service_ _ _ _ _) as [|svc]; [discriminate|].
    destruct (PreviousSpec _) as [p|] eqn:Ep; [|discriminate].
    destruct (CheckHostAccessHeld _ _ _ _) eqn:Eh; [discriminate|]. injection Hj as <-.
    apply CheckHostAccessHeld_None in Eh as [?|[?|[? Hprev]]]; [lia|done|]. simpl. split; [done|]. by apply Hprev.
Qed.

(** C11: Whatever a write asks of Docker was asked for by a caller who may read
    and write the record it names, at the tier its operation requires or above,
    and names that record by its ID; what a create makes is writable by its
    caller and joins no stack that is not. Below the impactful tier an image is
    changed, and a service rolled back, only if the service held no way to the
    host, by its current spec or for a rollback by either. *)
Theorem writes_judged v c req call (Hok : cache_ok (v_cache v)) (Hj : judge v c req = inr call) :
  (Tier (request_op req) <= Level c)%Z ∧
  match request_target req with
  | Some (kind, key) =>
      ∃ r, LookupAs (v_created v) (v_cache v) kind key (Some (CanRead c)) = Found r ∧
        CanRead c (WriteResource r) = true ∧ CanWrite c (WriteResource r) = true ∧ call_id call = rec_ID r
  | None =>
      match req with
      | Create kind name labels _ =>
          CanWrite c (kind +:+ ":" +:+ name) = true ∧
          (labels.[StackLabel] = "" ∨ CanWrite c ("stack:" +:+ labels.[StackLabel]) = true)
      | _ => False
      end
  end ∧
  ((Level c < OpsImpactful)%Z →
     match req with
     | UpdateServiceImage _ _ => ¬ reaches (volume_of v) (Spec (v_specs v (call_id call)))
     | RollbackService _ =>
         ¬ reaches (volume_of v) (Spec (v_specs v (call_id call))) ∧
         ∀ previous, PreviousSpec (v_specs v (call_id call)) = Some previous → ¬ reaches (volume_of v) previous
     | _ => True
     end).
Proof.
  assert (∀ key svc, service_ v c (request_op req) key = inr svc →
    (Tier (request_op req) <= Level c)%Z ∧
    ∃ r, LookupAs (v_created v) (v_cache v) "service" key (Some (CanRead c)) = Found r ∧
      CanRead c (WriteResource r) = true ∧ CanWrite c (WriteResource r) = true ∧ s_ID svc = rec_ID r) as Hsvc.
  { intros key svc Hs. destruct (service_inr _ _ _ _ _ Hok Hs) as (r & Hr & _ & Hid).
    apply record_inr in Hr as (Hl & Hr & Hw & Ht). split; [exact Ht|]. exists r. by split_and!. }
  assert (∀ kind key r, record v c (request_op req) kind key = inr r →
    (Tier (request_op req) <= Level c)%Z ∧
    ∃ r', LookupAs (v_created v) (v_cache v) kind key (Some (CanRead c)) = Found r' ∧
      CanRead c (WriteResource r') = true ∧ CanWrite c (WriteResource r') = true ∧ rec_ID r = rec_ID r') as Hrec.
  { intros kind key r (Hl & Hr & Hw & Ht)%record_inr. split; [exact Ht|]. exists r. by split_and!. }
  destruct req as [key n|key image|key|key|op key change|key a|key a|key change|kind key force|kind name labels data];
    unfold judge in Hj; cbn [request_target].
  1,3,4,5: destruct (service_ v c _ key) as [|svc] eqn:Es; [discriminate|]; destruct (Hsvc _ _ Es) as [Ht Hr]; split; [exact Ht|].
  - destruct (m_Replicated _); [|discriminate]. injection Hj as <-. split; [exact Hr|intros _; exact I].
  - destruct (PreviousSpec (v_specs v (s_ID svc))) as [p|] eqn:Ep; [|discriminate].
    destruct (CheckHostAccessHeld _ _ _ _) eqn:Eh; [discriminate|]. injection Hj as <-. split; [exact Hr|]. intros Hlt.
    apply CheckHostAccessHeld_None in Eh as [?|[?|[? Hprev]]]; [lia|done|]. simpl. split; [done|]. by apply Hprev.
  - injection Hj as <-. split; [exact Hr|intros _; exact I].
  - injection Hj as <-. split; [exact Hr|intros _; exact I].
  - destruct (is_empty _); [discriminate|]. destruct (service_ v c _ key) as [|svc] eqn:Es; [discriminate|].
    destruct (Hsvc _ _ Es) as [Ht Hr]. split; [exact Ht|].
    destruct (CheckHostAccessHeld _ _ _ _) eqn:Eh; [discriminate|]. injection Hj as <-. split; [exact Hr|]. intros Hlt.
    by apply CheckHostAccessHeld_None in Eh as [?|[?|[? _]]]; [lia| |].
  - destruct (record v c _ "node" key) as [|r] eqn:Er; [discriminate|]. injection Hj as <-. destruct (Hrec _ _ _ Er) as [Ht Hr]. split; [exact Ht|split; [exact Hr|intros _; exact I]].
  - destruct (record v c _ "node" key) as [|r] eqn:Er; [discriminate|]. injection Hj as <-. destruct (Hrec _ _ _ Er) as [Ht Hr]. split; [exact Ht|split; [exact Hr|intros _; exact I]].
  - destruct (record v c _ "node" key) as [|r] eqn:Er; [discriminate|]. injection Hj as <-. destruct (Hrec _ _ _ Er) as [Ht Hr]. split; [exact Ht|split; [exact Hr|intros _; exact I]].
  - destruct (record v c _ kind key) as [|r] eqn:Er; [discriminate|]. injection Hj as <-. destruct (Hrec _ _ _ Er) as [Ht Hr]. split; [exact Ht|split; [exact Hr|intros _; exact I]].
  - unfold creatable in Hj. destruct (CanWrite c (kind +:+ ":" +:+ name)) eqn:Ew; [|discriminate]. cbn [negb] in Hj.
    destruct (belowTier c _ kind) eqn:Eb; [discriminate|]. apply belowTier_None in Eb. split; [exact Eb|]. split; [|intros _; exact I].
    split; [reflexivity|]. unfold CheckStackLabel in Hj. rewrite lookup_empty in Hj.
    destruct (labels.[StackLabel]) as [|x l] eqn:El; [by left|]. right. cbn [is_empty orb default] in Hj.
    rewrite bool_decide_false in Hj by discriminate. by destruct (CanWrite c ("stack:" +:+ String x l)).
Qed.

(** A record is hidden from a caller who cannot read it, whether it is there or
    not; an ambiguous name is, when the caller could not read it as a name. *)
Definition hidden (v : View) (c : Caller) (kind key : string) : Prop :=
  match LookupAs (v_created v) (v_cache v) kind key (Some (CanRead c)) with
  | Found r => CanRead c (WriteResource r) = false
  | Missing => True
  | Ambiguous _ _ => CanRead c (kind +:+ ":" +:+ key) = false
  end.

Lemma record_hidden v c op kind key : hidden v c kind key → record v c op kind key = inl (not_found kind key).
Proof.
  unfold hidden, record. destruct (LookupAs _ _ _ _ _); [|done|]; by intros ->.
Qed.

(** C21: A refusal never confirms that something exists: what a write to a
    record its caller cannot read is answered is what it would be answered had
    there been nothing there, whatever the cluster holds otherwise. *)
Theorem hidden_is_missing v v' c req kind key (Ht : request_target req = Some (kind, key))
    (Hh : hidden v c kind key) (Hh' : hidden v' c kind key) :
  judge v c req = judge v' c req ∧
  (judge v c req = inl (Classified (not_found kind key)) ∨
   ∃ key' image, req = UpdateServiceImage key' image ∧ TrimSpace image = "").
Proof.
  destruct req; simplify_eq/=; unfold service_; rewrite !record_hidden by done; try (by split; [|left]).
  destruct (is_empty _) eqn:E; [|by split; [|left]]. split; [done|]. right. apply is_empty_spec in E. eauto.
Qed.
End writes.

(** * A service under writes *)

(** What the engine makes of an update and of a rollback. *)
Class ServiceEngine := {
  engine_update : HeldService → ServiceSpec → HeldService;
  engine_rollback : HeldService → HeldService;
}.

(** It holds the spec it was given, and rolls back to the one before. *)
Class ServiceEngineLaws `{ServiceEngine} : Prop := {
  update_spec h spec : Spec (engine_update h spec) = spec;
  rollback_spec h previous : PreviousSpec h = Some previous → Spec (engine_rollback h) = previous;
}.

(** What scaling and restarting make of the part of a spec that is carried:
    scaling fails on a mode without replicas. *)
Class RestEdits := {
  scaled : Z → string → option string;
  restarted : string → string;
}.

Definition set_image (image : string) (cs : Container) : Container :=
  mkContainer image (Command cs) (Args_ cs) (Dir cs) (User cs) (Groups cs) (Healthcheck cs) (Secrets_ cs)
    (Configs_ cs) (Mounts cs) (Env cs) (CapabilityAdd cs) (ct_rest cs).

(** The client's mutation of the live service, and the update that follows; an
    error sends nothing. *)
Definition mutation `{RestEdits} (call : docker_call) : SpecChange :=
  match call with
  | CallScale _ n => λ spec,
      match scaled n (sp_rest spec) with
      | Some rest => SetRest rest spec
      | None => inl (ChangeFailed "cannot scale a global-mode service")
      end
  | CallImage _ image => EditContainer (λ cs, inr (set_image image cs))
  | CallRestart _ => λ spec, SetRest (restarted (sp_rest spec)) spec
  | CallUpdate _ change => change
  | _ => λ _, inl (ChangeFailed "not a service's")
  end.

Definition updateService `{ServiceEngine, RestEdits} (live : HeldService) (call : docker_call) : HeldService :=
  match call with
  | CallRollback _ => match PreviousSpec live with Some _ => engine_rollback live | None => live end
  | _ => match mutation call (Spec live) with inr next => engine_update live next | inl _ => live end
  end.

(** The changes the transports make leave the image alone. *)
Definition keeps_image (change : SpecChange) : Prop :=
  ∀ spec next, change spec = inr next → Image (containerOf next) = Image (containerOf spec).

Lemma sections_keep_image `{MapRange} :
  (∀ f, keeps_image (PatchEnv f)) ∧ (∀ f, keeps_image (PatchLabels f)) ∧ (∀ r, keeps_image (SetRest r)) ∧
  (∀ r, keeps_image (SetEndpointMode r)) ∧ (∀ p, keeps_image (SetPlacement p)) ∧ (∀ p, keeps_image (SetPorts p)) ∧
  (∀ h, keeps_image (SetHealthcheck h)) ∧ (∀ n, keeps_image (SetNetworks n)) ∧ (∀ s, keeps_image (SetSecrets s)) ∧
  (∀ c, keeps_image (SetConfigs c)) ∧ (∀ m, keeps_image (SetMounts m)).
Proof.
  split_and!; intros x [l cs n p q r] next; unfold PatchEnv, PatchLabels, SetRest, SetEndpointMode, SetPlacement,
    SetPorts, SetHealthcheck, SetNetworks, SetSecrets, SetConfigs, SetMounts, EditContainer, ensureContainerSpec,
    with_container, containerOf; simpl; destruct cs as [cs|]; simpl; repeat case_match; intros ?; by simplify_eq/=.
Qed.

Section runs.
Context `{MapRange, Unicode, Encodings, ServiceEngineLaws, RestEdits} (quote : string → string).
Context (id : string) (lookup : string → option StoredVolume).

(** The writes whose judgement is of the cached spec alone; every other is of
    the engine's, which the client's mutation is given. *)
Definition judged_cached (req : request) : bool :=
  match req with UpdateServiceImage _ _ | RollbackService _ => true | _ => false end.

(** Writes to a service by callers below the impactful tier, each judged on a
    cache that may be behind, but for a new image and a rollback, which are
    judged on the spec the engine holds. The volumes stay as they are, and an
    update leaves the image alone, as every transport's does
    ([sections_keep_image]). *)
Inductive run (h0 : HeldService) : HeldService → Prop :=
| run_start : run h0 h0
| run_write h v c req call :
    run h0 h → (judged_cached req = true → v_specs v id = h) → volume_of v = lookup → (Level c < OpsImpactful)%Z →
    (∀ op key change, req = UpdateService op key change → keeps_image change) →
    cache_ok (v_cache v) → judge quote v c req = inr call → call_id call = id →
    run h0 (updateService h call).

Lemma set_image_reaches image spec next :
  EditContainer (λ cs, inr (set_image image cs)) spec = inr next → reaches lookup next → reaches lookup spec.
Proof.
  unfold EditContainer. destruct (sp_Container spec) as [cs|] eqn:E; [|done]. intros [= <-].
  unfold reaches. rewrite !specHostAccess_spec. unfold containerOf, with_container. by rewrite E.
Qed.

Lemma SetRest_same rest spec next : SetRest rest spec = inr next →
  (reaches lookup next ↔ reaches lookup spec) ∧ code_key next = code_key spec ∧
  Image (containerOf next) = Image (containerOf spec).
Proof. intros [= <-]. by destruct spec. Qed.

(** What a service reaching the host runs is what it ran at the start. *)
Definition same_code (h0 h : HeldService) : Prop :=
  reaches lookup (Spec h0) ∧ code_key (Spec h) = code_key (Spec h0) ∧
  Image (containerOf (Spec h)) = Image (containerOf (Spec h0)).

Lemma judged_request v c req call :
  judge quote v c req = inr call →
  match call with
  | CallImage _ _ => ∃ key image, req = UpdateServiceImage key image
  | CallRollback _ => ∃ key, req = RollbackService key
  | CallUpdate _ change => ∃ op key inner, req = UpdateService op key inner ∧ change = CheckedChange (names_of v) c inner
  | _ => True
  end.
Proof.
  destruct req as [key n|key image|key|key|op key inner|key a|key a|key f|kind key force|kind name labels data];
    unfold judge; simpl; intros Hj.
  all: try (destruct (service_ _ _ _ _ _); [done|]).
  all: try (destruct (record _ _ _ _ _ _); [done|]).
  all: repeat (destruct (m_Replicated _) || destruct (is_empty _) || destruct (service_ _ _ _ _ _) ||
               destruct (PreviousSpec _) || destruct (CheckHostAccessHeld _ _ _ _) || destruct (creatable _ _ _ _ _ _)).
  all: try discriminate.
  all: injection Hj as <-; eauto 6.
Qed.

(** One write: what reaches the host afterwards did before, and runs the same. *)
Lemma write_step h v c req call :
  (judged_cached req = true → v_specs v id = h) → volume_of v = lookup → (Level c < OpsImpactful)%Z →
  (∀ op key change, req = UpdateService op key change → keeps_image change) →
  cache_ok (v_cache v) → judge quote v c req = inr call → call_id call = id →
  reaches lookup (Spec (updateService h call)) → same_code h (updateService h call).
Proof.
  intros Hh Hv Hl Hkeep Hok Hj Hid Hr. pose proof (judged_request _ _ _ _ Hj) as Hreq.
  pose proof (judged_host quote v c req call Hj Hl) as Hhost. rewrite Hid, Hv in Hhost.
  assert (∀ change : SpecChange, updateService h call = match change (Spec h) with inr next => engine_update h next | inl _ => h end →
    (∀ next, change (Spec h) = inr next → reaches lookup next → reaches lookup (Spec h) ∧
       code_key next = code_key (Spec h) ∧ Image (containerOf next) = Image (containerOf (Spec h))) →
    same_code h (updateService h call)) as Hupd.
  { intros change Hc Hnext. rewrite Hc in Hr |- *. destruct (change (Spec h)) as [|next] eqn:En; [by split|].
    unfold same_code. rewrite update_spec in Hr |- *. by apply Hnext. }
  destruct call as [cid n|cid image|cid|cid|cid change| | | | |];
    try (apply (Hupd (λ _, inl (ChangeFailed "not a service's"))); [done|done]).
  - apply (Hupd (mutation (CallScale cid n))); [done|]. intros next. simpl. destruct (scaled n _); [|done].
    intros Hn Hrn. destruct (SetRest_same _ _ _ Hn) as (? & ? & ?). by split; [tauto|].
  - destruct Hreq as (key & i & ->). rewrite Hh in Hhost by done. apply (Hupd (mutation (CallImage cid image))); [done|]. intros next Hn Hrn.
    by destruct (Hhost (set_image_reaches _ _ _ Hn Hrn)).
  - destruct Hreq as (key & ->). rewrite Hh in Hhost by done. destruct Hhost as [Hcur Hprev]. unfold updateService in *.
    destruct (PreviousSpec h) as [p|] eqn:Ep; [|done]. rewrite (rollback_spec h p Ep) in Hr.
    by destruct (Hprev p eq_refl).
  - apply (Hupd (mutation (CallRestart cid))); [done|]. intros next Hn Hrn.
    destruct (SetRest_same _ _ _ Hn) as (? & ? & ?). by split; [tauto|].
  - destruct Hreq as (op & key & inner & -> & ->). apply (Hupd (mutation (CallUpdate cid (CheckedChange (names_of v) c inner)))); [done|].
    intros next. simpl. unfold CheckedChange. destruct (inner (Spec h)) as [|next'] eqn:Ei; [done|].
    destruct (checkServiceChange _ _ _ _) eqn:Ec; [done|]. intros [= <-] Hrn. rewrite <-Hv in Hrn |- *.
    pose proof (host_checks_reach _ _ _ _ Ec Hl Hrn) as Hlive. destruct (host_checks _ _ _ _ Ec Hl) as (_ & _ & Hcode).
    split; [done|]. split; [symmetry; by apply Hcode|]. by apply (Hkeep op key inner).
Qed.

(** C7: However many writes callers below the impactful tier make to a service,
    in whatever order, it never reaches the host by a way it did not have, and
    as long as it reaches the host it runs exactly what it ran at the start:
    the same image, command, environment, files, ports, networks and
    placement. The volumes it mounts stay as they are meanwhile, an update keeps
    the image, as every section the transports offer does, and a new image or a
    rollback is judged on the spec the engine holds; scaling, restarting and
    updating may be judged on a cache that is behind. One judged on a spec the
    engine has moved on from can do what is denied here
    ([stale_image_change]). *)
Theorem below_impactful_never_escalates h0 h (Hrun : run h0 h) :
  reaches lookup (Spec h) → same_code h0 h.
Proof.
  induction Hrun as [|h v c req call Hrun IH Hh Hv Hl Hkeep Hok Hj Hid]; [by split|].
  intros Hr. destruct (write_step h v c req call Hh Hv Hl Hkeep Hok Hj Hid Hr) as (H1' & H2' & H3').
  destruct (IH H1') as (? & E2 & E3). unfold same_code. by rewrite H2', H3', E2, E3.
Qed.
End runs.

(** * Closed examples *)

Definition demo_engine : ServiceEngine := {|
  engine_update h spec := mkHeld spec (Some (Spec h));
  engine_rollback h := match PreviousSpec h with Some p => mkHeld p (Some (Spec h)) | None => h end;
|}.

#[export] Instance demo_engine_laws : ServiceEngineLaws (H := demo_engine).
Proof. split; [done|]. intros h p E. simpl. by rewrite E. Qed.

Definition demo_rest_edits : RestEdits := {| scaled n rest := Some rest; restarted rest := rest |}.

Definition demo_view (c : Cache) (h : HeldService) : View :=
  mkView c (λ _, h) (λ _, 0%Z) (λ _, mkStored "local" ∅).

Definition everyone (level : Z) : Caller := mkCaller (λ _, true) (λ _, true) level.

Lemma writes_judged_witness :
  let R := map_range_std in let U := ascii_unicode in let E := demo_encodings in
  let v := demo_view demo_cache (mkHeld (demo_spec "a" []) None) in
  judge (λ s, s) v (everyone 1) (UpdateServiceImage "web" " b ") = inr (CallImage "s1" "b") ∧
  ¬ reaches (volume_of v) (demo_spec "a" []).
Proof.
  intros R U E v.
  assert (judge (λ s, s) v (everyone 1) (UpdateServiceImage "web" " b ") = inr (CallImage "s1" "b")) as Hj
    by (vm_compute; reflexivity).
  split; [exact Hj|].
  destruct (writes_judged (λ s, s) v (everyone 1) (UpdateServiceImage "web" " b ") _ (reachable_ok 0 demo_cache demo_reachable) Hj)
    as (_ & _ & Hhost).
  apply Hhost. vm_compute. reflexivity.
Defined.

Lemma hidden_is_missing_witness :
  let R := map_range_std in let U := ascii_unicode in let E := demo_encodings in
  let nobody := mkCaller (λ _, false) (λ _, true) 3 in
  let h := mkHeld (demo_spec "a" []) None in
  judge (λ s, s) (demo_view demo_cache h) nobody (RestartService "web") =
  judge (λ s, s) (demo_view (New 0) h) nobody (RestartService "web").
Proof.
  intros R U E nobody h.
  apply (hidden_is_missing (λ s, s) (demo_view demo_cache h) (demo_view (New 0) h) nobody (RestartService "web") "service" "web").
  - reflexivity.
  - vm_compute. reflexivity.
  - vm_compute. exact I.
Defined.

(** A service with a bind mount, scaled by a caller whose cache has not heard of
    the mount. *)
Lemma below_impactful_never_escalates_witness :
  let R := map_range_std in let U := ascii_unicode in let E := demo_encodings in
  let G := demo_engine in let D := demo_rest_edits in
  let h0 := mkHeld (demo_spec "a" [demo_bind]) None in
  let v := demo_view demo_cache (mkHeld (demo_spec "a" []) None) in
  same_code (volume_of v) h0 (updateService h0 (CallScale "s1" 3)).
Proof.
  intros R U E G D h0 v.
  apply (below_impactful_never_escalates (λ s, s) "s1" (volume_of v) h0).
  - apply (run_write (λ s, s) "s1" (volume_of v) h0 h0 v (everyone 1) (ScaleService "web" 3) (CallScale "s1" 3)).
    + apply run_start.
    + discriminate.
    + reflexivity.
    + vm_compute. reflexivity.
    + intros op key change Heq. discriminate Heq.
    + exact (reachable_ok 0 demo_cache demo_reachable).
    + vm_compute. reflexivity.
    + reflexivity.
  - vm_compute. discriminate.
Defined.

(** An image update and a rollback are judged by the cache's copy of the
    service, and applied to the engine's: while the cache is behind, a caller
    below the impactful tier changes what runs in a service that has come to
    reach the host. *)
Example stale_image_change :
  let R := map_range_std in let U := ascii_unicode in let E := demo_encodings in
  let G := demo_engine in let D := demo_rest_edits in
  let cached := mkHeld (demo_spec "a" []) None in
  let live := mkHeld (demo_spec "a" [demo_bind]) (Some (demo_spec "a" [])) in
  let v := demo_view demo_cache cached in
  ∃ call, judge (λ s, s) v (everyone 1) (UpdateServiceImage "web" "evil") = inr call ∧
    specHostAccess (Some (Spec (updateService live call))) (presumed_local (volume_of v)) = "a bind mount of /var/run" ∧
    Image (containerOf (Spec (updateService live call))) = "evil".
Proof. intros. exists (CallImage "s1" "evil"). vm_compute. done. Qed.
