(* ===== verification/Placement.v ===== *)
(** Where Swarm may put a task: internal/placement/constraints.go,
    internal/quorum/quorum.go and internal/cluster/constraints.go. *)
From S2P Require Import Prelude GoStrings GoStrconv GoNet.
#[local] Open Scope string_scope.
#[local] Open Scope Z_scope.
#[local] Open Scope list_scope.

(** What these packages read of a swarm.Node. *)
Record SwarmNode := mkSwarmNode {
  sn_ID : string;
  sn_Labels : gmap string string;
  sn_Role : string;
  sn_Availability : string;
  sn_State : string;
  sn_Addr : string;
  sn_Hostname : string;
  sn_OS : string;
  sn_Arch : string;
  sn_EngineLabels : gmap string string;
  sn_Manager : option string;         (* the reachability of its ManagerStatus *)
}.

Record Platform := mkPlatform { pl_Arch : string; pl_OS : string }.

(** swarm.Placement; MaxReplicas is a uint64. *)
Record PlacementSpec := mkPlacement {
  Constraints : list string;
  Platforms : list Platform;
  MaxReplicas : Z;
}.

Section placement.
Context `{Unicode}.

(** * Constraints *)

Definition splitConstraint (raw : string) : option (string * bool * string) :=
  let split '(key, value) :=
    let key := TrimSpace key in let value := TrimSpace value in
    if is_empty key || is_empty value then None else Some (key, value) in
  match cut_at "==" raw with
  | Some parts => (λ kv, (kv.1, true, kv.2)) <$> split parts
  | None =>
      match cut_at "!=" raw with
      | Some parts => (λ kv, (kv.1, false, kv.2)) <$> split parts
      | None => None
      end
  end.

Definition cutPrefixFold (s prefix : string) : option string :=
  if (String.length s <? String.length prefix)%nat || negb (EqualFold (str_take (String.length prefix) s) prefix)
  then None else Some (str_drop (String.length prefix) s).

Definition label_value (labels : gmap string string) (label : string) : string * bool :=
  (default "" (labels !! label), negb (is_empty label)).

Definition nodeAttribute (node : SwarmNode) (key : string) : string * bool :=
  match cutPrefixFold key "node.labels." with
  | Some label => label_value (sn_Labels node) label
  | None =>
      match cutPrefixFold key "engine.labels." with
      | Some label => label_value (sn_EngineLabels node) label
      | None =>
          let key := ToLower key in
          if bool_decide (key = "node.id") then (sn_ID node, true)
          else if bool_decide (key = "node.hostname") then (sn_Hostname node, true)
          else if bool_decide (key = "node.role") then
            (match sn_Manager node with Some _ => "manager" | None => "worker" end, true)
          else if bool_decide (key = "node.platform.os") then (sn_OS node, true)
          else if bool_decide (key = "node.platform.arch") then (sn_Arch node, true)
          else ("", false)
      end
  end.

Definition addressMatches (addr value : string) : bool * bool :=
  let nodeIP := ParseIP addr in
  match ParseIP value with
  | Some ip => (match nodeIP with Some n => Z.eqb ip n | None => false end, true)
  | None =>
      match ParseCIDR value with
      | Some subnet => (match nodeIP with Some n => Contains_ subnet n | None => false end, true)
      | None => (false, false)
      end
  end.

(** Whether one constraint holds. *)
Definition constraint_holds (node : SwarmNode) (raw : string) : bool :=
  match splitConstraint raw with
  | None => false
  | Some (key, equal, value) =>
      let '(matches, known) :=
        if EqualFold key "node.ip" then addressMatches (sn_Addr node) value
        else let '(actual, known) := nodeAttribute node key in (EqualFold actual value, known) in
      known && (if equal then matches else negb matches)
  end.

Fixpoint Satisfies (node : SwarmNode) (constraints : list string) : bool * string :=
  match constraints with
  | [] => (true, "")
  | raw :: rest => if constraint_holds node raw then Satisfies node rest else (false, TrimSpace raw)
  end.

(** * Platforms *)

Definition isAttestationPlatform (p : Platform) : bool :=
  bool_decide (pl_Arch p = "unknown") && bool_decide (pl_OS p = "unknown").

Definition normalizeArch (arch : string) : string :=
  if bool_decide (arch ∈ ["x86_64"; "x86-64"; "amd64"]) then "amd64"
  else if bool_decide (arch ∈ ["aarch64"; "arm64"; "armv8"; "armv8l"]) then "arm64"
  else if bool_decide (arch ∈ ["i386"; "i686"; "x86"; "386"]) then "386"
  else if bool_decide (arch ∈ ["armv7l"; "armv7"; "armhf"; "arm"]) then "arm"
  else arch.

Definition renderPlatform (p : Platform) (absent : string) : string :=
  let or_absent s := if is_empty s then absent else s in
  or_absent (pl_OS p) +:+ "/" +:+ or_absent (pl_Arch p).

Definition describePlatform (p : Platform) : string := renderPlatform p "any".
Definition describeNodePlatform (p : Platform) : string := renderPlatform p "unknown".

(** One entry of the list against a node's platform. *)
Definition platform_matches (node : SwarmNode) (want : Platform) : bool :=
  let haveArch := normalizeArch (sn_Arch node) in
  (is_empty (pl_Arch want) || is_empty haveArch || bool_decide (normalizeArch (pl_Arch want) = haveArch)) &&
  (is_empty (pl_OS want) || is_empty (sn_OS node) || bool_decide (pl_OS want = sn_OS node)).

(** The loop over the entries; [named] renders those tried so far. *)
Fixpoint platform_loop (node : SwarmNode) (named : list string) (platforms : list Platform) : bool * list string :=
  match platforms with
  | [] => (false, named)
  | want :: rest =>
      if isAttestationPlatform want then platform_loop node named rest else
      let named := named ++ [describePlatform want] in
      if platform_matches node want then (true, named) else platform_loop node named rest
  end.

Definition nodeSupportsPlatform (node : SwarmNode) (platforms : list Platform) : bool * string :=
  match platforms with
  | [] => (true, "")
  | _ =>
      match platform_loop node [] platforms with
      | (true, _) => (true, "")
      | (false, []) => (true, "")
      | (false, named) =>
          (false, "runs " +:+ describeNodePlatform (mkPlatform (sn_Arch node) (sn_OS node)) +:+
                  "; the service supports " +:+ Join named ", ")
      end
  end.

(** * What a node can host *)

Definition nodeCanHost (node : SwarmNode) (spec : option PlacementSpec) (placed : nat) : bool * string :=
  match spec with
  | None => (true, "")
  | Some spec =>
      match Satisfies node (Constraints spec) with
      | (false, reason) => (false, reason)
      | (true, _) =>
          match nodeSupportsPlatform node (Platforms spec) with
          | (false, reason) => (false, reason)
          | (true, _) =>
              if (0 <? MaxReplicas spec) && (MaxReplicas spec <=? Z.of_nat placed) then
                (false, "already runs " +:+ Itoa (Z.of_nat placed) +:+ " of at most " +:+
                        FormatUint (MaxReplicas spec) +:+ " replica(s) per node")
              else (true, "")
          end
      end
  end.

(** * Quorum *)

Record Quorum := mkQuorum { Managers : nat; Reachable_ : nat; Size_ : nat; Held : bool; CanLose : nat }.

Definition Reachable (n : SwarmNode) : bool :=
  match sn_Manager n with Some r => negb (bool_decide (r = "unreachable")) | None => false end.

Definition Size (managers : nat) : nat := (managers / 2 + 1)%nat.

Definition count_manager (q : nat * nat) (n : SwarmNode) : nat * nat :=
  match sn_Manager n with
  | None => q
  | Some _ => (S q.1, if Reachable n then S q.2 else q.2)
  end.

Definition Of (nodes : list SwarmNode) : Quorum :=
  let '(managers, reachable) := foldl count_manager (0, 0)%nat nodes in
  if (managers =? 0)%nat then mkQuorum 0 reachable 0 false 0 else
  let size := Size managers in
  mkQuorum managers reachable size (size <=? reachable)%nat (reachable - size).

(** * Global services *)

Definition schedulableNodes (nodes : list SwarmNode) (withPaused : bool) : list SwarmNode :=
  filter (λ n, bool_decide (sn_State n = "ready") &&
    (bool_decide (sn_Availability n = "active") || (withPaused && bool_decide (sn_Availability n = "pause"))) = true) nodes.

Definition globalTaskCount (spec : option PlacementSpec) (nodes : list SwarmNode) : nat :=
  match spec with
  | None => length nodes
  | Some spec =>
      match Constraints spec with
      | [] => length nodes
      | constraints => length (filter (λ n, (Satisfies n constraints).1 = true) nodes)
      end
  end.

(** * What they decide *)

Lemma Satisfies_iff n l : (Satisfies n l).1 = true ↔ Forall (λ c, constraint_holds n c = true) l.
Proof.
  induction l as [|c l IH]; cbn [Satisfies]; [by split|]. rewrite Forall_cons.
  destruct (constraint_holds n c); [by rewrite IH; split; [auto|intros []]|]. split; [discriminate|intros []; done].
Qed.

Lemma Satisfies_names n l : (Satisfies n l).1 = false →
  ∃ k c m, l = k ++ c :: m ∧ Forall (λ c, constraint_holds n c = true) k ∧ constraint_holds n c = false ∧ (Satisfies n l).2 = TrimSpace c.
Proof.
  induction l as [|c l IH]; cbn [Satisfies]; [discriminate|].
  destruct (constraint_holds n c) eqn:E; [|intros _; by exists [], c, l].
  intros (k & d & m & -> & Hk & Hd & Hn)%IH. exists (c :: k), d, m. split_and!; [done|by constructor|done..].
Qed.

(** A node's platform is one the list names, when it names any. *)
Definition platform_ok (n : SwarmNode) (platforms : list Platform) : Prop :=
  let named := filter (λ p, isAttestationPlatform p = false) platforms in
  named = [] ∨ Exists (λ p, platform_matches n p = true) named.

Lemma platform_loop_spec n l named :
  (platform_loop n named l).1 = true ↔ Exists (λ p, platform_matches n p = true) (filter (λ p, isAttestationPlatform p = false) l).
Proof.
  revert named. induction l as [|p l IH]; intros named; cbn [platform_loop]; [by rewrite Exists_nil|].
  rewrite filter_cons. destruct (isAttestationPlatform p); [rewrite decide_False by done; apply IH|].
  rewrite decide_True, Exists_cons by done. destruct (platform_matches n p); [split; auto|]. rewrite IH. split; [auto|by intros []].
Qed.

Lemma platform_loop_named n l named : (platform_loop n named l).1 = false →
  (platform_loop n named l).2 = named ++ (describePlatform <$> filter (λ p, isAttestationPlatform p = false) l).
Proof.
  revert named. induction l as [|p l IH]; intros named; cbn [platform_loop]; [by rewrite app_nil_r|].
  rewrite filter_cons. destruct (isAttestationPlatform p); [rewrite decide_False by done; apply IH|].
  rewrite decide_True by done. destruct (platform_matches n p); [discriminate|].
  intros ->%IH. by rewrite <-app_assoc.
Qed.

Lemma nodeSupportsPlatform_iff n l : (nodeSupportsPlatform n l).1 = true ↔ platform_ok n l.
Proof.
  unfold nodeSupportsPlatform, platform_ok. destruct l as [|p l]; [split; [by left|done]|].
  pose proof (platform_loop_spec n (p :: l) []) as L. pose proof (platform_loop_named n (p :: l) []) as N.
  destruct (platform_loop n [] (p :: l)) as [[] named]; cbn [fst snd app] in *; [split; [right; by apply L|done]|].
  rewrite (N eq_refl). destruct (filter _ (p :: l)) as [|q m]; cbn [fmap list_fmap]; [split; [by left|done]|].
  split; [discriminate|]. intros [?|?%L]; discriminate.
Qed.

(** The filters a node passes however many replicas it runs. *)
Definition fits_node (spec : option PlacementSpec) (n : SwarmNode) : Prop :=
  match spec with
  | None => True
  | Some spec => Forall (λ c, constraint_holds n c = true) (Constraints spec) ∧ platform_ok n (Platforms spec)
  end.

(** How many more tasks a per-node cap leaves room for; no cap, no bound. *)
Definition within_cap (spec : option PlacementSpec) (placed : nat) : Prop :=
  match spec with
  | Some spec => 0 < MaxReplicas spec → Z.of_nat placed <= MaxReplicas spec
  | None => True
  end.

Lemma nodeCanHost_iff n spec placed :
  (nodeCanHost n spec placed).1 = true ↔ fits_node spec n ∧ within_cap spec (S placed).
Proof.
  unfold nodeCanHost, fits_node, within_cap. destruct spec as [s|]; [|done].
  pose proof (Satisfies_iff n (Constraints s)) as S1. destruct (Satisfies n (Constraints s)) as [[] ?]; cbn [fst] in S1;
    [|split; [discriminate|]; intros [[?%S1 _] _]; discriminate].
  pose proof (nodeSupportsPlatform_iff n (Platforms s)) as S2. destruct (nodeSupportsPlatform n (Platforms s)) as [[] ?]; cbn [fst] in S2;
    [|split; [discriminate|]; intros [[_ ?%S2] _]; discriminate].
  destruct (Z.ltb_spec 0 (MaxReplicas s)), (Z.leb_spec (MaxReplicas s) (Z.of_nat placed)); cbn [andb fst].
  1: split; [discriminate|intros [_ ?]; lia].
  all: split; [intros _; split; [tauto|lia]|done].
Qed.

(** * Quorum *)

Lemma count_manager_foldl l m r :
  foldl count_manager (m, r) l =
  ((m + length (filter (λ n, is_Some (sn_Manager n)) l))%nat, (r + length (filter (λ n, Reachable n = true) l))%nat).
Proof.
  revert m r. induction l as [|n l IH]; intros m r; [by rewrite !Nat.add_0_r|]. cbn [foldl]. rewrite !filter_cons.
  destruct (sn_Manager n) as [s|] eqn:E.
  - replace (count_manager (m, r) n) with (S m, if Reachable n then S r else r) by (unfold count_manager; by rewrite E).
    rewrite (decide_True (P := is_Some (Some s))) by done. rewrite IH.
    destruct (Reachable n); [rewrite decide_True by done|rewrite decide_False by done]; cbn [length]; f_equal; lia.
  - replace (count_manager (m, r) n) with (m, r) by (unfold count_manager; by rewrite E).
    rewrite IH, (decide_False (P := is_Some None)) by (by intros []).
    rewrite decide_False by (unfold Reachable; by rewrite E). done.
Qed.

Lemma reachable_managers l :
  (length (filter (λ n, Reachable n = true) l) <= length (filter (λ n, is_Some (sn_Manager n)) l))%nat.
Proof.
  induction l as [|n l IH]; [done|]. rewrite !filter_cons. repeat case_decide; cbn [length]; try lia.
  exfalso. unfold Reachable in *. destruct (sn_Manager n); [by eauto|done].
Qed.

(** Quorum is held when a majority of the managers is reachable, and the swarm
    can lose as many reachable ones as leave a majority. *)
Lemma quorum_majority l :
  let managers := length (filter (λ n, is_Some (sn_Manager n)) l) in
  let reachable := length (filter (λ n, Reachable n = true) l) in
  Managers (Of l) = managers ∧
  (Held (Of l) = true ↔ (managers < 2 * reachable)%nat) ∧
  (∀ k, Held (Of l) = true → (k <= CanLose (Of l) ↔ managers < 2 * (reachable - k))%nat).
Proof.
  unfold Of. rewrite count_manager_foldl. cbn zeta. rewrite !Nat.add_0_l.
  pose proof (reachable_managers l) as Hr.
  set (m := length (filter (λ n, is_Some (sn_Manager n)) l)) in *. set (r := length (filter (λ n, Reachable n = true) l)) in *.
  destruct (Nat.eqb_spec m 0) as [E|E]; cbn [Managers Held CanLose].
  - split_and!; [done|split; [discriminate|lia]|discriminate].
  - assert (∀ k, Size m <= k ↔ m < 2 * k)%nat as Hs.
    { intros k. unfold Size. pose proof (Nat.div_mod m 2 ltac:(lia)). pose proof (Nat.mod_upper_bound m 2 ltac:(lia)). lia. }
    split_and!; [done|by rewrite Nat.leb_le, Hs|]. intros k Hk%Nat.leb_le. rewrite <-Hs. assert (1 <= Size m)%nat by (unfold Size; lia). lia.
Qed.
End placement.

Definition demo_worker : SwarmNode :=
  mkSwarmNode "n2" {["zone" := "East"]} "worker" "active" "ready" "10.0.0.7" "host-2" "linux" "aarch64" ∅ None.

Example constraints_demo :
  (Satisfies (H := ascii_unicode) demo_worker ["node.role == worker"; "node.labels.zone==east"; "node.labels.gpu != yes"; "NODE.IP==10.0.0.0/24"]).1 = true ∧
  Satisfies (H := ascii_unicode) demo_worker ["node.role==worker"; " node.ip != 10.0.0.300 "] = (false, "node.ip != 10.0.0.300") ∧
  Satisfies (H := ascii_unicode) demo_worker ["weird.key!=1"] = (false, "weird.key!=1").
Proof. vm_compute. done. Qed.

Example platforms_demo :
  nodeSupportsPlatform demo_worker [mkPlatform "unknown" "unknown"; mkPlatform "amd64" "linux"] =
    (false, "runs linux/aarch64; the service supports linux/amd64") ∧
  nodeSupportsPlatform demo_worker [mkPlatform "amd64" "linux"; mkPlatform "arm64" ""] = (true, "").
Proof. vm_compute. done. Qed.
