(* ===== verification/ServiceState.v ===== *)
(** A service's condition: internal/cluster/state.go, and the wait for it to
    settle of internal/cluster/converge.go. *)
From S2P Require Import Prelude GoStrings GoStrconv CacheState CacheList Placement.
#[local] Open Scope string_scope.
#[local] Open Scope Z_scope.
#[local] Open Scope list_scope.

(** A service as these files read one: what the cache reads of it, the state of
    its UpdateStatus, the counts of its ReplicatedJob mode (TotalCompletions and
    MaxConcurrent, each a uint64), and what topology.go and drainimpact.go ask
    of its task template and endpoint. *)
Record SwarmService := mkSwarmService {
  ss : Service;
  ss_Update : option string;
  ss_Job : option Z * option Z;
  ss_Placement : option PlacementSpec;
  ss_Image : option string;                     (* of its ContainerSpec *)
  ss_VirtualIPs : list string;                  (* the network IDs *)
  ss_Networks : list (string * list string);    (* targets and aliases *)
}.

Definition ss_ID (s : SwarmService) : string := s_ID (ss s).
Definition is_global (s : SwarmService) : bool := m_Global (s_Mode (ss s)).

(** The replicas a replicated service names. *)
Definition replicas (s : SwarmService) : option Z :=
  match m_Replicated (s_Mode (ss s)) with Some (Some n) => Some n | _ => None end.

Definition serviceUpdateInFlight (s : SwarmService) : bool :=
  match ss_Update s with
  | None => false
  | Some state => bool_decide (state ∈ ["updating"; "rollback_started"; "rollback_paused"])
  end.

(** int of a uint64. *)
Definition int_of (n : Z) : Z := wrap_int64 n.

Definition jobTotalCompletions (s : SwarmService) : Z :=
  if negb (m_ReplicatedJob (s_Mode (ss s))) then 0 else
  match ss_Job s with
  | (Some total, _) => int_of total
  | (None, Some concurrent) => int_of concurrent
  | (None, None) => 1
  end.

Definition jobTarget (s : SwarmService) : Z := Z.max (jobTotalCompletions s) 1.

Definition jobState (s : SwarmService) (runningCount completedCount : Z) : string :=
  if 0 <? runningCount then "running"
  else if jobTarget s <=? completedCount then "completed"
  else "failed".

Definition ServiceConverged (s : SwarmService) (runningCount completedCount : Z) : bool * string :=
  if serviceUpdateInFlight s then (false, "update in progress (" +:+ Itoa runningCount +:+ " running)") else
  if IsJobService (ss s) then
    if bool_decide (jobState s runningCount completedCount = "completed")
    then (true, "converged: job completed (" +:+ Itoa completedCount +:+ " tasks)")
    else (false, "waiting: " +:+ Itoa completedCount +:+ " tasks completed, " +:+ Itoa runningCount +:+ " running")
  else
  match replicas s with
  | None => (true, "converged: " +:+ Itoa runningCount +:+ " tasks running")
  | Some n =>
      let desired := int_of n in
      if runningCount =? desired
      then (true, "converged: " +:+ Itoa runningCount +:+ "/" +:+ Itoa desired +:+ " replicas running")
      else (false, "waiting: " +:+ Itoa runningCount +:+ "/" +:+ Itoa desired +:+ " replicas running")
  end.

Record Eligible := mkEligible { El_N : nat; El_Known : bool }.

Definition EligibleIn (counts : gmap string nat) (serviceID : string) : Eligible :=
  mkEligible (default 0%nat (counts !! serviceID)) (bool_decide (is_Some (counts !! serviceID))).

Definition DeriveServiceState (s : SwarmService) (runningCount completedCount : Z)
    (eligible : Eligible) (flapping : bool) : string :=
  if serviceUpdateInFlight s then "updating"
  else if IsJobService (ss s) then jobState s runningCount completedCount
  else if is_global s then
    if (runningCount =? 0) && (negb (El_Known eligible) || (0 <? El_N eligible)%nat) then "pending"
    else if flapping then "flapping" else "running"
  else
    let desired := match replicas s with Some n => int_of n | None => 0 end in
    if (0 <? desired) && (runningCount =? 0) then "failed"
    else if runningCount <? desired then "pending"
    else if flapping then "flapping" else "running".

Definition ReplicaCount (s : SwarmService) : Z := match replicas s with Some n => int_of n | None => 0 end.

Definition DesiredTaskCount (s : SwarmService) (eligibleNodes : Z) : Z :=
  if IsJobService (ss s) then jobTarget s
  else if is_global s then eligibleNodes
  else ReplicaCount s.

Definition DeriveNodeState (n : SwarmNode) : string :=
  if negb (bool_decide (sn_State n = "ready")) then sn_State n
  else if negb (bool_decide (sn_Availability n = "active")) then sn_Availability n
  else "ready".

(** What CountServiceStates reads of a snapshot. *)
Record Counts := mkCounts {
  RunningByService : gmap string Z;
  CompletedJobsByService : gmap string Z;
  FlappingOf : gmap string bool;
}.

Definition at_id {A} (d : A) (m : gmap string A) (id : string) : A := default d (m !! id).

Definition count_state (snap : Counts) (eligible : gmap string nat) (n : nat * nat) (s : SwarmService) : nat * nat :=
  let state := DeriveServiceState s (at_id 0 (RunningByService snap) (ss_ID s))
                 (at_id 0 (CompletedJobsByService snap) (ss_ID s)) (EligibleIn eligible (ss_ID s))
                 (at_id false (FlappingOf snap) (ss_ID s)) in
  if bool_decide (state ∈ ["running"; "completed"]) then (S n.1, n.2)
  else if bool_decide (state ∈ ["failed"; "pending"; "flapping"]) then (n.1, S n.2)
  else n.

Definition CountServiceStates (snap : Counts) (services : list SwarmService) (eligible : gmap string nat) : nat * nat :=
  foldl (count_state snap eligible) (0, 0)%nat services.

(** * Waiting *)

(** What one look at the cache gives: the service, and its counts. *)
Record Look := mkLook { seen : option SwarmService; seen_running : Z; seen_completed : Z }.

Definition serviceConvergedAt (l : Look) (minVersion : Z) : bool * string :=
  match seen l with
  | None => (false, "service not in the cache yet")
  | Some svc =>
      if s_Version (ss svc) <? minVersion then
        (false, "waiting: the mutation is not visible yet (cache at version " +:+ FormatUint (s_Version (ss svc)) +:+
                ", wrote " +:+ FormatUint minVersion +:+ ")")
      else ServiceConverged svc (seen_running l) (seen_completed l)
  end.

(** AwaitService over what happens to it: its first look, one per tick after
    that, and then the end of its context. Its error carries the context's. *)
Fixpoint AwaitService (first : Look) (ticks : list Look) (serviceID : string) (minVersion : Z) (ended : string)
    : string * option string :=
  let '(done_, progress) := serviceConvergedAt first minVersion in
  if done_ then (progress, None) else
  match ticks with
  | [] => (progress, Some ("service " +:+ serviceID +:+ " did not converge (" +:+ progress +:+ "): " +:+ ended))
  | next :: ticks => AwaitService next ticks serviceID minVersion ended
  end.

(** * What the states say *)

Lemma jobTarget_pos s : 1 <= jobTarget s.
Proof. unfold jobTarget. lia. Qed.

(** The modes are exclusive: Docker sets one of the four pointers. *)
Definition one_mode (s : SwarmService) : Prop :=
  let m := s_Mode (ss s) in
  (m_Global m = true → m_Replicated m = None ∧ IsJobService (ss s) = false) ∧
  (IsJobService (ss s) = true → m_Replicated m = None).

(** The state a service is shown with and the end of a wait for it agree. *)
Theorem converged_state s running completed eligible flapping :
  one_mode s → 0 <= running →
  let state := DeriveServiceState s running completed eligible flapping in
  (ServiceConverged s running completed).1 = true →
  state = "completed" ∧ IsJobService (ss s) = true ∨
  IsJobService (ss s) = false ∧
    (state = (if flapping then "flapping" else "running") ∨ is_global s = true ∧ running = 0 ∧ state = "pending").
Proof.
  intros [Hg Hj] Hr. cbn zeta. unfold ServiceConverged, DeriveServiceState.
  destruct (serviceUpdateInFlight s); [discriminate|]. destruct (IsJobService (ss s)) eqn:Ej.
  { case_bool_decide as E; [rewrite E; by left|discriminate]. }
  intros Hc. right. split; [done|]. unfold replicas in *. destruct (is_global s) eqn:Eg.
  - destruct (Z.eqb_spec running 0); cbn [andb]; [|by left]. destruct (_ || _); [by right|by left].
  - left. destruct (m_Replicated (s_Mode (ss s))) as [[n|]|].
    + destruct (Z.eqb_spec running (int_of n)) as [<-|]; [|discriminate].
      destruct (Z.ltb_spec 0 running), (Z.eqb_spec running 0); cbn [andb]; try lia; by rewrite Z.ltb_irrefl.
    + cbn [Z.ltb Z.compare andb]. destruct (Z.ltb_spec running 0); [lia|done].
    + cbn [Z.ltb Z.compare andb]. destruct (Z.ltb_spec running 0); [lia|done].
Qed.

(** What settles a replicated service: no update in flight and exactly its replicas. *)
Lemma converged_replicated s running completed n :
  IsJobService (ss s) = false → replicas s = Some n →
  (ServiceConverged s running completed).1 = true ↔ serviceUpdateInFlight s = false ∧ running = int_of n.
Proof.
  intros Hj Hn. unfold ServiceConverged. rewrite Hj, Hn. destruct (serviceUpdateInFlight s); [split; [discriminate|by intros []]|].
  destruct (Z.eqb_spec running (int_of n)); cbn [fst]; split; [done|done|discriminate|by intros []].
Qed.

(** A look that ends a wait. *)
Definition settled (minVersion : Z) (l : Look) : Prop :=
  ∃ svc, seen l = Some svc ∧ minVersion <= s_Version (ss svc) ∧
    (ServiceConverged svc (seen_running l) (seen_completed l)).1 = true.

Lemma convergedAt_settled l v : (serviceConvergedAt l v).1 = true ↔ settled v l.
Proof.
  unfold serviceConvergedAt, settled. destruct (seen l) as [svc|]; [|split; [discriminate|by intros (? & ? & _)]].
  destruct (Z.ltb_spec (s_Version (ss svc)) v).
  - split; [discriminate|]. intros (? & [= <-] & ? & _). lia.
  - split; [eauto|]. by intros (? & [= <-] & _ & ?).
Qed.

(** A wait for a service ends well exactly when one of its looks shows the
    service settled, at the version the mutation wrote or a later one; it then
    ends on the first such look and reports it, so a service that still shows
    the state from before the write is never taken for settled. Otherwise it
    lasts until its context ends, and it reports the last look with the error. *)
Theorem await_settles first ticks id v ended :
  let looks := first :: ticks in
  match AwaitService first ticks id v ended with
  | (progress, None) =>
      ∃ before l after, looks = before ++ l :: after ∧ Forall (λ l, ¬ settled v l) before ∧ settled v l ∧
        progress = (serviceConvergedAt l v).2
  | (progress, Some _) =>
      Forall (λ l, ¬ settled v l) looks ∧ ∃ l, last looks = Some l ∧ progress = (serviceConvergedAt l v).2
  end.
Proof.
  revert first. induction ticks as [|next ticks IH]; intros first; cbn zeta; cbn [AwaitService];
    pose proof (convergedAt_settled first v) as Hs; destruct (serviceConvergedAt first v) as [[] progress] eqn:E; cbn [fst] in Hs.
  - exists [], first, []. rewrite E. split_and!; [done..|by apply Hs|done].
  - split; [constructor; [by intros ?%Hs|done]|]. exists first. by rewrite E.
  - exists [], first, (next :: ticks). rewrite E. split_and!; [done..|by apply Hs|done].
  - assert (¬ settled v first) as Hn by (by intros ?%Hs).
    specialize (IH next). cbn zeta in IH. destruct (AwaitService next ticks id v ended) as [p [e|]].
    + destruct IH as (Hf & l & Hl & ->). split; [by constructor|]. exists l. by rewrite last_cons, Hl.
    + destruct IH as (before & l & after & Eq & Hf & Hl & ->). exists (first :: before), l, after.
      rewrite Eq. split_and!; [done|by constructor|done..].
Qed.

Section demo.
Definition demo_replicated (version n : Z) (update : option string) : SwarmService :=
  mkSwarmService (mkService "s1" version "web" ∅ (mkTaskSpec None []) None (mkServiceMode (Some (Some n)) false false false) None)
    update (None, None) None None [] [].

(** The scale-down is not seen yet; then it is, with too many tasks; then it settles. *)
Example await_demo :
  let old := mkLook (Some (demo_replicated 7 5 None)) 5 0 in
  let busy := mkLook (Some (demo_replicated 8 2 None)) 5 0 in
  let settled := mkLook (Some (demo_replicated 8 2 None)) 2 0 in
  AwaitService old [busy; settled; old] "s1" 8 "context deadline exceeded" = ("converged: 2/2 replicas running", None) ∧
  AwaitService old [busy] "s1" 8 "context deadline exceeded" =
    ("waiting: 5/2 replicas running",
     Some "service s1 did not converge (waiting: 5/2 replicas running): context deadline exceeded").
Proof. vm_compute. done. Qed.
End demo.
