(* ===== verification/Topology.v ===== *)
(** The cluster as a graph: internal/cluster/topology.go, and what a drained
    node's work can move to, internal/cluster/drainimpact.go. *)
From S2P Require Import Prelude GoStrings GoStrconv CacheState CacheStacks CacheList Placement ServiceState.
#[local] Open Scope string_scope.
#[local] Open Scope nat_scope.
#[local] Open Scope list_scope.

(** * Graphs *)

Record TopologyNode := mkTopologyNode {
  tn_ID : string; tn_Label : string; tn_Type : string;
  tn_Group : string; tn_Detail : string; tn_State : string;
}.

Record TopologyEdge := mkTopologyEdge { te_Source : string; te_Target : string; te_Label : string }.

Record TopologyGraph := mkTopologyGraph {
  View : string; Subject : string; Note : string;
  tg_Nodes : list TopologyNode; tg_Edges : list TopologyEdge;
}.

Definition compareNodes (a b : TopologyNode) : comparison :=
  cmp_or (str_compare (tn_Type a) (tn_Type b))
    (cmp_or (str_compare (tn_Label a) (tn_Label b)) (str_compare (tn_ID a) (tn_ID b))).

Definition compareEdges (a b : TopologyEdge) : comparison :=
  cmp_or (str_compare (te_Source a) (te_Source b)) (str_compare (te_Target a) (te_Target b)).

Definition newGraph (view : string) (nodes : list TopologyNode) (edges : list TopologyEdge) : TopologyGraph :=
  mkTopologyGraph view "" "" (SortFunc compareNodes nodes) (SortFunc compareEdges edges).

Definition with_subject (g : TopologyGraph) (subject : string) : TopologyGraph :=
  mkTopologyGraph (View g) subject (Note g) (tg_Nodes g) (tg_Edges g).

Definition StackNamespaceLabel : string := StackLabel.

Definition StripImageDigest (image : string) : string :=
  match Cut image "@sha256:" with (before, _, true) => before | _ => image end.

Definition serviceNode (svc : SwarmService) (state : string) : TopologyNode :=
  mkTopologyNode (ss_ID svc) (s_Name (ss svc)) "service"
    (default "" (s_Labels (ss svc) !! StackNamespaceLabel))
    (match ss_Image svc with Some image => StripImageDigest image | None => "" end) state.

(** * The network view *)

(** What topology.go reads of a network.Summary. *)
Record NetSummary := mkNetSummary {
  ns_ID : string; ns_Name : string; ns_Driver : string; ns_Scope : string; ns_Labels : gmap string string;
}.

Definition OverlayNetworks (networks : list NetSummary) : gmap string NetSummary :=
  foldl (λ overlays n, if bool_decide (ns_Driver n = "overlay") then <[ns_ID n := n]> overlays else overlays) ∅ networks.

Definition ServiceAttachments (svc : SwarmService) (overlays : gmap string NetSummary) : gmap string (list string) :=
  let vips := foldl (λ m vip, if bool_decide (is_Some (overlays !! vip)) then <[vip := []]> m else m) ∅ (ss_VirtualIPs svc) in
  foldl (λ m '(target, aliases), if bool_decide (is_Some (overlays !! target)) then <[target := aliases]> m else m)
    vips (ss_Networks svc).

Section graphs.
Context `{MapRange}.

Definition attachment_edges (svc : SwarmService) (overlays : gmap string NetSummary) : list TopologyEdge :=
  (λ '(networkID, aliases), mkTopologyEdge (ss_ID svc) networkID (Join aliases ", ")) <$>
    range (ServiceAttachments svc overlays).

Definition network_node (id : string) (n : NetSummary) : TopologyNode :=
  mkTopologyNode id (ns_Name n) "network" (default "" (ns_Labels n !! StackNamespaceLabel)) (ns_Driver n) (ns_Scope n).

(** attached holds the targets of the edges; each is an overlay. *)
Definition NetworkGraph (services : list SwarmService) (networks : list NetSummary) : TopologyGraph :=
  let overlays := OverlayNetworks networks in
  let edges := services ≫= λ svc, attachment_edges svc overlays in
  let attached : gmap string () := foldl (λ m e, <[te_Target e := ()]> m) ∅ edges in
  let vertex id := match overlays !! id with Some n => network_node id n | None => mkTopologyNode id "" "network" "" "" "" end in
  newGraph "network" (((λ svc, serviceNode svc "") <$> services) ++ ((λ kv, vertex kv.1) <$> range attached)) edges.

(** * The placement view *)

Definition clusterNode (n : SwarmNode) : TopologyNode :=
  mkTopologyNode (sn_ID n) (sn_Hostname n) "node" "" (sn_Role n) (DeriveNodeState n).

Definition by_id (services : list SwarmService) : gmap string SwarmService :=
  foldl (λ m s, <[ss_ID s := s]> m) ∅ services.

(** A task's marks on the counts: by node and service, total and running; and
    per service those running and those completed. *)
Record Placed := mkPlaced {
  pairs : gmap (string * string) (nat * nat);
  runningPer : gmap string nat;
  completedPer : gmap string nat;
}.

Definition place (nodes : gset string) (services : gmap string SwarmService) (p : Placed) (t : Task) : Placed :=
  if negb (TaskIsLive t) then p else
  if bool_decide (t_NodeID t ∉ nodes) then p else
  match services !! t_ServiceID t with
  | None => p
  | Some svc =>
      let completed := if CountsAsJobCompletion (ss svc) t then count_at (completedPer p) (t_ServiceID t) else completedPer p in
      let key := (t_NodeID t, t_ServiceID t) in
      let '(total, running) := default (0, 0) (pairs p !! key) in
      if bool_decide (t_State t = "running")
      then mkPlaced (<[key := (S total, S running)]> (pairs p)) (count_at (runningPer p) (t_ServiceID t)) completed
      else mkPlaced (<[key := (S total, running)]> (pairs p)) (runningPer p) completed
  end.

Definition count_label (total running : nat) : string :=
  if bool_decide (running = total) then Itoa (Z.of_nat running) +:+ " running"
  else Itoa (Z.of_nat running) +:+ "/" +:+ Itoa (Z.of_nat total) +:+ " running".

Definition PlacementGraph (clusterNodes : list SwarmNode) (tasks : list Task) (services : list SwarmService)
    (flapping : gmap string bool) (eligible : gmap string nat) : TopologyGraph :=
  let placed := foldl (place (list_to_set (sn_ID <$> clusterNodes)) (by_id services)) (mkPlaced ∅ ∅ ∅) tasks in
  let service_vertex svc :=
    serviceNode svc (DeriveServiceState svc (Z.of_nat (at_id 0 (runningPer placed) (ss_ID svc)))
      (Z.of_nat (at_id 0 (completedPer placed) (ss_ID svc))) (EligibleIn eligible (ss_ID svc)) (at_id false flapping (ss_ID svc))) in
  newGraph "placement" ((clusterNode <$> clusterNodes) ++ (service_vertex <$> services))
    ((λ '(key, counts), mkTopologyEdge key.1 key.2 (count_label counts.1 counts.2)) <$> range (pairs placed)).

(** * Draining a node *)

Context `{Unicode}.

(** onTarget, and placed by service and node. *)
Record Load := mkLoad { onTarget : gmap string nat; placedBy : gmap string (gmap string nat) }.

Definition load (target : string) (services : gmap string SwarmService) (l : Load) (t : Task) : Load :=
  if negb (TaskIsLive t) then l else
  if bool_decide (services !! t_ServiceID t = None) then l else
  if bool_decide (t_NodeID t = target) then mkLoad (count_at (onTarget l) (t_ServiceID t)) (placedBy l)
  else mkLoad (onTarget l)
         (<[t_ServiceID t := count_at (default ∅ (placedBy l !! t_ServiceID t)) (t_NodeID t)]> (placedBy l)).

Definition drain_candidates (target : string) (nodes : list SwarmNode) : list SwarmNode :=
  filter (λ n, negb (bool_decide (sn_ID n = target)) &&
               (bool_decide (sn_State n = "ready") && bool_decide (sn_Availability n = "active")) = true) nodes.

(** The loop over the candidates: those accepted, and why the last was not. *)
Fixpoint accept (spec : option PlacementSpec) (placed : gmap string nat) (candidates : list SwarmNode)
    (accepted : list string) (blocked : string) : list string * string :=
  match candidates with
  | [] => (accepted, blocked)
  | n :: rest =>
      match nodeCanHost n spec (default 0 (placed !! sn_ID n)) with
      | (true, _) => accept spec placed rest (accepted ++ [sn_ID n]) blocked
      | (false, reason) => accept spec placed rest accepted reason
      end
  end.

(** The slots left under a cap, summed in a uint64. *)
Definition free_slots (cap : Z) (placed : gmap string nat) (accepted : list string) : Z :=
  foldl (λ free id,
    let held := Z.of_nat (default 0 (placed !! id)) in
    if (held <? cap)%Z then wrap 64 (free + (cap - held)) else free) 0%Z accepted.

Definition placementFor (svc : SwarmService) (running : nat) (candidates : list SwarmNode) (placed : gmap string nat)
    : string * string * list string :=
  if is_global svc then ("global", "one task per node; draining stops it here rather than moving it", []) else
  let spec := ss_Placement svc in
  let '(accepted, blocked) := accept spec placed candidates [] "" in
  let movable :=
    ("movable", Itoa (Z.of_nat running) +:+ " task(s) here; " +:+ Itoa (Z.of_nat (length accepted)) +:+ " node(s) can take them", accepted) in
  match accepted with
  | [] => ("stranded", if is_empty blocked then "no other node is ready and active" else blocked, [])
  | _ =>
      match spec with
      | Some p =>
          if (0 <? MaxReplicas p)%Z then
            let free := free_slots (MaxReplicas p) placed accepted in
            if (free <? Z.of_nat running)%Z then
              ("stranded", Itoa (Z.of_nat running) +:+ " task(s) here, but the " +:+ Itoa (Z.of_nat (length accepted)) +:+
                 " candidate node(s) have room for " +:+ FormatUint free +:+ " between them: at most " +:+
                 FormatUint (MaxReplicas p) +:+ " replica(s) per node", [])
            else movable
          else movable
      | None => movable
      end
  end.

(** One affected service's vertex and edges. *)
Definition affected (candidates : list SwarmNode) (services : gmap string SwarmService) (l : Load)
    (entry : string * nat) : list TopologyNode * list TopologyEdge :=
  let '(id, running) := entry in
  match services !! id with
  | None => ([], [])       (* not reached: only tasks of these services are counted *)
  | Some svc =>
      let '(state, detail, accepted) := placementFor svc running candidates (default ∅ (placedBy l !! id)) in
      let v := serviceNode svc state in
      ([mkTopologyNode (tn_ID v) (tn_Label v) (tn_Type v) (tn_Group v) detail (tn_State v)],
       (λ nodeID, mkTopologyEdge id nodeID "can host") <$> accepted)
  end.

Definition DrainImpactGraph (target : SwarmNode) (clusterNodes : list SwarmNode) (tasks : list Task)
    (services : list SwarmService) : TopologyGraph :=
  let byID := by_id services in
  let l := foldl (load (sn_ID target) byID) (mkLoad ∅ ∅) tasks in
  let candidates := drain_candidates (sn_ID target) clusterNodes in
  let vertices := range (onTarget l) ≫= λ entry, (affected candidates byID l entry).1 in
  let edges := range (onTarget l) ≫= λ entry, (affected candidates byID l entry).2 in
  with_subject (newGraph "drain-impact" ((clusterNode <$> candidates) ++ vertices) edges) (sn_Hostname target).

Definition NoteHiddenNodes (g : TopologyGraph) (visible hidden : Z) : TopologyGraph :=
  if (hidden <=? 0)%Z then g else
  mkTopologyGraph (View g) (Subject g)
    ("assessed against the " +:+ Itoa visible +:+ " node(s) you can read; " +:+ Itoa hidden +:+
     " more are hidden by your grants, so a service reported stranded may be placeable on one of them")
    (tg_Nodes g) (tg_Edges g).
End graphs.

(** * Room *)

Lemma accept_spec `{Unicode} spec placed l acc b :
  (accept spec placed l acc b).1 = acc ++ (sn_ID <$> filter (λ n, (nodeCanHost n spec (default 0 (placed !! sn_ID n))).1 = true) l).
Proof.
  revert acc b. induction l as [|n l IH]; intros acc b; cbn [accept]; [by rewrite app_nil_r|]. rewrite filter_cons.
  destruct (nodeCanHost n spec (default 0 (placed !! sn_ID n))) as [[] reason]; cbn [fst].
  - rewrite decide_True, IH by done. by rewrite fmap_cons, <-app_assoc.
  - rewrite decide_False by done. apply IH.
Qed.

Lemma sum_list_with_mono {A} (l : list A) (d w : A → nat) :
  (∀ x, x ∈ l → d x <= w x) → sum_list_with d l <= sum_list_with w l.
Proof.
  induction l as [|x l IH]; intros Hle; [done|]. cbn [sum_list_with].
  pose proof (Hle x ltac:(set_solver)). pose proof (IH ltac:(intros; apply Hle; set_solver)). lia.
Qed.

Lemma sum_list_with_ext {A} (l : list A) (d w : A → nat) :
  (∀ x, x ∈ l → d x = w x) → sum_list_with d l = sum_list_with w l.
Proof. intros E. apply Nat.le_antisymm; apply sum_list_with_mono; intros x Hx; by rewrite E. Qed.

Lemma sum_list_with_filter {A} (P : A → Prop) `{!∀ x, Decision (P x)} (l : list A) (w : A → nat) :
  (∀ x, ¬ P x → w x = 0) → sum_list_with w (filter P l) = sum_list_with w l.
Proof.
  intros Hz. induction l as [|x l IH]; [done|]. rewrite filter_cons. cbn [sum_list_with].
  case_decide; cbn [sum_list_with]; [lia|]. rewrite (Hz x) by done. lia.
Qed.

(** What a list can hold in all can be shared out over it. *)
Lemma share_out `{EqDecision A} (l : list A) (w : A → nat) r :
  NoDup l → r <= sum_list_with w l → ∃ d, sum_list_with d l = r ∧ ∀ x, x ∈ l → d x <= w x.
Proof.
  revert r. induction l as [|x l IH]; intros r Hl Hr; cbn [sum_list_with] in *.
  { exists (λ _, 0). split; [lia|]. intros ? ?%elem_of_nil. done. }
  inversion_clear Hl as [|? ? Hx Hl'].
  destruct (IH (r - w x) Hl') as (d & Hd & Hle); [lia|].
  exists (λ y, if decide (y = x) then min r (w x) else d y). rewrite decide_True by done. split.
  - rewrite (sum_list_with_ext l _ d); [lia|]. intros y Hy. rewrite decide_False; [done|]. by intros ->.
  - intros y [->|Hy]%elem_of_cons; [rewrite decide_True by done; lia|]. case_decide; [subst; lia|by apply Hle].
Qed.

#[global] Instance SwarmNode_eq_dec : EqDecision SwarmNode.
Proof. solve_decision. Defined.

Section room.
Context `{Unicode} (spec : option PlacementSpec) (placed : gmap string nat) (running : nat).

Definition held (n : SwarmNode) : nat := default 0 (placed !! sn_ID n).

(** How many of the leaving tasks a node has room for. *)
Definition room (n : SwarmNode) : nat :=
  if (nodeCanHost n spec (held n)).1 then
    match spec with
    | Some p => if (0 <? MaxReplicas p)%Z then Z.to_nat (MaxReplicas p) - held n else running
    | None => running
    end
  else 0.

Definition may_take (n : SwarmNode) (k : nat) : Prop := 0 < k → fits_node spec n ∧ within_cap spec (held n + k).

Lemma may_take_room n k : k <= running → may_take n k ↔ k <= room n.
Proof using Type.
  intros Hk. unfold may_take, room. pose proof (nodeCanHost_iff n spec (held n)) as C.
  destruct (nodeCanHost n spec (held n)).1.
  - destruct (proj1 C eq_refl) as [Hf Hw]. unfold within_cap in *. destruct spec as [p|]; [|split; [lia|done]].
    destruct (Z.ltb_spec 0 (MaxReplicas p)).
    + split; [|intros ?; split; [done|lia]]. intros Hm.
      destruct (decide (0 < k)) as [Hp|]; [|lia]. destruct (Hm Hp) as [_ ?]. lia.
    + split; [lia|]. intros ?; split; [done|lia].
  - split; [|intros; lia]. intros Hm. destruct (decide (0 < k)) as [Hp|]; [|lia]. destruct (Hm Hp) as [Hf Hw].
    assert (false = true); [|done]. apply C. split; [done|]. unfold within_cap in *. destruct spec; [|done]. intros; lia.
Qed.

Lemma share_room l : NoDup l → running <= sum_list_with room l ↔
  ∃ d : SwarmNode → nat, sum_list_with d l = running ∧ ∀ n, n ∈ l → may_take n (d n).
Proof using Type.
  intros Hl. split.
  - intros (d & Hd & Hle)%share_out; [|done]. exists d. split; [done|]. intros n Hn. apply may_take_room; [|by apply Hle].
    rewrite <-Hd. by apply sum_list_with_in.
  - intros (d & Hd & Hm). rewrite <-Hd. apply sum_list_with_mono. intros n Hn. apply may_take_room; [|by apply Hm].
    rewrite <-Hd. by apply sum_list_with_in.
Qed.
End room.

(** A cap small enough for the slots of every node to add up in a uint64. *)
Definition cap_fits (spec : option PlacementSpec) (nodes : nat) : Prop :=
  match spec with Some p => (0 <= MaxReplicas p ∧ MaxReplicas p * Z.of_nat nodes < 2 ^ 64)%Z | None => True end.

Lemma free_slots_room `{Unicode} p placed running l acc :
  (0 < MaxReplicas p)%Z → (0 <= acc ∧ acc + MaxReplicas p * Z.of_nat (length l) < 2 ^ 64)%Z →
  foldl (λ free id, let held := Z.of_nat (default 0 (placed !! id)) in
           if (held <? MaxReplicas p)%Z then wrap 64 (free + (MaxReplicas p - held)) else free) acc
    (sn_ID <$> filter (λ n, (nodeCanHost n (Some p) (held placed n)).1 = true) l) =
  (acc + Z.of_nat (sum_list_with (room (Some p) placed running) l))%Z.
Proof.
  intros Hp. revert acc. induction l as [|n l IH]; intros acc Hacc; [cbn; lia|]. rewrite filter_cons. cbn [sum_list_with length] in *.
  unfold room at 1. destruct (nodeCanHost n (Some p) (held placed n)).1 eqn:E.
  - rewrite (decide_True (P := true = true)) by done. cbn [fmap list_fmap foldl]. fold (held placed n).
    apply nodeCanHost_iff in E as [_ Hw]. unfold within_cap in Hw. specialize (Hw Hp).
    destruct (Z.ltb_spec (Z.of_nat (held placed n)) (MaxReplicas p)); [|lia].
    destruct (Z.ltb_spec 0 (MaxReplicas p)); [|lia].
    unfold wrap. rewrite Z.mod_small by nia. rewrite IH by nia. lia.
  - rewrite (decide_False (P := false = true)) by done. rewrite IH by nia. lia.
Qed.

Lemma room_uncapped `{Unicode} spec placed running l :
  match spec with Some p => MaxReplicas p <= 0 | None => True end%Z →
  sum_list_with (room spec placed running) l =
  length (filter (λ n, (nodeCanHost n spec (held placed n)).1 = true) l) * running.
Proof.
  intros Hs. induction l as [|n l IH]; [done|]. rewrite filter_cons. cbn [sum_list_with]. rewrite IH. unfold room at 1.
  destruct (nodeCanHost n spec (held placed n)).1; [rewrite decide_True by done|rewrite decide_False by done; lia].
  cbn [length]. destruct spec as [p|]; [|lia]. destruct (Z.ltb_spec 0 (MaxReplicas p)); [lia|]. lia.
Qed.

Lemma room_capped_none `{Unicode} spec placed running l :
  filter (λ n, (nodeCanHost n spec (held placed n)).1 = true) l = [] → sum_list_with (room spec placed running) l = 0.
Proof.
  induction l as [|n l IH]; [done|]. rewrite filter_cons. cbn [sum_list_with]. unfold room at 1.
  destruct (nodeCanHost n spec (held placed n)).1; [rewrite decide_True by done; done|]. by rewrite decide_False by done.
Qed.

(** Work is movable exactly when its candidates have the room, and otherwise stranded. *)
Lemma placementFor_spec `{Unicode} svc running candidates placed :
  is_global svc = false → 0 < running → cap_fits (ss_Placement svc) (length candidates) →
  ∃ detail, placementFor svc running candidates placed =
    if decide (running <= sum_list_with (room (ss_Placement svc) placed running) candidates)
    then ("movable", detail, sn_ID <$> filter (λ n, (nodeCanHost n (ss_Placement svc) (held placed n)).1 = true) candidates)
    else ("stranded", detail, []).
Proof.
  intros Hg Hr Hcap. unfold placementFor. rewrite Hg. set (spec := ss_Placement svc) in *.
  pose proof (accept_spec spec placed candidates [] "") as A. cbn [app] in A.
  destruct (accept spec placed candidates [] "") as [accepted blocked]. cbn [fst] in A. subst accepted.
  change (λ n, (nodeCanHost n spec (default 0 (placed !! sn_ID n))).1 = true) with (λ n, (nodeCanHost n spec (held placed n)).1 = true).
  pose proof (room_capped_none spec placed running candidates) as N. pose proof (room_uncapped spec placed running candidates) as U.
  destruct (filter (λ n, (nodeCanHost n spec (held placed n)).1 = true) candidates) as [|a l] eqn:Ef.
  { rewrite N by done. case_decide; [lia|]. cbn [fmap list_fmap]. eauto. }
  cbn [fmap list_fmap]. clear N. destruct spec as [p|]; [|case_decide; [eauto|rewrite U in * by done; cbn [length] in *; lia]].
  destruct (Z.ltb_spec 0 (MaxReplicas p)) as [Hp|Hp]; [|case_decide; [eauto|rewrite U in * by done; cbn [length] in *; lia]].
  destruct Hcap as [? Hb]. pose proof (free_slots_room p placed running candidates 0 Hp ltac:(lia)) as F. rewrite Ef in F.
  replace (free_slots (MaxReplicas p) placed _) with (Z.of_nat (sum_list_with (room (Some p) placed running) candidates))
    by (symmetry; exact F).
  case_decide as Hd; [rewrite (proj2 (Z.ltb_ge _ _)) by lia|rewrite (proj2 (Z.ltb_lt _ _)) by lia]; eauto.
Qed.

(** * The drained node *)

Lemma by_id_lookup_foldl services (m : gmap string SwarmService) id : NoDup (ss_ID <$> services) →
  foldl (λ m s, <[ss_ID s := s]> m) m services !! id = m !! id ∧ id ∉ ss_ID <$> services ∨
  ∃ s, s ∈ services ∧ ss_ID s = id ∧ foldl (λ m s, <[ss_ID s := s]> m) m services !! id = Some s.
Proof.
  revert m. induction services as [|s l IH]; intros m; cbn [fmap list_fmap foldl]; [left; split; [done|apply not_elem_of_nil]|].
  intros [Hs Hl]%NoDup_cons. destruct (IH (<[ss_ID s := s]> m) Hl) as [[E Hn]|(x & Hx & Hid & E)].
  - rewrite E. destruct (decide (ss_ID s = id)) as [<-|Hne]; [rewrite lookup_insert_eq; right; exists s; split_and!; [apply list_elem_of_here|done..]|].
    rewrite lookup_insert_ne by done. left. split; [done|]. rewrite not_elem_of_cons. done.
  - right. exists x. split_and!; [by apply list_elem_of_further|done..].
Qed.

(** Elements of one ID in a list where IDs are unique. *)
Lemma fmap_inj_in {A} (f : A → string) (l : list A) x y : NoDup (f <$> l) → x ∈ l → y ∈ l → f x = f y → x = y.
Proof.
  intros Hl [i Hi]%list_elem_of_lookup [j Hj]%list_elem_of_lookup E.
  assert (i = j) as <-; [|congruence].
  eapply (NoDup_lookup _ _ _ (f x) Hl); rewrite list_lookup_fmap; [by rewrite Hi|rewrite Hj; cbn; by rewrite E].
Qed.

Lemma by_id_Some services s : NoDup (ss_ID <$> services) → s ∈ services → by_id services !! ss_ID s = Some s.
Proof.
  intros Hl Hs. destruct (by_id_lookup_foldl services ∅ (ss_ID s) Hl) as [[_ []]|(x & Hx & Hid & E)].
  - by apply list_elem_of_fmap_2.
  - unfold by_id. rewrite E. f_equal. by apply (fmap_inj_in ss_ID services).
Qed.

Lemma by_id_inv services id s : by_id services !! id = Some s → s ∈ services ∧ ss_ID s = id.
Proof.
  unfold by_id. assert (∀ l (m : gmap string SwarmService), foldl (λ m s, <[ss_ID s := s]> m) m l !! id = Some s →
    m !! id = Some s ∨ s ∈ l ∧ ss_ID s = id) as G.
  { induction l as [|x l IH]; intros m; cbn [foldl]; [by left|]. intros [E|[? ?]]%IH; [|right; split; [by apply list_elem_of_further|done]].
    destruct (decide (ss_ID x = id)) as [Hx|Hx]; [subst id; rewrite lookup_insert_eq in E; simplify_eq; right; split; [apply list_elem_of_here|done]|].
    left. by rewrite lookup_insert_ne in E. }
  intros [E|?]%G; [by rewrite lookup_empty in E|done].
Qed.

(** The live tasks of a service on a node. *)
Definition tasks_on (tasks : list Task) (service node : string) : nat :=
  length (filter (λ t, TaskIsLive t = true ∧ t_ServiceID t = service ∧ t_NodeID t = node) tasks).

Lemma tasks_on_cons t l service node : tasks_on (t :: l) service node =
  (if decide (TaskIsLive t = true ∧ t_ServiceID t = service ∧ t_NodeID t = node) then 1 else 0) + tasks_on l service node.
Proof. unfold tasks_on. rewrite filter_cons. by case_decide. Qed.

Definition placed_at (l : Load) (service node : string) : nat := default 0 (default ∅ (placedBy l !! service) !! node).

(** One task counts where it is. *)
Lemma load_step target byID l t service node : is_Some (byID !! service) → node ≠ target →
  let counted node := if decide (TaskIsLive t = true ∧ t_ServiceID t = service ∧ t_NodeID t = node) then 1 else 0 in
  default 0 (onTarget (load target byID l t) !! service) = counted target + default 0 (onTarget l !! service) ∧
  placed_at (load target byID l t) service node = counted node + placed_at l service node.
Proof.
  intros Hs Hn. unfold load. cbn zeta.
  destruct (TaskIsLive t) eqn:El; cbn [negb]; [|rewrite !decide_False by (by intros []); done].
  case_bool_decide as Eb.
  { rewrite !decide_False; [done|intros (_ & <- & _); rewrite Eb in Hs; by destruct Hs..]. }
  case_bool_decide as Et; unfold placed_at; cbn [onTarget placedBy].
  - rewrite count_at_lookup. rewrite (decide_False (P := _ ∧ _ ∧ t_NodeID t = node)) by (intros (_ & _ & ?); congruence).
    split; [|done]. case_bool_decide; case_decide; try done; tauto.
  - rewrite (decide_False (P := _ ∧ _ ∧ t_NodeID t = target)) by tauto. split; [done|].
    destruct (decide (t_ServiceID t = service)) as [<-|Hne].
    + rewrite lookup_insert_eq. match goal with |- context [default ∅ (Some ?m)] => change (default ∅ (Some m)) with m end.
      rewrite count_at_lookup. case_bool_decide; case_decide; try done; tauto.
    + rewrite lookup_insert_ne by done. by rewrite decide_False by tauto.
Qed.

Lemma load_spec target byID tasks l service node : is_Some (byID !! service) → node ≠ target →
  default 0 (onTarget (foldl (load target byID) l tasks) !! service) =
    tasks_on tasks service target + default 0 (onTarget l !! service) ∧
  placed_at (foldl (load target byID) l tasks) service node = tasks_on tasks service node + placed_at l service node.
Proof.
  intros Hs Hn. revert l. induction tasks as [|t tasks IH]; intros l; [done|]. cbn [foldl].
  destruct (IH (load target byID l t)) as [-> ->]. destruct (load_step target byID l t service node Hs Hn) as [-> ->].
  rewrite !tasks_on_cons. split; lia.
Qed.

(** Only services the caller reads are counted, and only those with a task. *)
Definition counted_ok (byID : gmap string SwarmService) (l : Load) : Prop :=
  ∀ id n, onTarget l !! id = Some n → 0 < n ∧ is_Some (byID !! id).

Lemma load_counted target byID tasks l : counted_ok byID l → counted_ok byID (foldl (load target byID) l tasks).
Proof.
  revert l. induction tasks as [|t tasks IH]; intros l Hl; [done|]. cbn [foldl]. apply IH.
  unfold load. destruct (negb (TaskIsLive t)); [done|]. case_bool_decide as Eb; [done|]. case_bool_decide; [|exact Hl].
  intros id n. cbn [onTarget]. unfold count_at. destruct (decide (t_ServiceID t = id)) as [<-|Hne].
  - rewrite lookup_insert_eq. intros [= <-]. split; [lia|]. by destruct (byID !! t_ServiceID t); [eauto|].
  - rewrite lookup_insert_ne by done. apply Hl.
Qed.

Lemma SortFunc_filter_in {A} (cmp : A → A → comparison) l x : x ∈ SortFunc cmp l ↔ x ∈ l.
Proof. by rewrite SortFunc_perm. Qed.

Section drain.
Context `{MapRange} `{Unicode} (target : SwarmNode) (nodes : list SwarmNode) (tasks : list Task) (services : list SwarmService).

Definition graph : TopologyGraph := DrainImpactGraph target nodes tasks services.
Definition candidates : list SwarmNode := drain_candidates (sn_ID target) nodes.

(** The service's live tasks on the target are handed to other nodes that are
    ready and active, each of which passes the service's filters and stays
    within its cap; [d] says how many each takes. *)
Definition redistribution (svc : SwarmService) (d : SwarmNode → nat) : Prop :=
  sum_list_with d candidates = tasks_on tasks (ss_ID svc) (sn_ID target) ∧
  ∀ n, n ∈ candidates → 0 < d n →
    fits_node (ss_Placement svc) n ∧ within_cap (ss_Placement svc) (tasks_on tasks (ss_ID svc) (sn_ID n) + d n).

Definition service_vertices (id : string) : list TopologyNode :=
  filter (λ v, tn_Type v = "service" ∧ tn_ID v = id) (tg_Nodes graph).

Context (Hnodes : NoDup (sn_ID <$> nodes)) (Hservices : NoDup (ss_ID <$> services)).

Lemma candidates_NoDup : NoDup candidates.
Proof using Hnodes. apply NoDup_filter. by eapply NoDup_fmap_1. Qed.

Lemma candidates_length : length candidates <= length nodes.
Proof using Type. apply length_filter. Qed.

Lemma candidate_other n : n ∈ candidates → sn_ID n ≠ sn_ID target.
Proof using Type.
  unfold candidates, drain_candidates. rewrite list_elem_of_filter, andb_true_iff, negb_true_iff, bool_decide_eq_false. tauto.
Qed.

Abbreviation loaded := (foldl (load (sn_ID target) (by_id services)) (mkLoad ∅ ∅) tasks).

Lemma onTarget_lookup svc : svc ∈ services →
  onTarget loaded !! ss_ID svc =
  let n := tasks_on tasks (ss_ID svc) (sn_ID target) in if decide (0 < n) then Some n else None.
Proof using Hservices.
  intros Hs. pose proof (by_id_Some services svc Hservices Hs) as B.
  pose proof (load_counted (sn_ID target) (by_id services) tasks (mkLoad ∅ ∅)) as C.
  destruct (load_spec (sn_ID target) (by_id services) tasks (mkLoad ∅ ∅) (ss_ID svc) (sn_ID target +:+ "'")) as [E _];
    [by eauto|intros E; symmetry in E; by apply str_app_inv_nil in E|].
  cbn [onTarget] in E. rewrite lookup_empty in E. cbn zeta.
  destruct (onTarget loaded !! ss_ID svc) as [n|] eqn:El; cbn in E.
  - destruct (C ltac:(by intros id k; cbn; rewrite lookup_empty) (ss_ID svc) n El) as [Hn _]. rewrite decide_True by lia. f_equal; lia.
  - rewrite decide_False by lia. done.
Qed.

Lemma filter_bind {A B} (P : B → Prop) `{!∀ x, Decision (P x)} (f : A → list B) l :
  filter P (l ≫= f) = l ≫= λ x, filter P (f x).
Proof using Type. induction l as [|x l IH]; [done|]. cbn [mbind list_bind]. by rewrite filter_app, IH. Qed.

Lemma bind_nil {A B} (f : A → list B) l : (∀ x, x ∈ l → f x = []) → l ≫= f = [].
Proof using Type.
  induction l as [|x l IH]; intros Hf; [done|]. cbn [mbind list_bind]. rewrite Hf by apply list_elem_of_here.
  apply IH. intros y Hy. apply Hf. by apply list_elem_of_further.
Qed.

(** A bind over a map that keeps one key's results alone. *)
Lemma bind_range {A B} (m : gmap string A) (f : string * A → list B) k :
  (∀ i x, m !! i = Some x → i ≠ k → f (i, x) = []) →
  range m ≫= f ≡ₚ match m !! k with Some x => f (k, x) | None => [] end.
Proof using Type.
  intros Hf. rewrite range_perm. destruct (m !! k) as [x|] eqn:E.
  - rewrite <-(map_to_list_delete m k x E). cbn [mbind list_bind]. fold (mbind f (map_to_list (delete k m))).
    rewrite bind_nil; [by rewrite app_nil_r|]. intros [i y] Hy%elem_of_map_to_list.
    apply lookup_delete_Some in Hy as [Hne Hy]. by apply Hf.
  - rewrite bind_nil; [done|]. intros [i y] Hy%elem_of_map_to_list. apply Hf; [done|]. by intros ->; rewrite E in Hy.
Qed.

Lemma affected_other l i n id : i ≠ id →
  filter (λ v, tn_Type v = "service" ∧ tn_ID v = id) (affected candidates (by_id services) l (i, n)).1 = [].
Proof using Type.
  intros Hne. unfold affected. destruct (by_id services !! i) as [svc|] eqn:E; [|done].
  apply by_id_inv in E as [_ <-]. destruct (placementFor _ _ _ _) as [[state detail] accepted]. cbn [fst].
  rewrite filter_cons_False; [done|]. cbn. by intros [_ ?].
Qed.

Lemma clusterNode_not_service l id : filter (λ v, tn_Type v = "service" ∧ tn_ID v = id) (clusterNode <$> l) = [].
Proof using Type. induction l as [|n l IH]; [done|]. cbn [fmap list_fmap]. by rewrite filter_cons_False by (by intros [? _]). Qed.

(** A service with work on the target has one vertex, as placementFor says. *)
Lemma vertices_of svc : svc ∈ services →
  let n := tasks_on tasks (ss_ID svc) (sn_ID target) in
  service_vertices (ss_ID svc) =
    if decide (0 < n) then
      let '(state, detail, _) := placementFor svc n candidates (default ∅ (placedBy loaded !! ss_ID svc)) in
      [mkTopologyNode (ss_ID svc) (s_Name (ss svc)) "service" (default "" (s_Labels (ss svc) !! StackNamespaceLabel)) detail state]
    else [].
Proof using Hservices.
  intros Hs n. pose proof (onTarget_lookup svc Hs) as E. cbn zeta in E. fold n in E.
  assert (service_vertices (ss_ID svc) ≡ₚ match onTarget loaded !! ss_ID svc with
    | Some k => filter (λ v, tn_Type v = "service" ∧ tn_ID v = ss_ID svc) (affected candidates (by_id services) loaded (ss_ID svc, k)).1
    | None => [] end) as Hp.
  { unfold service_vertices, graph, DrainImpactGraph, with_subject, newGraph. cbn [tg_Nodes]. rewrite SortFunc_perm, filter_app.
    fold candidates. rewrite clusterNode_not_service, filter_bind. cbn [app].
    apply (bind_range (onTarget loaded)
      (λ entry, filter (λ v, tn_Type v = "service" ∧ tn_ID v = ss_ID svc) (affected candidates (by_id services) loaded entry).1)).
    intros i x _ Hi. by apply affected_other. }
  rewrite E in Hp. case_decide; [|by apply Permutation_nil_r in Hp].
  unfold affected in Hp. rewrite (by_id_Some services svc Hservices Hs) in Hp.
  destruct (placementFor svc n candidates (default ∅ (placedBy loaded !! ss_ID svc))) as [[state detail] accepted].
  cbn [fst] in Hp. rewrite filter_cons_True in Hp by done. by apply Permutation_singleton_r in Hp.
Qed.

Lemma redistribution_room svc : svc ∈ services →
  let n := tasks_on tasks (ss_ID svc) (sn_ID target) in
  n <= sum_list_with (room (ss_Placement svc) (default ∅ (placedBy loaded !! ss_ID svc)) n) candidates ↔
  ∃ d, redistribution svc d.
Proof using Hnodes Hservices.
  intros Hs n. rewrite share_room by apply candidates_NoDup. unfold redistribution, may_take.
  assert (∀ c, c ∈ candidates → held (default ∅ (placedBy loaded !! ss_ID svc)) c = tasks_on tasks (ss_ID svc) (sn_ID c)) as Hh.
  { intros c Hc. destruct (load_spec (sn_ID target) (by_id services) tasks (mkLoad ∅ ∅) (ss_ID svc) (sn_ID c)) as [_ E];
      [rewrite (by_id_Some services svc) by done; eauto|by apply candidate_other|].
    change (placed_at loaded (ss_ID svc) (sn_ID c) = tasks_on tasks (ss_ID svc) (sn_ID c)). rewrite E.
    unfold placed_at. cbn [placedBy]. rewrite lookup_empty. cbn. rewrite lookup_empty. cbn. lia. }
  split; intros (d & Hd & Hm); (exists d; split; [done|]; intros c Hc Hpos; specialize (Hm c Hc Hpos)).
  - by rewrite Hh in Hm.
  - by rewrite Hh.
Qed.

(** C23: what the drain view says of a service is so, as long as its cap on
    replicas times the number of nodes stays below 2^64 ([cap_fits]; beyond it the
    sum of the free slots wraps, [free_slots_wrap]). One with no live task on the
    node is not in it. A global one is marked as such. Any other has one
    vertex, "movable" exactly when all its live tasks on the node can be handed
    to other ready and active nodes, each passing the service's constraints
    and platforms and staying within its cap on replicas with the tasks it
    already runs; and "stranded" exactly when they cannot. *)
Theorem drain_movable svc : svc ∈ services → cap_fits (ss_Placement svc) (length nodes) →
  if decide (tasks_on tasks (ss_ID svc) (sn_ID target) = 0) then service_vertices (ss_ID svc) = []
  else ∃ v, service_vertices (ss_ID svc) = [v] ∧
    if is_global svc then tn_State v = "global"
    else tn_State v = "movable" ∧ (∃ d, redistribution svc d) ∨
         tn_State v = "stranded" ∧ ¬ ∃ d, redistribution svc d.
Proof using Hnodes Hservices.
  intros Hs Hcap. pose proof (vertices_of svc Hs) as V. cbn zeta in V.
  destruct (decide (tasks_on tasks (ss_ID svc) (sn_ID target) = 0)) as [Hn|Hn]; [by rewrite decide_False in V by lia|].
  rewrite decide_True in V by lia.
  destruct (is_global svc) eqn:Hg.
  { unfold placementFor in V. rewrite Hg in V. eauto. }
  pose proof (redistribution_room svc Hs) as R. cbn zeta in R.
  destruct (placementFor_spec svc (tasks_on tasks (ss_ID svc) (sn_ID target)) candidates
    (default ∅ (placedBy loaded !! ss_ID svc)) Hg) as [detail E]; [lia| |].
  { pose proof candidates_length. unfold cap_fits in *. destruct (ss_Placement svc); [nia|done]. }
  rewrite E in V. destruct (decide _) as [Hr|Hr]; eexists; (split; [exact V|]); [left|right]; by rewrite <-R.
Qed.
End drain.

Definition demo_node (id : string) : SwarmNode := mkSwarmNode id ∅ "worker" "active" "ready" "" ("host-" +:+ id) "linux" "x86_64" ∅ None.
Definition demo_task (id node : string) : Task := mkTask id 1 "web" node "running" "running" "" "" 0 None 1 None.
Definition demo_web (cap : Z) : SwarmService :=
  mkSwarmService (mkService "web" 1 "web" ∅ (mkTaskSpec None []) None (mkServiceMode (Some (Some 4%Z)) false false false) None)
    None (None, None) (Some (mkPlacement ["node.role==worker"] [] cap)) None [] [].
Definition demo_tasks : list Task := [demo_task "t1" "n1"; demo_task "t2" "n1"; demo_task "t3" "n2"].

(** At most two a node, n2 has room for one more: one of the two is left over. *)
Lemma drain_movable_witness :
  (∃ v, service_vertices (H := map_range_std) (H0 := ascii_unicode) (demo_node "n1") [demo_node "n1"; demo_node "n2"]
     demo_tasks [demo_web 2] "web" = [v] ∧
     (tn_State v = "movable" ∧ (∃ d, redistribution (H0 := ascii_unicode) (demo_node "n1") [demo_node "n1"; demo_node "n2"] demo_tasks (demo_web 2) d) ∨
      tn_State v = "stranded" ∧ ¬ ∃ d, redistribution (H0 := ascii_unicode) (demo_node "n1") [demo_node "n1"; demo_node "n2"] demo_tasks (demo_web 2) d)) ∧
  tn_State <$> service_vertices (H := map_range_std) (H0 := ascii_unicode) (demo_node "n1") [demo_node "n1"; demo_node "n2"]
     demo_tasks [demo_web 3] "web" = ["movable"] ∧
  tn_State <$> service_vertices (H := map_range_std) (H0 := ascii_unicode) (demo_node "n1") [demo_node "n1"; demo_node "n2"]
     demo_tasks [demo_web 2] "web" = ["stranded"].
Proof.
  split; [|split; vm_compute; reflexivity].
  apply (drain_movable (H := map_range_std) (H0 := ascii_unicode) (demo_node "n1") [demo_node "n1"; demo_node "n2"] demo_tasks [demo_web 2]
    ltac:(apply (bool_decide_unpack _); vm_compute; exact I) ltac:(apply (bool_decide_unpack _); vm_compute; exact I) (demo_web 2)
    ltac:(apply list_elem_of_here)). cbn. lia.
Defined.

(** A cap that the sum of the slots wraps around at: two empty nodes with room
    for 2^63 tasks each are found to have room for none. *)
Example free_slots_wrap :
  tn_State <$> service_vertices (H := map_range_std) (H0 := ascii_unicode) (demo_node "n1") [demo_node "n1"; demo_node "n2"; demo_node "n3"]
     [demo_task "t1" "n1"] [demo_web (2 ^ 63)] "web" = ["stranded"].
Proof. vm_compute. reflexivity. Qed.

(** * One order of vertices and edges *)

#[global] Instance compareNodes_laws : Compare compareNodes.
Proof. unfold compareNodes. apply _. Qed.

#[global] Instance compareEdges_laws : Compare compareEdges.
Proof. unfold compareEdges. apply _. Qed.

Lemma compareNodes_eq a b : compareNodes a b = Eq → tn_Type a = tn_Type b ∧ tn_ID a = tn_ID b.
Proof. unfold compareNodes. rewrite !cmp_or_eq, !str_compare_eq. tauto. Qed.

Lemma compareEdges_eq a b : compareEdges a b = Eq → te_Source a = te_Source b ∧ te_Target a = te_Target b.
Proof. unfold compareEdges. by rewrite cmp_or_eq, !str_compare_eq. Qed.

(** Vertices are told apart by type and ID, edges by their ends. *)
Definition distinct (nodes : list TopologyNode) (edges : list TopologyEdge) : Prop :=
  (∀ a b, a ∈ nodes → b ∈ nodes → tn_Type a = tn_Type b → tn_ID a = tn_ID b → a = b) ∧
  (∀ a b, a ∈ edges → b ∈ edges → te_Source a = te_Source b → te_Target a = te_Target b → a = b).

Lemma newGraph_det view nodes nodes' edges edges' :
  distinct nodes edges → nodes ≡ₚ nodes' → edges ≡ₚ edges' → newGraph view nodes edges = newGraph view nodes' edges'.
Proof.
  intros [Hn He] Pn Pe. unfold newGraph. f_equal; (apply SortFunc_det; [apply _| |done]).
  - intros a b Ha Hb [? ?]%compareNodes_eq. by apply Hn.
  - intros a b Ha Hb [? ?]%compareEdges_eq. by apply He.
Qed.

Lemma range_perm_any (H1 H2 : MapRange) {A} (m : gmap string A) : range (MapRange := H1) m ≡ₚ range (MapRange := H2) m.
Proof. by rewrite !range_perm. Qed.

Section canonical.
Context (M1 M2 : MapRange).

Lemma bind_range_perm {A B} (m : gmap string A) (f : string * A → list B) :
  range (MapRange := M1) m ≫= f ≡ₚ range (MapRange := M2) m ≫= f.
Proof using Type. by rewrite (range_perm_any M1 M2 m). Qed.

Lemma elem_of_cluster (v : TopologyNode) (l : list SwarmNode) :
  v ∈ clusterNode <$> l → ∃ n, v = clusterNode n ∧ n ∈ l.
Proof using Type. apply list_elem_of_fmap. Qed.

Lemma elem_of_affected `{MapRange, Unicode} cands (byID : gmap string SwarmService) l (m : gmap string nat) v :
  v ∈ range m ≫= (λ entry, (affected cands byID l entry).1) →
  ∃ id n, m !! id = Some n ∧ (affected cands byID l (id, n)).1 = [v] ∧ tn_Type v = "service" ∧
    (byID !! id = None ∨ ∃ svc, byID !! id = Some svc ∧ tn_ID v = ss_ID svc).
Proof using Type.
  intros ([id n] & Hv & Hr)%list_elem_of_bind. rewrite elem_of_range in Hr. exists id, n. split; [done|].
  unfold affected in *. destruct (byID !! id) as [svc|]; [|by apply elem_of_nil in Hv].
  destruct (placementFor _ _ _ _) as [[state detail] accepted]. cbn [fst] in *.
  apply list_elem_of_singleton in Hv as ->. cbn. split_and!; [done..|right; eauto].
Qed.

Lemma elem_of_affected_edges `{MapRange, Unicode} cands (byID : gmap string SwarmService) l (m : gmap string nat) e :
  e ∈ range m ≫= (λ entry, (affected cands byID l entry).2) → te_Label e = "can host".
Proof using Type.
  intros ([id n] & He & _)%list_elem_of_bind. unfold affected in He.
  destruct (byID !! id) as [svc|]; [|by apply elem_of_nil in He].
  destruct (placementFor _ _ _ _) as [[state detail] accepted]. cbn [snd] in He.
  by apply list_elem_of_fmap in He as (? & -> & _).
Qed.

(** The drain view is one graph: whichever order its maps are ranged over
    in, the same nodes, tasks and services give the same vertices and edges in
    the same order. *)
Theorem drain_canonical `{Unicode} target nodes tasks services :
  NoDup (sn_ID <$> nodes) →
  DrainImpactGraph (H := M1) target nodes tasks services = DrainImpactGraph (H := M2) target nodes tasks services.
Proof using Type.
  intros Hn. unfold DrainImpactGraph. f_equal. apply newGraph_det; [|by rewrite bind_range_perm|apply bind_range_perm]. split.
  - intros a b [Ha|Ha]%elem_of_app [Hb|Hb]%elem_of_app Et Ei.
    + apply elem_of_cluster in Ha as (x & -> & Hx). apply elem_of_cluster in Hb as (y & -> & Hy).
      apply list_elem_of_filter in Hx as [_ Hx]. apply list_elem_of_filter in Hy as [_ Hy].
      f_equal. by apply (fmap_inj_in sn_ID nodes).
    + apply elem_of_cluster in Ha as (x & -> & Hx). apply elem_of_affected in Hb as (? & ? & _ & _ & Hs & _).
      rewrite Hs in Et. discriminate.
    + apply elem_of_cluster in Hb as (x & -> & Hx). apply elem_of_affected in Ha as (? & ? & _ & _ & Hs & _).
      rewrite Hs in Et. discriminate.
    + apply elem_of_affected in Ha as (i & n & Hi & Ea & _ & Hsa). apply elem_of_affected in Hb as (j & k & Hj & Eb & _ & Hsb).
      destruct Hsa as [N|(s & Ps & Qs)]; [unfold affected in Ea; by rewrite N in Ea|].
      destruct Hsb as [N|(t & Pt & Qt)]; [unfold affected in Eb; by rewrite N in Eb|].
      apply by_id_inv in Ps as [_ <-]. apply by_id_inv in Pt as [_ <-]. assert (ss_ID s = ss_ID t) as E by congruence.
      rewrite E in *. rewrite Hj in Hi. simplify_eq. congruence.
  - intros [? ? ?] [? ? ?] Ha%elem_of_affected_edges Hb%elem_of_affected_edges. cbn in *. congruence.
Qed.
End canonical.

Lemma drain_canonical_witness :
  DrainImpactGraph (H := map_range_std) (H0 := ascii_unicode) (demo_node "n1") [demo_node "n1"; demo_node "n2"] demo_tasks [demo_web 2] =
  DrainImpactGraph (H := {| range := λ K _ _ A m, reverse (map_to_list m); range_perm := λ K _ _ A m, reverse_Permutation _ |})
    (H0 := ascii_unicode) (demo_node "n1") [demo_node "n1"; demo_node "n2"] demo_tasks [demo_web 2].
Proof. apply drain_canonical. apply (bool_decide_unpack _). vm_compute. exact I. Defined.
