(* ===== verification/Ipam.v ===== *)
(** How much of a network's IPv4 address pool is in use: internal/ipam/ipam.go,
    and the networks an event may move the figure of, from
    internal/cluster/addresses.go. Of Docker's records the fields read here are
    kept. *)
From S2P Require Import Prelude GoStrings GoStrconv GoNet.
#[local] Open Scope string_scope.
#[local] Open Scope Z_scope.
#[local] Open Scope list_scope.

(** * What Docker hands out *)

Record IPAMConfig := mkIPAMConfig { Subnet : string; IPRange : string; Gateway : string }.

Record NetworkSummary := mkSummary {
  ns_ID : string; ns_Scope : string; ns_Driver : string; ns_Config : list IPAMConfig;
  ns_Attachable : bool; ns_Ingress : bool;
}.

(** A service's virtual IPs and a task's attachments, by network ID. *)
Record ServiceEndpoint := mkEndpoint { VirtualIPs : list (string * string) }.
Record TaskNetworks := mkTaskNetworks { tn_State : string; tn_NodeID : string; NetworksAttachments : list (string * list string) }.

(** * The pool *)

(** toUint is the number itself. *)
Definition bounds (p : Prefix) : Z * Z :=
  let first_ := bits_ (p_addr p) in
  (first_, first_ + Z.shiftl 1 (32 - p_bits p) - 1).

(** The loop for the first free address of the range; of two reserved ones at
    most, so it takes three rounds. *)
Fixpoint first_free (fuel : nat) (addr high : Z) (reserved : gset Z) : option Z :=
  match fuel with
  | O => None
  | S fuel =>
      if high <? addr then None
      else if bool_decide (addr ∈ reserved) then first_free fuel (addr + 1) high reserved
      else Some addr
  end.

Definition ipv4_prefix (s : string) : option Prefix :=
  match ParsePrefix s with Some p => if is4 (p_addr p) then Some p else None | None => None end.

Definition usable (cfg : IPAMConfig) : option Z :=
  match ipv4_prefix (Subnet cfg) with
  | None => None
  | Some subnet =>
      let subnet := Masked subnet in
      let '(first_, last_) := bounds subnet in
      let '(low, high) :=
        match ipv4_prefix (IPRange cfg) with
        | Some pool => let '(poolFirst, poolLast) := bounds (Masked pool) in (Z.max first_ poolFirst, Z.min last_ poolLast)
        | None => (first_, last_)
        end in
      if high <? low then Some 0 else
      let reserved : gset Z := if p_bits subnet <=? 30 then {[first_; last_]} else ∅ in
      let reserved : gset Z :=
        match ParseAddr (Gateway cfg) with
        | Some addr =>
            if is4 addr then {[bits_ addr]} ∪ reserved
            else match first_free 3 low high reserved with Some a => {[a]} ∪ reserved | None => reserved end
        | None => match first_free 3 low high reserved with Some a => {[a]} ∪ reserved | None => reserved end
        end in
      Some (high - low + 1 - Z.of_nat (size (filter (λ a, low ≤ a ∧ a ≤ high) reserved)))
  end.

Definition Counted (n : NetworkSummary) : bool :=
  if negb (bool_decide (ns_Scope n = "swarm")) ||
     negb (is_empty (ns_Driver n)) && negb (bool_decide (ns_Driver n = "default")) then false
  else existsb (λ cfg, bool_decide (is_Some (usable cfg))) (ns_Config n).

(** * The count *)

Record Addresses := mkAddresses {
  Usable : Z; Used : Z; VIPs : Z; TaskAddresses : Z; LoadBalancers : Z; ExcludesAttachedContainers : bool;
}.

Record tally := mkTally {
  tl_Usable : Z; tl_VIPs : Z; tl_TaskAddresses : Z; tl_Excludes : bool; ingress : bool;
  taken : gset Z; tl_nodes : gset string;
}.

Definition ipv4_of (addr : string) : option Z := bits_ ∘ p_addr <$> ipv4_prefix addr.

(** Records the address against the tally, and whether no one held it. *)
Definition take_ (t : tally) (addr : string) : tally * bool :=
  match ipv4_of addr with
  | None => (t, false)
  | Some a =>
      if bool_decide (a ∈ taken t) then (t, false) else
      (mkTally (tl_Usable t) (tl_VIPs t) (tl_TaskAddresses t) (tl_Excludes t) (ingress t) ({[a]} ∪ taken t) (tl_nodes t), true)
  end.

Definition take_vip (t : tally) (addr : string) : tally :=
  let '(t, new) := take_ t addr in
  mkTally (tl_Usable t) (if new then tl_VIPs t + 1 else tl_VIPs t) (tl_TaskAddresses t) (tl_Excludes t) (ingress t) (taken t) (tl_nodes t).

Definition take_task (t : tally) (addr : string) : tally :=
  let '(t, new) := take_ t addr in
  mkTally (tl_Usable t) (tl_VIPs t) (if new then tl_TaskAddresses t + 1 else tl_TaskAddresses t) (tl_Excludes t) (ingress t) (taken t) (tl_nodes t).

Definition live (state : string) : bool :=
  bool_decide (state ∈ ["new"; "allocated"; "pending"; "assigned"; "accepted"; "preparing"; "ready"; "starting"; "running"]).

Definition attach (nodeID : string) (addresses : list string) (t : tally) : tally :=
  let t := if is_empty nodeID then t else
    mkTally (tl_Usable t) (tl_VIPs t) (tl_TaskAddresses t) (tl_Excludes t) (ingress t) (taken t) ({[nodeID]} ∪ tl_nodes t) in
  foldl take_task t addresses.

Definition new_tally (n : NetworkSummary) : tally :=
  mkTally (foldl (λ total cfg, match usable cfg with Some count => total + count | None => total end) 0 (ns_Config n))
    0 0 (ns_Attachable n) (ns_Ingress n) ∅ ∅.

Definition tallies_of (networks : list NetworkSummary) : gmap string tally :=
  foldl (λ tallies n, if Counted n then <[ns_ID n := new_tally n]> tallies else tallies) ∅ networks.

Definition count_service (tallies : gmap string tally) (svc : ServiceEndpoint) : gmap string tally :=
  foldl (λ tallies vip, alter (λ t, take_vip t vip.2) vip.1 tallies) tallies (VirtualIPs svc).

Definition count_task (tallies : gmap string tally) (task : TaskNetworks) : gmap string tally :=
  if negb (live (tn_State task)) then tallies else
  foldl (λ tallies attachment, alter (attach (tn_NodeID task) attachment.2) attachment.1 tallies) tallies (NetworksAttachments task).

Definition addresses_of (nodes : Z) (t : tally) : Addresses :=
  let balancers := if ingress t then nodes else Z.of_nat (size (tl_nodes t)) in
  mkAddresses (tl_Usable t) (tl_VIPs t + tl_TaskAddresses t + balancers) (tl_VIPs t) (tl_TaskAddresses t) balancers (tl_Excludes t).

Definition Count (networks : list NetworkSummary) (services : list ServiceEndpoint) (tasks : list TaskNetworks) (nodes : Z)
    : gmap string Addresses :=
  addresses_of nodes <$> foldl count_task (foldl count_service (tallies_of networks) services) tasks.

(** * The networks an event may move the figure of *)

Inductive AddressEvent := OnService | OnTask (task : option TaskNetworks) | OnNode | OnOther.

Definition AddressNetworks (networks : list NetworkSummary) (ev : AddressEvent) : list string :=
  match ev with
  | OnService => SortStrings (ns_ID <$> List.filter Counted networks)
  | OnTask (Some task) => (NetworksAttachments task).*1
  | OnNode => ns_ID <$> List.filter ns_Ingress networks
  | _ => []
  end.

(** * Facts *)

Lemma ipv4_prefix_ok s p : ipv4_prefix s = Some p → is4 (p_addr p) = true ∧ 0 ≤ p_bits p ≤ 32.
Proof.
  unfold ipv4_prefix, ParsePrefix. destruct (cut_last "/" s) as [[addr len]|]; [|done]. cbn.
  destruct (ParseAddr addr) as [ip|]; [|done]. cbn. destruct (is_empty (zone ip)); [|done]. cbn.
  destruct (match len with String _ (String _ _) => _ | _ => _ end); [done|]. destruct (Atoi len) as [n|]; [|done]. cbn.
  unfold BitLen. destruct (is4 ip) eqn:E.
  - destruct (Z.ltb_spec n 0), (Z.ltb_spec 32 n); cbn; rewrite ?E; try done. intros [= <-]. done.
  - destruct ((n <? 0) || (128 <? n)); [done|]. cbn. by rewrite E.
Qed.

(** The address of a number. *)
Definition v4 (a : Z) : Addr := mkAddr true a "".

(** A block is the range between its bounds. *)
Lemma contains_bounds p a : is4 (p_addr p) = true → 0 ≤ p_bits p ≤ 32 →
  Prefix_Contains p (v4 a) = true ↔ (bounds (Masked p)).1 ≤ a ≤ (bounds (Masked p)).2.
Proof.
  intros H4 Hb. unfold Prefix_Contains, bounds, Masked, mask, BitLen, v4. cbn. rewrite H4. cbn. rewrite Z.eqb_eq.
  set (k := 32 - p_bits p). assert (0 ≤ k) as Hk by lia. assert (0 < 2 ^ k) as Hp by (by apply Z.pow_pos_nonneg).
  rewrite !Z.shiftr_div_pow2, !Z.shiftl_mul_pow2 by done. set (q := bits_ (p_addr p) / 2 ^ k).
  pose proof (Z.div_mod a (2 ^ k) ltac:(lia)). pose proof (Z.mod_pos_bound a (2 ^ k) Hp). split; [intros <-; lia|].
  intros [H1 H2]. symmetry. apply (Z.div_unique_pos a (2 ^ k) q (a - q * 2 ^ k)); lia.
Qed.

Lemma first_free_spec fuel low high (reserved : gset Z) : low ≤ high + 1 →
  (size (filter (λ a, (low ≤ a)%Z) reserved) < fuel)%nat →
  match first_free fuel low high reserved with
  | Some g => (low ≤ g ≤ high) ∧ (g ∉ reserved) ∧ ∀ a, low ≤ a < g → a ∈ reserved
  | None => ∀ a, low ≤ a ≤ high → a ∈ reserved
  end.
Proof.
  revert low. induction fuel as [|fuel IH]; intros low Hle Hf; [lia|]. cbn [first_free].
  destruct (Z.ltb_spec high low) as [Hh|Hh]; [intros; lia|]. case_bool_decide as Hin.
  - assert (filter (λ a, low ≤ a) reserved = {[low]} ∪ filter (λ a, low + 1 ≤ a) reserved) as E.
    { apply set_eq. intros a. rewrite elem_of_union, !elem_of_filter, elem_of_singleton.
      destruct (decide (a = low)) as [->|]; [split; [auto|split; [lia|done]]|]. split; [intros [? ?]; right; split; [lia|done]|].
      intros [?|[? ?]]; [done|split; [lia|done]]. }
    rewrite E, size_union, size_singleton in Hf by (apply disjoint_singleton_l; rewrite elem_of_filter; lia).
    specialize (IH (low + 1) ltac:(lia) ltac:(lia)). destruct (first_free fuel (low + 1) high reserved) as [g|].
    + destruct IH as (? & ? & IH). split_and!; [lia|lia|done|]. intros a ?. destruct (decide (a = low)) as [->|]; [done|]. apply IH. lia.
    + intros a ?. destruct (decide (a = low)) as [->|]; [done|]. apply IH. lia.
  - split_and!; [lia|lia|done|lia].
Qed.

(** The addresses of a pool: those of the subnet that are in the range, when
    there is one. *)
Definition in_pool (cfg : IPAMConfig) (subnet : Prefix) (a : Z) : Prop :=
  Prefix_Contains subnet (v4 a) = true ∧
  ∀ pool, ipv4_prefix (IPRange cfg) = Some pool → Prefix_Contains pool (v4 a) = true.

(** The network and broadcast addresses, which a /31 and a /32 do not have. *)
Definition is_edge (subnet : Prefix) (a : Z) : Prop :=
  p_bits subnet ≤ 30 ∧ (a = (bounds (Masked subnet)).1 ∨ a = (bounds (Masked subnet)).2).

(** The gateway: the one named, or else the first free address of the pool. *)
Definition is_gateway (cfg : IPAMConfig) (subnet : Prefix) (g : Z) : Prop :=
  match ParseAddr (Gateway cfg) with
  | Some (mkAddr true n _) => g = n
  | _ => in_pool cfg subnet g ∧ ¬ is_edge subnet g ∧ ∀ a, in_pool cfg subnet a → ¬ is_edge subnet a → g ≤ a
  end.

Lemma count_free low high (reserved : gset Z) : low ≤ high →
  ∃ l, NoDup l ∧ (∀ a, a ∈ l ↔ low ≤ a ≤ high ∧ a ∉ reserved) ∧
    high - low + 1 - Z.of_nat (size (filter (λ a, low ≤ a ∧ a ≤ high) reserved)) = Z.of_nat (length l).
Proof.
  intros Hle. set (all := seqZ low (high - low + 1)).
  assert (NoDup all) as Hnd by apply NoDup_seqZ.
  assert (∀ a, a ∈ all ↔ low ≤ a ≤ high) as Hall by (intros a; unfold all; rewrite elem_of_seqZ; lia).
  exists (filter (λ a, a ∉ reserved) all). split; [by apply NoDup_filter|]. split.
  { intros a. rewrite list_elem_of_filter, Hall. tauto. }
  assert (size (filter (λ a, low ≤ a ∧ a ≤ high) reserved) = length (filter (λ a, a ∈ reserved) all)) as ->.
  { unfold size, set_size. cbn. apply Permutation_length, NoDup_Permutation; [apply NoDup_elements|by apply NoDup_filter|].
    intros a. rewrite elem_of_elements, elem_of_filter, list_elem_of_filter, Hall. tauto. }
  assert (length all = length (filter (λ a, a ∈ reserved) all) + length (filter (λ a, a ∉ reserved) all))%nat as Hlen.
  { clear. induction all as [|a l IH]; [done|]. rewrite !filter_cons. destruct (decide (a ∈ reserved)).
    - rewrite decide_False by tauto. cbn. lia.
    - rewrite decide_True by done. cbn. lia. }
  unfold all in Hlen at 1. rewrite length_seqZ in Hlen. lia.
Qed.

(** The range [usable] counts in. *)
Definition pool_bounds (cfg : IPAMConfig) (subnet : Prefix) : Z * Z :=
  let '(first_, last_) := bounds (Masked subnet) in
  match ipv4_prefix (IPRange cfg) with
  | Some pool => let '(poolFirst, poolLast) := bounds (Masked pool) in (Z.max first_ poolFirst, Z.min last_ poolLast)
  | None => (first_, last_)
  end.

Lemma in_pool_bounds cfg subnet a : ipv4_prefix (Subnet cfg) = Some subnet →
  in_pool cfg subnet a ↔ (pool_bounds cfg subnet).1 ≤ a ≤ (pool_bounds cfg subnet).2.
Proof.
  intros [H4 Hb]%ipv4_prefix_ok. unfold in_pool, pool_bounds. rewrite (contains_bounds subnet a H4 Hb).
  destruct (bounds (Masked subnet)) as [f l]. destruct (ipv4_prefix (IPRange cfg)) as [pool|] eqn:E.
  - apply ipv4_prefix_ok in E as [P4 Pb].
    assert ((∀ p, Some pool = Some p → Prefix_Contains p (v4 a) = true) ↔ Prefix_Contains pool (v4 a) = true) as -> by naive_solver.
    rewrite (contains_bounds pool a P4 Pb). destruct (bounds (Masked pool)) as [pf pl]. cbn. lia.
  - naive_solver.
Qed.

(** The edges are reserved, then the gateway. *)
Definition edges (subnet : Prefix) : gset Z :=
  if p_bits subnet <=? 30 then {[(bounds (Masked subnet)).1; (bounds (Masked subnet)).2]} else ∅.

Lemma elem_of_edges subnet a : a ∈ edges subnet ↔ is_edge subnet a.
Proof. unfold edges, is_edge. rewrite <- Z.leb_le. destruct (p_bits subnet <=? 30); set_solver. Qed.

Definition reserved_of (cfg : IPAMConfig) (subnet : Prefix) : gset Z :=
  let '(low, high) := pool_bounds cfg subnet in
  let free := match first_free 3 low high (edges subnet) with Some a => {[a]} ∪ edges subnet | None => edges subnet end in
  match ParseAddr (Gateway cfg) with
  | Some addr => if is4 addr then {[bits_ addr]} ∪ edges subnet else free
  | None => free
  end.

Lemma elem_of_reserved cfg subnet a : ipv4_prefix (Subnet cfg) = Some subnet → in_pool cfg subnet a →
  a ∈ reserved_of cfg subnet ↔ is_edge subnet a ∨ is_gateway cfg subnet a.
Proof.
  intros Hs Ha. pose proof (λ b, in_pool_bounds cfg subnet b Hs) as Hp. unfold reserved_of, is_gateway.
  destruct (pool_bounds cfg subnet) as [low high]. cbn [fst snd] in Hp.
  assert (a ∈ (match first_free 3 low high (edges subnet) with Some g => {[g]} ∪ edges subnet | None => edges subnet end) ↔
    is_edge subnet a ∨ in_pool cfg subnet a ∧ ¬ is_edge subnet a ∧ ∀ b, in_pool cfg subnet b → ¬ is_edge subnet b → a ≤ b) as Hfree.
  { pose proof (first_free_spec 3 low high (edges subnet)) as Hf. specialize (Hf ltac:(apply Hp in Ha; lia)).
    assert (size (filter (λ a, (low ≤ a)%Z) (edges subnet)) < 3)%nat as Hsize.
    { apply Nat.le_lt_trans with (size (edges subnet)); [apply subseteq_size; set_solver|]. unfold edges.
      destruct (p_bits subnet <=? 30); [|rewrite size_empty; lia].
      pose proof (size_union_alt ({[(bounds (Masked subnet)).1]} : gset Z) {[(bounds (Masked subnet)).2]}) as ->.
      rewrite size_singleton. pose proof (subseteq_size ({[(bounds (Masked subnet)).2]} ∖ {[(bounds (Masked subnet)).1]}) ({[(bounds (Masked subnet)).2]} : gset Z) ltac:(set_solver)) as Hle.
      rewrite size_singleton in Hle. lia. }
    specialize (Hf Hsize). destruct (first_free 3 low high (edges subnet)) as [g|].
    - destruct Hf as (Hg & Hfree & Hmin). rewrite elem_of_union, elem_of_singleton, elem_of_edges. rewrite elem_of_edges in Hfree.
      split; [intros [->|?]; [right|by left]|intros [?|(_ & Hne & Hall)]; [by right|left]].
      + split_and!; [done..|]. intros b Hb Hbe. apply Hp in Hb. destruct (Z.le_gt_cases g b); [done|].
        exfalso. apply Hbe, elem_of_edges, Hmin. lia.
      + assert (a ≤ g) by (apply Hall; [by apply Hp|done]). apply Hp in Ha. destruct (decide (a = g)); [done|].
        exfalso. apply Hne, elem_of_edges, Hmin. lia.
    - rewrite elem_of_edges. split; [by left|]. intros [?|(Hin & Hne & _)]; [done|]. exfalso. apply Hne, elem_of_edges, Hf, Hp, Hin. }
  destruct (ParseAddr (Gateway cfg)) as [[[] n z]|]; cbn; [|apply Hfree..].
  rewrite elem_of_union, elem_of_singleton, elem_of_edges. tauto.
Qed.

Lemma usable_unfold cfg subnet : ipv4_prefix (Subnet cfg) = Some subnet →
  usable cfg = let '(low, high) := pool_bounds cfg subnet in
    if high <? low then Some 0
    else Some (high - low + 1 - Z.of_nat (size (filter (λ a, low ≤ a ∧ a ≤ high) (reserved_of cfg subnet)))).
Proof.
  intros Hs. unfold usable, reserved_of, pool_bounds, edges. rewrite Hs. cbn. destruct (bounds (Masked subnet)) as [f l].
  destruct (ipv4_prefix (IPRange cfg)) as [pool|]; [destruct (bounds (Masked pool))|]; done.
Qed.

(** The figure of a pool is exact: what [usable] counts is how many
    addresses of the subnet, within its range when it has one, are neither its
    network nor its broadcast address nor its gateway. *)
Theorem usable_exact cfg n : usable cfg = Some n →
  ∃ subnet l, ipv4_prefix (Subnet cfg) = Some subnet ∧ n = Z.of_nat (length l) ∧ NoDup l ∧
    ∀ a, a ∈ l ↔ in_pool cfg subnet a ∧ ¬ is_edge subnet a ∧ ¬ is_gateway cfg subnet a.
Proof.
  intros Hu. destruct (ipv4_prefix (Subnet cfg)) as [subnet|] eqn:Hs; [|unfold usable in Hu; by rewrite Hs in Hu].
  rewrite (usable_unfold cfg subnet Hs) in Hu. pose proof (λ a, in_pool_bounds cfg subnet a Hs) as Hp.
  exists subnet. destruct (pool_bounds cfg subnet) as [low high]. cbn [fst snd] in Hp. destruct (Z.ltb_spec high low); injection Hu as <-.
  - exists []. split_and!; [done..|apply NoDup_nil_2|]. intros a. rewrite Hp. split; [by intros ?%not_elem_of_nil|lia].
  - destruct (count_free low high (reserved_of cfg subnet)) as (l & Hnd & Hl & ->); [done|]. exists l. split_and!; try done.
    intros a. rewrite Hl, <- Hp. split.
    + intros [Hin Hr]. rewrite (elem_of_reserved cfg subnet a Hs Hin) in Hr. tauto.
    + intros (Hin & ? & ?). split; [done|]. rewrite (elem_of_reserved cfg subnet a Hs Hin). tauto.
Qed.

(** ** What holds the addresses *)

(** The virtual IPs services have in a network, and what live tasks there have
    attached: each attachment's node and addresses. *)
Definition vips_in (services : list ServiceEndpoint) (id : string) : list string :=
  (filter (λ vip, vip.1 = id) (services ≫= VirtualIPs)).*2.

Definition attachments_in (tasks : list TaskNetworks) (id : string) : list (string * list string) :=
  (λ x, (x.1, x.2.2)) <$> filter (λ x, x.2.1 = id)
    (filter (λ t, live (tn_State t) = true) tasks ≫= λ t, (λ a, (tn_NodeID t, a)) <$> NetworksAttachments t).

Definition held_addresses (l : list string) : gset Z := list_to_set (omap ipv4_of l).

Lemma foldl_alter_lookup {X A} (key : X → string) (f : X → A → A) l (m : gmap string A) id :
  foldl (λ m x, alter (f x) (key x) m) m l !! id = (λ a, foldl (λ a x, f x a) a (filter (λ x, key x = id) l)) <$> (m !! id).
Proof.
  revert m. induction l as [|x l IH]; intros m; [cbn; destruct (m !! id); reflexivity|]. cbn [foldl]. rewrite IH, filter_cons.
  destruct (decide (key x = id)) as [->|Hne].
  - rewrite lookup_alter_eq. destruct (m !! id); reflexivity.
  - by rewrite lookup_alter_ne.
Qed.

Lemma count_services_flat services m :
  foldl count_service m services = foldl (λ m vip, alter (λ t, take_vip t vip.2) vip.1 m) m (services ≫= VirtualIPs).
Proof. revert m. induction services as [|s services IH]; intros m; [done|]. cbn [foldl]. by rewrite bind_cons, foldl_app, IH. Qed.

Lemma count_tasks_flat tasks m :
  foldl count_task m tasks = foldl (λ m x, alter (attach x.1 x.2.2) x.2.1 m) m
    (filter (λ t, live (tn_State t) = true) tasks ≫= λ t, (λ a, (tn_NodeID t, a)) <$> NetworksAttachments t).
Proof.
  revert m. induction tasks as [|t tasks IH]; intros m; [done|]. cbn [foldl]. rewrite IH, filter_cons. unfold count_task.
  destruct (live (tn_State t)) eqn:E; cbn [negb].
  - rewrite decide_True by done. rewrite bind_cons, foldl_app. f_equal. generalize (NetworksAttachments t). intros l. clear.
    revert m. induction l as [|a l IHl]; intros m; [done|]. apply IHl.
  - by rewrite decide_False by congruence.
Qed.

Lemma size_difference_insert (X Y : gset Z) a :
  Z.of_nat (size (({[a]} ∪ X) ∖ Y)) = (if decide (a ∈ Y) then 0 else 1) + Z.of_nat (size (X ∖ ({[a]} ∪ Y))).
Proof.
  destruct (decide (a ∈ Y)).
  - assert (({[a]} ∪ X) ∖ Y = X ∖ ({[a]} ∪ Y)) as -> by set_solver. lia.
  - assert (({[a]} ∪ X) ∖ Y = {[a]} ∪ X ∖ ({[a]} ∪ Y)) as -> by (apply set_eq; intros b; destruct (decide (b = a)); set_solver).
    rewrite size_union, size_singleton by set_solver. lia.
Qed.

(** Taking addresses counts those no one held. *)
Lemma take_vips t l :
  foldl take_vip t l = mkTally (tl_Usable t) (tl_VIPs t + Z.of_nat (size (held_addresses l ∖ taken t))) (tl_TaskAddresses t)
    (tl_Excludes t) (ingress t) (held_addresses l ∪ taken t) (tl_nodes t).
Proof.
  unfold held_addresses. revert t. induction l as [|s l IH]; intros t.
  { cbn. rewrite empty_difference_L, size_empty, union_empty_l_L, Z.add_0_r. by destruct t. }
  cbn [foldl omap list_omap]. rewrite IH. unfold take_vip, take_. destruct (ipv4_of s) as [a|]; cbn; [|done].
  rewrite size_difference_insert. case_bool_decide as Hin; cbn [tl_Usable tl_VIPs tl_TaskAddresses tl_Excludes ingress taken tl_nodes].
  - rewrite decide_True by done. assert ({[a]} ∪ taken t = taken t) as -> by set_solver. f_equal; first [lia|set_solver].
  - rewrite decide_False by done. f_equal; [lia|set_solver].
Qed.

Lemma take_tasks t l :
  foldl take_task t l = mkTally (tl_Usable t) (tl_VIPs t) (tl_TaskAddresses t + Z.of_nat (size (held_addresses l ∖ taken t)))
    (tl_Excludes t) (ingress t) (held_addresses l ∪ taken t) (tl_nodes t).
Proof.
  unfold held_addresses. revert t. induction l as [|s l IH]; intros t.
  { cbn. rewrite empty_difference_L, size_empty, union_empty_l_L, Z.add_0_r. by destruct t. }
  cbn [foldl omap list_omap]. rewrite IH. unfold take_task, take_. destruct (ipv4_of s) as [a|]; cbn; [|done].
  rewrite size_difference_insert. case_bool_decide as Hin; cbn [tl_Usable tl_VIPs tl_TaskAddresses tl_Excludes ingress taken tl_nodes].
  - rewrite decide_True by done. assert ({[a]} ∪ taken t = taken t) as -> by set_solver. f_equal; first [lia|set_solver].
  - rewrite decide_False by done. f_equal; [lia|set_solver].
Qed.

(** The nodes an attachment's task runs on. *)
Definition node_set (attached : list (string * list string)) : gset string := list_to_set (filter (λ n, n ≠ "") attached.*1).

Lemma attach_all t attached :
  foldl (λ t x, attach x.1 x.2 t) t attached =
  mkTally (tl_Usable t) (tl_VIPs t) (tl_TaskAddresses t + Z.of_nat (size (held_addresses (attached ≫= snd) ∖ taken t)))
    (tl_Excludes t) (ingress t) (held_addresses (attached ≫= snd) ∪ taken t) (node_set attached ∪ tl_nodes t).
Proof.
  revert t. induction attached as [|[node l] attached IH]; intros t.
  { unfold held_addresses, node_set. cbn. rewrite empty_difference_L, size_empty, !union_empty_l_L, Z.add_0_r. by destruct t. }
  cbn [foldl fst snd]. rewrite IH, bind_cons. unfold attach. rewrite take_tasks. unfold held_addresses, node_set. rewrite omap_app, list_to_set_app_L.
  set (A := list_to_set (omap ipv4_of l) : gset Z). set (B := list_to_set (omap ipv4_of (attached ≫= snd)) : gset Z).
  assert (∀ T : gset Z, Z.of_nat (size ((A ∪ B) ∖ T)) = Z.of_nat (size (A ∖ T)) + Z.of_nat (size (B ∖ (A ∪ T)))) as Hsize.
  { intros T. assert ((A ∪ B) ∖ T = A ∖ T ∪ B ∖ (A ∪ T)) as ->.
    { apply set_eq. intros b. destruct (decide (b ∈ A)); set_solver. }
    rewrite size_union by set_solver. lia. }
  cbn [fmap list_fmap fst]. rewrite filter_cons. destruct (is_empty node) eqn:En; cbn [tl_Usable tl_VIPs tl_TaskAddresses tl_Excludes ingress taken tl_nodes].
  - apply is_empty_spec in En as ->. rewrite decide_False by (intros []; done). rewrite Hsize. f_equal; [lia|set_solver].
  - rewrite decide_True by (intros ->; done). rewrite Hsize. f_equal; [lia|set_solver|set_solver].
Qed.

Lemma tallies_lookup networks id :
  tallies_of networks !! id = new_tally <$> last (filter (λ n, ns_ID n = id ∧ Counted n = true) networks).
Proof.
  unfold tallies_of. induction networks as [|n networks IH] using rev_ind; [done|].
  rewrite foldl_snoc, filter_app, filter_cons, filter_nil. destruct (Counted n) eqn:E.
  - destruct (decide (ns_ID n = id)) as [->|Hne].
    + rewrite decide_True by done. by rewrite lookup_insert_eq, last_snoc.
    + rewrite decide_False by tauto. by rewrite lookup_insert_ne, app_nil_r.
  - rewrite decide_False by (intros [_ ?]; congruence). by rewrite app_nil_r.
Qed.

(** The count of a network's addresses is exact, in any order its services
    and tasks are read in. A swarm network of the default driver that has a
    pool has a figure: of each address it is known to have given out one is
    counted, as a service's when one of its services has it as a virtual IP and
    otherwise as a task's; and it holds a balancer on each node where a live
    task joined it, or on every node when it is the ingress network. *)
Theorem count_exact networks services tasks nodes id :
  let vips := held_addresses (vips_in services id) in
  let attached := attachments_in tasks id in
  let held := held_addresses (attached ≫= snd) ∖ vips in
  Count networks services tasks nodes !! id =
    match last (filter (λ n, ns_ID n = id ∧ Counted n = true) networks) with
    | None => None
    | Some n =>
        let balancers := if ns_Ingress n then nodes else Z.of_nat (size (node_set attached)) in
        Some (mkAddresses (tl_Usable (new_tally n)) (Z.of_nat (size vips) + Z.of_nat (size held) + balancers)
          (Z.of_nat (size vips)) (Z.of_nat (size held)) balancers (ns_Attachable n))
    end.
Proof.
  cbn zeta. unfold Count. rewrite lookup_fmap, count_tasks_flat, foldl_alter_lookup, count_services_flat, foldl_alter_lookup, tallies_lookup.
  destruct (last _) as [n|]; [|done]. cbn [fmap option_fmap option_map]. f_equal.
  assert (∀ t (l : list (string * string)), foldl (λ t vip, take_vip t vip.2) t l = foldl take_vip t l.*2) as Hv.
  { intros t l. revert t. induction l as [|v l IH]; intros t; [done|]. apply IH. }
  assert (∀ t l, foldl (λ t (x : string * (string * list string)), attach x.1 x.2.2 t) t l =
    foldl (λ t x, attach x.1 x.2 t) t ((λ x, (x.1, x.2.2)) <$> l)) as Ht.
  { intros t l. revert t. induction l as [|v l IH]; intros t; [done|]. apply IH. }
  rewrite Hv, Ht, take_vips, attach_all. unfold addresses_of, new_tally.
  cbn [tl_Usable tl_VIPs tl_TaskAddresses tl_Excludes ingress taken tl_nodes].
  rewrite !difference_empty_L, !union_empty_r_L, !Z.add_0_l. done.
Qed.

Definition demo_cfg : IPAMConfig := mkIPAMConfig "10.0.0.0/16" "10.0.0.0/29" "".

Lemma usable_exact_witness :
  usable demo_cfg = Some 6 ∧
  ∃ subnet l, ipv4_prefix (Subnet demo_cfg) = Some subnet ∧ 6 = Z.of_nat (length l) ∧ NoDup l ∧
    ∀ a, a ∈ l ↔ in_pool demo_cfg subnet a ∧ ¬ is_edge subnet a ∧ ¬ is_gateway demo_cfg subnet a.
Proof. split; [vm_compute; reflexivity|]. apply (usable_exact demo_cfg 6). vm_compute. reflexivity. Defined.

(** The figures of the package's own test table. *)
Example usable_table :
  (λ '(s, r, g), usable (mkIPAMConfig s r g)) <$>
    [("10.0.1.0/24", "", ""); ("10.0.1.0/30", "", ""); ("10.0.1.0/31", "", ""); ("10.0.1.1/32", "", "");
     ("10.0.0.0/16", "10.0.4.0/24", "10.0.0.1"); ("10.0.0.0/16", "10.0.255.0/24", ""); ("10.0.0.0/24", "10.1.0.0/24", "");
     ("fd00::/64", "", "")] =
  [Some 253; Some 1; Some 1; Some 0; Some 256; Some 254; Some 0; None].
Proof. vm_compute. reflexivity. Qed.
