(* ===== verification/Watcher.v ===== *)
(** The watcher: internal/docker/watcher.go, which reads the cluster through
    internal/docker/client.go and writes the cache.

    The Docker SDK is not modelled: what it answers is an argument, an answer
    and the time it would take. A call it is given a context for returns by the
    context's deadline, with the context's error. *)
From S2P Require Import Prelude GoStrings SortedLists Restarts CacheState CacheStacks CacheIndex CacheOps Cache CacheList.
#[local] Open Scope string_scope.
#[local] Open Scope Z_scope.

(** * Errors and contexts *)

(** What errdefs and errors.Is tell errors apart by. *)
Inductive errclass :=
| NotFound | Unauthorized | PermissionDenied | NotImplemented | Unavailable
| DeadlineExceeded | Canceled.

#[global] Instance errclass_eq_dec : EqDecision errclass.
Proof. solve_decision. Defined.

(** An error is of every class it wraps. *)
Record error := mkError { classes : list errclass; message : string }.

Definition Is (k : errclass) (e : error) : bool := bool_decide (k ∈ classes e).

(** When a context ends, and the error it ends with. *)
Record Ctx := mkCtx { Done : option Z; Cause : error }.

Definition Background : Ctx := mkCtx None (mkError [] "").

Definition timed_out : error := mkError [DeadlineExceeded] "context deadline exceeded".

Definition WithTimeout (ctx : Ctx) (now timeout : Z) : Ctx :=
  match Done ctx with
  | Some d => if d <=? now + timeout then ctx else mkCtx (Some (now + timeout)) timed_out
  | None => mkCtx (Some (now + timeout)) timed_out
  end.

Definition Err (ctx : Ctx) (now : Z) : option error :=
  match Done ctx with
  | Some d => if d <=? now then Some (Cause ctx) else None
  | None => None
  end.

(** * Inspecting one resource *)

Inductive answer := Found (r : Resource) | Failed_ (e : error).

(** What the engine would answer, and how long it would take. *)
Record attempt := mkAttempt { Took : Z; Answer : answer }.

(** Durations are nanoseconds. *)
Definition time_Millisecond : Z := 1000000.
Definition time_Second_ : Z := 1000 * time_Millisecond.
Definition inspectTimeout : Z := 10 * time_Second_.

(** A call under a context: when it returns, and with what. *)
Definition call (ctx : Ctx) (now : Z) (a : attempt) : Z * answer :=
  match Done ctx with
  | Some d => if d <=? now + Took a then (Z.max now d, Failed_ (Cause ctx)) else (now + Took a, Answer a)
  | None => (now + Took a, Answer a)
  end.

Definition inspect (ctx : Ctx) (timeout now : Z) (a : attempt) : Z * answer :=
  call (WithTimeout ctx now timeout) now a.

Definition maxAttempts : nat := 4.

(** Its loop, under the context with the call's own deadline, from attempt [i]. *)
Fixpoint retries (fuel i : nat) (ctx : Ctx) (now backoff : Z) (created : bool) (engine : nat → attempt)
    (lastErr : error) : Z * answer :=
  match fuel with
  | O => (now, Failed_ lastErr)
  | S fuel =>
      let '(now, got) := inspect ctx (inspectTimeout / 2) now (engine i) in
      match got with
      | Found r => (now, Found r)
      | Failed_ err =>
          match Err ctx now with
          | Some cause => (now, Failed_ cause)
          | None =>
              if Is NotFound err && negb created then (now, Failed_ err)
              else if Is Unauthorized err || Is PermissionDenied err || Is NotImplemented err
              then (now, Failed_ err)
              else match Err ctx (now + backoff) with
                   | Some cause => (Z.max now (default now (Done ctx)), Failed_ cause)
                   | None => retries fuel (S i) ctx (now + backoff) (backoff * 2) created engine err
                   end
          end
      end
  end.

Definition inspectWithRetry (ctx : Ctx) (now : Z) (created : bool) (engine : nat → attempt) : Z * answer :=
  retries maxAttempts 0 (WithTimeout ctx now inspectTimeout) now (100 * time_Millisecond) created engine
    (mkError [] "").

(** * Writing the store *)

(** The cache, and what its listeners were told. *)
Abbreviation Store := (Cache * list Event)%type.

Definition write `{MapRange} (o : op) (st : Store) : Store :=
  let '(c, es) := perform o st.1 in (c, st.2 ++ es)%list.

(** A resource's type as Docker's events name it, and its ID. *)
Abbreviation eventKey := (string * string)%type.

Definition applyRemove `{MapRange} (key : eventKey) (st : Store) : Store :=
  let '(resourceType, id) := key in
  if bool_decide (resourceType = "node") then write (OpDeleteNode id) st
  else if bool_decide (resourceType = "service") then write (OpDeleteService id) st
  else if bool_decide (resourceType = "config") then write (OpDeleteConfig id) st
  else if bool_decide (resourceType = "secret") then write (OpDeleteSecret id) st
  else if bool_decide (resourceType = "network") then write (OpDeleteNetwork id) st
  else if bool_decide (resourceType = "volume") then write (OpDeleteVolume id) st
  else if bool_decide (resourceType = "task") then write (OpDeleteTask id) st
  else st.

Definition apply `{MapRange} (resource : Resource) (now : Z) (st : Store) : Store :=
  match resource with
  | RNode v => write (OpSetNode v) st
  | RService v => write (OpSetService v) st
  | RTask v => write (OpSetTask v now) st
  | RConfig v => write (OpSetConfig v) st
  | RSecret v => write (OpSetSecret v) st
  | RNetwork v => write (OpSetNetwork v) st
  | RVolume v => write (OpSetVolume v) st
  | RNone => st
  end.

Definition inspectAndApply `{MapRange} (ctx : Ctx) (key : eventKey) (created : bool) (now : Z)
    (engine : nat → attempt) (st : Store) : Store :=
  let '(now, got) := inspectWithRetry ctx now created engine in
  match got with
  | Found r => apply r now st
  | Failed_ err => if Is NotFound err then applyRemove key st else st
  end.

(** * Events *)

Record coalesced := mkCoalesced { c_action : string; created : bool }.

Definition no_event : coalesced := mkCoalesced "" false.

Definition then_ (c : coalesced) (action : string) : coalesced :=
  mkCoalesced action (created c || bool_decide (action = "create")).

Definition actionSettle : string := "settle".
Definition actionStarted : string := "started".

Definition isContainerDeath (action : string) : bool :=
  bool_decide (action ∈ ["die"; "kill"; "stop"; "destroy"; "oom"]).

Definition historyAction (action : string) : string :=
  if bool_decide (action = "destroy") then "remove" else action.

(** Of Docker's message, what is read here. *)
Record message_ := mkMessage {
  msg_Type : string;
  msg_Action : string;
  msg_Actor : string;
  msg_Attributes : gmap string string;
  msg_Time : Z;
}.

Definition eventKeyFromMsg (msg : message_) : eventKey * string :=
  if bool_decide (msg_Type msg = "container") then
    let taskID := (msg_Attributes msg).["com.docker.swarm.task.id"] in
    if bool_decide (taskID = "") then (("", ""), "")
    else if isContainerDeath (msg_Action msg) then (("task", taskID), actionSettle)
    else if bool_decide (msg_Action msg = "start") then (("task", taskID), actionStarted)
    else (("task", taskID), "update")
  else if bool_decide (msg_Type msg = "network") || bool_decide (msg_Type msg = "volume") then
    ((msg_Type msg, msg_Actor msg), historyAction (msg_Action msg))
  else ((msg_Type msg, msg_Actor msg), msg_Action msg).

(** * Task lists *)

Record TaskScope := mkScope { sc_Service : string; sc_Node : string }.

Definition everything : TaskScope := mkScope "" "".

(** A re-list applied: what it names is set, what the cache had of the scope and
    it does not name is deleted. [None] is a failed read. *)
Definition reconcileTasks `{MapRange} (scope : TaskScope) (listed : option (list Task)) (now : Z)
    (st : Store) : Store :=
  match listed with
  | None => st
  | Some listed =>
      let cached :=
        if negb (bool_decide (sc_Service scope = "")) then ListTasksByService st.1 (sc_Service scope)
        else if negb (bool_decide (sc_Node scope = "")) then ListTasksByNode st.1 (sc_Node scope)
        else default [] (ListTasks st.1) in
      let st := foldl (λ st t, write (OpSetTask t now) st) st listed in
      foldl (λ st t, if bool_decide (t_ID t ∈ t_ID <$> listed) then st else write (OpDeleteTask (t_ID t)) st)
        st cached
  end.

Definition taskScopes `{MapRange} (batch : gmap eventKey coalesced) : list TaskScope :=
  omap (λ '((resourceType, id), ev),
    if bool_decide (c_action ev = "remove") then None
    else if bool_decide (resourceType = "service") then Some (mkScope id "")
    else if bool_decide (resourceType = "node") then Some (mkScope "" id)
    else None) (range batch).

Definition workerCount : nat := 4.

(** [locked] says another sync holds syncMu. *)
Definition reconcileScopes `{MapRange} (scopes : list TaskScope) (locked : bool)
    (lists : TaskScope → option (list Task)) (now : Z) (st : Store) : Store :=
  match scopes with
  | [] => st
  | _ =>
      if locked then st else
      let scopes := if (workerCount <? length scopes)%nat then [everything] else scopes in
      foldl (λ st scope, reconcileTasks scope (lists scope) now st) st scopes
  end.

(** * Settling *)

Definition IsTerminalState (s : string) : bool :=
  IsFailureState s || bool_decide (s = "complete") || bool_decide (s = "shutdown") ||
  bool_decide (s = "remove").

Definition taskCaughtUp (t : Task) (action : string) : bool :=
  negb (TaskIsLive t) || IsTerminalState (t_State t) ||
  bool_decide (action = actionStarted) && bool_decide (t_State t = "running").

(** Whether a task event calls for re-reads. *)
Definition needs_settle (c : Cache) (key : eventKey) (action : string) : bool :=
  match tasks c !! key.2 with
  | Some t => negb (taskCaughtUp t action)
  | None => false
  end.

Inductive settledRead := Gone_ | Read (t : Task).

(** settleRead's inspect: the read to hand over, if any, and whether the re-reads
    end here. *)
Definition settle_read (ctx : Ctx) (now : Z) (action : string) (engine : nat → attempt)
    : option settledRead * bool :=
  let '(now, got) := inspectWithRetry ctx now false engine in
  match got with
  | Found (RTask t) => (Some (Read t), taskCaughtUp t action)
  | Found _ => (None, true)
  | Failed_ err =>
      if Is NotFound err then (Some Gone_, true)
      else (None, bool_decide (is_Some (Err ctx now)))
  end.

Definition queueSettled (id : string) (read : settledRead) (settled : gmap string settledRead)
    : gmap string settledRead :=
  match settled !! id, read with
  | Some (Read queued), Read t =>
      if t_Version queued <=? t_Version t then <[id := read]> settled else settled
  | _, _ => <[id := read]> settled
  end.

Definition applySettledRead `{MapRange} (now : Z) (id : string) (read : settledRead) (st : Store) : Store :=
  match tasks st.1 !! id with
  | None => st
  | Some _ =>
      match read with
      | Gone_ => write (OpDeleteTask id) st
      | Read t => write (OpSetTask t now) st
      end
  end.

Definition applySettled `{MapRange} (now : Z) (settled : gmap string settledRead) (st : Store) : Store :=
  foldl (λ st '(id, read), applySettledRead now id read st) st (range settled).

(** * A batch *)

(** When a worker takes a key up, and what the engine answers it. *)
Record probe := mkProbe { At_ : Z; Engine : nat → attempt }.

(** [order] is the order in which the workers finish their keys, which is the
    order they write the cache in; the second result is the settles it starts. *)
Definition processBatch `{MapRange} (ctx : Ctx) (batch : gmap eventKey coalesced)
    (order : list eventKey) (probes : eventKey → probe) (locked : bool)
    (lists : TaskScope → option (list Task)) (now : Z) (st : Store) : Store * list (eventKey * string) :=
  let scopes := taskScopes batch in
  let removeKeys := (filter (λ p, c_action p.2 = "remove") (range batch)).*1 in
  let st := foldl (λ st key, applyRemove key st) st removeKeys in
  let batch := filter (λ p, c_action p.2 ≠ "remove") batch in
  if bool_decide (batch = ∅) then (reconcileScopes scopes locked lists now st, []) else
  let st := foldl (λ st key,
      inspectAndApply ctx key (created (default no_event (batch !! key))) (At_ (probes key))
        (Engine (probes key)) st) st order in
  let st := reconcileScopes scopes locked lists now st in
  (st, omap (λ '(key, ev),
     if (bool_decide (c_action ev = actionSettle) || bool_decide (c_action ev = actionStarted)) &&
        needs_settle st.1 key (c_action ev)
     then Some (key, c_action ev) else None) (range batch)).

(** * Refreshing one resource *)

Definition errRefreshUnavailable : error :=
  mkError [Unavailable] "the Docker event loop is not accepting refreshes".

Definition refreshNow `{MapRange} (ctx : Ctx) (kind id : string) (now : Z) (a : attempt) (st : Store)
    : Store * option error :=
  let '(now, got) := inspect ctx inspectTimeout now a in
  match got with
  | Found r => (apply r now st, None)
  | Failed_ err =>
      if Is NotFound err then (applyRemove (kind, id) st, None)
      else if Is DeadlineExceeded err && bool_decide (Err ctx now = None)
      then (st, Some (mkError (Unavailable :: classes err) (message err)))
      else (st, Some err)
  end.

(** * Full syncs *)

Definition swarmResources : list string := ["nodes"; "services"; "tasks"; "configs"; "secrets"].
Definition syncedResources : list string :=
  ["nodes"; "services"; "tasks"; "configs"; "secrets"; "networks"; "volumes"].

Definition fullSyncError (failed : gmap string error) : option error :=
  let causes := omap (λ name, err ← failed !! name; Some (name, err)) syncedResources in
  let failure summary :=
    Some (mkError (causes ≫= λ p, classes p.2)
      (foldl (λ s p, s +:+ "; " +:+ p.1 +:+ ": " +:+ message p.2) summary causes)) in
  if bool_decide (size failed = length syncedResources) then failure "all resource syncs failed"
  else if negb (existsb (λ name, bool_decide (failed !! name = None)) swarmResources) then
    failure ("no swarm resource could be listed: docker.host must point at a swarm manager, " +:+
             "and the swarm must have a leader")
  else None.

(** What the engine answers each list with. *)
Record lists := mkLists {
  l_Nodes : error + list Node;
  l_Services : error + list Service;
  l_Tasks : error + list Task;
  l_Configs : error + list Config;
  l_Secrets : error + list Secret;
  l_Networks : error + list Network;
  l_Volumes : error + list Volume;
}.

Definition fetched_ {T} (l : error + list T) : option (list T) :=
  match l with inl _ => None | inr l => Some l end.

Definition failed_at {T} (name : string) (l : error + list T) (failed : gmap string error) :=
  match l with inl err => <[name := err]> failed | inr _ => failed end.

Definition FullSync (e : lists) : FullSyncData * option error :=
  (mkSync (fetched_ (l_Nodes e)) (fetched_ (l_Services e)) (fetched_ (l_Tasks e)) (fetched_ (l_Configs e))
     (fetched_ (l_Secrets e)) (fetched_ (l_Networks e)) (fetched_ (l_Volumes e)),
   fullSyncError
     (failed_at "nodes" (l_Nodes e) (failed_at "services" (l_Services e) (failed_at "tasks" (l_Tasks e)
       (failed_at "configs" (l_Configs e) (failed_at "secrets" (l_Secrets e)
         (failed_at "networks" (l_Networks e) (failed_at "volumes" (l_Volumes e) ∅)))))))).

(** * The watcher *)

(** Where Run is: syncing, at first or again, about to subscribe, in watchEvents, or waiting before
    it reconnects. *)
Inductive phase :=
| Syncing (first : bool) (since : Z)
| Subscribing (synced : bool)
| Streaming
| Waiting
| Stopped.

(** A settle's goroutine between two reads: its task, what prompted it, how many
    reads it has left and its next delay. *)
Record settle := mkSettle { se_key : eventKey; se_action : string; se_left : nat; se_delay : Z }.

Record Watcher := mkWatcher {
  store : Store;
  at_phase : phase;
  backoff : Z;
  pending : gmap eventKey coalesced;
  armed : bool;                        (* timerC is not nil *)
  retry : option (Z * Z);              (* retryC's delay and its sync's bound *)
  settles : gmap nat settle;
  started : nat;                       (* settles ever started *)
  settled : gmap string settledRead;
  settledReady : bool;
  beside : bool;                       (* a Resync beside the loop holds syncMu *)
  watching : bool;
  connected : bool;
  ready : bool;
  lastSync_ : Z;
  hooks : list Z;                      (* the calls of onWatching, oldest first *)
}.

Definition with_store (st : Store) (w : Watcher) : Watcher :=
  mkWatcher st (at_phase w) (backoff w) (pending w) (armed w) (retry w) (settles w) (started w) (settled w)
    (settledReady w) (beside w) (watching w) (connected w) (ready w) (lastSync_ w) (hooks w).
Definition with_phase (p : phase) (w : Watcher) : Watcher :=
  mkWatcher (store w) p (backoff w) (pending w) (armed w) (retry w) (settles w) (started w) (settled w)
    (settledReady w) (beside w) (watching w) (connected w) (ready w) (lastSync_ w) (hooks w).
Definition with_backoff (d : Z) (w : Watcher) : Watcher :=
  mkWatcher (store w) (at_phase w) d (pending w) (armed w) (retry w) (settles w) (started w) (settled w)
    (settledReady w) (beside w) (watching w) (connected w) (ready w) (lastSync_ w) (hooks w).
Definition with_pending (p : gmap eventKey coalesced) (a : bool) (w : Watcher) : Watcher :=
  mkWatcher (store w) (at_phase w) (backoff w) p a (retry w) (settles w) (started w) (settled w)
    (settledReady w) (beside w) (watching w) (connected w) (ready w) (lastSync_ w) (hooks w).
Definition with_retry (r : option (Z * Z)) (w : Watcher) : Watcher :=
  mkWatcher (store w) (at_phase w) (backoff w) (pending w) (armed w) r (settles w) (started w) (settled w)
    (settledReady w) (beside w) (watching w) (connected w) (ready w) (lastSync_ w) (hooks w).
Definition with_settles (m : gmap nat settle) (n : nat) (w : Watcher) : Watcher :=
  mkWatcher (store w) (at_phase w) (backoff w) (pending w) (armed w) (retry w) m n (settled w)
    (settledReady w) (beside w) (watching w) (connected w) (ready w) (lastSync_ w) (hooks w).
Definition with_settled (m : gmap string settledRead) (r : bool) (w : Watcher) : Watcher :=
  mkWatcher (store w) (at_phase w) (backoff w) (pending w) (armed w) (retry w) (settles w) (started w) m
    r (beside w) (watching w) (connected w) (ready w) (lastSync_ w) (hooks w).
Definition with_beside (b : bool) (w : Watcher) : Watcher :=
  mkWatcher (store w) (at_phase w) (backoff w) (pending w) (armed w) (retry w) (settles w) (started w)
    (settled w) (settledReady w) b (watching w) (connected w) (ready w) (lastSync_ w) (hooks w).
Definition with_watching (b : bool) (l : list Z) (w : Watcher) : Watcher :=
  mkWatcher (store w) (at_phase w) (backoff w) (pending w) (armed w) (retry w) (settles w) (started w)
    (settled w) (settledReady w) (beside w) b (connected w) (ready w) (lastSync_ w) l.
Definition with_connected (c r : bool) (w : Watcher) : Watcher :=
  mkWatcher (store w) (at_phase w) (backoff w) (pending w) (armed w) (retry w) (settles w) (started w)
    (settled w) (settledReady w) (beside w) (watching w) c r (lastSync_ w) (hooks w).
Definition with_lastSync (t : Z) (w : Watcher) : Watcher :=
  mkWatcher (store w) (at_phase w) (backoff w) (pending w) (armed w) (retry w) (settles w) (started w)
    (settled w) (settledReady w) (beside w) (watching w) (connected w) (ready w) t (hooks w).

Definition time_Minute : Z := 60 * time_Second_.
Definition defaultSettleDelay : Z := 750 * time_Millisecond.
Definition settleAttempts : nat := 3.
Definition eventReplayMargin : Z := 5 * time_Second_.
Definition maxBackoff : Z := 30 * time_Second_.
Definition fullSyncTimeout : Z := 2 * time_Minute.
Definition retrySyncTimeout : Z := 10 * time_Second_.

Definition eventsSince (now : Z) : Z := now - eventReplayMargin.

(** NewWatcher, and the head of Run. *)
Definition NewWatcher (c : Cache) (now : Z) : Watcher :=
  mkWatcher (c, []) (Syncing true (eventsSince now)) time_Second_ ∅ false None ∅ 0 ∅ false false false false
    false 0 [].

Definition startWatching (streamSince : Z) (w : Watcher) : Watcher :=
  if watching w then w else with_watching true (hooks w ++ [streamSince]) w.

Definition setConnected (c : bool) (w : Watcher) : Watcher := with_connected c (ready w) w.

(** The Once closes ready, which a closed channel stays. *)
Definition markTracking (w : Watcher) : Watcher := with_connected true true w.

(** [answers] is what the engine answers by [now]; a failed sync leaves the cache. *)
Definition syncLocked `{MapRange} (answers : lists) (now : Z) (w : Watcher) : Watcher * option error :=
  match FullSync answers with
  | (_, Some err) => (w, Some err)
  | (data, None) => (with_lastSync now (with_store (write (OpReplaceAll data now) (store w)) w), None)
  end.

Definition fullSync `{MapRange} (answers : lists) (now : Z) (w : Watcher) : Watcher * option error :=
  match syncLocked answers now w with
  | (w, Some err) => (setConnected false w, Some err)
  | (w, None) => (markTracking w, None)
  end.

(** What a batch is processed with. *)
Record inputs := mkInputs {
  in_ctx : Ctx;
  in_order : list eventKey;
  in_probes : eventKey → probe;
  in_lists : TaskScope → option (list Task);
  in_now : Z;
}.

(** processBatch on the loop: each settle it starts is a goroutine. *)
Definition run_batch `{MapRange} (batch : gmap eventKey coalesced) (i : inputs) (w : Watcher) : Watcher :=
  let '(st, new) := processBatch (in_ctx i) batch (in_order i) (in_probes i) (beside w) (in_lists i)
                      (in_now i) (store w) in
  foldl (λ w '(key, action),
      with_settles (<[started w := mkSettle key action settleAttempts defaultSettleDelay]> (settles w))
        (S (started w)) w)
    (with_store st w) new.

(** flushPending, and what a fired debounce timer does: pending events are
    processed and the timer is unarmed. *)
Definition flushPending `{MapRange} (i : inputs) (w : Watcher) : Watcher :=
  let batch := pending w in
  let w := with_pending ∅ false w in
  if bool_decide (batch = ∅) then w else run_batch batch i w.

(** loopSync, where a Resync beside the loop does not hold the lock. *)
Definition loopSync `{MapRange} (i : inputs) (answers : lists) (now : Z) (w : Watcher) : Watcher * bool :=
  let w := flushPending i w in
  if beside w then (w, false) else
  match syncLocked answers now w with
  | (w, Some _) => (w, false)
  | (w, None) => (startWatching 0 (markTracking w), true)
  end.

(** ** The event loop's cases *)

Definition on_message (msg : message_) (w : Watcher) : Watcher :=
  let '(key, action) := eventKeyFromMsg msg in
  if bool_decide (key.2 = "") then w
  else with_pending (<[key := then_ (default no_event (pending w !! key)) action]> (pending w)) true w.

Definition on_refresh `{MapRange} (ctx : Ctx) (kind id : string) (now : Z) (a : attempt) (w : Watcher)
    : Watcher := with_store (refreshNow ctx kind id now a (store w)).1 w.

Definition on_settled `{MapRange} (now : Z) (w : Watcher) : Watcher :=
  with_settled ∅ false (with_store (applySettled now (settled w) (store w)) w).

Definition on_resync `{MapRange} (i : inputs) (answers : lists) (now : Z) (w : Watcher) : Watcher :=
  (syncLocked answers now (flushPending i w)).1.

Definition on_poll `{MapRange} (listed : option (list Task)) (now : Z) (w : Watcher) : Watcher :=
  if beside w then w else with_store (reconcileTasks everything listed now (store w)) w.

Definition on_tick `{MapRange} (i : inputs) (answers : lists) (now : Z) (w : Watcher) : Watcher :=
  let '(w, ok) := loopSync i answers now w in if ok then with_retry None w else w.

(** [waiting] says a Refresh waits for the loop. *)
Definition on_retry `{MapRange} (waiting : bool) (i : inputs) (answers : lists) (now : Z)
    (delay timeout : Z) (w : Watcher) : Watcher :=
  let again timeout w := with_retry (Some (Z.min (delay * 2) maxBackoff, timeout)) w in
  if waiting then again timeout w else
  let '(w, ok) := loopSync i answers now w in
  if ok then with_retry None w else again (Z.min (timeout * 2) fullSyncTimeout) w.

(** Leaving watchEvents: what is pending is processed under a context of its
    own, and the engine counts as unreachable. *)
Definition leave `{MapRange} (i : inputs) (w : Watcher) : Watcher :=
  setConnected false (with_retry None (flushPending i w)).

(** ** Beside the loop *)

(** A settle's goroutine reads its task: the read is queued for a running loop,
    or applied when there is none. *)
Definition hand_over `{MapRange} (now : Z) (id : string) (read : settledRead) (w : Watcher) : Watcher :=
  match at_phase w with
  | Streaming => with_settled (queueSettled id read (settled w)) true w
  | _ => with_store (applySettledRead now id read (store w)) w
  end.

Definition next_read `{MapRange} (n : nat) (s : settle) (ctx : Ctx) (now : Z) (engine : nat → attempt)
    (w : Watcher) : Watcher :=
  let '(read, over) := settle_read ctx now (se_action s) engine in
  let w := match read with Some read => hand_over now (se_key s).2 read w | None => w end in
  match over, se_left s with
  | false, S (S rest) =>
      with_settles (<[n := mkSettle (se_key s) (se_action s) (S rest) (se_delay s * 2)]> (settles w)) (started w) w
  | _, _ => with_settles (delete n (settles w)) (started w) w
  end.

(** * Runs *)

Inductive action :=
| Synced (answers : lists) (now : Z)           (* Run's sync returns *)
| Subscribe                                    (* watchEvents begins *)
| Message (msg : message_)
| Debounce (i : inputs)
| RefreshNow (ctx : Ctx) (kind id : string) (now : Z) (a : attempt)
| SettledReady (now : Z)
| ResyncOnLoop (i : inputs) (answers : lists) (now : Z)
| Poll (listed : option (list Task)) (now : Z)
| SyncTick (i : inputs) (answers : lists) (now : Z)
| RetryTick (waiting : bool) (i : inputs) (answers : lists) (now : Z)
| StreamError (i : inputs)
| CtxDone (i : inputs)
| Reconnect (now : Z)                          (* the backoff ends *)
| SettleRead (n : nat) (ctx : Ctx) (now : Z) (engine : nat → attempt)
| SettleCancelled (n : nat)
| ResyncBeside                                 (* a Resync takes syncMu with no loop running *)
| ResyncReturns (answers : lists) (now : Z).

Definition streaming (w : Watcher) : bool := match at_phase w with Streaming => true | _ => false end.

(** A batch's workers finish every key left after the removals, once each. *)
Definition fair (i : inputs) (w : Watcher) : bool :=
  bool_decide (in_order i ≡ₚ (map_to_list (filter (λ p, c_action p.2 ≠ "remove") (pending w))).*1).

Definition perform_watcher `{MapRange} (a : action) (w : Watcher) : option Watcher :=
  match a with
  | Synced answers now =>
      match at_phase w with
      | Syncing first since =>
          if beside w then None else
          match fullSync answers now w with
          | (w, None) => Some (with_phase (Subscribing true) (with_backoff time_Second_ (startWatching since w)))
          | (w, Some _) =>
              Some (with_phase (Subscribing false)
                (with_backoff (if first then backoff w else Z.min (backoff w * 2) maxBackoff) w))
          end
      | _ => None
      end
  | Subscribe =>
      match at_phase w with
      | Subscribing synced =>
          Some (with_phase Streaming
            (with_retry (if synced then None else Some (time_Second_, retrySyncTimeout)) w))
      | _ => None
      end
  | Message msg => if streaming w then Some (on_message msg w) else None
  | Debounce i => if streaming w && armed w && fair i w then Some (flushPending i w) else None
  | RefreshNow ctx kind id now a => Some (on_refresh ctx kind id now a w)
  | SettledReady now => if streaming w && settledReady w then Some (on_settled now w) else None
  | ResyncOnLoop i answers now =>
      if streaming w && negb (beside w) && fair i w then Some (on_resync i answers now w) else None
  | Poll listed now => if streaming w then Some (on_poll listed now w) else None
  | SyncTick i answers now => if streaming w && fair i w then Some (on_tick i answers now w) else None
  | RetryTick waiting i answers now =>
      match retry w with
      | Some (delay, timeout) =>
          if streaming w && fair i w then Some (on_retry waiting i answers now delay timeout w) else None
      | None => None
      end
  | StreamError i =>
      if streaming w && fair i w
      then Some (with_phase Waiting (leave i (with_watching false (hooks w) w))) else None
  | CtxDone i =>
      match at_phase w with
      | Streaming => if fair i w then Some (with_phase Stopped (leave i w)) else None
      | Waiting => Some (with_phase Stopped w)
      | _ => None
      end
  | Reconnect now =>
      match at_phase w with Waiting => Some (with_phase (Syncing false (eventsSince now)) w) | _ => None end
  | SettleRead n ctx now engine => s ← settles w !! n; Some (next_read n s ctx now engine w)
  | SettleCancelled n => Some (with_settles (delete n (settles w)) (started w) w)
  | ResyncBeside => if streaming w || beside w then None else Some (with_beside true w)
  | ResyncReturns answers now =>
      if beside w then Some (with_beside false (syncLocked answers now w).1) else None
  end.

Fixpoint run_watcher `{MapRange} (l : list action) (w : Watcher) : option Watcher :=
  match l with
  | [] => Some w
  | a :: l => w ← perform_watcher a w; run_watcher l w
  end.
