(* ===== verification/WatcherBatch.v ===== *)
(** What the watcher's reads do to the store: a batch of events, a re-list of
    tasks, one inspection with its retries. *)
From S2P Require Import Prelude GoStrings SortedLists Restarts CacheState CacheStacks CacheIndex CacheOps Cache CacheProps CacheStore CacheList Watcher.
#[local] Open Scope string_scope.
#[local] Open Scope Z_scope.

(** * One inspection *)

(** An error the loop does not retry. *)
Definition final (created : bool) (err : error) : bool :=
  Is NotFound err && negb created ||
  (Is Unauthorized err || Is PermissionDenied err || Is NotImplemented err).

Lemma WithTimeout_done ctx now timeout :
  0 ≤ timeout → ∃ d, Done (WithTimeout ctx now timeout) = Some d ∧ d ≤ now + timeout.
Proof.
  intros Ht. unfold WithTimeout. destruct (Done ctx) as [d|] eqn:E.
  - destruct (Z.leb_spec d (now + timeout)); [by exists d|eexists; done].
  - by eexists.
Qed.

Lemma call_returns ctx now a d :
  Done ctx = Some d → 0 ≤ Took a → now ≤ (call ctx now a).1 ≤ Z.max now d.
Proof.
  intros Hd Ha. unfold call. rewrite Hd. destruct (Z.leb_spec d (now + Took a)); simpl; lia.
Qed.

Lemma inspect_returns ctx timeout now a d :
  Done ctx = Some d → 0 ≤ timeout → 0 ≤ Took a →
  now ≤ (inspect ctx timeout now a).1 ≤ Z.max now d ∧ (inspect ctx timeout now a).1 ≤ now + timeout.
Proof.
  intros Hd Ht Ha. unfold inspect, WithTimeout. rewrite Hd. destruct (Z.leb_spec d (now + timeout)).
  - pose proof (call_returns ctx now a d Hd Ha). lia.
  - pose proof (call_returns (mkCtx (Some (now + timeout)) timed_out) now a _ eq_refl Ha). lia.
Qed.

(** The loop returns, by its context's deadline, whatever the engine answers. *)
Lemma retries_return fuel i ctx now backoff created engine last d :
  Done ctx = Some d → 0 < backoff → (∀ j, 0 ≤ Took (engine j)) →
  now ≤ (retries fuel i ctx now backoff created engine last).1 ≤ Z.max now d.
Proof.
  intros Hd. revert i now backoff last. induction fuel as [|fuel IH]; intros i now backoff last Hb Ht; [simpl; lia|].
  simpl. pose proof (inspect_returns ctx (inspectTimeout / 2) now (engine i) d Hd ltac:(done) (Ht i)) as [Hr _].
  destruct (inspect ctx _ now (engine i)) as [t got]. simpl in Hr. destruct got as [r|err]; [simpl; lia|].
  destruct (Err ctx t) eqn:Et; [simpl; lia|]. repeat case_match; simpl; try lia.
  - unfold Err in *. rewrite Hd in *. simpl. repeat case_match; try done. lia.
  - unfold Err in *. rewrite Hd in *. destruct (Z.leb_spec d (t + backoff)); [done|].
    pose proof (IH (S i) (t + backoff) (backoff * 2) err ltac:(lia) Ht). lia.
Qed.

(** What an attempt is heard to say: an answer within half the budget. *)
Definition heard (a : attempt) : answer :=
  if Took a <? inspectTimeout / 2 then Answer a else Failed_ timed_out.

(** The attempts before the [n]-th were heard to fail in a way worth a retry. *)
Definition retried (created : bool) (engine : nat → attempt) (n : nat) : Prop :=
  ∀ j, (j < n)%nat → ∃ err, heard (engine j) = Failed_ err ∧ final created err = false.

Lemma inspect_answer ctx timeout now a t got :
  inspect ctx timeout now a = (t, got) → Err ctx t = None → 0 ≤ timeout → 0 ≤ Took a →
  got = if Took a <? timeout then Answer a else Failed_ timed_out.
Proof.
  intros Hi He Ht Ha. unfold inspect, call, WithTimeout, Err in *. destruct (Done ctx) as [d|] eqn:Ed; simpl in *.
  - destruct (Z.leb_spec d (now + timeout)).
    + rewrite Ed in Hi. destruct (Z.leb_spec d (now + Took a)); simplify_eq.
      * destruct (Z.leb_spec d (Z.max now d)); [done|lia].
      * destruct (Z.ltb_spec (Took a) timeout); [done|lia].
    + simpl in Hi. destruct (Z.leb_spec (now + timeout) (now + Took a)); simplify_eq;
        destruct (Z.ltb_spec (Took a) timeout); done || lia.
  - simpl in Hi. destruct (Z.leb_spec (now + timeout) (now + Took a)); simplify_eq;
      destruct (Z.ltb_spec (Took a) timeout); done || lia.
Qed.

Lemma Err_mono ctx t t' : t ≤ t' → Err ctx t' = None → Err ctx t = None.
Proof. unfold Err. destruct (Done ctx); [|done]. intros. repeat case_match; try done; lia. Qed.

(** The ways an inspection ends. *)
Inductive outcome (ctx : Ctx) (created : bool) (engine : nat → attempt) (t : Z) : answer → Prop :=
| answered n r :
    (n < maxAttempts)%nat → retried created engine n → heard (engine n) = Found r →
    outcome ctx created engine t (Found r)
| refused n err :
    (n < maxAttempts)%nat → retried created engine n → heard (engine n) = Failed_ err →
    final created err = true → outcome ctx created engine t (Failed_ err)
| exhausted err :
    retried created engine maxAttempts → heard (engine (pred maxAttempts)) = Failed_ err →
    outcome ctx created engine t (Failed_ err)
| cut_short err : Err ctx t = Some err → outcome ctx created engine t (Failed_ err).

Lemma inspect_found ctx timeout now a t r :
  inspect ctx timeout now a = (t, Found r) → Err ctx t = None.
Proof.
  unfold inspect, call, WithTimeout, Err. destruct (Done ctx) as [d|] eqn:Ed; [|done]. intros Hi.
  destruct (Z.leb_spec d (now + timeout)).
  - rewrite Ed in Hi. destruct (Z.leb_spec d (now + Took a)); [done|]. injection Hi as <- _.
    destruct (Z.leb_spec d (now + Took a)); [lia|done].
  - simpl in Hi. destruct (Z.leb_spec (now + timeout) (now + Took a)); [done|]. injection Hi as <- _.
    destruct (Z.leb_spec d (now + Took a)); [lia|done].
Qed.

Lemma retried_S created engine i err :
  retried created engine i → heard (engine i) = Failed_ err → final created err = false →
  retried created engine (S i).
Proof.
  intros Hre Hh Hf j Hj. destruct (decide (j = i)) as [->|]; [by exists err|]. apply Hre. lia.
Qed.

Lemma Err_max ctx now t cause :
  Err ctx t = Some cause → Err ctx (Z.max now (default now (Done ctx))) = Some cause.
Proof.
  unfold Err. destruct (Done ctx) as [d|]; [|done]. simpl.
  destruct (Z.leb_spec d t), (Z.leb_spec d (Z.max now d)); done || lia.
Qed.

Lemma retries_outcome fuel i ctx now backoff created engine last :
  (i + fuel = maxAttempts)%nat → 0 < backoff → (∀ j, 0 ≤ Took (engine j)) → retried created engine i →
  (i = 0%nat ∨ heard (engine (pred i)) = Failed_ last) →
  let '(t, got) := retries fuel i ctx now backoff created engine last in outcome ctx created engine t got.
Proof.
  revert i now backoff last.
  induction fuel as [|fuel IH]; intros i now backoff last Hi Hb Ht Hre Hlast.
  { simpl. replace i with maxAttempts in * by lia. destruct Hlast as [|Hl]; [done|]. by apply exhausted. }
  simpl. destruct (inspect ctx (inspectTimeout / 2) now (engine i)) as [t got] eqn:Ei.
  assert (Err ctx t = None → got = heard (engine i)) as Hgot by (intros He; by eapply inspect_answer).
  destruct got as [r|err].
  - apply (answered _ _ _ _ i); [lia|done|]. by rewrite <- Hgot by by eapply inspect_found.
  - destruct (Err ctx t) as [cause|] eqn:Ee; [by apply cut_short|].
    specialize (Hgot eq_refl). destruct (final created err) eqn:Ef.
    + assert (outcome ctx created engine t (Failed_ err)) as Ho by (apply (refused _ _ _ _ i); done || lia).
      unfold final in Ef. destruct (Is NotFound err && negb created); [done|]. simpl in Ef. by rewrite Ef.
    + pose proof Ef as [E1 E2]%orb_false_iff. rewrite E1, E2.
      destruct (Err ctx (t + backoff)) as [cause|] eqn:Eb; [apply cut_short; by eapply Err_max|].
      apply IH; [lia|lia|done|by eapply retried_S|by right].
Qed.

(** An inspection always ends, within ten seconds, however the engine
    behaves: with the first answer heard within an attempt's bound, an error no
    retry would change, the error of its last attempt after four, or the end of
    its context. A not-found is such an error only without a create before it,
    and every attempt before the one that decides was heard to fail otherwise. *)
Theorem inspection_ends ctx now created engine (Htook : ∀ j, 0 ≤ Took (engine j)) :
  let '(t, got) := inspectWithRetry ctx now created engine in
  now ≤ t ≤ now + inspectTimeout ∧ outcome (WithTimeout ctx now inspectTimeout) created engine t got.
Proof.
  unfold inspectWithRetry. destruct (WithTimeout_done ctx now inspectTimeout) as (d & Hd & Hle); [done|].
  pose proof (retries_return maxAttempts 0 (WithTimeout ctx now inspectTimeout) now (100 * time_Millisecond)
    created engine (mkError [] "") d Hd ltac:(done) Htook) as Hr.
  pose proof (retries_outcome maxAttempts 0 (WithTimeout ctx now inspectTimeout) now (100 * time_Millisecond)
    created engine (mkError [] "") eq_refl ltac:(done) Htook ltac:(intros j Hj; lia) ltac:(by left)) as Ho.
  destruct (retries _ _ _ _ _ _ _ _) as [t got]. simpl in Hr. split; [|done].
  assert (0 ≤ inspectTimeout) by done. lia.
Qed.

(** A create's task is not there yet at first; the third attempt finds it. *)
Definition late_task : Task := mkTask "t1" 1 "s1" "" "new" "running" "" "" 0 None 1 None.

Definition late (j : nat) : attempt :=
  mkAttempt time_Millisecond
    (if (j <? 2)%nat then Failed_ (mkError [NotFound] "no such task") else Found (RTask late_task)).

Lemma inspection_ends_witness :
  (∀ j, 0 ≤ Took (late j)) ∧ inspectWithRetry Background 0 true late = (303 * time_Millisecond, Found (RTask late_task)) ∧
  (0 ≤ 303 * time_Millisecond ≤ 0 + inspectTimeout ∧
   outcome (WithTimeout Background 0 inspectTimeout) true late (303 * time_Millisecond) (Found (RTask late_task))).
Proof.
  assert (∀ j, 0 ≤ Took (late j)) as Ht by done.
  split; [exact Ht|]. split; [reflexivity|].
  exact (inspection_ends Background 0 true late Ht).
Defined.

(** * The task indexes, whatever the rest of the cache *)

Definition task_part (c : Cache) : gmap string Task * TaskIndex * TaskIndex :=
  (tasks c, tasksByService c, tasksByNode c).

Definition tasks_ok (c : Cache) : Prop := triple_ok (task_part c).

Lemma cache_tasks_ok c : cache_ok c → tasks_ok c.
Proof. by intros []. Qed.

Lemma Set_part {T} (r : ResourceMap T) ty id clean v e c :
  part_of_store r ty id clean → (∀ c m, task_part (put r c m) = task_part c) →
  task_part (Set_ r (id v) v e c).1 = task_part c.
Proof.
  intros Hr Hp. unfold Set_. destruct (older _ _ _); [done|].
  destruct (ps_set _ _ _ _ Hr (id v) v c) as [st ->]. simpl. by rewrite Hp.
Qed.

Lemma Add_part {T} (r : ResourceMap T) ty id clean v e c :
  part_of_store r ty id clean → (∀ c m, task_part (put r c m) = task_part c) →
  task_part (Add r (id v) v e c).1 = task_part c.
Proof.
  intros Hr Hp. unfold Add. destruct (items r c !! id v); [done|].
  destruct (ps_set _ _ _ _ Hr (id v) v c) as [st ->]. simpl. by rewrite Hp.
Qed.

Lemma Delete_part {T} (r : ResourceMap T) ty id clean key e c :
  part_of_store r ty id clean → (∀ c m, task_part (put r c m) = task_part c) →
  task_part (Delete_ r key e c).1 = task_part c.
Proof.
  intros Hr Hp. unfold Delete_. destruct (ps_del _ _ _ _ Hr key c) as [st Hd].
  destruct (del r key c) as [n c']. simpl in *. subst c'. by rewrite Hp.
Qed.

Lemma SetService_part `{MapRange} s c : task_part (SetService s c).1 = task_part c.
Proof. by destruct (SetService_set s c) as [[-> _]|[_ (st & ix & ->)]]. Qed.

Lemma DeleteService_part `{MapRange} id c : task_part (DeleteService id c).1 = task_part c.
Proof.
  destruct (DeleteService_unfold id c) as (gone & rt & ->).
  by destruct (without_service_set id c) as (st & ix & ->).
Qed.

Lemma insert_keyed t m : keyed t_ID m → keyed t_ID (<[t_ID t := t]> m).
Proof. intros Hk id u [[<- <-]|[_ Hu]]%lookup_insert_Some; [done|by apply Hk]. Qed.

Lemma SetTask_tasks_ok t now c : tasks_ok c → tasks_ok (SetTask t now c).1.
Proof.
  intros (Hk & Hs & Hn). simpl in *. unfold SetTask.
  destruct (match tasks c !! t_ID t with Some _ => _ | None => false end); [done|]. cbn [fst].
  match goal with |- tasks_ok (if ?b then set_restarts ?x _ else ?x) =>
    enough (tasks_ok x) by (by destruct b) end.
  destruct (tasks c !! t_ID t) as [old|] eqn:Eo.
  - pose proof (Hk _ _ Eo). split_and!; simpl; [by apply insert_keyed|by apply reindex_match..].
  - split_and!; simpl; [by apply insert_keyed|by apply addIndexed_match..].
Qed.

Lemma DeleteTask_tasks_ok id c : tasks_ok c → tasks_ok (DeleteTask id c).1.
Proof.
  intros (Hk & Hs & Hn). simpl in *. unfold DeleteTask.
  assert (keyed t_ID (delete id (tasks c))) as Hk'
    by (intros x u [_ Hu]%lookup_delete_Some; by apply Hk).
  destruct (tasks c !! id) as [old|] eqn:Eo.
  - pose proof (Hk _ _ Eo) as <-.
    case_bool_decide; (split_and!; simpl; [done|by apply unindex_match..]).
  - split_and!; simpl; rewrite ?delete_id by done; done.
Qed.

Lemma sync_tasks_ok `{MapRange} l c :
  NoDup (t_ID <$> l) → tasks_ok c → tasks_ok (sync_tasks l c).1.1.
Proof.
  intros Hn (Hk & _ & _). simpl in Hk. unfold sync_tasks.
  pose proof (hold_newer_ok (tasks c) (range (by_id t_ID l))
    (by_id t_ID l, index_tasks t_ServiceID l, index_tasks t_NodeID l) Hk) as Hh.
  destruct (foldl _ _ _) as [[m bs] bn]. apply Hh.
  - split_and!; [apply by_id_keyed|by apply index_tasks_match..].
  - apply NoDup_range.
  - intros id t Ht. by apply elem_of_range in Ht.
Qed.

(** What Docker guarantees of a list: it holds a task once. *)
Definition task_lists_ok (o : op) : Prop :=
  match o with OpReplaceAll data _ => ∀ l, f_Tasks data = Some l → NoDup (t_ID <$> l) | _ => True end.

Lemma ReplaceAll_tasks_ok `{MapRange} data now c :
  (∀ l, f_Tasks data = Some l → NoDup (t_ID <$> l)) → tasks_ok c → tasks_ok (ReplaceAll data now c).1.
Proof.
  intros Hn Hok. unfold ReplaceAll.
  set (c1 := match f_Nodes data with Some _ => _ | None => c end).
  assert (task_part c1 = task_part c) as H1 by (subst c1; by destruct (f_Nodes data)). clearbody c1.
  set (c2 := match f_Services data with Some _ => _ | None => c1 end).
  assert (task_part c2 = task_part c1) as H2.
  { subst c2. destruct (f_Services data) as [l|]; [|done].
    by destruct (sync_services_fields (by_id s_ID l) (index_tasks t_ServiceID <$> f_Tasks data) c1)
      as (gone & rt & ->). }
  clearbody c2. set (r := match f_Tasks data with Some _ => _ | None => (c2, [], []) end).
  assert (tasks_ok r.1.1) as H3.
  { assert (tasks_ok c2) as Hc2 by (unfold tasks_ok; by rewrite H2, H1).
    subst r. destruct (f_Tasks data) as [l|]; [|done]. apply sync_tasks_ok; [by apply Hn|done]. }
  clearbody r. destruct r as [[c3 nf] bf]. cbn [fst] in *. unfold sync_maps.
  destruct (f_Configs data), (f_Secrets data), (f_Networks data), (f_Volumes data); exact H3.
Qed.

Lemma section_tasks_ok `{MapRange} o c : task_lists_ok o → tasks_ok c → tasks_ok (section o c).1.
Proof.
  intros Ho Hok. destruct o; cbn [section]; unfold tasks_ok in *.
  - by rewrite (Set_part nodes_map EventNode n_ID (λ v, v)) by auto with go.
  - by rewrite (Delete_part nodes_map EventNode n_ID (λ v, v)) by auto with go.
  - by rewrite SetService_part.
  - by rewrite DeleteService_part.
  - by apply SetTask_tasks_ok.
  - by apply DeleteTask_tasks_ok.
  - by rewrite (Set_part configs_map EventConfig c_ID (λ v, v)) by auto with go.
  - by rewrite (Add_part configs_map EventConfig c_ID (λ v, v)) by auto with go.
  - by rewrite (Delete_part configs_map EventConfig c_ID (λ v, v)) by auto with go.
  - by rewrite (Set_part secrets_map EventSecret x_ID redacted) by auto with go.
  - by rewrite (Add_part secrets_map EventSecret x_ID redacted) by auto with go.
  - by rewrite (Delete_part secrets_map EventSecret x_ID redacted) by auto with go.
  - by rewrite (Set_part networks_map EventNetwork w_ID (λ v, v)) by auto with go.
  - by rewrite (Delete_part networks_map EventNetwork w_ID (λ v, v)) by auto with go.
  - by rewrite (Set_part volumes_map EventVolume v_Name (λ v, v)) by auto with go.
  - by rewrite (Delete_part volumes_map EventVolume v_Name (λ v, v)) by auto with go.
  - by apply ReplaceAll_tasks_ok.
Qed.

Lemma tasks_ok_generations c g v : tasks_ok c → tasks_ok (set_generations c g v).
Proof. done. Qed.

Lemma write_tasks_ok `{MapRange} o st : task_lists_ok o → tasks_ok st.1 → tasks_ok (write o st).1.
Proof.
  intros Ho Hok. unfold write. destruct (perform_fields o st.1) as (g & v & Hp).
  destruct (perform o st.1) as [c es]. simpl in *. subst c.
  apply tasks_ok_generations. by apply section_tasks_ok.
Qed.

Lemma write_held `{MapRange} o st k i : held (write o st).1 k i = effect o k i (held st.1 k i).
Proof.
  unfold write. pose proof (perform_held o st.1 k i) as Hp. by destruct (perform o st.1).
Qed.

(** * A re-list of tasks *)

Definition in_scope (scope : TaskScope) (t : Task) : bool :=
  if negb (bool_decide (sc_Service scope = "")) then bool_decide (t_ServiceID t = sc_Service scope)
  else if negb (bool_decide (sc_Node scope = "")) then bool_decide (t_NodeID t = sc_Node scope)
  else true.

(** What a re-list leaves of one resource. *)
Definition relist_effect (scope : TaskScope) (listed : list Task) (k : EventType) (i : string)
    (old : option Resource) : option Resource :=
  match k with
  | EventTask =>
      match listed_at (RTask <$> listed) i with
      | Some r => newest old r
      | None => match old with
                | Some (RTask t) => if in_scope scope t then None else old
                | _ => old
                end
      end
  | _ => old
  end.

Definition cached_in `{MapRange} (scope : TaskScope) (c : Cache) : list Task :=
  if negb (bool_decide (sc_Service scope = "")) then ListTasksByService c (sc_Service scope)
  else if negb (bool_decide (sc_Node scope = "")) then ListTasksByNode c (sc_Node scope)
  else default [] (ListTasks c).

Lemma elem_of_cached_in `{MapRange} scope c t :
  tasks_ok c → t ∈ cached_in scope c ↔ tasks c !! t_ID t = Some t ∧ in_scope scope t = true.
Proof.
  intros (Hk & Hs & Hn). simpl in *. unfold cached_in, in_scope.
  destruct (bool_decide_reflect (sc_Service scope = "")); simpl;
    [destruct (bool_decide_reflect (sc_Node scope = "")); simpl|].
  - rewrite ListTasks_values by done. simpl. rewrite elem_of_tasks_in_order by done. naive_solver.
  - unfold ListTasksByNode. rewrite SortFunc_perm, (elem_of_indexed_tasks t_NodeID) by done.
    rewrite bool_decide_eq_true. naive_solver.
  - unfold ListTasksByService. rewrite SortFunc_perm, (elem_of_indexed_tasks t_ServiceID) by done.
    rewrite bool_decide_eq_true. naive_solver.
Qed.

(** Setting a list of tasks, one write each. *)
Lemma set_tasks_held `{MapRange} listed now st k i :
  NoDup (t_ID <$> listed) →
  held (foldl (λ st t, write (OpSetTask t now) st) st listed).1 k i =
  match k with
  | EventTask => match listed_at (RTask <$> listed) i with
                 | Some r => newest (held st.1 k i) r
                 | None => held st.1 k i
                 end
  | _ => held st.1 k i
  end.
Proof.
  induction listed as [|t l IH] using rev_ind; intros Hn; [by destruct k|].
  rewrite foldl_snoc. rewrite fmap_app in Hn. apply NoDup_app in Hn as (Hn & Hx & _).
  rewrite write_held. cbn [effect]. rewrite (IH Hn). unfold set_effect, at_key, listed_at.
  destruct k; try done. simpl. rewrite fmap_app. simpl. rewrite last_filter_snoc. simpl.
  destruct (decide (t_ID t = i)) as [Hi|Hi]; [rewrite bool_decide_eq_true_2 by done|by rewrite bool_decide_eq_false_2].
  assert (last (filter (λ r, key_of r = i) (RTask <$> l)) = None) as ->; [|done].
  apply last_None, filter_none. intros r (u & -> & Hu)%list_elem_of_fmap. simpl. intros <-.
  apply (Hx (t_ID u)); [by apply list_elem_of_fmap_2|]. rewrite <- Hi. left.
Qed.

(** Deleting the tasks of a list that another does not name. *)
Lemma delete_tasks_held `{MapRange} cached (ids : list string) st k i :
  held (foldl (λ st t, if bool_decide (t_ID t ∈ ids) then st else write (OpDeleteTask (t_ID t)) st) st cached).1 k i =
  match k with
  | EventTask => if bool_decide (i ∈ (t_ID <$> cached) ∧ i ∉ ids) then None else held st.1 k i
  | _ => held st.1 k i
  end.
Proof.
  revert st. induction cached as [|t l IH]; intros st.
  { by destruct k. }
  cbn [foldl]. rewrite IH. clear IH. destruct (bool_decide_reflect (t_ID t ∈ ids)) as [Ht|Ht].
  - destruct k; try done. rewrite (bool_decide_ext _ (i ∈ t_ID <$> t :: l ∧ i ∉ ids)) by set_solver. done.
  - rewrite write_held. cbn [effect]. unfold delete_effect. destruct k; try done. simpl.
    destruct (bool_decide_reflect (t_ID t = i)) as [<-|Hne].
    + rewrite (bool_decide_eq_true_2 (t_ID t ∈ _ :: _ ∧ _)) by set_solver. by case_bool_decide.
    + rewrite (bool_decide_ext _ (i ∈ t_ID t :: (t_ID <$> l) ∧ i ∉ ids)) by set_solver. done.
Qed.

Lemma fold_writes_ok `{MapRange} {A} (f : Store → A → Store) (l : list A) st :
  (∀ st x, x ∈ l → tasks_ok st.1 → tasks_ok (f st x).1) → tasks_ok st.1 → tasks_ok (foldl f st l).1.
Proof.
  revert st. induction l as [|x l IH]; intros st Hf Hok; [done|]. simpl. apply IH; [|apply Hf; [left|done]].
  intros st' y Hy. apply Hf. by right.
Qed.

Lemma reconcileTasks_ok `{MapRange} scope listed now st :
  tasks_ok st.1 → tasks_ok (reconcileTasks scope listed now st).1.
Proof.
  intros Hok. unfold reconcileTasks. destruct listed as [l|]; [|done].
  apply fold_writes_ok; [intros st' t _ Hok'; case_bool_decide; [done|by apply write_tasks_ok]|].
  apply fold_writes_ok; [|done]. intros st' t _. by apply write_tasks_ok.
Qed.

Lemma reconcileTasks_held `{MapRange} scope listed now st k i :
  tasks_ok st.1 → NoDup (t_ID <$> listed) →
  held (reconcileTasks scope (Some listed) now st).1 k i = relist_effect scope listed k i (held st.1 k i).
Proof.
  intros Hok Hn. unfold reconcileTasks. fold (cached_in scope st.1).
  rewrite delete_tasks_held, set_tasks_held by done. unfold relist_effect.
  destruct k; try done.
  destruct (listed_at (RTask <$> listed) i) as [r|] eqn:El.
  - rewrite bool_decide_eq_false_2; [done|]. intros [_ Hi]. apply Hi.
    unfold listed_at in El. apply last_Some_elem_of, list_elem_of_filter in El as [Hkey Hr].
    apply list_elem_of_fmap in Hr as (t & -> & Ht). simpl in Hkey. subst i. by apply list_elem_of_fmap_2.
  - assert (i ∉ t_ID <$> listed) as Hni.
    { intros (t & -> & Ht)%list_elem_of_fmap. unfold listed_at in El. apply last_None in El.
      assert (RTask t ∈ filter (λ r, key_of r = t_ID t) (RTask <$> listed)) as Hin
        by (apply list_elem_of_filter; split; [done|]; by apply list_elem_of_fmap_2).
      rewrite El in Hin. by apply not_elem_of_nil in Hin. }
    pose proof Hok as (Hk & _ & _). simpl in Hk. simpl.
    destruct (tasks st.1 !! i) as [t|] eqn:Et; simpl; [|by case_bool_decide].
    pose proof (Hk _ _ Et) as <-. destruct (in_scope scope t) eqn:Es.
    + rewrite bool_decide_eq_true_2; [done|]. split; [|done]. apply list_elem_of_fmap_2.
      by apply elem_of_cached_in.
    + rewrite bool_decide_eq_false_2; [done|]. intros [(u & Hid & Hu)%list_elem_of_fmap _].
      apply elem_of_cached_in in Hu as [Hu Hsc]; [|done]. rewrite <- Hid in Hu. congruence.
Qed.

(** a re-list leaves exactly what it names in its scope: of the listed tasks
    the newer of each and its cached copy, of the cached ones of the scope it
    does not name none, and every other resource as it was. *)
Theorem relist_exact `{MapRange} start c es scope listed now k i
    (Hr : reachable start c) (Hn : NoDup (t_ID <$> listed)) :
  held (reconcileTasks scope (Some listed) now (c, es)).1 k i =
  relist_effect scope listed k i (held c k i).
Proof. apply reconcileTasks_held; [|done]. by eapply cache_tasks_ok, reachable_ok. Qed.

Lemma relist_exact_witness :
  held (reconcileTasks (H := map_range_std) (mkScope "s1" "") (Some [late_task]) 9 (demo_cache, [])).1
    EventTask "t1" = Some (RTask demo_task) ∧
  held (reconcileTasks (H := map_range_std) (mkScope "s1" "") (Some []) 9 (demo_cache, [])).1
    EventTask "t1" = None.
Proof.
  split.
  - exact (relist_exact (H := map_range_std) 0 demo_cache [] (mkScope "s1" "") [late_task] 9 EventTask "t1"
      demo_reachable ltac:(repeat constructor; set_solver)).
  - exact (relist_exact (H := map_range_std) 0 demo_cache [] (mkScope "s1" "") [] 9 EventTask "t1"
      demo_reachable ltac:(constructor)).
Defined.

(** * A batch of events *)

(** A type as Docker's events name it. *)
Definition type_name (k : EventType) : string :=
  match k with
  | EventNode => "node" | EventService => "service" | EventTask => "task" | EventConfig => "config"
  | EventSecret => "secret" | EventNetwork => "network" | EventVolume => "volume" | EventSync => ""
  end.

#[global] Instance type_name_inj : Inj (=) (=) type_name.
Proof. by intros [] []. Qed.

(** An inspection by type and ID finds that resource. *)
Definition finds (key : eventKey) (got : answer) : Prop :=
  match got with Found r => kind_of r ≠ EventSync ∧ key = (type_name (kind_of r), key_of r) | Failed_ _ => True end.

(** What an inspection's answer leaves of the resource it was about. *)
Definition answer_effect (got : answer) (old : option Resource) : option Resource :=
  match got with
  | Found r => newest old (stored r)
  | Failed_ err => if Is NotFound err then None else old
  end.

Lemma applyRemove_held `{MapRange} key st k i :
  held (applyRemove key st).1 k i =
  if bool_decide (key = (type_name k, i)) then None else held st.1 k i.
Proof.
  destruct key as [ty id]. unfold applyRemove.
  destruct (bool_decide_reflect (k = EventSync)) as [->|Hk].
  { cbn [held]. by case_bool_decide. }
  repeat match goal with
  | |- held (if bool_decide (ty = ?n) then _ else _).1 _ _ = _ =>
      destruct (bool_decide_reflect (ty = n)) as [->|];
      [rewrite write_held; cbn [effect]; unfold delete_effect;
       destruct k; simpl; repeat case_bool_decide; by simplify_eq|]
  end.
  case_bool_decide as E; [|done]. injection E as -> ->. by destruct k.
Qed.

Lemma apply_held `{MapRange} r now st k i :
  kind_of r ≠ EventSync →
  held (apply r now st).1 k i =
  if bool_decide ((type_name (kind_of r), key_of r) = (type_name k, i))
  then newest (held st.1 k i) (stored r) else held st.1 k i.
Proof.
  intros Hr.
  assert (∀ o, (∀ old, effect o k i old = set_effect r k i old) →
    held (write o st).1 k i = if bool_decide ((type_name (kind_of r), key_of r) = (type_name k, i))
    then newest (held st.1 k i) (stored r) else held st.1 k i) as Hw.
  { intros o Ho. rewrite write_held, Ho. unfold set_effect, at_key. rewrite <- bool_decide_and.
    rewrite (bool_decide_ext (kind_of r = k ∧ key_of r = i) ((type_name (kind_of r), key_of r) = (type_name k, i)));
      [done|]. split; [by intros [-> ->]|intros [= ->%(inj _) ->]; done]. }
  destruct r; try (by apply Hw). done.
Qed.

Lemma inspectAndApply_held `{MapRange} ctx key created now engine st k i :
  let got := (inspectWithRetry ctx now created engine).2 in
  finds key got →
  held (inspectAndApply ctx key created now engine st).1 k i =
  if bool_decide (key = (type_name k, i)) then answer_effect got (held st.1 k i) else held st.1 k i.
Proof.
  unfold inspectAndApply. destruct (inspectWithRetry ctx now created engine) as [t [r|err]]; simpl.
  - intros [Hk ->]. by apply apply_held.
  - intros _. destruct (Is NotFound err); [apply applyRemove_held|]. by case_bool_decide.
Qed.

Lemma removals_held `{MapRange} keys st k i :
  held (foldl (λ st key, applyRemove key st) st keys).1 k i =
  if bool_decide ((type_name k, i) ∈ keys) then None else held st.1 k i.
Proof.
  revert st. induction keys as [|key keys IH]; intros st; [done|]. simpl.
  rewrite IH, applyRemove_held.
  destruct (bool_decide_reflect ((type_name k, i) ∈ keys)) as [Hin|Hin].
  - rewrite bool_decide_eq_true_2 by (by right). done.
  - rewrite (bool_decide_ext (key = (type_name k, i)) ((type_name k, i) ∈ key :: keys)) by set_solver. done.
Qed.

Section Batch.
Context `{MapRange} (ctx : Ctx) (batch : gmap eventKey coalesced) (probes : eventKey → probe).

(** What the engine is heard to say of a key. *)
Definition heard_of (key : eventKey) : answer :=
  (inspectWithRetry ctx (At_ (probes key)) (created (default no_event (batch !! key))) (Engine (probes key))).2.

Lemma inspections_held order st k i :
  NoDup order → (∀ key, key ∈ order → finds key (heard_of key)) →
  held (foldl (λ st key, inspectAndApply ctx key (created (default no_event (batch !! key))) (At_ (probes key))
        (Engine (probes key)) st) st order).1 k i =
  if bool_decide ((type_name k, i) ∈ order) then answer_effect (heard_of (type_name k, i)) (held st.1 k i)
  else held st.1 k i.
Proof.
  revert st. induction order as [|key order IH]; intros st Hn Hf; [done|].
  apply NoDup_cons in Hn as [Hk Hn]. simpl. rewrite IH by (done || intros; apply Hf; by right).
  rewrite inspectAndApply_held by (apply (Hf key); left). fold (heard_of key).
  destruct (bool_decide_reflect (key = (type_name k, i))) as [->|Hne].
  - rewrite bool_decide_eq_false_2 by done. rewrite bool_decide_eq_true_2 by left. done.
  - rewrite (bool_decide_ext ((type_name k, i) ∈ key :: order) ((type_name k, i) ∈ order)) by set_solver. done.
Qed.
End Batch.

(** What a batch leaves of a resource before its re-lists: a removed one is gone,
    another is what it was read as, and one without an event is as it was. *)
Definition batch_effect (ctx : Ctx) (batch : gmap eventKey coalesced) (probes : eventKey → probe)
    (k : EventType) (i : string) (old : option Resource) : option Resource :=
  match batch !! (type_name k, i) with
  | None => old
  | Some ev => if bool_decide (c_action ev = "remove") then None
               else answer_effect (heard_of ctx batch probes (type_name k, i)) old
  end.

(** The re-lists that follow. *)
Definition relists_effect (scopes : list TaskScope) (locked : bool) (lists : TaskScope → option (list Task))
    (k : EventType) (i : string) (old : option Resource) : option Resource :=
  if locked then old else
  foldl (λ old scope, match lists scope with Some l => relist_effect scope l k i old | None => old end) old
    (if (workerCount <? length scopes)%nat then [everything] else scopes).

Definition lists_ok (lists : TaskScope → option (list Task)) : Prop :=
  ∀ scope l, lists scope = Some l → NoDup (t_ID <$> l).

Lemma reconcileScopes_ok `{MapRange} scopes locked lists now st :
  tasks_ok st.1 → tasks_ok (reconcileScopes scopes locked lists now st).1.
Proof.
  intros Hok. unfold reconcileScopes. destruct scopes; [done|]. destruct locked; [done|].
  apply fold_writes_ok; [|done]. intros. by apply reconcileTasks_ok.
Qed.

Lemma relists_fold `{MapRange} scopes lists now st k i :
  tasks_ok st.1 → lists_ok lists →
  held (foldl (λ st scope, reconcileTasks scope (lists scope) now st) st scopes).1 k i =
  foldl (λ old scope, match lists scope with Some l => relist_effect scope l k i old | None => old end)
    (held st.1 k i) scopes.
Proof.
  intros Hok Hl. revert st Hok. induction scopes as [|scope scopes IH]; intros st Hok; [done|]. simpl.
  rewrite IH by by apply reconcileTasks_ok. f_equal.
  destruct (lists scope) as [l|] eqn:El; [|done]. apply reconcileTasks_held; [done|by eapply Hl].
Qed.

Lemma reconcileScopes_held `{MapRange} scopes locked lists now st k i :
  tasks_ok st.1 → lists_ok lists →
  held (reconcileScopes scopes locked lists now st).1 k i =
  relists_effect scopes locked lists k i (held st.1 k i).
Proof.
  intros Hok Hl. unfold reconcileScopes, relists_effect. destruct locked; [by destruct scopes|].
  destruct scopes; [done|]. by apply relists_fold.
Qed.

Lemma relist_effect_other scope l k i old : k ≠ EventTask → relist_effect scope l k i old = old.
Proof. by destruct k. Qed.

Lemma relists_effect_other scopes locked lists k i old :
  k ≠ EventTask → relists_effect scopes locked lists k i old = old.
Proof.
  intros Hk. unfold relists_effect. destruct locked; [done|].
  generalize (if (workerCount <? length scopes)%nat then [everything] else scopes). intros l.
  revert old. induction l as [|scope l IH]; intros old; [done|]. simpl. rewrite IH.
  case_match; [by apply relist_effect_other|done].
Qed.

Lemma applyRemove_ok `{MapRange} key st : tasks_ok st.1 → tasks_ok (applyRemove key st).1.
Proof.
  intros Hok. destruct key as [ty id]. unfold applyRemove.
  repeat (case_bool_decide; [by apply write_tasks_ok|]). done.
Qed.

Lemma apply_ok `{MapRange} r now st : tasks_ok st.1 → tasks_ok (apply r now st).1.
Proof. intros Hok. destruct r; try by apply write_tasks_ok. done. Qed.

Lemma inspectAndApply_ok `{MapRange} ctx key created now engine st :
  tasks_ok st.1 → tasks_ok (inspectAndApply ctx key created now engine st).1.
Proof.
  intros Hok. unfold inspectAndApply. destruct (inspectWithRetry _ _ _ _) as [t [r|err]]; [by apply apply_ok|].
  destruct (Is NotFound err); [by apply applyRemove_ok|done].
Qed.

Lemma elem_of_keys `{MapRange} (batch : gmap eventKey coalesced) (P : coalesced → Prop) `{!∀ x, Decision (P x)} key :
  key ∈ (filter (λ p : eventKey * coalesced, P p.2) (range batch)).*1 ↔ ∃ ev, batch !! key = Some ev ∧ P ev.
Proof.
  rewrite list_elem_of_fmap. split.
  - intros ([x ev] & -> & [Hp Hin%elem_of_range]%list_elem_of_filter). simpl in *. eauto.
  - intros (ev & Hev & Hp). exists (key, ev). split; [done|]. apply list_elem_of_filter.
    split; [done|]. by apply elem_of_range.
Qed.

(** The workers finish every key the removals leave, once each. *)
Definition finishes (batch : gmap eventKey coalesced) (order : list eventKey) : Prop :=
  order ≡ₚ (map_to_list (filter (λ p : eventKey * coalesced, c_action p.2 ≠ "remove") batch)).*1.

Lemma elem_of_finishes batch order key :
  finishes batch order → key ∈ order ↔ ∃ ev, batch !! key = Some ev ∧ c_action ev ≠ "remove".
Proof.
  intros Ho. rewrite Ho, list_elem_of_fmap. split.
  - intros ([x ev] & -> & [Hin Hp]%elem_of_map_to_list%map_lookup_filter_Some). eauto.
  - intros (ev & Hev & Hp). exists (key, ev). split; [done|]. by apply elem_of_map_to_list, map_lookup_filter_Some.
Qed.

Lemma finishes_NoDup batch order : finishes batch order → NoDup order.
Proof. intros Ho. rewrite Ho. apply NoDup_fst_map_to_list. Qed.

Lemma heard_of_filter (ctx : Ctx) (batch : gmap eventKey coalesced) (P : eventKey * coalesced → Prop)
    `{!∀ x, Decision (P x)} (probes : eventKey → probe) key ev :
  batch !! key = Some ev → P (key, ev) →
  heard_of ctx (filter P batch) probes key = heard_of ctx batch probes key.
Proof.
  intros Hev Hp. unfold heard_of. rewrite Hev.
  assert (filter P batch !! key = Some ev) as -> by by apply map_lookup_filter_Some. done.
Qed.

Lemma processBatch_held `{MapRange} ctx batch order probes locked lists now st k i :
  tasks_ok st.1 → lists_ok lists → finishes batch order →
  (∀ key, key ∈ order → finds key (heard_of ctx batch probes key)) →
  held (processBatch ctx batch order probes locked lists now st).1.1 k i =
  relists_effect (taskScopes batch) locked lists k i (batch_effect ctx batch probes k i (held st.1 k i)).
Proof.
  intros Hok Hl Ho Hf. unfold processBatch. set (st1 := foldl _ st _).
  assert (tasks_ok st1.1) as Hok1 by (apply fold_writes_ok; [intros; by apply applyRemove_ok|done]).
  assert (held st1.1 k i = match batch !! (type_name k, i) with
    | Some ev => if bool_decide (c_action ev = "remove") then None else held st.1 k i
    | None => held st.1 k i end) as H1.
  { subst st1. rewrite removals_held.
    pose proof (elem_of_keys batch (λ ev, c_action ev = "remove") (type_name k, i)) as Hkeys. cbn beta in Hkeys.
    case_bool_decide as Hin.
    - apply Hkeys in Hin as (ev & -> & Hrm). by rewrite bool_decide_eq_true_2.
    - destruct (batch !! (type_name k, i)) as [ev|] eqn:Eb; [|done].
      rewrite bool_decide_eq_false_2; [done|]. intros Hrm. apply Hin, Hkeys. by exists ev. }
  clearbody st1.
  case_bool_decide as Hempty.
  - simpl. rewrite reconcileScopes_held by done. f_equal. rewrite H1. unfold batch_effect.
    destruct (batch !! (type_name k, i)) as [ev|] eqn:Eb; [|done].
    case_bool_decide as Hrm; [done|]. exfalso.
    assert (filter (λ p : eventKey * coalesced, c_action p.2 ≠ "remove") batch !! (type_name k, i) = Some ev) as Hl'
      by by apply map_lookup_filter_Some.
    by rewrite Hempty, lookup_empty in Hl'.
  - cbn [fst]. set (left := filter _ batch) in *.
    assert (∀ key, key ∈ order → heard_of ctx left probes key = heard_of ctx batch probes key) as Hheard.
    { intros key Hkey. apply (elem_of_finishes batch order key Ho) in Hkey as (ev & Hev & Hne).
      by eapply heard_of_filter. }
    rewrite reconcileScopes_held; [|apply fold_writes_ok; [intros; by apply inspectAndApply_ok|done]|done].
    f_equal. rewrite (inspections_held ctx left probes); [|by eapply finishes_NoDup|].
    2: { intros key Hkey. rewrite Hheard by done. by apply Hf. }
    rewrite H1. unfold batch_effect.
    destruct (bool_decide_reflect ((type_name k, i) ∈ order)) as [Hin|Hin].
    + rewrite Hheard by done. apply (elem_of_finishes batch order _ Ho) in Hin as (ev & -> & Hne).
      by rewrite bool_decide_eq_false_2.
    + destruct (batch !! (type_name k, i)) as [ev|] eqn:Eb; [|done].
      case_bool_decide as Hrm; [done|]. exfalso. apply Hin, (elem_of_finishes batch order _ Ho). eauto.
Qed.

(** C16: what a batch of events leaves does not depend on which worker finishes
    first: each resource with an event is gone if the event removed it or the
    engine no longer knows it, is the newer of its cached copy and what the
    engine was heard to say otherwise, and stays as it was when no answer came;
    then the re-lists of the services and nodes the batch names settle the tasks,
    and nothing else changes. *)
Theorem batch_exact `{MapRange} start c es ctx batch order probes locked lists now k i
    (Hr : reachable start c) (Hl : lists_ok lists) (Ho : finishes batch order)
    (Hf : ∀ key, key ∈ order → finds key (heard_of ctx batch probes key)) :
  held (processBatch ctx batch order probes locked lists now (c, es)).1.1 k i =
  relists_effect (taskScopes batch) locked lists k i (batch_effect ctx batch probes k i (held c k i)).
Proof. apply processBatch_held; [by eapply cache_tasks_ok, reachable_ok|done..]. Qed.

(** A config removed and a task updated in one window. *)
Definition newer_task : Task := mkTask "t1" 4 "s1" "n1" "failed" "shutdown" "exit 1" "" 9 None 1 None.

Definition demo_batch : gmap eventKey coalesced :=
  {[("task", "t1") := mkCoalesced actionSettle false; ("config", "c1") := mkCoalesced "remove" false]}.

Definition demo_probes (key : eventKey) : probe :=
  mkProbe 5 (λ _, mkAttempt time_Millisecond (Found (RTask newer_task))).

Lemma batch_exact_witness :
  let after := processBatch (H := map_range_std) Background demo_batch [("task", "t1")] demo_probes false
                 (λ _, None) 9 (demo_cache, []) in
  finishes demo_batch [("task", "t1")] ∧
  held after.1.1 EventTask "t1" = Some (RTask newer_task) ∧ held after.1.1 EventConfig "c1" = None.
Proof.
  assert (finishes demo_batch [("task", "t1")]) as Ho by (vm_compute; reflexivity).
  assert (∀ key, key ∈ [("task", "t1")] → finds key (heard_of Background demo_batch demo_probes key)) as Hf
    by (intros key ->%list_elem_of_singleton; done).
  pose proof (λ k i, batch_exact (H := map_range_std) 0 demo_cache [] Background demo_batch [("task", "t1")]
    demo_probes false (λ _, None) 9 k i demo_reachable ltac:(done) Ho Hf) as Hb.
  split; [exact Ho|]. split; [exact (Hb EventTask "t1")|exact (Hb EventConfig "c1")].
Defined.

Lemma processBatch_ok `{MapRange} ctx batch order probes locked lists now st :
  tasks_ok st.1 → tasks_ok (processBatch ctx batch order probes locked lists now st).1.1.
Proof.
  intros Hok. unfold processBatch. set (st1 := foldl _ st _).
  assert (tasks_ok st1.1) as Hok1 by (apply fold_writes_ok; [intros; by apply applyRemove_ok|done]).
  case_bool_decide; cbn [fst]; apply reconcileScopes_ok; [done|].
  apply fold_writes_ok; [intros; by apply inspectAndApply_ok|done].
Qed.

Lemma refreshNow_ok `{MapRange} ctx kind id now a st :
  tasks_ok st.1 → tasks_ok (refreshNow ctx kind id now a st).1.1.
Proof.
  intros Hok. unfold refreshNow. destruct (inspect _ _ _ _) as [t [r|err]]; cbn [fst]; [by apply apply_ok|].
  repeat case_match; cbn [fst]; done || by apply applyRemove_ok.
Qed.

Lemma applySettledRead_ok `{MapRange} now id read st :
  tasks_ok st.1 → tasks_ok (applySettledRead now id read st).1.
Proof.
  intros Hok. unfold applySettledRead. destruct (tasks st.1 !! id); [|done].
  destruct read; by apply write_tasks_ok.
Qed.
