(* ===== verification/WatcherConverge.v ===== *)
(** The watcher converges: once the cluster holds still, a full sync makes the
    cache its image, and nothing the watcher does afterwards takes it away. *)
From S2P Require Import Prelude GoStrings SortedLists Restarts CacheState CacheStacks CacheIndex CacheOps Cache CacheProps CacheStore CacheList Watcher WatcherBatch.
#[local] Open Scope string_scope.
#[local] Open Scope Z_scope.

Section Cluster.

(** The cluster: what the engine knows of each type and ID. *)
Context (cluster : EventType → string → option Resource)
  (Hcluster : ∀ k i r, cluster k i = Some r → kind_of r = k ∧ key_of r = i ∧ k ≠ EventSync).

(** ** Answers that tell of this cluster *)

Definition true_list (k : EventType) (l : list Resource) : Prop := ∀ i, listed_at l i = cluster k i.

Definition true_lists (answers : lists) : Prop :=
  (∀ k l, fetched (FullSync answers).1 k = Some l → true_list k l) ∧
  (∀ l, f_Tasks (FullSync answers).1 = Some l → NoDup (t_ID <$> l)).

Definition true_scope (scope : TaskScope) (l : list Task) : Prop :=
  NoDup (t_ID <$> l) ∧
  ∀ i, listed_at (RTask <$> l) i =
    match cluster EventTask i with
    | Some (RTask t) => if in_scope scope t then Some (RTask t) else None
    | _ => None
    end.

Definition true_scopes (ls : TaskScope → option (list Task)) : Prop :=
  ∀ scope l, ls scope = Some l → true_scope scope l.

Definition true_answer (key : eventKey) (got : answer) : Prop :=
  match got with
  | Found r => key = (type_name (kind_of r), key_of r) ∧ cluster (kind_of r) (key_of r) = Some r
  | Failed_ err => Is NotFound err = true → ∀ k i, key = (type_name k, i) → cluster k i = None
  end.

Definition true_engine (key : eventKey) (engine : nat → attempt) : Prop :=
  ∀ j, 0 ≤ Took (engine j) ∧ true_answer key (Answer (engine j)).

(** A context ends for reasons of its own. *)
Definition plain_ctx (ctx : Ctx) : Prop := Is NotFound (Cause ctx) = false.

(** A read made earlier: of the task as it is or as it was before, or gone for
    good. *)
Definition past_read (id : string) (read : settledRead) : Prop :=
  match read with
  | Gone_ => cluster EventTask id = None
  | Read t => t_ID t = id ∧
      ∀ t', cluster EventTask id = Some (RTask t') → t_Version t < t_Version t' ∨ t = t'
  end.

(** ** A cache on its way *)

(** What is held of a resource is no newer than the cluster's. *)
Definition behind_at (old target : option Resource) : Prop :=
  ∀ r r', old = Some r → target = Some r' → stale r r' = false.

Definition behind (c : Cache) : Prop := ∀ k i, behind_at (held c k i) (cluster k i).

Definition reflects (c : Cache) : Prop := ∀ k i, held c k i = stored <$> cluster k i.

(** A write that never leaves a resource ahead of the cluster, nor off it once
    it is the cluster's. *)
Definition keeps (target old new : option Resource) : Prop :=
  behind_at old target → behind_at new target ∧ (old = stored <$> target → new = stored <$> target).

Lemma stale_same r : stale (stored r) r = false.
Proof. destruct r; try done; unfold stale; simpl; lia. Qed.

Lemma behind_at_target target : behind_at (stored <$> target) target.
Proof. intros r r' Hr ->. simpl in Hr. injection Hr as <-. apply stale_same. Qed.

Lemma keeps_refl target : Reflexive (keeps target).
Proof. by intros old Hb. Qed.

Lemma keeps_trans target : Transitive (keeps target).
Proof. intros a b c Hab Hbc Hb. destruct (Hab Hb) as [Hb' H1], (Hbc Hb') as [Hb'' H2]. auto. Qed.

Lemma keeps_target target old : keeps target old (stored <$> target).
Proof. intros _. split; [apply behind_at_target|done]. Qed.

Lemma newest_target old r :
  behind_at old (Some r) → newest old (stored r) = Some (stored r).
Proof.
  intros Hb. destruct old as [o|]; [|done]. simpl. by rewrite stale_stored, (Hb o r).
Qed.

(** The same, of whole caches. *)
Definition keeps_all (c c' : Cache) : Prop := ∀ k i, keeps (cluster k i) (held c k i) (held c' k i).

#[global] Instance keeps_all_refl : Reflexive keeps_all.
Proof. intros c k i. apply keeps_refl. Qed.

#[global] Instance keeps_all_trans : Transitive keeps_all.
Proof. intros a b c H1 H2 k i. by eapply keeps_trans. Qed.

Lemma keeps_all_behind c c' : keeps_all c c' → behind c → behind c'.
Proof. intros Hk Hb k i. by apply Hk. Qed.

Lemma keeps_all_reflects c c' : keeps_all c c' → reflects c → reflects c'.
Proof. intros Hk Hr k i. apply Hk; [rewrite Hr; apply behind_at_target|done]. Qed.

(** ** Each answer *)

Lemma answer_keeps key got k i old :
  true_answer key got → key = (type_name k, i) → keeps (cluster k i) old (answer_effect got old).
Proof.
  intros Ht ->. destruct got as [r|err]; simpl in *.
  - destruct Ht as [[= <-%(inj _) ->] Hr]. intros Hb. rewrite Hr in *. rewrite newest_target by done.
    by apply (keeps_target (Some r)).
  - destruct (Is NotFound err); [|apply keeps_refl]. rewrite (Ht eq_refl k i eq_refl).
    apply (keeps_target None).
Qed.

Lemma heard_true key a : true_answer key (Answer a) → true_answer key (heard a).
Proof. intros Ht. unfold heard. by destruct (_ <? _). Qed.

Lemma Err_plain ctx now timeout t err :
  plain_ctx ctx → Err (WithTimeout ctx now timeout) t = Some err → Is NotFound err = false.
Proof.
  intros Hp. unfold Err, WithTimeout. destruct (Done ctx) as [d|] eqn:Ed; simpl.
  - destruct (d <=? now + timeout); [rewrite Ed|]; simpl; case_match; intros [= <-]; done.
  - case_match; intros [= <-]; done.
Qed.

Lemma inspection_true ctx now created engine key :
  plain_ctx ctx → true_engine key engine → true_answer key (inspectWithRetry ctx now created engine).2.
Proof.
  intros Hp He. pose proof (inspection_ends ctx now created engine (λ j, proj1 (He j))) as Hi.
  destruct (inspectWithRetry ctx now created engine) as [t got]. destruct Hi as [_ Ho]. simpl.
  assert (∀ n, true_answer key (heard (engine n))) as Hh by (intros n; apply heard_true, He).
  destruct Ho as [n r _ _ Hr|n err _ _ Hr _|err _ Hr|err Hr]; try (rewrite <- Hr; apply Hh).
  intros Hn. by rewrite (Err_plain _ _ _ _ _ Hp Hr) in Hn.
Qed.

Lemma list_keeps k l i old :
  true_list k l → behind_at old (cluster k i) → list_effect l i old = stored <$> cluster k i.
Proof.
  intros Hl Hb. unfold list_effect. rewrite Hl. destruct (cluster k i) as [r|]; [|done]. simpl.
  by apply newest_target.
Qed.

Lemma relist_keeps scope l k i old :
  true_scope scope l → keeps (cluster k i) old (relist_effect scope l k i old).
Proof.
  intros [_ Hl]. destruct k; try apply keeps_refl. cbn [relist_effect]. rewrite Hl.
  destruct (cluster EventTask i) as [r|] eqn:Ec.
  - destruct (Hcluster _ _ _ Ec) as (Hk & _ & _). destruct r; try done. destruct (in_scope scope t) eqn:Es.
    + intros Hb. pose proof (newest_target old (RTask t) Hb) as Hn. simpl in Hn. rewrite Hn.
      by apply (keeps_target (Some (RTask t))).
    + intros Hb. destruct old as [[| | |t0| | | |]|]; try by apply keeps_refl.
      destruct (in_scope scope t0) eqn:Es0; [|by apply keeps_refl]. split; [done|].
      simpl. intros [= ->]. congruence.
  - intros Hb. split; [by destruct old as [[]|]; repeat case_match|].
    simpl. by intros ->.
Qed.

Lemma relists_keep scopes locked ls k i old :
  true_scopes ls → keeps (cluster k i) old (relists_effect scopes locked ls k i old).
Proof.
  intros Hl. unfold relists_effect. destruct locked; [apply keeps_refl|].
  generalize (if (workerCount <? length scopes)%nat then [everything] else scopes). intros l.
  revert old. induction l as [|scope l IH]; intros old; [apply keeps_refl|]. simpl.
  eapply keeps_trans; [|apply IH]. destruct (ls scope) as [l'|] eqn:El; [|apply keeps_refl].
  apply relist_keeps. by apply Hl.
Qed.

Lemma true_lists_ok ls : true_scopes ls → lists_ok ls.
Proof. intros Hl scope l El. by apply (Hl scope). Qed.

Lemma heard_finds key got : true_answer key got → finds key got.
Proof. destruct got; [|done]. intros [Hk Hr]. by apply Hcluster in Hr as (_ & _ & ?). Qed.

(** ** Each part of the watcher *)

(** A change of the store the watcher makes: the task indexes stay exact, and the
    cache comes no further from the cluster. *)
Definition approaches (st st' : Store) : Prop := tasks_ok st.1 → tasks_ok st'.1 ∧ keeps_all st.1 st'.1.

#[global] Instance approaches_refl : Reflexive approaches.
Proof. by intros st. Qed.

#[global] Instance approaches_trans : Transitive approaches.
Proof. intros a b c H1 H2 Hok. destruct (H1 Hok), (H2 ltac:(done)). split; [done|by etransitivity]. Qed.

Context `{MapRange}.

Definition true_pending (batch : gmap eventKey coalesced) : Prop :=
  ∀ k i ev, batch !! (type_name k, i) = Some ev → c_action ev = "remove" → cluster k i = None.

Lemma batch_approaches ctx batch order probes locked ls now st :
  plain_ctx ctx → true_pending batch → finishes batch order → true_scopes ls →
  (∀ key, key ∈ order → true_engine key (Engine (probes key))) →
  approaches st (processBatch ctx batch order probes locked ls now st).1.
Proof.
  intros Hp Hpend Ho Hl He Hok. split; [by apply processBatch_ok|]. intros k i.
  assert (∀ key, key ∈ order → true_answer key (heard_of ctx batch probes key)) as Ht
    by (intros key Hkey; apply inspection_true; [done|by apply He]).
  rewrite processBatch_held; [|done|by apply true_lists_ok|done|].
  2: { intros key Hkey. by apply heard_finds, Ht. }
  eapply keeps_trans; [|by apply relists_keep]. unfold batch_effect.
  destruct (batch !! (type_name k, i)) as [ev|] eqn:Eb; [|apply keeps_refl].
  case_bool_decide as Hrm.
  - rewrite (Hpend _ _ _ Eb Hrm). apply (keeps_target None).
  - apply (answer_keeps (type_name k, i)); [|done]. apply Ht. apply (elem_of_finishes batch order _ Ho). eauto.
Qed.

Lemma reconcile_approaches scope l now st :
  (∀ l', l = Some l' → true_scope scope l') → approaches st (reconcileTasks scope l now st).
Proof.
  intros Hl Hok. split; [by apply reconcileTasks_ok|]. intros k i.
  destruct l as [l|]; [|apply keeps_refl]. destruct (Hl l eq_refl) as [Hn ?].
  rewrite reconcileTasks_held by done. by apply relist_keeps.
Qed.

(** A bounded call's answer. *)
Lemma call_true ctx timeout now a key t got :
  plain_ctx ctx → true_answer key (Answer a) → inspect ctx timeout now a = (t, got) → true_answer key got.
Proof.
  intros Hp Ha Hi. assert (Is NotFound (Cause (WithTimeout ctx now timeout)) = false) as Hc.
  { unfold WithTimeout. destruct (Done ctx); [case_match|]; done. }
  unfold inspect, call in Hi. repeat case_match; simplify_eq; try done; simpl; congruence.
Qed.

Lemma refresh_approaches ctx kind id now a st :
  plain_ctx ctx → true_answer (kind, id) (Answer a) → approaches st (refreshNow ctx kind id now a st).1.
Proof.
  intros Hp Ha Hok. split; [by apply refreshNow_ok|]. intros k i. unfold refreshNow.
  destruct (inspect ctx inspectTimeout now a) as [t got] eqn:Ei.
  pose proof (call_true _ _ _ _ _ _ _ Hp Ha Ei) as Hg. destruct got as [r|err].
  - cbn [fst]. pose proof (heard_finds _ _ Hg) as [Hk Hkey].
    rewrite apply_held by done. case_bool_decide as E; [|apply keeps_refl].
    apply (answer_keeps (kind, id) (Found r)); [done|]. by rewrite Hkey.
  - simpl in Hg. destruct (Is NotFound err); [|case_match; apply keeps_refl]. cbn [fst].
    rewrite applyRemove_held. case_bool_decide as E; [|apply keeps_refl].
    rewrite (Hg eq_refl k i E). apply (keeps_target None).
Qed.

Lemma settled_approaches now id read st :
  past_read id read → approaches st (applySettledRead now id read st).
Proof.
  intros Hr Hok. split; [by apply applySettledRead_ok|]. intros k i. unfold applySettledRead.
  destruct (tasks st.1 !! id) as [held_|] eqn:Et; [|apply keeps_refl]. destruct read as [|t].
  - rewrite write_held. cbn [effect]. unfold delete_effect.
    destruct (bool_decide (EventTask = k) && bool_decide (id = i)) eqn:E; [|apply keeps_refl].
    rewrite andb_true_iff, !bool_decide_eq_true in E. destruct E as [<- <-]. simpl in Hr. rewrite Hr.
    apply (keeps_target None).
  - destruct Hr as [<- Hr]. rewrite write_held. cbn [effect]. unfold set_effect.
    destruct (at_key k i (RTask t)) eqn:E; [|apply keeps_refl].
    unfold at_key in E. rewrite andb_true_iff, !bool_decide_eq_true in E. destruct E as [<- <-].
    simpl. rewrite Et. simpl. intros Hb. unfold stale. simpl.
    destruct (cluster EventTask (t_ID t)) as [r'|] eqn:Ec; [|by split; [|done]].
    destruct (Hcluster _ _ _ Ec) as (Hk & _ & _). destruct r' as [| | |t'| | | |]; try done.
    destruct (Z.ltb_spec (t_Version t) (t_Version held_)).
    + by split.
    + split; [|intros [= ->]; destruct (Hr t' eq_refl) as [|<-]; [lia|done]].
      intros r r' [= <-] [= <-]. unfold stale. simpl. destruct (Hr t' eq_refl) as [|<-]; lia.
Qed.

Lemma settles_approach now settled st :
  (∀ id read, settled !! id = Some read → past_read id read) → approaches st (applySettled now settled st).
Proof.
  intros Hs. unfold applySettled.
  assert (∀ p, p ∈ range settled → past_read p.1 p.2) as Hin
    by (intros [id read] Hp%elem_of_range; by apply Hs).
  clear Hs. revert st. induction (range settled) as [|[id read] l IH]; intros st; [done|]. simpl.
  etransitivity; [apply settled_approaches, (Hin (id, read)); left|]. apply IH. intros p Hp. apply Hin. by right.
Qed.

(** A full sync: what it fetched is the cluster's, the rest comes no further. *)
Lemma sync_held data now st k i :
  held (write (OpReplaceAll data now) st).1 k i =
  match fetched data k with Some l => list_effect l i (held st.1 k i) | None => held st.1 k i end.
Proof. by rewrite write_held. Qed.

Lemma sync_approaches data now st :
  (∀ k l, fetched data k = Some l → true_list k l) → (∀ l, f_Tasks data = Some l → NoDup (t_ID <$> l)) →
  approaches st (write (OpReplaceAll data now) st).
Proof.
  intros Hl Hn Hok. split; [by apply write_tasks_ok|]. intros k i. rewrite sync_held.
  destruct (fetched data k) as [l|] eqn:El; [|apply keeps_refl].
  intros Hb. rewrite (list_keeps k) by (done || by apply Hl). by apply keeps_target.
Qed.

Lemma sync_reflects data now st :
  (∀ k l, fetched data k = Some l → true_list k l) → (∀ k, k ≠ EventSync → is_Some (fetched data k)) →
  behind st.1 → reflects (write (OpReplaceAll data now) st).1.
Proof.
  intros Hl Hall Hb k i. rewrite sync_held. destruct (decide (k = EventSync)) as [->|Hk].
  - destruct (cluster EventSync i) as [r|] eqn:Ec; [|done]. by apply Hcluster in Ec as (_ & _ & ?).
  - destruct (Hall k Hk) as [l El]. rewrite El. apply list_keeps; [by apply Hl|apply Hb].
Qed.

(** ** The watcher's steps *)

Definition true_inputs (i : inputs) : Prop :=
  plain_ctx (in_ctx i) ∧ true_scopes (in_lists i) ∧
  ∀ key, key ∈ in_order i → true_engine key (Engine (in_probes i key)).

(** What prompts settling is a task's event. *)
Definition settling_key (key : eventKey) (action : string) : Prop :=
  action = actionSettle ∨ action = actionStarted → key.1 = "task".

Definition true_message (msg : message_) : Prop :=
  let '(key, action) := eventKeyFromMsg msg in
  settling_key key action ∧
  (action = "remove" → ∀ k i, key = (type_name k, i) → cluster k i = None).

(** An action whose answers are of this cluster, its messages too. *)
Definition true_action (w : Watcher) (a : action) : Prop :=
  match a with
  | Synced answers _ | ResyncReturns answers _ => true_lists answers
  | Subscribe | Reconnect _ | SettleCancelled _ | SettledReady _ | ResyncBeside => True
  | Message msg => true_message msg
  | Debounce i | StreamError i | CtxDone i => true_inputs i
  | RefreshNow ctx kind id _ a => plain_ctx ctx ∧ true_answer (kind, id) (Answer a)
  | ResyncOnLoop i answers _ | SyncTick i answers _ | RetryTick _ i answers _ =>
      true_inputs i ∧ true_lists answers
  | Poll listed _ => ∀ l, listed = Some l → true_scope everything l
  | SettleRead n ctx _ engine =>
      plain_ctx ctx ∧ ∀ s, settles w !! n = Some s → true_engine (se_key s) engine
  end.

(** The watcher as a quiet cluster finds it: nothing held or read is ahead of the
    cluster, what is pending as removed is gone. *)
Record on_way (w : Watcher) : Prop := {
  ow_tasks : tasks_ok (store w).1;
  ow_behind : behind (store w).1;
  ow_pending : true_pending (pending w);
  ow_settling key ev : pending w !! key = Some ev → settling_key key (c_action ev);
  ow_settled id read : settled w !! id = Some read → past_read id read;
  ow_settles n s : settles w !! n = Some s → (se_key s).1 = "task";
}.

Definition moves (w w' : Watcher) : Prop := on_way w → on_way w' ∧ keeps_all (store w).1 (store w').1.

#[global] Instance moves_refl : Reflexive moves.
Proof. by intros w. Qed.

#[global] Instance moves_trans : Transitive moves.
Proof. intros a b c H1 H2 Hw. destruct (H1 Hw), (H2 ltac:(done)). split; [done|by etransitivity]. Qed.

(** Flags, phases and timers are not part of it. *)
Lemma moves_flags w w' :
  store w' = store w → pending w' = pending w → settled w' = settled w → settles w' = settles w → moves w w'.
Proof.
  intros Hs Hp Hd Hm [Ht Hb Hpe Hse Hre Hn]. rewrite Hs. split; [|reflexivity].
  constructor; rewrite ?Hs, ?Hp, ?Hd, ?Hm; done.
Qed.

Lemma moves_store st w : approaches (store w) st → moves w (with_store st w).
Proof.
  intros Ha [Ht Hb Hpe Hse Hre Hn]. destruct (Ha Ht) as [Ht' Hk]. split; [|done].
  constructor; try done. by eapply keeps_all_behind.
Qed.

Lemma new_settles_move (new : list (eventKey * string)) w :
  (∀ p, p ∈ new → p.1.1 = "task") →
  moves w (foldl (λ w '(key, action),
      with_settles (<[started w := mkSettle key action settleAttempts defaultSettleDelay]> (settles w))
        (S (started w)) w) w new).
Proof.
  revert w. induction new as [|[key action] new IH]; intros w Hnew; [reflexivity|]. simpl.
  etransitivity; [|apply IH; intros p Hp; apply Hnew; by right].
  intros [Ht Hb Hpe Hse Hre Hn]. split; [|reflexivity]. constructor; try done. simpl.
  intros n s [[<- <-]|[_ Hs]]%lookup_insert_Some; [|by eapply Hn]. apply (Hnew (key, action)). left.
Qed.

Lemma processBatch_settles ctx batch order probes locked ls now st key act :
  (key, act) ∈ (processBatch ctx batch order probes locked ls now st).2 →
  ∃ ev, batch !! key = Some ev ∧ c_action ev = act ∧ (act = actionSettle ∨ act = actionStarted).
Proof.
  unfold processBatch. case_bool_decide; simpl; [by intros ?%not_elem_of_nil|].
  intros ([x ev] & Hin%elem_of_range & Hev)%list_elem_of_omap.
  apply map_lookup_filter_Some in Hin as [Hin _].
  destruct (_ && _) eqn:E; [|done]. injection Hev as -> <-. exists ev. split; [done|]. split; [done|].
  apply andb_true_iff in E as [E _]. apply orb_true_iff in E. rewrite !bool_decide_eq_true in E. done.
Qed.

Lemma fair_finishes i w : fair i w = true → finishes (pending w) (in_order i).
Proof. unfold fair. by rewrite bool_decide_eq_true. Qed.

Lemma flush_moves i w : true_inputs i → fair i w = true → moves w (flushPending i w).
Proof.
  intros (Hp & Hl & He) Hf%fair_finishes Hw. unfold flushPending.
  assert (on_way (with_pending ∅ false w)) as Hw1.
  { destruct Hw as [Ht Hb Hpe Hse Hre Hn]. constructor; simpl; [done|done| | |done|done].
    - intros k j ev Hev. by rewrite lookup_empty in Hev.
    - intros key ev Hev. by rewrite lookup_empty in Hev. }
  case_bool_decide as Hempty; [split; [done|by intros k j; apply keeps_refl]|].
  unfold run_batch. cbn [store beside with_pending].
  pose proof (batch_approaches (in_ctx i) (pending w) (in_order i) (in_probes i) (beside w) (in_lists i)
    (in_now i) (store w) Hp (ow_pending w Hw) Hf Hl He) as Ha.
  pose proof (processBatch_settles (in_ctx i) (pending w) (in_order i) (in_probes i) (beside w) (in_lists i)
    (in_now i) (store w)) as Hs.
  destruct (processBatch _ _ _ _ _ _ _ _) as [st new]. simpl in Ha, Hs.
  apply (moves_trans (with_pending ∅ false w) (with_store st (with_pending ∅ false w))); [|apply new_settles_move|done].
  - by apply moves_store.
  - intros [key act] Hin. destruct (Hs key act Hin) as (ev & Hev & <- & Hact).
    by apply (ow_settling w Hw key ev).
Qed.

Lemma syncLocked_moves answers now w : true_lists answers → moves w (syncLocked answers now w).1.
Proof.
  intros [Hl Hn]. unfold syncLocked. destruct (FullSync answers) as [data [err|]]; [reflexivity|]. simpl.
  etransitivity; [apply moves_store; by apply sync_approaches|]. by apply moves_flags.
Qed.

Lemma startWatching_moves t w : moves w (startWatching t w).
Proof. unfold startWatching. destruct (watching w); [reflexivity|by apply moves_flags]. Qed.

Lemma loopSync_moves i answers now w :
  true_inputs i → true_lists answers → fair i w = true → moves w (loopSync i answers now w).1.
Proof.
  intros Hi Ha Hf. unfold loopSync. etransitivity; [by apply (flush_moves i)|].
  destruct (beside (flushPending i w)); [reflexivity|].
  pose proof (syncLocked_moves answers now (flushPending i w) Ha) as Hs.
  destruct (syncLocked _ _ _) as [w1 [err|]]; [done|]. simpl in *.
  etransitivity; [done|]. etransitivity; [|apply startWatching_moves]. by apply moves_flags.
Qed.

Lemma message_moves msg w : true_message msg → moves w (on_message msg w).
Proof.
  intros Hm. unfold on_message, true_message in *. destruct (eventKeyFromMsg msg) as [key act].
  case_bool_decide; [reflexivity|]. intros [Ht Hb Hpe Hse Hre Hn]. split; [|reflexivity].
  destruct Hm as [Hset Hrm]. constructor; simpl; try done.
  - intros k i ev [[Hkey <-]|[_ Hev]]%lookup_insert_Some Ha; [by apply Hrm|by eapply Hpe].
  - intros key' ev [[<- <-]|[_ Hev]]%lookup_insert_Some; [done|by apply Hse].
Qed.

Lemma queue_moves id read w :
  past_read id read → moves w (with_settled (queueSettled id read (settled w)) true w).
Proof.
  intros Hr [Ht Hb Hpe Hse Hre Hn]. split; [|reflexivity]. constructor; simpl; try done.
  intros id' read' Hq. unfold queueSettled in Hq.
  repeat case_match; try (by apply Hre); apply lookup_insert_Some in Hq as [[<- <-]|[_ Hq]]; auto.
Qed.

Lemma settle_read_past ctx now act engine id read over :
  plain_ctx ctx → true_engine ("task", id) engine → settle_read ctx now act engine = (Some read, over) →
  past_read id read.
Proof.
  intros Hp He. unfold settle_read. pose proof (inspection_true ctx now false engine ("task", id) Hp He) as Ht.
  destruct (inspectWithRetry ctx now false engine) as [t [r|err]]; simpl in Ht.
  - destruct r as [| | |t0| | | |]; try done. intros [= <- _]. destruct Ht as [[= ->] Hc].
    split; [done|]. intros t'. simpl in Hc. rewrite Hc. intros [= ->]. by right.
  - destruct (Is NotFound err); [|done]. intros [= <- _]. simpl. by apply (Ht eq_refl EventTask id).
Qed.

Lemma next_read_moves n s ctx now engine w :
  settles w !! n = Some s → plain_ctx ctx → true_engine (se_key s) engine →
  moves w (next_read n s ctx now engine w).
Proof.
  intros Hs Hp He Hw. pose proof (ow_settles w Hw n s Hs) as Hkey. unfold next_read.
  destruct (settle_read ctx now (se_action s) engine) as [read over] eqn:Er.
  set (w1 := match read with Some _ => _ | None => w end).
  assert (settles w1 = settles w) as Hsame
    by (subst w1; destruct read; [|done]; unfold hand_over; by destruct (at_phase w)).
  destruct (se_key s) as [ty id] eqn:Ek. simpl in Hkey. subst ty.
  assert (moves w w1) as Hm.
  { subst w1. destruct read as [read|]; [|reflexivity]. simpl.
    pose proof (settle_read_past _ _ _ _ _ _ _ Hp He Er) as Hpast. unfold hand_over.
    destruct (at_phase w); try (by apply moves_store, settled_approaches). by apply queue_moves. }
  destruct (Hm Hw) as [Hw1 Hk]. clearbody w1.
  assert (∀ m k, (∀ n' s', m !! n' = Some s' → (se_key s').1 = "task") →
    on_way (with_settles m k w1) ∧ keeps_all (store w).1 (store (with_settles m k w1)).1) as Hset.
  { intros m k Hmk. split; [|done]. destruct Hw1. by constructor. }
  pose proof (ow_settles w1 Hw1) as Hn.
  assert (∀ n' s', delete n (settles w1) !! n' = Some s' → (se_key s').1 = "task") as Hdel
    by (intros n' s' [_ Hx]%lookup_delete_Some; by eapply Hn).
  destruct over; [by apply Hset|]. destruct (se_left s) as [|[|rest]]; try by apply Hset.
  apply Hset. intros n' s' [[<- <-]|[_ Hx]]%lookup_insert_Some; [done|by eapply Hn].
Qed.

Lemma perform_moves a w w' :
  perform_watcher a w = Some w' → true_action w a → moves w w'.
Proof.
  intros Hp Ht. destruct a; simpl in Hp, Ht.
  - destruct (at_phase w); try done. destruct (beside w); [done|]. unfold fullSync in Hp.
    pose proof (syncLocked_moves answers now w Ht) as Hs.
    destruct (syncLocked answers now w) as [w1 [err|]]; injection Hp as <-; simpl in Hs;
      (etransitivity; [exact Hs|]).
    + by apply moves_flags.
    + transitivity (markTracking w1); [by apply moves_flags|].
      transitivity (startWatching since (markTracking w1)); [apply startWatching_moves|by apply moves_flags].
  - destruct (at_phase w); try done. injection Hp as <-. by apply moves_flags.
  - destruct (streaming w); [|done]. injection Hp as <-. by apply message_moves.
  - destruct (streaming w && armed w && fair i w) eqn:E; [|done]. injection Hp as <-.
    apply andb_true_iff in E as [_ Hf]. by apply flush_moves.
  - injection Hp as <-. destruct Ht. by apply moves_store, refresh_approaches.
  - destruct (streaming w && settledReady w); [|done]. injection Hp as <-. intros Hw.
    destruct (moves_store (applySettled now (settled w) (store w)) w) as [Hw1 Hk];
      [apply settles_approach, Hw|done|]. split; [|done]. destruct Hw1. by constructor.
  - destruct (streaming w && negb (beside w) && fair i w) eqn:E; [|done]. injection Hp as <-.
    apply andb_true_iff in E as [_ Hf]. destruct Ht as [Hi Ha]. unfold on_resync.
    etransitivity; [by apply (flush_moves i)|by apply syncLocked_moves].
  - destruct (streaming w); [|done]. injection Hp as <-. unfold on_poll. destruct (beside w); [reflexivity|].
    by apply moves_store, reconcile_approaches.
  - destruct (streaming w && fair i w) eqn:E; [|done]. injection Hp as <-. destruct Ht as [Hi Ha].
    apply andb_true_iff in E as [_ Hf]. pose proof (loopSync_moves i answers now w Hi Ha Hf) as Hm.
    unfold on_tick. destruct (loopSync i answers now w) as [w1 []]; simpl in Hm; [|done].
    etransitivity; [exact Hm|by apply moves_flags].
  - destruct (retry w) as [[delay timeout]|]; [|done]. destruct (streaming w && fair i w) eqn:E; [|done].
    injection Hp as <-. destruct Ht as [Hi Ha]. apply andb_true_iff in E as [_ Hf]. unfold on_retry.
    destruct waiting; [by apply moves_flags|]. pose proof (loopSync_moves i answers now w Hi Ha Hf) as Hm.
    destruct (loopSync i answers now w) as [w1 []]; simpl in Hm; (etransitivity; [exact Hm|by apply moves_flags]).
  - destruct (streaming w && fair i w) eqn:E; [|done]. injection Hp as <-. apply andb_true_iff in E as [_ Hf].
    unfold leave. etransitivity; [by apply (moves_flags w (with_watching false (hooks w) w))|].
    etransitivity; [by apply (flush_moves i)|]. by apply moves_flags.
  - destruct (at_phase w); try done.
    + destruct (fair i w) eqn:Hf; [|done]. injection Hp as <-. unfold leave.
      etransitivity; [by apply (flush_moves i)|]. by apply moves_flags.
    + injection Hp as <-. by apply moves_flags.
  - destruct (at_phase w); try done. injection Hp as <-. by apply moves_flags.
  - destruct (settles w !! n) as [s|] eqn:Es; [|done]. simpl in Hp. injection Hp as <-.
    destruct Ht as [Hpl He]. apply next_read_moves; auto.
  - injection Hp as <-. intros [? ? ? ? ? Hn]. split; [|reflexivity]. constructor; simpl; try done.
    intros n' s' [_ Hx]%lookup_delete_Some. by eapply Hn.
  - destruct (streaming w || beside w); [done|]. injection Hp as <-. by apply moves_flags.
  - destruct (beside w); [|done]. injection Hp as <-.
    etransitivity; [by apply (syncLocked_moves answers now)|]. by apply moves_flags.
Qed.

(** ** A full sync in a quiet cluster *)

Definition complete (answers : lists) : Prop :=
  ∀ k, k ≠ EventSync → is_Some (fetched (FullSync answers).1 k).

Lemma complete_succeeds answers : complete answers → (FullSync answers).2 = None.
Proof.
  intros Hc.
  assert (∀ k, k ≠ EventSync → fetched (FullSync answers).1 k ≠ None) as Hn
    by (intros k Hk; destruct (Hc k Hk) as [l ->]; done).
  pose proof (Hn EventNode ltac:(done)). pose proof (Hn EventService ltac:(done)).
  pose proof (Hn EventTask ltac:(done)). pose proof (Hn EventConfig ltac:(done)).
  pose proof (Hn EventSecret ltac:(done)). pose proof (Hn EventNetwork ltac:(done)).
  pose proof (Hn EventVolume ltac:(done)). clear Hn Hc.
  destruct answers as [[] [] [] [] [] [] []]; simpl in *; done.
Qed.

(** The actions that replace the cache with a full list. *)
Definition full_sync (a : action) (w : Watcher) : Prop :=
  match a with
  | Synced answers _ | ResyncOnLoop _ answers _ | ResyncReturns answers _ => complete answers
  | SyncTick _ answers _ | RetryTick false _ answers _ => complete answers ∧ beside w = false
  | _ => False
  end.

Lemma syncLocked_reflects answers now w :
  true_lists answers → complete answers → behind (store w).1 → reflects (store (syncLocked answers now w).1).1.
Proof.
  intros [Hl Hn] Hc Hb. pose proof (complete_succeeds _ Hc) as Hok. unfold syncLocked, complete in *.
  destruct (FullSync answers) as [data e]. simpl in *. subst e. simpl. by apply sync_reflects.
Qed.

Lemma startWatching_store t w : store (startWatching t w) = store w.
Proof. unfold startWatching. by destruct (watching w). Qed.

Lemma flush_beside i w : beside (flushPending i w) = beside w.
Proof.
  unfold flushPending. case_bool_decide; [done|]. unfold run_batch.
  destruct (processBatch _ _ _ _ _ _ _ _) as [st new].
  assert (∀ w0, beside (foldl (λ w '(key, action),
    with_settles (<[started w := mkSettle key action settleAttempts defaultSettleDelay]> (settles w))
      (S (started w)) w) w0 new) = beside w0) as Hb; [|by rewrite Hb].
  induction new as [|[key act] new IH]; intros w0; [done|]. simpl. by rewrite IH.
Qed.

Lemma loopSync_reflects i answers now w :
  true_inputs i → true_lists answers → complete answers → fair i w = true → beside w = false → on_way w →
  reflects (store (loopSync i answers now w).1).1.
Proof.
  intros Hi Ha Hc Hf Hbe Hw. destruct (flush_moves i w Hi Hf Hw) as [Hw1 _]. unfold loopSync.
  rewrite flush_beside, Hbe.
  pose proof (syncLocked_reflects answers now (flushPending i w) Ha Hc (ow_behind _ Hw1)) as Hr.
  destruct (syncLocked answers now (flushPending i w)) as [w1 [err|]]; [done|]. simpl in *.
  by rewrite startWatching_store.
Qed.

Lemma full_sync_reflects a w w' :
  perform_watcher a w = Some w' → true_action w a → full_sync a w → on_way w → reflects (store w').1.
Proof.
  intros Hp Ht Hs Hw. pose proof (ow_behind w Hw) as Hb. destruct a; try done; simpl in Hp, Ht, Hs.
  - destruct (at_phase w); try done. destruct (beside w); [done|]. unfold fullSync in Hp.
    pose proof (syncLocked_reflects answers now w Ht Hs Hb) as Hr.
    destruct (syncLocked answers now w) as [w1 [err|]]; injection Hp as <-; [done|].
    simpl in *. by rewrite startWatching_store.
  - destruct (streaming w && negb (beside w) && fair i w) eqn:E; [|done]. injection Hp as <-.
    apply andb_true_iff in E as [_ Hf]. destruct Ht as [Hi Ha].
    apply syncLocked_reflects; [done|done|]. by apply (flush_moves i w).
  - destruct (streaming w && fair i w) eqn:E; [|done]. injection Hp as <-. apply andb_true_iff in E as [_ Hf].
    destruct Ht as [Hi Ha], Hs as [Hc Hbe]. pose proof (loopSync_reflects i answers now w Hi Ha Hc Hf Hbe Hw) as Hr.
    unfold on_tick. by destruct (loopSync i answers now w) as [w1 []].
  - destruct waiting; [done|]. destruct (retry w) as [[delay timeout]|]; [|done].
    destruct (streaming w && fair i w) eqn:E; [|done]. injection Hp as <-. apply andb_true_iff in E as [_ Hf].
    destruct Ht as [Hi Ha], Hs as [Hc Hbe]. pose proof (loopSync_reflects i answers now w Hi Ha Hc Hf Hbe Hw) as Hr.
    unfold on_retry. by destruct (loopSync i answers now w) as [w1 []].
  - destruct (beside w); [|done]. injection Hp as <-. simpl. by apply syncLocked_reflects.
Qed.

(** A run whose every answer is of the cluster. *)
Inductive true_run : list action → Watcher → Watcher → Prop :=
| run_nil w : true_run [] w w
| run_cons a l w w1 w2 :
    perform_watcher a w = Some w1 → true_action w a → true_run l w1 w2 → true_run (a :: l) w w2.

Lemma true_run_moves l w w' : true_run l w w' → moves w w'.
Proof.
  induction 1 as [w|a l w w1 w2 Hp Ht _ IH]; [reflexivity|].
  etransitivity; [by eapply perform_moves|done].
Qed.

(** C5: the watcher converges. Let the cluster hold still, with nothing the
    watcher holds, read or was told ahead of it. Then whatever the watcher does,
    in whatever order, once one full sync has read every list the cache is the
    cluster's image, secrets' data aside; and no batch of events, re-list,
    refresh, settle read or sync that follows takes it away. *)
Theorem watcher_converges l1 l2 a w w1 w2 w3
    (Hw : on_way w) (H1 : true_run l1 w w1) (Ha : perform_watcher a w1 = Some w2)
    (Ht : true_action w1 a) (Hs : full_sync a w1) (H2 : true_run l2 w2 w3) :
  reflects (store w3).1.
Proof.
  destruct (true_run_moves l1 w w1 H1 Hw) as [Hw1 _].
  destruct (perform_moves a w1 w2 Ha Ht Hw1) as [Hw2 _].
  destruct (true_run_moves l2 w2 w3 H2 Hw2) as [_ Hk].
  eapply keeps_all_reflects; [exact Hk|]. by eapply full_sync_reflects.
Qed.
End Cluster.

(** A swarm of one task, read by the first sync and listed again by a poll. *)
Definition quiet_cluster (k : EventType) (i : string) : option Resource :=
  if bool_decide (k = EventTask) && bool_decide (i = "t1") then Some (RTask demo_task) else None.

Definition quiet_lists : lists :=
  mkLists (inr []) (inr []) (inr [demo_task]) (inr []) (inr []) (inr []) (inr []).

Lemma quiet_cluster_typed k i r :
  quiet_cluster k i = Some r → kind_of r = k ∧ key_of r = i ∧ k ≠ EventSync.
Proof.
  unfold quiet_cluster. destruct (bool_decide_reflect (k = EventTask)) as [->|]; [|done].
  destruct (bool_decide_reflect (i = "t1")) as [->|]; [|done]. by intros [= <-].
Qed.

Lemma quiet_task i : listed_at [RTask demo_task] i = quiet_cluster EventTask i.
Proof.
  unfold listed_at, quiet_cluster. simpl. rewrite filter_cons, filter_nil. simpl.
  case_decide as E; case_bool_decide; subst; done.
Qed.

Lemma quiet_lists_true : true_lists quiet_cluster quiet_lists.
Proof.
  split.
  - intros k l Hl i. destruct k; simpl in Hl; try done; injection Hl as <-; try done. apply quiet_task.
  - intros l [= <-]. repeat constructor. by intros ?%not_elem_of_nil.
Qed.

Definition quiet_start : Watcher := NewWatcher (New 0) 100.

Lemma quiet_on_way : on_way quiet_cluster quiet_start.
Proof.
  constructor; simpl.
  - apply cache_tasks_ok, New_ok.
  - intros k i r r' Hr. exfalso. destruct k; simpl in Hr; done.
  - intros k i ev Hev. by rewrite lookup_empty in Hev.
  - intros key ev Hev. by rewrite lookup_empty in Hev.
  - intros id read Hr. by rewrite lookup_empty in Hr.
  - intros n s Hs. by rewrite lookup_empty in Hs.
Qed.

Definition after_actions (l : list action) : Watcher :=
  default quiet_start (run_watcher (H := map_range_std) l quiet_start).

Lemma watcher_converges_witness :
  let synced := after_actions [Synced quiet_lists 200] in
  let polled := after_actions [Synced quiet_lists 200; Subscribe; Poll (Some [demo_task]) 300] in
  full_sync (Synced quiet_lists 200) quiet_start ∧ reflects quiet_cluster (store polled).1 ∧
  held (store polled).1 EventTask "t1" = Some (RTask demo_task).
Proof.
  intros synced polled.
  assert (full_sync (Synced quiet_lists 200) quiet_start) as Hf
    by (intros []; simpl; intros Hk; first [done | by eexists]).
  assert (true_run quiet_cluster (H := map_range_std) [Subscribe; Poll (Some [demo_task]) 300] synced polled) as Hrun.
  { eapply run_cons; [vm_compute; reflexivity|exact I|]. eapply run_cons; [vm_compute; reflexivity| |apply run_nil].
    intros l [= <-]. split; [repeat constructor; by intros ?%not_elem_of_nil|]. intros i. simpl.
    rewrite quiet_task. destruct (quiet_cluster EventTask i) as [r|] eqn:Eq; [|done].
    destruct (quiet_cluster_typed _ _ _ Eq) as (Hk & _). by destruct r. }
  pose proof (watcher_converges quiet_cluster quiet_cluster_typed (H := map_range_std) []
    [Subscribe; Poll (Some [demo_task]) 300] (Synced quiet_lists 200) quiet_start quiet_start synced polled
    quiet_on_way (run_nil _ _) ltac:(vm_compute; reflexivity) quiet_lists_true Hf Hrun) as Hc.
  split; [exact Hf|]. split; [exact Hc|exact (Hc EventTask "t1")].
Defined.
