(* ===== verification/WatcherLoop.v ===== *)
(** The watcher's loop as a state machine: in every run its timers, flags and
    backoffs are as the code relies on. *)
From S2P Require Import Prelude GoStrings SortedLists Restarts CacheState CacheStacks CacheIndex CacheOps Cache CacheList Watcher.
#[local] Open Scope string_scope.
#[local] Open Scope Z_scope.

Section Loop.
Context `{MapRange}.

(** ** What each part of a step changes *)

Lemma new_settles_shape (new : list (eventKey * string)) w :
  ∃ m n, foldl (λ w '(key, action),
      with_settles (<[started w := mkSettle key action settleAttempts defaultSettleDelay]> (settles w))
        (S (started w)) w) w new = with_settles m n w ∧
    ∀ i s, m !! i = Some s → settles w !! i = Some s ∨ se_left s = settleAttempts ∧ se_delay s = defaultSettleDelay.
Proof.
  revert w. induction new as [|[key act] new IH]; intros w; simpl.
  - exists (settles w), (started w). split; [by destruct w|auto].
  - destruct (IH (with_settles (<[started w := mkSettle key act settleAttempts defaultSettleDelay]> (settles w))
        (S (started w)) w)) as (m & n & -> & Hm).
    exists m, n. split; [done|]. intros i s Hs. destruct (Hm i s Hs) as [Hl|]; [|by right].
    simpl in Hl. apply lookup_insert_Some in Hl as [[_ <-]|[_ Hl]]; [by right|by left].
Qed.

Lemma flush_shape i w :
  ∃ m n st, flushPending i w = with_settles m n (with_store st (with_pending ∅ false w)) ∧
    ∀ j s, m !! j = Some s → settles w !! j = Some s ∨ se_left s = settleAttempts ∧ se_delay s = defaultSettleDelay.
Proof.
  unfold flushPending. case_bool_decide.
  - exists (settles w), (started w), (store w). split; [by destruct w|auto].
  - unfold run_batch. destruct (processBatch _ _ _ _ _ _ _ _) as [st new].
    destruct (new_settles_shape new (with_store st (with_pending ∅ false w))) as (m & n & -> & Hm).
    by exists m, n, st.
Qed.

Lemma sync_shape answers now w :
  (∃ st, syncLocked answers now w = (with_lastSync now (with_store st w), None)) ∨
  ∃ err, syncLocked answers now w = (w, Some err).
Proof. unfold syncLocked. destruct (FullSync answers) as [data [err|]]; eauto. Qed.

(** ** The invariant *)

Definition settle_ok (s : settle) : Prop :=
  (0 < se_left s ≤ settleAttempts)%nat ∧
  se_delay s = defaultSettleDelay * 2 ^ Z.of_nat (settleAttempts - se_left s).

Record loop_ok (w : Watcher) : Prop := {
  lo_pending : pending w ≠ ∅ → at_phase w = Streaming ∧ armed w = true;
  lo_settled : settled w ≠ ∅ → settledReady w = true;
  lo_watching :
    match at_phase w with
    | Streaming => watching w = true ↔ retry w = None
    | Subscribing synced => watching w = synced ∧ (synced = false → connected w = false)
    | Syncing _ _ | Waiting => watching w = false ∧ connected w = false
    | Stopped => True
    end;
  lo_ready : watching w = true ∨ hooks w ≠ [] → ready w = true ∧ hooks w ≠ [];
  lo_retry d t : retry w = Some (d, t) →
    time_Second_ ≤ d ≤ maxBackoff ∧ retrySyncTimeout ≤ t ≤ fullSyncTimeout;
  lo_backoff : time_Second_ ≤ backoff w ≤ maxBackoff;
  lo_settles n s : settles w !! n = Some s → settle_ok s;
}.

Lemma new_settle_ok s : se_left s = settleAttempts → se_delay s = defaultSettleDelay → settle_ok s.
Proof. intros Hl Hd. unfold settle_ok. rewrite Hl, Hd. unfold settleAttempts. split; [lia|reflexivity]. Qed.

Lemma loop_ok_new c now : loop_ok (NewWatcher c now).
Proof.
  constructor; simpl; try done; try (intros n s Hs; by rewrite lookup_empty in Hs).
  by intros [].
Qed.

Lemma flush_ok i w : loop_ok w → loop_ok (flushPending i w).
Proof.
  intros []. destruct (flush_shape i w) as (m & n & st & -> & Hm). constructor; simpl; try done.
  intros j s Hs. destruct (Hm j s Hs) as [|[]]; [eauto|by apply new_settle_ok].
Qed.

Lemma sync_ok answers now w : loop_ok w → loop_ok (syncLocked answers now w).1.
Proof. intros Hok. destruct (sync_shape answers now w) as [[st ->]|[err ->]]; [|done]. by destruct Hok. Qed.

Lemma backoff_doubles d m : time_Second_ ≤ d ≤ m → time_Second_ ≤ Z.min (d * 2) m ≤ m.
Proof. unfold time_Second_, time_Millisecond. lia. Qed.

(** loopSync: without the lock or a fetch only what is pending goes; with both the
    stretch is watched. *)
Lemma loopSync_cases i answers now w :
  loop_ok w →
  let '(w', ok) := loopSync i answers now w in
  at_phase w' = at_phase w ∧ retry w' = retry w ∧ backoff w' = backoff w ∧ pending w' = ∅ ∧
  settled w' = settled w ∧ settledReady w' = settledReady w ∧
  (∀ n s, settles w' !! n = Some s → settle_ok s) ∧
  if ok then watching w' = true ∧ ready w' = true ∧ hooks w' ≠ []
  else watching w' = watching w ∧ ready w' = ready w ∧ hooks w' = hooks w ∧ connected w' = connected w.
Proof.
  intros Hok. unfold loopSync. pose proof (flush_ok i w Hok) as [_ _ _ _ _ _ Hset].
  destruct (flush_shape i w) as (m & n & st & Hfl & _). rewrite Hfl in *. simpl in Hset.
  destruct (beside _); [by split_and!|].
  destruct (sync_shape answers now (with_settles m n (with_store st (with_pending ∅ false w)))) as [[st' ->]|[err ->]];
    [|by split_and!].
  unfold startWatching. simpl. destruct (watching w) eqn:Ew; simpl; split_and!; try done.
  - by apply (lo_ready w Hok); left.
  - by destruct (hooks w).
Qed.

Lemma hand_over_ok now id read w : loop_ok w → loop_ok (hand_over now id read w).
Proof. intros []. unfold hand_over. destruct (at_phase w) eqn:E; constructor; simpl; rewrite ?E in *; done. Qed.

Lemma with_settles_ok m n w : (∀ j s, m !! j = Some s → settle_ok s) → loop_ok w → loop_ok (with_settles m n w).
Proof. intros Hm []. by constructor. Qed.

Lemma next_read_ok n s ctx now engine w :
  settle_ok s → loop_ok w → loop_ok (next_read n s ctx now engine w).
Proof.
  intros [Hl Hd] Hok. unfold next_read. destruct (settle_read _ _ _ _) as [read over].
  set (w1 := match read with Some _ => _ | None => w end).
  assert (loop_ok w1) as Hok1 by (subst w1; destruct read; [by apply hand_over_ok|done]).
  clearbody w1. pose proof (lo_settles w1 Hok1) as Hset.
  assert (∀ j s, delete n (settles w1) !! j = Some s → settle_ok s) as Hdel
    by (intros j s' [_ Hs]%lookup_delete_Some; by eapply Hset).
  destruct over; [by apply with_settles_ok|].
  destruct (se_left s) as [|[|rest]] eqn:El; try by apply with_settles_ok.
  apply with_settles_ok; [|done]. intros j s' [[<- <-]|[_ Hs]]%lookup_insert_Some; [|by eapply Hset].
  unfold settle_ok, settleAttempts in *. simpl. split; [lia|]. rewrite Hd.
  destruct rest as [|[|rest]]; [done|done|lia].
Qed.

Lemma leave_ok i w b p :
  loop_ok w → b = false ∧ p = Waiting ∨ p = Stopped → (b = true → watching w = true) →
  loop_ok (with_phase p (leave i (with_watching b (hooks w) w))).
Proof.
  intros [] Hp Hb. unfold leave.
  destruct (flush_shape i (with_watching b (hooks w) w)) as (m & n & st & -> & Hm).
  constructor; simpl in *; try done.
  - by destruct Hp as [[-> ->]| ->].
  - intros [Hw|Hh]; auto.
  - intros j s Hs. destruct (Hm j s Hs) as [|[]]; [eauto|by apply new_settle_ok].
Qed.

Lemma perform_loop_ok a w w' : perform_watcher a w = Some w' → loop_ok w → loop_ok w'.
Proof.
  intros Hp Hok. pose proof Hok as [Hpe Hse Hwa Hre Hrt Hbo Hst]. destruct a; simpl in Hp.
  - destruct (at_phase w) as [first since| | | |] eqn:Eph; try done. destruct (beside w); [done|].
    unfold fullSync in Hp. destruct (sync_shape answers now w) as [[st Es]|[err Es]]; rewrite Es in Hp;
      injection Hp as <-; destruct Hwa as [Hwa Hco].
    + unfold startWatching. simpl. rewrite Hwa. constructor; simpl; try done.
      * intros Hne. by destruct (Hpe Hne).
      * intros _. split; [done|]. by destruct (hooks w).
    + constructor; simpl; try done.
      * intros Hne. by destruct (Hpe Hne).
      * destruct first; [done|]. by apply backoff_doubles.
  - destruct (at_phase w) as [|synced| | |] eqn:Eph; try done. injection Hp as <-. destruct Hwa as [Hwa Hco].
    constructor; simpl; try done.
    + intros Hne. by destruct (Hpe Hne).
    + rewrite Hwa. by destruct synced.
    + intros d t. destruct synced; [done|]. intros [= <- <-]. done.
  - unfold streaming in Hp. destruct (at_phase w) eqn:Eph; try done. injection Hp as <-. unfold on_message.
    destruct (eventKeyFromMsg msg) as [key act]. case_bool_decide; [done|]. constructor; simpl; rewrite ?Eph; done.
  - destruct (streaming w && armed w && fair i w); [|done]. injection Hp as <-. by apply flush_ok.
  - injection Hp as <-. by constructor.
  - destruct (streaming w && settledReady w); [|done]. injection Hp as <-. by constructor.
  - destruct (streaming w && negb (beside w) && fair i w); [|done]. injection Hp as <-.
    by apply sync_ok, flush_ok.
  - destruct (streaming w); [|done]. injection Hp as <-. unfold on_poll. destruct (beside w); [done|]. by constructor.
  - destruct (streaming w && fair i w) eqn:E; [|done]. injection Hp as <-. unfold on_tick, streaming in *.
    destruct (at_phase w) eqn:Eph; try done. pose proof (loopSync_cases i answers now w Hok) as Hc.
    destruct (loopSync i answers now w) as [w1 []]; destruct Hc as (C1 & C2 & C3 & C4 & C5 & C6 & C7 & C8).
    + destruct C8 as (D1 & D2 & D3). constructor; simpl; rewrite ?C1, ?Eph, ?C3, ?C4, ?C5, ?C6; done.
    + destruct C8 as (D1 & D2 & D3 & D4).
      constructor; rewrite ?C1, ?Eph, ?C2, ?C3, ?C4, ?C5, ?C6, ?D1, ?D2, ?D3; done.
  - destruct (retry w) as [[delay timeout]|] eqn:Er; [|done]. destruct (streaming w && fair i w) eqn:E; [|done].
    injection Hp as <-. unfold on_retry, streaming in *. destruct (at_phase w) eqn:Eph; try done.
    destruct (Hrt _ _ eq_refl) as [Hd Ht]. assert (watching w = false) as Hw
      by (destruct (watching w) eqn:Ew; [discriminate (proj1 Hwa eq_refl)|done]).
    pose proof (backoff_doubles _ _ Hd) as Hd'. destruct waiting.
    + constructor; simpl; rewrite ?Eph; try done; [by rewrite Hw|]. by intros d t [= <- <-].
    + pose proof (loopSync_cases i answers now w Hok) as Hc.
      destruct (loopSync i answers now w) as [w1 []]; destruct Hc as (C1 & C2 & C3 & C4 & C5 & C6 & C7 & C8).
      * destruct C8 as (D1 & D2 & D3). constructor; simpl; rewrite ?C1, ?Eph, ?C3, ?C4, ?C5, ?C6; done.
      * destruct C8 as (D1 & D2 & D3 & D4).
        constructor; simpl; rewrite ?C1, ?Eph, ?C3, ?C4, ?C5, ?C6, ?D1, ?D2, ?D3; try done; [by rewrite Hw|].
        intros d t [= <- <-]. split; [done|].
        unfold retrySyncTimeout, fullSyncTimeout, time_Minute, time_Second_, time_Millisecond in *. lia.
  - destruct (streaming w && fair i w) eqn:E; [|done]. injection Hp as <-. unfold streaming in E.
    destruct (at_phase w) eqn:Eph; try done. by apply leave_ok; [|left|].
  - destruct (at_phase w) eqn:Eph; try done.
    + destruct (fair i w); [|done]. injection Hp as <-.
      assert (with_watching (watching w) (hooks w) w = w) as Hid by by destruct w.
      rewrite <- Hid. by apply leave_ok; [|right|].
    + injection Hp as <-. constructor; simpl; try done. intros Hne. by destruct (Hpe Hne).
  - destruct (at_phase w) eqn:Eph; try done. injection Hp as <-. constructor; simpl; try done.
    intros Hne. by destruct (Hpe Hne).
  - destruct (settles w !! n) as [s|] eqn:Es; [|done]. simpl in Hp. injection Hp as <-.
    apply next_read_ok; [by eapply Hst|done].
  - injection Hp as <-. apply with_settles_ok; [|done]. intros j s [_ Hs]%lookup_delete_Some. by eapply Hst.
  - destruct (streaming w || beside w); [done|]. injection Hp as <-. by constructor.
  - destruct (beside w); [|done]. injection Hp as <-.
    pose proof (sync_ok answers now w Hok) as []. by constructor.
Qed.

Lemma run_loop_ok l w w' : run_watcher l w = Some w' → loop_ok w → loop_ok w'.
Proof.
  revert w. induction l as [|a l IH]; intros w Hr Hok; [by injection Hr as <-|].
  simpl in Hr. destruct (perform_watcher a w) as [w1|] eqn:Ep; [|done]. simpl in Hr.
  eapply IH; [exact Hr|]. by eapply perform_loop_ok.
Qed.

(** ** The hook *)

Definition stream_lost (a : action) : bool := match a with StreamError _ => true | _ => false end.

(** A step leaves the hook and the flag alone, starts a stretch of watching with
    one call, or ends it with the stream. *)
Definition hook_step (a : action) (w w' : Watcher) : Prop :=
  hooks w' = hooks w ∧ watching w' = watching w ∨
  length (hooks w') = S (length (hooks w)) ∧ watching w = false ∧ watching w' = true ∨
  stream_lost a = true ∧ hooks w' = hooks w ∧ watching w' = false.

Lemma startWatching_hook a t w : hook_step a w (startWatching t w).
Proof.
  unfold startWatching. destruct (watching w) eqn:E; [by left|right; left].
  simpl. rewrite length_app. simpl. split; [lia|done].
Qed.

Lemma loopSync_hook a i answers now w : hook_step a w (loopSync i answers now w).1.
Proof.
  unfold loopSync. destruct (flush_shape i w) as (m & n & st & -> & _). destruct (beside _); [by left|].
  destruct (sync_shape answers now (with_settles m n (with_store st (with_pending ∅ false w)))) as [[st' ->]|[err ->]];
    [|by left]. simpl. exact (startWatching_hook a 0 (markTracking (with_lastSync now (with_store st'
      (with_settles m n (with_store st (with_pending ∅ false w))))))).
Qed.

Lemma leave_hook i w : hooks (leave i w) = hooks w ∧ watching (leave i w) = watching w.
Proof. unfold leave. by destruct (flush_shape i w) as (m & n & st & -> & _). Qed.

Lemma hand_over_hook now id read w :
  hooks (hand_over now id read w) = hooks w ∧ watching (hand_over now id read w) = watching w.
Proof. unfold hand_over. by destruct (at_phase w). Qed.

Lemma perform_hook a w w' : perform_watcher a w = Some w' → hook_step a w w'.
Proof.
  intros Hp. destruct a; simpl in Hp;
    try (repeat (case_match; try done); simplify_eq; by left).
  - destruct (at_phase w); try done. destruct (beside w); [done|]. unfold fullSync in Hp.
    destruct (sync_shape answers now w) as [[st Es]|[err Es]]; rewrite Es in Hp; injection Hp as <-; [|by left].
    exact (startWatching_hook _ since (markTracking (with_lastSync now (with_store st w)))).
  - destruct (streaming w); [|done]. injection Hp as <-. left. unfold on_message.
    destruct (eventKeyFromMsg msg). by case_bool_decide.
  - destruct (streaming w && armed w && fair i w); [|done]. injection Hp as <-.
    left. by destruct (flush_shape i w) as (m & n & st & -> & _).
  - destruct (streaming w && negb (beside w) && fair i w); [|done]. injection Hp as <-. left. unfold on_resync.
    destruct (sync_shape answers now (flushPending i w)) as [[st' ->]|[err ->]];
      by destruct (flush_shape i w) as (m & n & st & -> & _).
  - destruct (streaming w); [|done]. injection Hp as <-. left. unfold on_poll. by destruct (beside w).
  - destruct (streaming w && fair i w); [|done]. injection Hp as <-. unfold on_tick.
    pose proof (loopSync_hook (SyncTick i answers now) i answers now w) as Hh.
    by destruct (loopSync i answers now w) as [w1 []].
  - destruct (retry w) as [[delay timeout]|]; [|done]. destruct (streaming w && fair i w); [|done].
    injection Hp as <-. unfold on_retry. destruct waiting; [by left|].
    pose proof (loopSync_hook (RetryTick false i answers now) i answers now w) as Hh.
    by destruct (loopSync i answers now w) as [w1 []].
  - destruct (streaming w && fair i w); [|done]. injection Hp as <-. right; right.
    destruct (leave_hook i (with_watching false (hooks w) w)). done.
  - destruct (at_phase w); try done; [destruct (fair i w); [|done]|]; injection Hp as <-; left; [|done].
    apply (leave_hook i w).
  - destruct (settles w !! n) as [s|]; [|done]. simpl in Hp. injection Hp as <-. left. unfold next_read.
    destruct (settle_read _ _ _ _) as [[read|] over]; [pose proof (hand_over_hook now (se_key s).2 read w)|];
      destruct over, (se_left s) as [|[|]]; done.
  - destruct (beside w); [|done]. injection Hp as <-. left.
    by destruct (sync_shape answers now w) as [[st' ->]|[err ->]].
Qed.

Lemma run_hooks l w w' :
  run_watcher l w = Some w' →
  (length (hooks w') + (if watching w then 1 else 0) ≤
   length (hooks w) + length (filter (λ a, stream_lost a = true) l) + (if watching w' then 1 else 0))%nat.
Proof.
  revert w. induction l as [|a l IH]; intros w Hr; [injection Hr as <-; simpl; lia|].
  simpl in Hr. destruct (perform_watcher a w) as [w1|] eqn:Ep; [|done]. simpl in Hr.
  specialize (IH w1 Hr). rewrite filter_cons.
  destruct (perform_hook a w w1 Ep) as [[Hh Hw]|[(Hh & Hw & Hw1)|(Hl & Hh & Hw1)]].
  - rewrite Hh, Hw in IH. case_decide; simpl; lia.
  - rewrite Hw. rewrite Hw1, Hh in IH. case_decide; simpl; lia.
  - rewrite decide_True by done. rewrite Hw1, Hh in IH. simpl. destruct (watching w); lia.
Qed.

(** C27: in every run of the watcher no event is ever stuck: while any is pending
    the stream is live with the debounce timer armed, and the timer's case then
    takes all of them; no settle read waits in the queue without the loop's
    wake-up. The instance watches exactly while a live stream is beside a synced
    cache, so a retry is due as long as it does not, and the hook has run at most
    once for each stretch; outside the stream it is neither watching nor
    connected. Backoffs and bounds stay in their ranges, and a settle reads its
    task at most three times. *)
Theorem watcher_loop_sound l c now w (Hrun : run_watcher l (NewWatcher c now) = Some w) :
  (pending w ≠ ∅ → at_phase w = Streaming ∧ armed w = true ∧
     ∀ i, fair i w = true → ∃ w', perform_watcher (Debounce i) w = Some w' ∧ pending w' = ∅) ∧
  (settled w ≠ ∅ → settledReady w = true) ∧
  (at_phase w = Streaming → watching w = true ↔ retry w = None) ∧
  (at_phase w = Waiting → watching w = false ∧ connected w = false) ∧
  (watching w = true → ready w = true) ∧
  (length (hooks w) ≤ length (filter (λ a, stream_lost a = true) l) + (if watching w then 1 else 0))%nat ∧
  (∀ d t, retry w = Some (d, t) → time_Second_ ≤ d ≤ maxBackoff ∧ retrySyncTimeout ≤ t ≤ fullSyncTimeout) ∧
  time_Second_ ≤ backoff w ≤ maxBackoff ∧
  ∀ n s, settles w !! n = Some s → settle_ok s.
Proof.
  pose proof (run_loop_ok l _ w Hrun (loop_ok_new c now)) as [Hpe Hse Hwa Hre Hrt Hbo Hst].
  pose proof (run_hooks l _ w Hrun) as Hh. simpl in Hh.
  split; [|split_and!; try done].
  - intros Hne. destruct (Hpe Hne) as [Hph Har]. split; [done|]. split; [done|].
    intros i Hf. simpl. unfold streaming. rewrite Hph, Har, Hf. eexists. split; [done|].
    by destruct (flush_shape i w) as (m & n & st & -> & _).
  - intros Hph. by rewrite Hph in Hwa.
  - intros Hph. by rewrite Hph in Hwa.
  - intros Hw. apply Hre. by left.
  - lia.
  - apply Hbo.
  - apply Hbo.
Qed.
End Loop.

(** A container dies while the watcher watches a swarm it synced. *)
Definition empty_lists : lists := mkLists (inr []) (inr []) (inr []) (inr []) (inr []) (inr []) (inr []).

Definition death : message_ :=
  mkMessage "container" "die" "c9" {["com.docker.swarm.task.id" := "t1"]} 250.

Definition watching_run : list action := [Synced empty_lists 200; Subscribe; Message death].

Definition watching_start : Watcher := NewWatcher (New 0) 100.
Definition watching_state : Watcher := default watching_start (run_watcher (H := map_range_std) watching_run watching_start).

Lemma watcher_loop_sound_witness :
  run_watcher (H := map_range_std) watching_run watching_start = Some watching_state ∧
  pending watching_state !! ("task", "t1") = Some (mkCoalesced actionSettle false) ∧
  armed watching_state = true ∧ hooks watching_state = [eventsSince 100].
Proof.
  assert (run_watcher (H := map_range_std) watching_run watching_start = Some watching_state) as Hrun
    by (vm_compute; reflexivity).
  split; [exact Hrun|]. split; [vm_compute; reflexivity|]. split; [|vm_compute; reflexivity].
  destruct (watcher_loop_sound (H := map_range_std) watching_run (New 0) 100 watching_state Hrun) as [Hp _].
  destruct Hp as (_ & Ha & _); [|exact Ha].
  intros He. assert (pending watching_state !! ("task", "t1") = None) as Hn by (by rewrite He, lookup_empty).
  vm_compute in Hn. discriminate Hn.
Defined.
