(* ===== verification/Conditional.v ===== *)
(** Conditional requests: internal/api/etag.go, with the parts of validator.go
    and pagination.go that match a validator.

    A request and a response are records; headers map canonical names to their
    values. What the model takes as arguments: SHA-256 and the compressors, the
    content coding the request's Accept-Encoding resolves to, how an HTTP date
    reads, and the clock. A time is nanoseconds since the zero time. *)
From S2P Require Import Prelude GoStrings GoStrconv GoURL.
#[local] Open Scope string_scope.
#[local] Open Scope Z_scope.

(** * HTTP *)

Abbreviation Header := (gmap string (list string)).

(** http.Header's Get, Set, Add and Del. *)
Definition Get (k : string) (h : Header) : string :=
  match h !! k with Some (v :: _) => v | _ => "" end.
Definition HSet (k v : string) (h : Header) : Header := <[k := [v]]> h.
Definition HAdd (k v : string) (h : Header) : Header := <[k := (default [] (h !! k) ++ [v])%list]> h.
Definition HDel (k : string) (h : Header) : Header := delete k h.

(** encoding.go's Encoding. *)
Inductive Encoding := EncodingIdentity | EncodingGzip | EncodingZstd.
#[global] Instance Encoding_eq_dec : EqDecision Encoding.
Proof. solve_decision. Defined.

Definition Encoding_String (e : Encoding) : string :=
  match e with EncodingGzip => "gzip" | EncodingZstd => "zstd" | EncodingIdentity => "identity" end.

Definition compressionThreshold : Z := 1024.

Definition appliedEncoding (e : Encoding) (bodyLen : Z) : Encoding :=
  if bodyLen <? compressionThreshold then EncodingIdentity else e.

Record Request := mkRequest {
  header : Header;
  accepted : Encoding;            (* resolveEncoding *)
  compressionDisabled : bool;
}.

Inductive Body := Nothing | Bytes (s : string) | Problem (code detail : string).

(** [Status] 0 stands for the status the problem registry gives the code. *)
Record Response := mkResponse { Status : Z; Headers : Header; Sent : Body }.

Definition StatusOK : Z := 200.
Definition StatusNotModified : Z := 304.

Definition problem_Write (code detail : string) (h : Header) : Response :=
  mkResponse 0 h (Problem code detail).

(** crypto/sha256 and the compressors. *)
Class Coders := {
  Sum256 : string → string;
  compress : Encoding → string → string;
}.

(** * Entity tags *)

Definition dquote : ascii := ascii_of_nat 34.
Definition quoted (s : string) : string := String dquote (s +:+ String dquote "").

Definition computeETag `{Coders} (body : string) : string :=
  quoted (hex_EncodeToString (str_take 16 (Sum256 body))).

Definition unquote_one (s : string) : string :=
  TrimSuffix (TrimPrefix s (String dquote "")) (String dquote "").

(** Weak comparison, for a GET's If-None-Match. *)
Definition etagMatch `{Unicode} (field etag : string) : bool :=
  if is_empty field then false else
  if bool_decide (field = "*") then true else
  let opaqueTag := unquote_one etag in
  existsb (λ candidate, String.eqb (unquote_one (TrimPrefix (TrimSpace candidate) "W/")) opaqueTag)
    (split_byte "," field).

Definition codedETag (etag : string) (coding : Encoding) : string :=
  match coding with
  | EncodingIdentity => etag
  | _ => quoted (trim_byte dquote etag +:+ "-" +:+ Encoding_String coding)
  end.

Definition knownCodingSuffixes : list string := ["-zstd"; "-gzip"].

Definition CutSuffix (s suffix : string) : option string :=
  if HasSuffix s suffix then Some (TrimSuffix s suffix) else None.

Definition stripCodingSuffix (opaqueTag : string) : string :=
  default opaqueTag (head (omap (CutSuffix opaqueTag) knownCodingSuffixes)).

(** For a write's If-None-Match, which asserts the state of the resource. *)
Definition etagMatchState `{Unicode} (field etag : string) : bool :=
  if is_empty field then false else
  if bool_decide (TrimSpace field = "*") then true else
  let want := stripCodingSuffix (trim_byte dquote etag) in
  existsb (λ candidate,
      let candidate := TrimPrefix (TrimSpace candidate) "W/" in
      String.eqb (stripCodingSuffix (trim_byte dquote candidate)) want)
    (split_byte "," field).

(** Strong comparison, for If-Match. *)
Definition etagMatchStrong `{Unicode} (field etag : string) : bool :=
  if is_empty field then false else
  if bool_decide (TrimSpace field = "*") then true else
  let want := stripCodingSuffix (trim_byte dquote etag) in
  existsb (λ candidate,
      let candidate := TrimSpace candidate in
      negb (HasPrefix candidate "W/") && String.eqb (stripCodingSuffix (trim_byte dquote candidate)) want)
    (split_byte "," field).

(** * Dates *)

(** Truncate(time.Second). *)
Definition Truncate (t : Z) : Z := t - t mod 1000000000.

Definition notAfterNow (now t : Z) : Z := if now <? t then now else t.

Definition modifiedAfter `{HTTPDates} (now : Z) (field : string) (lastModified : Z) : bool :=
  if is_empty field then false else
  match ParseTime field with
  | None => false
  | Some t => time_after (Truncate (notAfterNow now lastModified)) (Truncate t)
  end.

(** * Evaluation *)

(** Why the request must be refused, or "" when it may go on. *)
Definition preconditionFailed `{Unicode, HTTPDates} (now : Z) (r : Request) (etag : string)
    (lastModified : Z) : string :=
  let ifMatch := Get "If-Match" (header r) in
  if negb (is_empty ifMatch) then
    if negb (etagMatchStrong ifMatch etag)
    then "If-Match did not match the current state of the resource" else ""
  else if modifiedAfter now (Get "If-Unmodified-Since" (header r)) lastModified
  then "the resource was modified after the If-Unmodified-Since date" else "".

(** precondition.go. *)
Definition writePreconditionFailed `{Unicode, HTTPDates} (now : Z) (r : Request) (etag : string)
    (modified : Z) : string :=
  let reason := preconditionFailed now r etag modified in
  if negb (is_empty reason) then reason
  else if etagMatchState (Get "If-None-Match" (header r)) etag
  then "If-None-Match matched the current state of the resource" else "".

Definition refusedByPrecondition `{Unicode, HTTPDates} (now : Z) (h : Header) (r : Request)
    (etag : string) (lastModified : Z) : option Response :=
  let reason := preconditionFailed now r etag lastModified in
  if is_empty reason then None else Some (problem_Write "API013" reason (HDel "Content-Encoding" h)).

Definition notModified `{Unicode, HTTPDates} (r : Request) (etag : string) (lastModified : Z) : bool :=
  let inm := Get "If-None-Match" (header r) in
  if negb (is_empty inm) || is_zero_time lastModified then etagMatch inm etag else
  let ims := Get "If-Modified-Since" (header r) in
  if is_empty ims then false else
  match ParseTime ims with
  | None => false
  | Some t => negb (time_after (Truncate lastModified) (Truncate t))
  end.

(** * Responses *)

Definition negotiateCoding (h : Header) (r : Request) (body : string) : Header * Encoding :=
  let h := HAdd "Vary" "Accept-Encoding" h in
  if compressionDisabled r then (h, EncodingIdentity) else
  if Z.of_nat (String.length body) <? compressionThreshold then (h, EncodingIdentity) else
  match accepted r with
  | EncodingIdentity => (h, EncodingIdentity)
  | coding => (HSet "Content-Encoding" (Encoding_String coding) h, coding)
  end.

Definition encodeBody `{Coders} (body : string) (e : Encoding) : string :=
  match appliedEncoding e (Z.of_nat (String.length body)) with
  | EncodingIdentity => body
  | coding => compress coding body
  end.

Definition cache_control (h : Header) : Header :=
  if is_empty (Get "Cache-Control" h) then HSet "Cache-Control" "no-cache" h else h.

Definition writeRawNegotiated `{Unicode, HTTPDates} (now : Z) (h : Header) (r : Request)
    (identity etag : string) (encode : Encoding → string) : Response :=
  let '(h, coding) := negotiateCoding h r identity in
  let etag := codedETag etag coding in
  let h := cache_control (HSet "ETag" etag h) in
  match refusedByPrecondition now h r etag time_zero with
  | Some refused => refused
  | None =>
      if etagMatch (Get "If-None-Match" (header r)) etag
      then mkResponse StatusNotModified h Nothing
      else mkResponse StatusOK h (Bytes (encode coding))
  end.

Definition writeRawWithPrecomputedETag `{Unicode, HTTPDates, Coders} (now : Z) (h : Header) (r : Request)
    (data etag : string) : Response :=
  writeRawNegotiated now h r data etag (encodeBody data).

Definition writeRawWithETag `{Unicode, HTTPDates, Coders} (now : Z) (h : Header) (r : Request)
    (data : string) : Response :=
  writeRawWithPrecomputedETag now h r data (computeETag data).

Definition setJSONContentType (h : Header) : Header :=
  if is_empty (Get "Content-Type" h) then HSet "Content-Type" "application/json" h else h.

Definition newline : string := String (ascii_of_nat 10) "".

(** Each body ends in a newline, inside the coding when there is one. *)
Definition writeEncodedJSON `{Coders} (h : Header) (status : Z) (body : string) (coding : Encoding)
    : Response :=
  match coding with
  | EncodingIdentity => mkResponse status h (Bytes (body +:+ newline))
  | _ => mkResponse status h (Bytes (encodeBody (body +:+ newline) coding))
  end.

Record renderedDoc := mkDoc { doc_body : string; doc_etag : string }.

Definition writeRenderedJSON `{Unicode, HTTPDates, Coders} (now : Z) (h : Header) (r : Request)
    (status : Z) (doc : renderedDoc) (lastModified : Z) : Response :=
  let '(h, coding) := negotiateCoding h r (doc_body doc) in
  let etag := codedETag (doc_etag doc) coding in
  let h := cache_control (setJSONContentType (HSet "ETag" etag h)) in
  let '(h, lastModified) :=
    if is_zero_time lastModified then (h, lastModified) else
    let lastModified := notAfterNow now lastModified in
    (HSet "Last-Modified" (FormatTime lastModified) h, lastModified) in
  match refusedByPrecondition now h r etag lastModified with
  | Some refused => refused
  | None =>
      if notModified r etag lastModified then mkResponse StatusNotModified h Nothing
      else writeEncodedJSON h status (doc_body doc) coding
  end.

(** [v] is what json.Marshal makes of the value. *)
Definition writeCachedJSONStatusValidated `{Unicode, HTTPDates, Coders} (now : Z) (h : Header)
    (r : Request) (status : Z) (v : option string) (validator : string) : Response :=
  match v with
  | None => problem_Write "API009" "failed to serialize response" (HSet "Cache-Control" "no-store" h)
  | Some body =>
      let validator := if is_empty validator then computeETag body else validator in
      writeRenderedJSON now h r status (mkDoc body validator) time_zero
  end.

Definition writeCachedJSONTimed `{Unicode, HTTPDates, Coders} (now : Z) (h : Header) (r : Request)
    (v : option string) (lastModified : Z) : Response :=
  match v with
  | None => problem_Write "API009" "failed to serialize response" (HSet "Cache-Control" "no-store" h)
  | Some body =>
      writeRenderedJSON now (HSet "Cache-Control" "no-cache" h) r StatusOK (mkDoc body (computeETag body))
        lastModified
  end.

(** * Validators known before the body *)

Definition matchedValidator `{Unicode} (r : Request) (validator : string) : string :=
  let inm := Get "If-None-Match" (header r) in
  if is_empty inm || bool_decide (TrimSpace inm = "*") then "" else
  let tagged := codedETag validator EncodingIdentity in
  if etagMatch inm tagged then tagged else
  match accepted r with
  | EncodingIdentity => ""
  | coding =>
      let tagged := codedETag validator coding in
      if negb (compressionDisabled r) && etagMatch inm tagged then tagged else ""
  end.

Definition writeNotModified (h : Header) (tagged : string) : Response :=
  mkResponse StatusNotModified (cache_control (HSet "ETag" tagged (HAdd "Vary" "Accept-Encoding" h))) Nothing.

Definition ifRangeHolds `{Unicode} (r : Request) (cond validator : string) : bool :=
  let cond := TrimSpace cond in
  String.eqb cond (codedETag validator EncodingIdentity) ||
  match accepted r with
  | EncodingIdentity => false
  | coding => negb (compressionDisabled r) && String.eqb cond (codedETag validator coding)
  end.

Definition ifRange `{Unicode} (r : Request) (validator : string) : Request :=
  let cond := Get "If-Range" (header r) in
  if is_empty cond || is_empty (Get "Range" (header r)) || ifRangeHolds r cond validator then r
  else mkRequest (HDel "If-Range" (HDel "Range" (header r))) (accepted r) (compressionDisabled r).

(** * A validator reads back *)

Lemma TrimPrefix_app p s : TrimPrefix (p +:+ s) p = s.
Proof. unfold TrimPrefix. by rewrite HasPrefix_app, str_drop_app. Qed.

Lemma str_take_drop n s : str_take n s +:+ str_drop n s = s.
Proof. revert n. induction s as [|c s IH]; intros [|n]; simpl; try done. by rewrite IH. Qed.

Lemma HasSuffix_true s t : HasSuffix s t = true → ∃ p, s = p +:+ t.
Proof.
  unfold HasSuffix. intros [_ H%String.eqb_eq]%andb_true_iff.
  exists (str_take (String.length s - String.length t) s). revert H. generalize (String.length s - String.length t)%nat. intros n <-. by rewrite str_take_drop.
Qed.

Lemma unquote_quoted o : unquote_one (quoted o) = o.
Proof.
  unfold unquote_one, quoted. change (String dquote (o +:+ ?s)) with (String dquote "" +:+ (o +:+ s)).
  by rewrite TrimPrefix_app, TrimSuffix_app.
Qed.

(** A tag without a quote of its own. *)
Definition no_quote (s : string) : Prop := IndexByte s dquote = None.

Lemma no_quote_cons c s : no_quote (String c s) ↔ c ≠ dquote ∧ no_quote s.
Proof.
  unfold no_quote. cbn [IndexByte]. destruct (Ascii.eqb_spec c dquote) as [->|Hc]; [naive_solver|].
  destruct (IndexByte s dquote); naive_solver.
Qed.

Lemma no_quote_app s t : no_quote (s +:+ t) ↔ no_quote s ∧ no_quote t.
Proof.
  induction s as [|c s IH]; [by unfold no_quote; simpl; naive_solver|].
  change (String c s +:+ t) with (String c (s +:+ t)). rewrite !no_quote_cons, IH. naive_solver.
Qed.

Lemma trim_right_quoted o : no_quote o → trim_right_byte dquote (o +:+ String dquote "") = o.
Proof.
  induction o as [|c o IH]; [done|]. intros [Hc Ho]%no_quote_cons.
  change (String c o +:+ ?t) with (String c (o +:+ t)). cbn [trim_right_byte]. rewrite IH by done.
  destruct o; [|done]. by rewrite (proj2 (Ascii.eqb_neq c dquote)).
Qed.

Lemma trim_left_unquoted o : no_quote o → trim_left_byte dquote (o +:+ String dquote "") =
  (if is_empty o then "" else o +:+ String dquote "").
Proof.
  destruct o as [|c o]; [done|]. intros [Hc _]%no_quote_cons. simpl.
  by rewrite (proj2 (Ascii.eqb_neq c dquote)).
Qed.

Lemma trim_quoted o : no_quote o → trim_byte dquote (quoted o) = o.
Proof.
  intros Ho. unfold trim_byte, quoted. cbn [trim_left_byte]. rewrite Ascii.eqb_refl.
  rewrite trim_left_unquoted by done. destruct o; [done|]. by apply trim_right_quoted.
Qed.

(** ** Lists of tags *)

(** A tag a request names: weak or strong, and its opaque part. *)
Abbreviation tag := (bool * string)%type.

Definition rendered (t : tag) : string := (if t.1 then "W/" else "") +:+ quoted t.2.

(** [field] lists the tags, with white space as it likes. *)
Definition lists `{Unicode} (field : string) (tags : list tag) : Prop :=
  field ≠ "" ∧ field ≠ "*" ∧ TrimSpace field ≠ "*" ∧ TrimSpace <$> split_byte "," field = rendered <$> tags.

Lemma TrimPrefix_weak t : TrimPrefix (rendered t) "W/" = quoted t.2.
Proof. destruct t as [[] o]; unfold rendered; cbn [fst snd]; [apply TrimPrefix_app|done]. Qed.

Lemma HasPrefix_weak t : HasPrefix (rendered t) "W/" = t.1.
Proof. destruct t as [[] o]; unfold rendered; cbn [fst snd]; [apply HasPrefix_app|done]. Qed.

(** What a scan of the listed candidates finds. *)
Lemma scan_tags `{Unicode} (f : string → bool) field tags :
  lists field tags → existsb (λ c, f (TrimSpace c)) (split_byte "," field) = existsb (λ t, f (rendered t)) tags.
Proof.
  intros (_ & _ & _ & Hl).
  assert (∀ {A B} (g : A → B) (k : B → bool) l, existsb (λ x, k (g x)) l = existsb k (g <$> l)) as Hm.
  { intros A B g k l. induction l as [|x l IH]; csimpl; [done|by rewrite IH]. }
  by rewrite (Hm _ _ TrimSpace f), Hl, <-Hm.
Qed.

Lemma etagMatch_tags `{Unicode} field tags o :
  lists field tags → etagMatch field (quoted o) = true ↔ ∃ w, (w, o) ∈ tags.
Proof.
  intros Hl. destruct (Hl) as (H1 & H2 & _ & _). unfold etagMatch.
  rewrite (bool_decide_false (field = "*")) by done. destruct (is_empty field) eqn:E; [by apply is_empty_spec in E|].
  rewrite (scan_tags (λ c, String.eqb (unquote_one (TrimPrefix c "W/")) _) _ tags) by done.
  rewrite unquote_quoted, existsb_exists. setoid_rewrite TrimPrefix_weak. setoid_rewrite unquote_quoted.
  setoid_rewrite String.eqb_eq. setoid_rewrite <-list_elem_of_In. split.
  - intros ([w o'] & Hin & Ho). simpl in Ho. subst o'. by exists w.
  - intros [w Hin]. by exists (w, o).
Qed.

Definition unquoted (tags : list tag) : Prop := Forall (λ t, no_quote t.2) tags.

Lemma etagMatchStrong_tags `{Unicode} field tags o :
  lists field tags → unquoted tags → no_quote o →
  etagMatchStrong field (quoted o) = true ↔
  ∃ o', (false, o') ∈ tags ∧ stripCodingSuffix o' = stripCodingSuffix o.
Proof.
  intros Hl Hu Ho. destruct (Hl) as (H1 & _ & H2 & _). unfold etagMatchStrong.
  rewrite (bool_decide_false (TrimSpace field = "*")) by done.
  destruct (is_empty field) eqn:E; [by apply is_empty_spec in E|].
  rewrite (scan_tags (λ c, negb (HasPrefix c "W/") && String.eqb (stripCodingSuffix (trim_byte dquote c)) _) _ tags)
    by done.
  rewrite trim_quoted, existsb_exists by done. setoid_rewrite HasPrefix_weak. setoid_rewrite <-list_elem_of_In.
  unfold unquoted in Hu. rewrite Forall_forall in Hu. split.
  - intros ([w o'] & Hin & [Hw He%String.eqb_eq]%andb_true_iff). destruct w; [done|]. exists o'. split; [done|].
    unfold rendered in He. simpl in He. by rewrite trim_quoted in He by by apply (Hu (false, o')).
  - intros (o' & Hin & He). exists (false, o'). split; [done|]. simpl. unfold rendered. simpl.
    rewrite trim_quoted by by apply (Hu (false, o')). by apply String.eqb_eq.
Qed.

Lemma etagMatchState_tags `{Unicode} field tags o :
  lists field tags → unquoted tags → no_quote o →
  etagMatchState field (quoted o) = true ↔
  ∃ w o', (w, o') ∈ tags ∧ stripCodingSuffix o' = stripCodingSuffix o.
Proof.
  intros Hl Hu Ho. destruct (Hl) as (H1 & _ & H2 & _). unfold etagMatchState.
  rewrite (bool_decide_false (TrimSpace field = "*")) by done.
  destruct (is_empty field) eqn:E; [by apply is_empty_spec in E|].
  rewrite (scan_tags (λ c, String.eqb (stripCodingSuffix (trim_byte dquote (TrimPrefix c "W/"))) _) _ tags) by done.
  rewrite trim_quoted, existsb_exists by done. setoid_rewrite TrimPrefix_weak. setoid_rewrite <-list_elem_of_In.
  unfold unquoted in Hu. rewrite Forall_forall in Hu. split.
  - intros ([w o'] & Hin & He%String.eqb_eq). exists w, o'. split; [done|]. simpl in He.
    by rewrite trim_quoted in He by by apply (Hu (w, o')).
  - intros (w & o' & Hin & He). exists (w, o'). split; [done|]. simpl.
    rewrite trim_quoted by by apply (Hu (w, o')). by apply String.eqb_eq.
Qed.

(** ** Tags of representations *)

(** The opaque part of the tag of a body served under a coding. *)
Definition hash `{Coders} (body : string) : string := hex_EncodeToString (str_take 16 (Sum256 body)).
Definition suffix (c : Encoding) : string :=
  match c with EncodingIdentity => "" | _ => "-" +:+ Encoding_String c end.

Lemma hex_no_byte c s :
  (∀ d, (d < 16)%nat → hex_digit d ≠ c) → IndexByte (hex_EncodeToString s) c = None.
Proof.
  intros Hc. induction s as [|x s IH]; [done|]. cbn [hex_EncodeToString IndexByte].
  pose proof (nat_ascii_bounded x).
  rewrite (proj2 (Ascii.eqb_neq _ _)) by (apply Hc, Nat.Div0.div_lt_upper_bound; lia).
  rewrite (proj2 (Ascii.eqb_neq _ _)) by (apply Hc, Nat.mod_upper_bound; lia). by rewrite IH.
Qed.

Lemma hash_no_byte `{Coders} c b :
  forallb (λ d, negb (Ascii.eqb (hex_digit d) c)) (List.seq 0 16) = true → IndexByte (hash b) c = None.
Proof.
  intros Hf. apply hex_no_byte. intros d Hd <-. rewrite forallb_forall in Hf.
  specialize (Hf d). rewrite in_seq in Hf. specialize (Hf ltac:(lia)). by rewrite Ascii.eqb_refl in Hf.
Qed.

Lemma coded_tag `{Coders} b c : codedETag (computeETag b) c = quoted (hash b +:+ suffix c).
Proof.
  change (computeETag b) with (quoted (hash b)).
  destruct c; cbn [codedETag suffix]; [by rewrite str_app_nil|rewrite trim_quoted; [done|by apply hash_no_byte]..].
Qed.

Lemma IndexByte_app_r c s t : IndexByte (s +:+ String c t) c ≠ None.
Proof.
  induction s as [|d s IH]; simpl; [by rewrite Ascii.eqb_refl|].
  destruct (Ascii.eqb d c); [done|]. by destruct (IndexByte _ c).
Qed.

Lemma IndexByte_app_none c s t : IndexByte (s +:+ t) c = None ↔ IndexByte s c = None ∧ IndexByte t c = None.
Proof.
  induction s as [|d s IH]; simpl; [naive_solver|].
  destruct (Ascii.eqb d c); [naive_solver|]. destruct (IndexByte (s +:+ t) c), (IndexByte s c); naive_solver.
Qed.

Lemma str_app_inj_r a b s t : String.length s = String.length t → a +:+ s = b +:+ t → a = b ∧ s = t.
Proof.
  intros Hl He. apply str_app_inj; [|done]. apply (f_equal String.length) in He. rewrite !str_length_app in He. lia.
Qed.

Lemma CutSuffix_app s t : CutSuffix (s +:+ t) t = Some s.
Proof. unfold CutSuffix. by rewrite HasSuffix_app, TrimSuffix_app. Qed.

Lemma CutSuffix_none s c t : IndexByte s c = None → CutSuffix s (String c t) = None.
Proof.
  intros Hn. unfold CutSuffix. destruct (HasSuffix s (String c t)) eqn:E; [|done].
  apply HasSuffix_true in E as [p ->]. by destruct (IndexByte_app_r c p t).
Qed.

(** A precondition compares what the tags of all codings share. *)
Lemma strip_coded `{Coders} b c : stripCodingSuffix (hash b +:+ suffix c) = hash b.
Proof.
  assert (IndexByte (hash b) "-" = None) as Hd by by apply hash_no_byte.
  unfold stripCodingSuffix, knownCodingSuffixes. cbn [omap list_omap]. destruct c; cbn [suffix Encoding_String].
  - rewrite str_app_nil, !CutSuffix_none by done. done.
  - change ("-" +:+ "gzip") with "-gzip". rewrite CutSuffix_app.
    destruct (CutSuffix (hash b +:+ "-gzip") "-zstd") eqn:E; [|done]. unfold CutSuffix in E.
    destruct (HasSuffix _ _) eqn:Eh; [|done]. apply HasSuffix_true in Eh as [p Hp].
    by apply str_app_inj_r in Hp as [_ ?].
  - change ("-" +:+ "zstd") with "-zstd". by rewrite CutSuffix_app.
Qed.

Lemma coded_no_quote `{Coders} b c : no_quote (hash b +:+ suffix c).
Proof. apply no_quote_app. split; [by apply hash_no_byte|by destruct c]. Qed.

(** Two representations share a tag only with the same body and coding. *)
Lemma coded_inj `{Coders} b c b' c' :
  hash b +:+ suffix c = hash b' +:+ suffix c' → hash b = hash b' ∧ c = c'.
Proof.
  intros He. assert (hash b = hash b') as Hh by (rewrite <-(strip_coded b c), <-(strip_coded b' c'); congruence).
  split; [done|]. rewrite Hh in He. apply str_app_inj in He as [_ He]; [|done]. by destruct c, c'.
Qed.

(** A representation as a client names it: weakly or not, a body and the coding
    it was served under. *)
Abbreviation representation := (bool * string * Encoding)%type.

Definition named `{Coders} (p : representation) : tag := (p.1.1, hash p.1.2 +:+ suffix p.2).

Lemma named_unquoted `{Coders} reps : unquoted (named <$> reps).
Proof. apply Forall_fmap, Forall_true. intros [[w b] c]. apply coded_no_quote. Qed.

Lemma named_exact `{Coders} (reps : list representation) b c :
  (∃ w, (w, hash b +:+ suffix c) ∈ named <$> reps) ↔ ∃ w b', (w, b', c) ∈ reps ∧ hash b' = hash b.
Proof.
  split.
  - intros [w ([[w' b'] c'] & [= -> He] & Hin)%list_elem_of_fmap].
    apply coded_inj in He as [He ->]. by exists w', b'.
  - intros (w & b' & Hin & He). exists w. apply list_elem_of_fmap. exists (w, b', c). split; [|done].
    unfold named. simpl. by rewrite He.
Qed.

Lemma named_state `{Coders} (P : bool → Prop) (reps : list representation) b c :
  (∃ w o, P w ∧ (w, o) ∈ named <$> reps ∧ stripCodingSuffix o = stripCodingSuffix (hash b +:+ suffix c)) ↔
  ∃ w b' c', P w ∧ (w, b', c') ∈ reps ∧ hash b' = hash b.
Proof.
  rewrite strip_coded. split.
  - intros (w & o & Hw & ([[w' b'] c'] & [= -> ->] & Hin)%list_elem_of_fmap & He).
    rewrite strip_coded in He. by exists w', b', c'.
  - intros (w & b' & c' & Hw & Hin & He). exists w, (hash b' +:+ suffix c'). split; [done|]. split.
    + apply list_elem_of_fmap. by exists (w, b', c').
    + by rewrite strip_coded.
Qed.

(** * What a conditional request gets *)

(** The coding a body is served under. *)
Definition coding_of (r : Request) (body : string) : Encoding := (negotiateCoding ∅ r body).2.

Lemma negotiate_coding h r body : (negotiateCoding h r body).2 = coding_of r body.
Proof.
  unfold coding_of, negotiateCoding. destruct (compressionDisabled r); [done|].
  destruct (_ <? _); [done|]. by destruct (accepted r).
Qed.

Lemma Get_HSet k k' v h : Get k (HSet k' v h) = if bool_decide (k' = k) then v else Get k h.
Proof.
  unfold Get, HSet. case_bool_decide; subst; [by rewrite lookup_insert_eq|by rewrite lookup_insert_ne].
Qed.

Lemma Get_cache_control k h : k ≠ "Cache-Control" → Get k (cache_control h) = Get k h.
Proof. intros Hk. unfold cache_control. destruct (is_empty _); [|done]. by rewrite Get_HSet, bool_decide_false. Qed.

Lemma unconditional `{Unicode, HTTPDates} now r etag m :
  Get "If-Match" (header r) = "" → Get "If-Unmodified-Since" (header r) = "" → preconditionFailed now r etag m = "".
Proof. unfold preconditionFailed, modifiedAfter. by intros -> ->. Qed.

Lemma raw_answer `{Unicode, HTTPDates, Coders} now h r b :
  Get "If-Match" (header r) = "" → Get "If-Unmodified-Since" (header r) = "" →
  let resp := writeRawWithETag now h r b in
  Get "ETag" (Headers resp) = codedETag (computeETag b) (coding_of r b) ∧
  (Status resp, Sent resp) =
    if etagMatch (Get "If-None-Match" (header r)) (codedETag (computeETag b) (coding_of r b))
    then (StatusNotModified, Nothing) else (StatusOK, Bytes (encodeBody b (coding_of r b))).
Proof.
  intros Him Hius. unfold writeRawWithETag, writeRawWithPrecomputedETag, writeRawNegotiated.
  rewrite <-(negotiate_coding h). destruct (negotiateCoding h r b) as [h' c]. cbn [snd].
  unfold refusedByPrecondition. rewrite unconditional by done. cbn [is_empty].
  destruct (etagMatch _ _); cbn [Headers Status Sent]; by rewrite Get_cache_control, Get_HSet, bool_decide_true.
Qed.

Lemma reason_empty (b : bool) (s : string) : s ≠ "" → (if b then s else "") = "" ↔ b = false.
Proof. by destruct b. Qed.

(** If-Match passes exactly when a representation named strongly is of the body. *)
Lemma if_match_named `{Unicode, HTTPDates, Coders} now r b m (reps : list representation) :
  lists (Get "If-Match" (header r)) (named <$> reps) →
  preconditionFailed now r (computeETag b) m = "" ↔ ∃ b' c', (false, b', c') ∈ reps ∧ hash b' = hash b.
Proof.
  intros Hl. pose proof (named_unquoted reps) as Hu. pose proof (coded_no_quote b EncodingIdentity) as Hq.
  rewrite str_app_nil in Hq. unfold preconditionFailed. destruct (Hl) as (Hne & _).
  destruct (is_empty _) eqn:E; [by apply is_empty_spec in E|]. cbn [negb]. rewrite reason_empty by done.
  change (computeETag b) with (quoted (hash b)).
  pose proof (etagMatchStrong_tags _ _ (hash b) Hl Hu Hq) as Hs.
  pose proof (named_state (λ w, w = false) reps b EncodingIdentity) as Hn.
  cbn [suffix] in Hn. rewrite str_app_nil in Hn. rewrite negb_false_iff, Hs. split.
  - intros (o & Hin & Ho). destruct (proj1 Hn) as (w & b' & c' & -> & ?); [by exists false, o|].
    by exists b', c'.
  - intros (b' & c' & Hin & Hb). destruct (proj2 Hn) as (w & o & -> & ?); [by exists false, b', c'|].
    by exists o.
Qed.

(** C33: conditional requests decide what they say they do. A client that names
    representations it was served, weakly or strongly and under whatever coding,
    gets a 304 for a GET exactly when one of them is the body it would be sent
    now, in the coding it would be sent in, and that body otherwise; its write
    passes If-Match exactly when one it names strongly is of the current body,
    whatever coding it read it under, and If-None-Match exactly when none is. *)
Theorem conditional_exact `{Unicode, HTTPDates, Coders} now h r b m (reps : list representation) :
  let resp := writeRawWithETag now h r b in
  let c := coding_of r b in
  (Get "If-Match" (header r) = "" → Get "If-Unmodified-Since" (header r) = "" →
   lists (Get "If-None-Match" (header r)) (named <$> reps) →
     Get "ETag" (Headers resp) = codedETag (computeETag b) c ∧
     (Status resp = StatusNotModified ∧ Sent resp = Nothing ∨
      Status resp = StatusOK ∧ Sent resp = Bytes (encodeBody b c)) ∧
     (Status resp = StatusNotModified ↔ ∃ w b', (w, b', c) ∈ reps ∧ hash b' = hash b) ∧
     (writePreconditionFailed now r (computeETag b) m = "" ↔
        ¬ ∃ w b' c', (w, b', c') ∈ reps ∧ hash b' = hash b)) ∧
  (lists (Get "If-Match" (header r)) (named <$> reps) →
     preconditionFailed now r (computeETag b) m = "" ↔ ∃ b' c', (false, b', c') ∈ reps ∧ hash b' = hash b).
Proof.
  intros resp c. pose proof (named_unquoted reps) as Hu. pose proof (coded_no_quote b EncodingIdentity) as Hq.
  rewrite str_app_nil in Hq. split.
  - intros Him Hius Hl. destruct (raw_answer now h r b Him Hius) as [He Ha]. fold resp c in He, Ha.
    rewrite coded_tag in Ha. split; [done|].
    pose proof (etagMatch_tags _ _ (hash b +:+ suffix c) Hl) as Hm. rewrite named_exact in Hm.
    split; [destruct (etagMatch _ _); injection Ha as -> ->; auto|]. split.
    + rewrite <-Hm. destruct (etagMatch _ _); injection Ha as -> _; by unfold StatusNotModified, StatusOK.
    + unfold writePreconditionFailed. rewrite unconditional by done. cbn [is_empty negb].
      rewrite reason_empty by done. change (computeETag b) with (quoted (hash b)).
      pose proof (etagMatchState_tags _ _ (hash b) Hl Hu Hq) as Hs.
      pose proof (named_state (λ _, True) reps b EncodingIdentity) as Hn.
      cbn [suffix] in Hn. rewrite str_app_nil in Hn.
      rewrite <-not_true_iff_false, Hs. apply not_iff_compat. split.
      * intros (w & o & Hin & Ho). destruct (proj1 Hn) as (w' & b' & c' & _ & ?); [by exists w, o|].
        by exists w', b', c'.
      * intros (w & b' & c' & Hin & Hb). destruct (proj2 Hn) as (w' & o & _ & ?); [by exists w, b', c'|].
        by exists w', o.
  - apply if_match_named.
Qed.

(** The arguments of the closed examples. *)
Definition demo_dates : HTTPDates := {| ParseTime _ := None; FormatTime _ := "" |}.
Definition demo_coders : Coders := {| Sum256 s := s; compress _ s := s |}.
Definition demo_reps : list representation :=
  [(false, "the first body", EncodingGzip); (true, "the second body", EncodingIdentity)].
Definition demo_field : string := Join (rendered <$> (@named demo_coders <$> demo_reps)) " , ".
Definition demo_request (k : string) : Request := mkRequest {[k := [demo_field]]} EncodingGzip false.

Lemma conditional_exact_witness :
  let resp := @writeRawWithETag ascii_unicode demo_dates demo_coders 5 ∅ (demo_request "If-None-Match") in
  Status (resp "the second body") = StatusNotModified ∧ Status (resp "the first body") = StatusOK ∧
  @preconditionFailed ascii_unicode demo_dates 5 (demo_request "If-Match")
    (@computeETag demo_coders "the first body") 0 = "" ∧
  @preconditionFailed ascii_unicode demo_dates 5 (demo_request "If-Match")
    (@computeETag demo_coders "the second body") 0 ≠ "".
Proof.
  assert (@lists ascii_unicode demo_field (@named demo_coders <$> demo_reps)) as Hl
    by (repeat split; first [discriminate|reflexivity]).
  pose proof (λ b, @conditional_exact ascii_unicode demo_dates demo_coders 5 ∅ (demo_request "If-None-Match")
    b 0 demo_reps) as Hget.
  pose proof (λ b, @conditional_exact ascii_unicode demo_dates demo_coders 5 ∅ (demo_request "If-Match")
    b 0 demo_reps) as Hput.
  split; [|split; [|split]].
  - destruct (Hget "the second body") as [Hg _]. destruct (Hg eq_refl eq_refl Hl) as (_ & _ & Hs & _).
    apply Hs. exists true, "the second body". split; [right; left|done].
  - destruct (Hget "the first body") as [Hg _]. destruct (Hg eq_refl eq_refl Hl) as (_ & [[? _]|[? _]] & _); [|done].
    vm_compute in H. discriminate.
  - destruct (Hput "the first body") as [_ Hp]. apply (Hp Hl). exists "the first body", EncodingGzip. split; [left|done].
  - destruct (Hput "the second body") as [_ Hp]. intros H. apply (Hp Hl) in H as (b & c & Hin & Hh).
    apply elem_of_cons in Hin as [[= -> ->]|Hin]; [vm_compute in Hh; discriminate|].
    by apply list_elem_of_singleton in Hin.
Defined.
