(* ===== verification/ConditionalWrites.v ===== *)
(** Conditional writes end to end: the [conditional] middleware of
    internal/api/precondition.go, the versioned writers of
    internal/docker/client.go with checkPinned of version.go, and the answer of
    internal/api/write_helpers.go, over an engine others write to and a cache
    that follows it.

    One kind of resource is modelled at a time. The engine is a parameter the
    machine stands in for: it holds a versioned record per ID, a write names the
    version it read and is refused when the record has moved on, a write makes
    the version greater, and an ID is never used again. The cache takes reads of
    the engine in any order, keeping the newer version, and drops a record only
    after the engine has; a client names an ID the engine gave out. The handlers
    have a refresher, as main.go gives them. The steps of requests, of other writers and of the
    cache interleave freely. *)
From S2P Require Import Prelude GoStrings GoURL GoStrconv Conditional.
#[local] Open Scope string_scope.
#[local] Open Scope Z_scope.

(** cluster/conditional.go *)
Definition Versioned (kind : string) : bool :=
  bool_decide (kind = "service") || bool_decide (kind = "node") || bool_decide (kind = "config") ||
  bool_decide (kind = "secret").

(** version.go: a write's refusal, when the version pinned is not the one just read. *)
Definition checkPinned (pinned : option Z) (read : Z) : option (Z * Z) :=
  match pinned with
  | Some pinned => if bool_decide (pinned = read) then None else Some (pinned, read)
  | None => None
  end.

(** What a representation renders to: nothing, for errNoRepresentation. *)
Inductive rendering := NoRepresentation | RenderFailed (unavailable : bool) | Rendered (body : string).

Section Writes.
Context `{Unicode, HTTPDates, Coders}.

(** What the records of the kind hold, what else a representation is made of
    (grants, other records), how it is rendered, and when it says it was last
    modified. *)
Context {T W : Type} (kind : string) (represent : W → T → rendering) (modified : T → Z).

Record record := mkRecord { Version : Z; Value : T }.

(** A write request to the record [w_id] names: what its handler makes of the
    record, or the code it refuses with, and whether its path serves a GET. *)
Record write := mkWrite {
  w_request : Request;
  w_id : string;
  w_represented : bool;
  w_mutate : T → string + T;
}.

(** What was written: the version pinned, the representation the condition was
    evaluated against with the time it was, and the record before and after. *)
Inductive answer :=
| Refused (code : string)
| Wrote (pin : option Z) (checked : option (string * Z * Z)) (old new : record).

(** Where a request is: before refreshSubject, pinSubjectVersion and the
    representation, in its handler, and between the writer's read and write. *)
Inductive phase :=
| Refreshing
| Pinning
| Validating (pin : option Z)
| Handling (pin : option Z) (checked : option (string * Z * Z))
| Updating (pin : option Z) (checked : option (string * Z * Z)) (read : record) (new : T)
| Answered (a : answer).

Record State := mkState {
  engine : gmap string record;
  seen : list (string * record);          (* every record the engine ever held *)
  cached : gmap string record;
  requests : list (write * phase);
}.

Inductive action :=
| EngineCreates (id : string) (r : record)
| EngineWrites (id : string) (r : record)
| EngineRemoves (id : string)
| CacheLearns (id : string) (version : Z) (* a read, event or sync lands *)
| CacheDrops (id : string)
| Receive (w : write)
| Refresh (n : nat) (err : option bool)   (* [Some unavailable] when it fails *)
| Pin (n : nat)
| Validate (n : nat) (world : W) (now : Z)
| Inspect (n : nat)
| Update (n : nat) (version : Z).         (* the version the engine gives *)

(** ** One step of a request *)

(** [conditional] begins: a request without a condition goes to its handler. *)
Definition begin (w : write) : phase :=
  let h := header (w_request w) in
  if is_empty (Get "If-Match" h) && is_empty (Get "If-None-Match" h) && is_empty (Get "If-Unmodified-Since" h)
  then Handling None None else Refreshing.

(** SetService and its kind: the newer of the two. *)
Definition learn (id : string) (r : record) (cached : gmap string record) : gmap string record :=
  match cached !! id with
  | Some held => if Version r <? Version held then cached else <[id := r]> cached
  | None => <[id := r]> cached
  end.

(** refreshSubject through Refresh: the record as the engine has it now, or gone. *)
Definition refreshSubject (id : string) (e c : gmap string record) : gmap string record :=
  match e !! id with Some r => learn id r c | None => delete id c end.

Definition pinSubjectVersion (id : string) (c : gmap string record) : option Z :=
  if Versioned kind then Version <$> c !! id else None.

(** The representation, then the condition. *)
Definition evaluate (w : write) (pin : option Z) (world : W) (now : Z) (c : gmap string record) : phase :=
  match c !! w_id w with
  | None => Handling None None
  | Some r =>
  match represent world (Value r) with
  | NoRepresentation => Handling None None
  | RenderFailed unavailable => Answered (Refused (if unavailable then "ENG001" else "ENG004"))
  | Rendered body =>
      if negb (w_represented w) then
        if negb (is_empty (Get "If-Match" (header (w_request w)))) then Answered (Refused "API013")
        else Handling None None
      else
        let reason := writePreconditionFailed now (w_request w) (computeETag body) (modified (Value r)) in
        if is_empty reason then Handling pin (Some (body, modified (Value r), now))
        else Answered (Refused "API013")
  end end.

(** updateService and the writers of its shape, up to the write: the live record
    is read, its version checked against the one pinned, and changed. *)
Definition updateRecord (w : write) (pin : option Z) (checked : option (string * Z * Z))
    (e : gmap string record) : phase :=
  match e !! w_id w with
  | None => Answered (Refused "not found")
  | Some r =>
      match checkPinned pin (Version r) with
      | Some _ => Answered (Refused (if bool_decide (is_Some pin) then "API013" else "conflict"))
      | None =>
          match w_mutate w (Value r) with
          | inl code => Answered (Refused code)
          | inr new => Updating pin checked r new
          end
      end
  end.

(** ** The machine *)

Definition with_request (n : nat) (p : phase) (s : State) : State :=
  mkState (engine s) (seen s) (cached s) (alter (λ '(w, _), (w, p)) n (requests s)).

Definition engine_holds (id : string) (r : record) (s : State) : State :=
  mkState (<[id := r]> (engine s)) ((id, r) :: seen s) (cached s) (requests s).

Definition perform_write (a : action) (s : State) : option State :=
  match a with
  | EngineCreates id r =>
      if bool_decide (id ∈ (seen s).*1) then None else Some (engine_holds id r s)
  | EngineWrites id r =>
      old ← engine s !! id;
      if Version old <? Version r then Some (engine_holds id r s) else None
  | EngineRemoves id => Some (mkState (delete id (engine s)) (seen s) (cached s) (requests s))
  | CacheLearns id version =>
      '(_, r) ← List.find (λ q, bool_decide (q.1 = id) && (Version q.2 =? version)) (seen s);
      Some (mkState (engine s) (seen s) (learn id r (cached s)) (requests s))
  | CacheDrops id =>
      match engine s !! id with
      | Some _ => None
      | None => Some (mkState (engine s) (seen s) (delete id (cached s)) (requests s))
      end
  | Receive w =>
      if bool_decide (w_id w ∈ (seen s).*1)
      then Some (mkState (engine s) (seen s) (cached s) (requests s ++ [(w, begin w)])%list) else None
  | Refresh n err =>
      match requests s !! n with
      | Some (w, Refreshing) =>
          match err with
          | Some unavailable => Some (with_request n (Answered (Refused (if unavailable : bool then "ENG001" else "ENG004"))) s)
          | None =>
              Some (with_request n Pinning
                (mkState (engine s) (seen s) (refreshSubject (w_id w) (engine s) (cached s)) (requests s)))
          end
      | _ => None
      end
  | Pin n =>
      match requests s !! n with
      | Some (w, Pinning) => Some (with_request n (Validating (pinSubjectVersion (w_id w) (cached s))) s)
      | _ => None
      end
  | Validate n world now =>
      match requests s !! n with
      | Some (w, Validating pin) => Some (with_request n (evaluate w pin world now (cached s)) s)
      | _ => None
      end
  | Inspect n =>
      match requests s !! n with
      | Some (w, Handling pin checked) => Some (with_request n (updateRecord w pin checked (engine s)) s)
      | _ => None
      end
  | Update n version =>
      match requests s !! n with
      | Some (w, Updating pin checked read new) =>
          match engine s !! w_id w with
          | Some r =>
              if negb (Version r =? Version read) then
                Some (with_request n (Answered (Refused (if bool_decide (is_Some pin) then "API013" else "conflict"))) s)
              else if Version r <? version then
                let new := mkRecord version new in
                Some (with_request n (Answered (Wrote pin checked r new)) (engine_holds (w_id w) new s))
              else None
          | None => Some (with_request n (Answered (Refused "not found")) s)
          end
      | _ => None
      end
  end.

Fixpoint run_writes (l : list action) (s : State) : option State :=
  match l with
  | [] => Some s
  | a :: l => s ← perform_write a s; run_writes l s
  end.

(** Before any request the cache holds reads of what the engine held. *)
Definition start (e c : gmap string record) : State := mkState e (map_to_list e ++ map_to_list c) c [].

Definition earlier_reads (e c : gmap string record) : Prop :=
  ∀ id r r', c !! id = Some r → e !! id = Some r' → Version r < Version r' ∨ r = r'.

(** * What is kept *)

(** The condition of [w] held for what the cache had of its record: a version no
    older than the one pinned, unless the engine has removed it. *)
Definition was_checked (s : State) (w : write) (v : Z) (checked : option (string * Z * Z)) : Prop :=
  ∃ body m now, checked = Some (body, m, now) ∧
    writePreconditionFailed now (w_request w) (computeETag body) m = "" ∧
    ∀ e, engine s !! w_id w = Some e →
      ∃ r world, (w_id w, r) ∈ seen s ∧ v ≤ Version r ∧
        represent world (Value r) = Rendered body ∧ m = modified (Value r).

(** Why a request reaches its handler without a condition evaluated. *)
Definition unchecked (s : State) (w : write) : Prop :=
  begin w = Handling None None ∨ w_represented w = false ∨ engine s !! w_id w = None ∨
  ∃ r world, (w_id w, r) ∈ seen s ∧ represent world (Value r) = NoRepresentation.

Definition handled (s : State) (w : write) (pin : option Z) (checked : option (string * Z * Z)) : Prop :=
  match pin with
  | Some v => was_checked s w v checked
  | None => (checked = None ∧ unchecked s w) ∨ engine s !! w_id w = None
  end.

(** [checked] is the representation of the record overwritten. *)
Definition written (s : State) (w : write) (pin : option Z) (checked : option (string * Z * Z))
    (old new : record) : Prop :=
  w_mutate w (Value old) = inr (Value new) ∧ Version old < Version new ∧
  match checked with
  | Some (body, m, now) =>
      pin = Some (Version old) ∧
      writePreconditionFailed now (w_request w) (computeETag body) m = "" ∧
      ∃ world, represent world (Value old) = Rendered body ∧ m = modified (Value old)
  | None =>
      begin w = Handling None None ∨ w_represented w = false ∨
      ∃ r world, (w_id w, r) ∈ seen s ∧ represent world (Value r) = NoRepresentation
  end.

Definition phase_ok (s : State) (w : write) (p : phase) : Prop :=
  match p with
  | Refreshing => True
  | Pinning => ∀ e, engine s !! w_id w = Some e → is_Some (cached s !! w_id w)
  | Validating (Some v) =>
      ∀ e, engine s !! w_id w = Some e → ∃ c, cached s !! w_id w = Some c ∧ v ≤ Version c
  | Validating None => engine s !! w_id w = None
  | Handling pin checked => handled s w pin checked
  | Updating pin checked read new =>
      handled s w pin checked ∧ w_mutate w (Value read) = inr new ∧
      (w_id w, read) ∈ seen s ∧ ∀ v, pin = Some v → Version read = v
  | Answered (Refused _) => True
  | Answered (Wrote pin checked old new) => written s w pin checked old new
  end.

Record ok (s : State) : Prop := {
  ok_current id r q : engine s !! id = Some r → (id, q) ∈ seen s →
    Version q ≤ Version r ∧ (Version q = Version r → q = r);
  ok_engine id r : engine s !! id = Some r → (id, r) ∈ seen s;
  ok_cached id r : cached s !! id = Some r → (id, r) ∈ seen s;
  ok_named n w p : requests s !! n = Some (w, p) → w_id w ∈ (seen s).*1;
  ok_requests n w p : requests s !! n = Some (w, p) → phase_ok s w p;
}.

(** ** Steps only add *)

(** The engine only adds records, never takes an ID back, and the cache's copies
    of what it holds get no older. *)
Record later (s s' : State) : Prop := {
  later_seen q : q ∈ seen s → q ∈ seen s';
  later_gone id : id ∈ (seen s).*1 → engine s !! id = None → engine s' !! id = None;
  later_cached id c : is_Some (engine s' !! id) → cached s !! id = Some c →
    ∃ c', cached s' !! id = Some c' ∧ Version c ≤ Version c';
}.

Lemma later_refl s : later s s.
Proof. split; [done|done|]. intros id c _ Hc. by exists c. Qed.

Lemma later_engine s s' id e :
  later s s' → id ∈ (seen s).*1 → engine s' !! id = Some e → is_Some (engine s !! id).
Proof.
  intros Hl Hid He. destruct (engine s !! id) eqn:E; [by eexists|].
  by rewrite (later_gone _ _ Hl id Hid E) in He.
Qed.

Lemma was_checked_later s s' w v checked :
  later s s' → w_id w ∈ (seen s).*1 → was_checked s w v checked → was_checked s' w v checked.
Proof.
  intros Hl Hid (body & m & now & -> & Hp & He). exists body, m, now. split; [done|]. split; [done|].
  intros e He'. destruct (later_engine _ _ _ _ Hl Hid He') as [e0 He0].
  destruct (He e0 He0) as (r & world & Hr & ?). exists r, world. split; [by apply (later_seen _ _ Hl)|done].
Qed.

Lemma unchecked_later s s' w :
  later s s' → w_id w ∈ (seen s).*1 → unchecked s w → unchecked s' w.
Proof.
  intros Hl Hid [?|[?|[Hn|(r & world & Hr & ?)]]]; [by left|by right; left| |].
  - right; right; left. by apply (later_gone _ _ Hl).
  - right; right; right. exists r, world. split; [by apply (later_seen _ _ Hl)|done].
Qed.

Lemma handled_later s s' w pin checked :
  later s s' → w_id w ∈ (seen s).*1 → handled s w pin checked → handled s' w pin checked.
Proof.
  intros Hl Hid. destruct pin as [v|]; [by apply was_checked_later|].
  intros [[? ?]|?]; [left; split; [done|by eapply unchecked_later]|right; by apply (later_gone _ _ Hl)].
Qed.

Lemma phase_later s s' w p :
  later s s' → w_id w ∈ (seen s).*1 → phase_ok s w p → phase_ok s' w p.
Proof.
  intros Hl Hid. destruct p as [| |[v|]|pin checked|pin checked read new|[code|pin checked old new]]; simpl; try done.
  - intros Hp e He. destruct (later_engine _ _ _ _ Hl Hid He) as [e0 He0].
    destruct (Hp e0 He0) as [c Hc]. destruct (later_cached _ _ Hl _ _ (ex_intro _ e He) Hc) as (c' & ? & _). by exists c'.
  - intros Hp e He. destruct (later_engine _ _ _ _ Hl Hid He) as [e0 He0].
    destruct (Hp e0 He0) as (c & Hc & Hv). destruct (later_cached _ _ Hl _ _ (ex_intro _ e He) Hc) as (c' & ? & ?).
    exists c'. split; [done|lia].
  - by apply (later_gone _ _ Hl).
  - by apply handled_later.
  - intros (Hh & Hm & Hr & Hv). split; [by eapply handled_later|]. split; [done|]. split; [|done].
    by apply (later_seen _ _ Hl).
  - intros (Hm & Hv & Hc). split; [done|]. split; [done|]. destruct checked as [[[body m] now]|]; [done|].
    destruct Hc as [?|[?|(r & world & Hr & ?)]]; [by left|by right; left|].
    right; right. exists r, world. split; [by apply (later_seen _ _ Hl)|done].
Qed.

(** ** Each step keeps it *)

Lemma learn_le id r c0 (c : gmap string record) : c !! id = Some c0 →
  ∃ c', learn id r c !! id = Some c' ∧ Version c0 ≤ Version c'.
Proof.
  intros Hc. unfold learn. rewrite Hc. destruct (Z.ltb_spec (Version r) (Version c0)).
  - exists c0. by split.
  - exists r. split; [apply lookup_insert_eq|lia].
Qed.

Lemma learn_ne id id' r (c : gmap string record) : id' ≠ id → learn id r c !! id' = c !! id'.
Proof.
  intros Hn. unfold learn. destruct (c !! id) as [held|]; [destruct (_ <? _); [done|]|]; by rewrite lookup_insert_ne.
Qed.

Lemma learn_is id r (c : gmap string record) : is_Some (learn id r c !! id).
Proof.
  unfold learn. destruct (c !! id) as [held|] eqn:E; [destruct (_ <? _)|]; [by eexists|by rewrite lookup_insert_eq..].
Qed.

Lemma learn_from id id' r x (c : gmap string record) :
  learn id r c !! id' = Some x → c !! id' = Some x ∨ (id' = id ∧ x = r).
Proof.
  destruct (decide (id' = id)) as [->|]; [|rewrite learn_ne by done; by left].
  unfold learn. destruct (c !! id) as [held|] eqn:E; [destruct (_ <? _); [rewrite E; by left|]|];
    rewrite lookup_insert_eq; intros [= ->]; by right.
Qed.

Lemma requests_with n p s k w q :
  requests (with_request n p s) !! k = Some (w, q) →
  (k = n ∧ q = p ∧ ∃ p0, requests s !! n = Some (w, p0)) ∨ requests s !! k = Some (w, q).
Proof.
  unfold with_request. simpl. destruct (decide (k = n)) as [->|Hn].
  - rewrite list_lookup_alter_eq. destruct (requests s !! n) as [[w0 p0]|] eqn:E; [|done]. simpl.
    intros [= <- <-]. left. eauto.
  - rewrite list_lookup_alter_ne by done. by right.
Qed.

(** A step that changes the engine or the cache as [later] allows, and no
    request. *)
Lemma ok_keeps s s' :
  later s s' → requests s' = requests s →
  (∀ id r q, engine s' !! id = Some r → (id, q) ∈ seen s' →
    Version q ≤ Version r ∧ (Version q = Version r → q = r)) →
  (∀ id r, engine s' !! id = Some r → (id, r) ∈ seen s') →
  (∀ id r, cached s' !! id = Some r → (id, r) ∈ seen s') →
  ok s → ok s'.
Proof.
  intros Hl Hr H1' H2' H3' Hok. split; [done..| |]; intros n w p; rewrite Hr; intros Hn.
  - apply (ok_named _ Hok) in Hn. apply list_elem_of_fmap in Hn as ([id r] & -> & Hin).
    apply list_elem_of_fmap. exists (id, r). split; [done|by apply (later_seen _ _ Hl)].
  - eapply phase_later; [done|by eapply ok_named|by eapply ok_requests].
Qed.

(** A step of one request. *)
Lemma ok_request s n w p p' :
  requests s !! n = Some (w, p) → phase_ok s w p' → ok s → ok (with_request n p' s).
Proof.
  intros Hn Hp Hok. split; try apply Hok.
  - intros k w' q [(-> & -> & p0 & Hw)|Hq]%requests_with; by eapply (ok_named _ Hok).
  - intros k w' q [(-> & -> & p0 & Hw)|Hq]%requests_with; [|by eapply (ok_requests _ Hok)].
    rewrite Hn in Hw. by injection Hw as <- <-.
Qed.

Lemma engine_holds_ok s id r :
  (∀ q, (id, q) ∈ seen s → Version q < Version r) →
  (engine s !! id = None → id ∉ (seen s).*1) →
  ok s → later s (engine_holds id r s) ∧ ok (engine_holds id r s).
Proof.
  intros Hnew Hid Hok.
  assert (later s (engine_holds id r s)) as Hl.
  { split; simpl.
    - intros q Hq. by right.
    - intros id' Hin He. destruct (decide (id' = id)) as [->|]; [by destruct (Hid He)|by rewrite lookup_insert_ne].
    - intros id' c _ Hc. by exists c. }
  split; [done|]. apply (ok_keeps s); simpl; try done.
  - intros id' r' q Hr' Hq. destruct (decide (id' = id)) as [->|Hne].
    + rewrite lookup_insert_eq in Hr'. injection Hr' as <-.
      apply elem_of_cons in Hq as [[= ->]|Hq]; [split; [lia|done]|]. specialize (Hnew q Hq). split; [lia|lia].
    + rewrite lookup_insert_ne in Hr' by done. apply elem_of_cons in Hq as [[= ? _]|Hq]; [done|].
      by eapply ok_current.
  - intros id' r' Hr'. destruct (decide (id' = id)) as [->|Hne].
    + rewrite lookup_insert_eq in Hr'. injection Hr' as <-. by left.
    + rewrite lookup_insert_ne in Hr' by done. right. by apply (ok_engine _ Hok).
  - intros id' r' Hr'. right. by apply (ok_cached _ Hok).
Qed.

Lemma refresh_later s id : later s
  (mkState (engine s) (seen s) (refreshSubject id (engine s) (cached s)) (requests s)).
Proof.
  split; simpl; [done|done|]. intros id' c [e He] Hc. unfold refreshSubject.
  destruct (engine s !! id) as [r|] eqn:E.
  - destruct (decide (id' = id)) as [->|Hne]; [by apply learn_le|rewrite learn_ne by done; by exists c].
  - assert (id' ≠ id) by congruence. rewrite lookup_delete_ne by done. by exists c.
Qed.

Lemma refresh_ok s id : ok s →
  ok (mkState (engine s) (seen s) (refreshSubject id (engine s) (cached s)) (requests s)).
Proof.
  intros Hok. apply (ok_keeps s); try by apply Hok || apply refresh_later.
  - done.
  - simpl. intros id' r. unfold refreshSubject. destruct (engine s !! id) as [e|] eqn:E.
    + intros [Hc|[-> ->]]%learn_from; [by apply (ok_cached _ Hok)|by apply (ok_engine _ Hok)].
    + intros [_ Hc]%lookup_delete_Some. by apply (ok_cached _ Hok).
Qed.

Lemma evaluate_ok s w pin world now :
  ok s → w_id w ∈ (seen s).*1 → phase_ok s w (Validating pin) → phase_ok s w (evaluate w pin world now (cached s)).
Proof.
  intros Hok Hid Hpin. unfold evaluate. destruct (cached s !! w_id w) as [r|] eqn:Ec.
  2:{ left. split; [done|]. right; right; left. destruct (engine s !! w_id w) as [e|] eqn:Ee; [|done].
      destruct pin as [v|]; [|by simpl in Hpin; rewrite Ee in Hpin].
      destruct (Hpin e Ee) as (c & Hc & _). congruence. }
  destruct (represent world (Value r)) as [|unavailable|body] eqn:Er; [|done|].
  - left. split; [done|]. right; right; right. exists r, world. split; [by apply (ok_cached _ Hok)|done].
  - destruct (w_represented w) eqn:Ew; cbn [negb].
    + destruct (is_empty _) eqn:Ep; [|done]. apply is_empty_spec in Ep. destruct pin as [v|]; simpl; [|by right].
      exists body, (modified (Value r)), now. split; [done|]. split; [done|]. intros e He.
      destruct (Hpin e He) as (c & Hc & Hv). rewrite Ec in Hc. injection Hc as <-.
      exists r, world. split; [by apply (ok_cached _ Hok)|done].
    + destruct (is_empty _); cbn [negb]; [|done]. left. split; [done|]. by right; left.
Qed.

Lemma updateRecord_ok s w pin checked :
  ok s → handled s w pin checked → phase_ok s w (updateRecord w pin checked (engine s)).
Proof.
  intros Hok Hh. unfold updateRecord. destruct (engine s !! w_id w) as [r|] eqn:Ee; [|done].
  destruct (checkPinned pin (Version r)) eqn:Ep; [done|]. destruct (w_mutate w (Value r)) as [|new] eqn:Em; [done|].
  split; [done|]. split; [done|]. split; [by apply (ok_engine _ Hok)|]. intros v ->. simpl in Ep.
  case_bool_decide; [done|discriminate].
Qed.

(** The write lands on the version read, which is the one pinned and checked. *)
Lemma update_written s w pin checked read new r version :
  ok s → phase_ok s w (Updating pin checked read new) → engine s !! w_id w = Some r →
  Version r = Version read → Version r < version →
  written s w pin checked r (mkRecord version new).
Proof.
  intros Hok (Hh & Hm & Hin & Hv) He Heq Hlt.
  destruct (ok_current _ Hok _ _ _ He Hin) as [_ Hsame]. assert (read = r) as -> by (apply Hsame; congruence).
  split; [done|]. split; [done|]. destruct pin as [v|].
  - specialize (Hv v eq_refl). destruct Hh as (body & m & now & -> & Hp & Hc).
    split; [by rewrite Hv|]. split; [done|]. destruct (Hc r He) as (r0 & world & Hr0 & Hle & Hb & Hmod).
    destruct (ok_current _ Hok _ _ _ He Hr0) as [Hmax Hsame0]. assert (r0 = r) as -> by (apply Hsame0; lia).
    by exists world.
  - destruct Hh as [[-> [?|[?|[Hn|?]]]]|Hn]; [by left|by right; left|congruence|by right; right|congruence].
Qed.

Lemma remove_ok s id : ok s → ok (mkState (delete id (engine s)) (seen s) (cached s) (requests s)).
Proof.
  intros Hok. apply (ok_keeps s); simpl; try done; [| | |by apply Hok].
  - split; simpl; [done| |].
    + intros id' _ He. apply lookup_delete_None. by right.
    + intros id' c _ Hc. by exists c.
  - intros id' r q [_ Hr]%lookup_delete_Some. by apply (ok_current _ Hok).
  - intros id' r [_ Hr]%lookup_delete_Some. by apply (ok_engine _ Hok).
Qed.

Lemma learn_ok s id r :
  (id, r) ∈ seen s → ok s → ok (mkState (engine s) (seen s) (learn id r (cached s)) (requests s)).
Proof.
  intros Hin Hok. apply (ok_keeps s); simpl; try done; [|by apply Hok|by apply Hok|].
  - split; simpl; [done|done|]. intros id' c _ Hc.
    destruct (decide (id' = id)) as [->|Hne]; [by apply learn_le|rewrite learn_ne by done; by exists c].
  - intros id' x [Hc|[-> ->]]%learn_from; [by apply (ok_cached _ Hok)|done].
Qed.

Lemma drop_ok s id :
  engine s !! id = None → ok s → ok (mkState (engine s) (seen s) (delete id (cached s)) (requests s)).
Proof.
  intros Hn Hok. apply (ok_keeps s); simpl; try done; [|by apply Hok|by apply Hok|].
  - split; simpl; [done|done|]. intros id' c [e He] Hc. assert (id' ≠ id) by congruence.
    rewrite lookup_delete_ne by done. by exists c.
  - intros id' x [_ Hx]%lookup_delete_Some. by apply (ok_cached _ Hok).
Qed.

Context (Hkind : Versioned kind = true).

Lemma pin_ok s w : phase_ok s w Pinning → phase_ok s w (Validating (pinSubjectVersion (w_id w) (cached s))).
Proof.
  unfold pinSubjectVersion. rewrite Hkind. intros Hp. destruct (cached s !! w_id w) as [c|] eqn:Ec; simpl.
  - intros e He. exists c. split; [done|lia].
  - destruct (engine s !! w_id w) as [e|] eqn:Ee; [|done]. destruct (Hp e Ee) as [c Hc]. congruence.
Qed.

Lemma perform_write_ok a s s' : perform_write a s = Some s' → ok s → ok s'.
Proof.
  intros Ha Hok. destruct a as [id r|id r|id|id v|id|w|n err|n|n world now|n|n version]; simpl in Ha.
  - case_bool_decide as Hin; [done|]. injection Ha as <-. apply engine_holds_ok; [|done|done].
    intros q Hq. destruct Hin. apply list_elem_of_fmap. by exists (id, q).
  - destruct (engine s !! id) as [old|] eqn:Ee; [|done]. simpl in Ha.
    destruct (Z.ltb_spec (Version old) (Version r)); [|done]. injection Ha as <-.
    apply engine_holds_ok; [|congruence|done]. intros q Hq.
    destruct (ok_current _ Hok _ _ _ Ee Hq). lia.
  - injection Ha as <-. by apply remove_ok.
  - destruct (List.find _ (seen s)) as [[i r]|] eqn:Ef; [|done]. simpl in Ha. injection Ha as <-.
    apply List.find_some in Ef as [Hin%list_elem_of_In [Hi _]%andb_true_iff].
    apply bool_decide_eq_true in Hi. simpl in Hi. subst i. by apply learn_ok.
  - destruct (engine s !! id) as [e|] eqn:Ee; [done|]. injection Ha as <-. by apply drop_ok.
  - case_bool_decide as Hin; [|done]. injection Ha as <-. split; simpl; try apply Hok.
    + intros n w' p [Hn|[_ Hn]]%lookup_app_Some; [by eapply (ok_named _ Hok)|].
      by apply list_lookup_singleton_Some in Hn as [_ [= <- <-]].
    + intros n w' p [Hn|[_ Hn]]%lookup_app_Some; [by eapply (ok_requests _ Hok)|].
      apply list_lookup_singleton_Some in Hn as [_ [= <- <-]].
      destruct (begin w) eqn:Eb; try (unfold begin in Eb; destruct (_ && _); discriminate); [done|].
      assert (pin = None ∧ checked = None) as [-> ->] by (unfold begin in Eb; destruct (_ && _); by inversion Eb).
      left. split; [done|]. by left.
  - destruct (requests s !! n) as [[w []]|] eqn:En; try done. destruct err as [u|]; injection Ha as <-.
    + by eapply ok_request.
    + eapply ok_request; [done| |by apply refresh_ok]. simpl. unfold refreshSubject.
      intros e He. rewrite He. apply learn_is.
  - destruct (requests s !! n) as [[w []]|] eqn:En; try done. injection Ha as <-.
    eapply ok_request; [done| |done]. apply pin_ok. by eapply (ok_requests _ Hok).
  - destruct (requests s !! n) as [[w []]|] eqn:En; try done. injection Ha as <-.
    eapply ok_request; [done| |done].
    apply evaluate_ok; [done|by eapply ok_named|by eapply (ok_requests _ Hok)].
  - destruct (requests s !! n) as [[w []]|] eqn:En; try done. injection Ha as <-.
    eapply ok_request; [done| |done]. apply updateRecord_ok; [done|]. exact (ok_requests _ Hok _ _ _ En).
  - destruct (requests s !! n) as [[w []]|] eqn:En; try done.
    destruct (engine s !! w_id w) as [r|] eqn:Ee; [|by injection Ha as <-; eapply ok_request].
    destruct (Z.eqb_spec (Version r) (Version read)) as [Heq|]; simpl in Ha; [|by injection Ha as <-; eapply ok_request].
    destruct (Z.ltb_spec (Version r) version); [|done]. injection Ha as <-.
    edestruct (engine_holds_ok s (w_id w) (mkRecord version new)) as [Hl Hok']; [|congruence|done|].
    + intros q Hq. destruct (ok_current _ Hok _ _ _ Ee Hq). simpl. lia.
    + eapply ok_request; [done| |done].
      apply (phase_later _ _ w (Answered (Wrote pin checked r (mkRecord version new))) Hl);
        [by eapply ok_named|]. simpl. eapply update_written; [done|exact (ok_requests _ Hok _ _ _ En)|done..].
Qed.

Lemma start_ok e c : earlier_reads e c → ok (start e c).
Proof.
  intros Hec. split; simpl; try done.
  - intros id r q Hr [Hq|Hq]%elem_of_app; apply elem_of_map_to_list in Hq.
    + assert (q = r) as -> by congruence. split; [lia|done].
    + destruct (Hec _ _ _ Hq Hr) as [?| ->]; [split; lia|split; [lia|done]].
  - intros id r Hr. apply elem_of_app. left. by apply elem_of_map_to_list.
  - intros id r Hr. apply elem_of_app. right. by apply elem_of_map_to_list.
Qed.

Lemma run_ok l s s' : run_writes l s = Some s' → ok s → ok s'.
Proof.
  revert s. induction l as [|a l IH]; intros s; simpl; [by intros [= ->]|].
  destruct (perform_write a s) as [s1|] eqn:Ea; [|done]. simpl. intros Hr Hok.
  eapply IH; [done|by eapply perform_write_ok].
Qed.

(** C6: no conditional write loses an update. However other writers, the cache
    and other requests interleave with it, a write that goes through makes its
    change to the record the engine held just before; when its condition was
    evaluated, that was for a representation of this very record, whose version
    it names; and a request whose If-Match lists representations it was served
    overwrites only a record that is rendered like one it named strongly, unless
    its record had no representation. *)
Theorem no_lost_update l e c s n w pin checked old new (reps : list representation)
    (Hec : earlier_reads e c) (Hrun : run_writes l (start e c) = Some s)
    (Hdone : requests s !! n = Some (w, Answered (Wrote pin checked old new))) :
  w_mutate w (Value old) = inr (Value new) ∧ Version old < Version new ∧
  (∀ body m now, checked = Some (body, m, now) →
     pin = Some (Version old) ∧
     writePreconditionFailed now (w_request w) (computeETag body) m = "" ∧
     ∃ world, represent world (Value old) = Rendered body) ∧
  (w_represented w = true → lists (Get "If-Match" (header (w_request w))) (named <$> reps) →
   (∀ world r, (w_id w, r) ∈ seen s → represent world (Value r) ≠ NoRepresentation) →
     ∃ world body b c, represent world (Value old) = Rendered body ∧ (false, b, c) ∈ reps ∧
       hash b = hash body).
Proof.
  assert (written s w pin checked old new) as (Hm & Hlt & Hc).
  { apply (ok_requests s) with (n := n) (2 := Hdone). eapply run_ok; [done|by apply start_ok]. }
  split; [done|]. split; [done|]. split.
  - intros body m now ->. destruct Hc as (? & ? & world & ? & _). eauto.
  - intros Hrep Hl Hsome. destruct checked as [[[body m] now]|].
    + destruct Hc as (_ & Hp & world & Hw & _). unfold writePreconditionFailed in Hp.
      destruct (is_empty (preconditionFailed _ _ _ _)) eqn:Ep; cbn [negb] in Hp; [|by rewrite Hp in Ep].
      apply is_empty_spec, (if_match_named _ _ _ _ reps Hl) in Ep as (b & k & Hin & Hh). by exists world, body, b, k.
    + destruct Hc as [Hb|[Hb|(r & world & Hr & Hn)]]; [|congruence|by destruct (Hsome world r Hr)].
      destruct Hl as (Hne & _). unfold begin in Hb.
      destruct (is_empty (Get "If-Match" _)) eqn:E; [by apply is_empty_spec in E|]. by destruct (is_empty _) in Hb.
Qed.

End Writes.

(** Two clients read a service at version 7 and write it with If-Match: the
    first write goes through, the second is refused. *)
Definition demo_render (_ : unit) (t : string) : rendering := Rendered t.
Definition demo_read : representation := (false, "the spec they read", EncodingGzip).
Definition demo_write (new : string) : @write string :=
  mkWrite (mkRequest {["If-Match" := [Join (rendered <$> [@named demo_coders demo_read]) ", "]]} EncodingIdentity false)
    "s1" true (λ _, inr new).
Definition demo_both : list (@action string unit) :=
  [CacheLearns "s1" 7; Receive (demo_write "first"); Receive (demo_write "second"); Refresh 0 None;
   Refresh 1 None; Pin 1; Pin 0; Validate 0 () 5; Validate 1 () 5; Inspect 1; Inspect 0; Update 0 8; Update 1 9].
Definition demo_held : gmap string (@record string) := {["s1" := mkRecord 7 "the spec they read"]}.
Definition demo_end : option State :=
  @run_writes ascii_unicode demo_dates demo_coders string unit "service" demo_render (λ _, 0) demo_both
    (start demo_held ∅).

Lemma no_lost_update_witness :
  match demo_end with
  | Some s =>
      (∃ w pin checked old new, requests s !! 0%nat = Some (w, Answered (Wrote pin checked old new)) ∧
         Value new = "first" ∧ ∃ body, demo_render () (Value old) = Rendered body ∧
           @hash demo_coders "the spec they read" = @hash demo_coders body) ∧
      (∃ w, requests s !! 1%nat = Some (w, Answered (Refused "API013")))
  | None => False
  end.
Proof.
  destruct demo_end as [s|] eqn:E; [|vm_compute in E; discriminate].
  pose proof E as Hrun. unfold demo_end in E. vm_compute in E. injection E as E.
  assert (Hl : @lists ascii_unicode (Get "If-Match" (header (w_request (demo_write "first"))))
    (@named demo_coders <$> [demo_read])) by (repeat split; first [discriminate|reflexivity]).
  assert (Hec : earlier_reads demo_held (∅ : gmap string (@record string))) by (intros ? ? ? ?; by simplify_map_eq).
  split.
  - assert (∃ checked, requests s !! 0%nat = Some (demo_write "first",
      Answered (Wrote (Some 7) checked (mkRecord 7 "the spec they read") (mkRecord 8 "first")))) as [checked H0]
      by (rewrite <-E; eexists; reflexivity).
    exists (demo_write "first"), (Some 7), checked, (mkRecord 7 "the spec they read"), (mkRecord 8 "first").
    split; [done|]. split; [done|].
    destruct (@no_lost_update ascii_unicode demo_dates demo_coders string unit "service" demo_render (λ _, 0)
      eq_refl demo_both demo_held ∅ s 0 _ _ _ _ _ [demo_read] Hec Hrun H0) as (_ & _ & _ & Hw).
    destruct (Hw eq_refl Hl) as (world & body & b & c & Hb & Hin & Hh); [by intros ? ?|].
    apply list_elem_of_singleton in Hin as [= -> ->]. exists body. split; [exact Hb|exact Hh].
  - exists (demo_write "second"). by rewrite <-E.
Defined.
