(* ===== verification/Negotiate.v ===== *)
(** Which representation a request is answered with: the Accept header and the
    extension suffixes of internal/api/negotiate.go, the Accept-Encoding of
    encoding.go, the preferences of prefer.go, the resource paths of
    canonical.go, and the choice of a handler in dispatch.go. What an Accept
    header asks for is also told as relations after RFC 9110 ([asked], [governs],
    [prefers], [weighed_by]), which the property is stated in.

    [Mime] is mime.ParseMediaType and strconv.ParseFloat. A float is a rational,
    an infinity or NaN, and compares as the language's does. *)
From Stdlib Require Import QArith.QArith_base.
From S2P Require Import Prelude GoStrings GoStrconv GoURL GoPath Forwarding Conditional.
#[local] Open Scope string_scope.
#[local] Open Scope nat_scope.
#[local] Open Scope list_scope.

(** * Floats *)

Inductive float64 := NaN | NegInf | Finite (x : Q) | PosInf.

(** x < y *)
Definition flt (x y : float64) : bool :=
  match x, y with
  | NaN, _ | _, NaN => false
  | NegInf, NegInf | PosInf, _ | _, NegInf => false
  | NegInf, _ | _, PosInf => true
  | Finite a, Finite b => negb (Qle_bool b a)
  end.

(** x == y *)
Definition feq (x y : float64) : bool :=
  match x, y with
  | NegInf, NegInf | PosInf, PosInf => true
  | Finite a, Finite b => Qeq_bool a b
  | _, _ => false
  end.

Definition fle (x y : float64) : bool := flt x y || feq x y.

Definition fmin (x y : float64) : float64 := match x, y with NaN, _ | _, NaN => NaN | _, _ => if flt y x then y else x end.
Definition fmax (x y : float64) : float64 := match x, y with NaN, _ | _, NaN => NaN | _, _ => if flt x y then y else x end.

Definition f0 : float64 := Finite 0.
Definition f1 : float64 := Finite 1.

Class Mime := {
  ParseMediaType : string → option (string * gmap string string);
  ParseFloat : string → option float64;
}.

(** * Media types *)

Inductive ContentType :=
| TypeJSON | TypeHTML | TypeSSE | TypeAtom | TypeJSONFeed | TypeJGF | TypeGraphML | TypeDOT | TypeCSV | TypeYAML
| TypeSPDX | TypePlain | TypeUnsupported.

#[global] Instance ContentType_eq_dec : EqDecision ContentType.
Proof. solve_decision. Defined.

Record mediaType := mkMediaType { mt_typ : string; mt_subtype : string; mt_params : gmap string string }.

Record mediaRange := mkRange { mr_type : mediaType; mr_q : float64; mr_order : nat }.

(** The names a client may ask for each type by. *)
Definition supportedTypes : list (string * string * ContentType) :=
  [("application", "json", TypeJSON); ("application", "vnd.cetacean.v1+json", TypeJSON); ("application", "ld+json", TypeJSON);
   ("text", "html", TypeHTML); ("application", "xhtml+xml", TypeHTML); ("text", "event-stream", TypeSSE);
   ("application", "atom+xml", TypeAtom); ("application", "feed+json", TypeJSONFeed); ("application", "vnd.jgf+json", TypeJGF);
   ("application", "graphml+xml", TypeGraphML); ("text", "vnd.graphviz", TypeDOT); ("text", "csv", TypeCSV);
   ("application", "vnd.oai.openapi+json", TypeJSON); ("application", "openapi+json", TypeJSON);
   ("application", "vnd.aai.asyncapi+json", TypeJSON); ("application", "asyncapi+json", TypeJSON);
   ("application", "yaml", TypeYAML); ("application", "x-yaml", TypeYAML); ("application", "vnd.oai.openapi", TypeYAML);
   ("application", "openapi+yaml", TypeYAML); ("application", "vnd.aai.asyncapi+yaml", TypeYAML);
   ("application", "asyncapi+yaml", TypeYAML); ("text", "yaml", TypeYAML); ("text", "x-yaml", TypeYAML);
   ("application", "spdx+json", TypeSPDX); ("text", "plain", TypePlain)].

Definition contentTypeOrder : list ContentType :=
  foldl (λ order sup, if bool_decide (sup.2 ∈ order) then order else order ++ [sup.2]) [] supportedTypes.

(** What mustMediaType makes of each; Unsupported has none. *)
Definition sentAs (ct : ContentType) : mediaType :=
  match ct with
  | TypeJSON => mkMediaType "application" "json" ∅
  | TypeHTML => mkMediaType "text" "html" ∅
  | TypeSSE => mkMediaType "text" "event-stream" ∅
  | TypeAtom => mkMediaType "application" "atom+xml" ∅
  | TypeJSONFeed => mkMediaType "application" "feed+json" ∅
  | TypeJGF => mkMediaType "application" "vnd.jgf+json" ∅
  | TypeGraphML => mkMediaType "application" "graphml+xml" ∅
  | TypeDOT => mkMediaType "text" "vnd.graphviz" ∅
  | TypeCSV => mkMediaType "text" "csv" {[ "header" := "present" ]}
  | TypeYAML => mkMediaType "application" "yaml" ∅
  | TypeSPDX => mkMediaType "application" "spdx+json" ∅
  | TypePlain => mkMediaType "text" "plain" {[ "charset" := "utf-8" ]}
  | TypeUnsupported => mkMediaType "" "" ∅
  end.

(** What an endpoint sends for a type where that is not [sentAs]. *)
Abbreviation sending := (list (ContentType * mediaType)).

Definition sends_as (s : sending) (ct : ContentType) : mediaType :=
  match list_find (λ kv, kv.1 = ct) s with Some (_, (_, mt)) => mt | None => sentAs ct end.

Section accept.
Context `{Unicode, Mime}.

Definition carries (mt : mediaType) (name value : string) : bool :=
  if bool_decide (name = "charset") then EqualFold value "utf-8"
  else bool_decide (mt_params mt !! name = Some value).

Definition specificity (mr : mediaRange) : nat :=
  (if bool_decide (mt_typ (mr_type mr) = "*") then 1
   else if bool_decide (mt_subtype (mr_type mr) = "*") then 2 else 3) * 100 + size (mt_params (mr_type mr)).

Definition range_named (mr : mediaRange) : bool :=
  negb (bool_decide (mt_typ (mr_type mr) = "*")) && negb (bool_decide (mt_subtype (mr_type mr) = "*")).

Definition outranks (mr other : mediaRange) : bool :=
  if negb (feq (mr_q mr) (mr_q other)) then flt (mr_q other) (mr_q mr)
  else if negb (specificity mr =? specificity other) then specificity other <? specificity mr
  else mr_order mr <? mr_order other.

Definition matches (mr : mediaRange) (mt : mediaType) : bool :=
  let r := mr_type mr in
  (if bool_decide (mt_typ r = "*") && bool_decide (mt_subtype r = "*") then true
   else bool_decide (mt_typ r = mt_typ mt) &&
        (bool_decide (mt_subtype r = "*") || bool_decide (mt_subtype r = mt_subtype mt))) &&
  bool_decide (map_Forall (λ name value, carries mt name value = true) (mt_params r)).

Definition governingRange (ranges : list mediaRange) (mt : mediaType) : option mediaRange :=
  foldl (λ governing mr,
    if matches mr mt && match governing with Some g => specificity g <? specificity mr | None => true end
    then Some mr else governing) None ranges.

(** The heaviest of the aliases a client names, when it names any. *)
Definition alias_of (ranges : list mediaRange) (ct : ContentType) (sent : mediaType) : option mediaRange :=
  foldl (λ alias sup,
    let '(typ, subtype, sup_ct) := sup in
    if negb (bool_decide (sup_ct = ct)) || bool_decide (typ = mt_typ sent) && bool_decide (subtype = mt_subtype sent) then alias
    else
      match governingRange ranges (mkMediaType typ subtype (mt_params sent)) with
      | Some mr =>
          if range_named mr && flt f0 (mr_q mr) && match alias with Some a => outranks mr a | None => true end
          then Some mr else alias
      | None => alias
      end) None supportedTypes.

Definition weigh (ranges : list mediaRange) (ct : ContentType) (sent : mediaType) : option mediaRange :=
  let governing := governingRange ranges sent in
  match governing with
  | Some g => if range_named g then Some g else
      match alias_of ranges ct sent with
      | Some a => Some a
      | None => if bool_decide (ct = TypeSSE) then None else governing
      end
  | None => alias_of ranges ct sent
  end.

Definition parseMediaType (s : string) : option mediaType :=
  '(full, params) ← ParseMediaType s;
  match Cut full "/" with
  | (typ, subtype, true) => if is_empty typ || is_empty subtype then None else Some (mkMediaType typ subtype params)
  | _ => None
  end.

Definition splitList (value : string) : list string :=
  filter (λ e, e ≠ "") (TrimSpace <$> splitOutsideQuotes value ",").

Definition range_of (i : nat) (element : string) : option mediaRange :=
  mt ← parseMediaType element;
  let q := match mt_params mt !! "q" with Some v => default f1 (ParseFloat v) | None => f1 end in
  Some (mkRange (mkMediaType (mt_typ mt) (mt_subtype mt) (delete "q" (mt_params mt))) q i).

Definition parseAcceptRanges (accept : string) : list mediaRange := omap id (imap range_of (splitList accept)).

(** One type of an endpoint, against the best so far. *)
Definition better (ranges : list mediaRange) (sends : sending) (best : option (mediaRange * ContentType)) (ct : ContentType)
    : option (mediaRange * ContentType) :=
  match weigh ranges ct (sends_as sends ct) with
  | Some mr =>
      if fle (mr_q mr) f0 then best
      else match best with
           | Some (b, _) => if outranks mr b then Some (mr, ct) else best
           | None => Some (mr, ct)
           end
  | None => best
  end.

Definition serves_type (serves : option (list ContentType)) (ct : ContentType) : bool :=
  match serves with Some l => bool_decide (ct ∈ l) | None => true end.

Definition bestServed (ranges : list mediaRange) (serves : option (list ContentType)) (sends : sending) : ContentType :=
  match foldl (better ranges sends) None (filter (λ ct, serves_type serves ct = true) contentTypeOrder) with
  | Some (_, ct) => ct
  | None => TypeUnsupported
  end.

Definition bestMatch (ranges : list mediaRange) : ContentType :=
  match ranges with [] => TypeJSON | _ => bestServed ranges None [] end.

Definition rangesAcceptHTML (ranges : list mediaRange) : bool :=
  match ranges with
  | [] => true
  | _ => match weigh ranges TypeHTML (sentAs TypeHTML) with Some w => flt f0 (mr_q w) | None => false end
  end.

(** * What a request is resolved to *)

(** The context negotiate leaves: the type, the suffix it came from, and
    whether HTML was ruled out. *)
Record negotiation := mkNegotiation { ng_type : ContentType; ng_ext : string; ng_refusesHTML : bool }.

Definition negotiated (accept : string) (ct : ContentType) (ext : string) : negotiation :=
  if bool_decide (ct = TypeUnsupported) then
    let ranges := parseAcceptRanges accept in
    mkNegotiation (bestMatch ranges) ext (negb (rangesAcceptHTML ranges))
  else mkNegotiation ct ext (negb (bool_decide (ct = TypeHTML))).

Definition negotiatedAmong (accept : string) (n : negotiation) (sends : sending) (serves : list ContentType) : ContentType :=
  if negb (is_empty (ng_ext n)) then ng_type n else
  match parseAcceptRanges accept with
  | [] => ng_type n
  | ranges =>
      let best := bestServed ranges (Some serves) sends in
      if negb (bool_decide (best = TypeUnsupported)) || bool_decide (ng_type n ∈ serves) then best else ng_type n
  end.

Definition acceptableAs (accept : string) (n : negotiation) (sends : sending) (serves : list ContentType) : bool :=
  bool_decide (negotiatedAmong accept n sends serves ∈ serves) ||
  (is_empty (ng_ext n) && match parseAcceptRanges accept with [] => true | _ => false end).
End accept.

(** * Suffixes and resource paths *)

Definition splitResourcePath (path : string) : string * string * string :=
  let trimmed := TrimSuffix (TrimPrefix path "/") "/" in
  let '(collection, remainder, _) := Cut trimmed "/" in
  if is_empty remainder then (collection, "", "") else
  let '(identifier, tail, hasTail) := Cut remainder "/" in
  (collection, identifier, if hasTail then "/" +:+ tail else "").

Definition canonicalKinds : list (string * string) :=
  [("services", "service"); ("nodes", "node"); ("tasks", "task"); ("configs", "config"); ("secrets", "secret"); ("networks", "network")].

Definition addressesMember (escapedPath : string) : bool :=
  let '(collection, identifier, rest) := splitResourcePath escapedPath in
  if is_empty identifier || negb (is_empty rest) then false else
  bool_decide (collection ∈ canonicalKinds.*1) || bool_decide (collection = "volumes") || bool_decide (collection = "stacks") ||
  bool_decide (collection = "plugins") && negb (bool_decide (identifier = "privileges")).

Definition yamlPaths : list string := ["/api"; "/services"; "/stacks"].

(** A suffix, its type, and the routes it is limited to, when it is. *)
Definition extensionTypes : list (string * ContentType * option (list string)) :=
  [(".json", TypeJSON, None); (".html", TypeHTML, None); (".atom", TypeAtom, None); (".feed", TypeJSONFeed, None);
   (".jgf", TypeJGF, None); (".graphml", TypeGraphML, None); (".dot", TypeDOT, None); (".csv", TypeCSV, None);
   (".yaml", TypeYAML, Some yamlPaths); (".yml", TypeYAML, Some yamlPaths);
   (".spdx", TypeSPDX, Some ["/services/*/sbom"; "/tasks/*/sbom"]);
   (".txt", TypePlain, Some ["/services/*/dockerfile"; "/tasks/*/dockerfile"])].

Definition scopedTo (under : option (list string)) (p : string) : bool :=
  match under with
  | None => true
  | Some routes => existsb (λ route, bool_decide (Match route p = GMatch) || HasPrefix p (route +:+ "/")) routes
  end.

Definition literalDocuments : list string := ["/api/openapi.yaml"; "/api/asyncapi.yaml"].

Definition hasMidPathExtension (path : string) : bool :=
  existsb (λ '(ext, _, under), Contains path (ext +:+ "/") && scopedTo under path) extensionTypes.

(** Where the n-th decoded byte begins in the escaped path. *)
Fixpoint rawOffset (fuel : nat) (raw : string) (n : nat) : nat :=
  match fuel, n, raw with
  | S fuel, S n, String c _ => let step := if Ascii.eqb c "%" then 3 else 1 in step + rawOffset fuel (str_drop step raw) n
  | _, _, _ => O
  end.

Definition CutSuffix (s suffix : string) : option string :=
  if HasSuffix s suffix then Some (str_take (String.length s - String.length suffix) s) else None.

(** A path as it is decoded and as it was escaped, empty when it needs none. *)
Record url_path := mkPath { Path_ : string; RawPath : string }.

Definition suffix_applies (path : string) (ext : string * ContentType * option (list string)) : bool :=
  match CutSuffix path ext.1.1 with Some trimmed => scopedTo ext.2 trimmed | None => false end.

Definition resolveExtension (u : url_path) : ContentType * string * url_path :=
  if bool_decide (Path_ u ∈ literalDocuments) then (TypeUnsupported, "", u) else
  match list_find (λ ext, suffix_applies (Path_ u) ext = true) extensionTypes with
  | None => (TypeUnsupported, "", u)
  | Some (_, (ext, ct, _)) =>
      let trimmed := default "" (CutSuffix (Path_ u) ext) in
      let raw := RawPath u in
      (ct, ext, mkPath trimmed (str_take (Nat.min (rawOffset (String.length trimmed) raw (String.length trimmed)) (String.length raw)) raw))
  end.

Definition isSafeMethod (method : string) : bool := bool_decide (method = "GET") || bool_decide (method = "HEAD").

(** The negotiate middleware: what it records and the path that is routed.
    [escaped] is the path's EscapedPath. *)
Definition negotiate `{Unicode, Mime} (method accept escaped : string) (u : url_path) : negotiation * url_path :=
  let '(ct, ext, u) :=
    if isSafeMethod method || bool_decide (method = "OPTIONS") || negb (addressesMember escaped)
    then resolveExtension u else (TypeUnsupported, "", u) in
  (negotiated accept ct ext, u).

(** * Dispatch *)

Record feedHandlers := mkFeeds { has_atom : bool; has_jsonFeed : bool; has_csv : bool; has_yaml : bool }.

Definition servedTypes (f : feedHandlers) (sse : bool) : list ContentType :=
  [TypeJSON; TypeHTML] ++ (if sse then [TypeSSE] else []) ++ (if has_atom f then [TypeAtom] else []) ++
  (if has_jsonFeed f then [TypeJSONFeed] else []) ++ (if has_csv f then [TypeCSV] else []) ++
  (if has_yaml f then [TypeYAML] else []).

(** The arm a request is dispatched to, [None] for a 406. *)
Definition dispatch `{Unicode, Mime} (f : feedHandlers) (sse : bool) (accept : string) (n : negotiation) : option ContentType :=
  let ct := negotiatedAmong accept n [] (servedTypes f sse) in
  let handler (has : bool) := if has then Some ct else None in
  match ct with
  | TypeHTML | TypeJSON => Some ct
  | TypeSSE => handler sse
  | TypeAtom => handler (has_atom f)
  | TypeJSONFeed => handler (has_jsonFeed f)
  | TypeCSV => handler (has_csv f)
  | TypeYAML => handler (has_yaml f)
  | _ => None
  end.

(** * Content codings *)

Section encodings.
Context `{Unicode, Mime}.

Definition coding_q (q : float64) (param : string) : float64 :=
  let '(name, value, found) := Cut param "=" in
  if negb found || negb (bool_decide (ToLower (TrimSpace name) = "q")) then q else
  match ParseFloat (TrimSpace value) with Some parsed => fmin (fmax parsed f0) f1 | None => q end.

Definition coding_entry (weights : gmap string float64) (entry : string) : gmap string float64 :=
  let entry := TrimSpace entry in
  if is_empty entry then weights else
  let '(coding, params, _) := Cut entry ";" in
  <[ToLower (TrimSpace coding) := foldl coding_q f1 (split_byte ";" params)]> weights.

Definition parseAcceptEncoding (header : string) : gmap string float64 := foldl coding_entry ∅ (split_byte "," header).

Definition weightOf (weights : gmap string float64) (coding : string) : float64 :=
  match weights !! coding, weights !! "*" with
  | Some q, _ => q
  | None, Some wildcard => wildcard
  | None, None => f0
  end.

Definition resolveEncoding (header : string) : Encoding :=
  if is_empty header then EncodingIdentity else
  let weights := parseAcceptEncoding header in
  let gzip := weightOf weights "gzip" in
  let zstd := weightOf weights "zstd" in
  let '(best, bestQ) := (EncodingIdentity, weightOf weights "identity") in
  let '(best, bestQ) := if flt f0 gzip && fle bestQ gzip then (EncodingGzip, gzip) else (best, bestQ) in
  if flt f0 zstd && fle bestQ zstd then EncodingZstd else best.

(** * Preferences *)

Definition preferTokens (values : list string) : list string := values ≫= λ v, TrimSpace <$> split_byte "," v.

Definition preference (token : string) : string * string :=
  let '(token, _, _) := Cut token ";" in
  let '(name, value, _) := Cut token "=" in
  let value := TrimSpace value in
  (ToLower (TrimSpace name),
   if (2 <=? String.length value) && HasPrefix value (String dq "") && HasSuffix value (String dq "")
   then str_take (String.length value - 2) (str_drop 1 value) else value).

Definition preferMinimal (values : list string) : bool :=
  existsb (λ token, bool_decide (preference token = ("return", "minimal"))) (preferTokens values).

(** Five minutes, in seconds. *)
Definition ConvergenceTimeout : Z := 300.

(** The first wait preference decides, in seconds. *)
Fixpoint wait_of (tokens : list string) : option Z :=
  match tokens with
  | [] => None
  | token :: tokens =>
      let '(name, value) := preference token in
      if bool_decide (name = "wait") then
        match Atoi value with
        | Some seconds => if (seconds <? 0)%Z then None else Some (Z.min seconds ConvergenceTimeout)
        | None => None
        end
      else wait_of tokens
  end.

Definition preferWait (values : list string) : option Z := wait_of (preferTokens values).

Definition preferRespondAsync (values : list string) : bool :=
  existsb (λ token, bool_decide ((preference token).1 = "respond-async")) (preferTokens values).
End encodings.

(** * The order of ranges *)

Definition float_rank (x : float64) : nat := match x with NaN => 0 | NegInf => 1 | Finite _ => 2 | PosInf => 3 end.
Definition float_value (x : float64) : Q := match x with Finite q => q | _ => 0%Q end.

Definition float_compare (x y : float64) : comparison :=
  cmp_or (Nat.compare (float_rank x) (float_rank y)) (Qcompare (float_value x) (float_value y)).

#[global] Instance Qcompare_laws : Compare Qcompare.
Proof.
  split.
  - intros a b. by rewrite Qcompare_antisym.
  - intros a b c. unfold cmp_le. rewrite <- !Qle_alt. apply Qle_trans.
Qed.

#[global] Instance float_compare_laws : Compare float_compare.
Proof. apply compare_or; [apply (compare_proj float_rank)|apply (compare_proj float_value)]; apply _. Qed.

Lemma flt_compare x y : x ≠ NaN → y ≠ NaN → flt x y = true ↔ float_compare x y = Lt.
Proof.
  intros Hx Hy. destruct x as [| |x|], y as [| |y|]; try done; cbn; try (by split; intros).
  rewrite negb_true_iff, <- not_true_iff_false, Qle_bool_iff, Qle_alt, <- (Qcompare_antisym x y).
  unfold float_compare, cmp_or. cbn. destruct (x ?= y)%Q; cbn; naive_solver.
Qed.

Lemma feq_compare x y : x ≠ NaN → y ≠ NaN → feq x y = true ↔ float_compare x y = Eq.
Proof.
  intros Hx Hy. destruct x as [| |x|], y as [| |y|]; try done; cbn; try (by split; intros).
  by rewrite Qeq_bool_iff, Qeq_alt.
Qed.

(** The heavier range first, then the more specific, then the earlier. *)
Definition range_cmp (a b : mediaRange) : comparison :=
  cmp_or (float_compare (mr_q b) (mr_q a))
    (cmp_or (Nat.compare (specificity b) (specificity a)) (Nat.compare (mr_order a) (mr_order b))).

#[global] Instance range_cmp_laws : Compare range_cmp.
Proof.
  apply compare_or; [|apply compare_or; [|apply (compare_proj mr_order), _]].
  - apply (flip_compare (λ a b, float_compare (mr_q a) (mr_q b))); apply _.
  - apply (flip_compare (λ a b, Nat.compare (specificity a) (specificity b))); apply _.
Qed.

Lemma outranks_cmp a b : mr_q a ≠ NaN → mr_q b ≠ NaN → outranks a b = true ↔ range_cmp a b = Lt.
Proof.
  intros Ha Hb. unfold outranks, range_cmp.
  pose proof (flt_compare (mr_q b) (mr_q a) Hb Ha) as Hl.
  destruct (feq (mr_q a) (mr_q b)) eqn:E; cbn [negb].
  - apply feq_compare in E; [|done..]. rewrite (cmp_antisym (cmp := float_compare)), E. cbn [CompOpp cmp_or].
    destruct (Nat.eqb_spec (specificity a) (specificity b)) as [->|Hne]; cbn [negb].
    + by rewrite Nat.compare_refl, Nat.ltb_lt, <- Nat.compare_lt_iff.
    + rewrite Nat.ltb_lt, <- Nat.compare_lt_iff. destruct (Nat.compare_spec (specificity b) (specificity a)); cbn; [lia|done..].
  - rewrite Hl. assert (float_compare (mr_q b) (mr_q a) ≠ Eq) as Hne; [|by destruct (float_compare (mr_q b) (mr_q a))].
    rewrite (cmp_antisym (cmp := float_compare)). intros Heq. apply not_true_iff_false in E. apply E, feq_compare; [done..|].
    by destruct (float_compare (mr_q a) (mr_q b)).
Qed.

(** * What an Accept header asks for

    RFC 9110, 12.5.1, read on its own: which ranges a header has, which of them
    admit a media type, which one of these governs, and which of two ranges a
    client prefers. *)

Section rfc.
Context `{Unicode, Mime}.

(** An element with a media range, its parameters but the weight, and the weight,
    1 when none is given or what is given is no number. *)
Definition asked (accept : string) (r : mediaRange) : Prop :=
  ∃ element full params typ subtype,
    splitList accept !! mr_order r = Some element ∧ ParseMediaType element = Some (full, params) ∧
    Cut full "/" = (typ, subtype, true) ∧ typ ≠ "" ∧ subtype ≠ "" ∧ mr_type r = mkMediaType typ subtype (delete "q" params) ∧
    match params !! "q" with
    | Some weight => mr_q r = match ParseFloat weight with Some w => w | None => f1 end
    | None => mr_q r = f1
    end.

Definition admits (r : mediaRange) (mt : mediaType) : Prop :=
  (mt_typ (mr_type r) = "*" ∧ mt_subtype (mr_type r) = "*" ∨
   mt_typ (mr_type r) = mt_typ mt ∧ (mt_subtype (mr_type r) = "*" ∨ mt_subtype (mr_type r) = mt_subtype mt)) ∧
  ∀ name value, mt_params (mr_type r) !! name = Some value →
    name = "charset" ∧ EqualFold value "utf-8" = true ∨ name ≠ "charset" ∧ mt_params mt !! name = Some value.

(** How much of a type a range names. *)
Inductive breadth : mediaRange → nat → Prop :=
| any_type r : mt_typ (mr_type r) = "*" → breadth r 1
| any_subtype r : mt_typ (mr_type r) ≠ "*" → mt_subtype (mr_type r) = "*" → breadth r 2
| one_type r : mt_typ (mr_type r) ≠ "*" → mt_subtype (mr_type r) ≠ "*" → breadth r 3.

(** More of the type, and with as much of it more parameters. *)
Definition more_specific (a b : mediaRange) : Prop :=
  ∃ m n, breadth a m ∧ breadth b n ∧
    (n < m ∨ m = n ∧ size (mt_params (mr_type b)) < size (mt_params (mr_type a))).

(** The most specific range that admits a type, the first of equals. *)
Definition governs (A : mediaRange → Prop) (r : mediaRange) (mt : mediaType) : Prop :=
  A r ∧ admits r mt ∧ ∀ r', A r' → admits r' mt →
    ¬ more_specific r' r ∧ (more_specific r r' ∨ mr_order r ≤ mr_order r').

Definition heavier (a b : mediaRange) : Prop := flt (mr_q b) (mr_q a) = true.

(** The heavier range, of equals the more specific, of equals the earlier. *)
Definition prefers (a b : mediaRange) : Prop :=
  heavier a b ∨ ¬ heavier b a ∧ (more_specific a b ∨ ¬ more_specific b a ∧ mr_order a < mr_order b).

Definition names (r : mediaRange) : Prop := mt_typ (mr_type r) ≠ "*" ∧ mt_subtype (mr_type r) ≠ "*".

(** A range that names a type by another of the names it goes by. *)
Definition by_alias (A : mediaRange → Prop) (ct : ContentType) (sent : mediaType) (r : mediaRange) : Prop :=
  ∃ typ subtype, (typ, subtype, ct) ∈ supportedTypes ∧ ¬ (typ = mt_typ sent ∧ subtype = mt_subtype sent) ∧
    governs A r (mkMediaType typ subtype (mt_params sent)) ∧ names r ∧ flt f0 (mr_q r) = true.

(** What weighs a type: the range that governs what is sent, when it names it;
    or else the most preferred of those that name it by an alias; or else, but
    for event streams, the wildcard that governs it. *)
Definition weighed_by (A : mediaRange → Prop) (ct : ContentType) (sent : mediaType) (w : mediaRange) : Prop :=
  governs A w sent ∧ names w ∨
  (∀ r, governs A r sent → ¬ names r) ∧
  (by_alias A ct sent w ∧ (∀ r, by_alias A ct sent r → ¬ prefers r w) ∨
   (∀ r, ¬ by_alias A ct sent r) ∧ governs A w sent ∧ ct ≠ TypeSSE).

(** Admitted, at a weight above zero. *)
Definition accepted_by (A : mediaRange → Prop) (sends : sending) (ct : ContentType) (w : mediaRange) : Prop :=
  weighed_by A ct (sends_as sends ct) w ∧ flt f0 (mr_q w) = true.

(** ** The code's reading of it *)

Lemma carries_spec mt name value : carries mt name value = true ↔
  name = "charset" ∧ EqualFold value "utf-8" = true ∨ name ≠ "charset" ∧ mt_params mt !! name = Some value.
Proof. unfold carries. case_bool_decide; [naive_solver|]. rewrite bool_decide_eq_true. naive_solver. Qed.

Lemma matches_spec r mt : matches r mt = true ↔ admits r mt.
Proof.
  unfold matches, admits. rewrite andb_true_iff, bool_decide_eq_true. apply Morphisms_Prop.and_iff_morphism.
  - destruct (bool_decide (_ = "*") && _) eqn:E.
    + apply andb_true_iff in E as [?%bool_decide_eq_true ?%bool_decide_eq_true]. naive_solver.
    + rewrite andb_true_iff, orb_true_iff, !bool_decide_eq_true. rewrite andb_false_iff, !bool_decide_eq_false in E. naive_solver.
  - unfold map_Forall. split; intros Hp name value Hl; apply carries_spec; by apply Hp.
Qed.

Lemma specificity_lt a b : size (mt_params (mr_type a)) < 100 → size (mt_params (mr_type b)) < 100 →
  specificity b < specificity a ↔ more_specific a b.
Proof.
  intros Ha Hb. assert (∀ r, ∃ m, breadth r m ∧ specificity r = m * 100 + size (mt_params (mr_type r)) ∧ ∀ m', breadth r m' → m' = m) as Hr.
  { intros r. unfold specificity. repeat case_bool_decide; eexists; (split; [by constructor|]); (split; [done|]); intros m' Hm'; by inversion Hm'. }
  destruct (Hr a) as (m & Hm & -> & Um), (Hr b) as (k & Hk & -> & Uk). split.
  - intros Hlt. exists m, k. split_and!; [done..|]. lia.
  - intros (m' & k' & ->%Um & ->%Uk & Hlt). lia.
Qed.

Lemma range_named_spec r : range_named r = true ↔ names r.
Proof. unfold range_named, names. rewrite andb_true_iff, !negb_true_iff, !bool_decide_eq_false. done. Qed.

(** The ranges of a header are those it asks for, in their order. *)
Lemma asked_elem accept r : r ∈ parseAcceptRanges accept ↔ asked accept r.
Proof.
  unfold parseAcceptRanges. rewrite list_elem_of_omap. split.
  - intros (o & Hin & Ho). cbn in Ho. subst o. apply list_elem_of_lookup in Hin as [i Hi]. rewrite list_lookup_imap in Hi.
    destruct (splitList accept !! i) as [element|] eqn:Ee; [|done]. cbn in Hi. injection Hi as Hi. unfold range_of, parseMediaType in Hi.
    destruct (ParseMediaType element) as [[full params]|] eqn:Ep; [|done]. cbn in Hi.
    destruct (Cut full "/") as [[typ subtype] []] eqn:Ec; [|done].
    destruct (is_empty typ) eqn:E1; [done|]. destruct (is_empty subtype) eqn:E2; [done|]. cbn in Hi. injection Hi as <-.
    exists element, full, params, typ, subtype. cbn. split_and!; try done.
    + by intros ->.
    + by intros ->.
    + destruct (params !! "q") as [v|]; [|done]. by destruct (ParseFloat v).
  - intros (element & full & params & typ & subtype & Ee & Ep & Ec & H1 & H2 & Et & Hq).
    exists (Some r). split; [|done]. apply list_elem_of_lookup. exists (mr_order r). rewrite list_lookup_imap, Ee. cbn.
    unfold range_of, parseMediaType. rewrite Ep. cbn. rewrite Ec, !is_empty_false by done. cbn. f_equal. f_equal.
    destruct r as [mt q o]. cbn in *. subst mt. f_equal. destruct (params !! "q") as [v|]; [|done]. subst q. by destruct (ParseFloat v).
Qed.

Lemma range_of_order i e r : range_of i e = Some r → mr_order r = i.
Proof. unfold range_of. destruct (parseMediaType e); [|done]. cbn. by intros [= <-]. Qed.

Lemma ranges_sorted_from l k :
  let ranges := omap id (imap (λ i e, range_of (k + i) e) l) in
  StronglySorted (λ a b, mr_order a < mr_order b) ranges ∧ Forall (λ r, k ≤ mr_order r) ranges.
Proof.
  revert k. induction l as [|e l IH]; intros k; [by repeat constructor|]. cbn.
  assert (imap ((λ i e0, range_of (k + i) e0) ∘ S) l = imap (λ i e0, range_of (S k + i) e0) l) as ->.
  { apply imap_ext. intros i x _. cbn. f_equal. lia. }
  destruct (IH (S k)) as [Hs Hf]. rewrite Forall_forall in Hf.
  destruct (range_of (k + 0) e) as [r|] eqn:Er; cbn.
  - apply range_of_order in Er. split; constructor; try done; try lia; apply Forall_forall; intros x Hx; specialize (Hf x Hx); lia.
  - split; [done|]. apply Forall_forall. intros x Hx. specialize (Hf x Hx). lia.
Qed.

Lemma ranges_sorted accept : StronglySorted (λ a b, mr_order a < mr_order b) (parseAcceptRanges accept).
Proof. apply (ranges_sorted_from (splitList accept) 0). Qed.
End rfc.

(** * The best of a list *)

Section best.
Context {T R : Type} (cmp : R → R → comparison) `{!Compare cmp} (adm : T → option R) (step : option (R * T) → T → option (R * T)).
Context (wf : R → Prop).
Hypothesis adm_wf : ∀ x r, adm x = Some r → wf r.
Hypothesis step_none : ∀ best x, adm x = None → step best x = best.
Hypothesis step_first : ∀ x r, adm x = Some r → step None x = Some (r, x).
Hypothesis step_some : ∀ b y x r, adm x = Some r → wf b → cmp r b = Lt → step (Some (b, y)) x = Some (r, x).
Hypothesis step_keep : ∀ b y x r, adm x = Some r → wf b → cmp r b ≠ Lt → step (Some (b, y)) x = Some (b, y).

(** The one kept: nothing before it is as good, nothing after it is better. *)
Definition first_best (l : list T) (best : option (R * T)) : Prop :=
  match best with
  | None => ∀ x, x ∈ l → adm x = None
  | Some (b, x) => ∃ l1 l2, l = l1 ++ x :: l2 ∧ adm x = Some b ∧
      (∀ y r, y ∈ l1 → adm y = Some r → cmp b r = Lt) ∧ (∀ y r, y ∈ l2 → adm y = Some r → cmp r b ≠ Lt)
  end.

Lemma fold_first_best l : first_best l (foldl step None l).
Proof.
  induction l as [|x l IH] using rev_ind; [intros x; set_solver|]. rewrite foldl_snoc.
  destruct (adm x) as [r|] eqn:Ex.
  - destruct (foldl step None l) as [[b y]|] eqn:El; cbn in IH.
    + destruct IH as (l1 & l2 & -> & Ey & H1 & H2). destruct (decide (cmp r b = Lt)) as [Hlt|Hge].
      * rewrite (step_some b y x r); eauto. exists (l1 ++ y :: l2), []. split_and!; try done; [|set_solver].
        intros z s Hz Ez. apply (cmp_lt_le cmp r b s); [done|].
        apply elem_of_app in Hz as [Hz|[->|Hz]%elem_of_cons]; [by rewrite (H1 z s)| |].
        { assert (s = b) as -> by congruence. by rewrite (cmp_refl cmp b). }
        specialize (H2 z s Hz Ez). rewrite (cmp_antisym (cmp := cmp)). by destruct (cmp s b).
      * rewrite (step_keep b y x r); eauto. exists l1, (l2 ++ [x]). split_and!; try done; [by rewrite <- app_assoc|].
        intros z s [Hz| ->%list_elem_of_singleton]%elem_of_app Ez; [eauto|by simplify_eq].
    + rewrite (step_first x r); [|done]. exists l, []. split_and!; try done; [|set_solver].
      intros y s Hy Ey. by rewrite (IH y Hy) in Ey.
  - rewrite step_none; [|done]. destruct (foldl step None l) as [[b y]|]; cbn in *.
    + destruct IH as (l1 & l2 & -> & Ey & H1 & H2). exists l1, (l2 ++ [x]). split_and!; try done; [by rewrite <- app_assoc|].
      intros z s [Hz| ->%list_elem_of_singleton]%elem_of_app Ez; [eauto|by simplify_eq].
    + intros y [Hy| ->%list_elem_of_singleton]%elem_of_app; auto.
Qed.
End best.

(** * Facts *)

Section facts.
Context `{Unicode, Mime} (ranges : list mediaRange).

Lemma governingRange_elem mt mr : governingRange ranges mt = Some mr → mr ∈ ranges ∧ matches mr mt = true.
Proof.
  unfold governingRange. revert mr. induction ranges as [|x l IH] using rev_ind; [done|]. intros mr. rewrite foldl_snoc.
  destruct (matches x mt && _) eqn:E; intros Hg; [simplify_eq; apply andb_true_iff in E|apply IH in Hg]; set_solver.
Qed.

Lemma alias_of_elem ct sent mr : alias_of ranges ct sent = Some mr → mr ∈ ranges.
Proof.
  unfold alias_of. revert mr. induction supportedTypes as [|[[typ subtype] sup] l IH] using rev_ind; [done|].
  intros mr. rewrite foldl_snoc. destruct (_ || _); [apply IH|].
  destruct (governingRange _ _) as [g|] eqn:E; [|apply IH]. destruct (_ && _); [|apply IH].
  intros [= <-]. by apply governingRange_elem in E as [??].
Qed.

Lemma weigh_elem ct sent mr : weigh ranges ct sent = Some mr → mr ∈ ranges.
Proof.
  unfold weigh. destruct (governingRange ranges sent) as [g|] eqn:E; [|apply alias_of_elem].
  destruct (range_named g); [|destruct (alias_of ranges ct sent) eqn:Ea; [|case_bool_decide]];
    intros [= <-]; [by apply governingRange_elem in E as [??]|by eapply alias_of_elem|by apply governingRange_elem in E as [??]].
Qed.

(** The range a type is admitted by: the one that weighs it, at a weight above zero. *)
Definition admitted (sends : sending) (ct : ContentType) : option mediaRange :=
  mr ← weigh ranges ct (sends_as sends ct); if fle (mr_q mr) f0 then None else Some mr.

Lemma admitted_elem sends ct r : admitted sends ct = Some r → r ∈ ranges.
Proof.
  unfold admitted. destruct (weigh _ _ _) as [mr|] eqn:E; [|done]. cbn. destruct (fle _ _); [done|].
  intros [= <-]. by eapply weigh_elem.
Qed.

Lemma better_first_best sends l :
  (∀ r, r ∈ ranges → mr_q r ≠ NaN) →
  first_best range_cmp (admitted sends) l (foldl (better ranges sends) None l).
Proof.
  intros Hq. pose proof (λ ct r E, Hq r (admitted_elem sends ct r E)) as Hwf.
  apply (fold_first_best range_cmp (admitted sends) _ (λ r, mr_q r ≠ NaN)); unfold admitted, better in *.
  - done.
  - intros best x. destruct (weigh _ _ _); [cbn; by destruct (fle _ _)|done].
  - intros x r. destruct (weigh _ _ _); [cbn; destruct (fle _ _); [done|by intros [= ->]]|done].
  - intros b y x r E Hb Hlt. specialize (Hwf x r E). destruct (weigh _ _ _); [cbn in E|done].
    destruct (fle _ _); [done|]. simplify_eq. by apply outranks_cmp in Hlt as ->.
  - intros b y x r E Hb Hlt. specialize (Hwf x r E). destruct (weigh _ _ _); [cbn in E|done].
    destruct (fle _ _); [done|]. simplify_eq. by destruct (outranks r b) eqn:Eo; [apply outranks_cmp in Eo|].
Qed.
End facts.

(** ** The code weighs as the specification says *)

Section weighing.
Context `{Unicode, Mime} (ranges : list mediaRange) (A : mediaRange → Prop).
Context (HA : ∀ r, r ∈ ranges ↔ A r) (Hsorted : StronglySorted (λ a b, mr_order a < mr_order b) ranges).
Context (Hwf : ∀ r, A r → mr_q r ≠ NaN ∧ size (mt_params (mr_type r)) < 100).

Lemma same_order a b : A a → A b → mr_order a = mr_order b → a = b.
Proof.
  rewrite <-!HA. clear -Hsorted. induction Hsorted as [|x l Hs IH Hf]; [by intros ?%not_elem_of_nil|].
  rewrite Forall_forall in Hf. rewrite !elem_of_cons. intros [->|Ha] [->|Hb] E; [done|..|by apply IH].
  - specialize (Hf b Hb). lia.
  - specialize (Hf a Ha). lia.
Qed.

Lemma more_specific_lt a b : A a → A b → more_specific a b ↔ specificity b < specificity a.
Proof. intros Ha Hb. symmetry. apply specificity_lt; by apply Hwf. Qed.

Lemma outranks_prefers a b : A a → A b → outranks a b = true ↔ prefers a b.
Proof.
  intros Ha Hb. destruct (Hwf a Ha) as [Qa _], (Hwf b Hb) as [Qb _]. unfold prefers, heavier, outranks.
  rewrite !more_specific_lt by done.
  pose proof (flt_compare _ _ Qb Qa) as F1. pose proof (flt_compare _ _ Qa Qb) as F2. pose proof (feq_compare _ _ Qa Qb) as F3.
  rewrite (cmp_antisym (cmp := float_compare)) in F1. rewrite F1, F2.
  destruct (feq (mr_q a) (mr_q b)) eqn:E; cbn [negb].
  - assert (float_compare (mr_q a) (mr_q b) = Eq) as -> by (by apply F3).
    destruct (Nat.eqb_spec (specificity a) (specificity b)) as [Es|Es]; cbn [negb]; rewrite Nat.ltb_lt; cbn.
    + split; [intros ?; right|intros [?|[_ [?|[_ ?]]]]]; [|done|lia|done]. split; [done|]. right. lia.
    + split; [intros ?; right|intros [?|[_ [?|[? _]]]]]; [|done|done|lia]. split; [done|]. by left.
  - assert (float_compare (mr_q a) (mr_q b) ≠ Eq) as Hne by (by intros E'%F3; rewrite E' in E).
    rewrite F1. destruct (float_compare (mr_q a) (mr_q b)); cbn; [done| |naive_solver].
    split; [by intros|]. intros [?|[? _]]; [done|]. done.
Qed.

Lemma governing_fold mt l : l `prefix_of` ranges →
  match foldl (λ governing mr, if matches mr mt && match governing with Some g => specificity g <? specificity mr | None => true end
                               then Some mr else governing) None l with
  | Some g => g ∈ l ∧ admits g mt ∧ ∀ r, r ∈ l → admits r mt →
      specificity r < specificity g ∨ specificity r = specificity g ∧ mr_order g ≤ mr_order r
  | None => ∀ r, r ∈ l → ¬ admits r mt
  end.
Proof.
  induction l as [|x l IH] using rev_ind; [by intros _ r ?%not_elem_of_nil|]. intros Hp. rewrite foldl_snoc.
  assert (∀ r, r ∈ l → mr_order r < mr_order x) as Hx.
  { intros r Hr. destruct Hp as [k E]. pose proof Hsorted as Hs. rewrite E, <-app_assoc in Hs.
    apply StronglySorted_app in Hs as (Hs & _ & _). apply Hs; [done|]. apply elem_of_app. left. by left. }
  assert (l `prefix_of` ranges) as Hl by (by eapply prefix_app_l). specialize (IH Hl).
  destruct (foldl _ None l) as [g|].
  - destruct IH as (Hg & Hga & Hbest). destruct (matches x mt && _) eqn:Em.
    + apply andb_true_iff in Em as [Em%matches_spec Es%Nat.ltb_lt]. split; [set_solver|]. split; [done|].
      intros r [Hr| ->%list_elem_of_singleton]%elem_of_app Hra; [|by right]. left. destruct (Hbest r Hr Hra); lia.
    + split; [set_solver|]. split; [done|]. intros r [Hr| ->%list_elem_of_singleton]%elem_of_app Hra; [by apply Hbest|].
      apply matches_spec in Hra. rewrite Hra in Em. cbn in Em. apply Nat.ltb_ge in Em. specialize (Hx g Hg). lia.
  - destruct (matches x mt) eqn:Em; cbn [andb].
    + apply matches_spec in Em. split; [set_solver|]. split; [done|].
      intros r [Hr| ->%list_elem_of_singleton]%elem_of_app Hra; [by destruct (IH r Hr)|by right].
    + intros r [Hr| ->%list_elem_of_singleton]%elem_of_app; [by apply IH|]. intros Hra%matches_spec. congruence.
Qed.

Lemma governs_iff g mt : governs A g mt ↔ governingRange ranges mt = Some g.
Proof.
  pose proof (governing_fold mt ranges) as Hf. fold (governingRange ranges mt) in Hf. specialize (Hf (reflexivity _)).
  assert (∀ g, governingRange ranges mt = Some g → governs A g mt) as Hto.
  { intros g' E. rewrite E in Hf. destruct Hf as (Hin & Hadm & Hbest). split; [by apply HA|]. split; [done|].
    intros r Hr Hra. apply HA in Hin. rewrite !more_specific_lt by done. apply HA in Hr. specialize (Hbest r Hr Hra). lia. }
  split; [|apply Hto]. intros (Ha & Hadm & Hbest). destruct (governingRange ranges mt) as [g'|] eqn:E.
  - destruct (Hto g' eq_refl) as (Ha' & Hadm' & Hbest'). f_equal. apply same_order; [done..|].
    destruct (Hbest g' Ha' Hadm') as [H1' H2'], (Hbest' g Ha Hadm) as [H3' H4'].
    destruct H2' as [H2'|H2']; [done|]. destruct H4' as [H4'|H4']; [done|]. lia.
  - by destruct (Hf g); [apply HA|].
Qed.

(** The aliases of a type the fold looks at. *)
Definition alias_among (l : list (string * string * ContentType)) (ct : ContentType) (sent : mediaType) (r : mediaRange) : Prop :=
  ∃ typ subtype, (typ, subtype, ct) ∈ l ∧ ¬ (typ = mt_typ sent ∧ subtype = mt_subtype sent) ∧
    governs A r (mkMediaType typ subtype (mt_params sent)) ∧ names r ∧ flt f0 (mr_q r) = true.

Lemma alias_snoc l typ subtype sup_ct ct sent r :
  alias_among (l ++ [(typ, subtype, sup_ct)]) ct sent r ↔
  alias_among l ct sent r ∨
  sup_ct = ct ∧ ¬ (typ = mt_typ sent ∧ subtype = mt_subtype sent) ∧
    governs A r (mkMediaType typ subtype (mt_params sent)) ∧ names r ∧ flt f0 (mr_q r) = true.
Proof.
  split.
  - intros (t & u & [Hin|E%list_elem_of_singleton]%elem_of_app & Hr); [left; exists t, u; done|right]. by simplify_eq.
  - intros [(t & u & Hin & Hr)|(-> & Hr)]; [exists t, u|exists typ, subtype]; (split; [apply elem_of_app|done]); [by left|right; by left].
Qed.

Lemma alias_A l ct sent r : alias_among l ct sent r → A r.
Proof. by intros (? & ? & _ & _ & (? & _) & _). Qed.

Definition alias_step (ct : ContentType) (sent : mediaType) (alias : option mediaRange) (sup : string * string * ContentType)
    : option mediaRange :=
  let '(typ, subtype, sup_ct) := sup in
  if negb (bool_decide (sup_ct = ct)) || bool_decide (typ = mt_typ sent) && bool_decide (subtype = mt_subtype sent) then alias
  else
    match governingRange ranges (mkMediaType typ subtype (mt_params sent)) with
    | Some mr =>
        if range_named mr && flt f0 (mr_q mr) && match alias with Some a => outranks mr a | None => true end
        then Some mr else alias
    | None => alias
    end.

Lemma alias_fold ct sent l :
  match foldl (alias_step ct sent) None l with
  | Some a => alias_among l ct sent a ∧ ∀ r, alias_among l ct sent r → range_cmp r a ≠ Lt
  | None => ∀ r, ¬ alias_among l ct sent r
  end.
Proof.
  induction l as [|[[typ subtype] sup_ct] l IH] using rev_ind; [by intros r (? & ? & ?%not_elem_of_nil & _)|].
  rewrite foldl_snoc. set (acc := foldl _ None l) in *. unfold alias_step at 1.
  assert (∀ r, r = r → (sup_ct = ct ∧ ¬ (typ = mt_typ sent ∧ subtype = mt_subtype sent) ∧
    governs A r (mkMediaType typ subtype (mt_params sent)) ∧ names r ∧ flt f0 (mr_q r) = true → False) →
    alias_among (l ++ [(typ, subtype, sup_ct)]) ct sent r → alias_among l ct sent r) as Hold.
  { intros r _ Hno [?|?]%alias_snoc; [done|by destruct Hno]. }
  assert (∀ a, alias_among l ct sent a → alias_among (l ++ [(typ, subtype, sup_ct)]) ct sent a) as Hkeep
    by (intros a Ha; apply alias_snoc; by left).
  assert ((∀ r, alias_among (l ++ [(typ, subtype, sup_ct)]) ct sent r → alias_among l ct sent r) →
    match acc with
    | Some a => alias_among (l ++ [(typ, subtype, sup_ct)]) ct sent a ∧
        ∀ r, alias_among (l ++ [(typ, subtype, sup_ct)]) ct sent r → range_cmp r a ≠ Lt
    | None => ∀ r, ¬ alias_among (l ++ [(typ, subtype, sup_ct)]) ct sent r
    end) as Hsame.
  { intros Hl. destruct acc as [a|]; [destruct IH as [Ha Hb]; split; auto|]. intros r Hr. by apply (IH r), Hl. }
  destruct (negb _ || _) eqn:Esk.
  { apply Hsame. intros r. apply Hold; [done|]. intros (-> & Hne & _). rewrite bool_decide_true in Esk by done. cbn in Esk.
    apply andb_true_iff in Esk as [?%bool_decide_eq_true ?%bool_decide_eq_true]. by apply Hne. }
  apply orb_false_iff in Esk as [Ect%negb_false_iff%bool_decide_eq_true Ene].
  destruct (governingRange ranges _) as [g|] eqn:Eg.
  2: { apply Hsame. intros r. apply Hold; [done|]. intros (_ & _ & Hg%governs_iff & _). congruence. }
  apply governs_iff in Eg. destruct (range_named g && flt f0 (mr_q g)) eqn:En; cbn [andb].
  2: { apply Hsame. intros r. apply Hold; [done|]. intros (_ & _ & Hg%governs_iff & Hn & Hq). apply governs_iff in Eg.
    assert (r = g) as -> by congruence. apply range_named_spec in Hn. by rewrite Hn, Hq in En. }
  apply andb_true_iff in En as [En%range_named_spec Eq].
  assert (alias_among (l ++ [(typ, subtype, sup_ct)]) ct sent g) as Hg.
  { apply alias_snoc. right. split_and!; try done. intros [E1 E2]. by rewrite !bool_decide_true in Ene. }
  assert (∀ r, alias_among (l ++ [(typ, subtype, sup_ct)]) ct sent r → alias_among l ct sent r ∨ r = g) as Hor.
  { intros r [?|(_ & _ & Hr%governs_iff & _)]%alias_snoc; [by left|right]. apply governs_iff in Eg. congruence. }
  destruct acc as [a|].
  - destruct IH as [Ha Hb]. pose proof (outranks_cmp g a (proj1 (Hwf g (alias_A _ _ _ _ Hg))) (proj1 (Hwf a (alias_A _ _ _ _ Ha)))) as Hc.
    destruct (outranks g a).
    + split; [done|]. intros r [Hr| ->]%Hor; [|by rewrite (cmp_refl range_cmp)]. intros Hlt.
      apply (Hb r Hr). apply (cmp_lt_le range_cmp r g a); [done|]. by rewrite (proj1 Hc).
    + split; [auto|]. intros r [Hr| ->]%Hor; [by apply Hb|]. intros Hlt. by apply Hc in Hlt.
  - split; [done|]. intros r [Hr| ->]%Hor; [by destruct (IH r)|by rewrite (cmp_refl range_cmp)].
Qed.

Lemma range_cmp_eq a b : A a → A b → range_cmp a b = Eq → a = b.
Proof.
  unfold range_cmp. intros Ha Hb. rewrite !cmp_or_eq. intros (_ & _ & E%Nat.compare_eq). by apply same_order.
Qed.

Lemma prefers_cmp a b : A a → A b → prefers a b ↔ range_cmp a b = Lt.
Proof. intros Ha Hb. rewrite <-outranks_prefers, outranks_cmp by (done || by apply Hwf). done. Qed.

Lemma alias_of_fold ct sent : alias_of ranges ct sent = foldl (alias_step ct sent) None supportedTypes.
Proof. unfold alias_of, alias_step. generalize supportedTypes. by intros l. Qed.

Lemma alias_of_iff ct sent :
  match alias_of ranges ct sent with
  | Some a => by_alias A ct sent a ∧ (∀ r, by_alias A ct sent r → ¬ prefers r a) ∧
      ∀ b, by_alias A ct sent b → (∀ r, by_alias A ct sent r → ¬ prefers r b) → b = a
  | None => ∀ r, ¬ by_alias A ct sent r
  end.
Proof.
  pose proof (alias_fold ct sent supportedTypes) as Hf. rewrite <-(alias_of_fold ct sent) in Hf.
  change (alias_among supportedTypes) with (by_alias A) in Hf. destruct (alias_of ranges ct sent) as [a|]; [|done].
  destruct Hf as [Ha Hb]. assert (∀ r, by_alias A ct sent r → ¬ prefers r a) as Hc.
  { intros r Hr. rewrite prefers_cmp; [by apply Hb|by eapply alias_A|by eapply alias_A]. }
  split_and!; [done..|]. intros b Hbb Hbest. apply range_cmp_eq; [by eapply alias_A..|].
  specialize (Hb b Hbb). specialize (Hbest a Ha). rewrite prefers_cmp in Hbest by (by eapply alias_A).
  rewrite (cmp_antisym (cmp := range_cmp)) in Hbest. by destruct (range_cmp b a).
Qed.

Lemma weigh_iff ct sent w : weigh ranges ct sent = Some w ↔ weighed_by A ct sent w.
Proof.
  pose proof (alias_of_iff ct sent) as Ha. pose proof (λ r, governs_iff r sent) as Hg. unfold weigh, weighed_by.
  destruct (governingRange ranges sent) as [g|] eqn:Eg.
  - assert (governs A g sent) as Hgov by (by apply Hg). assert (∀ r, governs A r sent → r = g) as Hu.
    { intros r Hr%Hg. congruence. }
    destruct (range_named g) eqn:En.
    + apply range_named_spec in En. split; [intros Ew; injection Ew as <-; left; split; assumption|].
      intros [[Hw _]|[Hno _]]; [rewrite (Hu w Hw); reflexivity|]. destruct (Hno g Hgov En).
    + assert (∀ r, governs A r sent → ¬ names r) as Hno.
      { intros r Hr Hn. rewrite (Hu r Hr) in Hn. apply range_named_spec in Hn. congruence. }
      destruct (alias_of ranges ct sent) as [a|].
      * destruct Ha as (Ha & Hb & Hua). split.
        -- intros Ew; injection Ew as <-. right. split; [exact Hno|left]. split; assumption.
        -- intros [[Hw Hn]|[_ [[Hw Hwb]|[Hnone _]]]]; [destruct (Hno w Hw Hn)|rewrite (Hua w Hw Hwb); reflexivity|destruct (Hnone a Ha)].
      * case_bool_decide as Ect.
        -- split; [discriminate|]. intros [[Hw Hn]|[_ [[Hw _]|(_ & _ & ?)]]]; [destruct (Hno w Hw Hn)|destruct (Ha w Hw)|contradiction].
        -- split; [intros Ew; injection Ew as <-; right; split; [exact Hno|right; split_and!; assumption]|].
           intros [[Hw Hn]|[_ [[Hw _]|(_ & Hw & _)]]]; [destruct (Hno w Hw Hn)|destruct (Ha w Hw)|rewrite (Hu w Hw); reflexivity].
  - assert (∀ r, ¬ governs A r sent) as Hno by (intros r Hr%Hg; congruence).
    destruct (alias_of ranges ct sent) as [a|].
    + destruct Ha as (Ha & Hb & Hua). split.
      * intros Ew; injection Ew as <-. right. split; [intros r Hr; destruct (Hno r Hr)|left]. split; assumption.
      * intros [[Hw _]|[_ [[Hw Hwb]|(_ & Hw & _)]]]; [destruct (Hno w Hw)|rewrite (Hua w Hw Hwb); reflexivity|destruct (Hno w Hw)].
    + split; [discriminate|]. intros [[Hw _]|[_ [[Hw _]|(_ & Hw & _)]]]; [destruct (Hno w Hw)|destruct (Ha w Hw)|destruct (Hno w Hw)].
Qed.

Lemma fle_zero x : x ≠ NaN → fle x f0 = negb (flt f0 x).
Proof.
  intros Hx. unfold fle. pose proof (flt_compare x f0 Hx ltac:(done)) as F1. pose proof (flt_compare f0 x ltac:(done) Hx) as F2.
  pose proof (feq_compare x f0 Hx ltac:(done)) as F3. rewrite (cmp_antisym (cmp := float_compare)) in F2.
  destruct (flt x f0), (feq x f0), (flt f0 x), (float_compare x f0); cbn in *; try done;
    first [by specialize (proj1 F1 eq_refl)|by specialize (proj1 F2 eq_refl)|by specialize (proj1 F3 eq_refl)
          |by specialize (proj2 F1 eq_refl)|by specialize (proj2 F2 eq_refl)|by specialize (proj2 F3 eq_refl)].
Qed.

Lemma weighed_A ct sent w : weighed_by A ct sent w → A w.
Proof. intros [[[? _] _]|[_ [[Hw _]|(_ & [? _] & _)]]]; [done|by eapply alias_A|done]. Qed.

Lemma admitted_iff sends ct w : admitted ranges sends ct = Some w ↔ accepted_by A sends ct w.
Proof.
  unfold admitted, accepted_by. rewrite <-weigh_iff. destruct (weigh ranges ct (sends_as sends ct)) as [mr|] eqn:E; cbn.
  - rewrite fle_zero by (apply Hwf, HA; by eapply weigh_elem). destruct (flt f0 (mr_q mr)) eqn:Eq; cbn.
    + split; [intros [= ->]; done|]. by intros [[= ->] _].
    + split; [done|]. intros [E' Hf]. injection E' as <-. change (flt f0 (mr_q mr) = true) in Hf. congruence.
  - split; [done|]. by intros [? _].
Qed.
End weighing.

(** An endpoint's types in the server's order of preference. *)
Definition offered (serves : list ContentType) : list ContentType :=
  filter (λ ct, serves_type (Some serves) ct = true) contentTypeOrder.

Lemma elem_of_offered serves ct : ct ∈ offered serves ↔ ct ∈ serves ∧ ct ∈ contentTypeOrder.
Proof. unfold offered, serves_type. by rewrite list_elem_of_filter, bool_decide_eq_true. Qed.

Lemma no_answer ct serves :
  serves ⊆ contentTypeOrder →
  bool_decide ((if negb (bool_decide (TypeUnsupported = TypeUnsupported)) || bool_decide (ct ∈ serves)
                then TypeUnsupported else ct) ∈ serves) || true && false = false.
Proof.
  intros Hsub. rewrite andb_false_r, orb_false_r. apply bool_decide_eq_false.
  rewrite (bool_decide_true (TypeUnsupported = _)) by done. cbn [negb orb]. case_bool_decide as Hct; [|done].
  intros Hin%Hsub. revert Hin. apply (bool_decide_unpack _). vm_compute. exact I.
Qed.

#[local] Opaque contentTypeOrder offered.


#[local] Existing Instance ascii_unicode.

(** Parameters of tokens only, and weights of one decimal. *)
#[local] Instance plain_mime : Mime := {|
  ParseMediaType s :=
    match split_byte ";" s with
    | [] => None
    | full :: params => Some (ToLower (TrimSpace full), list_to_map (map (λ p, let '(k, v, _) := Cut p "=" in (ToLower (TrimSpace k), TrimSpace v)) params))
    end;
  ParseFloat s :=
    if bool_decide (s = "nan") then Some NaN else if bool_decide (s = "inf") then Some PosInf else
    let '(whole, tenths, _) := Cut s "." in
    w ← Atoi whole; t ← Atoi (if is_empty tenths then "0" else tenths); Some (Finite (Qmake (w * 10 + t) 10));
|}.

Definition demo_accept : string := "text/html;q=0.5, application/*;q=0.5, application/atom+xml;q=0".
Definition demo_request : negotiation := negotiated demo_accept TypeUnsupported "".
Definition demo_serves : list ContentType := [TypeJSON; TypeHTML; TypeAtom].


(** A weight is used as it is given: one above 1 outranks a plain preference,
    and one that is not a number admits its type; in Accept-Encoding the
    first counts as 1. *)
Example weights_not_clamped :
  bestMatch (parseAcceptRanges "text/html, text/csv;q=5") = TypeCSV ∧
  bestMatch (parseAcceptRanges "text/html;q=nan") = TypeHTML ∧
  resolveEncoding "gzip, zstd;q=5" = resolveEncoding "gzip, zstd".
Proof. vm_compute. auto. Qed.

(** The arms of dispatch, and its 406. *)
Example dispatched :
  let feeds := mkFeeds true true false false in
  dispatch feeds true "text/csv" (negotiated "text/csv" TypeUnsupported "") = None ∧
  dispatch feeds true "*/*" (negotiated "*/*" TypeUnsupported "") = Some TypeJSON ∧
  dispatch feeds true "text/csv" (negotiated "text/csv" TypeAtom ".atom") = Some TypeAtom ∧
  dispatch feeds false "text/event-stream" (negotiated "text/event-stream" TypeUnsupported "") = None.
Proof. vm_compute. auto. Qed.

Example suffixes :
  (negotiate "GET" "" "/services/web.json" (mkPath "/services/web.json" "")).2 = mkPath "/services/web" "" ∧
  (negotiate "PUT" "" "/services/web.json" (mkPath "/services/web.json" "")).2 = mkPath "/services/web.json" "" ∧
  (negotiate "GET" "" "/stacks/a%2Fb.yaml" (mkPath "/stacks/a/b.yaml" "/stacks/a%2Fb.yaml")).2 = mkPath "/stacks/a/b" "/stacks/a%2Fb" ∧
  (negotiate "GET" "" "/nodes/n1.yaml" (mkPath "/nodes/n1.yaml" "")).2 = mkPath "/nodes/n1.yaml" "".
Proof. vm_compute. auto. Qed.

Example waits : preferWait ["respond-async, wait=900"] = Some 300%Z ∧ preferWait ["wait=-1"] = None ∧ preferMinimal ["return=minimal; x"] = true.
Proof. vm_compute. auto. Qed.
