(* ===== verification/Patch.v ===== *)
(** Patches to labels and specs: internal/api/jsonpatch.go (RFC 6902 over a flat
    map), the two patch kinds parsePatchMutator of write_helpers.go accepts, and
    mergePatch of write_service_handlers.go (RFC 7396 over decoded JSON). Decoding
    JSON is the library's: the operations and documents are taken decoded. *)
From S2P Require Import Prelude GoStrings.
#[local] Open Scope string_scope.
#[local] Open Scope nat_scope.

(** * JSON Pointers *)

(** Why an operation does not apply; testFailedError is one of its own. *)
Inductive patchError :=
| ReachesInside (path : string)
| BadTilde (path : string)
| EmptyPath (op : nat)
| NoSuchKey (op : nat) (key : string)
| Unsupported (op : nat) (name : string)
| UnknownOperation (op : nat) (name : string)
| TestFailed (key expected actual : string).

(** Every ~ is followed by 0 or 1; a turn a ~. *)
Fixpoint tildes_ok (fuel : nat) (rest : string) : bool :=
  match fuel with
  | O => true
  | S fuel =>
      match Cut rest "~" with
      | (_, _, false) => true
      | (_, "", true) => false
      | (_, String c rest, true) => (Ascii.eqb c "0" || Ascii.eqb c "1") && tildes_ok fuel rest
      end
  end.

Definition pointerKey (p : string) : patchError + string :=
  let token := TrimPrefix p "/" in
  if Contains token "/" then inl (ReachesInside p) else
  if negb (tildes_ok (S (String.length token)) token) then inl (BadTilde p) else
  inr (ReplaceAll (ReplaceAll token "~1" "/") "~0" "~").

(** * JSON Patch *)

Record PatchOp := mkOp { Op : string; Path : string; OpValue : string }.

(** The [i]th operation on the map so far. *)
Definition apply_op (i : nat) (op : PatchOp) (result : gmap string string)
    : patchError + gmap string string :=
  match pointerKey (Path op) with
  | inl err => inl err
  | inr key =>
      if is_empty key then inl (EmptyPath i) else
      let existing (k : string → patchError + gmap string string) :=
        match result !! key with Some v => k v | None => inl (NoSuchKey i key) end in
      if bool_decide (Op op = "add") then inr (<[key := OpValue op]> result)
      else if bool_decide (Op op = "remove") then existing (λ _, inr (delete key result))
      else if bool_decide (Op op = "replace") then existing (λ _, inr (<[key := OpValue op]> result))
      else if bool_decide (Op op = "test") then
        match result !! key with
        | None => inl (TestFailed key (OpValue op) "(missing)")
        | Some v => if bool_decide (v = OpValue op) then inr result else inl (TestFailed key (OpValue op) v)
        end
      else if bool_decide (Op op = "move") || bool_decide (Op op = "copy") then inl (Unsupported i (Op op))
      else inl (UnknownOperation i (Op op))
  end.

Fixpoint apply_ops (i : nat) (ops : list PatchOp) (result : gmap string string)
    : patchError + gmap string string :=
  match ops with
  | [] => inr result
  | op :: ops =>
      match apply_op i op result with
      | inl err => inl err
      | inr result => apply_ops (S i) ops result
      end
  end.

Definition applyJSONPatch (m : gmap string string) (ops : list PatchOp) : patchError + gmap string string :=
  apply_ops 0 ops m.

(** * Merge patch of a flat map *)

(** [None] is JSON's null; [current] is nil or a map. *)
Definition merge_labels `{MapRange} (patch : gmap string (option string))
    (current : option (gmap string string)) : gmap string string :=
  foldl (λ out '(k, v), match v with None => delete k out | Some v => <[k := v]> out end)
    (default ∅ current) (range patch).

Inductive patch := JSONPatch (ops : list PatchOp) | MergePatch (members : gmap string (option string)).

(** parsePatchMutator's mutator. *)
Definition mutator `{MapRange} (p : patch) (current : option (gmap string string)) : patchError + gmap string string :=
  match p with
  | JSONPatch ops => applyJSONPatch (default ∅ current) ops
  | MergePatch members => inr (merge_labels members current)
  end.

(** The problem code of a failed patch. *)
Definition patch_code (err : patchError) : string :=
  match err with TestFailed _ _ _ => "API010" | _ => "API011" end.

(** * Merge patch of a document *)

(** A decoded JSON document; an object's members, each name once. *)
Inductive json :=
| JNull
| JBool (b : bool)
| JNumber (n : string)
| JString (s : string)
| JArray (l : list json)
| JObject (members : list (string * json)).

Abbreviation object := (list (string * json)).

Fixpoint member (k : string) (o : object) : option json :=
  match o with
  | [] => None
  | (k', v) :: o => if bool_decide (k' = k) then Some v else member k o
  end.

(** base[k] = v and delete(base, k). *)
Fixpoint put (k : string) (v : json) (o : object) : object :=
  match o with
  | [] => [(k, v)]
  | (k', v') :: o => if bool_decide (k' = k) then (k, v) :: o else (k', v') :: put k v o
  end.

Definition del (k : string) (o : object) : object := List.filter (λ m, negb (bool_decide (m.1 = k))) o.

Fixpoint mergePatch (base : object) (patch : json) {struct patch} : object :=
  match patch with
  | JObject patch =>
      fold_left (λ base '(k, v),
        match v with
        | JNull => del k base
        | JObject _ =>
            match member k base with
            | Some (JObject baseObj) => put k (JObject (mergePatch baseObj v)) base
            | _ => put k v base
            end
        | _ => put k v base
        end) patch base
  | _ => base
  end.

(** RFC 7396, section 2: what a patch makes of a target. *)
Fixpoint MergePatch_rfc (target : option json) (patch : json) {struct patch} : json :=
  match patch with
  | JObject patch =>
      let base := match target with Some (JObject base) => base | _ => [] end in
      JObject (fold_left (λ base '(k, v),
        match v with
        | JNull => del k base
        | _ => put k (MergePatch_rfc (member k base) v) base
        end) patch base)
  | _ => patch
  end.

(** * Pointers are the escaped keys *)

(** RFC 6901's escaping of a key. *)
Fixpoint escape (key : string) : string :=
  match key with
  | "" => ""
  | String c key =>
      if Ascii.eqb c "~" then String "~" (String "0" (escape key))
      else if Ascii.eqb c "/" then String "~" (String "1" (escape key))
      else String c (escape key)
  end.

(** The key once "~1" is resolved. *)
Fixpoint half_escaped (key : string) : string :=
  match key with
  | "" => ""
  | String c key =>
      if Ascii.eqb c "~" then String "~" (String "0" (half_escaped key)) else String c (half_escaped key)
  end.

Lemma HasPrefix_two c a b s :
  c ≠ a → HasPrefix (String c s) (String a (String b "")) = false.
Proof. intros Hc. cbn [HasPrefix]. by rewrite (proj2 (Ascii.eqb_neq a c)). Qed.

Lemma resolve_slash key : ReplaceAll (escape key) "~1" "/" = half_escaped key.
Proof.
  unfold ReplaceAll. induction key as [|c key IH]; [done|]. cbn [escape half_escaped].
  destruct (Ascii.eqb_spec c "~") as [->|Hc].
  - cbn [replace_from]. change (HasPrefix (String "~" (String "0" (escape key))) "~1") with false.
    rewrite HasPrefix_two by done. by rewrite IH.
  - destruct (Ascii.eqb_spec c "/") as [->|Hs]; cbn [replace_from].
    + change (HasPrefix (String "~" (String "1" (escape key))) "~1") with true. simpl. by rewrite IH.
    + rewrite HasPrefix_two by done. by rewrite IH.
Qed.

Lemma resolve_tilde key : ReplaceAll (half_escaped key) "~0" "~" = key.
Proof.
  unfold ReplaceAll. induction key as [|c key IH]; [done|]. cbn [half_escaped].
  destruct (Ascii.eqb_spec c "~") as [->|Hc]; cbn [replace_from].
  - change (HasPrefix (String "~" (String "0" (half_escaped key))) "~0") with true. simpl. by rewrite IH.
  - rewrite HasPrefix_two by done. by rewrite IH.
Qed.

(** What the loop over tildes checks, a byte at a time. *)
Fixpoint tildes (t : string) : bool :=
  match t with
  | "" => true
  | String "~" "" => false
  | String "~" (String c t) => (Ascii.eqb c "0" || Ascii.eqb c "1") && tildes t
  | String _ t => tildes t
  end.

Lemma tildes_cons c t : c ≠ "~"%char → tildes (String c t) = tildes t.
Proof. intros Hc. destruct c as [[] [] [] [] [] [] [] []]; done. Qed.

Lemma Cut_cons c sep t : sep ≠ c →
  Cut (String c t) (String sep "") =
  let '(before, after, found) := Cut t (String sep "") in (String c before, after, found).
Proof.
  intros Hc. unfold Cut. cbn [cut_at HasPrefix]. rewrite (proj2 (Ascii.eqb_neq sep c)) by done. simpl.
  by destruct (cut_at _ t) as [[before after]|].
Qed.

Lemma Cut_here sep t : Cut (String sep t) (String sep "") = ("", t, true).
Proof. unfold Cut. cbn [cut_at HasPrefix]. rewrite Ascii.eqb_refl. by destruct t. Qed.

Lemma tildes_ok_spec fuel t : String.length t < fuel → tildes_ok fuel t = tildes t.
Proof.
  revert t. induction fuel as [|fuel IH]; intros t Hl; [lia|].
  assert (∀ n u, String.length u <= n → String.length u < S fuel → tildes_ok (S fuel) u = tildes u) as Hu; [|by eapply Hu].
  induction n as [|n IHn]; intros u Hn Hf; [by destruct u; simpl in *; [|lia]|].
  destruct u as [|c u]; [done|]. destruct (decide (c = "~"%char)) as [->|Hc].
  - cbn [tildes_ok]. rewrite Cut_here. destruct u as [|d u]; [done|]. cbn [tildes].
    rewrite IH by (simpl in Hf; lia). done.
  - rewrite tildes_cons by done. rewrite <-IHn by (simpl in Hn, Hf; lia). cbn [tildes_ok].
    rewrite Cut_cons by done. by destruct (Cut u "~") as [[before after] []].
Qed.

Lemma Contains_cons c sep t :
  Contains (String c t) (String sep "") = Ascii.eqb sep c || Contains t (String sep "").
Proof.
  unfold Contains. cbn [cut_at HasPrefix]. rewrite andb_true_r. destruct (Ascii.eqb sep c); simpl.
  - done.
  - by destruct (cut_at _ t) as [[before after]|].
Qed.

Lemma escape_ok key : Contains (escape key) "/" = false ∧ tildes (escape key) = true.
Proof.
  induction key as [|c key [IH1 IH2]]; [done|]. cbn [escape]. destruct (Ascii.eqb_spec c "~").
  - rewrite !Contains_cons, IH1. split; [done|exact IH2].
  - destruct (Ascii.eqb_spec c "/") as [->|Hs]; rewrite !Contains_cons, IH1; [split; [done|exact IH2]|].
    rewrite tildes_cons by done. split; [|done]. by rewrite (proj2 (Ascii.eqb_neq "/" c)).
Qed.

Lemma escaped_if_ok t : Contains t "/" = false → tildes t = true → ∃ key, t = escape key.
Proof.
  assert (∀ n u, String.length u <= n → Contains u "/" = false → tildes u = true → ∃ key, u = escape key) as Hn;
    [|by eapply Hn].
  induction n as [|n IH]; intros u Hl Hs Ht; [by destruct u; simpl in *; [exists ""|lia]|].
  destruct u as [|c u]; [by exists ""|]. rewrite Contains_cons in Hs. apply orb_false_iff in Hs as [Hc Hs].
  destruct (decide (c = "~"%char)) as [->|Hn].
  - destruct u as [|d u]; [done|]. cbn [tildes] in Ht. apply andb_true_iff in Ht as [Hd Ht].
    rewrite Contains_cons in Hs. apply orb_false_iff in Hs as [_ Hs].
    destruct (IH u) as [key ->]; [simpl in Hl; lia|done..|].
    apply orb_true_iff in Hd as [->%Ascii.eqb_eq| ->%Ascii.eqb_eq]; [by exists (String "~" key)|by exists (String "/" key)].
  - rewrite tildes_cons in Ht by done. destruct (IH u) as [key ->]; [simpl in Hl; lia|done..|].
    exists (String c key). cbn [escape]. rewrite (proj2 (Ascii.eqb_neq c "~")) by done.
    rewrite (Ascii.eqb_sym "/" c) in Hc. by rewrite Hc.
Qed.

Lemma escape_inj k1 k2 : escape k1 = escape k2 → k1 = k2.
Proof. intros H. by rewrite <-(resolve_tilde k1), <-(resolve_tilde k2), <-!resolve_slash, H. Qed.

Lemma pointerKey_escape p key : pointerKey p = inr key ↔ TrimPrefix p "/" = escape key.
Proof.
  unfold pointerKey. set (token := TrimPrefix p "/"). rewrite tildes_ok_spec by lia. split.
  - destruct (Contains token "/") eqn:Ec; [done|]. destruct (tildes token) eqn:Et; [|done]. simpl.
    destruct (escaped_if_ok token Ec Et) as [k ->]. rewrite resolve_slash, resolve_tilde. by intros [= ->].
  - intros ->. destruct (escape_ok key) as [-> ->]. simpl. by rewrite resolve_slash, resolve_tilde.
Qed.

(** * JSON Patch, key by key *)

(** What the operations leave at a key. *)
Definition op_value (key : string) (v : option string) (op : PatchOp) : option string :=
  if bool_decide (TrimPrefix (Path op) "/" = escape key) then
    if bool_decide (Op op = "add") || bool_decide (Op op = "replace") then Some (OpValue op)
    else if bool_decide (Op op = "remove") then None else v
  else v.

Definition value_after (key : string) (ops : list PatchOp) (v : option string) : option string :=
  foldl (op_value key) v ops.

(** What an operation asks of the key it names. *)
Definition op_allows (op : PatchOp) (v : option string) : Prop :=
  Op op = "add" ∨ (Op op = "remove" ∨ Op op = "replace") ∧ is_Some v ∨ Op op = "test" ∧ v = Some (OpValue op).

Lemma op_value_here key v op :
  TrimPrefix (Path op) "/" = escape key →
  op_value key v op = if bool_decide (Op op = "add") || bool_decide (Op op = "replace") then Some (OpValue op)
                      else if bool_decide (Op op = "remove") then None else v.
Proof. intros H. unfold op_value. by rewrite bool_decide_true. Qed.

Lemma op_value_other key k v op :
  TrimPrefix (Path op) "/" = escape key → k ≠ key → op_value k v op = v.
Proof. intros H Hk. unfold op_value. rewrite bool_decide_false; [done|]. rewrite H. by intros ->%escape_inj. Qed.

(** An update of the key an operation names is what it leaves everywhere. *)
Lemma op_leaves key op (m m' : gmap string string) :
  TrimPrefix (Path op) "/" = escape key →
  (∀ k, m' !! k = op_value k (m !! k) op) ↔ m' = partial_alter (λ _, op_value key (m !! key) op) key m.
Proof.
  intros Hp. split.
  - intros Hm. apply map_eq. intros k. rewrite Hm. destruct (decide (k = key)) as [->|Hk].
    + by rewrite lookup_partial_alter_eq.
    + rewrite lookup_partial_alter_ne by done. by apply (op_value_other key).
  - intros -> k. destruct (decide (k = key)) as [->|Hk].
    + by rewrite lookup_partial_alter_eq.
    + rewrite lookup_partial_alter_ne by done. symmetry. by apply (op_value_other key).
Qed.

Lemma op_refused {A B C : Prop} {T U} (e : T) (x : U) : ¬ B → inl e = inr x ↔ A ∧ B ∧ C.
Proof. intros Hn. split; [done|by intros (_ & ? & _)]. Qed.

Lemma op_accepted {A B : Prop} {T U} (r x y : U) : A → B → r = y → @inr T U r = inr x ↔ A ∧ B ∧ x = y.
Proof. intros HA HB ->. split; [by intros [= ->]|by intros (_ & _ & ->)]. Qed.

Lemma apply_op_spec i op m m' :
  apply_op i op m = inr m' ↔
  ∃ key, TrimPrefix (Path op) "/" = escape key ∧ key ≠ "" ∧ op_allows op (m !! key) ∧
    ∀ k, m' !! k = op_value k (m !! k) op.
Proof.
  unfold apply_op. destruct (pointerKey (Path op)) as [err|key] eqn:Ep.
  { split; [done|]. intros (key & Hk%pointerKey_escape & _). congruence. }
  apply pointerKey_escape in Ep as Hp.
  assert (∀ (P : string → Prop), (∃ k, TrimPrefix (Path op) "/" = escape k ∧ P k) ↔ P key) as Hex.
  { intros P. split; [|by exists key]. intros (k & Hk & HP). rewrite Hp in Hk. by apply escape_inj in Hk as ->. }
  rewrite (Hex (λ key, key ≠ "" ∧ op_allows op (m !! key) ∧ ∀ k, m' !! k = op_value k (m !! k) op)).
  rewrite (op_leaves key), op_value_here by done. unfold op_allows.
  destruct (is_empty key) eqn:Ee; [apply is_empty_spec in Ee; split; [done|by intros [? _]]|].
  assert (key ≠ "") as Hne by (intros ->; done).
  fold (op_allows op (m !! key)).
  repeat case_bool_decide; simplify_eq/=; try congruence.
  all: destruct (m !! key) as [v|] eqn:Em; simpl.
  all: try (case_bool_decide; simplify_eq).
  all: first [apply op_refused; intros [?|[[[?|?] [? ?]]|[? ?]]]; congruence | apply op_accepted; [done| |]].
  all: try by (unfold op_allows; eauto 6).
  all: try done.
  all: change (m = <[key := OpValue op]> m); by rewrite insert_id.
Qed.

Lemma value_after_snoc key ops op v : value_after key (ops ++ [op]) v = op_value key (value_after key ops v) op.
Proof. apply foldl_snoc. Qed.

Lemma apply_ops_spec ops i m m' :
  apply_ops i ops m = inr m' ↔
  (∀ j op, ops !! j = Some op → ∃ key, TrimPrefix (Path op) "/" = escape key ∧ key ≠ "" ∧
     op_allows op (value_after key (take j ops) (m !! key))) ∧
  ∀ k, m' !! k = value_after k ops (m !! k).
Proof.
  revert i m. induction ops as [|op ops IH]; intros i m; simpl.
  { split; [by intros [= ->]|]. intros [_ Hm]. f_equal. by apply map_eq. }
  destruct (apply_op i op m) as [err|m1] eqn:E.
  - split; [done|]. intros [Hops _]. destruct (Hops 0 op eq_refl) as (key & Hp & Hne & Ha).
    assert (apply_op i op m = inr (partial_alter (λ _, op_value key (m !! key) op) key m)) as He; [|congruence].
    apply apply_op_spec. exists key. split; [done|]. split; [done|]. split; [done|]. by apply (op_leaves key op).
  - apply apply_op_spec in E as (key & Hp & Hne & Ha & Hm1). rewrite IH. split.
    + intros [Hops Hm]. split; [|by intros k; rewrite Hm, Hm1]. intros [|j] op' Hj; simpl in Hj.
      * injection Hj as <-. by exists key.
      * destruct (Hops j op' Hj) as (k & ? & ? & ?). exists k. simpl. by rewrite <-Hm1.
    + intros [Hops Hm]. split; [|by intros k; rewrite Hm, Hm1]. intros j op' Hj.
      destruct (Hops (S j) op' Hj) as (k & ? & ? & Hk). exists k. simpl in Hk. by rewrite Hm1.
Qed.

Lemma fold_members (l : list (string * option string)) (out : gmap string string) k : NoDup l.*1 →
  foldl (λ out '(k, v), match v with None => delete k out | Some v => <[k := v]> out end) out l !! k =
  default (out !! k) ((list_to_map l : gmap string (option string)) !! k).
Proof.
  revert out. induction l as [|[k' v] l IH]; intros out; [done|]. intros [Hk' Hd]%NoDup_cons. simpl.
  rewrite IH by done. destruct (decide (k' = k)) as [->|Hne].
  - rewrite lookup_insert_eq, not_elem_of_list_to_map_1 by done. simpl.
    destruct v; [by rewrite lookup_insert_eq|by rewrite lookup_delete_eq].
  - rewrite lookup_insert_ne by done. f_equal. destruct v; [by rewrite lookup_insert_ne|by rewrite lookup_delete_ne].
Qed.

Lemma merge_labels_lookup `{MapRange} patch current k :
  merge_labels patch current !! k = default (default ∅ current !! k) (patch !! k).
Proof.
  unfold merge_labels. rewrite fold_members by apply NoDup_range. f_equal. f_equal.
  rewrite <-(list_to_map_to_list patch) at 2. apply list_to_map_proper; [apply NoDup_range|apply range_perm].
Qed.

(** C37: a patch to labels does what its kind says, or nothing. A JSON Patch goes
    through exactly when each operation names a key by its escaped pointer and is
    one the key allows after the operations before it, and then leaves at every
    key what its operations leave there; a merge patch leaves its members, less
    the nulls, over the current labels. *)
Theorem labels_patch_exact `{MapRange} current ops members (m : gmap string string) :
  (mutator (JSONPatch ops) current = inr m ↔
   (∀ j op, ops !! j = Some op → ∃ key, TrimPrefix (Path op) "/" = escape key ∧ key ≠ "" ∧
      op_allows op (value_after key (take j ops) (default ∅ current !! key))) ∧
   ∀ key, m !! key = value_after key ops (default ∅ current !! key)) ∧
  (mutator (MergePatch members) current = inr m ↔
   ∀ key, m !! key = default (default ∅ current !! key) (members !! key)).
Proof.
  split; [apply apply_ops_spec|]. split.
  - intros [= <-] key. apply merge_labels_lookup.
  - intros Hm. simpl. f_equal. apply map_eq. intros key. by rewrite merge_labels_lookup, Hm.
Qed.

(** * Merge patch and RFC 7396 *)

(** json's induction, through the members. *)
Lemma json_members_ind (P : json → Prop) :
  P JNull → (∀ b, P (JBool b)) → (∀ n, P (JNumber n)) → (∀ s, P (JString s)) → (∀ l, P (JArray l)) →
  (∀ o, Forall (λ m, P m.2) o → P (JObject o)) → ∀ j, P j.
Proof.
  intros Hn Hb Hnum Hs Ha Ho. fix IH 1. intros [|b|n|s|l|o]; [clear IH; by auto..|]. apply Ho.
  induction o as [|[k v] o IHo]; [by constructor|]. constructor; [apply IH|apply IHo].
Qed.

(** Each name once, in every object a patch reaches. *)
Fixpoint unique (j : json) : Prop :=
  match j with
  | JObject o => NoDup o.*1 ∧ fold_right (λ m, and (unique m.2)) True o
  | _ => True
  end.

(** Both merges are one loop over the members, with what a member that is not
    null makes of what was there. *)
Definition merge_with (g : option json → json → json) (p base : object) : object :=
  fold_left (λ base '(k, v), match v with JNull => del k base | _ => put k (g (member k base) v) base end) p base.

Definition overlay (m : option json) (v : json) : json :=
  match v, m with
  | JObject _, Some (JObject baseObj) => JObject (mergePatch baseObj v)
  | _, _ => v
  end.

Lemma fold_left_ext {A B} (f g : A → B → A) l a :
  (∀ a b, f a b = g a b) → fold_left f l a = fold_left g l a.
Proof. intros H. revert a. induction l as [|b l IH]; intros a; simpl; [done|by rewrite H, IH]. Qed.

Lemma mergePatch_with base p : mergePatch base (JObject p) = merge_with overlay p base.
Proof.
  simpl. unfold merge_with. apply fold_left_ext. intros b [k []]; try done. simpl.
  by destruct (member k b) as [[]|].
Qed.

Definition rfc_object (target : option json) : object :=
  match target with Some (JObject base) => base | _ => [] end.

Lemma rfc_with target p :
  MergePatch_rfc target (JObject p) = JObject (merge_with MergePatch_rfc p (rfc_object target)).
Proof. reflexivity. Qed.

Lemma member_put k k' v o : member k (put k' v o) = if bool_decide (k' = k) then Some v else member k o.
Proof.
  induction o as [|[k2 v2] o IH]; simpl; [by case_bool_decide|].
  destruct (decide (k2 = k')) as [->|]; [rewrite (bool_decide_true (k' = k')) by done|
    rewrite (bool_decide_false (k2 = k')) by done]; simpl.
  - by case_bool_decide.
  - rewrite IH. repeat case_bool_decide; congruence.
Qed.

Lemma member_del k k' o : member k (del k' o) = if bool_decide (k' = k) then None else member k o.
Proof.
  induction o as [|[k2 v2] o IH]; simpl; [by case_bool_decide|].
  destruct (decide (k2 = k')) as [->|]; [rewrite bool_decide_true by done|rewrite bool_decide_false by done]; simpl.
  - rewrite IH. case_bool_decide; done.
  - rewrite IH. repeat case_bool_decide; congruence.
Qed.

(** What the loop leaves under a name. *)
Lemma merge_member g p base k : NoDup p.*1 →
  member k (merge_with g p base) =
  match member k p with None => member k base | Some JNull => None | Some v => Some (g (member k base) v) end.
Proof.
  unfold merge_with. revert base. induction p as [|[k' v] p IH]; intros base; [done|].
  intros [Hk' Hd]%NoDup_cons. simpl. rewrite IH by done.
  assert (member k' p = None) as Hnone.
  { clear -Hk'. induction p as [|[k2 v2] p IH]; [done|]. apply not_elem_of_cons in Hk' as [? ?]. simpl.
    rewrite bool_decide_false by done. by apply IH. }
  case_bool_decide; subst.
  - rewrite Hnone. destruct v; rewrite ?member_put, ?member_del, bool_decide_true by done; done.
  - destruct v; rewrite ?member_put, ?member_del, !bool_decide_false by done; done.
Qed.

Lemma member_elem k v p : NoDup p.*1 → (k, v) ∈ p → member k p = Some v.
Proof.
  induction p as [|[k' v'] p IH]; [by intros _ ?%elem_of_nil|]. intros [Hk' Hd]%NoDup_cons [[= <- <-]|Hin]%elem_of_cons.
  - simpl. by rewrite bool_decide_true.
  - simpl. rewrite bool_decide_false; [by apply IH|]. intros ->. apply Hk', list_elem_of_fmap. by exists (k, v).
Qed.

Lemma merge_ext g g' p base : NoDup p.*1 →
  (∀ k v, (k, v) ∈ p → v ≠ JNull → g (member k base) v = g' (member k base) v) →
  merge_with g p base = merge_with g' p base.
Proof.
  unfold merge_with. revert base. induction p as [|[k v] p IH]; intros base; [done|].
  intros [Hk Hd]%NoDup_cons Hg. simpl.
  assert (∀ k' v', (k', v') ∈ p → k ≠ k') as Hne by (intros k' v' Hin ->; apply Hk, list_elem_of_fmap; by exists (k', v')).
  assert (v ≠ JNull → g (member k base) v = g' (member k base) v) as Hv by (apply Hg; by left).
  destruct v; rewrite ?Hv by done; apply IH; try done; intros k' v' Hin Hn;
    rewrite ?member_put, ?member_del, bool_decide_false by (by eapply Hne); (apply Hg; [by right|done]).
Qed.

(** A loop that replaces nothing and meets no null appends its members. *)
Lemma merge_fresh (p base : object) : NoDup (base ++ p)%list.*1 → Forall (λ m, m.2 ≠ JNull) p →
  merge_with (λ _ v, v) p base = (base ++ p)%list.
Proof.
  unfold merge_with. revert base. induction p as [|[k v] p IH]; intros base Hd Hn; simpl; [by rewrite app_nil_r|].
  apply Forall_cons in Hn as [Hv Hn].
  assert (put k v base = (base ++ [(k, v)])%list) as Hput.
  { rewrite fmap_app in Hd. simpl in Hd. apply NoDup_app in Hd as (_ & Hk & _). clear -Hk.
    induction base as [|[k' v'] base IH]; [done|]. simpl. rewrite bool_decide_false.
    - rewrite IH; [done|]. intros x Hx. apply Hk. by right.
    - intros ->. apply (Hk k); left. }
  destruct v; simpl in Hv; try done; rewrite Hput, IH, <-app_assoc by (rewrite <-?app_assoc; done); done.
Qed.

(** The patch holds no null where the target has no object to take it from. *)
Fixpoint compatible (target : option json) (patch : json) {struct patch} : Prop :=
  match patch with
  | JObject p =>
      match target with
      | Some (JObject base) => fold_right (λ m, and (m.2 = JNull ∨ compatible (member m.1 base) m.2)) True p
      | _ => fold_right (λ m, and (m.2 ≠ JNull ∧ compatible None m.2)) True p
      end
  | _ => True
  end.

Lemma fold_right_Forall {A} (P : A → Prop) l : fold_right (λ x, and (P x)) True l ↔ Forall P l.
Proof. induction l; simpl; [done|]. by rewrite Forall_cons, IHl. Qed.

#[global] Instance json_null_dec v : Decision (v = JNull).
Proof. destruct v; [by left|by right..]. Defined.

Lemma overlay_none v : overlay None v = v.
Proof. by destruct v. Qed.

(** A non-null member of the loop's result. *)
Lemma merge_member_elem g p base k v : NoDup p.*1 → (k, v) ∈ p → v ≠ JNull →
  member k (merge_with g p base) = Some (g (member k base) v).
Proof. intros Hd Hin Hn. rewrite merge_member, (member_elem k v) by done. by destruct v. Qed.

Lemma overlay_object b p m : m = Some (JObject b) → NoDup p.*1 →
  Forall (λ q, ∀ m, overlay m q.2 = MergePatch_rfc m q.2 ↔ compatible m q.2) p →
  overlay m (JObject p) = MergePatch_rfc m (JObject p) ↔ compatible m (JObject p).
Proof.
  intros -> Hd IH. rewrite rfc_with. cbn [overlay]. rewrite mergePatch_with. cbn [compatible rfc_object].
  rewrite fold_right_Forall. rewrite Forall_forall in IH. split.
  - intros [= He]. apply Forall_forall. intros [k v] Hin. destruct (decide (v = JNull)) as [|Hn]; [by left|].
    right. apply (IH (k, v) Hin). apply (f_equal (member k)) in He.
    rewrite !(merge_member_elem _ _ _ k v) in He by done. by injection He.
  - intros Hc. f_equal. apply merge_ext; [done|]. intros k v Hin Hn. rewrite Forall_forall in Hc.
    destruct (Hc (k, v) Hin) as [?|Hk]; [done|]. by apply (IH (k, v) Hin).
Qed.

Lemma overlay_no_object p m : (∀ b, m ≠ Some (JObject b)) → NoDup p.*1 →
  Forall (λ q, ∀ m, overlay m q.2 = MergePatch_rfc m q.2 ↔ compatible m q.2) p →
  overlay m (JObject p) = MergePatch_rfc m (JObject p) ↔ compatible m (JObject p).
Proof.
  intros Hm Hd IH.
  assert (overlay m (JObject p) = JObject p ∧ rfc_object m = [] ∧
    (compatible m (JObject p) ↔ Forall (λ q, q.2 ≠ JNull ∧ compatible None q.2) p)) as (-> & Hr & ->).
  { rewrite <-fold_right_Forall. destruct m as [[| | | | |b]|]; try done. by destruct (Hm b). }
  rewrite rfc_with, Hr. rewrite Forall_forall in IH. split.
  - intros [= He]. apply Forall_forall. intros [k v] Hin. pose proof (f_equal (member k) He) as Hk.
    rewrite (member_elem k v), merge_member, (member_elem k v) in Hk by done. simpl.
    assert (v ≠ JNull) as Hn by (intros ->; done). split; [done|]. apply (IH (k, v) Hin). simpl.
    rewrite overlay_none. destruct v; try done; exact (f_equal (default JNull) Hk).
  - intros Hc. f_equal. rewrite <-(merge_fresh p []) at 1; [|done|eapply Forall_impl; [exact Hc|by intros ? [? _]]].
    apply merge_ext; [done|]. intros k v Hin Hn. rewrite Forall_forall in Hc.
    destruct (Hc (k, v) Hin) as [_ Hk]. apply (IH (k, v) Hin) in Hk. by rewrite overlay_none in Hk.
Qed.

Lemma overlay_rfc v : unique v → ∀ m, overlay m v = MergePatch_rfc m v ↔ compatible m v.
Proof.
  induction v as [|b|n|s|l|p IH] using json_members_ind; try done. intros [Hd Hu] m.
  apply (fold_right_Forall (λ q, unique q.2)) in Hu.
  assert (Forall (λ q, ∀ m, overlay m q.2 = MergePatch_rfc m q.2 ↔ compatible m q.2) p) as Hp.
  { rewrite Forall_forall in *. intros q Hin. apply IH; [done|by apply Hu]. }
  destruct m as [[| | | | |b]|]; first [by eapply overlay_object|by apply overlay_no_object].
Qed.

(** MergePatch overwrites, merges and deletes each member as it says, and is
    the merge of RFC 7396 exactly when no object it puts where there was none
    holds a null: such a null is kept, where the standard drops it. *)
Theorem merge_patch_rfc base p (Hu : unique (JObject p)) :
  (∀ k, member k (mergePatch base (JObject p)) =
     match member k p with
     | None => member k base
     | Some JNull => None
     | Some (JObject o) =>
         match member k base with
         | Some (JObject b) => Some (JObject (mergePatch b (JObject o)))
         | _ => Some (JObject o)
         end
     | Some v => Some v
     end) ∧
  (JObject (mergePatch base (JObject p)) = MergePatch_rfc (Some (JObject base)) (JObject p) ↔
   compatible (Some (JObject base)) (JObject p)).
Proof.
  split; [|exact (overlay_rfc (JObject p) Hu (Some (JObject base)))].
  intros k. rewrite mergePatch_with, merge_member by apply Hu. destruct (member k p) as [[]|]; try done.
  by destruct (member k base) as [[]|].
Qed.

(** A null meant to remove an option of a driver that has none is kept. *)
Lemma merge_patch_rfc_witness :
  let driver := [("Name", JString "json-file")] in
  let patch := [("Name", JNull); ("Options", JObject [("tag", JNull); ("max-size", JString "1m")])] in
  JObject (mergePatch driver (JObject patch)) ≠ MergePatch_rfc (Some (JObject driver)) (JObject patch) ∧
  member "Name" (mergePatch driver (JObject patch)) = None.
Proof.
  intros driver patch.
  assert (unique (JObject patch)) as Hu.
  { repeat split; repeat constructor; set_solver. }
  destruct (merge_patch_rfc driver patch Hu) as [Hm Hc]. split; [|by rewrite Hm].
  intros He. apply Hc in He. simpl in He. destruct He as (_ & [?|[[? _] _]] & _); done.
Defined.
