(* ===== verification/Pagination.v ===== *)
(** Lists in pages: internal/api/pagination.go. Go ints are Z at 64 bits. What a
    page renders to is an argument; its validator and conditional answers are
    those of [Conditional]. *)
From S2P Require Import Prelude GoStrings GoStrconv GoURL SortByIndex Conditional.
#[local] Open Scope string_scope.
#[local] Open Scope Z_scope.

Record PageParams := mkPage {
  Limit : Z;
  Offset : Z;
  Sort : string;
  Dir : string;
  RangeReq : bool;
  Explicit : bool;
}.

(** * Reading the request *)

(** A Range header in the "items" unit, as a limit and an offset. *)
Definition parseItemsRange `{Unicode} (header : string) : option (Z * Z) :=
  let n := 5%nat in                                 (* len("items") *)
  if (String.length header <=? n)%nat then None else
  if negb (EqualFold (str_take n header) "items") then None else
  match str_drop n header with
  | String c spec =>
      if negb (Ascii.eqb c "=" || Ascii.eqb c " ") then None else
      if Contains spec "," then None else
      match Cut spec "-" with
      | (_, _, false) => None
      | (start, stop, true) =>
          startN ← Atoi (TrimSpace start);
          endN ← Atoi (TrimSpace stop);
          if (startN <? 0) || (endN <? startN) then None else
          Some (wrap_int64 (Z.min (wrap_int64 (endN - startN)) (max_int64 - 1) + 1), startN)
      end
  | "" => None
  end.

Inductive pageError := errInvalidLimit | errInvalidOffset | errInvalidDir.

(** The query's limit and offset, with whether it gives one, and its direction. *)
Definition parse_limit (q : Values) : pageError + Z * bool :=
  let v := QGet "limit" q in
  if is_empty v then inr (50, false) else
  match Atoi v with
  | Some n => if n <=? 0 then inl errInvalidLimit else inr (n, true)
  | None => inl errInvalidLimit
  end.

Definition parse_offset (q : Values) : pageError + Z * bool :=
  let v := QGet "offset" q in
  if is_empty v then inr (0, false) else
  match Atoi v with
  | Some n => if n <? 0 then inl errInvalidOffset else inr (n, true)
  | None => inl errInvalidOffset
  end.

Definition parse_dir `{Unicode} (q : Values) : pageError + string :=
  let v := ToLower (QGet "dir" q) in
  if bool_decide (v ∈ [""; "asc"; "desc"]) then inr (if is_empty v then "asc" else v) else inl errInvalidDir.

(** [q] is the parsed query, [range_] the Range header. *)
Definition parsePagination `{Unicode} (q : Values) (range_ : string) : pageError + PageParams :=
  match parse_limit q, parse_offset q, parse_dir q with
  | inl err, _, _ | inr _, inl err, _ | inr _, inr _, inl err => inl err
  | inr (limit, explicit), inr (offset, offset_given), inr dir =>
      let '(limit, offset, range_req) :=
        if explicit || offset_given then (limit, offset, false) else
        match parseItemsRange range_ with
        | Some (limit, offset) => (limit, offset, true)
        | None => (limit, offset, false)
        end in
      inr (mkPage (if 200 <? limit then 200 else limit) offset (QGet "sort" q) dir range_req explicit)
  end.

(** * Pages *)

(** items[start:stop] *)
Definition slice {T} (items : list T) (start stop : Z) : list T :=
  take (Z.to_nat (stop - start)) (drop (Z.to_nat start) items).

Definition pageOf {T} (items : list T) (p : PageParams) : list T :=
  let n := Z.of_nat (length items) in
  let start := Z.min (Offset p) n in
  let stop := Z.min (wrap_int64 (start + Limit p)) n in
  slice items start stop.

(** The lowered keys, sorted by index; a stable sort of the indices 0, 1, … is
    their sort with ties in that order. *)
Definition compare_keys (keys : list string) (desc : bool) (a b : nat) : comparison :=
  let key i := default "" (keys !! i) in
  cmp_or (if desc then str_compare (key b) (key a) else str_compare (key a) (key b)) (Nat.compare a b).

Definition sortItems `{Unicode} {T} (items : list T) (key dir : string)
    (accessors : string → option (T → string)) : list T :=
  match accessors key with
  | None => items
  | Some accessor =>
      let keys := (λ item, ToLower (accessor item)) <$> items in
      let desc := EqualFold dir "desc" in
      omap (λ j, items !! j) (SortFunc (compare_keys keys desc) (seq 0 (length items)))
  end.

(** * Links *)

(** The pages a response links to: the relation and the offset. *)
Definition page_links (total limit offset : Z) : list (string * Z) :=
  (if (offset <? total) && (limit <? wrap_int64 (total - offset)) then [("next", wrap_int64 (offset + limit))] else []) ++
  (if 0 <? offset then [("prev", Z.max (wrap_int64 (Z.min offset total - limit)) 0)] else []).

(** The query of such a link. *)
Definition buildLink (q : Values) (limit newOffset : Z) : Values :=
  QSet "offset" (Itoa newOffset) (QSet "limit" (Itoa limit) q).

Definition link (path : string) (q : Values) (limit : Z) (rel_offset : string * Z) : string :=
  "<" +:+ path +:+ "?" +:+ Encode (buildLink q limit rel_offset.2) +:+ ">; rel=" +:+ quoted rel_offset.1.

Definition writePaginationLinks (h : Header) (path : string) (q : Values) (total limit offset : Z) : Header :=
  match page_links total limit offset with
  | [] => h
  | links => HAdd "Link" (Join (map (link path q limit) links) ", ") h
  end.

(** * The response *)

Record CollectionResponse := mkCollection {
  resp_count : Z;                 (* len(Items) *)
  resp_json : option string;      (* what it marshals to *)
  Total : Z;
  resp_Limit : Z;
  resp_Offset : Z;
}.

Definition StatusPartialContent : Z := 206.
Definition StatusRangeNotSatisfiable : Z := 416.

Definition writeCollectionResponse `{Unicode, HTTPDates, Coders} (now : Z) (h : Header) (r : Request)
    (path : string) (q : Values) (resp : CollectionResponse) (p : PageParams) (validator : string) : Response :=
  let h := HSet "Accept-Ranges" "items" h in
  if RangeReq p then
    if Total resp =? 0 then writeCachedJSONStatusValidated now h r StatusOK (resp_json resp) validator else
    if Total resp <=? resp_Offset resp then
      let unsatisfiable :=
        mkResponse StatusRangeNotSatisfiable (HSet "Content-Range" ("items */" +:+ Itoa (Total resp)) h)
          (Problem "" "range start is beyond the total number of items") in
      if is_empty validator then unsatisfiable else
      match refusedByPrecondition now h r validator time_zero with
      | Some refused => refused
      | None =>
          let tagged := matchedValidator r validator in
          if negb (is_empty tagged) then writeNotModified h tagged else unsatisfiable
      end
    else
      let last := resp_Offset resp + resp_count resp - 1 in
      if (resp_Offset resp =? 0) && (Total resp - 1 <=? last) then
        writeCachedJSONStatusValidated now h r StatusOK (resp_json resp) validator
      else
        writeCachedJSONStatusValidated now
          (HSet "Content-Range" ("items " +:+ Itoa (resp_Offset resp) +:+ "-" +:+ Itoa last +:+ "/" +:+
             Itoa (Total resp)) h) r StatusPartialContent (resp_json resp) validator
  else
    writeCachedJSONStatusValidated now (writePaginationLinks h path q (Total resp) (resp_Limit resp) (resp_Offset resp))
      r StatusOK (resp_json resp) validator.

(** writeListPage: the page of the list and the answer that carries it. *)
Definition writeListPage `{Unicode, HTTPDates, Coders} {T} (render : list T → Z → PageParams → option string)
    (now : Z) (h : Header) (r : Request) (path : string) (q : Values) (items : list T) (p : PageParams)
    (validator : string) : Response :=
  let page := pageOf items p in
  let total := Z.of_nat (length items) in
  writeCollectionResponse now h r path q
    (mkCollection (Z.of_nat (length page)) (render page total p) total (Limit p) (Offset p)) p validator.

(** * The parameters of a page *)

Lemma wrap_int64_id x : min_int64 ≤ x ≤ max_int64 → wrap_int64 x = x.
Proof. unfold wrap_int64, min_int64, max_int64. intros Hx. rewrite Z.mod_small by lia. lia. Qed.

Lemma parseItemsRange_bounds `{Unicode} range_ limit offset :
  parseItemsRange range_ = Some (limit, offset) → 1 ≤ limit ≤ max_int64 ∧ 0 ≤ offset ≤ max_int64.
Proof.
  unfold parseItemsRange. destruct (_ <=? _)%nat; [done|]. destruct (negb _); [done|].
  destruct (str_drop _ _) as [|c spec]; [done|]. destruct (negb _); [done|]. destruct (Contains _ _); [done|].
  destruct (Cut spec "-") as [[start stop] []]; [|done].
  destruct (Atoi (TrimSpace start)) as [s|] eqn:Es; [|done]. destruct (Atoi (TrimSpace stop)) as [e|] eqn:Ee; [|done].
  apply Atoi_bounds in Es, Ee. simpl. destruct (Z.ltb_spec s 0); [done|]. destruct (Z.ltb_spec e s); [done|]. simpl.
  intros [= <- <-]. unfold min_int64, max_int64 in *. rewrite (wrap_int64_id (e - s)) by (unfold min_int64, max_int64; lia).
  rewrite wrap_int64_id by (unfold min_int64, max_int64; lia). lia.
Qed.

Definition page_ok (p : PageParams) : Prop := 1 ≤ Limit p ≤ 200 ∧ 0 ≤ Offset p ≤ max_int64.

Lemma parse_limit_ok q l e : parse_limit q = inr (l, e) → 1 ≤ l.
Proof.
  unfold parse_limit. destruct (is_empty _); [by intros [= <- _]|]. destruct (Atoi _) as [n|]; [|done].
  destruct (Z.leb_spec n 0); [done|]. intros [= <- _]. lia.
Qed.

Lemma parse_offset_ok q o e : parse_offset q = inr (o, e) → 0 ≤ o ≤ max_int64.
Proof.
  unfold parse_offset. destruct (is_empty _); [by intros [= <- _]|]. destruct (Atoi _) as [n|] eqn:En; [|done].
  apply Atoi_bounds in En. destruct (Z.ltb_spec n 0); [done|]. intros [= <- _]. lia.
Qed.

Lemma parsePagination_ok `{Unicode} q range_ p : parsePagination q range_ = inr p → page_ok p.
Proof.
  unfold parsePagination, page_ok. destruct (parse_limit q) as [|[l e]] eqn:El; [done|].
  destruct (parse_offset q) as [|[o e']] eqn:Eo; [done|]. destruct (parse_dir q); [done|].
  apply parse_limit_ok in El. apply parse_offset_ok in Eo.
  destruct (e || e'); [|destruct (parseItemsRange range_) as [[l' o']|] eqn:Er]; intros [= <-]; simpl.
  - destruct (Z.ltb_spec 200 l); lia.
  - apply parseItemsRange_bounds in Er. destruct (Z.ltb_spec 200 l'); lia.
  - destruct (Z.ltb_spec 200 l); lia.
Qed.

(** ** The page a link names *)

Definition linked (q : Values) (limit newOffset : Z) : Values := ParseQuery (Encode (buildLink q limit newOffset)).

#[global] Arguments linked : simpl never.

Definition at_offset (p : PageParams) (offset : Z) : PageParams :=
  mkPage (Limit p) offset (Sort p) (Dir p) false true.

Lemma QGet_limit q limit off : QGet "limit" (buildLink q limit off) = Itoa limit.
Proof. unfold QGet, buildLink, QSet. by rewrite lookup_insert_ne, lookup_insert_eq. Qed.

Lemma QGet_offset q limit off : QGet "offset" (buildLink q limit off) = Itoa off.
Proof. unfold QGet, buildLink, QSet. by rewrite lookup_insert_eq. Qed.

Lemma QGet_other k q limit off : k ≠ "limit" → k ≠ "offset" → QGet k (buildLink q limit off) = QGet k q.
Proof. intros H1 H2. unfold QGet, buildLink, QSet. by rewrite !lookup_insert_ne. Qed.

Lemma linked_query s limit off : linked (ParseQuery s) limit off = buildLink (ParseQuery s) limit off.
Proof.
  apply ParseQuery_Encode. apply map_Forall_insert_2; [done|]. apply map_Forall_insert_2; [done|].
  apply ParseQuery_values.
Qed.

Lemma Itoa_not_empty n : is_empty (Itoa n) = false.
Proof. unfold Itoa. destruct (n <? 0); [done|]. by apply format_digits_head. Qed.

Lemma clamp_twice l :
  (if 200 <? (if 200 <? l then 200 else l) then 200 else (if 200 <? l then 200 else l)) = if 200 <? l then 200 else l.
Proof. destruct (Z.ltb_spec 200 l); [done|]. by rewrite (proj2 (Z.ltb_ge 200 l)) by lia. Qed.

(** What the server reads in a link it wrote. *)
Lemma linked_params `{Unicode} s range_ p off range' :
  parsePagination (ParseQuery s) range_ = inr p → 0 ≤ off ≤ max_int64 →
  parsePagination (linked (ParseQuery s) (Limit p) off) range' = inr (at_offset p off).
Proof.
  intros Hp Hoff. destruct (parsePagination_ok _ _ _ Hp) as [Hl _]. rewrite linked_query.
  revert Hp. unfold parsePagination.
  assert (parse_limit (buildLink (ParseQuery s) (Limit p) off) = inr (Limit p, true)) as ->.
  { unfold parse_limit. rewrite QGet_limit, Itoa_not_empty, Atoi_Itoa by (unfold min_int64, max_int64; lia).
    destruct (Z.leb_spec (Limit p) 0); [lia|done]. }
  assert (parse_offset (buildLink (ParseQuery s) (Limit p) off) = inr (off, true)) as ->.
  { unfold parse_offset. rewrite QGet_offset, Itoa_not_empty, Atoi_Itoa by (unfold min_int64; lia).
    destruct (Z.ltb_spec off 0); [lia|done]. }
  unfold parse_dir. rewrite !QGet_other by done.
  destruct (parse_limit _) as [|[l e]]; [done|]. destruct (parse_offset _) as [|[o e']]; [done|].
  case_bool_decide; [|done]. simpl. destruct (e || e'); [|destruct (parseItemsRange range_) as [[l' o']|]];
    intros [= <-]; unfold at_offset; cbn [Limit Sort Dir]; by rewrite clamp_twice.
Qed.

(** * The order of a list *)

Section Lists.
Context `{Unicode} {T : Type} (accessors : string → option (T → string)).

(** The key an item sorts by. *)
Definition sort_key (key : string) (item : T) : string :=
  match accessors key with Some accessor => ToLower (accessor item) | None => "" end.

(** One item goes before another: by key in the direction asked for, in the
    order they were given when the keys are the same. *)
Definition goes_before (desc : bool) (a b : nat * string) : Prop :=
  (if desc then str_compare b.2 a.2 else str_compare a.2 b.2) = Lt ∨ a.2 = b.2 ∧ (a.1 ≤ b.1)%nat.

#[local] Instance compare_keys_laws keys desc : Compare (compare_keys keys desc).
Proof.
  pose proof (compare_proj (λ i, default "" (keys !! i)) str_compare) as Hup.
  pose proof (flip_compare _ (Compare0 := Hup)) as Hdown.
  unfold compare_keys. destruct desc; [exact (compare_or _ _ (Compare0 := Hdown))|exact (compare_or _ _ (Compare0 := Hup))].
Qed.

Lemma sortItems_spec items key dir :
  ∃ order, order ≡ₚ seq 0 (length items) ∧ sortItems items key dir accessors = omap (λ j, items !! j) order ∧
    StronglySorted (λ i j, ∀ a b, items !! i = Some a → items !! j = Some b →
      goes_before (EqualFold dir "desc") (i, sort_key key a) (j, sort_key key b)) order.
Proof.
  unfold sortItems, sort_key. destruct (accessors key) as [accessor|] eqn:Ea.
  - set (keys := _ <$> items). exists (SortFunc (compare_keys keys (EqualFold dir "desc")) (seq 0 (length items))).
    split; [apply SortFunc_perm|]. split; [done|].
    eapply StronglySorted_weaken; [|apply SortFunc_sorted; apply _].
    intros i j Hij a b Hi Hj. unfold cmp_le, compare_keys in Hij.
    assert (keys !! i = Some (ToLower (accessor a)) ∧ keys !! j = Some (ToLower (accessor b))) as [Ki Kj].
    { split; unfold keys; by rewrite list_lookup_fmap, ?Hi, ?Hj. }
    rewrite Ki, Kj in Hij. revert Hij. unfold goes_before. cbn [fst snd default].
    destruct (EqualFold dir "desc"), (str_compare _ _) eqn:Ec; simpl; try done;
      (intros Hij%Nat.compare_ngt_iff || (intros _; by left)); right; apply str_compare_eq in Ec; unfold id in Ec; (split; [done|lia]).
  - exists (seq 0 (length items)). split; [done|]. split; [by rewrite omap_seq|].
    assert (∀ k n, StronglySorted (λ i j, ∀ a b : T, items !! i = Some a → items !! j = Some b →
      goes_before (EqualFold dir "desc") (i, "") (j, "")) (seq k n)) as Hs; [|apply Hs].
    intros k n. revert k. induction n as [|n IH]; intros k; simpl; constructor; [apply IH|].
    apply Forall_forall. intros j Hj%elem_of_seq a b _ _. right. simpl. split; [done|lia].
Qed.

Lemma sortItems_perm items key dir : sortItems items key dir accessors ≡ₚ items.
Proof.
  destruct (sortItems_spec items key dir) as (order & Hp & -> & _). rewrite Hp. by rewrite omap_seq.
Qed.

(** * Following the pages *)

(** The page a list request without a Range gets, and where its next link leads. *)
Definition serve (items : list T) (q : Values) : option (list T * option Values) :=
  match parsePagination q "" with
  | inl _ => None
  | inr p =>
      let sorted := sortItems items (Sort p) (Dir p) accessors in
      let next := List.find (λ l, String.eqb l.1 "next") (page_links (Z.of_nat (length items)) (Limit p) (Offset p)) in
      Some (pageOf sorted p, linked q (Limit p) <$> (snd <$> next))
  end.

(** A client that follows the next links. *)
Fixpoint walk (fuel : nat) (items : list T) (q : Values) : list (list T) :=
  match fuel with
  | O => []
  | S fuel =>
      match serve items q with
      | None => []
      | Some (page, next) => page :: match next with Some q => walk fuel items q | None => [] end
      end
  end.

Lemma pageOf_take (items : list T) p : page_ok p → Z.of_nat (length items) ≤ max_int64 - 200 →
  pageOf items p = take (Z.to_nat (Limit p)) (drop (Z.to_nat (Offset p)) items).
Proof.
  intros [Hl Ho] Hn. unfold pageOf, slice.
  destruct (Z.le_gt_cases (Z.of_nat (length items)) (Offset p)) as [Hge|Hlt].
  - rewrite (Z.min_r (Offset p)) by done. rewrite !drop_ge by lia. by rewrite !take_nil.
  - rewrite (Z.min_l (Offset p)) by lia.
    rewrite wrap_int64_id by (unfold min_int64, max_int64 in *; lia).
    destruct (Z.le_gt_cases (Offset p + Limit p) (Z.of_nat (length items))).
    + rewrite Z.min_l by done. f_equal. lia.
    + rewrite Z.min_r by lia. rewrite !take_ge; [done|rewrite length_drop; lia..].
Qed.

Definition next_offset (total limit offset : Z) : option Z :=
  if (offset <? total) && (limit <? total - offset) then Some (offset + limit) else None.

Lemma page_links_next n p : page_ok p → 0 ≤ n ≤ max_int64 →
  snd <$> List.find (λ l, String.eqb l.1 "next") (page_links n (Limit p) (Offset p)) =
  next_offset n (Limit p) (Offset p).
Proof.
  intros [Hl Ho] Hn. unfold page_links, next_offset. destruct (Z.ltb_spec (Offset p) n); simpl.
  - rewrite (wrap_int64_id (n - _)) by (unfold min_int64, max_int64 in *; lia).
    destruct (Z.ltb_spec (Limit p) (n - Offset p)); simpl.
    + by rewrite wrap_int64_id by (unfold min_int64, max_int64 in *; lia).
    + by destruct (0 <? Offset p).
  - by destruct (0 <? Offset p).
Qed.

Lemma serve_ok items s p : parsePagination (ParseQuery s) "" = inr p → Z.of_nat (length items) ≤ max_int64 - 200 →
  serve items (ParseQuery s) =
  Some (take (Z.to_nat (Limit p)) (drop (Z.to_nat (Offset p)) (sortItems items (Sort p) (Dir p) accessors)),
        linked (ParseQuery s) (Limit p) <$> next_offset (Z.of_nat (length items)) (Limit p) (Offset p)).
Proof.
  intros Hp Hn. pose proof (parsePagination_ok _ _ _ Hp) as Hok. unfold serve. rewrite Hp. cbn zeta.
  rewrite page_links_next by (done || (unfold max_int64 in *; lia)).
  rewrite pageOf_take; [done|done|]. by rewrite (Permutation_length (sortItems_perm items _ _)).
Qed.

Lemma walk_pages fuel items s p :
  parsePagination (ParseQuery s) "" = inr p → Z.of_nat (length items) ≤ max_int64 - 200 →
  (length items - Z.to_nat (Offset p) < fuel)%nat →
  let pages := walk fuel items (ParseQuery s) in
  concat pages = drop (Z.to_nat (Offset p)) (sortItems items (Sort p) (Dir p) accessors) ∧
  (∀ i page, pages !! i = Some page → (length page ≤ Z.to_nat (Limit p))%nat ∧
     ((S i < length pages)%nat → length page = Z.to_nat (Limit p))).
Proof.
  revert s p. induction fuel as [|fuel IH]; intros s p Hp Hn Hf; [lia|].
  destruct (parsePagination_ok _ _ _ Hp) as [Hl Ho]. cbn [walk]. rewrite (serve_ok _ _ p) by done.
  assert (length (sortItems items (Sort p) (Dir p) accessors) = length items) as Hlen
    by apply Permutation_length, sortItems_perm.
  set (sorted := sortItems items (Sort p) (Dir p) accessors) in *.
  unfold next_offset. destruct (Z.ltb_spec (Offset p) (Z.of_nat (length items))) as [Hlt|Hge];
    [destruct (Z.ltb_spec (Limit p) (Z.of_nat (length items) - Offset p)) as [Hmore|Hlast]|]; simpl.
  - assert (Hnext : parsePagination (linked (ParseQuery s) (Limit p) (Offset p + Limit p)) "" =
      inr (at_offset p (Offset p + Limit p))) by (apply (linked_params _ ""); [done|unfold max_int64 in *; lia]).
    destruct (IH _ _ Hnext Hn) as [Hc Hp2]; [simpl; lia|]. simpl in Hc, Hp2. fold sorted in Hc.
    fold (linked (ParseQuery s) (Limit p) (Offset p + Limit p)) in Hc, Hp2. split.
    + rewrite Hc, <-(take_drop (Z.to_nat (Limit p)) (drop (Z.to_nat (Offset p)) sorted)), drop_drop.
      rewrite take_app_length' by (rewrite length_take, length_drop; lia). f_equal. f_equal. lia.
    + intros [|i] page Hi; simpl in Hi.
      * injection Hi as <-. rewrite length_take, length_drop. lia.
      * apply Hp2 in Hi. lia.
  - rewrite app_nil_r. split; [by rewrite take_ge by (rewrite length_drop; lia)|].
    intros [|i] page Hi; simpl in Hi; [|done]. injection Hi as <-. rewrite length_take, length_drop. lia.
  - rewrite app_nil_r. split; [by rewrite take_ge by (rewrite length_drop; lia)|].
    intros [|i] page Hi; simpl in Hi; [|done]. injection Hi as <-. rewrite length_take, length_drop. lia.
Qed.
End Lists.

(** C31: a list read page by page is read whole, once and in order. A client that
    follows the next links from its first request gets, within as many requests
    as there are items, every item from its offset on: the items sorted by the
    key and in the direction asked for, equal keys in the order they came, in
    pages as long as the limit, but for the last. *)
Theorem pages_complete `{Unicode} {T} (accessors : string → option (T → string)) (items : list T) s p fuel
    (Hp : parsePagination (ParseQuery s) "" = inr p)
    (Hn : Z.of_nat (length items) ≤ max_int64 - 200) (Hf : (length items < fuel)%nat) :
  let pages := walk accessors fuel items (ParseQuery s) in
  (∃ order, order ≡ₚ seq 0 (length items) ∧
     StronglySorted (λ i j, ∀ a b, items !! i = Some a → items !! j = Some b →
       goes_before (EqualFold (Dir p) "desc") (i, sort_key accessors (Sort p) a)
         (j, sort_key accessors (Sort p) b)) order ∧
     concat pages = drop (Z.to_nat (Offset p)) (omap (λ j, items !! j) order)) ∧
  (∀ i page, pages !! i = Some page → (length page ≤ Z.to_nat (Limit p))%nat ∧
     ((S i < length pages)%nat → length page = Z.to_nat (Limit p))) ∧ 1 ≤ Limit p ≤ 200.
Proof.
  destruct (walk_pages accessors fuel items s p Hp Hn) as [Hc Hl]; [lia|].
  split; [|split; [done|by eapply parsePagination_ok]].
  destruct (sortItems_spec accessors items (Sort p) (Dir p)) as (order & Ho & He & Hs).
  exists order. split; [done|]. split; [done|]. by rewrite <-He.
Qed.

Lemma pages_complete_witness :
  let names := ["web"; "db"; "cache"; "API"; "db-2"] in
  let pages := @walk ascii_unicode string (λ _, Some id) 6 names (ParseQuery "limit=2&sort=name&dir=desc") in
  (∃ order, order ≡ₚ seq 0 5 ∧ concat pages = omap (λ j, names !! j) order) ∧
  concat pages = ["web"; "db-2"; "db"; "cache"; "API"] ∧ length pages = 3%nat.
Proof.
  intros names pages.
  destruct (@parsePagination ascii_unicode (ParseQuery "limit=2&sort=name&dir=desc") "") as [|p] eqn:Hp;
    [vm_compute in Hp; discriminate|].
  destruct (@pages_complete ascii_unicode string (λ _, Some id) names _ p 6 Hp) as ((order & Ho & _ & Hc) & _);
    [by vm_compute|simpl; lia|].
  split; [|split; vm_compute; reflexivity]. exists order. split; [exact Ho|]. vm_compute in Hp. injection Hp as <-. exact Hc.
Defined.

(** * Ranges *)

Definition unconditioned (r : Request) : Prop :=
  Get "If-Match" (header r) = "" ∧ Get "If-Unmodified-Since" (header r) = "" ∧ Get "If-None-Match" (header r) = "".

Lemma Get_HAdd k k' v h : k' ≠ k → Get k (HAdd k' v h) = Get k h.
Proof. intros Hk. unfold Get, HAdd. by rewrite lookup_insert_ne. Qed.

Lemma plain_answer `{Unicode, HTTPDates, Coders} now h r status body validator :
  unconditioned r → let resp := writeCachedJSONStatusValidated now h r status (Some body) validator in
  Status resp = status ∧ Get "Content-Range" (Headers resp) = Get "Content-Range" h.
Proof.
  intros (Him & Hius & Hinm). unfold writeCachedJSONStatusValidated, writeRenderedJSON. cbn [doc_body doc_etag].
  destruct (negotiateCoding h r body) as [h' c] eqn:En.
  assert (Get "Content-Range" h' = Get "Content-Range" h) as Hh.
  { unfold negotiateCoding in En. destruct (compressionDisabled r), (Z.of_nat (String.length body) <? compressionThreshold), (accepted r);
      injection En as <- _; rewrite ?Get_HSet, ?bool_decide_false, Get_HAdd by done; done. }
  change (is_zero_time time_zero) with true. unfold refusedByPrecondition. rewrite unconditional by done. cbn [is_empty].
  unfold notModified. rewrite Hinm. cbn [is_empty negb orb etagMatch].
  assert (∀ etag, Get "Content-Range" (cache_control (setJSONContentType (HSet "ETag" etag h'))) =
    Get "Content-Range" h) as Hg.
  { intros etag. rewrite Get_cache_control by done. unfold setJSONContentType.
    destruct (is_empty _); rewrite !Get_HSet, ?bool_decide_false by done; done. }
  cbn match. destruct c; (split; [done|apply Hg]).
Qed.


