(* ===== verification/Logs.v ===== *)
(** Container logs: internal/logs/logs.go. A stream is the bytes read before it
    ends and how it ends; a frame is a stream byte, three zero bytes, a size in
    four bytes, big end first, and the payload. What package time makes of a
    timestamp or a duration is an argument ([LogTimes]), as is the clock. *)
From S2P Require Import Prelude GoStrings GoStrconv GoURL.
#[local] Open Scope string_scope.
#[local] Open Scope Z_scope.
#[local] Open Scope list_scope.

Definition maxLogFrameSize : Z := Z.shiftl 1 20.

Record LogLine := mkLine {
  Timestamp : string;
  Message : string;
  Stream : string;
  Attrs : gmap string string;     (* nil is empty *)
}.

(** * A line *)

Definition detailKeyMap : gmap string string :=
  list_to_map
    [("com.docker.swarm.node.id", "nodeId");
     ("com.docker.swarm.service.id", "serviceId");
     ("com.docker.swarm.task.id", "taskId")].

(** The pairs of a details prefix, with whether one of its keys is Docker's;
    [None] when one is not a pair. *)
Fixpoint detail_pairs (pairs : list string) (attrs : gmap string string) (fromDocker : bool)
    : option (gmap string string * bool) :=
  match pairs with
  | [] => Some (attrs, fromDocker)
  | kv :: pairs =>
      match Cut kv "=" with
      | (_, _, false) => None
      | (key, val, true) =>
          if is_empty key then None else
          match QueryUnescape key, QueryUnescape val with
          | Some key, Some val =>
              let short := default key (detailKeyMap !! key) in
              detail_pairs pairs (<[short := val]> attrs) (fromDocker || HasPrefix key "com.docker.")
          | _, _ => None
          end
      end
  end.

Definition parseDetails (line : string) : gmap string string * string :=
  match Cut line " " with
  | (_, _, false) => (∅, line)
  | (before, after, true) =>
      match detail_pairs (split_byte "," before) ∅ false with
      | Some (attrs, true) => (attrs, after)
      | _ => (∅, line)
      end
  end.

(** line[i] == c *)
Definition byte_at (line : string) (i : nat) (c : ascii) : bool :=
  match String.get i line with Some d => Ascii.eqb d c | None => false end.

Definition parseLine (line stream : string) : LogLine :=
  let '(timestamp, rest) :=
    if (31 <? String.length line)%nat && byte_at line 4 "-" && byte_at line 10 "T" then
      match IndexByte line " " with
      | Some (S n) => (str_take (S n) line, str_drop (S (S n)) line)
      | _ => ("", "")
      end
    else ("", "") in
  let rest := if is_empty rest then line else rest in
  let '(attrs, msg) := parseDetails rest in
  mkLine timestamp msg stream attrs.

(** * Framing *)

Definition nl : ascii := "010".
Definition cr : ascii := "013".

(** The lines of a payload; one without a timestamp takes its parent's. *)
Fixpoint frame_lines (stream : string) (parent : LogLine) (lines : list string) : list LogLine :=
  match lines with
  | [] => []
  | line :: lines =>
      if is_empty line then frame_lines stream parent lines else
      let parsed := parseLine line stream in
      if is_empty (Timestamp parsed) then
        mkLine (Timestamp parent) (Message parsed) (Stream parsed) (Attrs parent) ::
          frame_lines stream parent lines
      else parsed :: frame_lines stream parsed lines
  end.

Definition no_line : LogLine := mkLine "" "" "" ∅.

Definition stream_name (streamType : ascii) : string :=
  if (nat_of_ascii streamType =? 2)%nat then "stderr" else "stdout".

Definition payload_lines (streamType : ascii) (payload : string) : list LogLine :=
  frame_lines (stream_name streamType) no_line (split_byte nl (trim_right_byte nl payload)).

(** How a stream ends: its end, a deadline or cancellation, or an error. *)
Inductive ending := AtEOF | Cancelled | Broken (err : string).

Inductive logError := FrameTooLarge (size : Z) | Truncated (e : ending) | ReadFailed (err : string) | TooLong.

(** binary.BigEndian.Uint32 *)
Definition be32 (a b c d : ascii) : Z :=
  let n x := Z.of_nat (nat_of_ascii x) in
  Z.lor (Z.lor (Z.shiftl (n a) 24) (Z.shiftl (n b) 16)) (Z.lor (Z.shiftl (n c) 8) (n d)).

(** The frames of what is read; each takes eight bytes or more. *)
Fixpoint read_frames (fuel : nat) (s : string) (e : ending) : list LogLine * option logError :=
  match fuel with
  | O => ([], None)
  | S fuel =>
      match s with
      | String t (String _ (String _ (String _ (String a (String b (String c (String d rest))))))) =>
          let size := be32 a b c d in
          if size =? 0 then read_frames fuel rest e else
          if maxLogFrameSize <? size then ([], Some (FrameTooLarge size)) else
          if Z.of_nat (String.length rest) <? size then ([], Some (Truncated e)) else
          let '(lines, err) := read_frames fuel (str_drop (Z.to_nat size) rest) e in
          (payload_lines t (str_take (Z.to_nat size) rest) ++ lines, err)
      | _ => ([], match e with Broken err => Some (ReadFailed err) | _ => None end)
      end
  end.

Definition looksFramed (peek : string) : bool :=
  match peek with
  | "" => false
  | String t rest =>
      (nat_of_ascii t <=? 3)%nat &&
      match rest with
      | String a (String b (String c _)) =>
          (nat_of_ascii a =? 0)%nat && (nat_of_ascii b =? 0)%nat && (nat_of_ascii c =? 0)%nat
      | _ => true
      end
  end.

(** bufio.ScanLines' lines: a last empty one is not a line; one that fills the
    scanner's buffer ends the scan. *)
Fixpoint scan_lines (lines : list string) : list LogLine * bool :=
  match lines with
  | [] => ([], true)
  | line :: lines =>
      if maxLogFrameSize <=? Z.of_nat (String.length line) then ([], false) else
      let '(got, ok) := scan_lines lines in
      let line := trim_right_byte cr line in
      (if is_empty line then got else parseLine line "stdout" :: got, ok)
  end.

Definition readRawLines (s : string) (e : ending) : list LogLine * option logError :=
  let '(lines, ok) := scan_lines (split_byte nl s) in
  (lines, if negb ok then Some TooLong else match e with Broken err => Some (ReadFailed err) | _ => None end).

Definition readDockerLogFrames (s : string) (e : ending) : list LogLine * option logError :=
  let peek := str_take 8 s in
  if negb (is_empty peek) && negb (looksFramed peek) then readRawLines s e
  else read_frames (S (String.length s)) s e.

(** * Timestamps and cursors *)

(** time.Parse of RFC3339Nano and of dockerTimeFormat, Format of the latter in
    UTC, and time.ParseDuration. *)
Class LogTimes := {
  ParseRFC3339 : string → option Z;
  ParseDocker : string → option Z;
  FormatDocker : Z → string;
  ParseDuration : string → option Z;
}.

(** Docker's fixed width. *)
Definition docker_shape (s : string) : bool :=
  (String.length s =? 30)%nat && byte_at s 29 "Z".

Definition Canonical `{LogTimes} (timestamp : string) : option string :=
  if docker_shape timestamp then Some timestamp else FormatDocker <$> ParseRFC3339 timestamp.

(** time.Duration's Abs. *)
Definition duration_abs (d : Z) : Z := if d =? min_int64 then max_int64 else Z.abs d.

(** "" and false when no filtering should happen. *)
Definition ParseCursor `{LogTimes} (now : Z) (cursor : string) : option string :=
  if is_empty cursor then None else
  match Canonical cursor with
  | Some timestamp => Some timestamp
  | None => (λ d, FormatDocker (now - duration_abs d)) <$> ParseDuration cursor
  end.

Definition str_lt (a b : string) : bool := match str_compare a b with Lt => true | _ => false end.

Definition Newer `{LogTimes} (timestamp cursor : string) : bool :=
  match Canonical timestamp with Some normalized => str_lt cursor normalized | None => true end.

Definition Older `{LogTimes} (timestamp cursor : string) : bool :=
  match Canonical timestamp with Some normalized => str_lt normalized cursor | None => true end.

Definition FilterSince `{LogTimes} (now : Z) (lines : list LogLine) (since : string) : list LogLine :=
  match ParseCursor now since with
  | None => lines
  | Some cursor => List.filter (λ line, Newer (Timestamp line) cursor) lines
  end.

Definition FilterBefore `{LogTimes} (now : Z) (lines : list LogLine) (until : string) : list LogLine :=
  match ParseCursor now until with
  | None => lines
  | Some cursor => List.filter (λ line, Older (Timestamp line) cursor) lines
  end.

(** * Resuming *)

Definition task_of (line : LogLine) : string := (Attrs line).["taskId"].

Record BacklogFilter := mkBacklog { cursor : string; caught : gset string }.

Definition NewBacklogFilter `{LogTimes} (now : Z) (since : string) : option BacklogFilter :=
  (λ cursor, mkBacklog cursor ∅) <$> ParseCursor now since.

Definition Keep `{LogTimes} (f : option BacklogFilter) (line : LogLine) : bool * option BacklogFilter :=
  match f with
  | None => (true, None)
  | Some b =>
      let task := task_of line in
      if bool_decide (task ∈ caught b) then (true, f) else
      if negb (Newer (Timestamp line) (cursor b)) then (false, f) else
      (true, if is_empty (Timestamp line) then f else Some (mkBacklog (cursor b) ({[task]} ∪ caught b)))
  end.

Definition MaxClockSkew : Z := 60 * 1000000000.

Record ResumeCursor := mkResume { floor : string; newest : string; byTask : gmap string string; id_ : string }.

Definition NewResumeCursor `{LogTimes} (now : Z) (since : string) : ResumeCursor :=
  let floor := default "" (ParseCursor now since) in mkResume floor floor ∅ "".

(** The task furthest behind, and no further behind the newest than the bound. *)
Definition resume_point `{MapRange, LogTimes} (floor newest : string) (byTask : gmap string string) : string :=
  let oldest := foldl (λ oldest '(_, last), if is_empty oldest || str_lt last oldest then last else oldest)
                  floor (range byTask) in
  match ParseDocker newest with
  | Some t =>
      let bound := FormatDocker (t - MaxClockSkew) in
      if str_lt oldest bound then bound else oldest
  | None => oldest
  end.

Definition Observe `{MapRange, LogTimes} (c : ResumeCursor) (line : LogLine) : option string * ResumeCursor :=
  match Canonical (Timestamp line) with
  | None => (None, c)
  | Some timestamp =>
      let task := task_of line in
      let byTask :=
        if str_lt (byTask c).[task] timestamp then <[task := timestamp]> (byTask c) else byTask c in
      let newest := if str_lt (newest c) timestamp then timestamp else newest c in
      let oldest := resume_point (floor c) newest byTask in
      let c := mkResume (floor c) newest byTask (id_ c) in
      if bool_decide (oldest = id_ c) then (None, c)
      else (Some oldest, mkResume (floor c) newest byTask oldest)
  end.

(** serveLogsSSE, the turn of a line: the filter of streams, the backlog's, and
    the id sent before it when the cursor moved. *)
Definition serve_line `{MapRange, LogTimes} (streamFilter : string) (s : option BacklogFilter * ResumeCursor)
    (line : LogLine) : option (option string * LogLine) * (option BacklogFilter * ResumeCursor) :=
  let '(backlog, resume) := s in
  if negb (is_empty streamFilter) && negb (String.eqb (Stream line) streamFilter) then (None, s) else
  let '(kept, backlog) := Keep backlog line in
  if negb kept then (None, (backlog, resume)) else
  let '(id, resume) := Observe resume line in
  (Some (id, line), (backlog, resume)).

Fixpoint serve_lines `{MapRange, LogTimes} (streamFilter : string) (s : option BacklogFilter * ResumeCursor)
    (lines : list LogLine) : list (option string * LogLine) :=
  match lines with
  | [] => []
  | line :: lines =>
      let '(sent, s) := serve_line streamFilter s line in
      option_list sent ++ serve_lines streamFilter s lines
  end.

(** What a stream resuming from [since] at [now] sends of what Docker writes. *)
Definition serveLogsSSE `{MapRange, LogTimes} (now : Z) (since streamFilter : string) (lines : list LogLine) :
    list (option string * LogLine) :=
  serve_lines streamFilter (NewBacklogFilter now since, NewResumeCursor now since) lines.

(** * What the proofs ask of package time *)

Class LogTimesLaws `{LogTimes} : Prop := {
  FormatDocker_nonempty t : FormatDocker t ≠ "";
  FormatDocker_reparse t t' : ParseRFC3339 (FormatDocker t) = Some t' → FormatDocker t' = FormatDocker t;
  FormatDocker_no_duration t : ParseDuration (FormatDocker t) = None;
}.

Lemma str_lt_true a b : str_lt a b = true ↔ ¬ String.le b a.
Proof.
  rewrite <-str_compare_le. unfold str_lt, cmp_le. rewrite (cmp_antisym (cmp := str_compare) b a).
  destruct (str_compare a b); simpl; naive_solver.
Qed.

Lemma str_lt_false a b : str_lt a b = false ↔ String.le b a.
Proof. rewrite <-not_true_iff_false, str_lt_true. split; [|tauto]. destruct (decide (String.le b a)); tauto. Qed.

Lemma str_le_lt a b c : String.le a b → str_lt b c = true → str_lt a c = true.
Proof. rewrite !str_lt_true. intros Hab Hbc Hca. apply Hbc. by transitivity a. Qed.

Lemma str_lt_nonempty a b : str_lt a b = true → b ≠ "".
Proof. rewrite str_lt_true. intros H ->. apply H. by destruct a. Qed.

Lemma str_lt_empty b : b ≠ "" → str_lt "" b = true.
Proof. by destruct b. Qed.

Section cursors.
Context `{LogTimesLaws}.

(** The form every cursor the server makes has. *)
Definition cursor_form (s : string) : Prop := docker_shape s = true ∨ ∃ t, s = FormatDocker t.

Lemma docker_shape_nonempty s : docker_shape s = true → s ≠ "".
Proof. by intros Hs ->. Qed.

Lemma Canonical_form s c : Canonical s = Some c → cursor_form c ∧ c ≠ "".
Proof.
  unfold Canonical. destruct (docker_shape s) eqn:E.
  - intros [= <-]. split; [by left|by apply docker_shape_nonempty].
  - intros (t & _ & ->)%fmap_Some. split; [right; by exists t|apply FormatDocker_nonempty].
Qed.

Lemma ParseCursor_form now s c : ParseCursor now s = Some c → cursor_form c ∧ c ≠ "".
Proof.
  unfold ParseCursor. destruct (is_empty s); [done|]. destruct (Canonical s) eqn:E.
  - intros [= <-]. by apply Canonical_form in E.
  - intros (d & _ & ->)%fmap_Some. split; [right; by eexists|apply FormatDocker_nonempty].
Qed.

(** A cursor handed out reads back as itself, or filters nothing. *)
Lemma ParseCursor_again now c : cursor_form c → ParseCursor now c = None ∨ ParseCursor now c = Some c.
Proof.
  intros Hc. unfold ParseCursor, Canonical. destruct (is_empty c); [by left|].
  destruct (docker_shape c) eqn:E; [by right|]. destruct Hc as [Hc|[t ->]]; [congruence|].
  destruct (ParseRFC3339 _) as [t'|] eqn:Ep; simpl.
  - right. by rewrite (FormatDocker_reparse t t').
  - rewrite FormatDocker_no_duration. by left.
Qed.

Context `{MapRange}.

Lemma oldest_le (l : list (string * string)) floor :
  (∀ k last, (k, last) ∈ l → last ≠ "") →
  let r := foldl (λ oldest '(_, last), if is_empty oldest || str_lt last oldest then last else oldest) floor l in
  (floor ≠ "" → r ≠ "" ∧ String.le r floor) ∧ (∀ k last, (k, last) ∈ l → r ≠ "" ∧ String.le r last).
Proof.
  revert floor. induction l as [|[k last] l IH]; intros floor Hl; simpl.
  { split; [done|]. by intros ?? ?%elem_of_nil. }
  destruct (IH (if is_empty floor || str_lt last floor then last else floor)) as [IH1 IH2].
  { intros k' last' Hin. apply (Hl k'). by right. }
  assert (last ≠ "") as Hlast by (apply (Hl k); by left).
  destruct (is_empty floor) eqn:Ef; simpl in *.
  - apply is_empty_spec in Ef as ->. split; [done|]. intros k' last' [[= -> ->]|Hin]%elem_of_cons; [tauto|by apply (IH2 k')].
  - assert (floor ≠ "") as Hf by by intros ->.
    destruct (str_lt last floor) eqn:Et.
    + assert (String.le last floor) by (apply str_lt_true in Et; by destruct (total String.le last floor)).
      split; [intros _; destruct IH1 as [? ?]; [done|split; [done|by transitivity last]]|].
      intros k' last' [[= -> ->]|Hin]%elem_of_cons; [tauto|by apply (IH2 k')].
    + apply str_lt_false in Et. destruct IH1 as [? ?]; [done|]. split; [done|].
      intros k' last' [[= -> ->]|Hin]%elem_of_cons; [split; [done|by transitivity floor]|by apply (IH2 k')].
Qed.

(** The point to resume from is behind every task heard, or the bound. *)
Lemma resume_point_behind floor newest m k last ts :
  (∀ k last, m !! k = Some last → last ≠ "") → m !! k = Some last → str_lt last ts = true →
  (∀ t, ParseDocker newest = Some t → str_lt (FormatDocker (t - MaxClockSkew)) ts = true) →
  str_lt (resume_point floor newest m) ts = true.
Proof.
  intros Hm Hk Hlast Hbound. unfold resume_point.
  set (oldest := foldl _ floor (range m)).
  assert (str_lt oldest ts = true) as Hold.
  { destruct (oldest_le (range m) floor) as [_ Hle].
    - intros k' last'. rewrite range_perm, elem_of_map_to_list. apply Hm.
    - apply (str_le_lt _ last); [|done]. apply (Hle k). by rewrite range_perm, elem_of_map_to_list. }
  destruct (ParseDocker newest) as [t|]; [|done]. destruct (str_lt oldest (FormatDocker _)); [by apply Hbound|done].
Qed.

Lemma resume_point_form floor newest m :
  cursor_form floor ∨ floor = "" → (∀ k last, m !! k = Some last → cursor_form last) →
  cursor_form (resume_point floor newest m) ∨ resume_point floor newest m = "".
Proof.
  intros Hf Hm. unfold resume_point. set (oldest := foldl _ floor (range m)).
  assert (cursor_form oldest ∨ oldest = "") as Hold.
  { subst oldest. assert (∀ k last, (k, last) ∈ range m → cursor_form last) as Hl.
    { intros k last. rewrite range_perm, elem_of_map_to_list. apply Hm. }
    revert floor Hf Hl. induction (range m) as [|[k last] l IH]; intros floor Hf Hl; simpl; [done|].
    apply IH; [|intros k' last' Hin; apply (Hl k'); by right].
    destruct (_ || _); [left; apply (Hl k); by left|done]. }
  destruct (ParseDocker newest); [|done]. destruct (str_lt oldest (FormatDocker _)); [left; right; by eexists|done].
Qed.

(** * What a stream has sent *)

Definition last_id (sent : list (option string * LogLine)) : string :=
  foldl (λ id p, default id p.1) "" sent.

Lemma last_id_snoc sent p : last_id (sent ++ [p]) = default (last_id sent) p.1.
Proof. unfold last_id. by rewrite foldl_app. Qed.

Record observed (floor0 : string) (sent : list (option string * LogLine)) (c : ResumeCursor) : Prop := {
  obs_floor : floor c = floor0;
  obs_id : id_ c = last_id sent;
  obs_newest : newest c = floor0 ∨ ∃ p, p ∈ sent ∧ Canonical (Timestamp p.2) = Some (newest c);
  obs_from k last : byTask c !! k = Some last →
    ∃ p, p ∈ sent ∧ task_of p.2 = k ∧ Canonical (Timestamp p.2) = Some last;
  obs_heard p u : p ∈ sent → Canonical (Timestamp p.2) = Some u → is_Some (byTask c !! task_of p.2);
  obs_point : byTask c ≠ ∅ → id_ c = resume_point floor0 (newest c) (byTask c);
  obs_quiet : byTask c = ∅ → id_ c = "";
}.

Lemma observed_start now since : observed (default "" (ParseCursor now since)) [] (NewResumeCursor now since).
Proof.
  split; try done; simpl.
  - by left.
  - by intros p u ?%elem_of_nil.
Qed.

Lemma observed_step floor0 sent c line id c' :
  observed floor0 sent c → Observe c line = (id, c') → observed floor0 (sent ++ [(id, line)]) c'.
Proof.
  intros [Hf Hi Hn Hfrom Hheard Hp Hq]. unfold Observe. destruct (Canonical (Timestamp line)) as [u|] eqn:Eu.
  2:{ intros [= <- <-]. split; try done.
      - by rewrite last_id_snoc.
      - destruct Hn as [?|(p & Hp' & ?)]; [by left|right; exists p; split; [set_solver|done]].
      - intros k last Hk. destruct (Hfrom k last Hk) as (p & ? & ?). exists p. split; [set_solver|done].
      - intros p u [Hin| ->%list_elem_of_singleton]%elem_of_app; [by apply Hheard|]. simpl. congruence. }
  destruct (Canonical_form _ _ Eu) as [_ Hne].
  set (m := if str_lt (default "" (byTask c !! task_of line)) u then _ else _).
  set (n := if str_lt (newest c) u then u else newest c).
  assert (is_Some (m !! task_of line)) as Hline.
  { unfold m. destruct (str_lt (default _ _) u) eqn:E; [rewrite lookup_insert_eq; by eexists|].
    destruct (byTask c !! task_of line) eqn:E'; [by eexists|]. simpl in E.
    rewrite str_lt_empty in E by done. done. }
  assert (∀ c', floor c' = floor0 → newest c' = n → byTask c' = m → id_ c' = resume_point floor0 n m →
    ∀ i, default (last_id sent) i = id_ c' → observed floor0 (sent ++ [(i, line)]) c') as Hall.
  { intros c0 Hf0 Hn0 Hm0 Hi0 i Hi'. split; try done.
    - by rewrite last_id_snoc.
    - rewrite Hn0. unfold n. destruct (str_lt (newest c) u); [right; exists (i, line); split; [set_solver|done]|].
      destruct Hn as [?|(p & Hp' & ?)]; [by left|right; exists p; split; [set_solver|done]].
    - rewrite Hm0. intros k last Hk.
      assert (byTask c !! k = Some last ∨ k = task_of line ∧ last = u) as [Hk'|[-> ->]].
      { unfold m in Hk. destruct (str_lt (default _ _) u); [|by left]. apply lookup_insert_Some in Hk as [[<- <-]|[_ ?]]; auto. }
      + destruct (Hfrom k last Hk') as (p & ? & ?). exists p. split; [set_solver|done].
      + exists (i, line). split; [set_solver|done].
    - rewrite Hm0. intros p u' [Hin| ->%list_elem_of_singleton]%elem_of_app Hu'; [|done].
      destruct (Hheard p u' Hin Hu') as [last Hl]. unfold m. destruct (str_lt (default _ _) u); [|by eexists].
      destruct (decide (task_of p.2 = task_of line)) as [->|]; [rewrite lookup_insert_eq|rewrite lookup_insert_ne by done]; by eexists.
    - intros _. by rewrite Hn0, Hm0.
    - rewrite Hm0. intros Hm1. rewrite Hm1, lookup_empty in Hline. by destruct Hline. }
  rewrite Hf. case_bool_decide as Ho; intros [= <- <-]; apply Hall; try done; simpl; congruence.
Qed.

(** * What the next stream is owed *)

(** A line a client that was sent [sent] has not had: it cannot be placed, or
    it is past all that was sent of its task, and is not further behind what
    was sent, and the cursor the stream began with, than the clocks' skew. *)
Definition owed (floor : string) (sent : list (option string * LogLine)) (line : LogLine) : Prop :=
  match Canonical (Timestamp line) with
  | None => True
  | Some ts =>
      (∃ p u, p ∈ sent ∧ task_of p.2 = task_of line ∧ Canonical (Timestamp p.2) = Some u) ∧
      (∀ p u, p ∈ sent → task_of p.2 = task_of line → Canonical (Timestamp p.2) = Some u → str_lt u ts = true) ∧
      (∀ n t, n = floor ∨ (∃ p, p ∈ sent ∧ Canonical (Timestamp p.2) = Some n) → ParseDocker n = Some t →
        str_lt (FormatDocker (t - MaxClockSkew)) ts = true)
  end.

Lemma owed_newer floor0 sent c line :
  observed floor0 sent c → owed floor0 sent line → Newer (Timestamp line) (id_ c) = true.
Proof.
  intros [Hf Hi Hn Hfrom Hheard Hp Hq]. unfold owed, Newer. destruct (Canonical (Timestamp line)) as [ts|]; [|done].
  intros ((p & u & Hin & Ht & Hu) & Hpast & Hskew).
  destruct (Hheard p u Hin Hu) as [last Hlast]. rewrite Ht in Hlast. rewrite Hp by (intros Hm; by rewrite Hm, lookup_empty in Hlast).
  apply (resume_point_behind _ _ _ (task_of line) last); [|done| |].
  - intros k last' Hk. destruct (Hfrom k last' Hk) as (p' & _ & _ & Hc). by apply Canonical_form in Hc as [_ ?].
  - destruct (Hfrom _ _ Hlast) as (p' & Hin' & Ht' & Hc). by apply (Hpast p').
  - intros t Hnt. apply (Hskew (newest c)); [|done]. destruct Hn as [?|(p' & ? & ?)]; [by left|right; by exists p'].
Qed.

Lemma observed_form now since sent c :
  observed (default "" (ParseCursor now since)) sent c → cursor_form (id_ c) ∨ id_ c = "".
Proof.
  intros [Hf Hi Hn Hfrom Hheard Hp Hq]. destruct (decide (byTask c = ∅)) as [Hm|Hm]; [right; by apply Hq|].
  rewrite Hp by done. apply resume_point_form.
  - destruct (ParseCursor now since) as [f|] eqn:E; [|by right]. left. by apply ParseCursor_form in E as [? _].
  - intros k last Hk. destruct (Hfrom k last Hk) as (p & _ & _ & Hc). by apply Canonical_form in Hc as [? _].
Qed.

Lemma serve_line_eq flt b c line sent b' c' :
  serve_line flt (b, c) line = (sent, (b', c')) →
  match sent with
  | None => c' = c
  | Some p => p.2 = line ∧ Observe c line = (p.1, c')
  end.
Proof.
  unfold serve_line. destruct (_ && _); [by intros [= <- _ <-]|].
  destruct (Keep b line) as [[] b1]; simpl; [|by intros [= <- _ <-]].
  destruct (Observe c line) as [i c1] eqn:E. by intros [= <- _ <-].
Qed.

(** The last id sent is the cursor's, and the cursor has observed what was sent. *)
Lemma serve_lines_observed floor0 flt lines sent b c :
  observed floor0 sent c →
  ∃ c', observed floor0 (sent ++ serve_lines flt (b, c) lines) c'.
Proof.
  revert sent b c. induction lines as [|line lines IH]; intros sent b c Hc; cbn [serve_lines].
  { exists c. by rewrite app_nil_r. }
  destruct (serve_line flt (b, c) line) as [out [b' c']] eqn:E. apply serve_line_eq in E.
  destruct out as [[i l]|]; simpl in E.
  - destruct E as [-> E]. change (option_list (Some (i, line))) with [(i, line)]. rewrite app_assoc.
    apply IH. by apply (observed_step _ _ c).
  - subst c'. simpl. by apply IH.
Qed.

(** A line past the filter's cursor is sent, wherever it is in the backlog. *)
Lemma serve_lines_sends flt lines b c line :
  line ∈ lines → is_empty flt = true ∨ Stream line = flt →
  (∀ f, b = Some f → Newer (Timestamp line) (cursor f) = true) →
  ∃ i, (i, line) ∈ serve_lines flt (b, c) lines.
Proof.
  revert b c. induction lines as [|l lines IH]; intros b c; [by intros ?%elem_of_nil|].
  intros Hin Hflt Hnew. cbn [serve_lines].
  destruct (serve_line flt (b, c) l) as [out [b' c']] eqn:E. apply elem_of_cons in Hin as [<-|Hin].
  - assert (negb (is_empty flt) && negb (String.eqb (Stream line) flt) = false) as Hs.
    { destruct Hflt as [-> |<-]; [done|]. by rewrite String.eqb_refl, andb_false_r. }
    unfold serve_line in E. rewrite Hs in E.
    assert (∃ b1, Keep b line = (true, b1)) as [b1 Hk].
    { unfold Keep. destruct b as [f|]; [|by eexists]. rewrite (Hnew f) by done. simpl. case_bool_decide; by eexists. }
    rewrite Hk in E. simpl in E. destruct (Observe c line) as [i c1]. injection E as <- _ _.
    exists i. simpl. by left.
  - destruct (IH b' c') as [i Hi]; [done|done| |exists i; apply elem_of_app; by right].
    intros f ->. unfold serve_line in E. destruct (_ && _); [injection E as _ -> _; by apply Hnew|].
    destruct (Keep b l) as [kept b1] eqn:Ek.
    assert (b1 = Some f) as ->.
    { destruct kept; simpl in E; [destruct (Observe c l) as [? ?]|]; congruence. }
    unfold Keep in Ek. destruct b as [f0|]; [|congruence].
    assert (cursor f = cursor f0) as Hcur.
    { destruct (bool_decide _) in Ek; [by simplify_eq/=|]. destruct (Newer _ _); simpl in Ek; [|by simplify_eq].
      destruct (is_empty (Timestamp l)) in Ek; by simplify_eq. }
    rewrite Hcur. by apply Hnew.
Qed.

(** A log stream that reconnects with the last id it was sent is given
    every line of the replayed backlog it is owed: one with no usable
    timestamp, and one past all it was sent of its task, as long as the task
    was heard and no clock is further behind another than a minute. *)
Theorem resume_skips_nothing now since flt lines now' lines' line :
  let sent := serveLogsSSE now since flt lines in
  owed (default "" (ParseCursor now since)) sent line →
  line ∈ lines' → flt = "" ∨ Stream line = flt →
  ∃ i, (i, line) ∈ serveLogsSSE now' (last_id sent) flt lines'.
Proof.
  intros sent Howed Hin Hflt.
  destruct (serve_lines_observed _ flt lines [] (NewBacklogFilter now since) _ (observed_start now since)) as [c Hc].
  change (observed (default "" (ParseCursor now since)) sent c) in Hc.
  apply serve_lines_sends; [done|by destruct Hflt as [->|]; [left|right]|]. unfold NewBacklogFilter.
  rewrite <-(obs_id _ _ _ Hc). intros f. intros (cur & Hcur & ->)%fmap_Some. simpl.
  destruct (observed_form now since sent c Hc) as [Hform|Hempty]; [|by rewrite Hempty in Hcur].
  destruct (ParseCursor_again now' _ Hform) as [Hn|Hs]; [congruence|].
  rewrite Hs in Hcur. injection Hcur as <-. by eapply owed_newer.
Qed.
End cursors.

(** Eighteen digits of the clock after a fixed date. *)
Definition demo_digits (t : Z) : string :=
  foldr (λ i s, String (ascii_of_nat (48 + Z.to_nat (t / 10 ^ Z.of_nat i mod 10))) s) "" (rev (seq 0 18)).

#[export] Instance demo_log_times : LogTimes := {
  ParseRFC3339 _ := None;
  ParseDocker s := Atoi (str_take 18 (str_drop 11 s));
  FormatDocker t := "2024-01-01T" +:+ demo_digits t +:+ "Z";
  ParseDuration _ := None;
}.

#[export] Instance demo_log_times_laws : LogTimesLaws.
Proof. by split. Qed.

Definition demo_line (task : string) (t : Z) (message : string) : LogLine :=
  mkLine (FormatDocker t) message "stdout" {["taskId" := task]}.

Lemma resume_skips_nothing_witness :
  let _ := map_range_std in
  let lines := [demo_line "a" 100000000000 "one"; demo_line "b" 90000000000 "two"] in
  let sent := serveLogsSSE 0 "" "" lines in
  let line := demo_line "b" 95000000000 "three" in
  owed "" sent line ∧ ∃ i, (i, line) ∈ serveLogsSSE 0 (last_id sent) "" (lines ++ [line]).
Proof.
  intros R lines sent line.
  assert (owed "" sent line) as Howed.
  { assert (∀ p, p ∈ sent → p.2 = demo_line "a" 100000000000 "one" ∨ p.2 = demo_line "b" 90000000000 "two") as Hs.
    { intros p Hp. assert (sent.*2 = lines) as E by (vm_compute; reflexivity).
      assert (p.2 ∈ lines) as Hl by (rewrite <-E; by apply list_elem_of_fmap_2).
      apply elem_of_cons in Hl as [?|?%list_elem_of_singleton]; [by left|by right]. }
    unfold owed. change (Canonical (Timestamp line)) with (Some (FormatDocker 95000000000)). split; [|split].
    - assert (∃ p, p ∈ sent ∧ p.2 = demo_line "b" 90000000000 "two") as (p & Hp & E).
      { assert (demo_line "b" 90000000000 "two" ∈ sent.*2) as (p & -> & Hp)%list_elem_of_fmap by (vm_compute; right; left).
        by exists p. }
      exists p, (FormatDocker 90000000000). by rewrite E.
    - intros p u Hp Ht Hu. destruct (Hs p Hp) as [E|E]; rewrite E in Ht, Hu; [by vm_compute in Ht|].
      injection Hu as <-. by vm_compute.
    - intros n t [-> |(p & Hp & Hn)] Ht; [by vm_compute in Ht|].
      destruct (Hs p Hp) as [E|E]; rewrite E in Hn; vm_compute in Hn; injection Hn as <-;
        vm_compute in Ht; injection Ht as <-; by vm_compute. }
  split; [done|]. apply (resume_skips_nothing 0 "" ""); [exact Howed|unfold lines; set_solver|by left].
Defined.

(** A line that shares its timestamp with the last one sent, as a continuation
    line does with the line it continues, is not sent again: a stream that is
    cut between the two never gives the second. *)
Example resume_skips_continuation :
  let _ := map_range_std in
  let first := demo_line "a" 100000000000 "one" in
  let second := demo_line "a" 100000000000 "two" in
  let sent := serveLogsSSE 0 "" "" [first] in
  serveLogsSSE 0 (last_id sent) "" [first; second] = [].
Proof. vm_compute. reflexivity. Qed.
