(* ===== verification/LogFrames.v ===== *)
(** What a daemon writes in frames is what internal/logs/logs.go reads: the
    round trip of the framing, the details and the lines of Logs.v, and what a
    stream cut short is reported as. *)
From S2P Require Import Prelude GoStrings GoStrconv GoURL Logs.
#[local] Open Scope string_scope.
#[local] Open Scope Z_scope.
#[local] Open Scope list_scope.

(** * Frames round trip *)

(** What a daemon writes for one message: its timestamp, its details and its
    lines, each ended by a newline, in one frame. *)
Record Entry := mkEntry {
  en_stderr : bool;
  en_time : string;
  en_attrs : list (string * string);
  en_message : string;
  en_more : list string;
}.

Definition short_key (k : string) : string := default k (detailKeyMap !! k).

Definition attrs_of (l : list (string * string)) : gmap string string :=
  foldl (λ m '(k, v), <[short_key k := v]> m) ∅ l.

Definition details_of (l : list (string * string)) : string :=
  Join (map (λ '(k, v), QueryEscape k +:+ "=" +:+ QueryEscape v) l) ",".

Definition first_line (e : Entry) : string :=
  en_time e +:+ " " +:+ details_of (en_attrs e) +:+ " " +:+ en_message e.

Definition payload_of (e : Entry) : string :=
  Join (first_line e :: en_more e ++ [""]) (String nl "").

Definition size_byte (i n : Z) : ascii := ascii_of_nat (Z.to_nat (n / 2 ^ (8 * i) mod 256)).

Definition header_of (e : Entry) (size : Z) (rest : string) : string :=
  String (ascii_of_nat (if en_stderr e then 2 else 1)%nat) (String "000" (String "000" (String "000"
    (String (size_byte 3 size) (String (size_byte 2 size) (String (size_byte 1 size) (String (size_byte 0 size) rest))))))).

Definition frame_of (e : Entry) : string :=
  header_of e (Z.of_nat (String.length (payload_of e))) (payload_of e).

(** The line a frame's first line becomes, and what continues it. *)
Definition lines_of (e : Entry) : list LogLine :=
  let stream := if en_stderr e then "stderr" else "stdout" in
  (λ m, mkLine (en_time e) m stream (attrs_of (en_attrs e))) <$>
    en_message e :: List.filter (negb ∘ is_empty) (en_more e).

(** A timestamp is Docker's, a key is not empty and one is Docker's, a further
    line does not look stamped, and the frame is within the bound. *)
Record entry_ok (e : Entry) : Prop := {
  ok_time : byte_at (en_time e) 4 "-" && byte_at (en_time e) 10 "T" = true ∧ (30 ≤ String.length (en_time e))%nat;
  ok_time_bytes : IndexByte (en_time e) " " = None ∧ IndexByte (en_time e) nl = None;
  ok_keys : Forall (λ kv, kv.1 ≠ "") (en_attrs e);
  ok_docker : existsb (λ kv, HasPrefix kv.1 "com.docker.") (en_attrs e) = true;
  ok_message : IndexByte (en_message e) nl = None;
  ok_more : Forall (λ l, IndexByte l nl = None ∧ Timestamp (parseLine l "") = "" ∧ Message (parseLine l "") = l) (en_more e);
  ok_size : Z.of_nat (String.length (payload_of e)) ≤ maxLogFrameSize;
}.

Lemma size_byte_val i n : Z.of_nat (nat_of_ascii (size_byte i n)) = n / 2 ^ (8 * i) mod 256.
Proof.
  unfold size_byte. pose proof (Z.mod_pos_bound (n / 2 ^ (8 * i)) 256 ltac:(lia)).
  rewrite nat_ascii_embedding by lia. lia.
Qed.

Lemma be32_size n : 0 ≤ n < 2 ^ 32 → be32 (size_byte 3 n) (size_byte 2 n) (size_byte 1 n) (size_byte 0 n) = n.
Proof.
  intros Hn. unfold be32. rewrite !size_byte_val. simpl (2 ^ _).
  assert (∀ x, 0 ≤ x mod 256 < 256) as Hb by (intros x; apply Z.mod_pos_bound; lia).
  pose proof (Hb (n / 1)). pose proof (Hb (n / 256)). pose proof (Hb (n / 65536)). pose proof (Hb (n / 16777216)).
  change (2 ^ (8 * 3)) with 16777216. change (2 ^ (8 * 2)) with 65536. change (2 ^ (8 * 1)) with 256. change (2 ^ (8 * 0)) with 1.
  rewrite (lor_shift (n / 256 mod 256) 8) by lia.
  rewrite (Z.shiftl_mul_pow2 (n / 65536 mod 256) 16) by lia.
  rewrite (lor_shift (n / 16777216 mod 256) 24) by lia.
  replace ((n / 16777216 mod 256) * 2 ^ 24 + n / 65536 mod 256 * 2 ^ 16)
    with (Z.shiftl (n / 16777216 mod 256 * 256 + n / 65536 mod 256) 16) by (rewrite Z.shiftl_mul_pow2 by lia; lia).
  rewrite lor_shift by lia. Z.to_euclidean_division_equations. lia.
Qed.

(** Leaving out the newlines at the end leaves out empty lines only. *)
Lemma split_trim_right c s : ∃ w ws ws',
  split_byte c (trim_right_byte c s) = w :: ws ∧ split_byte c s = w :: ws' ∧
  List.filter (negb ∘ is_empty) ws = List.filter (negb ∘ is_empty) ws'.
Proof.
  induction s as [|d s (w & ws & ws' & IH1 & IH2 & IH3)]; [by exists "", [], []|].
  cbn [trim_right_byte split_byte]. rewrite IH2.
  destruct (trim_right_byte c s) as [|x t].
  - simpl in IH1. injection IH1 as <- <-. destruct (Ascii.eqb d c) eqn:E; simpl.
    + by exists "", [], ("" :: ws').
    + rewrite E. by exists (String d ""), [], ws'.
  - cbn [split_byte] in *. rewrite IH1. destruct (Ascii.eqb d c); [|by exists (String d w), ws, ws'].
    exists "", (w :: ws), (w :: ws'). split; [done|split; [done|]]. simpl. by rewrite IH3.
Qed.

Lemma frame_lines_filter stream parent l :
  frame_lines stream parent l = frame_lines stream parent (List.filter (negb ∘ is_empty) l).
Proof.
  revert parent. induction l as [|s l IH]; intros parent; [done|]. simpl.
  destruct (is_empty s) eqn:E; simpl; [apply IH|]. rewrite E. destruct (is_empty (Timestamp _)); by rewrite IH.
Qed.

Lemma str_get_app n s t c : byte_at s n c = true → byte_at (s +:+ t) n c = true.
Proof. revert n. induction s as [|d s IH]; intros [|n]; unfold byte_at in *; simpl; try done. apply IH. Qed.

Lemma IndexByte_found s t c : IndexByte s c = None → IndexByte (s +:+ String c t) c = Some (String.length s).
Proof.
  induction s as [|d s IH]; simpl; [by rewrite Ascii.eqb_refl|].
  destruct (Ascii.eqb d c); [done|]. destruct (IndexByte s c); [done|]. intros _. by rewrite IH.
Qed.

Lemma str_take_app s t : str_take (String.length s) (s +:+ t) = s.
Proof. induction s as [|c s IH]; simpl; [by destruct t|]. by rewrite IH. Qed.

Lemma Join_no_byte d l sep :
  IndexByte sep d = None → Forall (λ s, IndexByte s d = None) l → IndexByte (Join l sep) d = None.
Proof.
  intros Hsep. induction l as [|s [|s' l] IH]; [done|by intros [Hs _]%Forall_cons|].
  intros [Hs Hl]%Forall_cons. change (IndexByte (s +:+ sep +:+ Join (s' :: l) sep) d = None).
  apply IndexByte_app; [done|]. apply IndexByte_app; [done|by apply IH].
Qed.

Lemma details_no_byte d l :
  existsb (Ascii.eqb d) [" "; "010"]%char = true → IndexByte (details_of l) d = None.
Proof.
  intros Hd. unfold details_of.
  assert (existsb (Ascii.eqb d) ["&"; ";"; "="; ","; " "; "010"]%char = true ∧ IndexByte "," d = None ∧ IndexByte "=" d = None) as (He & Hc & Hq).
  { simpl in *. rewrite orb_false_r in Hd. apply orb_true_iff in Hd as [->%Ascii.eqb_eq| ->%Ascii.eqb_eq]; done. }
  apply Join_no_byte; [done|]. apply Forall_forall. intros s Hs.
  apply list_elem_of_In, in_map_iff in Hs as ([k v] & <- & _).
  apply IndexByte_app; [by apply escape_no_byte|]. by apply IndexByte_app; [|apply escape_no_byte].
Qed.

Lemma detail_pairs_escaped l m b :
  Forall (λ kv, kv.1 ≠ "") l →
  detail_pairs (map (λ '(k, v), QueryEscape k +:+ "=" +:+ QueryEscape v) l) m b =
    Some (foldl (λ m '(k, v), <[short_key k := v]> m) m l, b || existsb (λ kv, HasPrefix kv.1 "com.docker.") l).
Proof.
  revert m b. induction l as [|[k v] l IH]; intros m b Hl; simpl; [by rewrite orb_false_r|].
  apply Forall_cons in Hl as [Hk Hl]. simpl in Hk.
  change (QueryEscape k +:+ "=" +:+ QueryEscape v) with (QueryEscape k +:+ String "=" (QueryEscape v)).
  rewrite Cut_byte by by apply escape_no_byte.
  assert (is_empty (QueryEscape k) = false) as ->.
  { pose proof (QueryUnescape_Escape k) as Hu. destruct (QueryEscape k); [|done]. simpl in Hu. congruence. }
  rewrite !QueryUnescape_Escape, IH by done. by rewrite orb_assoc.
Qed.

Lemma parseDetails_escaped l msg :
  Forall (λ kv, kv.1 ≠ "") l → existsb (λ kv, HasPrefix kv.1 "com.docker.") l = true →
  parseDetails (details_of l +:+ " " +:+ msg) = (attrs_of l, msg).
Proof.
  intros Hk Hd. unfold parseDetails. change (details_of l +:+ " " +:+ msg) with (details_of l +:+ String " " msg).
  rewrite Cut_byte by by apply details_no_byte.
  unfold details_of. rewrite split_Join; [rewrite detail_pairs_escaped by done; by rewrite Hd|by destruct l|].
  apply Forall_forall. intros s Hs. apply list_elem_of_In, in_map_iff in Hs as ([k v] & <- & _).
  apply IndexByte_app; [by apply escape_no_byte|]. by apply IndexByte_app; [|apply escape_no_byte].
Qed.

Lemma parseLine_first e stream : entry_ok e →
  parseLine (first_line e) stream = mkLine (en_time e) (en_message e) stream (attrs_of (en_attrs e)).
Proof.
  intros [Ht [Hsp _] Hk Hd _ _ _]. destruct Ht as [[H4 H10]%andb_true_iff Hlen].
  unfold parseLine, first_line. set (rest := details_of (en_attrs e) +:+ " " +:+ en_message e).
  change (en_time e +:+ " " +:+ rest) with (en_time e +:+ String " " rest).
  assert (rest ≠ "") as Hrest by (unfold rest; by destruct (details_of _)).
  rewrite !str_get_app by done. rewrite str_length_app. simpl String.length.
  assert ((31 <? String.length (en_time e) + S (String.length rest)) = true)%nat as ->.
  { apply Nat.ltb_lt. destruct rest; [done|]. simpl. lia. }
  simpl andb. cbv iota. rewrite IndexByte_found by done.
  destruct (String.length (en_time e)) as [|n] eqn:En; [lia|]. rewrite <-En, str_take_app.
  replace (en_time e +:+ String " " rest) with ((en_time e +:+ " ") +:+ rest) by by rewrite str_app_assoc.
  replace (S (String.length (en_time e))) with (String.length (en_time e +:+ " ")) by (rewrite str_length_app; simpl; lia).
  rewrite str_drop_app. rewrite (is_empty_false rest) by done.
  unfold rest. by rewrite parseDetails_escaped.
Qed.

Lemma more_lines stream parent l :
  Forall (λ s, Timestamp (parseLine s "") = "" ∧ Message (parseLine s "") = s) l →
  frame_lines stream parent l =
    (λ m, mkLine (Timestamp parent) m stream (Attrs parent)) <$> List.filter (negb ∘ is_empty) l.
Proof.
  induction l as [|s l IH]; [done|]. intros [[Ht Hm] Hl]%Forall_cons. simpl.
  destruct (is_empty s); simpl; [by apply IH|].
  assert (parseLine s stream = mkLine "" s stream (Attrs (parseLine s ""))) as ->.
  { unfold parseLine in *. repeat case_match; simplify_eq/=; done. }
  simpl. by rewrite IH.
Qed.

Lemma payload_lines_of e : entry_ok e →
  payload_lines (ascii_of_nat (if en_stderr e then 2 else 1)%nat) (payload_of e) = lines_of e.
Proof.
  intros He. unfold payload_lines.
  assert (stream_name (ascii_of_nat (if en_stderr e then 2 else 1)%nat) =
          if en_stderr e then "stderr" else "stdout") as -> by by destruct (en_stderr e).
  set (stream := if en_stderr e then _ else _).
  assert (split_byte nl (payload_of e) = first_line e :: en_more e ++ [""]) as Hs.
  { unfold payload_of. apply split_Join; [done|]. destruct He as [_ [_ Ht] _ _ Hm Hmore _].
    constructor; [|apply Forall_app; split; [by eapply Forall_impl; [exact Hmore|]; intros ? []|by constructor]].
    unfold first_line. repeat (apply IndexByte_app; [done || by apply details_no_byte|]). done. }
  destruct (split_trim_right nl (payload_of e)) as (w & ws & ws' & -> & Hw & Hws). rewrite Hs in Hw.
  injection Hw as <- <-. rewrite frame_lines_filter. cbn [List.filter]. rewrite Hws.
  assert ((negb ∘ is_empty) (first_line e) = true) as Hne.
  { unfold first_line. simpl. destruct He as [[_ Hlen] _ _ _ _ _ _]. by destruct (en_time e). }
  rewrite Hne. cbn [frame_lines].
  simpl in Hne. apply negb_true_iff in Hne. rewrite Hne, parseLine_first by done. cbn [Timestamp].
  rewrite (is_empty_false (en_time e)).
  2:{ destruct He as [[_ Hlen] _ _ _ _ _ _]. intros E. rewrite E in Hlen. simpl in Hlen. lia. }
  unfold lines_of. fold stream. cbn [fmap list_fmap]. rewrite <-frame_lines_filter. f_equal.
  rewrite more_lines; [cbn [Timestamp Attrs]; by rewrite List.filter_app, app_nil_r|].
  apply Forall_app. split; [|by constructor]. eapply Forall_impl; [apply He|]. by intros ? (_ & ? & ?).
Qed.

Lemma read_frame fuel e rest en : entry_ok e →
  read_frames (S fuel) (frame_of e +:+ rest) en =
    let '(lines, err) := read_frames fuel rest en in (lines_of e ++ lines, err).
Proof.
  intros He. unfold frame_of, header_of. cbn [String.append read_frames].
  set (n := Z.of_nat (String.length (payload_of e))).
  assert (0 < n) as Hpos. { unfold n, payload_of, first_line. destruct He as [[_ Hlen] _ _ _ _ _ _].
    destruct (en_more e); cbn [Join app]; rewrite !str_length_app; lia. }
  pose proof (ok_size e He) as Hn. fold n in Hn. change maxLogFrameSize with 1048576 in *.
  rewrite be32_size by (split; lia).
  destruct (Z.eqb_spec n 0); [lia|]. destruct (Z.ltb_spec 1048576 n); [lia|].
  rewrite str_length_app. destruct (Z.ltb_spec (Z.of_nat (String.length (payload_of e) + String.length rest)) n); [lia|].
  unfold n. rewrite Nat2Z.id, str_drop_app, str_take_app, payload_lines_of by done. done.
Qed.

(** A frame cut short is taken as the end in its header, as an error after it. *)
Lemma read_cut fuel e n en : entry_ok e → (n < String.length (frame_of e))%nat →
  read_frames (S fuel) (str_take n (frame_of e)) en =
    ([], if (8 <=? n)%nat then Some (Truncated en) else
         match en with Broken err => Some (ReadFailed err) | _ => None end).
Proof.
  intros He Hn. unfold frame_of, header_of in *. cbn [String.length] in Hn.
  do 8 (destruct n as [|n]; [done|]). cbn [str_take read_frames].
  pose proof (ok_size e He) as Hs. change maxLogFrameSize with 1048576 in *.
  rewrite be32_size by (split; lia). simpl (8 <=? _)%nat. cbv iota.
  rewrite (proj2 (Z.eqb_neq _ _)) by lia. rewrite (proj2 (Z.ltb_ge _ _)) by lia.
  assert (String.length (str_take n (payload_of e)) <= n)%nat as Hlen.
  { clear. generalize (payload_of e). induction n as [|n IH]; intros [|c s]; simpl; try lia. specialize (IH s). lia. }
  rewrite (proj2 (Z.ltb_lt _ _)) by lia. done.
Qed.

(** What a daemon frames the reader reads: every complete frame's lines
    come out, each with its stream, its timestamp and its details, a further
    line with those of the line it continues. A stream that ends, or is ended,
    within a frame's header is taken as ended there, and one that ends within a
    payload is reported, never passed off as complete. *)
Theorem frames_roundtrip es e n en :
  Forall entry_ok es → entry_ok e → (n < String.length (frame_of e))%nat →
  readDockerLogFrames (foldr (λ e s, frame_of e +:+ s) (str_take n (frame_of e)) es) en =
    (concat (lines_of <$> es),
     if (8 <=? n)%nat then Some (Truncated en) else
     match en with Broken err => Some (ReadFailed err) | _ => None end).
Proof.
  intros Hes He Hn. unfold readDockerLogFrames. set (s := foldr _ _ es).
  assert (negb (is_empty (str_take 8 s)) && negb (looksFramed (str_take 8 s)) = false) as ->.
  { assert (∀ e, (nat_of_ascii (ascii_of_nat (if en_stderr e then 2 else 1)) <=? 3)%nat = true) as Ht
      by (intros e'; by destruct (en_stderr e')).
    unfold s. destruct es as [|e' es]; cbn [foldr].
    - unfold frame_of, header_of. do 4 (destruct n as [|n]; [simpl; rewrite ?Ht; done|]). simpl. rewrite Ht. done.
    - unfold frame_of, header_of. simpl. rewrite Ht. done. }
  assert (length es <= String.length s)%nat as Hfuel.
  { unfold s. clear. induction es as [|e' es IH]; [simpl; lia|]. cbn [foldr length].
    rewrite str_length_app. unfold frame_of at 1, header_of. cbn [String.length]. lia. }
  revert Hfuel. generalize (String.length s). unfold s. clear s.
  induction Hes as [|e' es He' Hes IH]; intros fuel Hf; cbn [foldr]; [by apply read_cut|].
  destruct fuel as [|fuel]; [simpl in Hf; lia|].
  rewrite read_frame by done. rewrite IH by (simpl in Hf; lia). done.
Qed.

Definition demo_entry (stderr : bool) (message : string) (more : list string) : Entry :=
  mkEntry stderr (FormatDocker 100000000000)
    [("com.docker.swarm.task.id", "t1"); ("colour", "a b,c")] message more.

Lemma frames_roundtrip_witness :
  let es := [demo_entry false "one" ["  at f"; ""]; demo_entry true "" []] in
  readDockerLogFrames (foldr (λ e s, frame_of e +:+ s) (str_take 20 (frame_of (demo_entry true "cut" []))) es) AtEOF =
    (concat (lines_of <$> es), Some (Truncated AtEOF)).
Proof.
  intros es. rewrite (frames_roundtrip es (demo_entry true "cut" []) 20 AtEOF); [done| | |].
  - repeat constructor; vm_compute; try done; lia.
  - repeat constructor; vm_compute; try done; lia.
  - apply Nat.ltb_lt. vm_compute. reflexivity.
Defined.
