(* ===== verification/SseEvents.v ===== *)
(** The event stream's events: internal/api/sse/broadcaster.go, what a stream
    admits of one, what a history entry replays as, and the frames and ids a
    stream writes.

    JSON encoding is a library's, so the encoder is an argument. *)
From S2P Require Import Prelude GoStrings GoStrconv SortedLists Restarts CacheState CacheStacks History.
#[local] Open Scope string_scope.
#[local] Open Scope Z_scope.

(** * Events *)

(** The event types of internal/cache/cache.go, as the strings they are. *)
Definition EventNode : string := "node".
Definition EventService : string := "service".
Definition EventTask : string := "task".
Definition EventConfig : string := "config".
Definition EventSecret : string := "secret".
Definition EventNetwork : string := "network".
Definition EventVolume : string := "volume".
Definition EventStack : string := "stack".
Definition EventSync : string := "sync".
Definition EventGap : string := "gap".
Definition EventAnnotation : string := "annotation".

(** What an event's [any] fields hold. *)
Inductive Payload :=
| PNone
| PResource (r : Resource)
| PAnnotation (a : Annotation).

(** cache.Event as a listener gets it, numbered by the history. What a gap
    recovered is not read here. *)
Record Event := mkEvent {
  ev_Type : string;
  ev_Action : string;
  ev_ID : string;
  ev_Name : string;
  ev_Resource : Payload;
  HistoryID : Z;
  ev_Previous : Payload;
  ev_Service : string;
  ev_Stack : string;
  ev_Timestamp : Z;
  ev_Until : Z;
}.

(** An event on its way to a client; its encoding is computed from it. *)
Record frameEvent := mkFrameEvent {
  fe_Event : Event;
  sync : Z;
}.

Definition is_sync (e : Event) : bool := bool_decide (ev_Type e = EventSync).

Definition syncEvent (id : Z) : Event :=
  mkEvent EventSync "full_sync" "" "" PNone id PNone "" "" time_zero time_zero.

(** ** What a stream admits *)

Definition asRemoval (e : Event) : Event * bool :=
  match ev_Previous e with
  | PAnnotation previous =>
      if negb (bool_decide (ev_Type e = EventAnnotation)) || negb (bool_decide (ev_Action e = "update"))
      then (e, false)
      else (mkEvent (ev_Type e) "remove" (ev_ID e) (ev_Name e) (PAnnotation previous) (HistoryID e)
              PNone (ev_Service e) (ev_Stack e) (ev_Timestamp e) (ev_Until e), true)
  | _ => (e, false)
  end.

(** A nil filter accepts all. *)
Abbreviation filter_fn := (option (Event → bool)).

Definition admitted (match_ : filter_fn) (e : Event) : Event * bool :=
  match match_ with
  | None => (e, true)
  | Some f =>
      if f e then (e, true) else
      let '(removal, ok) := asRemoval e in (removal, ok && f removal)
  end.

Definition accepts (match_ : filter_fn) (e : Event) : bool := (admitted match_ e).2.

(** ** The matchers *)

Definition TypesFilter `{Unicode} (t : string) : filter_fn :=
  if is_empty t then None else
  let types := TrimSpace <$> split_byte "," t in
  Some (λ e, bool_decide (ev_Type e = EventSync) || bool_decide (ev_Type e = EventGap) ||
             bool_decide (ev_Type e ∈ types)).

Definition TypeMatcher (typ : string) (e : Event) : bool :=
  bool_decide (ev_Type e = typ) || bool_decide (ev_Type e = EventSync).

Definition ServiceListMatcher (e : Event) : bool :=
  bool_decide (ev_Type e ∈ [EventService; EventTask; EventNode; EventSync]).

Definition task_of (p : Payload) : option Task :=
  match p with PResource (RTask t) => Some t | _ => None end.

(** A node's or a service's stream hears of its tasks, too. *)
Definition ResourceMatcher (typ id : string) (e : Event) : bool :=
  if bool_decide (typ = EventNode) then
    if bool_decide (ev_Type e = EventSync) then true else
    if bool_decide (ev_Type e = EventNode) && bool_decide (ev_ID e = id) then true else
    if bool_decide (ev_Type e = EventTask) then
      match task_of (ev_Resource e) with Some t => bool_decide (t_NodeID t = id) | None => false end
    else false
  else if bool_decide (typ = EventService) then
    if bool_decide (ev_Type e = EventSync) then true else
    if bool_decide (ev_Type e = EventService) && bool_decide (ev_ID e = id) then true else
    if bool_decide (ev_Type e = EventTask) then
      match task_of (ev_Resource e) with Some t => bool_decide (t_ServiceID t = id) | None => false end
    else false
  else bool_decide (ev_Type e = EventSync) ||
       (bool_decide (ev_Type e = typ) && bool_decide (ev_ID e = id)).

(** cluster.CanReadEvent: a removal is also decided by the service and stack it
    carries. *)
Definition CanReadEvent (e : Event) (can : string → bool) : bool :=
  can (ev_Type e +:+ ":" +:+ ev_Name e) ||
  negb (is_empty (ev_Service e)) && can ("service:" +:+ ev_Service e) ||
  negb (is_empty (ev_Stack e)) && can ("stack:" +:+ ev_Stack e).

(** The filter the API hands a stream, [inner] narrowed to what its reader may
    read: [can] is the evaluator's answer for the caller, [mayRead] its answer
    for an annotation. *)
Definition aclMatchWrap (inner : filter_fn) (can : string → bool) (mayRead : Annotation → bool)
    (e : Event) : bool :=
  if negb (default (λ _, true) inner e) then false
  else if bool_decide (ev_Type e = EventSync) then true
  else if bool_decide (ev_Type e = EventGap) then true
  else match ev_Resource e with
       | PAnnotation a =>
           if bool_decide (ev_Type e = EventAnnotation) then mayRead a else CanReadEvent e can
       | _ => CanReadEvent e can
       end.

(** The kind of a resource a stack has a list for. *)
Definition stack_kind (typ : string) : option EventType :=
  if bool_decide (typ = EventService) then Some CacheState.EventService
  else if bool_decide (typ = EventConfig) then Some CacheState.EventConfig
  else if bool_decide (typ = EventSecret) then Some CacheState.EventSecret
  else if bool_decide (typ = EventNetwork) then Some CacheState.EventNetwork
  else if bool_decide (typ = EventVolume) then Some CacheState.EventVolume
  else None.

(** The cache has already taken a removed resource out of its stack; a task
    belongs to the stack its service does. *)
Definition StackMatcher (c : Cache) (name : string) (e : Event) : bool :=
  if bool_decide (ev_Type e = EventSync) then true else
  if bool_decide (ev_Action e = "remove") then bool_decide (ev_Stack e = name) else
  match stack_kind (ev_Type e) with
  | Some k => StackContains c name k (ev_ID e)
  | None =>
      if bool_decide (ev_Type e = EventTask) then
        match task_of (ev_Resource e) with
        | Some t => StackContains c name CacheState.EventService (t_ServiceID t)
        | None => false
        end
      else false
  end.

(** ** History entries and events *)

(** The entry notify records of a change: its actor is the attribution's, its
    owner a task's replica. *)
Definition change_entry (e : Event) (actor : option Actor) (service : string) (slot : Z)
    (node serviceName : string) : HistoryEntry :=
  mkHistoryEntry 0 "" time_zero time_zero (ev_Type e) (ev_Action e) (ev_ID e) (ev_Name e) actor
    (ev_Stack e) service slot node serviceName time_zero false (ev_Service e) None None.

Definition gap_entry (from until recoveredFrom : Z) : HistoryEntry :=
  mkHistoryEntry 0 KindGap from until "" "" "" "" None "" "" 0 "" "" recoveredFrom false "" None None.

(** The entry and event of a committed annotation write. *)
Definition annotation_entry (marked : Annotation) (replaced : option Annotation) (action : string)
    : HistoryEntry :=
  mkHistoryEntry 0 KindAnnotation time_zero time_zero "" action (FormatUint (a_ID marked)) "" None ""
    "" 0 "" "" time_zero false "" (Some marked) replaced.

Definition annotation_event (marked : Annotation) (replaced : option Annotation) (action : string)
    (id : Z) : Event :=
  mkEvent EventAnnotation action (FormatUint (a_ID marked)) "" (PAnnotation marked) id
    (match replaced with Some p => PAnnotation p | None => PNone end) "" "" time_zero time_zero.

(** The event an entry was recorded from, without the resource the history does
    not keep. *)
Definition replayEvent (e : HistoryEntry) : Event :=
  match (if bool_decide (Kind e = KindAnnotation) then Entry_Annotation e else None) with
  | Some a =>
      mkEvent EventAnnotation (Action e) (ResourceID e) "" (PAnnotation a) (ID e)
        (match Entry_Previous e with Some p => PAnnotation p | None => PNone end) "" ""
        time_zero time_zero
  | None =>
      if bool_decide (Kind e = KindGap) then
        mkEvent EventGap "" "" "" PNone (ID e) PNone "" "" (Timestamp e) (Until e)
      else mkEvent (Type_ e) (Action e) (ResourceID e) (Name e) PNone (ID e) PNone
             (Entry_Service e) (Stack e) time_zero time_zero
  end.

Definition ReplayAll : string := "*".

(** Whether a replay has something to send of an entry: an annotation item
    without its annotation has nothing, and a recovered change was never live. *)
Definition replayable (e : HistoryEntry) : bool :=
  negb (bool_decide (Kind e = KindAnnotation) && bool_decide (Entry_Annotation e = None) ||
        Recovered e).

(** The body of replayEvents' loop. *)
Definition replay_one (replayType : string) (match_ : filter_fn) (e : HistoryEntry)
    : option frameEvent :=
  if negb (replayable e) then None else
  let ev := replayEvent e in
  if negb (bool_decide (replayType = ReplayAll)) && negb (bool_decide (ev_Type ev = replayType))
  then None else
  let '(heard, ok) := admitted match_ ev in
  if ok then Some (mkFrameEvent heard 0) else None.

(** * The wire *)

Definition ResourcePath (typ id : string) : string :=
  if bool_decide (typ = EventNode) then "/nodes/" +:+ id
  else if bool_decide (typ = EventService) then "/services/" +:+ id
  else if bool_decide (typ = EventTask) then "/tasks/" +:+ id
  else if bool_decide (typ = EventConfig) then "/configs/" +:+ id
  else if bool_decide (typ = EventSecret) then "/secrets/" +:+ id
  else if bool_decide (typ = EventNetwork) then "/networks/" +:+ id
  else if bool_decide (typ = EventVolume) then "/volumes/" +:+ id
  else if bool_decide (typ = EventStack) then "/stacks/" +:+ id
  else if bool_decide (typ = EventAnnotation) then "/annotations/" +:+ id
  else "".

Definition ResourceType (typ : string) : string :=
  if bool_decide (typ = EventNode) then "Node"
  else if bool_decide (typ = EventService) then "Service"
  else if bool_decide (typ = EventTask) then "Task"
  else if bool_decide (typ = EventConfig) then "Config"
  else if bool_decide (typ = EventSecret) then "Secret"
  else if bool_decide (typ = EventNetwork) then "Network"
  else if bool_decide (typ = EventVolume) then "Volume"
  else if bool_decide (typ = EventStack) then "Stack"
  else if bool_decide (typ = EventGap) then "Gap"
  else if bool_decide (typ = EventAnnotation) then "Annotation"
  else "".

Record WireEvent := mkWireEvent {
  AtID : string;
  AtType : string;
  w_Type : string;
  w_Action : string;
  w_ID : string;
  w_Resource : Payload;
  w_Timestamp : Z;
  w_Until : Z;
}.

(** A removed resource rides on its event for matching only. *)
Definition ToSSEEvent (e : Event) (basePath : string) : WireEvent :=
  let path := ResourcePath (ev_Type e) (ev_ID e) in
  let path := if bool_decide (ev_Type e = EventGap) then "/history#" +:+ FormatUint (HistoryID e)
              else path in
  let path := if is_empty path then path else basePath +:+ path in
  let resource := if bool_decide (ev_Action e = "remove") then PNone else ev_Resource e in
  mkWireEvent path (ResourceType (ev_Type e)) (ev_Type e) (ev_Action e) (ev_ID e) resource
    (ev_Timestamp e) (ev_Until e).

(** The position a frame's id names, and the sync it ends in, zero for none. *)
Definition frame_step (acc : Z * Z) (e : frameEvent) : Z * Z :=
  let '(maxID, synced) := acc in
  let '(maxID, synced) :=
    if maxID <? HistoryID (fe_Event e) then (HistoryID (fe_Event e), 0) else (maxID, synced) in
  (maxID, if is_sync (fe_Event e) && (HistoryID (fe_Event e) =? maxID) then sync e else synced).

Definition frame_mark (events : list frameEvent) : Z * Z := foldl frame_step (0, 0) events.

Definition frame_id (epoch : string) (events : list frameEvent) : string :=
  let '(maxID, synced) := frame_mark events in
  let id := epoch +:+ "-" +:+ FormatUint maxID in
  if 0 <? synced then id +:+ "." +:+ FormatUint synced else id.

(** strings.Join with a comma, as the batch's loop writes its array. *)
Fixpoint joined (l : list string) : string :=
  match l with
  | [] => ""
  | [x] => x
  | x :: l => x +:+ "," +:+ joined l
  end.

Definition nl : string := String "010"%char "".

Section Writing.
Context (marshal : WireEvent → string).

Definition encodeEvent (e : Event) (basePath : string) : string := marshal (ToSSEEvent e basePath).

Definition writeBatch (basePath epoch : string) (events : list frameEvent) : string :=
  let id := frame_id epoch events in
  match events with
  | [e] =>
      "id: " +:+ id +:+ nl +:+ "event: " +:+ ev_Type (fe_Event e) +:+ nl +:+
      "data: " +:+ encodeEvent (fe_Event e) basePath +:+ nl +:+ nl
  | _ =>
      "id: " +:+ id +:+ nl +:+ "event: batch" +:+ nl +:+ "data: [" +:+
      joined ((λ e, encodeEvent (fe_Event e) basePath) <$> events) +:+ "]" +:+ nl +:+ nl
  end.
End Writing.

Definition EventID (epoch : string) (historyID : Z) : string := epoch +:+ "-" +:+ FormatUint historyID.

(** A Last-Event-ID this process wrote: the history id, and the number of the
    sync the frame ended in. *)
Definition cursor (epoch lastID : string) : option (Z * Z) :=
  match CutPrefix lastID (epoch +:+ "-") with
  | None => None
  | Some n =>
      let '(n, seq, synced) := Cut n "." in
      match ParseUint n with
      | None => None
      | Some id =>
          if synced then
            match ParseUint seq with
            | Some seen => if seen =? 0 then None else Some (id, seen)
            | None => None
            end
          else Some (id, 0)
      end
  end.
