(* ===== verification/SseBroadcaster.v ===== *)
(** The event stream's broadcaster: internal/api/sse/broadcaster.go, from a
    recorded change to the frames a stream writes.

    Four kinds of goroutine share it: the notifier (one at a time, under the
    cache's notifyMu), the fan-out, and each stream's handler, with shutdown.
    They meet in the inbox, each client's channel, the lagged flags, the history
    and the newest sync mark. Every read or write of one of these is an action
    here, so a run is any interleaving of them; what a goroutine does between
    two is a function. *)
From S2P Require Import Prelude GoStrings GoStrconv SortedLists Restarts CacheState CacheStacks History SseEvents.
#[local] Open Scope string_scope.
#[local] Open Scope Z_scope.

(** * State *)

(** The newest sync broadcast: its history position and number. *)
Record syncMark := mkSyncMark { pos : Z; seq : Z }.

(** Where a stream's handler is. *)
Inductive phase :=
| Asking (afterID seen : Z)       (* replayEvents, about to ask needsSync *)
| Reading (afterID covered : Z)   (* replayEvents, about to read the history *)
| Positioning                     (* syncFrame, about to read the position *)
| Numbering (position : Z)        (* syncFrame, about to read the mark *)
| Live                            (* in the loop *)
| Leaving                         (* the deferred cleanup is left to do *)
| Gone.

(** The client with its handler's variables. [wire] is every frame handed to
    the connection, [resumed] the position the stream started from. *)
Record stream := mkStream {
  events : list frameEvent;
  match_ : filter_fn;
  done : bool;
  owner : string;
  lagged : bool;
  replayType : string;
  skipBelow : Z;
  syncedThrough : Z;
  batch : list frameEvent;
  at_ : phase;
  wire : list (list frameEvent);
  resumed : Z;
}.

(** What the notifier holds: an event to hand on, one to queue, one the inbox
    had no room for. *)
Inductive handoff :=
| Idle
| Handing (e : Event)
| Queuing (e : frameEvent)
| Dropping (e : frameEvent).

(** What the fan-out holds: an event, and the clients still to send it to,
    whether as a removal. *)
Inductive delivery :=
| Waiting
| Taken (e : frameEvent)
| Sending (e : frameEvent) (recipients : list (nat * bool))
| Stopped.

(** The broadcaster, the history behind it and the goroutines around it.
    Streams are pointers: [clients] are those registered. [log] is every entry
    recorded, which the history holds the newest of, and [live] the event each
    was dispatched as, by its position. *)
Record Broadcaster := mkBroadcaster {
  history : History;
  log : list HistoryEntry;
  notifying : handoff;
  lastSync : option syncMark;
  inbox : list frameEvent;
  fan : delivery;
  clients : gset nat;
  owners : gmap string Z;
  closed : bool;
  streams : gmap nat stream;
  live : gmap Z Event;
}.

Definition MaxClients : nat := 256.
Definition MaxClientsPerOwner : Z := 64.
Definition inbox_size : nat := 256.
Definition channel_size : nat := 64.

Definition NewBroadcaster (h : History) (all : list HistoryEntry) : Broadcaster :=
  mkBroadcaster h all Idle None [] Waiting ∅ ∅ false ∅ ∅.

(** ** Updates *)

Definition set_history (h : History) (l : list HistoryEntry) (n : handoff) (d : gmap Z Event) (b : Broadcaster) :=
  mkBroadcaster h l n (lastSync b) (inbox b) (fan b) (clients b) (owners b) (closed b) (streams b) d.
Definition set_notifying (n : handoff) (b : Broadcaster) :=
  mkBroadcaster (history b) (log b) n (lastSync b) (inbox b) (fan b) (clients b) (owners b)
    (closed b) (streams b) (live b).
Definition set_sync (m : option syncMark) (b : Broadcaster) :=
  mkBroadcaster (history b) (log b) (notifying b) m (inbox b) (fan b) (clients b) (owners b)
    (closed b) (streams b) (live b).
Definition set_inbox (i : list frameEvent) (b : Broadcaster) :=
  mkBroadcaster (history b) (log b) (notifying b) (lastSync b) i (fan b) (clients b) (owners b)
    (closed b) (streams b) (live b).
Definition set_fan (f : delivery) (b : Broadcaster) :=
  mkBroadcaster (history b) (log b) (notifying b) (lastSync b) (inbox b) f (clients b) (owners b)
    (closed b) (streams b) (live b).
Definition set_clients (c : gset nat) (o : gmap string Z) (b : Broadcaster) :=
  mkBroadcaster (history b) (log b) (notifying b) (lastSync b) (inbox b) (fan b) c o (closed b)
    (streams b) (live b).
Definition set_streams (s : gmap nat stream) (b : Broadcaster) :=
  mkBroadcaster (history b) (log b) (notifying b) (lastSync b) (inbox b) (fan b) (clients b)
    (owners b) (closed b) s (live b).

Definition set_stream (i : nat) (s : stream) (b : Broadcaster) : Broadcaster :=
  set_streams (<[i := s]> (streams b)) b.

Definition set_events (l : list frameEvent) (s : stream) : stream :=
  mkStream l (match_ s) (done s) (owner s) (lagged s) (replayType s) (skipBelow s)
    (syncedThrough s) (batch s) (at_ s) (wire s) (resumed s).
Definition set_lagged (l : bool) (s : stream) : stream :=
  mkStream (events s) (match_ s) (done s) (owner s) l (replayType s) (skipBelow s)
    (syncedThrough s) (batch s) (at_ s) (wire s) (resumed s).
Definition set_done (s : stream) : stream :=
  mkStream (events s) (match_ s) true (owner s) (lagged s) (replayType s) (skipBelow s)
    (syncedThrough s) (batch s) (at_ s) (wire s) (resumed s).
Definition set_marks (skip synced : Z) (s : stream) : stream :=
  mkStream (events s) (match_ s) (done s) (owner s) (lagged s) (replayType s) skip synced (batch s)
    (at_ s) (wire s) (resumed s).
Definition set_batch (l : list frameEvent) (s : stream) : stream :=
  mkStream (events s) (match_ s) (done s) (owner s) (lagged s) (replayType s) (skipBelow s)
    (syncedThrough s) l (at_ s) (wire s) (resumed s).
Definition go (p : phase) (s : stream) : stream :=
  mkStream (events s) (match_ s) (done s) (owner s) (lagged s) (replayType s) (skipBelow s)
    (syncedThrough s) (batch s) p (wire s) (resumed s).

(** writeFrame. The frame may reach the client though the write fails, which
    ends the stream. *)
Definition writeFrame (ok : bool) (frame : list frameEvent) (s : stream) : stream :=
  mkStream (events s) (match_ s) (done s) (owner s) (lagged s) (replayType s) (skipBelow s)
    (syncedThrough s) (batch s) (if ok then Live else Leaving) (wire s ++ [frame])%list (resumed s).

(** * The notifier *)

(** What the cache announces. *)
Inductive notification :=
| Change (e : Event) (actor : option Actor) (service : string) (slot : Z) (node serviceName : string)
| Gap (from until recoveredFrom : Z)
| Annotated (marked : Annotation) (replaced : option Annotation) (action : string)
| Resync.

(** The types of the changes notify records. *)
Definition change_types : list string :=
  [EventNode; EventService; EventTask; EventConfig; EventSecret; EventNetwork; EventVolume].

Definition well_typed (n : notification) : bool :=
  match n with
  | Change e _ _ _ _ _ => bool_decide (ev_Type e ∈ change_types)
  | _ => true
  end.

(** The entry a notification records, none for a sync. *)
Definition notify_entry (n : notification) : option HistoryEntry :=
  match n with
  | Change e actor service slot node serviceName =>
      Some (change_entry e actor service slot node serviceName)
  | Gap from until recoveredFrom => Some (gap_entry from until recoveredFrom)
  | Annotated marked replaced action => Some (annotation_entry marked replaced action)
  | Resync => None
  end.

(** The event dispatched, at history position [id]. *)
Definition notify_event (n : notification) (id : Z) : Event :=
  match n with
  | Change e _ _ _ _ _ =>
      mkEvent (ev_Type e) (ev_Action e) (ev_ID e) (ev_Name e) (ev_Resource e) id (ev_Previous e)
        (ev_Service e) (ev_Stack e) (ev_Timestamp e) (ev_Until e)
  | Gap from until _ => mkEvent EventGap "" "" "" PNone id PNone "" "" from until
  | Annotated marked replaced action => annotation_event marked replaced action id
  | Resync => syncEvent id
  end.

(** Recording it, up to the call of the listener. *)
Definition notify (n : notification) (now : Z) (b : Broadcaster) : Broadcaster :=
  match notify_entry n with
  | None => set_notifying (Handing (notify_event n (count (history b)))) b
  | Some entry =>
      let '(id, h) := Append now entry (history b) in
      set_history h (log b ++ [stamp now id entry])%list (Handing (notify_event n id))
        (<[id := notify_event n id]> (live b)) b
  end.

(** A recovered change is recorded and not dispatched. *)
Definition recover (entry : HistoryEntry) (now : Z) (b : Broadcaster) : Broadcaster :=
  let '(id, h) := Append now entry (history b) in
  set_history h (log b ++ [stamp now id entry])%list (notifying b) (live b) b.

(** The compare-and-swap loop's one success. *)
Definition recordSync (position : Z) (mark : option syncMark) : syncMark :=
  match mark with
  | Some prev => mkSyncMark position (wrap 64 (seq prev + 1))
  | None => mkSyncMark position 1
  end.

(** Broadcast's first lines: a sync is numbered before it is queued. *)
Definition number_sync (e : Event) (b : Broadcaster) : Broadcaster :=
  if is_sync e then
    let mark := recordSync (HistoryID e) (lastSync b) in
    set_notifying (Queuing (mkFrameEvent e (seq mark))) (set_sync (Some mark) b)
  else set_notifying (Queuing (mkFrameEvent e 0)) b.

(** Its select. *)
Definition enqueue (e : frameEvent) (b : Broadcaster) : Broadcaster :=
  if (length (inbox b) <? inbox_size)%nat
  then set_notifying Idle (set_inbox (inbox b ++ [e])%list b)
  else set_notifying (Dropping e) b.

(** Its loop over the clients an event dropped never reaches. *)
Definition mark_lagged (e : frameEvent) (b : Broadcaster) : Broadcaster :=
  set_notifying Idle
    (set_streams (map_imap (λ i s,
      Some (if bool_decide (i ∈ clients b) && accepts (match_ s) (fe_Event e)
            then set_lagged true s else s)) (streams b)) b).

(** * The fan-out *)

(** The recipients among the clients, in the order the map gives them. *)
Definition recipients (e : frameEvent) (order : list nat) (b : Broadcaster) : list (nat * bool) :=
  omap (λ i,
    s ← streams b !! i;
    let '(heard, ok) := admitted (match_ s) (fe_Event e) in
    if ok then Some (i, negb (bool_decide (ev_Action heard = ev_Action (fe_Event e)))) else None)
  order.

(** The form of an event a recipient hears. *)
Definition frame_for (e : frameEvent) (removal : bool) : frameEvent :=
  if removal then mkFrameEvent (asRemoval (fe_Event e)).1 (sync e) else e.

(** A send to one client: a full channel drops the event and marks the client. *)
Definition send (e : frameEvent) (s : stream) : stream :=
  if (length (events s) <? channel_size)%nat then set_events (events s ++ [e])%list s
  else set_lagged true s.

(** * A stream *)

Definition owned (o : string) (b : Broadcaster) : Z := default 0 (owners b !! o).

(** What ServeSSE answers before it takes a slot. *)
Inductive refusal := ShuttingDown | TooManyConnections | TooManyFromClient.

Definition admission (o : string) (b : Broadcaster) : option refusal :=
  if closed b then Some ShuttingDown
  else if (MaxClients <=? base.size (clients b))%nat then Some TooManyConnections
  else if MaxClientsPerOwner <=? owned o b then Some TooManyFromClient
  else None.

(** replayEvents down to its first read of shared state. A detail stream, or a
    cursor of another process, is told to refetch. *)
Definition replay_start (epoch lastID typ : string) : phase :=
  if is_empty lastID then Live
  else if is_empty typ then Positioning
  else match cursor epoch lastID with
       | Some (id, seen) => Asking id seen
       | None => Positioning
       end.

(** Where a stream starts from: the cursor it resumes after, the newest entry
    when it names none, and nothing when it is told to refetch. *)
Definition start_position (p : phase) (newest : Z) : Z :=
  match p with Asking id _ => id | Live => newest | _ => 0 end.

Definition open_stream (epoch : string) (i : nat) (o typ lastID : string) (m : filter_fn)
    (b : Broadcaster) : Broadcaster :=
  let p := replay_start epoch lastID typ in
  set_stream i
    (mkStream [] m false o false typ 0 0 [] p [] (start_position p (count (history b))))
    (set_clients ({[i]} ∪ clients b) (<[o := owned o b + 1]> (owners b)) b).

(** Whether a sync landed after a cursor, and otherwise the newest it covers. *)
Definition needsSync (mark : option syncMark) (afterID seen : Z) : bool * Z :=
  match mark with
  | None => (false, 0)
  | Some mark =>
      if 0 <? seen then (negb (seen =? seq mark), seq mark) else (afterID <=? pos mark, seq mark)
  end.

Definition ask (mark : option syncMark) (afterID seen : Z) (s : stream) : stream :=
  let '(need, covered) := needsSync mark afterID seen in
  if need then go Positioning s else go (Reading afterID covered) s.

(** The events of a replay. *)
Definition replay_events (typ : string) (m : filter_fn) (entries : list HistoryEntry)
    : list frameEvent := omap (replay_one typ m) entries.

(** The rest of replayEvents, from its read of the history. *)
Definition replay (ok : bool) (afterID covered : Z) (h : History) (s : stream) : stream :=
  let '(entries, complete) := Since afterID h in
  if negb complete then go Positioning s else
  match last (replay_events (replayType s) (match_ s) entries) with
  | None => go Live (set_marks afterID covered s)
  | Some e =>
      writeFrame ok (replay_events (replayType s) (match_ s) entries)
        (set_marks (HistoryID (fe_Event e)) covered s)
  end.

(** syncFrame, from its read of the mark, and what the handler does with it. *)
Definition syncFrame (position : Z) (mark : option syncMark) : frameEvent :=
  mkFrameEvent (syncEvent position) (match mark with Some m => seq m | None => 0 end).

Definition write_sync (ok : bool) (position : Z) (mark : option syncMark) (s : stream) : stream :=
  let frame := syncFrame position mark in
  writeFrame ok [frame] (set_marks position (Z.max (syncedThrough s) (sync frame)) s).

(** One turn of the loop that receives an event. *)
Definition receive (e : frameEvent) (s : stream) : stream :=
  if (0 <? skipBelow s) && (0 <? HistoryID (fe_Event e)) && negb (is_sync (fe_Event e)) &&
     (HistoryID (fe_Event e) <=? skipBelow s)
  then s
  else
    let skip :=
      if (0 <? skipBelow s) && (0 <? HistoryID (fe_Event e)) && negb (is_sync (fe_Event e))
      then 0 else skipBelow s in
    if is_sync (fe_Event e) && (sync e <=? syncedThrough s)
    then set_marks skip (syncedThrough s) s
    else set_batch (batch s ++ [e])%list (set_marks skip (syncedThrough s) s).

(** One turn of the batch ticker's. *)
Definition tick (ok : bool) (s : stream) : stream :=
  if lagged s then go Positioning (set_batch [] (set_lagged false s))
  else match batch s with
       | [] => s
       | l => set_batch [] (writeFrame ok l s)
       end.

(** What a stream writes on the way out. *)
Definition finish (s : stream) : stream :=
  match batch s with
  | [] => go Leaving s
  | l => if lagged s then go Leaving s else go Leaving (writeFrame true l s)
  end.

(** The deferred cleanup. *)
Definition unregister (i : nat) (s : stream) (b : Broadcaster) : Broadcaster :=
  let n := owned (owner s) b - 1 in
  set_stream i (go Gone (set_done s))
    (set_clients (clients b ∖ {[i]})
       (if n <=? 0 then delete (owner s) (owners b) else <[owner s := n]> (owners b)) b).

Definition Close (b : Broadcaster) : Broadcaster :=
  if closed b then b else
  mkBroadcaster (history b) (log b) (notifying b) (lastSync b) (inbox b) (fan b) (clients b)
    (owners b) true
    (map_imap (λ i s, Some (if bool_decide (i ∈ clients b) then set_done s else s)) (streams b)) (live b).

(** * Runs *)

Inductive action :=
| Notify (n : notification) (now : Z)
| Recover (entry : HistoryEntry) (now : Z)
| Number_sync
| Enqueue
| Mark_lagged
| Take
| Choose (order : list nat)
| Send
| Stop
| Open (i : nat) (o typ lastID : string) (m : filter_fn)
| Ask (i : nat)
| Replay (i : nat) (ok : bool)
| Position (i : nat)
| Number_ (i : nat) (ok : bool)
| Receive (i : nat)
| Tick (i : nat) (ok : bool)
| Broken (i : nat)    (* a write of no event, the headers' or a keepalive, fails *)
| Finish (i : nat)
| Unregister (i : nat)
| Shutdown.

(** A stream's own action, in the phases it belongs to. *)
Definition on_stream (i : nat) (f : stream → option stream) (b : Broadcaster)
    : option Broadcaster :=
  s ← streams b !! i; s' ← f s; Some (set_stream i s' b).

Definition perform (epoch : string) (a : action) (b : Broadcaster) : option Broadcaster :=
  match a, notifying b, fan b with
  | Notify n now, Idle, _ =>
      if well_typed n && (count (history b) + 1 <? max_uint64) then Some (notify n now b) else None
  | Recover entry now, Idle, _ =>
      if Recovered entry && (count (history b) + 1 <? max_uint64) then Some (recover entry now b)
      else None
  | Number_sync, Handing e, _ => Some (number_sync e b)
  | Enqueue, Queuing e, _ => Some (enqueue e b)
  | Mark_lagged, Dropping e, _ => Some (mark_lagged e b)
  | Take, _, Waiting =>
      match inbox b with e :: l => Some (set_fan (Taken e) (set_inbox l b)) | [] => None end
  | Choose order, _, Taken e =>
      if bool_decide (NoDup order) && bool_decide (list_to_set order = clients b)
      then Some (set_fan (Sending e (recipients e order b)) b) else None
  | Send, _, Sending e ((i, removal) :: rest) =>
      s ← streams b !! i;
      Some (set_fan (Sending e rest) (set_stream i (send (frame_for e removal) s) b))
  | Send, _, Sending e [] => Some (set_fan Waiting b)
  | Stop, _, Waiting => if closed b then Some (set_fan Stopped b) else None
  | Open i o typ lastID m, _, _ =>
      match streams b !! i, admission o b with
      | None, None => Some (open_stream epoch i o typ lastID m b)
      | _, _ => None
      end
  | Ask i, _, _ => on_stream i (λ s,
      match at_ s with Asking id seen => Some (ask (lastSync b) id seen s) | _ => None end) b
  | Replay i ok, _, _ => on_stream i (λ s,
      match at_ s with
      | Reading id covered => Some (replay ok id covered (history b) s)
      | _ => None
      end) b
  | Position i, _, _ => on_stream i (λ s,
      match at_ s with Positioning => Some (go (Numbering (count (history b))) s) | _ => None end) b
  | Number_ i ok, _, _ => on_stream i (λ s,
      match at_ s with
      | Numbering position => Some (write_sync ok position (lastSync b) s)
      | _ => None
      end) b
  | Receive i, _, _ => on_stream i (λ s,
      match at_ s, events s with
      | Live, e :: l => Some (receive e (set_events l s))
      | _, _ => None
      end) b
  | Tick i ok, _, _ => on_stream i (λ s,
      match at_ s with Live => Some (tick ok s) | _ => None end) b
  | Broken i, _, _ => on_stream i (λ s,
      match at_ s with Gone | Leaving => None | _ => Some (go Leaving s) end) b
  | Finish i, _, _ => on_stream i (λ s,
      match at_ s with Live => Some (finish s) | _ => None end) b
  | Unregister i, _, _ =>
      s ← streams b !! i;
      match at_ s with Leaving => Some (unregister i s b) | _ => None end
  | Shutdown, _, _ => Some (Close b)
  | _, _, _ => None
  end.

(** The states a broadcaster reaches over a history in use. *)
Inductive reachable (epoch : string) : Broadcaster → Prop :=
| reachable_new all h : recorded all h → reachable epoch (NewBroadcaster h all)
| reachable_step b a b' : reachable epoch b → perform epoch a b = Some b' → reachable epoch b'.

Fixpoint performs (epoch : string) (l : list action) (b : Broadcaster) : option Broadcaster :=
  match l with
  | [] => Some b
  | a :: l => b' ← perform epoch a b; performs epoch l b'
  end.
