(* ===== verification/SseStream.v ===== *)
(** What one stream is owed and what it has been given: the invariant of a
    stream beside the events still on their way to it, and that everything that
    can happen to either keeps it. *)
From S2P Require Import Prelude GoStrings GoStrconv SortedLists Restarts CacheState CacheStacks History SseEvents SseBroadcaster.
#[local] Open Scope string_scope.
#[local] Open Scope Z_scope.

(** * What is owed *)

(** An event as far as its order goes: its position, and whether it is a sync. *)
Definition key (e : frameEvent) : Z * bool := (HistoryID (fe_Event e), is_sync (fe_Event e)).

(** A sync stands for every entry recorded before it; any other event for its own. *)
Definition covers (k : Z * bool) (x : HistoryEntry) : Prop :=
  if k.2 then ID x ≤ k.1 else k.1 = ID x.

Definition covered (frames : list (list frameEvent)) (x : HistoryEntry) : Prop :=
  ∃ f e, f ∈ frames ∧ e ∈ f ∧ covers (key e) x.

(** A filter that decides an event as it decides its replay, which has no
    resource. *)
Definition blind (m : filter_fn) : Prop :=
  ∀ n entry now id, well_typed n = true → notify_entry n = Some entry →
    accepts m (notify_event n id) = accepts m (replayEvent (stamp now id entry)).

(** What ServeSSE's callers pass. A stream that replays nothing (of one resource,
    one stack or one network) may have any filter: it is asked about an event
    once, as the event goes out, so a function of the event stands for it. The
    filter of a list stream is blind, and one that replays one type admits only
    that. *)
Definition fits (m : filter_fn) (typ : string) : Prop :=
  typ = "" ∨
  blind m ∧ ∀ x, is_sync (replayEvent x) = false → accepts m (replayEvent x) = true →
    typ = ReplayAll ∨ ev_Type (replayEvent x) = typ.

(** An event is the one its entry was recorded with. *)
Definition of_entry (e : Event) (x : HistoryEntry) : Prop :=
  ∃ n now entry, well_typed n = true ∧ notify_entry n = Some entry ∧
    e = notify_event n (ID x) ∧ x = stamp now (ID x) entry.

(** The event an entry went out as: what was dispatched, or for an entry of an
    earlier process what is replayed of it. *)
Definition event_of (d : gmap Z Event) (x : HistoryEntry) : Event := default (replayEvent x) (d !! ID x).

Section stream.
Context (d : gmap Z Event).

(** The entries a stream's reader must hear of: those its filter admits. A sync
    is never recorded. *)
Definition owed (s : stream) (x : HistoryEntry) : Prop :=
  replayable x = true ∧ is_sync (replayEvent x) = false ∧ accepts (match_ s) (event_of d x) = true.

(** * The order of events *)

(** A sync shares the position of the entry before it. *)
Definition before (a b : Z * bool) : Prop := if b.2 then a.1 ≤ b.1 else a.1 < b.1.

#[global] Instance before_trans : Transitive before.
Proof. intros [a p] [b []] [c []]; unfold before; simpl; lia. Qed.

(** The keys of what is on its way to a stream, [up] those not in its channel yet. *)
Definition lane (s : stream) (up : list (Z * bool)) : list (Z * bool) :=
  ((key <$> batch s) ++ (key <$> events s) ++ up)%list.

Definition promised (all : list HistoryEntry) (up : list (Z * bool)) (s : stream) : Prop :=
  match at_ s with
  | Numbering p => lagged s = true ∨
      ∀ x, x ∈ all → owed s x → p < ID x → (ID x, false) ∈ lane s up
  | Live => lagged s = true ∨
      ∀ x, x ∈ all → owed s x → resumed s < ID x →
        covered (wire s) x ∨ (ID x, false) ∈ lane s up
  | _ => True
  end.

(** No frame's position is past an entry that was owed and not given by then. *)
Definition wire_ok (all : list HistoryEntry) (n : Z) (s : stream) : Prop :=
  ∀ fs f rest, wire s = (fs ++ f :: rest)%list → (frame_mark f).1 ≤ n ∧
    ∀ x, x ∈ all → owed s x → resumed s < ID x ≤ (frame_mark f).1 → covered (fs ++ [f]) x.

(** A stream, with everything recorded, the newest position and what is on its
    way to it. *)
Record stream_ok (all : list HistoryEntry) (n : Z) (up : list (Z * bool)) (s : stream) : Prop := {
  so_resumed : 0 ≤ resumed s;
  so_lane : StronglySorted before (lane s up);
  so_bound k : k ∈ lane s up → k.1 ≤ n;
  so_skip_bound : skipBelow s ≤ n;
  so_skip : at_ s = Live → ∀ x, x ∈ all → owed s x → resumed s < ID x ≤ skipBelow s →
    covered (wire s) x;
  so_phase : match at_ s with
             | Asking id _ | Reading id _ => resumed s = id ∧ is_empty (replayType s) = false
             | Numbering p => 0 ≤ p ≤ n
             | _ => True
             end;
  so_wire : wire_ok all n s;
  so_promise : promised all up s;
}.

(** ** Covering *)

Lemma covered_app fs gs x : covered fs x → covered (fs ++ gs)%list x.
Proof. intros (f & e & Hf & He & Hc). exists f, e. set_solver. Qed.

Lemma covered_last fs f e x : e ∈ f → covers (key e) x → covered (fs ++ [f])%list x.
Proof. intros He Hc. exists f, e. set_solver. Qed.

Lemma frame_mark_snoc f e : frame_mark (f ++ [e]) = frame_step (frame_mark f) e.
Proof. unfold frame_mark. by rewrite foldl_app. Qed.

(** A frame's position is the newest of its events'. *)
Lemma frame_mark_max f :
  0 ≤ (frame_mark f).1 ∧ (∀ e, e ∈ f → (key e).1 ≤ (frame_mark f).1) ∧
  ((frame_mark f).1 = 0 ∨ ∃ e, e ∈ f ∧ (key e).1 = (frame_mark f).1).
Proof.
  induction f as [|e f (Hp & Hm & Ha)] using rev_ind; [split_and!; [done|set_solver|by left]|].
  rewrite frame_mark_snoc. destruct (frame_mark f) as [m y]. simpl in *.
  destruct (Z.ltb_spec m (HistoryID (fe_Event e))); simpl; split_and!; try lia.
  - intros e' [He' | ->%list_elem_of_singleton]%elem_of_app; [specialize (Hm e' He')|]; simpl in *; lia.
  - right. exists e. set_solver.
  - intros e' [He' | ->%list_elem_of_singleton]%elem_of_app; [by apply Hm|simpl; lia].
  - destruct Ha as [Ha|(e' & He' & Ha)]; [by left|right]. exists e'. set_solver.
Qed.

Lemma frame_mark_le f n : 0 ≤ n → (∀ e, e ∈ f → (key e).1 ≤ n) → (frame_mark f).1 ≤ n.
Proof.
  intros Hn Hf. destruct (frame_mark_max f) as (_ & _ & [->|(e & He & <-)]); [done|by apply Hf].
Qed.

(** ** Splitting a list of frames *)

Lemma snoc_split {A} (l fs rest : list A) (a f : A) :
  (l ++ [a] = fs ++ f :: rest)%list →
  (rest = [] ∧ fs = l ∧ f = a) ∨ ∃ rest', l = (fs ++ f :: rest')%list.
Proof.
  intros H. destruct rest as [|r rest _] using rev_ind.
  - left. by apply app_inj_tail in H as [-> ->].
  - right. exists rest. rewrite app_comm_cons, app_assoc in H. by apply app_inj_tail in H as [-> _].
Qed.

(** ** What happens upstream *)

(** The lane and the wire read what they need of a stream. *)
Lemma owed_same s s' x : match_ s' = match_ s → owed s' x ↔ owed s x.
Proof. unfold owed. by intros ->. Qed.

(** A newer position, entries nobody is owed, and the same keys. *)
Lemma stream_grow all n up s x :
  stream_ok all n up s → ID x = n + 1 → (owed s x → False) → stream_ok (all ++ [x]) (n + 1) up s.
Proof.
  intros [] Hid Hx. assert (∀ y, y ∈ (all ++ [x])%list → owed s y → y ∈ all) as Hold.
  { intros y [Hy| ->%list_elem_of_singleton]%elem_of_app Ho; [done|by destruct Hx]. }
  constructor; try done.
  - intros k Hk. specialize (so_bound0 k Hk). lia.
  - lia.
  - intros Hl y Hy Ho. apply so_skip0; auto.
  - by destruct (at_ s); try done; lia.
  - intros fs f rest Hw. destruct (so_wire0 fs f rest Hw) as [Hm Hc]. split; [lia|auto].
  - unfold promised in *. destruct (at_ s); try done; (destruct so_promise0 as [?|Hp]; [by left|right; auto]).
Qed.

(** A new entry that is put on its way. *)
Lemma stream_notify all n up s x :
  (∀ y, y ∈ all → ID y ≤ n) →
  stream_ok all n up s → ID x = n + 1 → stream_ok (all ++ [x]) (n + 1) (up ++ [(n + 1, false)]) s.
Proof.
  intros Hall [] Hid. assert (lane s (up ++ [(n + 1, false)]) = lane s up ++ [(n + 1, false)])%list as El.
  { unfold lane. by rewrite <- !app_assoc. }
  assert (∀ y, y ∈ (all ++ [x])%list → y = x ∨ y ∈ all) as Hold by set_solver.
  constructor; try done.
  - rewrite El. apply StronglySorted_app. split_and!; [|done|repeat constructor].
    intros a b Ha ->%list_elem_of_singleton. specialize (so_bound0 a Ha). unfold before. simpl. lia.
  - intros k. rewrite El. intros [Hk| ->%list_elem_of_singleton]%elem_of_app; [|done].
    specialize (so_bound0 k Hk). lia.
  - lia.
  - intros Hl y Hy Ho Hr. destruct (Hold y Hy) as [->|Hy']; [lia|by apply so_skip0].
  - by destruct (at_ s); try done; lia.
  - intros fs f rest Hw. destruct (so_wire0 fs f rest Hw) as [Hm Hc]. split; [lia|].
    intros y Hy Ho Hr. destruct (Hold y Hy) as [->|Hy']; [lia|by apply Hc].
  - unfold promised in *. rewrite El.
    destruct (at_ s); try done; (destruct so_promise0 as [?|Hp]; [by left|right]);
      intros y Hy Ho Hr; (destruct (Hold y Hy) as [->|Hy']; [rewrite Hid; set_solver|]).
    + apply elem_of_app. left. by apply Hp.
    + destruct (Hp y Hy' Ho Hr) as [?|?]; [by left|right]. set_solver.
Qed.

(** A sync that is put on its way. *)
Lemma stream_resync all n up s :
  stream_ok all n up s → stream_ok all n (up ++ [(n, true)]) s.
Proof.
  intros []. assert (lane s (up ++ [(n, true)]) = lane s up ++ [(n, true)])%list as El.
  { unfold lane. by rewrite <- !app_assoc. }
  constructor; try done.
  - rewrite El. apply StronglySorted_app. split_and!; [|done|repeat constructor].
    intros a b Ha ->%list_elem_of_singleton. exact (so_bound0 a Ha).
  - intros k. rewrite El. intros [Hk| ->%list_elem_of_singleton]%elem_of_app; [by apply so_bound0|done].
  - unfold promised in *. rewrite El.
    destruct (at_ s); try done; (destruct so_promise0 as [?|Hp]; [by left|right]); intros y Hy Ho Hr.
    + apply elem_of_app. left. by apply Hp.
    + destruct (Hp y Hy Ho Hr) as [?|?]; [by left|right]. set_solver.
Qed.

(** Some keys leave the lane: those nobody is owed, those already covered, any
    when the stream is marked. *)
Lemma stream_shrink all n up up' s s' :
  stream_ok all n up s → 0 ≤ n →
  match_ s' = match_ s → resumed s' = resumed s → wire s' = wire s → at_ s' = at_ s →
  replayType s' = replayType s → (skipBelow s' = skipBelow s ∨ skipBelow s' ≤ 0) →
  lane s' up' `sublist_of` lane s up →
  (lagged s' = true ∨ at_ s = Gone ∨ lagged s' = lagged s ∧ ∀ x, x ∈ all → owed s x →
    (ID x, false) ∈ lane s up → (ID x, false) ∈ lane s' up' ∨
    (at_ s = Live ∧ (resumed s < ID x → covered (wire s) x))) →
  stream_ok all n up' s'.
Proof.
  intros [] Hn Em Er Ew Ea Et Hs Hsub Hp.
  assert (∀ x, owed s' x ↔ owed s x) as Ho by (intros; by apply owed_same).
  constructor; rewrite ?Er, ?Ew, ?Ea, ?Et; try done.
  - by eapply StronglySorted_sublist.
  - intros k Hk. apply so_bound0. by eapply elem_of_sublist.
  - destruct Hs as [->|?]; [done|lia].
  - intros Hl x Hx Hox Hr. apply so_skip0; [done..|by apply Ho|]. destruct Hs as [<-|?]; lia.
  - intros fs f rest. rewrite Ew, Er. intros Hw. destruct (so_wire0 fs f rest Hw) as [Hm Hc]. split; [done|].
    intros x Hx Hox. apply Hc; [done|by apply Ho].
  - unfold promised in *. rewrite Ea, ?Er, ?Ew.
    destruct Hp as [Hp|[Hp|[El Hp]]]; [destruct (at_ s); by auto|by rewrite Hp|]. rewrite El.
    destruct (at_ s); try done; (destruct so_promise0 as [?|Hq]; [by left|right]);
      intros x Hx Hox%Ho Hlt.
    + by destruct (Hp x Hx Hox (Hq x Hx Hox Hlt)) as [?|[? _]].
    + destruct (Hq x Hx Hox Hlt) as [?|Hin]; [by left|].
      destruct (Hp x Hx Hox Hin) as [?|[_ ?]]; auto.
Qed.

Lemma lane_drop s up1 k up2 : lane s (up1 ++ up2) `sublist_of` lane s (up1 ++ k :: up2).
Proof. unfold lane. repeat (apply sublist_app; [done|]). by apply sublist_cons. Qed.

(** An event the stream is not owed passes it by. *)
Lemma stream_pass all n up1 k up2 s :
  stream_ok all n (up1 ++ k :: up2) s → 0 ≤ n →
  (at_ s = Gone ∨ k.2 = true ∨ ∀ x, x ∈ all → owed s x → ID x ≠ k.1) →
  stream_ok all n (up1 ++ up2) s.
Proof.
  intros Hok Hn Hk. eapply stream_shrink; eauto.
  - apply lane_drop.
  - right. destruct Hk as [Hk|Hk]; [by left|right]. split; [done|]. intros x Hx Ho Hin. left. unfold lane in *.
    rewrite !elem_of_app, elem_of_cons in *. destruct Hin as [?|[?|[?|[Hin|?]]]]; auto.
    destruct Hk as [Hk|Hk]; [by rewrite <- Hin in Hk|]. destruct (Hk x Hx Ho). by rewrite <- Hin.
Qed.

(** A stream that misses an event is marked. *)
Lemma stream_lag all n up1 k up2 s :
  stream_ok all n (up1 ++ k :: up2) s → 0 ≤ n → stream_ok all n (up1 ++ up2) (set_lagged true s).
Proof.
  intros Hok Hn. eapply stream_shrink; eauto. exact (lane_drop s up1 k up2).
Qed.

Lemma stream_send all n e e' up s :
  stream_ok all n (key e :: up) s → 0 ≤ n → key e' = key e → stream_ok all n up (send e' s).
Proof.
  intros Hok Hn Hk. unfold send. destruct (_ <? _)%nat.
  - assert (lane (set_events (events s ++ [e'])%list s) up = lane s (key e :: up)) as El.
    { unfold lane. simpl. by rewrite fmap_app, <- !app_assoc, <- Hk. }
    eapply stream_shrink; eauto; rewrite El; [done|]. right. right. split; [done|]. auto.
  - by apply (stream_lag all n [] (key e) up).
Qed.

(** A stream whose handler goes is owed nothing more. *)
Lemma stream_leave all n up s p s' :
  stream_ok all n up s → p = Leaving ∨ p = Gone →
  s' = go p s ∨ s' = go p (set_done s) → stream_ok all n up s'.
Proof.
  intros [] Hp Hs. assert (at_ s' = p) as Ea by (by destruct Hs as [-> | ->]).
  destruct Hs as [-> | ->]; constructor; try done; simpl in *;
    (try by (intros ->; destruct Hp)); destruct Hp as [-> | ->]; done.
Qed.

Lemma stream_done all n up s : stream_ok all n up s → stream_ok all n up (set_done s).
Proof. by intros []; constructor. Qed.

(** ** The handler *)

(** What a written frame adds. *)
Lemma wire_write all n s s' l :
  wire_ok all n s → match_ s' = match_ s → resumed s' = resumed s →
  wire s' = (wire s ++ [l])%list → (frame_mark l).1 ≤ n →
  (∀ x, x ∈ all → owed s x → resumed s < ID x ≤ (frame_mark l).1 → covered (wire s ++ [l]) x) →
  wire_ok all n s'.
Proof.
  intros Hold Em Er Ew Hn Hl fs f rest. rewrite Er, Ew. unfold owed. rewrite Em. intros Hw.
  apply snoc_split in Hw as [(-> & -> & ->)|(rest' & Hw)]; [done|by eapply Hold].
Qed.

Lemma stream_ask all n up mark id seen s :
  stream_ok all n up s → at_ s = Asking id seen → stream_ok all n up (ask mark id seen s).
Proof.
  intros [] Ha. rewrite Ha in so_phase0. unfold ask. destruct (needsSync _ _ _) as [need synced].
  destruct need; constructor; done.
Qed.

Lemma stream_position all n up s :
  stream_ok all n up s → 0 ≤ n → (∀ x, x ∈ all → ID x ≤ n) →
  stream_ok all n up (go (Numbering n) s).
Proof.
  intros [] Hn Hall. constructor; try done.
  unfold promised. simpl. right. intros x Hx _ Hlt. specialize (Hall x Hx). lia.
Qed.

(** A sync covers what was recorded before it; its position ends the replay. *)
Lemma stream_sync all n up ok p mark s :
  stream_ok all n up s → at_ s = Numbering p → stream_ok all n up (write_sync ok p mark s).
Proof.
  intros [] Ha. rewrite Ha in so_phase0. unfold promised in so_promise0. rewrite Ha in so_promise0.
  assert ((frame_mark [syncFrame p mark]).1 = p) as Em.
  { unfold frame_mark. simpl. destruct (Z.ltb_spec 0 p); simpl; lia. }
  assert (∀ x, ID x ≤ p → covered (wire s ++ [[syncFrame p mark]]) x) as Hc.
  { intros x Hx. apply (covered_last _ _ (syncFrame p mark)); [set_solver|done]. }
  constructor; try done.
  - simpl. lia.
  - simpl. intros _ x _ _ Hx. apply Hc. lia.
  - simpl. by destruct ok.
  - eapply wire_write; try done; rewrite Em; [lia|]. intros x _ _ Hx. apply Hc. lia.
  - unfold promised. simpl. destruct ok; [|done]. destruct so_promise0 as [?|Hp]; [by left|right].
    intros x Hx Ho _. destruct (Z.le_gt_cases (ID x) p); [left; by apply Hc|right]. apply Hp; [done..|lia].
Qed.

(** ** Replaying *)

Lemma asRemoval_key e : HistoryID (asRemoval e).1 = HistoryID e ∧ ev_Type (asRemoval e).1 = ev_Type e.
Proof. unfold asRemoval. destruct (ev_Previous e); try done. by destruct (_ || _). Qed.

(** Whatever form an event is heard in, it is the same event. *)
Lemma admitted_key m e : HistoryID (admitted m e).1 = HistoryID e ∧ ev_Type (admitted m e).1 = ev_Type e.
Proof.
  unfold admitted. destruct m as [f|]; [|done]. destruct (f e); [done|].
  destruct (asRemoval_key e) as [E1 E2]. by destruct (asRemoval e) as [r b].
Qed.

Lemma replayEvent_id x : HistoryID (replayEvent x) = ID x.
Proof. unfold replayEvent. destruct (if bool_decide _ then _ else _); [done|]. by destruct (bool_decide _). Qed.

Lemma replay_one_id typ m x fe : replay_one typ m x = Some fe → HistoryID (fe_Event fe) = ID x.
Proof.
  unfold replay_one. destruct (negb (replayable x)); [done|]. cbv zeta.
  destruct (_ && _); [done|]. destruct (admitted_key m (replayEvent x)) as [E _].
  destruct (admitted m (replayEvent x)) as [heard []]; [|done]. intros [= <-]. simpl in *.
  by rewrite E, replayEvent_id.
Qed.

Lemma replay_one_owed s x :
  fits (match_ s) (replayType s) → (∀ e, d !! ID x = Some e → of_entry e x) →
  is_empty (replayType s) = false → owed s x →
  ∃ fe, replay_one (replayType s) (match_ s) x = Some fe.
Proof.
  intros [Hf|[Hb Hf]] Hof Ht (Hr & Hs & Ha); [by rewrite Hf in Ht|].
  assert (accepts (match_ s) (replayEvent x) = true) as Ha'.
  { unfold event_of in Ha. destruct (d !! ID x) as [e|]; [|done]. destruct (Hof e eq_refl) as (n & now & entry & Hw & Hn & -> & Ex).
    simpl in Ha. by rewrite (Hb n entry now _ Hw Hn), <- Ex in Ha. }
  clear Ha. rename Ha' into Ha. specialize (Hf x Hs Ha). unfold replay_one. rewrite Hr. simpl. unfold accepts in Ha.
  assert (negb (bool_decide (replayType s = ReplayAll)) &&
    negb (bool_decide (ev_Type (replayEvent x) = replayType s)) = false) as ->.
  { destruct Hf as [E|E]; [by rewrite bool_decide_eq_true_2 by done|].
    rewrite (bool_decide_eq_true_2 (ev_Type _ = _)) by done. apply andb_false_r. }
  destruct (admitted _ _) as [heard ok]. simpl in Ha. subst. by eexists.
Qed.

Lemma covers_own k x : k.1 = ID x → covers k x.
Proof. destruct k as [i []]; unfold covers; simpl; lia. Qed.

Lemma stream_replay all h up ok id synced s :
  stream_ok all (count h) up s → history_ok all h → fits (match_ s) (replayType s) →
  (∀ x e, x ∈ all → d !! ID x = Some e → of_entry e x) → at_ s = Reading id synced → stream_ok all (count h) up (replay ok id synced h s).
Proof.
  intros [] Hh Hfits Hof Ha. rewrite Ha in so_phase0. destruct so_phase0 as [Hid Htyp].
  pose proof (ho_bound _ _ Hh) as [Hn _]. rewrite Hid in so_resumed0.
  pose proof (Since_all all h id Hh so_resumed0) as Hall. unfold replay.
  destruct (Since id h) as [entries complete]. destruct complete; simpl.
  2:{ constructor; simpl; try done; lia. }
  destruct Hall as [Hle Hent]; [done|]. simpl in Hent.
  set (l := replay_events (replayType s) (match_ s) entries) in *.
  assert (∀ e, e ∈ l → (key e).1 ≤ count h) as Hbound.
  { intros e (x & Hx & He)%list_elem_of_omap. simpl. rewrite (replay_one_id _ _ _ _ He).
    rewrite Hent in Hx. apply list_elem_of_filter in Hx as [_ Hx]. apply (ho_count _ _ Hh x Hx). }
  assert (∀ x, x ∈ all → owed s x → resumed s < ID x → ∃ e, e ∈ l ∧ covers (key e) x) as Hown.
  { intros x Hx Ho Hlt. destruct (replay_one_owed s x Hfits (λ e, Hof x e Hx) Htyp Ho) as [e He].
    exists e. split; [|by apply covers_own, (replay_one_id _ _ _ _ He)].
    apply list_elem_of_omap. exists x. split; [|done]. rewrite Hent. apply list_elem_of_filter.
    split; [lia|done]. }
  destruct (last l) as [e|] eqn:El.
  - assert (∀ x, x ∈ all → owed s x → resumed s < ID x → covered (wire s ++ [l]) x) as Hc.
    { intros x Hx Ho Hlt. destruct (Hown x Hx Ho Hlt) as (fe & Hfe & Hk). by apply (covered_last _ _ fe). }
    constructor; simpl; try done.
    + lia.
    + apply last_Some in El as [l' El]. apply (Hbound e). rewrite El. set_solver.
    + intros _ x Hx Ho Hr. by apply Hc; [..|lia].
    + by destruct ok.
    + eapply wire_write; try done; [by apply frame_mark_le|]. intros x Hx Ho Hr. by apply Hc; [..|lia].
    + unfold promised. simpl. destruct ok; [right|done]. intros x Hx Ho Hlt. left. by apply Hc.
  - apply last_None in El. constructor; simpl; try done.
    + lia.
    + intros _ x Hx Ho Hr. lia.
    + right. intros x Hx Ho Hlt. destruct (Hown x Hx Ho Hlt) as (fe & Hfe & _). rewrite El in Hfe.
      by apply not_elem_of_nil in Hfe.
Qed.

(** ** The loop *)

Lemma stream_receive all n up e l s :
  stream_ok all n up s → 0 ≤ n → at_ s = Live → (∀ x, x ∈ all → 0 < ID x) →
  events s = e :: l → stream_ok all n up (receive e (set_events l s)).
Proof.
  intros Hok Hn Ha Hpos He. pose proof (so_skip _ _ _ _ Hok Ha) as Hskip.
  assert (lane s up = (key <$> batch s) ++ key e :: (key <$> l) ++ up)%list as El
    by (unfold lane; by rewrite He).
  assert (∀ s', batch s' = batch s → events s' = l → lane s' up `sublist_of` lane s up) as Hsub.
  { intros s' Hb Hl. rewrite El. unfold lane. rewrite Hb, Hl.
    apply sublist_app; [done|]. by apply sublist_cons. }
  unfold receive. destruct (_ && _ && _ && _) eqn:Esk; simpl in *.
  - repeat apply andb_true_iff in Esk as [Esk ?]. eapply stream_shrink; eauto.
    right. right. split; [done|]. intros x Hx Ho. rewrite El. unfold lane. simpl.
    rewrite !elem_of_app, elem_of_cons. intros [?|[Hk|?]]; [by auto| |set_solver].
    right. split; [done|]. intros Hlt. apply Hskip; [done..|]. unfold key in Hk. injection Hk as Hk _. lia.
  - clear Esk. set (skip := if _ && _ && _ then 0 else skipBelow s).
    assert (skip = skipBelow s ∨ skip ≤ 0) as Hs.
    { unfold skip. destruct (_ && _ && _); [by right|by left]. }
    destruct (is_sync (fe_Event e) && _) eqn:Esy; simpl in *.
    + apply andb_true_iff in Esy as [Esy _]. eapply stream_shrink; eauto.
      right. right. split; [done|]. intros x Hx Ho. rewrite El. unfold lane. simpl.
      rewrite !elem_of_app, elem_of_cons. unfold key at 2. rewrite Esy. intros [?|[Hk|?]]; [by auto|by injection Hk|set_solver].
    + assert (lane (set_batch (batch s ++ [e]) (set_marks skip (syncedThrough s) (set_events l s))) up =
        lane s up) as El'.
      { rewrite El. unfold lane. simpl. by rewrite fmap_app, <- !app_assoc. }
      eapply stream_shrink; eauto; rewrite El'; [done|]. right. right. split; [done|]. auto.
Qed.

(** The keys behind a batch are past its frame's position. *)
Lemma behind_batch (l : list frameEvent) (k : Z * bool) (rest : list (Z * bool)) :
  StronglySorted before ((key <$> l) ++ rest) → 0 < k.1 → k ∈ rest → k.2 = false →
  (frame_mark l).1 < k.1.
Proof.
  intros Hs Hp Hk Hf. destruct (frame_mark_max l) as (_ & _ & [->|(e & He & <-)]); [done|].
  apply StronglySorted_app in Hs as (Hs & _ & _).
  specialize (Hs (key e) k (list_elem_of_fmap_2 _ _ _ He) Hk). unfold before in Hs. by rewrite Hf in Hs.
Qed.

(** A stream that is not marked may write its batch. *)
Lemma batch_covers all n up s x :
  stream_ok all n up s → at_ s = Live → lagged s = false → (∀ x, x ∈ all → 0 < ID x) →
  x ∈ all → owed s x → resumed s < ID x ≤ (frame_mark (batch s)).1 →
  covered (wire s ++ [batch s]) x.
Proof.
  intros [] Ha Hl Hpos Hx Ho Hr. unfold promised in so_promise0. rewrite Ha, Hl in so_promise0.
  destruct so_promise0 as [?|Hp]; [done|]. destruct (Hp x Hx Ho) as [Hc|Hin]; [lia|by apply covered_app|].
  unfold lane in Hin, so_lane0. apply elem_of_app in Hin as [Hin|Hin].
  - apply list_elem_of_fmap in Hin as (e & Hk & He). apply (covered_last _ _ e _ He). rewrite <- Hk.
    by apply covers_own.
  - pose proof (behind_batch _ (ID x, false) _ so_lane0 (Hpos x Hx) Hin eq_refl). simpl in *. lia.
Qed.

Lemma batch_bound all n up s : stream_ok all n up s → 0 ≤ n → (frame_mark (batch s)).1 ≤ n.
Proof.
  intros [] Hn. apply frame_mark_le; [done|]. intros e He. apply so_bound0. unfold lane.
  apply elem_of_app. left. by apply list_elem_of_fmap_2.
Qed.

Lemma stream_tick all n up ok s :
  stream_ok all n up s → 0 ≤ n → at_ s = Live → (∀ x, x ∈ all → 0 < ID x) →
  stream_ok all n up (tick ok s).
Proof.
  intros Hok Hn Ha Hpos. pose proof (batch_covers all n up s) as Hb.
  pose proof (batch_bound all n up s Hok Hn) as Hbn. unfold tick.
  assert (((key <$> events s) ++ up)%list `sublist_of` lane s up) as Hsub.
  { unfold lane. by apply sublist_inserts_l. }
  destruct (lagged s) eqn:El.
  - destruct Hok. constructor; simpl; try done.
    + by eapply StronglySorted_sublist.
    + intros k Hk. apply so_bound0. by eapply elem_of_sublist.
  - destruct (batch s) as [|e l] eqn:Eb; [done|]. rewrite <- Eb in *.
    pose proof (λ x, Hb x Hok Ha eq_refl Hpos) as Hc. destruct Hok. constructor; simpl; try done.
    + by eapply StronglySorted_sublist.
    + intros k Hk. apply so_bound0. by eapply elem_of_sublist.
    + intros _ x Hx Ho Hr. by apply covered_app, so_skip0.
    + by destruct ok.
    + by eapply wire_write.
    + unfold promised in *. simpl. destruct ok; [|done]. rewrite Ha, El in so_promise0.
      destruct so_promise0 as [?|Hp]; [done|right]. intros x Hx Ho Hlt.
      destruct (Hp x Hx Ho Hlt) as [?|Hin]; [left; by apply covered_app|].
      unfold lane in Hin. apply elem_of_app in Hin as [Hin|Hin]; [left|by right].
      apply list_elem_of_fmap in Hin as (e' & Hk & He). apply (covered_last _ _ e' _ He).
      rewrite <- Hk. by apply covers_own.
Qed.

Lemma stream_finish all n up s :
  stream_ok all n up s → 0 ≤ n → at_ s = Live → (∀ x, x ∈ all → 0 < ID x) →
  stream_ok all n up (finish s).
Proof.
  intros Hok Hn Ha Hpos. pose proof (batch_covers all n up s) as Hb.
  pose proof (batch_bound all n up s Hok Hn) as Hbn. unfold finish.
  destruct (batch s) as [|e l] eqn:Eb; [by apply (stream_leave all n up s Leaving); [|left|left]|]. rewrite <- Eb in *.
  destruct (lagged s) eqn:El; [by apply (stream_leave all n up s Leaving); [|left|left]|].
  pose proof (λ x, Hb x Hok Ha eq_refl Hpos) as Hc. destruct Hok. constructor; simpl; try done.
  by eapply wire_write.
Qed.
End stream.

(** What is owed depends on the events of the entries recorded. *)
Lemma stream_same d d' all n up s :
  (∀ x, x ∈ all → d' !! ID x = d !! ID x) → stream_ok d all n up s → stream_ok d' all n up s.
Proof.
  intros Hd. assert (∀ x, x ∈ all → owed d' s x ↔ owed d s x) as Ho.
  { intros x Hx. unfold owed, event_of. by rewrite (Hd x Hx). }
  intros []. constructor; try done.
  - intros Hl x Hx Hox. apply so_skip0; [done..|]. by apply Ho.
  - intros fs f rest Hw. destruct (so_wire0 fs f rest Hw) as [Hm Hc]. split; [done|].
    intros x Hx Hox. apply Hc; [done|]. by apply Ho.
  - unfold promised in *. destruct (at_ s); try done; (destruct so_promise0 as [?|Hp]; [by left|right]);
      intros x Hx Hox; (apply Hp; [done|]); by apply Ho.
Qed.
