(* ===== verification/SseProps.v ===== *)
(** The event stream's properties: whatever the interleaving, no stream's
    cursor passes an event its reader was owed and never given; the ids read
    back; and the connection caps hold. *)
From S2P Require Import Prelude GoStrings GoStrconv SortedLists Restarts CacheState CacheStacks History SseEvents SseBroadcaster SseStream.
#[local] Open Scope string_scope.
#[local] Open Scope Z_scope.

(** * The broadcaster's invariant *)

Definition held (b : Broadcaster) : list frameEvent :=
  match notifying b with
  | Idle => []
  | Handing e => [mkFrameEvent e 0]
  | Queuing e | Dropping e => [e]
  end.

(** What the fan-out holds, of all of it and of what is for one stream. *)
Definition held_out (b : Broadcaster) : list frameEvent :=
  match fan b with Taken e | Sending e _ => [e] | _ => [] end.
Definition sending (b : Broadcaster) (i : nat) : list frameEvent :=
  match fan b with
  | Taken e => [e]
  | Sending e rs => if bool_decide (i ∈ rs.*1) then [e] else []
  | _ => []
  end.

Definition pending (b : Broadcaster) : list frameEvent := (held_out b ++ inbox b ++ held b)%list.
Definition upstream (b : Broadcaster) (i : nat) : list (Z * bool) :=
  key <$> (sending b i ++ inbox b ++ held b)%list.

Record bcast_ok (b : Broadcaster) : Prop := {
  bo_history : history_ok (log b) (history b);
  bo_order : StronglySorted before (key <$> pending b);
  bo_bound e : e ∈ pending b → (key e).1 ≤ count (history b);
  bo_live e x : e ∈ pending b → is_sync (fe_Event e) = false → x ∈ log b →
    replayable x = true → ID x = HistoryID (fe_Event e) → live b !! ID x = Some (fe_Event e);
  bo_entry x e : x ∈ log b → live b !! ID x = Some e → of_entry e x;
  bo_fresh id : count (history b) < id → live b !! id = None;
  bo_clients i : i ∈ clients b ↔ ∃ s, streams b !! i = Some s ∧ at_ s ≠ Gone;
  bo_recipients e rs : fan b = Sending e rs →
    NoDup rs.*1 ∧ ∀ i, i ∈ rs.*1 → is_Some (streams b !! i);
  bo_streams i s : streams b !! i = Some s → fits (match_ s) (replayType s) →
    stream_ok (live b) (log b) (count (history b)) (upstream b i) s;
}.

Lemma bo_count b : bcast_ok b → 0 ≤ count (history b).
Proof. intros H. apply (ho_bound _ _ (bo_history _ H)). Qed.

Lemma bo_pos b x : bcast_ok b → x ∈ log b → 0 < ID x ≤ count (history b).
Proof. intros H. apply (ho_count _ _ (bo_history _ H)). Qed.

(** What a notification dispatches is no sync, but for a resync. *)
Lemma notify_event_key n entry id :
  well_typed n = true → notify_entry n = Some entry →
  HistoryID (notify_event n id) = id ∧ is_sync (notify_event n id) = false.
Proof.
  destruct n as [e| | |]; try done. intros Ht%bool_decide_eq_true _. split; [done|].
  unfold is_sync. simpl. apply bool_decide_eq_false. intros E. rewrite E in Ht.
  unfold change_types in Ht. set_solver.
Qed.

(** A sound broadcaster's streams see its pending events in order. *)
Lemma upstream_notifying b b' i :
  fan b' = fan b → (inbox b' ++ held b' = inbox b ++ held b)%list → upstream b' i = upstream b i.
Proof. intros Hf Hi. unfold upstream, sending. by rewrite Hf, Hi. Qed.

(** ** The notifier *)

(** Handing on and queuing move an event along. *)
Lemma moved_ok b b' :
  bcast_ok b → history b' = history b → log b' = log b → fan b' = fan b → clients b' = clients b →
  streams b' = streams b → live b' = live b → key <$> (inbox b' ++ held b')%list = key <$> (inbox b ++ held b)%list →
  fe_Event <$> (inbox b' ++ held b')%list = fe_Event <$> (inbox b ++ held b)%list →
  bcast_ok b'.
Proof.
  intros [] Eh El Ef Ec Es Ev Ek Ee.
  assert (key <$> pending b' = key <$> pending b) as Ep.
  { unfold pending, held_out. rewrite Ef. rewrite fmap_app, (fmap_app _ _ (_ ++ _)). by rewrite Ek. }
  assert (∀ e, e ∈ pending b' → ∃ e', e' ∈ pending b ∧ fe_Event e' = fe_Event e) as Hin.
  { intros e He. assert (fe_Event e ∈ fe_Event <$> pending b) as (e' & E & Hin)%list_elem_of_fmap.
    { unfold pending, held_out in *. rewrite Ef in He. rewrite !fmap_app, <- Ee in *.
      rewrite <- fmap_app, <- fmap_app. by apply list_elem_of_fmap_2. }
    by exists e'. }
  assert (∀ i, upstream b' i = upstream b i) as Eu.
  { intros i. unfold upstream, sending. rewrite Ef. rewrite fmap_app, (fmap_app _ _ (_ ++ _)). by rewrite Ek. }
  constructor; rewrite ?Eh, ?El, ?Ef, ?Ec, ?Es, ?Ev; try done.
  - by rewrite Ep.
  - intros e (e' & Hin' & E)%Hin. unfold key. rewrite <- E. by apply (bo_bound0 e').
  - intros e x (e' & Hin' & <-)%Hin. by apply bo_live0.
  - intros i s. rewrite Eu. apply bo_streams0.
Qed.

Lemma number_sync_ok e b : bcast_ok b → notifying b = Handing e → bcast_ok (number_sync e b).
Proof.
  intros Hok Hn. unfold number_sync. destruct (is_sync e); (eapply moved_ok; [exact Hok|done..| |]);
    by unfold held; rewrite Hn, !fmap_app.
Qed.

Lemma enqueue_ok e b : bcast_ok b → notifying b = Queuing e → bcast_ok (enqueue e b).
Proof.
  intros Hok Hn. unfold enqueue. destruct (_ <? _)%nat; (eapply moved_ok; [exact Hok|done..| |]);
    unfold held; rewrite Hn; simpl; by rewrite ?app_nil_r.
Qed.

(** A new entry leaves every event's own entry its own. *)
Lemma live_snoc b x e y :
  bcast_ok b → ID x = count (history b) + 1 → e ∈ pending b → is_sync (fe_Event e) = false →
  y ∈ (log b ++ [x])%list → replayable y = true → ID y = HistoryID (fe_Event e) →
  live b !! ID y = Some (fe_Event e).
Proof.
  intros Hok Hid He Hs [Hy| ->%list_elem_of_singleton]%elem_of_app Hr E; [by apply (bo_live _ Hok)|].
  pose proof (bo_bound _ Hok e He) as Hb. simpl in Hb. lia.
Qed.

Lemma recover_ok x now b :
  bcast_ok b → Recovered x = true → count (history b) + 1 < max_uint64 → bcast_ok (recover x now b).
Proof.
  intros Hok Hr Hb. destruct (Append_ok _ now x _ (bo_history _ Hok) Hb) as (Hh & Hid & Hc & _).
  unfold recover. destruct (Append now x (history b)) as [id h] eqn:Ea. simpl in *. subst id.
  pose proof (bo_count b Hok). constructor; simpl; try apply Hok.
  - done.
  - intros e He. rewrite Hc. pose proof (bo_bound _ Hok e He). simpl in *. lia.
  - intros e y He Hs Hy. by apply (live_snoc b (stamp now (count (history b) + 1) x)).
  - intros y e [Hy| ->%list_elem_of_singleton]%elem_of_app; [by apply (bo_entry _ Hok)|].
    simpl. by rewrite (bo_fresh _ Hok) by lia.
  - intros id Hid. apply (bo_fresh _ Hok). lia.
  - intros i s Hs Hf. rewrite Hc. apply stream_grow; [by apply (bo_streams _ Hok)|done|].
    intros [Hrep _]. unfold replayable in Hrep. simpl in Hrep. rewrite Hr in Hrep.
    by rewrite orb_true_r in Hrep.
Qed.

Lemma notify_ok n now b :
  bcast_ok b → notifying b = Idle → well_typed n = true → count (history b) + 1 < max_uint64 →
  bcast_ok (notify n now b).
Proof.
  intros Hok Hidle Ht Hb. pose proof (bo_count b Hok). unfold notify.
  assert (held b = []) as Eheld by (unfold held; by rewrite Hidle).
  destruct (notify_entry n) as [entry|] eqn:En.
  - destruct (Append_ok _ now entry _ (bo_history _ Hok) Hb) as (Hh & Hid & Hc & _).
    destruct (Append now entry (history b)) as [id h] eqn:Ea. simpl in *. subst id.
    set (x := stamp now (count (history b) + 1) entry) in *.
    set (e := mkFrameEvent (notify_event n (count (history b) + 1)) 0).
    destruct (notify_event_key n entry (count (history b) + 1) Ht En) as [Ekid Eks].
    assert (key e = (count (history b) + 1, false)) as Ek by (unfold key; simpl; by rewrite Ekid, Eks).
    set (b' := set_history _ _ _ _ b).
    assert (pending b' = pending b ++ [e])%list as Ep.
    { unfold pending. rewrite Eheld, app_nil_r. unfold held_out, held. simpl. by rewrite <- app_assoc. }
    constructor; simpl; try apply Hok.
    + done.
    + rewrite Ep, fmap_app. apply StronglySorted_app. split_and!; [|apply Hok|repeat constructor].
      intros k k' (f & -> & Hf)%list_elem_of_fmap ->%list_elem_of_singleton. rewrite Ek.
      pose proof (bo_bound _ Hok f Hf). unfold before. simpl in *. lia.
    + intros f. rewrite Ep, Hc. intros [Hf| ->%list_elem_of_singleton]%elem_of_app; [|by simpl; rewrite Ekid].
      pose proof (bo_bound _ Hok f Hf). simpl in *. lia.
    + intros f y. rewrite Ep. intros [Hf| ->%list_elem_of_singleton]%elem_of_app Hs Hy Hr E.
      * pose proof (bo_bound _ Hok f Hf) as Hfb. simpl in Hfb. rewrite lookup_insert_ne by lia. by apply (live_snoc b x).
      * simpl in E. rewrite Ekid in E. rewrite E. apply lookup_insert_eq.
    + intros y f [Hy| ->%list_elem_of_singleton]%elem_of_app.
      * pose proof (bo_pos b y Hok Hy). rewrite lookup_insert_ne by lia. by apply (bo_entry _ Hok).
      * simpl. rewrite lookup_insert_eq. intros [= <-]. by exists n, now, entry.
    + intros id Hid. rewrite lookup_insert_ne by lia. apply (bo_fresh _ Hok). lia.
    + intros i s Hs Hf. rewrite Hc. assert (upstream b' i = upstream b i ++ [key e])%list as ->.
      { unfold upstream. rewrite Eheld, app_nil_r. unfold sending, held. simpl.
        by rewrite !fmap_app, <- app_assoc. }
      rewrite Ek. apply stream_notify; [intros y Hy; by apply (bo_pos b y)| |done].
      apply (stream_same (live b)); [|by apply (bo_streams _ Hok)].
      intros y Hy. pose proof (bo_pos b y Hok Hy). rewrite lookup_insert_ne; [done|lia].
  - set (e := mkFrameEvent (notify_event n (count (history b))) 0). set (b' := set_notifying _ b).
    destruct n; try done. assert (key e = (count (history b), true)) as Ek by done.
    assert (pending b' = pending b ++ [e])%list as Ep.
    { unfold pending. rewrite Eheld, app_nil_r. unfold held_out, held. simpl. by rewrite <- app_assoc. }
    constructor; simpl; try apply Hok.
    + rewrite Ep, fmap_app. apply StronglySorted_app. split_and!; [|apply Hok|repeat constructor].
      intros k k' (f & -> & Hf)%list_elem_of_fmap ->%list_elem_of_singleton. rewrite Ek.
      apply (bo_bound _ Hok f Hf).
    + intros f. rewrite Ep. intros [Hf| ->%list_elem_of_singleton]%elem_of_app; [|done].
      apply (bo_bound _ Hok f Hf).
    + intros f y. rewrite Ep. intros [Hf| ->%list_elem_of_singleton]%elem_of_app Hs Hy Hr E; [|done].
      by apply (bo_live _ Hok).
    + intros i s Hs Hf. assert (upstream b' i = upstream b i ++ [key e])%list as ->.
      { unfold upstream. rewrite Eheld, app_nil_r. unfold sending, held. simpl.
        by rewrite !fmap_app, <- app_assoc. }
      rewrite Ek. apply stream_resync. by apply (bo_streams _ Hok).
Qed.

(** A stream whose filter refuses an event was not owed its entry. *)
Lemma refused b e s x :
  bcast_ok b → e ∈ pending b → accepts (match_ s) (fe_Event e) = false →
  (key e).2 = true ∨ (x ∈ log b → owed (live b) s x → ID x ≠ (key e).1).
Proof.
  intros Hok He Ha. destruct (key e).2 eqn:Es; [by left|right]. intros Hx (Hr & _ & Ho) E.
  unfold event_of in Ho. rewrite (bo_live _ Hok e x He Es Hx Hr E) in Ho. simpl in Ho. congruence.
Qed.

Lemma passes b i s e up1 up2 :
  bcast_ok b → streams b !! i = Some s → e ∈ pending b →
  (i ∈ clients b → accepts (match_ s) (fe_Event e) = false) →
  stream_ok (live b) (log b) (count (history b)) (up1 ++ key e :: up2) s →
  stream_ok (live b) (log b) (count (history b)) (up1 ++ up2) s.
Proof.
  intros Hok Hs He Ha. intros Hst. eapply stream_pass; [exact Hst|by apply bo_count|].
  destruct (decide (i ∈ clients b)) as [Hi|Hi].
  - right. destruct (key e).2 eqn:Ek; [by left|right]. intros x Hx Ho.
    destruct (refused b e s x Hok He (Ha Hi)) as [E|H]; [by rewrite Ek in E|by apply H].
  - left. destruct (at_ s) eqn:Eat; [exfalso; apply Hi, (bo_clients _ Hok); exists s; by rewrite Eat..|done].
Qed.

Lemma mark_lagged_ok e b : bcast_ok b → notifying b = Dropping e → bcast_ok (mark_lagged e b).
Proof.
  intros Hok Hn. assert (held b = [e]) as Eheld by (unfold held; by rewrite Hn).
  set (b' := mark_lagged e b).
  assert (pending b = pending b' ++ [e])%list as Ep.
  { unfold pending, held_out. simpl. unfold held. simpl. by rewrite Hn, app_nil_r, <- app_assoc. }
  assert (∀ i s', streams b' !! i = Some s' → ∃ s, streams b !! i = Some s ∧
    s' = if bool_decide (i ∈ clients b) && accepts (match_ s) (fe_Event e) then set_lagged true s else s) as Hs'.
  { intros i s'. simpl. rewrite map_lookup_imap. destruct (streams b !! i) as [s|]; [|done].
    simpl. intros [= <-]. by exists s. }
  constructor; simpl; try apply Hok.
  - eapply StronglySorted_sublist; [|apply Hok]. rewrite Ep, fmap_app. by apply sublist_inserts_r.
  - intros f Hf. apply (bo_bound _ Hok). rewrite Ep. set_solver.
  - intros f x Hf. apply (bo_live _ Hok). rewrite Ep. set_solver.
  - intros i. rewrite (bo_clients _ Hok). rewrite map_lookup_imap. split.
    + intros (s & Hs & Ha). rewrite Hs. simpl. eexists. split; [done|]. by destruct (_ && _).
    + intros (s' & Hs & Ha). destruct (Hs' i s') as (s & E & ->); [by simpl; rewrite map_lookup_imap|].
      exists s. split; [done|]. by destruct (_ && _).
  - intros f rs Hf. destruct (bo_recipients _ Hok f rs Hf) as [Hnd Hin]. split; [done|].
    intros i Hi. rewrite map_lookup_imap. destruct (Hin i Hi) as [s ->]. simpl. done.
  - intros i s' Hsl. destruct (Hs' i s' Hsl) as (s & Hs & ->). intros Hf.
    assert (upstream b i = upstream b' i ++ [key e])%list as Eu.
    { unfold upstream, sending. simpl. unfold held. simpl.
      by rewrite Hn, app_nil_r, !fmap_app, <- app_assoc. }
    assert (fits (match_ s) (replayType s)) as Hf' by (by destruct (_ && _)).
    pose proof (bo_streams _ Hok i s Hs Hf') as Hst. rewrite Eu in Hst.
    rewrite <- (app_nil_r (upstream b' i)).
    destruct (bool_decide (i ∈ clients b)) eqn:Ei; simpl.
    + destruct (accepts _ _) eqn:Ea; [eapply stream_lag; [exact Hst|by apply bo_count]|].
      eapply passes; eauto. rewrite Ep. set_solver.
    + eapply passes; eauto; [rewrite Ep; set_solver|]. by apply bool_decide_eq_false in Ei.
Qed.

(** ** The fan-out *)

Lemma take_ok e l b :
  bcast_ok b → fan b = Waiting → inbox b = e :: l → bcast_ok (set_fan (Taken e) (set_inbox l b)).
Proof.
  intros Hok Hf Hi. set (b' := set_fan _ _).
  assert (pending b' = pending b) as Ep by (unfold pending, held_out; simpl; by rewrite Hf, Hi).
  constructor; rewrite ?Ep; simpl; try apply Hok; [done|].
  intros i s Hs Hfit. assert (upstream b' i = upstream b i) as ->
    by (unfold upstream, sending; simpl; by rewrite Hf, Hi).
  by apply (bo_streams _ Hok).
Qed.

Lemma recipients_in e order b i :
  i ∈ (recipients e order b).*1 ↔
  i ∈ order ∧ ∃ s, streams b !! i = Some s ∧ accepts (match_ s) (fe_Event e) = true.
Proof.
  unfold recipients, accepts. rewrite list_elem_of_fmap. split.
  - intros ([j r] & -> & (j' & Hj & H)%list_elem_of_omap). simpl.
    destruct (streams b !! j') as [s|] eqn:Es; [simpl in H|done].
    destruct (admitted (match_ s) (fe_Event e)) as [heard []] eqn:Ea; [|done]. injection H as <- _.
    split; [done|]. exists s. by rewrite Ea.
  - intros [Hi (s & Hs & Ha)]. destruct (admitted (match_ s) (fe_Event e)) as [heard ok] eqn:E.
    simpl in Ha. subst ok. eexists (i, _). split; [done|]. apply list_elem_of_omap. exists i.
    split; [done|]. rewrite Hs. simpl. by rewrite E.
Qed.

Lemma recipients_NoDup e order b : NoDup order → NoDup (recipients e order b).*1.
Proof.
  intros Hnd. eapply sublist_NoDup; [exact Hnd|]. unfold recipients. clear Hnd.
  induction order as [|i order IH]; [done|]. simpl.
  destruct (streams b !! i) as [s|]; simpl; [|by apply sublist_cons].
  destruct (admitted _ _) as [heard []]; simpl; [by apply sublist_skip|by apply sublist_cons].
Qed.

Lemma choose_ok e order b :
  bcast_ok b → fan b = Taken e → NoDup order → list_to_set order = clients b →
  bcast_ok (set_fan (Sending e (recipients e order b)) b).
Proof.
  intros Hok Hf Hnd Hset. set (b' := set_fan _ _).
  assert (pending b' = pending b) as Ep by (unfold pending, held_out; simpl; by rewrite Hf).
  constructor; rewrite ?Ep; simpl; try apply Hok.
  - intros e' rs [= <- <-]. split; [by apply recipients_NoDup|].
    intros i (_ & s & Hs & _)%recipients_in. by exists s.
  - intros i s Hs Hfit. pose proof (bo_streams _ Hok i s Hs Hfit) as Hst.
    unfold upstream, sending in *. simpl. rewrite Hf in Hst.
    destruct (bool_decide _) eqn:Ei; [done|]. apply bool_decide_eq_false in Ei.
    apply (passes b i s e [] _ Hok Hs); [unfold pending, held_out; rewrite Hf; set_solver| |done].
    intros Hc. destruct (accepts _ _) eqn:Ea; [|done]. destruct Ei. apply recipients_in.
    split; [|by exists s]. rewrite <- Hset in Hc. by apply elem_of_list_to_set in Hc.
Qed.

Lemma sent_ok e b : bcast_ok b → fan b = Sending e [] → bcast_ok (set_fan Waiting b).
Proof.
  intros Hok Hf. set (b' := set_fan _ _).
  assert (pending b = e :: pending b') as Ep by (unfold pending, held_out; simpl; by rewrite Hf).
  constructor; simpl; try apply Hok.
  - pose proof (bo_order _ Hok) as Ho. rewrite Ep in Ho. by inversion Ho.
  - intros f He. apply (bo_bound _ Hok). rewrite Ep. set_solver.
  - intros f x He. apply (bo_live _ Hok). rewrite Ep. set_solver.
  - done.
  - intros i s Hs Hfit. pose proof (bo_streams _ Hok i s Hs Hfit) as Hst.
    unfold upstream, sending in *. simpl. by rewrite Hf in Hst.
Qed.

Lemma frame_for_key e r : key (frame_for e r) = key e.
Proof.
  destruct r; [|done]. unfold key, is_sync, frame_for. simpl.
  by destruct (asRemoval_key (fe_Event e)) as [-> ->].
Qed.

Lemma send_fields e s :
  match_ (send e s) = match_ s ∧ replayType (send e s) = replayType s ∧ at_ (send e s) = at_ s.
Proof. unfold send. by destruct (_ <? _)%nat. Qed.

(** A stream's update keeps which streams there are. *)
Lemma set_stream_clients b i s s' :
  bcast_ok b → streams b !! i = Some s → (at_ s' = Gone ↔ at_ s = Gone) →
  ∀ j, j ∈ clients b ↔ ∃ t, streams (set_stream i s' b) !! j = Some t ∧ at_ t ≠ Gone.
Proof.
  intros Hok Hs Ha j. rewrite (bo_clients _ Hok). simpl.
  destruct (decide (i = j)) as [->|Hne]; [rewrite Hs, lookup_insert_eq|by rewrite lookup_insert_ne].
  split; intros (t & [= <-] & Ht); eexists; (split; [done|]); tauto.
Qed.

Lemma set_stream_recipients b i s' e rs :
  bcast_ok b → fan b = Sending e rs →
  NoDup rs.*1 ∧ ∀ j, j ∈ rs.*1 → is_Some (streams (set_stream i s' b) !! j).
Proof.
  intros Hok Hf. destruct (bo_recipients _ Hok e rs Hf) as [Hnd Hin]. split; [done|].
  intros j Hj. simpl. rewrite lookup_insert. case_decide; [done|by apply Hin].
Qed.

Lemma send_ok e i r rest s b :
  bcast_ok b → fan b = Sending e ((i, r) :: rest) → streams b !! i = Some s →
  bcast_ok (set_fan (Sending e rest) (set_stream i (send (frame_for e r) s) b)).
Proof.
  intros Hok Hf Hs. set (s' := send _ s). set (b' := set_fan _ _).
  destruct (send_fields (frame_for e r) s) as (Em & Et & Ea).
  assert (pending b' = pending b) as Ep by (unfold pending, held_out; simpl; by rewrite Hf).
  pose proof (set_stream_recipients b i s' e _ Hok Hf) as [Hnd Hin].
  rewrite fmap_cons in Hnd. simpl in Hnd. apply NoDup_cons in Hnd as [Hni Hnd].
  constructor; rewrite ?Ep; simpl; try apply Hok.
  - apply (set_stream_clients b i s s' Hok Hs). unfold s'. by rewrite Ea.
  - intros e' rs [= <- <-]. split; [done|]. intros j Hj. apply Hin. set_solver.
  - intros j t Ht Hfit. assert (upstream b j = if decide (i = j) then key e :: upstream b' j else upstream b' j) as Eu.
    { unfold upstream, sending. simpl. rewrite Hf. case_decide as Hij.
      - subst j. rewrite bool_decide_eq_true_2 by set_solver. by rewrite bool_decide_eq_false_2.
      - erewrite bool_decide_ext; [done|]. set_solver. }
    rewrite lookup_insert in Ht. case_decide as Hij.
    + subst j. injection Ht as <-. pose proof (bo_streams _ Hok i s Hs) as Hst. rewrite Eu in Hst.
      apply (stream_send _ _ _ e); [|by apply bo_count|apply frame_for_key]. apply Hst. unfold s' in Hfit.
      by rewrite Em, Et in Hfit.
    + rewrite <- Eu. by apply (bo_streams _ Hok).
Qed.

(** ** The streams *)

Lemma on_stream_ok i f b b' :
  bcast_ok b → on_stream i f b = Some b' →
  (∀ s s', streams b !! i = Some s → f s = Some s' →
    match_ s' = match_ s ∧ replayType s' = replayType s ∧ at_ s ≠ Gone ∧ at_ s' ≠ Gone ∧
    (fits (match_ s) (replayType s) → stream_ok (live b) (log b) (count (history b)) (upstream b i) s →
      stream_ok (live b) (log b) (count (history b)) (upstream b i) s')) →
  bcast_ok b'.
Proof.
  intros Hok Hon Hf. unfold on_stream in Hon.
  destruct (streams b !! i) as [s|] eqn:Hs; [|done]. simpl in Hon.
  destruct (f s) as [s'|] eqn:Es; [|done]. injection Hon as <-.
  destruct (Hf s s' eq_refl Es) as (Em & Et & Ha & Ha' & Hst).
  constructor; simpl; try apply Hok.
  - apply (set_stream_clients b i s s' Hok Hs). tauto.
  - intros e rs. by apply set_stream_recipients.
  - intros j t Ht Hfit. rewrite lookup_insert in Ht. case_decide as Hij.
    + subst j. injection Ht as <-. rewrite Em, Et in Hfit. apply Hst; [done|].
      by apply (bo_streams _ Hok).
    + by apply (bo_streams _ Hok).
Qed.

Lemma cursor_bounds epoch lastID id seen :
  cursor epoch lastID = Some (id, seen) → 0 ≤ id < 2 ^ 64 ∧ 0 ≤ seen < 2 ^ 64.
Proof.
  unfold cursor. destruct (CutPrefix _ _) as [t|]; [|done]. destruct (Cut t ".") as [[u v] f].
  destruct (ParseUint u) as [n|] eqn:En; [|done]. apply ParseUint_bounds in En.
  destruct f; [|by intros [= <- <-]]. destruct (ParseUint v) as [m|] eqn:Em; [|done].
  apply ParseUint_bounds in Em. destruct (m =? 0); [done|]. by intros [= <- <-].
Qed.

Lemma sending_sub b i : (sending b i ++ inbox b ++ held b)%list `sublist_of` pending b.
Proof.
  unfold pending, sending, held_out. destruct (fan b) as [|e|e rs|]; try done.
  destruct (bool_decide _); [done|]. by apply sublist_cons.
Qed.

Lemma open_ok epoch i o typ lastID m b :
  bcast_ok b → streams b !! i = None → bcast_ok (open_stream epoch i o typ lastID m b).
Proof.
  intros Hok Hi. pose proof (bo_count b Hok) as Hn. unfold open_stream.
  set (p := replay_start epoch lastID typ). set (s := mkStream _ _ _ _ _ _ _ _ _ _ _ _). set (b' := set_stream _ _ _).
  assert (at_ s ≠ Gone ∧ match at_ s with
    | Asking id _ => resumed s = id ∧ 0 ≤ id ∧ is_empty typ = false
    | Live => resumed s = count (history b) | Positioning => resumed s = 0 | _ => False end) as [Hg Hp].
  { simpl. unfold p, replay_start. destruct (is_empty lastID); [done|].
    destruct (is_empty typ); [done|]. destruct (cursor epoch lastID) as [[id seen]|] eqn:Ec; [|done].
    apply cursor_bounds in Ec. simpl. split; [done|]. split_and!; [done|lia|done]. }
  constructor; simpl; try apply Hok.
  - intros j. rewrite elem_of_union, elem_of_singleton, (bo_clients _ Hok).
    destruct (decide (i = j)) as [<-|Hne]; [rewrite lookup_insert_eq|rewrite lookup_insert_ne by done].
    + split; [intros _; by exists s|by left].
    + split; [intros [?|?]; [done|done]|by right].
  - intros e rs. by apply set_stream_recipients.
  - intros j t Ht Hfit. rewrite lookup_insert in Ht. case_decide as Hij; [|by apply (bo_streams _ Hok)].
    subst j. injection Ht as <-.
    assert (lane s (upstream b' i) = key <$> (sending b i ++ inbox b ++ held b)%list) as El by done.
    assert (0 ≤ resumed s) as Hres by (destruct (at_ s); simpl in *; lia). constructor.
    + done.
    + rewrite El. eapply StronglySorted_sublist; [|apply Hok]. by apply fmap_sublist, sending_sub.
    + intros k. rewrite El. intros (e & -> & He)%list_elem_of_fmap. apply (bo_bound _ Hok).
      eapply elem_of_sublist; [done|]. apply sending_sub.
    + done.
    + intros _ x _ _ Hr. change (skipBelow s) with 0 in Hr. lia.
    + destruct (at_ s); try done. by destruct Hp as (? & _ & ?).
    + intros fs f rest Hw. simpl in Hw. by destruct fs.
    + unfold promised. destruct (at_ s) eqn:Ea; try done. right. intros x Hx _ Hr.
      pose proof (bo_pos b x Hok Hx). lia.
Qed.

Lemma unregister_ok i s b :
  bcast_ok b → streams b !! i = Some s → bcast_ok (unregister i s b).
Proof.
  intros Hok Hs. unfold unregister. cbv zeta. set (s' := go Gone (set_done s)). set (b' := set_stream _ _ _).
  constructor; simpl; try apply Hok.
  - intros j. rewrite elem_of_difference, elem_of_singleton, (bo_clients _ Hok).
    destruct (decide (i = j)) as [<-|Hne]; [rewrite lookup_insert_eq|rewrite lookup_insert_ne by done].
    + split; [by intros [_ []]|intros (t & [= <-] & []); done].
    + split; [by intros [? _]|by split].
  - intros e rs. by apply set_stream_recipients.
  - intros j t Ht Hfit. rewrite lookup_insert in Ht. case_decide as Hij; [|by apply (bo_streams _ Hok)].
    subst j. injection Ht as <-.
    apply (stream_leave _ _ _ _ s Gone); [by apply (bo_streams _ Hok)|by right|by right].
Qed.

Lemma Close_ok b : bcast_ok b → bcast_ok (Close b).
Proof.
  intros Hok. unfold Close. destruct (closed b); [done|]. set (b' := mkBroadcaster _ _ _ _ _ _ _ _ _ _ _).
  assert (∀ i t, streams b' !! i = Some t → ∃ s, streams b !! i = Some s ∧ (t = s ∨ t = set_done s)) as Ht.
  { intros i t. simpl. rewrite map_lookup_imap. destruct (streams b !! i) as [s|]; [|done]. simpl.
    intros [= <-]. exists s. split; [done|]. destruct (bool_decide _); [by right|by left]. }
  constructor; simpl; try apply Hok.
  - intros i. rewrite (bo_clients _ Hok), map_lookup_imap. destruct (streams b !! i) as [s|]; simpl; [|naive_solver].
    split; intros (t & [= <-] & Ha); eexists; (split; [done|]); by destruct (bool_decide (i ∈ clients b)).
  - intros e rs Hf. destruct (bo_recipients _ Hok e rs Hf) as [Hnd Hin]. split; [done|]. intros i Hi.
    rewrite map_lookup_imap. by destruct (Hin i Hi) as [s ->].
  - intros i t Hl. destruct (Ht i t Hl) as (s & Hs & E). intros Hfit.
    assert (stream_ok (live b) (log b) (count (history b)) (upstream b i) s) as Hst.
    { apply (bo_streams _ Hok i s Hs). by destruct E as [-> | ->]. }
    destruct E as [-> | ->]; [done|by apply stream_done].
Qed.

(** ** Every reachable state *)

Lemma guarded {A} (c : bool) (x y : A) :
  (if c then Some x else None) = Some y → c = true ∧ x = y.
Proof. destruct c; [|done]. by intros [= ->]. Qed.

(** A handler's action, by what it does to its stream. *)
Ltac stream_action Hok :=
  let s := fresh "s" in let s' := fresh "s'" in let Hs := fresh "Hs" in let Hf := fresh "Hf" in
  let H := fresh "H" in
  intros H; refine (on_stream_ok _ _ _ _ Hok H _); intros s s' Hs Hf; simpl in Hf;
  destruct (at_ s) eqn:?; try done.

Lemma ask_ok i epoch b b' : bcast_ok b → perform epoch (Ask i) b = Some b' → bcast_ok b'.
Proof.
  intros Hok. stream_action Hok. injection Hf as <-.
  assert (match_ (ask (lastSync b) afterID seen s) = match_ s ∧
    replayType (ask (lastSync b) afterID seen s) = replayType s ∧
    at_ (ask (lastSync b) afterID seen s) ≠ Gone) as (? & ? & ?).
  { unfold ask. by destruct (needsSync _ _ _) as [[] ?]. }
  split_and!; try done. intros _ Hst. by apply stream_ask.
Qed.

Lemma replay_fields ok id synced h s :
  let s' := replay ok id synced h s in
  match_ s' = match_ s ∧ replayType s' = replayType s ∧ at_ s' ≠ Gone.
Proof.
  simpl. unfold replay. destruct (Since id h) as [l []]; simpl; [|done].
  destruct (last _); [|done]. by destruct ok.
Qed.

Lemma replay_ok i ok epoch b b' : bcast_ok b → perform epoch (Replay i ok) b = Some b' → bcast_ok b'.
Proof.
  intros Hok. stream_action Hok. injection Hf as <-.
  destruct (replay_fields ok afterID covered (history b) s) as (? & ? & ?). split_and!; try done.
  intros Hfit Hst. apply stream_replay; [done|apply Hok|done|apply Hok|done].
Qed.

Lemma position_ok i epoch b b' : bcast_ok b → perform epoch (Position i) b = Some b' → bcast_ok b'.
Proof.
  intros Hok. stream_action Hok. injection Hf as <-. split_and!; try done.
  intros _ Hst. apply stream_position; [done|by apply bo_count|]. intros x Hx. by apply (bo_pos b x).
Qed.

Lemma number_ok i ok epoch b b' : bcast_ok b → perform epoch (Number_ i ok) b = Some b' → bcast_ok b'.
Proof.
  intros Hok. stream_action Hok. injection Hf as <-. split_and!; try done; [by destruct ok|].
  intros _ Hst. by apply stream_sync.
Qed.

Lemma receive_fields e s : let s' := receive e s in
  match_ s' = match_ s ∧ replayType s' = replayType s ∧ at_ s' = at_ s.
Proof. simpl. unfold receive. destruct (_ && _ && _ && _); [done|]. by destruct (_ && (_ <=? _)). Qed.

Lemma receive_ok i epoch b b' : bcast_ok b → perform epoch (Receive i) b = Some b' → bcast_ok b'.
Proof.
  intros Hok. stream_action Hok. destruct (events s) as [|e l] eqn:He; [done|]. injection Hf as <-.
  destruct (receive_fields e (set_events l s)) as (? & ? & Ea). split_and!; try done.
  - rewrite Ea. simpl. congruence.
  - intros _ Hst. apply stream_receive; try done; [by apply bo_count|]. intros x Hx. by apply (bo_pos b x).
Qed.

Lemma tick_ok i ok epoch b b' : bcast_ok b → perform epoch (Tick i ok) b = Some b' → bcast_ok b'.
Proof.
  intros Hok. stream_action Hok. injection Hf as <-.
  assert (match_ (tick ok s) = match_ s ∧ replayType (tick ok s) = replayType s ∧ at_ (tick ok s) ≠ Gone)
    as (? & ? & ?).
  { unfold tick. destruct (lagged s); [done|]. destruct (batch s); [by rewrite Heqp|]. by destruct ok. }
  split_and!; try done. intros _ Hst. apply stream_tick; try done; [by apply bo_count|].
  intros x Hx. by apply (bo_pos b x).
Qed.

Lemma finish_ok i epoch b b' : bcast_ok b → perform epoch (Finish i) b = Some b' → bcast_ok b'.
Proof.
  intros Hok. stream_action Hok. injection Hf as <-.
  assert (match_ (finish s) = match_ s ∧ replayType (finish s) = replayType s ∧ at_ (finish s) = Leaving)
    as (? & ? & Ea).
  { unfold finish. destruct (batch s); [done|]. by destruct (lagged s). }
  split_and!; try done; [by rewrite Ea|]. intros _ Hst. apply stream_finish; try done; [by apply bo_count|].
  intros x Hx. by apply (bo_pos b x).
Qed.

Lemma broken_ok i epoch b b' : bcast_ok b → perform epoch (Broken i) b = Some b' → bcast_ok b'.
Proof.
  intros Hok. stream_action Hok; injection Hf as <-; (split_and!; try done); intros _ Hst;
    by apply (stream_leave _ _ _ _ s Leaving); [|left|left].
Qed.

Lemma perform_bcast epoch a b b' : bcast_ok b → perform epoch a b = Some b' → bcast_ok b'.
Proof.
  intros Hok. destruct a.
  - cbn [perform]. destruct (notifying b) eqn:En; try done. intros [H <-]%guarded.
    apply andb_true_iff in H as [? ?%Z.ltb_lt]. by apply notify_ok.
  - cbn [perform]. destruct (notifying b) eqn:En; try done. intros [H <-]%guarded.
    apply andb_true_iff in H as [? ?%Z.ltb_lt]. by apply recover_ok.
  - cbn [perform]. destruct (notifying b) eqn:En; try done. intros [= <-]. by apply number_sync_ok.
  - cbn [perform]. destruct (notifying b) eqn:En; try done. intros [= <-]. by apply enqueue_ok.
  - cbn [perform]. destruct (notifying b) eqn:En; try done. intros [= <-]. by apply mark_lagged_ok.
  - cbn [perform]. destruct (fan b) eqn:Ef; try done. destruct (inbox b) as [|e l] eqn:Ei; [done|].
    intros [= <-]. by apply take_ok.
  - cbn [perform]. destruct (fan b) eqn:Ef; try done. intros [H <-]%guarded.
    apply andb_true_iff in H as [?%bool_decide_eq_true ?%bool_decide_eq_true]. by apply choose_ok.
  - cbn [perform]. destruct (fan b) as [| |e [|[i r] rest]|] eqn:Ef; try done; [intros [= <-]; by eapply sent_ok|].
    destruct (streams b !! i) as [s|] eqn:Es; [|done]. simpl. intros [= <-]. by apply send_ok.
  - cbn [perform]. destruct (fan b) eqn:Ef; try done. intros [_ <-]%guarded.
    assert (pending (set_fan Stopped b) = pending b) as Ep by (unfold pending, held_out; simpl; by rewrite Ef).
    constructor; rewrite ?Ep; simpl; try apply Hok; [done|]. intros i s Hs Hfit.
    pose proof (bo_streams _ Hok i s Hs Hfit) as Hst. unfold upstream, sending in *. by rewrite Ef in Hst.
  - cbn [perform]. destruct (streams b !! i) eqn:Es; [done|]. destruct (admission o b); [done|].
    intros [= <-]. by apply open_ok.
  - by apply ask_ok.
  - by apply replay_ok.
  - by apply position_ok.
  - by apply number_ok.
  - by apply receive_ok.
  - by apply tick_ok.
  - by apply broken_ok.
  - by apply finish_ok.
  - cbn [perform]. destruct (streams b !! i) as [s|] eqn:Es; [|done]. simpl.
    destruct (at_ s); try done. intros [= <-]. by apply unregister_ok.
  - cbn [perform]. intros [= <-]. by apply Close_ok.
Qed.

Lemma NewBroadcaster_ok all h : history_ok all h → bcast_ok (NewBroadcaster h all).
Proof.
  intros Hh. constructor; simpl; try done.
  - constructor.
  - intros e He. by apply not_elem_of_nil in He.
  - intros e x He. by apply not_elem_of_nil in He.
  - intros i. split; [set_solver|intros (s & Hs & _); by rewrite lookup_empty in Hs].
Qed.

Lemma reachable_bcast epoch b : reachable epoch b → bcast_ok b.
Proof.
  induction 1 as [all h Hr|b a b' _ IH Hp]; [by apply NewBroadcaster_ok, recorded_ok|].
  by eapply perform_bcast.
Qed.

(** * The filters of the list streams *)

(** A filter that reads only the type. *)
Definition type_only (f : filter_fn) : Prop :=
  ∀ e e', ev_Type e = ev_Type e' → default (λ _, true) f e = default (λ _, true) f e'.

Lemma accepts_plain f e :
  (ev_Type e ≠ EventAnnotation ∨ ev_Previous e = PNone) → accepts (Some f) e = f e.
Proof.
  intros H. unfold accepts, admitted. destruct (f e) eqn:E; [done|]. unfold asRemoval.
  destruct (ev_Previous e); try done. destruct H as [H|]; [|done]. by rewrite bool_decide_eq_false_2.
Qed.

Lemma acl_blind inner can mayRead :
  type_only inner → blind (Some (aclMatchWrap inner can mayRead)).
Proof.
  intros Hin n entry now id Ht Hn.
  destruct n as [e actor service slot node sname|from until rec|marked replaced action|]; simpl in Hn; simplify_eq.
  - apply bool_decide_eq_true in Ht. assert (ev_Type e ≠ EventAnnotation) as Hne.
    { intros E. rewrite E in Ht. unfold change_types in Ht. set_solver. }
    rewrite !accepts_plain by (by left). unfold aclMatchWrap.
    rewrite (Hin _ (replayEvent (stamp now id (change_entry e actor service slot node sname)))) by done.
    destruct (negb _); [done|]. destruct (bool_decide (_ = EventSync)); [done|].
    destruct (bool_decide (_ = EventGap)); [done|]. simpl.
    destruct (ev_Resource e); try done. by rewrite bool_decide_eq_false_2.
  - rewrite !accepts_plain by (by right). unfold aclMatchWrap.
    by rewrite (Hin _ (replayEvent (stamp now id (gap_entry from until rec)))).
  - done.
Qed.

(** A stream that replays nothing may have any filter. *)
Lemma fits_none m : fits m "".
Proof. by left. Qed.

Lemma fits_all m : blind m → fits m ReplayAll.
Proof. intros Hb. right. split; [done|]. by left. Qed.

Lemma fits_type typ can mayRead : fits (Some (aclMatchWrap (Some (TypeMatcher typ)) can mayRead)) typ.
Proof.
  right. split.
  - apply acl_blind. intros e e' E. simpl. unfold TypeMatcher. by rewrite E.
  - intros x Hs Ha. right. unfold accepts, admitted in Ha.
    assert (∀ e, ev_Type e = ev_Type (replayEvent x) →
      aclMatchWrap (Some (TypeMatcher typ)) can mayRead e = true → ev_Type (replayEvent x) = typ) as H.
    { intros e E He. unfold aclMatchWrap in He. simpl in He.
      destruct (TypeMatcher typ e) eqn:Et; [|done]. unfold TypeMatcher in Et. rewrite E in Et.
      apply orb_true_iff in Et as [Et%bool_decide_eq_true|Et]; [done|]. by unfold is_sync in Hs; rewrite Et in Hs. }
    destruct (aclMatchWrap _ _ _ _) eqn:E1; [by apply (H (replayEvent x))|].
    destruct (asRemoval_key (replayEvent x)) as [_ E2]. destruct (asRemoval (replayEvent x)) as [r ok].
    simpl in *. apply andb_true_iff in Ha as [_ Ha]. by apply (H r).
Qed.

Lemma fits_services can mayRead : fits (Some (aclMatchWrap (Some ServiceListMatcher) can mayRead)) ReplayAll.
Proof. apply fits_all, acl_blind. intros e e' E. simpl. unfold ServiceListMatcher. by rewrite E. Qed.

Lemma fits_types `{Unicode} t can mayRead :
  fits (Some (aclMatchWrap (TypesFilter t) can mayRead)) ReplayAll.
Proof.
  apply fits_all, acl_blind. intros e e' E. unfold TypesFilter. destruct (is_empty t); [done|].
  simpl. by rewrite E.
Qed.

(** * The connection caps *)

Definition owner_of (b : Broadcaster) (i : nat) : option string := owner <$> streams b !! i.

Definition clients_of (b : Broadcaster) (o : string) : gset nat :=
  filter (λ i, owner_of b i = Some o) (clients b).

Record cap_ok (b : Broadcaster) : Prop := {
  cap_total : (base.size (clients b) ≤ MaxClients)%nat;
  cap_owned o : owners b !! o =
    let n := base.size (clients_of b o) in if (n =? 0)%nat then None else Some (Z.of_nat n);
  cap_each o : Z.of_nat (base.size (clients_of b o)) ≤ MaxClientsPerOwner;
}.

Lemma owned_size o b : cap_ok b → owned o b = Z.of_nat (base.size (clients_of b o)).
Proof. intros H. unfold owned. rewrite (cap_owned _ H). simpl. by destruct (base.size _). Qed.

Lemma cap_same b b' :
  cap_ok b → clients b' = clients b → owners b' = owners b → (∀ i, owner_of b' i = owner_of b i) →
  cap_ok b'.
Proof.
  intros [] Ec Eo Ew. assert (∀ o, clients_of b' o = clients_of b o) as E.
  { intros o. unfold clients_of. rewrite Ec. apply leibniz_equiv. intros i.
    by rewrite !elem_of_filter, Ew. }
  constructor; [by rewrite Ec|intros o..]; by rewrite ?Eo, E.
Qed.

Lemma owner_set_stream b i s s' j :
  streams b !! i = Some s → owner s' = owner s → owner_of (set_stream i s' b) j = owner_of b j.
Proof.
  intros Hs Ho. unfold owner_of. simpl. rewrite lookup_insert. case_decide as E; [|done].
  subst j. rewrite Hs. simpl. by rewrite Ho.
Qed.

Lemma cap_on_stream i f b b' :
  cap_ok b → on_stream i f b = Some b' → (∀ s s', f s = Some s' → owner s' = owner s) → cap_ok b'.
Proof.
  intros Hc Hon Hf. unfold on_stream in Hon. destruct (streams b !! i) as [s|] eqn:Hs; [|done].
  simpl in Hon. destruct (f s) as [s'|] eqn:Es; [|done]. injection Hon as <-.
  eapply cap_same; try done. intros j. eapply owner_set_stream; eauto.
Qed.

Lemma cap_open epoch i o typ lastID m b :
  bcast_ok b → cap_ok b → streams b !! i = None → admission o b = None →
  cap_ok (open_stream epoch i o typ lastID m b).
Proof.
  intros Hok Hc Hi Ha. unfold admission in Ha. destruct (closed b); [done|].
  destruct (Nat.leb_spec MaxClients (base.size (clients b))) as [|Ht]; [done|].
  destruct (Z.leb_spec MaxClientsPerOwner (owned o b)) as [|Hlt]; [done|]. rewrite owned_size in Hlt by done.
  assert (i ∉ clients b) as Hni by (intros (s & Hs & _)%(bo_clients _ Hok); congruence).
  assert (∀ o', clients_of (open_stream epoch i o typ lastID m b) o' =
    if decide (o' = o) then {[i]} ∪ clients_of b o' else clients_of b o') as E.
  { intros o'. unfold clients_of, owner_of, open_stream. apply leibniz_equiv. intros j. simpl.
    rewrite elem_of_filter, elem_of_union, elem_of_singleton, lookup_insert.
    destruct (decide (i = j)) as [<-|Hne]; simpl.
    - case_decide; subst; [set_solver|]. rewrite elem_of_filter. naive_solver.
    - case_decide; rewrite ?elem_of_union, ?elem_of_singleton, elem_of_filter; naive_solver. }
  assert (base.size ({[i]} ∪ clients_of b o) = S (base.size (clients_of b o))) as Es.
  { rewrite size_union, size_singleton; [done|]. unfold clients_of. set_solver. }
  constructor.
  - change (clients (open_stream _ _ _ _ _ _ b)) with ({[i]} ∪ clients b).
    rewrite size_union, size_singleton by set_solver. lia.
  - intros o'. rewrite E. unfold open_stream. simpl. rewrite lookup_insert. rewrite owned_size by done.
    case_decide as Ho; subst.
    + rewrite decide_True by done. rewrite Es. simpl. f_equal. lia.
    + rewrite decide_False by done. apply (cap_owned _ Hc).
  - intros o'. rewrite E. case_decide; [subst; rewrite Es; lia|apply (cap_each _ Hc)].
Qed.

Lemma cap_unregister i s b :
  bcast_ok b → cap_ok b → streams b !! i = Some s → at_ s = Leaving → cap_ok (unregister i s b).
Proof.
  intros Hok Hc Hs Ha. set (b' := unregister i s b). set (o := owner s).
  assert (i ∈ clients_of b o) as Hi.
  { unfold clients_of. apply elem_of_filter. unfold owner_of. rewrite Hs. split; [done|].
    apply (bo_clients _ Hok). exists s. by rewrite Ha. }
  assert (∀ o', clients_of b' o' = if decide (o' = o) then clients_of b o' ∖ {[i]} else clients_of b o') as E.
  { intros o'. unfold clients_of. apply leibniz_equiv. intros j.
    rewrite elem_of_filter. assert (owner_of b' j = owner_of b j) as ->
      by (unfold b', unregister; by eapply (owner_set_stream (set_clients _ _ b))).
    unfold b', unregister. simpl. rewrite elem_of_difference, elem_of_singleton.
    case_decide as Hne; rewrite ?elem_of_difference, ?elem_of_singleton, elem_of_filter; [naive_solver|].
    split; [naive_solver|]. intros [Ho Hj]. split_and!; [done..|]. intros ->.
    unfold owner_of in Ho. rewrite Hs in Ho. by injection Ho. }
  assert (base.size (clients_of b o ∖ {[i]}) = (base.size (clients_of b o) - 1)%nat) as Es.
  { rewrite size_difference by set_solver. by rewrite size_singleton. }
  assert (0 < base.size (clients_of b o))%nat as Hpos.
  { apply Nat.neq_0_lt_0. rewrite size_non_empty_iff. set_solver. }
  constructor.
  - transitivity (base.size (clients b)); [|apply Hc]. apply subseteq_size. unfold b', unregister. simpl. set_solver.
  - intros o'. rewrite E. unfold b', unregister. simpl. fold o. rewrite owned_size by done.
    case_decide as Ho; subst.
    + rewrite Es. destruct (Z.leb_spec (Z.of_nat (base.size (clients_of b o)) - 1) 0);
        destruct (Nat.eqb_spec (base.size (clients_of b o) - 1) 0); try lia.
      * by rewrite lookup_delete_eq.
      * rewrite lookup_insert_eq. f_equal. lia.
    + destruct (_ <=? 0); [rewrite lookup_delete_ne by done|rewrite lookup_insert_ne by done]; apply (cap_owned _ Hc).
  - intros o'. rewrite E. pose proof (cap_each _ Hc o'). case_decide; [subst; lia|done].
Qed.

Lemma imap_owner (f : nat → stream → stream) (m : gmap nat stream) i :
  (∀ j s, owner (f j s) = owner s) →
  owner <$> map_imap (λ j s, Some (f j s)) m !! i = owner <$> m !! i.
Proof. intros Hf. rewrite map_lookup_imap. destruct (m !! i); simpl; [by rewrite Hf|done]. Qed.

Lemma perform_cap epoch a b b' :
  bcast_ok b → cap_ok b → perform epoch a b = Some b' → cap_ok b'.
Proof.
  intros Hok Hc. destruct a; cbn [perform];
    try (intros H; eapply cap_on_stream; [done..|]; intros s s' Hs; simpl in Hs;
         destruct (at_ s); try done).
  - destruct (notifying b); try done. intros [_ <-]%guarded. unfold notify.
    destruct (notify_entry n); [destruct (Append _ _ _)|]; by eapply cap_same.
  - destruct (notifying b); try done. intros [_ <-]%guarded. unfold recover.
    destruct (Append _ _ _). by eapply cap_same.
  - destruct (notifying b); try done. intros [= <-]. unfold number_sync.
    destruct (is_sync e); by eapply cap_same.
  - destruct (notifying b); try done. intros [= <-]. unfold enqueue.
    destruct (_ <? _)%nat; by eapply cap_same.
  - destruct (notifying b); try done. intros [= <-]. eapply cap_same; [done..|]. intros i.
    unfold owner_of, mark_lagged. simpl. apply imap_owner. intros j s. by destruct (_ && _).
  - destruct (fan b); try done. destruct (inbox b); [done|]. intros [= <-]. by eapply cap_same.
  - destruct (fan b); try done. intros [_ <-]%guarded. by eapply cap_same.
  - destruct (fan b) as [| |e [|[i r] rest]|]; try done; [intros [= <-]; by eapply cap_same|].
    destruct (streams b !! i) as [s|] eqn:Es; [|done]. simpl. intros [= <-].
    eapply cap_same; [done..|]. intros j. unfold owner_of. simpl.
    apply (owner_set_stream b i s); [done|]. unfold send. by destruct (_ <? _)%nat.
  - destruct (fan b); try done. intros [_ <-]%guarded. by eapply cap_same.
  - destruct (streams b !! i) eqn:Es; [done|]. destruct (admission o b) eqn:Ea; [done|].
    intros [= <-]. by apply cap_open.
  - injection Hs as <-. unfold ask. by destruct (needsSync _ _ _) as [[] ?].
  - injection Hs as <-. unfold replay. destruct (Since _ _) as [l []]; simpl; [|done]. by destruct (last _).
  - by injection Hs as <-.
  - by injection Hs as <-.
  - destruct (events s) as [|e l]; [done|]. injection Hs as <-. unfold receive.
    destruct (_ && _ && _ && _); [done|]. by destruct (_ && (_ <=? _)).
  - injection Hs as <-. unfold tick. destruct (lagged s); [done|]. by destruct (batch s).
  - by injection Hs as <-.
  - by injection Hs as <-.
  - by injection Hs as <-.
  - by injection Hs as <-.
  - by injection Hs as <-.
  - injection Hs as <-. unfold finish. destruct (batch s); [done|]. by destruct (lagged s).
  - destruct (streams b !! i) as [s|] eqn:Es; [|done]. simpl. destruct (at_ s) eqn:Ea; try done.
    intros [= <-]. by apply cap_unregister.
  - intros [= <-]. unfold Close. destruct (closed b); [done|]. eapply cap_same; [done..|]. intros i.
    unfold owner_of. simpl. apply imap_owner. intros j s. by destruct (bool_decide _).
Qed.

Lemma reachable_cap epoch b : reachable epoch b → cap_ok b.
Proof.
  induction 1 as [all h Hr|b a b' Hb IH Hp]; [|eapply perform_cap; [by eapply reachable_bcast|done..]].
  assert (∀ o, clients_of (NewBroadcaster h all) o = ∅) as E
    by (intros o; apply leibniz_equiv; unfold clients_of; set_solver).
  constructor; [|intros o; rewrite E..]; [|by cbv zeta; rewrite size_empty|by rewrite size_empty].
  change (clients (NewBroadcaster h all)) with (∅ : gset nat). rewrite size_empty. unfold MaxClients. lia.
Qed.

Lemma performs_reachable epoch l b b' :
  reachable epoch b → performs epoch l b = Some b' → reachable epoch b'.
Proof.
  revert b. induction l as [|a l IH]; intros b Hb; cbn [performs]; [by intros [= <-]|].
  destruct (perform epoch a b) as [b1|] eqn:E; [|done]. simpl. apply IH. by eapply reachable_step.
Qed.

(** ** A frame's id *)

Lemma frame_mark_sync f n :
  0 ≤ n → (∀ e, e ∈ f → 0 ≤ sync e ≤ n) → 0 ≤ (frame_mark f).2 ≤ n.
Proof.
  intros Hn. induction f as [|e f IH] using rev_ind; intros Hf; [done|].
  rewrite frame_mark_snoc. pose proof (Hf e ltac:(set_solver)) as He.
  assert (0 ≤ (frame_mark f).2 ≤ n) as H by (apply IH; set_solver).
  destruct (frame_mark f) as [m y]. simpl in *.
  destruct (m <? HistoryID (fe_Event e)); simpl; destruct (_ && _); lia.
Qed.

Lemma cursor_frame_id epoch f :
  (∀ e, e ∈ f → 0 ≤ HistoryID (fe_Event e) < 2 ^ 64 ∧ 0 ≤ sync e < 2 ^ 64) →
  cursor epoch (frame_id epoch f) = Some (frame_mark f).
Proof.
  intros Hf. pose proof (frame_mark_sync f (2 ^ 64 - 1) ltac:(lia)) as Hs.
  assert (0 ≤ (frame_mark f).2 ≤ 2 ^ 64 - 1) as Hsync by (apply Hs; intros e He; destruct (Hf e He); lia).
  assert (0 ≤ (frame_mark f).1 < 2 ^ 64) as Hm.
  { destruct (frame_mark_max f) as (Hp & _ & _). split; [done|].
    pose proof (frame_mark_le f (2 ^ 64 - 1)) as Hle. enough ((frame_mark f).1 ≤ 2 ^ 64 - 1) by lia.
    apply Hle; [lia|]. intros e He. destruct (Hf e He). simpl. lia. }
  unfold frame_id, cursor. destruct (frame_mark f) as [m y]. cbn [fst snd] in *. cbv zeta.
  destruct (Z.ltb_spec 0 y).
  - rewrite <- (str_app_assoc epoch), (str_app_assoc (epoch +:+ "-")), CutPrefix_app.
    cbn [String.append].
    rewrite Cut_byte by (apply IndexByte_FormatUint; [lia|done]).
    rewrite !ParseUint_FormatUint by lia. by rewrite (proj2 (Z.eqb_neq y 0)) by lia.
  - rewrite <- (str_app_assoc epoch), CutPrefix_app.
    rewrite Cut_none by (apply IndexByte_FormatUint; [lia|done]).
    rewrite ParseUint_FormatUint by lia. f_equal. f_equal. lia.
Qed.

(** * Catching up *)

(** A turn of stream [i]'s handler other than one that takes an event. *)
Definition turn_of (i : nat) (a : action) : bool :=
  match a with
  | Ask j | Replay j _ | Position j | Number_ j _ | Tick j _ | Broken j | Finish j | Unregister j => bool_decide (j = i)
  | _ => false
  end.

(** What no other goroutine changes of a stream, and what only grows. *)
Definition keeps (s s' : stream) : Prop :=
  at_ s' = at_ s ∧ wire s' = wire s ∧ (lagged s = true → lagged s' = true).

Lemma undisturbed s : keeps s s.
Proof. done. Qed.

Lemma keeps_set j s t i b u :
  streams b !! i = Some s → streams b !! j = Some t → (j = i → keeps t u) →
  ∃ s', streams (set_stream j u b) !! i = Some s' ∧ keeps s s'.
Proof.
  intros Hs Ht Hu. simpl. destruct (decide (j = i)) as [->|Hne].
  - rewrite lookup_insert_eq. exists u. split; [done|]. assert (t = s) as <- by congruence. by apply Hu.
  - rewrite lookup_insert_ne by done. eauto using undisturbed.
Qed.

Lemma on_stream_keeps i j f b b' s :
  on_stream j f b = Some b' → streams b !! i = Some s →
  (j = i → ∀ s', f s = Some s' → keeps s s') → ∃ s', streams b' !! i = Some s' ∧ keeps s s'.
Proof.
  unfold on_stream. destruct (streams b !! j) as [t|] eqn:Ht; [|done]. simpl. destruct (f t) as [u|] eqn:Eu; [|done].
  intros [= <-] Hs Hf. apply (keeps_set j s t i b u Hs Ht). intros ->. assert (t = s) as -> by congruence. by apply Hf.
Qed.

Lemma send_keeps e s : keeps s (send e s).
Proof. unfold send, keeps. by destruct (_ <? _)%nat. Qed.

Lemma receive_keeps e l s : keeps s (receive e (set_events l s)).
Proof. unfold receive, keeps. destruct (_ && _ && _ && _); [done|]. by destruct (_ && (_ <=? _)). Qed.

Lemma imap_keeps (f : nat → stream → stream) (m : gmap nat stream) i s :
  (∀ j t, keeps t (f j t)) → m !! i = Some s →
  ∃ s', map_imap (λ j t, Some (f j t)) m !! i = Some s' ∧ keeps s s'.
Proof. intros Hf Hs. rewrite map_lookup_imap, Hs. simpl. eauto. Qed.

(** Whatever another goroutine does leaves a stream where it is. *)
Lemma perform_keeps epoch a b b' i s :
  perform epoch a b = Some b' → turn_of i a = false → streams b !! i = Some s →
  ∃ s', streams b' !! i = Some s' ∧ keeps s s'.
Proof.
  intros H Ht Hs. destruct a; cbn [perform] in H; cbn [turn_of] in Ht;
    try (apply bool_decide_eq_false in Ht;
         first [eapply (on_stream_keeps i _ _ _ _ s H Hs); by intros -> | destruct (streams b !! i0) as [t|] eqn:Et; [|done]]).
  - destruct (notifying b); try done. apply guarded in H as [_ <-]. unfold notify.
    destruct (notify_entry n); [destruct (Append _ _ _)|]; eauto using undisturbed.
  - destruct (notifying b); try done. apply guarded in H as [_ <-]. unfold recover. destruct (Append _ _ _).
    eauto using undisturbed.
  - destruct (notifying b); try done. injection H as <-. unfold number_sync. destruct (is_sync e); eauto using undisturbed.
  - destruct (notifying b); try done. injection H as <-. unfold enqueue. destruct (_ <? _)%nat; eauto using undisturbed.
  - destruct (notifying b); try done. injection H as <-. unfold mark_lagged. simpl. apply imap_keeps; [|done].
    intros j t. by destruct (_ && _).
  - destruct (fan b); try done. destruct (inbox b); [done|]. injection H as <-. eauto using undisturbed.
  - destruct (fan b); try done. apply guarded in H as [_ <-]. eauto using undisturbed.
  - destruct (fan b) as [| |e [|[j r] rest]|]; try done; [injection H as <-; eauto using undisturbed|].
    destruct (streams b !! j) as [t|] eqn:Et; [|done]. injection H as <-.
    apply (keeps_set j s t i b _ Hs Et). intros _. apply send_keeps.
  - destruct (fan b); try done. apply guarded in H as [_ <-]. eauto using undisturbed.
  - destruct (streams b !! i0) eqn:Ei; [done|]. destruct (admission o b); [done|]. injection H as <-.
    unfold open_stream. simpl. rewrite lookup_insert_ne by congruence. eauto using undisturbed.
  - eapply (on_stream_keeps i _ _ _ _ s H Hs). intros _ s' Hs'. destruct (at_ s); try done.
    destruct (events s) as [|e l]; [done|]. injection Hs' as <-. apply receive_keeps.
  - simpl in H. destruct (at_ t); try done. injection H as <-. unfold unregister. simpl.
    rewrite lookup_insert_ne by done. eauto using undisturbed.
  - injection H as <-. unfold Close. destruct (closed b); [eauto using undisturbed|]. simpl. apply imap_keeps; [|done].
    intros j t. by destruct (bool_decide _).
Qed.

Lemma perform_count epoch a b b' :
  bcast_ok b → perform epoch a b = Some b' → count (history b) ≤ count (history b').
Proof.
  intros Hok H. destruct a; cbn [perform] in H;
    try (unfold on_stream in H; destruct (streams b !! i) as [s|]; [simpl in H|done];
         repeat case_match; try done; by injection H as <-).
  - destruct (notifying b); try done. apply guarded in H as [H <-].
    apply andb_true_iff in H as [_ Hb%Z.ltb_lt]. unfold notify. destruct (notify_entry n) as [entry|]; [|done].
    destruct (Append_ok _ now entry _ (bo_history _ Hok) Hb) as (_ & _ & Hc & _).
    destruct (Append _ _ _). simpl in *. lia.
  - destruct (notifying b); try done. apply guarded in H as [H <-].
    apply andb_true_iff in H as [_ Hb%Z.ltb_lt]. unfold recover.
    destruct (Append_ok _ now entry _ (bo_history _ Hok) Hb) as (_ & _ & Hc & _).
    destruct (Append _ _ _). simpl in *. lia.
  - destruct (notifying b); try done. injection H as <-. unfold number_sync. by destruct (is_sync e).
  - destruct (notifying b); try done. injection H as <-. unfold enqueue. by destruct (_ <? _)%nat.
  - destruct (notifying b); try done. by injection H as <-.
  - destruct (fan b); try done. destruct (inbox b); [done|]. by injection H as <-.
  - destruct (fan b); try done. by apply guarded in H as [_ <-].
  - destruct (fan b) as [| |e [|[j r] rest]|]; try done; [by injection H as <-|].
    destruct (streams b !! j) as [t|]; [|done]. by injection H as <-.
  - destruct (fan b); try done. by apply guarded in H as [_ <-].
  - destruct (streams b !! i); [done|]. destruct (admission o b); [done|]. by injection H as <-.
  - injection H as <-. unfold Close. by destruct (closed b).
Qed.

(** The turns in which a marked stream catches up. *)
Definition catch_up (i : nat) : list action := [Tick i true; Position i; Number_ i true].

(** How far it is after so many of them, when the newest position was [n] before. *)
Definition caught (n : Z) (turns : nat) (s : stream) : Prop :=
  match turns with
  | 0%nat => at_ s = Live ∧ lagged s = true
  | 1%nat => at_ s = Positioning
  | 2%nat => ∃ p, at_ s = Numbering p ∧ n ≤ p
  | _ => at_ s = Live ∧ ∀ x, ID x ≤ n → covered (wire s) x
  end.

Lemma caught_keeps n k s s' : caught n k s → keeps s s' → caught n k s'.
Proof. intros Hc (Ha & Hw & Hl). destruct k as [|[|[|k]]]; cbn in *; rewrite ?Ha, ?Hw; naive_solver. Qed.

(** Its next turn can always be taken, and takes it a step further. *)
Lemma caught_turn epoch n k b i s a :
  bcast_ok b → n ≤ count (history b) → streams b !! i = Some s → caught n k s → catch_up i !! k = Some a →
  ∃ b' s', perform epoch a b = Some b' ∧ streams b' !! i = Some s' ∧ caught n (S k) s'.
Proof.
  intros Hok Hn Hs Hc Ha. destruct k as [|[|[|k]]]; cbn in Hc, Ha; [| | |done]; injection Ha as <-; cbn [perform];
    unfold on_stream; rewrite Hs; simpl.
  - destruct Hc as [-> Hl]. eexists _, _. split; [done|]. simpl. rewrite lookup_insert_eq. split; [done|].
    unfold tick. by rewrite Hl.
  - rewrite Hc. eexists _, _. split; [done|]. simpl. rewrite lookup_insert_eq. split; [done|]. simpl. eauto.
  - destruct Hc as (p & -> & Hp). eexists _, _. split; [done|]. simpl. rewrite lookup_insert_eq. split; [done|].
    split; [done|]. intros x Hx. simpl. apply (covered_last _ _ (syncFrame p (lastSync b))); [set_solver|].
    unfold covers, key, syncFrame. simpl. lia.
Qed.

Lemma performs_snoc epoch l a b :
  performs epoch (l ++ [a]) b = b' ← performs epoch l b; perform epoch a b'.
Proof.
  revert b. induction l as [|c l IH]; intros b; simpl; [by destruct (perform epoch a b)|].
  destruct (perform epoch c b); simpl; [apply IH|done].
Qed.

(** In any run a marked stream is as far as the turns it has taken. *)
Lemma run_caught epoch l b b' i s k :
  reachable epoch b → streams b !! i = Some s → caught (count (history b)) 0 s →
  performs epoch l b = Some b' → filter (λ a, turn_of i a = true) l = take k (catch_up i) → (k ≤ 3)%nat →
  ∃ s', streams b' !! i = Some s' ∧ caught (count (history b)) k s' ∧ count (history b) ≤ count (history b').
Proof.
  intros Hr Hs Hc. revert b' k. induction l as [|a l IH] using rev_ind; intros b' k.
  - cbn. intros [= <-] Hk _. exists s. split; [done|]. split; [|done]. by destruct k.
  - rewrite performs_snoc, filter_app. destruct (performs epoch l b) as [b1|] eqn:El; [|done]. cbn [mbind option_bind].
    intros Hp Hf Hk. pose proof (reachable_bcast _ _ (performs_reachable _ _ _ _ Hr El)) as Hok.
    pose proof (perform_count _ _ _ _ Hok Hp) as Hmono. rewrite filter_cons, filter_nil in Hf.
    case_decide as Ht.
    + destruct k as [|k]; [by destruct (filter _ l)|].
      assert (∃ c, catch_up i !! k = Some c) as [c Ec] by (apply lookup_lt_is_Some; cbn; lia).
      rewrite (take_S_r _ _ _ Ec) in Hf. apply app_inj_tail in Hf as [Hf ->].
      destruct (IH b1 k eq_refl Hf) as (s1 & Hs1 & Hc1 & Hn1); [lia|].
      destruct (caught_turn epoch _ k b1 i s1 c Hok Hn1 Hs1 Hc1 Ec) as (b2 & s2 & Hp2 & Hs2 & Hc2).
      assert (b2 = b') as -> by congruence. exists s2. split_and!; [done..|lia].
    + rewrite app_nil_r in Hf. destruct (IH b1 k eq_refl Hf Hk) as (s1 & Hs1 & Hc1 & Hn1).
      apply not_true_is_false in Ht. destruct (perform_keeps _ _ _ _ _ _ Hp Ht Hs1) as (s2 & Hs2 & Hkeep).
      exists s2. split_and!; [done|by eapply caught_keeps|lia].
Qed.

(** * Properties *)

(** C10: No entry is silently skipped: in every interleaving of the notifier, the
    fan-out, the streams and shutdown, with full buffers and broken writes, a
    frame a stream hands its connection never has an id past a history entry its
    filter admitted since the position it resumed from, unless that frame or an
    earlier one carried the entry or a resync recorded after it. So a reader
    that reconnects with its last id has missed no entry it was not told to
    refetch. It holds of every stream that replays nothing, whatever its filter,
    and of the list streams, whose filters judge an event as its replay. It is of
    entries: a resync itself, which is not recorded, can be missed
    ([resync_skipped]). *)
Theorem no_event_skipped epoch b i s fs f rest x
    (Hr : reachable epoch b) (Hs : streams b !! i = Some s) (Hf : fits (match_ s) (replayType s))
    (Hw : wire s = (fs ++ f :: rest)%list) (Hx : x ∈ log b) (Ho : owed (live b) s x)
    (Hid : resumed s < ID x ≤ (frame_mark f).1) :
  covered (fs ++ [f]) x.
Proof.
  pose proof (bo_streams _ (reachable_bcast _ _ Hr) i s Hs Hf) as Hst.
  destruct (so_wire _ _ _ _ _ Hst fs f rest Hw) as [_ Hc]. by apply Hc.
Qed.

(** C40: A stream catches up. One that is marked as having missed something
    resyncs its reader in three turns of its handler (a tick, and the reading of
    the position and of the newest sync), in every run in which these are the
    turns it takes and its writes go through, whatever the other goroutines do
    between them: each turn can be taken when it comes to it, and after the
    third a frame covering every entry recorded at the start has been written.
    One that is live and not marked, with nothing left on its way to it, has
    given its reader every entry its filter admitted since it resumed, or a
    resync recorded after it. As in C10, this is of entries, not of resyncs. *)
Theorem stream_catches_up epoch b i s
    (Hr : reachable epoch b) (Hs : streams b !! i = Some s) (Hl : at_ s = Live) :
  (lagged s = true → ∀ l b' k, performs epoch l b = Some b' →
    filter (λ a, turn_of i a = true) l = take k (catch_up i) →
    (∀ a, catch_up i !! k = Some a → is_Some (perform epoch a b')) ∧
    ((3 ≤ k)%nat → ∃ s', streams b' !! i = Some s' ∧ at_ s' = Live ∧ ∀ x, x ∈ log b → covered (wire s') x)) ∧
  (fits (match_ s) (replayType s) → lagged s = false → lane s (upstream b i) = [] →
    ∀ x, x ∈ log b → owed (live b) s x → resumed s < ID x → covered (wire s) x).
Proof.
  pose proof (reachable_bcast _ _ Hr) as Hok. split.
  - intros Hlag l b' k Hp Hk. assert (reachable epoch b') as Hr' by (by eapply performs_reachable).
    assert (∃ s', streams b' !! i = Some s' ∧ caught (count (history b)) (k `min` 3) s' ∧
      count (history b) ≤ count (history b')) as (s' & Hs' & Hc & Hn).
    { eapply run_caught; try done; [|lia]. rewrite Hk. destruct (decide (k ≤ 3)%nat); [by rewrite Nat.min_l|].
      rewrite Nat.min_r by lia. by rewrite !take_ge by (cbn; lia). }
    split.
    + intros a Ha. pose proof (lookup_lt_Some _ _ _ Ha) as Hlt. cbn in Hlt. rewrite Nat.min_l in Hc by lia.
      destruct (caught_turn epoch _ k b' i s' a (reachable_bcast _ _ Hr') Hn Hs' Hc Ha) as (b2 & _ & -> & _). by eexists.
    + intros Hk3. rewrite Nat.min_r in Hc by lia. destruct Hc as [Ha Hc]. exists s'. split_and!; [done..|].
      intros x Hx. apply Hc, (bo_pos b x Hok Hx).
  - intros Hf Hlag Hlane x Hx Ho Hlt. pose proof (bo_streams _ Hok i s Hs Hf) as Hst.
    pose proof (so_promise _ _ _ _ _ Hst) as Hp. unfold promised in Hp. rewrite Hl, Hlag in Hp.
    destruct Hp as [?|Hp]; [done|]. destruct (Hp x Hx Ho Hlt) as [?|Hin]; [done|].
    rewrite Hlane in Hin. by apply not_elem_of_nil in Hin.
Qed.

(** An id a stream writes is read back as the position and the sync it was
    written for, so a stream opened with it resumes there (or, when it is a
    detail stream, is told to refetch); an id of another process, whose epoch is
    another eight characters, is refused. *)
Theorem cursor_roundtrip epoch f typ
    (Hf : ∀ e, e ∈ f → 0 ≤ HistoryID (fe_Event e) < 2 ^ 64 ∧ 0 ≤ sync e < 2 ^ 64) :
  cursor epoch (frame_id epoch f) = Some (frame_mark f) ∧
  replay_start epoch (frame_id epoch f) typ =
    (if is_empty typ then Positioning else Asking (frame_mark f).1 (frame_mark f).2) ∧
  (∀ e, e ∈ f → HistoryID (fe_Event e) ≤ (frame_mark f).1) ∧
  (∀ n, 0 ≤ n < 2 ^ 64 → cursor epoch (EventID epoch n) = Some (n, 0)) ∧
  ∀ other, String.length other = String.length epoch → other ≠ epoch →
    cursor other (frame_id epoch f) = None.
Proof.
  pose proof (cursor_frame_id epoch f Hf) as Hc. split_and!.
  - done.
  - unfold replay_start. rewrite Hc. destruct (is_empty (frame_id epoch f)) eqn:E.
    + apply is_empty_spec in E. rewrite E in Hc. unfold cursor, CutPrefix in Hc.
      by destruct epoch.
    + by destruct (is_empty typ), (frame_mark f).
  - apply frame_mark_max.
  - intros n Hn. unfold cursor, EventID. rewrite <- str_app_assoc, CutPrefix_app.
    rewrite Cut_none by (apply IndexByte_FormatUint; [lia|done]). by rewrite ParseUint_FormatUint.
  - intros other Hl Hne. unfold cursor, frame_id. destruct (frame_mark f) as [m y].
    assert (∀ t, CutPrefix (epoch +:+ "-" +:+ t) (other +:+ "-") = None) as E.
    { intros t. rewrite <- str_app_assoc. apply CutPrefix_other; [by rewrite !str_length_app, Hl|].
      intros E. apply str_app_inj in E as [E _]; [by subst|done]. }
    destruct (0 <? y); [rewrite !str_app_assoc|]; by rewrite E.
Qed.

(** The connection caps hold in every reachable state: at most 256 streams
    are registered, at most 64 of them for one owner, and the count kept per
    owner is exactly the number of its registered streams, with no entry left
    behind for an owner that has none. *)
Theorem sse_capacity epoch b o (Hr : reachable epoch b) :
  (base.size (clients b) ≤ MaxClients)%nat ∧
  Z.of_nat (base.size (clients_of b o)) ≤ MaxClientsPerOwner ∧
  (owners b !! o = None ↔ clients_of b o = ∅) ∧
  ∀ n, owners b !! o = Some n → n = Z.of_nat (base.size (clients_of b o)).
Proof.
  pose proof (reachable_cap _ _ Hr) as Hc. pose proof (cap_owned _ Hc o) as Ho. cbv zeta in Ho.
  split_and!; [apply Hc|apply Hc|..]; rewrite Ho.
  - rewrite <- leibniz_equiv_iff, <- size_empty_iff. by destruct (base.size _).
  - intros n. destruct (base.size _); [done|]. by intros [= <-].
Qed.

(** * Witnesses *)

Definition demo_history : History := NewHistory 8 "demo".
Definition demo_change (id : string) : notification :=
  Change (mkEvent EventService "update" id id PNone 0 PNone "" "" time_zero time_zero) None "" 0 "" "".

Definition demo_filter : filter_fn :=
  Some (aclMatchWrap (Some (TypeMatcher EventService)) (λ r, bool_decide (r = "service:web"))
    (λ _, false)).

(** Recording a notification, and fanning it out to the streams [order]. *)
Definition demo_record (n : notification) (now : Z) : list action :=
  [Notify n now; Number_sync; Enqueue].
Definition demo_deliver (order : list nat) : list action := 
  (Take :: Choose order :: replicate (S (length order)) Send)%list.

(** A stream of services hears of one that changes. *)
Definition demo_script : list action :=
  (Open 1 "alice" EventService "" demo_filter :: demo_record (demo_change "web") 5 ++
   demo_deliver [1%nat] ++ [Receive 1; Tick 1 true])%list.

Definition demo_start : Broadcaster := NewBroadcaster demo_history [].
Definition demo_end : Broadcaster := default demo_start (performs "e" demo_script demo_start).

Lemma stream_demo_reachable l :
  is_Some (performs "e" l demo_start) → reachable "e" (default demo_start (performs "e" l demo_start)).
Proof.
  intros [b Hb]. rewrite Hb. simpl. eapply performs_reachable; [|exact Hb].
  apply reachable_new, (recorded_new 8 "demo"). lia.
Qed.

Definition demo_entry : HistoryEntry := stamp 5 1 (default zero_entry (notify_entry (demo_change "web"))).
Definition demo_frame : list frameEvent := [mkFrameEvent (notify_event (demo_change "web") 1) 0].

Definition demo_stream : stream :=
  mkStream [] demo_filter false "alice" false EventService 0 0 [] Live [demo_frame] 0.

(** A detail stream, of the service's own page. *)
Definition detail_filter : filter_fn := Some (aclMatchWrap (Some (ResourceMatcher EventService "web")) (λ _, true) (λ _, true)).
Definition detail_script : list action :=
  (Open 1 "alice" "" "" detail_filter :: demo_record (demo_change "web") 5 ++
   demo_deliver [1%nat] ++ [Receive 1; Tick 1 true])%list.
Definition detail_end : Broadcaster := default demo_start (performs "e" detail_script demo_start).
Definition detail_stream : stream :=
  mkStream [] detail_filter false "alice" false "" 0 0 [] Live [demo_frame] 0.

Lemma no_event_skipped_witness :
  streams demo_end !! 1%nat = Some demo_stream ∧ log demo_end = [demo_entry] ∧
  covered [demo_frame] demo_entry ∧
  streams detail_end !! 1%nat = Some detail_stream ∧ covered (wire detail_stream) demo_entry.
Proof.
  split; [vm_compute; reflexivity|split; [vm_compute; reflexivity|]].
  split; [|split; [vm_compute; reflexivity|]].
  - apply (no_event_skipped "e" demo_end 1 demo_stream [] demo_frame []).
    + apply stream_demo_reachable. vm_compute. eexists. reflexivity.
    + vm_compute. reflexivity.
    + apply fits_type.
    + reflexivity.
    + change (log demo_end) with [demo_entry]. left.
    + split; [|split]; vm_compute; reflexivity.
    + vm_compute. split; [reflexivity|discriminate].
  - apply (no_event_skipped "e" detail_end 1 detail_stream [] demo_frame []).
    + apply stream_demo_reachable. vm_compute. eexists. reflexivity.
    + vm_compute. reflexivity.
    + apply fits_none.
    + reflexivity.
    + change (log detail_end) with [demo_entry]. left.
    + split; [|split]; vm_compute; reflexivity.
    + vm_compute. split; [reflexivity|discriminate].
Defined.

(** A channel holds 64 events: a client that takes none is marked at the next,
    and its next frame is a resync. *)
Definition lag_script : list action :=
  (Open 1 "alice" EventService "" demo_filter ::
   concat (replicate 65 (demo_record (demo_change "web") 5 ++ demo_deliver [1%nat])))%list.
Definition lag_end : Broadcaster := default demo_start (performs "e" lag_script demo_start).

(** It catches up though a change is recorded and delivered meanwhile. *)
Definition catch_script : list action :=
  (demo_record (demo_change "web") 6 ++ [Receive 1; Tick 1 true] ++ demo_deliver [1%nat] ++ [Position 1] ++
   demo_record (demo_change "web") 7 ++ [Number_ 1 true])%list.
Definition catch_end : Broadcaster := default demo_start (performs "e" catch_script lag_end).

Lemma stream_catches_up_witness :
  (∃ s, streams lag_end !! 1%nat = Some s ∧ lagged s = true ∧ length (log lag_end) = 65%nat ∧ ∃ s',
    streams catch_end !! 1%nat = Some s' ∧ ∀ x, x ∈ log lag_end → covered (wire s') x) ∧
  covered [demo_frame] demo_entry.
Proof.
  split.
  - destruct (streams lag_end !! 1%nat) as [s|] eqn:Es; [|vm_compute in Es; discriminate].
    exists s. split; [reflexivity|]. assert (lagged s = true ∧ at_ s = Live) as [El Ea].
    { assert ((λ s, (lagged s, at_ s)) <$> streams lag_end !! 1%nat = Some (true, Live)) as E by (vm_compute; reflexivity).
      rewrite Es in E. injection E as E1 E2. split; assumption. }
    split; [exact El|]. split; [vm_compute; reflexivity|].
    destruct (stream_catches_up "e" lag_end 1 s) as [Hlag _]; [|exact Es|exact Ea|].
    + apply stream_demo_reachable. vm_compute. eexists. reflexivity.
    + destruct (Hlag El catch_script catch_end 3%nat) as [_ H]; [vm_compute; reflexivity..|].
      destruct H as (s' & Hs & _ & Hc); [lia|]. eauto.
  - destruct (stream_catches_up "e" demo_end 1 demo_stream) as [_ Hc].
    + apply stream_demo_reachable. vm_compute. eexists. reflexivity.
    + vm_compute. reflexivity.
    + reflexivity.
    + apply Hc; [apply fits_type|reflexivity|vm_compute; reflexivity|..].
      * change (log demo_end) with [demo_entry]. left.
      * split; [|split]; vm_compute; reflexivity.
      * vm_compute. reflexivity.
Defined.

Lemma cursor_roundtrip_witness :
  frame_id "0a1b2c3d" [mkFrameEvent (syncEvent 12) 3] = "0a1b2c3d-12.3" ∧
  cursor "0a1b2c3d" "0a1b2c3d-12.3" = Some (12, 3) ∧
  cursor "deadbeef" "0a1b2c3d-12.3" = None.
Proof.
  assert (∀ e, e ∈ [mkFrameEvent (syncEvent 12) 3] →
    0 ≤ HistoryID (fe_Event e) < 2 ^ 64 ∧ 0 ≤ sync e < 2 ^ 64) as Hf.
  { intros e ->%list_elem_of_singleton. simpl. lia. }
  destruct (cursor_roundtrip "0a1b2c3d" [mkFrameEvent (syncEvent 12) 3] EventService Hf)
    as (Hc & _ & _ & _ & Ho).
  split; [vm_compute; reflexivity|]. split; [exact Hc|]. apply (Ho "deadbeef"); [reflexivity|discriminate].
Defined.

Lemma sse_capacity_witness :
  base.size (clients demo_end) = 1%nat ∧ Z.of_nat (base.size (clients_of demo_end "alice")) ≤ 64.
Proof.
  split; [vm_compute; reflexivity|]. apply (sse_capacity "e" demo_end "alice").
  apply stream_demo_reachable. vm_compute. eexists. reflexivity.
Defined.

(** * A resync that falls between two reads *)

(** A client resumes at the start of the history. Between its question whether
    a resync landed and its read of the history, one does, and a change after
    it. The change is replayed and its id, past the resync's position, is
    written. The connection then breaks and the client resumes from that id. *)
Definition race_script : list action :=
  (demo_record (demo_change "web") 5 ++ demo_deliver [] ++
   [Open 1 "alice" ReplayAll "e-0" None; Ask 1] ++
   demo_record Resync 6 ++ demo_record (demo_change "db") 7 ++
   [Replay 1 true; Broken 1; Unregister 1;
    Open 2 "alice" ReplayAll "e-2" None; Ask 2; Replay 2 true] ++
   demo_deliver [2%nat] ++ demo_deliver [2%nat] ++ [Receive 2; Receive 2; Tick 2 true])%list.
Definition race_end : Broadcaster := default demo_start (performs "e" race_script demo_start).

(** The resync was recorded while the first stream was served, yet neither
    stream wrote a sync, nothing is on its way to the second, and it is not
    marked: its reader is never told to refetch. *)
Theorem resync_skipped :
  reachable "e" race_end ∧ lastSync race_end = Some (mkSyncMark 1 1) ∧
  (∃ s1, streams race_end !! 1%nat = Some s1 ∧ length (wire s1) = 1%nat ∧
    frame_id "e" (concat (wire s1)) = "e-2" ∧
    Forall (λ e, is_sync (fe_Event e) = false) (concat (wire s1))) ∧
  ∃ s2, streams race_end !! 2%nat = Some s2 ∧ at_ s2 = Live ∧ lagged s2 = false ∧ wire s2 = [] ∧
    lane s2 (upstream race_end 2) = [].
Proof.
  split; [apply stream_demo_reachable; vm_compute; eexists; reflexivity|].
  split; [vm_compute; reflexivity|].
  split; (eexists; split; [vm_compute; reflexivity|]); split_and!; vm_compute; try reflexivity.
  repeat constructor.
Qed.
