(* ===== verification/Attributions.v ===== *)
(** Who made a change: internal/cache/attribution.go and docker/attribution.go.

    A write made through the program registers the event it is about to cause;
    the event, when the watcher brings it, is credited to the writer. The
    machine below runs any number of writes, each in the steps its writer of
    docker/client.go takes (register, ask the engine, withdraw when it failed),
    beside an engine that other clients write to as well and a watcher that
    may be told of a record late, or of several changes at once. The engine is
    what Swarm promises: a record's version only grows, and an update is taken
    at the version it names or refused. Identities and the clock are inputs.
    Reading the actor from a context is left out. *)
From S2P Require Import Prelude History CacheState.
#[local] Open Scope string_scope.
#[local] Open Scope Z_scope.
#[local] Open Scope list_scope.

(** * The registry *)

Record Expectation := mkExpectation {
  x_Type : EventType;
  x_Key : string;
  x_Action : string;
  x_After : Z;
}.

Definition attributionTTL : Z := 60 * 1000000000.
Definition maxAttributions : nat := 1024.
Definition actionCreate : string := "create".
Definition actionRemove : string := "remove".
Definition actionRefChanged : string := "ref_changed".

Record pendingAttribution := mkPending {
  p_Expectation : Expectation;
  p_actor : Actor;
  p_expires : Z;
  p_seq : Z;
}.

Record Attributions := mkAttributions { pending : list pendingAttribution; seq : Z }.

Definition newAttributions : Attributions := mkAttributions [] 0.

Definition DisplayName (a : Actor) : string :=
  if bool_decide (Actor_Name a = "") then Actor_Subject a else Actor_Name a.

Fixpoint prune (now : Z) (l : list pendingAttribution) : list pendingAttribution :=
  match l with
  | p :: rest => if negb (time_before now (p_expires p)) then prune now rest else l
  | [] => []
  end.

(** The sequence number is what the returned function withdraws by. *)
Definition Expect (now : Z) (x : Expectation) (actor : Actor) (a : Attributions) : Attributions * Z :=
  let l := prune now (pending a) in
  let l := if (maxAttributions <=? length l)%nat then drop 1 l else l in
  let n := wrap 64 (seq a + 1) in
  (mkAttributions (l ++ [mkPending x actor (now + attributionTTL) n]) n, n).

Fixpoint without (n : Z) (l : list pendingAttribution) : list pendingAttribution :=
  match l with
  | p :: rest => if p_seq p =? n then rest else p :: without n rest
  | [] => []
  end.

Definition withdraw (n : Z) (a : Attributions) : Attributions := mkAttributions (without n (pending a)) (seq a).

Definition Len (now : Z) (a : Attributions) : Attributions * nat :=
  let l := prune now (pending a) in (mkAttributions l (seq a), length l).

Definition resourceVersion (r : Resource) : option Z :=
  match r with
  | RService s => Some (s_Version s)
  | RNode n => Some (n_Version n)
  | RTask t => Some (t_Version t)
  | RConfig c => Some (c_Version c)
  | RSecret x => Some (x_Version x)
  | RNetwork _ | RVolume _ | RNone => None
  end.

Definition matches (p : pendingAttribution) (e : Event) (version : option Z) : bool :=
  let x := p_Expectation p in
  if bool_decide (x_Action x = actionCreate) then
    bool_decide (Action e = actionCreate) && bool_decide (Name e = x_Key x)
  else if bool_decide (x_Action x = actionRemove) then
    bool_decide (Action e = actionRemove) && bool_decide (e_ID e = x_Key x)
  else bool_decide (Action e ≠ actionRemove) && bool_decide (e_ID e = x_Key x) &&
       match version with Some v => x_After x <? v | None => false end.

(** The test both loops of [match_] make. *)
Definition describes (e : Event) (p : pendingAttribution) : bool :=
  bool_decide (x_Type (p_Expectation p) = Type_ e) && matches p e (resourceVersion (Resource_ e)).

(** The first loop: the index of the entry chosen, and the entry. *)
Fixpoint best_loop (e : Event) (i : nat) (best : option (nat * pendingAttribution)) (l : list pendingAttribution)
  : option (nat * pendingAttribution) :=
  match l with
  | [] => best
  | p :: rest =>
      let best' :=
        if negb (describes e p) then best else
        match best with
        | None => Some (i, p)
        | Some (_, b) =>
            if bool_decide (x_Action (p_Expectation p) = "") &&
               (x_After (p_Expectation b) <? x_After (p_Expectation p))
            then Some (i, p) else best
        end in
      best_loop e (S i) best' rest
  end.

(** The second loop: what the chosen entry leaves. *)
Fixpoint keep_loop (e : Event) (i best : nat) (chosen : pendingAttribution) (l : list pendingAttribution)
  : list pendingAttribution :=
  match l with
  | [] => []
  | p :: rest =>
      let consumed := (i =? best)%nat ||
        (bool_decide (x_Action (p_Expectation chosen) = "") && describes e p) in
      if consumed then keep_loop e (S i) best chosen rest else p :: keep_loop e (S i) best chosen rest
  end.

(** The entry an event is credited to; its actor is what the code returns. *)
Definition match_pending (now : Z) (e : Event) (a : Attributions) : Attributions * option pendingAttribution :=
  if bool_decide (Action e = actionRefChanged) then (a, None) else
  let l := prune now (pending a) in
  match best_loop e 0 None l with
  | None => (mkAttributions l (seq a), None)
  | Some (i, p) => (mkAttributions (keep_loop e 0 i p l) (seq a), Some p)
  end.

Definition match_ (now : Z) (e : Event) (a : Attributions) : Attributions * option Actor :=
  let '(a', p) := match_pending now e a in (a', p_actor <$> p).

(** docker/attribution.go: a write of no actor registers nothing; what is
    returned withdraws the write when handed an error. *)
Definition expect (actor : option Actor) (now : Z) (x : Expectation) (a : Attributions) : Attributions * option Z :=
  match actor with
  | Some actor => let '(a, n) := Expect now x actor a in (a, Some n)
  | None => (a, None)
  end.

Definition settle (n : option Z) (failed : bool) (a : Attributions) : Attributions :=
  match n with Some n => if failed then withdraw n a else a | None => a end.

(** * Writers, the engine and the watcher *)

(** Where a write is: asked of the engine, answered, or past its settle. *)
Inductive status := Flying | Answered (ok : bool) | Settled (ok : bool).

Record Write := mkWrite {
  w_seq : Z;
  w_Expectation : Expectation;
  w_actor : Actor;
  w_at : Z;
  w_status : status;
}.

(** A version of a record, and the write that made it when it was one of ours. *)
Record Commit := mkCommit { cm_Type : EventType; cm_ID : string; cm_Version : Z; cm_By : option Z }.

(** The newest commit comes first. *)
Record World := mkWorld {
  attributions : Attributions;
  writes : list Write;
  commits : list Commit;
  clock : Z;
  credits : list Z;
}.

Definition start : World := mkWorld newAttributions [] [] 0 [].

Definition of_record (typ : EventType) (id : string) (c : Commit) : bool :=
  bool_decide (cm_Type c = typ) && bool_decide (cm_ID c = id).

(** The versions a record has had, newest first. *)
Definition versions (typ : EventType) (id : string) (l : list Commit) : list Z :=
  cm_Version <$> List.filter (of_record typ id) l.

(** What the engine answers a write: the record's version when it took it. *)
Inductive answer := Refused | Accepted (id : string) (version : Z).

Inductive action :=
| Begin (now : Z) (x : Expectation) (actor : Actor)
| Land (n : Z) (a : answer)
| Settle (n : Z)
| External (typ : EventType) (id : string) (version : Z)
| Notify (now : Z) (e : Event).

Definition set_status (n : Z) (s : status) (l : list Write) : list Write :=
  (λ w, if w_seq w =? n then mkWrite (w_seq w) (w_Expectation w) (w_actor w) (w_at w) s else w) <$> l.

Definition find_write (n : Z) (l : list Write) : option Write := find (λ w, w_seq w =? n) l.

Definition is_update (x : Expectation) : bool := bool_decide (x_Action x = "").

(** A write is one its writers make: an update names a version the record had,
    a create and a removal none. *)
Definition well_made (x : Expectation) (l : list Commit) : bool :=
  if is_update x then bool_decide (x_After x ∈ versions (x_Type x) (x_Key x) l)
  else (x_After x =? 0) && (bool_decide (x_Action x = actionCreate) || bool_decide (x_Action x = actionRemove)).

(** The engine takes an update at the version it names, and a create as a new
    record; a removal leaves no version. *)
Definition take_write (n : Z) (x : Expectation) (id : string) (version : Z) (l : list Commit) : option (list Commit) :=
  if is_update x then
    if bool_decide (id = x_Key x) && bool_decide (head (versions (x_Type x) id l) = Some (x_After x)) && (x_After x <? version)
    then Some (mkCommit (x_Type x) id version (Some n) :: l) else None
  else if bool_decide (x_Action x = actionCreate) then
    if bool_decide (versions (x_Type x) id l = []) then Some (mkCommit (x_Type x) id version (Some n) :: l) else None
  else Some l.

(** What an event says of a record is a version it had. *)
Definition observed (e : Event) (l : list Commit) : bool :=
  match resourceVersion (Resource_ e) with
  | Some v => bool_decide (v ∈ versions (Type_ e) (e_ID e) l)
  | None => true
  end.

(** A write with an actor; one without is [External] to the registry. *)
Definition perform (act : action) (w : World) : option World :=
  match act with
  | Begin now x actor =>
      if (clock w <=? now) && well_made x (commits w) then
        match expect (Some actor) now x (attributions w) with
        | (a, Some n) => Some (mkWorld a (mkWrite n x actor now Flying :: writes w) (commits w) now (credits w))
        | (_, None) => None
        end
      else None
  | Land n a =>
      match find_write n (writes w) with
      | Some wr =>
          match w_status wr, a with
          | Flying, Refused =>
              Some (mkWorld (attributions w) (set_status n (Answered false) (writes w)) (commits w) (clock w) (credits w))
          | Flying, Accepted id version =>
              l ← take_write n (w_Expectation wr) id version (commits w);
              Some (mkWorld (attributions w) (set_status n (Answered true) (writes w)) l (clock w) (credits w))
          | _, _ => None
          end
      | None => None
      end
  | Settle n =>
      match find_write n (writes w) with
      | Some wr =>
          match w_status wr with
          | Answered ok =>
              Some (mkWorld (settle (Some n) (negb ok) (attributions w))
                      (set_status n (Settled ok) (writes w)) (commits w) (clock w) (credits w))
          | _ => None
          end
      | None => None
      end
  | External typ id version =>
      if match head (versions typ id (commits w)) with Some v => v <? version | None => true end
      then Some (mkWorld (attributions w) (writes w) (mkCommit typ id version None :: commits w) (clock w) (credits w))
      else None
  | Notify now e =>
      if (clock w <=? now) && observed e (commits w) then
        let '(a, p) := match_pending now e (attributions w) in
        Some (mkWorld a (writes w) (commits w) now
                (match p with Some p => p_seq p :: credits w | None => credits w end))
      else None
  end.

Fixpoint run (acts : list action) (w : World) : option World :=
  match acts with
  | [] => Some w
  | act :: acts => w' ← perform act w; run acts w'
  end.

(** * The registry's loops *)

Lemma prune_suffix now l : ∃ k, l = k ++ prune now l ∧ Forall (λ p, p_expires p ≤ now) k.
Proof.
  induction l as [|p l IH]; cbn; [by exists []|].
  unfold time_before. destruct (Z.ltb_spec now (p_expires p)); cbn.
  - by exists [].
  - destruct IH as (k & E & Hk). exists (p :: k). split; [by rewrite E at 1|by constructor].
Qed.

Lemma prune_in now l p : p ∈ prune now l → p ∈ l.
Proof. destruct (prune_suffix now l) as (k & E & _). rewrite E at 2. set_solver. Qed.

Abbreviation by_expiry := (StronglySorted (λ p q, p_expires p ≤ p_expires q)).

Lemma prune_fresh now l p : by_expiry l → p ∈ prune now l → now < p_expires p.
Proof.
  induction l as [|q l IH]; cbn; [set_solver|]. intros Hs. apply StronglySorted_inv in Hs as [Hs Hq].
  unfold time_before. destruct (Z.ltb_spec now (p_expires q)); cbn; [|auto].
  rewrite elem_of_cons. intros [->|Hp]; [done|]. rewrite Forall_forall in Hq. specialize (Hq p Hp). lia.
Qed.

Lemma prune_keeps now l p : p ∈ l → now < p_expires p → p ∈ prune now l.
Proof.
  destruct (prune_suffix now l) as (k & E & Hk). rewrite E at 1. rewrite elem_of_app. intros [Hp|]; [|done].
  rewrite Forall_forall in Hk. specialize (Hk p Hp). lia.
Qed.

Lemma without_in n l p : p ∈ without n l → p ∈ l.
Proof. induction l as [|q l IH]; cbn; [done|]. destruct (p_seq q =? n); set_solver. Qed.

Lemma without_sublist n l : sublist (without n l) l.
Proof. induction l as [|q l IH]; cbn; [done|]. destruct (p_seq q =? n); [by constructor|by constructor]. Qed.

Lemma without_gone n l : NoDup (p_seq <$> l) → n ∉ p_seq <$> without n l.
Proof.
  induction l as [|q l IH]; cbn; [set_solver|]. rewrite NoDup_cons. intros [Hq Hl].
  destruct (Z.eqb_spec (p_seq q) n) as [<-|Hn]; [done|]. cbn. rewrite elem_of_cons. intros [->|H]; [done|].
  by apply IH.
Qed.

Lemma without_other n l p : p ∈ l → p_seq p ≠ n → p ∈ without n l.
Proof.
  induction l as [|q l IH]; cbn; [done|]. intros Hp Hn.
  destruct (Z.eqb_spec (p_seq q) n) as [<-|Hq]; set_solver.
Qed.

(** What the first loop settles on. *)
Lemma best_loop_spec e l : ∀ i best,
  match best_loop e i best l with
  | None => best = None ∧ ∀ q, q ∈ l → describes e q = false
  | Some (j, p) =>
      (best = Some (j, p) ∨ ∃ k, l !! k = Some p ∧ j = (i + k)%nat ∧ describes e p = true) ∧
      (∀ j' b, best = Some (j', b) → x_After (p_Expectation b) ≤ x_After (p_Expectation p)) ∧
      (∀ q, q ∈ l → describes e q = true → is_update (p_Expectation q) = true →
        x_After (p_Expectation q) ≤ x_After (p_Expectation p))
  end.
Proof.
  induction l as [|x l IH]; intros i best.
  { cbn. destruct best as [[j p]|]; [|set_solver]. split; [by left|]. split; [|set_solver].
    intros j' b [= -> ->]. lia. }
  cbn [best_loop]. set (best' := if negb _ then best else _). specialize (IH (S i) best').
  assert (Hb : best' = best ∨ (best' = Some (i, x) ∧ describes e x = true)).
  { subst best'. destruct (describes e x); cbn; [|by left]. destruct best as [[? b]|]; [|by right].
    destruct (_ && _); [by right|by left]. }
  destruct (best_loop e (S i) best' l) as [[j p]|].
  - destruct IH as (H1 & H2 & H3). split_and!.
    + destruct H1 as [H1|(k & Hk & -> & Hd)]; [|right; exists (S k); cbn; split_and!; [done|lia|done]].
      destruct Hb as [->|[Hb Hd]]; [by left|]. rewrite Hb in H1. injection H1 as -> ->. right. exists O. cbn. split_and!; [done|lia|done].
    + intros j' b Eb. subst best'. rewrite Eb in H2. destruct (describes e x); cbn in H2; [|by eapply H2].
      destruct (bool_decide _ && _) eqn:Ec; [|by eapply H2].
      apply andb_true_iff in Ec as [_ Ec%Z.ltb_lt]. specialize (H2 _ _ eq_refl). lia.
    + intros q Hq Hd Hu. apply elem_of_cons in Hq as [Hq|Hq]; [subst x|by apply H3].
      subst best'. rewrite Hd in H2. cbn in H2. destruct best as [[j' b]|]; [|by eapply H2].
      unfold is_update in Hu. rewrite Hu in H2. cbn in H2.
      destruct (Z.ltb_spec (x_After (p_Expectation b)) (x_After (p_Expectation q))); [by eapply H2|].
      specialize (H2 _ _ eq_refl). lia.
  - destruct IH as (H1 & H2). destruct Hb as [Hb|[Hb _]]; [|congruence]. split; [congruence|].
    intros q Hq. apply elem_of_cons in Hq as [Hq|Hq]; [subst x|by apply H2]. subst best'. destruct (describes e q); [|done]. cbn in H1.
    destruct best as [[? b]|]; [|done]. destruct (_ && _); done.
Qed.

Lemma keep_loop_sublist e best chosen l : ∀ i, sublist (keep_loop e i best chosen l) l.
Proof.
  induction l as [|q l IH]; intros i; cbn; [done|]. destruct (_ || _); constructor; auto.
Qed.

Lemma keep_loop_gone e chosen l : ∀ i k, l !! k = Some chosen → NoDup (p_seq <$> l) →
  p_seq chosen ∉ p_seq <$> keep_loop e i (i + k) chosen l.
Proof.
  induction l as [|q l IH]; intros i k Hk Hn; [done|]. cbn in Hn. apply NoDup_cons in Hn as [Hq Hn].
  destruct k as [|k]; cbn in *.
  - injection Hk as ->. rewrite Nat.add_0_r, Nat.eqb_refl. cbn. intros Hin. apply Hq. clear Hq.
    apply list_elem_of_fmap in Hin as (y & Ey & Hy). apply list_elem_of_fmap. exists y. split; [done|].
    eapply elem_of_sublist; [exact Hy|apply keep_loop_sublist].
  - replace (i + S k)%nat with (S i + k)%nat by lia. specialize (IH (S i) k Hk Hn).
    destruct (_ || _); [done|]. cbn. rewrite elem_of_cons. intros [E|]; [|done].
    apply Hq. rewrite <- E. apply list_elem_of_fmap. exists chosen. split; [done|].
    by eapply list_elem_of_lookup_2.
Qed.

(** An entry the event does not describe is kept. *)
Lemma keep_loop_other e best chosen l p : ∀ i, p ∈ l → describes e p = false → describes e chosen = true →
  (∀ k, best = (i + k)%nat → l !! k = Some chosen) → p ∈ keep_loop e i best chosen l.
Proof.
  induction l as [|q l IH]; intros i Hp Hd Hc Hb; [set_solver|]. cbn.
  assert (Hr : p ∈ l → p ∈ keep_loop e (S i) best chosen l).
  { intros Hl. apply IH; [done..|]. intros k ->. apply (Hb (S k)). lia. }
  apply elem_of_cons in Hp as [->|Hp].
  - destruct (Nat.eqb_spec i best) as [<-|Hn]; cbn.
    + specialize (Hb O ltac:(lia)). injection Hb as ->. congruence.
    + rewrite Hd, andb_false_r. set_solver.
  - destruct (_ || _); set_solver.
Qed.

(** An event is credited to an entry that describes it, no update that does
    having a later version behind it; the entry is gone then. *)
Lemma match_pending_spec now e a :
  NoDup (p_seq <$> pending a) →
  match match_pending now e a with
  | (a', None) =>
      seq a' = seq a ∧ sublist (pending a') (pending a) ∧
      (Action e ≠ actionRefChanged → (∀ q, q ∈ prune now (pending a) → describes e q = false)) ∧
      (∀ q, q ∈ pending a → now < p_expires q → q ∈ pending a')
  | (a', Some p) =>
      seq a' = seq a ∧ sublist (pending a') (pending a) ∧ p ∈ prune now (pending a) ∧ describes e p = true ∧
      (p_seq p ∉ p_seq <$> pending a') ∧
      (∀ q, q ∈ prune now (pending a) → describes e q = true → is_update (p_Expectation q) = true →
        x_After (p_Expectation q) ≤ x_After (p_Expectation p)) ∧
      (∀ q, q ∈ pending a → now < p_expires q → describes e q = false → q ∈ pending a')
  end.
Proof.
  intros Hn. unfold match_pending. case_bool_decide as Er; [split_and!; done|].
  destruct (prune_suffix now (pending a)) as (k & Ek & _).
  assert (Hs : sublist (prune now (pending a)) (pending a)) by (rewrite Ek at 2; apply sublist_inserts_l; done).
  assert (Hn' : NoDup (p_seq <$> prune now (pending a))).
  { rewrite Ek, fmap_app in Hn. by apply NoDup_app in Hn as (_ & _ & ?). }
  pose proof (best_loop_spec e (prune now (pending a)) 0 None) as Hb.
  destruct (best_loop _ _ _ _) as [[j p]|].
  - destruct Hb as ([Hb|(i & Hi & -> & Hd)] & _ & Hm); [done|]. cbn [seq pending]. split_and!; try done.
    + etransitivity; [apply keep_loop_sublist|done].
    + by eapply list_elem_of_lookup_2.
    + by apply (keep_loop_gone e p (prune now (pending a)) 0 i).
    + intros q Hq He Hf. apply keep_loop_other; [by apply prune_keeps|done..|]. intros k' Hk'. cbn in Hk'. by subst k'.
  - destruct Hb as [_ Hb]. cbn. split_and!; try done. intros q Hq He. by apply prune_keeps.
Qed.

(** * The invariant *)

(** The write [x] landed: its commit follows the version it names. *)
Definition landed (x : Write) (l : list Commit) : Prop :=
  is_update (w_Expectation x) = true →
  ∃ nv l1 l2, versions (x_Type (w_Expectation x)) (x_Key (w_Expectation x)) l = l1 ++ nv :: x_After (w_Expectation x) :: l2 ∧
    mkCommit (x_Type (w_Expectation x)) (x_Key (w_Expectation x)) nv (Some (w_seq x)) ∈ l.

(** What stands in the registry for the write [x]. *)
Definition entry_of (x : Write) : pendingAttribution :=
  mkPending (w_Expectation x) (w_actor x) (w_at x + attributionTTL) (w_seq x).

Record world_ok (w : World) : Prop := {
  wo_seq : seq (attributions w) = Z.of_nat (length (writes w));
  wo_writes : NoDup (w_seq <$> writes w);
  wo_numbered : ∀ x, x ∈ writes w → 1 ≤ w_seq x ≤ Z.of_nat (length (writes w)) ∧ w_at x ≤ clock w;
  wo_pending : NoDup (p_seq <$> pending (attributions w));
  wo_registered : ∀ p, p ∈ pending (attributions w) → ∃ x, x ∈ writes w ∧ p = entry_of x ∧ w_status x ≠ Settled false;
  wo_sorted : by_expiry (pending (attributions w));
  wo_landed : ∀ x, x ∈ writes w → w_status x = Answered true ∨ w_status x = Settled true → landed x (commits w);
  wo_versions : ∀ typ id, StronglySorted (λ a b, b < a) (versions typ id (commits w));
  wo_credits : ∀ n, n ∈ credits w → n ∈ w_seq <$> writes w ∧ n ∉ p_seq <$> pending (attributions w);
  wo_once : NoDup (credits w);
}.

Lemma writers_start_ok : world_ok start.
Proof. split; cbn; try (intros; set_solver); try constructor. Qed.

(** An invariant state stays one when entries leave the registry. *)
Lemma fewer_ok a c w :
  world_ok w → seq a = seq (attributions w) → sublist (pending a) (pending (attributions w)) → clock w ≤ c →
  world_ok (mkWorld a (writes w) (commits w) c (credits w)).
Proof.
  intros [] Es Hs Hc. split; cbn; try done.
  - congruence.
  - intros x Hx. destruct (wo_numbered0 x Hx). lia.
  - eapply sublist_NoDup; [exact wo_pending0|]. by apply fmap_sublist.
  - intros p Hp. apply wo_registered0. by eapply elem_of_sublist.
  - by eapply StronglySorted_sublist.
  - intros n Hn. destruct (wo_credits0 n Hn) as [H1 H2]. split; [done|]. intros H3. apply H2.
    eapply elem_of_sublist; [done|]. by apply fmap_sublist.
Qed.

Lemma set_status_seqs n s l : w_seq <$> set_status n s l = w_seq <$> l.
Proof.
  unfold set_status. rewrite <- list_fmap_compose. apply list_fmap_ext. intros _ x _. cbn.
  by destruct (w_seq x =? n).
Qed.

Lemma set_status_length n s l : length (set_status n s l) = length l.
Proof. apply length_fmap. Qed.

Lemma set_status_in n s l x :
  x ∈ set_status n s l ↔
  ∃ y, y ∈ l ∧ x = if w_seq y =? n then mkWrite (w_seq y) (w_Expectation y) (w_actor y) (w_at y) s else y.
Proof. unfold set_status. rewrite list_elem_of_fmap. naive_solver. Qed.

Lemma find_write_Some n l x : find_write n l = Some x → x ∈ l ∧ w_seq x = n.
Proof. intros H. apply find_some in H as [Hx E]. split; [by apply list_elem_of_In|by apply Z.eqb_eq]. Qed.

(** Two writes of one number are one. *)
Lemma write_unique l x y : NoDup (w_seq <$> l) → x ∈ l → y ∈ l → w_seq x = w_seq y → x = y.
Proof.
  intros Hn Hx Hy E. apply list_elem_of_lookup in Hx as [i Hi], Hy as [j Hj].
  assert (i = j) as ->.
  { eapply NoDup_lookup; [exact Hn|..]; rewrite list_lookup_fmap; [by rewrite Hi|by rewrite Hj; cbn; rewrite E]. }
  congruence.
Qed.

Lemma versions_cons typ id c l :
  versions typ id (c :: l) = if of_record typ id c then cm_Version c :: versions typ id l else versions typ id l.
Proof. unfold versions. cbn. by destruct (of_record typ id c). Qed.

(** A newer version extends a record's versions and leaves what landed landed. *)
Lemma commit_sorted c l :
  (∀ typ id, StronglySorted (λ a b, b < a) (versions typ id l)) →
  (∀ v, head (versions (cm_Type c) (cm_ID c) l) = Some v → v < cm_Version c) →
  ∀ typ id, StronglySorted (λ a b, b < a) (versions typ id (c :: l)).
Proof.
  intros Hs Hv typ id. rewrite versions_cons. destruct (of_record typ id c) eqn:E; [|done].
  apply andb_true_iff in E as [<-%bool_decide_eq_true <-%bool_decide_eq_true].
  specialize (Hs (cm_Type c) (cm_ID c)). constructor; [done|].
  destruct (versions (cm_Type c) (cm_ID c) l) as [|v k]; [constructor|]. apply StronglySorted_inv in Hs as [_ Hk].
  specialize (Hv v eq_refl). constructor; [done|]. eapply Forall_impl; [done|]. cbn. intros. lia.
Qed.

Lemma landed_cons c x l : landed x l → landed x (c :: l).
Proof.
  intros H Hu. destruct (H Hu) as (nv & l1 & l2 & E & Hc). rewrite versions_cons, E.
  destruct (of_record _ _ c); [exists nv, (cm_Version c :: l1), l2|exists nv, l1, l2]; split; set_solver.
Qed.

(** What the engine takes keeps the versions in order and lands the write. *)
Lemma take_write_ok n x actor at_ id version l l' :
  (∀ typ id, StronglySorted (λ a b, b < a) (versions typ id l)) → take_write n x id version l = Some l' →
  (∀ typ id, StronglySorted (λ a b, b < a) (versions typ id l')) ∧
  (∀ y, landed y l → landed y l') ∧ ∀ s, landed (mkWrite n x actor at_ s) l'.
Proof.
  intros Hs. unfold take_write. destruct (is_update x) eqn:Eu.
  - destruct (bool_decide (id = x_Key x)) eqn:Ei; [|done]. apply bool_decide_eq_true in Ei as ->. cbn.
    case_bool_decide as Eh; [|done]. cbn. destruct (Z.ltb_spec (x_After x) version) as [Hv|]; [|done]. intros [= <-].
    split_and!.
    + apply commit_sorted; [done|]. cbn. intros v. rewrite Eh. by intros [= <-].
    + intros y. apply landed_cons.
    + intros s _. cbn [w_Expectation w_seq]. destruct (versions (x_Type x) (x_Key x) l) as [|v k] eqn:Ek; [done|]. injection Eh as ->.
      exists version, [], k. rewrite versions_cons. unfold of_record. cbn. cbn [cm_Type cm_ID cm_Version].
      rewrite !bool_decide_eq_true_2 by done. cbn [andb]. rewrite Ek. split; [done|]. set_solver.
  - destruct (bool_decide (x_Action x = actionCreate)).
    + case_bool_decide as Ee; [|done]. intros [= <-]. split_and!.
      * apply commit_sorted; [done|]. cbn. rewrite Ee. done.
      * intros y. apply landed_cons.
      * intros s H. cbn in H. congruence.
    + intros [= <-]. split_and!; [done..|]. intros s H. cbn in H. congruence.
Qed.

Lemma Expect_spec now x actor a : 0 ≤ seq a → seq a + 1 < 2 ^ 64 →
  ∃ l, sublist l (pending a) ∧
    Expect now x actor a =
      (mkAttributions (l ++ [mkPending x actor (now + attributionTTL) (seq a + 1)]) (seq a + 1), seq a + 1).
Proof.
  intros H0 Hb. unfold Expect, wrap. rewrite Z.mod_small by lia.
  destruct (prune_suffix now (pending a)) as (k & Ek & _). eexists. split; [|reflexivity].
  transitivity (prune now (pending a)); [destruct (_ <=? _)%nat; [apply sublist_drop|done]|].
  rewrite Ek at 2. by apply sublist_inserts_l.
Qed.

Lemma Begin_ok now x actor w w' :
  world_ok w → Z.of_nat (length (writes w)) + 1 < 2 ^ 64 → perform (Begin now x actor) w = Some w' → world_ok w'.
Proof.
  intros Hw Hl. cbn [perform]. destruct (_ && _) eqn:Eg; [|done]. apply andb_true_iff in Eg as [Hc%Z.leb_le _].
  destruct Hw.
  unfold expect.
  destruct (Expect_spec now x actor (attributions w)) as (l & Hs & ->); [lia..|]. rewrite wo_seq0. intros [= <-].
  set (n := Z.of_nat (length (writes w)) + 1).
  assert (Hold : ∀ y, y ∈ writes w → w_seq y ≠ n) by (intros y Hy; destruct (wo_numbered0 y Hy); lia).
  assert (Hin : ∀ p, p ∈ l → p ∈ pending (attributions w)) by (intros p Hp; by eapply elem_of_sublist).
  split; cbn [attributions writes commits clock credits pending seq].
  - cbn [length]. lia.
  - cbn. constructor; [|done]. intros (y & E & Hy)%list_elem_of_fmap. by apply (Hold y).
  - intros y Hy. cbn [length]. apply elem_of_cons in Hy as [->|Hy]; [cbn; lia|]. destruct (wo_numbered0 y Hy). lia.
  - rewrite fmap_app. cbn. apply NoDup_app. split_and!; [eapply sublist_NoDup; [exact wo_pending0|by apply fmap_sublist]| |apply NoDup_singleton].
    intros m (p & -> & Hp)%list_elem_of_fmap. destruct (wo_registered0 p (Hin p Hp)) as (y & Hy & -> & _).
    rewrite list_elem_of_singleton. cbn. by apply Hold.
  - intros p Hp. apply elem_of_app in Hp as [Hp|Hp%list_elem_of_singleton].
    + destruct (wo_registered0 p (Hin p Hp)) as (y & Hy & -> & Hn). exists y. split_and!; [set_solver|done..].
    + subst p. eexists. split; [apply list_elem_of_here|done].
  - apply StronglySorted_app. split_and!; [|by eapply StronglySorted_sublist|by repeat constructor].
    intros p q Hp Hq%list_elem_of_singleton. subst q. cbn.
    destruct (wo_registered0 p (Hin p Hp)) as (y & Hy & -> & _). destruct (wo_numbered0 y Hy). cbn. lia.
  - intros y Hy Ha. apply elem_of_cons in Hy as [->|Hy]; [cbn in Ha; naive_solver|auto].
  - done.
  - intros m Hm. destruct (wo_credits0 m Hm) as [H1 H2]. cbn. split; [set_solver|]. rewrite fmap_app, elem_of_app.
    intros [H3|H3].
    + apply H2. eapply elem_of_sublist; [exact H3|by apply fmap_sublist].
    + cbn in H3. apply list_elem_of_singleton in H3 as ->. apply list_elem_of_fmap in H1 as (y & E & Hy). by apply (Hold y).
  - done.
Qed.

(** A write's answer and its settle change its own status only. *)
Lemma status_ok n s wr l a w :
  world_ok w → find_write n (writes w) = Some wr → seq a = seq (attributions w) →
  sublist (pending a) (pending (attributions w)) → (s = Settled false → n ∉ p_seq <$> pending a) →
  (∀ typ id, StronglySorted (λ a b, b < a) (versions typ id l)) → (∀ y, landed y (commits w) → landed y l) →
  (s = Answered true ∨ s = Settled true → landed (mkWrite n (w_Expectation wr) (w_actor wr) (w_at wr) s) l) →
  world_ok (mkWorld a (set_status n s (writes w)) l (clock w) (credits w)).
Proof.
  intros Hw [Hf <-]%find_write_Some Es Hsub Hfail Hv Hl Hland. destruct Hw.
  assert (Hin : ∀ p, p ∈ pending a → p ∈ pending (attributions w)) by (intros p Hp; by eapply elem_of_sublist).
  split; cbn [attributions writes commits clock credits]; rewrite ?set_status_seqs, ?set_status_length; try done.
  - congruence.
  - intros x (y & Hy & ->)%set_status_in. destruct (wo_numbered0 y Hy). by destruct (w_seq y =? w_seq wr).
  - eapply sublist_NoDup; [exact wo_pending0|by apply fmap_sublist].
  - intros p Hp. destruct (wo_registered0 p (Hin p Hp)) as (y & Hy & -> & Hn).
    eexists. split; [apply set_status_in; eauto|]. destruct (Z.eqb_spec (w_seq y) (w_seq wr)) as [E|]; [|done].
    split; [done|]. cbn. intros ->. apply Hfail; [done|]. rewrite <- E. apply list_elem_of_fmap. by exists (entry_of y).
  - by eapply StronglySorted_sublist.
  - intros x (y & Hy & ->)%set_status_in. destruct (Z.eqb_spec (w_seq y) (w_seq wr)) as [E|]; [|auto].
    assert (y = wr) as -> by (by eapply write_unique). auto.
  - intros m Hm. destruct (wo_credits0 m Hm) as [H1 H2]. split; [done|]. intros H3. apply H2.
    eapply elem_of_sublist; [exact H3|by apply fmap_sublist].
Qed.

Lemma Land_ok n a w w' : world_ok w → perform (Land n a) w = Some w' → world_ok w'.
Proof.
  intros Hw. cbn [perform]. destruct (find_write n (writes w)) as [wr|] eqn:Ef; [|done].
  destruct (w_status wr), a as [|id version]; try done.
  - intros [= <-]. apply (status_ok n _ wr); [done..|apply (wo_versions w Hw)|done|naive_solver].
  - destruct (take_write _ _ _ _ _) as [l|] eqn:Et; [|done]. intros [= <-].
    destruct (take_write_ok n _ (w_actor wr) (w_at wr) id version _ _ (wo_versions w Hw) Et) as (H1 & H2 & H3).
    apply (status_ok n _ wr); [done..|]. intros _. apply H3.
Qed.

Lemma Settle_ok n w w' : world_ok w → perform (Settle n) w = Some w' → world_ok w'.
Proof.
  intros Hw. cbn [perform]. destruct (find_write n (writes w)) as [wr|] eqn:Ef; [|done].
  destruct (w_status wr) as [|ok|ok] eqn:Es; try done. intros [= <-].
  apply (status_ok n _ wr); try done.
  - by destruct ok.
  - destruct ok; [done|apply without_sublist].
  - intros [= ->]. apply without_gone, (wo_pending w Hw).
  - apply (wo_versions w Hw).
  - intros [|[= ->]]; [done|]. apply find_write_Some in Ef as [Hf <-].
    apply (wo_landed w Hw wr Hf). by left.
Qed.

Lemma External_ok typ id v w w' : world_ok w → perform (External typ id v) w = Some w' → world_ok w'.
Proof.
  intros Hw. cbn [perform]. destruct (match head _ with Some _ => _ | None => _ end) eqn:Eh; [|done]. intros [= <-].
  destruct Hw. split; cbn [attributions writes commits clock credits]; try done.
  - intros x Hx Hs. by apply landed_cons, wo_landed0.
  - apply commit_sorted; [done|]. cbn [cm_Type cm_ID cm_Version]. intros u Eu. rewrite Eu in Eh. by apply Z.ltb_lt.
Qed.

Lemma Notify_ok now e w w' : world_ok w → perform (Notify now e) w = Some w' → world_ok w'.
Proof.
  intros Hw. cbn [perform]. destruct (_ && _) eqn:Eg; [|done]. apply andb_true_iff in Eg as [Hc%Z.leb_le _].
  pose proof (match_pending_spec now e _ (wo_pending w Hw)) as Hm.
  destruct (match_pending now e (attributions w)) as [a [p|]]; intros [= <-].
  - destruct Hm as (Es & Hs & Hp & _ & Hg & _).
    destruct (fewer_ok a now w Hw Es Hs Hc). split; try done.
    + cbn [credits writes attributions]. intros n Hn. apply elem_of_cons in Hn as [->|Hn]; [|by apply wo_credits0].
      split; [|done]. destruct (wo_registered w Hw p) as (x & Hx & -> & _); [by eapply prune_in|].
      apply list_elem_of_fmap. by exists x.
    + cbn [credits]. constructor; [|done]. intros Hn. apply (wo_credits w Hw) in Hn as [_ Hn]. apply Hn.
      apply list_elem_of_fmap. exists p. split; [done|]. by eapply prune_in.
  - destruct Hm as (Es & Hs & _). by apply fewer_ok.
Qed.

Lemma world_step_ok act w w' :
  world_ok w → Z.of_nat (length (writes w)) + 1 < 2 ^ 64 → perform act w = Some w' →
  world_ok w' ∧ (length (writes w') ≤ S (length (writes w)))%nat.
Proof.
  intros Hw Hl Hp. split.
  - destruct act; eauto using Begin_ok, Land_ok, Settle_ok, External_ok, Notify_ok.
  - destruct act; cbn [perform] in Hp; repeat case_match; simplify_option_eq; cbn; rewrite ?set_status_length; lia.
Qed.

Lemma writers_run_ok acts : ∀ w w', world_ok w → Z.of_nat (length (writes w) + length acts) < 2 ^ 64 →
  run acts w = Some w' → world_ok w'.
Proof.
  induction acts as [|act acts IH]; cbn; intros w w' Hw Hl Hr; [congruence|].
  destruct (perform act w) as [w1|] eqn:Ep; [|done]. cbn in Hr.
  destruct (world_step_ok act w w1 Hw) as [H1 H2]; [lia|done|]. eapply IH; [done| |done]. lia.
Qed.

(** * Whom a change is credited to *)

(** Every write the event could be credited to has been answered, and
    withdrawn when the engine refused it. *)
Definition settled_for (e : Event) (w : World) : Prop :=
  ∀ x, x ∈ writes w → describes e (entry_of x) = true → ∃ ok, w_status x = Settled ok.

Lemma describes_update e p : describes e p = true → is_update (p_Expectation p) = true →
  Type_ e = x_Type (p_Expectation p) ∧ e_ID e = x_Key (p_Expectation p) ∧
  ∃ v, resourceVersion (Resource_ e) = Some v ∧ x_After (p_Expectation p) < v.
Proof.
  intros [Ht%bool_decide_eq_true Hm]%andb_true_iff Hu%bool_decide_eq_true. unfold matches in Hm. rewrite Hu in Hm. cbn in Hm.
  apply andb_true_iff in Hm as [[_ Hk%bool_decide_eq_true]%andb_true_iff Hv].
  split_and!; [done..|]. destruct (resourceVersion _) as [v|]; [|done]. exists v. split; [done|by apply Z.ltb_lt].
Qed.

(** A version above the one a landed update names is its own or a later one. *)
Lemma landed_below x w v :
  world_ok w → landed x (commits w) → is_update (w_Expectation x) = true →
  v ∈ versions (x_Type (w_Expectation x)) (x_Key (w_Expectation x)) (commits w) → x_After (w_Expectation x) < v →
  ∃ nv, mkCommit (x_Type (w_Expectation x)) (x_Key (w_Expectation x)) nv (Some (w_seq x)) ∈ commits w ∧
    x_After (w_Expectation x) < nv ≤ v.
Proof.
  intros Hw Hl Hu Hv Ha. destruct (Hl Hu) as (nv & l1 & l2 & E & Hc).
  pose proof (wo_versions w Hw (x_Type (w_Expectation x)) (x_Key (w_Expectation x))) as Hs.
  rewrite E in Hs, Hv. apply StronglySorted_app in Hs as (H1 & _ & H2).
  apply StronglySorted_inv in H2 as [H2 H3]. apply StronglySorted_inv in H2 as [_ H4].
  rewrite Forall_forall in H3, H4. exists nv. split; [done|]. split; [apply H3; set_solver|].
  apply elem_of_app in Hv as [Hv|Hv]; [specialize (H1 v nv Hv ltac:(set_solver)); lia|].
  apply elem_of_cons in Hv as [->|Hv]; [lia|]. apply elem_of_cons in Hv as [->|Hv]; [lia|].
  specialize (H4 v Hv). lia.
Qed.

(** C28: Whatever writes, foreign changes, refusals and late events came before,
    when an event is credited and no write it describes is still under way, it
    is credited to one of our writes that the engine took, made within the last
    minute, not credited before. An update so credited is one of the changes
    the event brings: its version lies above the one it named and not above
    the event's, and no standing update of ours the event also brings came
    later. *)
Theorem credit_is_earned acts w now e a p :
  run acts start = Some w → Z.of_nat (length acts) < 2 ^ 64 → clock w ≤ now → observed e (commits w) = true →
  settled_for e w → match_pending now e (attributions w) = (a, Some p) →
  ∃ x, x ∈ writes w ∧ w_actor x = p_actor p ∧ w_status x = Settled true ∧ w_at x ≤ now < w_at x + attributionTTL ∧
    describes e (entry_of x) = true ∧ (w_seq x ∉ credits w) ∧
    (is_update (w_Expectation x) = true → ∃ v nv, resourceVersion (Resource_ e) = Some v ∧
      mkCommit (Type_ e) (e_ID e) nv (Some (w_seq x)) ∈ commits w ∧ x_After (w_Expectation x) < nv ≤ v) ∧
    (∀ q, q ∈ pending (attributions w) → now < p_expires q → describes e q = true →
      is_update (p_Expectation q) = true → x_After (p_Expectation q) ≤ x_After (w_Expectation x)).
Proof.
  intros Hr Hl Hc Ho Hset Hm.
  assert (Hw : world_ok w) by (exact (writers_run_ok acts _ _ writers_start_ok Hl Hr)).
  pose proof (match_pending_spec now e _ (wo_pending w Hw)) as Hs. rewrite Hm in Hs.
  destruct Hs as (_ & _ & Hp & Hd & _ & Hbest & _).
  pose proof (prune_in _ _ _ Hp) as Hin.
  destruct (wo_registered w Hw p Hin) as (x & Hx & -> & Hst). destruct (Hset x Hx Hd) as [ok Hok].
  assert (w_status x = Settled true) as Ht by (destruct ok; congruence).
  exists x. split_and!; try done.
  - destruct (wo_numbered w Hw x Hx). lia.
  - exact (prune_fresh _ _ _ (wo_sorted w Hw) Hp).
  - intros Hn. apply (wo_credits w Hw) in Hn as [_ Hn]. apply Hn, list_elem_of_fmap. by exists (entry_of x).
  - intros Hu. destruct (describes_update e _ Hd Hu) as (Et & Ek & v & Ev & Hv).
    unfold observed in Ho. rewrite Ev in Ho. apply bool_decide_eq_true in Ho. rewrite Et, Ek in *.
    destruct (landed_below x w v Hw) as (nv & H1 & H2); [apply (wo_landed w Hw x Hx); by right|done..|].
    exists v, nv. done.
  - intros q Hq He. by apply Hbest, prune_keeps.
Qed.

(** * A write is credited *)

(** The entry stands with no more than [k] registered after it. *)
Definition stands (p : pendingAttribution) (k : nat) (l : list pendingAttribution) : Prop :=
  ∃ l1 l2, l = l1 ++ p :: l2 ∧ (length l2 ≤ k)%nat.

Lemma stands_sublist p k l l' : NoDup (p_seq <$> l) → stands p k l → sublist l' l → p ∈ l' → stands p k l'.
Proof.
  intros Hn (l1 & l2 & -> & Hk) Hs Hp. apply sublist_app_r in Hs as (k1 & k2 & -> & Hs1 & Hs2).
  assert (p ∉ k1).
  { intros H1. rewrite fmap_app in Hn. apply NoDup_app in Hn as (_ & Hn & _). apply (Hn (p_seq p)); [|cbn; set_solver].
    apply list_elem_of_fmap. exists p. split; [done|]. by eapply elem_of_sublist. }
  apply elem_of_app in Hp as [|Hp]; [done|]. apply sublist_cons_r in Hs2 as [Hs2|(k3 & -> & Hs3)].
  - exfalso. rewrite fmap_app in Hn. apply NoDup_app in Hn as (_ & _ & Hn). cbn in Hn. apply NoDup_cons in Hn as [Hn _].
    apply Hn, list_elem_of_fmap. exists p. split; [done|]. by eapply elem_of_sublist.
  - exists k1, k3. split; [done|]. apply sublist_length in Hs3. lia.
Qed.

Lemma stands_in p k l : stands p k l → p ∈ l.
Proof. intros (l1 & l2 & -> & _). set_solver. Qed.

(** Registering another write leaves it standing. *)
Lemma stands_Expect p k now x actor a :
  NoDup (p_seq <$> pending a) → stands p k (pending a) → now < p_expires p → (S k < maxAttributions)%nat →
  stands p (S k) (pending (Expect now x actor a).1).
Proof.
  intros Hn Hs Hf Hk. unfold Expect. cbn [fst pending].
  assert (Hp : stands p k (prune now (pending a))).
  { destruct (prune_suffix now (pending a)) as (m & E & _). eapply stands_sublist; [done|done| |].
    - rewrite E at 2. by apply sublist_inserts_l.
    - apply prune_keeps; [by eapply stands_in|done]. }
  destruct Hp as (l1 & l2 & -> & Hl).
  destruct (maxAttributions <=? _)%nat eqn:Em; [|exists l1; eexists; rewrite <- app_assoc; cbn; split; [done|]; rewrite length_app; cbn; lia].
  apply Nat.leb_le in Em. rewrite length_app in Em. cbn [length] in Em.
  destruct l1 as [|q l1]; [cbn in Em; lia|]. cbn [app drop]. rewrite ?drop_0.
  exists l1. eexists. rewrite <- app_assoc. cbn. split; [done|]. rewrite length_app. cbn. lia.
Qed.

Definition begins (acts : list action) : nat :=
  length (List.filter (λ a, match a with Begin _ _ _ => true | _ => false end) acts).

Lemma perform_clock act w w' : perform act w = Some w' → clock w ≤ clock w'.
Proof.
  intros Hp. destruct act; cbn [perform] in Hp; repeat case_match; simplify_option_eq; cbn; try lia;
    match goal with H : (_ && _)%bool = true |- _ => apply andb_true_iff in H as [H _]; apply Z.leb_le in H; done end.
Qed.

Lemma run_clock acts : ∀ w w', run acts w = Some w' → clock w ≤ clock w'.
Proof.
  induction acts as [|act acts IH]; cbn; intros w w' Hr; [by injection Hr as ->|].
  destruct (perform act w) as [w1|] eqn:Ep; [|done]. apply perform_clock in Ep. specialize (IH _ _ Hr). lia.
Qed.

(** One step of anyone's leaves the entry of an unexpired, unrefused write
    standing, unless it notifies an event the entry describes. *)
Lemma perform_stands act w w' p k :
  world_ok w → world_ok w' → perform act w = Some w' → stands p k (pending (attributions w)) →
  clock w' < p_expires p → (S k < maxAttributions)%nat →
  (∀ now e, act = Notify now e → describes e p = false) →
  (∀ x, x ∈ writes w' → w_seq x = p_seq p → w_status x ≠ Settled false) →
  stands p (k + begins [act]) (pending (attributions w')).
Proof.
  intros Hw Hw' Hp Hs Hc Hk Hd Hst. assert (Hin := stands_in _ _ _ Hs).
  destruct act as [now x actor|n a|n|typ id v|now e]; cbn [perform] in Hp; cbn [begins List.filter length];
    rewrite ?Nat.add_0_r.
  - destruct (_ && _); [|done]. unfold expect in Hp. destruct (Expect now x actor (attributions w)) as [a n] eqn:Ee. injection Hp as <-.
    replace a with (Expect now x actor (attributions w)).1 by (by rewrite Ee).
    cbn [attributions]. replace (k + 1)%nat with (S k) by lia. by apply stands_Expect; [apply (wo_pending w Hw)|..].
  - repeat case_match; simplify_option_eq; done.
  - destruct (find_write n (writes w)) as [wr|] eqn:Ef; [|done].
    destruct (w_status wr) as [|[]|]; try done; injection Hp as <-; [done|]. cbn [attributions].
    apply (stands_sublist _ _ _ _ (wo_pending w Hw) Hs); [apply without_sublist|].
    apply without_other; [done|]. intros E. apply find_write_Some in Ef as [Hf En].
    apply (Hst (mkWrite (w_seq wr) (w_Expectation wr) (w_actor wr) (w_at wr) (Settled false))); [|by cbn; congruence|done].
    cbn. apply set_status_in. exists wr. by rewrite En, Z.eqb_refl.
  - destruct (match head _ with Some _ => _ | None => _ end); by simplify_eq.
  - destruct (_ && _); [|done].
    pose proof (match_pending_spec now e _ (wo_pending w Hw)) as Hm.
    destruct (match_pending now e (attributions w)) as [a q]. injection Hp as <-. cbn [attributions clock] in *.
    destruct q as [q|].
    + destruct Hm as (_ & Hsub & _ & _ & _ & _ & Hkeep).
      apply (stands_sublist _ _ _ _ (wo_pending w Hw) Hs Hsub), Hkeep; [done|done|by eapply Hd].
    + destruct Hm as (_ & Hsub & _ & Hkeep). apply (stands_sublist _ _ _ _ (wo_pending w Hw) Hs Hsub), Hkeep; done.
Qed.

(** A refusal, once withdrawn, stays withdrawn. *)
Lemma refused_stays act w w' x :
  world_ok w → perform act w = Some w' → x ∈ writes w → w_status x = Settled false →
  x ∈ writes w'.
Proof.
  intros Hw Hp Hx Hs.
  assert (Hother : ∀ n s wr, find_write n (writes w) = Some wr → w_status wr ≠ Settled false → x ∈ set_status n s (writes w)).
  { intros n s wr [Hf <-]%find_write_Some Hwr. apply set_status_in. exists x. split; [done|].
    destruct (Z.eqb_spec (w_seq x) (w_seq wr)) as [E|]; [|done].
    assert (x = wr) as -> by (by eapply (write_unique (writes w)); [apply (wo_writes w Hw)|..]). done. }
  destruct act; cbn [perform] in Hp; repeat case_match; simplify_option_eq; cbn; try set_solver;
    eapply Hother; first [eassumption|congruence].
Qed.

Lemma run_refused acts x : ∀ w w', world_ok w → Z.of_nat (length (writes w) + length acts) < 2 ^ 64 →
  run acts w = Some w' → x ∈ writes w → w_status x = Settled false → x ∈ writes w'.
Proof.
  induction acts as [|act acts IH]; cbn; intros w w' Hw Hl Hr Hx Hs; [by injection Hr as <-|].
  destruct (perform act w) as [w1|] eqn:Ep; [|done].
  destruct (world_step_ok act w w1 Hw) as [H1 H2]; [lia|done|]. apply (IH w1 w'); [done|cbn in Hl; lia|exact Hr| |done].
  by apply (refused_stays act w w1).
Qed.

Lemma run_stands acts p : ∀ w w' k,
  world_ok w → Z.of_nat (length (writes w) + length acts) < 2 ^ 64 → run acts w = Some w' →
  stands p k (pending (attributions w)) → clock w' < p_expires p → (k + begins acts < maxAttributions - 1)%nat →
  (∀ now e, Notify now e ∈ acts → describes e p = false) →
  (∀ x, x ∈ writes w' → w_seq x = p_seq p → w_status x ≠ Settled false) →
  stands p (k + begins acts) (pending (attributions w')).
Proof.
  induction acts as [|act acts IH]; intros w w' k Hw Hl Hr Hs Hc Hk Hd Hst; cbn in Hr.
  { injection Hr as <-. unfold begins. cbn. by rewrite Nat.add_0_r. }
  destruct (perform act w) as [w1|] eqn:Ep; [|done]. cbn in Hr, Hl.
  destruct (world_step_ok act w w1 Hw) as [Hw1 Hl1]; [lia|done|].
  assert (Hb : begins (act :: acts) = (begins [act] + begins acts)%nat) by (unfold begins; cbn; by destruct act).
  rewrite Hb in *. rewrite Nat.add_assoc in *. assert (Hc1 := run_clock _ _ _ Hr).
  apply (IH w1 w' (k + begins [act])%nat); try done; [lia|..].
  - apply (perform_stands act w w1 p k Hw Hw1 Ep Hs); [lia|unfold maxAttributions in *; lia|..].
    + intros now e ->. eapply Hd. apply list_elem_of_here.
    + intros x Hx E Hf. eapply Hst; [|done|done]. eapply (run_refused acts x w1); [done|lia|done..].
  - intros now e He. eapply Hd. apply elem_of_cons. by right.
Qed.

Lemma run_length acts : ∀ w w', world_ok w → Z.of_nat (length (writes w) + length acts) < 2 ^ 64 →
  run acts w = Some w' → (length (writes w') ≤ length (writes w) + length acts)%nat.
Proof.
  induction acts as [|act acts IH]; cbn; intros w w' Hw Hl Hr; [injection Hr as <-; lia|].
  destruct (perform act w) as [w1|] eqn:Ep; [|done].
  destruct (world_step_ok act w w1 Hw) as [H1 H2]; [lia|done|]. specialize (IH w1 w' H1 ltac:(lia) Hr). lia.
Qed.

(** A write that is not refused is credited with the first event that
    describes it: whatever happens in between, when that event comes within a
    minute and before a thousand and twenty-three further writes, and no other
    write of ours could have caused it but an older update where this is one,
    the event is credited to the writer. *)
Theorem write_is_credited acts acts' w0 w1 w now x actor now' e :
  run acts start = Some w0 → perform (Begin now x actor) w0 = Some w1 → run acts' w1 = Some w →
  Z.of_nat (length acts + S (length acts')) < 2 ^ 64 → (begins acts' < 1023)%nat →
  clock w ≤ now' < now + attributionTTL → Action e ≠ actionRefChanged →
  (∀ t e', Notify t e' ∈ acts' → describes e' (mkPending x actor (now + attributionTTL) (seq (attributions w1))) = false) →
  (∀ y, y ∈ writes w → w_seq y = seq (attributions w1) → w_status y ≠ Settled false) →
  describes e (mkPending x actor (now + attributionTTL) (seq (attributions w1))) = true →
  (∀ y, y ∈ writes w → describes e (entry_of y) = true → w_seq y = seq (attributions w1) ∨
    is_update x = true ∧ x_After (w_Expectation y) < x_After x) →
  (match_ now' e (attributions w)).2 = Some actor.
Proof.
  intros Hr0 Hp Hr Hl Hb Hc Ha Hd Hst He Hothers. rewrite Nat2Z.inj_add in Hl.
  assert (Hw0 : world_ok w0) by (apply (writers_run_ok acts start w0 writers_start_ok); [cbn; lia|done]).
  assert (Hl0 := run_length acts start w0 writers_start_ok ltac:(cbn; lia) Hr0). cbn [start writes length] in Hl0.
  destruct (world_step_ok (Begin now x actor) w0 w1 Hw0) as [Hw1 Hl1]; [lia|exact Hp|].
  assert (Hw : world_ok w) by (apply (writers_run_ok acts' w1 w Hw1); [lia|done]).
  set (p := mkPending x actor (now + attributionTTL) (seq (attributions w1))) in *.
  assert (Hs1 : stands p 0 (pending (attributions w1))).
  { cbn [perform] in Hp. destruct (_ && _); [|done].
    destruct (Expect_spec now x actor (attributions w0)) as (l & _ & Ee); [rewrite (wo_seq w0 Hw0); lia..|].
    unfold expect in Hp. rewrite Ee in Hp. injection Hp as <-. exists l, []. cbn. split; [done|lia]. }
  assert (Hin : p ∈ pending (attributions w)).
  { apply (stands_in p (0 + begins acts')), (run_stands acts' p w1 w 0 Hw1); try done;
      [lia|cbn; lia]. }
  pose proof (match_pending_spec now' e _ (wo_pending w Hw)) as Hm. unfold match_.
  assert (Hpr : p ∈ prune now' (pending (attributions w))) by (apply prune_keeps; [done|cbn; lia]).
  destruct (match_pending now' e (attributions w)) as [a [q|]]; cbn [snd].
  - destruct Hm as (_ & _ & Hq & Hdq & _ & Hbest & _). apply prune_in in Hq.
    destruct (wo_registered w Hw q Hq) as (y & Hy & -> & _).
    destruct (Hothers y Hy Hdq) as [Es|[Hu Hlt]]; [|specialize (Hbest p Hpr He Hu); cbn in Hbest; lia].
    destruct (wo_registered w Hw p Hin) as (z & Hz & Ez & _).
    assert (y = z) as ->; [|by rewrite <- Ez].
    eapply (write_unique (writes w)); [apply (wo_writes w Hw)|done|done|]. rewrite Es.
    change (seq (attributions w1)) with (p_seq p). by rewrite Ez.
  - destruct Hm as (_ & _ & Hno & _). rewrite (Hno Ha p Hpr) in He. done.
Qed.

(** * The runs that show it *)

Definition alice : Actor := mkActor "alice" "" "oidc" "" "dashboard".
Definition bob : Actor := mkActor "bob" "Bob" "oidc" "" "rest".

(** What the watcher tells of the service web at a version. *)
Definition web_at (version : Z) : Event :=
  mkEvent EventService "update" "web" "web"
    (RService (mkService "web" version "web" ∅ (mkTaskSpec None []) None (mkServiceMode None true false false) None)) RNone "" "".

Definition web_after (version : Z) : Expectation := mkExpectation EventService "web" "" version.

(** Two updates one after the other, then an event that brings both: the later
    one is credited, and nothing is left to credit. *)
Example both_at_once :
  (w ← run [External EventService "web" 10; Begin 1 (web_after 10) alice; Land 1 (Accepted "web" 11); Settle 1;
            Begin 2 (web_after 11) bob; Land 2 (Accepted "web" 12); Settle 2] start;
   let '(a, actor) := match_ 3 (web_at 12) (attributions w) in Some (actor, pending a)) = Some (Some bob, []).
Proof. reflexivity. Qed.

(** Two writers that read the same version: the engine takes bob's update and
    refuses alice's, but the event comes before alice's refusal is withdrawn.
    It is credited to alice, and bob's write to nobody. *)
Theorem refused_write_credited : ∃ w a,
  run [External EventService "web" 10; Begin 1 (web_after 10) alice; Begin 2 (web_after 10) bob;
       Land 2 (Accepted "web" 11); Settle 2; Land 1 Refused] start = Some w ∧
  match_ 3 (web_at 11) (attributions w) = (a, Some alice) ∧ pending a = [] ∧
  (∃ x, x ∈ writes w ∧ w_actor x = alice ∧ w_status x = Answered false) ∧
  mkCommit EventService "web" 11 (Some 2) ∈ commits w ∧ (∃ x, x ∈ writes w ∧ w_actor x = bob ∧ w_seq x = 2).
Proof.
  eexists _, _. split; [vm_compute; reflexivity|]. split; [vm_compute; reflexivity|]. split_and!; [reflexivity|..].
  - eexists. split; [apply elem_of_cons; right; apply list_elem_of_here|done].
  - apply list_elem_of_here.
  - eexists. split; [apply list_elem_of_here|done].
Qed.

Definition demo_writes : list action :=
  [External EventService "web" 10; Begin 1 (web_after 10) alice; Begin 2 (web_after 10) bob;
   Land 2 (Accepted "web" 11); Settle 2; Land 1 Refused; Settle 1].

Definition demo_world : World :=
  mkWorld (mkAttributions [mkPending (web_after 10) bob (2 + attributionTTL) 2] 2)
    [mkWrite 2 (web_after 10) bob 2 (Settled true); mkWrite 1 (web_after 10) alice 1 (Settled false)]
    [mkCommit EventService "web" 11 (Some 2); mkCommit EventService "web" 10 None] 2 [].

Lemma credit_is_earned_witness :
  run demo_writes start = Some demo_world ∧
  ∃ x, x ∈ writes demo_world ∧ w_actor x = bob ∧ w_status x = Settled true ∧ w_at x ≤ 3 < w_at x + attributionTTL ∧
    describes (web_at 11) (entry_of x) = true ∧ (w_seq x ∉ credits demo_world) ∧
    (is_update (w_Expectation x) = true → ∃ v nv, resourceVersion (Resource_ (web_at 11)) = Some v ∧
      mkCommit EventService "web" nv (Some (w_seq x)) ∈ commits demo_world ∧ x_After (w_Expectation x) < nv ≤ v) ∧
    (∀ q, q ∈ pending (attributions demo_world) → 3 < p_expires q → describes (web_at 11) q = true →
      is_update (p_Expectation q) = true → x_After (p_Expectation q) ≤ x_After (w_Expectation x)).
Proof.
  split; [reflexivity|].
  refine (credit_is_earned demo_writes demo_world 3 (web_at 11) (mkAttributions [] 2)
    (mkPending (web_after 10) bob (2 + attributionTTL) 2) _ _ _ _ _ _); [reflexivity|reflexivity|done|reflexivity| |reflexivity].
  intros x Hx _. cbn in Hx. apply elem_of_cons in Hx as [->|Hx]; [by exists true|].
  apply list_elem_of_singleton in Hx as ->. by exists false.
Defined.

(** Alice's update is credited although bob's, made after it, comes between. *)
Example later_writes_wait :
  (w0 ← run [External EventService "web" 10] start;
   w1 ← perform (Begin 1 (web_after 10) alice) w0;
   w ← run [Land 1 (Accepted "web" 11); Settle 1; Begin 2 (web_after 11) bob] w1;
   Some (match_ 3 (web_at 11) (attributions w)).2) = Some (Some alice).
Proof. reflexivity. Qed.
