(* ===== verification/Recovery.v ===== *)
(** What a restart recovers of the time nobody watched: docker/recover.go and
    the recording of a gap in internal/cache/cache.go.

    The engine keeps its last events. Those of the gap that say a resource
    changed become history entries, and the gap is recorded after them with the
    time its record is complete from. What the engine's buffer answers is an
    input, and the read that fills it, with its time-out, is left out. *)
From S2P Require Import Prelude History Watcher.
#[local] Open Scope string_scope.
#[local] Open Scope Z_scope.
#[local] Open Scope list_scope.

(** * Reading the buffer *)

Record Message := mkMessage {
  m_Type : string;
  m_Action : string;
  m_ActorID : string;
  m_Attributes : gmap string string;
  m_TimeNano : Z;
}.

Record Recovery := mkRecovery { Recovered_Entries : list HistoryEntry; From_ : Z }.

Definition no_recovery : Recovery := mkRecovery [] time_zero.

(** The event types of the engine, and what the history calls them: the two
    agree on every name. *)
Definition recoverable (typ : string) : option string :=
  if bool_decide (typ ∈ ["service"; "node"; "secret"; "config"; "network"; "volume"]) then Some typ else None.

Definition historyAction (a : string) : string := if bool_decide (a = "destroy") then "remove" else a.

(** The nanoseconds of a message count from 1970, a time from the zero time. *)
Definition unix_epoch : Z := 62135596800 * 1000000000.
Definition eventTime (msg : Message) : Z := unix_epoch + m_TimeNano msg.

Definition entry_of_message (serviceStacks : gmap string string) (typ : string) (msg : Message) : HistoryEntry :=
  let attr := default "" (m_Attributes msg !! "name") in
  let name := if bool_decide (attr = "") then m_ActorID msg else attr in
  let stack := if bool_decide (typ = EventService) then default "" (serviceStacks !! m_ActorID msg) else "" in
  mkHistoryEntry 0 KindChange (eventTime msg) time_zero typ (historyAction (m_Action msg)) (m_ActorID msg) name None stack
    "" 0 "" "" time_zero true "" None None.

(** The body of the loop: what a message is recovered as. *)
Definition recover_one (start until : Z) (serviceStacks : gmap string string) (msg : Message) : option HistoryEntry :=
  typ ← recoverable (m_Type msg);
  let at_ := eventTime msg in
  let a := historyAction (m_Action msg) in
  if negb (time_after at_ start) || negb (time_before at_ until) || negb (bool_decide (a ∈ ["create"; "update"; "remove"]))
  then None else Some (entry_of_message serviceStacks typ msg).

Definition recoverFrom (buffered : list Message) (from until : Z) (serviceStacks : gmap string string) : Recovery :=
  let start := from + eventReplayMargin in
  match buffered with
  | [] => no_recovery
  | first :: _ =>
      if negb (time_after until start) then no_recovery else
      let oldest := eventTime first in
      let f := if time_after oldest start then oldest else start in
      if negb (time_before f until) then no_recovery else
      mkRecovery (omap (recover_one start until serviceStacks) buffered) f
  end.

(** A read that failed recovers nothing. *)
Definition RecoverGap (buffer : option (list Message)) (from until : Z) (serviceStacks : gmap string string) : Recovery :=
  match buffer with Some buffered => recoverFrom buffered from until serviceStacks | None => no_recovery end.

(** * Recording the gap *)

Definition gap_entry (from now : Z) (recovered : Recovery) : HistoryEntry :=
  mkHistoryEntry 0 KindGap from now "" "" "" "" None "" "" 0 "" "" (From_ recovered) false "" None None.

(** notify of a gap: what was recovered takes the IDs just below the gap's. *)
Definition RecordRecoveredGap (from now : Z) (recovered : Recovery) (h : History) : Z * History :=
  Append now (gap_entry from now recovered)
    (foldl (λ h e, (Append now e h).2) h (Recovered_Entries recovered)).

Definition RecordGap (from now : Z) (h : History) : Z * History := RecordRecoveredGap from now no_recovery h.

(** * What is recovered *)

(** A message of a change the history records. *)
Definition records (msg : Message) : bool :=
  match recoverable (m_Type msg) with
  | Some _ => bool_decide (historyAction (m_Action msg) ∈ ["create"; "update"; "remove"])
  | None => false
  end.

Lemma recover_one_Some start until stacks msg e :
  recover_one start until stacks msg = Some e ↔
  records msg = true ∧ start < eventTime msg < until ∧
  e = entry_of_message stacks (default "" (recoverable (m_Type msg))) msg.
Proof.
  unfold recover_one, records. destruct (recoverable (m_Type msg)) as [typ|]; cbn; [|naive_solver].
  unfold time_after, time_before.
  destruct (Z.ltb_spec start (eventTime msg)), (Z.ltb_spec (eventTime msg) until); cbn;
    destruct (bool_decide _); cbn; split; try done; try (intros (? & ? & ?); first [done|lia]).
  - intros [= <-]. done.
  - by intros (_ & _ & ->).
Qed.

Definition in_order (l : list Message) : Prop := StronglySorted (λ a b, eventTime a ≤ eventTime b) l.

Lemma omap_times start until stacks l :
  in_order l → StronglySorted (λ a b, Timestamp a ≤ Timestamp b) (omap (recover_one start until stacks) l).
Proof.
  intros Hl. induction l as [|m l IH]; [constructor|]. apply StronglySorted_inv in Hl as [Hl Hm]. cbn.
  destruct (recover_one start until stacks m) as [e|] eqn:E; [|by apply IH].
  apply recover_one_Some in E as (_ & _ & ->). constructor; [by apply IH|].
  rewrite Forall_forall in Hm. apply Forall_forall. intros e (m' & Hm' & E')%list_elem_of_omap.
  apply recover_one_Some in E' as (_ & _ & ->). cbn. by apply Hm.
Qed.

(** What a gap's recovery reports is exactly the changes the engine had from
    the time it says it is complete from until the live stream takes over: of
    everything the engine emitted, of which its buffer holds the last, every
    change in between is an entry, every entry is such a change or one at that
    very time, none lies within the margin the process before may have recorded
    or past the start of the stream, and they are in order. It is complete
    from the margin's end when the buffer reaches back that far, and nothing
    is claimed when the buffer reaches nothing of the gap. *)
Theorem recovery_is_complete earlier buffered from until stacks :
  in_order (earlier ++ buffered) →
  let r := recoverFrom buffered from until stacks in
  let start := from + eventReplayMargin in
  (r = no_recovery ∧ (until ≤ start ∨ ∀ m, m ∈ buffered → until ≤ eventTime m) ∨
   start ≤ From_ r < until ∧ ((∃ m, m ∈ buffered ∧ eventTime m ≤ start) → From_ r = start) ∧
   (∀ m, m ∈ earlier ++ buffered → records m = true → From_ r < eventTime m < until →
     entry_of_message stacks (default "" (recoverable (m_Type m))) m ∈ Recovered_Entries r)) ∧
  (∀ e, e ∈ Recovered_Entries r → ∃ m, m ∈ buffered ∧ records m = true ∧ start < eventTime m < until ∧
    From_ r ≤ eventTime m ∧ e = entry_of_message stacks (default "" (recoverable (m_Type m))) m) ∧
  StronglySorted (λ a b, Timestamp a ≤ Timestamp b) (Recovered_Entries r).
Proof.
  intros Ho r start. subst r. unfold recoverFrom. fold start.
  destruct buffered as [|first rest]; [cbn; split_and!; [left; split; [done|right; set_solver]|set_solver|constructor]|].
  apply StronglySorted_app in Ho as (He & _ & Hb). assert (Hfirst := Hb). apply StronglySorted_inv in Hfirst as [_ Hf].
  assert (Hle : ∀ m, m ∈ first :: rest → eventTime first ≤ eventTime m).
  { rewrite Forall_forall in Hf. intros m Hm. apply elem_of_cons in Hm as [->|Hm]; [lia|auto]. }
  unfold time_after, time_before. destruct (Z.ltb_spec start until) as [Hu|Hu]; cbn [negb];
    [|cbn; split_and!; [left; split; [done|by left]|set_solver|constructor]].
  set (f := if start <? eventTime first then eventTime first else start).
  assert (Hfs : start ≤ f ∧ (eventTime first ≤ start → f = start) ∧ (start < eventTime first → f = eventTime first))
    by (subst f; destruct (Z.ltb_spec start (eventTime first)); lia).
  destruct (Z.ltb_spec f until) as [Hfu|Hfu]; cbn [negb].
  2:{ cbn. split_and!; [left; split; [done|]; right|set_solver|constructor].
      intros m Hm%Hle. destruct (Z.le_gt_cases (eventTime first) start); lia. }
  cbn [Recovered_Entries From_]. split_and!.
  - right. split_and!; [lia|lia| |].
    + intros (m & Hm%Hle & Hs). apply Hfs. lia.
    + intros m Hm Hr Ht. apply list_elem_of_omap. exists m. split; [|apply recover_one_Some; split_and!; [done|lia|lia|done]].
      apply elem_of_app in Hm as [Hm|Hm]; [|done]. specialize (He m first Hm ltac:(set_solver)).
      destruct (Z.le_gt_cases (eventTime first) start); lia.
  - intros e (m & Hm & E)%list_elem_of_omap. apply recover_one_Some in E as (Hr & Ht & ->). exists m.
    split_and!; try done; try lia. apply Hle in Hm. destruct (Z.le_gt_cases (eventTime first) start); lia.
  - by apply omap_times.
Qed.

(** * How a gap is recorded *)

Lemma foldl_Append now l : ∀ all h, recorded all h → (count h + Z.of_nat (length l) < max_uint64)%Z →
  let h' := foldl (λ h e, (Append now e h).2) h l in
  count h' = count h + Z.of_nat (length l) ∧
  recorded (all ++ imap (λ i e, stamp now (count h + 1 + Z.of_nat i) e) l) h'.
Proof.
  induction l as [|e l IH]; intros all h Hr Hb; cbn [foldl length imap]; [split; [cbn; lia|by rewrite app_nil_r]|].
  cbn [length] in Hb. assert (Hc := proj2 (Append_ok all now e h (recorded_ok _ _ Hr) ltac:(lia))). destruct Hc as (_ & Hc & _).
  destruct (IH _ _ (recorded_append all h now e Hr ltac:(lia))) as [H1 H2]; [rewrite Hc; lia|].
  rewrite Hc in H1, H2. split; [rewrite H1; lia|]. rewrite <- app_assoc in H2. cbn in H2.
  rewrite Z.add_0_r. erewrite imap_ext; [exact H2|]. intros i x _. cbn. f_equal. lia.
Qed.

(** The recovered changes are recorded in order just below their gap, each
    under an ID of its own, and the gap after them under the last. *)
Theorem gap_is_recorded all h from now recovered :
  recorded all h → count h + Z.of_nat (length (Recovered_Entries recovered)) + 1 < max_uint64 →
  let n := Z.of_nat (length (Recovered_Entries recovered)) in
  (RecordRecoveredGap from now recovered h).1 = count h + n + 1 ∧
  recorded (all ++ imap (λ i e, stamp now (count h + 1 + Z.of_nat i) e) (Recovered_Entries recovered) ++
            [stamp now (count h + n + 1) (gap_entry from now recovered)])
    (RecordRecoveredGap from now recovered h).2.
Proof.
  intros Hr Hb n. destruct (foldl_Append now (Recovered_Entries recovered) all h Hr ltac:(lia)) as [Hc H].
  unfold RecordRecoveredGap. fold n in Hc. split.
  - rewrite (proj1 (proj2 (Append_ok _ now (gap_entry from now recovered) _ (recorded_ok _ _ H) ltac:(lia)))). lia.
  - rewrite app_assoc. rewrite <- Hc. apply recorded_append; [done|lia].
Qed.

Definition demo_message (typ a id : string) (at_ : Z) : Message :=
  mkMessage typ a id {[ "name" := id ]} (at_ - unix_epoch).

Example recovered_changes :
  let l := [demo_message "container" "start" "c" 7000000000; demo_message "service" "update" "web" 8000000000;
            demo_message "network" "destroy" "net" 9000000000] in
  let r := recoverFrom l 1000000000 20000000000 {[ "web" := "shop" ]} in
  (From_ r, (λ e, (Type_ e, Action e, ResourceID e, Stack e)) <$> Recovered_Entries r) =
  (7000000000, [("service", "update", "web", "shop"); ("network", "remove", "net", "")]).
Proof. vm_compute. reflexivity. Qed.
