(* ===== verification/TimelineStore.v ===== *)
(** The timeline on disk: the tables of internal/timeline/sqlite.go and the
    writer of internal/timeline/writer.go that follows the history's ring.

    A statement is what its SQL says of the tables: a row is keyed by its ID, a
    transaction lands whole or not at all. Columns keep what a history entry of
    the model has, and a time is kept whole, where the store keeps a 64-bit
    count of nanoseconds. Opening, migrating and locking the database are left
    out, as is what only decides what is logged. *)
From S2P Require Import Prelude GoStrings SortedLists History.
#[local] Open Scope string_scope.
#[local] Open Scope Z_scope.
#[local] Open Scope list_scope.

(** * The store *)

Record Batch := mkBatch {
  Entries : list HistoryEntry;
  SeenAt : Z;
  Last : Z;
  Keep : Z;
}.

Record Coverage := mkCoverage { co_id : Z; started_at : Z; seen_at : Z }.

(** The tables, and what the process holds beside them: its coverage row and
    how many rows of the ring's kinds there are. *)
Record SQLite := mkSQLite {
  timeline : gmap Z HistoryEntry;
  annotations : gmap Z Annotation;
  sequence : Z;
  coverages : list Coverage;
  coverage : Z;
  stored : Z;
}.

Definition ringKinds (e : HistoryEntry) : bool := bool_decide (Kind e = KindChange) || bool_decide (Kind e = KindGap).

Definition compare_entry (a b : HistoryEntry) : comparison := Z.compare (ID a) (ID b).

(** The rows of the ring's kinds, ORDER BY id. *)
Definition ring_rows (rows : gmap Z HistoryEntry) : list HistoryEntry :=
  SortFunc compare_entry (List.filter ringKinds (map_to_list rows).*2).

Definition insert_row (acc : gmap Z HistoryEntry * Z) (e : HistoryEntry) : gmap Z HistoryEntry * Z :=
  let '(rows, inserted) := acc in
  match rows !! ID e with
  | Some _ => (rows, inserted)
  | None => (<[ID e := e]> rows, if ringKinds e then inserted + 1 else inserted)
  end.

Definition insert (rows : gmap Z HistoryEntry) (entries : list HistoryEntry) : gmap Z HistoryEntry * Z :=
  foldl insert_row (rows, 0) entries.

(** UPDATE coverage of this process's row. *)
Definition see (at_ id : Z) (l : list Coverage) : list Coverage :=
  (λ c, if co_id c =? id then mkCoverage (co_id c) (started_at c) (Z.max at_ (started_at c + 1)) else c) <$> l.

Definition max_of (l : list Z) : option Z := match l with [] => None | x :: l => Some (foldl Z.max x l) end.
Definition min_of (l : list Z) : option Z := match l with [] => None | x :: l => Some (foldl Z.min x l) end.

Definition heartbeated (c : Coverage) : bool := started_at c <? seen_at c.

(** The coverage that ended before the oldest row; a comparison with no row is
    not true. *)
Definition prune_coverages (rows : gmap Z HistoryEntry) (l : list Coverage) : list Coverage :=
  match min_of (Timestamp <$> ring_rows rows) with
  | None => l
  | Some oldest =>
      List.filter (λ c,
        negb ((seen_at c <? oldest) &&
              match max_of (co_id <$> l) with Some m => co_id c <? m | None => false end &&
              negb (bool_decide (max_of (co_id <$> List.filter heartbeated l) = Some (co_id c))))) l
  end.

(** A transaction that lands. *)
Definition Commit (batch : Batch) (s : SQLite) : SQLite :=
  let '(rows, inserted) := insert (timeline s) (Entries batch) in
  let count := stored s + inserted in
  let sequence' := if 0 <? Last batch then Z.max (sequence s) (Last batch) else sequence s in
  let seen := if negb (coverage s =? 0) && negb (is_zero_time (SeenAt batch)) then see (SeenAt batch) (coverage s) (coverages s) else coverages s in
  if Keep batch <=? 0 then mkSQLite rows (annotations s) sequence' seen (coverage s) count else
  let excess := count - Keep batch in
  let deleted := if 0 <? excess then take (Z.to_nat excess) (ring_rows rows) else [] in
  let rows' := foldl (λ rows e, delete (ID e) rows) rows deleted in
  mkSQLite rows' (annotations s) sequence' (prune_coverages rows' seen) (coverage s) (count - Z.of_nat (length deleted)).

Definition Restore (limit : nat) (s : SQLite) : list HistoryEntry * Z :=
  let rows := ring_rows (timeline s) in
  (drop (length rows - limit) rows,
   Z.max (default 0 (max_of (map_to_list (timeline s)).*1))
     (Z.max (default 0 (max_of (a_Version <$> (map_to_list (annotations s)).*2))) (sequence s))).

(** ORDER BY seen_at > started_at DESC, id DESC LIMIT 1. *)
Definition LastSeen (s : SQLite) : option Z :=
  seen_at <$> head (SortFunc (λ a b,
    cmp_or (Z.compare (Z.b2z (heartbeated b)) (Z.b2z (heartbeated a))) (Z.compare (co_id b) (co_id a))) (coverages s)).

Definition OpenCoverage (at_ : Z) (s : SQLite) : SQLite :=
  let id := default 0 (max_of (co_id <$> coverages s)) + 1 in
  mkSQLite (timeline s) (annotations s) (sequence s) (coverages s ++ [mkCoverage id at_ at_]) id (stored s).

(** OpenSQLite counts what is stored. *)
Definition OpenSQLite (s : SQLite) : SQLite :=
  mkSQLite (timeline s) (annotations s) (sequence s) (coverages s) 0 (Z.of_nat (length (ring_rows (timeline s)))).

(** * The writer *)

Definition time_Second : Z := 1000000000.
Definition quietHeartbeat : Z := 15 * time_Second.

Record Writer := mkWriter {
  keep : Z;
  lastWritten : Z;
  retained : bool;
  heartbeat : Z;
  gapChecked : bool;
  covering : bool;
  seenAt : Z;
}.

Definition NewWriter (keep : Z) (h : History) : Writer := mkWriter keep (count h) false time_zero false false time_zero.

(** What flush reads of the ring: the entries to insert and the ID it will have
    written up to. *)
Definition flush_since (h : History) (w : Writer) : list HistoryEntry * Z :=
  let entries := (Since (lastWritten w) h).1 in
  (List.filter (λ e, negb (bool_decide (Kind e = KindAnnotation))) entries,
   match last entries with Some e => ID e | None => lastWritten w end).

(** The batch, once it has the lock. *)
Definition flush_batch (live : bool) (now : Z) (entries : list HistoryEntry) (last_ : Z) (w : Writer) : Batch :=
  let batch_last := if lastWritten w <? last_ then last_ else 0 in
  let seen :=
    if covering w && live && ((0 <? batch_last) || (quietHeartbeat <=? time_sub now (heartbeat w))) then now else time_zero in
  mkBatch entries seen batch_last (if bool_decide (entries ≠ []) || negb (retained w) then keep w else 0).

Definition nothing_to_write (b : Batch) : bool :=
  bool_decide (Entries b = []) && is_zero_time (SeenAt b) && (Keep b =? 0) && (Last b =? 0).

Definition with_written (last_ : Z) (w : Writer) : Writer :=
  mkWriter (keep w) last_ (retained w) (heartbeat w) (gapChecked w) (covering w) (seenAt w).

(** flush after its commit, the lock taken again. *)
Definition flushed (b : Batch) (last_ : Z) (w : Writer) : Writer :=
  mkWriter (keep w) last_ true (if is_zero_time (SeenAt b) then heartbeat w else SeenAt b) (gapChecked w) (covering w)
    (if covering w && time_after (SeenAt b) (seenAt w) then SeenAt b else seenAt w).

(** The clock when a gap is asked for, when it is recorded, and after. *)
Record Clock := mkClock { asked : Z; ended : Z; over : Z }.

(** The gap recorded, if any. [fails] is whether the store does not answer. *)
Definition recordGapLocked (fails : bool) (t : Clock) (s : SQLite) (w : Writer) : option (Z * Z) * Writer :=
  let previous := if is_zero_time (seenAt w) then (if fails then None else Some (LastSeen s)) else Some (Some (seenAt w)) in
  match previous with
  | None => (None, w)
  | Some previous =>
      (match previous with Some p => if time_before p (asked t) then Some (p, ended t) else None | None => None end,
       mkWriter (keep w) (lastWritten w) (retained w) (heartbeat w) true (covering w) (over t))
  end.

Definition uncovered (w : Writer) : Writer :=
  mkWriter (keep w) (lastWritten w) (retained w) (heartbeat w) (gapChecked w) false (seenAt w).

Definition RecordGap (fails : bool) (t : Clock) (s : SQLite) (w : Writer) : option (Z * Z) * Writer :=
  recordGapLocked fails t s (uncovered w).

Definition openCoverage (seen_fails open_fails : bool) (t : Clock) (now : Z) (s : SQLite) (w : Writer)
    : option (Z * Z) * SQLite * Writer :=
  let '(gap, w) := if gapChecked w then (None, w) else recordGapLocked seen_fails t s w in
  if negb (gapChecked w) then (gap, s, w)
  else if open_fails then (gap, mkSQLite (timeline s) (annotations s) (sequence s) (coverages s) 0 (stored s), w)
  else (gap, OpenCoverage now s, mkWriter (keep w) (lastWritten w) (retained w) (heartbeat w) true true now).

(** * The writer beside what it follows *)

(** Where a flush is: between its reads, before its commit, or not running. *)
Inductive flushing :=
| Idle
| Read (entries : list HistoryEntry) (last_ : Z)
| Building (batch : Batch) (last_ : Z).

(** [log] is all that was recorded, [written] what commits that landed carried,
    [overrun] whether a read found entries already overwritten. *)
Record World := mkWorld {
  history : History;
  log : list HistoryEntry;
  store : SQLite;
  writer : Writer;
  flush : flushing;
  gaps : list (Z * Z);
  written : list HistoryEntry;
  overrun : bool;
}.

Inductive action :=
| ARecord (now : Z) (e : HistoryEntry)
| ASince
| ABatch (live : bool) (now : Z)
| ACommit (lands : bool)
| AStop
| ARecordGap (fails : bool) (t : Clock)
| AOpen (seen_fails open_fails : bool) (t : Clock) (now : Z)
| AAnnotations (m : gmap Z Annotation).

Definition set_flush (f : flushing) (x : World) : World :=
  mkWorld (history x) (log x) (store x) (writer x) f (gaps x) (written x) (overrun x).

Definition record_entry (now : Z) (e : HistoryEntry) (x : World) : World :=
  let '(id, h) := Append now e (history x) in
  mkWorld h (log x ++ [stamp now id e]) (store x) (writer x) (flush x) (gaps x) (written x) (overrun x).

(** A gap goes to the ring beside what else is recorded; when, is the others'
    [ARecord]. *)
Definition add_gap (gap : option (Z * Z)) (s : SQLite) (w : Writer) (x : World) : World :=
  mkWorld (history x) (log x) s w (flush x) (gaps x ++ option_list gap) (written x) (overrun x).

Definition commit (lands : bool) (batch : Batch) (last_ : Z) (x : World) : World :=
  if nothing_to_write batch then
    mkWorld (history x) (log x) (store x) (with_written last_ (writer x)) Idle (gaps x) (written x) (overrun x)
  else if lands then
    mkWorld (history x) (log x) (Commit batch (store x)) (flushed batch last_ (writer x)) Idle (gaps x)
      (written x ++ Entries batch) (overrun x)
  else set_flush Idle x.

Definition perform (act : action) (x : World) : World :=
  match act, flush x with
  | ARecord now e, _ => record_entry now e x
  | ASince, Idle =>
      let '(entries, last_) := flush_since (history x) (writer x) in
      mkWorld (history x) (log x) (store x) (writer x) (Read entries last_) (gaps x) (written x)
        (overrun x || negb (Since (lastWritten (writer x)) (history x)).2)
  | ABatch live now, Read entries last_ => set_flush (Building (flush_batch live now entries last_ (writer x)) last_) x
  | ACommit lands, Building batch last_ => commit lands batch last_ x
  | AStop, Idle =>
      let w := writer x in
      mkWorld (history x) (log x) (store x)
        (mkWriter (keep w) (lastWritten w) (retained w) time_zero (gapChecked w) (covering w) (seenAt w))
        Idle (gaps x) (written x) (overrun x)
  | ARecordGap fails t, _ => let '(gap, w) := RecordGap fails t (store x) (writer x) in add_gap gap (store x) w x
  | AOpen seen_fails open_fails t now, Idle =>
      let '(gap, s, w) := openCoverage seen_fails open_fails t now (store x) (writer x) in add_gap gap s w x
  | AAnnotations m, _ =>
      let s := store x in
      mkWorld (history x) (log x) (mkSQLite (timeline s) m (sequence s) (coverages s) (coverage s) (stored s))
        (writer x) (flush x) (gaps x) (written x) (overrun x)
  | _, _ => x
  end.

(** restoreTimeline and NewWriter: the history restored, the IDs it reserves
    stored, if that lands. The history keeps as many entries as the store. *)
Definition boot (n : nat) (inst : string) (reserved : bool) (s : SQLite) : World :=
  let s := OpenSQLite s in
  let '(entries, last_) := Restore n s in
  let h := History.Restore entries last_ inst (NewHistory n "") in
  mkWorld h entries (if reserved then Commit (mkBatch [] time_zero (count h) 0) s else s) (NewWriter (Z.of_nat n) h) Idle [] [] false.

(** The runs in which the 64-bit count does not come around. *)
Inductive runs (n : nat) (inst : string) (reserved : bool) (s : SQLite) : World → Prop :=
| runs_boot : runs n inst reserved s (boot n inst reserved s)
| runs_step act x : runs n inst reserved s x → count (history x) + 1 < max_uint64 → runs n inst reserved s (perform act x).

(** * The rows in order *)

Definition rising (l : list HistoryEntry) : Prop := StronglySorted (λ a b, ID a < ID b) l.

Definition keyed (rows : gmap Z HistoryEntry) : Prop := ∀ id e, rows !! id = Some e → ID e = id.

#[export] Instance rising_antisymm : AntiSymm (=) (λ a b : HistoryEntry, ID a < ID b).
Proof. intros a b H1 H2. lia. Qed.

Lemma rising_unique l k : rising l → rising k → l ≡ₚ k → l = k.
Proof. apply (StronglySorted_unique (λ a b : HistoryEntry, ID a < ID b)). Qed.

Lemma rows_ids rows : keyed rows → (ID <$> (map_to_list rows).*2) = (map_to_list rows).*1.
Proof.
  intros Hk. rewrite <- list_fmap_compose. apply list_fmap_ext. intros i [id e] Hi%list_elem_of_lookup_2%elem_of_map_to_list.
  by apply Hk.
Qed.

Lemma ring_rows_rising rows : keyed rows → rising (ring_rows rows).
Proof.
  intros Hk. apply (SortFunc_strict ID).
  assert (NoDup (ID <$> (map_to_list rows).*2)) as Hn by (rewrite rows_ids by done; apply NoDup_fst_map_to_list).
  revert Hn. induction ((map_to_list rows).*2) as [|e l IH]; [done|]. rewrite fmap_cons, NoDup_cons. intros [H1 H2]. cbn.
  destruct (ringKinds e); [|by apply IH]. rewrite fmap_cons, NoDup_cons. split; [|by apply IH].
  rewrite !list_elem_of_fmap in *. intros (f & Hf & Hin%list_elem_of_In%filter_In). apply H1. exists f. split; [done|].
  apply list_elem_of_In, Hin.
Qed.

Lemma filter_perm {A} (f : A → bool) l k : l ≡ₚ k → List.filter f l ≡ₚ List.filter f k.
Proof.
  induction 1 as [|x l k _ IH|x y l|l k m _ IH1 _ IH2]; cbn; [done| | |by rewrite IH1].
  - destruct (f x); [by rewrite IH|done].
  - destruct (f x), (f y); try done. constructor.
Qed.

Lemma ring_rows_perm rows : ring_rows rows ≡ₚ List.filter ringKinds (map_to_list rows).*2.
Proof. apply SortFunc_perm. Qed.

Lemma elem_of_ring_rows rows e : keyed rows → e ∈ ring_rows rows ↔ rows !! ID e = Some e ∧ ringKinds e = true.
Proof.
  intros Hk. rewrite ring_rows_perm, list_elem_of_In, filter_In, <- list_elem_of_In, list_elem_of_fmap. split.
  - intros [([id e'] & -> & Hin%elem_of_map_to_list) Hr]. cbn in *. by rewrite (Hk id e').
  - intros [He Hr]. split; [|done]. exists (ID e, e). split; [done|]. by apply elem_of_map_to_list.
Qed.

Lemma keyed_insert rows e : keyed rows → keyed (<[ID e := e]> rows).
Proof. intros Hk id f [[<- <-]|[_ ?]]%lookup_insert_Some; [done|by apply Hk]. Qed.

Lemma keyed_delete rows id : keyed rows → keyed (delete id rows).
Proof. intros Hk i f [_ ?]%lookup_delete_Some. by apply Hk. Qed.

Lemma rising_snoc l e : rising l → (∀ a, a ∈ l → ID a < ID e) → rising (l ++ [e]).
Proof.
  intros Hl He. apply StronglySorted_app. split_and!; [|done|repeat constructor]. intros a b Ha ->%list_elem_of_singleton. by apply He.
Qed.

Lemma ring_rows_snoc rows e : keyed rows → (∀ id, is_Some (rows !! id) → id < ID e) →
  ring_rows (<[ID e := e]> rows) = ring_rows rows ++ (if ringKinds e then [e] else []).
Proof.
  intros Hk Hlt. assert (rows !! ID e = None) as Hnone.
  { destruct (rows !! ID e) eqn:E; [|done]. specialize (Hlt (ID e) ltac:(by eexists)). lia. }
  apply rising_unique; [by apply ring_rows_rising, keyed_insert| |].
  - destruct (ringKinds e); [|rewrite app_nil_r; by apply ring_rows_rising]. apply rising_snoc; [by apply ring_rows_rising|].
    intros a [Ha _]%(elem_of_ring_rows rows a Hk). apply Hlt. by eexists.
  - rewrite !ring_rows_perm, (filter_perm _ _ ((ID e, e) :: map_to_list rows).*2) by (by apply fmap_Permutation, map_to_list_insert).
    cbn. destruct (ringKinds e); [|by rewrite app_nil_r]. by rewrite Permutation_app_comm.
Qed.

(** Inserting entries past every row. *)
Lemma insert_spec E : ∀ rows k, keyed rows → rising E → (∀ id e, is_Some (rows !! id) → e ∈ E → id < ID e) →
  let '(rows', inserted) := foldl insert_row (rows, k) E in
  keyed rows' ∧ ring_rows rows' = ring_rows rows ++ List.filter ringKinds E ∧
  inserted = k + Z.of_nat (length (List.filter ringKinds E)) ∧
  (∀ id, is_Some (rows' !! id) ↔ is_Some (rows !! id) ∨ ∃ e, e ∈ E ∧ ID e = id).
Proof.
  induction E as [|e E IH]; intros rows k Hk HE Hlt.
  - cbn. rewrite app_nil_r. split_and!; [done|done|lia|]. intros id. split; [by left|]. intros [?|(e & ?%not_elem_of_nil & _)]; done.
  - apply StronglySorted_inv in HE as [HE He]. rewrite Forall_forall in He. cbn [foldl insert_row].
    assert (∀ id, is_Some (rows !! id) → id < ID e) as Hlt' by (intros id Hid; by apply (Hlt id e); [|left]).
    destruct (rows !! ID e) as [f|] eqn:Ef; [specialize (Hlt' (ID e) ltac:(by eexists)); lia|].
    specialize (IH (<[ID e := e]> rows) (if ringKinds e then k + 1 else k) (keyed_insert _ _ Hk) HE).
    assert (∀ id f, is_Some (<[ID e := e]> rows !! id) → f ∈ E → id < ID f) as Hlt2.
    { intros id f [g [[<- <-]|[_ Hg]]%lookup_insert_Some] Hf; [by apply He|]. apply (Hlt id f); [by eexists|by right]. }
    specialize (IH Hlt2). destruct (foldl insert_row _ E) as [rows' inserted].
    destruct IH as (Hk' & Hr & Hi & Hin). split_and!; [done| | |].
    + rewrite Hr, ring_rows_snoc by done. cbn. destruct (ringKinds e); by rewrite <- app_assoc.
    + rewrite Hi. cbn. destruct (ringKinds e); cbn; lia.
    + intros id. rewrite Hin. rewrite lookup_insert_is_Some'. setoid_rewrite elem_of_cons. naive_solver.
Qed.

(** Deleting the oldest rows. *)
Lemma ring_rows_tail rows e l : keyed rows → ring_rows rows = e :: l → ring_rows (delete (ID e) rows) = l.
Proof.
  intros Hk Hr. pose proof (ring_rows_rising rows Hk) as Hs. rewrite Hr in Hs. apply StronglySorted_inv in Hs as [Hl _].
  assert (rows !! ID e = Some e ∧ ringKinds e = true) as [He Hkind].
  { apply elem_of_ring_rows; [done|]. rewrite Hr. by left. }
  apply rising_unique; [by apply ring_rows_rising, keyed_delete|done|].
  apply (Permutation_cons_inv (a := e)). rewrite <- Hr, !ring_rows_perm.
  rewrite (filter_perm _ (map_to_list rows).*2 ((ID e, e) :: map_to_list (delete (ID e) rows)).*2) by (apply fmap_Permutation; symmetry; apply (map_to_list_delete rows (ID e) e He)).
  cbn. by rewrite Hkind.
Qed.

Lemma delete_oldest k : ∀ rows, keyed rows →
  let rows' := foldl (λ rows e, delete (ID e) rows) rows (take k (ring_rows rows)) in
  keyed rows' ∧ ring_rows rows' = drop k (ring_rows rows) ∧ (∀ id, is_Some (rows' !! id) → is_Some (rows !! id)).
Proof.
  induction k as [|k IH]; intros rows Hk; [done|]. destruct (ring_rows rows) as [|e l] eqn:Hr.
  - cbn. rewrite Hr. done.
  - cbn [take drop foldl]. pose proof (ring_rows_tail rows e l Hk Hr) as Ht.
    specialize (IH (delete (ID e) rows) (keyed_delete _ _ Hk)). rewrite Ht in IH. cbv zeta in IH.
    destruct IH as (H1 & H2 & H3). split_and!; [done|done|]. intros id Hid%H3.
    destruct Hid as [f [_ Hf]%lookup_delete_Some]. by eexists.
Qed.

(** The last [n] of a list. *)
Definition newest (n : nat) (l : list HistoryEntry) : list HistoryEntry := drop (length l - n) l.

Lemma newest_app n l k : newest n (newest n l ++ k) = newest n (l ++ k).
Proof.
  unfold newest. destruct (decide (length l ≤ n)%nat) as [Hle|Hgt].
  - by replace (length l - n)%nat with 0%nat by lia.
  - rewrite !length_app, !length_drop. rewrite <- (drop_app_le l k) by lia. rewrite drop_drop. f_equal. lia.
Qed.

Lemma newest_newest n l : newest n (newest n l) = newest n l.
Proof. pose proof (newest_app n l []) as E. by rewrite !app_nil_r in E. Qed.

(** * A commit *)

(** A store's rows are under their IDs, none past [b], and counted. *)
Record store_ok (b : Z) (s : SQLite) : Prop := {
  so_keyed : keyed (timeline s);
  so_ids id : is_Some (timeline s !! id) → 0 < id ≤ b;
  so_stored : stored s = Z.of_nat (length (ring_rows (timeline s)));
}.

Lemma Commit_spec b b' batch s : store_ok b s → b ≤ b' → rising (Entries batch) →
  (∀ e, e ∈ Entries batch → 0 < ID e ∧ b < ID e ≤ b') →
  store_ok b' (Commit batch s) ∧
  ring_rows (timeline (Commit batch s)) =
    (if Keep batch <=? 0 then ring_rows (timeline s) ++ List.filter ringKinds (Entries batch)
     else newest (Z.to_nat (Keep batch)) (ring_rows (timeline s) ++ List.filter ringKinds (Entries batch))) ∧
  sequence (Commit batch s) = (if 0 <? Last batch then Z.max (sequence s) (Last batch) else sequence s) ∧
  annotations (Commit batch s) = annotations s.
Proof.
  intros [Hk Hids Hst] Hb Hr HE. unfold Commit, insert.
  pose proof (insert_spec (Entries batch) (timeline s) 0 Hk Hr) as Hins.
  destruct (foldl insert_row _ _) as [rows inserted].
  destruct Hins as (Hk' & Hrows & Hi & Hin); [by intros id e Hid%Hids He%HE; lia|].
  assert (∀ id, is_Some (rows !! id) → 0 < id ≤ b') as Hids'.
  { intros id [Hid%Hids|(e & He%HE & <-)]%Hin; lia. }
  assert (stored s + inserted = Z.of_nat (length (ring_rows rows))) as Hcount by (rewrite Hrows, length_app, Hst, Hi; lia).
  destruct (Z.leb_spec (Keep batch) 0) as [Hle|Hgt].
  - split; [by constructor|]. cbn [timeline sequence annotations]. by rewrite Hrows.
  - set (excess := stored s + inserted - Keep batch).
    set (k := if 0 <? excess then Z.to_nat excess else 0%nat).
    assert ((if 0 <? excess then take (Z.to_nat excess) (ring_rows rows) else []) = take k (ring_rows rows)) as ->
      by (unfold k; destruct (0 <? excess); [done|by rewrite take_0]).
    assert (k = length (ring_rows rows) - Z.to_nat (Keep batch))%nat as Hkk
      by (unfold k, excess; rewrite Hcount; destruct (Z.ltb_spec 0 (Z.of_nat (length (ring_rows rows)) - Keep batch)); lia).
    destruct (delete_oldest k rows Hk') as (H1 & H2 & H3). cbv zeta in H1, H2, H3. cbn [timeline sequence annotations].
    split; [|split; [|done]].
    + constructor; cbn [timeline stored]; [done|by intros id Hid%H3; apply Hids'|]. rewrite H2, Hcount, length_take, length_drop. lia.
    + rewrite H2, Hkk, Hrows. done.
Qed.

(** ** What a read finds *)

Lemma filter_nonann l : List.filter (λ e, negb (bool_decide (Kind e = KindAnnotation))) l = filter (λ e, Kind e ≠ KindAnnotation) l.
Proof.
  induction l as [|e l IH]; [done|]. cbn [List.filter]. rewrite filter_cons.
  destruct (bool_decide_reflect (Kind e = KindAnnotation)), (decide (Kind e ≠ KindAnnotation)); cbn [negb]; try done; by rewrite IH.
Qed.

Lemma rising_filter P `{!∀ e : HistoryEntry, Decision (P e)} l : rising l → rising (filter P l).
Proof. apply StronglySorted_sublist, sublist_filter. Qed.

Lemma rising_last l e a : rising l → last l = Some e → a ∈ l → ID a ≤ ID e.
Proof.
  intros Hl [k ->]%last_Some Ha. apply StronglySorted_app in Hl as (Hc & _ & _).
  apply elem_of_app in Ha as [Ha| ->%list_elem_of_singleton]; [|done]. assert (ID a < ID e) by (apply Hc; [done|by left]). lia.
Qed.

(** A rising list's stretches join. *)
Lemma filter_stretch (P : HistoryEntry → Prop) `{!∀ e, Decision (P e)} l a b c : rising l → a ≤ b → b ≤ c →
  filter (λ e, P e ∧ a < ID e ≤ c) l = filter (λ e, P e ∧ a < ID e ≤ b) l ++ filter (λ e, P e ∧ b < ID e ≤ c) l.
Proof.
  intros Hl Hab Hbc. induction l as [|e l IH]; [done|].
  apply StronglySorted_inv in Hl as [Hl He]. rewrite Forall_forall in He. rewrite !filter_cons, IH by done.
  destruct (decide (P e ∧ a < ID e ≤ c)) as [H1|H1], (decide (P e ∧ a < ID e ≤ b)) as [H2|H2],
    (decide (P e ∧ b < ID e ≤ c)) as [H3|H3].
  - exfalso. lia.
  - done.
  - assert (filter (λ e, P e ∧ a < ID e ≤ b) l = []) as ->; [|done].
    apply filter_none. intros f Hf. specialize (He f Hf). cbn in He. lia.
  - exfalso. assert (ID e ≤ b ∨ b < ID e) as [?|?] by lia; [apply H2|apply H3]; (split; [apply H1|lia]).
  - exfalso. lia.
  - exfalso. apply H1. split; [apply H2|lia].
  - exfalso. apply H1. split; [apply H3|lia].
  - done.
Qed.

Lemma recorded_rising all h : history_ok all h → rising all.
Proof.
  intros Hok. pose proof (ho_ids _ _ Hok) as Hids. clear Hok. induction all as [|e l IH]; [constructor|]. constructor.
  - apply IH. intros p q f g Hpq Hf Hg. by apply (Hids (S p) (S q)); [lia|..].
  - apply Forall_forall. intros f [q Hf]%list_elem_of_lookup_1. by apply (Hids O (S q)); [lia|..].
Qed.

Lemma filter_ext_in {A} (P Q : A → Prop) `{!∀ x, Decision (P x), !∀ x, Decision (Q x)} (l : list A) :
  (∀ x, x ∈ l → P x ↔ Q x) → filter P l = filter Q l.
Proof.
  induction l as [|x l IH]; intros Hl; [done|]. rewrite !filter_cons, IH by (intros y Hy; apply Hl; by right).
  specialize (Hl x ltac:(by left)). destruct (decide (P x)), (decide (Q x)); tauto.
Qed.

Lemma flush_since_spec all h w entries last_ : recorded all h → 0 ≤ lastWritten w ≤ count h → flush_since h w = (entries, last_) →
  lastWritten w ≤ last_ ≤ count h ∧ rising entries ∧
  (∀ e, e ∈ entries → e ∈ all ∧ lastWritten w < ID e ≤ last_) ∧
  ((Since (lastWritten w) h).2 = true → entries = filter (λ e, Kind e ≠ KindAnnotation ∧ lastWritten w < ID e ≤ last_) all).
Proof.
  intros Hrec Hlw. pose proof (recorded_ok _ _ Hrec) as Hok. pose proof (recorded_rising _ _ Hok) as Hrise.
  pose proof (Since_complete all h (lastWritten w) Hrec ltac:(lia)) as Hs. unfold flush_since.
  destruct (Since (lastWritten w) h) as [res complete]. destruct Hs as [_ Hs]. specialize (Hs ltac:(lia)) as [Hres Hcomp].
  cbn [fst snd]. intros [= <- <-]. rewrite filter_nonann.
  assert (rising res) as Hr by (rewrite Hres; apply rising_filter; eapply StronglySorted_sublist; [apply sublist_drop|done]).
  assert (∀ e, e ∈ res → e ∈ all ∧ lastWritten w < ID e ≤ count h) as Hin.
  { intros e He. rewrite Hres in He. apply list_elem_of_filter in He as [He Hd].
    assert (e ∈ all) by (eapply elem_of_sublist; [exact Hd|apply sublist_drop]). split; [done|]. split; [done|].
    by apply (ho_count _ _ Hok). }
  set (bound := match last res with Some e => ID e | None => lastWritten w end).
  assert (∀ e, e ∈ res → ID e ≤ bound) as Hle.
  { intros e He. unfold bound. destruct (last res) as [l|] eqn:El; [by eapply rising_last|].
    apply last_None in El as ->. by apply not_elem_of_nil in He. }
  assert (lastWritten w ≤ bound ≤ count h) as Hbound.
  { unfold bound. destruct (last res) as [l|] eqn:El; [|lia]. apply last_Some_elem_of, Hin in El. lia. }
  split; [done|]. split; [by apply rising_filter|]. split.
  - intros e [_ He]%list_elem_of_filter. specialize (Hle e He). apply Hin in He as [? ?]. split; [done|lia].
  - intros ->. rewrite (Hcomp eq_refl), list_filter_filter. apply filter_ext_in. intros e He. split.
    + intros [Hk Hlt]. split; [done|]. split; [done|]. apply Hle. rewrite (Hcomp eq_refl). by apply list_elem_of_filter.
    + intros [Hk [Hlt _]]. done.
Qed.

(** * What a run keeps *)

Section run.
Context (n : nat) (R0 : list HistoryEntry) (start : Z) (reserved : bool).

Definition stretch (a b : Z) (l : list HistoryEntry) : list HistoryEntry := filter (λ e, Kind e ≠ KindAnnotation ∧ a < ID e ≤ b) l.

(** What a flush under way carries. *)
Definition carries (x : World) (entries : list HistoryEntry) (last_ : Z) : Prop :=
  lastWritten (writer x) ≤ last_ ≤ count (history x) ∧ rising entries ∧
  (∀ e, e ∈ entries → e ∈ log x ∧ lastWritten (writer x) < ID e ≤ last_) ∧
  (overrun x = false → entries = stretch (lastWritten (writer x)) last_ (log x)).

Definition flush_ok (x : World) : Prop :=
  match flush x with
  | Idle => True
  | Read entries last_ => carries x entries last_
  | Building b last_ => carries x (Entries b) last_ ∧
      Last b = (if lastWritten (writer x) <? last_ then last_ else 0) ∧
      Keep b = (if bool_decide (Entries b ≠ []) || negb (retained (writer x)) then Z.of_nat n else 0)
  end.

Record world_ok (x : World) : Prop := {
  wo_recorded : recorded (log x) (history x);
  wo_store : store_ok (lastWritten (writer x)) (store x);
  wo_keep : keep (writer x) = Z.of_nat n;
  wo_last : 0 ≤ start ≤ lastWritten (writer x) ∧ lastWritten (writer x) ≤ count (history x);
  wo_rows : ring_rows (timeline (store x)) =
    if retained (writer x) then newest n (R0 ++ List.filter ringKinds (written x)) else R0;
  wo_written : retained (writer x) = false → written x = [];
  wo_complete : overrun x = false → written x = stretch start (lastWritten (writer x)) (log x);
  wo_log e : e ∈ written x → e ∈ log x;
  wo_reserved : reserved = true → lastWritten (writer x) ≤ sequence (store x);
  wo_flush : flush_ok x;
}.

Lemma stretch_past a b l e : b < ID e → stretch a b (l ++ [e]) = stretch a b l.
Proof.
  intros Hlt. unfold stretch. rewrite filter_app, (filter_cons_False _ e []), filter_nil, app_nil_r; [done|]. lia.
Qed.

Lemma stretch_app a b c l : rising l → a ≤ b → b ≤ c → stretch a c l = stretch a b l ++ stretch b c l.
Proof. apply filter_stretch. Qed.

Lemma carries_record x now e entries last_ h id : carries x entries last_ → count (history x) < id → count h = id →
  carries (mkWorld h (log x ++ [stamp now id e]) (store x) (writer x) (flush x) (gaps x) (written x) (overrun x)) entries last_.
Proof.
  intros (H1 & H2 & H3 & H4) Hid Hh. unfold carries. cbn [history log store writer flush gaps written overrun]. split_and!; [lia|lia|done| |].
  - intros f Hf. destruct (H3 f Hf) as [? ?]. split; [apply elem_of_app; by left|done].
  - intros Ho. rewrite stretch_past; [by apply H4|cbn; lia].
Qed.

Lemma record_ok x now e : world_ok x → count (history x) + 1 < max_uint64 → world_ok (record_entry now e x).
Proof.
  intros Hx Hr. unfold record_entry.
  destruct (Append_ok (log x) now e (history x) (recorded_ok _ _ (wo_recorded _ Hx)) Hr) as (_ & H1 & H2 & _).
  destruct (Append now e (history x)) as [id h] eqn:E. cbn in H1, H2. subst id.
  pose proof (wo_last _ Hx) as [Hl1 Hl2].
  constructor; cbn [history log store writer flush gaps written overrun]; try (apply Hx).
  - replace h with (Append now e (history x)).2 by (by rewrite E). by constructor; [apply Hx|].
  - lia.
  - intros Ho. rewrite stretch_past by (cbn; lia). by apply Hx.
  - intros f Hf. apply elem_of_app. left. by apply Hx.
  - pose proof (wo_flush _ Hx) as Hf. unfold flush_ok in *. cbn [flush writer]. destruct (flush x) as [|es l|b l]; [done|..].
    + by apply carries_record; [|lia|].
    + destruct Hf as [Hc Hf]. split; [|done]. by apply carries_record; [|lia|].
Qed.

(** What else the writer and the store keep is aside. *)
Lemma aside_ok x s w g : world_ok x →
  timeline s = timeline (store x) → sequence s = sequence (store x) → stored s = stored (store x) →
  lastWritten w = lastWritten (writer x) → retained w = retained (writer x) → keep w = keep (writer x) →
  world_ok (mkWorld (history x) (log x) s w (flush x) g (written x) (overrun x)).
Proof.
  intros Hx Ht Hq Hst Hl Hret Hk. destruct (wo_store _ Hx) as [H1 H2 H3].
  constructor; cbn [history log store writer flush gaps written overrun]; rewrite ?Hl, ?Hret, ?Hk, ?Hq; try apply Hx.
  - constructor; rewrite ?Ht, ?Hst; done.
  - rewrite Ht. apply Hx.
  - pose proof (wo_flush _ Hx) as Hf. unfold flush_ok, carries in *. cbn [history log writer flush overrun]. by rewrite Hl, Hret.
Qed.

Lemma set_flush_ok x f : world_ok x → flush_ok (set_flush f x) → world_ok (set_flush f x).
Proof. intros Hx Hf. constructor; cbn [history log store writer flush gaps written overrun set_flush]; try apply Hx. done. Qed.

Lemma since_ok x : world_ok x → world_ok (perform ASince x).
Proof.
  intros Hx. cbn [perform]. destruct (flush x) eqn:Ef; [|done..].
  destruct (flush_since (history x) (writer x)) as [entries last_] eqn:E.
  pose proof (wo_last _ Hx) as [Hl1 Hl2].
  destruct (flush_since_spec (log x) (history x) (writer x) entries last_ (wo_recorded _ Hx) ltac:(lia) E) as (H1 & H2 & H3 & H4).
  constructor; cbn [history log store writer flush gaps written overrun]; try apply Hx.
  - intros [Ho _]%orb_false_iff. by apply Hx.
  - unfold flush_ok, carries. cbn [history log store writer flush gaps written overrun].
    split; [done|]. split; [done|]. split; [done|]. intros [_ Ho%negb_false_iff]%orb_false_iff. by apply H4.
Qed.

Lemma batch_ok x live now : world_ok x → world_ok (perform (ABatch live now) x).
Proof.
  intros Hx. cbn [perform]. pose proof (wo_flush _ Hx) as Hf. unfold flush_ok in Hf.
  destruct (flush x) as [|entries last_|] eqn:Ef; [done| |done]. apply set_flush_ok; [done|].
  unfold flush_ok. cbn [flush set_flush writer]. split; [done|]. split; [done|]. cbn. by rewrite (wo_keep _ Hx).
Qed.

Lemma carries_nothing x b last_ : 0 ≤ lastWritten (writer x) → flush_ok x → flush x = Building b last_ →
  nothing_to_write b = true → last_ = lastWritten (writer x).
Proof.
  intros H0 Hf Eb Hn. unfold flush_ok in Hf. rewrite Eb in Hf. destruct Hf as ((Hl & _) & Hlast & _).
  unfold nothing_to_write in Hn. rewrite Hlast in Hn. destruct (Z.ltb_spec (lastWritten (writer x)) last_); [|lia].
  apply andb_true_iff in Hn as [_ Hn%Z.eqb_eq]. lia.
Qed.

Lemma commit_world_ok x lands b last_ : (0 < n)%nat → world_ok x → flush x = Building b last_ → world_ok (commit lands b last_ x).
Proof.
  intros Hn Hx Eb. pose proof (wo_flush _ Hx) as Hf. pose proof (wo_last _ Hx) as [Hl1 Hl2]. unfold commit.
  destruct (nothing_to_write b) eqn:Enothing.
  { rewrite (carries_nothing x b last_) by (done || lia).
    pose proof (aside_ok x (store x) (with_written (lastWritten (writer x)) (writer x)) (gaps x) Hx eq_refl eq_refl eq_refl eq_refl eq_refl eq_refl) as Ha.
    by apply (set_flush_ok _ Idle) in Ha. }
  destruct lands; [|by apply set_flush_ok].
  unfold flush_ok in Hf. rewrite Eb in Hf. destruct Hf as ((Hc1 & Hc2 & Hc3 & Hc4) & Hlast & Hkeep).
  destruct (Commit_spec (lastWritten (writer x)) last_ b (store x) (wo_store _ Hx) ltac:(lia) Hc2) as (Hs & Hrows & Hseq & _).
  { intros e He%Hc3. lia. }
  constructor; cbn [history log store writer flush gaps written overrun]; unfold flushed; cbn [keep lastWritten retained].
  - apply Hx.
  - done.
  - apply Hx.
  - lia.
  - rewrite Hrows, (wo_rows _ Hx), Hkeep, List.filter_app, app_assoc.
    destruct (retained (writer x)) eqn:Hr; cbn [negb].
    + destruct (bool_decide_reflect (Entries b ≠ [])) as [_|Hnil%dec_stable]; cbn [orb].
      * destruct (Z.leb_spec (Z.of_nat n) 0); [lia|]. rewrite Nat2Z.id. apply newest_app.
      * rewrite Hnil. cbn. by rewrite !app_nil_r.
    + rewrite orb_true_r, (wo_written _ Hx Hr). destruct (Z.leb_spec (Z.of_nat n) 0); [lia|]. cbn [List.filter]. by rewrite Nat2Z.id, app_nil_r.
  - done.
  - intros Ho. rewrite (wo_complete _ Hx Ho), (Hc4 Ho). symmetry. apply stretch_app; [|lia..].
    by eapply recorded_rising, recorded_ok, Hx.
  - intros e [He|He]%elem_of_app; [by apply Hx|by apply Hc3].
  - intros Hres. rewrite Hseq, Hlast. pose proof (wo_reserved _ Hx Hres).
    destruct (Z.ltb_spec (lastWritten (writer x)) last_); [|rewrite Z.ltb_irrefl; lia]. destruct (Z.ltb_spec 0 last_); lia.
  - done.
Qed.

Lemma perform_world_ok act x : (0 < n)%nat → world_ok x → count (history x) + 1 < max_uint64 → world_ok (perform act x).
Proof.
  intros Hn Hx Hr. destruct act as [now e| |live now|lands| |fails t|sf of_ t now|m].
  - by apply record_ok.
  - by apply since_ok.
  - by apply batch_ok.
  - cbn [perform]. destruct (flush x) as [| |b l] eqn:Ef; [done..|]. by apply commit_world_ok.
  - cbn [perform]. destruct (flush x) eqn:Ef; [|done..].
    set (w := mkWriter _ _ _ _ _ _ _). pose proof (aside_ok x (store x) w (gaps x) Hx eq_refl eq_refl eq_refl eq_refl eq_refl eq_refl) as Ha.
    by rewrite Ef in Ha.
  - cbn [perform]. destruct (RecordGap fails t (store x) (writer x)) as [gap w] eqn:E.
    unfold RecordGap, recordGapLocked in E. cbn [uncovered seenAt lastWritten retained keep] in E.
    apply aside_ok; [done..| | |]; destruct (if is_zero_time _ then _ else _); by simplify_eq.
  - cbn [perform]. destruct (flush x) eqn:Ef; [|done..].
    destruct (openCoverage sf of_ t now (store x) (writer x)) as [[gap s] w] eqn:E.
    unfold openCoverage, recordGapLocked in E. unfold add_gap.
    apply aside_ok; [done|..]; destruct (gapChecked (writer x)); repeat (case_match; simplify_eq/=); done.
  - cbn [perform]. by apply aside_ok.
Qed.
End run.

(** * From a start on *)

Lemma foldl_max_ge l : ∀ x, x ≤ foldl Z.max x l ∧ ∀ y, y ∈ l → y ≤ foldl Z.max x l.
Proof.
  induction l as [|z l IH]; intros x; cbn; [split; [lia|by intros y ?%not_elem_of_nil]|].
  destruct (IH (Z.max x z)) as [H1 H2]. split; [lia|]. intros y [->|Hy]%elem_of_cons; [lia|by apply H2].
Qed.

Lemma max_of_ge l x : x ∈ l → x ≤ default 0 (max_of l).
Proof.
  destruct l as [|z l]; [by intros ?%not_elem_of_nil|]. cbn. destruct (foldl_max_ge l z) as [H1 H2].
  intros [->|Hx]%elem_of_cons; [done|by apply H2].
Qed.

Lemma max_of_nonneg l : (∀ x, x ∈ l → 0 ≤ x) → 0 ≤ default 0 (max_of l).
Proof. destruct l as [|z l]; cbn; [lia|]. intros Hl. destruct (foldl_max_ge l z) as [H1 _]. specialize (Hl z ltac:(by left)). lia. Qed.

(** What a store holds at startup: rows under their IDs, which start from one. *)
Definition rows_ok (s : SQLite) : Prop := keyed (timeline s) ∧ ∀ id, is_Some (timeline s !! id) → 0 < id.

Lemma Restore_bounds n s id : rows_ok s → is_Some (timeline s !! id) → 0 < id ≤ (Restore n s).2.
Proof.
  intros [_ Hpos] Hid. split; [by apply Hpos|]. unfold Restore. cbn [snd]. destruct Hid as [e He].
  assert (id ∈ (map_to_list (timeline s)).*1) as Hin%max_of_ge; [|lia].
  apply list_elem_of_fmap. exists (id, e). split; [done|]. by apply elem_of_map_to_list.
Qed.

Lemma Restore_last_nonneg n s : rows_ok s → 0 ≤ (Restore n s).2.
Proof.
  intros [_ Hpos]. unfold Restore. cbn [snd].
  assert (0 ≤ default 0 (max_of (map_to_list (timeline s)).*1)) as H; [|lia]. apply max_of_nonneg.
  intros x ([i e] & -> & He%elem_of_map_to_list)%list_elem_of_fmap. cbn. specialize (Hpos i ltac:(by eexists)). lia.
Qed.

Lemma Restore_restorable n s : rows_ok s → (Restore n s).2 < max_uint64 → restorable (newest n (ring_rows (timeline s))).
Proof.
  intros Hs Hmax. destruct Hs as [Hk Hpos] eqn:Es. clear Es. pose proof (ring_rows_rising _ Hk) as Hr. split.
  - intros e He. assert (e ∈ ring_rows (timeline s)) as Hin by (eapply elem_of_sublist; [exact He|apply sublist_drop]).
    apply elem_of_ring_rows in Hin as [Hin Hkind]; [|done]. split.
    + intros E. unfold ringKinds in Hkind. rewrite E in Hkind. done.
    + pose proof (Restore_bounds n s (ID e) Hs ltac:(by eexists)). lia.
  - intros p q e f Hpq. unfold newest. rewrite !lookup_drop. intros He Hf.
    refine (StronglySorted_lookup_lt _ _ _ _ e f Hr _ He Hf). lia.
Qed.

Lemma store_ok_le b b' s : store_ok b s → b ≤ b' → store_ok b' s.
Proof. intros [H1 H2 H3] Hb. constructor; [done| |done]. intros id Hid%H2. lia. Qed.

Lemma boot_ok n inst reserved s : (0 < n)%nat → rows_ok s → (Restore n s).2 + Z.of_nat n < max_uint64 →
  world_ok n (ring_rows (timeline s)) (count (history (boot n inst reserved s))) reserved (boot n inst reserved s).
Proof.
  intros Hn Hs Hmax. unfold boot.
  change (Restore n (OpenSQLite s)) with (newest n (ring_rows (timeline s)), (Restore n s).2). cbv iota zeta.
  set (R := newest n (ring_rows (timeline s))). set (last_ := (Restore n s).2) in *.
  assert (restorable R) as Hres by (apply Restore_restorable; [done|fold last_; lia]).
  assert (length R ≤ n)%nat as Hlen by (unfold R, newest; rewrite length_drop; lia).
  assert (drop (length R - n) R = R) as Hdrop by (by replace (length R - n)%nat with 0%nat by lia).
  assert (0 ≤ last_) as Hl0 by (by apply Restore_last_nonneg).
  assert (∀ e, e ∈ R → ID e ≤ last_) as HR.
  { intros e He. assert (e ∈ ring_rows (timeline s)) as Hin by (eapply elem_of_sublist; [exact He|apply sublist_drop]).
    apply elem_of_ring_rows in Hin as [Hin _]; [|apply Hs]. by apply (Restore_bounds n s (ID e) Hs ltac:(by eexists)). }
  assert (count (foldl restore_one (NewHistory n inst) R) ≤ last_) as Hcount.
  { clear -HR Hl0. destruct R as [|e R _] using rev_ind; [done|]. rewrite foldl_snoc. cbn. apply HR, elem_of_app. right. by left. }
  assert (Z.max (count (foldl restore_one (NewHistory n inst) (drop (length R - n) R))) last_ + Z.of_nat n < max_uint64) as Hb
    by (rewrite Hdrop; lia).
  pose proof (recorded_restore n "" R last_ inst Hn Hres Hl0 Hb) as Hrec. rewrite Hdrop in Hrec.
  destruct (Restore_ok n "" R last_ inst Hn Hres Hl0 Hb) as (_ & _ & Hc).
  set (h := History.Restore R last_ inst (NewHistory n "")) in *.
  assert (store_ok last_ (OpenSQLite s)) as Hopen.
  { constructor; cbn; [apply Hs|intros id Hid; exact (Restore_bounds n s id Hs Hid)|done]. }
  assert (store_ok (count h) (if reserved then Commit (mkBatch [] time_zero (count h) 0) (OpenSQLite s) else OpenSQLite s) ∧
    ring_rows (timeline (if reserved then Commit (mkBatch [] time_zero (count h) 0) (OpenSQLite s) else OpenSQLite s)) = ring_rows (timeline s) ∧
    (reserved = true → count h ≤ sequence (if reserved then Commit (mkBatch [] time_zero (count h) 0) (OpenSQLite s) else OpenSQLite s)))
    as (Hst & Hrows & Hseq).
  { destruct reserved; [|split_and!; [eapply store_ok_le; [exact Hopen|lia]|done|done]].
    destruct (Commit_spec last_ (count h) (mkBatch [] time_zero (count h) 0) (OpenSQLite s) Hopen ltac:(lia)) as (H1 & H2 & H3 & _).
    - constructor.
    - by intros e ?%not_elem_of_nil.
    - split_and!; [done| |].
      + rewrite H2. cbn [Keep Entries List.filter]. by rewrite app_nil_r.
      + intros _. rewrite H3. cbn [Last]. destruct (Z.ltb_spec 0 (count h)); lia. }
  constructor; cbn [history log store writer flush gaps written overrun NewWriter lastWritten retained keep]; try done.
  - lia.
  - intros _. symmetry. apply filter_none. intros e He [_ He2]. lia.
  - by intros e ?%not_elem_of_nil.
Qed.

(** C17: a restart keeps the record. In every run of the writer beside the
    history, whatever commits failed and wherever it stops, what the next start
    restores is the newest entries of what was stored before and of what the
    commits that landed carried; and that is all that was recorded up to the
    last of them, each once and in order, as long as no read found the ring
    overrun; and no ID that was handed out is handed out again, as long as the
    start could reserve its own and no more than the ring's size were handed
    out since the last commit that landed. *)
Theorem restart_keeps_history n inst reserved s x : (0 < n)%nat → rows_ok s → (Restore n s).2 + Z.of_nat n < max_uint64 →
  runs n inst reserved s x →
  let start := count (history (boot n inst reserved s)) in
  let '(entries, last_) := Restore n (store x) in
  entries = newest n (ring_rows (timeline s) ++ List.filter ringKinds (written x)) ∧
  (∀ e, e ∈ written x → e ∈ log x) ∧
  (overrun x = false →
    written x = filter (λ e, Kind e ≠ KindAnnotation ∧ start < ID e ≤ lastWritten (writer x)) (log x)) ∧
  (reserved = true → count (history x) - lastWritten (writer x) ≤ Z.of_nat n →
    ∀ e, e ∈ log x → ID e ≤ last_ + Z.of_nat n).
Proof.
  intros Hn Hs Hmax Hruns. set (start := count (history (boot n inst reserved s))).
  assert (world_ok n (ring_rows (timeline s)) start reserved x) as Hx.
  { induction Hruns as [|act x Hruns IH Hr]; [by apply boot_ok|]. by apply perform_world_ok. }
  clear Hruns. destruct (Restore n (store x)) as [entries last_] eqn:E. unfold Restore in E. simplify_eq.
  split; [|split; [apply Hx|split; [apply Hx|]]].
  - fold (newest n (ring_rows (timeline (store x)))). rewrite (wo_rows _ _ _ _ _ Hx).
    destruct (retained (writer x)) eqn:Hr; [apply newest_newest|]. rewrite (wo_written _ _ _ _ _ Hx Hr). cbn. by rewrite app_nil_r.
  - intros Hres Hgap e He. pose proof (wo_reserved _ _ _ _ _ Hx Hres) as Hseq.
    apply (ho_count _ _ (recorded_ok _ _ (wo_recorded _ _ _ _ _ Hx))) in He. lia.
Qed.

(** * Two flushes and a restart *)

Definition demo_store : SQLite := mkSQLite ∅ ∅ 0 [] 0 0.
Definition demo_row (id : string) : HistoryEntry :=
  mkHistoryEntry 0 "" time_zero time_zero "service" "update" id id None "" "" 0 "" "" time_zero false "" None None.
Definition demo_flush (x : World) : World := perform (ACommit true) (perform (ABatch true 40) (perform ASince x)).
Definition demo_first : World := demo_flush (perform (ARecord 20 (demo_row "s2")) (perform (ARecord 10 (demo_row "s1")) (boot 2 "i" true demo_store))).
Definition demo_second : World := demo_flush (perform (ARecord 30 (demo_row "s3")) demo_first).

Lemma demo_store_runs : runs 2 "i" true demo_store demo_second.
Proof. unfold demo_second, demo_first, demo_flush. do 9 (apply runs_step; [|vm_compute; reflexivity]). constructor. Qed.

Lemma demo_store_rows : rows_ok demo_store.
Proof. split; [intros id e He|intros id [e He]]; change ((∅ : gmap Z HistoryEntry) !! id = Some e) in He; by rewrite lookup_empty in He. Qed.

Lemma restart_keeps_history_witness :
  ID <$> (Restore 2 (store demo_second)).1 = [4; 5] ∧
  (Restore 2 (store demo_second)).1 = newest 2 (ring_rows (timeline demo_store) ++ List.filter ringKinds (written demo_second)).
Proof.
  split; [vm_compute; reflexivity|].
  pose proof (restart_keeps_history 2 "i" true demo_store demo_second ltac:(lia) demo_store_rows ltac:(vm_compute; reflexivity) demo_store_runs) as Hk.
  cbv zeta in Hk. destruct (Restore 2 (store demo_second)). exact (proj1 Hk).
Defined.
