(* ===== verification/Annotations.v ===== *)
(** The annotations of the timeline: internal/cache/annotations.go. The index
    kept ordered by ID, the writes that go through the store, the history and
    the index under one lock, and the timeline that lists both.

    What a store answers to a write is an input; what it holds after writes it
    accepted is kept beside the index, for the theorem that they agree. The
    clock is read twice in a write, when the annotation is stamped and when its
    item is. The errors of internal/cluster/annotations.go share a type with
    these. *)
From S2P Require Import Prelude GoStrings GoStrconv SortedLists CacheState CacheStacks History SseEvents.
#[local] Open Scope string_scope.
#[local] Open Scope Z_scope.
#[local] Open Scope list_scope.

(** * Data *)

Definition MaxAnnotations : Z := 10000.

Inductive annotation_error :=
| ErrAnnotationsOff
| ErrAnnotationLimit
| ErrAnnotationNotFound
| ErrAnnotationDenied
| ErrAnnotationPrecondition
| errAnnotationMoved
| AnnotationInvalidError (field reason : string)
| StoreError (message : string).

#[global] Instance annotation_error_eq : EqDecision annotation_error.
Proof. solve_decision. Defined.
#[global] Instance Actor_eq : EqDecision Actor.
Proof. solve_decision. Defined.
#[global] Instance AnnotationResource_eq : EqDecision AnnotationResource.
Proof. solve_decision. Defined.
#[global] Instance Annotation_eq : EqDecision Annotation.
Proof. solve_decision. Defined.

(** [on] is whether there is a store. *)
Record annotationIndex := mkAnnotations { on : bool; ordered : list Annotation }.

(** What a write changes: the index, what the store holds, and the history,
    whose entries are all in [log]. *)
Record Notes := mkNotes {
  index : annotationIndex;
  stored : gmap Z Annotation;
  timeline : History;
  log : list HistoryEntry;
}.

(** * The index *)

Definition compare_id (a b : Annotation) : comparison := Z.compare (a_ID a) (a_ID b).

Definition find (id : Z) (x : annotationIndex) : nat * bool :=
  BinarySearchFunc (λ a id, Z.compare (a_ID a) id) (ordered x) id.

Definition RestoreAnnotations (annotations : list Annotation) (x : annotationIndex) : annotationIndex :=
  mkAnnotations true (SortFunc compare_id (ordered x ++ annotations)).

Definition Annotation_ (id : Z) (x : annotationIndex) : option Annotation :=
  let '(i, ok) := find id x in if ok then ordered x !! i else None.

Definition AnnotationCount (x : annotationIndex) : Z := Z.of_nat (length (ordered x)).

Definition AnnotationsOn (x : annotationIndex) : bool := on x.

(** ** Marks of removal *)

Definition holds (c : Cache) (r : AnnotationResource) : bool :=
  if bool_decide (ar_Type r = EventService) then bool_decide (is_Some (services c !! ar_ID r))
  else if bool_decide (ar_Type r = EventNode) then bool_decide (is_Some (nodes c !! ar_ID r))
  else if bool_decide (ar_Type r = EventStack) then bool_decide (is_Some (stacks c !! ar_ID r))
  else true.

Definition mark_removed (removed : bool) (r : AnnotationResource) : AnnotationResource :=
  mkAnnotationResource (ar_Type r) (ar_ID r) (ar_Name r) (ar_Service r) (ar_Stack r) removed.

Definition with_resources (resources : list AnnotationResource) (a : Annotation) : Annotation :=
  mkAnnotation (a_ID a) (a_Timestamp a) (a_Until a) (a_Text a) (a_Tags a) resources (a_Actor a)
    (a_Updated a) (a_Editor a) (a_Version a) (a_Created a).

Definition WithRemovals (c : Cache) (a : Annotation) : Annotation :=
  match list_find (λ r, holds c r = false) (a_Resources a) with
  | None => a
  | Some (gone, _) =>
      with_resources (imap (λ i r, mark_removed ((i =? gone)%nat || ((gone <? i)%nat && negb (holds c r))) r) (a_Resources a)) a
  end.

(** * Writing *)

(** What a write ends in: the error or the result, and the events dispatched. *)
Abbreviation written A := ((annotation_error + A) * list Event * Notes)%type.

Definition index_write (a : Annotation) (action : string) (x : annotationIndex) : annotationIndex :=
  let '(i, found) := find (a_ID a) x in
  mkAnnotations (on x)
    (if bool_decide (action = "remove") then if found then delete i (ordered x) else ordered x
     else if found then <[i := a]> (ordered x)
     else default (ordered x) (Insert (ordered x) i a)).

(** [failed] is the store's answer, [now] the clock at the append. *)
Definition commitAnnotation (c : Cache) (now : Z) (failed : option string) (a : Annotation)
    (previous : option Annotation) (action : string) (n : Notes) : written Annotation :=
  match failed with
  | Some message => (inl (StoreError message), [], n)
  | None =>
      let held := if bool_decide (action = "remove") then delete (a_ID a) (stored n) else <[a_ID a := a]> (stored n) in
      let x := index_write a action (index n) in
      let marked := WithRemovals c a in
      let replaced := WithRemovals c <$> previous in
      let entry := annotation_entry marked replaced action in
      let '(id, h) := Append now entry (timeline n) in
      (inr a, [annotation_event marked replaced action id], mkNotes x held h (log n ++ [stamp now id entry]))
  end.

(** What the store answers to BeginAnnotation, and to the Put or Delete after. *)
Record store_answer := mkStoreAnswer { ans_begin : option string; ans_write : option string }.

Definition beginAnnotation (answer : store_answer) (n : Notes) : option annotation_error :=
  if negb (on (index n)) then Some ErrAnnotationsOff else StoreError <$> ans_begin answer.

Definition next_id (n : Notes) : Z := wrap 64 (count (timeline n) + 1).

Definition stamp_new (id now : Z) (a : Annotation) : Annotation :=
  mkAnnotation id (a_Timestamp a) (a_Until a) (a_Text a) (a_Tags a) (a_Resources a) (a_Actor a) time_zero None id now.

Definition CreateAnnotation (c : Cache) (now later : Z) (answer : store_answer) (a : Annotation) (n : Notes) : written Annotation :=
  match beginAnnotation answer n with
  | Some err => (inl err, [], n)
  | None =>
      if MaxAnnotations <=? AnnotationCount (index n) then (inl ErrAnnotationLimit, [], n)
      else commitAnnotation c later (ans_write answer) (stamp_new (next_id n) now a) None "create" n
  end.

Definition stamp_edit (current : Annotation) (version now : Z) (a : Annotation) : Annotation :=
  mkAnnotation (a_ID current) (a_Timestamp a) (a_Until a) (a_Text a) (a_Tags a) (a_Resources a) (a_Actor current)
    now (a_Editor a) version (a_Created current).

Definition UpdateAnnotation (c : Cache) (now later : Z) (answer : store_answer) (id : Z)
    (edit : Annotation → annotation_error + Annotation) (n : Notes) : written Annotation :=
  match beginAnnotation answer n with
  | Some err => (inl err, [], n)
  | None =>
      match Annotation_ id (index n) with
      | None => (inl ErrAnnotationNotFound, [], n)
      | Some current =>
          match edit current with
          | inl err => (inl err, [], n)
          | inr a => commitAnnotation c later (ans_write answer) (stamp_edit current (next_id n) now a) (Some current) "update" n
          end
      end
  end.

Definition DeleteAnnotation (c : Cache) (later : Z) (answer : store_answer) (id : Z)
    (check : Annotation → option annotation_error) (n : Notes) : written Annotation :=
  match beginAnnotation answer n with
  | Some err => (inl err, [], n)
  | None =>
      match Annotation_ id (index n) with
      | None => (inl ErrAnnotationNotFound, [], n)
      | Some current =>
          match check current with
          | Some err => (inl err, [], n)
          | None => commitAnnotation c later (ans_write answer) current None "remove" n
          end
      end
  end.

(** Anything else that is recorded meanwhile. *)
Definition append_other (now : Z) (e : HistoryEntry) (n : Notes) : Notes :=
  let '(id, h) := Append now e (timeline n) in mkNotes (index n) (stored n) h (log n ++ [stamp now id e]).

(** * Tags *)

Section tags.
Context `{MapRange}.

(** counts[tag]++ over the tags of the readable candidates. *)
Definition count_tags (prefix : string) (readable : Annotation → bool) (candidates : list Annotation) : gmap string Z :=
  foldl (λ counts tag, <[tag := default 0 (counts !! tag) + 1]> counts) ∅
    (List.filter (HasPrefix prefix) (List.filter readable candidates ≫= a_Tags)).

Definition AnnotationTags (prefix : string) (readable : Annotation → bool) (x : annotationIndex) : list (string * Z) :=
  let candidates := List.filter (λ a, existsb (HasPrefix prefix) (a_Tags a)) (ordered x) in
  SortFunc (λ a b, cmp_or (Z.compare b.2 a.2) (str_compare a.1 b.1)) (range (count_tags prefix readable candidates)).
End tags.

(** * The timeline *)

Definition About (a : Annotation) (typ id stack : string) : bool :=
  bool_decide (a_Resources a = []) ||
  existsb (λ r,
    bool_decide (ar_ID r = id) ||
    (negb (is_empty stack) && bool_decide (ar_Type r = EventStack) && bool_decide (ar_ID r = stack)) ||
    (bool_decide (typ = EventStack) && bool_decide (ar_Type r = EventService) && bool_decide (ar_Stack r = id)))
    (a_Resources a).

Definition entry (a : Annotation) : HistoryEntry :=
  mkHistoryEntry (a_ID a) KindAnnotation (a_Timestamp a) (a_Until a) "" "" "" "" (a_Actor a) "" "" 0 "" ""
    time_zero false "" (Some a) None.

Definition subjectType (q : HistoryQuery) : string :=
  if negb (is_empty (q_Type q)) then q_Type q
  else match Types q with [typ] => typ | _ => "" end.

Definition with_members (members : list string) (q : HistoryQuery) : HistoryQuery :=
  mkHistoryQuery (q_Type q) (q_ResourceID q) (BeforeID q) (TitleContains q) (Search q) (Limit q) (TaskName q)
    (words q) (ready q) (Types q) (q_Kinds q) (Before q) (After q) (Visible q) (q_Tags q) (MatchAny q) (Authors q)
    members (ReadableAnnotation q).

Definition with_limit (limit : Z) (q : HistoryQuery) : HistoryQuery :=
  mkHistoryQuery (q_Type q) (q_ResourceID q) (BeforeID q) (TitleContains q) (Search q) limit (TaskName q)
    (words q) (ready q) (Types q) (q_Kinds q) (Before q) (After q) (Visible q) (q_Tags q) (MatchAny q) (Authors q)
    (Members q) (ReadableAnnotation q).

Definition stackMembers (c : Cache) (stack : string) (h : History) : list string :=
  removedFromStack stack h ++ match stacks c !! stack with Some s => st_Services s | None => [] end.

Section timeline.
Context `{Unicode}.

Definition annotationMatchesText (q : HistoryQuery) (a : Annotation) : bool :=
  if is_empty (TitleContains q) && is_empty (Search q) then true else
  let q := if ready q then q else prepared q in
  ContainsLower (a_Text a) (TitleContains q) &&
  negb (existsb (λ word,
    let has field := ContainsLower field word in
    negb (has (a_Text a)) && negb (existsb has (a_Tags a)) && negb (actorHas (a_Actor a) word) &&
    negb (existsb (λ r, nameHas (ar_Name r) word) (a_Resources a))) (words q)).

Definition matchesAnnotation (q : HistoryQuery) (a : Annotation) (stack : string) : bool :=
  let end_ := if is_zero_time (a_Until a) then a_Timestamp a else a_Until a in
  if (negb (is_zero_time (After q)) && negb (time_after end_ (After q))) ||
     (negb (is_zero_time (Before q)) && time_after (a_Timestamp a) (Before q)) then false
  else if negb (matchesTags q (a_Tags a)) || negb (matchesAuthor q (a_Actor a)) then false
  else
    let placed :=
      if negb (is_empty (q_ResourceID q)) then About a (subjectType q) (q_ResourceID q) stack
      else bool_decide (a_Resources a = []) ||
        existsb (λ r, (is_empty (q_Type q) || bool_decide (ar_Type r = q_Type q)) &&
                      (bool_decide (Types q = []) || bool_decide (ar_Type r ∈ Types q))) (a_Resources a) in
    if placed then annotationMatchesText q a else false.

Definition removal_query (id : string) : HistoryQuery :=
  mkHistoryQuery EventService id 0 "" "" 1 None [] false [] [KindChange] time_zero time_zero None [] false [] [] None.

Definition serviceStack (c : Cache) (h : History) (id : string) : string :=
  if is_empty id then "" else
  match services c !! id with
  | Some svc => label_of (s_Labels svc)
  | None => match List_ (removal_query id) h with [] => "" | removal :: _ => Stack removal end
  end.

Definition AnnotationOn (c : Cache) (h : History) (a : Annotation) (typ id : string) : bool :=
  let stack :=
    if bool_decide (typ = EventService) && existsb (λ r, bool_decide (ar_Type r = EventStack)) (a_Resources a)
    then serviceStack c h id else "" in
  About a typ id stack.

(** The walk of a batch, from the newest down; [got] are in it already. *)
Fixpoint batch_loop (q : HistoryQuery) (stack : string) (n got : nat) (l : list Annotation) : list Annotation * Z :=
  match l with
  | [] => ([], 0)
  | a :: l =>
      if negb (matchesAnnotation q a stack) then batch_loop q stack n got l
      else if (S got =? n)%nat then ([a], a_ID a)
      else let '(batch, next) := batch_loop q stack n (S got) l in (a :: batch, next)
  end.

Definition annotationBatch (q : HistoryQuery) (stack : string) (cursor : Z) (n : nat) (x : annotationIndex)
    : list Annotation * Z :=
  let end_ := if cursor =? 0 then length (ordered x) else (find cursor x).1 in
  batch_loop q stack n 0 (reverse (take end_ (ordered x))).

Definition readable (q : HistoryQuery) (a : Annotation) : bool :=
  match ReadableAnnotation q with None => true | Some f => f a end.

(** The loop over batches, of which [fuel] bounds the number; [at_batch] is the
    index as each finds it. *)
Fixpoint batches (fuel : nat) (q : HistoryQuery) (stack : string) (at_batch : nat → annotationIndex)
    (cursor : Z) (need : nat) : list HistoryEntry :=
  match fuel, need with
  | O, _ | _, O => []
  | S fuel, _ =>
      let '(batch, next) := annotationBatch q stack cursor need (at_batch O) in
      let found := entry <$> List.filter (readable q) batch in
      found ++ (if next =? 0 then [] else batches fuel q stack (λ k, at_batch (S k)) next (need - length found))
  end.

(** The stack whose annotations a service's timeline holds as well. *)
Definition subject_stack (c : Cache) (h : History) (q : HistoryQuery) : string :=
  let t := subjectType q in
  if is_empty t || bool_decide (t = EventService) then serviceStack c h (q_ResourceID q) else "".

Definition annotationEntries (fuel : nat) (c : Cache) (h : History) (q : HistoryQuery) (at_batch : nat → annotationIndex)
    : list HistoryEntry :=
  let q := prepared q in
  batches fuel q (subject_stack c h q) at_batch (BeforeID q) (Z.to_nat (Limit q)).

(** The two lists, newest first, until the limit; on a tie the annotation. *)
Fixpoint merge (limit : nat) (ring notes : list HistoryEntry) : list HistoryEntry :=
  match limit with
  | O => []
  | S limit =>
      match ring, notes with
      | [], [] => []
      | r :: ring', [] => r :: merge limit ring' []
      | r :: ring', n :: notes' =>
          if ID n <? ID r then r :: merge limit ring' notes else n :: merge limit ring notes'
      | [], n :: notes' => n :: merge limit [] notes'
      end
  end.

Definition ring_query (c : Cache) (h : History) (q : HistoryQuery) : HistoryQuery :=
  if negb (is_empty (q_ResourceID q)) && (bool_decide (q_Type q = EventStack) || bool_decide (EventStack ∈ Types q))
  then with_members (stackMembers c (q_ResourceID q) h) q else q.

Definition wants_ring (q : HistoryQuery) : bool := negb (bool_decide (q_Kinds q = [KindAnnotation])).

Definition Timeline (fuel : nat) (c : Cache) (h : History) (at_batch : nat → annotationIndex) (q : HistoryQuery)
    : list HistoryEntry :=
  let q := if Limit q <=? 0 then with_limit 50 q else q in
  let ringq := if wants_ring q then ring_query c h q else q in
  let ring := if wants_ring q then List_ ringq h else [] in
  if negb (wantsKind q KindAnnotation) then ring else
  merge (Z.to_nat (Limit q)) ring (annotationEntries fuel c h ringq at_batch).
End timeline.

(** * The index kept in order *)

Definition by_id (l : list Annotation) : Prop := StronglySorted (λ a b, a_ID a < a_ID b) l.

Lemma by_id_app l k : by_id (l ++ k) ↔ by_id l ∧ by_id k ∧ (∀ a b, a ∈ l → b ∈ k → a_ID a < a_ID b).
Proof. unfold by_id. rewrite StronglySorted_app. naive_solver. Qed.

Lemma by_id_cons a l : by_id (a :: l) ↔ by_id l ∧ (∀ b, b ∈ l → a_ID a < a_ID b).
Proof.
  unfold by_id. split.
  - intros [Hl Ha]%StronglySorted_inv. by rewrite Forall_forall in Ha.
  - intros [Hl Ha]. constructor; [done|]. by apply Forall_forall.
Qed.

(** Where the search ends: at the annotation, or between the smaller and the
    greater ones. *)
Lemma find_split id x : by_id (ordered x) → ∃ lo hi,
  (∀ a, a ∈ lo → a_ID a < id) ∧ (∀ a, a ∈ hi → id < a_ID a) ∧
  ((∃ b, find id x = (length lo, true) ∧ ordered x = lo ++ b :: hi ∧ a_ID b = id) ∨
   (find id x = (length lo, false) ∧ ordered x = lo ++ hi)).
Proof.
  intros Hs. set (l := ordered x) in *.
  assert (cut_point (λ a, bool_decide (Z.compare (a_ID a) id = Lt)) l (find id x).1) as Hc.
  { apply BinarySearchFunc_cut. intros h k a b Hhk Ha Hb. rewrite !bool_decide_eq_true.
    destruct (decide (h = k)) as [->|Hne]; [naive_solver|].
    pose proof (StronglySorted_lookup_lt _ _ h k a b Hs ltac:(lia) Ha Hb) as Hab. cbn in Hab |- *. rewrite !Z.compare_lt_iff. lia. }
  destruct (cut_point_split _ _ _ Hc) as [Hlo Hhi]. destruct Hc as [Hi _].
  rewrite Forall_forall in Hlo, Hhi.
  unfold find in *. unfold BinarySearchFunc in *. fold l in Hlo, Hhi, Hi |- *. cbn [fst] in *.
  set (i := search_loop _ _ _ _ _) in *.
  assert (length (take i l) = i) as Hlen by (rewrite length_take; lia).
  exists (take i l). destruct (l !! i) as [b|] eqn:Hb.
  - rewrite (drop_S _ b i Hb) in Hhi. pose proof (take_drop_middle l i b Hb) as Hl.
    assert (id ≤ a_ID b) as Hle.
    { specialize (Hhi b ltac:(by left)). cbn in Hhi. apply bool_decide_eq_false in Hhi. by rewrite Z.compare_lt_iff, Z.nlt_ge in Hhi. }
    assert (∀ a, a ∈ drop (S i) l → a_ID b < a_ID a) as Hgt.
    { rewrite <- Hl in Hs. apply by_id_app in Hs as (_ & Hs & _). by apply by_id_cons in Hs as [_ ?]. }
    destruct (decide (a_ID b = id)) as [E|E].
    + exists (drop (S i) l). split_and!.
      * intros a Ha%Hlo. cbn in Ha. rewrite bool_decide_eq_true, Z.compare_lt_iff in Ha. lia.
      * intros a Ha%Hgt. lia.
      * left. exists b. rewrite Hlen, Hl. split_and!; [|done..]. rewrite E, Z.compare_refl. done.
    + exists (drop i l). split_and!.
      * intros a Ha%Hlo. cbn in Ha. rewrite bool_decide_eq_true, Z.compare_lt_iff in Ha. lia.
      * rewrite (drop_S _ b i Hb). intros a [->|Ha%Hgt]%elem_of_cons; lia.
      * right. rewrite Hlen, take_drop. split; [|done]. f_equal. apply bool_decide_eq_false. rewrite Z.compare_eq_iff. done.
  - assert (drop i l = []) as Hd by (apply drop_ge, lookup_ge_None; done).
    exists []. split_and!.
    + intros a Ha%Hlo. cbn in Ha. rewrite bool_decide_eq_true, Z.compare_lt_iff in Ha. lia.
    + by intros a ?%not_elem_of_nil.
    + right. rewrite Hlen. split; [done|]. rewrite app_nil_r, <- (take_drop i l) at 1. by rewrite Hd, app_nil_r.
Qed.

Lemma Annotation_spec id x a : by_id (ordered x) → Annotation_ id x = Some a ↔ a ∈ ordered x ∧ a_ID a = id.
Proof.
  intros Hs. unfold Annotation_.
  destruct (find_split id x Hs) as (lo & hi & Hlo & Hhi & [(b & -> & Hl & Hb)|[-> Hl]]); rewrite Hl.
  - rewrite list_lookup_middle by done. rewrite elem_of_app, elem_of_cons. split; [naive_solver|].
    intros [[Ha|[->|Ha]] E]; [apply Hlo in Ha; lia|done|apply Hhi in Ha; lia].
  - split; [done|]. intros [[Ha|Ha]%elem_of_app E]; [apply Hlo in Ha|apply Hhi in Ha]; lia.
Qed.

(** A write puts the annotation in its place, or takes it away, and touches no
    other. *)
Lemma index_write_spec a action x : by_id (ordered x) →
  by_id (ordered (index_write a action x)) ∧
  ∀ b, b ∈ ordered (index_write a action x) ↔ (action ≠ "remove" ∧ b = a) ∨ (b ∈ ordered x ∧ a_ID b ≠ a_ID a).
Proof.
  intros Hs. unfold index_write.
  destruct (find_split (a_ID a) x Hs) as (lo & hi & Hlo & Hhi & [(b & -> & Hl & Hb)|[-> Hl]]);
    rewrite Hl in Hs |- *; cbn [ordered]; apply by_id_app in Hs as (Hs1 & Hs2 & Hs3).
  - apply by_id_cons in Hs2 as [Hs2 _]. case_bool_decide as E.
    + rewrite delete_middle. split; [apply by_id_app; split_and!; [done..|]; intros; apply Hs3; set_solver|].
      intros b'. rewrite !elem_of_app, elem_of_cons. split.
      * intros [H|H]; right; (split; [tauto|]); [apply Hlo in H|apply Hhi in H]; lia.
      * intros [[? _]|[[?|[->|?]] ?]]; [done|tauto|lia|tauto].
    + replace (length lo) with (length lo + 0)%nat by lia. rewrite insert_app_r. cbn.
      split; [apply by_id_app; split_and!; [done|by apply by_id_cons|]|].
      * intros a1 a2 H1 [->|H2]%elem_of_cons; [by apply Hlo|by apply Hs3; [|right]].
      * intros b'. rewrite !elem_of_app, !elem_of_cons. split.
        { intros [H|[->|H]]; [right|tauto|right]; (split; [tauto|]); [apply Hlo in H|apply Hhi in H]; lia. }
        intros [[_ ->]|[[?|[->|?]] ?]]; [tauto|tauto|lia|tauto].
  - case_bool_decide as E.
    + split; [by apply by_id_app|]. intros b'. rewrite elem_of_app. split; [|naive_solver].
      intros [H|H]; right; (split; [tauto|]); [apply Hlo in H|apply Hhi in H]; lia.
    + unfold Insert. rewrite length_app. destruct (Nat.leb_spec (length lo) (length lo + length hi)) as [_|?]; [|lia]. cbn.
      rewrite take_app_length, drop_app_length.
      split; [apply by_id_app; split_and!; [done|by apply by_id_cons|]|].
      * intros a1 a2 H1 [->|H2]%elem_of_cons; [by apply Hlo|by apply Hs3].
      * intros b'. rewrite !elem_of_app, !elem_of_cons. split; [|naive_solver].
        intros [H|[->|H]]; [right|tauto|right]; (split; [tauto|]); [apply Hlo in H|apply Hhi in H]; lia.
Qed.

(** * The invariant *)

(** An ID is the sequence ID of the item that created the annotation, so it is
    no other entry's; the version is the last item's. *)
Record notes_ok (n : Notes) : Prop := {
  no_recorded : recorded (log n) (timeline n);
  no_sorted : by_id (ordered (index n));
  no_ids a : a ∈ ordered (index n) → 0 < a_ID a ≤ a_Version a ∧ a_Version a ≤ count (timeline n);
  no_items a e : a ∈ ordered (index n) → e ∈ log n → ID e = a_ID a → Kind e = KindAnnotation;
  no_stored id : stored n !! id = Annotation_ id (index n);
}.

(** Another entry can still be numbered. *)
Definition room (n : Notes) : Prop := count (timeline n) + 1 < max_uint64.

Lemma no_history n : notes_ok n → history_ok (log n) (timeline n).
Proof. intros Hn. apply recorded_ok, Hn. Qed.

Lemma next_id_eq n : notes_ok n → room n → next_id n = count (timeline n) + 1.
Proof.
  intros Hn Hr. pose proof (ho_bound _ _ (no_history n Hn)). unfold room, max_uint64 in *.
  apply Z.mod_small. lia.
Qed.

Lemma append_spec n now e : notes_ok n → room n → ∃ h,
  Append now e (timeline n) = (count (timeline n) + 1, h) ∧
  count h = count (timeline n) + 1 ∧ recorded (log n ++ [stamp now (count (timeline n) + 1) e]) h.
Proof.
  intros Hn Hr. destruct (Append_ok (log n) now e (timeline n) (no_history n Hn) Hr) as (_ & H1 & H2 & _).
  destruct (Append now e (timeline n)) as [id h] eqn:E. cbn in H1, H2. subst. exists h. split_and!; [done..|].
  replace h with (Append now e (timeline n)).2 by (by rewrite E). constructor; [apply Hn|done].
Qed.

Lemma stamp_kind now id e : Kind (stamp now id e) = if is_empty (Kind e) then KindChange else Kind e.
Proof. done. Qed.

Lemma append_other_ok n now e : notes_ok n → room n → notes_ok (append_other now e n).
Proof.
  intros Hn Hr. unfold append_other. destruct (append_spec n now e Hn Hr) as (h & -> & Hc & Hrec).
  constructor; cbn; [done|apply Hn|..|apply Hn].
  - intros a Ha. apply (no_ids n Hn) in Ha. lia.
  - intros a e' Ha [He|[= ->]%list_elem_of_singleton]%elem_of_app; [by apply (no_items n Hn)|].
    apply (no_ids n Hn) in Ha. cbn. lia.
Qed.

(** What a commit may write: a new annotation under the next ID, or one the
    index holds, at its version or the next. *)
Definition committable (a : Annotation) (n : Notes) : Prop :=
  (a_ID a = count (timeline n) + 1 ∧ a_Version a = a_ID a) ∨
  (∃ current, current ∈ ordered (index n) ∧ a_ID a = a_ID current ∧
     (a = current ∨ a_Version a = count (timeline n) + 1)).

Lemma commit_spec c now a previous action n : notes_ok n → room n → committable a n →
  ∃ h, commitAnnotation c now None a previous action n =
    (inr a, [annotation_event (WithRemovals c a) (WithRemovals c <$> previous) action (count (timeline n) + 1)],
     mkNotes (index_write a action (index n))
       (if bool_decide (action = "remove") then delete (a_ID a) (stored n) else <[a_ID a := a]> (stored n)) h
       (log n ++ [stamp now (count (timeline n) + 1) (annotation_entry (WithRemovals c a) (WithRemovals c <$> previous) action)])) ∧
    count h = count (timeline n) + 1 ∧
    notes_ok (commitAnnotation c now None a previous action n).2.
Proof.
  intros Hn Hr Ha. unfold commitAnnotation.
  destruct (append_spec n now (annotation_entry (WithRemovals c a) (WithRemovals c <$> previous) action) Hn Hr)
    as (h & -> & Hc & Hrec).
  exists h. split_and!; [done..|].
  destruct (index_write_spec a action (index n) (no_sorted n Hn)) as [Hs Hin].
  constructor; cbn [index stored timeline log snd].
  - done.
  - done.
  - intros b [[_ ->]|[Hb _]]%Hin; [|apply (no_ids n Hn) in Hb; lia].
    destruct Ha as [[H1 H2]|(current & Hcur%(no_ids n Hn) & H1 & [->|H2])]; [|lia..].
    pose proof (ho_bound _ _ (no_history n Hn)). lia.
  - intros b e Hb [He|[= ->]%list_elem_of_singleton]%elem_of_app; [|done].
    apply Hin in Hb as [[_ ->]|[Hb _]]; [|by apply (no_items n Hn)].
    destruct Ha as [[H1 _]|(current & Hcur & H1 & _)].
    + apply (ho_count _ _ (no_history n Hn)) in He. lia.
    + rewrite H1. by apply (no_items n Hn).
  - intros id. apply option_eq. intros b. rewrite (Annotation_spec _ _ _ Hs), Hin.
    assert (stored n !! id = Some b ↔ b ∈ ordered (index n) ∧ a_ID b = id) as Hst
      by (rewrite (no_stored n Hn); apply Annotation_spec, Hn).
    case_bool_decide as E.
    + rewrite lookup_delete_Some, Hst. split; [intros (? & ? & ?)|intros [[[? _]|[? ?]] <-]]; naive_solver.
    + rewrite lookup_insert_Some, Hst. split; [intros [[<- <-]|(? & ? & ?)]|intros [[[_ ->]|[? ?]] <-]]; naive_solver.
Qed.

(** A write that is refused or fails changes nothing and dispatches nothing. *)
Lemma commit_failed c now failed a previous action n err evs n' :
  commitAnnotation c now failed a previous action n = (inl err, evs, n') → evs = [] ∧ n' = n.
Proof. unfold commitAnnotation. destruct failed; [by intros [= _ <- <-]|]. by destruct (Append _ _ _). Qed.

Lemma create_committable n now a : notes_ok n → room n → committable (stamp_new (next_id n) now a) n.
Proof. intros Hn Hr. left. cbn. by rewrite next_id_eq. Qed.

Lemma current_spec id n current : notes_ok n → Annotation_ id (index n) = Some current →
  current ∈ ordered (index n) ∧ a_ID current = id.
Proof. intros Hn. apply Annotation_spec, Hn. Qed.

Lemma edit_committable id n current now a : notes_ok n → room n → Annotation_ id (index n) = Some current →
  committable (stamp_edit current (next_id n) now a) n.
Proof.
  intros Hn Hr Hc. right. exists current. split; [by eapply current_spec|]. split; [done|]. right. cbn. by rewrite next_id_eq.
Qed.

Lemma remove_committable id n current : notes_ok n → Annotation_ id (index n) = Some current → committable current n.
Proof. intros Hn Hc. right. exists current. split; [by eapply current_spec|]. auto. Qed.

(** * What the timeline lists *)

Definition falling (l : list Annotation) : Prop := StronglySorted (λ a b, a_ID b < a_ID a) l.

Definition under (cursor : Z) (l : list Annotation) : list Annotation :=
  List.filter (λ a, (cursor =? 0) || (a_ID a <? cursor)) l.

Lemma In_filter {A} (f : A → bool) l x : x ∈ List.filter f l ↔ x ∈ l ∧ f x = true.
Proof. rewrite !list_elem_of_In. apply filter_In. Qed.

Lemma filter_id {A} (f : A → bool) l : (∀ x, x ∈ l → f x = true) → List.filter f l = l.
Proof.
  induction l as [|x l IH]; intros Hf; [done|]. cbn. rewrite Hf by (by left).
  f_equal. apply IH. intros y Hy. apply Hf. by right.
Qed.

Lemma filter_nil {A} (f : A → bool) l : (∀ x, x ∈ l → f x = false) → List.filter f l = [].
Proof.
  induction l as [|x l IH]; intros Hf; [done|]. cbn. rewrite Hf by (by left). apply IH. intros y Hy. apply Hf. by right.
Qed.

Lemma elem_of_under cursor l a : a ∈ under cursor l ↔ a ∈ l ∧ (cursor = 0 ∨ a_ID a < cursor).
Proof. unfold under. rewrite In_filter, orb_true_iff, Z.eqb_eq, Z.ltb_lt. done. Qed.

Lemma falling_app l k : falling (l ++ k) ↔ falling l ∧ falling k ∧ (∀ a b, a ∈ l → b ∈ k → a_ID b < a_ID a).
Proof. unfold falling. rewrite StronglySorted_app. naive_solver. Qed.

Lemma falling_cons a l : falling (a :: l) ↔ falling l ∧ (∀ b, b ∈ l → a_ID b < a_ID a).
Proof.
  unfold falling. split.
  - intros [Hl Ha]%StronglySorted_inv. by rewrite Forall_forall in Ha.
  - intros [Hl Ha]. constructor; [done|]. by apply Forall_forall.
Qed.

Lemma falling_filter f l : falling l → falling (List.filter f l).
Proof.
  induction l as [|a l IH]; [done|]. intros [Hl Ha]%falling_cons. cbn.
  destruct (f a); [|by apply IH]. apply falling_cons. split; [by apply IH|]. intros b [Hb _]%In_filter. by apply Ha.
Qed.

Lemma reverse_falling l : by_id l → falling (reverse l).
Proof. apply (StronglySorted_rev (λ a b, a_ID a < a_ID b)). Qed.

(** Below one of a falling list is what follows it. *)
Lemma under_split cursor l l1 a l2 : falling l → 0 < a_ID a → under cursor l = l1 ++ a :: l2 → under (a_ID a) l = l2.
Proof.
  intros Hf Hpos Hu.
  assert (under (a_ID a) l = under (a_ID a) (under cursor l)) as ->.
  { unfold under. clear Hf. assert (a ∈ under cursor l) as [_ Hc]%elem_of_under by (rewrite Hu; set_solver).
    clear Hu. induction l as [|b l IH]; [done|]. cbn.
    destruct (Z.eqb_spec (a_ID a) 0); [lia|]. cbn. destruct (Z.ltb_spec (a_ID b) (a_ID a)).
    - assert ((cursor =? 0) || (a_ID b <? cursor) = true) as ->.
      { apply orb_true_iff. rewrite Z.eqb_eq, Z.ltb_lt. lia. }
      cbn. destruct (Z.eqb_spec (a_ID a) 0); [lia|]. destruct (Z.ltb_spec (a_ID b) (a_ID a)); [|lia]. cbn. by f_equal.
    - destruct (_ || _); [|done]. cbn. destruct (Z.eqb_spec (a_ID a) 0); [lia|].
      destruct (Z.ltb_spec (a_ID b) (a_ID a)); [lia|done]. }
  apply (falling_filter (λ b, (cursor =? 0) || (a_ID b <? cursor))) in Hf. fold (under cursor l) in Hf. rewrite Hu in Hf |- *.
  apply falling_app in Hf as (_ & [_ H2]%falling_cons & H3). unfold under. rewrite List.filter_app.
  rewrite filter_nil; cbn.
  - destruct (Z.eqb_spec (a_ID a) 0); [lia|]. rewrite Z.ltb_irrefl. cbn. apply filter_id. intros b Hb%H2. by apply Z.ltb_lt.
  - intros b Hb. destruct (Z.eqb_spec (a_ID a) 0); [lia|]. apply Z.ltb_ge. assert (a_ID a < a_ID b) by (apply H3; [done|by left]). lia.
Qed.

Section lists.
Context `{Unicode}.
Context (q : HistoryQuery) (stack : string).

#[local] Abbreviation fits := (λ a, matchesAnnotation q a stack).

(** A batch is all that fit, or as many as are wanted, up to the annotation it
    resumes below. *)
Lemma batch_loop_spec n l : ∀ got, (got < n)%nat →
  ∀ batch next, batch_loop q stack n got l = (batch, next) →
  (batch = List.filter fits l ∧ (got + length batch < n)%nat ∧ next = 0) ∨
  (∃ l1 a l2, l = l1 ++ a :: l2 ∧ fits a = true ∧ batch = List.filter fits l1 ++ [a] ∧
     (got + length batch = n)%nat ∧ next = a_ID a).
Proof.
  induction l as [|a l IH]; intros got Hg batch next; cbn [batch_loop]; [intros [= <- <-]; left; split_and!; [done|cbn; lia|done]|].
  cbn [List.filter]. destruct (matchesAnnotation q a stack) eqn:Ha; cbn [negb].
  - destruct (Nat.eqb_spec (S got) n) as [<-|Hn].
    + intros [= <- <-]. right. exists [], a, l. split_and!; [done..|cbn; lia|done].
    + destruct (batch_loop q stack n (S got) l) as [batch' next'] eqn:E. intros [= <- <-].
      destruct (IH (S got) ltac:(lia) _ _ E) as [(-> & ? & ->)|(l1 & b & l2 & -> & Hb & -> & ? & ->)].
      * left. split_and!; [done|cbn; lia|done].
      * right. exists (a :: l1), b, l2. cbn. rewrite Ha. split_and!; [done..|cbn in *; lia|done].
  - intros E. destruct (IH got Hg _ _ E) as [?|(l1 & b & l2 & -> & Hb & -> & ? & ->)]; [by left|].
    right. exists (a :: l1), b, l2. cbn. rewrite Ha. done.
Qed.

(** The index from the cursor down. *)
Lemma cursor_under cursor x : by_id (ordered x) →
  reverse (take (if cursor =? 0 then length (ordered x) else (find cursor x).1) (ordered x)) = under cursor (reverse (ordered x)).
Proof.
  intros Hs. unfold under. destruct (Z.eqb_spec cursor 0) as [->|Hne].
  - rewrite take_ge by lia. symmetry. by apply filter_id.
  - cbn [orb].
    assert (∀ lo hi, (∀ a, a ∈ lo → a_ID a < cursor) → (∀ a, a ∈ hi → cursor ≤ a_ID a) →
      List.filter (λ a, a_ID a <? cursor) (reverse (lo ++ hi)) = reverse lo) as Hcut.
    { intros lo hi Hlo Hhi. rewrite reverse_app, List.filter_app, (filter_nil _ (reverse hi)).
      - apply filter_id. intros a Ha. apply Z.ltb_lt, Hlo. by rewrite elem_of_reverse in Ha.
      - intros a Ha. apply Z.ltb_ge, Hhi. by rewrite elem_of_reverse in Ha. }
    destruct (find_split cursor x Hs) as (lo & hi & Hlo & Hhi & [(b & -> & Hl & Hb)|[-> Hl]]);
      rewrite Hl; cbn [fst]; rewrite take_app_length, Hcut; try done.
    + intros a [->|Ha%Hhi]%elem_of_cons; lia.
    + intros a Ha%Hhi. lia.
Qed.

Lemma annotationBatch_spec cursor n x : by_id (ordered x) → (0 < n)%nat →
  ∀ batch next, annotationBatch q stack cursor n x = (batch, next) →
  let l := under cursor (reverse (ordered x)) in
  (batch = List.filter fits l ∧ (length batch < n)%nat ∧ next = 0) ∨
  (∃ l1 a l2, l = l1 ++ a :: l2 ∧ fits a = true ∧ batch = List.filter fits l1 ++ [a] ∧ length batch = n ∧ next = a_ID a).
Proof.
  intros Hs Hn. unfold annotationBatch. cbv zeta. rewrite cursor_under by done. by apply (batch_loop_spec n _ 0).
Qed.

Definition positive (x : annotationIndex) : Prop := ∀ a, a ∈ ordered x → 0 < a_ID a.

(** The batches of an index that holds still are one pass over it. *)
Lemma batches_exact x fuel : by_id (ordered x) → positive x → ∀ cursor need,
  (length (under cursor (reverse (ordered x))) < fuel)%nat →
  batches fuel q stack (λ _, x) cursor need =
    take need (entry <$> List.filter (readable q) (List.filter fits (under cursor (reverse (ordered x))))).
Proof.
  intros Hs Hp. induction fuel as [|fuel IH]; intros cursor need Hf; [lia|].
  destruct need as [|need]; [done|]. cbn [batches].
  destruct (annotationBatch q stack cursor (S need) x) as [batch next] eqn:E.
  pose proof (annotationBatch_spec cursor (S need) x Hs ltac:(lia) _ _ E) as Hb. cbv zeta in Hb.
  set (l := under cursor (reverse (ordered x))) in *.
  destruct Hb as [(-> & Hlen & ->)|(l1 & a & l2 & Hl & Ha & -> & Hlen & ->)].
  - rewrite Z.eqb_refl, app_nil_r. symmetry. apply take_ge. rewrite length_fmap.
    pose proof (List.filter_length_le (readable q) (List.filter fits l)). lia.
  - assert (0 < a_ID a) as Hpos.
    { apply Hp. assert (a ∈ l) as [Hin _]%elem_of_under by (rewrite Hl; set_solver). by rewrite elem_of_reverse in Hin. }
    assert (under (a_ID a) (reverse (ordered x)) = l2) as Hl2 by (eapply under_split; [by apply reverse_falling|done|exact Hl]).
    destruct (Z.eqb_spec (a_ID a) 0); [lia|]. rewrite IH, Hl2.
    2:{ rewrite Hl2. rewrite Hl, length_app in Hf. cbn in Hf. lia. }
    assert (List.filter fits l = (List.filter fits l1 ++ [a]) ++ List.filter fits l2) as ->.
    { rewrite Hl, List.filter_app. cbn [List.filter]. rewrite Ha. by rewrite <- app_assoc. }
    rewrite (List.filter_app _ (_ ++ [a])), fmap_app.
    set (found := entry <$> List.filter (readable q) (List.filter fits l1 ++ [a])).
    assert (length found ≤ S need)%nat.
    { unfold found. rewrite length_fmap. etrans; [apply List.filter_length_le|]. lia. }
    rewrite take_app. f_equal. symmetry. by apply take_ge.
Qed.

(** However the index changes between the batches, what they list falls: no
    annotation is listed twice. *)
Lemma batches_fall fuel : ∀ at_batch cursor need,
  (∀ k, by_id (ordered (at_batch k)) ∧ positive (at_batch k)) → 0 ≤ cursor →
  StronglySorted (λ e f, ID f < ID e) (batches fuel q stack at_batch cursor need) ∧
  ∀ e, e ∈ batches fuel q stack at_batch cursor need → cursor = 0 ∨ ID e < cursor.
Proof.
  induction fuel as [|fuel IH]; intros at_batch cursor need Hx Hc; [split; [constructor|by intros e ?%not_elem_of_nil]|].
  destruct need as [|need]; [split; [constructor|by intros e ?%not_elem_of_nil]|]. cbn [batches].
  destruct (Hx O) as [Hs Hp].
  destruct (annotationBatch q stack cursor (S need) (at_batch O)) as [batch next] eqn:E.
  pose proof (annotationBatch_spec cursor (S need) (at_batch O) Hs ltac:(lia) _ _ E) as Hb. cbv zeta in Hb.
  set (l := under cursor (reverse (ordered (at_batch O)))) in *.
  assert (falling l) as Hfall by (apply falling_filter, reverse_falling, Hs).
  assert (∀ b, b ∈ l → cursor = 0 ∨ a_ID b < cursor) as Hl by (by intros b [_ ?]%elem_of_under).
  assert (∀ k, falling k → StronglySorted (λ e f, ID f < ID e) (entry <$> k)) as Hmap.
  { induction k as [|b k IHk]; intros Hk; [constructor|]. apply falling_cons in Hk as [Hk Hb2]. cbn. constructor; [by apply IHk|].
    apply Forall_fmap, Forall_forall. intros d Hd%Hb2. done. }
  destruct Hb as [(-> & Hlen & ->)|(l1 & a & l2 & Hl' & Ha & -> & Hlen & ->)].
  - rewrite Z.eqb_refl, app_nil_r. split; [by apply Hmap, falling_filter, falling_filter|].
    intros e (b & -> & Hb)%list_elem_of_fmap. apply Hl. by apply In_filter in Hb as [[? _]%In_filter _].
  - assert (a ∈ l) as Hal by (rewrite Hl'; set_solver).
    assert (0 < a_ID a) as Hpos by (apply Hp; apply elem_of_under in Hal as [Hin _]; by rewrite elem_of_reverse in Hin).
    destruct (Z.eqb_spec (a_ID a) 0); [lia|].
    set (found := entry <$> List.filter (readable q) (List.filter fits l1 ++ [a])).
    destruct (IH (λ k, at_batch (S k)) (a_ID a) (S need - length found)%nat ltac:(by intros; apply Hx) ltac:(lia)) as [IH1 IH2].
    assert (∀ e, e ∈ found → a_ID a ≤ ID e ∧ (cursor = 0 ∨ ID e < cursor)) as Hfound.
    { intros e (b & -> & [Hb _]%In_filter)%list_elem_of_fmap. cbn.
      apply elem_of_app in Hb as [[Hb _]%In_filter|Hb%list_elem_of_singleton]; [|subst; split; [lia|by apply Hl]].
      rewrite Hl' in Hfall. apply falling_app in Hfall as (_ & _ & Hf). specialize (Hf b a Hb ltac:(by left)).
      split; [lia|]. apply Hl. rewrite Hl'. set_solver. }
    split.
    + apply StronglySorted_app. split_and!; [|apply Hmap, falling_filter|done].
      * intros e f [He _]%Hfound [Hf|Hf]%IH2; lia.
      * rewrite Hl' in Hfall. replace (l1 ++ a :: l2) with ((l1 ++ [a]) ++ l2) in Hfall by (by rewrite <- app_assoc).
        apply falling_app in Hfall as [Hf _]. apply (falling_filter fits) in Hf. rewrite List.filter_app in Hf.
        cbn in Hf. by rewrite Ha in Hf.
    + intros e [[_ He]%Hfound|[He|He]%IH2]%elem_of_app; [done|lia|].
      destruct (Hl a Hal); [by left|right; lia].
Qed.
End lists.

(** * Reachable states *)

(** What the store gives back at startup: annotations of distinct IDs, none of
    them a recorded change's, no version beyond the restored count. *)
Definition restorable_notes (l : list Annotation) (all : list HistoryEntry) (h : History) : Prop :=
  NoDup (a_ID <$> l) ∧ (∀ a, a ∈ l → 0 < a_ID a ≤ a_Version a ∧ a_Version a ≤ count h) ∧
  (∀ a e, a ∈ l → e ∈ all → ID e ≠ a_ID a).

Definition map_of (l : list Annotation) : gmap Z Annotation := list_to_map ((λ a, (a_ID a, a)) <$> l).

Definition off : annotationIndex := mkAnnotations false [].

Inductive noted : Notes → Prop :=
| noted_off all h : recorded all h → noted (mkNotes off ∅ h all)
| noted_restored l all h : recorded all h → restorable_notes l all h →
    noted (mkNotes (RestoreAnnotations l off) (map_of l) h all)
| noted_other n now e : noted n → room n → noted (append_other now e n)
| noted_create n c now later answer a : noted n → room n →
    noted (CreateAnnotation c now later answer a n).2
| noted_update n c now later answer id edit : noted n → room n →
    noted (UpdateAnnotation c now later answer id edit n).2
| noted_delete n c later answer id check : noted n → room n →
    noted (DeleteAnnotation c later answer id check n).2.

#[export] Instance compare_id_laws : Compare compare_id := compare_proj a_ID Z.compare.

Lemma sorted_by_id l : NoDup (a_ID <$> l) → by_id (SortFunc compare_id l).
Proof. apply (SortFunc_strict a_ID). Qed.

Lemma commit_any c now failed a previous action n : notes_ok n → room n → committable a n →
  notes_ok (commitAnnotation c now failed a previous action n).2.
Proof.
  intros Hn Hr Ha. destruct failed as [message|]; [done|].
  by destruct (commit_spec c now a previous action n Hn Hr Ha) as (h & _ & _ & ?).
Qed.

Lemma noted_ok n : noted n → notes_ok n.
Proof.
  induction 1 as [all h Hrec|l all h Hrec (Hnd & Hids & Hno)|n now e _ IH Hr|n c now later answer a _ IH Hr|
                  n c now later answer id edit _ IH Hr|n c later answer id check _ IH Hr].
  - constructor; cbn; [done|exact (SSorted_nil _)|by intros a ?%not_elem_of_nil|by intros a e ?%not_elem_of_nil|done].
  - pose proof (sorted_by_id l Hnd) as Hs. constructor; cbn; [done|done|..].
    + intros a Ha. rewrite SortFunc_perm in Ha. by apply Hids.
    + intros a e Ha He Heq. rewrite SortFunc_perm in Ha. by destruct (Hno a e).
    + intros id. apply option_eq. intros a. unfold map_of.
      rewrite (Annotation_spec id (RestoreAnnotations l off)) by done. cbn. rewrite SortFunc_perm.
      rewrite <- elem_of_list_to_map, list_elem_of_fmap.
      * split; [intros (b & [= -> ->] & Hb); done|intros [Ha <-]; by exists a].
      * by rewrite <- list_fmap_compose.
  - by apply append_other_ok.
  - unfold CreateAnnotation. destruct (beginAnnotation _ _); [done|]. destruct (_ <=? _); [done|].
    apply commit_any; [done..|]. by apply create_committable.
  - unfold UpdateAnnotation. destruct (beginAnnotation _ _); [done|]. destruct (Annotation_ _ _) as [cur|] eqn:Hc; [|done].
    destruct (edit cur); [done|]. apply commit_any; [done..|]. by eapply edit_committable.
  - unfold DeleteAnnotation. destruct (beginAnnotation _ _); [done|]. destruct (Annotation_ _ _) as [cur|] eqn:Hc; [|done].
    destruct (check cur); [done|]. apply commit_any; [done..|]. by eapply remove_committable.
Qed.

(** * The merge *)

Lemma merge_take k : ∀ k1 k2 ring notes, (k ≤ k1)%nat → (k ≤ k2)%nat → merge k (take k1 ring) (take k2 notes) = merge k ring notes.
Proof.
  induction k as [|k IH]; intros [|k1] [|k2] [|r ring] [|n notes] H1 H2; try done; try lia; cbn [merge take].
  - f_equal. apply (IH (S k1) k2 [] notes); lia.
  - f_equal. apply (IH k1 (S k2) ring []); lia.
  - destruct (ID n <? ID r); f_equal; [apply (IH k1 (S k2) ring (n :: notes))|apply (IH (S k1) k2 (r :: ring) notes)]; lia.
Qed.

Lemma merge_more k : ∀ m ring notes, (k ≤ m)%nat → merge k ring notes = take k (merge m ring notes).
Proof.
  induction k as [|k IH]; intros [|m] ring notes Hk; try done; try lia.
  destruct ring as [|r ring], notes as [|n notes]; cbn [merge]; [done|..|]; try (cbn [take]; f_equal; apply IH; lia).
  destruct (ID n <? ID r); cbn [take]; f_equal; apply IH; lia.
Qed.

Lemma merge_perm m : ∀ ring notes, (length ring + length notes ≤ m)%nat → merge m ring notes ≡ₚ ring ++ notes.
Proof.
  induction m as [|m IH]; intros [|r ring] [|n notes] Hm; cbn [merge length] in *; try done; try lia.
  - rewrite IH by (cbn; lia). done.
  - rewrite IH by (cbn; lia). done.
  - destruct (ID n <? ID r); rewrite IH by (cbn; lia); cbn; [done|].
    by rewrite (Permutation_middle (r :: ring) notes n).
Qed.

Definition newest_to_oldest (l : list HistoryEntry) : Prop := StronglySorted (λ e f, ID f < ID e) l.

Lemma merge_sorted m : ∀ ring notes, (length ring + length notes ≤ m)%nat →
  newest_to_oldest ring → newest_to_oldest notes → (∀ e f, e ∈ ring → f ∈ notes → ID e ≠ ID f) →
  newest_to_oldest (merge m ring notes).
Proof.
  unfold newest_to_oldest.
  induction m as [|m IH]; intros [|r ring] [|n notes] Hm Hr Hn Hd; cbn [merge length] in *; try (by constructor); try lia.
  - inversion Hn as [|? ? Hn' Hall]; subst. constructor; [apply IH; cbn; [lia|done|done|by intros e f ?%not_elem_of_nil]|].
    rewrite merge_perm by (cbn; lia). done.
  - inversion Hr as [|? ? Hr' Hall]; subst. constructor; [apply IH; cbn; [lia|done..|by intros e f _ ?%not_elem_of_nil]|].
    rewrite merge_perm by (cbn; lia). by rewrite app_nil_r.
  - inversion Hn as [|? ? Hn' Hn2]; subst. inversion Hr as [|? ? Hr' Hr2]; subst.
    pose proof (Hd r n ltac:(by left) ltac:(by left)) as Hne.
    destruct (Z.ltb_spec (ID n) (ID r)); constructor.
    + apply IH; cbn; [lia|done..|]. intros e f He Hf. apply Hd; [by right|done].
    + rewrite merge_perm by (cbn; lia). rewrite Forall_app. split; [done|]. constructor; [done|].
      eapply Forall_impl; [exact Hn2|]. cbn. lia.
    + apply IH; cbn; [lia|done..|]. intros e f He Hf. apply Hd; [done|by right].
    + rewrite merge_perm by (cbn; lia). rewrite Forall_app. split; [|done]. constructor; [lia|].
      eapply Forall_impl; [exact Hr2|]. cbn. lia.
Qed.

(** * The timeline is exact *)

Section exact.
Context `{Unicode}.

(** What of the ring a query asks for, and what of the annotations. *)
Definition ring_part (c : Cache) (n : Notes) (q : HistoryQuery) : list HistoryEntry :=
  let rq := ring_query c (timeline n) q in
  if wants_ring q then
    List.filter (λ e, negb (too_new q e) && negb (too_old q e) && matches (prepared rq) e)
      (reverse (drop (length (log n) - size (timeline n)) (log n)))
  else [].

Definition notes_part (c : Cache) (n : Notes) (q : HistoryQuery) : list HistoryEntry :=
  if wantsKind q KindAnnotation then
    entry <$> List.filter (readable q)
      (List.filter (λ a, matchesAnnotation (prepared q) a (subject_stack c (timeline n) q))
         (under (BeforeID q) (reverse (ordered (index n)))))
  else [].

Lemma ring_query_limit c h q k : ring_query c h (with_limit k q) = with_limit k (ring_query c h q).
Proof. unfold ring_query. cbn [with_limit q_ResourceID q_Type Types]. by destruct (_ && _). Qed.

Lemma ring_part_newest c n q : notes_ok n → newest_to_oldest (ring_part c n q).
Proof.
  intros Hn. unfold ring_part. destruct (wants_ring q); [|constructor].
  rewrite <- (newest_first_spec _ _ (no_history n Hn)).
  assert (∀ f l, newest_to_oldest l → newest_to_oldest (List.filter f l)) as Hf.
  { intros f l Hl. induction Hl as [|e l Hl IH Hall]; [constructor|]. cbn. destruct (f e); [|done]. constructor; [done|].
    apply Forall_forall. intros e' [He' _]%In_filter. rewrite Forall_forall in Hall. by apply Hall. }
  apply Hf, falling_ids with (all := log n), no_history, Hn.
Qed.

Lemma notes_part_newest c n q : notes_ok n → newest_to_oldest (notes_part c n q).
Proof.
  intros Hn. unfold notes_part. destruct (wantsKind q _); [|constructor].
  assert (falling (List.filter (readable q) (List.filter (λ a, matchesAnnotation (prepared q) a (subject_stack c (timeline n) q))
    (under (BeforeID q) (reverse (ordered (index n))))))) as Hf.
  { apply falling_filter, falling_filter, falling_filter, reverse_falling, Hn. }
  revert Hf. generalize (List.filter (readable q) (List.filter (λ a, matchesAnnotation (prepared q) a (subject_stack c (timeline n) q))
    (under (BeforeID q) (reverse (ordered (index n)))))). induction l as [|a l IH]; intros Hf; [constructor|].
  apply falling_cons in Hf as [Hf Ha]. cbn. constructor; [by apply IH|]. apply Forall_fmap, Forall_forall. intros b Hb%Ha. done.
Qed.

(** No entry of the ring a query lists has an annotation's ID. *)
Lemma parts_apart c n q e f : notes_ok n → e ∈ ring_part c n q → f ∈ notes_part c n q → ID e ≠ ID f.
Proof.
  intros Hn He Hf Heq. unfold ring_part in He. unfold notes_part in Hf.
  destruct (wants_ring q); [|by apply not_elem_of_nil in He]. destruct (wantsKind q _); [|by apply not_elem_of_nil in Hf].
  apply In_filter in He as [He Hm]. apply andb_true_iff in Hm as [_ Hm].
  apply list_elem_of_fmap in Hf as (a & -> & [[[Ha _]%elem_of_under _]%In_filter _]%In_filter).
  rewrite elem_of_reverse in He. rewrite elem_of_reverse in Ha. apply list_elem_of_lookup_1 in He as [i He]. rewrite lookup_drop in He. apply list_elem_of_lookup_2 in He.
  unfold matches in Hm. destruct (bool_decide_reflect (Kind e = KindAnnotation)) as [?|Hk]; [done|].
  apply Hk, (no_items n Hn a e); [done|done|exact Heq].
Qed.

Lemma annotationEntries_exact fuel c n q k rq : notes_ok n → (length (ordered (index n)) < fuel)%nat →
  (rq = with_limit k q ∨ ∃ members, rq = with_members members (with_limit k q)) → wantsKind q KindAnnotation = true →
  annotationEntries fuel c (timeline n) rq (λ _, index n) = take (Z.to_nat k) (notes_part c n q).
Proof.
  intros Hn Hf Hrq Hw. unfold notes_part, annotationEntries. rewrite Hw.
  rewrite batches_exact.
  - destruct Hrq as [->|[members ->]]; done.
  - apply Hn.
  - intros a Ha%(no_ids n Hn). lia.
  - unfold under. pose proof (List.filter_length_le (λ a, (BeforeID (prepared rq) =? 0) || (a_ID a <? BeforeID (prepared rq)))
      (reverse (ordered (index n)))) as Hl. rewrite length_reverse in Hl. lia.
Qed.

(** C34: the timeline leaves nothing out and lists nothing twice. In every
    reachable state, the entries of the ring a query admits and the annotations
    it admits below its cursor, of those its caller may read, have one order from
    the newest ID down; the timeline is the first of it, up to the limit,
    however the annotations fall into batches and both walks into their limits. *)
Theorem timeline_exact n c q fuel : noted n → ends_rise (log n) →
  (q_ResourceID q ≠ "" → well_named (q_ResourceID q) (log n)) →
  (length (ordered (index n)) < fuel)%nat →
  ∃ full, full ≡ₚ ring_part c n q ++ notes_part c n q ∧ newest_to_oldest full ∧
    Timeline fuel c (timeline n) (λ _, index n) q = take (list_limit q) full.
Proof.
  intros Hn%noted_ok Hends Hnamed Hfuel. set (R := ring_part c n q). set (N := notes_part c n q).
  exists (merge (length R + length N) R N). split; [by apply merge_perm|]. split.
  { apply merge_sorted; [lia|by apply ring_part_newest|by apply notes_part_newest|].
    intros e f. by apply parts_apart. }
  unfold Timeline. set (k := if Limit q <=? 0 then 50 else Limit q).
  assert ((if Limit q <=? 0 then with_limit 50 q else q) = with_limit k q) as ->.
  { unfold k. destruct (Limit q <=? 0); [done|]. by destruct q. }
  assert (list_limit q = Z.to_nat k) as -> by (unfold list_limit, k; by destruct (Limit q <=? 0)).
  assert (0 < k) as Hk by (unfold k; destruct (Z.leb_spec (Limit q) 0); lia).
  assert (list_limit (with_limit k q) = Z.to_nat k) as Hlim.
  { unfold list_limit. cbn. by destruct (Z.leb_spec k 0); [lia|]. }
  change (wants_ring (with_limit k q)) with (wants_ring q).
  change (wantsKind (with_limit k q) KindAnnotation) with (wantsKind q KindAnnotation). cbv zeta. cbn [Limit with_limit].
  assert ((if wants_ring q then List_ (if wants_ring q then ring_query c (timeline n) (with_limit k q) else with_limit k q)
             (timeline n) else []) = take (Z.to_nat k) R) as ->.
  { unfold R, ring_part. destruct (wants_ring q); [|by rewrite take_nil].
    rewrite ring_query_limit, (List_answers (log n)); [|apply Hn|done|].
    - unfold ring_query. destruct (_ && _); unfold list_limit; cbn; by destruct (Z.leb_spec k 0); [lia|].
    - unfold ring_query. by destruct (_ && _). }
  destruct (wantsKind q KindAnnotation) eqn:Hw; cbn [negb].
  - rewrite (annotationEntries_exact fuel c n q k); [|done..| |done].
    + rewrite merge_take by lia. fold N.
      destruct (decide (Z.to_nat k ≤ length R + length N)%nat) as [Hle|Hgt]; [by apply merge_more|].
      symmetry. rewrite take_ge by (rewrite merge_perm, length_app by lia; lia).
      rewrite (merge_more (length R + length N) (Z.to_nat k)) by lia.
      apply take_ge. rewrite merge_perm, length_app by lia. lia.
    + destruct (wants_ring q); [|by left]. unfold ring_query. destruct (_ && _); [right; by eexists|by left].
  - assert (N = []) as -> by (unfold N, notes_part; by rewrite Hw). cbn [length]. rewrite Nat.add_0_r.
    f_equal. clear. induction R as [|r R IH]; [done|]. cbn. by f_equal.
Qed.
End exact.

(** * A small timeline *)

Definition demo_note : Annotation := mkAnnotation 0 15 0 "deploy" ["release"] [] None 0 None 0 0.
Definition demo_change (id : string) : HistoryEntry :=
  mkHistoryEntry 0 "" time_zero time_zero "service" "update" id id None "" "" 0 "" "" time_zero false "" None None.
Definition demo_notes0 : Notes := mkNotes (RestoreAnnotations [] off) (map_of []) (NewHistory 4 "i") [].
Definition demo_notes1 : Notes := append_other 10 (demo_change "s1") demo_notes0.
Definition demo_notes2 : Notes := (CreateAnnotation (New 0) 20 21 (mkStoreAnswer None None) demo_note demo_notes1).2.
Definition demo_notes3 : Notes := append_other 30 (demo_change "s2") demo_notes2.
Definition demo_query : HistoryQuery :=
  mkHistoryQuery "" "s2" 0 "" "" 2 None [] false [] [] 0 0 None [] false [] [] None.

Lemma demo_noted : noted demo_notes3.
Proof.
  apply noted_other; [|done]. apply noted_create; [|done]. apply noted_other; [|done].
  apply noted_restored; [apply recorded_new; lia|]. split_and!; [exact NoDup_nil_2|by intros a ?%not_elem_of_nil|by intros a e ?%not_elem_of_nil].
Qed.

Lemma timeline_exact_witness :
  let listed := @Timeline ascii_unicode 5 (New 0) (timeline demo_notes3) (λ _, index demo_notes3) demo_query in
  ID <$> listed = [3; 2] ∧
  ∃ full, full ≡ₚ @ring_part ascii_unicode (New 0) demo_notes3 demo_query ++ @notes_part ascii_unicode (New 0) demo_notes3 demo_query ∧
    newest_to_oldest full ∧ listed = take 2 full.
Proof.
  split; [vm_compute; reflexivity|].
  apply (@timeline_exact ascii_unicode demo_notes3 (New 0) demo_query 5 demo_noted).
  - vm_compute. repeat constructor; discriminate.
  - intros _ e He. vm_compute in He. repeat (apply elem_of_cons in He as [->|He];
      [split; [intros E; discriminate E|intros E; first [discriminate E|reflexivity]]|]).
    by apply not_elem_of_nil in He.
  - vm_compute. lia.
Defined.
