(* ===== verification/AnnotationWrites.v ===== *)
(** Writing annotations: the use case of internal/cluster/annotations.go over
    the cache's annotations, with the entity tags of
    internal/api/annotation_handlers.go.

    An edit is checked outside the cache's lock and committed under it, against
    the version it was checked at, and starts over when another write came
    between. A step of the machine is one of the two, by any of the calls under
    way; between them the cache, the grants and the annotations may change. A
    caller's grants are what its [AnnotationCaller] answers at a check. [quote]
    is fmt's %q, [created] when a task was. *)
From S2P Require Import Prelude GoStrings GoStrconv GoPath SortedLists CacheState CacheStacks CacheIndex CacheOps History SseEvents AclPolicy Resolve Annotations.
#[local] Open Scope string_scope.
#[local] Open Scope Z_scope.
#[local] Open Scope list_scope.

(** * Requests *)

Definition MaxAnnotationText : nat := 1000.
Definition MaxAnnotationTags : nat := 10.
Definition MaxAnnotationResources : nat := 20.

Record AnnotationCaller := mkCaller {
  CanRead : string → bool;
  CanWrite : string → bool;
  AnyGrant : bool;
  WritesEverything : bool;
}.

Record AnnotationRef := mkRef { ref_Type : string; ref_ID : string }.

Record AnnotationInput := mkInput {
  in_Timestamp : Z;
  in_Until : Z;
  in_Text : string;
  in_Tags : list string;
  in_Resources : list AnnotationRef;
}.

(** An absent field is left as it is. *)
Record AnnotationPatch := mkPatch {
  p_Timestamp : option Z;
  p_Until : option Z;
  p_Text : option string;
  p_Tags : option (list string);
  p_Resources : option (list AnnotationRef);
}.

(** * Validation *)

Fixpoint rune_count (fuel : nat) (s : string) : nat :=
  match fuel, s with
  | S fuel, String _ _ => S (rune_count fuel (str_drop (DecodeRune s).2 s))
  | _, _ => O
  end.

(** utf8.RuneCountInString: a rune takes a byte or more. *)
Definition RuneCountInString (s : string) : nat := rune_count (String.length s) s.

(** [a-z0-9._-]. *)
Definition tag_byte (c : ascii) : bool :=
  let n := nat_of_ascii c in
  ((97 <=? n) && (n <=? 122))%nat || ((48 <=? n) && (n <=? 57))%nat || bool_decide (c ∈ ["."; "_"; "-"]%char).

Definition annotationTag (tag : string) : bool :=
  (1 <=? String.length tag)%nat && (String.length tag <=? 40)%nat && forallb tag_byte (String.list_ascii_of_string tag).

(** The first nanosecond of the year, of Go's zero time's calendar, in UTC. *)
Definition year1970 : Z := 62135596800 * 1000000000.
Definition year2200 : Z := 69393715200 * 1000000000.

Definition annotationTimeInRange (t : Z) : bool := negb (time_before t year1970) && (t <? year2200).

Definition field_of (name : string) (i : nat) : string := name +:+ "[" +:+ Itoa (Z.of_nat i) +:+ "]".

Definition invalidAnnotation (field reason : string) : option annotation_error := Some (AnnotationInvalidError field reason).

Section annotations.
Context `{MapRange, Unicode} (created : string → Z) (quote : string → string).

Fixpoint validateTags (i : nat) (before tags : list string) : option annotation_error :=
  match tags with
  | [] => None
  | tag :: tags =>
      if negb (annotationTag tag) then invalidAnnotation (field_of "tags" i) "must match ^[a-z0-9._-]{1,40}$"
      else if bool_decide (tag ∈ before) then invalidAnnotation (field_of "tags" i) (quote tag +:+ " is named twice")
      else validateTags (S i) (before ++ [tag]) tags
  end.

Definition validateAnnotation (a : Annotation) : option annotation_error :=
  if is_empty (TrimSpace (a_Text a)) then invalidAnnotation "text" "is required"
  else if (MaxAnnotationText <? RuneCountInString (a_Text a))%nat then invalidAnnotation "text" "at most 1000 characters"
  else if negb (annotationTimeInRange (a_Timestamp a)) then invalidAnnotation "timestamp" "must fall in the years 1970 to 2199"
  else if negb (is_zero_time (a_Until a)) && negb (annotationTimeInRange (a_Until a)) then
    invalidAnnotation "until" "must fall in the years 1970 to 2199"
  else if negb (is_zero_time (a_Until a)) && negb (time_after (a_Until a) (a_Timestamp a)) then
    invalidAnnotation "until" "must be after the start"
  else if (MaxAnnotationTags <? length (a_Tags a))%nat then invalidAnnotation "tags" "at most 10"
  else validateTags 0 [] (a_Tags a).

(** * Authorization *)

(** By its name, or by the service and stack it was recorded under. *)
Definition admits (can : string → bool) (r : AnnotationResource) : bool :=
  can (ar_Type r +:+ ":" +:+ ar_Name r) ||
  (negb (is_empty (ar_Service r)) && can ("service:" +:+ ar_Service r)) ||
  (negb (is_empty (ar_Stack r)) && can ("stack:" +:+ ar_Stack r)).

Definition allAdmit (resources : list AnnotationResource) (can : string → bool) : bool := forallb (admits can) resources.

Definition MayRead (c : AnnotationCaller) (a : Annotation) : bool :=
  match a_Resources a with [] => AnyGrant c | _ => allAdmit (a_Resources a) (CanRead c) end.

Definition mayCreate (c : AnnotationCaller) (resources : list AnnotationResource) : bool :=
  match resources with [] => WritesEverything c | _ => allAdmit resources (CanWrite c) end.

(** The actor of the context, if it has one, wrote it. *)
Definition authored (actor : option Actor) (a : Annotation) : bool :=
  match actor, a_Actor a with
  | Some actor, Some author =>
      bool_decide (Actor_Subject author = Actor_Subject actor) &&
      (bool_decide (Actor_Provider author = Actor_Provider actor) ||
       bool_decide (Actor_Provider author = ProviderToken) || bool_decide (Actor_Provider actor = ProviderToken))
  | _, _ => false
  end.

Definition MayEdit (actor : option Actor) (c : AnnotationCaller) (a : Annotation) : bool :=
  if authored actor a && MayRead c a then true else mayCreate c (a_Resources a).

(** * The use case *)

Definition get (c : AnnotationCaller) (id : Z) (x : annotationIndex) : annotation_error + Annotation :=
  match Annotation_ id x with
  | Some a => if MayRead c a then inr a else inl ErrAnnotationNotFound
  | None => inl ErrAnnotationNotFound
  end.

Definition Get (cache : Cache) (c : AnnotationCaller) (id : Z) (x : annotationIndex) : annotation_error + Annotation :=
  match get c id x with inl err => inl err | inr a => inr (WithRemovals cache a) end.

Definition resolveOne (cache : Cache) (ref : AnnotationRef) (kept : list AnnotationResource) (canRead : string → bool)
    (field : string) : annotation_error + AnnotationResource :=
  let invalid sub reason := inl (AnnotationInvalidError (field +:+ sub) reason) in
  if negb (bool_decide (ref_Type ref ∈ [EventService; EventStack; EventNode])) then
    invalid ".type" "must be service, stack or node"
  else if is_empty (ref_ID ref) then invalid ".id" "is required"
  else
    match list_find (λ r, ar_Type r = ref_Type ref ∧ (ar_ID r = ref_ID ref ∨ ar_Name r = ref_ID ref)) kept with
    | Some (_, r) => inr r
    | None =>
        let missing := invalid ".id" (ref_Type ref +:+ " " +:+ quote (ref_ID ref) +:+ " not found") in
        match LookupAs created cache (ref_Type ref) (ref_ID ref) (Some canRead) with
        | Found record =>
            if negb (canRead (Resource_of record)) then missing else
            let service := if bool_decide (ref_Type ref = EventService) then rec_Name record else "" in
            let stack :=
              if bool_decide (ref_Type ref = EventService) then
                match services cache !! rec_ID record with Some svc => label_of (s_Labels svc) | None => "" end
              else if bool_decide (ref_Type ref = EventStack) then rec_Name record else "" in
            inr (mkAnnotationResource (ref_Type ref) (rec_ID record) (rec_Name record) service stack false)
        | Missing | Ambiguous _ _ => missing
        end
    end.

Fixpoint resolve_loop (cache : Cache) (i : nat) (refs : list AnnotationRef) (kept : list AnnotationResource)
    (canRead : string → bool) (resources : list AnnotationResource) : annotation_error + list AnnotationResource :=
  match refs with
  | [] => inr resources
  | ref :: refs =>
      let field := field_of "resources" i in
      match resolveOne cache ref kept canRead field with
      | inl err => inl err
      | inr resource =>
          if existsb (λ r, bool_decide (ar_Type r = ar_Type resource) && bool_decide (ar_ID r = ar_ID resource)) resources
          then inl (AnnotationInvalidError field (ref_Type ref +:+ " " +:+ quote (ref_ID ref) +:+ " is named twice"))
          else resolve_loop cache (S i) refs kept canRead (resources ++ [resource])
      end
  end.

Definition resolve (cache : Cache) (refs : list AnnotationRef) (kept : list AnnotationResource) (canRead : string → bool)
    : annotation_error + list AnnotationResource :=
  if (MaxAnnotationResources <? length refs)%nat then inl (AnnotationInvalidError "resources" "at most 20")
  else resolve_loop cache 0 refs kept canRead [].

(** Create, up to its call of the cache. *)
Definition new_annotation (cache : Cache) (actor : option Actor) (c : AnnotationCaller) (input : AnnotationInput) (now : Z)
    (x : annotationIndex) : annotation_error + Annotation :=
  if negb (AnnotationsOn x) then inl ErrAnnotationsOff else
  let timestamp := if is_zero_time (in_Timestamp input) then now else in_Timestamp input in
  match resolve cache (in_Resources input) [] (CanRead c) with
  | inl err => inl err
  | inr resources =>
      let a := mkAnnotation 0 timestamp (in_Until input) (in_Text input) (in_Tags input) resources actor time_zero None 0 time_zero in
      match validateAnnotation a with
      | Some err => inl err
      | None => if mayCreate c resources then inr a else inl ErrAnnotationDenied
      end
  end.

Definition editable (cache : Cache) (actor : option Actor) (c : AnnotationCaller) (id : Z)
    (matches : option (Annotation → bool)) (x : annotationIndex) : annotation_error + Annotation :=
  if negb (AnnotationsOn x) then inl ErrAnnotationsOff else
  match get c id x with
  | inl err => inl err
  | inr current =>
      if negb (MayEdit actor c current) then inl ErrAnnotationDenied
      else if match matches with Some f => negb (f (WithRemovals cache current)) | None => false end
      then inl ErrAnnotationPrecondition
      else inr current
  end.

Definition with_content (timestamp until : Z) (text : string) (tags : list string) (resources : list AnnotationResource)
    (editor : option Actor) (a : Annotation) : Annotation :=
  mkAnnotation (a_ID a) timestamp until text tags resources (a_Actor a) (a_Updated a) editor (a_Version a) (a_Created a).

Definition patched (cache : Cache) (c : AnnotationCaller) (current : Annotation) (patch : AnnotationPatch)
    : annotation_error + Annotation :=
  let resources :=
    match p_Resources patch with
    | None => inr (a_Resources current)
    | Some refs => resolve cache refs (a_Resources current) (CanRead c)
    end in
  match resources with
  | inl err => inl err
  | inr resources =>
      let next := with_content (default (a_Timestamp current) (p_Timestamp patch)) (default (a_Until current) (p_Until patch))
        (default (a_Text current) (p_Text patch)) (default (a_Tags current) (p_Tags patch)) resources (a_Editor current) current in
      match validateAnnotation next with Some err => inl err | None => inr next end
  end.

Definition sameAnnotation (a b : Annotation) : bool :=
  (a_Timestamp a =? a_Timestamp b) && (a_Until a =? a_Until b) && bool_decide (a_Text a = a_Text b) &&
  bool_decide (a_Tags a = a_Tags b) && bool_decide (a_Resources a = a_Resources b).

(** One round of Update's loop, up to its call of the cache: the annotation it
    was checked against and what is to become of it. *)
Definition checked_edit (cache : Cache) (actor : option Actor) (c : AnnotationCaller) (id : Z) (patch : AnnotationPatch)
    (matches : option (Annotation → bool)) (x : annotationIndex) : annotation_error + Annotation * Annotation :=
  match editable cache actor c id matches x with
  | inl err => inl err
  | inr current =>
      match patched cache c current patch with
      | inl err => inl err
      | inr next =>
          if match p_Resources patch with Some _ => negb (mayCreate c (a_Resources next)) | None => false end
          then inl ErrAnnotationDenied else inr (current, next)
      end
  end.

(** The edit Update gives the cache, and the check Delete does. *)
Definition edit_of (actor : option Actor) (current next : Annotation) (a : Annotation) : annotation_error + Annotation :=
  if negb (a_Version a =? a_Version current) then inl errAnnotationMoved
  else inr (with_content (a_Timestamp next) (a_Until next) (a_Text next) (a_Tags next) (a_Resources next) actor a).

Definition check_of (current a : Annotation) : option annotation_error :=
  if negb (a_Version a =? a_Version current) then Some errAnnotationMoved else None.
End annotations.

(** * Calls under way *)

Inductive request :=
| RCreate (input : AnnotationInput)
| RUpdate (id : Z) (patch : AnnotationPatch) (matches : option (Annotation → bool))
| RDelete (id : Z) (matches : option (Annotation → bool)).

(** A call, by the actor its context carries. *)
Record Call := mkCall { call_actor : option Actor; call_request : request }.

(** What a check found: the grants and the cache it asked, the annotation it
    was made against, if any, and the one to write. *)
Record Approval := mkApproval {
  ap_caller : AnnotationCaller;
  ap_cache : Cache;
  ap_now : Z;
  ap_current : option Annotation;
  ap_next : Annotation;
}.

(** A call about to check, or with its commit ahead. *)
Inductive progress := Checking | Committing (ap : Approval).

(** A write that went through: what it found under the ID and what it left. *)
Record Effect := mkEffect {
  ef_call : Call;
  ef_approval : Approval;
  ef_id : Z;
  ef_before : option Annotation;
  ef_after : option Annotation;
}.

Record World := mkWorld {
  notes : Notes;
  cached : Cache;
  calls : gmap nat (Call * progress);
  effects : list Effect;
}.

Inductive action :=
| ACache (c : Cache)
| AOther (now : Z) (e : HistoryEntry)
| AAsk (k : nat) (call : Call)
| ACheck (k : nat) (caller : AnnotationCaller) (now : Z)
| ACommit (k : nat) (now later : Z) (answer : store_answer).

(** What a call ends in: the error, or the annotation it answers. *)
Abbreviation ended := (option (annotation_error + option Annotation)).

Section machine.
Context `{MapRange, Unicode} (created : string → Z) (quote : string → string).

Definition set_calls (calls : gmap nat (Call * progress)) (w : World) : World :=
  mkWorld (notes w) (cached w) calls (effects w).

Definition finish (k : nat) (w : World) : World := set_calls (delete k (calls w)) w.

(** The check of a call, outside the lock. *)
Definition check (k : nat) (caller : AnnotationCaller) (now : Z) (call : Call) (w : World) : ended * World :=
  let x := index (notes w) in
  let c := cached w in
  let actor := call_actor call in
  let approve current next := (None, set_calls (<[k := (call, Committing (mkApproval caller c now current next))]> (calls w)) w) in
  match call_request call with
  | RCreate input =>
      match new_annotation created quote c actor caller input now x with
      | inl err => (Some (inl err), finish k w)
      | inr a => approve None a
      end
  | RUpdate id patch matches =>
      match checked_edit created quote c actor caller id patch matches x with
      | inl err => (Some (inl err), finish k w)
      | inr (current, next) =>
          if sameAnnotation current next then (Some (inr (Some (WithRemovals c current))), finish k w)
          else approve (Some current) next
      end
  | RDelete id matches =>
      match editable c actor caller id matches x with
      | inl err => (Some (inl err), finish k w)
      | inr current => approve (Some current) current
      end
  end.

(** The cache's call, under its lock. *)
Definition committed_write (call : Call) (ap : Approval) (c : Cache) (now later : Z) (answer : store_answer) (n : Notes)
    : written Annotation :=
  match call_request call with
  | RCreate _ => CreateAnnotation c now later answer (ap_next ap) n
  | RUpdate id _ _ =>
      UpdateAnnotation c now later answer id (edit_of (call_actor call) (default (ap_next ap) (ap_current ap)) (ap_next ap)) n
  | RDelete id _ => DeleteAnnotation c later answer id (check_of (default (ap_next ap) (ap_current ap))) n
  end.

Definition is_delete (r : request) : bool := match r with RDelete _ _ => true | _ => false end.

(** A write that lost a race checks again; any other ends its call. *)
Definition commit (k : nat) (now later : Z) (answer : store_answer) (call : Call) (ap : Approval) (w : World) : ended * World :=
  match committed_write call ap (cached w) now later answer (notes w) with
  | (inl err, _, n) =>
      if bool_decide (err = errAnnotationMoved) then (None, set_calls (<[k := (call, Checking)]> (calls w)) w)
      else (Some (inl err), finish k (mkWorld n (cached w) (calls w) (effects w)))
  | (inr a, _, n) =>
      let before := Annotation_ (a_ID a) (index (notes w)) in
      let after := if is_delete (call_request call) then None else Some a in
      (Some (inr (if is_delete (call_request call) then None else Some (WithRemovals (cached w) a))),
       finish k (mkWorld n (cached w) (calls w) (effects w ++ [mkEffect call ap (a_ID a) before after])))
  end.

Definition perform (act : action) (w : World) : ended * World :=
  match act with
  | ACache c => (None, mkWorld (notes w) c (calls w) (effects w))
  | AOther now e => (None, mkWorld (append_other now e (notes w)) (cached w) (calls w) (effects w))
  | AAsk k call =>
      match calls w !! k with
      | Some _ => (None, w)
      | None => (None, set_calls (<[k := (call, Checking)]> (calls w)) w)
      end
  | ACheck k caller now =>
      match calls w !! k with Some (call, Checking) => check k caller now call w | _ => (None, w) end
  | ACommit k now later answer =>
      match calls w !! k with Some (call, Committing ap) => commit k now later answer call ap w | _ => (None, w) end
  end.

(** The runs from a start in which the 64-bit count does not come around. *)
Inductive runs (start : Notes) (c : Cache) : World → Prop :=
| runs_start : runs start c (mkWorld start c ∅ [])
| runs_step act w : runs start c w → room (notes w) → runs start c (perform act w).2.

(** * What a write may do *)

(** The checks a write stands on. *)
Definition approved (call : Call) (ap : Approval) (before : option Annotation) : Prop :=
  let c := ap_caller ap in
  match call_request call with
  | RCreate input => before = None ∧ mayCreate c (a_Resources (ap_next ap)) = true ∧
      resolve created quote (ap_cache ap) (in_Resources input) [] (CanRead c) = inr (a_Resources (ap_next ap))
  | RUpdate id patch matches => ∃ current, before = Some current ∧ a_ID current = id ∧
      MayRead c current = true ∧ MayEdit (call_actor call) c current = true ∧
      (∀ f, matches = Some f → f (WithRemovals (ap_cache ap) current) = true) ∧
      patched created quote (ap_cache ap) c current patch = inr (ap_next ap) ∧
      (p_Resources patch ≠ None → mayCreate c (a_Resources (ap_next ap)) = true)
  | RDelete id matches => ∃ current, before = Some current ∧ a_ID current = id ∧
      MayRead c current = true ∧ MayEdit (call_actor call) c current = true ∧
      (∀ f, matches = Some f → f (WithRemovals (ap_cache ap) current) = true)
  end.

(** What it leaves says what was asked for, under its author's name. *)
Definition carried_out (call : Call) (ap : Approval) (id : Z) (before after : option Annotation) : Prop :=
  match call_request call with
  | RDelete _ _ => after = None
  | _ => ∃ a, after = Some a ∧ a_ID a = id ∧ sameAnnotation a (ap_next ap) = true ∧
      match before with
      | None => a_Actor a = call_actor call ∧ a_Editor a = None
      | Some current => a_Actor a = a_Actor current ∧ a_Created a = a_Created current ∧ a_Editor a = call_actor call
      end
  end.

(** The annotations after some effects. *)
Definition outcome (start : Notes) (l : list Effect) (id : Z) : option Annotation :=
  foldl (λ m ef, if bool_decide (ef_id ef = id) then ef_after ef else m) (Annotation_ id (index start)) l.

(** ** What a commit leaves *)

Lemma Annotation_write a action x id : by_id (ordered x) →
  Annotation_ id (index_write a action x) =
    if decide (a_ID a = id) then (if bool_decide (action = "remove") then None else Some a) else Annotation_ id x.
Proof.
  intros Hs. destruct (index_write_spec a action x Hs) as [Hs' Hin].
  apply option_eq. intros b. rewrite (Annotation_spec _ _ _ Hs'), Hin.
  destruct (decide (a_ID a = id)) as [<-|Hne]; [|rewrite (Annotation_spec _ _ _ Hs); naive_solver].
  case_bool_decide; naive_solver.
Qed.

Lemma sameAnnotation_content a next resources : a_Timestamp a = a_Timestamp next → a_Until a = a_Until next →
  a_Text a = a_Text next → a_Tags a = a_Tags next → a_Resources a = resources → resources = a_Resources next →
  sameAnnotation a next = true.
Proof.
  intros H1 H2 H3 H4 H5 H6. unfold sameAnnotation. rewrite H1, H2, H3, H4, H5, H6, !Z.eqb_refl.
  by rewrite !bool_decide_eq_true_2.
Qed.

(** A version that a check saw names what it saw, from then on. *)
Definition known (current : Annotation) (n : Notes) : Prop :=
  a_Version current ≤ count (timeline n) ∧
  ∀ a, Annotation_ (a_ID current) (index n) = Some a → a_Version a = a_Version current → a = current.

Definition ap_ok (call : Call) (ap : Approval) (n : Notes) : Prop :=
  approved call ap (ap_current ap) ∧
  match call_request call with
  | RCreate _ => a_Actor (ap_next ap) = call_actor call
  | RUpdate _ _ _ => True
  | RDelete _ _ => ap_current ap = Some (ap_next ap)
  end ∧ ∀ current, ap_current ap = Some current → known current n.

(** What the commit of a call's write comes to when it goes through. *)
Lemma committed_spec call ap c now later answer n a evs n' : notes_ok n → room n → ap_ok call ap n →
  committed_write call ap c now later answer n = (inr a, evs, n') →
  let before := Annotation_ (a_ID a) (index n) in
  let after := if is_delete (call_request call) then None else Some a in
  count (timeline n') = count (timeline n) + 1 ∧
  (∀ id, Annotation_ id (index n') = if decide (a_ID a = id) then after else Annotation_ id (index n)) ∧
  (after = Some a → a_Version a = count (timeline n) + 1) ∧
  approved call ap before ∧ carried_out call ap (a_ID a) before after.
Proof.
  intros Hn Hr (Hap & Hkind & Hknown). unfold committed_write, approved, carried_out in *.
  destruct (call_request call) as [input|id patch matches|id matches] eqn:Hreq; cbn [is_delete] in *.
  - unfold CreateAnnotation. destruct (beginAnnotation answer n); [done|]. destruct (_ <=? _); [done|].
    set (b := stamp_new (next_id n) now (ap_next ap)).
    destruct (ans_write answer) as [?|]; [done|].
    destruct (commit_spec c later b None "create" n Hn Hr (create_committable n now _ Hn Hr)) as (h & -> & Hc & _).
    intros [= <- <- <-]. assert (a_ID b = count (timeline n) + 1) as Hid by (unfold b; cbn; by rewrite next_id_eq).
    assert (Annotation_ (a_ID b) (index n) = None) as Hnone.
    { destruct (Annotation_ (a_ID b) (index n)) as [d|] eqn:E; [|done].
      apply (Annotation_spec _ _ _ (no_sorted n Hn)) in E as [Hd%(no_ids n Hn) E]. lia. }
    cbv zeta. rewrite Hnone. cbn [index timeline].
    split; [done|]. split; [|split; [done|split; [naive_solver|]]].
    + intros id. rewrite Annotation_write by apply Hn. done.
    + exists b. split_and!; [done|done| |done|done]. by eapply sameAnnotation_content.
  - destruct Hap as (current & Hcur & <- & Hread & Hedit & Hm & Hp & Hres). rewrite Hcur. cbn [default from_option Datatypes.id].
    unfold UpdateAnnotation. destruct (beginAnnotation answer n); [done|].
    destruct (Annotation_ (a_ID current) (index n)) as [found|] eqn:Hf; [|done].
    unfold edit_of. destruct (Z.eqb_spec (a_Version found) (a_Version current)) as [Hv|]; cbn [negb]; [|done].
    destruct (Hknown current Hcur) as [_ Hk]. apply Hk in Hf as Hsame; [|done]. subst found.
    set (b := stamp_edit current (next_id n) now _). destruct (ans_write answer) as [?|]; [done|].
    destruct (commit_spec c later b (Some current) "update" n Hn Hr (edit_committable _ n current now _ Hn Hr Hf)) as (h & -> & Hc & _).
    intros [= <- <- <-]. cbv zeta. change (a_ID b) with (a_ID current). rewrite Hf. cbn [index timeline]. split_and!; [done| | | |].
    + intros id. rewrite Annotation_write by apply Hn. done.
    + intros _. unfold b. cbn. by apply next_id_eq.
    + exists current. split_and!; done.
    + exists b. split_and!; [done|done| |done|done|done]. by eapply sameAnnotation_content.
  - destruct Hap as (current & Hcur & <- & Hread & Hedit & Hm). rewrite Hcur. cbn [default from_option Datatypes.id].
    unfold DeleteAnnotation. destruct (beginAnnotation answer n); [done|].
    destruct (Annotation_ (a_ID current) (index n)) as [found|] eqn:Hf; [|done].
    unfold check_of. destruct (Z.eqb_spec (a_Version found) (a_Version current)) as [Hv|]; cbn [negb]; [|done].
    destruct (Hknown current Hcur) as [_ Hk]. apply Hk in Hf as Hsame; [|done]. subst found.
    destruct (ans_write answer) as [?|]; [done|].
    destruct (commit_spec c later current None "remove" n Hn Hr (remove_committable _ n current Hn Hf)) as (h & -> & Hc & _).
    intros [= <- <- <-]. cbv zeta. rewrite Hf. cbn [index timeline]. split_and!; [done| |done| |done].
    + intros id. rewrite Annotation_write by apply Hn. done.
    + exists current. split_and!; done.
Qed.

Lemma committed_noted call ap c now later answer n : noted n → room n →
  noted (committed_write call ap c now later answer n).2.
Proof. intros Hn Hr. unfold committed_write. destruct (call_request call); by constructor. Qed.

Lemma known_moves current n n' : known current n → count (timeline n) ≤ count (timeline n') →
  (∀ a, Annotation_ (a_ID current) (index n') = Some a →
     Annotation_ (a_ID current) (index n) = Some a ∨ count (timeline n) < a_Version a) → known current n'.
Proof.
  intros [H1 H2] Hc Ha. split; [lia|]. intros a E Hv. destruct (Ha a E) as [?|?]; [by apply H2|lia].
Qed.

Lemma ap_ok_moves call ap n n' : ap_ok call ap n → count (timeline n) ≤ count (timeline n') →
  (∀ id a, Annotation_ id (index n') = Some a → Annotation_ id (index n) = Some a ∨ count (timeline n) < a_Version a) →
  ap_ok call ap n'.
Proof.
  intros (Hap & Hk & Hknown) Hc Ha. split_and!; [done..|]. intros current Hcur. eapply known_moves; eauto.
Qed.

(** ** What a check finds *)

Lemma new_annotation_ok c actor caller input now x a : new_annotation created quote c actor caller input now x = inr a →
  mayCreate caller (a_Resources a) = true ∧
  resolve created quote c (in_Resources input) [] (CanRead caller) = inr (a_Resources a) ∧
  a_Actor a = actor ∧ validateAnnotation quote a = None.
Proof.
  unfold new_annotation. destruct (negb _); [done|]. destruct (resolve _ _ _ _ _ _) as [|resources]; [done|].
  destruct (validateAnnotation _ _) eqn:Hv; [done|]. destruct (mayCreate caller resources) eqn:Hm; [|done].
  by intros [= <-].
Qed.

Lemma editable_ok c actor caller id matches x current : editable c actor caller id matches x = inr current →
  Annotation_ id x = Some current ∧ MayRead caller current = true ∧ MayEdit actor caller current = true ∧
  (∀ f, matches = Some f → f (WithRemovals c current) = true).
Proof.
  unfold editable, get. destruct (negb _); [done|]. destruct (Annotation_ id x) as [a|]; [|done].
  destruct (MayRead caller a) eqn:Hr; [|done]. destruct (MayEdit actor caller a) eqn:He; cbn [negb]; [|done].
  destruct matches as [f|].
  - destruct (f (WithRemovals c a)) eqn:Hf; cbn [negb]; [|done]. intros [= <-]. split_and!; [done..|]. by intros g [= <-].
  - intros [= <-]. by split_and!.
Qed.

Lemma checked_edit_ok c actor caller id patch matches x current next :
  checked_edit created quote c actor caller id patch matches x = inr (current, next) →
  editable c actor caller id matches x = inr current ∧ patched created quote c caller current patch = inr next ∧
  (p_Resources patch ≠ None → mayCreate caller (a_Resources next) = true).
Proof.
  unfold checked_edit. destruct (editable c actor caller id matches x) as [|a]; [done|].
  destruct (patched created quote c caller a patch) as [|b] eqn:Hp; [done|].
  destruct (p_Resources patch) as [refs|].
  - destruct (mayCreate caller (a_Resources b)) eqn:Hm; cbn [negb]; [|done]. intros [= <- <-]. done.
  - intros [= <- <-]. done.
Qed.

Lemma known_now n id current : notes_ok n → Annotation_ id (index n) = Some current → known current n.
Proof.
  intros Hn Hc. destruct (current_spec id n current Hn Hc) as [Hin <-].
  split; [apply (no_ids n Hn) in Hin; lia|]. intros a Ha _. by rewrite Hc in Ha; simplify_eq.
Qed.

(** ** Every run *)

Definition justified (start : Notes) (l1 : list Effect) (ef : Effect) : Prop :=
  ef_before ef = outcome start l1 (ef_id ef) ∧ approved (ef_call ef) (ef_approval ef) (ef_before ef) ∧
  carried_out (ef_call ef) (ef_approval ef) (ef_id ef) (ef_before ef) (ef_after ef).

Record world_ok (start : Notes) (w : World) : Prop := {
  wo_noted : noted (notes w);
  wo_calls k call ap : calls w !! k = Some (call, Committing ap) → ap_ok call ap (notes w);
  wo_index id : Annotation_ id (index (notes w)) = outcome start (effects w) id;
  wo_effects l1 ef l2 : effects w = l1 ++ ef :: l2 → justified start l1 ef;
}.

Lemma set_calls_ok start w m : world_ok start w →
  (∀ k call ap, m !! k = Some (call, Committing ap) → ap_ok call ap (notes w)) → world_ok start (set_calls m w).
Proof. intros Hw Hm. constructor; cbn [notes calls cached effects]; [apply Hw|done|apply Hw|apply Hw]. Qed.

Lemma finish_call_ok start w k : world_ok start w → world_ok start (finish k w).
Proof.
  intros Hw. apply set_calls_ok; [done|]. intros k' call ap [_ Hk]%lookup_delete_Some. by eapply wo_calls.
Qed.

Lemma insert_call_ok start w k call p : world_ok start w → (∀ ap, p = Committing ap → ap_ok call ap (notes w)) →
  world_ok start (set_calls (<[k := (call, p)]> (calls w)) w).
Proof.
  intros Hw Hp. apply set_calls_ok; [done|]. intros k' call' ap [[<- [= <- Hap]]|[_ Hk]]%lookup_insert_Some; [by apply Hp|].
  by eapply wo_calls.
Qed.

Lemma check_ok start w k caller now call : world_ok start w → world_ok start (check k caller now call w).2.
Proof.
  intros Hw. pose proof (noted_ok _ (wo_noted _ _ Hw)) as Hn. unfold check.
  destruct (call_request call) as [input|id patch matches|id matches] eqn:Hreq.
  - destruct (new_annotation _ _ _ _ _ _ _ _) as [|a] eqn:E; [by apply finish_call_ok|].
    apply new_annotation_ok in E as (Hm & Hres & Hactor & _). apply insert_call_ok; [done|]. intros ap [= <-].
    unfold ap_ok, approved. rewrite Hreq. cbn. by split_and!.
  - destruct (checked_edit _ _ _ _ _ _ _ _ _) as [|[current next]] eqn:E; [by apply finish_call_ok|].
    apply checked_edit_ok in E as (He & Hp & Hres). apply editable_ok in He as (Hc & Hr & Hedit & Hmatch).
    destruct (sameAnnotation current next); [by apply finish_call_ok|]. apply insert_call_ok; [done|]. intros ap [= <-].
    unfold ap_ok, approved. rewrite Hreq. cbn. split_and!; [|done|].
    + exists current. split_and!; try done. by apply (current_spec _ _ _ Hn Hc).
    + intros ? [= <-]. by eapply known_now.
  - destruct (editable _ _ _ _ _ _) as [|current] eqn:E; [by apply finish_call_ok|].
    apply editable_ok in E as (Hc & Hr & Hedit & Hmatch). apply insert_call_ok; [done|]. intros ap [= <-].
    unfold ap_ok, approved. rewrite Hreq. cbn. split_and!; [|done|].
    + exists current. split_and!; try done. by apply (current_spec _ _ _ Hn Hc).
    + intros ? [= <-]. by eapply known_now.
Qed.

Lemma notes_moved start w n : world_ok start w → noted n → count (timeline (notes w)) ≤ count (timeline n) →
  (∀ id, Annotation_ id (index n) = Annotation_ id (index (notes w))) → world_ok start (mkWorld n (cached w) (calls w) (effects w)).
Proof.
  intros Hw Hn Hc Hi. constructor; cbn [notes calls cached effects]; [done| | |apply Hw].
  - intros k call ap Hk%(wo_calls _ _ Hw). eapply ap_ok_moves; [done..|]. intros id a. rewrite Hi. by left.
  - intros id. rewrite Hi. by apply Hw.
Qed.

Lemma outcome_snoc start l ef id :
  outcome start (l ++ [ef]) id = if bool_decide (ef_id ef = id) then ef_after ef else outcome start l id.
Proof. unfold outcome. by rewrite foldl_snoc. Qed.

Lemma committed_error call ap c now later answer n err evs n' :
  committed_write call ap c now later answer n = (inl err, evs, n') → n' = n.
Proof.
  unfold committed_write, CreateAnnotation, UpdateAnnotation, DeleteAnnotation.
  destruct (call_request call); destruct (beginAnnotation _ _); try naive_solver.
  - destruct (_ <=? _); [naive_solver|]. intros E. by apply commit_failed in E as [_ ->].
  - destruct (Annotation_ _ _); [|naive_solver]. destruct (edit_of _ _ _ _); [naive_solver|]. intros E. by apply commit_failed in E as [_ ->].
  - destruct (Annotation_ _ _); [|naive_solver]. destruct (check_of _ _); [naive_solver|]. intros E. by apply commit_failed in E as [_ ->].
Qed.

Lemma commit_ok start w k now later answer call ap : world_ok start w → room (notes w) →
  calls w !! k = Some (call, Committing ap) → world_ok start (commit k now later answer call ap w).2.
Proof.
  intros Hw Hr Hk. pose proof (noted_ok _ (wo_noted _ _ Hw)) as Hn. pose proof (wo_calls _ _ Hw _ _ _ Hk) as Hap. unfold commit.
  pose proof (committed_noted call ap (cached w) now later answer (notes w) (wo_noted _ _ Hw) Hr) as Hnoted.
  destruct (committed_write call ap (cached w) now later answer (notes w)) as [[[err|a] evs] n] eqn:E; cbn [snd] in Hnoted.
  - apply committed_error in E as ->. case_bool_decide; [by apply insert_call_ok|].
    apply finish_call_ok, notes_moved; [done..|reflexivity|done].
  - destruct (committed_spec call ap (cached w) now later answer (notes w) a evs n Hn Hr Hap E) as (Hc & Hi & Hv & Happ & Hout).
    cbn [snd]. apply finish_call_ok. set (after := if is_delete (call_request call) then None else Some a) in *. constructor; cbn [notes calls cached effects].
    + done.
    + intros k' call' ap' Hk'%(wo_calls _ _ Hw). eapply ap_ok_moves; [done|lia|]. intros id b. rewrite Hi.
      destruct (decide (a_ID a = id)); [|by left]. intros Hb. right. unfold after in Hb, Hv.
      destruct (is_delete _); [done|]. simplify_eq. rewrite Hv by done. lia.
    + intros id. rewrite outcome_snoc, Hi, (wo_index _ _ Hw). cbn [ef_id ef_after]. by destruct (decide (a_ID a = id)), (bool_decide_reflect (a_ID a = id)).
    + intros l1 ef l2 Heq. destruct l2 as [|ef2 l2 _] using rev_ind.
      * apply app_inj_tail in Heq as [<- <-]. split_and!; cbn; [by apply Hw|done..].
      * rewrite app_comm_cons, app_assoc in Heq. apply app_inj_tail in Heq as [Heq _]. by eapply (wo_effects _ _ Hw).
Qed.

Lemma runs_ok start c w : noted start → runs start c w → world_ok start w.
Proof.
  intros Hs. induction 1 as [|act w _ IH Hr]; [by constructor; cbn; [|intros k call ap ?%lookup_empty_Some|..|intros [|] ? ? ?]|].
  destruct act as [c'|now e|k call|k caller now|k now later answer]; cbn [perform].
  - constructor; apply IH.
  - destruct (append_spec _ now e (noted_ok _ (wo_noted _ _ IH)) Hr) as (h & E & Hc & _).
    apply notes_moved; [done|apply noted_other; [apply IH|done]| |]; unfold append_other; rewrite E; cbn; [lia|done].
  - destruct (calls w !! k); [done|]. by apply insert_call_ok.
  - destruct (calls w !! k) as [[call [|ap]]|]; [|done..]. by apply check_ok.
  - destruct (calls w !! k) as [[call [|ap]]|] eqn:E; [done| |done]. by apply commit_ok.
Qed.

(** C22: an annotation says only what somebody allowed to say it said. In every
    run, what the index holds is what the writes that went through left, one
    after the other; and each stands on checks made against the very annotation
    it replaced: its caller could read it, as its author or as one who could
    create it; its precondition held of it; what it left is that annotation with
    the patch applied, resolved among what the caller reads and, where it names
    resources, writable; and the author is whoever created it. *)
Theorem annotations_authorized start c w : noted start → runs start c w →
  (∀ id, Annotation_ id (index (notes w)) = outcome start (effects w) id) ∧
  ∀ l1 ef l2, effects w = l1 ++ ef :: l2 →
    ef_before ef = outcome start l1 (ef_id ef) ∧ approved (ef_call ef) (ef_approval ef) (ef_before ef) ∧
    carried_out (ef_call ef) (ef_approval ef) (ef_id ef) (ef_before ef) (ef_after ef).
Proof. intros Hs Hr%runs_ok; [|done]. split; [apply Hr|apply (wo_effects _ _ Hr)]. Qed.

(** A commit starts over only when another write came between: undisturbed it
    finds the version it was checked at. *)
Lemma undisturbed_commits call ap c now later answer n err evs n' :
  (∀ current, ap_current ap = Some current → Annotation_ (a_ID current) (index n) = Some current) → ap_ok call ap n →
  committed_write call ap c now later answer n = (inl err, evs, n') → err ≠ errAnnotationMoved.
Proof.
  intros Hcur (Hap & _) E ->. unfold committed_write, CreateAnnotation, UpdateAnnotation, DeleteAnnotation, beginAnnotation, commitAnnotation in E.
  unfold approved in Hap. destruct (call_request call).
  - destruct (negb _); [done|]. destruct (ans_begin answer); [done|]. destruct (_ <=? _); [done|].
    destruct (ans_write answer); [done|]. by destruct (Append _ _ _).
  - destruct Hap as (current & Hc & <- & _). rewrite Hc, (Hcur _ Hc) in E. cbn [default from_option Datatypes.id] in E.
    unfold edit_of in E. rewrite Z.eqb_refl in E. cbn [negb] in E. destruct (negb _); [done|].
    destruct (ans_begin answer); [done|]. destruct (ans_write answer); [done|]. by destruct (Append _ _ _).
  - destruct Hap as (current & Hc & <- & _). rewrite Hc, (Hcur _ Hc) in E. cbn [default from_option Datatypes.id] in E.
    unfold check_of in E. rewrite Z.eqb_refl in E. cbn [negb] in E. destruct (negb _); [done|].
    destruct (ans_begin answer); [done|]. destruct (ans_write answer); [done|]. by destruct (Append _ _ _).
Qed.

(** An annotation its caller may not read is answered as one that is not there,
    whatever the write. *)
Lemma hidden_note_missing c actor caller id matches x a : Annotation_ id x = Some a → MayRead caller a = false →
  get caller id x = inl ErrAnnotationNotFound ∧
  (on x = true → editable c actor caller id matches x = inl ErrAnnotationNotFound).
Proof. intros Ha Hr. unfold editable, get, AnnotationsOn. rewrite Ha, Hr. split; [done|]. by intros ->. Qed.
End machine.

(** * Entity tags *)

Definition dq : ascii := ascii_of_nat 34.

Fixpoint format_hex (fuel : nat) (n : Z) (acc : string) : string :=
  match fuel with
  | O => acc
  | S fuel =>
      let acc := String (hex_digit (Z.to_nat (n mod 16))) acc in
      if n <? 16 then acc else format_hex fuel (n / 16) acc
  end.

(** Bit i of a uint32, zero past its width. *)
Definition removed_bits (resources : list AnnotationResource) : Z :=
  foldl Z.lor 0 (imap (λ i r, if ar_Removed r then wrap 32 (Z.shiftl 1 (Z.of_nat i)) else 0) resources).

Definition annotationETag (a : Annotation) : string :=
  let removed := removed_bits (a_Resources a) in
  let version := FormatUint (a_Version a) in
  (String dq "") +:+ (if removed =? 0 then version else version +:+ "-" +:+ format_hex 8 removed "") +:+ (String dq "").

Definition annotationEdited (a : Annotation) : Z := if is_zero_time (a_Updated a) then a_Created a else a_Updated a.

Definition annotationModified (a : Annotation) : Z :=
  if existsb ar_Removed (a_Resources a) then time_zero else annotationEdited a.

Definition no_separator (s : string) : Prop := ∀ c, digit_value c = None → IndexByte s c = None.

Lemma no_separator_tail c s : no_separator (String c s) → digit_value c ≠ None ∧ no_separator s.
Proof.
  intros Hs. split.
  - intros Hc. specialize (Hs c Hc). cbn in Hs. by rewrite Ascii.eqb_refl in Hs.
  - intros d Hd. specialize (Hs d Hd). cbn in Hs. destruct (Ascii.eqb c d); [done|]. by destruct (IndexByte s d).
Qed.

Lemma digits_prefix p : ∀ q c d t u, no_separator p → no_separator q → digit_value c = None → digit_value d = None →
  p +:+ String c t = q +:+ String d u → p = q.
Proof.
  induction p as [|x p IH]; intros [|y q] c d t u Hp Hq Hc Hd; cbn; [done|..].
  - intros [= <- _]. by apply no_separator_tail in Hq as [? _].
  - intros [= -> _]. by apply no_separator_tail in Hp as [? _].
  - intros [= <- E]. f_equal. apply no_separator_tail in Hp as [_ Hp], Hq as [_ Hq]. by eapply (IH q c d t u).
Qed.

(** Two annotations of one entity tag are one version. *)
Lemma etag_version a b : 0 ≤ a_Version a < 2 ^ 64 → 0 ≤ a_Version b < 2 ^ 64 → annotationETag a = annotationETag b →
  a_Version a = a_Version b.
Proof.
  intros Ha Hb. unfold annotationETag. set (ra := removed_bits _). set (rb := removed_bits _).
  assert (∀ x y, String dq "" +:+ x = String dq "" +:+ y → x = y) as Hdq by (intros x y; cbn; by intros [= ->]).
  intros E%Hdq.
  assert (∀ v r, ∃ c t, digit_value c = None ∧
    (if r =? 0 then FormatUint v else FormatUint v +:+ "-" +:+ format_hex 8 r "") +:+ String dq "" = FormatUint v +:+ String c t) as Hform.
  { intros v r. destruct (r =? 0); [by exists dq, ""|]. exists "-"%char, (format_hex 8 r "" +:+ String dq "").
    split; [done|]. rewrite !str_app_assoc. reflexivity. }
  destruct (Hform (a_Version a) ra) as (c & t & Hc & Ea). destruct (Hform (a_Version b) rb) as (d & u & Hd & Eb).
  rewrite Ea, Eb in E. apply digits_prefix in E; [|by intros ? ?; apply IndexByte_FormatUint; [lia|]..|done|done].
  apply (f_equal ParseUint) in E. rewrite !ParseUint_FormatUint in E by done. by injection E.
Qed.

(** * A note written and edited *)

Definition demo_alice : Actor := mkActor "alice" "Alice" "oidc" "" "api".
Definition demo_caller : AnnotationCaller := mkCaller (λ _, true) (λ _, true) true true.
Definition demo_create : Call :=
  mkCall (Some demo_alice) (RCreate (mkInput (year1970 + 5) 0 "deployed" ["release"] [])).
Definition demo_edit : Call :=
  mkCall (Some demo_alice) (RUpdate 1 (mkPatch None None (Some "deployed v2") None None) (Some (λ a, a_Version a =? 1))).
Definition demo_stored : store_answer := mkStoreAnswer None None.

Section demo.
#[local] Existing Instances map_range_std ascii_unicode.
#[local] Abbreviation go act w := (perform (λ _, 0) (λ s, s) act w).2.

Definition demo_start : World := mkWorld demo_notes0 (New 0) ∅ [].
Definition demo_created : World :=
  go (ACommit 0 10 11 demo_stored) (go (ACheck 0 demo_caller 9) (go (AAsk 0 demo_create) demo_start)).
Definition demo_world : World :=
  go (ACommit 1 20 21 demo_stored) (go (ACheck 1 demo_caller 19) (go (AAsk 1 demo_edit) demo_created)).

Lemma demo_runs : runs (λ _, 0) (λ s, s) demo_notes0 (New 0) demo_world.
Proof. unfold demo_world, demo_created. do 6 (apply runs_step; [|vm_compute; reflexivity]). constructor. Qed.

Lemma demo_start_noted : noted demo_notes0.
Proof.
  apply noted_restored; [apply recorded_new; lia|].
  split_and!; [exact NoDup_nil_2|by intros a ?%not_elem_of_nil|by intros a e ?%not_elem_of_nil].
Qed.

Lemma annotations_authorized_witness :
  (λ ef, (ef_id ef, a_Text <$> ef_before ef, a_Text <$> ef_after ef)) <$> effects demo_world =
    [(1, None, Some "deployed"); (1, Some "deployed", Some "deployed v2")] ∧
  (∀ id, Annotation_ id (index (notes demo_world)) = outcome demo_notes0 (effects demo_world) id).
Proof.
  split; [vm_compute; reflexivity|].
  exact (proj1 (annotations_authorized (λ _, 0) (λ s, s) demo_notes0 (New 0) demo_world demo_start_noted demo_runs)).
Defined.
End demo.
