(* ===== verification/McpNotifications.v ===== *)
(** Which subscribers hear of an event: internal/mcp/notifications.go and
    subscriptions.go. Sessions, their states and their subscriptions are
    pointers in the program and numbers here, each allocated afresh; a
    subscription points at its session's state, so states and subscriptions
    are heaps of their own. *)
From S2P Require Import Prelude GoStrings GoStrconv AclPolicy AclEvaluator History CacheState CacheStacks CacheIndex CacheOps CacheList Cache Resolve Versions SseEvents.
#[local] Open Scope string_scope.
#[local] Open Scope nat_scope.
#[local] Open Scope list_scope.

(** * What a URI names *)

Record subscriptionTarget := mkTarget { typ : string; id_ : string }.

#[global] Instance target_eq_dec : EqDecision subscriptionTarget.
Proof. solve_decision. Defined.
#[global] Instance target_countable : Countable subscriptionTarget.
Proof. apply (inj_countable' (λ t, (typ t, id_ t)) (λ p, mkTarget p.1 p.2)). by intros []. Defined.

(** A target without an ID is a URI no event updates. *)
Record subscription := mkSubscription { target : subscriptionTarget; resolved_ : string }.

Definition no_target : subscriptionTarget := mkTarget "" "".

Definition keys_of (sub : subscription) : list subscriptionTarget :=
  if is_empty (id_ (target sub)) then []
  else if negb (is_empty (resolved_ sub)) && negb (bool_decide (resolved_ sub = id_ (target sub)))
  then [target sub; mkTarget (typ (target sub)) (resolved_ sub)]
  else [target sub].

(** A key an event looks up. *)
Record eventKey := mkEventKey { ek_target : subscriptionTarget; via : string; ownTarget : bool }.

Definition plain_key (typ id : string) : eventKey := mkEventKey (mkTarget typ id) "" false.

Definition subscribableTypes : list string :=
  [EventNode; EventService; EventTask; EventStack; EventConfig; EventSecret; EventNetwork; EventVolume].

Definition isResourceEvent (t : string) : bool :=
  bool_decide (t ∈ [EventNode; EventService; EventTask; EventConfig; EventSecret; EventNetwork; EventVolume; EventStack]).

Definition eventTypeToURIPrefix (t : string) : string :=
  if isResourceEvent t then "cetacean://" +:+ t +:+ "s/" else "".

Fixpoint parse_typed (uri : string) (types : list string) : option subscriptionTarget :=
  match types with
  | [] => None
  | t :: types =>
      match CutPrefix uri (eventTypeToURIPrefix t) with
      | None => parse_typed uri types
      | Some rest =>
          let '(id, _, _) := Cut rest "/" in
          if is_empty id then None else Some (mkTarget t id)
      end
  end.

Definition parseSubscriptionURI (uri : string) : option subscriptionTarget :=
  match CutPrefix uri "cetacean://annotations/" with
  | Some id => match ParseUint id with Some _ => Some (mkTarget EventAnnotation id) | None => None end
  | None => parse_typed uri subscribableTypes
  end.

Definition literalSubscription (uri : string) : subscription :=
  mkSubscription (default no_target (parseSubscriptionURI uri)) "".

Definition directEventKeys (e : Event) : list eventKey :=
  if negb (isResourceEvent (ev_Type e)) then [] else
  plain_key (ev_Type e) (ev_ID e) ::
  (if negb (is_empty (ev_Name e)) && negb (bool_decide (ev_Name e = ev_ID e)) then [plain_key (ev_Type e) (ev_Name e)] else []).

(** * The manager *)

(** The opt-in of a listen stream, of which resourcesListChanged is read. *)
Record sessionState := mkState {
  ss_identity : option Identity;
  ss_uris : gmap string nat;
  ss_filter : option bool;
}.

Record subscriptionEntry := mkEntry { en_session : nat; en_state : nat; en_uri : string; en_sub : subscription }.

Record NotificationManager := mkManager {
  nm_states : gmap nat sessionState;
  nm_entries : gmap nat subscriptionEntry;
  nm_next : nat;
  sessions : gmap nat nat;
  index : gmap subscriptionTarget (gset nat);
  versioned : Z;
  nm_networks : gmap subscriptionTarget Z;
}.

Definition NewNotificationManager : NotificationManager := mkManager ∅ ∅ 0 ∅ ∅ 0 ∅.

Definition isVersioned (sub : subscription) : bool :=
  negb (is_empty (id_ (target sub))) &&
  (bool_decide (typ (target sub) = EventConfig) || bool_decide (typ (target sub) = EventSecret)).

Definition watchesVersions (nm : NotificationManager) : bool := (0 <? versioned nm)%Z.

Definition set_state (st : nat) (ss : sessionState) (nm : NotificationManager) : NotificationManager :=
  mkManager (<[st := ss]> (nm_states nm)) (nm_entries nm) (nm_next nm) (sessions nm) (index nm) (versioned nm) (nm_networks nm).

Definition stateLocked (session : nat) (nm : NotificationManager) : nat * NotificationManager :=
  match sessions nm !! session with
  | Some st => (st, nm)
  | None =>
      let st := nm_next nm in
      (st, mkManager (<[st := mkState None ∅ None]> (nm_states nm)) (nm_entries nm) (S st) (<[session := st]> (sessions nm))
             (index nm) (versioned nm) (nm_networks nm))
  end.

(** The index and what is counted beside it. *)
Record indexes := mkIndexes { ix_index : gmap subscriptionTarget (gset nat); ix_networks : gmap subscriptionTarget Z; ix_versioned : Z }.

Definition unindex_key (e : nat) (ix : indexes) (key : subscriptionTarget) : indexes :=
  let left := default ∅ (ix_index ix !! key) ∖ {[e]} in
  mkIndexes (if bool_decide (left = ∅) then delete key (ix_index ix) else <[key := left]> (ix_index ix))
    (if bool_decide (typ key = EventNetwork) then
       let n := (default 0 (ix_networks ix !! key) - 1)%Z in
       if (n <=? 0)%Z then delete key (ix_networks ix) else <[key := n]> (ix_networks ix)
     else ix_networks ix)
    (ix_versioned ix).

Definition index_key (e : nat) (ix : indexes) (key : subscriptionTarget) : indexes :=
  mkIndexes (<[key := {[e]} ∪ default ∅ (ix_index ix !! key)]> (ix_index ix))
    (if bool_decide (typ key = EventNetwork) then <[key := (default 0 (ix_networks ix !! key) + 1)%Z]> (ix_networks ix)
     else ix_networks ix)
    (ix_versioned ix).

Definition count_versioned (sub : subscription) (d : Z) (ix : indexes) : indexes :=
  mkIndexes (ix_index ix) (ix_networks ix) (if isVersioned sub then ix_versioned ix + d else ix_versioned ix)%Z.

Definition unindex (e : nat) (sub : subscription) (ix : indexes) : indexes :=
  foldl (unindex_key e) (count_versioned sub (-1) ix) (keys_of sub).

Definition add_index (e : nat) (sub : subscription) (ix : indexes) : indexes :=
  count_versioned sub 1 (foldl (index_key e) ix (keys_of sub)).

Definition indexes_of (nm : NotificationManager) : indexes := mkIndexes (index nm) (nm_networks nm) (versioned nm).
Definition with_indexes (ix : indexes) (nm : NotificationManager) : NotificationManager :=
  mkManager (nm_states nm) (nm_entries nm) (nm_next nm) (sessions nm) (ix_index ix) (ix_versioned ix) (ix_networks ix).

Definition unindexLocked (e : nat) (nm : NotificationManager) : NotificationManager :=
  match nm_entries nm !! e with
  | Some en => with_indexes (unindex e (en_sub en) (indexes_of nm)) nm
  | None => nm
  end.

(** [sub] is what the URI was resolved to, before the lock. *)
Definition Subscribe (session : option nat) (uri : string) (identity : option Identity) (sub : subscription)
    (nm : NotificationManager) : NotificationManager :=
  match session with
  | None => nm
  | Some session =>
      if is_empty uri then nm else
      let '(st, nm) := stateLocked session nm in
      let ss := default (mkState None ∅ None) (nm_states nm !! st) in
      let nm := match ss_uris ss !! uri with Some old => unindexLocked old nm | None => nm end in
      let e := nm_next nm in
      let nm := mkManager (<[st := mkState identity (<[uri := e]> (ss_uris ss)) (ss_filter ss)]> (nm_states nm))
                  (<[e := mkEntry session st uri sub]> (nm_entries nm)) (S e) (sessions nm) (index nm) (versioned nm) (nm_networks nm) in
      with_indexes (add_index e sub (indexes_of nm)) nm
  end.

Definition SetFilter (session : option nat) (identity : option Identity) (resourcesListChanged : bool)
    (nm : NotificationManager) : NotificationManager :=
  match session with
  | None => nm
  | Some session =>
      let '(st, nm) := stateLocked session nm in
      let ss := default (mkState None ∅ None) (nm_states nm !! st) in
      set_state st (mkState identity (ss_uris ss) (Some resourcesListChanged)) nm
  end.

Definition drop_session (session : nat) (nm : NotificationManager) : NotificationManager :=
  mkManager (nm_states nm) (nm_entries nm) (nm_next nm) (delete session (sessions nm)) (index nm) (versioned nm) (nm_networks nm).

Definition Unsubscribe (session : nat) (uri : string) (nm : NotificationManager) : NotificationManager :=
  match sessions nm !! session with
  | None => nm
  | Some st =>
      let ss := default (mkState None ∅ None) (nm_states nm !! st) in
      let nm := match ss_uris ss !! uri with
        | Some e => set_state st (mkState (ss_identity ss) (delete uri (ss_uris ss)) (ss_filter ss)) (unindexLocked e nm)
        | None => nm
        end in
      if bool_decide (delete uri (ss_uris ss) = ∅) then drop_session session nm else nm
  end.

Section manager.
Context `{MapRange}.

Definition RemoveSession (session : nat) (nm : NotificationManager) : NotificationManager :=
  let nm' := match sessions nm !! session with
    | Some st =>
        let ss := default (mkState None ∅ None) (nm_states nm !! st) in
        foldl (λ nm e, unindexLocked e nm) nm (range (ss_uris ss)).*2
    | None => nm
    end in
  drop_session session nm'.

Definition IdentityFor (session : nat) (nm : NotificationManager) : option Identity :=
  st ← sessions nm !! session; ss ← nm_states nm !! st; ss_identity ss.

Definition networkTargets (nm : NotificationManager) : list subscriptionTarget := (range (nm_networks nm)).*1.

Record delivery := mkDelivery {
  d_session : nat; d_uri : string; d_target : subscriptionTarget; d_via : string; d_own : bool; d_identity : option Identity;
}.

Definition listChangedTargets (nm : NotificationManager) : list (nat * option Identity) :=
  omap (λ '(session, st),
    match nm_states nm !! st with
    | Some ss => if default false (ss_filter ss) then Some (session, ss_identity ss) else None
    | None => None
    end) (range (sessions nm)).

Definition deliver (nm : NotificationManager) (e : nat) (via : string) (own : bool) : option delivery :=
  en ← nm_entries nm !! e;
  Some (mkDelivery (en_session en) (en_uri en) (target (en_sub en)) via own
    (ss ← nm_states nm !! en_state en; ss_identity ss)).

Definition members_of (X : gset nat) : list nat := (range (gset_to_gmap () X)).*1.

(** Each entry once, under the first key that finds it. *)
Fixpoint find_entries (nm : NotificationManager) (seen : gset nat) (ks : list eventKey) : list (nat * eventKey) :=
  match ks with
  | [] => []
  | k :: ks =>
      let found := default ∅ (index nm !! ek_target k) in
      map (λ e, (e, k)) (members_of (found ∖ seen)) ++ find_entries nm (seen ∪ found) ks
  end.

(** [keys] is what the event reaches. *)
Definition matchingDeliveries (nm : NotificationManager) (e : Event) (keys : list eventKey) : list delivery :=
  if bool_decide (ev_Type e = EventSync) then
    (range (sessions nm)) ≫= λ '(_, st),
      match nm_states nm !! st with
      | None => []
      | Some ss =>
          omap (λ '(_, e),
            match nm_entries nm !! e with
            | Some en => if is_empty (id_ (target (en_sub en))) then None else deliver nm e "" false
            | None => None
            end) (range (ss_uris ss))
      end
  else omap (λ '(e, k), deliver nm e (via k) (ownTarget k)) (find_entries nm ∅ keys).

Definition MatchingURIs (nm : NotificationManager) (session : nat) (e : Event) (keys : list eventKey) : list string :=
  d_uri <$> List.filter (λ d, bool_decide (d_session d = session)) (matchingDeliveries nm e keys).

Definition IsListChange (e : Event) : bool := bool_decide (ev_Action e = "create") || bool_decide (ev_Action e = "remove").
End manager.

(** * The server *)

Section server.
Context `{MapRange} (created : string → Z) (c : Cache) (acl : option Evaluator).

Definition canRead (identity : option Identity) (resource : string) : bool :=
  match acl with None => true | Some _ => Can acl identity "read" resource end.

Definition readerFor (identity : option Identity) (resource : string) : bool :=
  match identity with None => true | Some _ => canRead identity resource end.

Definition canReadAnyOfType (identity : option Identity) (resourceType : string) : bool :=
  match acl with None => true | Some _ => TypeAccess_Can (TypeGrants acl identity) "read" resourceType end.

Definition resolveTarget (identity : option Identity) (t : subscriptionTarget) : option record_ :=
  match LookupAs created c (typ t) (id_ t) (Some (readerFor identity)) with
  | Found r => Some r
  | _ => None
  end.

Definition targetReadable (identity : option Identity) (t : subscriptionTarget) : bool :=
  match resolveTarget identity t with Some r => canRead identity (Resource_of r) | None => false end.

Definition subscriptionFor (uri : string) (identity : option Identity) : subscription :=
  match parseSubscriptionURI uri with
  | None => mkSubscription no_target ""
  | Some t =>
      mkSubscription t
        match resolveTarget identity t with
        | Some r => if canRead identity (Resource_of r) then rec_ID r else ""
        | None => ""
        end
  end.

Definition stackKey (name : string) : eventKey := mkEventKey (mkTarget EventStack name) ("stack:" +:+ name) false.

Definition taskParentKeys (e : Event) (task : Task) : list eventKey :=
  match services c !! t_ServiceID task with
  | Some svc =>
      let via := "service:" +:+ s_Name svc in
      let stack := label_of (s_Labels svc) in
      [mkEventKey (mkTarget EventService (s_ID svc)) via false; mkEventKey (mkTarget EventService (s_Name svc)) via false;
       mkEventKey (mkTarget EventTask (TaskName task (Some svc))) via false] ++
      (if is_empty stack then [] else [stackKey stack])
  | None =>
      [plain_key EventService (t_ServiceID task)] ++
      (if is_empty (ev_Service e) then []
       else [mkEventKey (mkTarget EventService (ev_Service e)) ("service:" +:+ ev_Service e) false]) ++
      (if is_empty (ev_Stack e) then [] else [stackKey (ev_Stack e)])
  end ++
  if is_empty (t_NodeID task) then [] else
  match nodes c !! t_NodeID task with
  | Some n =>
      let via := "node:" +:+ NodeACLName n in
      mkEventKey (mkTarget EventNode (n_ID n)) via false ::
      (if is_empty (n_Hostname n) then [] else [mkEventKey (mkTarget EventNode (n_Hostname n)) via false])
  | None => [plain_key EventNode (t_NodeID task)]
  end.

Definition cachedResource (t id : string) : Payload :=
  let boxed {A} (f : A → Resource) (x : option A) := match x with Some x => PResource (f x) | None => PNone end in
  if bool_decide (t = EventService) then boxed RService (services c !! id)
  else if bool_decide (t = EventConfig) then boxed RConfig (configs c !! id)
  else if bool_decide (t = EventSecret) then boxed RSecret (secrets c !! id)
  else if bool_decide (t = EventNetwork) then boxed RNetwork (networks c !! id)
  else if bool_decide (t = EventVolume) then boxed RVolume (volumes c !! id)
  else PNone.

Definition eventStack (e : Event) : string :=
  if negb (is_empty (ev_Stack e)) then ev_Stack e else
  match (match ev_Resource e with PNone => cachedResource (ev_Type e) (ev_ID e) | p => p end) with
  | PResource (RService s) => label_of (s_Labels s)
  | PResource (RConfig v) => label_of (c_Labels v)
  | PResource (RSecret v) => label_of (x_Labels v)
  | PResource (RNetwork v) => label_of (w_Labels v)
  | PResource (RVolume v) => label_of (v_Labels v)
  | _ => ""
  end.

Definition refKeys (t : string) (refs : list VersionRef) : list eventKey :=
  refs ≫= λ ref, plain_key t (vr_ID ref) :: (if is_empty (vr_Name ref) then [] else [plain_key t (vr_Name ref)]).

(** [moved] is the networks whose figure the event may move, asked for only
    while one is watched. *)
Definition addressNetworkKeys (nm : NotificationManager) (moved : list string) : list eventKey :=
  match networkTargets nm with
  | [] => []
  | _ =>
      moved ≫= λ id, mkEventKey (mkTarget EventNetwork id) "" true ::
        match networks c !! id with
        | Some net => if is_empty (w_Name net) then [] else [mkEventKey (mkTarget EventNetwork (w_Name net)) "" true]
        | None => []
        end
  end.

(** [touched] is the configs and the secrets whose digests it changes. *)
Definition eventKeys (nm : NotificationManager) (e : Event) (moved : list string) (touched : list VersionRef * list VersionRef)
    : list eventKey :=
  let ks := directEventKeys e ++ addressNetworkKeys nm moved in
  let t := ev_Type e in
  if bool_decide (t = EventTask) then
    match task_of (ev_Resource e) with Some task => ks ++ taskParentKeys e task | None => ks end
  else if bool_decide (t ∈ [EventService; EventConfig; EventSecret; EventNetwork; EventVolume]) then
    let stack := eventStack e in
    ks ++ (if is_empty stack then [] else [stackKey stack]) ++
    (if (bool_decide (t = EventConfig) || bool_decide (t = EventSecret)) && watchesVersions nm
     then refKeys EventConfig touched.1 ++ refKeys EventSecret touched.2 else [])
  else if bool_decide (t = EventAnnotation) then ks ++ [mkEventKey (mkTarget EventAnnotation (ev_ID e)) "" true]
  else ks.

Definition eventNamesResource (e : Event) : bool :=
  if negb (isResourceEvent (ev_Type e)) then false
  else if bool_decide (ev_Type e = EventTask) then negb (is_empty (ev_ID e))
  else negb (is_empty (ev_Name e)).

(** A resources/updated with its URI, or a resources/list_changed. *)
Inductive notification := Updated (session : nat) (uri : string) | ListChanged (session : nat).

Definition may_hear (e : Event) (d : delivery) : bool :=
  let can := canRead (d_identity d) in
  if bool_decide (ev_Type e = EventSync) then targetReadable (d_identity d) (d_target d)
  else if d_own d then targetReadable (d_identity d) (d_target d)
  else negb (eventNamesResource e && negb (CanReadEvent e can)) && negb (negb (is_empty (d_via d)) && negb (can (d_via d))).

(** [mayRead] is what an identity may read of annotations. *)
Definition dispatchAnnotationEvent (mayRead : option Identity → Annotation → bool) (nm : NotificationManager) (e : Event)
    (ks : list eventKey) : list notification :=
  match ev_Resource e with
  | PAnnotation a =>
      omap (λ d,
        let replaced := match ev_Previous e with PAnnotation p => mayRead (d_identity d) p | _ => false end in
        if mayRead (d_identity d) a || replaced then Some (Updated (d_session d) (d_uri d)) else None)
        (matchingDeliveries nm e ks)
  | _ => []
  end.

Definition dispatchCacheEvent (mayRead : option Identity → Annotation → bool) (nm : NotificationManager) (e : Event)
    (ks : list eventKey) : list notification :=
  if bool_decide (ev_Type e = EventAnnotation) then dispatchAnnotationEvent mayRead nm e ks else
  omap (λ d, if may_hear e d then Some (Updated (d_session d) (d_uri d)) else None) (matchingDeliveries nm e ks) ++
  (if IsListChange e then
     omap (λ '(session, identity),
       if isResourceEvent (ev_Type e) && match acl with Some _ => true | None => false end && negb (canReadAnyOfType identity (ev_Type e)) then None
       else Some (ListChanged session)) (listChangedTargets nm)
   else []).
End server.

(** * The index *)

Definition idx (ix : indexes) (key : subscriptionTarget) : gset nat := default ∅ (ix_index ix !! key).
Definition net (ix : indexes) (key : subscriptionTarget) : Z := default 0%Z (ix_networks ix !! key).

(** The subscriptions a key finds. *)
Definition finders (L : gmap nat subscription) (key : subscriptionTarget) : gset nat :=
  dom (filter (λ kv, key ∈ keys_of kv.2) L).

Record ix_ok (L : gmap nat subscription) (ix : indexes) : Prop := {
  ixo_index key : idx ix key = finders L key;
  ixo_full key : ix_index ix !! key ≠ Some ∅;
  ixo_net key : typ key = EventNetwork → net ix key = Z.of_nat (base.size (finders L key));
  ixo_network key n : ix_networks ix !! key = Some n → typ key = EventNetwork ∧ (0 < n)%Z;
  ixo_versioned : ix_versioned ix = Z.of_nat (base.size (filter (λ kv, isVersioned kv.2 = true) L));
}.

Lemma keys_NoDup sub : NoDup (keys_of sub).
Proof.
  unfold keys_of. destruct (is_empty (id_ (target sub))); [apply NoDup_nil_2|].
  destruct (negb (is_empty (resolved_ sub)) && _) eqn:E; [|apply NoDup_singleton].
  apply andb_true_iff in E as [_ E]. apply negb_true_iff, bool_decide_eq_false in E.
  apply NoDup_cons. split; [|apply NoDup_singleton]. rewrite list_elem_of_singleton. intros Ht. apply E. by rewrite Ht.
Qed.

Lemma elem_of_finders L key e : e ∈ finders L key ↔ ∃ sub, L !! e = Some sub ∧ key ∈ keys_of sub.
Proof.
  unfold finders. rewrite elem_of_dom. split.
  - intros [sub [Hs Hk]%map_lookup_filter_Some]. eauto.
  - intros (sub & Hs & Hk). exists sub. by apply map_lookup_filter_Some.
Qed.

Lemma finders_insert L e sub key : L !! e = None →
  finders (<[e := sub]> L) key = (if decide (key ∈ keys_of sub) then {[e]} ∪ finders L key else finders L key).
Proof.
  intros He. apply set_eq. intros x. destruct (decide (key ∈ keys_of sub)) as [Hk|Hk].
  - rewrite elem_of_union, elem_of_singleton, !elem_of_finders. destruct (decide (x = e)) as [->|Hne].
    + rewrite lookup_insert_eq. naive_solver.
    + rewrite lookup_insert_ne by done. naive_solver.
  - rewrite !elem_of_finders. destruct (decide (x = e)) as [->|Hne].
    + rewrite lookup_insert_eq, He. naive_solver.
    + by rewrite lookup_insert_ne by done.
Qed.

Lemma finders_delete L e key : finders (delete e L) key = finders L key ∖ {[e]}.
Proof.
  apply set_eq. intros x. rewrite elem_of_difference, elem_of_singleton, !elem_of_finders. destruct (decide (x = e)) as [->|Hne].
  - rewrite lookup_delete_eq. naive_solver.
  - rewrite lookup_delete_ne by done. naive_solver.
Qed.

Lemma index_keys e ks ix : NoDup ks →
  let ix' := foldl (index_key e) ix ks in
  (∀ key, idx ix' key = if decide (key ∈ ks) then {[e]} ∪ idx ix key else idx ix key) ∧
  (∀ key, net ix' key = if decide (key ∈ ks ∧ typ key = EventNetwork) then net ix key + 1 else net ix key)%Z ∧
  ix_versioned ix' = ix_versioned ix ∧
  ((∀ key, ix_index ix !! key ≠ Some ∅) → ∀ key, ix_index ix' !! key ≠ Some ∅) ∧
  ((∀ key n, ix_networks ix !! key = Some n → typ key = EventNetwork ∧ 0 < n)%Z →
   ∀ key n, ix_networks ix' !! key = Some n → typ key = EventNetwork ∧ 0 < n)%Z.
Proof.
  revert ix. induction ks as [|k ks IH]; intros ix Hnd; [by cbn|]. apply NoDup_cons in Hnd as [Hk Hnd].
  destruct (IH (index_key e ix k) Hnd) as (H1 & H2 & H3 & H4 & H5). cbn [foldl]. split_and!.
  - intros key. rewrite H1. unfold idx, index_key. cbn [ix_index]. destruct (decide (key = k)) as [->|Hne].
    + rewrite lookup_insert_eq. rewrite decide_False by done. by rewrite decide_True by (by left).
    + rewrite lookup_insert_ne by done. destruct (decide (key ∈ ks)); [rewrite decide_True by (by right)|rewrite decide_False by set_solver]; done.
  - intros key. rewrite H2. unfold net, index_key. cbn [ix_networks]. destruct (decide (key = k)) as [->|Hne].
    + rewrite decide_False by tauto. case_bool_decide as Ht.
      * rewrite lookup_insert_eq. by rewrite decide_True by (split; [by left|done]).
      * by rewrite decide_False by tauto.
    + assert (default 0%Z ((if bool_decide (typ k = EventNetwork) then <[k:=(default 0 (ix_networks ix !! k) + 1)%Z]> (ix_networks ix) else ix_networks ix) !! key) =
        default 0%Z (ix_networks ix !! key)) as -> by (case_bool_decide; [by rewrite lookup_insert_ne|done]).
      destruct (decide (key ∈ ks ∧ typ key = EventNetwork)); [rewrite decide_True by (split; [right|]; tauto)|rewrite decide_False by set_solver]; done.
  - by rewrite H3.
  - intros Hf. apply H4. intros key. unfold index_key. cbn [ix_index]. destruct (decide (key = k)) as [->|Hne].
    + rewrite lookup_insert_eq. intros [= E]. assert (e ∈ (∅ : gset nat)) by (rewrite <- E; set_solver). set_solver.
    + by rewrite lookup_insert_ne.
  - intros Hn. apply H5. intros key n. unfold index_key. cbn [ix_networks]. case_bool_decide as Ht; [|apply Hn].
    destruct (decide (key = k)) as [->|Hne]; [|rewrite lookup_insert_ne by done; apply Hn]. rewrite lookup_insert_eq. intros [= <-].
    split; [done|]. destruct (ix_networks ix !! k) as [m|] eqn:E; cbn; [|lia]. specialize (Hn _ _ E). lia.
Qed.

Lemma unindex_keys e ks ix : NoDup ks →
  (∀ key, key ∈ ks → typ key = EventNetwork → 0 < net ix key)%Z →
  let ix' := foldl (unindex_key e) ix ks in
  (∀ key, idx ix' key = if decide (key ∈ ks) then idx ix key ∖ {[e]} else idx ix key) ∧
  (∀ key, net ix' key = if decide (key ∈ ks ∧ typ key = EventNetwork) then net ix key - 1 else net ix key)%Z ∧
  ix_versioned ix' = ix_versioned ix ∧
  ((∀ key, ix_index ix !! key ≠ Some ∅) → ∀ key, ix_index ix' !! key ≠ Some ∅) ∧
  ((∀ key n, ix_networks ix !! key = Some n → typ key = EventNetwork ∧ 0 < n)%Z →
   ∀ key n, ix_networks ix' !! key = Some n → typ key = EventNetwork ∧ 0 < n)%Z.
Proof.
  revert ix. induction ks as [|k ks IH]; intros ix Hnd Hpos; [by cbn|]. apply NoDup_cons in Hnd as [Hk Hnd].
  assert (∀ key, idx (unindex_key e ix k) key = if decide (key = k) then idx ix k ∖ {[e]} else idx ix key) as Hidx.
  { intros key. unfold idx, unindex_key. cbn [ix_index]. destruct (decide (key = k)) as [->|Hne].
    - case_bool_decide as E; [by rewrite lookup_delete_eq, E|by rewrite lookup_insert_eq].
    - case_bool_decide; [by rewrite lookup_delete_ne|by rewrite lookup_insert_ne]. }
  assert (∀ key, net (unindex_key e ix k) key = if decide (key = k ∧ typ k = EventNetwork) then net ix k - 1 else net ix key)%Z as Hnet.
  { intros key. unfold net, unindex_key. cbn [ix_networks]. case_bool_decide as Ht; [|by rewrite decide_False by tauto].
    specialize (Hpos k ltac:(by left) Ht). unfold net in Hpos. destruct (decide (key = k)) as [->|Hne].
    - rewrite decide_True by done. destruct (Z.leb_spec (default 0%Z (ix_networks ix !! k) - 1) 0); [rewrite lookup_delete_eq; cbn; lia|by rewrite lookup_insert_eq].
    - rewrite decide_False by tauto. destruct (_ <=? 0)%Z; [by rewrite lookup_delete_ne|by rewrite lookup_insert_ne]. }
  destruct (IH (unindex_key e ix k) Hnd) as (H1 & H2 & H3 & H4 & H5).
  { intros key Hin Ht. rewrite Hnet, decide_False by (intros [-> _]; done). apply Hpos; [by right|done]. }
  cbn [foldl]. split_and!.
  - intros key. rewrite H1, Hidx. destruct (decide (key = k)) as [->|Hne].
    + rewrite decide_False by done. by rewrite decide_True by (by left).
    + destruct (decide (key ∈ ks)); [rewrite decide_True by (by right)|rewrite decide_False by set_solver]; done.
  - intros key. rewrite H2, Hnet. destruct (decide (key = k)) as [->|Hne].
    + rewrite decide_False by tauto. destruct (decide (typ k = EventNetwork)).
      * rewrite decide_True by done. by rewrite decide_True by (split; [by left|done]).
      * rewrite decide_False by tauto. by rewrite decide_False by tauto.
    + rewrite (decide_False (P := key = k ∧ _)) by tauto.
      destruct (decide (key ∈ ks ∧ typ key = EventNetwork)); [rewrite decide_True by (split; [right|]; tauto)|rewrite decide_False by set_solver]; done.
  - by rewrite H3.
  - intros Hf. apply H4. intros key. unfold unindex_key. cbn [ix_index]. case_bool_decide as E.
    + destruct (decide (key = k)) as [->|Hne]; [by rewrite lookup_delete_eq|by rewrite lookup_delete_ne].
    + destruct (decide (key = k)) as [->|Hne]; [rewrite lookup_insert_eq; congruence|by rewrite lookup_insert_ne].
  - intros Hn. apply H5. intros key n. unfold unindex_key. cbn [ix_networks]. case_bool_decide as Ht; [|apply Hn].
    destruct (Z.leb_spec (default 0%Z (ix_networks ix !! k) - 1) 0).
    + intros [_ Hl]%lookup_delete_Some. by apply Hn.
    + intros [[<- <-]|[_ Hl]]%lookup_insert_Some; [split; [done|lia]|by apply Hn].
Qed.

Lemma versioned_insert (L : gmap nat subscription) e sub : L !! e = None →
  Z.of_nat (base.size (filter (λ kv, isVersioned kv.2 = true) (<[e := sub]> L))) =
  (Z.of_nat (base.size (filter (λ kv, isVersioned kv.2 = true) L)) + if isVersioned sub then 1 else 0)%Z.
Proof.
  intros He. destruct (isVersioned sub) eqn:E.
  - rewrite map_filter_insert_True by done. rewrite map_size_insert_None; [lia|]. apply map_lookup_filter_None. by left.
  - rewrite map_filter_insert_False by (cbn; congruence). rewrite delete_id by done. lia.
Qed.

Lemma ix_ok_add L ix e sub : L !! e = None → ix_ok L ix → ix_ok (<[e := sub]> L) (add_index e sub ix).
Proof.
  intros He [H1 H2 H3 H4 H5]. unfold add_index, count_versioned.
  destruct (index_keys e (keys_of sub) ix (keys_NoDup sub)) as (K1 & K2 & K3 & K4 & K5).
  set (ix' := foldl (index_key e) ix (keys_of sub)) in *. split; cbn [ix_index ix_networks ix_versioned].
  - intros key. change (idx ix' key = finders (<[e:=sub]> L) key). by rewrite K1, H1, finders_insert.
  - by apply K4.
  - intros key Ht. change (net ix' key = Z.of_nat (base.size (finders (<[e:=sub]> L) key))).
    rewrite K2, finders_insert, H3 by done. destruct (decide (key ∈ keys_of sub)).
    + rewrite decide_True by done. rewrite size_union, size_singleton; [lia|]. apply disjoint_singleton_l.
      rewrite elem_of_finders. intros (? & ? & _). congruence.
    + by rewrite decide_False by tauto.
  - by apply K5.
  - rewrite versioned_insert, K3, H5 by done. destruct (isVersioned sub); lia.
Qed.

Lemma ix_ok_remove L ix e sub : L !! e = Some sub → ix_ok L ix → ix_ok (delete e L) (unindex e sub ix).
Proof.
  intros He [H1 H2 H3 H4 H5]. unfold unindex, count_versioned.
  set (ix0 := mkIndexes (ix_index ix) (ix_networks ix) (if isVersioned sub then ix_versioned ix + -1 else ix_versioned ix)%Z).
  assert (∀ key, key ∈ keys_of sub → e ∈ finders L key) as Hin by (intros key Hk; apply elem_of_finders; eauto).
  destruct (unindex_keys e (keys_of sub) ix0 (keys_NoDup sub)) as (K1 & K2 & K3 & K4 & K5).
  { intros key Hk Ht. change (net ix0 key) with (net ix key). rewrite H3 by done. specialize (Hin key Hk).
    destruct (decide (base.size (finders L key) = 0)) as [E|]; [|lia]. apply size_empty_inv in E. set_solver. }
  set (ix' := foldl (unindex_key e) ix0 (keys_of sub)) in *.
  split.
  - intros key. rewrite K1, finders_delete. change (idx ix0 key) with (idx ix key). rewrite H1.
    destruct (decide (key ∈ keys_of sub)); [done|]. symmetry. apply difference_disjoint_L.
    apply disjoint_singleton_r. rewrite elem_of_finders. intros (? & ? & ?). simplify_eq. done.
  - by apply K4.
  - intros key Ht. rewrite K2, finders_delete. change (net ix0 key) with (net ix key). rewrite H3 by done.
    destruct (decide (key ∈ keys_of sub)) as [Hk|Hk].
    + rewrite decide_True by done. specialize (Hin key Hk). rewrite size_difference, size_singleton by set_solver.
      assert (base.size (finders L key) ≠ 0); [|lia]. intros E%size_empty_inv. set_solver.
    + rewrite decide_False by tauto. rewrite difference_disjoint_L; [done|].
      apply disjoint_singleton_r. rewrite elem_of_finders. intros (? & ? & ?). simplify_eq. done.
  - by apply K5.
  - rewrite K3. cbn [ix0 ix_versioned]. pose proof (versioned_insert (delete e L) e sub ltac:(apply lookup_delete_eq)) as Hv.
    rewrite insert_delete_id in Hv by done. rewrite Hv in H5. destruct (isVersioned sub); lia.
Qed.

(** * The manager's invariant *)

(** [L] is the subscriptions that stand: those a session's state holds. *)
Record nm_ok (nm : NotificationManager) (L : gmap nat subscriptionEntry) : Prop := {
  ok_index : ix_ok (en_sub <$> L) (indexes_of nm);
  ok_standing e en : L !! e = Some en →
    nm_entries nm !! e = Some en ∧ e < nm_next nm ∧ sessions nm !! en_session en = Some (en_state en) ∧
    ∃ ss, nm_states nm !! en_state en = Some ss ∧ ss_uris ss !! en_uri en = Some e;
  ok_sessions s st : sessions nm !! s = Some st →
    st < nm_next nm ∧ ∃ ss, nm_states nm !! st = Some ss ∧
    ∀ uri e, ss_uris ss !! uri = Some e → ∃ en, L !! e = Some en ∧ en_session en = s ∧ en_state en = st ∧ en_uri en = uri;
  ok_states s s' st : sessions nm !! s = Some st → sessions nm !! s' = Some st → s = s';
}.

Lemma new_ok : nm_ok NewNotificationManager ∅.
Proof.
  split; cbn; [|by intros ??; rewrite lookup_empty|by intros ??; rewrite lookup_empty|by intros ???; rewrite lookup_empty].
  rewrite fmap_empty. assert (∀ key, finders ∅ key = ∅) as Hf.
  { intros key. apply set_eq. intros x. rewrite elem_of_finders. setoid_rewrite lookup_empty. set_solver. }
  split; cbn.
  - intros key. by rewrite Hf.
  - intros key. by rewrite lookup_empty.
  - intros key _. by rewrite Hf, size_empty.
  - intros key n. by rewrite lookup_empty.
  - by rewrite map_filter_empty, map_size_empty.
Qed.

(** A session's state, its own or one made for it. *)
Lemma stateLocked_ok session nm L : nm_ok nm L →
  let '(st, nm') := stateLocked session nm in
  nm_ok nm' L ∧ sessions nm' !! session = Some st ∧ nm_entries nm' = nm_entries nm ∧ indexes_of nm' = indexes_of nm ∧
  nm_next nm ≤ nm_next nm'.
Proof.
  intros Hok. unfold stateLocked. destruct (sessions nm !! session) as [st|] eqn:Es; [auto|]. destruct Hok as [H1 H2 H3 H4].
  cbn. rewrite lookup_insert_eq. split_and!; [|done..|lia]. split; cbn; [done| | |].
  - intros e en He. destruct (H2 e en He) as (Hen & Hlt & Hs & ss & Hst & Hu). pose proof (H3 _ _ Hs) as [Hlt' _].
    split_and!; [done|lia|rewrite lookup_insert_ne by congruence; done|]. exists ss. by rewrite lookup_insert_ne by lia.
  - intros s st [[<- <-]|[Hne Hs]]%lookup_insert_Some.
    + split; [lia|]. exists (mkState None ∅ None). rewrite lookup_insert_eq. split; [done|]. cbn. intros uri e. by rewrite lookup_empty.
    + destruct (H3 s st Hs) as (Hlt & ss & Hst & Hu). split; [lia|]. exists ss. rewrite lookup_insert_ne by lia. done.
  - intros s s' st [[<- <-]|[Hne Hs]]%lookup_insert_Some [[<- E]|[Hne' Hs']]%lookup_insert_Some; try done.
    + pose proof (H3 _ _ Hs') as [? _]. lia.
    + subst. pose proof (H3 _ _ Hs) as [? _]. lia.
    + by apply (H4 s s' st).
Qed.

(** What [Subscribe] does once it has the session's state. *)
Definition resubscribe (session st : nat) (uri : string) (identity : option Identity) (sub : subscription)
    (ss : sessionState) (nm : NotificationManager) : NotificationManager :=
  let nm := match ss_uris ss !! uri with Some old => unindexLocked old nm | None => nm end in
  let e := nm_next nm in
  let nm := mkManager (<[st := mkState identity (<[uri := e]> (ss_uris ss)) (ss_filter ss)]> (nm_states nm))
              (<[e := mkEntry session st uri sub]> (nm_entries nm)) (S e) (sessions nm) (index nm) (versioned nm) (nm_networks nm) in
  with_indexes (add_index e sub (indexes_of nm)) nm.

Lemma unindexLocked_fields e nm :
  nm_states (unindexLocked e nm) = nm_states nm ∧ nm_entries (unindexLocked e nm) = nm_entries nm ∧
  nm_next (unindexLocked e nm) = nm_next nm ∧ sessions (unindexLocked e nm) = sessions nm.
Proof. unfold unindexLocked. by destruct (nm_entries nm !! e). Qed.

Lemma unindexLocked_indexes e en nm : nm_entries nm !! e = Some en →
  indexes_of (unindexLocked e nm) = unindex e (en_sub en) (indexes_of nm).
Proof. intros He. unfold unindexLocked. rewrite He. by destruct (unindex _ _ _). Qed.

(** The standing subscriptions without what a URI of a session named. *)
Definition without (L : gmap nat subscriptionEntry) (ss : sessionState) (uri : string) : gmap nat subscriptionEntry :=
  match ss_uris ss !! uri with Some old => delete old L | None => L end.

Lemma without_lookup L ss uri e en :
  without L ss uri !! e = Some en ↔ L !! e = Some en ∧ ss_uris ss !! uri ≠ Some e.
Proof.
  unfold without. destruct (ss_uris ss !! uri) as [old|]; [|naive_solver]. rewrite lookup_delete_Some. naive_solver.
Qed.

Lemma without_index nm L session st ss uri : nm_ok nm L → sessions nm !! session = Some st → nm_states nm !! st = Some ss →
  ix_ok (en_sub <$> without L ss uri) (indexes_of match ss_uris ss !! uri with Some old => unindexLocked old nm | None => nm end).
Proof.
  intros Hok Hs Hst. unfold without. destruct (ss_uris ss !! uri) as [old|] eqn:E; [|apply Hok].
  destruct (ok_sessions _ _ Hok _ _ Hs) as (_ & ss' & Hst' & Hu). rewrite Hst in Hst'. injection Hst' as <-.
  destruct (Hu uri old E) as (en & Hen & _). destruct (ok_standing _ _ Hok _ _ Hen) as (Hent & _).
  rewrite (unindexLocked_indexes old en nm Hent), fmap_delete. apply ix_ok_remove; [by rewrite lookup_fmap, Hen|apply Hok].
Qed.

Lemma resubscribe_ok session st uri identity sub ss nm L :
  nm_ok nm L → sessions nm !! session = Some st → nm_states nm !! st = Some ss →
  nm_ok (resubscribe session st uri identity sub ss nm)
    (<[nm_next nm := mkEntry session st uri sub]> (without L ss uri)).
Proof.
  intros Hok Hs Hst. pose proof (without_index nm L session st ss uri Hok Hs Hst) as Hix.
  unfold resubscribe. set (nm1 := match ss_uris ss !! uri with Some old => unindexLocked old nm | None => nm end) in *.
  assert (nm_states nm1 = nm_states nm ∧ nm_entries nm1 = nm_entries nm ∧ nm_next nm1 = nm_next nm ∧ sessions nm1 = sessions nm)
    as (E1 & E2 & E3 & E4) by (unfold nm1; destruct (ss_uris ss !! uri); [apply unindexLocked_fields|done]).
  assert (without L ss uri !! nm_next nm = None) as Hfresh.
  { apply eq_None_not_Some. intros [en [Hen _]%without_lookup]. destruct (ok_standing _ _ Hok _ _ Hen) as (_ & ? & _). lia. }
  destruct Hok as [H1 H2 H3 H4]. split.
  - assert (∀ ix nm, indexes_of (with_indexes ix nm) = ix) as Hw by (by intros []). rewrite Hw, E3, fmap_insert.
    apply ix_ok_add; [by rewrite lookup_fmap, Hfresh|]. unfold indexes_of in *. cbn. exact Hix.
  - cbn. rewrite E1, E2, E3, E4. intros e en [[<- <-]|[Hne [Hen Hold]%without_lookup]]%lookup_insert_Some.
    + cbn. rewrite lookup_insert_eq. split_and!; [done|lia|done|]. eexists. rewrite lookup_insert_eq. split; [done|]. cbn. by rewrite lookup_insert_eq.
    + destruct (H2 e en Hen) as (Hent & Hlt & Hse & ss' & Hst' & Hu). rewrite lookup_insert_ne by lia. split_and!; [done|lia|done|].
      destruct (decide (en_state en = st)) as [E|Hd].
      * rewrite E in Hst'. rewrite Hst in Hst'. injection Hst' as <-. eexists. rewrite E, lookup_insert_eq. split; [done|]. cbn.
        rewrite lookup_insert_ne; [done|]. intros ->. congruence.
      * exists ss'. by rewrite lookup_insert_ne by congruence.
  - cbn. rewrite E1, E3, E4. intros s st' Hs'. destruct (H3 s st' Hs') as (Hlt & ss' & Hst' & Hu). split; [lia|].
    destruct (decide (st' = st)) as [->|Hd].
    + rewrite lookup_insert_eq. eexists. split; [done|]. cbn. assert (s = session) as -> by (by apply (H4 _ _ st)).
      rewrite Hst in Hst'. injection Hst' as <-. intros u e [[<- <-]|[Hne Hue]]%lookup_insert_Some.
      * eexists. rewrite lookup_insert_eq. done.
      * destruct (Hu u e Hue) as (en & Hen & E & E' & E''). exists en. split; [|done].
        destruct (ok_standing _ _ (Build_nm_ok _ _ H1 H2 H3 H4) _ _ Hen) as (_ & Hlt' & _).
        rewrite lookup_insert_ne by lia. apply without_lookup. split; [done|]. intros Ho.
        destruct (Hu uri e Ho) as (en' & Hen' & _ & _ & Eu). congruence.
    + rewrite lookup_insert_ne by congruence. exists ss'. split; [done|]. intros u e Hue.
      destruct (Hu u e Hue) as (en & Hen & E & E' & E''). exists en. split; [|done].
      destruct (H2 e en Hen) as (_ & Hlt' & _). rewrite lookup_insert_ne by lia. apply without_lookup. split; [done|]. intros Ho.
      destruct (H3 session st Hs) as (_ & ss'' & Hst'' & Hu'). rewrite Hst in Hst''. injection Hst'' as <-.
      destruct (Hu' uri e Ho) as (en' & Hen' & _ & Es & _). congruence.
  - cbn. rewrite E4. apply H4.
Qed.

Lemma Subscribe_ok session uri identity sub nm L : nm_ok nm L → ∃ L', nm_ok (Subscribe session uri identity sub nm) L'.
Proof.
  intros Hok. destruct session as [session|]; [|by exists L]. unfold Subscribe. destruct (is_empty uri); [by exists L|].
  pose proof (stateLocked_ok session nm L Hok) as Hst. destruct (stateLocked session nm) as [st nm']. destruct Hst as (Hok' & Hs & _).
  destruct (ok_sessions _ _ Hok' _ _ Hs) as (_ & ss & Hss & _). rewrite Hss. cbn [default from_option id].
  eexists. by apply (resubscribe_ok session st uri identity sub ss nm' L).
Qed.

(** A state whose subscriptions are the same. *)
Lemma set_state_ok nm L session st ss ss' : nm_ok nm L → sessions nm !! session = Some st → nm_states nm !! st = Some ss →
  ss_uris ss' = ss_uris ss → nm_ok (set_state st ss' nm) L.
Proof.
  intros [H1 H2 H3 H4] Hs Hst Hu. split; cbn; [done| | |done].
  - intros e en He. destruct (H2 e en He) as (Hen & Hlt & Hse & s0 & Hs0 & Hu0). split_and!; [done..|].
    destruct (decide (en_state en = st)) as [E|Hne]; [|exists s0; by rewrite lookup_insert_ne by done].
    rewrite E in Hs0 |- *. rewrite Hst in Hs0. injection Hs0 as <-. exists ss'. by rewrite lookup_insert_eq, Hu.
  - intros s st' Hs'. destruct (H3 s st' Hs') as (Hlt & s0 & Hs0 & Hu0). split; [done|].
    destruct (decide (st' = st)) as [->|Hne]; [|exists s0; by rewrite lookup_insert_ne by done].
    rewrite Hst in Hs0. injection Hs0 as <-. exists ss'. by rewrite lookup_insert_eq, Hu.
Qed.

Lemma SetFilter_ok session identity f nm L : nm_ok nm L → ∃ L', nm_ok (SetFilter session identity f nm) L'.
Proof.
  intros Hok. destruct session as [session|]; [|by exists L]. unfold SetFilter.
  pose proof (stateLocked_ok session nm L Hok) as Hst. destruct (stateLocked session nm) as [st nm']. destruct Hst as (Hok' & Hs & _).
  destruct (ok_sessions _ _ Hok' _ _ Hs) as (_ & ss & Hss & _). rewrite Hss. cbn [default from_option id]. exists L.
  by eapply set_state_ok.
Qed.

(** A session dropped once nothing it subscribed to stands. *)
Lemma drop_session_ok nm L session : nm_ok nm L → (∀ e en, L !! e = Some en → en_session en ≠ session) →
  nm_ok (drop_session session nm) L.
Proof.
  intros [H1 H2 H3 H4] Hnone. split; cbn; [done| | |].
  - intros e en He. destruct (H2 e en He) as (Hen & Hlt & Hse & Hss). split_and!; [done..| |done].
    rewrite lookup_delete_ne; [done|]. intros E. by apply (Hnone e en).
  - intros s st [_ Hs]%lookup_delete_Some. by apply H3.
  - intros s s' st [_ Hs]%lookup_delete_Some [_ Hs']%lookup_delete_Some. by apply (H4 s s' st).
Qed.

Lemma unsubscribe_ok nm L session st ss uri e : nm_ok nm L → sessions nm !! session = Some st → nm_states nm !! st = Some ss →
  ss_uris ss !! uri = Some e →
  nm_ok (set_state st (mkState (ss_identity ss) (delete uri (ss_uris ss)) (ss_filter ss)) (unindexLocked e nm)) (delete e L).
Proof.
  intros Hok Hs Hst Hu. destruct (unindexLocked_fields e nm) as (E1 & E2 & E3 & E4).
  pose proof (without_index nm L session st ss uri Hok Hs Hst) as Hix. rewrite Hu in Hix.
  assert (without L ss uri = delete e L) as Hw by (unfold without; by rewrite Hu). rewrite Hw in Hix.
  destruct Hok as [H1 H2 H3 H4]. destruct (H3 _ _ Hs) as (_ & ss1 & Hss1 & Hu1). rewrite Hst in Hss1. injection Hss1 as <-.
  split; unfold set_state; cbn; rewrite ?E1, ?E2, ?E3, ?E4; [exact Hix| | |done].
  - intros e' en [Hne He]%lookup_delete_Some. destruct (H2 e' en He) as (Hen & Hlt & Hse & s0 & Hs0 & Hu0). split_and!; [done..|].
    destruct (decide (en_state en = st)) as [E|Hd]; [|exists s0; by rewrite lookup_insert_ne by done].
    rewrite E in Hs0. rewrite Hst in Hs0. injection Hs0 as <-. rewrite E, lookup_insert_eq. eexists. split; [done|]. cbn.
    rewrite lookup_delete_ne; [done|]. intros ->. congruence.
  - intros s st' Hs'. destruct (H3 s st' Hs') as (Hlt & s0 & Hs0 & Hu0). split; [done|].
    destruct (decide (st' = st)) as [->|Hd].
    + rewrite lookup_insert_eq. eexists. split; [done|]. cbn. rewrite Hst in Hs0. injection Hs0 as <-.
      intros u e' [Hne He']%lookup_delete_Some. destruct (Hu0 u e' He') as (en & Hen & ? & ? & Eu). exists en. split; [|done].
      apply lookup_delete_Some. split; [|done]. intros <-. destruct (Hu0 uri e Hu) as (en' & Hen' & _ & _ & ?). congruence.
    + exists s0. rewrite lookup_insert_ne by done. split; [done|]. intros u e' He'. destruct (Hu0 u e' He') as (en & Hen & Es & Est & Eu).
      exists en. split; [|done]. apply lookup_delete_Some. split; [|done]. intros <-.
      destruct (Hu1 uri e Hu) as (en' & Hen' & _ & ? & _). congruence.
Qed.

Lemma Unsubscribe_ok session uri nm L : nm_ok nm L → ∃ L', nm_ok (Unsubscribe session uri nm) L'.
Proof.
  intros Hok. unfold Unsubscribe. destruct (sessions nm !! session) as [st|] eqn:Hs; [|by exists L].
  destruct (ok_sessions _ _ Hok _ _ Hs) as (_ & ss & Hss & Hu). rewrite Hss. cbn [default from_option id].
  assert (∃ L', nm_ok (match ss_uris ss !! uri with
    | Some e => set_state st (mkState (ss_identity ss) (delete uri (ss_uris ss)) (ss_filter ss)) (unindexLocked e nm)
    | None => nm end) L' ∧ ∀ e en, L' !! e = Some en → en_session en = session → ∃ u, delete uri (ss_uris ss) !! u = Some e) as (L' & Hok' & Hl).
  { assert (∀ e en, L !! e = Some en → en_session en = session → ss_uris ss !! en_uri en = Some e) as Hback.
    { intros e en He Es. destruct (ok_standing _ _ Hok _ _ He) as (_ & _ & Hs' & s0 & Hs0 & Hu0). rewrite Es in Hs'. congruence. }
    destruct (ss_uris ss !! uri) as [e|] eqn:E.
    - exists (delete e L). split; [by eapply unsubscribe_ok|]. intros e' en [Hne He']%lookup_delete_Some Es. exists (en_uri en).
      specialize (Hback _ _ He' Es). rewrite lookup_delete_ne; [done|]. intros Eu. rewrite Eu in E. congruence.
    - exists L. split; [done|]. intros e en He Es. exists (en_uri en). rewrite delete_id by done. by apply Hback. }
  case_bool_decide as Hempty; [|by exists L']. exists L'. apply drop_session_ok; [done|].
  intros e en He Es. destruct (Hl e en He Es) as [u Hu']. rewrite Hempty, lookup_empty in Hu'. done.
Qed.

Section runs.
Context `{MapRange}.

(** Unindexing a session's subscriptions one by one. *)
Lemma unindex_all nm L es : ix_ok (en_sub <$> L) (indexes_of nm) → NoDup es →
  (∀ e, e ∈ es → ∃ en, L !! e = Some en ∧ nm_entries nm !! e = Some en) →
  let nm' := foldl (λ nm e, unindexLocked e nm) nm es in
  nm_states nm' = nm_states nm ∧ nm_entries nm' = nm_entries nm ∧ nm_next nm' = nm_next nm ∧ sessions nm' = sessions nm ∧
  ix_ok (en_sub <$> filter (λ kv, kv.1 ∉ es) L) (indexes_of nm').
Proof.
  revert nm L. induction es as [|e es IH]; intros nm L Hix Hnd Hes.
  { cbn. rewrite map_filter_id; [done|]. intros; apply not_elem_of_nil. }
  apply NoDup_cons in Hnd as [He Hnd]. destruct (Hes e ltac:(by left)) as (en & Hen & Hent).
  destruct (unindexLocked_fields e nm) as (E1 & E2 & E3 & E4).
  assert (ix_ok (en_sub <$> delete e L) (indexes_of (unindexLocked e nm))) as Hix'.
  { rewrite (unindexLocked_indexes e en nm Hent), fmap_delete. apply ix_ok_remove; [by rewrite lookup_fmap, Hen|done]. }
  cbn [foldl]. destruct (IH _ _ Hix' Hnd) as (F1 & F2 & F3 & F4 & F5).
  { intros e' He'. destruct (Hes e' ltac:(by right)) as (en' & Hen' & Hent'). exists en'. rewrite E2. split; [|done].
    apply lookup_delete_Some. split; [|done]. by intros ->. }
  split_and!; [congruence..|]. assert (filter (λ kv, kv.1 ∉ e :: es) L = filter (λ kv, kv.1 ∉ es) (delete e L)) as ->; [|done].
  apply map_eq. intros i. apply option_eq. intros x. rewrite !map_lookup_filter_Some, lookup_delete_Some, not_elem_of_cons. cbn. naive_solver.
Qed.

Lemma RemoveSession_ok session nm L : nm_ok nm L → ∃ L', nm_ok (RemoveSession session nm) L'.
Proof.
  intros Hok. unfold RemoveSession. destruct (sessions nm !! session) as [st|] eqn:Hs.
  2: { exists L. apply drop_session_ok; [done|]. intros e en He E. destruct (ok_standing _ _ Hok _ _ He) as (_ & _ & Hs' & _). congruence. }
  destruct (ok_sessions _ _ Hok _ _ Hs) as (_ & ss & Hss & Hu). rewrite Hss. cbn [default from_option id].
  set (es := (range (ss_uris ss)).*2).
  assert (∀ e, e ∈ es ↔ ∃ u, ss_uris ss !! u = Some e) as Hin.
  { intros e. unfold es. rewrite list_elem_of_fmap. split; [intros ([u e'] & -> & Hr%elem_of_range); by exists u|].
    intros [u Hue]. exists (u, e). split; [done|]. by apply elem_of_range. }
  assert (NoDup es) as Hnd.
  { apply NoDup_fmap_2_strong; [|rewrite range_perm; apply NoDup_map_to_list].
    intros [u e] [u' e'] Hr%elem_of_range Hr'%elem_of_range. cbn. intros <-. f_equal.
    destruct (Hu u e Hr) as (en & Hen & _ & _ & <-), (Hu u' e Hr') as (en' & Hen' & _ & _ & <-). congruence. }
  destruct (unindex_all nm L es (ok_index _ _ Hok) Hnd) as (E1 & E2 & E3 & E4 & Hix).
  { intros e [u Hue]%Hin. destruct (Hu u e Hue) as (en & Hen & _). exists en. split; [done|]. apply (ok_standing _ _ Hok _ _ Hen). }
  exists (filter (λ kv, kv.1 ∉ es) L). set (nm' := foldl _ nm es) in *. destruct Hok as [H1 H2 H3 H4].
  split; cbn; rewrite ?E1, ?E2, ?E3, ?E4; [exact Hix| | |].
  - intros e en [He Hne]%map_lookup_filter_Some. destruct (H2 e en He) as (Hen & Hlt & Hse & s0 & Hs0 & Hu0). cbn in Hne.
    split_and!; [done..| |eauto]. rewrite lookup_delete_ne; [done|]. intros E. apply Hne, Hin. exists (en_uri en).
    rewrite <- E in Hse. congruence.
  - intros s st' [Hne Hs']%lookup_delete_Some. destruct (H3 s st' Hs') as (Hlt & s0 & Hs0 & Hu0). split; [done|]. exists s0. split; [done|].
    intros u e Hue. destruct (Hu0 u e Hue) as (en & Hen & Es & Est & Eu). exists en. split; [|done].
    apply map_lookup_filter_Some. split; [done|]. cbn. intros [u' Hu']%Hin. destruct (Hu u' e Hu') as (en' & Hen' & Es' & _). congruence.
  - intros s s' st' [_ Hs1]%lookup_delete_Some [_ Hs2]%lookup_delete_Some. by apply (H4 s s' st').
Qed.

(** What sessions do, in any order. *)
Inductive served : NotificationManager → Prop :=
| served_new : served NewNotificationManager
| served_subscribe session uri identity sub nm : served nm → served (Subscribe session uri identity sub nm)
| served_filter session identity f nm : served nm → served (SetFilter session identity f nm)
| served_unsubscribe session uri nm : served nm → served (Unsubscribe session uri nm)
| served_remove session nm : served nm → served (RemoveSession session nm).

Lemma served_ok nm : served nm → ∃ L, nm_ok nm L.
Proof.
  induction 1 as [|session uri identity sub nm _ [L Hok]|session identity f nm _ [L Hok]|session uri nm _ [L Hok]|session nm _ [L Hok]].
  - exists ∅. apply new_ok.
  - by eapply Subscribe_ok.
  - by eapply SetFilter_ok.
  - by eapply Unsubscribe_ok.
  - by eapply RemoveSession_ok.
Qed.

(** A session holds a subscription to a URI, and its identity. *)
Definition subscribed (nm : NotificationManager) (session : nat) (uri : string) (sub : subscription) (identity : option Identity) : Prop :=
  ∃ st ss e en, sessions nm !! session = Some st ∧ nm_states nm !! st = Some ss ∧ ss_uris ss !! uri = Some e ∧
    nm_entries nm !! e = Some en ∧ en_sub en = sub ∧ identity = ss_identity ss.
End runs.

(** The first of an event's keys that names a subscription. *)
Definition first_key (sub : subscription) (ks : list eventKey) : option eventKey :=
  snd <$> list_find (λ k, ek_target k ∈ keys_of sub) ks.

Section deliveries.
Context `{MapRange}.

Lemma elem_of_members (X : gset nat) e : e ∈ members_of X ↔ e ∈ X.
Proof.
  unfold members_of. rewrite list_elem_of_fmap. split.
  - intros ([e' []] & -> & Hr%elem_of_range). by apply lookup_gset_to_gmap_Some in Hr as [? _].
  - intros He. exists (e, ()). split; [done|]. apply elem_of_range, lookup_gset_to_gmap_Some. done.
Qed.

Lemma members_NoDup (X : gset nat) : NoDup (members_of X).
Proof.
  unfold members_of. apply NoDup_fmap_2_strong; [|rewrite range_perm; apply NoDup_map_to_list].
  intros [e []] [e' []] _ _. cbn. by intros ->.
Qed.

Lemma elem_of_find_entries nm L seen ks e k : nm_ok nm L →
  (e, k) ∈ find_entries nm seen ks ↔ (e ∉ seen) ∧ ∃ en, L !! e = Some en ∧ first_key (en_sub en) ks = Some k.
Proof.
  intros Hok. assert (∀ key x, x ∈ default ∅ (index nm !! key) ↔ ∃ en, L !! x = Some en ∧ key ∈ keys_of (en_sub en)) as Hidx.
  { intros key x. pose proof (ixo_index _ _ (ok_index _ _ Hok) key) as E. unfold idx in E. cbn in E. rewrite E, elem_of_finders.
    setoid_rewrite lookup_fmap. split; [intros (sub & Hs & ?); apply fmap_Some in Hs as (en & ? & ->); eauto|].
    intros (en & Hen & ?). exists (en_sub en). by rewrite Hen. }
  revert seen. induction ks as [|k0 ks IH]; intros seen.
  { cbn. split; [by intros ?%not_elem_of_nil|intros (_ & en & _ & E); done]. }
  cbn [find_entries]. rewrite elem_of_app, list_elem_of_fmap, IH. setoid_rewrite elem_of_members.
  setoid_rewrite elem_of_difference. setoid_rewrite Hidx. rewrite not_elem_of_union, Hidx. split.
  - intros [(x & [= -> ->] & (en & Hen & Hk) & Hseen)|([Hseen Hn] & en & Hen & Hf)].
    + split; [done|]. exists en. split; [done|]. unfold first_key. cbn. by rewrite decide_True by done.
    + split; [done|]. exists en. split; [done|]. unfold first_key in *. cbn. rewrite decide_False by (intros Hk; apply Hn; eauto).
      by destruct (list_find _ ks) as [[? ?]|].
  - intros (Hseen & en & Hen & Hf). unfold first_key in Hf. cbn in Hf. destruct (decide (ek_target k0 ∈ keys_of (en_sub en))) as [Hk|Hk].
    + injection Hf as <-. left. exists e. eauto.
    + right. split; [split; [done|]|].
      * intros (en' & Hen' & Hk'). rewrite Hen in Hen'. injection Hen' as <-. done.
      * exists en. split; [done|]. unfold first_key. by destruct (list_find _ ks) as [[? ?]|].
Qed.

Lemma find_entries_NoDup nm seen ks : NoDup (find_entries nm seen ks).*1 ∧ ∀ e, e ∈ (find_entries nm seen ks).*1 → e ∉ seen.
Proof.
  revert seen. induction ks as [|k ks IH]; intros seen; [split; [apply NoDup_nil_2|by intros e ?%not_elem_of_nil]|].
  cbn [find_entries]. set (found := default ∅ (index nm !! ek_target k)). destruct (IH (seen ∪ found)) as [Hnd Hns].
  assert ((map (λ e, (e, k)) (members_of (found ∖ seen))).*1 = members_of (found ∖ seen)) as E.
  { generalize (members_of (found ∖ seen)). intros l. induction l as [|x l IHl]; [done|]. cbn. by f_equal. }
  rewrite fmap_app, E. split.
  - apply NoDup_app. split_and!; [apply members_NoDup| |done]. intros e He%elem_of_members He'. specialize (Hns e He'). set_solver.
  - intros e [He%elem_of_members|He]%elem_of_app; [set_solver|]. specialize (Hns e He). set_solver.
Qed.

Lemma deliver_standing nm L e en via own : nm_ok nm L → L !! e = Some en →
  ∃ identity, subscribed nm (en_session en) (en_uri en) (en_sub en) identity ∧
    deliver nm e via own = Some (mkDelivery (en_session en) (en_uri en) (target (en_sub en)) via own identity).
Proof.
  intros Hok He. destruct (ok_standing _ _ Hok _ _ He) as (Hen & _ & Hs & ss & Hss & Hu). exists (ss_identity ss). split.
  - exists (en_state en), ss, e, en. done.
  - unfold deliver. rewrite Hen. cbn. by rewrite Hss.
Qed.

Lemma subscribed_standing nm L session uri sub identity : nm_ok nm L → subscribed nm session uri sub identity →
  ∃ e en, L !! e = Some en ∧ en_session en = session ∧ en_uri en = uri ∧ en_sub en = sub ∧
    ∀ via own, deliver nm e via own = Some (mkDelivery session uri (target sub) via own identity).
Proof.
  intros Hok (st & ss & e & en & Hs & Hss & Hu & Hen & <- & ->). destruct (ok_sessions _ _ Hok _ _ Hs) as (_ & ss' & Hss' & Hu').
  rewrite Hss in Hss'. injection Hss' as <-. destruct (Hu' uri e Hu) as (en' & Hen' & Es & Est & Eu).
  destruct (ok_standing _ _ Hok _ _ Hen') as (Hent & _). rewrite Hen in Hent. injection Hent as <-.
  exists e, en. split_and!; try done. intros via own. unfold deliver. rewrite Hen. cbn. by rewrite Est, Hss, Es, Eu.
Qed.

(** Two subscriptions of a session to a URI are one. *)
Lemma standing_unique nm L e e' en en' : nm_ok nm L → L !! e = Some en → L !! e' = Some en' →
  en_session en = en_session en' → en_uri en = en_uri en' → e = e'.
Proof.
  intros Hok He He' Es Eu. destruct (ok_standing _ _ Hok _ _ He) as (_ & _ & Hs & ss & Hss & Hu).
  destruct (ok_standing _ _ Hok _ _ He') as (_ & _ & Hs' & ss' & Hss' & Hu'). rewrite Es in Hs. rewrite Hs in Hs'. injection Hs' as Est.
  rewrite Est in Hss. rewrite Eu in Hu. congruence.
Qed.

(** Delivering distinct standing subscriptions, each once. *)
Lemma deliver_each_NoDup {K} nm L (es : list (nat * K)) (f : K → string * bool) : nm_ok nm L → NoDup es.*1 →
  (∀ e k, (e, k) ∈ es → is_Some (L !! e)) →
  NoDup ((λ d, (d_session d, d_uri d)) <$> omap (λ '(e, k), deliver nm e (f k).1 (f k).2) es).
Proof.
  intros Hok. induction es as [|[e k] es IH]; intros Hnd Hall; [apply NoDup_nil_2|]. cbn in Hnd. apply NoDup_cons in Hnd as [He Hnd].
  destruct (Hall e k ltac:(by left)) as [en Hen]. destruct (deliver_standing nm L e en (f k).1 (f k).2 Hok Hen) as (id & _ & Ed).
  cbn [omap list_omap]. rewrite Ed. cbn [fmap list_fmap d_session d_uri]. apply NoDup_cons. split; [|apply IH; [done|]; intros; eapply Hall; by right].
  intros ([] & [= Es Eu] & Hin)%list_elem_of_fmap. apply list_elem_of_omap in Hin as ([e' k'] & Hin & Ed').
  destruct (Hall e' k' ltac:(by right)) as [en' Hen']. destruct (deliver_standing nm L e' en' (f k').1 (f k').2 Hok Hen') as (id' & _ & Ed'').
  rewrite Ed'' in Ed'. injection Ed' as <- <- <- <- <- <-. cbn in *.
  apply He. assert (e = e') as -> by (by eapply standing_unique). apply list_elem_of_fmap. by exists (e', k').
Qed.
End deliveries.


(** Nobody is told of what it may not read. A session notified of a URI has
    subscribed to it, by a key the event reaches; its identity may read the
    resource the event names and the parent it came by, or, where the
    notification is of the watched resource alone, that resource; and one told
    that a listing changed asked to be. *)
Theorem notified_may_read `{MapRange} created c acl mayRead nm e ks : served nm →
  ev_Type e ≠ EventSync → ev_Type e ≠ EventAnnotation →
  ∀ n, n ∈ dispatchCacheEvent created c acl mayRead nm e ks →
  match n with
  | Updated session uri => ∃ sub identity k, subscribed nm session uri sub identity ∧ first_key sub ks = Some k ∧
      if ownTarget k then targetReadable created c acl identity (target sub) = true
      else (eventNamesResource e = true → CanReadEvent e (canRead acl identity) = true) ∧
           (via k ≠ "" → canRead acl identity (via k) = true)
  | ListChanged session => ∃ st ss, sessions nm !! session = Some st ∧ nm_states nm !! st = Some ss ∧ ss_filter ss = Some true ∧
      (isResourceEvent (ev_Type e) = true → acl ≠ None → canReadAnyOfType acl (ss_identity ss) (ev_Type e) = true)
  end.
Proof.
  intros [L Hok]%served_ok Hns Hna n. unfold dispatchCacheEvent. rewrite bool_decide_false by done. rewrite elem_of_app. intros [Hin|Hin].
  - apply list_elem_of_omap in Hin as (d & Hd & Hn). destruct (may_hear created c acl e d) eqn:Em; [|done]. injection Hn as <-.
    unfold matchingDeliveries in Hd. rewrite bool_decide_false in Hd by done. apply list_elem_of_omap in Hd as ([x k] & Hx & Ed).
    apply (elem_of_find_entries nm L ∅ ks x k Hok) in Hx as (_ & en & Hen & Hf).
    destruct (deliver_standing nm L x en (via k) (ownTarget k) Hok Hen) as (id & Hsub & Ed'). rewrite Ed' in Ed. injection Ed as <-.
    exists (en_sub en), id, k. split; [done|]. split; [done|]. unfold may_hear in Em. rewrite bool_decide_false in Em by done. cbn in Em.
    destruct (ownTarget k); [done|]. apply andb_true_iff in Em as [E1 E2]. split.
    + intros Hr. rewrite Hr in E1. by destruct (CanReadEvent e _).
    + intros Hv. destruct (is_empty (via k)) eqn:Ev; [by apply is_empty_spec in Ev|]. by destruct (canRead acl id (via k)).
  - destruct (IsListChange e); [|by apply not_elem_of_nil in Hin]. apply list_elem_of_omap in Hin as ([s id] & Hs & Hn).
    destruct (_ && negb _) eqn:Eg; [done|]. injection Hn as <-. unfold listChangedTargets in Hs.
    apply list_elem_of_omap in Hs as ([s' st] & Hr%elem_of_range & Es). destruct (nm_states nm !! st) as [ss|] eqn:Ess; [|done].
    destruct (ss_filter ss) as [[]|] eqn:Ef; cbn in Es; try done. injection Es as <- <-. exists st, ss. split; [exact Hr|]. split; [exact Ess|]. split; [exact Ef|].
    intros Hr' Ha. rewrite Hr' in Eg. destruct acl; [|done]. cbn [andb] in Eg. by apply negb_false_iff in Eg.
Qed.

Definition demo_uri : string := "cetacean://services/web/logs".
Definition demo_manager : NotificationManager :=
  Subscribe (Some 7) "cetacean://nodes/n1" None (literalSubscription "cetacean://nodes/n1")
    (Subscribe (Some 7) demo_uri None (literalSubscription demo_uri) NewNotificationManager).
Definition demo_event : Event := mkEvent EventService "update" "s1" "web" PNone 4 PNone "" "" time_zero time_zero.

#[local] Existing Instance map_range_std.


(** Unsubscribing from the last URI forgets the session, its filter included. *)
Example filter_forgotten :
  listChangedTargets (SetFilter (Some 7) None true demo_manager) = [(7, None)] ∧
  listChangedTargets (Unsubscribe 7 demo_uri (Unsubscribe 7 "cetacean://nodes/n1" (SetFilter (Some 7) None true demo_manager))) = [].
Proof. vm_compute. auto. Qed.

Example uris_parsed :
  parseSubscriptionURI <$> [demo_uri; "cetacean://annotations/12"; "cetacean://annotations/x"; "cetacean://services/"; "cetacean://cluster"] =
  [Some (mkTarget "service" "web"); Some (mkTarget "annotation" "12"); None; None; None].
Proof. vm_compute. reflexivity. Qed.
