(* ===== verification/SecretEntries.v ===== *)
(** Secrets a person enters in the dashboard for an MCP caller:
    internal/cluster/secretentry.go and the create of internal/api/write_create.go
    that completes an entry.

    The mutex makes every method one step over the map of entries. A call reads
    the clock where the code does; [rand.Text] is the ID it is given. *)
From S2P Require Import Prelude GoStrings.
#[local] Open Scope string_scope.
#[local] Open Scope Z_scope.
#[local] Open Scope list_scope.

Definition SecretEntryTTL : Z := 900000000000.
Definition maxSecretEntries : nat := 1024.
Definition maxSecretEntriesPerSubject : nat := 16.

Inductive entry_error := ErrSecretEntryNotFound | ErrSecretEntrySubject | ErrSecretEntryDone | ErrSecretEntriesFull.

#[global] Instance entry_error_eq_dec : EqDecision entry_error.
Proof. solve_decision. Defined.

(** A copied entry's labels are never nil: a nil map is the empty one here. *)
Record SecretEntry := mkEntry {
  e_ID : string;
  e_Name : string;
  e_Labels : gmap string string;
  e_Encoding : string;
  e_Expires : Z;
  subject : string;
  SecretID : string;
}.

Definition with_secret (id : string) (e : SecretEntry) : SecretEntry :=
  mkEntry (e_ID e) (e_Name e) (e_Labels e) (e_Encoding e) (e_Expires e) (subject e) id.

Abbreviation SecretEntries := (gmap string SecretEntry).
Definition NewSecretEntries : SecretEntries := ∅.

(** The entry has not expired. *)
Definition open_at (now : Z) (e : SecretEntry) : bool := time_before now (e_Expires e).

Definition sweep (now : Z) (s : SecretEntries) : SecretEntries := filter (λ ke, open_at now ke.2 = true) s.

Definition openedBy (sub : string) (s : SecretEntries) : nat := base.size (filter (λ ke, subject ke.2 = sub) s).

(** The store swept at [now], and a new entry that expires a TTL from [later]. *)
Definition Open_ (sub name : string) (labels : gmap string string) (encoding id : string) (now later : Z) (s : SecretEntries)
    : (entry_error + SecretEntry) * SecretEntries :=
  if is_empty sub then (inl ErrSecretEntrySubject, s) else
  let s := sweep now s in
  if (maxSecretEntries <=? base.size s)%nat || (maxSecretEntriesPerSubject <=? openedBy sub s)%nat then (inl ErrSecretEntriesFull, s)
  else
    let entry := mkEntry id name labels encoding (later + SecretEntryTTL) sub "" in
    (inr entry, <[id := entry]> s).

Definition lookup_entry (id sub : string) (now : Z) (s : SecretEntries) : entry_error + SecretEntry :=
  match s !! id with
  | None => inl ErrSecretEntryNotFound
  | Some entry =>
      if negb (open_at now entry) then inl ErrSecretEntryNotFound
      else if is_empty sub || negb (bool_decide (subject entry = sub)) then inl ErrSecretEntrySubject
      else inr entry
  end.

Definition For_ (id sub : string) (now : Z) (s : SecretEntries) : entry_error + SecretEntry := lookup_entry id sub now s.

Definition Complete (id sub secretID : string) (now : Z) (s : SecretEntries) : option entry_error * SecretEntries :=
  match lookup_entry id sub now s with
  | inl err => (Some err, s)
  | inr entry =>
      if negb (is_empty (SecretID entry)) then (Some ErrSecretEntryDone, s)
      else (None, <[id := with_secret secretID entry]> s)
  end.

Definition Close (id : string) (s : SecretEntries) : SecretEntries := delete id s.

(** * The dashboard's create *)

Section create.
Context `{Unicode} (decode64 : string → option string).

Record createResourceRequest := mkCreate { cr_Name : string; cr_Data : string; Elicitation : string }.

(** A problem by its code and detail. *)
Definition problem : Type := string * string.

Definition lookupEntry (entries : option SecretEntries) (id sub : string) (now : Z) : problem + SecretEntry :=
  match entries with
  | None => inl ("SEC006", "no such secret entry")
  | Some s =>
      match For_ id sub now s with
      | inl ErrSecretEntrySubject => inl ("SEC007", "this secret entry was opened by someone else's MCP client")
      | inl _ => inl ("SEC006", "no such secret entry, or it has expired")
      | inr entry => inr entry
      end
  end.

Definition openEntry (nameErrCode : string) (entries : option SecretEntries) (req : createResourceRequest) (sub : string)
    (now : Z) : problem + SecretEntry :=
  match entries with
  | None => inl (nameErrCode, "only a secret is created from an elicitation")
  | Some _ =>
      match lookupEntry entries (Elicitation req) sub now with
      | inl p => inl p
      | inr entry =>
          if negb (is_empty (cr_Name req)) && negb (bool_decide (cr_Name req = e_Name entry)) then
            inl (nameErrCode, "name must be the one the elicitation asked for, " +:+ e_Name entry)
          else inr entry
      end
  end.

(** handleCreateDataResource up to the create it asks for: the name, labels and
    bytes, or the problem it answers with. *)
Definition asked_create (resource nameErrCode : string) (can_write : string → bool) (entries : option SecretEntries)
    (req : createResourceRequest) (sub : string) (now : Z) : problem + string * gmap string string * string :=
  let chosen := if is_empty (Elicitation req) then inr (cr_Name req, ∅)
                else match openEntry nameErrCode entries req sub now with
                     | inl p => inl p
                     | inr entry => inr (e_Name entry, e_Labels entry)
                     end in
  match chosen with
  | inl p => inl p
  | inr (name, labels) =>
      if is_empty (TrimSpace name) then inl (nameErrCode, "name is required")
      else if negb (can_write (resource +:+ ":" +:+ name)) then inl ("ACL002", "write access denied")
      else match decode64 (cr_Data req) with
           | None => inl (nameErrCode, "data must be valid base64")
           | Some data => inr (name, labels, data)
           end
  end.

(** And from the ID the create gave: the entry, when the request named one, is
    completed. *)
Definition created (req : createResourceRequest) (sub id : string) (now : Z) (s : SecretEntries) : SecretEntries :=
  if is_empty (Elicitation req) then s else (Complete (Elicitation req) sub id now s).2.

(** What an elicited create makes is what the entry shows: its name and
    labels, for the person whose client opened it, while it is open. *)
Lemma asked_create_entry resource code can entries req sub now name labels data : Elicitation req ≠ "" →
  asked_create resource code can entries req sub now = inr (name, labels, data) →
  ∃ s entry, entries = Some s ∧ s !! Elicitation req = Some entry ∧ open_at now entry = true ∧ subject entry = sub ∧ sub ≠ "" ∧
    name = e_Name entry ∧ labels = e_Labels entry ∧ can (resource +:+ ":" +:+ name) = true ∧ decode64 (cr_Data req) = Some data.
Proof.
  intros Hne%is_empty_false. unfold asked_create, openEntry. rewrite Hne. destruct entries as [s|]; cbn; [|done].
  unfold For_, lookup_entry. destruct (s !! Elicitation req) as [entry|] eqn:El; [|done].
  destruct (open_at now entry) eqn:Eo; cbn [negb]; [|done]. destruct (is_empty sub) eqn:Es; [done|]. cbn [orb].
  case_bool_decide as Eb; cbn [negb]; [|done].
  destruct (negb (is_empty (cr_Name req)) && _); [done|]. destruct (is_empty (TrimSpace _)); [done|].
  destruct (can _) eqn:Ec; cbn [negb]; [|done]. destruct (decode64 _) eqn:Ed; [|done]. intros [= <- <- <-].
  exists s, entry. split_and!; try done. by intros ->.
Qed.
End create.

(** * What a store holds *)

Record entries_ok (s : SecretEntries) : Prop := {
  ok_ids : ∀ id e, s !! id = Some e → e_ID e = id ∧ subject e ≠ "";
  ok_size : (base.size s ≤ maxSecretEntries)%nat;
  ok_share : ∀ sub, (openedBy sub s ≤ maxSecretEntriesPerSubject)%nat;
}.

Inductive entry_op :=
| EOpen (sub name : string) (labels : gmap string string) (encoding id : string) (now later : Z)
| EComplete (id sub secretID : string) (now : Z)
| EClose (id : string).

Definition entry_step (s : SecretEntries) (o : entry_op) : SecretEntries :=
  match o with
  | EOpen sub name labels encoding id now later => (Open_ sub name labels encoding id now later s).2
  | EComplete id sub secretID now => (Complete id sub secretID now s).2
  | EClose id => Close id s
  end.

(** What an operation adds is a new entry, or the secret of the entry of the
    subject that opened it. *)
Lemma lookup_entry_inr id sub now s e : lookup_entry id sub now s = inr e →
  s !! id = Some e ∧ open_at now e = true ∧ subject e = sub ∧ sub ≠ "".
Proof.
  unfold lookup_entry. destruct (s !! id) as [e'|]; [|done]. destruct (open_at now e') eqn:Eo; cbn [negb]; [|done].
  destruct (is_empty sub) eqn:Es; [done|]. cbn [orb]. case_bool_decide; cbn [negb]; [|done]. intros [= <-].
  split_and!; try done. by intros ->.
Qed.

Lemma Open_lookup sub name labels encoding id now later s id' e :
  (Open_ sub name labels encoding id now later s).2 !! id' = Some e →
  s !! id' = Some e ∨ id' = id ∧ (Open_ sub name labels encoding id now later s).1 = inr e.
Proof.
  unfold Open_. destruct (is_empty sub); [by left|]. destruct (_ || _); cbn [snd fst].
  - unfold sweep. intros [? _]%map_lookup_filter_Some. by left.
  - intros [[<- <-]|[_ [? _]%map_lookup_filter_Some]]%lookup_insert_Some; [by right|by left].
Qed.

Lemma Complete_lookup id sub secretID now s id' e : (Complete id sub secretID now s).2 !! id' = Some e →
  s !! id' = Some e ∨ id' = id ∧ (Complete id sub secretID now s).1 = None ∧
    ∃ e0, s !! id = Some e0 ∧ subject e0 = sub ∧ SecretID e0 = "" ∧ e = with_secret secretID e0.
Proof.
  unfold Complete. destruct (lookup_entry id sub now s) as [err|e0] eqn:El; [by left|].
  destruct (is_empty (SecretID e0)) eqn:Es; cbn [negb fst snd]; [|by left]. apply is_empty_spec in Es.
  apply lookup_entry_inr in El as (Hl & _ & Hsub & _).
  intros [[<- <-]|[_ ?]]%lookup_insert_Some; [right|by left]. split_and!; try done. by exists e0.
Qed.

Lemma sweep_sub now s : sweep now s ⊆ s.
Proof. apply map_filter_subseteq. Qed.

Lemma size_insert_le {A} (m : gmap string A) k x : (base.size (<[k := x]> m) ≤ base.size m + 1)%nat.
Proof. rewrite map_size_insert. destruct (m !! k); cbn; lia. Qed.

Lemma openedBy_mono sub s s' : s ⊆ s' → (openedBy sub s ≤ openedBy sub s')%nat.
Proof. intros Hs. apply map_subseteq_size. by apply map_filter_subseteq_mono. Qed.

Lemma openedBy_insert sub id e s : (openedBy sub (<[id := e]> s) ≤ openedBy sub s + if decide (subject e = sub) then 1 else 0)%nat.
Proof.
  unfold openedBy. destruct (decide (subject e = sub)) as [E|E].
  - rewrite map_filter_insert_True by done. apply size_insert_le.
  - rewrite map_filter_insert_False by done. rewrite Nat.add_0_r. apply map_subseteq_size, map_filter_subseteq_mono, delete_subseteq.
Qed.

Lemma entries_ok_sub s s' : s' ⊆ s → entries_ok s → entries_ok s'.
Proof.
  intros Hs [Hi Hz Hb]. split.
  - intros id e He. apply (Hi id e). by eapply lookup_weaken.
  - pose proof (map_subseteq_size _ _ Hs). lia.
  - intros sub. pose proof (openedBy_mono sub _ _ Hs). specialize (Hb sub). lia.
Qed.

Lemma Open_ok sub name labels encoding id now later s :
  entries_ok s → entries_ok (Open_ sub name labels encoding id now later s).2.
Proof.
  intros Hs. unfold Open_. destruct (is_empty sub) eqn:Es; [done|].
  apply (entries_ok_sub _ (sweep now s)) in Hs; [|apply sweep_sub]. set (s' := sweep now s) in *.
  destruct (_ <=? base.size s')%nat eqn:E1; [done|]. destruct (_ <=? openedBy sub s')%nat eqn:E2; [done|]. cbn [orb snd].
  apply Nat.leb_gt in E1, E2. destruct Hs as [Hi Hz Hb]. split.
  - intros id' e [[<- <-]|[_ ?]]%lookup_insert_Some; [|by apply Hi]. split; [done|]. cbn. by intros ->.
  - etrans; [apply size_insert_le|]. lia.
  - intros sub'. etrans; [apply openedBy_insert|]. cbn [subject]. specialize (Hb sub'). case_decide; subst; lia.
Qed.

Lemma Complete_ok id sub secretID now s : entries_ok s → entries_ok (Complete id sub secretID now s).2.
Proof.
  intros [Hi Hz Hb]. unfold Complete. destruct (lookup_entry id sub now s) as [err|e] eqn:El; [done|].
  apply lookup_entry_inr in El as (Hl & _ & Hsub & Hne). destruct (negb _); [done|]. cbn [snd]. split.
  - intros id' e' [[<- <-]|[_ ?]]%lookup_insert_Some; [|by apply Hi]. destruct (Hi _ _ Hl). by split.
  - rewrite map_size_insert_Some; [done|eauto].
  - intros sub'. specialize (Hb sub'). unfold openedBy in *. destruct (decide (sub = sub')) as [<-|Hn].
    + rewrite map_filter_insert_True by done. rewrite map_size_insert_Some; [done|].
      exists e. by apply map_lookup_filter_Some_2.
    + rewrite map_filter_insert_False by (cbn; congruence).
      etrans; [|exact Hb]. apply map_subseteq_size, map_filter_subseteq_mono, delete_subseteq.
Qed.

Lemma entry_step_ok s o : entries_ok s → entries_ok (entry_step s o).
Proof.
  intros Hs. destruct o; cbn [entry_step]; [by apply Open_ok|by apply Complete_ok|].
  apply (entries_ok_sub s); [apply delete_subseteq|done].
Qed.

Lemma new_entries_ok : entries_ok NewSecretEntries.
Proof. unfold NewSecretEntries. split; [intros id e; by rewrite lookup_empty|rewrite map_size_empty; lia|intros sub; vm_compute; lia]. Qed.

(** The caps of the secret entries hold in every run and count only what is
    open. A store never holds more than 1024 entries, nor more than 16 of one
    subject, each under its own ID and for somebody; and an entry is refused
    for somebody exactly while that many are open: an expired one never counts. *)
Theorem entries_bounded ops : let s := foldl entry_step NewSecretEntries ops in
  entries_ok s ∧
  ∀ sub name labels encoding id now later, sub ≠ "" →
    ((Open_ sub name labels encoding id now later s).1 = inl ErrSecretEntriesFull ↔
     (maxSecretEntries ≤ base.size (filter (λ ke, (now < e_Expires ke.2)%Z) s))%nat ∨
     (maxSecretEntriesPerSubject ≤ base.size (filter (λ ke, subject ke.2 = sub ∧ (now < e_Expires ke.2)%Z) s))%nat).
Proof.
  intros s. split.
  - subst s. generalize new_entries_ok. generalize NewSecretEntries. induction ops as [|o ops IH]; intros s Hs; [done|].
    cbn [foldl]. by apply IH, entry_step_ok.
  - intros sub name labels encoding id now later Hne. unfold Open_. rewrite (is_empty_false _ Hne).
    assert (sweep now s = filter (λ ke, (now < e_Expires ke.2)%Z) s) as ->.
    { apply map_filter_ext. intros i e _. cbn. unfold open_at, time_before. by rewrite Z.ltb_lt. }
    assert (openedBy sub (filter (λ ke, (now < e_Expires ke.2)%Z) s) =
      base.size (filter (λ ke, subject ke.2 = sub ∧ (now < e_Expires ke.2)%Z) s)) as ->.
    { unfold openedBy. by rewrite map_filter_filter. }
    destruct (Nat.leb_spec maxSecretEntries (base.size (filter (λ ke, (now < e_Expires ke.2)%Z) s))); cbn [orb fst]; [tauto|].
    destruct (Nat.leb_spec maxSecretEntriesPerSubject (base.size (filter (λ ke, subject ke.2 = sub ∧ (now < e_Expires ke.2)%Z) s)));
      cbn [fst]; [tauto|]. split; [done|lia].
Qed.

Lemma entries_bounded_witness :
  let s := foldl entry_step NewSecretEntries [EOpen "alice" "db" ∅ "utf8" "e1" 0 0; EComplete "e1" "alice" "sec1" 5] in
  entries_ok s ∧ (Open_ "alice" "db2" ∅ "utf8" "e2" 7 7 s).1 ≠ inl ErrSecretEntriesFull.
Proof.
  intros s. destruct (entries_bounded [EOpen "alice" "db" ∅ "utf8" "e1" 0 0; EComplete "e1" "alice" "sec1" 5]) as [Hok Hfull].
  split; [exact Hok|]. intros E. apply (Hfull "alice" "db2" ∅ "utf8" "e2" 7 7) in E; [|discriminate].
  vm_compute in E. lia.
Defined.

(** Another person, a second answer and an expired entry are refused. *)
Example entries_refused :
  let s := foldl entry_step NewSecretEntries [EOpen "alice" "db" ∅ "utf8" "e1" 0 0; EComplete "e1" "alice" "sec1" 5] in
  For_ "e1" "mallory" 6 s = inl ErrSecretEntrySubject ∧
  (Complete "e1" "alice" "sec2" 6 s).1 = Some ErrSecretEntryDone ∧
  For_ "e1" "alice" SecretEntryTTL s = inl ErrSecretEntryNotFound.
Proof. vm_compute. done. Qed.
