(* ===== verification/McpConfirm.v ===== *)
(** What a person is asked before a tool acts: internal/mcp/confirm.go,
    choose.go and secretentry.go over the secret entries.

    A multi round-trip call keeps nothing on the server: its state travels
    signed, through the client. Base64, JSON and HMAC-SHA256 under the
    process's key are an argument with their laws. A call carries what the
    library finds in it: the answer under a key, and the string arguments. *)
From S2P Require Import Prelude GoStrings GoStrconv AclPolicy SecretEntries.
#[local] Open Scope string_scope.
#[local] Open Scope Z_scope.
#[local] Open Scope list_scope.

Definition confirmationTTL : Z := 300000000000.
Definition confirmField : string := "confirm".
Definition nodeChoiceKey : string := "node".

(** * Calls *)

Inductive json_value := JBool (b : bool) | JString (s : string) | JOther.

(** An answer; without content, its content is no object. *)
Record ElicitationResult := mkAnswer { Action : string; Content : option (gmap string json_value) }.

Definition ElicitationModeForm : string := "form".
Definition ElicitationModeURL : string := "url".
Definition ElicitationResponseActionAccept : string := "accept".
Definition ElicitationResponseActionCancel : string := "cancel".

(** A capability's two pointers, set or not. *)
Record ElicitationCapability := mkCapability { cap_Form : bool; cap_URL : bool }.

(** A session is one that carries elicitation or not, and one that knows its
    client's capabilities or not. *)
Record ClientSession := mkSession {
  SessionID : string;
  with_elicitation : bool;
  client_info : option (option ElicitationCapability);
}.

Record ProtocolInfo := mkProtocol { Modern : bool; ClientCapabilities : option (option ElicitationCapability) }.

Record CallContext := mkContext {
  protocol_info : option ProtocolInfo;
  client_session : option ClientSession;
  ctx_identity : option Identity;
}.

(** [Arguments_] is json.Marshal of the arguments, when it gives one. *)
Record CallToolRequest := mkCall {
  Name_ : string;
  Arguments_ : option string;
  strings : gmap string string;
  RequestState : string;
  InputResponses : gmap string ElicitationResult;
}.

Definition GetString (req : CallToolRequest) (key def : string) : string := default def (strings req !! key).

Definition ElicitationResponse (responses : gmap string ElicitationResult) (key : string) : option ElicitationResult := responses !! key.

Definition elicitationSupports (capability : option ElicitationCapability) (mode : string) : bool :=
  match capability with
  | None => false
  | Some c => if bool_decide (mode = ElicitationModeURL) then cap_URL c else cap_Form c || negb (cap_URL c)
  end.

Definition clientElicits (ctx : CallContext) (mode : string) : bool :=
  let legacy :=
    match client_session ctx with
    | None => false
    | Some session =>
        if is_empty (SessionID session) then false
        else if negb (with_elicitation session) then false
        else match client_info session with None => false | Some capability => elicitationSupports capability mode end
    end in
  match protocol_info ctx with
  | Some info =>
      if Modern info then
        match ClientCapabilities info with None => false | Some capability => elicitationSupports capability mode end
      else legacy
  | None => legacy
  end.

(** A property of an answer's content, as a string and as a boolean. *)
Definition content_string (answer : ElicitationResult) (key : string) : option string :=
  match Content answer ≫= lookup key with Some (JString s) => Some s | _ => None end.

Definition content_true (answer : ElicitationResult) (key : string) : bool :=
  match Content answer ≫= lookup key with Some (JBool b) => b | _ => false end.

(** * The signed state *)

Record choice := mkChoice { ch_Bind : string; ch_Value : string }.

Record roundTripState := mkRound {
  rt_Subject : string;
  rt_Provider : string;
  rt_Tool : string;
  rt_Args : string;
  rt_Asked : string;
  rt_Version : Z;
  rt_Bind : string;
  rt_Choices : gmap string choice;
  rt_Expires : Z;
}.

Definition sameCall (st other : roundTripState) : bool :=
  bool_decide (rt_Subject st = rt_Subject other) && bool_decide (rt_Provider st = rt_Provider other) &&
  bool_decide (rt_Tool st = rt_Tool other) && bool_decide (rt_Args st = rt_Args other).

Definition asked_ (st : roundTripState) (key : string) (version : Z) (bind : string) : bool :=
  bool_decide (rt_Asked st = key) && (rt_Version st =? version) && bool_decide (rt_Bind st = bind).

Class StateCodec := {
  r_b64 : string → string;
  r_unb64 : string → option string;
  r_marshal : roundTripState → string;
  r_unmarshal : string → option roundTripState;
  r_mac : string → string;
  digest : string → string;                  (* the hexadecimal SHA-256 *)
}.

(** [state_text] says a state's strings are such as JSON carries unchanged. *)
Class StateCodecLaws `{StateCodec} (state_text : roundTripState → Prop) : Prop := {
  r_unb64_b64 s : r_unb64 (r_b64 s) = Some s;
  r_b64_no_dot s : IndexByte (r_b64 s) "." = None;
  r_unmarshal_marshal st : state_text st → r_unmarshal (r_marshal st) = Some st;
}.

(** What a call reads of the clock: when it opens the state it was given, when
    it opens it again for the next one, and when it signs that. *)
Record Clock := mkClock { t_prior : Z; t_next : Z; t_sign : Z }.

Record confirmation := mkConfirmation {
  target : string;
  message : string;
  version : Z;
  bind : string;
  declined : string;
}.

(** A result a handler returns in place of its own: a request for input under
    a key, with the signed state, or a refusal. *)
Inductive toolOutcome :=
| InputRequired (key mode message state : string) (oneOf : list (string * string))
| Declined (content text : string).

(** The errors of a handler. *)
Inductive handler_error :=
| Error_ (msg : string)
| Outcome (o : toolOutcome)
| NotChosen.

Record option_ := mkOption { value : string; title : string }.

Section rounds.
Context `{StateCodec}.

(** ** Signing and opening *)

Definition with_expires (e : Z) (st : roundTripState) : roundTripState :=
  mkRound (rt_Subject st) (rt_Provider st) (rt_Tool st) (rt_Args st) (rt_Asked st) (rt_Version st) (rt_Bind st) (rt_Choices st) e.

Definition sign_state (st : roundTripState) : string :=
  let payload := r_marshal st in r_b64 payload +:+ "." +:+ r_b64 (r_mac payload).

Definition sign (st : roundTripState) (ttl now : Z) : string := sign_state (with_expires (unix (now + ttl)) st).

(** The payload of a token whose signature is its MAC. *)
Definition authentic (token : string) : option string :=
  match Cut token "." with
  | (_, _, false) => None
  | (encoded, signature, true) =>
      match r_unb64 encoded with
      | None => None
      | Some payload =>
          match r_unb64 signature with
          | None => None
          | Some mac => if bool_decide (mac = r_mac payload) then Some payload else None
          end
      end
  end.

Definition open_ (token : string) (now : Z) : option roundTripState :=
  match authentic token with
  | None => None
  | Some payload =>
      match r_unmarshal payload with
      | None => None
      | Some st => if rt_Expires st <=? unix now then None else Some st
      end
  end.

Definition argumentsDigest (req : CallToolRequest) : string := digest (default "" (Arguments_ req)).

Definition callState (ctx : CallContext) (req : CallToolRequest) : roundTripState :=
  let st s p := mkRound s p (Name_ req) (argumentsDigest req) "" 0 "" ∅ 0 in
  match ctx_identity ctx with
  | None => st "" ""
  | Some id => st (Subject id) (Provider id)
  end.

Definition priorRound (ctx : CallContext) (req : CallToolRequest) (now : Z) : option roundTripState :=
  match open_ (RequestState req) now with
  | None => None
  | Some st => if sameCall st (callState ctx req) then Some st else None
  end.

Definition carriedChoices (prior : roundTripState) (responses : gmap string ElicitationResult) : gmap string choice :=
  let choices := rt_Choices prior in
  if is_empty (rt_Asked prior) then choices else
  match ElicitationResponse responses (rt_Asked prior) with
  | None => choices
  | Some answer =>
      if negb (bool_decide (Action answer = ElicitationResponseActionAccept)) then choices else
      match content_string answer (rt_Asked prior) with
      | None => choices
      | Some v => <[rt_Asked prior := mkChoice (rt_Bind prior) v]> choices
      end
  end.

(** The state a next round is signed over. *)
Definition next_state (ctx : CallContext) (req : CallToolRequest) (key : string) (version : Z) (bind : string) (clock : Clock)
    : roundTripState :=
  let next := callState ctx req in
  mkRound (rt_Subject next) (rt_Provider next) (rt_Tool next) (rt_Args next) key version bind
    match priorRound ctx req (t_next clock) with
    | None => ∅
    | Some prior => carriedChoices prior (InputResponses req)
    end 0.

Definition nextRoundLasting (ctx : CallContext) (req : CallToolRequest) (key : string) (version : Z) (bind : string) (ttl : Z)
    (clock : Clock) : string :=
  sign (next_state ctx req key version bind clock) ttl (t_sign clock).

Definition nextRound (ctx : CallContext) (req : CallToolRequest) (key : string) (version : Z) (bind : string) (clock : Clock) : string :=
  nextRoundLasting ctx req key version bind confirmationTTL clock.

(** ** Confirming *)

Definition outcomeAccepted : string := "accepted".
Definition outcomeDeclined : string := "declined".
Definition outcomeCancelled : string := "cancelled".

Definition confirmationOutcome (answer : ElicitationResult) : string :=
  if bool_decide (Action answer = ElicitationResponseActionAccept) then
    if content_true answer confirmField then outcomeAccepted else outcomeDeclined
  else if bool_decide (Action answer = ElicitationResponseActionCancel) then outcomeCancelled
  else outcomeDeclined.

Definition askToConfirm (tool : string) (question : confirmation) (state : string) : handler_error :=
  Outcome (InputRequired tool ElicitationModeForm (message question) state []).

(** [requireConfirmation] is mcp.require_confirmation. *)
Definition confirm (requireConfirmation : bool) (ctx : CallContext) (req : CallToolRequest)
    (build : unit → string + confirmation) (clock : Clock) : handler_error + bool :=
  if negb (clientElicits ctx ElicitationModeForm) then
    if requireConfirmation then
      inl (Error_ (Name_ req +:+ " needs a person to confirm it, and this client declares no form " +:+
        "elicitation to ask one (mcp.require_confirmation is on)"))
    else inr false
  else
  match build () with
  | inl err => inl (Error_ err)
  | inr question =>
      let tool := Name_ req in
      let ask := inl (askToConfirm tool question (nextRound ctx req tool (version question) (bind question) clock)) in
      match ElicitationResponse (InputResponses req) tool, priorRound ctx req (t_prior clock) with
      | Some answer, Some prior =>
          if negb (asked_ prior tool (version question) (bind question)) then ask
          else
            let outcome := confirmationOutcome answer in
            if bool_decide (outcome = outcomeAccepted) then inr true
            else inl (Outcome (Declined (declined question) ("Nothing was changed: the person " +:+ outcome +:+ " the confirmation.")))
      | _, _ => ask
      end
  end.

(** A remove_ tool: [resolve] judges the caller and gives the ID, [impact] the
    question; [missing] is what the library says of an argument that is not there.
    What the write is asked to remove, and whether a person said so. *)
Definition removeResolvedHandler (requireConfirmation : bool) (resolve : string → handler_error + string)
    (impact : string → string + confirmation) (has_client : bool) (missing : string) (ctx : CallContext)
    (req : CallToolRequest) (clock : Clock) : handler_error + string * bool :=
  match strings req !! "id" with
  | None => inl (Error_ missing)
  | Some arg =>
      match resolve arg with
      | inl err => inl err
      | inr id =>
          match confirm requireConfirmation ctx req (λ _, impact id) clock with
          | inl err => inl err
          | inr confirmed => if negb has_client then inl (Error_ "MCP server has no write client configured") else inr (id, confirmed)
          end
      end
  end.

(** ** Choosing *)

Definition choose (ctx : CallContext) (req : CallToolRequest) (key message : string) (options : list option_) (clock : Clock)
    : handler_error + string :=
  let values := SortStrings (value <$> options) in
  let bind := Join values "," in
  let ask := inl (Outcome (InputRequired key ElicitationModeForm message (nextRound ctx req key 0 bind clock)
                             ((λ o, (value o, title o)) <$> options))) in
  match priorRound ctx req (t_prior clock) with
  | None => ask
  | Some prior =>
      let answered :=
        match ElicitationResponse (InputResponses req) key with
        | None => ask
        | Some answer =>
            if negb (asked_ prior key 0 bind) then ask
            else if negb (bool_decide (Action answer = ElicitationResponseActionAccept)) then inl NotChosen
            else
              let v := default "" (content_string answer key) in
              if bool_decide (v ∈ values) then inr v else ask
        end in
      match rt_Choices prior !! key with
      | Some picked =>
          if bool_decide (ch_Bind picked = bind) && bool_decide (ch_Value picked ∈ values) then inr (ch_Value picked) else answered
      | None => answered
      end
  end.

(** ** Entering a secret *)

(** [dashboardURL] is the dashboard's external base, empty without one;
    [query_escape] is url.QueryEscape and [quote] the verb %q. *)
Context (dashboardURL : string) (inlineSecretValues : bool) (query_escape quote : string → string).

Definition canEnterSecrets (ctx : CallContext) : bool :=
  negb (is_empty dashboardURL) && FromToken (ctx_identity ctx) && clientElicits ctx ElicitationModeURL.

Definition checkInlineValue (ctx : CallContext) (req : CallToolRequest) : option handler_error :=
  if is_empty (GetString req "data" "") then None
  else if canEnterSecrets ctx then
    Some (Error_ ("data: leave it out; this client can send the person to Cetacean's dashboard " +:+
      "to enter the value, which keeps it out of the conversation"))
  else if negb inlineSecretValues then
    Some (Error_ ("data: this server accepts no secret value as an argument " +:+
      "(mcp.inline_secret_values is off); use a client that supports URL elicitation"))
  else None.

Definition askForSecretValue (ctx : CallContext) (req : CallToolRequest) (entry : SecretEntry) (clock : Clock) : handler_error :=
  let state := nextRoundLasting ctx req (Name_ req) 0 (e_ID entry) SecretEntryTTL clock in
  Outcome (InputRequired (Name_ req) ElicitationModeURL
    ("Enter the value of the new secret " +:+ e_Name entry +:+ " in Cetacean. It goes from your " +:+
       "browser to Cetacean, not through the agent.") state
    [(e_ID entry, dashboardURL +:+ "/secrets/new?elicitation=" +:+ query_escape (e_ID entry))]).

(** The created secret's ID and name, once the person created it. *)
Definition resumeSecretEntry (ctx : CallContext) (req : CallToolRequest) (entry : SecretEntry) (clock : Clock) (s : SecretEntries)
    : (handler_error + string * string) * SecretEntries :=
  if negb (is_empty (SecretID entry)) then (inr (SecretID entry, e_Name entry), Close (e_ID entry) s) else
  let again := (inl (askForSecretValue ctx req entry clock), s) in
  match ElicitationResponse (InputResponses req) (Name_ req) with
  | None => again
  | Some answer =>
      if bool_decide (Action answer = ElicitationResponseActionAccept) then again else
      let outcome := if bool_decide (Action answer = ElicitationResponseActionCancel) then outcomeCancelled else outcomeDeclined in
      (inl (Outcome (Declined (e_Name entry) ("Nothing was created: the person " +:+ outcome +:+ " entering the secret's value."))),
       Close (e_ID entry) s)
  end.

Definition entry_error_text (err : entry_error) : string :=
  match err with
  | ErrSecretEntryNotFound => "secret entry not found or expired"
  | ErrSecretEntrySubject => "secret entry was opened by someone else"
  | ErrSecretEntryDone => "secret entry already completed"
  | ErrSecretEntriesFull => "too many secret entries are waiting"
  end.

(** The store is locked twice: [seen] is what it holds at the look-up and [s]
    what it holds after. [now] is its clock, for the look-up, the sweep and the
    expiry; [id] the new entry's. *)
Definition enterSecretValue (ctx : CallContext) (req : CallToolRequest) (name : string) (labels : gmap string string) (clock : Clock)
    (now : Z * Z * Z) (id : string) (seen s : SecretEntries) : (handler_error + string * string) * SecretEntries :=
  let encoding := GetString req "encoding" "utf8" in
  if negb (bool_decide (encoding = "utf8")) && negb (bool_decide (encoding = "base64")) then
    (inl (Error_ ("encoding " +:+ quote encoding +:+ ": expected " +:+ quote "utf8" +:+ " or " +:+ quote "base64")), s)
  else if negb (canEnterSecrets ctx) then
    (inl (Error_ ("data: required, and may not be empty; this client can't send the person " +:+
       "to Cetacean's dashboard to enter it")), s)
  else
  let tool := Name_ req in
  let subject := default "" (Subject <$> ctx_identity ctx) in
  let fresh :=
    match Open_ subject name labels encoding id now.1.2 now.2 s with
    | (inl err, s) => (inl (Error_ ("create_secret: " +:+ entry_error_text err)), s)
    | (inr entry, s) => (inl (askForSecretValue ctx req entry clock), s)
    end in
  match priorRound ctx req (t_prior clock) with
  | Some prior =>
      if negb (bool_decide (rt_Asked prior = tool)) then fresh else
      match For_ (rt_Bind prior) subject now.1.1 seen with
      | inr entry => resumeSecretEntry ctx req entry clock s
      | inl _ => fresh
      end
  | None => fresh
  end.

(** * Runs *)

(** The tools that put a question, as they are registered: the impactful ones
    confirm, a node is chosen under its own key, and one enters a value. *)
Definition confirming : list string :=
  ["update_node"; "remove_service"; "remove_task"; "remove_config"; "remove_secret"; "remove_network"; "remove_volume"].
Definition entering : string := "create_secret".

Inductive op :=
| OpConfirm (ctx : CallContext) (req : CallToolRequest) (build : string + confirmation)
| OpChoose (ctx : CallContext) (req : CallToolRequest) (message : string) (options : list option_)
| OpEnter (ctx : CallContext) (req : CallToolRequest) (name : string) (labels : gmap string string) (now : Z * Z * Z) (id : string)
| OpComplete (id subject secretID : string) (now : Z).

Definition op_ok (o : op) : Prop :=
  match o with
  | OpConfirm _ req _ => Name_ req ∈ confirming
  | OpEnter _ req _ _ _ _ => Name_ req = entering
  | _ => True
  end.

Inductive result :=
| RConfirm (r : handler_error + bool)
| RChoose (r : handler_error + string)
| REnter (r : handler_error + string * string)
| RComplete (e : option entry_error).

Record Step := mkStep { st_op : op; st_clock : Clock; st_result : result; st_post : SecretEntries }.

Context (requireConfirmation : bool).

Definition step_of (o : op) (clock : Clock) (seen s : SecretEntries) : Step :=
  match o with
  | OpConfirm ctx req build => mkStep o clock (RConfirm (confirm requireConfirmation ctx req (λ _, build) clock)) s
  | OpChoose ctx req message options => mkStep o clock (RChoose (choose ctx req nodeChoiceKey message options clock)) s
  | OpEnter ctx req name labels now id =>
      let (r, s) := enterSecretValue ctx req name labels clock now id seen s in mkStep o clock (REnter r) s
  | OpComplete id subject secretID now => let (e, s) := Complete id subject secretID now s in mkStep o clock (RComplete e) s
  end.

(** A run from an empty store, its steps in the order they take effect; what a
    step looked up it looked up at some point before. *)
Inductive history : list Step → SecretEntries → Prop :=
| history_nil : history [] NewSecretEntries
| history_snoc tr s tr0 seen o clock :
    history tr s → history tr0 seen → tr0 `prefix_of` tr → op_ok o →
    history (tr ++ [step_of o clock seen s]) (st_post (step_of o clock seen s)).

Definition call_of (o : op) : option (CallContext * CallToolRequest) :=
  match o with
  | OpConfirm ctx req _ | OpChoose ctx req _ _ | OpEnter ctx req _ _ _ _ => Some (ctx, req)
  | OpComplete _ _ _ _ => None
  end.

(** The state a step handed its client with a request for input. *)
Definition handed (r : result) : option string :=
  match r with
  | RConfirm (inl (Outcome (InputRequired _ _ _ state _))) | RChoose (inl (Outcome (InputRequired _ _ _ state _)))
  | REnter (inl (Outcome (InputRequired _ _ _ state _))) => Some state
  | _ => None
  end.

(** The question a step put: its key, version, binding and how long it stands. *)
Definition put_by (o : op) (key : string) (v : Z) (b : string) (ttl : Z) : Prop :=
  match o with
  | OpConfirm _ req (inr q) => key = Name_ req ∧ v = version q ∧ b = bind q ∧ ttl = confirmationTTL
  | OpChoose _ _ _ options => key = nodeChoiceKey ∧ v = 0 ∧ b = Join (SortStrings (value <$> options)) "," ∧ ttl = confirmationTTL
  | OpEnter _ req _ _ _ _ => key = Name_ req ∧ v = 0 ∧ ttl = SecretEntryTTL
  | _ => False
  end.

(** No signature is right that this process did not give out before. *)
Definition unforged (tr : list Step) : Prop :=
  ∀ pre st post ctx req payload, tr = pre ++ st :: post → call_of (st_op st) = Some (ctx, req) →
    authentic (RequestState req) = Some payload →
    ∃ p token, p ∈ pre ∧ handed (st_result p) = Some token ∧ authentic token = Some payload.

Definition same_call (ctx : CallContext) (req : CallToolRequest) (ctx' : CallContext) (req' : CallToolRequest) : Prop :=
  sameCall (callState ctx req) (callState ctx' req') = true.
End rounds.

(** * What the signed state carries *)

Section laws.
Context `{StateCodecLaws} (dashboardURL : string) (inlineSecretValues : bool) (query_escape quote : string → string)
  (requireConfirmation : bool).

#[local] Abbreviation performed := (step_of dashboardURL query_escape quote requireConfirmation).
#[local] Abbreviation run := (history dashboardURL query_escape quote requireConfirmation).

Lemma authentic_sign st : authentic (sign_state st) = Some (r_marshal st).
Proof.
  unfold authentic, sign_state. cbn [String.append]. rewrite (Cut_byte "." _ _ (r_b64_no_dot _)). rewrite !r_unb64_b64.
  by rewrite bool_decide_true.
Qed.

(** The strings of the states given out are such as JSON carries. *)
Definition texts (tr : list Step) : Prop :=
  ∀ p ctx req key v b ttl, p ∈ tr → call_of (st_op p) = Some (ctx, req) → put_by (st_op p) key v b ttl →
    handed (st_result p) = Some (nextRoundLasting ctx req key v b ttl (st_clock p)) →
    state_text (with_expires (unix (t_sign (st_clock p) + ttl)) (next_state ctx req key v b (st_clock p))).

Lemma confirm_handed ctx req build clock token :
  handed (RConfirm (confirm requireConfirmation ctx req build clock)) = Some token →
  ∃ q, build () = inr q ∧ token = nextRound ctx req (Name_ req) (version q) (bind q) clock ∧
    confirm requireConfirmation ctx req build clock = inl (askToConfirm (Name_ req) q token).
Proof.
  unfold confirm, askToConfirm. destruct (negb _); [by destruct requireConfirmation|]. destruct (build ()) as [err|q]; [done|].
  intros Hh. exists q. split; [done|]. revert Hh.
  destruct (ElicitationResponse _ _) as [answer|]; [|by intros [= <-]].
  destruct (priorRound _ _ _) as [prior|]; [|by intros [= <-]].
  destruct (negb _); [by intros [= <-]|]. by case_bool_decide.
Qed.

Lemma confirm_true ctx req build clock : confirm requireConfirmation ctx req build clock = inr true →
  ∃ q answer prior, build () = inr q ∧ InputResponses req !! Name_ req = Some answer ∧
    priorRound ctx req (t_prior clock) = Some prior ∧ asked_ prior (Name_ req) (version q) (bind q) = true ∧
    Action answer = ElicitationResponseActionAccept ∧ content_true answer confirmField = true.
Proof.
  unfold confirm. destruct (negb _); [by destruct requireConfirmation|]. destruct (build ()) as [err|q]; [done|].
  unfold ElicitationResponse. destruct (InputResponses req !! Name_ req) as [answer|]; [|done].
  destruct (priorRound _ _ _) as [prior|]; [|done].
  destruct (asked_ _ _ _ _) eqn:Ea; cbn [negb]; [|done].
  case_bool_decide as Eo; [|done]. intros _. exists q, answer, prior. unfold confirmationOutcome in Eo.
  destruct (bool_decide (Action answer = ElicitationResponseActionAccept)) eqn:E1;
    [|destruct (bool_decide (Action answer = ElicitationResponseActionCancel)); vm_compute in Eo; done].
  apply bool_decide_eq_true in E1. destruct (content_true answer confirmField); [by split_and!|vm_compute in Eo; done].
Qed.

Lemma choose_handed ctx req key msg options clock token : handed (RChoose (choose ctx req key msg options clock)) = Some token →
  token = nextRound ctx req key 0 (Join (SortStrings (value <$> options)) ",") clock.
Proof.
  unfold choose. set (values := SortStrings _). set (b := Join values ","). set (tok := nextRound _ _ _ _ _ _).
  repeat first [case_match; simplify_eq/= | case_bool_decide]; try done; by intros [= <-].
Qed.

Lemma choose_inr ctx req key msg options clock v : let values := SortStrings (value <$> options) in
  choose ctx req key msg options clock = inr v →
  v ∈ values ∧ ∃ prior, priorRound ctx req (t_prior clock) = Some prior ∧
    (rt_Choices prior !! key = Some (mkChoice (Join values ",") v) ∨
     asked_ prior key 0 (Join values ",") = true ∧ ∃ answer, InputResponses req !! key = Some answer ∧
       Action answer = ElicitationResponseActionAccept ∧ default "" (content_string answer key) = v).
Proof.
  intros values. unfold choose. fold values. destruct (priorRound _ _ _) as [prior|]; [|done].
  set (answered := match ElicitationResponse _ _ with Some _ => _ | None => _ end).
  assert (answered = inr v → v ∈ values ∧ asked_ prior key 0 (Join values ",") = true ∧ ∃ answer,
    InputResponses req !! key = Some answer ∧ Action answer = ElicitationResponseActionAccept ∧
    default "" (content_string answer key) = v) as Hans.
  { subst answered. unfold ElicitationResponse. destruct (InputResponses req !! key) as [answer|]; [|done].
    destruct (asked_ _ _ _ _); cbn [negb]; [|done]. case_bool_decide as E1; cbn [negb]; [|done].
    case_bool_decide; [|done]. intros [= <-]. split_and!; eauto. }
  destruct (rt_Choices prior !! key) as [[b v']|] eqn:Ec; cbn [ch_Bind ch_Value].
  - case_bool_decide as E1; cbn [andb].
    + case_bool_decide as E2; [|intros ?; destruct Hans as (? & ? & ?); eauto 10]. intros [= <-]. subst b. eauto 10.
    + intros ?; destruct Hans as (? & ? & ?); eauto 10.
  - intros ?; destruct Hans as (? & ? & ?); eauto 10.
Qed.

Abbreviation enter := (enterSecretValue dashboardURL query_escape quote).

Lemma enter_handed ctx req name labels clock now id seen s token :
  handed (REnter (enter ctx req name labels clock now id seen s).1) = Some token →
  ∃ b, token = nextRoundLasting ctx req (Name_ req) 0 b SecretEntryTTL clock.
Proof.
  unfold enterSecretValue, resumeSecretEntry, askForSecretValue. destruct (_ && _); [done|]. destruct (negb _); [done|].
  set (fresh := match Open_ _ _ _ _ _ _ _ _ with (_, _) => _ end).
  assert (handed (REnter fresh.1) = Some token → ∃ b, token = nextRoundLasting ctx req (Name_ req) 0 b SecretEntryTTL clock) as Hf.
  { subst fresh. destruct (Open_ _ _ _ _ _ _ _ _) as [[err|e] s']; [done|]. cbn. intros [= <-]. eauto. }
  destruct (priorRound _ _ _) as [prior|]; [|done]. destruct (negb _); [done|]. destruct (For_ _ _ _ _) as [err|e]; [done|].
  destruct (negb _); [done|]. destruct (ElicitationResponse _ _) as [answer|]; [case_bool_decide|]; cbn; try done; intros [= <-]; eauto.
Qed.

Lemma enter_inr ctx req name labels clock now id seen s sid nm :
  (enter ctx req name labels clock now id seen s).1 = inr (sid, nm) →
  ∃ prior e, priorRound ctx req (t_prior clock) = Some prior ∧ rt_Asked prior = Name_ req ∧
    For_ (rt_Bind prior) (default "" (Subject <$> ctx_identity ctx)) now.1.1 seen = inr e ∧
    SecretID e = sid ∧ sid ≠ "" ∧ e_Name e = nm.
Proof.
  unfold enterSecretValue, resumeSecretEntry. destruct (_ && _); [done|]. destruct (negb _); [done|].
  set (fresh := match Open_ _ _ _ _ _ _ _ _ with (_, _) => _ end).
  assert (fresh.1 ≠ inr (sid, nm)) as Hf by (subst fresh; by destruct (Open_ _ _ _ _ _ _ _ _) as [[err|e] s']).
  destruct (priorRound _ _ _) as [prior|]; [|done]. case_bool_decide as Ea; cbn [negb]; [|done].
  destruct (For_ _ _ _ _) as [err|e] eqn:Ef; [done|]. destruct (is_empty (SecretID e)) eqn:Es; cbn [negb].
  - destruct (ElicitationResponse _ _) as [answer|]; [case_bool_decide|]; done.
  - intros [= <- <-]. exists prior, e. split_and!; try done. by intros E; rewrite E in Es.
Qed.

Lemma enter_lookup ctx req name labels clock now id seen s id' e :
  (enter ctx req name labels clock now id seen s).2 !! id' = Some e →
  s !! id' = Some e ∨ id' = id ∧ e_Name e = name ∧ e_Labels e = labels ∧ e_Encoding e = GetString req "encoding" "utf8" ∧
    subject e = default "" (Subject <$> ctx_identity ctx) ∧ SecretID e = "".
Proof.
  unfold enterSecretValue, resumeSecretEntry. destruct (_ && _); [by left|]. destruct (negb _); [by left|].
  set (sub := default "" _). set (fresh := match Open_ _ _ _ _ _ _ _ _ with (_, _) => _ end).
  assert (fresh.2 !! id' = Some e → s !! id' = Some e ∨ id' = id ∧ e_Name e = name ∧ e_Labels e = labels ∧
    e_Encoding e = GetString req "encoding" "utf8" ∧ subject e = sub ∧ SecretID e = "") as Hf.
  { subst fresh. pose proof (Open_lookup sub name labels (GetString req "encoding" "utf8") id now.1.2 now.2 s id' e) as Ho.
    destruct (Open_ _ _ _ _ _ _ _ _) as [r s'] eqn:E. cbn [fst snd] in Ho.
    intros Hl. assert (s' !! id' = Some e) as [?|[-> ->]]%Ho by (by destruct r); [by left|right]. split; [done|].
    revert E. unfold Open_. destruct (is_empty sub); [done|]. destruct (_ || _); [done|]. by intros [= <- _]. }
  assert (∀ k, Close k s !! id' = Some e → s !! id' = Some e) as Hd by (intros k; unfold Close; by intros [_ ?]%lookup_delete_Some).
  destruct (priorRound _ _ _) as [prior|]; [|done]. destruct (negb _); [done|]. destruct (For_ _ _ _ _) as [err|e0]; [done|].
  destruct (negb _); [intros ?; left; by eapply Hd|].
  destruct (ElicitationResponse _ _) as [answer|]; [case_bool_decide|]; cbn [snd]; eauto.
Qed.

(** ** Where a state comes from *)

Lemma step_handed o clock seen s token : handed (st_result (performed o clock seen s)) = Some token →
  ∃ ctx req key v b ttl, call_of o = Some (ctx, req) ∧ put_by o key v b ttl ∧
    token = nextRoundLasting ctx req key v b ttl clock.
Proof.
  destruct o as [ctx req build|ctx req msg options|ctx req name labels now id|id sub sid now]; cbn [step_of].
  - intros (q & -> & -> & _)%confirm_handed. cbn. eauto 12.
  - intros ->%choose_handed. cbn. eauto 12.
  - pose proof (enter_handed ctx req name labels clock now id seen s token) as He.
    destruct (enter ctx req name labels clock now id seen s) as [r s']. intros [b ->]%He. exists ctx, req, (Name_ req), 0, b, SecretEntryTTL. done.
  - by destruct (Complete id sub sid now s).
Qed.

Lemma history_step tr s pre st post : run tr s → tr = pre ++ st :: post →
  ∃ s1 tr0 seen, run pre s1 ∧ run tr0 seen ∧ tr0 `prefix_of` pre ∧ op_ok (st_op st) ∧
    st = performed (st_op st) (st_clock st) seen s1.
Proof.
  intros Hh. revert pre st post. induction Hh as [|tr s tr0 seen o clock Hh IH Hh0 _ Hpre Hok]; intros pre st post E; [by destruct pre|].
  destruct post as [|x post _] using rev_ind.
  - apply app_inj_tail in E as [<- <-]. exists s, tr0, seen.
    assert (st_op (performed o clock seen s) = o ∧ st_clock (performed o clock seen s) = clock) as [Eo Ec].
    { destruct o; cbn; [done|done|by destruct (enterSecretValue _ _ _ _ _ _ _ _ _ _ _ _)|by destruct (Complete _ _ _ _ _)]. }
    rewrite Eo, Ec. by split_and!.
  - rewrite app_comm_cons, app_assoc in E. apply app_inj_tail in E as [-> _]. by eapply IH.
Qed.

(** The step that put the question a state was signed for. *)
Lemma opened tr s pre st post ctx req now prior :
  run tr s → unforged tr → texts tr → tr = pre ++ st :: post → call_of (st_op st) = Some (ctx, req) →
  priorRound ctx req now = Some prior →
  ∃ p ctx' req' key v b ttl, p ∈ pre ∧ call_of (st_op p) = Some (ctx', req') ∧ put_by (st_op p) key v b ttl ∧
    handed (st_result p) = Some (nextRoundLasting ctx' req' key v b ttl (st_clock p)) ∧
    prior = with_expires (unix (t_sign (st_clock p) + ttl)) (next_state ctx' req' key v b (st_clock p)) ∧
    same_call ctx' req' ctx req ∧ unix now < unix (t_sign (st_clock p) + ttl).
Proof.
  intros Hh Hun Htx -> Hc. unfold priorRound, open_. destruct (authentic (RequestState req)) as [payload|] eqn:Ea; [|done].
  destruct (Hun pre st post ctx req payload eq_refl Hc Ea) as (p & token & Hp & Ht & Hat).
  pose proof Hp as Hp'. apply list_elem_of_split in Hp' as (l1 & l2 & El).
  destruct (history_step _ _ l1 p (l2 ++ st :: post) Hh) as (s1 & tr0 & seen & _ & _ & _ & _ & Est); [by rewrite El, <-app_assoc|].
  pose proof Ht as Ht'. rewrite Est in Ht'. apply step_handed in Ht' as (ctx' & req' & key & v & b & ttl & Hc' & Hput & ->).
  pose proof Hat as Hat'. unfold nextRoundLasting, sign in Hat'. rewrite authentic_sign in Hat'. injection Hat' as <-.
  rewrite r_unmarshal_marshal; [|apply (Htx p); [apply elem_of_app; by left|done..]].
  cbn [rt_Expires with_expires]. destruct (Z.leb_spec (unix (t_sign (st_clock p) + ttl)) (unix now)); [done|].
  destruct (sameCall _ _) eqn:Es; [|done]. intros [= <-]. exists p, ctx', req', key, v, b, ttl. split_and!; try done.
Qed.

Lemma key_tool o key v b ttl : op_ok o → put_by o key v b ttl →
  match o with
  | OpConfirm _ _ _ => key ∈ confirming
  | OpChoose _ _ _ _ => key = nodeChoiceKey
  | OpEnter _ _ _ _ _ _ => key = entering
  | OpComplete _ _ _ _ => False
  end.
Proof. destruct o as [? ? [|]| | |]; cbn; naive_solver. Qed.

(** C9: a write goes through as confirmed only when a person confirmed it. The
    call brings an accepted form that says so, in answer to a question put
    before, under five minutes ago, to the same caller for the same tool and
    arguments, about the same version of the same resource as now; and a write
    goes through unconfirmed only for a client that cannot ask, and only while
    the deployment does not require it. *)
Theorem confirmed_by_person tr s pre st post ctx req build b :
  run tr s → unforged tr → texts tr → tr = pre ++ st :: post →
  st_op st = OpConfirm ctx req build → st_result st = RConfirm (inr b) →
  if b then
    ∃ question answer p ctx' req' question' token, build = inr question ∧
      InputResponses req !! Name_ req = Some answer ∧ Action answer = ElicitationResponseActionAccept ∧
      content_true answer confirmField = true ∧
      p ∈ pre ∧ st_op p = OpConfirm ctx' req' (inr question') ∧
      st_result p = RConfirm (inl (askToConfirm (Name_ req') question' token)) ∧ same_call ctx' req' ctx req ∧
      version question' = version question ∧ bind question' = bind question ∧
      unix (t_prior (st_clock st)) < unix (t_sign (st_clock p) + confirmationTTL)
  else requireConfirmation = false ∧ clientElicits ctx ElicitationModeForm = false.
Proof.
  intros Hh Hun Htx Etr Eop Eres. destruct (history_step _ _ _ _ _ Hh Etr) as (s1 & _ & seen & _ & _ & _ & Hok & Est).
  rewrite Est, Eop in Eres. cbn [step_of st_result] in Eres. injection Eres as Eres. destruct b.
  - apply confirm_true in Eres as (q & answer & prior & Eb & Ea & Ep & Eas & Eac & Ect).
    destruct (opened tr s pre st post ctx req (t_prior (st_clock st)) prior Hh Hun Htx Etr) as (p & ctx' & req' & key & v & bd & ttl & Hp & Hc & Hput & Ht & -> & Hs & Hx);
      [by rewrite Eop|exact Ep|].
    unfold asked_ in Eas. cbn in Eas. apply andb_true_iff in Eas as [[Ek%bool_decide_eq_true Ev%Z.eqb_eq]%andb_true_iff Ebd%bool_decide_eq_true].
    subst key v bd. pose proof Hp as Hp'. apply list_elem_of_split in Hp' as (l1 & l2 & El).
    destruct (history_step _ _ l1 p (l2 ++ st :: post) Hh) as (s2 & _ & seen' & _ & _ & _ & Hokp & Estp); [by rewrite Etr, El, <-app_assoc|].
    pose proof (key_tool _ _ _ _ _ Hokp Hput) as Hkey. rewrite Eop in Hok. cbn in Hok.
    destruct (st_op p) as [ctx2 req2 build2| | |] eqn:Eopp;
      [|rewrite Hkey in Hok; vm_compute in Hok; set_solver|rewrite Hkey in Hok; vm_compute in Hok; set_solver|done].
    cbn in Hc. injection Hc as -> ->. destruct build2 as [|q']; [done|]. destruct Hput as (_ & Ev & Ebd & ->).
    rewrite Estp in Ht. cbn [step_of st_result] in Ht. apply confirm_handed in Ht as (q2 & [= <-] & _ & Er).
    exists q, answer, p, ctx', req', q', (nextRoundLasting ctx' req' (Name_ req) (version q) (bind q) confirmationTTL (st_clock p)).
    split_and!; try done. rewrite Estp. cbn [step_of st_result]. by rewrite Er.
  - unfold confirm in Eres. destruct (clientElicits _ _); cbn [negb] in Eres; [|by destruct requireConfirmation].
    exfalso. revert Eres. destruct build as [|q]; [done|]. repeat (case_match; try done).
Qed.

(** ** What a person chose *)

Lemma sameCall_spec st other : sameCall st other = true ↔
  (rt_Subject st, rt_Provider st, rt_Tool st, rt_Args st) = (rt_Subject other, rt_Provider other, rt_Tool other, rt_Args other).
Proof. unfold sameCall. rewrite !andb_true_iff, !bool_decide_eq_true. split; [intros [[[-> ->] ->] ->]; done|by intros [= -> -> -> ->]]. Qed.

Lemma same_call_refl ctx req : same_call ctx req ctx req.
Proof. unfold same_call. by apply sameCall_spec. Qed.

Lemma same_call_trans ctx1 req1 ctx2 req2 ctx3 req3 :
  same_call ctx1 req1 ctx2 req2 → same_call ctx2 req2 ctx3 req3 → same_call ctx1 req1 ctx3 req3.
Proof. unfold same_call. rewrite !sameCall_spec. congruence. Qed.

(** In the steps [tr] the person behind this call gave a choice's value under
    its key, to a question put before with its binding. *)
Definition picked (tr : list Step) (ctx : CallContext) (req : CallToolRequest) (key : string) (c : choice) : Prop :=
  ∃ l1 a l2 ctx_a req_a answer q ctx_q req_q v ttl, tr = l1 ++ a :: l2 ∧
    call_of (st_op a) = Some (ctx_a, req_a) ∧ same_call ctx_a req_a ctx req ∧
    InputResponses req_a !! key = Some answer ∧ Action answer = ElicitationResponseActionAccept ∧
    default "" (content_string answer key) = ch_Value c ∧
    q ∈ l1 ∧ call_of (st_op q) = Some (ctx_q, req_q) ∧ same_call ctx_q req_q ctx req ∧ put_by (st_op q) key v (ch_Bind c) ttl ∧
    is_Some (handed (st_result q)).

Lemma picked_later tr tr' ctx req ctx' req' key c : same_call ctx req ctx' req' → picked tr ctx req key c → picked (tr ++ tr') ctx' req' key c.
Proof.
  intros Hs (l1 & a & l2 & ctx_a & req_a & answer & q & ctx_q & req_q & v & ttl & -> & Ha & Hsa & ? & ? & ? & ? & ? & Hsq & ? & ?).
  exists l1, a, (l2 ++ tr'), ctx_a, req_a, answer, q, ctx_q, req_q, v, ttl. rewrite <-app_assoc. split_and!; try done; by eapply same_call_trans.
Qed.

Lemma carried ctx req key v b clock k c : rt_Choices (next_state ctx req key v b clock) !! k = Some c →
  ∃ prior, priorRound ctx req (t_next clock) = Some prior ∧
    (rt_Choices prior !! k = Some c ∨ rt_Asked prior = k ∧ rt_Bind prior = ch_Bind c ∧ ∃ answer,
       InputResponses req !! k = Some answer ∧ Action answer = ElicitationResponseActionAccept ∧
       content_string answer k = Some (ch_Value c)).
Proof.
  unfold next_state. cbn [rt_Choices]. destruct (priorRound _ _ _) as [prior|]; [|by rewrite lookup_empty].
  intros Hl. exists prior. split; [done|]. revert Hl. unfold carriedChoices, ElicitationResponse. destruct (is_empty _); [by left|].
  destruct (InputResponses req !! rt_Asked prior) as [answer|] eqn:Ea; [|by left]. case_bool_decide as Eac; cbn [negb]; [|by left].
  destruct (content_string answer (rt_Asked prior)) as [w|] eqn:Ew; [|by left].
  intros [[<- <-]|[_ ?]]%lookup_insert_Some; [right|by left]. cbn. split_and!; eauto.
Qed.

Lemma choices_picked tr s : run tr s → unforged tr → texts tr → ∀ pre p post ctx req key v b k c,
  tr = pre ++ p :: post → call_of (st_op p) = Some (ctx, req) →
  rt_Choices (next_state ctx req key v b (st_clock p)) !! k = Some c → picked (pre ++ [p]) ctx req k c.
Proof.
  intros Hh Hun Htx pre. induction pre as [pre IH] using (induction_ltof1 _ (@length Step)). unfold ltof in IH.
  intros p post ctx req key v b k c Etr Hc (prior & Hprior & Hk)%carried.
  destruct (opened tr s pre p post ctx req _ prior Hh Hun Htx Etr Hc Hprior) as
    (q & ctx' & req' & key' & v' & b' & ttl' & Hq & Hcq & Hput & Hhq & -> & Hs & _).
  destruct Hk as [Hk|(Ek & Eb & answer & Ha & Hac & Hw)].
  - pose proof Hq as Hq'. apply list_elem_of_split in Hq' as (l1 & l2 & El).
    assert (picked (l1 ++ [q]) ctx' req' k c) as Hpick.
    { eapply (IH l1); [rewrite El, length_app; cbn; lia|by rewrite Etr, El, <-app_assoc|exact Hcq|exact Hk]. }
    apply (picked_later _ (l2 ++ [p]) _ _ _ _ _ _ Hs) in Hpick. rewrite El, <-app_assoc. cbn [app].
    rewrite <-app_assoc in Hpick. exact Hpick.
  - cbn in Ek, Eb. subst k b'. exists pre, p, [], ctx, req, answer, q, ctx', req', v', ttl'. rewrite Hw.
    split_and!; try done. apply same_call_refl.
Qed.

(** C30: what [choose] answers with is one of the options it was given, and a
    person chose it: somewhere in the run the same caller answered, for the
    same tool and arguments, with that value to a question put before over the
    same options, however many rounds have carried the answer since. *)
Theorem chosen_by_person tr s pre st post ctx req msg options v :
  run tr s → unforged tr → texts tr → tr = pre ++ st :: post →
  st_op st = OpChoose ctx req msg options → st_result st = RChoose (inr v) →
  let values := SortStrings (value <$> options) in
  v ∈ (value <$> options) ∧ ∃ l1 a l2 ctx_a req_a answer q ctx_q req_q msg' options' state,
    pre ++ [st] = l1 ++ a :: l2 ∧
    call_of (st_op a) = Some (ctx_a, req_a) ∧ same_call ctx_a req_a ctx req ∧
    InputResponses req_a !! nodeChoiceKey = Some answer ∧ Action answer = ElicitationResponseActionAccept ∧
    default "" (content_string answer nodeChoiceKey) = v ∧
    q ∈ l1 ∧ st_op q = OpChoose ctx_q req_q msg' options' ∧ handed (st_result q) = Some state ∧ same_call ctx_q req_q ctx req ∧
    Join (SortStrings (value <$> options')) "," = Join values ",".
Proof.
  intros Hh Hun Htx Etr Eop Eres values. destruct (history_step _ _ _ _ _ Hh Etr) as (s1 & _ & seen & _ & _ & _ & _ & Est).
  rewrite Est, Eop in Eres. cbn [step_of st_result] in Eres. injection Eres as Eres.
  apply choose_inr in Eres as (Hv & prior & Ep & Hc). fold values in Hv, Hc.
  split; [by rewrite <-(SortStrings_perm (value <$> options))|].
  assert (picked (pre ++ [st]) ctx req nodeChoiceKey (mkChoice (Join values ",") v)) as Hpick.
  { destruct (opened tr s pre st post ctx req (t_prior (st_clock st)) prior Hh Hun Htx Etr) as
      (q & ctx' & req' & key' & v' & b' & ttl' & Hq & Hcq & Hput & Hhq & -> & Hs & _); [by rewrite Eop|done|].
    destruct Hc as [Hc|[Has (answer & ? & ? & ?)]].
    - pose proof Hq as Hq'. apply list_elem_of_split in Hq' as (l1 & l2 & El).
      assert (picked (l1 ++ [q]) ctx' req' nodeChoiceKey (mkChoice (Join values ",") v)) as Hpick.
      { eapply (choices_picked tr s Hh Hun Htx) with (post := l2 ++ st :: post); [by rewrite Etr, El, <-app_assoc|done|exact Hc]. }
      apply (picked_later _ (l2 ++ [st]) _ _ _ _ _ _ Hs) in Hpick. rewrite El, <-app_assoc. cbn [app].
      rewrite <-app_assoc in Hpick. exact Hpick.
    - unfold asked_ in Has. cbn in Has. apply andb_true_iff in Has as [[Ek%bool_decide_eq_true _]%andb_true_iff Ebd%bool_decide_eq_true].
      subst key' b'. exists pre, st, [], ctx, req, answer, q, ctx', req', v', ttl'. rewrite Eop.
      split_and!; try done. apply same_call_refl. }
  destruct Hpick as (l1 & a & l2 & ctx_a & req_a & answer & q & ctx_q & req_q & v' & ttl & El & Ha & Hsa & Hr & Hac & Hw & Hq & Hcq & Hsq & Hput & [state Hst]).
  assert (op_ok (st_op q)) as Hokq.
  { pose proof Hq as Hq'. apply list_elem_of_split in Hq' as (k1 & k2 & Ek).
    destruct (history_step _ _ k1 q (k2 ++ a :: l2 ++ post) Hh) as (? & ? & ? & _ & _ & _ & Hok & _); [|exact Hok].
    rewrite Etr, (cons_middle st), app_assoc, El, Ek. by rewrite <-!app_assoc. }
  pose proof (key_tool _ _ _ _ _ Hokq Hput) as Hkey.
  destruct (st_op q) as [?|ctx_q' req_q' msg' options'| |] eqn:Eq;
    [vm_compute in Hkey; set_solver| |vm_compute in Hkey; done|done].
  cbn in Hcq. injection Hcq as -> ->. destruct Hput as (_ & _ & Ebd & _). cbn in Ebd.
  by exists l1, a, l2, ctx_a, req_a, answer, q, ctx_q, req_q, msg', options', state.
Qed.

(** ** Whose secret *)

Definition subject_of (ctx : CallContext) : string := default "" (Subject <$> ctx_identity ctx).

(** The steps that made an entry what it is. *)
Definition entry_from (tr : list Step) (id : string) (e : SecretEntry) : Prop :=
  ∃ l1 o l2 ctx req now, tr = l1 ++ o :: l2 ∧ st_op o = OpEnter ctx req (e_Name e) (e_Labels e) now id ∧ subject e = subject_of ctx ∧
    (SecretID e = "" ∨ ∃ c t, c ∈ l2 ∧ st_op c = OpComplete id (subject e) (SecretID e) t ∧ st_result c = RComplete None).

Lemma entry_from_later tr tr' id e : entry_from tr id e → entry_from (tr ++ tr') id e.
Proof.
  intros (l1 & o & l2 & ctx & req & now & -> & Ho & Hs & Hc). exists l1, o, (l2 ++ tr'), ctx, req, now. rewrite <-app_assoc.
  split_and!; try done. destruct Hc as [?|(c & t & ? & ? & ?)]; [by left|right]. exists c, t. split_and!; try done.
  apply elem_of_app. by left.
Qed.

Lemma entry_step_from tr s o clock seen id e : (∀ id e, s !! id = Some e → entry_from tr id e) →
  st_post (performed o clock seen s) !! id = Some e → entry_from (tr ++ [performed o clock seen s]) id e.
Proof.
  intros IH. destruct o as [ctx req build|ctx req msg options|ctx req name labels now nid|cid sub sid now]; cbn [step_of].
  - intros Hl. by apply entry_from_later, IH.
  - intros Hl. by apply entry_from_later, IH.
  - pose proof (enter_lookup ctx req name labels clock now nid seen s id e) as He.
    destruct (enter ctx req name labels clock now nid seen s) as [r s']. cbn [st_post snd] in *.
    intros [Hl|(-> & <- & <- & _ & Hsub & Hsec)]%He; [by apply entry_from_later, IH|].
    exists tr, (mkStep (OpEnter ctx req (e_Name e) (e_Labels e) now nid) clock (REnter r) s'), [], ctx, req, now.
    split_and!; [done..|by left].
  - pose proof (Complete_lookup cid sub sid now s id e) as Hc. destruct (Complete cid sub sid now s) as [r s']. cbn [st_post snd fst] in *.
    intros [Hl|(-> & -> & e0 & Hl & Hsub & _ & ->)]%Hc; [by apply entry_from_later, IH|].
    apply IH in Hl as (l1 & o & l2 & ctx & req & t & -> & Ho & Hs & _).
    set (c := mkStep (OpComplete cid sub sid now) clock (RComplete None) s'). exists l1, o, (l2 ++ [c]), ctx, req, t.
    rewrite <-app_assoc. split_and!; [done..|right]. exists c, now. split; [apply elem_of_app; right; apply list_elem_of_here|].
    cbn. by rewrite Hsub.
Qed.

Lemma entries_from tr s : run tr s → ∀ id e, s !! id = Some e → entry_from tr id e.
Proof.
  induction 1 as [|tr s tr0 seen o clock _ IH _ _ _ _]; [intros id e; unfold NewSecretEntries; by rewrite lookup_empty|].
  intros id e. by apply entry_step_from.
Qed.

(** C12: [create_secret] answers with a secret only when the caller's own person
    created it. The secret is the one the dashboard's create of the same
    subject completed an entry with, and that entry was opened by this subject
    under the name the answer gives, and named by a question put before to the
    same caller for the same tool and arguments. *)
Theorem entered_by_owner tr s pre st post ctx req name labels now id sid nm :
  run tr s → unforged tr → texts tr → tr = pre ++ st :: post →
  st_op st = OpEnter ctx req name labels now id → st_result st = REnter (inr (sid, nm)) →
  ∃ l1 o l2 ctx_o req_o labels_o now_o entry c t p ctx_p req_p, pre = l1 ++ o :: l2 ∧
    st_op o = OpEnter ctx_o req_o nm labels_o now_o entry ∧ subject_of ctx_o = subject_of ctx ∧ subject_of ctx ≠ "" ∧
    c ∈ l2 ∧ st_op c = OpComplete entry (subject_of ctx) sid t ∧ st_result c = RComplete None ∧
    p ∈ pre ∧ call_of (st_op p) = Some (ctx_p, req_p) ∧ same_call ctx_p req_p ctx req ∧
    handed (st_result p) = Some (nextRoundLasting ctx_p req_p entering 0 entry SecretEntryTTL (st_clock p)).
Proof.
  intros Hh Hun Htx Etr Eop Eres. destruct (history_step _ _ _ _ _ Hh Etr) as (s1 & tr0 & seen & _ & Hh0 & [k ->] & Hok & Est).
  rewrite Eop in Hok. cbn in Hok. rewrite Est, Eop in Eres. cbn [step_of] in Eres.
  pose proof (enter_inr ctx req name labels (st_clock st) now id seen s1 sid nm) as Hi.
  destruct (enter ctx req name labels (st_clock st) now id seen s1) as [r s2]. cbn [fst st_result] in *. injection Eres as ->.
  destruct (Hi eq_refl) as (prior & e & Ep & Eas & Ef & Esid & Hne & Enm). clear Hi.
  apply lookup_entry_inr in Ef as (Hl & _ & Hsub & Hsne). fold (subject_of ctx) in Hsub, Hsne.
  destruct (opened tr s (tr0 ++ k) st post ctx req (t_prior (st_clock st)) prior Hh Hun Htx Etr) as
    (p & ctx_p & req_p & key & v & b & ttl & Hp & Hcp & Hput & Hhp & -> & Hs & _); [by rewrite Eop|done|].
  cbn in Eas, Hl. subst key. apply (entries_from tr0 seen Hh0) in Hl.
  apply (entry_from_later tr0 k) in Hl as (l1 & o & l2 & ctx_o & req_o & now_o & El & Ho & Hso & Hc).
  destruct Hc as [Hc|(c & t & Hin & Hc & Hr)]; [congruence|]. rewrite Hsub, Esid in Hc. rewrite Enm in Ho.
  assert (v = 0 ∧ ttl = SecretEntryTTL) as [-> ->].
  { pose proof Hp as Hp'. apply list_elem_of_split in Hp' as (k1 & k2 & Ek).
    destruct (history_step _ _ k1 p (k2 ++ st :: post) Hh) as (? & ? & ? & _ & _ & _ & Hokp & _); [by rewrite Etr, Ek, <-app_assoc|].
    pose proof (key_tool _ _ _ _ _ Hokp Hput) as Hkey. rewrite Hok in Hkey.
    destruct (st_op p); [vm_compute in Hkey; set_solver|vm_compute in Hkey; done| |done]. by destruct Hput as (_ & -> & ->). }
  rewrite Hok in Hhp. exists l1, o, l2, ctx_o, req_o, (e_Labels e), now_o, b, c, t, p, ctx_p, req_p. split_and!; try done. congruence.
Qed.

(** A run in which clients echo only what they were given. *)
Lemma unforged_given tr :
  (∀ pre st post ctx req, tr = pre ++ st :: post → call_of (st_op st) = Some (ctx, req) →
    RequestState req = "" ∨ ∃ p, p ∈ pre ∧ handed (st_result p) = Some (RequestState req)) → unforged tr.
Proof.
  intros Hg pre st post ctx req payload Etr Hc Ha. destruct (Hg pre st post ctx req Etr Hc) as [E|(p & Hp & Hh)].
  - rewrite E in Ha. done.
  - exists p, (RequestState req). done.
Qed.
End laws.

(** * Closed examples *)

(** A codec to compute with: the states of one call that differ in what they
    bind, [f] of it. *)
Definition demo_codec (f : string → roundTripState) : StateCodec := {|
  r_b64 := escape; r_unb64 s := Some (unescape s); r_marshal := rt_Bind; r_unmarshal s := Some (f s);
  r_mac _ := "mac"; digest s := s |}.

Lemma demo_codec_laws f : @StateCodecLaws (demo_codec f) (λ st, st = f (rt_Bind st)).
Proof.
  split; cbn [r_b64 r_unb64 r_marshal r_unmarshal demo_codec].
  - intros s. by rewrite unescape_escape.
  - exact escape_no_dot.
  - intros st E. by rewrite <-E.
Qed.

Definition demo_identity (subject : string) : Identity := mkIdentity subject "" "" [] "oauth" None 0 "".

Definition demo_context (subject mode : string) : CallContext :=
  mkContext (Some (mkProtocol true (Some (Some (mkCapability true true))))) None (Some (demo_identity subject)).

Definition demo_clock (t : Z) : Clock := mkClock t t t.

Definition demo_call (tool args state : string) (answers : gmap string ElicitationResult) : CallToolRequest :=
  mkCall tool (Some args) ∅ state answers.

Definition yes : ElicitationResult := mkAnswer "accept" (Some {[ "confirm" := JBool true; "node" := JString "n2" ]}).

(** ** A confirmed removal *)

Definition removal_state (bind : string) : roundTripState := mkRound "alice" "oauth" "remove_volume" "{}" "remove_volume" 7 bind ∅ 301.

Definition removal_question : confirmation := mkConfirmation "volume:data" "Remove data?" 7 "data" "{}".

Definition demo_step (f : string → roundTripState) (o : op) (t : Z) (seen s : SecretEntries) : Step :=
  step_of (H := demo_codec f) "https://c" id id true o (demo_clock t) seen s.

Definition given (p : Step) : string := default "" (handed (st_result p)).

Definition removal_op (state : string) (answers : gmap string ElicitationResult) : op :=
  OpConfirm (demo_context "alice" "form") (demo_call "remove_volume" "{}" state answers) (inr removal_question).

Definition removal_step1 : Step := demo_step removal_state (removal_op "" ∅) 1000000000 ∅ ∅.
Definition removal_step2 : Step :=
  demo_step removal_state (removal_op (given removal_step1) {[ "remove_volume" := yes ]}) 2000000000 ∅ ∅.

Abbreviation demo_history_run f := (history (H := demo_codec f) "https://c" id id true).

(** A run is its steps, each on the store the last one left. *)
Lemma demo_snoc f tr s st s' o t : demo_history_run f tr s → op_ok o → st = demo_step f o t s s → st_post st = s' →
  demo_history_run f (tr ++ [st]) s'.
Proof. intros Hr Ho -> <-. by apply (history_snoc (H := demo_codec f) _ _ _ _ tr s tr s o (demo_clock t)). Qed.

Lemma removal_run : demo_history_run removal_state [removal_step1; removal_step2] ∅.
Proof.
  apply (demo_snoc removal_state [removal_step1] ∅ _ _ (st_op removal_step2) 2000000000); [|vm_compute; set_solver|done|done].
  apply (demo_snoc removal_state [] ∅ _ _ (st_op removal_step1) 1000000000); [constructor|vm_compute; set_solver|done|done].
Qed.

Lemma removal_unforged : unforged (H := demo_codec removal_state) [removal_step1; removal_step2].
Proof.
  apply unforged_given.
  intros [|p1 [|p2 pre]] st post ctx req E; simplify_eq/=.
  - intros [= <- <-]. by left.
  - intros [= <- <-]. right. exists removal_step1. split; [apply list_elem_of_here|by vm_compute].
  - by destruct pre.
Qed.

Lemma removal_texts :
  texts (H := demo_codec removal_state) (state_text := λ st, st = removal_state (rt_Bind st)) [removal_step1; removal_step2].
Proof.
  intros p ctx req key v b ttl Hp Hc Hput Hh. apply elem_of_cons in Hp as [->|Hp].
  - injection Hc as <- <-. destruct Hput as (-> & -> & -> & ->). by vm_compute.
  - apply list_elem_of_singleton in Hp as ->. vm_compute in Hh. done.
Qed.

Lemma confirmed_by_person_witness :
  st_result removal_step2 = RConfirm (inr true) ∧
  ∃ p q token, p ∈ [removal_step1] ∧ st_result p = RConfirm (inl (askToConfirm "remove_volume" q token)) ∧ version q = 7 ∧ bind q = "data".
Proof.
  assert (st_result removal_step2 = RConfirm (inr true)) as Er by (vm_compute; reflexivity). split; [exact Er|].
  destruct (@confirmed_by_person (demo_codec removal_state) _ (demo_codec_laws removal_state) "https://c" id id true
    [removal_step1; removal_step2] ∅ [removal_step1] removal_step2 [] _ _ _ true removal_run removal_unforged removal_texts
    eq_refl eq_refl Er) as (q & answer & p & ctx' & req' & q' & token & Eb & _ & _ & _ & Hp & _ & Hr & Hs & Ev & Ebd & _).
  injection Eb as <-. exists p, q', token. apply sameCall_spec in Hs. injection Hs as _ _ Et _.
  split; [exact Hp|]. split; [|by split]. rewrite Hr. revert Et. unfold callState. by destruct (ctx_identity ctx'); cbn; intros ->.
Defined.

(** A refusal, another answer, another caller and a late answer go through to
    nothing but a refusal or the question again. *)
Example removal_refused :
  let asked := given removal_step1 in
  let step subject tool answer t := st_result (demo_step removal_state
    (OpConfirm (demo_context subject "form") (demo_call tool "{}" asked {[ "remove_volume" := answer ]}) (inr removal_question)) t ∅ ∅) in
  step "alice" "remove_volume" (mkAnswer "accept" (Some {[ "confirm" := JString "yes" ]})) 2000000000 =
    RConfirm (inl (Outcome (Declined "{}" "Nothing was changed: the person declined the confirmation."))) ∧
  handed (step "mallory" "remove_volume" yes 2000000000) ≠ None ∧
  handed (step "alice" "remove_volume" yes 301000000000) ≠ None.
Proof. vm_compute. done. Qed.

(** ** A chosen node *)

Definition choice_state (bind : string) : roundTripState := mkRound "alice" "oauth" "update_node" "{}" "node" 0 bind ∅ 301.

Definition choice_op (state : string) (answers : gmap string ElicitationResult) : op :=
  OpChoose (demo_context "alice" "form") (demo_call "update_node" "{}" state answers) "Which one?" [mkOption "n2" "n2"; mkOption "n1" "n1"].

Definition choice_step1 : Step := demo_step choice_state (choice_op "" ∅) 1000000000 ∅ ∅.
Definition choice_step2 : Step := demo_step choice_state (choice_op (given choice_step1) {[ "node" := yes ]}) 2000000000 ∅ ∅.

Lemma choice_run : demo_history_run choice_state [choice_step1; choice_step2] ∅.
Proof.
  apply (demo_snoc choice_state [choice_step1] ∅ _ _ (st_op choice_step2) 2000000000); [|done..].
  apply (demo_snoc choice_state [] ∅ _ _ (st_op choice_step1) 1000000000); [constructor|done..].
Qed.

Lemma choice_unforged : unforged (H := demo_codec choice_state) [choice_step1; choice_step2].
Proof.
  apply unforged_given.
  intros [|p1 [|p2 pre]] st post ctx req E; simplify_eq/=.
  - intros [= <- <-]. by left.
  - intros [= <- <-]. right. exists choice_step1. split; [apply list_elem_of_here|by vm_compute].
  - by destruct pre.
Qed.

Lemma choice_texts :
  texts (H := demo_codec choice_state) (state_text := λ st, st = choice_state (rt_Bind st)) [choice_step1; choice_step2].
Proof.
  intros p ctx req key v b ttl Hp Hc Hput Hh. apply elem_of_cons in Hp as [->|Hp].
  - injection Hc as <- <-. destruct Hput as (-> & -> & -> & ->). by vm_compute.
  - apply list_elem_of_singleton in Hp as ->. vm_compute in Hh. done.
Qed.

Lemma chosen_by_person_witness :
  st_result choice_step2 = RChoose (inr "n2") ∧
  ∃ a ctx req answer, a ∈ [choice_step1; choice_step2] ∧ call_of (st_op a) = Some (ctx, req) ∧
    InputResponses req !! nodeChoiceKey = Some answer ∧ default "" (content_string answer nodeChoiceKey) = "n2".
Proof.
  assert (st_result choice_step2 = RChoose (inr "n2")) as Er by (vm_compute; reflexivity). split; [exact Er|].
  destruct (@chosen_by_person (demo_codec choice_state) _ (demo_codec_laws choice_state) "https://c" id id true
    [choice_step1; choice_step2] ∅ [choice_step1] choice_step2 [] _ _ _ _ "n2" choice_run choice_unforged choice_texts
    eq_refl eq_refl Er) as (_ & l1 & a & l2 & ctx & req & answer & q & ? & ? & ? & ? & ? & El & Ha & _ & Hr & _ & Hw & _).
  exists a, ctx, req, answer. split; [|by split_and!]. change [choice_step1; choice_step2] with ([choice_step1] ++ [choice_step2]).
  rewrite El. apply elem_of_app. right. apply list_elem_of_here.
Defined.

(** ** An entered secret *)

Definition entry_state (bind : string) : roundTripState := mkRound "alice" "oauth" "create_secret" "{}" "create_secret" 0 bind ∅ 901.

Definition entry_op_ (state : string) (now : Z) : op :=
  OpEnter (demo_context "alice" "url") (demo_call "create_secret" "{}" state ∅) "db" ∅ (now, now, now) "e1".

Definition entry_step1 : Step := demo_step entry_state (entry_op_ "" 1000000000) 1000000000 ∅ ∅.
Definition entry_step2 : Step :=
  demo_step entry_state (OpComplete "e1" "alice" "sec1" 2000000000) 2000000000 (st_post entry_step1) (st_post entry_step1).
Definition entry_step3 : Step :=
  demo_step entry_state (entry_op_ (given entry_step1) 3000000000) 3000000000 (st_post entry_step2) (st_post entry_step2).

Lemma entry_run : demo_history_run entry_state [entry_step1; entry_step2; entry_step3] ∅.
Proof.
  apply (demo_snoc entry_state [entry_step1; entry_step2] (st_post entry_step2) _ _ (st_op entry_step3) 3000000000); [|done..].
  apply (demo_snoc entry_state [entry_step1] (st_post entry_step1) _ _ (st_op entry_step2) 2000000000); [|done..].
  apply (demo_snoc entry_state [] ∅ _ _ (st_op entry_step1) 1000000000); [constructor|done..].
Qed.

Lemma entry_unforged : unforged (H := demo_codec entry_state) [entry_step1; entry_step2; entry_step3].
Proof.
  apply unforged_given.
  intros [|p1 [|p2 [|p3 pre]]] st post ctx req E; simplify_eq/=.
  - intros [= <- <-]. by left.
  - done.
  - intros [= <- <-]. right. exists entry_step1. split; [apply list_elem_of_here|by vm_compute].
  - by destruct pre.
Qed.

Lemma entry_texts :
  texts (H := demo_codec entry_state) (state_text := λ st, st = entry_state (rt_Bind st)) [entry_step1; entry_step2; entry_step3].
Proof.
  intros p ctx req key v b ttl Hp Hc Hput Hh. apply elem_of_cons in Hp as [->|[->|Hp%list_elem_of_singleton]%elem_of_cons].
  - injection Hc as <- <-. destruct Hput as (-> & -> & ->). by vm_compute.
  - done.
  - subst p. vm_compute in Hh. done.
Qed.

Lemma entered_by_owner_witness :
  st_result entry_step3 = REnter (inr ("sec1", "db")) ∧
  ∃ c entry t, c ∈ [entry_step1; entry_step2] ∧ st_op c = OpComplete entry "alice" "sec1" t ∧ st_result c = RComplete None.
Proof.
  assert (st_result entry_step3 = REnter (inr ("sec1", "db"))) as Er by (vm_compute; reflexivity). split; [exact Er|].
  destruct (@entered_by_owner (demo_codec entry_state) _ (demo_codec_laws entry_state) "https://c" id id true
    [entry_step1; entry_step2; entry_step3] ∅ [entry_step1; entry_step2] entry_step3 [] _ _ _ _ _ _ "sec1" "db"
    entry_run entry_unforged entry_texts eq_refl eq_refl Er)
    as (l1 & o & l2 & ctx & req & labels & now & entry & c & t & p & ctx_p & req_p & El & _ & _ & _ & Hc & Hop & Hr & _).
  exists c, entry, t. split; [|by split]. rewrite El. apply elem_of_app. right. by apply list_elem_of_further.
Defined.
