(* ===== verification/McpTasks.v ===== *)
(** The bounds on what an MCP call leaves running: the retention and owners of
    tasks of internal/mcp/tasks.go, and the waits of internal/mcp/watch.go.

    mcp-go keeps the tasks; the program bounds how long, and keeps who created
    each. A timer is a pair of a task and when it is due. *)
From S2P Require Import Prelude GoStrings AclPolicy.
#[local] Open Scope string_scope.
#[local] Open Scope Z_scope.
#[local] Open Scope list_scope.

(** * How long a result is kept *)

Definition Milliseconds (d : Z) : Z := Z.quot d 1000000.

(** A task's TTL is a pointer to milliseconds, a call's task too: what becomes
    of it, and whether the request was cut down. *)
Definition boundTaskTTL (task : option (option Z)) (def ceiling : Z) : option (option Z) * bool :=
  match task with
  | None => (None, false)
  | Some ttl =>
      let ttl := if (0 <? def) && match ttl with None => true | Some t => t <=? 0 end then Some (Milliseconds def) else ttl in
      match ttl with
      | Some t => if (ceiling <=? 0) || (t <=? Milliseconds ceiling) then (Some ttl, false) else (Some (Some (Milliseconds ceiling)), true)
      | None => (Some None, false)
      end
  end.

(** * Whose task *)

Record TaskConfig := mkTaskConfig { TaskTTL : Z; MaxTaskTTL : Z }.

Definition taskOwnerRetention (cfg : TaskConfig) : Z :=
  if (TaskTTL cfg <=? 0) || (MaxTaskTTL cfg <=? 0) then 0 else MaxTaskTTL cfg.

Definition nul : string := String "000" "".

Definition taskOwner (id : option Identity) : string :=
  match id with None => "" | Some id => Provider id +:+ nul +:+ Subject id end.

Record taskOwners := mkOwners { owners : gmap string string; timers : list (string * Z) }.

Definition record (taskID owner : string) (retention now : Z) (o : taskOwners) : taskOwners :=
  mkOwners (<[taskID := owner]> (owners o)) (if 0 <? retention then timers o ++ [(taskID, now + retention)] else timers o).

Definition owns (taskID caller : string) (o : taskOwners) : bool :=
  match owners o !! taskID with Some owner => bool_decide (owner = caller) | None => false end.

(** The task a request about one is served: the named one, or the ID mcp-go
    never issues. *)
Definition hide (o : taskOwners) (caller : option Identity) (taskID : string) : string :=
  if owns taskID (taskOwner caller) o then taskID else "".

(** The timer at [k] fires, once it is due. *)
Definition fire (k : nat) (now : Z) (o : taskOwners) : taskOwners :=
  match timers o !! k with
  | Some (taskID, due) => if due <=? now then mkOwners (delete taskID (owners o)) (delete k (timers o)) else o
  | None => o
  end.

Inductive task_event :=
| Created (taskID : string) (creator : option Identity)
| Fired (k : nat).

Definition task_step (cfg : TaskConfig) (o : taskOwners) (e : task_event * Z) : taskOwners :=
  match e.1 with
  | Created taskID creator => record taskID (taskOwner creator) (taskOwnerRetention cfg) e.2 o
  | Fired k => fire k e.2 o
  end.

Definition task_run (cfg : TaskConfig) (es : list (task_event * Z)) : taskOwners := foldl (task_step cfg) (mkOwners ∅ []) es.

Definition created_id (e : task_event * Z) : option string :=
  match e.1 with Created id _ => Some id | Fired _ => None end.

(** * Waits *)

Definition maxWatchTimeout : Z := 300000000000.
Definition defaultWatchTimeout : Z := 60000000000.
Definition maxConcurrentWatches : nat := 16.

(** [timeout] is the argument the call names, an int. *)
Definition watchTimeout (arg : option Z) : Z :=
  let timeout := wrap_int64 (default 60 arg * 1000000000) in
  if timeout <=? 0 then defaultWatchTimeout
  else if maxWatchTimeout <? timeout then maxWatchTimeout
  else timeout.

(** The slots taken of a channel of [maxConcurrentWatches], [None] without it. *)
Definition claimWatch (watches : option nat) : option (option nat) :=
  match watches with
  | None => Some None
  | Some n => if (n <? maxConcurrentWatches)%nat then Some (Some (S n)) else None
  end.

Definition releaseWatch (watches : option nat) : option nat := pred <$> watches.

(** * What holds *)

(** A wait is never longer than the ceiling, nor without an end; and it is the
    seconds asked for, within it, when their nanoseconds are an int64. *)
Lemma watchTimeout_bounds arg : 0 < watchTimeout arg ≤ maxWatchTimeout.
Proof.
  unfold watchTimeout, maxWatchTimeout, defaultWatchTimeout. set (t := wrap_int64 _).
  destruct (Z.leb_spec t 0); [lia|]. destruct (Z.ltb_spec 300000000000 t); lia.
Qed.

Lemma watchTimeout_seconds n : 0 < n ≤ max_int64 / 1000000000 → watchTimeout (Some n) = Z.min (n * 1000000000) maxWatchTimeout.
Proof.
  intros Hn. unfold watchTimeout, maxWatchTimeout. cbn [default from_option]. change (id n) with n.
  assert (wrap_int64 (n * 1000000000) = n * 1000000000) as ->.
  { unfold wrap_int64. rewrite Z.mod_small; [lia|]. change (max_int64 / 1000000000) with 9223372036 in Hn. lia. }
  destruct (Z.leb_spec (n * 1000000000) 0); [lia|]. destruct (Z.ltb_spec 300000000000 (n * 1000000000)); lia.
Qed.

(** Past that the product wraps: 18446744074 seconds are a wait of 0.29. *)
Example watchTimeout_wraps : watchTimeout (Some 18446744074) = 290448384 ∧ watchTimeout (Some 9223372037) = defaultWatchTimeout.
Proof. vm_compute. done. Qed.

Lemma NoDup_snoc {A} (l : list A) x : NoDup (l ++ [x]) ↔ NoDup l ∧ x ∉ l.
Proof. rewrite NoDup_app. split; [intros (? & Hd & _); split; [done|]; intros Hx; apply (Hd x Hx), list_elem_of_here|].
  intros [? Hx]. split_and!; [done| |apply NoDup_singleton]. by intros y Hy ->%list_elem_of_singleton. Qed.

(** A record is a creation's, and its timer is due a retention later. *)
Record owners_ok (cfg : TaskConfig) (es : list (task_event * Z)) (o : taskOwners) : Prop := {
  oo_from : ∀ id owner, owners o !! id = Some owner → ∃ c t, (Created id c, t) ∈ es ∧ owner = taskOwner c;
  oo_timer : ∀ id due, (id, due) ∈ timers o → ∃ c t, (Created id c, t) ∈ es ∧ due = t + taskOwnerRetention cfg ∧ 0 < taskOwnerRetention cfg;
  oo_held : ∀ id c t, (Created id c, t) ∈ es → owners o !! id = None → 0 < taskOwnerRetention cfg ∧
    ∃ k t', (Fired k, t') ∈ es ∧ t + taskOwnerRetention cfg ≤ t';
}.

Lemma created_unique (es : list (task_event * Z)) id c t c' t' : NoDup (omap created_id es) →
  (Created id c, t) ∈ es → (Created id c', t') ∈ es → c = c' ∧ t = t'.
Proof.
  induction es as [|e es IH]; [by intros _ ?%not_elem_of_nil|]. intros Hnd [He|H1]%elem_of_cons [He'|H2]%elem_of_cons.
  - rewrite <-He in He'. by injection He'.
  - exfalso. subst e. cbn in Hnd. apply NoDup_cons in Hnd as [Hn _]. apply Hn, list_elem_of_omap. by exists (Created id c', t').
  - exfalso. subst e. cbn in Hnd. apply NoDup_cons in Hnd as [Hn _]. apply Hn, list_elem_of_omap. by exists (Created id c, t).
  - apply IH; [|done..]. cbn in Hnd. destruct (created_id e); [by apply NoDup_cons in Hnd as [_ ?]|done].
Qed.

Lemma task_run_ok cfg es : NoDup (omap created_id es) → owners_ok cfg es (task_run cfg es).
Proof.
  induction es as [|[e now] es IH] using rev_ind; intros Hnd.
  - split; cbn; [intros id owner; by rewrite lookup_empty|by intros ?? ?%not_elem_of_nil|by intros ??? ?%not_elem_of_nil].
  - unfold task_run in *. rewrite foldl_app. cbn [foldl]. set (o := foldl _ _ es) in *. rewrite omap_app in Hnd.
    destruct e as [id c|k]; cbn in Hnd.
    + apply NoDup_snoc in Hnd as [Hnd Hnew]. destruct (IH Hnd) as [Hf Ht Hh]. unfold task_step, record. cbn [fst snd]. split; cbn.
      * intros id' owner [[<- <-]|[_ Hl]]%lookup_insert_Some; [exists c, now; set_solver|].
        destruct (Hf _ _ Hl) as (c' & t & ? & ?). exists c', t. set_solver.
      * intros id' due Hin. assert ((id', due) ∈ timers o ∨ (id', due) = (id, now + taskOwnerRetention cfg) ∧ 0 < taskOwnerRetention cfg) as [Hold|[[= -> ->] ?]].
        { destruct (Z.ltb_spec 0 (taskOwnerRetention cfg)); [|by left]. apply elem_of_app in Hin as [?|?%list_elem_of_singleton]; auto. }
        -- destruct (Ht _ _ Hold) as (c' & t & ? & ? & ?). exists c', t. set_solver.
        -- exists c, now. set_solver.
      * intros id' c' t' Hin Hl. apply lookup_insert_None in Hl as [Hl Hne].
        assert ((Created id' c', t') ∈ es) as Hin' by (apply elem_of_app in Hin as [?|[= -> _ _]%list_elem_of_singleton]; done).
        destruct (Hh _ _ _ Hin' Hl) as (? & k & t2 & ? & ?). split; [done|]. exists k, t2. set_solver.
    + rewrite app_nil_r in Hnd. destruct (IH Hnd) as [Hf Ht Hh]. unfold task_step. cbn [fst snd].
      assert (owners_ok cfg (es ++ [(Fired k, now)]) o) as Hsame.
      { split.
        - intros ?? (c & t & ? & ?)%Hf. exists c, t. set_solver.
        - intros ?? (c & t & ? & ? & ?)%Ht. exists c, t. set_solver.
        - intros id c t Hin Hl. assert ((Created id c, t) ∈ es) as Hin' by set_solver.
          destruct (Hh _ _ _ Hin' Hl) as (? & k' & t2 & ? & ?). split; [done|]. exists k', t2. set_solver. }
      unfold fire. destruct (timers o !! k) as [[id due]|] eqn:Ek; [|done]. destruct (Z.leb_spec due now); [|done].
      destruct Hsame as [Hf' Ht' Hh']. split; cbn.
      * intros id' owner [_ ?]%lookup_delete_Some. by apply Hf'.
      * intros id' due' Hin. apply Ht'. by eapply list_elem_of_delete_inv.
      * intros id' c t Hin Hl. apply lookup_delete_None in Hl as [<-|Hl]; [|by eapply Hh'].
        apply list_elem_of_lookup_2 in Ek. destruct (Ht _ _ Ek) as (c2 & t2 & Hin2 & -> & ?). split; [done|].
        assert ((Created id c, t) ∈ es) as Hin' by set_solver. destruct (created_unique es id c t c2 t2 Hnd Hin' Hin2) as [_ <-].
        exists k, now. set_solver.
Qed.

(** Two identities have one key only if subject and provider are the same:
    a provider's name holds no NUL. *)
Lemma taskOwner_inj a b : IndexByte (Provider a) "000" = None → IndexByte (Provider b) "000" = None →
  taskOwner (Some a) = taskOwner (Some b) → Provider a = Provider b ∧ Subject a = Subject b.
Proof.
  intros Ha Hb E. unfold taskOwner, nul in E. cbn [String.append] in E.
  pose proof (Cut_byte "000" (Provider a) (Subject a) Ha) as Ca. pose proof (Cut_byte "000" (Provider b) (Subject b) Hb) as Cb.
  cbn in Ca, Cb, E. rewrite E in Ca. split; congruence.
Qed.

(** C29: a task is its creator's alone, and for as long as it is kept. In every
    run in which the library draws its IDs afresh, a request for a task is
    served it only for the caller that created it; and its creator is served it
    at least while its result is kept: the retention a call is left with ends
    before its record does; and a result the library would keep for good, having
    no TTL or none above zero, keeps its record for good, unless a bound is
    configured below the millisecond TTLs are counted in. *)
Theorem tasks_private cfg es id creator t ttl : NoDup (omap created_id es) → (Created id creator, t) ∈ es → id ≠ "" →
  let o := task_run cfg es in
  (∀ caller, hide o caller id = id → taskOwner caller = taskOwner creator) ∧
  (∀ kept now, (boundTaskTTL (Some ttl) (TaskTTL cfg) (MaxTaskTTL cfg)).1 = Some (Some kept) →
    now < t + kept * 1000000 → Forall (λ e, e.2 ≤ now) es → hide o creator id = id) ∧
  (∀ kept, (boundTaskTTL (Some ttl) (TaskTTL cfg) (MaxTaskTTL cfg)).1 = Some kept → default 0 kept ≤ 0 →
    (TaskTTL cfg ≤ 0 ∨ 1000000 ≤ TaskTTL cfg) → (MaxTaskTTL cfg ≤ 0 ∨ 1000000 ≤ MaxTaskTTL cfg) → hide o creator id = id).
Proof.
  intros Hnd Hin Hid o. destruct (task_run_ok cfg es Hnd) as [Hf _ Hh]. fold o in Hf, Hh.
  assert (owners o !! id = None ∨ owners o !! id = Some (taskOwner creator)) as Ho.
  { destruct (owners o !! id) as [ow|] eqn:E; [right|by left]. destruct (Hf _ _ E) as (c & t' & Hin' & ->).
    by destruct (created_unique es id creator t c t' Hnd Hin Hin') as [-> _]. }
  unfold hide, owns. split_and!.
  - intros caller. destruct Ho as [->| ->]; [intros E; by destruct Hid|]. case_bool_decide as E; [done|intros E'; by destruct Hid].
  - intros kept now Hk Hnow Hall. destruct Ho as [Hl| ->]; [exfalso|by rewrite bool_decide_true].
    destruct (Hh _ _ _ Hin Hl) as (Hpos & k & t' & Hfi & Hdue). rewrite Forall_forall in Hall. specialize (Hall _ Hfi). cbn in Hall.
    revert Hk Hpos Hdue. unfold boundTaskTTL, taskOwnerRetention.
    destruct (Z.leb_spec (TaskTTL cfg) 0); cbn [orb]; [lia|]. destruct (Z.leb_spec (MaxTaskTTL cfg) 0); cbn [orb]; [lia|].
    assert (Milliseconds (MaxTaskTTL cfg) * 1000000 ≤ MaxTaskTTL cfg) as Hm.
    { unfold Milliseconds. rewrite Z.quot_div_nonneg by lia. pose proof (Z.mul_div_le (MaxTaskTTL cfg) 1000000). lia. }
    set (ttl' := if _ && _ then _ else _). destruct ttl' as [x|]; [|done]. destruct (Z.leb_spec x (Milliseconds (MaxTaskTTL cfg))); cbn;
      intros [= <-]; nia.
  - intros kept Hk Hend Hd Hc. destruct Ho as [Hl| ->]; [exfalso|by rewrite bool_decide_true].
    destruct (Hh _ _ _ Hin Hl) as (Hpos & _). revert Hk Hend Hpos. unfold boundTaskTTL, taskOwnerRetention.
    destruct (Z.leb_spec (TaskTTL cfg) 0); cbn [orb]; [lia|]. destruct (Z.leb_spec (MaxTaskTTL cfg) 0); cbn [orb]; [lia|].
    assert (0 < Milliseconds (TaskTTL cfg) ∧ 0 < Milliseconds (MaxTaskTTL cfg)) as [? ?].
    { unfold Milliseconds. rewrite !Z.quot_div_nonneg by lia. split; apply Z.div_str_pos; lia. }
    rewrite (proj2 (Z.ltb_lt 0 (TaskTTL cfg))) by lia. cbn [andb]. destruct ttl as [x|].
    + destruct (Z.leb_spec x 0); case_match; intros [= <-]; cbn; lia.
    + case_match; intros [= <-]; cbn; lia.
Qed.

Definition demo_alice : Identity := mkIdentity "alice" "" "" [] "oauth" None 0 "".
Definition demo_mallory : Identity := mkIdentity "alice" "" "" [] "oidc" None 0 "".

Lemma tasks_private_witness :
  let cfg := mkTaskConfig 5000000000 9000000000 in
  let es := [(Created "t1" (Some demo_alice), 0); (Fired 0, 6000000000); (Created "t2" (Some demo_mallory), 6000000001)] in
  hide (task_run cfg es) (Some demo_alice) "t1" = "t1" ∧ hide (task_run cfg es) (Some demo_mallory) "t1" ≠ "t1".
Proof.
  intros cfg es. destruct (tasks_private cfg es "t1" (Some demo_alice) 0 (Some 7000)) as (Hown & Hkept & _);
    [vm_compute; repeat constructor; set_solver|apply list_elem_of_here|discriminate|].
  split.
  - apply (Hkept 7000 6500000000); [reflexivity|vm_compute; reflexivity|repeat constructor; vm_compute; discriminate].
  - intros E. apply Hown in E. vm_compute in E. discriminate.
Defined.
