(* ===== verification/ApiRoutes.v ===== *)
(** The routes of the HTTP API: the table internal/api/router.go registers, the
    chains of internal/api/allow.go each write route runs behind, and how
    net/http's ServeMux finds the route of a request.

    A handler is its name. A path is the list of its segments, unescaped, with
    a segment of one slash for a trailing one, as the mux takes it apart; the
    catch-all route keeps the mux from redirecting. What the identity provider
    and the authorization server register themselves is in the configuration,
    and profiling is left off. *)
From S2P Require Import Prelude GoStrings GoStrconv HostAccess ClusterWrites Negotiate.
#[local] Open Scope string_scope.
#[local] Open Scope Z_scope.
#[local] Open Scope list_scope.

(** * Patterns *)

Inductive segment := Lit (s : string) | Wild (name : string) | Multi (name : string).

#[global] Instance segment_eq_dec : EqDecision segment.
Proof. solve_decision. Defined.

Definition parse_segment (s : string) : segment :=
  match CutPrefix s "{" with
  | None => Lit s
  | Some rest =>
      let name := TrimSuffix rest "}" in
      if bool_decide (name = "$") then Lit "/"
      else if HasSuffix name "..." then Multi (TrimSuffix name "...") else Wild name
  end.

(** The segments of a path that begins with a slash. *)
Definition slash_segments (path : string) : list string :=
  let parts := split_byte "/" (TrimPrefix path "/") in
  match last parts with
  | Some "" => removelast parts ++ ["/"]
  | _ => parts
  end.

(** A trailing slash in a pattern takes any rest. *)
Definition parse_path (path : string) : list segment :=
  (λ s, if bool_decide (s = "/") then Multi "" else parse_segment s) <$> slash_segments path.

(** A pattern's method, empty for any, and its path. *)
Definition parse_pattern (pattern : string) : string * list segment :=
  match Cut pattern " " with
  | (method, path, true) => (method, parse_path path)
  | _ => ("", parse_path pattern)
  end.

(** * Chains *)

(** What a write is checked against: the record its id names, a type and a
    path value, the whole of a type, or the swarm. *)
Inductive resource_of :=
| WriteResourceOf (kind : string)
| PathResource (resourceType pathKey : string)
| WildcardResource (resourceType : string)
| SwarmResource.

(** The functions of a request that say whether it holds the grant. *)
Inductive permits_by := MayCreate | MayOpenExec | MayEndExec | MayAnnotate | MayEditAnnotation.

(** The gates of a chain: the write grant on a resource and the level; the
    level alone, with what permits it; or neither. *)
Inductive gates :=
| GrantAndLevel (resource : resource_of)
| LevelOnly (permits : permits_by)
| NoGates (permits : permits_by).

(** What evaluates the preconditions of a write: nothing, the subject's being
    there, or the representation its path serves. *)
Inductive condition :=
| Unconditional
| Unrepresented (subject : string)
| OnRepresentation (representation : string).

Record tieredChain := mkChain {
  tc_gates : gates;
  tc_condition : condition;
  tc_level : Z;
  tc_acceptPatch : string;
  tc_noContent : bool;
  tc_bodyAlways : bool;
}.

Definition AcceptPatch : string := "application/json-patch+json, application/merge-patch+json".
Definition AcceptMergePatch : string := "application/merge-patch+json".

Definition tiered (resource : resource_of) (level : Z) : tieredChain :=
  mkChain (GrantAndLevel resource) Unconditional level "" false false.

Definition operation (resource : resource_of) (op : Operation) : tieredChain := tiered resource (Tier op).

Definition createOp (op : Operation) : tieredChain := mkChain (LevelOnly MayCreate) Unconditional (Tier op) "" false false.

Definition Append (c : condition) (t : tieredChain) : tieredChain :=
  mkChain (tc_gates t) c (tc_level t) (tc_acceptPatch t) (tc_noContent t) (tc_bodyAlways t).

Definition AnswersWithABody (t : tieredChain) : tieredChain :=
  mkChain (tc_gates t) (tc_condition t) (tc_level t) (tc_acceptPatch t) (tc_noContent t) true.

Definition TakesJSONPatch (t : tieredChain) : tieredChain :=
  mkChain (tc_gates t) (tc_condition t) (tc_level t) AcceptPatch (tc_noContent t) (tc_bodyAlways t).

Definition AnswersNoContent (t : tieredChain) : tieredChain :=
  mkChain (tc_gates t) (tc_condition t) (tc_level t) (tc_acceptPatch t) true (tc_bodyAlways t).

Definition precond (representation : string) : condition := OnRepresentation representation.

Definition annotationWrite (permits : permits_by) : tieredChain := mkChain (NoGates permits) Unconditional OpsReadOnly "" false false.

Definition annotationEdit : tieredChain := Append (OnRepresentation "annotationValidator") (annotationWrite MayEditAnnotation).

(** * Routes *)

Inductive read_guard := NoGuard | AnyGrant | ReadEverything.

(** How a route is served: behind a chain; by negotiating between what a JSON
    handler, a stream and feeds answer; to who takes JSON; or by its handler as
    it stands. The guard is asked before anything but the dashboard. *)
Inductive serving :=
| Behind (chain : tieredChain)
| Negotiated (feeds : feedHandlers) (sse : bool)
| JsonOnly
| Itself.

Record Route := mkRoute {
  r_method : string;
  r_path : list segment;
  r_serving : serving;
  r_guard : read_guard;
  r_handler : string;
}.

Definition route_at (pattern : string) (s : serving) (handler : string) : Route :=
  mkRoute (parse_pattern pattern).1 (parse_pattern pattern).2 s NoGuard handler.

Definition handle (pattern : string) (chain : tieredChain) (handler : string) : Route := route_at pattern (Behind chain) handler.
Definition reads (pattern handler : string) (feeds : feedHandlers) (sse : bool) : Route := route_at pattern (Negotiated feeds sse) handler.
Definition jsonOnly (pattern handler : string) : Route := route_at pattern JsonOnly handler.
Definition serves (pattern handler : string) : Route := route_at pattern Itself handler.
Definition guarded (g : read_guard) (r : Route) : Route := mkRoute (r_method r) (r_path r) (r_serving r) g (r_handler r).

Definition noFeeds : feedHandlers := mkFeeds false false false false.
Definition csvFeeds : feedHandlers := mkFeeds false false true false.
Definition listFeeds : feedHandlers := mkFeeds true true true false.
Definition detailFeeds : feedHandlers := mkFeeds true true false false.
Definition yamlFeeds : feedHandlers := mkFeeds true true false true.

(** [provider_routes] and [oauth_routes] are registered by the identity
    provider and the authorization server. *)
Record RouterConfig := mkRouterConfig {
  EnableVersionCheck : bool;
  EnableSelfMetrics : bool;
  has_Resyncer : bool;
  has_exec : bool;
  has_MCP : bool;
  provider_routes : list Route;
  oauth_routes : list Route;
}.

Definition when {A} (b : bool) (l : list A) : list A := if b then l else [].

(** ** Operations and chains *)

Definition OpScaleService : Operation := "service.scale".
Definition OpUpdateServiceImage : Operation := "service.image".
Definition OpRollbackService : Operation := "service.rollback".
Definition OpRestartService : Operation := "service.restart".
Definition OpUpdateService : Operation := "service.update".
Definition OpUpdateServiceSecrets : Operation := "service.secrets".
Definition OpUpdateServiceConfigs : Operation := "service.configs".
Definition OpUpdateServiceMounts : Operation := "service.mounts".
Definition OpRemoveService : Operation := "service.remove".
Definition OpUpdateNodeLabels : Operation := "node.labels".
Definition OpUpdateNode : Operation := "node.update".
Definition OpRemoveTask : Operation := "task.remove".
Definition OpCreateConfig : Operation := "config.create".
Definition OpRemoveConfig : Operation := "config.remove".
Definition OpCreateSecret : Operation := "secret.create".
Definition OpRemoveSecret : Operation := "secret.remove".
Definition OpRemoveNetwork : Operation := "network.remove".
Definition OpRemoveVolume : Operation := "volume.remove".
Definition OpOpenExec : Operation := "exec.open".
Definition OpEndExec : Operation := "exec.end".

Definition swarmTier2 : tieredChain := tiered SwarmResource OpsConfiguration.
Definition swarmTier3 : tieredChain := tiered SwarmResource OpsImpactful.
Definition clusterExists : condition := Unrepresented "subjectExists".
Definition pluginTier2 : tieredChain := tiered (PathResource "plugin" "name") OpsConfiguration.
Definition pluginTier3 : tieredChain := tiered (PathResource "plugin" "name") OpsImpactful.
Definition pluginWildTier3 : tieredChain := tiered (WildcardResource "plugin") OpsImpactful.
Definition pluginExists : condition := Unrepresented "pluginRepresentation".
Definition nodeTier3 : tieredChain := tiered (WriteResourceOf "node") OpsImpactful.
Definition nodeOp : Operation → tieredChain := operation (WriteResourceOf "node").
Definition nodeExists : condition := Unrepresented "nodeRepresentation".
Definition svcTier2 : tieredChain := tiered (WriteResourceOf "service") OpsConfiguration.
Definition svcTier3 : tieredChain := tiered (WriteResourceOf "service") OpsImpactful.
Definition svcOp : Operation → tieredChain := operation (WriteResourceOf "service").
Definition serviceExists : condition := Unrepresented "serviceRepresentation".
Definition taskOp : Operation → tieredChain := operation (WriteResourceOf "task").
Definition stackTier3 : tieredChain := tiered (PathResource "stack" "name") OpsImpactful.
Definition cfgTier2 : tieredChain := tiered (WriteResourceOf "config") OpsConfiguration.
Definition cfgOp : Operation → tieredChain := operation (WriteResourceOf "config").
Definition secTier2 : tieredChain := tiered (WriteResourceOf "secret") OpsConfiguration.
Definition secOp : Operation → tieredChain := operation (WriteResourceOf "secret").
Definition netOp : Operation → tieredChain := operation (WriteResourceOf "network").
Definition volOp : Operation → tieredChain := operation (PathResource "volume" "name").
Definition execOp (op : Operation) (permits : permits_by) : tieredChain :=
  mkChain (LevelOnly permits) Unconditional (Tier op) "" false false.
Definition openExec : tieredChain := mkChain (NoGates MayOpenExec) Unconditional (Tier OpOpenExec) "" false false.

(** ** The table *)

Definition meta_routes (cfg : RouterConfig) : list Route :=
  [serves "GET /auth/whoami" "WhoamiHandler";
   serves "GET /-/health" "HandleHealth";
   serves "GET /-/ready" "HandleReady"] ++
  when (EnableVersionCheck cfg) [serves "GET /-/docker-latest-version" "HandleDockerLatestVersion"] ++
  [serves "GET /-/licenses" "HandleLicenses";
   serves "GET /-/licenses/texts/{id}" "HandleLicenseText";
   serves "GET /-/notices" "HandleNotices";
   serves "GET /-/sbom.cdx" "HandleSBOM"] ++
  when (EnableSelfMetrics cfg) [serves "GET /-/metrics" "Handler"] ++
  when (has_Resyncer cfg) [guarded AnyGrant (serves "POST /-/resync" "HandleResync")] ++
  [serves "GET /metrics/status" "HandleMonitoringStatus";
   guarded ReadEverything (jsonOnly "GET /metrics/labels" "HandleMetricsLabels");
   guarded ReadEverything (jsonOnly "GET /metrics/labels/{name}" "HandleMetricsLabelValues");
   guarded ReadEverything (reads "GET /metrics" "HandleMetrics" noFeeds true)].

Definition docs_routes : list Route :=
  [serves "GET /api" "apiDoc";
   serves "GET /api/openapi.yaml" "openAPIYAML";
   serves "GET /api/scalar.js" "HandleScalarJS";
   serves "GET /api/context.jsonld" "HandleContext";
   serves "GET /api/asyncapi" "asyncAPI";
   serves "GET /api/asyncapi.yaml" "asyncAPIYAML";
   serves "GET /opensearch.xml" "HandleOpenSearch";
   serves "GET /.well-known/api-catalog" "HandleAPICatalog";
   reads "GET /api/errors" "HandleErrorIndex" noFeeds false;
   reads "GET /api/errors/{code}" "HandleErrorDetail" noFeeds false].

Definition events_routes : list Route :=
  [serves "GET /events" "events"].

Definition cluster_routes : list Route :=
  [reads "GET /cluster" "HandleCluster" noFeeds false;
   reads "GET /cluster/metrics" "HandleClusterMetrics" noFeeds false;
   reads "GET /cluster/capacity" "HandleClusterCapacity" noFeeds false;
   reads "GET /swarm" "HandleSwarm" noFeeds false;
   handle "PATCH /swarm/orchestration" (Append clusterExists swarmTier2) "HandlePatchSwarmOrchestration";
   handle "PATCH /swarm/raft" (Append clusterExists swarmTier2) "HandlePatchSwarmRaft";
   handle "PATCH /swarm/dispatcher" (Append clusterExists swarmTier2) "HandlePatchSwarmDispatcher";
   handle "PATCH /swarm/ca" (Append clusterExists swarmTier3) "HandlePatchSwarmCAConfig";
   handle "PATCH /swarm/encryption" (Append clusterExists swarmTier3) "HandlePatchSwarmEncryption";
   handle "POST /swarm/rotate-token" (AnswersNoContent (Append clusterExists swarmTier3)) "HandlePostRotateToken";
   handle "POST /swarm/rotate-unlock-key" (AnswersNoContent (Append clusterExists swarmTier3)) "HandlePostRotateUnlockKey";
   handle "POST /swarm/force-rotate-ca" (AnswersNoContent (Append clusterExists swarmTier3)) "HandlePostForceRotateCA";
   handle "GET /swarm/unlock-key" swarmTier3 "HandleGetUnlockKey";
   handle "POST /swarm/unlock" (AnswersNoContent (Append clusterExists swarmTier3)) "HandlePostUnlockSwarm";
   handle "DELETE /tokens/{subject}" (AnswersNoContent (Append clusterExists swarmTier3)) "HandleRevokeSubject";
   reads "GET /disk-usage" "HandleDiskUsage" noFeeds false].

Definition plugins_routes : list Route :=
  [reads "GET /plugins" "HandleListPlugins" noFeeds false;
   reads "GET /plugins/{name}" "HandleGetPlugin" noFeeds false;
   reads "GET /swarm/plugins" "HandleListPlugins" noFeeds false;
   handle "POST /plugins/privileges" (AnswersWithABody (Append clusterExists pluginWildTier3)) "HandlePluginPrivileges";
   handle "POST /plugins" (AnswersWithABody pluginWildTier3) "HandleInstallPlugin";
   handle "POST /plugins/{name}/enable" (AnswersNoContent (Append pluginExists pluginTier2)) "HandleEnablePlugin";
   handle "POST /plugins/{name}/disable" (AnswersNoContent (Append pluginExists pluginTier2)) "HandleDisablePlugin";
   handle "DELETE /plugins/{name}" (AnswersNoContent (Append (precond "pluginRepresentation") pluginTier3)) "HandleRemovePlugin";
   handle "POST /plugins/{name}/upgrade" (Append pluginExists pluginTier3) "HandleUpgradePlugin";
   handle "PATCH /plugins/{name}/settings" (Append pluginExists pluginTier2) "HandleConfigurePlugin"].

Definition nodes_routes : list Route :=
  [reads "GET /nodes" "HandleListNodes" listFeeds true;
   reads "GET /nodes/{id}" "HandleGetNode" detailFeeds true;
   reads "GET /nodes/{id}/tasks" "HandleNodeTasks" csvFeeds false;
   reads "GET /nodes/{id}/drain-impact" "HandleNodeDrainImpact" noFeeds false;
   handle "PUT /nodes/{id}/availability" (Append nodeExists (nodeOp OpUpdateNode)) "HandleUpdateNodeAvailability";
   reads "GET /nodes/{id}/labels" "HandleGetNodeLabels" noFeeds false;
   handle "PATCH /nodes/{id}/labels" (TakesJSONPatch (Append (precond "nodeLabelsSpec") (nodeOp OpUpdateNodeLabels))) "HandlePatchNodeLabels";
   reads "GET /nodes/{id}/role" "HandleGetNodeRole" noFeeds false;
   handle "PUT /nodes/{id}/role" (Append (precond "nodeRoleRepresentation") (nodeOp OpUpdateNode)) "HandleUpdateNodeRole";
   handle "DELETE /nodes/{id}" (AnswersNoContent (Append (precond "nodeRepresentation") nodeTier3)) "HandleRemoveNode"].

Definition services_routes : list Route :=
  [reads "GET /services" "HandleListServices" listFeeds true;
   reads "GET /services/{id}" "HandleGetService" yamlFeeds true;
   reads "GET /services/{id}/tasks" "HandleServiceTasks" csvFeeds false;
   reads "GET /services/{id}/logs" "HandleServiceLogs" noFeeds true;
   handle "PUT /services/{id}/scale" (Append serviceExists (svcOp OpScaleService)) "HandleScaleService";
   handle "PUT /services/{id}/image" (Append serviceExists (svcOp OpUpdateServiceImage)) "HandleUpdateServiceImage";
   handle "POST /services/{id}/rollback" (Append serviceExists (svcOp OpRollbackService)) "HandleRollbackService";
   handle "POST /services/{id}/restart" (Append serviceExists (svcOp OpRestartService)) "HandleRestartService";
   reads "GET /services/{id}/env" "HandleGetServiceEnv" noFeeds false;
   handle "PATCH /services/{id}/env" (TakesJSONPatch (Append (precond "serviceEnvRepresentation") (svcOp OpUpdateService))) "HandlePatchServiceEnv";
   reads "GET /services/{id}/labels" "HandleGetServiceLabels" noFeeds false;
   handle "PATCH /services/{id}/labels" (TakesJSONPatch (Append (precond "serviceLabelsSpec") (svcOp OpUpdateService))) "HandlePatchServiceLabels";
   reads "GET /services/{id}/resources" "HandleGetServiceResources" noFeeds false;
   handle "PATCH /services/{id}/resources" (Append (precond "serviceResourcesRepresentation") (svcOp OpUpdateService)) "HandlePatchServiceResources";
   reads "GET /services/{id}/healthcheck" "HandleGetServiceHealthcheck" noFeeds false;
   handle "PUT /services/{id}/healthcheck" (Append (precond "serviceHealthcheckRepresentation") (svcOp OpUpdateService)) "HandlePutServiceHealthcheck";
   handle "PATCH /services/{id}/healthcheck" (Append (precond "serviceHealthcheckRepresentation") (svcOp OpUpdateService)) "HandlePatchServiceHealthcheck";
   reads "GET /services/{id}/placement" "HandleGetServicePlacement" noFeeds false;
   handle "PUT /services/{id}/placement" (Append (precond "servicePlacementRepresentation") (svcOp OpUpdateService)) "HandlePutServicePlacement";
   reads "GET /services/{id}/ports" "HandleGetServicePorts" noFeeds false;
   handle "PATCH /services/{id}/ports" (Append (precond "servicePortsRepresentation") (svcOp OpUpdateService)) "HandlePatchServicePorts";
   reads "GET /services/{id}/update-policy" "HandleGetServiceUpdatePolicy" noFeeds false;
   handle "PATCH /services/{id}/update-policy" (Append (precond "serviceUpdatePolicyRepresentation") (svcOp OpUpdateService)) "HandlePatchServiceUpdatePolicy";
   reads "GET /services/{id}/rollback-policy" "HandleGetServiceRollbackPolicy" noFeeds false;
   handle "PATCH /services/{id}/rollback-policy" (Append (precond "serviceRollbackPolicyRepresentation") (svcOp OpUpdateService)) "HandlePatchServiceRollbackPolicy";
   reads "GET /services/{id}/log-driver" "HandleGetServiceLogDriver" noFeeds false;
   handle "PATCH /services/{id}/log-driver" (Append (precond "serviceLogDriverRepresentation") (svcOp OpUpdateService)) "HandlePatchServiceLogDriver";
   reads "GET /services/{id}/configs" "HandleGetServiceConfigs" noFeeds false;
   handle "PATCH /services/{id}/configs" (Append (precond "serviceConfigsRepresentation") (svcOp OpUpdateServiceConfigs)) "HandlePatchServiceConfigs";
   reads "GET /services/{id}/secrets" "HandleGetServiceSecrets" noFeeds false;
   handle "PATCH /services/{id}/secrets" (Append (precond "serviceSecretsRepresentation") (svcOp OpUpdateServiceSecrets)) "HandlePatchServiceSecrets";
   reads "GET /services/{id}/networks" "HandleGetServiceNetworks" noFeeds false;
   handle "PATCH /services/{id}/networks" (Append (precond "serviceNetworksRepresentation") svcTier2) "HandlePatchServiceNetworks";
   reads "GET /services/{id}/mounts" "HandleGetServiceMounts" noFeeds false;
   handle "PATCH /services/{id}/mounts" (Append (precond "serviceMountsRepresentation") (svcOp OpUpdateServiceMounts)) "HandlePatchServiceMounts";
   reads "GET /services/{id}/container-config" "HandleGetServiceContainerConfig" noFeeds false;
   handle "PATCH /services/{id}/container-config" (Append (precond "serviceContainerConfigRepresentation") (svcOp OpUpdateService)) "HandlePatchServiceContainerConfig";
   reads "GET /services/{id}/mode" "HandleGetServiceMode" noFeeds false;
   reads "GET /services/{id}/endpoint-mode" "HandleGetServiceEndpointMode" noFeeds false;
   handle "PUT /services/{id}/endpoint-mode" (Append (precond "serviceEndpointModeRepresentation") svcTier3) "HandleUpdateServiceEndpointMode";
   handle "DELETE /services/{id}" (AnswersNoContent (Append (precond "serviceRepresentation") (svcOp OpRemoveService))) "HandleRemoveService";
   serves "GET /services/{id}/provenance" "HandleServiceProvenance";
   serves "GET /services/{id}/sbom" "attestationEndpoint";
   serves "GET /services/{id}/dockerfile" "attestationEndpoint"].

Definition tasks_routes : list Route :=
  [reads "GET /tasks" "HandleListTasks" listFeeds true;
   reads "GET /tasks/{id}" "HandleGetTask" detailFeeds true;
   reads "GET /tasks/{id}/logs" "HandleTaskLogs" noFeeds true;
   handle "DELETE /tasks/{id}" (AnswersNoContent (Append (precond "taskRepresentation") (taskOp OpRemoveTask))) "HandleRemoveTask";
   serves "GET /tasks/{id}/provenance" "HandleTaskProvenance";
   serves "GET /tasks/{id}/sbom" "attestationEndpoint";
   serves "GET /tasks/{id}/dockerfile" "attestationEndpoint"].

Definition exec_routes (cfg : RouterConfig) : list Route :=
  when (has_exec cfg)
  [reads "GET /tasks/{id}/exec" "HandleTaskExec" noFeeds false;
   handle "POST /tasks/{id}/exec" openExec "HandleCreateExecSession";
   reads "GET /exec" "HandleListExecSessions" noFeeds false;
   serves "GET /exec/{sid}" "HandleGetExecSession";
   handle "DELETE /exec/{sid}" (AnswersNoContent (execOp OpEndExec MayEndExec)) "HandleDeleteExecSession"].

Definition stacks_routes : list Route :=
  [reads "GET /stacks" "HandleListStacks" listFeeds true;
   reads "GET /stacks/summary" "HandleStackSummary" noFeeds false;
   reads "GET /stacks/{name}" "HandleGetStack" yamlFeeds true;
   handle "DELETE /stacks/{name}" (Append (precond "stackRepresentation") stackTier3) "HandleRemoveStack"].

Definition configs_routes : list Route :=
  [reads "GET /configs" "HandleListConfigs" listFeeds true;
   reads "GET /configs/{id}" "HandleGetConfig" detailFeeds true;
   handle "DELETE /configs/{id}" (AnswersNoContent (Append (precond "configRepresentation") (cfgOp OpRemoveConfig))) "HandleRemoveConfig";
   handle "POST /configs" (createOp OpCreateConfig) "HandleCreateConfig";
   reads "GET /configs/{id}/labels" "HandleGetConfigLabels" noFeeds false;
   handle "PATCH /configs/{id}/labels" (TakesJSONPatch (Append (precond "configLabelsSpec") cfgTier2)) "HandlePatchConfigLabels"].

Definition secrets_routes : list Route :=
  [reads "GET /secrets" "HandleListSecrets" listFeeds true;
   reads "GET /secrets/{id}" "HandleGetSecret" detailFeeds true;
   handle "DELETE /secrets/{id}" (AnswersNoContent (Append (precond "secretRepresentation") (secOp OpRemoveSecret))) "HandleRemoveSecret";
   handle "POST /secrets" (createOp OpCreateSecret) "HandleCreateSecret";
   reads "GET /secret-entries/{id}" "HandleGetSecretEntry" noFeeds false;
   reads "GET /secrets/{id}/labels" "HandleGetSecretLabels" noFeeds false;
   handle "PATCH /secrets/{id}/labels" (TakesJSONPatch (Append (precond "secretLabelsSpec") secTier2)) "HandlePatchSecretLabels"].

Definition networks_routes : list Route :=
  [reads "GET /networks" "HandleListNetworks" listFeeds true;
   reads "GET /networks/{id}" "HandleGetNetwork" detailFeeds true;
   handle "DELETE /networks/{id}" (AnswersNoContent (Append (precond "networkRepresentation") (netOp OpRemoveNetwork))) "HandleRemoveNetwork"].

Definition volumes_routes : list Route :=
  [reads "GET /volumes" "HandleListVolumes" listFeeds true;
   reads "GET /volumes/{name}" "HandleGetVolume" detailFeeds true;
   handle "DELETE /volumes/{name}" (AnswersNoContent (Append (precond "volumeRepresentation") (volOp OpRemoveVolume))) "HandleRemoveVolume"].

Definition annotations_routes : list Route :=
  [reads "GET /annotations" "HandleAnnotations" listFeeds false;
   reads "GET /annotations/tags" "HandleAnnotationTags" csvFeeds false;
   handle "POST /annotations" (AnswersWithABody (annotationWrite MayAnnotate)) "HandleCreateAnnotation";
   reads "GET /annotations/{id}" "HandleGetAnnotation" noFeeds false;
   handle "PATCH /annotations/{id}" annotationEdit "HandlePatchAnnotation";
   handle "DELETE /annotations/{id}" (AnswersNoContent annotationEdit) "HandleDeleteAnnotation"].

Definition views_routes : list Route :=
  [reads "GET /ports" "HandleListPorts" csvFeeds false;
   reads "GET /recommendations" "HandleRecommendations" listFeeds false;
   reads "GET /history" "HandleHistory" listFeeds false;
   reads "GET /search" "HandleSearch" detailFeeds false;
   reads "GET /profile" "HandleProfile" noFeeds false;
   serves "GET /topology" "topology";
   serves "GET /topology/networks" "removed";
   serves "GET /topology/placement" "removed"].

Definition mounts_routes (cfg : RouterConfig) : list Route :=
  when (has_MCP cfg) [serves "/mcp" "MCPHandler"] ++
  [reads "GET /{$}" "HandleEntrypoint" noFeeds false;
   reads "GET /index" "HandleEntrypoint" noFeeds false].

Definition fallback_routes : list Route :=
  [serves "/" "fallback"].

(** Every route a router of this configuration holds. *)
Definition newRouter (cfg : RouterConfig) : list Route :=
  provider_routes cfg ++ meta_routes cfg ++ docs_routes ++ events_routes ++ cluster_routes ++ plugins_routes ++ nodes_routes ++
  services_routes ++ tasks_routes ++ exec_routes cfg ++ stacks_routes ++ configs_routes ++ secrets_routes ++ networks_routes ++
  volumes_routes ++ views_routes ++ annotations_routes ++ mounts_routes cfg ++ oauth_routes cfg ++ fallback_routes.

(** * Finding the route *)

(** The routes of one method and what is left of their paths. *)
Definition candidates : Type := list (list segment * Route).

Definition ended (c : list segment * Route) : option Route := match c.1 with [] => Some c.2 | _ => None end.

Definition after_literal (s : string) (c : list segment * Route) : option (list segment * Route) :=
  match c.1 with Lit l :: rest => if bool_decide (l = s) then Some (rest, c.2) else None | _ => None end.

Definition after_wildcard (c : list segment * Route) : option (list segment * Route) :=
  match c.1 with Wild _ :: rest => Some (rest, c.2) | _ => None end.

Definition takes_rest (c : list segment * Route) : option (string * Route) :=
  match c.1 with Multi name :: _ => Some (name, c.2) | _ => None end.

(** The text of the rest of a path. *)
Definition rest_text (path : list string) : string :=
  match last path with
  | Some "/" => Join (removelast path) "/" +:+ "/"
  | _ => Join path "/"
  end.

(** A literal before a wildcard, and either before the rest of a path; with the
    values the wildcards took, in order. *)
Fixpoint match_path (path : list string) (cs : candidates) : option (Route * list string) :=
  match path with
  | [] => (λ r, (r, [])) <$> head (omap ended cs)
  | s :: rest =>
      match match_path rest (omap (after_literal s) cs) with
      | Some found => Some found
      | None =>
          match (if bool_decide (s = "/") then None
                 else prod_map id (cons s) <$> match_path rest (omap after_wildcard cs)) with
          | Some found => Some found
          | None =>
              match head (omap takes_rest cs) with
              | Some (name, r) => Some (r, if is_empty name then [] else [rest_text path])
              | None => None
              end
          end
      end
  end.

Definition of_method (method : string) (routes : list Route) : candidates :=
  (λ r, (r_path r, r)) <$> filter (λ r, r_method r = method) routes.

(** The route of a method's own, a GET's for a HEAD, or one of any method. *)
Definition match_route (routes : list Route) (method : string) (path : list string) : option (Route * list string) :=
  match match_path path (of_method method routes) with
  | Some found => Some found
  | None =>
      match (if bool_decide (method = "HEAD") then match_path path (of_method "GET" routes) else None) with
      | Some found => Some found
      | None => match_path path (of_method "" routes)
      end
  end.

Fixpoint wildcards (p : list segment) : list string :=
  match p with
  | [] => []
  | Lit _ :: p => wildcards p
  | Wild name :: p | Multi name :: p => name :: wildcards p
  end.

(** r.PathValue. *)
Definition PathValue (found : Route * list string) (name : string) : string :=
  match list_find (λ nv, nv.1 = name) (zip (wildcards (r_path found.1)) found.2) with
  | Some (_, nv) => nv.2
  | None => ""
  end.

(** Of one method and path there is one route: the mux refuses a second. *)
Definition distinct (routes : list Route) : Prop := NoDup ((λ r, (r_method r, r_path r)) <$> routes).
