(* ===== verification/ApiWrites.v ===== *)
(** What a request to the HTTP API comes to: the gates of
    internal/api/write_middleware.go and allow.go over the routes of
    ApiRoutes.v, the readiness check and the catch-all of router.go, and the
    Allow header it answers with.

    A handler is reached or it is not; what it does then is the use case's. The
    grants of shells and annotations, which other components give, are an
    argument, as is what the daemon says of a plugin. *)
From S2P Require Import Prelude GoStrings AclPolicy AclEvaluator CacheState CacheStacks CacheIndex CacheOps CacheList Cache Resolve HostAccess ClusterWrites Negotiate ApiRoutes.
#[local] Open Scope string_scope.
#[local] Open Scope Z_scope.
#[local] Open Scope list_scope.

(** [q_path] is the segments of the escaped path and [q_url] the path itself. *)
Record ApiRequest := mkApiRequest {
  q_method : string;
  q_url : string;
  q_path : list string;
  q_identity : option Identity;
  q_accept : string;
  q_negotiation : negotiation;
  q_prefer : list string;
}.

Definition with_method (q : ApiRequest) (m : string) : ApiRequest :=
  mkApiRequest m (q_url q) (q_path q) (q_identity q) (q_accept q) (q_negotiation q) (q_prefer q).

Inductive refusal :=
| RefusedHidden (code kind key : string)
| RefusedGrant
| RefusedLevel (required level : Z)
| RefusedAccept
| RefusedGuard
| NotReady.

Inductive served :=
| Reached (r : Route) (values : list string)
| Refused (e : refusal)
| MethodNotAllowed (allow : list string)
| OptionsAnswer (allow : list string) (acceptPatch : string)
| NoResource
| Dashboard.

Definition notFoundCodes (kind : string) : option string :=
  match list_find (λ kc, kc.1 = kind)
    [("service", "SVC003"); ("node", "NOD003"); ("task", "TSK002"); ("volume", "VOL002"); ("network", "NET002");
     ("config", "CFG002"); ("secret", "SEC002"); ("plugin", "PLG004"); ("stack", "STK001")] with
  | Some (_, kc) => Some kc.2
  | None => None
  end.

Definition Resolvable (kind : string) : bool :=
  bool_decide (kind ∈ ["service"; "node"; "task"; "config"; "secret"; "network"; "stack"; "volume"]).

Definition createsByName (resourceType : string) : bool := bool_decide (resourceType ∈ ["config"; "secret"]).

Section writes.
Context `{MapRange, Unicode, Mime} (created : string → Z) (c : Cache) (acl : option Evaluator).
Context (operationsLevel tokenOperationsLevel : Z) (annotationsEnabled : bool).
Context (may : permits_by → option Identity → (string → string) → bool) (pluginGone : string → bool).
Context (ready populated : bool) (routes : list Route).

Definition levelFor (id : option Identity) : Z := if FromToken id then tokenOperationsLevel else operationsLevel.

Definition writeResource (kind : string) (id : option Identity) (value : string → string) : string :=
  match LookupAs created c kind (value "id") (Some (Checker acl id "read")) with
  | Found record => WriteResource record
  | _ => kind +:+ ":" +:+ value "id"
  end.

Definition resource_named (res : resource_of) (id : option Identity) (value : string → string) : string :=
  match res with
  | WriteResourceOf kind => writeResource kind id value
  | PathResource resourceType pathKey => resourceType +:+ ":" +:+ value pathKey
  | WildcardResource resourceType => resourceType +:+ ":*"
  | SwarmResource => "swarm:cluster"
  end.

Definition pluginHidden (name : string) (canRead : string → bool) : bool :=
  if negb (canRead ("plugin:" +:+ name)) then true else pluginGone name.

(** The kind and key of a record hidden from the caller. *)
Definition hiddenTarget (found : Route * list string) (id : option Identity) : option (string * string) :=
  let key := if is_empty (PathValue found "id") then PathValue found "name" else PathValue found "id" in
  let collection := match r_path found.1 with Lit s :: _ => s | _ => "" end in
  let kind := TrimSuffix collection "s" in
  if negb (bool_decide (is_Some (notFoundCodes kind))) || is_empty key then None else
  let canRead := Checker acl id "read" in
  if bool_decide (kind = "plugin") then if pluginHidden key canRead then Some (kind, key) else None
  else if negb (Resolvable kind) then None
  else
    match LookupAs created c kind key (Some canRead) with
    | Ambiguous _ _ => None
    | Missing => Some (kind, key)
    | Found record => if canRead (Resource_of record) then None else Some (kind, key)
    end.

Definition requireWriteACL (res : resource_of) (found : Route * list string) (id : option Identity) : option refusal :=
  if Can acl id "write" (resource_named res id (PathValue found)) then None
  else match hiddenTarget found id with
       | Some (kind, key) => Some (RefusedHidden (default "" (notFoundCodes kind)) kind key)
       | None => Some RefusedGrant
       end.

Definition requireLevel (required : Z) (id : option Identity) : option refusal :=
  if required <=? levelFor id then None else Some (RefusedLevel required (levelFor id)).

Definition acceptsProblem (accept : string) : bool :=
  existsb (λ accepted, flt f0 (mr_q accepted) && EqualFold (mt_typ (mr_type accepted)) "application" &&
                       EqualFold (mt_subtype (mr_type accepted)) "problem+json") (parseAcceptRanges accept).

Definition acceptsJSONAnswer (bodyAlways : bool) (q : ApiRequest) : option refusal :=
  let waits := match preferWait (q_prefer q) with Some _ => true | None => false end in
  let bodiless := negb bodyAlways && preferMinimal (q_prefer q) && negb waits && negb (preferRespondAsync (q_prefer q)) in
  if negb bodiless && negb (acceptableAs (q_accept q) (q_negotiation q) [] [TypeJSON]) && negb (acceptsProblem (q_accept q))
  then Some RefusedAccept else None.

(** The first refusal, when the one before it lets through. *)
Definition or_refused (a b : option refusal) : option refusal := match a with Some _ => a | None => b end.

Definition run_gates (chain : tieredChain) (found : Route * list string) (id : option Identity) : option refusal :=
  match tc_gates chain with
  | GrantAndLevel res => or_refused (requireWriteACL res found id) (requireLevel (tc_level chain) id)
  | LevelOnly _ => requireLevel (tc_level chain) id
  | NoGates _ => None
  end.

Definition run_chain (chain : tieredChain) (found : Route * list string) (q : ApiRequest) : option refusal :=
  or_refused (run_gates chain found (q_identity q))
    (if tc_noContent chain then None else acceptsJSONAnswer (tc_bodyAlways chain) q).

(** ** What a caller may write *)

Definition grantsWriteOnType (patterns : option (gmap string (list string))) (resourceType : string) : bool :=
  match patterns with
  | None => false
  | Some m => existsb (λ kv, HasPrefix kv.1 (resourceType +:+ ":") && bool_decide ("write" ∈ kv.2)) (range m)
  end.

Definition grantsCreate (id : option Identity) (resourceType : string) : bool :=
  Can acl id "write" (resourceType +:+ ":*") ||
  (createsByName resourceType && grantsWriteOnType (PermissionsFor acl id) resourceType).

Definition mayCreate (q : ApiRequest) : bool :=
  let '(root, _, _) := Cut (TrimPrefix (q_url q) "/") "/" in grantsCreate (q_identity q) (TrimSuffix root "s").

Definition mayAnnotate (id : option Identity) : bool :=
  if negb annotationsEnabled then false else
  let access := TypeGrants acl id in
  TypeAccess_Can access "write" "service" || TypeAccess_Can access "write" "stack" || TypeAccess_Can access "write" "node".

Definition permits (chain : tieredChain) (q : ApiRequest) (found : Route * list string) : bool :=
  let by_ p :=
    match p with
    | MayCreate => mayCreate q
    | MayAnnotate => mayAnnotate (q_identity q)
    | _ => may p (q_identity q) (PathValue found)
    end in
  match tc_gates chain with
  | GrantAndLevel res => Can acl (q_identity q) "write" (resource_named res (q_identity q) (PathValue found))
  | LevelOnly p | NoGates p => by_ p
  end.

(** ** Allow *)

Definition route (q : ApiRequest) : option (Route * list string) := match_route routes (q_method q) (q_path q).

Definition catch_all (r : Route) : bool := is_empty (r_method r) && bool_decide (r_path r = [Multi ""]).

Definition serves_own (q : ApiRequest) : bool :=
  match route q with Some (r, _) => negb (catch_all r) | None => false end.

Definition probed : list string := ["GET"; "HEAD"; "POST"; "PUT"; "PATCH"; "DELETE"].

Definition allows (q : ApiRequest) : list string :=
  match filter (λ m, serves_own (with_method q m) = true) probed with
  | [] => []
  | methods => methods ++ ["OPTIONS"]
  end.

(** A tiered route as the recorder keeps it: the method, the path, the level,
    what a PATCH takes, and what permits it. *)
Definition tiered_route (r : Route) : option (Route * tieredChain) :=
  match r_serving r with Behind chain => Some (r, chain) | _ => None end.

Definition acceptPatch_of (r : Route) (chain : tieredChain) : string :=
  if bool_decide (r_method r = "PATCH") then if is_empty (tc_acceptPatch chain) then AcceptMergePatch else tc_acceptPatch chain else "".

Definition open_route (q : ApiRequest) (level : Z) (m : string) : option string :=
  let probe := with_method q m in
  match route probe with
  | None => Some ""
  | Some found =>
      match list_find (λ rc, r_method rc.1 = m ∧ r_path rc.1 = r_path found.1 ∧ r_method found.1 ≠ "") (omap tiered_route routes) with
      | Some (_, (r, chain)) =>
          if (level <? tc_level chain) || negb (permits chain probe found) then None
          else Some (acceptPatch_of r chain)
      | None => Some ""
      end
  end.

Definition open_methods (q : ApiRequest) (level : Z) : list string :=
  filter (λ m, is_Some (open_route q level m)) (allows q).

Definition open_patch (q : ApiRequest) (level : Z) : string :=
  if bool_decide ("PATCH" ∈ allows q) then default "" (open_route q level "PATCH") else "".

(** ** Serving *)

Definition guard_refuses (g : read_guard) (id : option Identity) : bool :=
  match g with
  | NoGuard => false
  | AnyGrant => negb (HasAnyGrant acl id)
  | ReadEverything => negb (CanReadEverything acl id)
  end.

Definition fallback (q : ApiRequest) : served :=
  if hasMidPathExtension (q_url q) then NoResource else
  let meta := HasPrefix (q_url q) "/-/" in
  let last := if meta then NoResource else Dashboard in
  if meta || negb (isSafeMethod (q_method q)) || ng_refusesHTML (q_negotiation q) then
    match allows q with
    | [] => last
    | _ =>
        let level := levelFor (q_identity q) in
        if bool_decide (q_method q = "OPTIONS") then OptionsAnswer (open_methods q level) (open_patch q level)
        else MethodNotAllowed (open_methods q level)
    end
  else last.

Definition readsClusterState (q : ApiRequest) : bool :=
  if negb (serves_own q) then false
  else negb (existsb (HasPrefix (q_url q)) ["/-/"; "/api"; "/auth/"; "/oauth/"; "/.well-known/"; "/metrics/labels"] ||
             bool_decide (q_url q ∈ ["/"; "/index"; "/opensearch.xml"; "/profile"; "/metrics"])).

Definition requireReady (q : ApiRequest) : option refusal :=
  let ct := ng_type (q_negotiation q) in
  let servedFromSnapshot := isSafeMethod (q_method q) && populated in
  if negb ready && negb servedFromSnapshot && readsClusterState q &&
     negb (bool_decide (ct ∈ [TypeHTML; TypeSSE; TypeUnsupported]))
  then Some NotReady else None.

(** What a route of its own answers. *)
Definition serve_route (found : Route * list string) (q : ApiRequest) : served :=
  let guarded_ := if guard_refuses (r_guard found.1) (q_identity q) then Refused RefusedGuard else Reached found.1 found.2 in
  match r_serving found.1 with
  | Behind chain =>
      match run_chain chain found q with
      | Some e => Refused e
      | None => guarded_
      end
  | Negotiated feeds sse =>
      match dispatch feeds sse (q_accept q) (q_negotiation q) with
      | None => Refused RefusedAccept
      | Some TypeHTML => Dashboard
      | Some _ => guarded_
      end
  | JsonOnly => if acceptableAs (q_accept q) (q_negotiation q) [] [TypeJSON] then guarded_ else Refused RefusedAccept
  | Itself => guarded_
  end.

Definition answer (q : ApiRequest) : served :=
  match requireReady q with
  | Some e => Refused e
  | None =>
      match route q with
      | None => NoResource
      | Some found =>
          if catch_all found.1 then fallback q else serve_route found q
      end
  end.
End writes.

(** * What the mux finds *)

Lemma match_path_elem path cs r vs : match_path path cs = Some (r, vs) → ∃ p, (p, r) ∈ cs.
Proof.
  revert cs vs. induction path as [|s rest IH]; intros cs vs; cbn [match_path].
  - intros Hm. destruct (head (omap ended cs)) as [r'|] eqn:Eh; [|done]. injection Hm as -> _.
    apply head_Some_elem_of, list_elem_of_omap in Eh as ([p r2] & Hin & He). unfold ended in He. cbn in He.
    destruct p; [|done]. injection He as ->. eauto.
  - destruct (match_path rest (omap (after_literal s) cs)) as [[r1 v1]|] eqn:E1.
    { intros [= -> ->]. apply IH in E1 as [p Hp]. apply list_elem_of_omap in Hp as ([p' r'] & Hin & He). unfold after_literal in He.
      cbn in He. destruct p' as [|[l| |] p']; try done. case_bool_decide; [|done]. injection He as _ ->. eauto. }
    destruct (if bool_decide (s = "/") then None else _) as [[r1 v1]|] eqn:E2.
    { intros [= -> ->]. case_bool_decide; [done|]. destruct (match_path rest (omap after_wildcard cs)) as [[r2 v2]|] eqn:E3; [|done].
      injection E2 as -> _. apply IH in E3 as [p Hp]. apply list_elem_of_omap in Hp as ([p' r'] & Hin & He). unfold after_wildcard in He.
      cbn in He. destruct p' as [|[| |] p']; try done. injection He as _ ->. eauto. }
    destruct (head (omap takes_rest cs)) as [[name r']|] eqn:E3; [|done]. intros [= -> _].
    apply head_Some_elem_of, list_elem_of_omap in E3 as ([p' r'] & Hin & He). unfold takes_rest in He. cbn in He.
    destruct p' as [|[| |] p']; try done. injection He as _ ->. eauto.
Qed.

Lemma of_method_elem m routes p r : (p, r) ∈ of_method m routes → r ∈ routes ∧ r_method r = m ∧ p = r_path r.
Proof. unfold of_method. intros (r' & [= -> ->] & [? ?]%list_elem_of_filter)%list_elem_of_fmap. done. Qed.

Lemma match_route_elem routes m path r vs : match_route routes m path = Some (r, vs) →
  r ∈ routes ∧ (r_method r = m ∨ m = "HEAD" ∧ r_method r = "GET" ∨ r_method r = "").
Proof.
  unfold match_route. destruct (match_path path (of_method m routes)) as [[r1 v1]|] eqn:E1.
  { intros [= -> ->]. apply match_path_elem in E1 as [p Hp]. apply of_method_elem in Hp as (? & ? & _). auto. }
  case_bool_decide as Em.
  - destruct (match_path path (of_method "GET" routes)) as [[r1 v1]|] eqn:E2.
    + intros [= -> ->]. apply match_path_elem in E2 as [p Hp]. apply of_method_elem in Hp as (? & ? & _). auto.
    + intros Hm. apply match_path_elem in Hm as [p Hp]. apply of_method_elem in Hp as (? & ? & _). auto.
  - intros Hm. apply match_path_elem in Hm as [p Hp]. apply of_method_elem in Hp as (? & ? & _). auto.
Qed.

(** What the table says of a route that is not a read. *)
Definition write_ok (r : Route) : bool :=
  if bool_decide (r_method r = "GET") || catch_all r || bool_decide (r_handler r = "MCPHandler") then true else
  if bool_decide (r_handler r = "HandleResync") then match r_guard r with AnyGrant => true | _ => false end && negb (is_empty (r_method r)) else
  negb (is_empty (r_method r)) &&
  match r_serving r with
  | Behind chain =>
      match tc_gates chain with
      | GrantAndLevel _ => OpsOperational <=? tc_level chain
      | LevelOnly _ => (OpsConfiguration <=? tc_level chain) &&
          bool_decide (r_handler r ∈ ["HandleCreateConfig"; "HandleCreateSecret"; "HandleDeleteExecSession"])
      | NoGates _ => bool_decide (r_handler r ∈ ["HandleCreateExecSession"; "HandleCreateAnnotation"; "HandlePatchAnnotation"; "HandleDeleteAnnotation"])
      end
  | _ => false
  end.

Definition own_routes (cfg : RouterConfig) : list Route :=
  newRouter (mkRouterConfig (EnableVersionCheck cfg) (EnableSelfMetrics cfg) (has_Resyncer cfg) (has_exec cfg) (has_MCP cfg) [] []).

Lemma own_routes_ok cfg : Forall (λ r, write_ok r = true) (own_routes cfg).
Proof.
  destruct cfg as [a b c d e p o]. unfold own_routes. cbn [EnableVersionCheck EnableSelfMetrics has_Resyncer has_exec has_MCP].
  apply Forall_forall. intros r Hr.
  assert (forallb write_ok (newRouter (mkRouterConfig a b c d e [] [])) = true) as Hall
    by (destruct a, b, c, d, e; vm_compute; reflexivity).
  rewrite forallb_forall in Hall. apply Hall. by apply list_elem_of_In.
Qed.

(** A chain is recorded under the methods the API's routes name. *)
Definition tiered_ok (r : Route) : bool :=
  match tiered_route r with None => true | Some _ => bool_decide (r_method r ∈ ["GET"; "POST"; "PUT"; "PATCH"; "DELETE"]) end.

Lemma own_routes_tiered cfg : Forall (λ r, tiered_ok r = true) (own_routes cfg).
Proof.
  destruct cfg as [a b c d e p o]. unfold own_routes. cbn [EnableVersionCheck EnableSelfMetrics has_Resyncer has_exec has_MCP].
  apply Forall_forall. intros r Hr.
  assert (forallb tiered_ok (newRouter (mkRouterConfig a b c d e [] [])) = true) as Hall
    by (destruct a, b, c, d, e; vm_compute; reflexivity).
  rewrite forallb_forall in Hall. apply Hall. by apply list_elem_of_In.
Qed.

Lemma newRouter_elem cfg r : r ∈ newRouter cfg → r ∈ provider_routes cfg ∨ r ∈ oauth_routes cfg ∨ r ∈ own_routes cfg.
Proof.
  unfold own_routes, newRouter. cbn [provider_routes oauth_routes].
  change (meta_routes (mkRouterConfig _ _ _ _ _ _ _)) with (meta_routes cfg).
  change (exec_routes (mkRouterConfig _ _ _ _ _ _ _)) with (exec_routes cfg).
  change (mounts_routes (mkRouterConfig _ _ _ _ _ _ _)) with (mounts_routes cfg).
  rewrite !elem_of_app. intuition.
Qed.

Section facts.
Context `{MapRange, Unicode, Mime} (created : string → Z) (c : Cache) (acl : option Evaluator).
Context (operationsLevel tokenOperationsLevel : Z) (annotationsEnabled : bool).
Context (may : permits_by → option Identity → (string → string) → bool) (pluginGone : string → bool).
Context (ready populated : bool).

#[local] Abbreviation level := (levelFor operationsLevel tokenOperationsLevel).
#[local] Abbreviation resource := (resource_named created c acl).
#[local] Abbreviation gates_refuse := (run_gates created c acl operationsLevel tokenOperationsLevel pluginGone).
#[local] Abbreviation permitted := (permits created c acl annotationsEnabled may).
#[local] Abbreviation answer_of := (answer created c acl operationsLevel tokenOperationsLevel annotationsEnabled may pluginGone ready populated).
#[local] Abbreviation open_of := (open_methods created c acl annotationsEnabled may).

Lemma gates_grant chain res found id : tc_gates chain = GrantAndLevel res →
  gates_refuse chain found id = None ↔ Can acl id "write" (resource res id (PathValue found)) = true ∧ tc_level chain ≤ level id.
Proof.
  intros Eg. unfold run_gates. rewrite Eg. unfold requireWriteACL, requireLevel. destruct (Can _ _ _ _).
  - cbn. destruct (Z.leb_spec (tc_level chain) (level id)); split; [done|done|done|intros [_ ?]; lia].
  - split; [|by intros [? _]]. destruct (hiddenTarget _ _ _ _ _ _) as [[? ?]|]; done.
Qed.

Lemma gates_level chain p found id : tc_gates chain = LevelOnly p →
  gates_refuse chain found id = None ↔ tc_level chain ≤ level id.
Proof.
  intros Eg. unfold run_gates. rewrite Eg. unfold requireLevel. destruct (Z.leb_spec (tc_level chain) (level id)); split; try done; lia.
Qed.

(** C4: no write reaches the code that would carry it out past its gates. A
    request with any method but GET and HEAD, at any path, that a handler of
    the API gets to see is at its operations level, which is above read-only,
    and has the write grant on the resource its path names; but for the creates
    and the end of a shell, which have their level and judge the grant
    themselves, for shells and annotations, whose use case judges everything,
    for the resync, which takes any grant, and for what the MCP server, the
    identity provider and the authorization server serve. *)
Theorem writes_gated cfg q r vs : answer_of (newRouter cfg) q = Reached r vs → isSafeMethod (q_method q) = false →
  r ∈ provider_routes cfg ∨ r ∈ oauth_routes cfg ∨ r_handler r = "MCPHandler" ∨
  (r_handler r = "HandleResync" ∧ HasAnyGrant acl (q_identity q) = true) ∨
  ∃ chain, r_serving r = Behind chain ∧
    match tc_gates chain with
    | GrantAndLevel res => OpsOperational ≤ tc_level chain ≤ level (q_identity q) ∧
        Can acl (q_identity q) "write" (resource res (q_identity q) (PathValue (r, vs))) = true
    | LevelOnly _ => OpsConfiguration ≤ tc_level chain ≤ level (q_identity q) ∧
        r_handler r ∈ ["HandleCreateConfig"; "HandleCreateSecret"; "HandleDeleteExecSession"]
    | NoGates _ => r_handler r ∈ ["HandleCreateExecSession"; "HandleCreateAnnotation"; "HandlePatchAnnotation"; "HandleDeleteAnnotation"]
    end.
Proof.
  intros Ha Hsafe. unfold answer in Ha. destruct (requireReady _ _ _ _); [done|].
  destruct (route (newRouter cfg) q) as [found|] eqn:Er; [|done].
  destruct (catch_all found.1) eqn:Ec; [unfold fallback in Ha; by repeat case_match|].
  assert (found = (r, vs) ∧ (guard_refuses acl (r_guard r) (q_identity q) = false) ∧
    ∀ chain, r_serving r = Behind chain → gates_refuse chain found (q_identity q) = None) as (-> & Hg & Hch).
  { destruct found as [r0 v0]. unfold serve_route in Ha. cbn [fst snd] in Ha.
    destruct (guard_refuses _ _ _) eqn:Eg; [by repeat case_match|]. destruct (r_serving r0) as [chain| | |] eqn:Es.
    - destruct (run_chain _ _ _ _ _ _ _ _ _) eqn:Eru; [done|]. injection Ha as -> ->. split_and!; [done..|].
      rewrite Es. intros chain' [= <-]. unfold run_chain, or_refused in Eru. by destruct (run_gates _ _ _ _ _ _ _ _ _).
    - assert (r0 = r ∧ v0 = vs) as [-> ->] by (by repeat case_match; simplify_eq/=). split_and!; [done..|by rewrite Es].
    - assert (r0 = r ∧ v0 = vs) as [-> ->] by (by repeat case_match; simplify_eq/=). split_and!; [done..|by rewrite Es].
    - injection Ha as -> ->. split_and!; [done..|by rewrite Es]. }
  clear Ha. unfold route in Er. apply match_route_elem in Er as [Hin Hm]. cbn [fst] in Ec.
  apply newRouter_elem in Hin as [?|[?|Hin]]; [by left|by right; left|right; right].
  pose proof (own_routes_ok cfg) as Hok. rewrite Forall_forall in Hok. specialize (Hok r Hin). unfold write_ok in Hok.
  assert (r_method r ≠ "GET") as Hget.
  { intros E. unfold isSafeMethod in Hsafe. apply orb_false_iff in Hsafe as [Hs1 Hs2]. apply bool_decide_eq_false in Hs1, Hs2.
    destruct Hm as [?|[[? _]|?]]; congruence. }
  rewrite (bool_decide_false _ Hget), Ec in Hok. cbn [orb] in Hok.
  case_bool_decide as Emcp; [by left|right]. case_bool_decide as Ers.
  - left. split; [done|]. unfold guard_refuses in Hg. destruct (r_guard r); try done. by apply negb_false_iff in Hg.
  - right. apply andb_true_iff in Hok as [_ Hok]. destruct (r_serving r) as [chain| | |] eqn:Es; try done. exists chain. split; [done|].
    specialize (Hch chain eq_refl). destruct (tc_gates chain) as [res|p|p] eqn:Eg.
    + destruct (proj1 (gates_grant chain res _ _ Eg) Hch) as [Hcan Hlv]. apply Z.leb_le in Hok. split; [by split|exact Hcan].
    + pose proof (proj1 (gates_level chain p _ _ Eg) Hch) as Hlv. apply andb_true_iff in Hok as [Hop%Z.leb_le Hha%bool_decide_eq_true]. by split_and!.
    + by apply bool_decide_eq_true in Hok.
Qed.

(** ** Allow *)

Lemma list_find_unique {A} (P : A → Prop) `{!∀ x, Decision (P x)} l x :
  x ∈ l → P x → (∀ y, y ∈ l → P y → y = x) → ∃ i, list_find P l = Some (i, x).
Proof.
  intros Hx Px Hu. destruct (list_find P l) as [[i y]|] eqn:E.
  - apply list_find_Some in E as (Hy & Py & _). exists i. rewrite (Hu y); [done|by eapply list_elem_of_lookup_2|done].
  - apply list_find_None in E. rewrite Forall_forall in E. by destruct (E x Hx).
Qed.

Lemma distinct_eq routes r r' : distinct routes → r ∈ routes → r' ∈ routes →
  r_method r = r_method r' → r_path r = r_path r' → r = r'.
Proof.
  unfold distinct. induction routes as [|x l IH]; [by intros _ ?%not_elem_of_nil|]. cbn. rewrite NoDup_cons. intros [Hn Hd].
  rewrite !elem_of_cons. intros [->|Hx1] [->|Hx2] Em Ep; [done| | |by apply IH].
  - destruct Hn. rewrite Em, Ep. by apply (list_elem_of_fmap_2 (λ r, (r_method r, r_path r))).
  - destruct Hn. rewrite <-Em, <-Ep. by apply (list_elem_of_fmap_2 (λ r, (r_method r, r_path r))).
Qed.

Lemma open_route_of routes q lvl m r vs : distinct routes → m ≠ "HEAD" → match_route routes m (q_path q) = Some (r, vs) →
  is_Some (open_route created c acl annotationsEnabled may routes q lvl m) ↔
  match r_serving r with
  | Behind chain => r_method r = "" ∨ tc_level chain ≤ lvl ∧ permitted chain (with_method q m) (r, vs) = true
  | _ => True
  end.
Proof.
  intros Hd Hm Hr. pose proof Hr as Hr'. apply match_route_elem in Hr' as [Hin Hmr]. unfold open_route, route.
  cbn [q_method q_path with_method]. rewrite Hr. cbn [fst].
  assert (r_method r = m ∨ r_method r = "") as Hmr' by (destruct Hmr as [?|[[? _]|?]]; [by left|done|by right]). clear Hmr.
  set (P := λ rc : Route * tieredChain, r_method rc.1 = m ∧ r_path rc.1 = r_path r ∧ r_method r ≠ "").
  assert (∀ rc, rc ∈ omap tiered_route routes → P rc → rc.1 = r ∧ r_serving r = Behind rc.2) as Hfound.
  { intros [r0 ch] (r1 & Hr1 & Et)%list_elem_of_omap (E1 & E2 & E3). unfold tiered_route in Et.
    destruct (r_serving r1) eqn:Es; try done. injection Et as -> ->. cbn in E1, E2. destruct Hmr' as [Hmr|?]; [|done].
    assert (r0 = r) as -> by (apply (distinct_eq routes); congruence). done. }
  destruct (list_find _ _) as [[i rc]|] eqn:El.
  - apply list_find_Some in El as (Hl & HP & _). apply list_elem_of_lookup_2 in Hl. destruct rc as [r0 ch].
    destruct (Hfound _ Hl HP) as [E0 ->]. cbn [fst snd] in E0 |- *. subst r0. destruct HP as (_ & _ & Hne).
    destruct (Z.ltb_spec lvl (tc_level ch)); cbn [orb].
    + split; [by intros [? ?]|intros [?|[? _]]; [done|lia]].
    + destruct (permits _ _ _ _ _ _ _ _); cbn; [split; [by right|by eauto]|]. split; [by intros [? ?]|intros [?|[_ ?]]; done].
  - split; [intros _|by eauto]. destruct (r_serving r) as [chain| | |] eqn:Es; try done.
    destruct (decide (r_method r = "")) as [|Hne]; [by left|]. exfalso. apply list_find_None in El. rewrite Forall_forall in El.
    apply (El (r, chain)); [|unfold P; cbn; split_and!; [by destruct Hmr'|done|done]]. apply list_elem_of_omap. exists r. split; [done|]. unfold tiered_route. by rewrite Es.
Qed.

(** What puts a method in an Allow: for OPTIONS that the path routes anything,
    for any other that a route of the path's own answers it and, but for HEAD,
    that the caller has what the route's chain asks. *)
Definition usable (routes : list Route) (q : ApiRequest) (m : string) : Prop :=
  if bool_decide (m = "OPTIONS") then ∃ m', m' ∈ probed ∧ serves_own routes (with_method q m') = true
  else m ∈ probed ∧ ∃ r vs, match_route routes m (q_path q) = Some (r, vs) ∧ catch_all r = false ∧
    match r_serving r with
    | Behind chain =>
        m = "HEAD" ∨
        match tc_gates chain with
        | GrantAndLevel _ => gates_refuse chain (r, vs) (q_identity q) = None
        | LevelOnly _ | NoGates _ => tc_level chain ≤ level (q_identity q) ∧ permitted chain (with_method q m) (r, vs) = true
        end
    | _ => True
    end.

Lemma allows_spec routes q m :
  m ∈ allows routes q ↔
  m ∈ probed ∧ serves_own routes (with_method q m) = true ∨
  m = "OPTIONS" ∧ ∃ m', m' ∈ probed ∧ serves_own routes (with_method q m') = true.
Proof.
  unfold allows. destruct (filter (λ m, serves_own routes (with_method q m) = true) probed) as [|x l] eqn:Ef.
  - assert (∀ m', m' ∈ probed → serves_own routes (with_method q m') = true → False) as Hnone.
    { intros m' Hm' Hs. assert (m' ∈ filter (λ m, serves_own routes (with_method q m) = true) probed) as Hf
        by (by apply list_elem_of_filter). rewrite Ef in Hf. by apply not_elem_of_nil in Hf. }
    split; [by intros ?%not_elem_of_nil|intros [[? ?]|(_ & m' & ? & ?)]; exfalso; by eapply Hnone].
  - rewrite elem_of_app, list_elem_of_singleton, <-Ef, list_elem_of_filter.
    split; [intros [[? ?]|Ho]; [by left|right]|intros [[? ?]|[? _]]; [by left|by right]].
    split; [done|]. exists x. assert (x ∈ x :: l) as Hx by left. rewrite <-Ef in Hx. by apply list_elem_of_filter in Hx as [? ?].
Qed.

(** A method no chain is recorded under is open. *)
Lemma open_route_bare routes q lvl m :
  (∀ r, r ∈ routes → is_Some (tiered_route r) → r_method r ≠ m) →
  is_Some (open_route created c acl annotationsEnabled may routes q lvl m).
Proof.
  intros Hno. unfold open_route. destruct (route _ _) as [found|]; [|by eauto].
  destruct (list_find _ _) as [[i [r0 ch]]|] eqn:El; [|by eauto]. exfalso.
  apply list_find_Some in El as (Hl & (Em & _) & _). apply list_elem_of_lookup_2 in Hl.
  apply list_elem_of_omap in Hl as (r1 & Hr1 & Et). pose proof Et as Et'. unfold tiered_route in Et'.
  destruct (r_serving r1); [|done..]. injection Et' as -> ->. cbn in Em. by eapply Hno.
Qed.

Lemma open_of_spec routes q m : distinct routes → Forall (λ r, tiered_ok r = true) routes →
  m ∈ open_of routes q (level (q_identity q)) ↔ usable routes q m.
Proof.
  intros Hd Hno. assert (∀ r, r ∈ routes → is_Some (tiered_route r) → r_method r ∈ ["GET"; "POST"; "PUT"; "PATCH"; "DELETE"]) as Hm.
  { intros r Hr [x Ex]. rewrite Forall_forall in Hno. specialize (Hno r Hr). unfold tiered_ok in Hno. rewrite Ex in Hno.
    by apply bool_decide_eq_true in Hno. }
  assert (∀ m', m' ∉ ["GET"; "POST"; "PUT"; "PATCH"; "DELETE"] →
    is_Some (open_route created c acl annotationsEnabled may routes q (level (q_identity q)) m')) as Hbare.
  { intros m' Hm'. apply open_route_bare. intros r Hr Ht <-. by apply Hm', Hm. }
  unfold open_methods, usable. rewrite list_elem_of_filter, allows_spec. case_bool_decide as Eo.
  { subst m. split; [intros [_ [[Hp _]|[_ ?]]]; [unfold probed in Hp; set_solver|done]|intros Hs].
    split; [apply Hbare; set_solver|by right]. }
  unfold serves_own, route. cbn [q_method q_path with_method].
  destruct (match_route routes m (q_path q)) as [[r vs]|] eqn:Er; [|split; [by intros [_ [[_ ?]|[? _]]]|by intros (_ & ? & ? & ? & _)]].
  rewrite negb_true_iff. destruct (decide (m = "HEAD")) as [->|Hh].
  { split.
    - intros [_ [[Hp Hc]|[? _]]]; [|done]. split; [done|]. exists r, vs. split_and!; [done..|]. destruct (r_serving r); auto.
    - intros (Hp & r' & vs' & [= <- <-] & Hc & _). split; [apply Hbare; set_solver|by left]. }
  rewrite (open_route_of routes q _ m r vs Hd Hh Er). pose proof Er as Hin. apply match_route_elem in Hin as [Hin _].
  assert (match r_serving r with Behind chain => r_method r = "" ∨ tc_level chain ≤ level (q_identity q) ∧ permitted chain (with_method q m) (r, vs) = true | _ => True end ↔
    match r_serving r with
    | Behind chain => m = "HEAD" ∨
        match tc_gates chain with
        | GrantAndLevel _ => gates_refuse chain (r, vs) (q_identity q) = None
        | LevelOnly _ | NoGates _ => tc_level chain ≤ level (q_identity q) ∧ permitted chain (with_method q m) (r, vs) = true
        end
    | _ => True end) as ->.
  { destruct (r_serving r) as [chain| | |] eqn:Es; try done.
    assert (r_method r ≠ "") as Hne.
    { intros E. assert (is_Some (tiered_route r)) as Ht by (unfold tiered_route; rewrite Es; by eauto).
      specialize (Hm r Hin Ht). rewrite E in Hm. set_solver. }
    destruct (tc_gates chain) as [res|p|p] eqn:Eg.
    - rewrite (gates_grant chain res) by done. unfold permits. rewrite Eg. cbn [q_identity with_method].
      split; [by intros [?|[? ?]]; [|right]|intros [?|[? ?]]; [done|by right]].
    - split; [by intros [?|?]; [|right]|intros [?|?]; [done|by right]].
    - split; [by intros [?|?]; [|right]|intros [?|?]; [done|by right]]. }
  split; [intros [? [[? ?]|[? _]]]; [|done]; split; [done|]; exists r, vs; by split_and!|].
  intros (? & r' & vs' & [= <- <-] & ? & ?). split; [done|by left].
Qed.

Lemma newRouter_tiered cfg : Forall (λ r, tiered_route r = None) (provider_routes cfg ++ oauth_routes cfg) →
  Forall (λ r, tiered_ok r = true) (newRouter cfg).
Proof.
  rewrite !Forall_forall. intros Hext r Hr. apply newRouter_elem in Hr as [Hr|[Hr|Hr]].
  1-2: unfold tiered_ok; rewrite Hext; [done|apply elem_of_app; by auto].
  pose proof (own_routes_tiered cfg) as Hown. rewrite Forall_forall in Hown. by apply Hown.
Qed.

(** C35: the Allow the catch-all answers with. At a path of the API a request
    whose method the path does not route is told of exactly: OPTIONS, where the
    path routes anything; HEAD, wherever a route of the path's own answers it
    (its chain is not asked: [head_listed_without_get]); and any other method
    when a route of the path's own answers it and, behind a chain, the caller
    has what the chain asks, its level and its grant; behind the write grant on a
    resource that is exactly when the gates let the method through. Guards of
    reads are not looked at. The routes the identity provider and the
    authorization server add have no chain. *)
Theorem allow_exact cfg q l : distinct (newRouter cfg) →
  Forall (λ r, tiered_route r = None) (provider_routes cfg ++ oauth_routes cfg) →
  answer_of (newRouter cfg) q = MethodNotAllowed l ∨ (∃ patch, answer_of (newRouter cfg) q = OptionsAnswer l patch) →
  ∀ m, m ∈ l ↔ usable (newRouter cfg) q m.
Proof.
  intros Hd Hext Ha m. rewrite <-(open_of_spec _ q m Hd (newRouter_tiered cfg Hext)).
  assert (l = open_of (newRouter cfg) q (level (q_identity q))) as ->; [|done].
  unfold answer in Ha. destruct (requireReady _ _ _ _); [by destruct Ha as [|[? ?]]|].
  destruct (route (newRouter cfg) q) as [found|]; [|by destruct Ha as [|[? ?]]].
  destruct (catch_all found.1).
  - unfold fallback in Ha. repeat case_match; destruct Ha as [Ha|[? Ha]]; try done; congruence.
  - unfold serve_route in Ha. repeat case_match; by destruct Ha as [|[? ?]].
Qed.
End facts.

(** * Closed examples *)

Definition demo_cfg : RouterConfig := mkRouterConfig false false true true false [] [].

Definition demo_request (method url : string) (path : list string) : ApiRequest :=
  mkApiRequest method url path (Some (mkIdentity "alice" "" "" [] "oauth" None 0 "")) "" (mkNegotiation TypeJSON "" false) [].

(** A token held at the configuration tier of an impactful deployment without
    a policy. *)
Definition demo_answer (q : ApiRequest) : served :=
  @answer map_range_std ascii_unicode plain_mime (λ _, 0) (New 0) None 3 2 true (λ _ _ _, true) (λ _, false) true true (newRouter demo_cfg) q.

Definition demo_open (q : ApiRequest) (level : Z) : list string :=
  @open_methods map_range_std (λ _, 0) (New 0) None true (λ _ _ _, true) (newRouter demo_cfg) q level.

Lemma demo_distinct : distinct (newRouter demo_cfg).
Proof. unfold distinct. apply (bool_decide_unpack _). vm_compute. exact I. Qed.

Definition demo_labels : ApiRequest := demo_request "PATCH" "/services/web/labels" ["services"; "web"; "labels"].

Lemma writes_gated_witness :
  ∃ r, demo_answer demo_labels = Reached r ["web"] ∧ isSafeMethod (q_method demo_labels) = false ∧ r_handler r = "HandlePatchServiceLabels" ∧
    ∃ chain, r_serving r = Behind chain ∧ tc_level chain ≤ 2.
Proof.
  exists (handle "PATCH /services/{id}/labels" (TakesJSONPatch (Append (precond "serviceLabelsSpec") (svcOp OpUpdateService))) "HandlePatchServiceLabels").
  assert (demo_answer demo_labels = Reached (handle "PATCH /services/{id}/labels" (TakesJSONPatch (Append (precond "serviceLabelsSpec") (svcOp OpUpdateService)))
    "HandlePatchServiceLabels") ["web"]) as Ea by (vm_compute; reflexivity).
  split_and!; [exact Ea|reflexivity|reflexivity|].
  destruct (@writes_gated map_range_std ascii_unicode plain_mime (λ _, 0) (New 0) None 3 2 true (λ _ _ _, true) (λ _, false) true true
    demo_cfg demo_labels _ _ Ea eq_refl) as [Hp|[Ho|[Hh|[[Hh _]|(chain & Es & Hg)]]]].
  - destruct (not_elem_of_nil _ Hp).
  - destruct (not_elem_of_nil _ Ho).
  - discriminate.
  - discriminate.
  - exists chain. split; [exact Es|]. injection Es as <-. cbn in Hg. destruct Hg as [[_ Hl] _]. exact Hl.
Defined.

(** A DELETE of a service's labels is told of its reads and its PATCH. *)
Lemma allow_exact_witness :
  ∃ l, demo_answer (demo_request "DELETE" "/services/web/labels" ["services"; "web"; "labels"]) = MethodNotAllowed l ∧
    "PATCH" ∈ l ∧ ("DELETE" ∈ l → False) ∧ "OPTIONS" ∈ l.
Proof.
  eexists. split; [vm_compute; reflexivity|].
  assert (∀ m, _) as Hex by exact (@allow_exact map_range_std ascii_unicode plain_mime (λ _, 0) (New 0) None 3 2 true (λ _ _ _, true)
    (λ _, false) true true demo_cfg (demo_request "DELETE" "/services/web/labels" ["services"; "web"; "labels"]) _ demo_distinct
    (Forall_nil_2 _) (or_introl eq_refl)).
  split_and!.
  - apply (Hex "PATCH"). split; [apply (bool_decide_unpack _); exact I|].
    exists (handle "PATCH /services/{id}/labels" (TakesJSONPatch (Append (precond "serviceLabelsSpec") (svcOp OpUpdateService))) "HandlePatchServiceLabels"), ["web"].
    split; [vm_compute; reflexivity|]. split; [vm_compute; reflexivity|]. right. vm_compute. reflexivity.
  - intros Hd. apply (Hex "DELETE") in Hd as (_ & r & vs & Hm & Hc & _).
    vm_compute in Hm. injection Hm as <- <-. vm_compute in Hc. discriminate.
  - apply (Hex "OPTIONS"). exists "GET". split; [apply (bool_decide_unpack _); exact I|vm_compute; reflexivity].
Defined.

(** HEAD is asked of a level no route keeps under its name: where only a GET
    above the caller's level is routed, Allow lists HEAD without it. *)
Example head_listed_without_get :
  demo_open (demo_request "PUT" "/swarm/unlock-key" ["swarm"; "unlock-key"]) 0 = ["HEAD"; "OPTIONS"] ∧
  demo_answer (demo_request "HEAD" "/swarm/unlock-key" ["swarm"; "unlock-key"]) = Refused (RefusedLevel 3 2).
Proof. vm_compute. done. Qed.

(** Every precondition is evaluated on what a GET of the same path sends, and a
    write whose path serves none has none to match. *)
Example conditions_match_reads :
  let read_at r := existsb (λ x, String.eqb (r_method x) "GET" && bool_decide (r_path x = r_path r)) (newRouter demo_cfg) in
  forallb (λ r, match r_serving r with
    | Behind chain =>
        match tc_condition chain with
        | Unconditional => true
        | OnRepresentation _ => read_at r
        | Unrepresented _ => negb (read_at r)
        end
    | _ => true
    end) (newRouter demo_cfg) = true.
Proof. vm_compute. done. Qed.
